(* ===== verification/_CoqProject ===== *)
-Q . S2P
Prelude.v
Wyhash.v
BunCore.v
BitSet.v
LinearFifo.v
LinearFifoSpec.v
MultiBitSet.v
MultiBitSetSpec.v
MultiBitSetQuery.v
Vlq.v
SemverString.v
SemverVersion.v
SemverRange.v
SemverQuery.v
Mappings.v
MappingsSpec.v
Wtf8.v
LineOffsetTable.v
LineOffsetTableSpec.v
SourceMapBuilder.v
SourceMapBuilderSpec.v
SourceMapChunk.v
SourceMapChunkSpec.v
SourceMapProps.v
Glob.v
GlobTotal.v
GlobSpec.v
GlobArms.v
GlobCorrect.v
Paths.v
PathNorm.v
PathJoin.v
PathRelative.v
PathProps.v
PathIter.v
PathMake.v
Valkey.v
ValkeyGrammar.v
ValkeyScan.v
ValkeyCut.v
ValkeyClient.v
ValkeyInv.v
ValkeyStream.v
ValkeyFifo.v
ValkeyProps.v
HashMap.v
HashMapSpec.v
HashMapUpdate.v
HashMapGrow.v
HashMapModel.v
HashMapProps.v
Hoist.v
HoistSpec.v
HoistStep.v
HoistPlace.v
HoistWant.v
HoistInv.v
HoistLoop.v
HoistTerm.v
HoistOut.v
HoistCycle.v
HoistProps.v
HoistPath.v
HoistPathProps.v
