(* ===== verification/Prelude.v ===== *)
(** A verification library for the string, hashing, collection, version, path
    and source-map core of the Rust sources under src/src, and for their client
    of Valkey.

    * Parts of the program and how they interact

    The package manager and the module resolver keep package names, tags and
    versions as 8-byte handles into one string buffer; they parse versions and
    version ranges from that buffer, order versions, and test them against
    ranges.  Hash tables and string pools key on wyhash.  The installer and the
    bundler track packages, columns and symbols in bit sets, and byte streams
    pass through a ring buffer.  The printer reports every location it prints
    to a source-map builder, the linker joins the chunks of the files of a
    bundle, and the runtime parses such maps to look positions up.  Workspaces,
    tests and scripts select files with glob patterns, and everything that
    touches files joins, normalises and relates paths in fixed buffers.  The
    Valkey client writes commands to a socket, reads the replies from it as they
    come, and settles the promises of the commands; JavaScript, the socket and
    the timers call its handlers.  The
    files below follow those layers; each requires the ones before it that it calls.

    - Prelude: bytes, literals, machine words, results, slices, comparisons.
    - Wyhash: src/src/wyhash/lib.rs.  Module Wyhash11 is the streaming and the
      stateless hash of that name, Module Wyhash the final4 variant (streaming
      [init]/[update]/[final_], one-shot [hash], compile-time [hash_const],
      [hash_ascii_lowercase]), Module HashInt the integer mixers, Module
      OneShotHasher the hasher of the hash maps.
    - BunCore: what the other crates use of src/src/bun_core/fmt.rs
      ([parse_int], [parse_unsigned]), bun_core/string/immutable.rs ([eql],
      [eql_long], [split], [index_of], [order]) and bun_alloc/lib.rs ([trim]).
      libc's memmem and the Highway character search are not Rust code of the
      repository: they are the operations of the class [ByteSearch], with
      their documented behaviour as the laws [ByteSearchOk]; the instance
      [scalar_search] shows that the laws can hold.
    - BitSet: src/src/collections/bit_set.rs, [IntegerBitSet] with its
      iterator, and [set_range_value_masks] of the multi-word sets.
    - LinearFifo: src/src/collections/linear_fifo.rs, the ring buffer with its
      static, borrowed and dynamic storage, and [pump] between the classes
      [PumpSource] and [PumpSink] that stand for io::Read and io::Write.
      LinearFifoSpec: the queue it implements and the properties.
    - MultiBitSet: the sets of many words of bit_set.rs; the Modules
      [ArrayBitSet], [DynamicBitSet] (resize, clone, copy), [BitSetList] and
      [Auto] are the types of those names, [BitSetIterator] their iterator.
      The system allocator is the class [Allocator].  MultiBitSetSpec: the
      finite sets they implement, with the operations of both types as
      instances of one class; MultiBitSetQuery: iteration, queries and the
      properties.
    - HashMap: src/src/collections/zig_hash_map.rs, the open-addressing map with
      a byte of metadata for each slot; hash and equality of keys are the class
      [HashContext].  HashMapSpec: the invariant [wf] of a table (no free slot
      breaks the probe of a key), and lookups.  HashMapUpdate: writing a slot, and
      the probe of an insertion.  HashMapGrow: rehashing.  HashMapModel: each
      operation on the gmap the table holds, and where pairs stay.  HashMapProps:
      runs of operations, and the properties.
    - Vlq: the module [vlq] of src/src/base64/lib.rs, the numbers of source
      maps.
    - SemverString: src/src/semver/lib.rs.  [SemverString] is the struct
      String (eight bytes, inline or offset and length), with [ExternalString],
      [SlicedString], [Buf] (an arena with a pool by hash) and [Builder]
      (count, allocate, append).  A pool is a gmap from hashes to handles.
    - SemverVersion: src/src/semver/Version.rs: parse, print, order, the scans
      [which_version_is_pinned] and [is_tagged_version_only], and the copy
      into a builder.
    - SemverRange: src/src/semver/SemverRange.rs, comparators and ranges.
    - SemverQuery: src/src/semver/SemverQuery.rs: the lists of ranges with
      their tail pointers, the parser of queries, evaluation and printing.
    - Mappings: src/src/sourcemap/Mapping.rs, the list of mappings (a list of
      rows for a [MultiArrayList]) with its sort and search, and the parser of
      the "mappings" text.  MappingsSpec: its order and the parser's invariant.
    - Wtf8: the decoding of characters in src/src/bun_core, with the encoding
      as a reference; the Highway search for newlines and non-ASCII bytes is
      the class [NewlineSearch] with its law [NewlineSearchOk].
    - LineOffsetTable: src/src/sourcemap/LineOffsetTable.rs, the table of the
      lines of a source and the lookup of a location.  LineOffsetTableSpec:
      its rows, computed one character at a time.
    - SourceMapBuilder: [NewBuilder] of src/src/sourcemap/Chunk.rs, which scans
      the output and writes the chunk of a file, with the text format of
      sourcemap/lib.rs.  SourceMapBuilderSpec: the chunk as events, and the
      reference [out_file] that makes them one character and one call at a
      time.
    - SourceMapChunk: the join of the chunks of a bundle, from sourcemap/lib.rs,
      bun_core/string/StringJoiner.rs and bundler/LinkerContext.rs.
      SourceMapChunkSpec: where it moves the events.  SourceMapProps: parsing
      the joined text back, and the properties.
    - Glob: src/src/glob/matcher.rs, the matcher of a path against a pattern:
      one definition per arm of its loop, [step] for a round and
      [glob_match_impl] for the loop with the nested branches of braces.
      GlobTotal: the invariant of the loop and the measure that its two points
      to go back to leave smaller.  GlobSpec: patterns without braces as trees,
      their text, and the reference [segs_match].  GlobArms: what each arm does
      on that text.  GlobCorrect: the matches still possible at each point, and
      the equivalence.
    - Paths: src/src/paths/resolve_path.rs on bytes: volumes, normalising,
      [join], [join_abs] for POSIX, Loose and Windows, [dirname], [basename].
      The target and the buffers that the code takes from the thread are
      arguments.  PathNorm: paths as segments, [resolve] as a walk with a
      stack, and the loop of [normalize_string_generic_tz] as that walk.
      PathJoin: path.join and path.resolve as references, and the buffers.
      PathRelative: common and relative paths of the same file, and their
      reference [relative_segments].  PathProps: the properties.
    - PathIter: src/src/paths/component_iterator.rs, the iterator over the
      components of a path and the walk [make_path_with] over a closure that
      makes one directory.
    - Valkey: src/src/valkey/valkey_protocol.rs: the reader of replies, a
      computation of the state-and-error monad [M] over [ValkeyReader], and the
      [ReplyScanner] that finds the end of a reply and resumes.  Floating-point
      numbers and libc are the class [Target].  ValkeyGrammar: the grammar
      [resp] of replies, and the reader as its decoder.  ValkeyScan: the scanner
      on that grammar, resumed anywhere.  ValkeyCut: the reader on a buffer
      that ends inside of a reply.
    - ValkeyClient: src/src/runtime/valkey_jsc: the commands and their bytes
      (ValkeyCommand.rs), the client (valkey.rs) and what of js_valkey.rs changes
      its state, with OffsetByteList of collections/vec_ext.rs.  A handler is a
      computation of the monad [J] over [Client]: it ends with a value or because
      JavaScript terminated.  What it does outside (a write, a promise settled, a
      callback) is an event of the [log] of the client, and what the outside
      answers (how much a write took, whether a conversion threw, which commands
      the scripts between two events sent) is any function of that log, the class
      [Host].  ValkeyInv: what the handlers preserve, and the promises.
      ValkeyStream: [on_data] on the chunks of a stream.  ValkeyFifo: the order of
      commands and replies.  ValkeyProps: the properties, and a client to
      evaluate them on.

    * How state and operations correspond to the code

    A definition has the name of the function it models, with the type before
    it where several types have a method of that name.  A method on [&mut self]
    returns the new state; several locals changed by a loop are a record
    ([Hasher], [TLoop], [PLoop], [QLoop]).  A slice access, a conversion or an
    arm marked [unreachable!()] that panics is [None] of an option, so a
    theorem that an operation returns [Some] says that it cannot panic; reads
    through raw pointers are slices too, so the same theorems show that they
    stay in bounds.  Unsigned machine integers are Z, wrapped, saturated or
    checked where the code does so, signed ones wrap to 32 bits as in a release
    build ([i32_wrap]); indices into a ring buffer, whose lengths
    fit in memory, are nat.  A pointer into a list is the index of the
    node it points to; a pointer into a buffer is an offset.

    Allocation is assumed to succeed, except in the multi-word sets, where it
    may fail; debug assertions are not executed.

    * Fuel

    Loops that are not structural take fuel, and every theorem about them
    shows that the fuel given is enough: the number of bytes for the scans, for
    the rounds of the hashes and for the parsers (each round moves forward),
    two more than the length for the iterators of [split], 64 for the bits of
    a word, the number of words left for the empty words a bit-set
    iterator skips, the length of the list for the binary searches of lines
    and mappings, the length of a path for the loop that normalises it, the
    capacity of a hash table for its probes, and twice the number of
    components for the walk that makes directories.  The
    reader of replies has one level more than MAX_NESTING_DEPTH and a round more
    than the bytes of the buffer for the elements of an aggregate, the scanner
    and [on_data] one more than the bytes they look at; closing a socket runs
    its close handler once at most, since it is detached first, so [close] has
    two rounds.  The loop of the glob matcher goes back and has no short
    bound: it may run 2^240 rounds, and its measure is below that.

    * What the theorems show

    The properties are in the Modules named [..Props], at the end of each file.
    - Queries: the text of a query parses and is satisfied by exactly the
      releases its comparators admit; evaluation agrees with a disjunction of
      conjunctions over the precedence of semver, prereleases included; caret,
      tilde and wildcard ranges mean what they should; the linked lists refine
      lists of lists; the parser is total.
    - Versions: the order is the precedence of the semver specification and a
      total preorder; parsing is total and inverse to printing; bounds of the
      numbers; the pin scan; copies keep their tags.
    - Strings: handles read back their text and compare by it; the builder
      protocol never overruns; what a pool hit guarantees, and what it does not.
    - Hashes: streaming, one-shot, compile-time and lowercase variants agree
      on every input and every split; the integer mixers are injective.
    - Helpers: integer parsing, word-wise equality, splitting.
    - Bit sets: the mask arithmetic of one word and of many refines finite
      sets, through resizes as well; iteration and range updates touch exactly
      the bits they should; what copying between lengths needs.
    - Ring buffer: every sequence of operations refines a queue, across
      wrap-around, growth and realignment; [pump] delivers everything.
    - Hash map: every sequence of operations, up to 2^30 entries, replies what a
      finite map replies, whatever collides; the iterator gives each pair once;
      pairs move only into a strictly larger table, never when the room was
      reserved.
    - Source maps: printing any files in any calls, joining their chunks and
      parsing the result gives the positions of the reference; the parser
      returns on every text and the search finds the last mapping before a
      column; a line table finds every location, with the one column it gets
      wrong.
    - Glob patterns: the matcher answers on every pattern and path, braces
      included; without braces the answer is that of the reference.
    - Paths, on POSIX: normalising, joining and resolving never overrun their
      buffers and compute the references on segments; a relative path leads
      back to its target; the component iterator walks the segments both ways;
      making a directory with its parents ends with all of them there.
    - Valkey: the reader returns on every buffer and reads exactly the grammar;
      the scanner gives the same answer in any chunks and agrees with the reader;
      commands parse back; the replies of a stream reach the client once each, in
      order, in any chunks; on an established connection without subscriptions
      commands go out and promises are settled in the order of sending, each with
      its reply; no promise is settled twice whatever happens; a failure rejects
      every command that waits.  Four Examples evaluate cases where the code does
      not do what it means to.

    * Not modelled, and why

    Of the paths, the theorems leave the Windows volumes aside, and the u16
    copies and the path builders are not modelled.  Of the source maps, the
    compact form of the runtime (InternalSourceMap), the rewriting of
    pieces (SourceMapPieces) and the JSON around the mappings are not done.
    Formatters with terminal colours and JSON output only print.  Of the
    Valkey client, the properties of streams leave out the replies with a blob
    error or a verbatim string, which the client gives up when a chunk ends
    inside of their payload (a property says so), and those of order leave out
    subscriptions.  Its reference counts and timers, the keep-alive of the event
    loop, the conversion of replies to JavaScript, the parsing of options and
    the functions of js_valkey_functions.rs are not modelled; sockets are opened
    by the host, and the close handler of an established socket is an operation
    of its own.  The JavaScript, CSS and bundler crates are far larger than this
    library; the rest of the
    runtime, the event loop, HTTP, TLS and the file system are bindings and
    I/O.  The bounds [v < 2^64 - 1] in the range theorems are those of
    [saturating_add]; texts are bounded by the 31-bit lengths of the handles. *)
From stdpp Require Export base list strings numbers option gmap.
From Stdlib Require Export ZArith Lia.
#[global] Open Scope Z_scope.

(** * Bytes and literals

    A [u8] is a [Z] in [0, 256); a [&[u8]] is a [list Z].  [#"x"] is the code
    of a character and [b!"text"] a byte-string literal, both expanded to
    numerals when the file is read. *)

Notation bytes := (list Z).

Definition ascii_code (s : string) : Z :=
  match s with
  | String a _ => Z.of_N (Ascii.N_of_ascii a)
  | EmptyString => 0
  end.

Fixpoint bytes_of_string (s : string) : bytes :=
  match s with
  | String a r => Z.of_N (Ascii.N_of_ascii a) :: bytes_of_string r
  | EmptyString => []
  end.

(** The literals and the bind of results have a scope of their own. *)
Declare Scope bun_scope.
#[global] Open Scope bun_scope.

Notation "# s" := ltac:(let v := eval vm_compute in (ascii_code s) in exact v)
  (at level 1, only parsing) : bun_scope.
Notation "b! s" := ltac:(let v := eval vm_compute in (bytes_of_string s) in exact v)
  (at level 1, only parsing) : bun_scope.

Definition is_byte (c : Z) : Prop := 0 <= c < 256.

(** The byte test that evaluates, for literals. *)
Lemma all_bytes l : forallb (fun c => (0 <=? c) && (c <? 256)) l = true -> Forall is_byte l.
Proof.
  intros H. apply Forall_forall. intros c Hc.
  rewrite forallb_forall in H. specialize (H c ltac:(by apply list_elem_of_In)).
  unfold is_byte. lia.
Qed.

(** * Machine words *)

Definition U32_MAX : Z := 2 ^ 32 - 1.
Definition U64_MAX : Z := 2 ^ 64 - 1.

(** [x as u64], [x as u32] on a non-negative wider integer. *)
Definition trunc64 (z : Z) : Z := z mod 2 ^ 64.
Definition trunc32 (z : Z) : Z := z mod 2 ^ 32.

(** [u64::saturating_add(1)]. *)
Definition saturating_succ64 (z : Z) : Z := Z.min (z + 1) U64_MAX.

Definition is_u64 (z : Z) : Prop := 0 <= z < 2 ^ 64.
Definition is_u32 (z : Z) : Prop := 0 <= z < 2 ^ 32.

(** Little-endian loads and stores ([from_le_bytes], [to_le_bytes]). *)
Fixpoint le_decode (l : bytes) : Z :=
  match l with
  | [] => 0
  | b :: r => b + 256 * le_decode r
  end.

Fixpoint le_encode (n : nat) (z : Z) : bytes :=
  match n with
  | O => []
  | S n => (z mod 256) :: le_encode n (z / 256)
  end.

(** * Errors *)

Inductive Result (A E : Type) : Type :=
| Ok (a : A)
| Err (e : E).
Arguments Ok {A E} a.
Arguments Err {A E} e.

Definition result_bind {A B E} (r : Result A E) (f : A -> Result B E) : Result B E :=
  match r with
  | Ok a => f a
  | Err e => Err e
  end.

(** [bun_alloc::AllocError]. *)
Inductive AllocError := OutOfMemory.

(** [r.ok()] and [r.map_err(|_| e)]. *)
Definition ok {A E} (r : Result A E) : option A :=
  match r with
  | Ok a => Some a
  | Err _ => None
  end.

Declare Scope result_scope.
Delimit Scope result_scope with result.
Notation "x <-? c ; k" := (result_bind c (fun x => k))
  (at level 20, c at level 100, k at level 200, right associativity) : result_scope.

(** * Slices

    [None] is a Rust panic: an index or a range out of bounds. *)

Definition slice {A} (l : list A) (a b : nat) : option (list A) :=
  if decide (a <= b <= length l)%nat then Some (take (b - a) (drop a l)) else None.

Definition slice_from {A} (l : list A) (a : nat) : option (list A) :=
  if decide (a <= length l)%nat then Some (drop a l) else None.

(** [buf[start..start + src.len()].copy_from_slice(src)]. *)
Definition copy_from_slice {A} (buf : list A) (start : nat) (src : list A) : option (list A) :=
  if decide (start + length src <= length buf)%nat
  then Some (take start buf ++ src ++ drop (start + length src) buf)
  else None.

(** The number of leading elements satisfying [p]: the effect of
    [while i < l.len() && p(l[i]) { i += 1 }] is [i := skip_while p l i]. *)
Fixpoint prefix_len {A} (p : A -> bool) (l : list A) : nat :=
  match l with
  | [] => O
  | c :: r => if p c then S (prefix_len p r) else O
  end.

Definition skip_while {A} (p : A -> bool) (l : list A) (i : nat) : nat :=
  (i + prefix_len p (drop i l))%nat.

(** * Character classes ([u8::is_ascii_*]) *)

Definition is_ascii_digit (c : Z) : bool := (#"0" <=? c) && (c <=? #"9").
Definition is_ascii_lowercase (c : Z) : bool := (#"a" <=? c) && (c <=? #"z").
Definition is_ascii_uppercase (c : Z) : bool := (#"A" <=? c) && (c <=? #"Z").
Definition is_ascii_alphabetic (c : Z) : bool := is_ascii_lowercase c || is_ascii_uppercase c.
Definition is_ascii_alphanumeric (c : Z) : bool := is_ascii_alphabetic c || is_ascii_digit c.
(** [u8::is_ascii_whitespace]: space, tab, line feed, form feed, return. *)
Definition is_ascii_whitespace (c : Z) : bool :=
  (c =? 32) || (c =? 9) || (c =? 10) || (c =? 12) || (c =? 13).
Definition to_ascii_lowercase (c : Z) : Z := if is_ascii_uppercase c then c + 32 else c.

(** * Orderings

    [core::cmp::Ordering] is [comparison].  [Preordered cmp] states that a
    three-way comparison is a total preorder; its instances build the
    comparisons of the components from one another. *)

Definition ordering_then (c d : comparison) : comparison :=
  match c with Eq => d | _ => c end.

Class Preordered {A : Type} (cmp : A -> A -> comparison) : Prop := {
  cmp_refl : forall x, cmp x x = Eq;
  cmp_flip : forall x y, cmp y x = CompOpp (cmp x y);
  cmp_trans_eq : forall x y z, cmp x y = Eq -> cmp y z = cmp x z;
  cmp_trans_lt : forall x y z, cmp x y = Lt -> cmp y z = Lt -> cmp x z = Lt
}.

(** Lexicographic comparison of lists, a strict prefix first: [<[T] as Ord>::cmp]. *)
Fixpoint list_compare {A} (cmp : A -> A -> comparison) (l k : list A) : comparison :=
  match l, k with
  | [], [] => Eq
  | [], _ :: _ => Lt
  | _ :: _, [] => Gt
  | x :: l', y :: k' => ordering_then (cmp x y) (list_compare cmp l' k')
  end.

(** [bool as Ord]: false before true. *)
Definition bool_compare (x y : bool) : comparison :=
  match x, y with
  | false, true => Lt
  | true, false => Gt
  | _, _ => Eq
  end.

(** * Tactics *)

(** Case analysis on the conditions of the goal, then closing by [lia]. *)
Ltac split_ifs :=
  repeat match goal with
  | |- context [decide ?P] => destruct (decide P)
  | |- context [if ?b then _ else _] => destruct b eqn:?
  end.

Ltac inv H := inversion H; subst; clear H.

(** Boolean comparisons of the hypotheses as propositions. *)
Ltac bool_prop :=
  repeat match goal with
  | H : (_ && _) = true |- _ => apply andb_prop in H; destruct H
  | H : (_ || _) = false |- _ => apply orb_false_elim in H; destruct H
  | H : negb _ = true |- _ => apply negb_true_iff in H
  | H : negb _ = false |- _ => apply negb_false_iff in H
  | H : (_ =? _) = true |- _ => apply Z.eqb_eq in H
  | H : (_ =? _) = false |- _ => apply Z.eqb_neq in H
  | H : (_ <=? _) = true |- _ => apply Z.leb_le in H
  | H : (_ <=? _) = false |- _ => apply Z.leb_gt in H
  | H : (_ <? _) = true |- _ => apply Z.ltb_lt in H
  | H : (_ <? _) = false |- _ => apply Z.ltb_ge in H
  end.

(** * Words and bytes *)

Lemma trunc64_range z : is_u64 (trunc64 z).
Proof. apply Z.mod_pos_bound. lia. Qed.

Lemma trunc64_id z : is_u64 z -> trunc64 z = z.
Proof. apply Z.mod_small. Qed.

Lemma le_decode_range l : Forall is_byte l -> 0 <= le_decode l < 256 ^ Z.of_nat (length l).
Proof.
  induction 1 as [|b r Hb _ IH]; cbn [le_decode length]; [lia|].
  unfold is_byte in Hb. rewrite Nat2Z.inj_succ, Z.pow_succ_r by lia. lia.
Qed.

Lemma length_le_encode n z : length (le_encode n z) = n.
Proof. revert z; induction n; intros; cbn; auto. Qed.

Lemma le_encode_bytes n z : Forall is_byte (le_encode n z).
Proof.
  revert z; induction n; intros; cbn; constructor; auto.
  apply Z.mod_pos_bound. lia.
Qed.

Lemma le_decode_encode n z : le_decode (le_encode n z) = z mod 256 ^ Z.of_nat n.
Proof.
  revert z; induction n as [|n IH]; intros z; cbn [le_decode le_encode].
  { by rewrite Z.mod_1_r. }
  rewrite IH, Nat2Z.inj_succ, Z.pow_succ_r by lia.
  rewrite Z.rem_mul_r by (try apply Z.pow_pos_nonneg; lia). done.
Qed.

Lemma le_encode_decode l : Forall is_byte l -> le_encode (length l) (le_decode l) = l.
Proof.
  induction 1 as [|b r Hb _ IH]; cbn [le_decode le_encode length]; [done|].
  unfold is_byte in Hb. f_equal.
  - rewrite Z.mul_comm, Z.mod_add, Z.mod_small; lia.
  - rewrite Z.mul_comm, Z.div_add, Z.div_small, Z.add_0_l by lia. done.
Qed.

Lemma le_decode_app l k :
  le_decode (l ++ k) = le_decode l + 256 ^ Z.of_nat (length l) * le_decode k.
Proof.
  induction l as [|b l IH]; cbn [le_decode length app].
  { rewrite Z.pow_0_r. lia. }
  rewrite IH, Nat2Z.inj_succ, Z.pow_succ_r by lia. lia.
Qed.

Lemma le_encode_app n m z :
  le_encode (n + m) z = le_encode n z ++ le_encode m (z / 256 ^ Z.of_nat n).
Proof.
  revert z; induction n as [|n IH]; intros z; cbn [le_encode Nat.add app].
  { by rewrite Z.pow_0_r, Z.div_1_r. }
  rewrite IH, Nat2Z.inj_succ, Z.pow_succ_r by lia.
  by rewrite Z.div_div by (try apply Z.pow_pos_nonneg; lia).
Qed.

Lemma land_128 c : is_byte c -> (Z.land c 128 =? 0) = (c <? 128).
Proof.
  assert (forallb (fun n => Bool.eqb (Z.land (Z.of_nat n) 128 =? 0) (Z.of_nat n <? 128))
    (seq 0 256) = true) as H by (vm_compute; reflexivity).
  intros Hc. unfold is_byte in Hc. rewrite forallb_forall in H.
  specialize (H (Z.to_nat c)). rewrite in_seq, Z2Nat.id in H by lia.
  apply Bool.eqb_prop, H. lia.
Qed.

(** Setting a bit above the value adds its weight. *)
Lemma lor_high_bit x k : 0 <= k -> 0 <= x < 2 ^ k -> Z.lor x (2 ^ k) = x + 2 ^ k.
Proof.
  intros Hk Hx. assert (Z.land x (2 ^ k) = 0) as Hd.
  { apply Z.bits_inj'. intros i Hi. rewrite Z.land_spec, Z.bits_0.
    destruct (decide (i = k)) as [->|Hne].
    - rewrite <- (Z.mod_small x (2 ^ k)) by lia. by rewrite Z.mod_pow2_bits_high by lia.
    - rewrite Z.pow2_bits_false by lia. apply andb_false_r. }
  by rewrite <- Z.lxor_lor, <- Z.add_nocarry_lxor.
Qed.

(** * Slices *)

Lemma slice_ok {A} (l : list A) a b :
  (a <= b <= length l)%nat -> slice l a b = Some (take (b - a) (drop a l)).
Proof. intros. unfold slice. by rewrite decide_True. Qed.

Lemma slice_from_ok {A} (l : list A) a :
  (a <= length l)%nat -> slice_from l a = Some (drop a l).
Proof. intros. unfold slice_from. by rewrite decide_True. Qed.

Lemma slice_Some {A} (l s : list A) a b :
  slice l a b = Some s ->
  (a <= b <= length l)%nat /\ s = take (b - a) (drop a l) /\ length s = (b - a)%nat.
Proof.
  unfold slice. case_decide; [|done]. intros [= <-].
  rewrite length_take, length_drop. repeat split; lia.
Qed.

Lemma copy_from_slice_ok {A} (buf src : list A) start :
  (start + length src <= length buf)%nat ->
  copy_from_slice buf start src =
  Some (take start buf ++ src ++ drop (start + length src) buf).
Proof. intros. unfold copy_from_slice. by rewrite decide_True. Qed.

(** After the copy, the first [start + len] elements are the old prefix and the source. *)
Lemma take_copied {A} (buf src : list A) start :
  (start <= length buf)%nat ->
  take (start + length src) (take start buf ++ src ++ drop (start + length src) buf) =
  take start buf ++ src.
Proof.
  intros. rewrite app_assoc, take_app_length'; [done|].
  rewrite length_app, length_take. lia.
Qed.

Lemma length_copied {A} (buf src : list A) start :
  (start + length src <= length buf)%nat ->
  length (take start buf ++ src ++ drop (start + length src) buf) = length buf.
Proof. intros. rewrite !length_app, length_take, length_drop. lia. Qed.

Lemma drop_copied {A} (buf src : list A) start n :
  (start + length src <= length buf)%nat -> (start + length src <= n)%nat ->
  drop n (take start buf ++ src ++ drop (start + length src) buf) = drop n buf.
Proof.
  intros. rewrite app_assoc, drop_app_ge by (rewrite length_app, length_take; lia).
  rewrite drop_drop, length_app, length_take. f_equal. lia.
Qed.

(** The middle of a list by the lengths of what surrounds it. *)
Lemma slice_app {A} (a b c : list A) i j :
  i = length a -> j = (length a + length b)%nat -> slice (a ++ b ++ c) i j = Some b.
Proof.
  intros -> ->. rewrite slice_ok by (rewrite !length_app; lia).
  rewrite drop_app_length. replace (length a + length b - length a)%nat with (length b) by lia.
  by rewrite take_app_length.
Qed.

Lemma copy_app {A} (a b b' c : list A) i :
  i = length a -> length b' = length b -> copy_from_slice (a ++ b ++ c) i b' = Some (a ++ b' ++ c).
Proof.
  intros -> Hl. rewrite copy_from_slice_ok by (rewrite !length_app; lia).
  by rewrite take_app_length, Hl, drop_app_add, drop_app_length.
Qed.

(** Slices and copies element by element. *)
Lemma slice_lookup {A} (l s : list A) a b i :
  slice l a b = Some s -> (i < b - a)%nat -> s !! i = l !! (a + i)%nat.
Proof.
  intros (_ & -> & _)%slice_Some Hi. by rewrite lookup_take_lt, lookup_drop by lia.
Qed.

Lemma copy_lookup {A} (b src : list A) a :
  (a + length src <= length b)%nat ->
  exists b', copy_from_slice b a src = Some b' /\ length b' = length b /\
    forall i, b' !! i = if decide (a <= i < a + length src)%nat then src !! (i - a)%nat else b !! i.
Proof.
  intros H. rewrite copy_from_slice_ok by done. eexists. split; [done|].
  split; [by apply length_copied|]. intros i. case_decide as Hi.
  - rewrite lookup_app_r, length_take by (rewrite length_take; lia).
    rewrite lookup_app_l by lia. f_equal. lia.
  - destruct (decide (i < a)%nat) as [Hlt|Hge].
    + rewrite lookup_app_l by (rewrite length_take; lia). by rewrite lookup_take_lt.
    + rewrite app_assoc, lookup_app_r by (rewrite length_app, length_take; lia).
      rewrite lookup_drop, length_app, length_take. f_equal. lia.
Qed.

Lemma filter_none {A} (P : A -> Prop) `{!forall x, Decision (P x)} (l : list A) :
  (forall x, x ∈ l -> ~ P x) -> filter P l = [].
Proof.
  induction l as [|x l IH]; intros Hn; [done|]. rewrite filter_cons_False by (apply Hn; left).
  apply IH. intros y Hy. apply Hn. by right.
Qed.

#[export] Hint Rewrite @length_take @length_drop @length_app @length_replicate @length_insert @length_fmap : lens.

(** Discharges a side condition on lengths. *)
Ltac len := autorewrite with lens in *; lia.

(** * Prefixes *)

Section Prefix.
Context {A : Type} (p : A -> bool).
Implicit Types l : list A.

Lemma prefix_len_le l : (prefix_len p l <= length l)%nat.
Proof. induction l as [|c l IH]; cbn; [lia|]. destruct (p c); lia. Qed.

Lemma prefix_len_Forall l : Forall (fun c => p c = true) (take (prefix_len p l) l).
Proof. induction l as [|c l IH]; cbn; [done|]. destruct (p c) eqn:?; cbn; auto. Qed.

Lemma prefix_len_stop l c : l !! prefix_len p l = Some c -> p c = false.
Proof. induction l as [|d l IH]; cbn; [done|]. destruct (p d) eqn:?; cbn; [done|congruence]. Qed.

(** The prefix is exactly the satisfying elements when they are all followed by a stop. *)
Lemma prefix_len_app l k :
  Forall (fun c => p c = true) l -> prefix_len p (l ++ k) = (length l + prefix_len p k)%nat.
Proof. induction 1 as [|c l Hc _ IH]; cbn; [done|]. by rewrite Hc, IH. Qed.

Lemma prefix_len_stop_cons c l : p c = false -> prefix_len p (c :: l) = O.
Proof. cbn. by intros ->. Qed.

Lemma skip_while_bounds l i : (i <= length l)%nat -> (i <= skip_while p l i <= length l)%nat.
Proof. intros. unfold skip_while. pose proof (prefix_len_le (drop i l)). len. Qed.

Lemma skip_while_ge l i : (i <= skip_while p l i)%nat.
Proof. unfold skip_while. lia. Qed.

Lemma skip_while_le l i : (skip_while p l i <= i `max` length l)%nat.
Proof. unfold skip_while. pose proof (prefix_len_le (drop i l)). len. Qed.
End Prefix.

(** * Preorders *)

Section PreorderedFacts.
Context {A : Type} {cmp : A -> A -> comparison} `{!Preordered cmp}.

Lemma cmp_Gt_Lt x y : cmp x y = Gt <-> cmp y x = Lt.
Proof. pose proof (cmp_flip x y) as ->. destruct (cmp x y); cbn; split; congruence. Qed.

Lemma cmp_Eq_sym x y : cmp x y = Eq -> cmp y x = Eq.
Proof. intros H. pose proof (cmp_flip x y) as ->. by rewrite H. Qed.

Lemma cmp_trans_eq_r x y z : cmp y z = Eq -> cmp x y = cmp x z.
Proof.
  intros H. pose proof (cmp_flip y x) as ->. pose proof (cmp_flip z x) as ->.
  by rewrite (cmp_trans_eq _ _ x H).
Qed.

(** "Not greater" is transitive. *)
Lemma cmp_trans_le x y z : cmp x y <> Gt -> cmp y z <> Gt -> cmp x z <> Gt.
Proof.
  destruct (cmp x y) eqn:Hxy; [| |done]; intros _.
  - by rewrite (cmp_trans_eq _ _ z Hxy).
  - destruct (cmp y z) eqn:Hyz; [| |done]; intros _.
    + by rewrite <- (cmp_trans_eq_r x _ _ Hyz), Hxy.
    + by rewrite (cmp_trans_lt _ _ _ Hxy Hyz).
Qed.
End PreorderedFacts.

#[export] Instance Z_compare_preordered : Preordered Z.compare.
Proof.
  split; intros *.
  - apply Z.compare_refl.
  - by rewrite Z.compare_antisym.
  - rewrite Z.compare_eq_iff. by intros ->.
  - rewrite !Z.compare_lt_iff. lia.
Qed.

#[export] Instance bool_compare_preordered : Preordered bool_compare.
Proof. split; intros; repeat match goal with b : bool |- _ => destruct b end; done. Qed.

(** Comparison through a key. *)
Definition compare_on {A B} (f : A -> B) (cmp : B -> B -> comparison) (x y : A) : comparison :=
  cmp (f x) (f y).

#[export] Instance compare_on_preordered {A B} (f : A -> B) cmp :
  Preordered cmp -> Preordered (compare_on f cmp).
Proof. intros []. split; unfold compare_on; eauto. Qed.

(** Lexicographic combination of two comparisons of the same values. *)
Definition compare_then {A} (c d : A -> A -> comparison) (x y : A) : comparison :=
  ordering_then (c x y) (d x y).

#[export] Instance compare_then_preordered {A} (c d : A -> A -> comparison) :
  Preordered c -> Preordered d -> Preordered (compare_then c d).
Proof.
  intros Hc Hd. unfold compare_then. split.
  - intros x. by rewrite (cmp_refl (cmp := c)), (cmp_refl (cmp := d)).
  - intros x y. rewrite (cmp_flip (cmp := c) x y), (cmp_flip (cmp := d) x y).
    by destruct (c x y).
  - intros x y z. destruct (c x y) eqn:E; cbn; try done. intros E'.
    by rewrite (cmp_trans_eq (cmp := c) _ _ z E), (cmp_trans_eq (cmp := d) _ _ z E').
  - intros x y z.
    destruct (c x y) eqn:E; cbn; try done.
    + rewrite (cmp_trans_eq (cmp := c) _ _ z E). destruct (c x z); cbn; try done.
      apply (cmp_trans_lt (cmp := d)).
    + intros _. destruct (c y z) eqn:E'; cbn; try done; intros _.
      * by rewrite <- (cmp_trans_eq_r (cmp := c) x _ _ E'), E.
      * by rewrite (cmp_trans_lt (cmp := c) _ _ _ E E').
Qed.

#[export] Instance list_compare_preordered {A} (cmp : A -> A -> comparison) :
  Preordered cmp -> Preordered (list_compare cmp).
Proof.
  intros Hc. split.
  - induction x; cbn; [done|]. by rewrite (cmp_refl (cmp := cmp)).
  - induction x as [|x l IH]; intros [|y k]; cbn; try done.
    rewrite (cmp_flip (cmp := cmp) x y), IH. by destruct (cmp x y).
  - induction x as [|x l IH]; intros [|y k] [|z m]; cbn; try done.
    destruct (cmp x y) eqn:E; cbn; try done. intros E'.
    by rewrite (cmp_trans_eq (cmp := cmp) _ _ z E), (IH _ m E').
  - induction x as [|x l IH]; intros [|y k] [|z m]; cbn; try done.
    destruct (cmp x y) eqn:E; cbn; try done.
    + rewrite (cmp_trans_eq (cmp := cmp) _ _ z E). destruct (cmp x z); cbn; try done. apply IH.
    + intros _. destruct (cmp y z) eqn:E'; cbn; try done; intros _.
      * by rewrite <- (cmp_trans_eq_r (cmp := cmp) x _ _ E'), E.
      * by rewrite (cmp_trans_lt (cmp := cmp) _ _ _ E E').
Qed.

Lemma list_compare_eq (l k : bytes) : list_compare Z.compare l k = Eq <-> l = k.
Proof.
  split; [|intros ->; apply cmp_refl].
  revert k. induction l as [|x l IH]; intros [|y k]; cbn; try done.
  destruct (x ?= y) eqn:E; cbn; try done.
  apply Z.compare_eq in E as ->. intros. f_equal. auto.
Qed.
