(* ===== verification/Wyhash.v ===== *)
(** src/src/wyhash/lib.rs: the two 64-bit hashes of the code base.

    [Wyhash11] is the legacy hash (32-byte rounds) the package manager stores
    in lockfiles; [Wyhash] is the final4 hash (48-byte rounds) behind
    [bun.hash].  Every unchecked load ([read_unaligned]) is modelled with its
    bounds obligation: [None] stands for a read outside the slice, so the
    theorems that a hash returns [Some] also state that no caller breaks the
    obligation of the [unsafe] blocks. *)
From S2P Require Import Prelude.

(** [a << k] on [u64]: the bits shifted out are lost. *)
Definition shl64 (a k : Z) : Z := trunc64 (Z.shiftl a k).

Module Wyhash11.

Definition PRIME0 : Z := 0xa0761d6478bd642f.
Definition PRIME1 : Z := 0xe7037ed1a0b428db.
Definition PRIME2 : Z := 0x8ebc6af09c88c6e3.
Definition PRIME3 : Z := 0x589965cc75374cc3.
Definition PRIME4 : Z := 0x1d8e4e27c47d124f.

(** [read_bytes::<BYTES>]: only 1, 2, 4 and 8 are reachable. *)
Definition read_bytes (n : nat) (data : bytes) : option Z :=
  if existsb (Nat.eqb n) [1; 2; 4; 8]%nat && (n <=? length data)%nat
  then Some (le_decode (take n data))
  else None.

(** [read_bytes::<n>(&data[off..])]. *)
Definition read_at (n : nat) (data : bytes) (off : nat) : option Z :=
  r ← slice_from data off; read_bytes n r.

Definition read_8bytes_swapped (data : bytes) : option Z :=
  a ← read_bytes 4 data;
  b ← read_at 4 data 4;
  Some (Z.lor (shl64 a 32) b).

Definition read_8bytes_swapped_at (data : bytes) (off : nat) : option Z :=
  r ← slice_from data off; read_8bytes_swapped r.

Definition mum (a b : Z) : Z :=
  let r := a * b in
  let r := Z.lxor (Z.shiftr r 64) r in
  trunc64 r.

Definition mix0 (a b seed : Z) : Z :=
  mum (Z.lxor (Z.lxor a seed) PRIME0) (Z.lxor (Z.lxor b seed) PRIME1).

Definition mix1 (a b seed : Z) : Z :=
  mum (Z.lxor (Z.lxor a seed) PRIME2) (Z.lxor (Z.lxor b seed) PRIME3).

(** The three loads of a tail, combined as in the source. *)
Definition read3 (b : bytes) (o : nat) : option Z :=
  x ← read_at 2 b o; y ← read_at 1 b (o + 2); Some (Z.lor (shl64 x 8) y).
Definition read5 (b : bytes) (o : nat) : option Z :=
  x ← read_at 4 b o; y ← read_at 1 b (o + 4); Some (Z.lor (shl64 x 8) y).
Definition read6 (b : bytes) (o : nat) : option Z :=
  x ← read_at 4 b o; y ← read_at 2 b (o + 4); Some (Z.lor (shl64 x 16) y).
Definition read7 (b : bytes) (o : nat) : option Z :=
  x ← read_at 4 b o; y ← read_at 2 b (o + 4); z ← read_at 1 b (o + 6);
  Some (Z.lor (Z.lor (shl64 x 24) (shl64 y 8)) z).

Definition final_long (seed : Z) (key : bytes) : option Z :=
  h1 ← read_8bytes_swapped key;
  h2 ← read_8bytes_swapped_at key 8;
  let head := mix0 h1 h2 seed in
  let one (r : option Z) := a ← r; Some (mix1 a PRIME4 seed) in
  let two (r : option Z) :=
    a ← read_8bytes_swapped_at key 16; b ← r; Some (mix1 a b seed) in
  tail ← match length key with
    | 17 => one (read_at 1 key 16)
    | 18 => one (read_at 2 key 16)
    | 19 => one (read3 key 16)
    | 20 => one (read_at 4 key 16)
    | 21 => one (read5 key 16)
    | 22 => one (read6 key 16)
    | 23 => one (read7 key 16)
    | 24 => one (read_8bytes_swapped_at key 16)
    | 25 => two (read_at 1 key 24)
    | 26 => two (read_at 2 key 24)
    | 27 => two (read3 key 24)
    | 28 => two (read_at 4 key 24)
    | 29 => two (read5 key 24)
    | 30 => two (read6 key 24)
    | 31 => two (read7 key 24)
    | _ => None (* unreachable!() *)
    end%nat;
  Some (Z.lxor head tail).

Record WyhashStateless := { seed : Z; msg_len : nat }.

Definition stateless_init (sd : Z) : WyhashStateless := {| seed := sd; msg_len := 0 |}.

Definition round32 (s : WyhashStateless) (b : bytes) : option WyhashStateless :=
  a0 ← read_at 8 b 0; a1 ← read_at 8 b 8;
  a2 ← read_at 8 b 16; a3 ← read_at 8 b 24;
  Some {| seed := Z.lxor (mix0 a0 a1 (seed s)) (mix1 a2 a3 (seed s)); msg_len := msg_len s |}.

(** [while off < b.len() { self.round(&b[off..off + 32]); off += 32; }] *)
Fixpoint rounds32 (fuel : nat) (s : WyhashStateless) (b : bytes) (off : nat)
    : option WyhashStateless :=
  if decide (off < length b)%nat then
    match fuel with
    | O => None
    | S fuel =>
      blk ← slice b off (off + 32);
      s' ← round32 s blk;
      rounds32 fuel s' b (off + 32)
    end
  else Some s.

Definition stateless_update (s : WyhashStateless) (b : bytes) : option WyhashStateless :=
  s' ← rounds32 (length b) s b 0;
  Some {| seed := seed s'; msg_len := msg_len s' + length b |}.

(** The match on the remainder length, [0..=16] inline and [17..=31] in [final_long]. *)
Definition final_seed (seed : Z) (rem_key : bytes) : option Z :=
  let one (r : option Z) := a ← r; Some (mix0 a PRIME4 seed) in
  let two (r : option Z) :=
    a ← read_8bytes_swapped rem_key; b ← r; Some (mix0 a b seed) in
  match length rem_key with
  | 0 => Some seed
  | 1 => one (read_bytes 1 rem_key)
  | 2 => one (read_bytes 2 rem_key)
  | 3 => one (read3 rem_key 0)
  | 4 => one (read_bytes 4 rem_key)
  | 5 => one (read5 rem_key 0)
  | 6 => one (read6 rem_key 0)
  | 7 => one (read7 rem_key 0)
  | 8 => one (read_8bytes_swapped rem_key)
  | 9 => two (read_at 1 rem_key 8)
  | 10 => two (read_at 2 rem_key 8)
  | 11 => two (read3 rem_key 8)
  | 12 => two (read_at 4 rem_key 8)
  | 13 => two (read5 rem_key 8)
  | 14 => two (read6 rem_key 8)
  | 15 => two (read7 rem_key 8)
  | 16 => two (read_8bytes_swapped_at rem_key 8)
  | _ => final_long seed rem_key
  end%nat.

Definition stateless_final (s : WyhashStateless) (b : bytes) : option (WyhashStateless * Z) :=
  sd ← final_seed (seed s) b;
  let len := (msg_len s + length b)%nat in
  Some ({| seed := sd; msg_len := len |}, mum (Z.lxor sd (Z.of_nat len)) PRIME4).

(** [WyhashStateless::hash], and [Wyhash11::hash] which forwards to it. *)
Definition hash11 (sd : Z) (input : bytes) : option Z :=
  let aligned_len := (length input - length input mod 32)%nat in
  a ← slice input 0 aligned_len;
  c ← stateless_update (stateless_init sd) a;
  r ← slice_from input aligned_len;
  snd <$> stateless_final c r.

(** The streaming hasher. *)
Record Hasher11 := { state11 : WyhashStateless; buf11 : bytes; buf_len11 : nat }.

Definition init11 (sd : Z) : Hasher11 :=
  {| state11 := stateless_init sd; buf11 := replicate 32 0; buf_len11 := 0 |}.

(** First half of [update]: complete the buffered block when the input suffices. *)
Definition fill_buffer11 (h : Hasher11) (b : bytes) : option (Hasher11 * nat) :=
  if negb (buf_len11 h =? 0)%nat && (32 <=? buf_len11 h + length b)%nat then
    let off := (32 - buf_len11 h)%nat in
    src ← slice b 0 off;
    buf' ← copy_from_slice (buf11 h) (buf_len11 h) src;
    st' ← stateless_update (state11 h) buf';
    Some ({| state11 := st'; buf11 := buf'; buf_len11 := 0 |}, off)
  else Some (h, O).

Definition update11 (h : Hasher11) (b : bytes) : option Hasher11 :=
  '(h1, off) ← fill_buffer11 h b;
  let remain_len := (length b - off)%nat in
  let aligned_len := (remain_len - remain_len mod 32)%nat in
  mid ← slice b off (off + aligned_len);
  st' ← stateless_update (state11 h1) mid;
  tail ← slice_from b (off + aligned_len);
  buf' ← copy_from_slice (buf11 h1) (buf_len11 h1) tail;
  Some {| state11 := st'; buf11 := buf'; buf_len11 := buf_len11 h1 + length tail |}.

Definition final11 (h : Hasher11) : option Z :=
  rem_key ← slice (buf11 h) 0 (buf_len11 h);
  snd <$> stateless_final (state11 h) rem_key.

(** A sequence of [update] calls. *)
Fixpoint updates11 (h : Hasher11) (chunks : list bytes) : option Hasher11 :=
  match chunks with
  | [] => Some h
  | c :: cs => h' ← update11 h c; updates11 h' cs
  end.

End Wyhash11.

Module Wyhash.

Definition SECRET0 : Z := 0xa0761d6478bd642f.
Definition SECRET1 : Z := 0xe7037ed1a0b428db.
Definition SECRET2 : Z := 0x8ebc6af09c88c6e3.
Definition SECRET3 : Z := 0x589965cc75374cc3.

Definition read4 (data : bytes) : option Z :=
  if (4 <=? length data)%nat then Some (le_decode (take 4 data)) else None.
Definition read8 (data : bytes) : option Z :=
  if (8 <=? length data)%nat then Some (le_decode (take 8 data)) else None.

(** [Self::read8(&input[o..])] and [Self::read4(&input[o..])]. *)
Definition read8_at (data : bytes) (o : nat) : option Z := r ← slice_from data o; read8 r.
Definition read4_at (data : bytes) (o : nat) : option Z := r ← slice_from data o; read4 r.

Definition mum_ (a b : Z) : Z * Z :=
  let x := a * b in (trunc64 x, trunc64 (Z.shiftr x 64)).

Definition mix (a b : Z) : Z := let '(a, b) := mum_ a b in Z.lxor a b.

(** [state: [u64; 3]]. *)
Record St3 := { s0 : Z; s1 : Z; s2 : Z }.

Record Hasher := {
  a : Z; b : Z; state : St3; total_len : nat; buf : bytes; buf_len : nat }.

Definition init_state (seed : Z) : St3 :=
  let s0 := Z.lxor seed (mix (Z.lxor seed SECRET0) SECRET1) in
  {| s0 := s0; s1 := s0; s2 := s0 |}.

Definition init (seed : Z) : Hasher :=
  {| a := 0; b := 0; state := init_state seed; total_len := 0;
     buf := replicate 48 0; buf_len := 0 |}.

(** [round]: its effect on [self.state]. *)
Definition round (st : St3) (input : bytes) : option St3 :=
  a0 ← read8_at input 0; b0 ← read8_at input 8;
  a1 ← read8_at input 16; b1 ← read8_at input 24;
  a2 ← read8_at input 32; b2 ← read8_at input 40;
  Some {| s0 := mix (Z.lxor a0 SECRET1) (Z.lxor b0 (s0 st));
          s1 := mix (Z.lxor a1 SECRET2) (Z.lxor b1 (s1 st));
          s2 := mix (Z.lxor a2 SECRET3) (Z.lxor b2 (s2 st)) |}.

(** [small_key]: the new [a] and [b]. *)
Definition small_key (input : bytes) : option (Z * Z) :=
  let len := length input in
  if (4 <=? len)%nat then
    let end_ := (len - 4)%nat in
    let quarter := (len / 8 * 4)%nat in
    w ← read4_at input 0; x ← read4_at input quarter;
    y ← read4_at input end_; z ← read4_at input (end_ - quarter);
    Some (Z.lor (shl64 w 32) x, Z.lor (shl64 y 32) z)
  else if negb (len =? 0)%nat then
    x ← input !! 0%nat; y ← input !! (len / 2)%nat; z ← input !! (len - 1)%nat;
    Some (Z.lor (Z.lor (shl64 x 16) (shl64 y 8)) z, 0)
  else Some (0, 0).

(** [while i + 48 < input.len() { self.round(&input[i..i + 48]); i += 48; }] *)
Fixpoint rounds (fuel : nat) (st : St3) (input : bytes) (i : nat) : option (St3 * nat) :=
  if decide (i + 48 < length input)%nat then
    match fuel with
    | O => None
    | S fuel =>
      blk ← slice input i (i + 48);
      st' ← round st blk;
      rounds fuel st' input (i + 48)
    end
  else Some (st, i).

(** [update], the block completion: [if self.buf_len > 0 { ... }]. *)
Definition fill_buffer (h : Hasher) (input : bytes) : option (St3 * bytes * nat) :=
  if (0 <? buf_len h)%nat then
    let i := (48 - buf_len h)%nat in
    src ← slice input 0 i;
    buf' ← copy_from_slice (buf h) (buf_len h) src;
    st' ← round (state h) buf';
    Some (st', buf', i)
  else Some (state h, buf h, O).

(** [update], the copy of the bytes preceding a short remainder. *)
Definition save_last16 (buf input : bytes) (i : nat) : option bytes :=
  let rl := (length input - i)%nat in
  if (rl <? 16)%nat && (48 <=? i)%nat then
    let rem := (16 - rl)%nat in
    src ← slice input (i - rem) i;
    copy_from_slice buf (48 - rem) src
  else Some buf.

Definition update (h : Hasher) (input : bytes) : option Hasher :=
  let total := (total_len h + length input)%nat in
  if (length input <=? 48 - buf_len h)%nat then
    buf' ← copy_from_slice (buf h) (buf_len h) input;
    Some {| a := a h; b := b h; state := state h; total_len := total;
            buf := buf'; buf_len := buf_len h + length input |}
  else
    '(st, buf1, i) ← fill_buffer h input;
    '(st', i') ← rounds (length input) st input i;
    remaining ← slice_from input i';
    buf2 ← save_last16 buf1 input i';
    buf3 ← copy_from_slice buf2 0 remaining;
    Some {| a := a h; b := b h; state := st'; total_len := total;
            buf := buf3; buf_len := length remaining |}.

Definition final0 (st : St3) : St3 :=
  {| s0 := Z.lxor (s0 st) (Z.lxor (s1 st) (s2 st)); s1 := s1 st; s2 := s2 st |}.

(** The 16-byte loop of [final1], on [self.state[0]]. *)
Fixpoint final1_loop (fuel : nat) (st0 : Z) (input : bytes) (i : nat) : option Z :=
  if decide (i + 16 < length input)%nat then
    match fuel with
    | O => None
    | S fuel =>
      x ← read8_at input i; y ← read8_at input (i + 8);
      final1_loop fuel (mix (Z.lxor x SECRET1) (Z.lxor y st0)) input (i + 16)
    end
  else Some st0.

(** [final1]: the new [state[0]], [a] and [b]. *)
Definition final1 (st0 : Z) (input_lb : bytes) (start_pos : nat) : option (Z * Z * Z) :=
  input ← slice_from input_lb start_pos;
  st0' ← final1_loop (length input) st0 input 0;
  x ← read8_at input_lb (length input_lb - 16);
  y ← read8_at input_lb (length input_lb - 8);
  Some (st0', x, y).

Definition final2 (st0 a b : Z) (total_len : nat) : Z :=
  let a := Z.lxor a SECRET1 in
  let b := Z.lxor b st0 in
  let '(a, b) := mum_ a b in
  mix (Z.lxor (Z.lxor a SECRET0) (Z.of_nat total_len)) (Z.lxor b SECRET1).

(** [final_]: reads the hasher through a shallow copy, which it does not change. *)
Definition final_ (h : Hasher) : option Z :=
  input ← slice (buf h) 0 (buf_len h);
  if (total_len h <=? 16)%nat then
    '(x, y) ← small_key input;
    Some (final2 (s0 (state h)) x y (total_len h))
  else
    '(input_lb, offset) ←
      (if (buf_len h <? 16)%nat then
         let rem := (16 - buf_len h)%nat in
         hi ← slice (buf h) (48 - rem) 48;
         scratch ← copy_from_slice (replicate 16 0) 0 hi;
         scratch ← copy_from_slice scratch rem input;
         Some (scratch, rem)
       else Some (input, O));
    '(st0, x, y) ← final1 (s0 (final0 (state h))) input_lb offset;
    Some (final2 st0 x y (total_len h)).

(** The unrolled loop of the one-shot [hash]: [while i < bound]. *)
Fixpoint hash_rounds (fuel : nat) (st : St3) (input : bytes) (i bound : nat)
    : option (St3 * nat) :=
  if decide (i < bound)%nat then
    match fuel with
    | O => None
    | S fuel =>
      a0 ← read8_at input (i + 0); b0 ← read8_at input (i + 8);
      a1 ← read8_at input (i + 16); b1 ← read8_at input (i + 24);
      a2 ← read8_at input (i + 32); b2 ← read8_at input (i + 40);
      let fold m := Z.lxor (trunc64 m) (trunc64 (Z.shiftr m 64)) in
      let s0' := fold (Z.lxor a0 SECRET1 * Z.lxor b0 (s0 st)) in
      let s1' := fold (Z.lxor a1 SECRET2 * Z.lxor b1 (s1 st)) in
      let s2' := fold (Z.lxor a2 SECRET3 * Z.lxor b2 (s2 st)) in
      hash_rounds fuel {| s0 := s0'; s1 := s1'; s2 := s2' |} input (i + 48) bound
    end
  else Some (st, i).

Definition hash (seed : Z) (input : bytes) : option Z :=
  let st := init_state seed in
  if (length input <=? 16)%nat then
    '(x, y) ← small_key input;
    Some (final2 (s0 st) x y (length input))
  else
    '(st', i) ←
      (if (48 <=? length input)%nat then
         '(st', i) ← hash_rounds (length input) st input 0 (length input - 48);
         Some (final0 st', i)
       else Some (st, O));
    '(st0, x, y) ← final1 (s0 st') input i;
    Some (final2 st0 x y (length input)).

Definition hash32 (input : bytes) : option Z := trunc32 <$> hash 0 input.

Fixpoint updates (h : Hasher) (chunks : list bytes) : option Hasher :=
  match chunks with
  | [] => Some h
  | c :: cs => h' ← update h c; updates h' cs
  end.

(** [hash_const], the [const fn] re-implementation: offsets instead of slices. *)
Section HashConst.
Variable input : bytes.

(** [u64::from_le_bytes([d[o], .., d[o + 7]])]: eight checked reads. *)
Definition const_read8 (o : nat) : option Z := l ← slice input o (o + 8); Some (le_decode l).
Definition const_read4 (o : nat) : option Z := l ← slice input o (o + 4); Some (le_decode l).

Fixpoint const_rounds (fuel : nat) (st : St3) (i : nat) : option (St3 * nat) :=
  if decide (i + 48 < length input)%nat then
    match fuel with
    | O => None
    | S fuel =>
      a0 ← const_read8 i; b0 ← const_read8 (i + 8);
      a1 ← const_read8 (i + 16); b1 ← const_read8 (i + 24);
      a2 ← const_read8 (i + 32); b2 ← const_read8 (i + 40);
      const_rounds fuel
        {| s0 := mix (Z.lxor a0 SECRET1) (Z.lxor b0 (s0 st));
           s1 := mix (Z.lxor a1 SECRET2) (Z.lxor b1 (s1 st));
           s2 := mix (Z.lxor a2 SECRET3) (Z.lxor b2 (s2 st)) |} (i + 48)
    end
  else Some (st, i).

Fixpoint const_final1 (fuel : nat) (st0 : Z) (j : nat) : option Z :=
  if decide (j + 16 < length input)%nat then
    match fuel with
    | O => None
    | S fuel =>
      x ← const_read8 j; y ← const_read8 (j + 8);
      const_final1 fuel (mix (Z.lxor x SECRET1) (Z.lxor y st0)) (j + 16)
    end
  else Some st0.

(** The words [a], [b] and the final [state[0]]. *)
Definition const_core (seed : Z) : option (Z * Z * Z) :=
  let len := length input in
  let st := init_state seed in
  if (len <=? 16)%nat then
    if (4 <=? len)%nat then
      let end_ := (len - 4)%nat in
      let quarter := (len / 8 * 4)%nat in
      w ← const_read4 0; x ← const_read4 quarter;
      y ← const_read4 end_; z ← const_read4 (end_ - quarter);
      Some (s0 st, Z.lor (shl64 w 32) x, Z.lor (shl64 y 32) z)
    else if (0 <? len)%nat then
      x ← input !! 0%nat; y ← input !! (len / 2)%nat; z ← input !! (len - 1)%nat;
      Some (s0 st, Z.lor (Z.lor (shl64 x 16) (shl64 y 8)) z, 0)
    else Some (s0 st, 0, 0)
  else
    '(st', i) ←
      (if (48 <=? len)%nat then
         '(st', i) ← const_rounds len st 0; Some (final0 st', i)
       else Some (st, O));
    st0 ← const_final1 len (s0 st') i;
    x ← const_read8 (len - 16); y ← const_read8 (len - 8);
    Some (st0, x, y).

Definition hash_const (seed : Z) : option Z :=
  '(st0, a, b) ← const_core seed;
  let x := Z.lxor a SECRET1 * Z.lxor b st0 in
  Some (mix (Z.lxor (Z.lxor (trunc64 x) SECRET0) (Z.of_nat (length input)))
            (Z.lxor (trunc64 (Z.shiftr x 64)) SECRET1)).
End HashConst.

(** The chunked loop of [hash_ascii_lowercase]. *)
Fixpoint lowercase_loop (fuel : nat) (h : Hasher) (remain : bytes) : option Hasher :=
  match remain with
  | [] => Some h
  | _ =>
    match fuel with
    | O => None
    | S fuel =>
      let n := (length remain `min` 48)%nat in
      chunk ← slice remain 0 n;
      h' ← update h (to_ascii_lowercase <$> chunk);
      rest ← slice_from remain n;
      lowercase_loop fuel h' rest
    end
  end.

Definition hash_ascii_lowercase (seed : Z) (input : bytes) : option Z :=
  if (length input <=? 48)%nat then hash seed (to_ascii_lowercase <$> input)
  else h ← lowercase_loop (length input) (init seed) input; final_ h.

End Wyhash.

(** [hash_int]: bit mixers on the fixed widths. *)
Module HashInt.

(** [x ^ (x >> k)] and [x.wrapping_mul(c)] on [w]-bit words. *)
Definition xorshift (k x : Z) : Z := Z.lxor x (Z.shiftr x k).
Definition wrapping_mul (w x c : Z) : Z := (x * c) mod 2 ^ w.

Definition hash_int_u16 (x : Z) : Z :=
  let x := wrapping_mul 16 (xorshift 7 x) 0x2993 in
  let x := wrapping_mul 16 (xorshift 5 x) 0xe877 in
  let x := wrapping_mul 16 (xorshift 9 x) 0x0235 in
  xorshift 10 x.

Definition hash_int_u32 (x : Z) : Z :=
  let x := wrapping_mul 32 (xorshift 17 x) 0xed5ad4bb in
  let x := wrapping_mul 32 (xorshift 11 x) 0xac4c1b51 in
  let x := wrapping_mul 32 (xorshift 15 x) 0x31848bab in
  xorshift 14 x.

Definition hash_int_u64 (x : Z) : Z :=
  let c := 0xbea225f9eb34556d in
  let x := wrapping_mul 64 (xorshift 32 x) c in
  let x := wrapping_mul 64 (xorshift 29 x) c in
  let x := wrapping_mul 64 (xorshift 32 x) c in
  xorshift 29 x.

End HashInt.

(** [OneShotHasher]: every [write] reseeds from the running hash. *)
Module OneShotHasher.

Definition write (hash : Z) (b : bytes) : option Z := Wyhash11.hash11 hash b.
Definition write_u64 (hash n : Z) : Z := Wyhash11.mum (Z.lxor hash n) Wyhash11.PRIME4.
Definition finish (hash : Z) : Z := hash.

End OneShotHasher.

(** * Facts about [Wyhash11] *)

Module Wyhash11Facts.
Import Wyhash11.

#[local] Arguments mum : simpl never.
#[local] Arguments mix0 : simpl never.
#[local] Arguments mix1 : simpl never.
#[local] Arguments Z.lor : simpl never.
#[local] Arguments shl64 : simpl never.

Lemma read_at_some n data off :
  existsb (Nat.eqb n) [1; 2; 4; 8]%nat = true -> (off + n <= length data)%nat ->
  read_at n data off = Some (le_decode (take n (drop off data))).
Proof.
  intros Hn ?. unfold read_at, read_bytes. rewrite slice_from_ok by lia. cbn [mbind option_bind].
  rewrite Hn. by rewrite (proj2 (Nat.leb_le _ _)) by len.
Qed.

Lemma read_bytes_some n data :
  existsb (Nat.eqb n) [1; 2; 4; 8]%nat = true -> (n <= length data)%nat ->
  read_bytes n data = Some (le_decode (take n data)).
Proof. intros. by apply (read_at_some n data 0). Qed.

Lemma read_8bytes_swapped_at_some data off :
  (off + 8 <= length data)%nat -> is_Some (read_8bytes_swapped_at data off).
Proof.
  intros. unfold read_8bytes_swapped_at, read_8bytes_swapped.
  rewrite slice_from_ok by lia. cbn [mbind option_bind].
  rewrite read_bytes_some, read_at_some by (done || len). eauto.
Qed.

Lemma read_8bytes_swapped_some data :
  (8 <= length data)%nat -> is_Some (read_8bytes_swapped data).
Proof. intros. by apply (read_8bytes_swapped_at_some data 0). Qed.

(** The combined loads of 3, 5, 6 and 7 bytes stay in bounds. *)
Lemma read_tail_some b o :
  ((o + 3 <= length b)%nat -> is_Some (read3 b o)) /\
  ((o + 5 <= length b)%nat -> is_Some (read5 b o)) /\
  ((o + 6 <= length b)%nat -> is_Some (read6 b o)) /\
  ((o + 7 <= length b)%nat -> is_Some (read7 b o)).
Proof.
  repeat split; intros; unfold read3, read5, read6, read7;
    rewrite !read_at_some by (done || lia); eauto.
Qed.

(** Runs the next checked read of the goal. *)
Ltac run_read :=
  match goal with
  | |- context [read_bytes ?n ?d] => rewrite (read_bytes_some n d) by (done || lia)
  | |- context [read_at ?n ?d ?o] => rewrite (read_at_some n d o) by (done || lia)
  | |- context [read_8bytes_swapped ?d] =>
      destruct (read_8bytes_swapped_some d ltac:(lia)) as [? ->]
  | |- context [read_8bytes_swapped_at ?d ?o] =>
      destruct (read_8bytes_swapped_at_some d o ltac:(lia)) as [? ->]
  | |- context [read3 ?d ?o] =>
      destruct (proj1 (read_tail_some d o) ltac:(lia)) as [? ->]
  | |- context [read5 ?d ?o] =>
      destruct (proj1 (proj2 (read_tail_some d o)) ltac:(lia)) as [? ->]
  | |- context [read6 ?d ?o] =>
      destruct (proj1 (proj2 (proj2 (read_tail_some d o))) ltac:(lia)) as [? ->]
  | |- context [read7 ?d ?o] =>
      destruct (proj2 (proj2 (proj2 (read_tail_some d o))) ltac:(lia)) as [? ->]
  end.

Lemma final_long_some sd key :
  (17 <= length key < 32)%nat -> is_Some (final_long sd key).
Proof.
  intros Hl. unfold final_long.
  destruct (length key) as [|n] eqn:E in |- *; [lia|].
  do 2 run_read; cbn [mbind option_bind].
  do 31 (destruct n as [|n]; [try lia; repeat run_read; cbn [mbind option_bind]; eauto|]).
  lia.
Qed.

(** Every remainder shorter than a block is hashed without an out-of-bounds load. *)
Lemma final_seed_some sd b : (length b < 32)%nat -> is_Some (final_seed sd b).
Proof.
  intros Hl. unfold final_seed.
  destruct (length b) as [|n] eqn:E in |- *; [eauto|].
  do 16 (destruct n as [|n]; [repeat run_read; cbn [mbind option_bind]; eauto|]).
  apply final_long_some. lia.
Qed.

(** The value of a round and of a sequence of rounds over whole blocks. *)
Definition word32 (b : bytes) (o : nat) : Z := le_decode (take 8 (drop o b)).

Definition round_seed (sd : Z) (b : bytes) : Z :=
  Z.lxor (mix0 (word32 b 0) (word32 b 8) sd) (mix1 (word32 b 16) (word32 b 24) sd).

Fixpoint absorb32 (k : nat) (sd : Z) (l : bytes) : Z :=
  match k with
  | O => sd
  | S k => absorb32 k (round_seed sd (take 32 l)) (drop 32 l)
  end.

Lemma absorb32_app k1 k2 sd l1 l2 :
  length l1 = (32 * k1)%nat -> absorb32 (k1 + k2) sd (l1 ++ l2) = absorb32 k2 (absorb32 k1 sd l1) l2.
Proof.
  revert sd l1. induction k1 as [|k1 IH]; intros sd l1 Hl; cbn [absorb32 Nat.add].
  { destruct l1; [done|cbn in Hl; lia]. }
  rewrite take_app_le, drop_app_le by lia. apply IH. len.
Qed.

Lemma absorb32_prefix k sd l1 l2 :
  (32 * k <= length l1)%nat -> absorb32 k sd (l1 ++ l2) = absorb32 k sd l1.
Proof.
  revert sd l1. induction k as [|k IH]; intros sd l1 Hl; cbn [absorb32]; [done|].
  rewrite take_app_le, drop_app_le by lia. apply IH. len.
Qed.

Lemma absorb32_take k sd l n :
  (32 * k <= n)%nat -> (32 * k <= length l)%nat -> absorb32 k sd (take n l) = absorb32 k sd l.
Proof. intros. rewrite <- (take_drop n l) at 2. by rewrite absorb32_prefix by len. Qed.

Lemma round32_some s b :
  length b = 32%nat -> round32 s b = Some {| seed := round_seed (seed s) b; msg_len := msg_len s |}.
Proof. intros. unfold round32. by rewrite !read_at_some by (done || lia). Qed.

Lemma rounds32_absorb k fuel s b off :
  (length b = off + 32 * k)%nat -> (k <= fuel)%nat ->
  rounds32 fuel s b off =
  Some {| seed := absorb32 k (seed s) (drop off b); msg_len := msg_len s |}.
Proof.
  revert fuel s off. induction k as [|k IH]; intros fuel s off Hl Hf.
  { destruct fuel; cbn [rounds32]; rewrite decide_False by lia; by destruct s. }
  destruct fuel as [|fuel]; [lia|]. cbn [rounds32]. rewrite decide_True by lia.
  rewrite slice_ok by lia. cbn [mbind option_bind].
  rewrite round32_some by len. cbn [mbind option_bind].
  rewrite IH by lia. cbn [absorb32 seed msg_len]. rewrite drop_drop.
  by replace (off + 32 - off)%nat with 32%nat by lia.
Qed.

Lemma stateless_update_absorb k s b :
  length b = (32 * k)%nat ->
  stateless_update s b =
  Some {| seed := absorb32 k (seed s) b; msg_len := msg_len s + length b |}.
Proof.
  intros Hl. unfold stateless_update.
  by rewrite (rounds32_absorb k) by lia.
Qed.

(** The one-shot hash, as the blocks absorbed and the remainder. *)
Lemma hash11_absorb sd m k :
  (32 * k <= length m < 32 * k + 32)%nat ->
  hash11 sd m =
  snd <$> stateless_final {| seed := absorb32 k sd m; msg_len := 32 * k |} (drop (32 * k) m).
Proof.
  intros Hk. unfold hash11.
  assert (length m - length m mod 32 = 32 * k)%nat as ->.
  { pose proof (Nat.div_mod_eq (length m) 32).
    pose proof (Nat.mod_upper_bound (length m) 32). nia. }
  rewrite slice_ok by lia. cbn [mbind option_bind].
  rewrite drop_0, Nat.sub_0_r, (stateless_update_absorb k) by len. cbn [mbind option_bind].
  rewrite slice_from_ok by lia. cbn [mbind option_bind stateless_init seed msg_len].
  rewrite absorb32_take by lia. do 3 f_equal. len.
Qed.

(** A hasher that has consumed [m]: whole blocks in [state], the rest in [buf]. *)
Definition consumed11 (sd : Z) (m : bytes) (h : Hasher11) : Prop :=
  exists k,
    (32 * k <= length m < 32 * k + 32)%nat /\
    state11 h = {| seed := absorb32 k sd m; msg_len := 32 * k |} /\
    length (buf11 h) = 32%nat /\
    buf_len11 h = (length m - 32 * k)%nat /\
    take (buf_len11 h) (buf11 h) = drop (32 * k) m.

Lemma init11_consumed sd : consumed11 sd [] (init11 sd).
Proof. exists 0%nat. cbn. repeat split; try lia. Qed.

(** The completed block is absorbed and the buffer becomes empty. *)
Lemma fill_buffer11_consumed sd m h b :
  consumed11 sd m h ->
  exists h' off, fill_buffer11 h b = Some (h', off) /\ (off <= length b)%nat /\
    consumed11 sd (m ++ take off b) h' /\
    (buf_len11 h' = 0%nat \/ off = 0%nat /\ (buf_len11 h' + length b < 32)%nat).
Proof.
  intros (k & Hk & Hst & Hbuf & Hbl & Hrest). unfold fill_buffer11.
  destruct (negb _ && _) eqn:Hc.
  - apply andb_prop in Hc as [Hc1%negb_true_iff%Nat.eqb_neq Hc2%Nat.leb_le].
    rewrite slice_ok by lia. cbn [mbind option_bind]. rewrite drop_0, Nat.sub_0_r.
    rewrite copy_from_slice_ok by len. cbn [mbind option_bind].
    set (src := take (32 - buf_len11 h) b).
    assert (length src = 32 - buf_len11 h)%nat as Hsrc by (unfold src; len).
    rewrite Hsrc, (drop_ge (buf11 h)), app_nil_r by lia.
    rewrite (stateless_update_absorb 1) by len. cbn [mbind option_bind].
    eexists _, _. split; [done|]. split; [lia|]. split; [|by left].
    assert (length (m ++ src) = 32 * S k)%nat as Hm by len.
    exists (S k). cbn [state11 buf11 buf_len11].
    rewrite Hst. cbn [seed msg_len]. repeat split; try len.
    + f_equal; [|len]. rewrite Hrest.
      rewrite <- (absorb32_take k sd m (32 * k)), <- absorb32_app by len.
      by rewrite app_assoc, take_drop, Nat.add_1_r.
    + by rewrite drop_ge by len.
  - eexists _, _. split; [done|]. split; [lia|]. rewrite take_0, app_nil_r.
    split; [by exists k|].
    apply andb_false_iff in Hc as [Hc%negb_false_iff%Nat.eqb_eq|Hc%Nat.leb_gt]; [by left|by right].
Qed.

Lemma update11_consumed sd m h b :
  consumed11 sd m h -> exists h', update11 h b = Some h' /\ consumed11 sd (m ++ b) h'.
Proof.
  intros Hc. destruct (fill_buffer11_consumed sd m h b Hc) as (h1 & off & Hf & Hoff & Hc1 & Hor).
  unfold update11. rewrite Hf. cbn [mbind option_bind]. clear Hc Hf h.
  set (r := (length b - off)%nat).
  pose proof (Nat.div_mod_eq r 32) as Hr. pose proof (Nat.mod_upper_bound r 32 ltac:(lia)) as Hr'.
  set (q := (r / 32)%nat) in *.
  replace (r - r mod 32)%nat with (32 * q)%nat by lia.
  rewrite slice_ok by lia. cbn [mbind option_bind].
  replace (off + 32 * q - off)%nat with (32 * q)%nat by lia.
  rewrite (stateless_update_absorb q) by len. cbn [mbind option_bind].
  rewrite slice_from_ok by lia. cbn [mbind option_bind].
  destruct Hc1 as (k & Hk & Hst & Hbuf & Hbl & Hrest).
  set (m1 := m ++ take off b) in *.
  assert (m ++ b = m1 ++ drop off b) as ->.
  { unfold m1. by rewrite <- app_assoc, take_drop. }
  assert (buf_len11 h1 + (r - 32 * q) < 32)%nat as Hfit by lia.
  rewrite copy_from_slice_ok by len. cbn [mbind option_bind].
  eexists. split; [done|]. exists (k + q)%nat. cbn [state11 buf11 buf_len11].
  rewrite Hst. cbn [seed msg_len].
  assert (q = 0%nat \/ length m1 = (32 * k)%nat) as Hcase by lia.
  assert (drop (32 * (k + q)) (m1 ++ drop off b) = drop (32 * k) m1 ++ drop (off + 32 * q) b) as Hd.
  { destruct Hcase as [-> | Hm1].
    - rewrite !Nat.mul_0_r, !Nat.add_0_r. by rewrite drop_app_le by lia.
    - rewrite (drop_ge m1 (32 * k)), drop_app_ge, drop_drop by lia.
      cbn [app]. f_equal. lia. }
  repeat split; try len.
  - f_equal; [|len]. destruct Hcase as [-> | Hm1].
    + rewrite Nat.mul_0_r, Nat.add_0_r. cbn. by rewrite absorb32_prefix by lia.
    + rewrite absorb32_app by lia. by rewrite absorb32_take by len.
  - rewrite take_copied by lia. by rewrite Hrest, Hd.
Qed.

Lemma updates11_consumed sd chunks m h :
  consumed11 sd m h ->
  exists h', updates11 h chunks = Some h' /\ consumed11 sd (m ++ concat chunks) h'.
Proof.
  revert m h. induction chunks as [|c cs IH]; intros m h Hc; cbn [updates11 concat].
  { exists h. by rewrite app_nil_r. }
  destruct (update11_consumed sd m h c Hc) as (h1 & -> & Hc1).
  rewrite app_assoc. apply IH, Hc1.
Qed.

Lemma final11_consumed sd m h : consumed11 sd m h -> final11 h = hash11 sd m.
Proof.
  intros (k & Hk & Hst & Hbuf & Hbl & Hrest).
  unfold final11. rewrite slice_ok by lia. cbn [mbind option_bind].
  by rewrite drop_0, Nat.sub_0_r, Hrest, Hst, (hash11_absorb sd m k).
Qed.

Lemma hash11_some sd m : is_Some (hash11 sd m).
Proof.
  pose proof (Nat.div_mod_eq (length m) 32).
  pose proof (Nat.mod_upper_bound (length m) 32 ltac:(lia)).
  rewrite (hash11_absorb sd m (length m / 32)) by lia.
  unfold stateless_final.
  destruct (final_seed_some (absorb32 (length m / 32) sd m) (drop (32 * (length m / 32)) m))
    as [? E]; [len|].
  cbn [seed]. rewrite E. cbn. eauto.
Qed.

End Wyhash11Facts.

(** * Facts about [Wyhash] *)

Module WyhashFacts.
Import Wyhash.

#[local] Arguments mix : simpl never.
#[local] Arguments Z.lor : simpl never.
#[local] Arguments shl64 : simpl never.

Definition word (l : bytes) (o : nat) : Z := le_decode (take 8 (drop o l)).

Lemma read8_at_some data o : (o + 8 <= length data)%nat -> read8_at data o = Some (word data o).
Proof.
  intros. unfold read8_at, read8. rewrite slice_from_ok by lia. cbn [mbind option_bind].
  by rewrite (proj2 (Nat.leb_le _ _)) by len.
Qed.

Lemma read4_at_some data o :
  (o + 4 <= length data)%nat -> read4_at data o = Some (le_decode (take 4 (drop o data))).
Proof.
  intros. unfold read4_at, read4. rewrite slice_from_ok by lia. cbn [mbind option_bind].
  by rewrite (proj2 (Nat.leb_le _ _)) by len.
Qed.

Lemma const_read8_at l o : const_read8 l o = read8_at l o.
Proof.
  destruct (decide (o + 8 <= length l)%nat).
  - rewrite read8_at_some by lia. unfold const_read8. rewrite slice_ok by lia.
    cbn [mbind option_bind]. by replace (o + 8 - o)%nat with 8%nat by lia.
  - unfold const_read8, read8_at, read8, slice, slice_from.
    rewrite decide_False by lia. case_decide; [|done]. cbn [mbind option_bind].
    by rewrite (proj2 (Nat.leb_gt _ _)) by len.
Qed.

Lemma const_read4_at l o : const_read4 l o = read4_at l o.
Proof.
  destruct (decide (o + 4 <= length l)%nat).
  - rewrite read4_at_some by lia. unfold const_read4. rewrite slice_ok by lia.
    cbn [mbind option_bind]. by replace (o + 4 - o)%nat with 4%nat by lia.
  - unfold const_read4, read4_at, read4, slice, slice_from.
    rewrite decide_False by lia. case_decide; [|done]. cbn [mbind option_bind].
    by rewrite (proj2 (Nat.leb_gt _ _)) by len.
Qed.

(** The state after a block, and after [k] whole blocks. *)
Definition round_state (st : St3) (l : bytes) : St3 :=
  {| s0 := mix (Z.lxor (word l 0) SECRET1) (Z.lxor (word l 8) (s0 st));
     s1 := mix (Z.lxor (word l 16) SECRET2) (Z.lxor (word l 24) (s1 st));
     s2 := mix (Z.lxor (word l 32) SECRET3) (Z.lxor (word l 40) (s2 st)) |}.

Fixpoint absorb (k : nat) (st : St3) (l : bytes) : St3 :=
  match k with
  | O => st
  | S k => absorb k (round_state st l) (drop 48 l)
  end.

Lemma word_app l1 l2 o : (o + 8 <= length l1)%nat -> word (l1 ++ l2) o = word l1 o.
Proof. intros. unfold word. rewrite drop_app_le, take_app_le by len. done. Qed.

Lemma word_drop l i o : word (drop i l) o = word l (i + o).
Proof. unfold word. by rewrite drop_drop. Qed.

Lemma round_state_prefix st l1 l2 :
  (48 <= length l1)%nat -> round_state st (l1 ++ l2) = round_state st l1.
Proof. intros. unfold round_state. by rewrite !word_app by lia. Qed.

Lemma round_state_take st l :
  (48 <= length l)%nat -> round_state st (take 48 l) = round_state st l.
Proof. intros. rewrite <- (take_drop 48 l) at 2. by rewrite round_state_prefix by len. Qed.

Lemma absorb_prefix k st l1 l2 :
  (48 * k <= length l1)%nat -> absorb k st (l1 ++ l2) = absorb k st l1.
Proof.
  revert st l1. induction k as [|k IH]; intros st l1 Hl; cbn [absorb]; [done|].
  rewrite round_state_prefix, drop_app_le by lia. apply IH. len.
Qed.

Lemma absorb_app k1 k2 st l1 l2 :
  length l1 = (48 * k1)%nat -> absorb (k1 + k2) st (l1 ++ l2) = absorb k2 (absorb k1 st l1) l2.
Proof.
  revert st l1. induction k1 as [|k1 IH]; intros st l1 Hl; cbn [absorb Nat.add].
  { destruct l1; [done|cbn in Hl; lia]. }
  rewrite round_state_prefix, drop_app_le by lia. apply IH. len.
Qed.

Lemma round_some st l :
  (48 <= length l)%nat -> round st l = Some (round_state st l).
Proof. intros. unfold round. by rewrite !read8_at_some by lia. Qed.

Lemma rounds_absorb k fuel st l i :
  (i + 48 * k <= length l <= i + 48 * k + 48)%nat ->
  (k = 0 \/ i + 48 * k < length l)%nat -> (k <= fuel)%nat ->
  rounds fuel st l i = Some (absorb k st (drop i l), i + 48 * k)%nat.
Proof.
  revert fuel st i. induction k as [|k IH]; intros fuel st i Hl Hr Hf.
  { rewrite Nat.mul_0_r, Nat.add_0_r.
    destruct fuel; cbn [rounds]; by rewrite decide_False by lia. }
  destruct fuel as [|fuel]; [lia|]. cbn [rounds]. rewrite decide_True by lia.
  rewrite slice_ok by lia. cbn [mbind option_bind].
  rewrite round_some by len. cbn [mbind option_bind].
  rewrite IH by lia. cbn [absorb]. rewrite drop_drop.
  replace (i + 48 - i)%nat with 48%nat by lia. rewrite round_state_take by len.
  do 2 f_equal. lia.
Qed.

(** The unrolled loop and the [const] loop are the same rounds. *)
Lemma hash_rounds_rounds fuel st l i :
  (48 <= length l)%nat -> hash_rounds fuel st l i (length l - 48) = rounds fuel st l i.
Proof.
  intros Hl. revert st i. induction fuel as [|fuel IH]; intros st i; cbn [hash_rounds rounds].
  { by destruct (decide _), (decide _); try lia. }
  destruct (decide (i < length l - 48)%nat); [|by rewrite decide_False by lia].
  rewrite decide_True by lia.
  rewrite slice_ok by lia. cbn [mbind option_bind]. rewrite round_some by len.
  rewrite !read8_at_some by lia. cbn [mbind option_bind]. rewrite IH. f_equal.
  unfold round_state.
  replace (i + 48 - i)%nat with 48%nat by lia.
  rewrite <- !(word_app (take 48 (drop i l)) (drop 48 (drop i l))) by len.
  by rewrite take_drop, !word_drop.
Qed.

Lemma const_rounds_rounds fuel st l i : const_rounds l fuel st i = rounds fuel st l i.
Proof.
  revert st i. induction fuel as [|fuel IH]; intros st i; cbn [const_rounds rounds]; [done|].
  case_decide; [|done].
  rewrite slice_ok by lia. cbn [mbind option_bind]. rewrite round_some by len.
  rewrite !const_read8_at, !read8_at_some by lia. cbn [mbind option_bind]. rewrite IH. f_equal.
  unfold round_state. replace (i + 48 - i)%nat with 48%nat by lia.
  rewrite <- !(word_app (take 48 (drop i l)) (drop 48 (drop i l))) by len.
  rewrite take_drop, !word_drop. by rewrite Nat.add_0_r.
Qed.

Lemma const_final1_loop fuel st0 l j :
  const_final1 l fuel st0 j = final1_loop fuel st0 l j.
Proof.
  revert st0 j. induction fuel as [|fuel IH]; intros st0 j; cbn [const_final1 final1_loop]; [done|].
  case_decide; [|done]. rewrite !const_read8_at.
  destruct (read8_at l j), (read8_at l (j + 8)); cbn [mbind option_bind]; auto.
Qed.

(** The 16-byte loop only reads the bytes from its offset on, and always ends. *)
Lemma final1_loop_shift fuel st0 l i j :
  final1_loop fuel st0 l (i + j) = final1_loop fuel st0 (drop i l) j \/ (length l < i)%nat.
Proof.
  destruct (decide (i <= length l)%nat); [left|right; lia].
  revert st0 j. induction fuel as [|fuel IH]; intros st0 j; cbn [final1_loop].
  { rewrite length_drop. by destruct (decide _), (decide _); try lia. }
  rewrite length_drop. destruct (decide _), (decide _); try lia; [|done].
  rewrite !read8_at_some by len. cbn [mbind option_bind].
  rewrite !word_drop, <- IH, !Nat.add_assoc. done.
Qed.

Lemma final1_loop_some fuel st0 l i :
  (length l <= i + 16 * fuel + 16)%nat -> is_Some (final1_loop fuel st0 l i).
Proof.
  revert st0 i. induction fuel as [|fuel IH]; intros st0 i Hl; cbn [final1_loop];
    case_decide; eauto; try lia.
  rewrite !read8_at_some by lia. cbn [mbind option_bind]. apply IH. lia.
Qed.

Lemma final1_loop_fuel f1 f2 st0 l i :
  (length l <= i + 16 * f1 + 16)%nat -> (length l <= i + 16 * f2 + 16)%nat ->
  final1_loop f1 st0 l i = final1_loop f2 st0 l i.
Proof.
  revert f2 st0 i. induction f1 as [|f1 IH]; intros [|f2] st0 i H1 H2; cbn [final1_loop];
    case_decide; try done; try lia.
  rewrite !read8_at_some by lia. cbn [mbind option_bind]. apply IH; lia.
Qed.

(** [final1] depends on the bytes from [start_pos] on and on the last sixteen. *)
Lemma final1_ext st0 l1 p1 l2 p2 :
  (p1 <= length l1)%nat -> (p2 <= length l2)%nat ->
  (16 <= length l1)%nat -> (16 <= length l2)%nat ->
  drop p1 l1 = drop p2 l2 ->
  drop (length l1 - 16) l1 = drop (length l2 - 16) l2 ->
  final1 st0 l1 p1 = final1 st0 l2 p2.
Proof.
  intros ???? Hd Hl. unfold final1. rewrite !slice_from_ok by lia. cbn [mbind option_bind].
  rewrite Hd. destruct (final1_loop _ _ _ _); cbn [mbind option_bind]; [|done].
  rewrite !read8_at_some by lia. cbn [mbind option_bind]. do 2 f_equal.
  - f_equal. unfold word. by rewrite Hl.
  - replace (length l1 - 8)%nat with (length l1 - 16 + 8)%nat by lia.
    replace (length l2 - 8)%nat with (length l2 - 16 + 8)%nat by lia.
    by rewrite <- !word_drop, Hl.
Qed.

Lemma final1_some st0 l p :
  (p <= length l)%nat -> (16 <= length l)%nat -> is_Some (final1 st0 l p).
Proof.
  intros. unfold final1. rewrite slice_from_ok by lia. cbn [mbind option_bind].
  destruct (final1_loop_some (length (drop p l)) st0 (drop p l) 0) as [? ->]; [lia|].
  rewrite !read8_at_some by lia. cbn. eauto.
Qed.

Lemma small_key_some l : (length l <= 16)%nat -> is_Some (small_key l).
Proof.
  intros Hl. unfold small_key.
  destruct (4 <=? length l)%nat eqn:E; [apply Nat.leb_le in E|apply Nat.leb_gt in E].
  - assert (length l / 8 * 4 <= length l - 4)%nat.
    { pose proof (Nat.div_mod_eq (length l) 8). lia. }
    rewrite !read4_at_some by lia. cbn. eauto.
  - destruct l as [|x [|y [|z [|? ?]]]]; cbn in *; eauto; lia.
Qed.

Lemma final0_init sd : s0 (final0 (init_state sd)) = s0 (init_state sd).
Proof. cbn. by rewrite Z.lxor_nilpotent, Z.lxor_0_r. Qed.

(** The number of blocks absorbed before the last, non-empty one. *)
Lemma blocks_exist n : (0 < n)%nat -> exists j, (48 * j < n <= 48 * j + 48)%nat.
Proof.
  intros. exists ((n - 1) / 48)%nat.
  pose proof (Nat.div_mod_eq (n - 1) 48).
  pose proof (Nat.mod_upper_bound (n - 1) 48 ltac:(lia)). lia.
Qed.

(** The one-shot hash of a long key. *)
Lemma hash_absorb sd m j :
  (16 < length m)%nat -> (48 * j < length m <= 48 * j + 48)%nat ->
  hash sd m =
  ('(st0, x, y) ← final1 (s0 (final0 (absorb j (init_state sd) m))) m (48 * j);
   Some (final2 st0 x y (length m))).
Proof.
  intros H16 Hj. unfold hash. rewrite (proj2 (Nat.leb_gt _ _)) by lia.
  destruct (48 <=? length m)%nat eqn:E; [apply Nat.leb_le in E|apply Nat.leb_gt in E].
  - rewrite hash_rounds_rounds, (rounds_absorb j) by lia. done.
  - replace j with 0%nat by lia. cbn [absorb mbind option_bind]. by rewrite final0_init.
Qed.

Lemma hash_some sd m : is_Some (hash sd m).
Proof.
  destruct (decide (length m <= 16)%nat) as [Hs|Hs].
  - unfold hash. rewrite (proj2 (Nat.leb_le _ _)) by lia.
    destruct (small_key_some m Hs) as [[? ?] ->]. cbn. eauto.
  - destruct (blocks_exist (length m)) as [j Hj]; [lia|].
    rewrite (hash_absorb sd m j) by lia.
    destruct (final1_some (s0 (final0 (absorb j (init_state sd) m))) m (48 * j))
      as [[[? ?] ?] ->]; [lia..|cbn; eauto].
Qed.

Lemma const_core_hash sd m : hash_const m sd = hash sd m.
Proof.
  unfold hash_const, const_core, hash, small_key.
  rewrite !const_read4_at.
  destruct (length m <=? 16)%nat eqn:E16.
  - destruct (4 <=? length m)%nat.
    + by destruct (read4_at m 0), (read4_at m (length m / 8 * 4)), (read4_at m (length m - 4)),
        (read4_at m (length m - 4 - length m / 8 * 4)).
    + destruct m as [|? m']; [done|]. cbn [length]. cbn [Nat.eqb Nat.ltb Nat.leb negb].
      by destruct ((_ :: m') !! 0%nat), ((_ :: m') !! (_ / 2)%nat), ((_ :: m') !! (_ - 1)%nat).
  - apply Nat.leb_gt in E16. unfold final1, final2, mum_.
    rewrite const_rounds_rounds, !const_read8_at.
    destruct (48 <=? length m)%nat eqn:E48; [apply Nat.leb_le in E48|apply Nat.leb_gt in E48].
    + rewrite hash_rounds_rounds by lia.
      destruct (rounds (length m) (init_state sd) m 0) as [[st i]|] eqn:Er; [|done].
      cbn [mbind option_bind].
      assert (i <= length m)%nat as Hi.
      { destruct (blocks_exist (length m)) as [j Hj]; [lia|].
        rewrite (rounds_absorb j) in Er by lia. injection Er as _ <-. lia. }
      rewrite slice_from_ok by lia. cbn [mbind option_bind].
      rewrite const_final1_loop.
      rewrite <- (Nat.add_0_r i) at 1.
      destruct (final1_loop_shift (length m) (s0 (final0 st)) m i 0) as [->|?]; [|lia].
      rewrite (final1_loop_fuel (length m) (length (drop i m))) by len.
      destruct (final1_loop _ _ _ _); [|done]. cbn [mbind option_bind].
      by destruct (read8_at m (length m - 16)), (read8_at m (length m - 8)).
    + cbn [mbind option_bind]. rewrite slice_from_ok by lia. cbn [mbind option_bind].
      rewrite const_final1_loop, drop_0.
      destruct (final1_loop _ _ _ _); [|done]. cbn [mbind option_bind].
      by destruct (read8_at m (length m - 16)), (read8_at m (length m - 8)).
Qed.

(** A hasher that has consumed [m]: [j] blocks in [state], the rest in [buf],
    and, behind a short rest, the bytes of [m] that precede it. *)
Record consumed (sd : Z) (m : bytes) (h : Hasher) (j : nat) : Prop := {
  c_blocks : (48 * j <= length m <= 48 * j + 48)%nat;
  c_last : (j = 0 \/ 48 * j < length m)%nat;
  c_total : total_len h = length m;
  c_state : state h = absorb j (init_state sd) m;
  c_buf : length (buf h) = 48%nat;
  c_buf_len : buf_len h = (length m - 48 * j)%nat;
  c_rest : take (buf_len h) (buf h) = drop (48 * j) m;
  c_before : (0 < j)%nat -> (buf_len h < 16)%nat ->
    drop (32 + buf_len h) (buf h) = drop (48 * j - (16 - buf_len h)) (take (48 * j) m)
}.

Lemma init_consumed sd : consumed sd [] (init sd) 0.
Proof. split; cbn; try lia; try done. Qed.

(** Enough input completes the buffered block, which ends the absorbed message. *)
Lemma fill_buffer_consumed sd m h j input :
  consumed sd m h j -> (48 - buf_len h < length input)%nat ->
  exists st bf i k,
    fill_buffer h input = Some (st, bf, i) /\ (i < length input)%nat /\ (i <= 48)%nat /\
    length bf = 48%nat /\ length (m ++ take i input) = (48 * k)%nat /\
    st = absorb k (init_state sd) (m ++ take i input) /\
    ((k = 0 /\ i = 0)%nat \/
     (0 < k)%nat /\ (i < 48)%nat /\ bf = drop (48 * (k - 1)) (m ++ take i input)).
Proof.
  intros [Hb Hl Ht Hst Hbf Hbl Hr Hw] Hlen. unfold fill_buffer.
  destruct (0 <? buf_len h)%nat eqn:E; [apply Nat.ltb_lt in E|apply Nat.ltb_ge in E].
  - rewrite slice_ok by lia. cbn [mbind option_bind]. rewrite drop_0, Nat.sub_0_r.
    rewrite copy_from_slice_ok by len. cbn [mbind option_bind].
    rewrite (drop_ge (buf h)), app_nil_r by len.
    rewrite round_some by len. cbn [mbind option_bind].
    eexists _, _, _, (S j). split; [done|]. split; [lia|]. split; [lia|]. split; [len|].
    assert (length (m ++ take (48 - buf_len h) input) = 48 * S j)%nat as Hm by len.
    split; [done|].
    assert (m ++ take (48 - buf_len h) input =
      take (48 * j) m ++ (take (buf_len h) (buf h) ++ take (48 - buf_len h) input)) as Heq.
    { by rewrite Hr, app_assoc, take_drop. }
    split.
    + rewrite Heq. replace (S j) with (j + 1)%nat by lia. rewrite absorb_app by len. cbn [absorb].
      rewrite Hst. f_equal. rewrite <- (take_drop (48 * j) m) at 1. by rewrite absorb_prefix by len.
    + right. split; [lia|]. split; [lia|].
      rewrite Heq, drop_app_length'; [done|]. len.
  - eexists _, _, _, 0%nat. split; [done|]. split; [lia|]. split; [lia|]. split; [done|].
    assert (j = 0)%nat as -> by lia. assert (m = []) as -> by (destruct m; [done|cbn in *; lia]).
    cbn. split; [done|]. split; [done|]. by left.
Qed.

(** The bytes before a short remainder are in the buffer after the copy. *)
Lemma save_last16_ok bf M input i k q :
  length bf = 48%nat ->
  let i' := (i + 48 * q)%nat in
  let rl := (length input - i')%nat in
  (i' < length input <= i' + 48)%nat -> (i < 48)%nat ->
  (length M + i' = 48 * (k + q))%nat ->
  ((k = 0 /\ i = 0)%nat \/ (0 < k)%nat /\ bf = drop (48 * (k - 1)) (M ++ take i input)) ->
  exists bf', save_last16 bf input i' = Some bf' /\ length bf' = 48%nat /\
    ((0 < k + q)%nat -> (rl < 16)%nat ->
     drop (32 + rl) bf' =
     drop (48 * (k + q) - (16 - rl)) (take (48 * (k + q)) (M ++ input))).
Proof.
  intros Hbf i' rl Hi' Hi Hlen Hor. unfold save_last16. fold rl.
  assert (take (48 * (k + q)) (M ++ input) = M ++ take i' input) as ->.
  { rewrite take_app_ge by lia. do 2 f_equal. lia. }
  destruct ((rl <? 16)%nat && (48 <=? i')%nat) eqn:E.
  - apply andb_prop in E as [E1%Nat.ltb_lt E2%Nat.leb_le].
    rewrite slice_ok by lia. cbn [mbind option_bind].
    rewrite copy_from_slice_ok by len. eexists. split; [done|]. split; [len|]. intros _ _.
    rewrite (drop_app_ge M) by lia.
    replace (32 + rl)%nat with (48 - (16 - rl))%nat by lia.
    rewrite drop_app_length' by len.
    rewrite (drop_ge bf), app_nil_r by len.
    rewrite skipn_firstn_comm. f_equal; [lia|f_equal; lia].
  - eexists. split; [done|]. split; [done|]. intros Hk Hrl.
    apply andb_false_iff in E as [E%Nat.ltb_ge|E%Nat.leb_gt]; [lia|].
    assert (q = 0)%nat as -> by lia.
    destruct Hor as [[-> ->]|[Hk' ->]]; [lia|].
    unfold i'. rewrite Nat.mul_0_r, Nat.add_0_r, drop_drop. f_equal; [lia|].
    by rewrite Nat.add_0_r.
Qed.

Lemma update_consumed_small sd m h j input :
  consumed sd m h j -> (length input <= 48 - buf_len h)%nat ->
  exists h', update h input = Some h' /\ consumed sd (m ++ input) h' j.
Proof.
  intros [Hb Hl Ht Hst Hbf Hbl Hr Hw] Hlen. unfold update.
  rewrite (proj2 (Nat.leb_le _ _)) by lia.
  rewrite copy_from_slice_ok by lia. cbn [mbind option_bind].
  eexists. split; [done|]. split; cbn [total_len state buf buf_len]; try len.
  - by rewrite absorb_prefix by lia.
  - rewrite take_copied by lia. by rewrite Hr, drop_app_le by lia.
  - intros Hj H16. rewrite drop_copied by lia. rewrite take_app_le by lia.
    replace (32 + (buf_len h + length input))%nat with (32 + buf_len h + length input)%nat by lia.
    rewrite <- drop_drop, Hw, drop_drop by lia. f_equal. lia.
Qed.

Lemma update_consumed_big sd m h j input :
  consumed sd m h j -> (48 - buf_len h < length input)%nat ->
  exists h' j', update h input = Some h' /\ consumed sd (m ++ input) h' j'.
Proof.
  intros Hc Hlen. pose proof (c_total _ _ _ _ Hc) as Ht. unfold update.
  rewrite (proj2 (Nat.leb_gt _ _)) by lia.
  destruct (fill_buffer_consumed sd m h j input Hc Hlen)
    as (st & bf & i & k & -> & Hi & Hi48 & Hbf & Hk & -> & Hor).
  cbn [mbind option_bind].
  destruct (blocks_exist (length input - i)) as [q Hq]; [lia|].
  rewrite (rounds_absorb q) by lia. cbn [mbind option_bind].
  rewrite slice_from_ok by lia. cbn [mbind option_bind].
  rewrite length_app, length_take in Hk.
  destruct (save_last16_ok bf m input i k q Hbf) as (bf' & -> & Hbf' & Hsave); try lia.
  { destruct Hor as [?|(? & ? & ?)]; [by left|by right]. }
  cbn [mbind option_bind]. rewrite copy_from_slice_ok by len. cbn [mbind option_bind].
  eexists _, (k + q)%nat. split; [done|].
  split; cbn [total_len state buf buf_len]; try len.
  - rewrite <- absorb_app by len. by rewrite <- app_assoc, take_drop.
  - etrans; [apply (take_copied bf' _ 0); lia|]. rewrite take_0. cbn [app].
    rewrite drop_app_ge by lia. f_equal. lia.
  - intros Hj H16. rewrite (drop_copied bf' _ 0) by len.
    rewrite length_drop in *. by apply Hsave.
Qed.

Lemma update_consumed sd m h j input :
  consumed sd m h j -> exists h' j', update h input = Some h' /\ consumed sd (m ++ input) h' j'.
Proof.
  intros Hc. destruct (decide (length input <= 48 - buf_len h)%nat).
  - destruct (update_consumed_small sd m h j input Hc) as (h' & ? & ?); eauto.
  - eapply update_consumed_big; eauto. lia.
Qed.

Lemma updates_consumed sd chunks m h j :
  consumed sd m h j ->
  exists h' j', updates h chunks = Some h' /\ consumed sd (m ++ concat chunks) h' j'.
Proof.
  revert m h j. induction chunks as [|c cs IH]; intros m h j Hc; cbn [updates concat].
  { exists h, j. by rewrite app_nil_r. }
  destruct (update_consumed sd m h j c Hc) as (h1 & j1 & -> & Hc1).
  rewrite app_assoc. eapply IH, Hc1.
Qed.

(** The short-remainder scratch buffer holds the last sixteen bytes of the message. *)
Lemma final_consumed sd m h j : consumed sd m h j -> final_ h = hash sd m.
Proof.
  intros [Hb Hl Ht Hst Hbf Hbl Hr Hw]. unfold final_.
  rewrite (slice_ok (buf h) 0) by lia. cbn [mbind option_bind].
  rewrite drop_0, Nat.sub_0_r, Hr, Ht.
  destruct (length m <=? 16)%nat eqn:E16; [apply Nat.leb_le in E16|apply Nat.leb_gt in E16].
  - assert (j = 0)%nat as -> by lia. unfold hash. rewrite (proj2 (Nat.leb_le _ _)) by lia.
    rewrite Hst. done.
  - rewrite (hash_absorb sd m j), Hst by lia.
    destruct (buf_len h <? 16)%nat eqn:Es; [apply Nat.ltb_lt in Es|apply Nat.ltb_ge in Es].
    + rewrite slice_ok by lia. cbn [mbind option_bind].
      replace (48 - (16 - buf_len h))%nat with (32 + buf_len h)%nat by lia.
      rewrite Hw by lia.
      rewrite take_ge by len.
      rewrite copy_from_slice_ok by len. cbn [mbind option_bind app].
      assert (length (drop (48 * j - (16 - buf_len h)) (take (48 * j) m))
        = 16 - buf_len h)%nat as Hd by len.
      rewrite take_0, Hd. cbn [app].
      rewrite copy_from_slice_ok by len. cbn [mbind option_bind].
      rewrite take_app_length' by done.
      rewrite (drop_ge (_ ++ _)), app_nil_r by len.
      rewrite <- drop_app_le, take_drop by len.
      erewrite (final1_ext _ _ _ m (48 * j)); [done|len..| |].
      * rewrite drop_drop. f_equal. lia.
      * rewrite drop_drop. f_equal. len.
    + cbn [mbind option_bind]. erewrite (final1_ext _ _ _ m (48 * j)); [done|len..| |].
      * by rewrite drop_0.
      * rewrite drop_drop. f_equal. len.
Qed.

Lemma lowercase_loop_consumed sd fuel remain m h j :
  (length remain <= fuel)%nat -> consumed sd m h j ->
  exists h' j', lowercase_loop fuel h remain = Some h' /\
    consumed sd (m ++ (to_ascii_lowercase <$> remain)) h' j'.
Proof.
  revert remain m h j. induction fuel as [|fuel IH]; intros remain m h j Hf Hc.
  { destruct remain; [|cbn in Hf; lia]. cbn. exists h, j. by rewrite app_nil_r. }
  destruct remain as [|r rs]; cbn [lowercase_loop].
  { exists h, j. by rewrite app_nil_r. }
  remember (r :: rs) as rem eqn:Hrem.
  assert (0 < length rem)%nat by (subst; cbn; lia).
  rewrite slice_ok by lia. cbn [mbind option_bind]. rewrite drop_0, Nat.sub_0_r.
  destruct (update_consumed sd m h j (to_ascii_lowercase <$> take (length rem `min` 48) rem) Hc)
    as (h1 & j1 & -> & Hc1). cbn [mbind option_bind].
  rewrite slice_from_ok by lia. cbn [mbind option_bind].
  destruct (IH (drop (length rem `min` 48) rem) _ h1 j1 ltac:(len) Hc1) as (h2 & j2 & -> & Hc2).
  exists h2, j2. split; [done|]. by rewrite <- app_assoc, <- fmap_app, take_drop in Hc2.
Qed.

End WyhashFacts.

(** * Facts about [hash_int] *)

Module HashIntFacts.
Import HashInt.

Lemma xorshift_testbit k x i :
  0 <= i -> Z.testbit (xorshift k x) i = xorb (Z.testbit x i) (Z.testbit x (i + k)).
Proof. intros. unfold xorshift. by rewrite Z.lxor_spec, Z.shiftr_spec. Qed.

Lemma high_bit w x i : 0 <= x < 2 ^ w -> w <= i -> Z.testbit x i = false.
Proof.
  intros Hx Hi. destruct (decide (0 <= w)).
  - rewrite <- (Z.mod_small x (2 ^ w)) by lia. apply Z.mod_pow2_bits_high. lia.
  - rewrite Z.pow_neg_r in Hx by lia. lia.
Qed.

Lemma xorshift_range w k x : 0 <= w -> 0 <= k -> 0 <= x < 2 ^ w -> 0 <= xorshift k x < 2 ^ w.
Proof.
  intros Hw Hk Hx. unfold xorshift.
  assert (0 <= Z.shiftr x k) by (apply Z.shiftr_nonneg; lia).
  assert (0 <= Z.lxor x (Z.shiftr x k)) by (apply Z.lxor_nonneg; lia).
  split; [done|]. apply Z.bounded_iff_bits_nonneg; [lia..|]. intros i Hi.
  rewrite Z.lxor_spec, Z.shiftr_spec by lia.
  by rewrite (high_bit w x i), (high_bit w x (i + k)) by lia.
Qed.

(** Shifting right by a positive amount loses nothing: the top bits are kept. *)
Lemma xorshift_inj w k x y :
  0 <= w -> 0 < k -> 0 <= x < 2 ^ w -> 0 <= y < 2 ^ w -> xorshift k x = xorshift k y -> x = y.
Proof.
  intros Hw Hk Hx Hy H. apply Z.bits_inj'. intros i Hi.
  assert (forall n : nat, forall i, 0 <= i -> w - Z.of_nat n <= i -> Z.testbit x i = Z.testbit y i) as Hall.
  { induction n as [|n IH]; intros j Hj Hn.
    - by rewrite (high_bit w x), (high_bit w y) by lia.
    - assert (Z.testbit (xorshift k x) j = Z.testbit (xorshift k y) j) as Hb by (by rewrite H).
      rewrite !xorshift_testbit, (IH (j + k)) in Hb by lia.
      by apply (Bool.xorb_move_l_r_2) in Hb; rewrite Bool.xorb_assoc, Bool.xorb_nilpotent, Bool.xorb_false_r in Hb. }
  apply (Hall (Z.to_nat w)); lia.
Qed.

Lemma wrapping_mul_range w x c : 0 <= w -> 0 <= wrapping_mul w x c < 2 ^ w.
Proof. intros. apply Z.mod_pos_bound. by apply Z.pow_pos_nonneg. Qed.

(** Multiplication by a unit of the ring of [w]-bit words is injective. *)
Lemma wrapping_mul_inj w c d x y :
  0 <= w -> (c * d) mod 2 ^ w = 1 mod 2 ^ w -> 0 <= x < 2 ^ w -> 0 <= y < 2 ^ w ->
  wrapping_mul w x c = wrapping_mul w y c -> x = y.
Proof.
  intros Hw Hcd Hx Hy H. unfold wrapping_mul in H.
  assert (forall z, 0 <= z < 2 ^ w -> ((z * c) mod 2 ^ w * d) mod 2 ^ w = z) as Hinv.
  { intros z Hz. rewrite Z.mul_mod_idemp_l, <- Z.mul_assoc by lia.
    rewrite <- Z.mul_mod_idemp_r, Hcd, Z.mul_mod_idemp_r, Z.mul_1_r by lia.
    by apply Z.mod_small. }
  by rewrite <- (Hinv x), <- (Hinv y), H by lia.
Qed.

(** One mixing step, a shift then a product by a unit, is injective. *)
Lemma mix_step_inj w k c d x y :
  0 <= w -> 0 < k -> (c * d) mod 2 ^ w = 1 mod 2 ^ w -> 0 <= x < 2 ^ w -> 0 <= y < 2 ^ w ->
  wrapping_mul w (xorshift k x) c = wrapping_mul w (xorshift k y) c -> x = y.
Proof.
  intros Hw Hk Hcd Hx Hy H.
  apply (wrapping_mul_inj w c d) in H; try done; try (apply xorshift_range; lia).
  by apply (xorshift_inj w k) in H.
Qed.

(** Three mixing steps and a last shift. *)
Lemma mix3_inj w k1 c1 d1 k2 c2 d2 k3 c3 d3 k4 x y :
  0 <= w -> 0 < k1 -> 0 < k2 -> 0 < k3 -> 0 < k4 ->
  (c1 * d1) mod 2 ^ w = 1 mod 2 ^ w -> (c2 * d2) mod 2 ^ w = 1 mod 2 ^ w ->
  (c3 * d3) mod 2 ^ w = 1 mod 2 ^ w ->
  let f x := xorshift k4 (wrapping_mul w (xorshift k3 (wrapping_mul w (xorshift k2
               (wrapping_mul w (xorshift k1 x) c1)) c2)) c3) in
  0 <= x < 2 ^ w -> 0 <= y < 2 ^ w -> f x = f y -> x = y.
Proof.
  intros Hw ???? H1 H2 H3 f Hx Hy H. unfold f in H.
  pose proof wrapping_mul_range as Hr.
  apply (xorshift_inj w k4) in H; auto.
  apply (mix_step_inj w k3 c3 d3) in H; auto.
  apply (mix_step_inj w k2 c2 d2) in H; auto.
  by apply (mix_step_inj w k1 c1 d1) in H.
Qed.

End HashIntFacts.

(** * Properties *)

Module WyhashProps.

(** the streaming [Wyhash11] is chunk-invariant and memory safe: however
    the input is split over [update] calls, no call reads or writes out of
    bounds and [final_] returns the hash of the concatenation. *)
Theorem wyhash11_streaming seed chunks :
  exists h v, Wyhash11.updates11 (Wyhash11.init11 seed) chunks = Some h /\
    Wyhash11.final11 h = Some v /\ Wyhash11.hash11 seed (concat chunks) = Some v.
Proof.
  destruct (Wyhash11Facts.updates11_consumed seed chunks [] _ (Wyhash11Facts.init11_consumed seed))
    as (h & Hu & Hc).
  destruct (Wyhash11Facts.hash11_some seed (concat chunks)) as [v Hv].
  exists h, v. split; [done|]. split; [|done]. by rewrite (Wyhash11Facts.final11_consumed _ _ _ Hc).
Qed.

(** C34: the streaming final4 [Wyhash] is chunk-invariant and memory safe, in
    particular when the last 48-byte block is exactly full and when the rest
    is shorter than the sixteen bytes [final1] reads. *)
Theorem wyhash_streaming seed chunks :
  exists h v, Wyhash.updates (Wyhash.init seed) chunks = Some h /\
    Wyhash.final_ h = Some v /\ Wyhash.hash seed (concat chunks) = Some v.
Proof.
  destruct (WyhashFacts.updates_consumed seed chunks [] _ 0 (WyhashFacts.init_consumed seed))
    as (h & j & Hu & Hc).
  destruct (WyhashFacts.hash_some seed (concat chunks)) as [v Hv].
  exists h, v. split; [done|]. split; [|done]. by rewrite (WyhashFacts.final_consumed _ _ _ _ Hc).
Qed.

(** C38: the [const fn] re-implementation computes the run-time hash. *)
Theorem hash_const_matches_runtime seed input :
  Wyhash.hash_const input seed = Wyhash.hash seed input.
Proof. apply WyhashFacts.const_core_hash. Qed.

(** [hash_ascii_lowercase] is the hash of the lowered input, on the fast
    path and on the chunked one, so inputs equal up to case collide. *)
Theorem hash_ascii_lowercase_spec seed input :
  Wyhash.hash_ascii_lowercase seed input = Wyhash.hash seed (to_ascii_lowercase <$> input).
Proof.
  unfold Wyhash.hash_ascii_lowercase. case_match; [done|].
  destruct (WyhashFacts.lowercase_loop_consumed seed (length input) input []
    (Wyhash.init seed) 0) as (h & j & -> & Hc); [done|apply WyhashFacts.init_consumed|].
  exact (WyhashFacts.final_consumed _ _ _ _ Hc).
Qed.

(** [hash_int] has no collisions: on each width the mixer is injective. *)
Theorem hash_int_injective x y :
  (0 <= x < 2 ^ 16 -> 0 <= y < 2 ^ 16 ->
     HashInt.hash_int_u16 x = HashInt.hash_int_u16 y -> x = y) /\
  (0 <= x < 2 ^ 32 -> 0 <= y < 2 ^ 32 ->
     HashInt.hash_int_u32 x = HashInt.hash_int_u32 y -> x = y) /\
  (0 <= x < 2 ^ 64 -> 0 <= y < 2 ^ 64 ->
     HashInt.hash_int_u64 x = HashInt.hash_int_u64 y -> x = y).
Proof.
  split; [|split].
  - by apply (HashIntFacts.mix3_inj 16 7 0x2993 0x5c9b 5 0xe877 0x7147 9 0x0235 0xc01d 10).
  - by apply (HashIntFacts.mix3_inj 32 17 0xed5ad4bb 0x79a85073 11 0xac4c1b51 0x469e0db1
                15 0x31848bab 0x32b21703 14).
  - set (c := 0xbea225f9eb34556d). set (d := 0xdd01f46a7e6ffc65).
    by apply (HashIntFacts.mix3_inj 64 32 c d 29 c d 32 c d 29).
Qed.

(** The injectivity of [hash_int] at concrete words. *)
Lemma hash_int_injective_witness :
  (0 <= 5 < 2 ^ 32) /\ 5 = 5.
Proof.
  split; [lia|].
  apply (hash_int_injective 5 5); [lia|lia|reflexivity].
Defined.

(** The test vectors of the crate. *)
Example hash_vector_abc : Wyhash.hash 2 (b! "abc") = Some 0x32dd92e4b2915153.
Proof. vm_compute. reflexivity. Qed.
Example hash_vector_80 : Wyhash.hash 6
  (b! "12345678901234567890123456789012345678901234567890123456789012345678901234567890")
  = Some 0xc39cab13b115aad3.
Proof. vm_compute. reflexivity. Qed.

End WyhashProps.
