(* ===== verification/BunCore.v ===== *)
(** The helpers of [bun_core] the modelled components call: integer parsing
    (src/src/bun_core/fmt.rs), byte-string comparison, trimming and splitting
    (src/src/bun_core/string/immutable.rs, src/src/bun_alloc/lib.rs).

    The SIMD byte search of the highway C++ library and libc's [memmem] are
    not Rust code of the repository: they are the class [ByteSearch], with
    their documented behaviour in [ByteSearchOk]. *)
From S2P Require Import Prelude.

(** * Integer parsing *)

Inductive ParseIntError := InvalidCharacter | Overflow.

#[export] Instance ParseIntError_eq_dec : EqDecision ParseIntError.
Proof. solve_decision. Defined.

Definition U128_MAX : Z := 2 ^ 128 - 1.

(** [acc.checked_mul(radix).and_then(|v| v.checked_add(d))] on [u128]. *)
Definition checked_mul_add (acc radix d : Z) : option Z :=
  let v := acc * radix in
  if v <=? U128_MAX then
    if v + d <=? U128_MAX then Some (v + d) else None
  else None.

Definition digit_value (c : Z) : option Z :=
  if is_ascii_digit c then Some (c - #"0")
  else if is_ascii_lowercase c then Some (c - #"a" + 10)
  else if is_ascii_uppercase c then Some (c - #"A" + 10)
  else None.

(** The loop of [parse_with_sign] over the digits. *)
Fixpoint parse_digits (radix : Z) (digits : bytes) (acc : Z) : Result Z ParseIntError :=
  match digits with
  | [] => Ok acc
  | c :: r =>
    if c =? #"_" then parse_digits radix r acc
    else match digit_value c with
      | None => Err InvalidCharacter
      | Some d =>
        if radix <=? d then Err InvalidCharacter
        else match checked_mul_add acc radix d with
          | Some acc' => parse_digits radix r acc'
          | None => Err Overflow
          end
      end
  end.

Definition parse_with_sign (digits : bytes) (radix : Z) : Result Z ParseIntError :=
  match digits, last digits with
  | c :: _, Some e =>
    if (c =? #"_") || (e =? #"_") then Err InvalidCharacter else parse_digits radix digits 0
  | _, _ => Err InvalidCharacter
  end.

Definition auto_radix (digits : bytes) (radix : Z) : bytes * Z :=
  if negb (radix =? 0) then (digits, radix)
  else match digits with
    | z :: x :: r =>
      if z =? #"0" then
        if (x =? #"x") || (x =? #"X") then (r, 16)
        else if (x =? #"o") || (x =? #"O") then (r, 8)
        else if (x =? #"b") || (x =? #"B") then (r, 2)
        else (digits, 10)
      else (digits, 10)
    | _ => (digits, 10)
    end.

(** [parse_unsigned::<T>], [T] an unsigned type with maximum [max]. *)
Definition parse_unsigned (max : Z) (buf : bytes) (radix : Z) : Result Z ParseIntError :=
  let '(digits, radix) := auto_radix buf radix in
  (acc <-? parse_with_sign digits radix;
   if acc <=? max then Ok acc else Err Overflow)%result.

(** [parse_int::<T>], [T] with range [lo, hi] within [i128] or [u128]. *)
Definition parse_int (lo hi : Z) (buf : bytes) (radix : Z) : Result Z ParseIntError :=
  match buf with
  | [] => Err InvalidCharacter
  | c :: r =>
    let '(neg, rest) :=
      if c =? #"+" then (false, r) else if c =? #"-" then (true, r) else (false, buf) in
    let '(digits, radix) := auto_radix rest radix in
    (acc <-? parse_with_sign digits radix;
     if (neg : bool) then
       if 2 ^ 127 <? acc then Err Overflow
       else if lo <=? - acc then Ok (- acc) else Err Overflow
     else if acc <=? hi then Ok acc else Err Overflow)%result
  end.

(** * Byte strings *)

Definition WHITESPACE_CHARS : bytes := [32; 9; 10; 13; 0x0B; 0x0C].

Definition chars_contains (chars : bytes) (c : Z) : bool := existsb (Z.eqb c) chars.

Definition trim_left (s chars : bytes) : bytes :=
  drop (prefix_len (chars_contains chars) s) s.

(** [trim_right]: the same scan from the end. *)
Definition trim_right (s chars : bytes) : bytes :=
  take (length s - prefix_len (chars_contains chars) (rev s)) s.

Definition trim (s chars : bytes) : bytes := trim_right (trim_left s chars) chars.

Definition length_of_leading_whitespace_ascii (s : bytes) : nat :=
  prefix_len (chars_contains WHITESPACE_CHARS) s.

(** [order]: [<[u8] as Ord>::cmp]. *)
Definition order (a b : bytes) : comparison := list_compare Z.compare a b.

(** A [size]-byte [read_unaligned] at offset [o] of a slice. *)
Definition read_unaligned (size : nat) (s : bytes) (o : nat) : option Z :=
  l ← slice s o (o + size); Some (le_decode l).

(** [eql_long]: one step compares [size] bytes at the current offset; the walk
    stops on a difference ([Some false]) or at the end of [b] ([Some true]). *)
Inductive Walk := Done (r : bool) | At (o : nat).

Definition eql_step (size : nat) (a b : bytes) (o : nat) : option Walk :=
  x ← read_unaligned size a o;
  y ← read_unaligned size b o;
  if negb (x =? y) then Some (Done false)
  else if (o + size =? length b)%nat then Some (Done true)
  else Some (At (o + size)).

Fixpoint eql_dwords (n : nat) (a b : bytes) (o : nat) : option Walk :=
  match n with
  | O => Some (At o)
  | S n =>
    w ← eql_step 8 a b o;
    match w with
    | Done r => Some (Done r)
    | At o' => eql_dwords n a b o'
    end
  end.

(** The tail steps, taken when the corresponding bit of [len] is set. *)
Definition eql_if (bit : bool) (size : nat) (a b : bytes) (w : Walk) : option Walk :=
  match w with
  | Done r => Some (Done r)
  | At o => if bit then eql_step size a b o else Some (At o)
  end.

(** [same_ptr] is the test [a == b] on the two base pointers. *)
Definition eql_long (same_ptr : bool) (a b : bytes) (check_len : bool) : option bool :=
  let len := length b in
  if check_len && (len =? 0)%nat then Some (length a =? 0)%nat
  else if check_len && negb (length a =? len)%nat then Some false
  else if same_ptr then Some true
  else
    w ← eql_dwords (len / 8) a b 0;
    w ← eql_if (Nat.odd (len / 4)) 4 a b w;
    w ← eql_if (Nat.odd (len / 2)) 2 a b w;
    match w with
    | Done r => Some r
    | At o =>
      if Nat.odd len then
        x ← a !! o; y ← b !! o; Some (x =? y)
      else Some true
    end.

(** [eql]. *)
Definition bytes_eql (same_ptr : bool) (a b : bytes) : option bool :=
  if negb (length a =? length b)%nat then Some false else eql_long same_ptr a b false.

(** * Searching and splitting *)

Class ByteSearch := {
  highway_index_of_char : bytes -> Z -> nat;
  libc_memmem : bytes -> bytes -> option nat
}.

(** Documented behaviour: the first position of the byte, or the length; the
    offset of the first occurrence of the needle. *)
Class ByteSearchOk (F : ByteSearch) : Prop := {
  highway_index_of_char_spec h n :
    highway_index_of_char h n = prefix_len (fun c => negb (c =? n)) h;
  libc_memmem_some h n i : libc_memmem h n = Some i ->
    take (length n) (drop i h) = n /\ (i + length n <= length h)%nat /\
    forall j, (j < i)%nat -> take (length n) (drop j h) <> n;
  libc_memmem_none h n : libc_memmem h n = None ->
    forall j, (j + length n <= length h)%nat -> take (length n) (drop j h) <> n
}.

Section Split.
Context {F : ByteSearch}.

(** [highway::index_of_char]. *)
Definition index_of_char (haystack : bytes) (needle : Z) : option nat :=
  if (length haystack =? 0)%nat then None
  else
    let result := highway_index_of_char haystack needle in
    if (result =? length haystack)%nat then None else Some result.

Definition memmem (haystack needle : bytes) : option nat :=
  if (length needle =? 0)%nat then Some O else libc_memmem haystack needle.

Definition index_of (s str : bytes) : option nat :=
  if (length s =? 0)%nat || (length str =? 0)%nat || (length s <? length str)%nat then None
  else match str with
    | [c] => index_of_char s c
    | _ => memmem s str
    end.

Record SplitIterator := { it_buffer : bytes; it_index : option nat; it_delimiter : bytes }.

Definition split (s delimiter : bytes) : SplitIterator :=
  {| it_buffer := s; it_index := Some O; it_delimiter := delimiter |}.

(** [next]: the field and the iterator after it; [None] when done. *)
Definition split_next (it : SplitIterator) : option (bytes * SplitIterator) :=
  start ← it_index it;
  rest ← slice_from (it_buffer it) start;
  let '(index', end_) :=
    match index_of rest (it_delimiter it) with
    | Some d => (Some (d + start + length (it_delimiter it))%nat, (d + start)%nat)
    | None => (None, length (it_buffer it))
    end in
  field ← slice (it_buffer it) start end_;
  Some (field, {| it_buffer := it_buffer it; it_index := index';
                  it_delimiter := it_delimiter it |}).
End Split.

(** A scalar search with the documented behaviour. *)
Definition scalar_memmem (h n : bytes) : option nat :=
  (fix go (fuel i : nat) : option nat :=
     if bool_decide (take (length n) (drop i h) = n) && (i + length n <=? length h)%nat
     then Some i
     else match fuel with
       | O => None
       | S fuel => go fuel (S i)
       end) (length h) O.

#[export] Instance scalar_search : ByteSearch := {
  highway_index_of_char h n := prefix_len (fun c => negb (c =? n)) h;
  libc_memmem := scalar_memmem
}.

(** * Formatting

    [Display] of an unsigned integer below [10 ^ 40] (every [u128]). *)
Fixpoint dec_digits (fuel : nat) (n : Z) (acc : bytes) : bytes :=
  match fuel with
  | O => acc
  | S fuel =>
    let acc := (#"0" + n mod 10) :: acc in
    if n / 10 =? 0 then acc else dec_digits fuel (n / 10) acc
  end.

Definition decimal (n : Z) : bytes := dec_digits 40 n [].

(** * Facts about integer parsing *)

(** The value of a string of decimal digits. *)
Definition dec_value (ds : bytes) : Z := fold_left (fun acc c => acc * 10 + (c - #"0")) ds 0.

Definition all_digits (ds : bytes) : Prop := Forall (fun c => is_ascii_digit c = true) ds.

Lemma digit_range c : is_ascii_digit c = true -> 48 <= c <= 57.
Proof. unfold is_ascii_digit. lia. Qed.

Section DecFold.
Notation fold := (fold_left (fun acc c => acc * 10 + (c - #"0"))).

Lemma dec_fold_ge ds acc : all_digits ds -> 0 <= acc -> acc <= fold ds acc.
Proof.
  intros Hd. revert acc. induction Hd as [|c ds Hc _ IH]; intros acc Ha; cbn; [lia|].
  apply digit_range in Hc. etrans; [|apply IH]; lia.
Qed.

Lemma parse_digits_dec ds acc :
  all_digits ds -> 0 <= acc <= U128_MAX ->
  parse_digits 10 ds acc = if fold ds acc <=? U128_MAX then Ok (fold ds acc) else Err Overflow.
Proof.
  intros Hd. revert acc. induction Hd as [|c ds Hc Hd IH]; intros acc Ha.
  { cbn [parse_digits fold_left]. by rewrite (proj2 (Z.leb_le acc _)) by lia. }
  pose proof (digit_range c Hc) as Hr. cbn [parse_digits fold_left].
  rewrite (proj2 (Z.eqb_neq c 95)) by lia. unfold digit_value. rewrite Hc.
  rewrite (proj2 (Z.leb_gt 10 _)) by lia. unfold checked_mul_add.
  pose proof (dec_fold_ge ds (acc * 10 + (c - 48)) Hd ltac:(lia)) as Hge.
  destruct (acc * 10 <=? U128_MAX) eqn:E1;
    [destruct (acc * 10 + (c - 48) <=? U128_MAX) eqn:E2|].
  - rewrite IH by lia. done.
  - rewrite (proj2 (Z.leb_gt (fold _ _) _)) by lia. done.
  - rewrite (proj2 (Z.leb_gt (fold _ _) _)) by lia. done.
Qed.

Lemma dec_fold_acc ds acc :
  fold ds acc = acc * 10 ^ Z.of_nat (length ds) + fold ds 0.
Proof.
  revert acc. induction ds as [|c ds IH]; intros acc; cbn [fold_left length].
  { lia. }
  rewrite (IH (acc * 10 + _)), (IH (0 * 10 + _)), Nat2Z.inj_succ, Z.pow_succ_r by lia. ring.
Qed.
End DecFold.

Lemma all_digits_last_first ds c :
  all_digits (c :: ds) ->
  exists e, last (c :: ds) = Some e /\ is_ascii_digit e = true.
Proof.
  intros Hd. destruct (last (c :: ds)) as [e|] eqn:E.
  - exists e. split; [done|]. apply last_Some_elem_of in E.
    by eapply Forall_forall in Hd.
  - by apply last_None in E.
Qed.

(** A string of digits parses to its value, or overflows. *)
Lemma parse_unsigned_digits max ds :
  0 <= max <= U128_MAX -> all_digits ds -> ds <> [] ->
  parse_unsigned max ds 10 = if dec_value ds <=? max then Ok (dec_value ds) else Err Overflow.
Proof.
  intros Hm Hd Hne. unfold parse_unsigned, auto_radix. cbn [Z.eqb negb].
  unfold parse_with_sign. destruct ds as [|c ds]; [done|].
  destruct (all_digits_last_first ds c Hd) as (e & -> & He).
  apply digit_range in He. pose proof (Forall_inv Hd) as Hc. cbn beta in Hc.
  apply digit_range in Hc.
  rewrite (proj2 (Z.eqb_neq c 95)), (proj2 (Z.eqb_neq e 95)) by lia. cbn [orb].
  rewrite parse_digits_dec by (done || (unfold U128_MAX; lia)).
  fold (dec_value (c :: ds)).
  destruct (dec_value (c :: ds) <=? U128_MAX) eqn:E; cbn [result_bind]; [done|].
  apply Z.leb_gt in E. by rewrite (proj2 (Z.leb_gt _ max)) by lia.
Qed.

Lemma dec_digits_digits fuel n acc :
  all_digits acc -> all_digits (dec_digits fuel n acc).
Proof.
  revert n acc. induction fuel as [|fuel IH]; intros n acc Ha; cbn [dec_digits]; [done|].
  assert (all_digits ((48 + n mod 10) :: acc)) as Ha'.
  { constructor; [|done]. unfold is_ascii_digit.
    pose proof (Z.mod_pos_bound n 10 ltac:(lia)). lia. }
  destruct (n / 10 =? 0); auto.
Qed.

Lemma decimal_digits n : all_digits (decimal n).
Proof. apply dec_digits_digits. constructor. Qed.

Lemma dec_digits_value fuel n acc :
  0 <= n < 10 ^ Z.of_nat fuel -> (0 < fuel)%nat ->
  dec_value (dec_digits fuel n acc) = n * 10 ^ Z.of_nat (length acc) + dec_value acc.
Proof.
  revert n acc. induction fuel as [|fuel IH]; intros n acc Hn Hf; [lia|].
  cbn [dec_digits]. rewrite Nat2Z.inj_succ, Z.pow_succ_r in Hn by lia.
  pose proof (Z.div_mod n 10 ltac:(lia)). pose proof (Z.mod_pos_bound n 10 ltac:(lia)).
  assert (forall k, dec_value ((48 + n mod 10) :: acc) + k =
    n mod 10 * 10 ^ Z.of_nat (length acc) + dec_value acc + k) as Hv.
  { intros k. unfold dec_value at 1. cbn [fold_left]. rewrite dec_fold_acc.
    unfold dec_value. f_equal. f_equal. f_equal. lia. }
  destruct (n / 10 =? 0) eqn:E.
  - apply Z.eqb_eq in E. specialize (Hv 0). rewrite !Z.add_0_r in Hv.
    rewrite Hv. do 2 f_equal. lia.
  - apply Z.eqb_neq in E. destruct fuel as [|fuel].
    { cbn in Hn. assert (n / 10 = 0) by (apply Z.div_small; lia). lia. }
    assert (0 <= n / 10 < 10 ^ Z.of_nat (S fuel)) as Hq.
    { split; [apply Z.div_pos; lia|apply Z.div_lt_upper_bound; lia]. }
    rewrite IH by (done || lia).
    cbn [length]. rewrite Nat2Z.inj_succ, Z.pow_succ_r by lia.
    specialize (Hv 0). rewrite !Z.add_0_r in Hv. rewrite Hv.
    generalize dependent (n / 10). intros q **. generalize dependent (n mod 10). intros r **.
    subst n. ring.
Qed.

Lemma dec_digits_ne fuel n acc : (0 < fuel)%nat -> dec_digits fuel n acc <> [].
Proof.
  revert n acc. induction fuel as [|fuel IH]; intros n acc Hf; [lia|]. cbn [dec_digits].
  destruct (n / 10 =? 0); [done|]. destruct fuel; [done|]. apply IH. lia.
Qed.

Lemma decimal_ne n : decimal n <> [].
Proof. apply dec_digits_ne. lia. Qed.

Lemma decimal_value n : 0 <= n < 10 ^ 40 -> dec_value (decimal n) = n.
Proof. intros. unfold decimal. rewrite dec_digits_value by (cbn; lia). cbn. lia. Qed.

(** Printing then parsing an unsigned integer that fits. *)
Lemma parse_unsigned_decimal max n :
  0 <= n <= max -> max <= U128_MAX -> parse_unsigned max (decimal n) 10 = Ok n.
Proof.
  intros Hn Hm.
  assert (n < 10 ^ 40) by (unfold U128_MAX in Hm; lia).
  rewrite parse_unsigned_digits by (auto using decimal_digits, decimal_ne; lia).
  rewrite decimal_value by lia. by rewrite (proj2 (Z.leb_le _ _)) by lia.
Qed.

(** * Facts about the word-chunked comparison *)

Lemma le_decode_inj l k :
  Forall is_byte l -> Forall is_byte k -> length l = length k -> le_decode l = le_decode k -> l = k.
Proof.
  intros Hl Hk Hlen H. rewrite <- (le_encode_decode l), <- (le_encode_decode k) by done.
  by rewrite Hlen, H.
Qed.

Lemma mod_bit k len :
  (len mod (k * 2) = (if Nat.odd (len / k) then k else 0) + len mod k)%nat.
Proof.
  rewrite Nat.Div0.mod_mul_r, <- Nat.bit0_mod, Nat.bit0_odd.
  destruct (Nat.odd (len / k)); cbn [Nat.b2n]; lia.
Qed.

Section EqlLong.
Context (a b : bytes) (Ha : Forall is_byte a) (Hb : Forall is_byte b)
        (Hlen : length a = length b).

(** What remains to be compared when the walk is at [w]. *)
Definition walk_eq (w : Walk) : Prop :=
  match w with
  | Done r => r = true
  | At o => drop o a = drop o b
  end.

(** [w] has [rest] bytes left, unless it is done. *)
Definition walk_left (w : Walk) (rest : nat) : Prop :=
  match w with
  | Done _ => True
  | At o => (o + rest)%nat = length b
  end.

Lemma eql_step_ok size o rest :
  (0 < size)%nat -> (o + size + rest)%nat = length b ->
  exists w, eql_step size a b o = Some w /\ (walk_eq w <-> drop o a = drop o b) /\
    walk_left w rest.
Proof.
  intros Hs Ho. unfold eql_step, read_unaligned. rewrite !slice_ok by lia.
  cbn [mbind option_bind]. replace (o + size - o)%nat with size by lia.
  assert (forall l : bytes, drop o l = take size (drop o l) ++ drop (o + size) l) as Hsplit.
  { intros l. by rewrite <- drop_drop, take_drop. }
  destruct (le_decode _ =? le_decode _) eqn:E; cbn [negb].
  - apply Z.eqb_eq, le_decode_inj in E; [|by apply Forall_take, Forall_drop..|len].
    assert (drop o a = drop o b <-> drop (o + size) a = drop (o + size) b) as Hiff.
    { rewrite (Hsplit a), (Hsplit b), E. split; [apply app_inv_head|by intros ->]. }
    destruct (o + size =? length b)%nat eqn:E'; eexists; (split; [done|]); rewrite Hiff.
    + apply Nat.eqb_eq in E'. split; [|done]. by rewrite !drop_ge by lia.
    + split; cbn; [done|lia].
  - eexists; split; [done|]. split; [|done]. cbn. split; [done|].
    intros Heq. rewrite Heq in E. by rewrite Z.eqb_refl in E.
Qed.

Lemma eql_dwords_ok n o rest :
  (o + 8 * n + rest)%nat = length b ->
  exists w, eql_dwords n a b o = Some w /\ (walk_eq w <-> drop o a = drop o b) /\
    walk_left w rest.
Proof.
  revert o. induction n as [|n IH]; intros o Ho; cbn [eql_dwords].
  { eexists. split; [done|]. split; [done|]. cbn. lia. }
  destruct (eql_step_ok 8 o (8 * n + rest)) as ([r|o'] & -> & Hw & Hl); [lia..| |];
    cbn [mbind option_bind].
  - eexists. split; [done|]. done.
  - cbn [walk_left walk_eq] in *. destruct (IH o') as (w & -> & Hw' & Hl'); [lia|].
    eexists. split; [done|]. by rewrite Hw', Hw.
Qed.

Lemma eql_if_ok bit size w rest :
  (0 < size)%nat -> walk_left w ((if bit : bool then size else 0) + rest) ->
  exists w', eql_if bit size a b w = Some w' /\ (walk_eq w' <-> walk_eq w) /\ walk_left w' rest.
Proof.
  intros Hs Hl. destruct w as [r|o]; cbn in *; [by eexists|].
  destruct bit; [|by eexists].
  destruct (eql_step_ok size o rest) as (w' & -> & ? & ?); [lia..|]. eauto.
Qed.

(** The walk compares exactly the two strings, reading inside both. *)
Lemma eql_long_ok same_ptr :
  (same_ptr = true -> a = b) -> eql_long same_ptr a b false = Some (bool_decide (a = b)).
Proof.
  intros Hp. unfold eql_long. cbn [andb].
  destruct same_ptr; [by rewrite bool_decide_eq_true_2 by auto|]. clear Hp.
  pose proof (Nat.div_mod_eq (length b) 8).
  pose proof (mod_bit 4 (length b) : (length b mod 8 = _)%nat) as H4.
  pose proof (mod_bit 2 (length b) : (length b mod 4 = _)%nat) as H2.
  pose proof (mod_bit 1 (length b) : (length b mod 2 = _)%nat) as H1.
  rewrite Nat.mod_1_r, Nat.div_1_r in H1.
  destruct (eql_dwords_ok (length b / 8) 0 (length b mod 8)) as (w & -> & Hw & Hl); [lia|].
  rewrite H4 in Hl. cbn [mbind option_bind].
  destruct (eql_if_ok _ 4 w _ ltac:(lia) Hl) as (w4 & -> & Hw4 & Hl4).
  rewrite H2 in Hl4. cbn [mbind option_bind].
  destruct (eql_if_ok _ 2 w4 _ ltac:(lia) Hl4) as (w2 & -> & Hw2 & Hl2).
  cbn [mbind option_bind]. rewrite H1 in Hl2.
  assert (walk_eq w2 <-> a = b) as Hall by (by rewrite Hw2, Hw4, Hw, !drop_0).
  destruct w2 as [r|o]; cbn [walk_eq walk_left] in *.
  - f_equal. destruct r; symmetry; [by apply bool_decide_eq_true_2, Hall|].
    apply bool_decide_eq_false_2. intros E. by apply Hall in E.
  - destruct (Nat.odd (length b)).
    + destruct (lookup_lt_is_Some_2 a o) as [x Hx]; [lia|].
      destruct (lookup_lt_is_Some_2 b o) as [y Hy]; [lia|].
      rewrite Hx, Hy. cbn [mbind option_bind]. f_equal.
      rewrite (drop_S a x o Hx), (drop_S b y o Hy), !(drop_ge _ (S o)) in Hall by lia.
      rewrite <- (bool_decide_ext _ _ Hall). destruct (Z.eqb_spec x y) as [->|].
      * by rewrite bool_decide_eq_true_2.
      * rewrite bool_decide_eq_false_2; congruence.
    + f_equal. symmetry. apply bool_decide_eq_true_2, Hall. by rewrite !drop_ge by lia.
Qed.
End EqlLong.

(** * Facts about splitting *)

(** The fields of [l] separated by the byte [c]. *)
Fixpoint split_on (c : Z) (l : bytes) : list bytes :=
  match l with
  | [] => [[]]
  | x :: r =>
    if x =? c then [] :: split_on c r
    else match split_on c r with
      | f :: fs => (x :: f) :: fs
      | [] => [[x]]
      end
  end.

Lemma split_on_ne c l : split_on c l <> [].
Proof. induction l as [|x l IH]; cbn; [done|]. destruct (x =? c); [done|]. by destruct (split_on c l). Qed.

(** The first field is the prefix without the separator. *)
Lemma split_on_step c l :
  let n := prefix_len (fun x => negb (x =? c)) l in
  split_on c l = take n l :: (if (n <? length l)%nat then split_on c (drop (S n) l) else []).
Proof.
  induction l as [|x l IH]; cbn [split_on prefix_len]; [done|].
  destruct (x =? c) eqn:E; cbn [negb]; [done|].
  cbn zeta in IH. rewrite IH. cbn [take drop length]. f_equal.
Qed.

Lemma length_split_on c l : (length (split_on c l) <= S (length l))%nat.
Proof.
  induction l as [|x l IH]; cbn; [lia|]. destruct (x =? c); cbn; [lia|].
  destruct (split_on c l); cbn in *; lia.
Qed.

Section SplitFacts.
Context {F : ByteSearch} {Fok : ByteSearchOk F}.

(** The first position of the byte, as the safe wrapper returns it. *)
Lemma index_of_byte l c :
  index_of l [c] =
  let n := prefix_len (fun x => negb (x =? c)) l in
  if (n <? length l)%nat then Some n else None.
Proof.
  unfold index_of, index_of_char. cbn [length Nat.eqb orb].
  pose proof (prefix_len_le (fun x => negb (x =? c)) l) as Hle.
  destruct l as [|x l]; [done|]. cbn [length Nat.eqb orb].
  rewrite (proj2 (Nat.ltb_ge _ _)) by lia.
  rewrite highway_index_of_char_spec. cbn zeta.
  destruct (Nat.eqb_spec (prefix_len (fun x => negb (x =? c)) (x :: l)) (S (length l))) as [->|].
  - by rewrite (proj2 (Nat.ltb_ge _ _)) by lia.
  - rewrite (proj2 (Nat.ltb_lt _ _)) by (cbn [length] in Hle; lia). done.
Qed.

(** An iterator on a one-byte delimiter, with the fields it still yields. *)
Definition iter_fields (c : Z) (it : SplitIterator) (fs : list bytes) : Prop :=
  it_delimiter it = [c] /\
  match it_index it with
  | Some i => (i <= length (it_buffer it))%nat /\ fs = split_on c (drop i (it_buffer it))
  | None => fs = []
  end.

Lemma split_fields c s : iter_fields c (split s [c]) (split_on c s).
Proof. split; cbn; [done|]. split; [lia|done]. Qed.

Lemma split_next_nil c it : iter_fields c it [] -> split_next it = None.
Proof.
  intros [_ H]. unfold split_next. destruct (it_index it); [|done].
  destruct H as [_ H]. by destruct (split_on_ne _ _ (eq_sym H)).
Qed.

Lemma split_next_cons c it f fs :
  iter_fields c it (f :: fs) ->
  exists it', split_next it = Some (f, it') /\ iter_fields c it' fs.
Proof.
  intros [Hd H]. unfold split_next. destruct (it_index it) as [i|]; [|done].
  destruct H as [Hi H]. cbn [mbind option_bind]. rewrite slice_from_ok by done.
  cbn [mbind option_bind]. rewrite Hd, index_of_byte. cbn zeta.
  rewrite split_on_step in H. cbn zeta in H. injection H as Hf Hfs.
  set (n := prefix_len (fun x => negb (x =? c)) (drop i (it_buffer it))) in *.
  assert (n <= length (drop i (it_buffer it)))%nat as Hn by apply prefix_len_le.
  destruct (n <? length (drop i (it_buffer it)))%nat eqn:E;
    [apply Nat.ltb_lt in E|apply Nat.ltb_ge in E]; rewrite length_drop in *.
  - rewrite slice_ok by lia. cbn [mbind option_bind].
    replace (n + i - i)%nat with n by lia. rewrite <- Hf.
    eexists. split; [done|]. split; [done|].
    cbn. split; [lia|]. rewrite Hfs, drop_drop. do 2 f_equal. lia.
  - rewrite slice_ok by lia. cbn [mbind option_bind].
    rewrite Hf, !take_ge by len. eexists. split; [done|]. by split.
Qed.
End SplitFacts.

(** The fields an iterator still yields, read until it is done. *)
Fixpoint split_all {F : ByteSearch} (fuel : nat) (it : SplitIterator) : option (list bytes) :=
  match fuel with
  | O => None
  | S fuel =>
    match split_next it with
    | None => Some []
    | Some (f, it') => fs ← split_all fuel it'; Some (f :: fs)
    end
  end.

Lemma split_all_ok {F : ByteSearch} {Fok : ByteSearchOk F} c it fs fuel :
  iter_fields c it fs -> (length fs < fuel)%nat -> split_all fuel it = Some fs.
Proof.
  revert it fuel. induction fs as [|f fs IH]; intros it fuel Hi Hf;
    (destruct fuel as [|fuel]; [cbn in Hf; lia|]); cbn [split_all].
  - by rewrite (split_next_nil c).
  - destruct (split_next_cons c it f fs Hi) as (it' & -> & Hi').
    rewrite (IH it'); [done|done|cbn in Hf; lia].
Qed.

Fixpoint join_with (c : Z) (fs : list bytes) : bytes :=
  match fs with
  | [] => []
  | [f] => f
  | f :: fs => f ++ [c] ++ join_with c fs
  end.

Lemma join_split_on c s : join_with c (split_on c s) = s.
Proof.
  induction s as [|x s IH]; [done|]. cbn [split_on].
  pose proof (split_on_ne c s). destruct (Z.eqb_spec x c) as [->|].
  - destruct (split_on c s); [done|]. cbn [join_with app] in *. by rewrite IH.
  - destruct (split_on c s) as [|f [|f' fs]]; [done|..]; cbn [join_with app] in *; by rewrite <- IH.
Qed.

Lemma split_on_free c s : Forall (fun f => c ∉ f) (split_on c s).
Proof.
  induction s as [|x s IH]; cbn [split_on]; [by repeat constructor; apply not_elem_of_nil|].
  destruct (Z.eqb_spec x c).
  - constructor; [apply not_elem_of_nil|done].
  - destruct (split_on c s) as [|f fs]; [constructor; [set_solver|done]|]. inv IH.
    constructor; [set_solver|done].
Qed.

Lemma scalar_memmem_spec h n :
  match scalar_memmem h n with
  | Some i => take (length n) (drop i h) = n /\ (i + length n <= length h)%nat /\
      forall j, (j < i)%nat -> take (length n) (drop j h) <> n
  | None => forall j, (j + length n <= length h)%nat -> take (length n) (drop j h) <> n
  end.
Proof.
  unfold scalar_memmem.
  match goal with |- context [?g (length h) O] => set (go := g) end.
  assert (forall fuel i, (i + fuel = length h)%nat ->
    (forall j, (j < i)%nat -> take (length n) (drop j h) <> n) ->
    match go fuel i with
    | Some i => take (length n) (drop i h) = n /\ (i + length n <= length h)%nat /\
        forall j, (j < i)%nat -> take (length n) (drop j h) <> n
    | None => forall j, (j + length n <= length h)%nat -> take (length n) (drop j h) <> n
    end) as Hgo; [|apply Hgo; lia].
  induction fuel as [|fuel IH]; intros i Hi Hbefore; cbn.
  - case_bool_decide as E; cbn [andb].
    + destruct (i + length n <=? length h)%nat eqn:E'; [by apply Nat.leb_le in E'|].
      apply Nat.leb_gt in E'. intros j Hj. apply Hbefore. lia.
    + intros j Hj. destruct (decide (j = i)) as [->|]; [done|]. apply Hbefore. lia.
  - case_bool_decide as E; cbn [andb].
    + destruct (i + length n <=? length h)%nat eqn:E'; [by apply Nat.leb_le in E'|].
      apply Nat.leb_gt in E'. apply (f_equal length) in E. len.
    + apply IH; [lia|]. intros j Hj. destruct (decide (j = i)) as [->|]; [done|]. apply Hbefore. lia.
Qed.

#[export] Instance scalar_search_ok : ByteSearchOk scalar_search.
Proof.
  split; [done|..]; intros h n; pose proof (scalar_memmem_spec h n) as H; cbn.
  - intros i E. by rewrite E in H.
  - intros E. by rewrite E in H.
Qed.

(** * Facts about trimming *)

(** [trim] removes exactly the surrounding characters of the set. *)
Lemma trim_middle chars w1 s w2 c e :
  Forall (fun x => chars_contains chars x = true) w1 ->
  Forall (fun x => chars_contains chars x = true) w2 ->
  head s = Some c -> chars_contains chars c = false ->
  last s = Some e -> chars_contains chars e = false ->
  trim (w1 ++ s ++ w2) chars = s.
Proof.
  intros H1 H2 Hc Hc' He He'. unfold trim, trim_left, trim_right.
  assert (forall k, prefix_len (chars_contains chars) (c :: k) = 0%nat ->
    drop (prefix_len (chars_contains chars) (w1 ++ c :: k)) (w1 ++ c :: k) = c :: k) as Hl.
  { intros k Hk. by rewrite prefix_len_app, Hk, Nat.add_0_r, drop_app_length by done. }
  destruct s as [|c' s]; [done|]. cbn in Hc. injection Hc as ->. cbn [app].
  rewrite (Hl (s ++ w2)) by by apply prefix_len_stop_cons.
  change (c :: s ++ w2) with ((c :: s) ++ w2).
  rewrite rev_app_distr, prefix_len_app by by apply Forall_rev.
  assert (prefix_len (chars_contains chars) (rev (c :: s)) = 0%nat) as ->.
  { apply last_Some in He as [l' ->]. rewrite rev_app_distr. cbn [rev app].
    by apply prefix_len_stop_cons. }
  rewrite length_rev, length_app. replace (_ - _)%nat with (length (c :: s)) by lia.
  by rewrite take_app_length.
Qed.

(** * The integer grammar *)

(** The value of the digits of [ds] in [radix], underscores skipped. *)
Definition digit_of (radix c : Z) : option Z :=
  d ← digit_value c; if d <? radix then Some d else None.

Definition positional (radix acc : Z) (vals : list Z) : Z :=
  fold_left (fun a d => a * radix + d) vals acc.

Definition denotes (radix : Z) (ds : bytes) (acc v : Z) : Prop :=
  exists vals, mapM (digit_of radix) (filter (fun c => c <> #"_") ds) = Some vals /\
    v = positional radix acc vals.

(** The digits, by their place. *)
Definition lower_digits : bytes := b!"0123456789abcdefghijklmnopqrstuvwxyz".
Definition upper_digits : bytes := b!"0123456789ABCDEFGHIJKLMNOPQRSTUVWXYZ".
Definition is_digit (radix c d : Z) : Prop :=
  0 <= d < radix /\ (lower_digits !! Z.to_nat d = Some c \/ upper_digits !! Z.to_nat d = Some c).

(** The value of a text of digits, underscores skipped. *)
Definition digits_denote (radix : Z) (ds : bytes) (v : Z) : Prop :=
  exists vals, Forall2 (is_digit radix) (filter (fun c => c <> #"_") ds) vals /\ v = positional radix 0 vals.

(** The digits and the radix of a literal without its sign: with a [radix] of 0,
    [0x], [0o] and [0b], in either case, say 16, 8 and 2; otherwise it is 10. *)
Definition literal_digits (radix : Z) (rest ds : bytes) (r : Z) : Prop :=
  (radix <> 0 /\ ds = rest /\ r = radix) \/
  (radix = 0 /\
   ((rest = b!"0x" ++ ds \/ rest = b!"0X" ++ ds) /\ r = 16 \/
    (rest = b!"0o" ++ ds \/ rest = b!"0O" ++ ds) /\ r = 8 \/
    (rest = b!"0b" ++ ds \/ rest = b!"0B" ++ ds) /\ r = 2 \/
    ds = rest /\ r = 10 /\ take 2 rest ∉ [b!"0x"; b!"0X"; b!"0o"; b!"0O"; b!"0b"; b!"0B"])).

(** A literal: an optional sign, an optional prefix when [radix] is 0, and a
    nonempty run of digits and underscores that neither starts nor ends with one. *)
Definition int_literal (radix : Z) (buf : bytes) (n : Z) : Prop :=
  exists (neg : bool) rest v ds r,
    (buf = #"-" :: rest /\ neg = true \/ buf = #"+" :: rest /\ neg = false \/
     buf = rest /\ neg = false /\ head buf <> Some #"-" /\ head buf <> Some #"+") /\
    buf <> [] /\ literal_digits radix rest ds r /\
    ds <> [] /\ head ds <> Some #"_" /\ last ds <> Some #"_" /\ digits_denote r ds v /\
    n = if neg then - v else v.

Lemma auto_radix_spec radix rest ds r : literal_digits radix rest ds r <-> auto_radix rest radix = (ds, r).
Proof.
  unfold literal_digits, auto_radix. destruct (Z.eqb_spec radix 0) as [->|Hr]; cbn [negb]; [|naive_solver].
  assert (forall l k, ds = l /\ r = k <-> (l, k) = (ds, r)) as Hp by (intros; naive_solver).
  destruct rest as [|z [|x l]]; [rewrite <- Hp; set_solver..|].
  destruct (Z.eqb_spec z #"0") as [->|Hz]; [|rewrite <- Hp; set_solver].
  destruct (Z.eqb_spec x #"x") as [->|]; [|destruct (Z.eqb_spec x #"X") as [->|]]; cbn [orb]; [rewrite <- Hp; set_solver..|].
  destruct (Z.eqb_spec x #"o") as [->|]; [|destruct (Z.eqb_spec x #"O") as [->|]]; cbn [orb]; [rewrite <- Hp; set_solver..|].
  destruct (Z.eqb_spec x #"b") as [->|]; [|destruct (Z.eqb_spec x #"B") as [->|]]; cbn [orb]; rewrite <- Hp; set_solver.
Qed.

Lemma is_digit_spec radix c d : is_digit radix c d <-> digit_of radix c = Some d.
Proof.
  assert (forall d c, lower_digits !! Z.to_nat d = Some c -> 0 <= d -> digit_value c = Some d) as Hl.
  { intros e x Hx He. assert (Hlt := lookup_lt_Some _ _ _ Hx). cbn in Hlt. rewrite <- (Z2Nat.id e He). revert Hx Hlt.
    generalize (Z.to_nat e). clear. intros n Hx Hn. revert Hx. do 36 (destruct n as [|n]; [intros [= <-]; reflexivity|]). lia. }
  assert (forall d c, upper_digits !! Z.to_nat d = Some c -> 0 <= d -> digit_value c = Some d) as Hu.
  { intros e x Hx He. assert (Hlt := lookup_lt_Some _ _ _ Hx). cbn in Hlt. rewrite <- (Z2Nat.id e He). revert Hx Hlt.
    generalize (Z.to_nat e). clear. intros n Hx Hn. revert Hx. do 36 (destruct n as [|n]; [intros [= <-]; reflexivity|]). lia. }
  assert (forall n, (n < 36)%nat -> lower_digits !! n = Some (if (n <? 10)%nat then Z.of_nat n + 48 else Z.of_nat n + 87)) as Fl.
  { intros n Hn. do 36 (destruct n as [|n]; [reflexivity|]). lia. }
  assert (forall n, (n < 36)%nat -> upper_digits !! n = Some (if (n <? 10)%nat then Z.of_nat n + 48 else Z.of_nat n + 55)) as Fu.
  { intros n Hn. do 36 (destruct n as [|n]; [reflexivity|]). lia. }
  unfold is_digit, digit_of. split.
  - intros [Hd H]. assert (digit_value c = Some d) as -> by (destruct H; [apply Hl|apply Hu]; done || lia).
    cbn [mbind option_bind]. by rewrite (proj2 (Z.ltb_lt _ _)) by lia.
  - destruct (digit_value c) as [e|] eqn:He; cbn [mbind option_bind]; [|done]. destruct (Z.ltb_spec e radix) as [Hlt|]; [|done]. intros [= <-].
    unfold digit_value, is_ascii_digit, is_ascii_lowercase, is_ascii_uppercase in He.
    destruct ((48 <=? c) && _) eqn:E1; [|destruct ((97 <=? c) && _) eqn:E2; [|destruct ((65 <=? c) && _) eqn:E3; [|discriminate He]]]; injection He as <-; split; try lia.
    + left. rewrite Fl by lia. f_equal. destruct (Nat.ltb_spec (Z.to_nat (c - 48)) 10); lia.
    + left. rewrite Fl by lia. f_equal. destruct (Nat.ltb_spec (Z.to_nat (c - 97 + 10)) 10); lia.
    + right. rewrite Fu by lia. f_equal. destruct (Nat.ltb_spec (Z.to_nat (c - 65 + 10)) 10); lia.
Qed.

Lemma digits_denote_spec radix ds v : digits_denote radix ds v <-> denotes radix ds 0 v.
Proof.
  unfold digits_denote, denotes. assert (forall vals, Forall2 (is_digit radix) (filter (fun c => c <> #"_") ds) vals <->
    mapM (digit_of radix) (filter (fun c => c <> #"_") ds) = Some vals) as H; [|by setoid_rewrite H].
  intros vals. rewrite mapM_Some. split; intros Hf; (eapply Forall2_impl; [exact Hf|]); intros x y; apply is_digit_spec.
Qed.

Lemma digit_value_range c d : digit_value c = Some d -> 0 <= d.
Proof.
  unfold digit_value, is_ascii_digit, is_ascii_lowercase, is_ascii_uppercase.
  repeat case_match; intros [= <-] || intros [=]; lia.
Qed.

Lemma digit_of_range radix c d : digit_of radix c = Some d -> 0 <= d < radix.
Proof.
  unfold digit_of. destruct (digit_value c) eqn:E; cbn [mbind option_bind]; [|done].
  pose proof (digit_value_range _ _ E). case_match; intros [= <-]. lia.
Qed.

Lemma positional_ge radix vals acc :
  1 <= radix -> 0 <= acc -> Forall (fun d => 0 <= d) vals -> acc <= positional radix acc vals.
Proof.
  intros Hr Ha Hv. revert acc Ha. unfold positional.
  induction Hv as [|d vals Hd _ IH]; intros acc Ha; cbn [fold_left]; [lia|].
  specialize (IH (acc * radix + d) ltac:(nia)). nia.
Qed.

Lemma denotes_cons radix c ds acc v :
  denotes radix (c :: ds) acc v <->
  if c =? #"_" then denotes radix ds acc v
  else exists d, digit_of radix c = Some d /\ denotes radix ds (acc * radix + d) v.
Proof.
  unfold denotes. rewrite filter_cons. destruct (Z.eqb_spec c #"_") as [->|Hc].
  - by rewrite decide_False by naive_solver.
  - rewrite decide_True by done. cbn [mapM]. split.
    + intros (vals & H & ->). apply bind_Some in H as (d & Hd & H).
      apply bind_Some in H as (vs & Hvs & [= <-]). exists d. split; [done|]. by exists vs.
    + intros (d & Hd & vs & Hvs & ->). exists (d :: vs). by rewrite Hd, Hvs.
Qed.

Lemma denotes_ge radix ds acc v : 1 <= radix -> 0 <= acc -> denotes radix ds acc v -> acc <= v.
Proof.
  intros Hr Ha (vals & H & ->). apply positional_ge; [done..|].
  apply mapM_Some in H. apply Forall_forall. intros d Hd.
  apply list_elem_of_lookup in Hd as [i Hi].
  destruct (Forall2_lookup_r _ _ _ _ _ H Hi) as (c & _ & Hc).
  apply digit_of_range in Hc. lia.
Qed.

(** The loop returns the value of the digits exactly when it exists and fits [u128]. *)
Lemma parse_digits_iff radix ds acc v :
  1 <= radix -> 0 <= acc -> v <= U128_MAX ->
  parse_digits radix ds acc = Ok v <-> denotes radix ds acc v.
Proof.
  intros Hr Ha Hv. revert acc Ha. induction ds as [|c ds IH]; intros acc Ha; cbn [parse_digits].
  { split; [intros [= <-]; by exists []|]. by intros (? & [= <-] & ->). }
  rewrite denotes_cons. destruct (c =? #"_"); [by apply IH|].
  unfold digit_of. destruct (digit_value c) as [d|] eqn:Ed; cbn [mbind option_bind];
    [|by split; [intros [=]|intros (? & [=] & _)]].
  pose proof (digit_value_range _ _ Ed).
  destruct (Z.leb_spec radix d).
  { rewrite (proj2 (Z.ltb_ge _ _)) by lia. by split; [intros [=]|intros (? & [=] & _)]. }
  rewrite (proj2 (Z.ltb_lt _ _)) by lia. unfold checked_mul_add.
  assert (forall x, x = acc * radix + d -> 0 <= x) by nia.
  destruct (Z.leb_spec (acc * radix) U128_MAX); [destruct (Z.leb_spec (acc * radix + d) U128_MAX)|].
  - rewrite IH by (subst; nia). split; [by eauto|]. by intros (? & [= <-] & ?).
  - split; [intros [=]|]. intros (? & [= <-] & Hd). apply denotes_ge in Hd; nia.
  - split; [intros [=]|]. intros (? & [= <-] & Hd). apply denotes_ge in Hd; nia.
Qed.

Lemma parse_with_sign_iff radix ds v :
  1 <= radix -> v <= U128_MAX ->
  parse_with_sign ds radix = Ok v <->
  ds <> [] /\ head ds <> Some #"_" /\ last ds <> Some #"_" /\ denotes radix ds 0 v.
Proof.
  intros Hr Hv. unfold parse_with_sign. destruct ds as [|c ds]; [naive_solver|].
  destruct (last (c :: ds)) as [e|] eqn:El; [|by apply last_None in El].
  cbn [head]. destruct (Z.eqb_spec c #"_") as [->|]; [naive_solver|].
  destruct (Z.eqb_spec e #"_") as [->|]; [naive_solver|]. cbn [orb].
  rewrite parse_digits_iff by lia. naive_solver.
Qed.

Lemma auto_radix_ge rest radix : 0 <= radix -> radix <> 1 -> 1 <= snd (auto_radix rest radix).
Proof.
  intros Hr H1. unfold auto_radix. destruct (Z.eqb_spec radix 0); cbn [negb]; [|cbn; lia].
  repeat case_match; cbn; lia.
Qed.

Lemma parse_with_sign_range ds radix v :
  1 <= radix -> parse_with_sign ds radix = Ok v -> 0 <= v <= U128_MAX.
Proof.
  intros Hr. unfold parse_with_sign. destruct ds as [|c ds]; [done|]. repeat case_match; try done.
  clear. assert (0 <= 0 <= U128_MAX) as H by done. revert H. generalize 0 at 2 3 4.
  induction (c :: ds) as [|x l IH]; intros acc Ha; cbn [parse_digits].
  { by intros [= <-]. }
  destruct (x =? #"_"); [by apply IH|]. destruct (digit_value x) as [d|] eqn:Ed; [|done].
  pose proof (digit_value_range _ _ Ed). destruct (Z.leb_spec radix d); [done|].
  unfold checked_mul_add.
  destruct (Z.leb_spec (acc * radix) U128_MAX); [|done].
  destruct (Z.leb_spec (acc * radix + d) U128_MAX); [|done]. apply IH. nia.
Qed.

Module BunCoreProps.

(** [parse_int] accepts exactly the integer literals whose value is in
    the range of the target type and returns that value: no wrap-around of
    the [u128] accumulator, of the negation at [i128::MIN], or of the
    conversion; [radix] is 0 or at least 2. *)
Theorem parse_int_exact lo hi radix buf n :
  - 2 ^ 127 <= lo <= 0 -> 0 <= hi <= U128_MAX -> 0 <= radix -> radix <> 1 ->
  parse_int lo hi buf radix = Ok n <-> int_literal radix buf n /\ lo <= n <= hi.
Proof.
  intros Hlo Hhi Hr H1. unfold parse_int. destruct buf as [|c r].
  { split; [done|]. by intros [(neg & rest & v & ds & r' & _ & Hb & _) _]. }
  set (p := if c =? #"+" then _ else _).
  assert (forall neg rest,
    (c :: r = #"-" :: rest /\ neg = true \/ c :: r = #"+" :: rest /\ neg = false \/
     c :: r = rest /\ neg = false /\ head (c :: r) <> Some #"-" /\ head (c :: r) <> Some #"+")
    <-> p = (neg, rest)) as Hp.
  { intros neg rest. unfold p. cbn [head].
    destruct (Z.eqb_spec c #"+"); [subst; naive_solver|].
    destruct (Z.eqb_spec c #"-"); [subst; naive_solver|]. naive_solver. }
  clearbody p. destruct p as [neg rest].
  pose proof (auto_radix_ge rest radix Hr H1) as Hge.
  destruct (auto_radix rest radix) as [ds r'] eqn:Er. cbn [snd] in Hge. split.
  - destruct (parse_with_sign ds r') as [acc|e] eqn:Ea; [|done]. cbn [result_bind]. intros H.
    pose proof (parse_with_sign_range _ _ _ Hge Ea) as Hacc.
    rewrite parse_with_sign_iff in Ea by lia.
    assert (n = (if neg then - acc else acc) /\ lo <= n <= hi) as [-> Hn].
    { destruct neg.
      - destruct (2 ^ 127 <? acc); [done|]. destruct (Z.leb_spec lo (- acc)); [|done].
        injection H as <-. lia.
      - destruct (Z.leb_spec acc hi); [|done]. injection H as <-. lia. }
    split; [|done]. exists neg, rest, acc, ds, r'. rewrite Hp, auto_radix_spec, Er, digits_denote_spec. naive_solver.
  - intros [(neg' & rest' & v & ds' & r0 & Hs & _ & Hl & H2 & H3 & H4 & H5 & Hn) Hrange].
    apply Hp in Hs as [= <- <-]. rewrite auto_radix_spec, Er in Hl. injection Hl as <- <-. rewrite digits_denote_spec in H5.
    assert (ds <> [] /\ head ds <> Some #"_" /\ last ds <> Some #"_" /\ denotes r' ds 0 v) as Hv by done. clear H2 H3 H4 H5.
    assert (v <= U128_MAX) as Hmax by (unfold U128_MAX in *; destruct neg; lia).
    rewrite <- parse_with_sign_iff in Hv by done.
    pose proof (parse_with_sign_range _ _ _ Hge Hv). rewrite Hv. cbn [result_bind].
    subst n. destruct neg.
    + rewrite (proj2 (Z.ltb_ge _ _)), (proj2 (Z.leb_le _ _)) by lia. done.
    + by rewrite (proj2 (Z.leb_le _ _)) by lia.
Qed.

Theorem parse_int_exact_witness :
  parse_int (- 2 ^ 7) (2 ^ 7 - 1) b!"-0x8_0" 0 = Ok (- 128) /\
  int_literal 0 b!"-0x8_0" (- 128).
Proof.
  assert (parse_int (- 2 ^ 7) (2 ^ 7 - 1) b!"-0x8_0" 0 = Ok (- 128)) as H by reflexivity.
  split; [exact H|].
  apply (parse_int_exact (- 2 ^ 7) (2 ^ 7 - 1)) in H; [exact (proj1 H)|..]; unfold U128_MAX; lia.
Defined.

(** the word-at-a-time comparison [eql_long], and [strings::eql] on top
    of it, decide equality of byte slices: no load runs past the end and the
    tail of 1 to 7 bytes is compared too. *)
Theorem bytes_eql_correct same_ptr a b :
  Forall is_byte a -> Forall is_byte b ->
  (same_ptr = true -> length a = length b -> a = b) ->
  bytes_eql same_ptr a b = Some (bool_decide (a = b)) /\
  eql_long same_ptr a b true = Some (bool_decide (a = b)).
Proof.
  intros Ha Hb Hp. unfold bytes_eql.
  destruct (Nat.eqb_spec (length a) (length b)) as [Hl|Hl]; cbn [negb].
  - pose proof (eql_long_ok a b Ha Hb Hl same_ptr (fun H => Hp H Hl)) as H. split; [done|].
    revert H. unfold eql_long. cbn [andb]. rewrite Hl, Nat.eqb_refl. cbn [negb].
    destruct (Nat.eqb_spec (length b) 0) as [Hz|]; [|done]. intros _.
    destruct a, b; try discriminate. done.
  - rewrite bool_decide_eq_false_2 by congruence. split; [done|].
    unfold eql_long. cbn [andb]. rewrite (proj2 (Nat.eqb_neq _ _) Hl). cbn [negb].
    destruct (Nat.eqb_spec (length b) 0) as [Hz|]; [|done].
    f_equal. apply Nat.eqb_neq. lia.
Qed.

Theorem bytes_eql_correct_witness :
  bytes_eql false b!"workspace:*-12345" b!"workspace:*-12346" = Some false.
Proof.
  refine (eq_trans (proj1 (bytes_eql_correct false b!"workspace:*-12345" b!"workspace:*-12346"
    _ _ _)) _); [by apply all_bytes|by apply all_bytes|discriminate|reflexivity].
Defined.

(** [split] with a one-byte delimiter yields the fields between the
    delimiters, in order and none lost (an empty string has one empty field),
    whatever implementation of the byte search meets its specification. *)
Theorem split_spec {F : ByteSearch} {Fok : ByteSearchOk F} s c :
  split_all (S (S (length s))) (split s [c]) = Some (split_on c s) /\
  join_with c (split_on c s) = s /\ Forall (fun f => c ∉ f) (split_on c s).
Proof.
  split; [|split].
  - apply (split_all_ok c); [apply split_fields|]. pose proof (length_split_on c s). lia.
  - apply join_split_on.
  - apply split_on_free.
Qed.

Theorem split_spec_witness :
  split_all 20 (split b!"rc.1..x" [ #"."]) = Some [b!"rc"; b!"1"; []; b!"x"] /\
  join_with #"." [b!"rc"; b!"1"; []; b!"x"] = b!"rc.1..x".
Proof.
  split; [reflexivity|].
  exact (proj1 (proj2 (@split_spec scalar_search scalar_search_ok b!"rc.1..x" #"."))).
Defined.

End BunCoreProps.
