(* ===== verification/BitSet.v ===== *)
(** src/src/collections/bit_set.rs: the single-word [IntegerBitSet] with its
    iterator, and the range update of the multi-word sets.

    A [usize] is a Z in [0, 2^64); [!x] and [x << n] are cut to 64 bits, the
    shift amount to six, as a release build does.  The const generics [SIZE],
    [KIND_SET] and [DIR_FWD] are arguments. *)
From Stdlib Require Import Sorting.Sorted.
From S2P Require Import Prelude.

(** * Words *)

Definition BITS : Z := 64.
Definition wnot (x : Z) : Z := trunc64 (Z.lnot x).
Definition wshl (x n : Z) : Z := trunc64 (Z.shiftl x (n mod BITS)).
Definition wshr (x n : Z) : Z := Z.shiftr x (n mod BITS).

Definition bool_mask_usize (value : bool) : Z := if value then U64_MAX else 0.

(** [trailing_zeros], [leading_zeros] and [count_ones] of a 64-bit word. *)
Definition trailing_zeros (x : Z) : Z :=
  Z.of_nat (prefix_len (fun i => negb (Z.testbit x i)) (seqZ 0 BITS)).
Definition leading_zeros (x : Z) : Z :=
  Z.of_nat (prefix_len (fun i => negb (Z.testbit x (BITS - 1 - i))) (seqZ 0 BITS)).
Definition count_ones (x : Z) : nat := length (filter (fun i => Z.testbit x i = true) (seqZ 0 BITS)).

Definition word_mask_bit (index : Z) : Z := wshl 1 index.
Definition word_mask_index (index : Z) : nat := Z.to_nat (Z.shiftr index 6).

Record Range := { start : Z; end_ : Z }.

(** * [IntegerBitSet<SIZE>] *)

Record IntegerBitSet := { mask : Z }.

#[export] Instance IntegerBitSet_eq_dec : EqDecision IntegerBitSet.
Proof. solve_decision. Defined.

Section IntegerBitSet.
Context (SIZE : Z).

Definition FULL_MASK : Z := if BITS <=? SIZE then U64_MAX else wshl 1 SIZE - 1.

Definition mask_bit (index : Z) : Z := if SIZE =? 0 then 0 else wshl 1 index.

Definition init_empty : IntegerBitSet := {| mask := 0 |}.
Definition init_full : IntegerBitSet := {| mask := FULL_MASK |}.

Definition is_set (s : IntegerBitSet) (index : Z) : bool :=
  negb (Z.land (mask s) (mask_bit index) =? 0).

Definition count (s : IntegerBitSet) : nat := count_ones (mask s).

Definition set_value (s : IntegerBitSet) (index : Z) (value : bool) : IntegerBitSet :=
  if SIZE =? 0 then s
  else
    let bit := mask_bit index in
    let new_bit := Z.land bit (bool_mask_usize value) in
    {| mask := Z.lor (Z.land (mask s) (wnot bit)) new_bit |}.

Definition set (s : IntegerBitSet) (index : Z) : IntegerBitSet :=
  {| mask := Z.lor (mask s) (mask_bit index) |}.

(** The mask of a range filled with [value], the same computation twice. *)
Definition range_mask (r : Range) (value : bool) : Z :=
  let m := wshl (bool_mask_usize value) (start r) in
  let m := if negb (end_ r =? SIZE)
           then Z.land m (wshr (bool_mask_usize value) (BITS - end_ r)) else m in
  Z.land m FULL_MASK.

Definition set_range_value (s : IntegerBitSet) (r : Range) (value : bool) : IntegerBitSet :=
  if start r =? end_ r then s
  else if SIZE =? 0 then s
  else
    let m := Z.land (mask s) (wnot (range_mask r true)) in
    {| mask := Z.lor m (range_mask r value) |}.

Definition unset (s : IntegerBitSet) (index : Z) : IntegerBitSet :=
  if SIZE =? 0 then s else {| mask := Z.land (mask s) (wnot (mask_bit index)) |}.

Definition toggle (s : IntegerBitSet) (index : Z) : IntegerBitSet :=
  {| mask := Z.lxor (mask s) (mask_bit index) |}.

Definition toggle_set (s toggles : IntegerBitSet) : IntegerBitSet :=
  {| mask := Z.lxor (mask s) (mask toggles) |}.

Definition toggle_all (s : IntegerBitSet) : IntegerBitSet :=
  {| mask := Z.land (wnot (mask s)) FULL_MASK |}.

Definition set_union (s other : IntegerBitSet) : IntegerBitSet :=
  {| mask := Z.lor (mask s) (mask other) |}.

Definition set_intersection (s other : IntegerBitSet) : IntegerBitSet :=
  {| mask := Z.land (mask s) (mask other) |}.

Definition find_first_set (s : IntegerBitSet) : option Z :=
  if mask s =? 0 then None else Some (trailing_zeros (mask s)).

Definition find_first_unset (s : IntegerBitSet) : option Z :=
  let m := Z.land (wnot (mask s)) FULL_MASK in
  if m =? 0 then None else Some (trailing_zeros m).

Definition toggle_first_set (s : IntegerBitSet) : IntegerBitSet * option Z :=
  if mask s =? 0 then (s, None)
  else ({| mask := Z.land (mask s) (mask s - 1) |}, Some (trailing_zeros (mask s))).

Definition eql (s other : IntegerBitSet) : bool := (SIZE =? 0) || (mask s =? mask other).
Definition subset_of (s other : IntegerBitSet) : bool := eql (set_intersection s other) s.
Definition superset_of (s other : IntegerBitSet) : bool := subset_of other s.
Definition complement (s : IntegerBitSet) : IntegerBitSet := toggle_all s.
Definition difference_with (s other : IntegerBitSet) : IntegerBitSet :=
  set_intersection s (complement other).

(** [SingleWordIterator]: its state is [bits_remain]. *)
Definition iterator (KIND_SET : bool) (s : IntegerBitSet) : Z :=
  if KIND_SET then mask s else Z.land (wnot (mask s)) FULL_MASK.
End IntegerBitSet.

Definition iter_next (DIR_FWD : bool) (bits_remain : Z) : option (Z * Z) :=
  if bits_remain =? 0 then None
  else if DIR_FWD then
    Some (trailing_zeros bits_remain, Z.land bits_remain (bits_remain - 1))
  else
    let top_bit := BITS - 1 - leading_zeros bits_remain in
    Some (top_bit, Z.land bits_remain (wshl 1 top_bit - 1)).

(** The indices an iterator still yields. *)
Fixpoint iter_collect (fuel : nat) (DIR_FWD : bool) (bits_remain : Z) : option (list Z) :=
  match iter_next DIR_FWD bits_remain with
  | None => Some []
  | Some (i, rest) =>
    match fuel with
    | O => None
    | S fuel => l ← iter_collect fuel DIR_FWD rest; Some (i :: l)
    end
  end.

(** * The multi-word range update *)

(** [masks[i] = f(masks[i])], a panic out of bounds. *)
Definition update_word (masks : list Z) (i : nat) (f : Z -> Z) : option (list Z) :=
  w ← masks !! i; Some (<[i := f w]> masks).

Definition fill_words (masks : list Z) (i j : nat) (w : Z) : option (list Z) :=
  if decide (i <= j <= length masks)%nat
  then Some (take i masks ++ replicate (j - i) w ++ drop j masks) else None.

Definition set_range_value_masks (masks : list Z) (range : Range) (value : bool)
    : option (list Z) :=
  if start range =? end_ range then Some masks
  else
    let start_mask_index := word_mask_index (start range) in
    let start_bit := Z.land (start range) (BITS - 1) in
    let end_mask_index := word_mask_index (end_ range) in
    let end_bit := Z.land (end_ range) (BITS - 1) in
    let low v := wshr (bool_mask_usize v) ((BITS - 1) - (end_bit - 1)) in
    let high v := wshl (bool_mask_usize v) start_bit in
    if (start_mask_index =? end_mask_index)%nat then
      masks ← update_word masks start_mask_index (fun w =>
        Z.land w (wnot (Z.land (high true) (low true))));
      update_word masks start_mask_index (fun w => Z.lor w (Z.land (high value) (low value)))
    else
      '(masks, bulk_mask_index) ←
        (if 0 <? start_bit then
           masks ← update_word masks start_mask_index (fun w =>
             Z.lor (Z.land w (wnot (high true))) (high value));
           Some (masks, S start_mask_index)
         else Some (masks, start_mask_index));
      masks ← fill_words masks bulk_mask_index end_mask_index (bool_mask_usize value);
      if 0 <? end_bit then
        update_word masks end_mask_index (fun w =>
          Z.lor (Z.land w (wshl (bool_mask_usize true) end_bit)) (low value))
      else Some masks.

(** * Facts about words *)

Lemma bit_trunc64 x i : 0 <= i -> Z.testbit (trunc64 x) i = (i <? 64) && Z.testbit x i.
Proof. intros. unfold trunc64. by rewrite Z.testbit_mod_pow2 by lia. Qed.

Lemma bit_wnot x i : 0 <= i -> Z.testbit (wnot x) i = (i <? 64) && negb (Z.testbit x i).
Proof. intros. unfold wnot. by rewrite bit_trunc64, Z.lnot_spec by lia. Qed.

Lemma bit_wshl x n i : 0 <= n < 64 -> 0 <= i -> Z.testbit (wshl x n) i = (i <? 64) && Z.testbit x (i - n).
Proof. intros. unfold wshl, BITS. rewrite Z.mod_small by lia. by rewrite bit_trunc64, Z.shiftl_spec by lia. Qed.

Lemma bit_wshr x n i : 0 <= n < 64 -> 0 <= i -> Z.testbit (wshr x n) i = Z.testbit x (i + n).
Proof. intros. unfold wshr, BITS. rewrite Z.mod_small by lia. by rewrite Z.shiftr_spec by lia. Qed.

Lemma bit_max i : Z.testbit U64_MAX i = (0 <=? i) && (i <? 64).
Proof. change U64_MAX with (Z.ones 64). by rewrite Z.testbit_ones by lia. Qed.

Lemma bit_bool_mask v i : Z.testbit (bool_mask_usize v) i = v && (0 <=? i) && (i <? 64).
Proof. destruct v; cbn [bool_mask_usize]; [apply bit_max|apply Z.bits_0]. Qed.

Lemma bit_wshl_1 n i : 0 <= n < 64 -> 0 <= i -> Z.testbit (wshl 1 n) i = (i =? n).
Proof.
  intros. rewrite bit_wshl by lia. change 1 with (2 ^ 0). rewrite Z.pow2_bits_eqb by lia.
  destruct (Z.ltb_spec i 64), (Z.eqb_spec 0 (i - n)), (Z.eqb_spec i n); cbn; lia || done.
Qed.

(** Rewriting a bit of an expression into bits of its parts, sides by [lia]. *)
Ltac bits :=
  repeat first
    [ rewrite Z.lor_spec | rewrite Z.land_spec | rewrite Z.lxor_spec
    | rewrite bit_wnot by lia | rewrite bit_bool_mask
    | rewrite bit_wshl_1 by lia | rewrite bit_wshl by lia | rewrite bit_wshr by lia
    | rewrite bit_max ].

(** Case analysis on the integer tests left by [bits]. *)
Ltac bit_cases :=
  repeat match goal with
  | |- context [?a <? ?b] => destruct (Z.ltb_spec a b)
  | |- context [?a <=? ?b] => destruct (Z.leb_spec a b)
  | |- context [?a =? ?b] => destruct (Z.eqb_spec a b)
  end; cbn [andb orb negb]; rewrite ?andb_true_r, ?andb_false_r, ?orb_false_r, ?orb_true_r;
  try (lia || done).

Lemma nonzero_bit x : 0 <= x -> x <> 0 -> exists i, 0 <= i /\ Z.testbit x i = true.
Proof.
  intros Hx Hne. exists (Z.log2 x). split; [apply Z.log2_nonneg|]. apply Z.bit_log2. lia.
Qed.

Lemma u64_bits x : is_u64 x -> forall i, 64 <= i -> Z.testbit x i = false.
Proof. intros Hx. apply (Z.bounded_iff_bits_nonneg 64); unfold is_u64 in *; lia. Qed.

(** A search over [seqZ] as [trailing_zeros] and [leading_zeros] do it. *)
Lemma prefix_seqZ (p : Z -> bool) n k :
  0 <= k < n -> p k = false ->
  let r := Z.of_nat (prefix_len p (seqZ 0 n)) in
  0 <= r <= k /\ p r = false /\ forall j, 0 <= j < r -> p j = true.
Proof.
  intros Hk Hp r. set (m := prefix_len p (seqZ 0 n)) in *.
  assert (forall j, (j < m)%nat -> p (Z.of_nat j) = true) as Hlt.
  { intros j Hj. pose proof (prefix_len_Forall p (seqZ 0 n)) as HF. fold m in HF.
    rewrite Forall_lookup in HF. apply (HF j). rewrite lookup_take_lt by done.
    pose proof (prefix_len_le p (seqZ 0 n)). rewrite lookup_seqZ. rewrite length_seqZ in *. lia. }
  assert (Z.of_nat m <= k) as Hm.
  { destruct (Z.le_gt_cases (Z.of_nat m) k); [done|].
    specialize (Hlt (Z.to_nat k) ltac:(lia)). rewrite Z2Nat.id in Hlt by lia. congruence. }
  split; [lia|]. split.
  - apply (prefix_len_stop p (seqZ 0 n)). fold m. apply lookup_seqZ. lia.
  - intros j Hj. specialize (Hlt (Z.to_nat j) ltac:(lia)). by rewrite Z2Nat.id in Hlt by lia.
Qed.

Lemma trailing_zeros_spec x :
  is_u64 x -> x <> 0 ->
  0 <= trailing_zeros x < 64 /\ Z.testbit x (trailing_zeros x) = true /\
  forall j, 0 <= j < trailing_zeros x -> Z.testbit x j = false.
Proof.
  intros Hx Hne. destruct (nonzero_bit x) as (i & Hi & Hb); [apply Hx|done|].
  assert (i < 64) by (destruct (Z.lt_ge_cases i 64); [done|]; by rewrite u64_bits in Hb).
  destruct (prefix_seqZ (fun i => negb (Z.testbit x i)) 64 i) as (H1 & H2 & H3);
    [lia|by rewrite Hb|]. fold BITS in *. fold (trailing_zeros x) in *.
  apply negb_false_iff in H2. repeat split; [lia..|done|].
  intros j Hj. by apply negb_true_iff, H3.
Qed.

Lemma leading_zeros_spec x :
  is_u64 x -> x <> 0 ->
  let top := BITS - 1 - leading_zeros x in
  0 <= top < 64 /\ Z.testbit x top = true /\ forall j, top < j -> Z.testbit x j = false.
Proof.
  intros Hx Hne top. destruct (nonzero_bit x) as (i & Hi & Hb); [apply Hx|done|].
  assert (i < 64) by (destruct (Z.lt_ge_cases i 64); [done|]; by rewrite u64_bits in Hb).
  destruct (prefix_seqZ (fun i => negb (Z.testbit x (BITS - 1 - i))) 64 (63 - i)) as (H1 & H2 & H3);
    [lia|unfold BITS; by replace (64 - 1 - (63 - i)) with i by lia; rewrite Hb|].
  fold BITS in *. fold (leading_zeros x) in *. unfold top, BITS in *.
  apply negb_false_iff in H2. repeat split; [lia..|done|].
  intros j Hj. destruct (Z.lt_ge_cases j 64); [|by apply u64_bits].
  specialize (H3 (63 - j) ltac:(lia)). apply negb_true_iff in H3.
  by replace (64 - 1 - (63 - j)) with j in H3 by lia.
Qed.

(** [x & (x - 1)] clears the lowest set bit and nothing else. *)
Lemma clear_lowest x k i :
  0 <= k -> Z.testbit x k = true -> (forall j, 0 <= j < k -> Z.testbit x j = false) -> 0 <= i ->
  Z.testbit (Z.land x (x - 1)) i = Z.testbit x i && negb (i =? k).
Proof.
  intros Hk Hb Hl Hi. rewrite Z.land_spec.
  destruct (Z.lt_trichotomy i k) as [Hik|[->|Hik]]; [by rewrite Hl by lia| |].
  all: assert (x mod 2 ^ k = 0) as Hm by
    (apply Z.bits_inj'; intros j Hj; rewrite Z.testbit_mod_pow2, Z.bits_0 by lia;
     destruct (Z.ltb_spec j k); cbn; [by apply Hl|done]).
  all: apply Z.testbit_true in Hb; [|done].
  all: pose proof (Z.div_mod x (2 ^ k) ltac:(lia)) as Hd; rewrite Hm in Hd.
  all: pose proof (Z.div_mod (x / 2 ^ k) 2 ltac:(lia)) as Hd2; rewrite Hb in Hd2.
  all: assert (0 < 2 ^ k) by lia.
  - rewrite Z.eqb_refl. cbn [negb]. rewrite !andb_false_r || idtac.
    assert (Z.testbit (x - 1) k = false) as ->; [|by rewrite andb_false_r].
    apply Z.testbit_false; [done|].
    assert ((x - 1) / 2 ^ k = 2 * (x / 2 ^ k / 2)) as ->.
    { symmetry. apply (Z.div_unique_pos _ _ _ (2 ^ k - 1)); nia. }
    rewrite Z.mul_comm. by apply Z.mod_mul.
  - rewrite (proj2 (Z.eqb_neq i k)) by lia. cbn [negb]. rewrite andb_true_r.
    assert (x / 2 ^ (k + 1) = (x - 1) / 2 ^ (k + 1)) as He.
    { rewrite Z.pow_add_r by lia. change (2 ^ 1) with 2.
      assert (x / (2 ^ k * 2) = x / 2 ^ k / 2) as -> by (by rewrite Z.div_div by lia).
      apply (Z.div_unique_pos _ _ _ (2 ^ k - 1)); nia. }
    apply (f_equal (fun z => Z.testbit z (i - (k + 1)))) in He.
    rewrite !Z.div_pow2_bits in He by lia. replace (i - (k + 1) + (k + 1)) with i in He by lia.
    rewrite <- He. by destruct (Z.testbit x i).
Qed.

(** * Facts about [IntegerBitSet] *)

Section IntegerBitSetFacts.
Context (SIZE : Z) (HSIZE : 0 <= SIZE <= 64).

(** Membership, and the invariant: no bit at or above [SIZE] is set. *)
Definition mem (s : IntegerBitSet) (i : Z) : bool := Z.testbit (mask s) i.
Definition wf (s : IntegerBitSet) : Prop :=
  0 <= mask s /\ forall i, SIZE <= i -> mem s i = false.

Lemma bit_full i : 0 <= i -> Z.testbit (FULL_MASK SIZE) i = (i <? SIZE).
Proof.
  intros Hi. unfold FULL_MASK, BITS. destruct (Z.leb_spec 64 SIZE).
  - rewrite bit_max. bit_cases.
  - assert (wshl 1 SIZE - 1 = Z.ones SIZE) as ->.
    { unfold wshl, BITS. rewrite Z.mod_small, Z.shiftl_1_l, trunc64_id, Z.ones_equiv; [lia|..|lia].
      unfold is_u64. split; [lia|]. apply Z.pow_lt_mono_r; lia. }
    by rewrite Z.testbit_ones_nonneg by lia.
Qed.

Lemma bit_mask_bit index i :
  0 <= index < SIZE -> 0 <= i -> Z.testbit (mask_bit SIZE index) i = (i =? index).
Proof.
  intros. unfold mask_bit. rewrite (proj2 (Z.eqb_neq SIZE 0)) by lia. by apply bit_wshl_1; lia.
Qed.

Lemma wf_of s (f : Z -> bool) :
  0 <= mask s -> (forall i, 0 <= i -> mem s i = f i) -> (forall i, SIZE <= i -> f i = false) -> wf s.
Proof. intros H0 Hm Hf. split; [done|]. intros i Hi. by rewrite Hm, Hf by lia. Qed.

Lemma is_set_mem s i : wf s -> 0 <= i < SIZE -> is_set SIZE s i = mem s i.
Proof.
  intros [H0 _] Hi. unfold is_set, mem.
  assert (Z.land (mask s) (mask_bit SIZE i) = if Z.testbit (mask s) i then 2 ^ i else 0) as ->.
  { apply Z.bits_inj'. intros j Hj. rewrite Z.land_spec, bit_mask_bit by lia.
    destruct (Z.eqb_spec j i) as [->|]; destruct (Z.testbit (mask s) i) eqn:E;
      rewrite ?Z.bits_0, ?andb_false_r, ?andb_true_r, ?Z.pow2_bits_true, ?Z.pow2_bits_false by lia;
      done. }
  destruct (Z.testbit (mask s) i); [|done]. apply negb_true_iff, Z.eqb_neq.
  pose proof (Z.pow_pos_nonneg 2 i). lia.
Qed.

Lemma wnot_nonneg x : 0 <= wnot x.
Proof. apply trunc64_range. Qed.

Lemma bool_mask_nonneg v : 0 <= bool_mask_usize v.
Proof. by destruct v. Qed.

Lemma mask_bit_nonneg i : 0 <= mask_bit SIZE i.
Proof. unfold mask_bit. destruct (SIZE =? 0); [done|apply trunc64_range]. Qed.

Lemma full_nonneg : 0 <= FULL_MASK SIZE.
Proof.
  unfold FULL_MASK, BITS. destruct (Z.leb_spec 64 SIZE); [done|].
  unfold wshl, BITS. rewrite Z.mod_small, Z.shiftl_1_l, trunc64_id by
    (unfold is_u64; (split; [lia|apply Z.pow_lt_mono_r; lia]) || lia).
  pose proof (Z.pow_pos_nonneg 2 SIZE). lia.
Qed.

Lemma range_mask_nonneg r v : 0 <= range_mask SIZE r v.
Proof. apply Z.land_nonneg. right. apply full_nonneg. Qed.

Lemma bit_range_mask r v i :
  0 <= start r < end_ r -> end_ r <= SIZE -> 0 <= i ->
  Z.testbit (range_mask SIZE r v) i = v && (start r <=? i) && (i <? end_ r).
Proof.
  intros Hr He Hi. unfold range_mask, BITS. rewrite Z.land_spec, bit_full by done.
  destruct (Z.eqb_spec (end_ r) SIZE) as [<-|Hne]; cbn [negb]; bits; destruct v; bit_cases.
Qed.

Lemma mem_wf s i : wf s -> 0 <= i -> mem s i = mem s i && (i <? SIZE).
Proof.
  intros [_ H] Hi. destruct (Z.ltb_spec i SIZE); [by rewrite andb_true_r|].
  by rewrite H.
Qed.
End IntegerBitSetFacts.

Lemma wf_u64 SIZE s : SIZE <= 64 -> wf SIZE s -> is_u64 (mask s).
Proof.
  intros Hs [H0 H]. split; [done|]. apply Z.bounded_iff_bits_nonneg; [lia|done|].
  intros i Hi. apply H. lia.
Qed.

(** * Facts about the iterators *)

Lemma wshl_ones n : 0 <= n < 64 -> wshl 1 n - 1 = Z.ones n.
Proof.
  intros. unfold wshl, BITS. rewrite Z.mod_small, Z.shiftl_1_l, trunc64_id, Z.ones_equiv; [lia|..|lia].
  unfold is_u64. split; [lia|]. apply Z.pow_lt_mono_r; lia.
Qed.

Lemma land_u64 x y : is_u64 x -> is_u64 (Z.land x y).
Proof.
  intros [Hx Hb]. assert (0 <= Z.land x y) by (apply Z.land_nonneg; auto). split; [done|].
  apply Z.bounded_iff_bits_nonneg; [lia|done|]. intros i Hi. rewrite Z.land_spec.
  by rewrite (u64_bits x ltac:(done)).
Qed.

(** One step: the lowest (highest) remaining index, which it removes. *)
Lemma iter_next_spec fwd x :
  is_u64 x ->
  match iter_next fwd x with
  | None => x = 0
  | Some (i, rest) =>
    is_u64 rest /\ 0 <= i < 64 /\ Z.testbit x i = true /\
    (forall j, 0 <= j -> Z.testbit rest j = Z.testbit x j && negb (j =? i)) /\
    (forall j, 0 <= j -> Z.testbit rest j = true -> if fwd : bool then i < j else j < i)
  end.
Proof.
  intros Hx. unfold iter_next. destruct (Z.eqb_spec x 0) as [|Hne]; [done|]. destruct fwd.
  - destruct (trailing_zeros_spec x Hx Hne) as (Hk & Hb & Hl).
    set (k := trailing_zeros x) in *.
    assert (forall j, 0 <= j -> Z.testbit (Z.land x (x - 1)) j = Z.testbit x j && negb (j =? k))
      as Hc by (intros; apply clear_lowest; auto; lia).
    split; [by apply land_u64|]. repeat split; [lia..|done|done|].
    intros j Hj Hr. rewrite Hc in Hr by done. destruct (Z.lt_trichotomy j k) as [|[->|]]; [|..|done].
    + by rewrite Hl in Hr by lia.
    + by rewrite Z.eqb_refl, andb_false_r in Hr.
  - destruct (leading_zeros_spec x Hx Hne) as (Hk & Hb & Hl).
    set (k := BITS - 1 - leading_zeros x) in *. rewrite wshl_ones by done.
    assert (forall j, 0 <= j -> Z.testbit (Z.land x (Z.ones k)) j = Z.testbit x j && (j <? k))
      as Hc by (intros; by rewrite Z.land_spec, Z.testbit_ones_nonneg by lia).
    split; [by apply land_u64|]. split; [done|]. split; [done|]. split.
    + intros j Hj. rewrite Hc by done. destruct (Z.lt_trichotomy j k) as [|[->|]]; [|..].
      * bit_cases.
      * by rewrite Z.ltb_irrefl, Z.eqb_refl.
      * by rewrite Hl by lia.
    + intros j Hj. rewrite Hc by done. intros H. apply andb_true_iff in H as [_ H]. lia.
Qed.

Definition iter_lt (fwd : bool) (i j : Z) : Prop := if fwd then i < j else j < i.

Lemma iter_collect_ok fwd fuel : forall x,
  is_u64 x ->
  (forall j, 0 <= j -> Z.testbit x j = true -> if fwd : bool then 64 - Z.of_nat fuel <= j else j < Z.of_nat fuel) ->
  exists l, iter_collect fuel fwd x = Some l /\ StronglySorted (iter_lt fwd) l /\
    forall i, i ∈ l <-> 0 <= i /\ Z.testbit x i = true.
Proof.
  induction fuel as [|fuel IH]; intros x Hx Hroom; cbn [iter_collect];
    pose proof (iter_next_spec fwd x Hx) as Hn; destruct (iter_next fwd x) as [[i rest]|].
  - destruct Hn as (_ & Hi & Hb & _). specialize (Hroom i ltac:(lia) Hb). destruct fwd; lia.
  - subst. exists []. split; [done|]. split; [constructor|]. intros i.
    rewrite Z.bits_0. split; [by intros ?%not_elem_of_nil|by intros []].
  - destruct Hn as (Hr & Hi & Hb & Hrest & Hlt). specialize (Hroom i ltac:(lia) Hb) as Hri.
    destruct (IH rest Hr) as (l & -> & Hsort & Hl).
    { intros j Hj Hbj. specialize (Hlt j Hj Hbj). destruct fwd; lia. }
    cbn [mbind option_bind]. exists (i :: l). split; [done|]. split.
    + constructor; [done|]. apply Forall_forall. intros j [Hj Hbj]%Hl.
      specialize (Hlt j Hj Hbj). by destruct fwd.
    + intros j. rewrite elem_of_cons, Hl. split.
      * intros [->|[Hj Hbj]]; [split; [lia|done]|]. split; [done|].
        rewrite Hrest in Hbj by done. by apply andb_true_iff in Hbj as [].
      * intros [Hj Hbj]. destruct (Z.eq_dec j i) as [|Hne]; [by left|right]. split; [done|].
        rewrite Hrest, Hbj by done. by rewrite (proj2 (Z.eqb_neq j i)).
  - subst. exists []. split; [done|]. split; [constructor|]. intros i.
    rewrite Z.bits_0. split; [by intros ?%not_elem_of_nil|by intros []].
Qed.

Lemma iter_collect_head fuel fwd x l :
  iter_collect fuel fwd x = Some l -> fst <$> iter_next fwd x = head l.
Proof.
  destruct fuel; cbn [iter_collect]; destruct (iter_next fwd x) as [[i rest]|]; try by intros [= <-].
  intros (k & _ & [= <-])%bind_Some. done.
Qed.

(** * Facts about the multi-word update *)

(** Bit [i] of an array of words. *)
Definition mbit (masks : list Z) (i : Z) : bool :=
  match masks !! Z.to_nat (i / 64) with Some w => Z.testbit w (i mod 64) | None => false end.

Lemma word_mask_index_div i : 0 <= i -> word_mask_index i = Z.to_nat (i / 64).
Proof. intros. unfold word_mask_index. by rewrite Z.shiftr_div_pow2 by lia. Qed.

Lemma land_63 i : Z.land i (BITS - 1) = i mod 64.
Proof. change (BITS - 1) with (Z.ones 6). by rewrite Z.land_ones by lia. Qed.

Lemma update_word_ok masks k f :
  (k < length masks)%nat ->
  exists masks', update_word masks k f = Some masks' /\ length masks' = length masks /\
    forall j, masks' !! j = (if decide (j = k) then f else id) <$> masks !! j.
Proof.
  intros Hk. unfold update_word. destruct (lookup_lt_is_Some_2 masks k Hk) as [w Hw].
  rewrite Hw. cbn [mbind option_bind]. eexists. split; [done|]. split; [by rewrite length_insert|]. intros j.
  rewrite list_lookup_insert. case_decide as Hj; [destruct Hj as [-> _]|].
  - by rewrite decide_True, Hw by done.
  - rewrite decide_False by naive_solver. by destruct (masks !! j).
Qed.

Lemma fill_words_ok masks i j w :
  (i <= j <= length masks)%nat ->
  exists masks', fill_words masks i j w = Some masks' /\ length masks' = length masks /\
    forall k, masks' !! k = (if decide (i <= k < j)%nat then fun _ => w else id) <$> masks !! k.
Proof.
  intros Hij. unfold fill_words. rewrite decide_True by done. eexists. split; [done|].
  split; [len|]. intros k. destruct (decide (k < i)%nat).
  { rewrite lookup_app_l, lookup_take_lt, decide_False by len. by destruct (masks !! k). }
  rewrite lookup_app_r by len. rewrite length_take_le by lia. destruct (decide (k < j)%nat).
  - rewrite lookup_app_l, lookup_replicate_2, decide_True by len.
    by destruct (lookup_lt_is_Some_2 masks k ltac:(lia)) as [? ->].
  - rewrite lookup_app_r, decide_False by len. rewrite length_replicate, lookup_drop.
    replace (j + (k - i - (j - i)))%nat with k by lia. by destruct (masks !! k).
Qed.

(** Reading bit [i] after the words were mapped by [f]. *)
Lemma mbit_map masks masks' (f : Z -> Z) i (new : bool) :
  0 <= i ->
  masks' !! Z.to_nat (i / 64) = f <$> masks !! Z.to_nat (i / 64) ->
  (64 * Z.of_nat (length masks) <= i -> new = false) ->
  (forall w, masks !! Z.to_nat (i / 64) = Some w -> Z.testbit (f w) (i mod 64) = new) ->
  mbit masks' i = new.
Proof.
  intros Hi Hm Hout Hin. unfold mbit. rewrite Hm.
  destruct (masks !! Z.to_nat (i / 64)) as [w|] eqn:E; cbn; [by apply Hin|].
  symmetry. apply Hout. apply lookup_ge_None in E.
  pose proof (Z.div_mod i 64 ltac:(lia)). pose proof (Z.mod_pos_bound i 64 ltac:(lia)). lia.
Qed.

Lemma mbit_lookup masks i w :
  masks !! Z.to_nat (i / 64) = Some w -> mbit masks i = Z.testbit w (i mod 64).
Proof. unfold mbit. by intros ->. Qed.

Lemma mbit_out masks i : 64 * Z.of_nat (length masks) <= i -> mbit masks i = false.
Proof.
  intros Hi. unfold mbit. rewrite lookup_ge_None_2; [done|].
  pose proof (Z.div_mod i 64 ltac:(lia)). pose proof (Z.mod_pos_bound i 64 ltac:(lia)). lia.
Qed.

(** The bits of a word against the bounds of the range, split into quotient
    and remainder. *)
Ltac range_bits i :=
  pose proof (Z.div_mod i 64 ltac:(lia)); pose proof (Z.mod_pos_bound i 64 ltac:(lia));
  repeat case_decide; unfold id, BITS in *; try lia; bits; bit_cases;
  repeat match goal with
    | v : bool |- _ => destruct v
    | |- context [Z.testbit ?w ?k] => destruct (Z.testbit w k)
    end; done.

(** The bits after the update, one by one. *)
Lemma set_range_value_masks_bits masks r v :
  0 <= start r <= end_ r -> end_ r <= 64 * Z.of_nat (length masks) ->
  exists masks', set_range_value_masks masks r v = Some masks' /\ length masks' = length masks /\
    forall i, 0 <= i -> mbit masks' i =
      if (start r <=? i) && (i <? end_ r) then v else mbit masks i.
Proof.
  intros Hr He. unfold set_range_value_masks.
  destruct (Z.eqb_spec (start r) (end_ r)) as [Heq|Hne].
  { exists masks. split; [done|]. split; [done|]. intros i Hi.
    destruct ((start r <=? i) && (i <? end_ r)) eqn:E; [lia|done]. }
  rewrite !word_mask_index_div, !land_63 by lia.
  pose proof (Z.div_mod (start r) 64 ltac:(lia)) as Hsd.
  pose proof (Z.mod_pos_bound (start r) 64 ltac:(lia)) as Hsm.
  pose proof (Z.div_mod (end_ r) 64 ltac:(lia)) as Hed.
  pose proof (Z.mod_pos_bound (end_ r) 64 ltac:(lia)) as Hem.
  set (sb := start r mod 64) in *. set (eb := end_ r mod 64) in *.
  set (sq := start r / 64) in *. set (eq := end_ r / 64) in *.
  assert (forall i, 64 * Z.of_nat (length masks) <= i ->
    (if (start r <=? i) && (i <? end_ r) then v else mbit masks i) = false) as Hout.
  { intros i Hi. rewrite mbit_out by done. by destruct ((start r <=? i) && (i <? end_ r)) eqn:E; [lia|]. }
  destruct (Nat.eqb_spec (Z.to_nat sq) (Z.to_nat eq)) as [Hq|Hq].
  - match goal with |- context [update_word masks ?k ?f] =>
      destruct (update_word_ok masks k f) as (m1 & -> & Hl1 & H1); [lia|] end.
    cbn [mbind option_bind].
    match goal with |- context [update_word m1 ?k ?f] =>
      destruct (update_word_ok m1 k f) as (m2 & -> & Hl2 & H2); [lia|] end.
    exists m2. split; [done|]. split; [lia|]. intros i Hi.
    eapply mbit_map; [done|rewrite H2, H1, <- option_fmap_compose; reflexivity|auto|].
    intros w Hw. rewrite (mbit_lookup _ _ _ Hw). unfold compose. range_bits i.
  - set (step1 := if 0 <? sb then _ else _).
    assert (exists m1 b, step1 = Some (m1, b) /\ length m1 = length masks /\
      b = (if 0 <? sb then S (Z.to_nat sq) else Z.to_nat sq) /\
      forall j, m1 !! j = (if decide (0 < sb /\ j = Z.to_nat sq) then fun w =>
        Z.lor (Z.land w (wnot (wshl (bool_mask_usize true) sb))) (wshl (bool_mask_usize v) sb)
        else id) <$> masks !! j) as (m1 & b & -> & Hl1 & Hb & H1).
    { unfold step1. destruct (Z.ltb_spec 0 sb).
      - match goal with |- context [update_word masks ?k ?f] =>
          destruct (update_word_ok masks k f) as (m1 & -> & Hl1 & H1); [lia|] end.
        eexists m1, _. repeat (split; [done|]). intros j. rewrite H1.
        repeat case_decide; try done; lia.
      - eexists masks, _. repeat (split; [done|]). intros j. rewrite decide_False by lia.
        by destruct (masks !! j). }
    cbn [mbind option_bind].
    match goal with |- context [fill_words m1 ?i ?j ?w] =>
      destruct (fill_words_ok m1 i j w) as (m2 & -> & Hl2 & H2);
        [rewrite Hb; destruct (0 <? sb); lia|] end.
    cbn [mbind option_bind].
    destruct (Z.ltb_spec 0 eb) as [Heb|Heb].
    + match goal with |- context [update_word m2 ?k ?f] =>
        destruct (update_word_ok m2 k f) as (m3 & -> & Hl3 & H3); [lia|] end.
      exists m3. split; [done|]. split; [lia|]. intros i Hi.
      eapply mbit_map; [done|rewrite H3, H2, H1, <- !option_fmap_compose; reflexivity|auto|].
      intros w Hw. rewrite (mbit_lookup _ _ _ Hw). unfold compose. subst b.
      destruct (Z.ltb_spec 0 sb); range_bits i.
    + exists m2. split; [done|]. split; [lia|]. intros i Hi.
      eapply mbit_map; [done|rewrite H2, H1, <- !option_fmap_compose; reflexivity|auto|].
      intros w Hw. rewrite (mbit_lookup _ _ _ Hw). unfold compose. subst b.
      destruct (Z.ltb_spec 0 sb); range_bits i.
Qed.

Section OpSpec.
Context (SIZE : Z) (HSIZE : 0 <= SIZE <= 64).

(** [s'] is the set with characteristic function [f] on the indices below [SIZE]. *)
Definition is_set_of (s' : IntegerBitSet) (f : Z -> bool) : Prop :=
  wf SIZE s' /\ forall j, 0 <= j < SIZE -> is_set SIZE s' j = f j.

(** An operation meets its specification when the bits of its mask do. *)
Lemma is_set_of_bits s' f :
  0 <= mask s' ->
  (forall j, 0 <= j -> Z.testbit (mask s') j = f j && (j <? SIZE)) -> is_set_of s' f.
Proof.
  intros H0 Hb. assert (wf SIZE s') as Hwf.
  { split; [done|]. intros i Hi. unfold mem. rewrite Hb by lia.
    by rewrite (proj2 (Z.ltb_ge _ _)), andb_false_r by lia. }
  split; [done|]. intros j Hj. rewrite is_set_mem by done. unfold mem.
  rewrite Hb by lia. by rewrite (proj2 (Z.ltb_lt _ _)), andb_true_r by lia.
Qed.

Lemma wf_bit s j : wf SIZE s -> 0 <= j -> Z.testbit (mask s) j = is_set SIZE s j && (j <? SIZE).
Proof.
  intros Hs Hj. destruct (Z.ltb_spec j SIZE).
  - by rewrite is_set_mem, andb_true_r by (done || lia).
  - rewrite andb_false_r. by apply Hs.
Qed.
End OpSpec.

Lemma lxor_nonneg a b : 0 <= a -> 0 <= b -> 0 <= Z.lxor a b.
Proof. intros. by apply Z.lxor_nonneg. Qed.

(** The non-negativity of a mask built by the operations. *)
Ltac nonneg :=
  repeat first [solve [auto using range_mask_nonneg, full_nonneg] | apply Z.lor_nonneg; split | apply lxor_nonneg | apply Z.land_nonneg; left];
  auto using wnot_nonneg, mask_bit_nonneg, full_nonneg, range_mask_nonneg.

Lemma eql_iff SIZE s t : 0 <= SIZE <= 64 -> SIZE <> 0 -> eql SIZE s t = true <-> s = t.
Proof.
  intros HS Hne. unfold eql. rewrite (proj2 (Z.eqb_neq SIZE 0)) by done. cbn [orb].
  destruct s as [m], t as [m']; cbn. rewrite Z.eqb_eq. split; [by intros ->|by intros [=]].
Qed.

Lemma subset_of_iff SIZE s t :
  0 <= SIZE <= 64 -> SIZE <> 0 -> wf SIZE s -> wf SIZE t ->
  subset_of SIZE s t = true <->
  forall j, 0 <= j < SIZE -> is_set SIZE s j = true -> is_set SIZE t j = true.
Proof.
  intros HS Hne Hs Ht. unfold subset_of. rewrite eql_iff by done.
  assert (set_intersection s t = s <-> Z.land (mask s) (mask t) = mask s) as ->.
  { destruct s; cbn. split; [by intros [=]|by unfold set_intersection; cbn; intros ->]. }
  split.
  - intros H j Hj. rewrite !is_set_mem by done. unfold mem. intros Hb.
    rewrite <- H, Z.land_spec in Hb. by apply andb_true_iff in Hb as [].
  - intros H. apply Z.bits_inj'. intros j Hj. rewrite Z.land_spec, !(wf_bit SIZE HS) by done.
    destruct (Z.ltb_spec j SIZE); [|by rewrite !andb_false_r].
    specialize (H j ltac:(lia)). destruct (is_set SIZE s j); [by rewrite H|done].
Qed.

Ltac set_mask :=
  cbn [mask init_empty init_full set toggle toggle_all toggle_set set_union set_intersection
    difference_with complement].

(** One operation of the theorem below: its mask bit by bit. *)
Ltac set_op SIZE Hf Hg :=
  apply (is_set_of_bits SIZE); [done|set_mask; nonneg; done|];
  intros j Hj; set_mask;
  repeat first [progress bits | rewrite Z.bits_0 | rewrite bit_mask_bit by lia
    | rewrite bit_full by lia | rewrite bit_range_mask by lia | rewrite Hf by lia
    | rewrite Hg by lia];
  bit_cases;
  repeat match goal with
  | v : bool |- _ => destruct v
  | |- context [is_set ?S ?s ?j] => destruct (is_set S s j)
  end; done.

Lemma u3_bits x i : (0 <=? x) && (x <? 8) = true -> 3 <= i -> Z.testbit x i = false.
Proof. intros H Hi. apply (Z.bounded_iff_bits_nonneg 3); lia. Qed.

Module BitSetProps.

(** on well-formed sets of at most 64 elements the mask arithmetic of
    [IntegerBitSet] implements the operations of finite sets: each operation
    yields a well-formed mask (no bit at or above [SIZE]) with the stated
    elements, ranges and complements included, and [eql] and [subset_of]
    decide equality and inclusion. *)
Theorem integer_bit_set_ops SIZE s t i r v :
  0 <= SIZE <= 64 -> wf SIZE s -> wf SIZE t ->
  0 <= i < SIZE -> 0 <= start r <= end_ r -> end_ r <= SIZE ->
  let f := is_set SIZE s in let g := is_set SIZE t in
  let spec := is_set_of SIZE in
  spec init_empty (fun _ => false) /\ spec (init_full SIZE) (fun _ => true) /\
  spec (set SIZE s i) (fun j => (j =? i) || f j) /\
  spec (unset SIZE s i) (fun j => negb (j =? i) && f j) /\
  spec (set_value SIZE s i v) (fun j => if j =? i then v else f j) /\
  spec (toggle SIZE s i) (fun j => xorb (f j) (j =? i)) /\
  spec (set_range_value SIZE s r v)
    (fun j => if (start r <=? j) && (j <? end_ r) then v else f j) /\
  spec (toggle_all SIZE s) (fun j => negb (f j)) /\
  spec (toggle_set s t) (fun j => xorb (f j) (g j)) /\
  spec (set_union s t) (fun j => f j || g j) /\
  spec (set_intersection s t) (fun j => f j && g j) /\
  spec (difference_with SIZE s t) (fun j => f j && negb (g j)) /\
  (eql SIZE s t = true <-> s = t) /\
  (subset_of SIZE s t = true <-> forall j, 0 <= j < SIZE -> f j = true -> g j = true).
Proof.
  intros HS Hs Ht Hi Hr He f g spec.
  pose proof (proj1 Hs) as Hs0. pose proof (proj1 Ht) as Ht0.
  assert (forall j, 0 <= j -> Z.testbit (mask s) j = f j && (j <? SIZE)) as Hf
    by (intros; by apply wf_bit).
  assert (forall j, 0 <= j -> Z.testbit (mask t) j = g j && (j <? SIZE)) as Hg
    by (intros; by apply wf_bit).
  assert (SIZE =? 0 = false) as HS0 by (apply Z.eqb_neq; lia).
  subst f g spec. cbn beta. unfold unset, set_value, set_range_value. rewrite HS0.
  do 6 (split; [set_op SIZE Hf Hg|]). split.
  { destruct (Z.eqb_spec (start r) (end_ r)); [|set_op SIZE Hf Hg].
    split; [done|]. intros j Hj. destruct (_ && _) eqn:E; [lia|done]. }
  do 5 (split; [set_op SIZE Hf Hg|]). split.
  - apply eql_iff; lia.
  - apply subset_of_iff; lia || done.
Qed.

Theorem integer_bit_set_ops_witness :
  let s := set 3 (set 3 init_empty 1) 2 in
  is_set_of 3 (set_range_value 3 s {| start := 0; end_ := 2 |} false) (fun j => j =? 2).
Proof.
  assert (wf 3 (set 3 (set 3 init_empty 1) 2)) as Hs.
  { split; [vm_compute; discriminate|]. intros i Hi. apply (u3_bits 6); [reflexivity|exact Hi]. }
  destruct (integer_bit_set_ops 3 (set 3 (set 3 init_empty 1) 2) (set 3 (set 3 init_empty 1) 2) 0
    {| start := 0; end_ := 2 |} false) as (_ & _ & _ & _ & _ & _ & [Hw H] & _);
    [lia|exact Hs|exact Hs|lia|cbn; lia|cbn; lia|].
  split; [exact Hw|]. intros j Hj. rewrite (H j Hj). assert (j = 0 \/ j = 1 \/ j = 2) as Hc by lia.
  destruct Hc as [->|[->| ->]]; reflexivity.
Defined.

(** iterating an [IntegerBitSet] terminates and visits exactly the set
    (or unset) indices below [SIZE], each once, ascending or descending; the
    [find_first] functions return the first index visited. *)
Theorem integer_bit_set_iteration SIZE s kind fwd :
  0 <= SIZE <= 64 -> wf SIZE s ->
  exists l, iter_collect 64 fwd (iterator SIZE kind s) = Some l /\
    StronglySorted (iter_lt fwd) l /\
    (forall i, i ∈ l <-> 0 <= i < SIZE /\ is_set SIZE s i = kind) /\
    (fwd = true -> (if kind then find_first_set s else find_first_unset SIZE s) = head l).
Proof.
  intros HS Hs. pose proof (proj1 Hs) as Hs0.
  set (x := iterator SIZE kind s).
  assert (forall j, 0 <= j -> Z.testbit x j = Bool.eqb (is_set SIZE s j) kind && (j <? SIZE)) as Hx.
  { intros j Hj. unfold x, iterator. destruct kind.
    - rewrite (wf_bit SIZE HS) by done. by destruct (is_set SIZE s j).
    - bits. rewrite (wf_bit SIZE HS), bit_full by done. destruct (is_set SIZE s j); bit_cases. }
  assert (is_u64 x) as Hu.
  { unfold x, iterator. destruct kind; [by apply (wf_u64 SIZE); [lia|]|].
    apply land_u64, trunc64_range. }
  destruct (iter_collect_ok fwd 64 x Hu) as (l & Hl & Hsort & Hin).
  { intros j Hj Hb. rewrite Hx in Hb by done. apply andb_true_iff in Hb as [_ Hb]. destruct fwd; lia. }
  exists l. split; [done|]. split; [done|]. split.
  - intros i. rewrite Hin. split.
    + intros [Hi Hb]. rewrite Hx in Hb by done. apply andb_true_iff in Hb as [Hb1 Hb2].
      split; [lia|by apply Bool.eqb_prop].
    + intros [Hi <-]. split; [lia|]. rewrite Hx by lia. rewrite Bool.eqb_reflx. cbn. lia.
  - intros ->. transitivity (fst <$> iter_next true x).
    + unfold x, iterator, iter_next, find_first_set, find_first_unset.
      by destruct kind; case_match.
    + by apply (iter_collect_head 64).
Qed.

Theorem integer_bit_set_iteration_witness :
  exists l, iter_collect 64 false (iterator 3 true {| mask := 5 |}) = Some l /\
    StronglySorted (iter_lt false) l /\ (forall i, i ∈ l <-> 0 <= i < 3 /\ is_set 3 {| mask := 5 |} i = true).
Proof.
  destruct (integer_bit_set_iteration 3 {| mask := 5 |} true false) as (l & H1 & H2 & H3 & _).
  - lia.
  - split; [cbn; lia|]. intros i Hi. apply (u3_bits 5); [reflexivity|exact Hi].
  - exists l. split; [exact H1|]. split; assumption.
Defined.

(** The range update shared by [ArrayBitSet] and [DynamicBitSetUnmanaged]
    writes exactly the bits of the range, with no access out of bounds, when
    the range lies in one word, spans several, or ends on a word boundary
    (also that of the array). *)
Theorem set_range_value_masks_spec masks r v :
  0 <= start r <= end_ r -> end_ r <= 64 * Z.of_nat (length masks) ->
  exists masks', set_range_value_masks masks r v = Some masks' /\
    length masks' = length masks /\
    forall i, 0 <= i -> mbit masks' i =
      if (start r <=? i) && (i <? end_ r) then v else mbit masks i.
Proof. apply set_range_value_masks_bits. Qed.

Theorem set_range_value_masks_spec_witness :
  set_range_value_masks [0; 0; 0] {| start := 60; end_ := 192 |} true =
    Some [0xF000000000000000; U64_MAX; U64_MAX] /\
  exists m, set_range_value_masks [0; 0; 0] {| start := 60; end_ := 192 |} true = Some m /\
    mbit m 59 = false /\ mbit m 60 = true.
Proof.
  split; [reflexivity|].
  destruct (set_range_value_masks_spec [0; 0; 0] {| start := 60; end_ := 192 |} true)
    as (m & H & _ & Hb); [cbn; lia|cbn; lia|].
  exists m. split; [exact H|]. rewrite !Hb by lia. split; reflexivity.
Defined.

End BitSetProps.
