(* ===== verification/LinearFifo.v ===== *)
(** src/src/collections/linear_fifo.rs: the ring buffer.

    A slot is an [option A], [None] when it is uninitialised.  The three kinds
    of buffer differ by the two constants of the trait, [POWERS_OF_TWO] and
    [DYNAMIC]; [tmp_len] is the number of items the scratch of [realign] holds.
    A slice is the pair of its bounds.  An index, an unsigned subtraction or a
    remainder that panics in a debug build is [None].  [head + count] is below
    twice the length of an allocation, so no addition of a [usize] overflows. *)
From S2P Require Import Prelude.
#[local] Open Scope nat_scope.

Record Fifo (A : Type) := { buf : list (option A); head : nat; count : nat }.
Arguments buf {_} _.
Arguments head {_} _.
Arguments count {_} _.

(** [checked_next_power_of_two] of a [usize]. *)
Definition checked_next_power_of_two (n : nat) : option nat :=
  if (Z.of_nat n <=? 2 ^ 63)%Z then Some (2 ^ Nat.log2_up n) else None.

(** [checked_add] of two [usize]s. *)
Definition checked_add (a b : nat) : option nat :=
  if (Z.of_nat (a + b) <? 2 ^ 64)%Z then Some (a + b) else None.

(** [ptr::copy(buf + src, buf + dst, n)], a memmove inside the buffer. *)
Definition ptr_copy {A} (b : list A) (src dst n : nat) : option (list A) :=
  s ← slice b src (src + n); copy_from_slice b dst s.

(** [shift_down_one(&mut b[from..to])]. *)
Definition shift_down_one {A} (b : list A) (from to : nat) : option (list A) :=
  s ← slice b from to;
  if length s <=? 1 then Some b else ptr_copy b (from + 1) from (to - from - 1).

Section LinearFifo.
Context {A : Type} (POWERS_OF_TWO DYNAMIC : bool) (tmp_len : nat).
Implicit Types (f : Fifo A) (src : list A).

(** [init] of the dynamic kind, and of the other two on [n] slots. *)
Definition init_dynamic : Fifo A := {| buf := []; head := 0; count := 0 |}.
Definition init_static (b : list (option A)) : Fifo A := {| buf := b; head := 0; count := 0 |}.

Definition buf_len f : nat := length (buf f).
Definition capacity f : nat := buf_len f.

Definition reset_head_if_empty f : Fifo A :=
  if count f =? 0 then {| buf := buf f; head := 0; count := count f |} else f.

(** The reduction of an index: [i & buf_len.wrapping_sub(1)], or [i % buf_len]. *)
Definition wrap f (i : nat) : option nat :=
  if POWERS_OF_TWO then Some (if buf_len f =? 0 then i else Nat.land i (buf_len f - 1))
  else if buf_len f =? 0 then None else Some (i mod buf_len f).

Fixpoint realign_loop (fuel : nat) (b : list (option A)) (h : nat) : option (list (option A)) :=
  if h =? 0 then Some b
  else
    match fuel with
    | O => None
    | S fuel =>
      let n := h `min` tmp_len in
      let m := length b - n in
      tmp ← slice b 0 n;
      b1 ← ptr_copy b n 0 m;
      b2 ← copy_from_slice b1 m tmp;
      realign_loop fuel b2 (h - n)
    end.

Definition realign f : option (Fifo A) :=
  b ← (if count f <=? buf_len f - head f then ptr_copy (buf f) (head f) 0 (count f)
       else realign_loop (head f) (buf f) (head f));
  Some {| buf := b; head := 0; count := count f |}.

(** [realloc] of the dynamic buffer: the prefix is copied, the rest is fresh. *)
Definition realloc (b : list (option A)) (new_size : nat) : list (option A) :=
  take (length b `min` new_size) b ++ replicate (new_size - length b `min` new_size) None.

Definition shrink f (size : nat) : option (Fifo A) :=
  if DYNAMIC then
    f' ← realign f; Some {| buf := realloc (buf f') size; head := head f'; count := count f' |}
  else Some f.

Definition ensure_total_capacity f (size : nat) : option (Fifo A * Result () AllocError) :=
  if size <=? buf_len f then Some (f, Ok ())
  else if DYNAMIC then
    f' ← realign f;
    match (if POWERS_OF_TWO then checked_next_power_of_two size else Some size) with
    | None => Some (f', Err OutOfMemory)
    | Some new_size =>
      old ← slice (buf f') 0 (count f');
      b ← copy_from_slice (replicate new_size None) 0 old;
      Some ({| buf := b; head := 0; count := count f' |}, Ok ())
    end
  else Some (f, Err OutOfMemory).

Definition writable_length f : nat := buf_len f - count f.
Definition readable_length f : nat := count f.

Definition ensure_unused_capacity f (size : nat) : option (Fifo A * Result () AllocError) :=
  if size <=? writable_length f then Some (f, Ok ())
  else
    match checked_add (count f) size with
    | None => Some (f, Err OutOfMemory)
    | Some total => ensure_total_capacity f total
    end.

(** [readable_slice] and [readable_slice_mut]. *)
Definition readable_range f (offset : nat) : nat * nat :=
  if count f <? offset then (0, 0)
  else
    let start := head f + offset in
    if buf_len f <=? start then (start - buf_len f, start - buf_len f + (count f - offset))
    else (start, (head f + count f) `min` buf_len f).

Definition readable_slice f (offset : nat) : option (list (option A)) :=
  let '(a, b) := readable_range f offset in slice (buf f) a b.

Definition discard f (n : nat) : option (Fifo A) :=
  if n <=? count f then
    h ← wrap f (head f + n); Some {| buf := buf f; head := h; count := count f - n |}
  else None.

Definition read_item f : option (option (option A) * Fifo A) :=
  if count f =? 0 then Some (None, f)
  else c ← buf f !! head f; f' ← discard f 1; Some (Some c, f').

(** [read] into [dst_left] slots: the items copied. *)
Fixpoint read_loop (fuel : nat) f (dst_left : nat) : option (list (option A) * Fifo A) :=
  if dst_left =? 0 then Some ([], f)
  else
    match fuel with
    | O => None
    | S fuel =>
      s ← readable_slice f 0;
      if length s =? 0 then Some ([], f)
      else
        let n := length s `min` dst_left in
        f' ← discard f n;
        '(rest, f'') ← read_loop fuel f' (dst_left - n);
        Some (take n s ++ rest, f'')
    end.

Definition read f (dst_len : nat) : option (list (option A) * Fifo A) := read_loop dst_len f dst_len.

Definition writable_range f (offset : nat) : option (nat * nat) :=
  if buf_len f <? offset then Some (0, 0)
  else
    let writable := buf_len f - count f in
    let tail := head f + offset + count f in
    if tail <? buf_len f then Some (tail, buf_len f)
    else if writable <? offset then None
    else Some (tail - buf_len f, tail - buf_len f + (writable - offset)).

(** [writable_slice], with the bounds check of the slice. *)
Definition writable_slice f (offset : nat) : option (nat * nat) :=
  '(a, b) ← writable_range f offset; _ ← slice (buf f) a b; Some (a, b).

Definition update f (n : nat) : option (Fifo A) :=
  if count f + n <=? buf_len f
  then Some {| buf := buf f; head := head f; count := count f + n |} else None.

(** The bounds of the [size] slots handed out. *)
Definition writable_with_size f (size : nat) : option (Fifo A * Result (nat * nat) AllocError) :=
  '(f, r) ← ensure_unused_capacity f size;
  match r with
  | Err e => Some (f, Err e)
  | Ok _ =>
    '(a, b) ← writable_slice f 0;
    f ← (if b - a <? size then realign f else Some f);
    '(a, b) ← writable_slice f 0;
    if size <=? b - a then Some (f, Ok (a, a + size)) else None
  end.

Fixpoint write_loop (fuel : nat) f (src_left : list A) : option (Fifo A) :=
  match src_left with
  | [] => Some f
  | _ =>
    match fuel with
    | O => None
    | S fuel =>
      '(a, b) ← writable_slice f 0;
      let n := (b - a) `min` length src_left in
      buf' ← copy_from_slice (buf f) a (Some <$> take n src_left);
      f' ← update {| buf := buf'; head := head f; count := count f |} n;
      write_loop fuel f' (drop n src_left)
    end
  end.

Definition write_assume_capacity f src : option (Fifo A) := write_loop (length src) f src.

Definition write_item_assume_capacity f (item : A) : option (Fifo A) :=
  tail ← wrap f (head f + count f);
  buf' ← copy_from_slice (buf f) tail [Some item];
  update {| buf := buf'; head := head f; count := count f |} 1.

(** [self.ensure_unused_capacity(n)?] before [k]. *)
Definition with_capacity f (n : nat) (k : Fifo A -> option (Fifo A)) : option (Fifo A * Result () AllocError) :=
  '(f, r) ← ensure_unused_capacity f n;
  match r with
  | Err e => Some (f, Err e)
  | Ok _ => f' ← k f; Some (f', Ok ())
  end.

Definition write_item f (item : A) : option (Fifo A * Result () AllocError) :=
  with_capacity f 1 (fun f => write_item_assume_capacity f item).

Definition write f src : option (Fifo A * Result () AllocError) :=
  with_capacity f (length src) (fun f => write_assume_capacity f src).

Definition rewind f (n : nat) : option (Fifo A) :=
  if n <=? buf_len f then
    h ← wrap f (head f + (buf_len f - n)); Some {| buf := buf f; head := h; count := count f + n |}
  else None.

(** [unget] once there is room: the items go to the slots before the head. *)
Definition unget_into src f : option (Fifo A) :=
  f ← rewind f (length src);
  let '(a, b) := readable_range f 0 in
  _ ← slice (buf f) a b;
  let n := (b - a) `min` length src in
  b1 ← copy_from_slice (buf f) a (Some <$> take n src);
  if b - a <? length src then
    let '(a2, b2) := readable_range f (b - a) in
    if length src - (b - a) <=? b2 - a2 then
      b2 ← copy_from_slice b1 a2 (Some <$> drop (b - a) src);
      Some {| buf := b2; head := head f; count := count f |}
    else None
  else Some {| buf := b1; head := head f; count := count f |}.

Definition unget f src : option (Fifo A * Result () AllocError) :=
  with_capacity f (length src) (unget_into src).

(** [peek_item] and [peek_item_mut]. *)
Definition peek_item f (offset : nat) : option (option A) :=
  i ← wrap f (head f + offset); buf f !! i.

Definition ordered_remove_item f (offset : nat) : option (Fifo A) :=
  if offset =? 0 then discard f 1
  else
    b ← (if count f <=? buf_len f - head f then shift_down_one (buf f) (head f + offset) (buf_len f)
         else
           index ← wrap f (head f + offset);
           let wrap_len := head f + count f - buf_len f in
           if index <? head f then shift_down_one (buf f) index wrap_len
           else
             first ← buf f !! 0;
             b1 ← shift_down_one (buf f) index (buf_len f);
             b2 ← copy_from_slice b1 (buf_len f - 1) [first];
             shift_down_one b2 0 wrap_len);
    if 1 <=? count f then Some {| buf := b; head := head f; count := count f - 1 |} else None.

(** [std::io::Write::write] of the byte fifo: fixed buffers take what fits. *)
Definition io_write f src : option (Fifo A * Result nat AllocError) :=
  let src := if DYNAMIC then src else take (length src `min` writable_length f) src in
  '(f', r) ← write f src;
  Some (f', match r with Err e => Err e | Ok _ => Ok (length src) end).

(** [pump]: a reader fills the slots it is given from the front and says how
    many, a writer takes a prefix of the items it is shown; both keep a state,
    which an error leaves behind too. *)
Section Pump.
Context {R W E : Type} (src_reader : R -> nat -> R * Result (list A) E)
        (dest_writer : W -> list (option A) -> W * Result nat E).

Definition PumpState : Type := Fifo A * R * W.

(** [dest_writer(self.readable_slice(0))?] and [discard] of what was taken. *)
Definition pump_write f (r : R) (w : W) : option (PumpState * Result unit E) :=
  s ← readable_slice f 0;
  match dest_writer w s with
  | (w', Err e) => Some (f, r, w', Err e)
  | (w', Ok written) => f' ← discard f written; Some (f', r, w', Ok ())
  end.

(** The reading half of a round: [Ok false] is the end of the input. *)
Definition pump_read f (r : R) (w : W) : option (PumpState * Result bool E) :=
  if 0 <? writable_length f then
    '(a, b) ← writable_slice f 0;
    match src_reader r (b - a) with
    | (r', Err e) => Some (f, r', w, Err e)
    | (r', Ok items) =>
      if length items =? 0 then Some (f, r', w, Ok false)
      else
        buf' ← copy_from_slice (buf f) a (Some <$> items);
        f' ← update {| buf := buf'; head := head f; count := count f |} (length items);
        Some (f', r', w, Ok true)
    end
  else Some (f, r, w, Ok true).

Fixpoint pump_flush (fuel : nat) f (r : R) (w : W) : option (PumpState * Result unit E) :=
  if readable_length f =? 0 then Some (f, r, w, Ok ())
  else
    match fuel with
    | O => None
    | S fuel =>
      '(f, r, w, res) ← pump_write f r w;
      match res with Err e => Some (f, r, w, Err e) | Ok _ => pump_flush fuel f r w end
    end.

Fixpoint pump (fuel : nat) f (r : R) (w : W) : option (PumpState * Result unit E) :=
  match fuel with
  | O => None
  | S fuel =>
    '(f, r, w, res) ← pump_read f r w;
    match res with
    | Err e => Some (f, r, w, Err e)
    | Ok false => pump_flush fuel f r w
    | Ok true =>
      '(f, r, w, res) ← pump_write f r w;
      match res with Err e => Some (f, r, w, Err e) | Ok _ => pump fuel f r w end
    end
  end.
End Pump.

(** * Sequences of operations *)

Inductive Op :=
| OWrite (src : list A) | OWriteItem (x : A) | OIoWrite (src : list A)
| OWritable (size : nat) (src : list A)   (* [writable_with_size], fill, [update] *)
| ORead (n : nat) | OReadItem | OReadable (offset : nat) | OPeek (offset : nat)
| ODiscard (n : nat) | OUnget (src : list A) | ORemove (offset : nat)
| OReserve (n : nat) | OReserveTotal (n : nat) | OShrink (n : nat) | ORealign | OResetHead.

Inductive Out := Done | Items (l : list (option A)) | Length (n : nat) | Failed.

Definition outcome (r : option (Fifo A * Result () AllocError)) : option (Fifo A * Out) :=
  '(f', r) ← r; Some (f', match r with Ok _ => Done | Err _ => Failed end).

Definition step f (o : Op) : option (Fifo A * Out) :=
  match o with
  | OWrite src => outcome (write f src)
  | OWriteItem x => outcome (write_item f x)
  | OIoWrite src =>
    '(f', r) ← io_write f src; Some (f', match r with Ok n => Length n | Err _ => Failed end)
  | OWritable size src =>
    '(f1, r) ← writable_with_size f size;
    match r with
    | Err _ => Some (f1, Failed)
    | Ok (a, b) =>
      buf' ← copy_from_slice (buf f1) a (Some <$> src);
      f' ← update {| buf := buf'; head := head f1; count := count f1 |} (length src); Some (f', Done)
    end
  | ORead n => '(l, f') ← read f n; Some (f', Items l)
  | OReadItem => '(x, f') ← read_item f; Some (f', Items (match x with Some x => [x] | None => [] end))
  | OReadable offset => l ← readable_slice f offset; Some (f, Items l)
  | OPeek offset => x ← peek_item f offset; Some (f, Items [x])
  | ODiscard n => f' ← discard f n; Some (f', Done)
  | OUnget src => outcome (unget f src)
  | ORemove offset => f' ← ordered_remove_item f offset; Some (f', Done)
  | OReserve n => outcome (ensure_unused_capacity f n)
  | OReserveTotal n => outcome (ensure_total_capacity f n)
  | OShrink n => f' ← shrink f n; Some (f', Done)
  | ORealign => f' ← realign f; Some (f', Done)
  | OResetHead => Some (reset_head_if_empty f, Done)
  end.

Fixpoint run f (ops : list Op) : option (Fifo A * list Out) :=
  match ops with
  | [] => Some (f, [])
  | o :: ops => '(f, out) ← step f o; '(f, outs) ← run f ops; Some (f, out :: outs)
  end.

End LinearFifo.
Arguments Op : clear implicits.
Arguments Out : clear implicits.

(** * Positions in the ring *)

(** The index of the [i]th item from [h] in a ring of [L] slots. *)
Definition pos (L h i : nat) : nat := if h + i <? L then h + i else h + i - L.

Lemma pos_spec L h i :
  h + i < L /\ pos L h i = h + i \/ L <= h + i /\ pos L h i = h + i - L.
Proof. unfold pos. destruct (Nat.ltb_spec (h + i) L); lia. Qed.

(** Arithmetic on positions. *)
Ltac pos_lia :=
  repeat match goal with
  | |- context [pos ?L ?h ?i] =>
    let p := fresh "p" in pose proof (pos_spec L h i); set (p := pos L h i) in *; clearbody p
  | _ : context [pos ?L ?h ?i] |- _ =>
    let p := fresh "p" in pose proof (pos_spec L h i); set (p := pos L h i) in *; clearbody p
  end; try lia.

Lemma ptr_copy_lookup {A} (b : list A) src dst n :
  src + n <= length b -> dst + n <= length b ->
  exists b', ptr_copy b src dst n = Some b' /\ length b' = length b /\
    forall i, b' !! i = if decide (dst <= i < dst + n) then b !! (src + (i - dst)) else b !! i.
Proof.
  intros Hs Hd. unfold ptr_copy. destruct (slice b src (src + n)) as [s|] eqn:E;
    [|by rewrite slice_ok in E by lia]. pose proof (slice_Some _ _ _ _ E) as (_ & _ & Hl).
  destruct (copy_lookup b s dst) as (b' & Hb & Hlen & Hlk); [lia|].
  exists b'. split; [done|]. split; [done|]. intros i. rewrite Hlk.
  replace (dst + length s) with (dst + n) by lia. case_decide; [|done].
  apply (slice_lookup _ _ _ _ _ E). lia.
Qed.

Lemma shift_down_lookup {A} (b : list A) from to :
  from <= to <= length b ->
  exists b', shift_down_one b from to = Some b' /\ length b' = length b /\
    forall i, b' !! i = if decide (from <= i /\ i + 1 < to) then b !! (i + 1) else b !! i.
Proof.
  intros H. unfold shift_down_one. rewrite slice_ok by done. cbn [mbind option_bind].
  assert (length (take (to - from) (drop from b)) = to - from) as -> by len.
  destruct (Nat.leb_spec (to - from) 1).
  - exists b. split; [done|]. split; [done|]. intros i. case_decide; [lia|done].
  - destruct (ptr_copy_lookup b (from + 1) from (to - from - 1)) as (b' & -> & Hl & Hlk); [lia..|].
    exists b'. split; [done|]. split; [done|]. intros i. rewrite Hlk.
    case_decide; case_decide; try lia; [|done]. f_equal. lia.
Qed.

Lemma next_power_ok n m : 0 < n -> checked_next_power_of_two n = Some m -> n <= m /\ exists k, m = 2 ^ k.
Proof.
  intros Hn. unfold checked_next_power_of_two. case_match; [|done]. intros [= <-].
  split; [|by eexists]. by apply Nat.log2_log2_up_spec.
Qed.

(** * The queue a ring holds *)

Section LinearFifoFacts.
Context {A : Type} {POWERS_OF_TWO DYNAMIC : bool} {tmp_len : nat}.
Implicit Types (f : Fifo A) (xs src : list A).
Notation wrap := (wrap POWERS_OF_TWO).
Notation discard := (discard POWERS_OF_TWO).
Notation realign := (realign tmp_len).
Notation ensure_total_capacity := (ensure_total_capacity POWERS_OF_TWO DYNAMIC tmp_len).
Notation ensure_unused_capacity := (ensure_unused_capacity POWERS_OF_TWO DYNAMIC tmp_len).

(** A length the index arithmetic is right for. *)
Definition sized (L : nat) : Prop :=
  if POWERS_OF_TWO then L = 0 \/ exists k, L = 2 ^ k else 0 < L.

Definition fifo_ok f : Prop :=
  count f <= buf_len f /\ (head f < buf_len f \/ buf_len f = 0 /\ head f = 0) /\ sized (buf_len f).

Definition holds f xs : Prop :=
  fifo_ok f /\ count f = length xs /\
  forall i x, xs !! i = Some x -> buf f !! pos (buf_len f) (head f) i = Some (Some x).

Lemma holds_bounds f xs : holds f xs ->
  length xs <= buf_len f /\ (head f < buf_len f \/ buf_len f = 0 /\ head f = 0).
Proof. intros ((H1 & H2 & _) & H3 & _). split; [lia|done]. Qed.

Lemma wrap_pos f i : fifo_ok f -> i <= buf_len f -> wrap f (head f + i) = Some (pos (buf_len f) (head f) i).
Proof.
  intros (_ & Hh & Hs) Hi. unfold LinearFifo.wrap, sized in *.
  assert (buf_len f <> 0 -> (head f + i) mod buf_len f = pos (buf_len f) (head f) i) as Hmod.
  { intros Hne. destruct (pos_spec (buf_len f) (head f) i) as [[? ->]|[? ->]]; [by apply Nat.mod_small|].
    symmetry. apply (Nat.mod_unique _ _ 1); lia. }
  destruct POWERS_OF_TWO.
  - destruct (Nat.eqb_spec (buf_len f) 0) as [E|Hne].
    + f_equal. pos_lia.
    + rewrite <- (Hmod Hne). destruct Hs as [|[k Hk]]; [lia|]. rewrite Hk, Nat.sub_1_r, <- Nat.ones_equiv.
      by rewrite Nat.land_ones.
  - destruct (Nat.eqb_spec (buf_len f) 0); [lia|]. by rewrite Hmod.
Qed.

Lemma init_static_holds (b : list (option A)) : sized (length b) -> holds (init_static b) [].
Proof. intros H. split; [split; [|split]|split]; unfold buf_len; cbn; try done; lia. Qed.

Lemma init_dynamic_holds : POWERS_OF_TWO = true -> holds (init_dynamic (A:=A)) [].
Proof. intros H. apply (init_static_holds []). unfold sized. rewrite H. by left. Qed.

(** The items from [offset] up to where the buffer wraps. *)
Lemma readable_range_ok f xs offset :
  holds f xs -> offset <= length xs ->
  exists b, readable_range f offset = (pos (buf_len f) (head f) offset, b) /\
    let n := b - pos (buf_len f) (head f) offset in
    pos (buf_len f) (head f) offset <= b <= buf_len f /\ n <= length xs - offset /\
    (offset < length xs -> 0 < n) /\
    (n = length xs - offset \/ b = buf_len f) /\
    slice (buf f) (pos (buf_len f) (head f) offset) b = Some (Some <$> take n (drop offset xs)).
Proof.
  intros Hf Ho. pose proof (holds_bounds f xs Hf) as [Hl Hh]. destruct Hf as (_ & Hc & Hx).
  assert (exists b, readable_range f offset = (pos (buf_len f) (head f) offset, b) /\
    pos (buf_len f) (head f) offset <= b <= buf_len f /\
    b - pos (buf_len f) (head f) offset <= length xs - offset /\
    (offset < length xs -> 0 < b - pos (buf_len f) (head f) offset) /\
    (b - pos (buf_len f) (head f) offset = length xs - offset \/ b = buf_len f)) as (b & Hr & H1 & H2 & H3 & H4).
  { unfold readable_range. rewrite Hc. destruct (Nat.ltb_spec (length xs) offset); [lia|].
    destruct (Nat.leb_spec (buf_len f) (head f + offset)); (eexists; split; [f_equal; pos_lia|]); pos_lia. }
  exists b. split; [done|]. cbn zeta. repeat (split; [done|]).
  destruct (slice (buf f) (pos (buf_len f) (head f) offset) b) as [s|] eqn:E;
    [|rewrite slice_ok in E by done; done].
  pose proof (slice_Some _ _ _ _ E) as (_ & _ & Hs). f_equal. apply list_eq. intros i.
  destruct (decide (i < length s)) as [Hi|Hi].
  - rewrite (slice_lookup _ _ _ _ _ E) by lia. rewrite list_lookup_fmap, lookup_take_lt, lookup_drop by lia.
    destruct (lookup_lt_is_Some_2 xs (offset + i)) as [x Hxi]; [lia|]. rewrite Hxi. cbn.
    rewrite <- (Hx _ _ Hxi). f_equal. pos_lia.
  - rewrite !lookup_ge_None_2; [done|len|lia].
Qed.

Lemma readable_ok f xs off : holds f xs ->
  exists n, readable_slice f off = Some (Some <$> take n (drop off xs)) /\ n <= length xs - off /\
    (off < length xs -> 0 < n).
Proof.
  intros Hf. destruct (decide (off <= length xs)) as [Ho|Ho].
  - destruct (readable_range_ok f xs off Hf Ho) as (b & Hr & _ & Hn & Hp & _ & Hs). cbn zeta in *.
    unfold readable_slice. rewrite Hr, Hs. by eexists.
  - exists 0. unfold readable_slice, readable_range. rewrite (proj1 (proj2 Hf)).
    rewrite (proj2 (Nat.ltb_lt _ _)) by lia. rewrite slice_ok by lia. rewrite take_0. split; [done|]. lia.
Qed.

Lemma discard_ok f xs n : holds f xs -> n <= length xs ->
  exists f', discard f n = Some f' /\ holds f' (drop n xs) /\ buf_len f' = buf_len f.
Proof.
  intros Hf Hn. pose proof (holds_bounds f xs Hf) as [Hl Hh]. destruct Hf as (Hok & Hc & Hx).
  unfold LinearFifo.discard. rewrite Hc. rewrite (proj2 (Nat.leb_le _ _) Hn), wrap_pos by (done || lia).
  cbn [mbind option_bind]. eexists. split; [done|]. split; [|done]. destruct Hok as (_ & _ & Hs).
  split; [split; [|split]|split]; cbn [buf count head]; unfold buf_len in *; cbn [buf]; try done; try len.
  - pos_lia.
  - intros i x Hi. rewrite lookup_drop in Hi. rewrite <- (Hx _ _ Hi). apply lookup_lt_Some in Hi. f_equal. pos_lia.
Qed.

Lemma read_item_ok f xs : holds f xs ->
  exists f', read_item POWERS_OF_TWO f = Some (Some <$> list.head xs, f') /\ holds f' (drop 1 xs) /\
    buf_len f' = buf_len f.
Proof.
  intros Hf. destruct Hf as (Hok & Hc & Hx) eqn:E. unfold read_item. rewrite Hc. destruct xs as [|x xs].
  { exists f. done. }
  cbn [length Nat.eqb list.head]. destruct Hok as (H1 & H2 & H3).
  assert (buf f !! head f = Some (Some x)) as ->.
  { rewrite <- (Hx 0 x eq_refl). f_equal. cbn in Hc. pos_lia. }
  cbn [mbind option_bind]. destruct (discard_ok f (x :: xs) 1 Hf) as (f' & -> & Hf' & Hl); [cbn; lia|].
  cbn [mbind option_bind]. by exists f'.
Qed.

(** Writing [src] in the slots from the tail that do not wrap. *)
Lemma append_ok f xs src p b' :
  holds f xs -> length xs + length src <= buf_len f ->
  p = pos (buf_len f) (head f) (length xs) -> p + length src <= buf_len f ->
  copy_from_slice (buf f) p (Some <$> src) = Some b' ->
  holds {| buf := b'; head := head f; count := count f + length src |} (xs ++ src) /\ length b' = buf_len f.
Proof.
  intros Hf Hl -> Hp Hb. pose proof (holds_bounds f xs Hf) as [_ Hh]. destruct Hf as ((H1 & H2 & Hs) & Hc & Hx).
  destruct (copy_lookup (buf f) (Some <$> src) (pos (buf_len f) (head f) (length xs))) as (b2 & Hb2 & Hlen & Hlk);
    [rewrite length_fmap; exact Hp|]. rewrite Hb in Hb2. injection Hb2 as <-. rewrite length_fmap in Hlk.
  assert (length b' = buf_len f) as Hlen' by done. split; [|done].
  split; [split; [|split]|split]; unfold buf_len in *; cbn [buf count head]; rewrite ?Hlen'; try done; try len.
  intros i x Hi. rewrite Hlk. destruct (decide (i < length xs)) as [Hlt|Hge].
  - rewrite lookup_app_l in Hi by done. rewrite decide_False by pos_lia. by apply Hx.
  - rewrite lookup_app_r in Hi by lia. apply lookup_lt_Some in Hi as Hi'. rewrite decide_True by pos_lia.
    rewrite list_lookup_fmap. replace (_ - _) with (i - length xs) by pos_lia. by rewrite Hi.
Qed.

(** A ring whose items start at slot 0. *)
Lemma holds_at_0 f xs b :
  holds f xs -> sized (length b) -> length xs <= length b ->
  (forall i, i < length xs -> b !! i = buf f !! pos (buf_len f) (head f) i) ->
  holds {| buf := b; head := 0; count := count f |} xs.
Proof.
  intros (_ & Hc & Hx) Hs Hl Hb. split; [split; [|split]|split]; unfold buf_len; cbn [buf count head]; try done; try lia.
  intros i x Hi. apply lookup_lt_Some in Hi as Hlt. rewrite <- (Hx _ _ Hi), <- Hb by done. f_equal. pos_lia.
Qed.

Lemma writable_slice_ok f xs : holds f xs ->
  exists b, writable_slice f 0 = Some (pos (buf_len f) (head f) (length xs), b) /\
    let p := pos (buf_len f) (head f) (length xs) in
    p <= b <= buf_len f /\ b - p <= buf_len f - length xs /\ (length xs < buf_len f -> 0 < b - p).
Proof.
  intros Hf. pose proof (holds_bounds f xs Hf) as [Hl Hh]. destruct Hf as (_ & Hc & _).
  unfold writable_slice, writable_range. rewrite Hc, Nat.add_0_r.
  change (buf_len f <? 0) with false. change (buf_len f - length xs <? 0) with false. cbv iota.
  pose proof (pos_spec (buf_len f) (head f) (length xs)) as Hp.
  destruct (Nat.ltb_spec (head f + length xs) (buf_len f)).
  - cbn [mbind option_bind]. rewrite slice_ok by (unfold buf_len in *; lia). cbn [mbind option_bind].
    eexists. split; [repeat f_equal; lia|]. lia.
  - cbn [mbind option_bind]. rewrite slice_ok by (unfold buf_len in *; lia). cbn [mbind option_bind].
    eexists. split; [repeat f_equal; lia|]. lia.
Qed.

Lemma write_loop_ok fuel : forall f xs src,
  holds f xs -> length xs + length src <= buf_len f -> length src <= fuel ->
  exists f', write_loop fuel f src = Some f' /\ holds f' (xs ++ src) /\ buf_len f' = buf_len f.
Proof.
  induction fuel as [|fuel IH]; intros f xs src Hf Hl Hs; destruct src as [|x src]; cbn [write_loop];
    try (exists f; by rewrite app_nil_r); [cbn in Hs; lia|].
  destruct (writable_slice_ok f xs Hf) as (b & -> & Hb1 & Hb2 & Hb3). cbn [mbind option_bind].
  cbn zeta in *. set (p := pos (buf_len f) (head f) (length xs)) in *.
  set (n := (b - p) `min` length (x :: src)). assert (0 < n) as Hn by (cbn [length] in *; lia).
  assert (length (take n (x :: src)) = n) as Hln by len.
  destruct (copy_from_slice (buf f) p (Some <$> take n (x :: src))) as [b'|] eqn:E;
    [|rewrite copy_from_slice_ok in E by (rewrite length_fmap; unfold buf_len in *; lia); done].
  destruct (append_ok f xs (take n (x :: src)) p b' Hf) as [Hf' Hb']; [lia|done|lia|done|].
  cbn [mbind option_bind]. unfold update, buf_len at 1. cbn [buf head count].
  pose proof Hf as (_ & Hc & _). rewrite Hln in Hf'.
  rewrite (proj2 (Nat.leb_le _ _)) by (rewrite Hb'; lia). cbn [mbind option_bind].
  destruct (IH _ _ (drop n (x :: src)) Hf') as (f' & -> & Hfin & Hlen).
  - unfold buf_len. cbn [buf]. rewrite Hb'. len.
  - len.
  - exists f'. split; [done|]. unfold buf_len in *. cbn [buf] in Hlen. rewrite <- app_assoc, take_drop in Hfin.
    split; [done|lia].
Qed.

Lemma write_item_ok f xs x : holds f xs -> length xs < buf_len f ->
  exists f', write_item_assume_capacity POWERS_OF_TWO f x = Some f' /\ holds f' (xs ++ [x]) /\ buf_len f' = buf_len f.
Proof.
  intros Hf Hl. pose proof Hf as (Hok & Hc & _). unfold write_item_assume_capacity.
  rewrite Hc, wrap_pos by (done || lia). cbn [mbind option_bind].
  pose proof (holds_bounds f xs Hf) as [_ Hh].
  assert (pos (buf_len f) (head f) (length xs) + 1 <= buf_len f) as Hp by pos_lia.
  destruct (copy_from_slice (buf f) (pos (buf_len f) (head f) (length xs)) [Some x]) as [b'|] eqn:E;
    [|rewrite copy_from_slice_ok in E by (unfold buf_len in *; cbn; lia); done].
  destruct (append_ok f xs [x] (pos (buf_len f) (head f) (length xs)) b' Hf) as [Hf' Hb']; [cbn; lia|done|done|done|].
  cbn [mbind option_bind]. unfold update, buf_len at 1. cbn [buf head count]. rewrite Hb'.
  rewrite (proj2 (Nat.leb_le _ _)) by lia. eexists. split; [done|]. rewrite Hc in Hf'. by split.
Qed.

Lemma read_loop_ok fuel : forall f xs n, holds f xs -> n <= fuel ->
  exists f', read_loop POWERS_OF_TWO fuel f n = Some (Some <$> take n xs, f') /\ holds f' (drop n xs) /\
    buf_len f' = buf_len f.
Proof.
  induction fuel as [|fuel IH]; intros f xs n Hf Hn; cbn [read_loop]; destruct (Nat.eqb_spec n 0) as [->|Hn0];
    try (exists f; by rewrite take_0, drop_0); [lia|].
  destruct (readable_range_ok f xs 0 Hf) as (b & Hr & Hb1 & Hb2 & Hb3 & Hb4 & Hs); [lia|].
  cbn zeta in *. set (k := b - pos (buf_len f) (head f) 0) in *.
  unfold readable_slice. rewrite Hr, Hs, drop_0. cbn [mbind option_bind].
  assert (length (Some <$> take k xs) = k) as -> by len.
  destruct (Nat.eqb_spec k 0) as [Hk|Hk].
  - exists f. assert (xs = []) as -> by (apply nil_length_inv; lia). by rewrite take_nil, drop_nil.
  - destruct (discard_ok f xs (k `min` n) Hf) as (f1 & -> & Hf1 & Hl1); [lia|]. cbn [mbind option_bind].
    destruct (IH f1 (drop (k `min` n) xs) (n - k `min` n) Hf1) as (f' & -> & Hf' & Hl'); [lia|].
    cbn [mbind option_bind]. exists f'. split; [|split; [|lia]].
    + rewrite <- fmap_take, take_take, <- fmap_app. repeat f_equal.
      rewrite (Nat.min_l (k `min` n) k) by lia. rewrite take_take_drop. f_equal. lia.
    + rewrite drop_drop in Hf'. by replace (k `min` n + (n - k `min` n)) with n in Hf' by lia.
Qed.

Lemma peek_ok f xs offset x : holds f xs -> xs !! offset = Some x ->
  peek_item POWERS_OF_TWO f offset = Some (Some x).
Proof.
  intros Hf Hx. pose proof (holds_bounds f xs Hf) as [Hl _]. destruct Hf as (Hok & Hc & Hk).
  apply lookup_lt_Some in Hx as Hlt. unfold peek_item. rewrite wrap_pos by (done || lia). by apply Hk.
Qed.

(** The two copies of [unget], into the slots before the head. *)
Lemma unget_ok f xs src : holds f xs -> length xs + length src <= buf_len f ->
  exists f', unget_into POWERS_OF_TWO src f = Some f' /\ holds f' (src ++ xs) /\ buf_len f' = buf_len f.
Proof.
  intros Hf Hl. pose proof (holds_bounds f xs Hf) as [Hlx Hh]. pose proof Hf as (Hok & Hc & Hx).
  unfold unget_into.
  set (L := buf_len f) in *. set (m := length src) in *. unfold rewind. fold L.
  rewrite (proj2 (Nat.leb_le _ _)), wrap_pos by (done || lia). cbn [mbind option_bind]. fold L.
  set (h := pos L (head f) (L - m)). assert (h < L \/ L = 0 /\ h = 0) as Hh' by (unfold h; pos_lia).
  set (f1 := {| buf := buf f; head := h; count := count f + m |}).
  assert (buf_len f1 = L) as HL by done.
  set (k := m `min` (L - h)). set (e := (h + (length xs + m)) `min` L).
  assert (readable_range f1 0 = (h, e)) as ->.
  { unfold readable_range. rewrite HL. unfold f1. cbn [head count]. rewrite Hc, Nat.add_0_r.
    destruct (Nat.ltb_spec (length xs + m) 0); [lia|].
    destruct (Nat.leb_spec L h); unfold e; f_equal; lia. }
  cbn [buf f1]. rewrite slice_ok by (unfold L, buf_len, e in *; lia). cbn [mbind option_bind].
  assert ((e - h) `min` m = k) as -> by (unfold e, k; lia).
  destruct (copy_lookup (buf f) (Some <$> take k src) h) as (b1 & -> & Hb1 & Hk1).
  { rewrite length_fmap, length_take. fold m. unfold L, buf_len, k in *. lia. }
  rewrite length_fmap, length_take in Hk1. fold m in Hk1. cbn [mbind option_bind].
  assert (forall b', length b' = L -> (forall i, i < m -> b' !! pos L h i = (Some <$> src) !! i) ->
    (forall i, i < length xs -> b' !! pos L (head f) i = buf f !! pos L (head f) i) ->
    holds {| buf := b'; head := h; count := count f + m |} (src ++ xs)) as Hgo.
  { intros b' Hb' Hs Hr. destruct Hok as (_ & _ & Hsz).
    split; [split; [|split]|split]; unfold buf_len; cbn [buf head count]; rewrite ?Hb'; try done; try len.
    intros i x Hi. destruct (decide (i < m)) as [Hlt|Hge].
    - rewrite Hs by done. rewrite lookup_app_l in Hi by done. by rewrite list_lookup_fmap, Hi.
    - rewrite lookup_app_r in Hi by (fold m; lia). fold m in Hi. rewrite <- (Hx _ _ Hi), <- Hr
        by (by apply lookup_lt_Some in Hi). apply lookup_lt_Some in Hi. fold L. f_equal. unfold h. pos_lia. }
  destruct (Nat.ltb_spec (e - h) m) as [Hlt|Hge].
  - assert (e = L /\ k = L - h /\ e - h = k) as (He & Hk & ->) by (unfold e, k in *; lia).
    assert (readable_range f1 k = (0, length xs + m - k)) as ->.
    { unfold readable_range. rewrite HL. unfold f1. cbn [head count]. rewrite Hc.
      destruct (Nat.ltb_spec (length xs + m) k); [lia|]. destruct (Nat.leb_spec L (h + k)); [f_equal; lia|lia]. }
    rewrite (proj2 (Nat.leb_le _ _)) by lia.
    destruct (copy_lookup b1 (Some <$> drop k src) 0) as (b2 & -> & Hb2 & Hk2).
    { rewrite length_fmap, length_drop. fold m. unfold L, buf_len in *. lia. }
    rewrite length_fmap, length_drop in Hk2. fold m in Hk2. cbn [mbind option_bind].
    eexists. split; [done|]. split; [|unfold L, buf_len in *; cbn [buf]; lia].
    apply Hgo; [unfold L, buf_len in *; lia|..]; intros i Hi; rewrite Hk2, Hk1.
    + destruct (decide (i < k)).
      * rewrite decide_False, decide_True by pos_lia. rewrite fmap_take, lookup_take_lt by pos_lia. f_equal. pos_lia.
      * rewrite decide_True by pos_lia. rewrite fmap_drop, lookup_drop. f_equal. pos_lia.
    + rewrite !decide_False; [done|unfold h in *; pos_lia..].
  - assert (k = m) as Hk by (unfold e, k in *; lia). eexists. split; [done|].
    split; [|unfold L, buf_len in *; cbn [buf]; lia].
    apply Hgo; [unfold L, buf_len in *; lia|..]; intros i Hi; rewrite Hk1.
    + rewrite decide_True by pos_lia. rewrite fmap_take, lookup_take_lt by pos_lia. f_equal. pos_lia.
    + rewrite decide_False; [done|unfold h in *; pos_lia].
Qed.

Lemma ordered_remove_ok f xs offset : holds f xs -> offset < length xs ->
  exists f', ordered_remove_item POWERS_OF_TWO f offset = Some f' /\ holds f' (delete offset xs) /\
    buf_len f' = buf_len f.
Proof.
  intros Hf Ho. pose proof (holds_bounds f xs Hf) as [Hl Hh]. pose proof Hf as (Hok & Hc & Hx).
  unfold ordered_remove_item. destruct (Nat.eqb_spec offset 0) as [->|Hne].
  { destruct (discard_ok f xs 1 Hf) as (f' & -> & Hf' & Hlen); [lia|]. exists f'. split; [done|].
    by destruct xs. }
  set (L := buf_len f) in *. rewrite Hc.
  assert (forall b', length b' = L ->
    (forall i, i < length xs - 1 -> b' !! pos L (head f) i =
       buf f !! pos L (head f) (if decide (i < offset) then i else i + 1)) ->
    holds {| buf := b'; head := head f; count := length xs - 1 |} (delete offset xs)) as Hgo.
  { intros b' Hb' Hk. destruct Hok as (_ & _ & Hsz).
    assert (length (delete offset xs) = length xs - 1) as Hd by (by rewrite length_delete by (by apply lookup_lt_is_Some_2)).
    split; [split; [|split]|split]; unfold buf_len; cbn [buf head count]; rewrite ?Hb', ?Hd; try done; try lia.
    intros i x Hi. apply lookup_lt_Some in Hi as Hlt. rewrite Hk by lia. apply Hx.
    case_decide; [by rewrite list_lookup_delete_lt in Hi|].
    rewrite list_lookup_delete_ge in Hi by lia. by rewrite Nat.add_1_r. }
  assert (forall (o : option (list (option A))) b', o = Some b' -> length b' = L ->
    (forall i, i < length xs - 1 -> b' !! pos L (head f) i =
       buf f !! pos L (head f) (if decide (i < offset) then i else i + 1)) ->
    exists f', (b ← o; if 1 <=? length xs then Some {| buf := b; head := head f; count := length xs - 1 |} else None)
      = Some f' /\ holds f' (delete offset xs) /\ buf_len f' = L) as Hfin.
  { intros o b' -> Hb' Hk. cbn [mbind option_bind]. rewrite (proj2 (Nat.leb_le _ _)) by lia.
    eexists. split; [done|]. split; [by apply Hgo|by unfold buf_len]. }
  destruct (Nat.leb_spec (length xs) (L - head f)) as [Hlin|Hwrap].
  - destruct (shift_down_lookup (buf f) (head f + offset) L) as (b & Hb & Hbl & Hk); [unfold L, buf_len in *; lia|].
    apply (Hfin _ b Hb Hbl). intros i Hi. rewrite Hk. repeat case_decide; try (exfalso; pos_lia; lia); f_equal; pos_lia.
  - rewrite wrap_pos by (done || (fold L; lia)). cbn [mbind option_bind]. fold L.
    set (idx := pos L (head f) offset). set (w := head f + length xs - L).
    destruct (Nat.ltb_spec idx (head f)) as [Hi0|Hi0].
    + destruct (shift_down_lookup (buf f) idx w) as (b & Hb & Hbl & Hk);
        [unfold idx, w; fold L in Hl; unfold L, buf_len in *; pos_lia|].
      apply (Hfin _ b Hb Hbl). intros i Hi. rewrite Hk. unfold idx, w in *.
      repeat case_decide; try (exfalso; pos_lia; lia); f_equal; pos_lia.
    + destruct (lookup_lt_is_Some_2 (buf f) 0) as [first Hfirst]; [unfold L, buf_len in *; lia|].
      rewrite Hfirst. cbn [mbind option_bind].
      destruct (shift_down_lookup (buf f) idx L) as (b1 & -> & Hbl1 & Hk1); [unfold idx, L, buf_len in *; pos_lia|].
      cbn [mbind option_bind].
      destruct (copy_lookup b1 [first] (L - 1)) as (b2 & -> & Hbl2 & Hk2); [cbn; unfold L, buf_len in *; lia|].
      cbn [mbind option_bind].
      destruct (shift_down_lookup b2 0 w) as (b3 & Hb3 & Hbl3 & Hk3); [unfold w, L, buf_len in *; lia|].
      apply (Hfin _ b3 Hb3); [unfold L, buf_len in *; lia|]. intros i Hi. rewrite Hk3, !Hk2, !Hk1. cbn [length].
      assert ([first] !! 0 = buf f !! 0) as Hf0 by by rewrite Hfirst.
      unfold idx, w in *.
      repeat case_decide; try (exfalso; pos_lia; lia);
        first [f_equal; pos_lia; lia
              |replace (pos L (head f) i - (L - 1)) with 0 by pos_lia; rewrite Hf0; f_equal; pos_lia; lia
              |replace (pos L (head f) i + 1 - (L - 1)) with 0 by pos_lia; rewrite Hf0; f_equal; pos_lia; lia].
Qed.
Context (Htmp : 0 < tmp_len).

(** The loop rotates the buffer. *)
Lemma realign_loop_ok fuel : forall (b : list (option A)) h,
  h <= fuel -> h <= length b ->
  exists b', realign_loop tmp_len fuel b h = Some b' /\ length b' = length b /\
    forall i, i < length b -> b' !! i = b !! pos (length b) h i.
Proof.
  induction fuel as [|fuel IH]; intros b h Hf Hl; cbn [realign_loop]; destruct (Nat.eqb_spec h 0) as [->|Hh];
    try (exists b; split; [done|]; split; [done|]; intros i Hi; f_equal; pos_lia); [lia|].
  set (n := h `min` tmp_len). assert (0 < n <= h) as Hn by lia.
  destruct (slice b 0 n) as [tmp|] eqn:E; [|rewrite slice_ok in E by lia; done].
  pose proof (slice_Some _ _ _ _ E) as (_ & _ & Htl). cbn [mbind option_bind].
  destruct (ptr_copy_lookup b n 0 (length b - n)) as (b1 & -> & Hl1 & Hk1); [lia..|]. cbn [mbind option_bind].
  destruct (copy_lookup b1 tmp (length b - n)) as (b2 & -> & Hl2 & Hk2); [lia|]. cbn [mbind option_bind].
  destruct (IH b2 (h - n)) as (b' & -> & Hl' & Hk'); [lia..|].
  exists b'. split; [done|]. split; [lia|]. intros i Hi. rewrite Hk', Hk2, Hk1 by lia.
  assert (length b2 = length b) as -> by lia.
  case_decide as D1; [|case_decide as D2].
  - rewrite (slice_lookup _ _ _ _ _ E) by lia. f_equal. pos_lia.
  - f_equal. pos_lia.
  - exfalso. pos_lia.
Qed.

Lemma realign_ok f xs : holds f xs ->
  exists f', realign f = Some f' /\ holds f' xs /\ head f' = 0 /\ buf_len f' = buf_len f.
Proof.
  intros Hf. pose proof (holds_bounds f xs Hf) as [Hl Hh]. pose proof Hf as ((H1 & H2 & Hs) & Hc & _).
  unfold LinearFifo.realign. rewrite Hc. destruct (Nat.leb_spec (length xs) (buf_len f - head f)) as [Hle|Hgt].
  - destruct (ptr_copy_lookup (buf f) (head f) 0 (length xs)) as (b & -> & Hb & Hk); [unfold buf_len in *; lia..|].
    cbn [mbind option_bind]. eexists. split; [done|]. rewrite <- Hc. split; [|done].
    apply holds_at_0; [done|by rewrite Hb|by rewrite Hb|]. intros i Hi. rewrite Hk, decide_True by lia.
    f_equal. pos_lia.
  - destruct (realign_loop_ok (head f) (buf f) (head f)) as (b & -> & Hb & Hk); [lia|unfold buf_len in *; lia|].
    cbn [mbind option_bind]. eexists. split; [done|]. rewrite <- Hc. split; [|done].
    apply holds_at_0; [done|by rewrite Hb|by rewrite Hb|]. intros i Hi. unfold buf_len in *. rewrite Hk by lia. done.
Qed.

(** Growing: the items stay, also when there is no room to be had. *)
Definition grown (f' : Fifo A) (r : Result () AllocError) f xs (size : nat) : Prop :=
  holds f' xs /\ buf_len f <= buf_len f' /\ (DYNAMIC = false -> buf_len f' = buf_len f) /\
  match r with
  | Ok _ => size <= buf_len f'
  | Err _ => (DYNAMIC = false \/ (2 ^ 63 < Z.of_nat size)%Z) /\ buf_len f < size
  end.

Lemma ensure_total_ok f xs size : holds f xs ->
  exists f' r, ensure_total_capacity f size = Some (f', r) /\ grown f' r f xs size.
Proof.
  intros Hf. pose proof (holds_bounds f xs Hf) as [Hl Hh]. unfold LinearFifo.ensure_total_capacity, grown.
  destruct (Nat.leb_spec size (buf_len f)) as [Hle|Hgt]; [by eexists _, _|].
  destruct DYNAMIC eqn:Ed;
    [|exists f, (Err OutOfMemory); split; [done|]; split; [done|]; split; [done|]; split; [done|]; by split; [left|]].
  destruct (realign_ok f xs Hf) as (f' & -> & Hf' & Hh' & Hl'). cbn [mbind option_bind].
  assert (forall m, size <= m -> sized m -> exists f2 r,
    (old ← slice (buf f') 0 (count f'); b ← copy_from_slice (replicate m None) 0 old;
     Some ({| buf := b; head := 0; count := count f' |}, Ok ())) = Some (f2, r) /\ grown f2 r f xs size) as Hgo.
  { intros m Hm Hs. pose proof Hf' as (_ & Hc & _). unfold buf_len in *.
    destruct (slice (buf f') 0 (count f')) as [old|] eqn:E; [|rewrite slice_ok in E by lia; done].
    pose proof (slice_Some _ _ _ _ E) as (_ & _ & Ho). cbn [mbind option_bind].
    destruct (copy_lookup (replicate m None) old 0) as (b & -> & Hb & Hk); [len|]. cbn [mbind option_bind].
    rewrite length_replicate in Hb. eexists _, _. split; [done|].
    split; [|unfold buf_len; cbn [buf]; split; [lia|split; [congruence|lia]]].
    apply holds_at_0; [done|by rewrite Hb|lia|]. intros i Hi. rewrite Hk, decide_True by lia.
    rewrite (slice_lookup _ _ _ _ _ E) by lia. f_equal. unfold buf_len. pos_lia. }
  unfold grown in Hgo. rewrite Ed in Hgo.
  destruct POWERS_OF_TWO eqn:Ep; [|apply Hgo; [done|unfold sized; rewrite Ep; lia]].
  destruct (checked_next_power_of_two size) as [m|] eqn:Em.
  - apply next_power_ok in Em as [Hm Hk]; [|lia]. apply Hgo; [done|]. unfold sized. rewrite Ep. by right.
  - eexists _, _. split; [done|]. split; [done|]. split; [lia|]. split; [done|].
    split; [right|done]. unfold checked_next_power_of_two in Em.
    case_match eqn:E; [done|]. apply Z.leb_gt in E. done.
Qed.

Lemma ensure_unused_ok f xs size : holds f xs ->
  exists f' r, ensure_unused_capacity f size = Some (f', r) /\ grown f' r f xs (length xs + size).
Proof.
  intros Hf. pose proof (holds_bounds f xs Hf) as [Hl Hh]. pose proof Hf as (_ & Hc & _).
  unfold LinearFifo.ensure_unused_capacity, writable_length. rewrite Hc.
  destruct (Nat.leb_spec size (buf_len f - length xs)).
  2: { unfold checked_add. destruct (Z.ltb_spec (Z.of_nat (length xs + size)) (2 ^ 64)); [by apply ensure_total_ok|].
       eexists _, _. split; [done|]. split; [done|]. split; [done|]. split; [done|]. split; [right; lia|lia]. }
  eexists _, _. split; [done|]. split; [done|]. split; [done|]. split; [done|]. lia.
Qed.
End LinearFifoFacts.
Arguments sized : clear implicits.
Arguments fifo_ok {_} _ _.
Arguments holds {_} _ _ _.
Arguments grown {_} _ _ _ _ _ _ _.

