(* ===== verification/LinearFifoSpec.v ===== *)
(** The contract of the ring buffer: it refines a queue of items, operation by
    operation, and [pump] moves a reader's items to a writer in order. *)
From S2P Require Import Prelude LinearFifo.
#[local] Open Scope nat_scope.

Section LinearFifoSpec.
Context {A : Type} (POWERS_OF_TWO DYNAMIC : bool) (tmp_len : nat) (Htmp : 0 < tmp_len).
Implicit Types (f : Fifo A) (xs src : list A).
Notation realign := (realign tmp_len).
Notation sized := (sized POWERS_OF_TWO).
Notation holds := (holds (A:=A) POWERS_OF_TWO).
Notation grown := (grown (A:=A) POWERS_OF_TWO DYNAMIC).

Lemma with_capacity_ok f xs n k ys :
  holds f xs ->
  (forall f1, holds f1 xs -> length xs + n <= buf_len f1 ->
     exists f', k f1 = Some f' /\ holds f' ys /\ buf_len f' = buf_len f1) ->
  exists f' r, with_capacity POWERS_OF_TWO DYNAMIC tmp_len f n k = Some (f', r) /\
    match r with
    | Ok _ => holds f' ys /\ length xs + n <= buf_len f' /\ (DYNAMIC = false -> buf_len f' = buf_len f)
    | Err _ => grown f' r f xs (length xs + n)
    end.
Proof.
  intros Hf Hk. unfold with_capacity. destruct (ensure_unused_ok (DYNAMIC := DYNAMIC) Htmp f xs n Hf) as (f1 & r & -> & Hg).
  cbn [mbind option_bind]. destruct r as [[]|[]].
  - destruct Hg as (Hf1 & _ & Hd & Hs). destruct (Hk f1 Hf1 Hs) as (f' & -> & Hf' & Hl'). cbn [mbind option_bind].
    eexists _, _. split; [done|]. split; [done|]. split; [lia|]. intros. rewrite Hl'. auto.
  - by eexists _, _.
Qed.

Lemma writable_with_size_ok f xs size : holds f xs ->
  exists f' r, writable_with_size POWERS_OF_TWO DYNAMIC tmp_len f size = Some (f', r) /\
    (DYNAMIC = false -> buf_len f' = buf_len f) /\
    match r with
    | Ok (a, b) => holds f' xs /\ a = pos (buf_len f') (head f') (length xs) /\ b = a + size /\
        b <= buf_len f' /\ length xs + size <= buf_len f'
    | Err e => grown f' (Err e) f xs (length xs + size)
    end.
Proof.
  intros Hf. unfold writable_with_size. destruct (ensure_unused_ok (DYNAMIC := DYNAMIC) Htmp f xs size Hf) as (f1 & r & -> & Hg).
  cbn [mbind option_bind]. destruct r as [[]|[]]; [|by eexists _, _; split; [done|]; split; [apply Hg|]].
  destruct Hg as (Hf1 & _ & Hd & Hs). destruct (writable_slice_ok f1 xs Hf1) as (b & Hw1 & Hb).
  rewrite Hw1. cbn [mbind option_bind]. set (a := pos (buf_len f1) (head f1) (length xs)) in *.
  assert (exists f2 b2, (if b - a <? size then realign f1 else Some f1) = Some f2 /\
    holds f2 xs /\ buf_len f2 = buf_len f1 /\
    writable_slice f2 0 = Some (pos (buf_len f2) (head f2) (length xs), b2) /\
    pos (buf_len f2) (head f2) (length xs) + size <= b2 <= buf_len f2) as (f2 & b2 & -> & Hf2 & Hl2 & Hw & Hb2).
  { destruct (Nat.ltb_spec (b - a) size) as [Hlt|Hge].
    - destruct (realign_ok Htmp f1 xs Hf1) as (f2 & -> & Hf2 & Hh2 & Hl2).
      destruct (writable_slice_ok f2 xs Hf2) as (b2 & Hw & Hb2). exists f2, b2. repeat (split; [done|]).
      cbn zeta in Hb2. rewrite Hh2 in *. destruct (decide (size = 0)) as [->|Hne]; [lia|].
      assert (pos (buf_len f2) 0 (length xs) = length xs) as Hp by pos_lia. rewrite Hp in *.
      revert Hw. unfold writable_slice, writable_range. rewrite (proj1 (proj2 Hf2)), Hh2.
      change (buf_len f2 <? 0) with false. cbv iota. rewrite Nat.add_0_r.
      destruct (Nat.ltb_spec (0 + length xs) (buf_len f2)); [|lia]. cbn [mbind option_bind].
      intros (? & _ & E)%bind_Some. injection E. lia.
    - exists f1, b. repeat (split; [done|]). cbn zeta in Hb. fold a. lia. }
  cbn [mbind option_bind]. rewrite Hw. cbn [mbind option_bind].
  rewrite (proj2 (Nat.leb_le _ _)) by lia. eexists _, _. split; [done|]. split; [intros; rewrite Hl2; auto|].
  cbn beta iota. split; [done|]. split; [done|]. split; [done|]. lia.
Qed.

Lemma shrink_ok f xs size : holds f xs -> (DYNAMIC = true -> length xs <= size /\ sized size) ->
  exists f', shrink DYNAMIC tmp_len f size = Some f' /\ holds f' xs /\ (DYNAMIC = false -> buf_len f' = buf_len f).
Proof.
  intros Hf Hs. unfold shrink. destruct DYNAMIC eqn:Ed; [|by exists f].
  destruct (Hs eq_refl) as [Hle Hsz]. destruct (realign_ok Htmp f xs Hf) as (f' & -> & Hf' & Hh & Hl).
  cbn [mbind option_bind]. eexists. split; [done|]. split; [|done]. rewrite Hh.
  pose proof (holds_bounds f' xs Hf') as [Hlx _]. unfold buf_len in Hlx.
  assert (length (realloc (buf f') size) = size) as Hr by (unfold realloc; len).
  apply holds_at_0; [done|by rewrite Hr|by rewrite Hr|]. intros i Hi. unfold realloc.
  rewrite lookup_app_l by len. rewrite lookup_take_lt by lia. f_equal. unfold buf_len. pos_lia.
Qed.

(** * The queue

    What the operations promise of the list of items, for a fixed buffer of
    [cap] slots or a growing one. *)

(** The slots a request needs in all, and the items once it is granted. *)
Definition request xs (o : Op A) : option (nat * list A) :=
  match o with
  | OWrite src => Some (length xs + length src, xs ++ src)
  | OWriteItem x => Some (length xs + 1, xs ++ [x])
  | OWritable size src => Some (length xs + size, xs ++ src)
  | OUnget src => Some (length xs + length src, src ++ xs)
  | OReserve n => Some (length xs + n, xs)
  | OReserveTotal n => Some (n, xs)
  | _ => None
  end.

(** A fixed buffer grants exactly what fits; one that grows refuses only what
    no power of two of a [usize] can hold. *)
Definition granted (cap n : nat) : Prop := DYNAMIC = false -> n <= cap.
Definition refused (cap n : nat) : Prop := if DYNAMIC then (2 ^ 63 < Z.of_nat n)%Z else cap < n.

Inductive queue_step (cap : nat) xs : Op A -> list A -> Out A -> Prop :=
| q_done o n ys : request xs o = Some (n, ys) -> granted cap n -> queue_step cap xs o ys Done
| q_failed o n ys : request xs o = Some (n, ys) -> refused cap n -> queue_step cap xs o xs Failed
| q_io_grown src : DYNAMIC = true -> queue_step cap xs (OIoWrite src) (xs ++ src) (Length (length src))
| q_io_failed src : DYNAMIC = true -> refused cap (length xs + length src) ->
    queue_step cap xs (OIoWrite src) xs Failed
| q_io_fixed src : DYNAMIC = false ->
    queue_step cap xs (OIoWrite src) (xs ++ take (cap - length xs) src) (Length (length src `min` (cap - length xs)))
| q_read n : queue_step cap xs (ORead n) (drop n xs) (Items (Some <$> take n xs))
| q_read_item : queue_step cap xs OReadItem (drop 1 xs) (Items (Some <$> take 1 xs))
| q_readable off n : n <= length xs - off -> (off < length xs -> 0 < n) ->
    queue_step cap xs (OReadable off) xs (Items (Some <$> take n (drop off xs)))
| q_peek off x : xs !! off = Some x -> queue_step cap xs (OPeek off) xs (Items [Some x])
| q_discard n : queue_step cap xs (ODiscard n) (drop n xs) Done
| q_remove off : queue_step cap xs (ORemove off) (delete off xs) Done
| q_shrink n : queue_step cap xs (OShrink n) xs Done
| q_realign : queue_step cap xs ORealign xs Done
| q_reset : queue_step cap xs OResetHead xs Done.

(** What a caller must respect: the debug assertions, and a power-of-two
    length to shrink to where the index arithmetic wants one. *)
Definition legal xs (o : Op A) : Prop :=
  match o with
  | OWritable size src => length src <= size
  | OPeek off | ORemove off => off < length xs
  | ODiscard n => n <= length xs
  | OShrink n => DYNAMIC = true -> length xs <= n /\ sized n
  | _ => True
  end.

Inductive queue_run (cap : nat) xs : list (Op A) -> list A -> list (Out A) -> Prop :=
| run_nil : queue_run cap xs [] xs []
| run_cons o ops ys zs out outs :
    queue_step cap xs o ys out -> queue_run cap ys ops zs outs -> queue_run cap xs (o :: ops) zs (out :: outs).

Fixpoint safe (cap : nat) xs (ops : list (Op A)) : Prop :=
  match ops with
  | [] => True
  | o :: ops => legal xs o /\ forall ys out, queue_step cap xs o ys out -> safe cap ys ops
  end.

(** A ring that holds [xs] in a buffer the capacity describes. *)
Definition rep (cap : nat) f xs : Prop := holds f xs /\ (DYNAMIC = false -> buf_len f = cap).

Lemma grown_refused cap f f' e xs n :
  (DYNAMIC = false -> buf_len f = cap) -> grown f' (Err e) f xs n -> rep cap f' xs /\ refused cap n.
Proof.
  intros Hc (Hh & _ & Hd & Hr & Hlt). split; [split; [done|]; intros H; rewrite Hd; auto|].
  unfold refused. destruct DYNAMIC; [destruct Hr; [done|lia]|rewrite <- Hc; done].
Qed.

Notation step := (step (A:=A) POWERS_OF_TWO DYNAMIC tmp_len).
Notation run := (run (A:=A) POWERS_OF_TWO DYNAMIC tmp_len).

(** The requests that go through [with_capacity]. *)
Lemma request_step cap f xs o n ys k :
  rep cap f xs -> request xs o = Some (length xs + n, ys) ->
  step f o = outcome (with_capacity POWERS_OF_TWO DYNAMIC tmp_len f n k) ->
  (forall f1, holds f1 xs -> length xs + n <= buf_len f1 ->
     exists f', k f1 = Some f' /\ holds f' ys /\ buf_len f' = buf_len f1) ->
  exists f' out zs, step f o = Some (f', out) /\ rep cap f' zs /\ queue_step cap xs o zs out.
Proof.
  intros [Hf Hc] Hq -> Hk. destruct (with_capacity_ok f xs n k ys Hf Hk) as (f' & r & -> & Hr).
  cbn [outcome mbind option_bind]. destruct r as [[]|e].
  - destruct Hr as (Hf' & Hn & Hd). exists f', Done, ys. split; [done|]. split.
    + split; [done|]. intros H. rewrite Hd; auto.
    + eapply q_done; [done|]. intros H. rewrite <- Hc, <- Hd; auto.
  - apply (grown_refused cap) in Hr as [Hrep Href]; [|done]. exists f', Failed, xs. split; [done|]. split; [done|].
    by eapply q_failed.
Qed.

Lemma reserve_step cap f xs o n ens :
  rep cap f xs -> request xs o = Some (n, xs) -> step f o = outcome ens ->
  (exists f' r, ens = Some (f', r) /\ grown f' r f xs n) ->
  exists f' out zs, step f o = Some (f', out) /\ rep cap f' zs /\ queue_step cap xs o zs out.
Proof.
  intros [Hf Hc] Hq -> (f' & r & -> & Hg). cbn [outcome mbind option_bind]. exists f', (match r with Ok _ => Done | Err _ => Failed end), xs.
  split; [done|]. destruct r as [[]|e].
  - destruct Hg as (Hf' & _ & Hd & Hn). split; [split; [done|]; intros H; rewrite Hd; auto|].
    eapply q_done; [done|]. intros H. rewrite <- Hc, <- Hd; auto.
  - apply (grown_refused cap) in Hg as [Hrep Href]; [|done]. split; [done|]. by eapply q_failed.
Qed.

(** An operation that leaves the length of the buffer alone. *)
Lemma rep_step cap f f' xs ys :
  rep cap f xs -> holds f' ys -> buf_len f' = buf_len f -> rep cap f' ys.
Proof. intros [_ Hc] Hh Hl. split; [done|]. intros H. rewrite Hl. auto. Qed.

Lemma writable_step cap f xs size src : rep cap f xs -> length src <= size ->
  exists f' out zs, step f (OWritable size src) = Some (f', out) /\ rep cap f' zs /\
    queue_step cap xs (OWritable size src) zs out.
Proof.
  intros Hrep Hs. pose proof Hrep as [Hf Hc]. cbn [LinearFifo.step].
  destruct (writable_with_size_ok f xs size Hf) as (f1 & r & -> & Hd & Hr). cbn [mbind option_bind].
  destruct r as [[a b]|e].
  - destruct Hr as (Hf1 & Ha & -> & Hb & Hn).
    destruct (copy_lookup (buf f1) (Some <$> src) a) as (b' & Hb' & _); [unfold buf_len in *; len|].
    destruct (append_ok f1 xs src a b' Hf1) as [Hf' Hl']; [lia|done|lia|done|]. rewrite Hb'.
    cbn [mbind option_bind]. unfold update, buf_len at 1. cbn [buf head count]. rewrite Hl'.
    pose proof Hf1 as (_ & Hcn & _). rewrite (proj2 (Nat.leb_le _ _)) by lia. cbn [mbind option_bind].
    eexists _, _, (xs ++ src). split; [done|]. split.
    + split; [done|]. intros H. unfold buf_len at 1. cbn [buf]. rewrite Hl', Hd; auto.
    + eapply q_done; [done|]. intros H. rewrite <- Hc, <- Hd; auto.
  - apply (grown_refused cap) in Hr as [Hrep' Href]; [|done]. eexists _, _, xs. split; [done|]. split; [done|].
    by eapply q_failed.
Qed.

Lemma io_step cap f xs src : rep cap f xs ->
  exists f' out zs, step f (OIoWrite src) = Some (f', out) /\ rep cap f' zs /\
    queue_step cap xs (OIoWrite src) zs out.
Proof.
  intros Hrep. pose proof Hrep as [Hf Hc]. pose proof (holds_bounds f xs Hf) as [Hl _].
  pose proof Hf as (_ & Hcn & _). cbn [LinearFifo.step]. unfold io_write, writable_length, write. rewrite Hcn.
  set (src' := if DYNAMIC then src else take (length src `min` (buf_len f - length xs)) src).
  destruct (with_capacity_ok f xs (length src') (fun f => write_assume_capacity f src') (xs ++ src') Hf)
    as (f' & r & -> & Hr). { intros f1 Hf1 Hn. by apply write_loop_ok. }
  cbn [mbind option_bind]. eexists _, _, (match r with Ok _ => xs ++ src' | Err _ => xs end). split; [done|].
  destruct r as [[]|e].
  - destruct Hr as (Hf' & Hn & Hd). split; [split; [done|]; intros H; rewrite Hd; auto|].
    unfold src'. destruct DYNAMIC eqn:Ed; [by apply q_io_grown|].
    rewrite Hc, length_take by done.
    replace (length src `min` (cap - length xs) `min` length src) with (length src `min` (cap - length xs)) by lia.
    replace (take (length src `min` (cap - length xs)) src) with (take (cap - length xs) src); [by apply q_io_fixed|].
    destruct (Nat.min_spec (length src) (cap - length xs)) as [[? ->]|[? ->]]; [|done]. by rewrite !take_ge by lia.
  - pose proof Hr as (_ & _ & _ & _ & Hlt). apply (grown_refused cap) in Hr as [Hrep' Href]; [|done].
    split; [done|]. unfold src' in *. destruct DYNAMIC eqn:Ed; [by apply q_io_failed|]. exfalso. revert Hlt. len.
Qed.

Lemma reset_head_ok f xs : holds f xs ->
  holds (reset_head_if_empty f) xs /\ buf_len (reset_head_if_empty f) = buf_len f.
Proof.
  intros Hf. unfold reset_head_if_empty. destruct (Nat.eqb_spec (count f) 0) as [E|]; [|done].
  destruct Hf as ((H1 & H2 & H3) & Hc & Hx). split; [|done]. assert (xs = []) as -> by (apply nil_length_inv; lia).
  split; [split; [|split]|split]; unfold buf_len in *; cbn [buf head count]; try done; lia.
Qed.

(** One operation of the ring is one operation of the queue. *)
Lemma step_ok cap f xs o : rep cap f xs -> legal xs o ->
  exists f' out zs, step f o = Some (f', out) /\ rep cap f' zs /\ queue_step cap xs o zs out.
Proof.
  intros Hrep Hl. pose proof Hrep as [Hf Hc].
  assert (forall f' out ys, step f o = Some (f', out) -> holds f' ys -> buf_len f' = buf_len f ->
    queue_step cap xs o ys out ->
    exists f' out zs, step f o = Some (f', out) /\ rep cap f' zs /\ queue_step cap xs o zs out) as Hgo.
  { intros f' out ys ????. exists f', out, ys. split; [done|]. split; [by eapply rep_step|done]. }
  destruct o as [src|x|src|size src|n| |off|off|n|src|off|n|n|n| |]; cbn [legal] in Hl.
  - eapply request_step; [done..|]. intros f1 Hf1 Hn. by apply write_loop_ok.
  - eapply request_step; [done..|]. intros f1 Hf1 Hn. apply write_item_ok; [done|lia].
  - by apply io_step.
  - by apply writable_step.
  - destruct (read_loop_ok n f xs n Hf) as (f' & Hr & Hf' & Hl'); [done|].
    eapply Hgo; [cbn; unfold read; by rewrite Hr|done..|constructor].
  - destruct (read_item_ok f xs Hf) as (f' & Hr & Hf' & Hl').
    eapply Hgo; [cbn; rewrite Hr; cbn; done|done..|]. destruct xs; apply (q_read_item cap).
  - destruct (readable_ok f xs off Hf) as (n & Hr & Hn & Hp).
    eapply Hgo; [cbn; by rewrite Hr|done..|by constructor].
  - destruct (lookup_lt_is_Some_2 xs off Hl) as [x Hx]. pose proof (peek_ok f xs off x Hf Hx) as Hp.
    eapply Hgo; [cbn; by rewrite Hp|done..|by constructor].
  - destruct (discard_ok f xs n Hf Hl) as (f' & Hr & Hf' & Hl').
    eapply Hgo; [cbn; by rewrite Hr|done..|constructor].
  - eapply request_step; [done|cbn; done|done|]. intros f1 Hf1 Hn. by apply unget_ok.
  - destruct (ordered_remove_ok f xs off Hf Hl) as (f' & Hr & Hf' & Hl').
    eapply Hgo; [cbn; by rewrite Hr|done..|constructor].
  - eapply reserve_step; [done..|]. by apply ensure_unused_ok.
  - eapply reserve_step; [done..|]. by apply ensure_total_ok.
  - destruct (shrink_ok f xs n Hf Hl) as (f' & Hr & Hf' & Hd). exists f', Done, xs.
    split; [cbn; by rewrite Hr|]. split; [split; [done|]|constructor]. intros H. rewrite Hd; auto.
  - destruct (realign_ok Htmp f xs Hf) as (f' & Hr & Hf' & _ & Hl').
    eapply Hgo; [cbn; by rewrite Hr|done..|constructor].
  - destruct (reset_head_ok f xs Hf). eapply Hgo; [done..|constructor].
Qed.


End LinearFifoSpec.

(** * Pumping

    What [pump] expects of its two callbacks: a reader hands out the items it
    still has, in order, at most as many as it is given room for, and none
    only at the end; a writer takes a prefix of what it is shown, not empty
    when it is shown something.  A callback that fails has moved nothing. *)
Section Pump.
Context {A R W E : Type}.

Class PumpSource (src_reader : R -> nat -> R * Result (list A) E) (todo : R -> list A) : Prop := {
  source_ok r n r' items : 0 < n -> src_reader r n = (r', Ok items) ->
    length items <= n /\ todo r = items ++ todo r' /\ (items = [] -> todo r' = []);
  source_err r n r' e : src_reader r n = (r', Err e) -> todo r' = todo r
}.

Class PumpSink (dest_writer : W -> list (option A) -> W * Result nat E) (log : W -> list A) : Prop := {
  sink_ok w xs w' n : xs <> [] -> dest_writer w (Some <$> xs) = (w', Ok n) ->
    0 < n <= length xs /\ log w' = log w ++ take n xs;
  sink_err w s w' e : dest_writer w s = (w', Err e) -> log w' = log w
}.

Context (POWERS_OF_TWO : bool) (src_reader : R -> nat -> R * Result (list A) E)
        (dest_writer : W -> list (option A) -> W * Result nat E)
        (todo : R -> list A) (log : W -> list A)
        `{!PumpSource src_reader todo} `{!PumpSink dest_writer log}.
Implicit Types (f : Fifo A) (xs : list A) (r : R) (w : W).
Notation holds := (holds (A:=A) POWERS_OF_TWO).

Lemma pump_write_ok f xs r w : holds f xs -> xs <> [] ->
  exists f' w' res, pump_write POWERS_OF_TWO dest_writer f r w = Some (f', r, w', res) /\
    buf_len f' = buf_len f /\
    match res with
    | Ok _ => exists n, 0 < n <= length xs /\ holds f' (drop n xs) /\ log w' = log w ++ take n xs
    | Err _ => holds f' xs /\ log w' = log w
    end.
Proof.
  intros Hf Hne. unfold pump_write. destruct (readable_ok f xs 0 Hf) as (k & -> & Hk & Hp).
  assert (0 < length xs) as Hl by (destruct xs; [done|cbn; lia]). rewrite drop_0. cbn [mbind option_bind].
  destruct (dest_writer w (Some <$> take k xs)) as [w' [n|e]] eqn:Ew.
  - apply sink_ok in Ew as [Hn Hlog]; [|intros E0%(f_equal length); revert E0; rewrite length_take; cbn; lia].
    rewrite length_take in Hn. rewrite take_take, Nat.min_l in Hlog by lia.
    destruct (discard_ok f xs n Hf) as (f' & -> & Hf' & Hl'); [lia|]. cbn [mbind option_bind].
    eexists _, _, _. split; [done|]. split; [done|]. exists n. split; [lia|done].
  - apply sink_err in Ew. by eexists _, _, _.
Qed.

Lemma pump_read_ok f xs r w : holds f xs ->
  exists f' r' res, pump_read src_reader f r w = Some (f', r', w, res) /\ buf_len f' = buf_len f /\
    match res with
    | Ok true => exists items, todo r = items ++ todo r' /\ holds f' (xs ++ items) /\
        (length xs < buf_len f -> items <> [])
    | Ok false => holds f' xs /\ todo r = [] /\ todo r' = []
    | Err _ => holds f' xs /\ todo r' = todo r
    end.
Proof.
  intros Hf. pose proof Hf as (_ & Hc & _). unfold pump_read, writable_length. rewrite Hc.
  destruct (Nat.ltb_spec 0 (buf_len f - length xs)) as [Hlt|Hge].
  2: { eexists _, _, _. split; [done|]. split; [done|]. exists []. rewrite app_nil_r.
       split; [done|]. split; [done|]. lia. }
  destruct (writable_slice_ok f xs Hf) as (b & -> & Hb). cbn [mbind option_bind]. cbn zeta in Hb.
  set (p := pos (buf_len f) (head f) (length xs)) in *.
  destruct (src_reader r (b - p)) as [r' [items|e]] eqn:Er.
  - apply source_ok in Er as (Hn & Ht & Hend); [|lia]. destruct (Nat.eqb_spec (length items) 0) as [E0|Hne].
    + apply nil_length_inv in E0. specialize (Hend E0). subst. cbn in Ht. eexists _, _, _.
      split; [done|]. split; [done|]. by rewrite Ht.
    + destruct (copy_lookup (buf f) (Some <$> items) p) as (b' & Hb' & _); [unfold buf_len in *; len|].
      destruct (append_ok f xs items p b' Hf) as [Hf' Hl']; [lia|done|lia|done|]. rewrite Hb'.
      cbn [mbind option_bind]. unfold update, buf_len at 1. cbn [buf head count]. rewrite Hl'.
      rewrite (proj2 (Nat.leb_le _ _)) by lia. cbn [mbind option_bind]. rewrite Hc in Hf'.
      eexists _, _, _. split; [done|]. split; [unfold buf_len in *; cbn [buf]; lia|].
      exists items. split; [done|]. split; [done|]. intros _ ->. done.
  - apply source_err in Er. eexists _, _, _. split; [done|]. by split.
Qed.

(** All the items, wherever they are. *)
Definition conserved (f : Fifo A) r w (all : list A) : Prop :=
  exists ys, holds f ys /\ log w ++ ys ++ todo r = all.

Definition pumped (o : option (PumpState (A:=A) (R:=R) (W:=W) * Result unit E)) (all : list A) : Prop :=
  exists f' r' w' res, o = Some (f', r', w', res) /\
    match res with
    | Ok _ => log w' = all /\ todo r' = [] /\ holds f' []
    | Err _ => conserved f' r' w' all
    end.

Lemma pump_flush_ok fuel : forall f xs r w, holds f xs -> todo r = [] -> length xs <= fuel ->
  pumped (pump_flush POWERS_OF_TWO dest_writer fuel f r w) (log w ++ xs).
Proof.
  induction fuel as [|fuel IH]; intros f xs r w Hf Ht Hl; cbn [pump_flush]; unfold readable_length;
    rewrite (proj1 (proj2 Hf)); (destruct (Nat.eqb_spec (length xs) 0) as [E0|Hne];
    [apply nil_length_inv in E0 as ->; rewrite app_nil_r; by eexists _, _, _, _|]); [lia|].
  destruct (pump_write_ok f xs r w Hf) as (f' & w' & res & -> & Hlen & Hres); [by intros ->|].
  cbn [mbind option_bind]. destruct res as [[]|e].
  - destruct Hres as (n & Hn & Hf' & Hlog). destruct (IH f' (drop n xs) r w' Hf' Ht) as (?&?&?&?&H1&H2); [len|].
    rewrite Hlog, <- app_assoc, take_drop in H2. by eexists _, _, _, _.
  - destruct Hres as [Hf' Hlog]. eexists _, _, _, _. split; [done|]. exists xs. by rewrite Hlog, Ht, app_nil_r.
Qed.

(** C33: [pump] reaches the end: whenever the reader keeps returning items and
    the writer keeps taking some, it stops after at most twice the number of
    items still to read plus those buffered, with every item written, in order,
    and the buffer empty; and when a callback fails it returns that error with
    no item lost or repeated: what is written, what is buffered and what is
    still to read are the items it started from. *)
Theorem pump_moves_everything fuel f xs r w :
  holds f xs -> 0 < buf_len f -> 2 * length (todo r) + length xs < fuel ->
  pumped (pump POWERS_OF_TWO src_reader dest_writer fuel f r w) (log w ++ xs ++ todo r).
Proof.
  revert f xs r w. induction fuel as [|fuel IH]; intros f xs r w Hf Hb Hfuel; [lia|]. cbn [pump].
  destruct (pump_read_ok f xs r w Hf) as (f1 & r1 & res & -> & Hl1 & Hres). cbn [mbind option_bind].
  destruct res as [[|]|e].
  - destruct Hres as (items & Ht & Hf1 & Hne). rewrite Ht in *.
    assert (0 < length (xs ++ items)) as Hpos.
    { rewrite length_app. destruct (Nat.lt_ge_cases (length xs) (buf_len f)); [|lia]. destruct items; [by destruct Hne|cbn; lia]. }
    destruct (pump_write_ok f1 (xs ++ items) r1 w Hf1) as (f2 & w2 & res & -> & Hl2 & Hres);
      [intros E0; rewrite E0 in Hpos; cbn in Hpos; lia|]. cbn [mbind option_bind]. destruct res as [[]|e].
    + destruct Hres as (n & Hn & Hf2 & Hlog).
      destruct (IH f2 (drop n (xs ++ items)) r1 w2 Hf2) as (?&?&?&?&H1&H2); [lia|len|].
      rewrite Hlog, <- app_assoc, (app_assoc (take n _)), take_drop, <- app_assoc in H2. by eexists _, _, _, _.
    + destruct Hres as [Hf2 Hlog]. eexists _, _, _, _. split; [done|]. exists (xs ++ items).
      by rewrite Hlog, <- !app_assoc.
  - destruct Hres as (Hf1 & Ht & Ht1). rewrite Ht, app_nil_r. apply pump_flush_ok; [done..|lia].
  - destruct Hres as [Hf1 Ht]. eexists _, _, _, _. split; [done|]. exists xs. by rewrite Ht.
Qed.
End Pump.

(** * Witnesses *)

Definition demo_ring : Fifo nat := init_static (replicate 4 None).

Definition demo_ops : list (Op nat) :=
  [OWrite [1; 2; 3]; ORead 2; OWrite [4; 5]; OUnget [9]; OWriteItem 7; ORemove 1; OReadItem].


(** A reader of a list, two items at a time, and a writer of one item at a time. *)
Definition pair_reader (r : list nat) (n : nat) : list nat * Result (list nat) () :=
  (drop (n `min` 2) r, Ok (take (n `min` 2) r)).
Definition single_writer (w : list nat) (s : list (option nat)) : list nat * Result nat () :=
  match s with
  | Some x :: _ => (w ++ [x], Ok 1)
  | _ => (w, Err ())
  end.

#[local] Instance pair_reader_ok : PumpSource pair_reader id.
Proof.
  split; [|done]. intros r n r' items Hn [= <- <-]. unfold id. rewrite take_drop. split; [len|]. split; [done|].
  intros E%(f_equal length). apply nil_length_inv. revert E. rewrite length_take, length_drop. cbn [length]. lia.
Qed.

#[local] Instance single_writer_ok : PumpSink single_writer id.
Proof.
  split; [intros w [|x xs] w' n Hne|intros w [|[x|] s] w' e]; try done; cbn; [|congruence..].
  intros [= <- <-]. split; [lia|]. by rewrite firstn_O || done.
Qed.

Lemma pump_moves_everything_witness :
  pump true pair_reader single_writer 20 demo_ring [1; 2; 3; 4; 5] [] =
    Some ({| buf := [Some 5; Some 2; Some 3; Some 4]; head := 1; count := 0 |}, [], [1; 2; 3; 4; 5], Ok ()) /\
  pumped true id id
    (pump true pair_reader single_writer 20 demo_ring [1; 2; 3; 4; 5] []) [1; 2; 3; 4; 5].
Proof.
  split; [vm_compute; reflexivity|].
  apply (pump_moves_everything true pair_reader single_writer id id 20 _ [] [1; 2; 3; 4; 5] []);
    [apply init_static_holds; right; by exists 2|cbn; lia|cbn; lia].
Defined.
