(* ===== verification/MultiBitSet.v ===== *)
(** src/src/collections/bit_set.rs: the sets of several words, [ArrayBitSet],
    [DynamicBitSetUnmanaged] (with [DynamicBitSet], which forwards to it),
    [DynamicBitSetList] and [AutoBitSet], and the iterator they share.

    An array of masks is a list of words.  A dynamic set is its length and its
    allocation, the word before the masks included.  [None] is an index out of
    bounds, which a raw pointer does not check.  The system allocator is a
    parameter: it may refuse any request. *)
From Stdlib Require Import Sorting.Sorted.
From S2P Require Import Prelude Wyhash BitSet.

(** * What the array and the dynamic sets share *)

(** [num_masks_for]: [bit_length.div_ceil(64)]. *)
Definition num_masks_for (bit_length : Z) : nat :=
  Z.to_nat (if 0 <? bit_length mod BITS then bit_length / BITS + 1 else bit_length / BITS).

(** [usize::MAX >> padding_bits], the valid bits of the last word. *)
Definition last_item_mask (num_masks : nat) (bit_length : Z) : Z :=
  wshr U64_MAX (BITS * Z.of_nat num_masks - bit_length).

(** [masks[num_masks - 1] &= last_item_mask]. *)
Definition mask_last (masks : list Z) (num_masks : nat) (bit_length : Z) : option (list Z) :=
  update_word masks (num_masks - 1) (fun w => Z.land w (last_item_mask num_masks bit_length)).

Definition word_is_set (masks : list Z) (index : Z) : option bool :=
  w ← masks !! word_mask_index index; Some (negb (Z.land w (word_mask_bit index) =? 0)).

Definition word_set_value (masks : list Z) (index : Z) (value : bool) : option (list Z) :=
  let bit := word_mask_bit index in
  let new_bit := Z.land bit (bool_mask_usize value) in
  update_word masks (word_mask_index index) (fun w => Z.lor (Z.land w (wnot bit)) new_bit).

Definition word_set (masks : list Z) (index : Z) : option (list Z) :=
  update_word masks (word_mask_index index) (fun w => Z.lor w (word_mask_bit index)).

Definition word_unset (masks : list Z) (index : Z) : option (list Z) :=
  update_word masks (word_mask_index index) (fun w => Z.land w (wnot (word_mask_bit index))).

Definition word_toggle (masks : list Z) (index : Z) : option (list Z) :=
  update_word masks (word_mask_index index) (fun w => Z.lxor w (word_mask_bit index)).

(** [for mask in masks { total += mask.count_ones() }]. *)
Definition words_count (masks : list Z) : nat := foldr (fun w total => count_ones w + total)%nat O masks.

Fixpoint words_find_first (offset : Z) (masks : list Z) : option Z :=
  match masks with
  | [] => None
  | w :: masks => if w =? 0 then words_find_first (offset + BITS) masks else Some (offset + trailing_zeros w)
  end.

Fixpoint words_toggle_first (offset : Z) (masks : list Z) : list Z * option Z :=
  match masks with
  | [] => ([], None)
  | w :: masks =>
    if w =? 0 then let '(masks, r) := words_toggle_first (offset + BITS) masks in (w :: masks, r)
    else (Z.land w (w - 1) :: masks, Some (offset + trailing_zeros w))
  end.

(** [a.iter().zip(b)] with an early return on a pair satisfying [p]. *)
Definition any_pair (p : Z -> Z -> bool) (a b : list Z) : bool :=
  existsb (fun '(x, y) => p x y) (zip a b).

(** The loop over [a.iter_mut().zip(b)] that applies [f] to each pair. *)
Definition zip_words (f : Z -> Z -> Z) (a b : list Z) : list Z := zip_with f a b ++ drop (length b) a.

(** * [BitSetIterator] *)

Record BitSetIterator := {
  bits_remain : Z; words_remain : list Z; bit_offset : Z; last_word_mask : Z
}.

Section BitSetIterator.
Context (KIND_SET DIR_FWD : bool).
Implicit Types it : BitSetIterator.

Definition next_word (IS_FIRST_WORD : bool) it : option BitSetIterator :=
  let words := words_remain it in
  word ← words !! (if DIR_FWD then O else length words - 1)%nat;
  let word :=
    if KIND_SET then word
    else if (negb DIR_FWD && IS_FIRST_WORD) || (DIR_FWD && (length words =? 1)%nat)
         then Z.land (wnot word) (last_word_mask it) else wnot word in
  Some {| bits_remain := word;
          words_remain := if DIR_FWD then drop 1 words else take (length words - 1) words;
          bit_offset := bit_offset it; last_word_mask := last_word_mask it |}.

Definition bit_set_iterator (masks : list Z) (last_word_mask : Z) : option BitSetIterator :=
  match masks with
  | [] => Some {| bits_remain := 0; words_remain := []; bit_offset := 0; last_word_mask := last_word_mask |}
  | _ =>
    next_word true {| bits_remain := 0; words_remain := masks;
      bit_offset := if DIR_FWD then 0 else Z.of_nat (length masks - 1) * BITS;
      last_word_mask := last_word_mask |}
  end.

(** [while self.bits_remain == 0]: [Some None] is the end of the words. *)
Fixpoint skip_empty_words (fuel : nat) it : option (option BitSetIterator) :=
  if bits_remain it =? 0 then
    match words_remain it, fuel with
    | [], _ => Some None
    | _, O => None
    | _, S fuel =>
      it' ← next_word false it;
      off ← (if DIR_FWD then Some (bit_offset it' + BITS)
             else if BITS <=? bit_offset it' then Some (bit_offset it' - BITS) else None);
      skip_empty_words fuel {| bits_remain := bits_remain it'; words_remain := words_remain it';
        bit_offset := off; last_word_mask := last_word_mask it' |}
    end
  else Some (Some it).

(** [next]: within a word, as the iterator of one word. *)
Definition bit_set_next it : option (option (Z * BitSetIterator)) :=
  r ← skip_empty_words (length (words_remain it)) it;
  match r with
  | None => Some None
  | Some it =>
    '(i, rest) ← iter_next DIR_FWD (bits_remain it);
    Some (Some (i + bit_offset it, {| bits_remain := rest; words_remain := words_remain it;
      bit_offset := bit_offset it; last_word_mask := last_word_mask it |}))
  end.

(** The indices still to come, as a [while let] collects them. *)
Fixpoint bit_set_collect (fuel : nat) it : option (list Z) :=
  r ← bit_set_next it;
  match r, fuel with
  | None, _ => Some []
  | Some _, O => None
  | Some (i, it), S fuel => l ← bit_set_collect fuel it; Some (i :: l)
  end.
End BitSetIterator.

(** * [ArrayBitSet<SIZE, NUM_MASKS>] *)

Module ArrayBitSet.
Section ArrayBitSet.
Context (SIZE : Z) (NUM_MASKS : nat).
Implicit Types masks other toggles : list Z.

Definition LAST_ITEM_MASK : Z := last_item_mask NUM_MASKS SIZE.

Definition init_empty : list Z := replicate NUM_MASKS 0.
Definition init_full : option (list Z) :=
  if (NUM_MASKS =? 0)%nat then Some (replicate NUM_MASKS 0)
  else update_word (replicate NUM_MASKS U64_MAX) (NUM_MASKS - 1) (fun _ => LAST_ITEM_MASK).

Definition is_set masks (index : Z) : option bool :=
  if (NUM_MASKS =? 0)%nat then Some false else word_is_set masks index.
Definition count masks : nat := words_count masks.

Definition set_value masks (index : Z) (value : bool) : option (list Z) :=
  if (NUM_MASKS =? 0)%nat then Some masks else word_set_value masks index value.
Definition set masks (index : Z) : option (list Z) :=
  if (NUM_MASKS =? 0)%nat then Some masks else word_set masks index.
Definition set_range_value masks (range : Range) (value : bool) : option (list Z) :=
  if (NUM_MASKS =? 0)%nat then Some masks else set_range_value_masks masks range value.
Definition unset masks (index : Z) : option (list Z) :=
  if (NUM_MASKS =? 0)%nat then Some masks else word_unset masks index.
Definition toggle masks (index : Z) : option (list Z) :=
  if (NUM_MASKS =? 0)%nat then Some masks else word_toggle masks index.
Definition toggle_set masks toggles : list Z := zip_words Z.lxor masks toggles.

(** The padding bits are zeroed. *)
Definition zero_padding masks : option (list Z) :=
  if (0 <? NUM_MASKS)%nat then mask_last masks NUM_MASKS SIZE else Some masks.

Definition toggle_all masks : option (list Z) := zero_padding (wnot <$> masks).
Definition set_all masks (value : bool) : option (list Z) :=
  zero_padding (replicate (length masks) (if value then U64_MAX else 0)).

Definition set_union masks other : list Z := zip_words Z.lor masks other.
Definition set_intersection masks other : list Z := zip_words Z.land masks other.

Definition find_first_set masks : option Z := words_find_first 0 masks.
Definition toggle_first_set masks : list Z * option Z := words_toggle_first 0 masks.

(** Both arrays have [NUM_MASKS] words. *)
Definition eql masks other : bool := negb (any_pair (fun a b => negb (a =? b)) masks other).
Definition complement masks : option (list Z) := toggle_all masks.
Definition union_with masks other : list Z := set_union masks other.
Definition intersect_with masks other : list Z := set_intersection masks other.
Definition subset_of masks other : bool := eql (intersect_with masks other) masks.
Definition superset_of masks other : bool := subset_of other masks.
Definition has_intersection masks other : bool := any_pair (fun a b => negb (Z.land a b =? 0)) masks other.
Definition xor_with masks other : list Z := toggle_set masks other.
Definition difference_with masks other : option (list Z) :=
  c ← complement other; Some (set_intersection masks c).

Definition iterator (KIND_SET DIR_FWD : bool) masks : option BitSetIterator :=
  bit_set_iterator KIND_SET DIR_FWD masks LAST_ITEM_MASK.
End ArrayBitSet.
End ArrayBitSet.

(** * [DynamicBitSetUnmanaged] *)

Record DynamicBitSetUnmanaged := { bit_length : Z; alloc : list Z }.

(** The system allocator: [Some] block of the size asked for, with the words
    of the old block first ([realloc]; [alloc] is [realloc] of no block). *)
Class Allocator (sys_realloc : list Z -> nat -> option (list Z)) : Prop := {
  sys_realloc_words b n b' : sys_realloc b n = Some b' -> Forall is_u64 b -> Forall is_u64 b';
  sys_realloc_length b n b' : sys_realloc b n = Some b' -> length b' = n;
  sys_realloc_prefix b n b' i : sys_realloc b n = Some b' ->
    (i < n)%nat -> (i < length b)%nat -> b' !! i = b !! i
}.

Module DynamicBitSet.
Section DynamicBitSet.
Context (sys_realloc : list Z -> nat -> option (list Z)).
Implicit Types s other third : DynamicBitSetUnmanaged.

Definition num_masks (bit_length : Z) : nat := num_masks_for bit_length.

(** [EMPTY_MASKS_DATA]: the sentinel has a header of length 0. *)
Definition default : DynamicBitSetUnmanaged := {| bit_length := 0; alloc := [0; 0] |}.

(** The words from the pointer [masks] on, and the first [num_masks] of them. *)
Definition masks_slice s : option (list Z) := slice (alloc s) 1 (1 + num_masks (bit_length s)).

(** A method on [masks_slice_mut()]. *)
Definition on_masks s (f : list Z -> option (list Z)) : option DynamicBitSetUnmanaged :=
  m ← masks_slice s; m' ← f m; a ← copy_from_slice (alloc s) 1 m';
  Some {| bit_length := bit_length s; alloc := a |}.

Definition zip_masks_raw s other (f : Z -> Z -> Z) : option DynamicBitSetUnmanaged :=
  src ← slice (alloc other) 1 (1 + num_masks (bit_length s));
  on_masks s (fun m => Some (zip_with f m src)).

Definition dyn_realloc (base : list Z) (old_len new_len : nat) : Result (list Z) AllocError :=
  if 2 ^ 63 - 1 <? 8 * Z.of_nat new_len then Err OutOfMemory
  else
    match sys_realloc (if (old_len =? 0)%nat then [] else base) new_len with
    | Some p => Ok p
    | None => Err OutOfMemory
    end.

(** The allocation [resize] goes on with: a refusal to shrink keeps the block. *)
Definition resize_alloc s (new_masks : nat) : option (Result (list Z) AllocError) :=
  old_alloc_len ← alloc s !! O;
  let old_alloc_len := Z.to_nat old_alloc_len in
  if (old_alloc_len =? new_masks + 1)%nat then Some (Ok (alloc s))
  else
    match dyn_realloc (alloc s) old_alloc_len (new_masks + 1) with
    | Ok p => p' ← update_word p 0 (fun _ => Z.of_nat new_masks + 1); Some (Ok p')
    | Err e => Some (if (old_alloc_len <? new_masks + 1)%nat then Err e else Ok (alloc s))
    end.

(** New bits get the fill value, padding of the old last word included. *)
Definition fill_new (a : list Z) (old_len new_len : Z) (fill : bool) : option (list Z) :=
  let old_masks := num_masks old_len in
  let new_masks := num_masks new_len in
  if old_len <? new_len then
    a ← (if fill && (0 <? old_masks)%nat
         then update_word a old_masks (fun w => Z.lor w (wnot (last_item_mask old_masks old_len)))
         else Some a);
    if (old_masks <? new_masks)%nat
    then fill_words a (1 + old_masks) (1 + new_masks) (bool_mask_usize fill) else Some a
  else Some a.

Definition resize s (new_len : Z) (fill : bool) : option (DynamicBitSetUnmanaged * Result unit AllocError) :=
  let new_masks := num_masks new_len in
  if (new_masks =? 0)%nat then Some (default, Ok ())
  else
    r ← resize_alloc s new_masks;
    match r with
    | Err e => Some (s, Err e)
    | Ok a =>
      a ← fill_new a (bit_length s) new_len fill;
      a ← (if 0 <? new_len
           then update_word a new_masks (fun w => Z.land w (last_item_mask new_masks new_len)) else Some a);
      Some ({| bit_length := new_len; alloc := a |}, Ok ())
    end.

Definition init (bit_length : Z) (fill : bool) : option (Result DynamicBitSetUnmanaged AllocError) :=
  '(s, r) ← resize default bit_length fill;
  Some (match r with Ok _ => Ok s | Err e => Err e end).
Definition init_empty (bit_length : Z) : option (Result DynamicBitSetUnmanaged AllocError) := init bit_length false.
Definition init_full (bit_length : Z) : option (Result DynamicBitSetUnmanaged AllocError) := init bit_length true.

(** [deinit], also the [Drop]. *)
Definition deinit s : option DynamicBitSetUnmanaged :=
  '(s, r) ← resize s 0 false; match r with Ok _ => Some s | Err _ => None end.

Definition clone s : option (Result DynamicBitSetUnmanaged AllocError) :=
  r ← init_empty (bit_length s);
  match r with
  | Err e => Some (Err e)
  | Ok copy =>
    m ← masks_slice s;
    copy ← on_masks copy (fun m' => if (length m =? length m')%nat then Some m else None);
    Some (Ok copy)
  end.

Definition capacity s : Z := bit_length s.

Definition is_set s (index : Z) : option bool := m ← masks_slice s; word_is_set m index.
Definition is_set_allow_out_of_bound s (index : Z) (out_of_bounds : bool) : option bool :=
  if bit_length s <=? index then Some out_of_bounds else m ← masks_slice s; word_is_set m index.

Definition dyn_bytes s : option bytes := m ← masks_slice s; Some (m ≫= le_encode 8).
Definition count s : option nat := words_count <$> masks_slice s.

Definition has_intersection s other : option bool :=
  a ← masks_slice s; b ← masks_slice other; Some (any_pair (fun a b => negb (Z.land a b =? 0)) a b).

Definition set_value s (index : Z) (value : bool) : option DynamicBitSetUnmanaged :=
  on_masks s (fun m => word_set_value m index value).
Definition set s (index : Z) : option DynamicBitSetUnmanaged := on_masks s (fun m => word_set m index).
Definition set_range_value s (range : Range) (value : bool) : option DynamicBitSetUnmanaged :=
  on_masks s (fun m => set_range_value_masks m range value).
Definition unset s (index : Z) : option DynamicBitSetUnmanaged := on_masks s (fun m => word_unset m index).
Definition toggle s (index : Z) : option DynamicBitSetUnmanaged := on_masks s (fun m => word_toggle m index).

Definition zero_padding s : option DynamicBitSetUnmanaged :=
  on_masks s (fun m => mask_last m (num_masks (bit_length s)) (bit_length s)).

Definition toggle_set s toggles : option DynamicBitSetUnmanaged :=
  if bit_length s =? 0 then Some s else s ← zip_masks_raw s toggles Z.lxor; zero_padding s.
Definition set_all s (value : bool) : option DynamicBitSetUnmanaged :=
  if bit_length s =? 0 then Some s
  else s ← on_masks s (fun m => Some ((fun _ => bool_mask_usize value) <$> m)); zero_padding s.
Definition toggle_all s : option DynamicBitSetUnmanaged :=
  if bit_length s =? 0 then Some s else s ← on_masks s (fun m => Some (wnot <$> m)); zero_padding s.
Definition copy_into s other : option DynamicBitSetUnmanaged :=
  if bit_length s =? 0 then Some s else s ← zip_masks_raw s other (fun _ b => b); zero_padding s.

Definition set_union s other : option DynamicBitSetUnmanaged := zip_masks_raw s other Z.lor.
Definition set_intersection s other : option DynamicBitSetUnmanaged := zip_masks_raw s other Z.land.
Definition set_exclude s other : option DynamicBitSetUnmanaged :=
  zip_masks_raw s other (fun a b => Z.land a (wnot b)).
Definition set_exclude_two s other third : option DynamicBitSetUnmanaged :=
  s ← zip_masks_raw s other (fun a b => Z.land a (wnot b)); zip_masks_raw s third (fun a c => Z.land a (wnot c)).

Definition find_first_set s : option (option Z) := words_find_first 0 <$> masks_slice s.
Definition toggle_first_set s : option (DynamicBitSetUnmanaged * option Z) :=
  m ← masks_slice s;
  s ← on_masks s (fun m => Some (fst (words_toggle_first 0 m)));
  Some (s, snd (words_toggle_first 0 m)).

Definition eql s other : option bool :=
  if negb (bit_length s =? bit_length other) then Some false
  else a ← masks_slice s; b ← masks_slice other; Some (bool_decide (a = b)).
Definition subset_of s other : option bool :=
  if negb (bit_length s =? bit_length other) then Some false
  else a ← masks_slice s; b ← masks_slice other;
       Some (negb (any_pair (fun a b => negb (Z.land a b =? a)) a b)).
Definition superset_of s other : option bool :=
  if negb (bit_length s =? bit_length other) then Some false
  else a ← masks_slice s; b ← masks_slice other;
       Some (negb (any_pair (fun a b => negb (Z.land a b =? b)) a b)).

Definition iterator (KIND_SET DIR_FWD : bool) s : option BitSetIterator :=
  m ← masks_slice s;
  bit_set_iterator KIND_SET DIR_FWD m (last_item_mask (num_masks (bit_length s)) (bit_length s)).

(** [DynamicBitSet::copy_into(&self, other)]: the roles are exchanged. *)
Definition managed_copy_into s other : option DynamicBitSetUnmanaged := copy_into other s.
End DynamicBitSet.
End DynamicBitSet.

(** * [DynamicBitSetList]: equal sets in one buffer *)

Record DynamicBitSetList := { list_buf : list Z; list_n : nat; list_bit_length : Z }.

Module BitSetList.
Definition block (l : DynamicBitSetList) : nat := num_masks_for (list_bit_length l) + 1.

(** The headers are written into a zeroed buffer. *)
Definition init_empty (n : nat) (bit_length : Z) : Result DynamicBitSetList AllocError :=
  let single_bitset_buf_size := (num_masks_for bit_length + 1)%nat in
  let buf_len := (single_bitset_buf_size * n)%nat in
  if 2 ^ 63 - 1 <? 8 * Z.of_nat buf_len then Err OutOfMemory
  else Ok {| list_buf := concat (replicate n (Z.of_nat single_bitset_buf_size :: replicate (num_masks_for bit_length) 0));
             list_n := n; list_bit_length := bit_length |}.

(** A view: its block of the buffer, which [put] writes back. *)
Definition at_ (l : DynamicBitSetList) (i : nat) : option DynamicBitSetUnmanaged :=
  b ← slice (list_buf l) (block l * i) (block l * i + block l);
  Some {| bit_length := list_bit_length l; alloc := b |}.

Definition put (l : DynamicBitSetList) (i : nat) (s : DynamicBitSetUnmanaged) : option DynamicBitSetList :=
  b ← copy_from_slice (list_buf l) (block l * i) (alloc s);
  Some {| list_buf := b; list_n := list_n l; list_bit_length := list_bit_length l |}.

Definition set (l : DynamicBitSetList) (i : nat) (j : Z) : option DynamicBitSetList :=
  s ← at_ l i; s ← DynamicBitSet.set s j; put l i s.

Definition set_union (l : DynamicBitSetList) (i : nat) (other : DynamicBitSetUnmanaged) : option DynamicBitSetList :=
  s ← at_ l i; s ← DynamicBitSet.set_union s other; put l i s.
End BitSetList.

(** * [AutoBitSet] *)

Inductive AutoBitSet :=
| Static (masks : list Z)
| Dynamic (s : DynamicBitSetUnmanaged).

Module Auto.
Section Auto.
Context (sys_realloc : list Z -> nat -> option (list Z)).
Implicit Types a b : AutoBitSet.

(** [size_of::<DynamicBitSetUnmanaged>() * 8 - 1]: a length and a pointer. *)
Definition AUTO_STATIC_BITS : Z := 16 * 8 - 1.
Definition AUTO_STATIC_MASKS : nat := num_masks_for AUTO_STATIC_BITS.

Definition needs_dynamic (bit_length : Z) : bool := AUTO_STATIC_BITS <? bit_length.

Definition init_empty (bit_length : Z) : option (Result AutoBitSet AllocError) :=
  if bit_length <=? AUTO_STATIC_BITS then Some (Ok (Static (ArrayBitSet.init_empty AUTO_STATIC_MASKS)))
  else
    r ← DynamicBitSet.init_empty sys_realloc bit_length;
    Some (match r with Ok d => Ok (Dynamic d) | Err e => Err e end).

Definition is_set a (index : Z) : option bool :=
  match a with
  | Static m => ArrayBitSet.is_set AUTO_STATIC_MASKS m index
  | Dynamic d => DynamicBitSet.is_set d index
  end.

Definition has_intersection a b : option bool :=
  match a, b with
  | Static m, Static m' => Some (ArrayBitSet.has_intersection m m')
  | Dynamic d, Dynamic d' => DynamicBitSet.has_intersection d d'
  | _, _ => Some false
  end.

Definition clone a : option (Result AutoBitSet AllocError) :=
  match a with
  | Static m => Some (Ok (Static m))
  | Dynamic d =>
    r ← DynamicBitSet.clone sys_realloc d;
    Some (match r with Ok d => Ok (Dynamic d) | Err e => Err e end)
  end.

Definition set a (index : Z) : option AutoBitSet :=
  match a with
  | Static m => Static <$> ArrayBitSet.set AUTO_STATIC_MASKS m index
  | Dynamic d => Dynamic <$> DynamicBitSet.set d index
  end.

Definition unset a (index : Z) : option AutoBitSet :=
  match a with
  | Static m => Static <$> ArrayBitSet.unset AUTO_STATIC_MASKS m index
  | Dynamic d => Dynamic <$> DynamicBitSet.unset d index
  end.

Definition raw_bytes a : option bytes :=
  match a with
  | Static m => Some (m ≫= le_encode 8)
  | Dynamic d => DynamicBitSet.dyn_bytes d
  end.

Definition eql a b : option bool :=
  x ← raw_bytes a; y ← raw_bytes b; Some (bool_decide (x = y)).

Definition hash a : option Z := x ← raw_bytes a; Wyhash.hash 0 x.

Definition set_all a (value : bool) : option AutoBitSet :=
  match a with
  | Static m => Static <$> ArrayBitSet.set_all AUTO_STATIC_BITS AUTO_STATIC_MASKS m value
  | Dynamic d => Dynamic <$> DynamicBitSet.set_all d value
  end.

Definition count a : option nat :=
  match a with Static m => Some (ArrayBitSet.count m) | Dynamic d => DynamicBitSet.count d end.

Definition find_first_set a : option (option Z) :=
  match a with Static m => Some (ArrayBitSet.find_first_set m) | Dynamic d => DynamicBitSet.find_first_set d end.

Definition iterator (KIND_SET DIR_FWD : bool) a : option BitSetIterator :=
  match a with
  | Static m => ArrayBitSet.iterator AUTO_STATIC_BITS AUTO_STATIC_MASKS KIND_SET DIR_FWD m
  | Dynamic d => DynamicBitSet.iterator KIND_SET DIR_FWD d
  end.

(** [for_each]: the indices [function] is called with, in order. *)
Definition for_each {Ctx : Type} (fuel : nat) (function : Ctx -> Z -> Ctx) (ctx : Ctx) a : option Ctx :=
  it ← iterator true true a; l ← bit_set_collect true true fuel it; Some (foldl function ctx l).
End Auto.
End Auto.
