(* ===== verification/MultiBitSetSpec.v ===== *)
(** The sets of several words refine finite sets: the operations one by one
    and in sequence, the queries, and the iterator. *)
From Stdlib Require Import Sorting.Sorted.
From S2P Require Import Prelude BitSet MultiBitSet.

(** * Numbers of words *)

Lemma num_masks_spec n : 0 <= n ->
  n <= 64 * Z.of_nat (num_masks_for n) < n + 64.
Proof.
  intros Hn. unfold num_masks_for, BITS. pose proof (Z.div_mod n 64 ltac:(lia)).
  pose proof (Z.mod_pos_bound n 64 ltac:(lia)). pose proof (Z.div_pos n 64 Hn ltac:(lia)).
  destruct (Z.ltb_spec 0 (n mod 64)); lia.
Qed.

Lemma num_masks_0 n : 0 <= n -> num_masks_for n = O <-> n = 0.
Proof. intros Hn. pose proof (num_masks_spec n Hn). lia. Qed.

Lemma bit_last_mask n i : 0 < n -> 0 <= i ->
  Z.testbit (last_item_mask (num_masks_for n) n) i = (64 * (Z.of_nat (num_masks_for n) - 1) + i <? n).
Proof.
  intros Hn Hi. pose proof (num_masks_spec n ltac:(lia)). unfold last_item_mask, BITS.
  rewrite bit_wshr, bit_max by lia. bit_cases.
Qed.

(** * Words of 64 bits *)

Lemma u64_of_bits x : 0 <= x -> (forall i, 64 <= i -> Z.testbit x i = false) -> is_u64 x.
Proof. intros H0 H. split; [done|]. by apply Z.bounded_iff_bits_nonneg. Qed.

Lemma lor_u64 x y : is_u64 x -> is_u64 y -> is_u64 (Z.lor x y).
Proof.
  intros Hx Hy. apply u64_of_bits; [apply Z.lor_nonneg; unfold is_u64 in *; lia|].
  intros i Hi. by rewrite Z.lor_spec, !u64_bits.
Qed.

Lemma lxor_u64 x y : is_u64 x -> is_u64 y -> is_u64 (Z.lxor x y).
Proof.
  intros Hx Hy. apply u64_of_bits; [apply Z.lxor_nonneg; unfold is_u64 in *; lia|].
  intros i Hi. by rewrite Z.lxor_spec, !u64_bits.
Qed.

Lemma wnot_u64 x : is_u64 (wnot x).
Proof. apply trunc64_range. Qed.

Lemma wshl_u64 x n : is_u64 (wshl x n).
Proof. apply trunc64_range. Qed.

Lemma word_mask_bit_u64 i : is_u64 (word_mask_bit i).
Proof. apply wshl_u64. Qed.

Lemma bool_mask_u64 v : is_u64 (bool_mask_usize v).
Proof. destruct v; split; by vm_compute. Qed.

Create HintDb words.
#[export] Hint Resolve land_u64 lor_u64 lxor_u64 wnot_u64 wshl_u64 word_mask_bit_u64 bool_mask_u64 : words.

Lemma bit_word_mask index k : 0 <= index -> 0 <= k -> Z.testbit (word_mask_bit index) k = (k =? index mod 64).
Proof.
  intros Hi Hk. unfold word_mask_bit, wshl, BITS. pose proof (Z.mod_pos_bound index 64 ltac:(lia)).
  rewrite bit_trunc64, Z.shiftl_spec by lia. change 1 with (2 ^ 0). rewrite Z.pow2_bits_eqb by lia. bit_cases.
Qed.

Lemma testbit_land_nonzero w index : 0 <= index ->
  negb (Z.land w (word_mask_bit index) =? 0) = Z.testbit w (index mod 64).
Proof.
  intros Hi. pose proof (Z.mod_pos_bound index 64 ltac:(lia)).
  assert (forall k, 0 <= k -> Z.testbit (Z.land w (word_mask_bit index)) k = Z.testbit w k && (k =? index mod 64)) as Hb.
  { intros k Hk. by rewrite Z.land_spec, bit_word_mask. }
  destruct (Z.testbit w (index mod 64)) eqn:E.
  - apply negb_true_iff, Z.eqb_neq. intros H0. specialize (Hb (index mod 64) ltac:(lia)).
    by rewrite H0, E, Z.eqb_refl, Z.bits_0 in Hb.
  - apply negb_false_iff, Z.eqb_eq, Z.bits_inj'. intros k Hk. rewrite Hb, Z.bits_0 by done.
    destruct (Z.eqb_spec k (index mod 64)) as [->|]; [by rewrite E|apply andb_false_r].
Qed.

(** * Bits of an array of words *)

Lemma bit_word_lt i len : 0 <= i < 64 * Z.of_nat len -> (Z.to_nat (i / 64) < len)%nat.
Proof.
  intros. pose proof (Z.div_mod i 64 ltac:(lia)). pose proof (Z.mod_pos_bound i 64 ltac:(lia)).
  pose proof (Z.div_pos i 64 ltac:(lia) ltac:(lia)). lia.
Qed.

Lemma mbit_word m i : 0 <= i < 64 * Z.of_nat (length m) ->
  exists w, m !! Z.to_nat (i / 64) = Some w /\ mbit m i = Z.testbit w (i mod 64).
Proof.
  intros Hi. destruct (lookup_lt_is_Some_2 m (Z.to_nat (i / 64)) (bit_word_lt _ _ Hi)) as [w Hw].
  exists w. split; [done|]. by apply mbit_lookup.
Qed.

(** Two arrays of words with the same bits are equal. *)
Lemma mbit_ext a b :
  length a = length b -> Forall is_u64 a -> Forall is_u64 b ->
  (forall i, 0 <= i < 64 * Z.of_nat (length a) -> mbit a i = mbit b i) -> a = b.
Proof.
  intros Hl Ha Hb H. apply list_eq_same_length with (n := length a); [done..|].
  intros k x y Hk Hx Hy. rewrite Forall_lookup in Ha, Hb. specialize (Ha _ _ Hx). specialize (Hb _ _ Hy).
  apply Z.bits_inj'. intros j Hj. destruct (Z.lt_ge_cases j 64) as [Hlt|Hge]; [|by rewrite !u64_bits].
  specialize (H (64 * Z.of_nat k + j) ltac:(lia)). revert H. unfold mbit.
  rewrite (Z.mul_comm 64), Z.div_add_l, Z.div_small, Z.add_0_r, Nat2Z.id, Hx, Hy by lia.
  by rewrite Z.add_comm, Z.mod_add, Z.mod_small by lia.
Qed.

Lemma Forall_insert_word (P : Z -> Prop) m k w f :
  Forall P m -> m !! k = Some w -> (P w -> P (f w)) -> Forall P (<[k := f w]> m).
Proof.
  intros Hm Hk Hf. apply Forall_insert; [done|]. apply Hf. rewrite Forall_lookup in Hm. by eapply Hm.
Qed.

Lemma update_word_u64 m k f m' :
  update_word m k f = Some m' -> Forall is_u64 m -> (forall w, is_u64 w -> is_u64 (f w)) -> Forall is_u64 m'.
Proof. unfold update_word. intros (w & Hw & [= <-])%bind_Some Hm Hf. eapply Forall_insert_word; eauto. Qed.

(** The update of one bit of one word. *)
Lemma update_bit_ok m index f (h : bool -> bool) :
  Forall is_u64 m -> 0 <= index < 64 * Z.of_nat (length m) ->
  (forall w, is_u64 w -> is_u64 (f w)) ->
  (forall w k, 0 <= k < 64 -> Z.testbit (f w) k = if k =? index mod 64 then h (Z.testbit w k) else Z.testbit w k) ->
  exists m', update_word m (word_mask_index index) f = Some m' /\ length m' = length m /\ Forall is_u64 m' /\
    forall i, 0 <= i -> mbit m' i = if i =? index then h (mbit m i) else mbit m i.
Proof.
  intros Hm Hi Hf Hb. rewrite word_mask_index_div by lia.
  destruct (update_word_ok m (Z.to_nat (index / 64)) f (bit_word_lt _ _ Hi)) as (m' & Hu & Hl & Hk).
  exists m'. split; [done|]. split; [done|]. split; [by eapply update_word_u64|]. intros i H0.
  pose proof (Z.div_mod i 64 ltac:(lia)). pose proof (Z.mod_pos_bound i 64 ltac:(lia)).
  pose proof (Z.div_mod index 64 ltac:(lia)). pose proof (Z.div_pos i 64 ltac:(lia) ltac:(lia)).
  pose proof (Z.div_pos index 64 ltac:(lia) ltac:(lia)). unfold mbit. rewrite Hk.
  destruct (m !! Z.to_nat (i / 64)) as [w|] eqn:E; cbn [fmap option_fmap option_map].
  - case_decide as Hd; [rewrite Hb by done|unfold id]; destruct (Z.eqb_spec (i mod 64) (index mod 64)), (Z.eqb_spec i index);
      congruence || lia.
  - destruct (Z.eqb_spec i index) as [->|]; [|done]. apply lookup_ge_None in E. pose proof (bit_word_lt _ _ Hi). lia.
Qed.

Lemma mbit_cons w m i : 0 <= i -> mbit (w :: m) i = if i <? 64 then Z.testbit w i else mbit m (i - 64).
Proof.
  intros Hi. unfold mbit. destruct (Z.ltb_spec i 64).
  - rewrite Z.div_small, Z.mod_small by lia. done.
  - assert (i / 64 = 1 + (i - 64) / 64) as -> by (replace i with (1 * 64 + (i - 64)) at 1 by lia; by rewrite Z.div_add_l).
    pose proof (Z.div_pos (i - 64) 64 ltac:(lia) ltac:(lia)). rewrite Z2Nat.inj_add by lia.
    cbn [Z.to_nat Nat.add lookup list_lookup]. replace (Pos.to_nat 1 + Z.to_nat ((i - 64) / 64))%nat with (S (Z.to_nat ((i - 64) / 64))) by lia.
    cbn [lookup list_lookup]. replace (i mod 64) with ((i - 64) mod 64); [done|].
    rewrite <- (Z.mod_add (i - 64) 1 64) by lia. f_equal. lia.
Qed.

Lemma mbit_fmap f (h : bool -> bool) m i :
  (forall w k, 0 <= k < 64 -> Z.testbit (f w) k = h (Z.testbit w k)) ->
  0 <= i < 64 * Z.of_nat (length m) -> mbit (f <$> m) i = h (mbit m i).
Proof.
  intros Hf Hi. destruct (mbit_word m i Hi) as (w & Hw & ->). unfold mbit. rewrite list_lookup_fmap, Hw. cbn.
  apply Hf, Z.mod_pos_bound. lia.
Qed.

Lemma mbit_zip_with f (h : bool -> bool -> bool) a b i :
  (forall x y k, 0 <= k < 64 -> Z.testbit (f x y) k = h (Z.testbit x k) (Z.testbit y k)) ->
  0 <= i < 64 * Z.of_nat (length a) -> length a = length b -> mbit (zip_with f a b) i = h (mbit a i) (mbit b i).
Proof.
  intros Hf Hi Hl. destruct (mbit_word a i Hi) as (x & Hx & ->).
  destruct (mbit_word b i) as (y & Hy & ->); [by rewrite <- Hl|].
  unfold mbit. rewrite lookup_zip_with, Hx, Hy. cbn. apply Hf, Z.mod_pos_bound. lia.
Qed.

Lemma mbit_replicate len w i : 0 <= i < 64 * Z.of_nat len -> mbit (replicate len w) i = Z.testbit w (i mod 64).
Proof. intros Hi. unfold mbit. by rewrite lookup_replicate_2 by by apply bit_word_lt. Qed.

Lemma mask_last_ok n m : 0 < n -> length m = num_masks_for n -> Forall is_u64 m ->
  exists m', mask_last m (num_masks_for n) n = Some m' /\ length m' = length m /\ Forall is_u64 m' /\
    forall i, 0 <= i -> mbit m' i = mbit m i && (i <? n).
Proof.
  intros Hn Hl Hm. pose proof (num_masks_spec n ltac:(lia)) as Hs. unfold mask_last.
  destruct (update_word_ok m (num_masks_for n - 1) (fun w => Z.land w (last_item_mask (num_masks_for n) n)))
    as (m' & Hu & Hl' & Hk); [lia|]. exists m'. split; [done|]. split; [done|].
  split; [eapply update_word_u64; eauto with words|]. intros i Hi.
  pose proof (Z.div_mod i 64 ltac:(lia)). pose proof (Z.mod_pos_bound i 64 ltac:(lia)).
  pose proof (Z.div_pos i 64 ltac:(lia) ltac:(lia)). unfold mbit. rewrite Hk.
  destruct (m !! Z.to_nat (i / 64)) as [w|] eqn:E; cbn [fmap option_fmap option_map]; [|done].
  apply lookup_lt_Some in E. case_decide as Hd; unfold id.
  - rewrite Z.land_spec, bit_last_mask by lia. f_equal. bit_cases.
  - rewrite (proj2 (Z.ltb_lt i n)) by lia. by rewrite andb_true_r.
Qed.

(** * Sets represented by arrays of words *)

(** The words of [n] bits whose bits are given by [P]. *)
Definition rep (n : Z) (m : list Z) (P : Z -> bool) : Prop :=
  length m = num_masks_for n /\ Forall is_u64 m /\ forall i, 0 <= i -> mbit m i = P i && (i <? n).

(** Well-formed: whole words, and no padding bit set. *)
Definition well_formed (n : Z) (m : list Z) : Prop :=
  length m = num_masks_for n /\ Forall is_u64 m /\ forall i, n <= i -> mbit m i = false.

Definition members (n : Z) (m : list Z) : gset Z := list_to_set (filter (fun i => mbit m i = true) (seqZ 0 n)).
Definition universe (n : Z) : gset Z := list_to_set (seqZ 0 n).

Lemma elem_of_members n m i : i ∈ members n m <-> 0 <= i < n /\ mbit m i = true.
Proof. unfold members. rewrite elem_of_list_to_set, list_elem_of_filter, elem_of_seqZ. naive_solver lia. Qed.

Lemma elem_of_universe n i : i ∈ universe n <-> 0 <= i < n.
Proof. unfold universe. rewrite elem_of_list_to_set, elem_of_seqZ. lia. Qed.

Section Rep.
Context (n : Z) (Hn : 0 <= n).
Implicit Types m : list Z.

Lemma rep_well_formed m P : rep n m P -> well_formed n m.
Proof.
  intros (Hl & Hu & Hb). split; [done|]. split; [done|]. intros i Hi. rewrite Hb by lia.
  rewrite (proj2 (Z.ltb_ge i n)) by done. apply andb_false_r.
Qed.

Lemma well_formed_rep m : well_formed n m -> rep n m (mbit m).
Proof.
  intros (Hl & Hu & Hb). split; [done|]. split; [done|]. intros i Hi.
  destruct (Z.ltb_spec i n); [by rewrite andb_true_r|by rewrite Hb].
Qed.

Lemma rep_members m P (S : gset Z) : rep n m P ->
  (forall i, i ∈ S <-> 0 <= i < n /\ P i = true) -> members n m = S.
Proof.
  intros (_ & _ & Hb) HS. apply set_eq. intros i. rewrite elem_of_members, HS.
  split; intros [Hi H]; (split; [done|]); [rewrite Hb in H by lia; by apply andb_true_iff in H as [? _]|].
  rewrite Hb, H by lia. cbn. lia.
Qed.

Lemma rep_bound m P i : rep n m P -> 0 <= i < n -> 0 <= i < 64 * Z.of_nat (length m).
Proof. intros (Hl & _) Hi. pose proof (num_masks_spec n Hn). lia. Qed.

Lemma rep_P m P i : rep n m P -> 0 <= i < n -> mbit m i = P i.
Proof. intros (_ & _ & Hb) Hi. rewrite Hb by lia. rewrite (proj2 (Z.ltb_lt i n)) by lia. apply andb_true_r. Qed.

Lemma rep_update m P index f h :
  rep n m P -> 0 <= index < n -> (forall w, is_u64 w -> is_u64 (f w)) ->
  (forall w k, 0 <= k < 64 -> Z.testbit (f w) k = if k =? index mod 64 then h (Z.testbit w k) else Z.testbit w k) ->
  exists m', update_word m (word_mask_index index) f = Some m' /\
    rep n m' (fun i => if i =? index then h (P i) else P i).
Proof.
  intros Hr Hi Hf Hb. pose proof Hr as (Hl & Hu & Hm).
  destruct (update_bit_ok m index f h Hu (rep_bound _ _ _ Hr Hi) Hf Hb) as (m' & Hup & Hl' & Hu' & Hb').
  exists m'. split; [done|]. split; [lia|]. split; [done|]. intros i H0. rewrite Hb', Hm by done.
  destruct (Z.eqb_spec i index) as [->|]; [|done]. by rewrite (proj2 (Z.ltb_lt _ _)), !andb_true_r by lia.
Qed.

Lemma rep_is_set m P i : rep n m P -> 0 <= i < n -> word_is_set m i = Some (P i).
Proof.
  intros Hr Hi. rewrite <- (rep_P _ _ _ Hr Hi). destruct (mbit_word m i (rep_bound _ _ _ Hr Hi)) as (w & Hw & ->).
  unfold word_is_set. rewrite word_mask_index_div, Hw by lia. cbn. by rewrite testbit_land_nonzero by lia.
Qed.

(** A word-wise map whose padding is cleared. *)
Lemma rep_masked m0 m P (h : bool -> bool) : rep n m0 P -> 0 < n -> length m = length m0 -> Forall is_u64 m ->
  (forall i, 0 <= i < n -> mbit m i = h (P i)) ->
  exists m', mask_last m (num_masks_for n) n = Some m' /\ rep n m' (fun i => h (P i)).
Proof.
  intros (Hl & _ & _) H0 Hlm Hu Hb. destruct (mask_last_ok n m H0 ltac:(lia) Hu) as (m' & Hm' & Hl' & Hu' & Hb').
  exists m'. split; [done|]. split; [lia|]. split; [done|]. intros i Hi. rewrite Hb' by done.
  destruct (Z.ltb_spec i n); [by rewrite Hb|by rewrite !andb_false_r].
Qed.

Lemma rep_zip a b P Q f (h : bool -> bool -> bool) : rep n a P -> rep n b Q ->
  (forall x y, is_u64 x -> is_u64 y -> is_u64 (f x y)) ->
  (forall x y k, 0 <= k < 64 -> Z.testbit (f x y) k = h (Z.testbit x k) (Z.testbit y k)) ->
  h false false = false -> rep n (zip_with f a b) (fun i => h (P i) (Q i)).
Proof.
  intros Ha Hb Hf Hbits Hh. pose proof Ha as (Hla & Hua & HP). pose proof Hb as (Hlb & Hub & HQ).
  assert (length (zip_with f a b) = length a) as Hl by (rewrite length_zip_with; lia).
  split; [lia|]. split.
  - apply Forall_lookup. intros k z Hk. rewrite lookup_zip_with in Hk.
    apply bind_Some in Hk as (x & Hx & (y & Hy & [= <-])%bind_Some). rewrite Forall_lookup in Hua, Hub. eauto.
  - intros i Hi. destruct (Z.lt_ge_cases i (64 * Z.of_nat (length a))) as [Hlt|Hge].
    + rewrite (mbit_zip_with f h), HP, HQ by (done || lia). destruct (i <? n); by rewrite ?andb_true_r, ?andb_false_r.
    + rewrite mbit_out by lia. pose proof (num_masks_spec n Hn). rewrite (proj2 (Z.ltb_ge i n)) by lia. by rewrite andb_false_r.
Qed.

Lemma zip_words_zip f a b : length a = length b -> zip_words f a b = zip_with f a b.
Proof. intros H. unfold zip_words. rewrite drop_ge by lia. apply app_nil_r. Qed.

Lemma rep_const w : is_u64 w -> 0 < n ->
  exists m, mask_last (replicate (num_masks_for n) w) (num_masks_for n) n = Some m /\
    rep n m (fun i => Z.testbit w (i mod 64)).
Proof.
  intros Hw H0. destruct (mask_last_ok n (replicate (num_masks_for n) w) H0) as (m & Hm & Hl & Hu & Hb);
    [len|by apply Forall_replicate|]. exists m. split; [done|]. split; [len|]. split; [done|].
  intros i Hi. rewrite Hb by done. destruct (Z.ltb_spec i n); [|by rewrite !andb_false_r].
  pose proof (num_masks_spec n Hn). by rewrite mbit_replicate by lia.
Qed.
End Rep.

(** * Ranges and searches *)

Lemma fill_words_u64 m i j w m' : fill_words m i j w = Some m' -> Forall is_u64 m -> is_u64 w -> Forall is_u64 m'.
Proof.
  unfold fill_words. case_decide; [|done]. intros [= <-] Hm Hw.
  apply Forall_app; split; [by apply Forall_take|]. apply Forall_app; split; [by apply Forall_replicate|by apply Forall_drop].
Qed.

Lemma set_range_value_masks_u64 m r v m' :
  set_range_value_masks m r v = Some m' -> Forall is_u64 m -> Forall is_u64 m'.
Proof.
  unfold set_range_value_masks. intros H Hm. destruct (start r =? end_ r); [by injection H as <-|].
  assert (forall k, is_u64 (wshr (bool_mask_usize v) k)) as Hshr.
  { intros k. pose proof (Z.mod_pos_bound k 64 ltac:(lia)). apply u64_of_bits.
    - apply Z.shiftr_nonneg. by destruct v.
    - intros i Hi. unfold wshr, BITS. rewrite Z.shiftr_spec, bit_bool_mask by lia. destruct v; [|done].
      rewrite (proj2 (Z.ltb_ge _ _)) by lia. apply andb_false_r. }
  case_match.
  - apply bind_Some in H as (m1 & H1 & H2). eapply update_word_u64; [exact H2|eapply update_word_u64; [exact H1|done|]|];
      eauto with words.
  - apply bind_Some in H as ([m1 b] & H1 & H2). apply bind_Some in H2 as (m2 & H2 & H3).
    assert (Forall is_u64 m1) as Hm1.
    { destruct (0 <? Z.land (start r) (BITS - 1)); [|by injection H1 as <- <-]. apply bind_Some in H1 as (x & H1 & [= <- <-]).
      eapply update_word_u64; eauto with words. }
    assert (Forall is_u64 m2) as Hm2 by (eapply fill_words_u64; eauto with words).
    destruct (0 <? Z.land (end_ r) (BITS - 1)); [eapply update_word_u64; eauto with words|by injection H3 as <-].
Qed.

Lemma rep_range n m P r v : 0 <= n -> rep n m P -> 0 <= start r <= end_ r -> end_ r <= n ->
  exists m', set_range_value_masks m r v = Some m' /\
    rep n m' (fun i => if (start r <=? i) && (i <? end_ r) then v else P i).
Proof.
  intros Hn (Hl & Hu & Hb) Hr He. pose proof (num_masks_spec n Hn).
  destruct (set_range_value_masks_bits m r v Hr) as (m' & Hm' & Hl' & Hb'); [lia|]. exists m'. split; [done|].
  split; [lia|]. split; [by eapply set_range_value_masks_u64|]. intros i Hi. rewrite Hb', Hb by done.
  destruct ((start r <=? i) && (i <? end_ r)) eqn:E; [|done]. rewrite (proj2 (Z.ltb_lt i n)) by lia. by rewrite andb_true_r.
Qed.

Lemma words_find_toggle off m : words_find_first off m = snd (words_toggle_first off m).
Proof.
  revert off. induction m as [|w m IH]; intros off; cbn; [done|]. destruct (w =? 0); [|done].
  rewrite IH. by destruct (words_toggle_first (off + BITS) m).
Qed.

Lemma words_toggle_first_ok m : Forall is_u64 m -> forall off,
  let '(m', r) := words_toggle_first off m in
  length m' = length m /\ Forall is_u64 m' /\
  match r with
  | None => m' = m /\ forall i, 0 <= i -> mbit m i = false
  | Some k => let j := k - off in 0 <= j < 64 * Z.of_nat (length m) /\ mbit m j = true /\
      (forall i, 0 <= i < j -> mbit m i = false) /\ forall i, 0 <= i -> mbit m' i = mbit m i && negb (i =? j)
  end.
Proof.
  induction 1 as [|w m Hw Hm IH]; intros off; cbn [words_toggle_first].
  { split; [done|]. split; [constructor|]. done. }
  destruct (Z.eqb_spec w 0) as [->|Hne].
  - specialize (IH (off + BITS)). destruct (words_toggle_first (off + BITS) m) as [m' r].
    destruct IH as (Hl & Hu & Hr). split; [cbn; lia|]. split; [by constructor|]. unfold BITS in Hr. destruct r as [k|].
    + cbn zeta in *. destruct Hr as (Hk & Hb & Hlow & Hm'). cbn [length]. split; [lia|].
      split; [rewrite mbit_cons, (proj2 (Z.ltb_ge _ _)) by lia; rewrite <- Hb; f_equal; lia|]. split.
      * intros i Hi. rewrite mbit_cons by lia. destruct (Z.ltb_spec i 64); [apply Z.bits_0|apply Hlow; lia].
      * intros i Hi. rewrite !mbit_cons by lia. destruct (Z.ltb_spec i 64); [by rewrite Z.bits_0|].
        rewrite Hm' by lia. f_equal. f_equal. destruct (Z.eqb_spec (i - 64) (k - (off + 64))), (Z.eqb_spec i (k - off)); lia.
    + destruct Hr as [-> Hz]. split; [done|]. intros i Hi. rewrite mbit_cons by lia.
      destruct (Z.ltb_spec i 64); [apply Z.bits_0|apply Hz; lia].
  - destruct (trailing_zeros_spec w Hw Hne) as (Ht & Hb & Hlow).
    split; [done|]. split; [constructor; [by apply land_u64|done]|]. cbn zeta. cbn [length].
    replace (off + trailing_zeros w - off) with (trailing_zeros w) by lia.
    split; [lia|]. split; [by rewrite mbit_cons, (proj2 (Z.ltb_lt _ _)) by lia|]. split.
    + intros i Hi. rewrite mbit_cons, (proj2 (Z.ltb_lt _ _)) by lia. by apply Hlow.
    + intros i Hi. rewrite !mbit_cons by lia. destruct (Z.ltb_spec i 64); [by apply clear_lowest; auto; lia|].
      rewrite (proj2 (Z.eqb_neq _ _)) by lia. by rewrite andb_true_r.
Qed.

(** The least element, as the word scan finds it. *)
Definition least (S : gset Z) (k : Z) : Prop := k ∈ S /\ set_Forall (Z.le k) S.

#[export] Instance least_dec S k : Decision (least S k).
Proof. unfold least. apply _. Defined.

Lemma rep_toggle_first n m P : 0 <= n -> rep n m P ->
  let '(m', r) := words_toggle_first 0 m in
  rep n m' (fun i => P i && negb (bool_decide (least (members n m) i))) /\
  match r with None => members n m = ∅ | Some k => least (members n m) k end.
Proof.
  intros Hn Hr. pose proof Hr as (Hl & Hu & Hb). pose proof (words_toggle_first_ok m Hu 0) as Ht.
  destruct (words_toggle_first 0 m) as [m' [k|]]; destruct Ht as (Hl' & Hu' & Hk); cbn zeta in *.
  - rewrite Z.sub_0_r in Hk. destruct Hk as (Hk0 & Hkb & Hlow & Hm').
    assert (least (members n m) k) as Hleast.
    { split; [|intros j [Hj Hbj]%elem_of_members].
      - apply elem_of_members. split; [|done]. rewrite Hb in Hkb by lia. apply andb_true_iff in Hkb as [_ ?]. lia.
      - destruct (Z.le_gt_cases k j); [done|]. by rewrite Hlow in Hbj by lia. }
    split; [|done]. split; [lia|]. split; [done|]. intros i Hi. rewrite Hm', Hb by done.
    assert (bool_decide (least (members n m) i) = (i =? k)) as ->; [|by rewrite <- !andb_assoc, (andb_comm (i <? n))].
    destruct (Z.eqb_spec i k) as [->|Hne]; [by apply bool_decide_eq_true_2|]. apply bool_decide_eq_false_2.
    intros [Hi1 Hi2]. destruct Hleast as [Hk1 Hk2]. specialize (Hi2 _ Hk1). specialize (Hk2 _ Hi1). lia.
  - destruct Hk as [-> Hz]. assert (members n m = ∅) as He.
    { apply set_eq. intros i. rewrite elem_of_members. split; [intros [Hi H]; by rewrite Hz in H by lia|by intros ?%not_elem_of_empty]. }
    split; [|done]. split; [done|]. split; [done|]. intros i Hi. rewrite Hz by done. symmetry.
    specialize (Hb i Hi). rewrite Hz in Hb by done. destruct (P i), (i <? n); try done. by rewrite andb_false_r.
Qed.

(** * Operations of finite sets *)

Inductive BitOp (T : Type) :=
| OSet (i : Z) | OUnset (i : Z) | OToggle (i : Z) | OSetValue (i : Z) (v : bool)
| OSetRange (r : Range) (v : bool) | OToggleAll | OSetAll (v : bool) | OToggleFirst
| OUnion (o : T) | OIntersection (o : T) | OToggleSet (o : T) | OExclude (o : T).
Arguments OSet {_}. Arguments OUnset {_}. Arguments OToggle {_}. Arguments OSetValue {_}.
Arguments OSetRange {_}. Arguments OToggleAll {_}. Arguments OSetAll {_}. Arguments OToggleFirst {_}.
Arguments OUnion {_}. Arguments OIntersection {_}. Arguments OToggleSet {_}. Arguments OExclude {_}.

Definition bit_op_map {T U} (f : T -> U) (o : BitOp T) : BitOp U :=
  match o with
  | OSet i => OSet i | OUnset i => OUnset i | OToggle i => OToggle i | OSetValue i v => OSetValue i v
  | OSetRange r v => OSetRange r v | OToggleAll => OToggleAll | OSetAll v => OSetAll v | OToggleFirst => OToggleFirst
  | OUnion t => OUnion (f t) | OIntersection t => OIntersection (f t)
  | OToggleSet t => OToggleSet (f t) | OExclude t => OExclude (f t)
  end.

Definition range_set (r : Range) : gset Z := list_to_set (seqZ (start r) (end_ r - start r)).

(** What an operation means for a subset of [universe n]. *)
Definition model_op (n : Z) (S : gset Z) (o : BitOp (gset Z)) : gset Z :=
  match o with
  | OSet i => {[i]} ∪ S
  | OUnset i => S ∖ {[i]}
  | OToggle i => if decide (i ∈ S) then S ∖ {[i]} else {[i]} ∪ S
  | OSetValue i v => if v then {[i]} ∪ S else S ∖ {[i]}
  | OSetRange r v => if v then range_set r ∪ S else S ∖ range_set r
  | OToggleAll => universe n ∖ S
  | OSetAll v => if v then universe n else ∅
  | OToggleFirst => filter (fun i => ~ least S i) S
  | OUnion T => S ∪ T
  | OIntersection T => S ∩ T
  | OToggleSet T => (S ∖ T) ∪ (T ∖ S)
  | OExclude T => S ∖ T
  end.

(** The preconditions: indices in range, operands of the same length. *)
Definition legal_op {T} (size : T -> Z) (valid : T -> Prop) (n : Z) (o : BitOp T) : Prop :=
  match o with
  | OSet i | OUnset i | OToggle i | OSetValue i _ => 0 <= i < n
  | OSetRange r _ => 0 <= start r <= end_ r /\ end_ r <= n
  | OToggleAll | OSetAll _ | OToggleFirst => True
  | OUnion t | OIntersection t | OToggleSet t | OExclude t => valid t /\ size t = n
  end.

(** The interface: a type of bit sets is operations on values that have a
    length and elements; its law is that they are those of finite sets. *)
Class BitSetOps (T : Type) := {
  size_of : T -> Z;
  elems : T -> gset Z;
  valid : T -> Prop;
  apply_op : T -> BitOp T -> option T
}.

Class BitSetLaws (T : Type) `{BitSetOps T} : Prop := {
  apply_op_ok s o : valid s -> legal_op size_of valid (size_of s) o ->
    exists s', apply_op s o = Some s' /\ valid s' /\ size_of s' = size_of s /\
      elems s' = model_op (size_of s) (elems s) (bit_op_map elems o)
}.

Fixpoint apply_ops `{BitSetOps T} (s : T) (ops : list (BitOp T)) : option T :=
  match ops with
  | [] => Some s
  | o :: ops => s ← apply_op s o; apply_ops s ops
  end.

(** Sequences of operations, for any implementation of the interface. *)
Lemma apply_ops_ok `{BitSetLaws T} (ops : list (BitOp T)) : forall s,
  valid s -> Forall (legal_op size_of valid (size_of s)) ops ->
  exists s', apply_ops s ops = Some s' /\ valid s' /\ size_of s' = size_of s /\
    elems s' = foldl (model_op (size_of s)) (elems s) (bit_op_map elems <$> ops).
Proof.
  induction ops as [|o ops IH]; intros s Hs Hops; cbn [apply_ops]; [by exists s|].
  inversion Hops as [|?? Ho Hrest]; subst.
  destruct (apply_op_ok s o Hs Ho) as (s1 & -> & Hs1 & Hn1 & He1). cbn [mbind option_bind].
  destruct (IH s1 Hs1) as (s' & -> & Hs' & Hn' & He'); [by rewrite Hn1|].
  exists s'. rewrite Hn1 in *. rewrite He1 in He'. done.
Qed.

(** * The operations on words *)

Definition words_op (n : Z) (m : list Z) (o : BitOp (list Z)) : option (list Z) :=
  match o with
  | OSet i => word_set m i
  | OUnset i => word_unset m i
  | OToggle i => word_toggle m i
  | OSetValue i v => word_set_value m i v
  | OSetRange r v => set_range_value_masks m r v
  | OToggleAll => if n =? 0 then Some m else mask_last (wnot <$> m) (num_masks_for n) n
  | OSetAll v =>
    if n =? 0 then Some m else mask_last (replicate (num_masks_for n) (bool_mask_usize v)) (num_masks_for n) n
  | OToggleFirst => Some (fst (words_toggle_first 0 m))
  | OUnion o => Some (zip_with Z.lor m o)
  | OIntersection o => Some (zip_with Z.land m o)
  | OToggleSet o => Some (zip_with Z.lxor m o)
  | OExclude o => Some (zip_with (fun a b => Z.land a (wnot b)) m o)
  end.

(** The bits an operation leaves, from those of the set and of the operand. *)
Definition bit_after (n : Z) (m : list Z) (o : BitOp (list Z)) (i : Z) : bool :=
  match o with
  | OSet j => if i =? j then true else mbit m i
  | OUnset j => if i =? j then false else mbit m i
  | OToggle j => if i =? j then negb (mbit m i) else mbit m i
  | OSetValue j v => if i =? j then v else mbit m i
  | OSetRange r v => if (start r <=? i) && (i <? end_ r) then v else mbit m i
  | OToggleAll => negb (mbit m i)
  | OSetAll v => v
  | OToggleFirst => mbit m i && negb (bool_decide (least (members n m) i))
  | OUnion o => mbit m i || mbit o i
  | OIntersection o => mbit m i && mbit o i
  | OToggleSet o => xorb (mbit m i) (mbit o i)
  | OExclude o => mbit m i && negb (mbit o i)
  end.

(** The bit of one word an update changes, in the form [rep_update] wants. *)
Ltac word_bit i :=
  let w := fresh "w" in let k := fresh "k" in let Hk := fresh "Hk" in
  intros w k Hk; rewrite ?Z.lor_spec, ?Z.land_spec, ?Z.lxor_spec, ?bit_wnot, ?bit_bool_mask, ?bit_word_mask by lia;
  rewrite ?(proj2 (Z.ltb_lt k 64)), ?(proj2 (Z.leb_le 0 k)) by lia;
  destruct (k =? i mod 64), (Z.testbit w k); try done.

(** Bits of a word-wise combination. *)
Ltac zip_bits :=
  let k := fresh "k" in let Hk := fresh "Hk" in
  intros ?? k Hk; rewrite ?Z.lor_spec, ?Z.land_spec, ?Z.lxor_spec, ?bit_wnot by lia;
  rewrite ?(proj2 (Z.ltb_lt k 64)) by lia; done.

Lemma rep_0 m P Q : rep 0 m P -> rep 0 m Q.
Proof.
  intros (Hl & Hu & Hb). split; [done|]. split; [done|]. intros i Hi. rewrite Hb by done.
  rewrite (proj2 (Z.ltb_ge i 0)) by lia. by rewrite !andb_false_r.
Qed.

Lemma rep_ext n m P Q : (forall i, 0 <= i < n -> P i = Q i) -> rep n m P -> rep n m Q.
Proof.
  intros H (Hl & Hu & Hb). split; [done|]. split; [done|]. intros i Hi. rewrite Hb by done.
  destruct (Z.ltb_spec i n); [by rewrite H|by rewrite !andb_false_r].
Qed.

Lemma words_op_rep n m o : 0 <= n -> well_formed n m -> legal_op (fun _ => n) (well_formed n) n o ->
  exists m', words_op n m o = Some m' /\ rep n m' (bit_after n m o).
Proof.
  intros Hn Hm Ho. apply well_formed_rep in Hm as Hr. pose proof Hr as (Hl & Hu & _).
  assert (forall b, well_formed n b -> rep n b (mbit b)) as Hop by (intros; by apply well_formed_rep).
  destruct o as [i|i|i|i v|r v| |v| |b|b|b|b]; cbn [legal_op] in Ho; cbn [words_op].
  - eapply (rep_update n Hn _ _ _ _ (fun _ => true)); [done|done|auto with words|word_bit i].
  - eapply (rep_update n Hn _ _ _ _ (fun _ => false)); [done|done|auto with words|word_bit i].
  - eapply (rep_update n Hn _ _ _ _ negb); [done|done|auto with words|word_bit i].
  - eapply (rep_update n Hn _ _ _ _ (fun _ => v)); [done|done|auto with words|word_bit i; by destruct v].
  - destruct Ho. by apply rep_range.
  - destruct (Z.eqb_spec n 0) as [->|Hne]; [eexists; split; [done|by eapply rep_0]|].
    eapply (rep_masked n m _ _ negb Hr); [lia|by rewrite length_fmap|apply Forall_fmap, Forall_true; intros; apply wnot_u64|].
    intros i Hi. apply mbit_fmap; [|pose proof (num_masks_spec n Hn); lia].
    intros w k Hk. rewrite bit_wnot by lia. by rewrite (proj2 (Z.ltb_lt k 64)) by lia.
  - destruct (Z.eqb_spec n 0) as [->|Hne]; [eexists; split; [done|by eapply rep_0]|].
    destruct (rep_const n Hn (bool_mask_usize v)) as (m' & -> & Hr'); [apply bool_mask_u64|lia|].
    eexists. split; [done|]. eapply rep_ext; [|done]. intros i Hi. cbn. pose proof (Z.mod_pos_bound i 64 ltac:(lia)).
    rewrite bit_bool_mask. rewrite (proj2 (Z.leb_le _ _)), (proj2 (Z.ltb_lt _ _)) by lia. by rewrite !andb_true_r.
  - eexists. split; [done|]. pose proof (rep_toggle_first n m _ Hn Hr) as Ht.
    destruct (words_toggle_first 0 m). apply Ht.
  - eexists. split; [done|]. apply (rep_zip n Hn _ _ _ _ _ orb); [done|by apply Hop, Ho|auto with words|zip_bits|done].
  - eexists. split; [done|]. apply (rep_zip n Hn _ _ _ _ _ andb); [done|by apply Hop, Ho|auto with words|zip_bits|done].
  - eexists. split; [done|]. apply (rep_zip n Hn _ _ _ _ _ xorb); [done|by apply Hop, Ho|auto with words|zip_bits|done].
  - eexists. split; [done|]. apply (rep_zip n Hn _ _ _ _ _ (fun x y => x && negb y)); [done|by apply Hop, Ho|auto with words|zip_bits|done].
Qed.

Lemma bit_after_model n m o i :
  legal_op (fun _ => n) (well_formed n) n o ->
  i ∈ model_op n (members n m) (bit_op_map (members n) o) <-> 0 <= i < n /\ bit_after n m o i = true.
Proof.
  intros Ho. destruct o as [j|j|j|j v|r v| |v| |b|b|b|b]; cbn [legal_op] in Ho; cbn [bit_op_map model_op bit_after].
  - rewrite elem_of_union, elem_of_singleton, elem_of_members. destruct (Z.eqb_spec i j); naive_solver lia.
  - rewrite elem_of_difference, elem_of_singleton, elem_of_members. destruct (Z.eqb_spec i j); naive_solver lia.
  - case_decide as Hj; rewrite ?elem_of_difference, ?elem_of_union, ?elem_of_singleton, elem_of_members in *;
      destruct (Z.eqb_spec i j) as [->|]; destruct (mbit m j); naive_solver lia.
  - destruct v; rewrite ?elem_of_difference, ?elem_of_union, ?elem_of_singleton, elem_of_members;
      destruct (Z.eqb_spec i j); naive_solver lia.
  - assert (i ∈ range_set r <-> (start r <=? i) && (i <? end_ r) = true) as Hr.
    { unfold range_set. rewrite elem_of_list_to_set, elem_of_seqZ. split; intros; bool_prop; lia. }
    destruct v; rewrite ?elem_of_difference, ?elem_of_union, elem_of_members, Hr;
      destruct ((start r <=? i) && (i <? end_ r)) eqn:E; bool_prop; naive_solver lia.
  - rewrite elem_of_difference, elem_of_universe, elem_of_members. destruct (mbit m i); naive_solver.
  - destruct v; rewrite ?elem_of_universe; [tauto|]. split; [by intros ?%not_elem_of_empty|by intros []].
  - rewrite elem_of_filter, elem_of_members, andb_true_iff, negb_true_iff, bool_decide_eq_false. tauto.
  - rewrite elem_of_union, !elem_of_members, orb_true_iff. tauto.
  - rewrite elem_of_intersection, !elem_of_members, andb_true_iff. tauto.
  - rewrite elem_of_union, !elem_of_difference, !elem_of_members. destruct (mbit m i), (mbit b i); naive_solver.
  - rewrite elem_of_difference, !elem_of_members. destruct (mbit m i), (mbit b i); naive_solver.
Qed.

(** The operations on words are those of finite sets. *)
Lemma words_op_ok n m o : 0 <= n -> well_formed n m -> legal_op (fun _ => n) (well_formed n) n o ->
  exists m', words_op n m o = Some m' /\ well_formed n m' /\
    members n m' = model_op n (members n m) (bit_op_map (members n) o).
Proof.
  intros Hn Hm Ho. destruct (words_op_rep n m o Hn Hm Ho) as (m' & Hm' & Hr). exists m'. split; [done|].
  split; [by eapply rep_well_formed|]. eapply rep_members; [done|]. intros i. by apply bit_after_model.
Qed.

(** * [ArrayBitSet] *)

Definition array_apply (SIZE : Z) (m : list Z) (o : BitOp (list Z)) : option (list Z) :=
  let NUM := num_masks_for SIZE in
  match o with
  | OSet i => ArrayBitSet.set NUM m i
  | OUnset i => ArrayBitSet.unset NUM m i
  | OToggle i => ArrayBitSet.toggle NUM m i
  | OSetValue i v => ArrayBitSet.set_value NUM m i v
  | OSetRange r v => ArrayBitSet.set_range_value NUM m r v
  | OToggleAll => ArrayBitSet.toggle_all SIZE NUM m
  | OSetAll v => ArrayBitSet.set_all SIZE NUM m v
  | OToggleFirst => Some (fst (ArrayBitSet.toggle_first_set m))
  | OUnion o => Some (ArrayBitSet.set_union m o)
  | OIntersection o => Some (ArrayBitSet.set_intersection m o)
  | OToggleSet o => Some (ArrayBitSet.toggle_set m o)
  | OExclude o => ArrayBitSet.difference_with SIZE NUM m o
  end.

Section Array.
Context (SIZE : Z) (HSIZE : 0 <= SIZE).

#[local] Instance array_ops : BitSetOps (list Z) :=
  {| size_of := fun _ => SIZE; elems := members SIZE; valid := well_formed SIZE; apply_op := array_apply SIZE |}.

Lemma zero_padding_words m n : n = SIZE -> ArrayBitSet.zero_padding SIZE (num_masks_for SIZE) m =
  if n =? 0 then Some m else mask_last m (num_masks_for SIZE) SIZE.
Proof.
  intros ->. unfold ArrayBitSet.zero_padding. pose proof (num_masks_0 SIZE HSIZE).
  destruct (Nat.ltb_spec 0 (num_masks_for SIZE)), (Z.eqb_spec SIZE 0); done || lia.
Qed.

(** The complement, then the intersection, is the difference of words. *)
Lemma difference_words m o : well_formed SIZE m -> well_formed SIZE o ->
  ArrayBitSet.difference_with SIZE (num_masks_for SIZE) m o = Some (zip_with (fun a b => Z.land a (wnot b)) m o).
Proof.
  intros Hm Ho. unfold ArrayBitSet.difference_with, ArrayBitSet.complement, ArrayBitSet.toggle_all.
  rewrite (zero_padding_words _ SIZE) by done.
  destruct (words_op_rep SIZE o OToggleAll HSIZE Ho I) as (c & Hc & Hrc). cbn [words_op bit_after] in Hc, Hrc.
  assert ((if SIZE =? 0 then Some (wnot <$> o) else mask_last (wnot <$> o) (num_masks_for SIZE) SIZE) = Some c) as ->.
  { destruct (Z.eqb_spec SIZE 0) as [E|]; [|done]. injection Hc as <-. destruct Ho as (Hl & _).
    rewrite (proj2 (num_masks_0 SIZE HSIZE) E) in Hl. by apply nil_length_inv in Hl as ->. }
  cbn [mbind option_bind]. unfold ArrayBitSet.set_intersection.
  rewrite zip_words_zip by (rewrite (proj1 Hm), (proj1 Hrc); done). f_equal.
  apply well_formed_rep in Hm as Hrm. apply well_formed_rep in Ho as Hro.
  assert (rep SIZE (zip_with Z.land m c) (fun i => mbit m i && negb (mbit o i))) as H1
    by (apply (rep_zip SIZE HSIZE m c _ _ Z.land andb Hrm Hrc); [auto with words|zip_bits|done]).
  assert (rep SIZE (zip_with (fun a b => Z.land a (wnot b)) m o) (fun i => mbit m i && negb (mbit o i))) as H2
    by (apply (rep_zip SIZE HSIZE m o _ _ _ (fun x y => x && negb y) Hrm Hro); [auto with words|zip_bits|done]).
  apply mbit_ext; [rewrite (proj1 H1), (proj1 H2); done|apply H1|apply H2|]. intros i Hi.
  by rewrite (proj2 (proj2 H1)), (proj2 (proj2 H2)) by lia.
Qed.

Lemma array_apply_words m o : well_formed SIZE m -> legal_op (fun _ => SIZE) (well_formed SIZE) SIZE o ->
  array_apply SIZE m o = words_op SIZE m o.
Proof.
  intros Hm Ho. pose proof (num_masks_0 SIZE HSIZE) as H0. pose proof Hm as (Hl & _).
  destruct o as [i|i|i|i v|r v| |v| |b|b|b|b]; cbn [legal_op array_apply words_op] in *;
    unfold ArrayBitSet.set, ArrayBitSet.unset, ArrayBitSet.toggle, ArrayBitSet.set_value,
      ArrayBitSet.set_range_value, ArrayBitSet.toggle_all, ArrayBitSet.set_all; try done.
  - destruct (Nat.eqb_spec (num_masks_for SIZE) 0); [lia|done].
  - destruct (Nat.eqb_spec (num_masks_for SIZE) 0); [lia|done].
  - destruct (Nat.eqb_spec (num_masks_for SIZE) 0); [lia|done].
  - destruct (Nat.eqb_spec (num_masks_for SIZE) 0); [lia|done].
  - destruct (Nat.eqb_spec (num_masks_for SIZE) 0); [|done]. unfold set_range_value_masks.
    by rewrite (proj2 (Z.eqb_eq _ _)) by lia.
  - rewrite (zero_padding_words _ SIZE) by done. destruct (Z.eqb_spec SIZE 0); [|done].
    assert (m = []) as -> by (apply nil_length_inv; lia). done.
  - rewrite (zero_padding_words _ SIZE), Hl by done. destruct (Z.eqb_spec SIZE 0); [|by destruct v].
    assert (m = []) as -> by (apply nil_length_inv; lia). by rewrite (proj2 H0).
  - destruct Ho as [Hb _]. f_equal. apply zip_words_zip. by rewrite Hl, (proj1 Hb).
  - destruct Ho as [Hb _]. f_equal. apply zip_words_zip. by rewrite Hl, (proj1 Hb).
  - destruct Ho as [Hb _]. f_equal. apply zip_words_zip. by rewrite Hl, (proj1 Hb).
  - destruct Ho as [Hb _]. by apply difference_words.
Qed.

#[local] Instance array_laws : BitSetLaws (list Z).
Proof.
  split. intros m o Hm Ho. cbn in *. rewrite array_apply_words by done.
  destruct (words_op_ok SIZE m o HSIZE Hm Ho) as (m' & ? & ? & ?). by exists m'.
Qed.
End Array.

(** * [DynamicBitSetUnmanaged] *)

(** The allocation: a header, the masks, and words a refused shrink left over.
    The header is the number of words, or 0 for the static sentinel. *)
Definition dyn_masks (s : DynamicBitSetUnmanaged) (m : list Z) : Prop :=
  0 <= bit_length s /\ well_formed (bit_length s) m /\ Forall is_u64 (alloc s) /\
  exists hd rest, alloc s = hd :: m ++ rest /\
    (hd = 0 /\ bit_length s = 0 \/ hd = Z.of_nat (length (alloc s))).

Definition dyn_ok (s : DynamicBitSetUnmanaged) : Prop := exists m, dyn_masks s m.

Definition dyn_elems (s : DynamicBitSetUnmanaged) : gset Z :=
  match DynamicBitSet.masks_slice s with Some m => members (bit_length s) m | None => ∅ end.

Lemma dyn_masks_slice s m : dyn_masks s m -> DynamicBitSet.masks_slice s = Some m.
Proof.
  intros (_ & (Hl & _) & _ & hd & rest & Ha & _). unfold DynamicBitSet.masks_slice, DynamicBitSet.num_masks.
  rewrite Ha. apply (slice_app [hd] m rest); cbn [length]; lia.
Qed.

Lemma dyn_elems_eq s m : dyn_masks s m -> dyn_elems s = members (bit_length s) m.
Proof. intros H. unfold dyn_elems. by rewrite (dyn_masks_slice _ _ H). Qed.

Lemma on_masks_ok s m f m' : dyn_masks s m -> f m = Some m' -> well_formed (bit_length s) m' ->
  exists s', DynamicBitSet.on_masks s f = Some s' /\ dyn_masks s' m' /\ bit_length s' = bit_length s.
Proof.
  intros Hs Hf Hm'. unfold DynamicBitSet.on_masks. rewrite (dyn_masks_slice _ _ Hs). cbn [mbind option_bind].
  rewrite Hf. cbn [mbind option_bind]. destruct Hs as (H0 & (Hl & _) & Hu & hd & rest & Ha & Hhd).
  rewrite Ha in *. rewrite (copy_app [hd] m m' rest) by (cbn; (done || (rewrite Hl; apply Hm'))).
  cbn [mbind option_bind]. eexists. split; [done|]. split; [|done]. split; [done|]. split; [done|].
  cbn [alloc bit_length]. split.
  - inversion Hu as [|?? Hhd0 Hrest]; subst. apply Forall_app in Hrest as [_ Hr].
    constructor; [done|]. apply Forall_app. split; [apply Hm'|done].
  - exists hd, rest. split; [done|]. destruct Hhd as [?|Hhd]; [by left|right]. rewrite Hhd. cbn [length app].
    rewrite !length_app, Hl, (proj1 Hm'). done.
Qed.

Lemma zip_masks_raw_words s m other mo f : dyn_masks s m -> dyn_masks other mo ->
  (num_masks_for (bit_length s) <= num_masks_for (bit_length other))%nat ->
  DynamicBitSet.zip_masks_raw s other f =
  DynamicBitSet.on_masks s (fun m => Some (zip_with f m (take (num_masks_for (bit_length s)) mo))).
Proof.
  intros _ (_ & (Hlo & _) & _ & hd & rest & Ha & _) Hle. unfold DynamicBitSet.zip_masks_raw, DynamicBitSet.num_masks.
  rewrite Ha, slice_ok by (cbn; len). cbn [mbind option_bind]. change (drop 1 (hd :: mo ++ rest)) with (mo ++ rest).
  replace (1 + num_masks_for (bit_length s) - 1)%nat with (num_masks_for (bit_length s)) by lia.
  by rewrite take_app_le by lia.
Qed.

Lemma zip_masks_raw_same s m other mo f : dyn_masks s m -> dyn_masks other mo -> bit_length other = bit_length s ->
  DynamicBitSet.zip_masks_raw s other f = DynamicBitSet.on_masks s (fun m => Some (zip_with f m mo)).
Proof.
  intros Hs Ho Hl. rewrite (zip_masks_raw_words s m other mo) by (done || (rewrite Hl; done)).
  rewrite take_ge; [done|]. destruct Ho as (_ & (-> & _) & _). by rewrite Hl.
Qed.

Definition dyn_apply (s : DynamicBitSetUnmanaged) (o : BitOp DynamicBitSetUnmanaged) : option DynamicBitSetUnmanaged :=
  match o with
  | OSet i => DynamicBitSet.set s i
  | OUnset i => DynamicBitSet.unset s i
  | OToggle i => DynamicBitSet.toggle s i
  | OSetValue i v => DynamicBitSet.set_value s i v
  | OSetRange r v => DynamicBitSet.set_range_value s r v
  | OToggleAll => DynamicBitSet.toggle_all s
  | OSetAll v => DynamicBitSet.set_all s v
  | OToggleFirst => fst <$> DynamicBitSet.toggle_first_set s
  | OUnion o => DynamicBitSet.set_union s o
  | OIntersection o => DynamicBitSet.set_intersection s o
  | OToggleSet o => DynamicBitSet.toggle_set s o
  | OExclude o => DynamicBitSet.set_exclude s o
  end.

#[export] Instance dyn_ops : BitSetOps DynamicBitSetUnmanaged :=
  {| size_of := bit_length; elems := dyn_elems; valid := dyn_ok; apply_op := dyn_apply |}.

(** Clearing padding that is clear already. *)
Lemma mask_last_id n m : 0 < n -> well_formed n m -> mask_last m (num_masks_for n) n = Some m.
Proof.
  intros Hn Hm. apply well_formed_rep in Hm as Hr.
  destruct (mask_last_ok n m Hn (proj1 Hm) (proj1 (proj2 Hm))) as (m' & Hm' & Hl & Hu & Hb). rewrite Hm'. f_equal.
  apply mbit_ext; [done|done|apply Hr|]. intros i Hi. rewrite Hb by lia. symmetry. apply Hr. lia.
Qed.

(** A word-wise operation and the clearing of the padding. *)
Lemma dyn_padded s m g m1 m' : dyn_masks s m -> bit_length s <> 0 -> g m = Some m1 ->
  length m1 = length m -> Forall is_u64 m1 ->
  mask_last m1 (num_masks_for (bit_length s)) (bit_length s) = Some m' -> well_formed (bit_length s) m' ->
  exists s', (s1 ← DynamicBitSet.on_masks s g; DynamicBitSet.zero_padding s1) = Some s' /\ dyn_masks s' m' /\
    bit_length s' = bit_length s.
Proof.
  intros Hs Hne Hg Hl1 Hu1 Hm' Hwf. unfold DynamicBitSet.on_masks at 1. rewrite (dyn_masks_slice _ _ Hs).
  cbn [mbind option_bind]. rewrite Hg. cbn [mbind option_bind].
  destruct Hs as (H0 & (Hl & _) & Hu & hd & rest & Ha & Hhd). rewrite Ha in *.
  rewrite (copy_app [hd] m m1 rest) by done. cbn [mbind option_bind].
  unfold DynamicBitSet.zero_padding, DynamicBitSet.on_masks, DynamicBitSet.masks_slice, DynamicBitSet.num_masks.
  cbn [bit_length alloc]. rewrite (slice_app [hd] m1 rest) by (cbn [length]; lia). cbn [mbind option_bind].
  rewrite Hm'. cbn [mbind option_bind]. rewrite (copy_app [hd] m1 m' rest) by (cbn [length]; (done || (rewrite Hl1, Hl; apply Hwf))).
  cbn [mbind option_bind]. eexists. split; [done|]. split; [|done]. split; [done|]. split; [done|]. cbn [alloc bit_length]. split.
  - inversion Hu as [|?? Hhd0 Hrest]; subst. apply Forall_app in Hrest as [_ Hr].
    constructor; [done|]. apply Forall_app. split; [apply Hwf|done].
  - exists hd, rest. split; [done|]. destruct Hhd as [?|Hhd]; [by left|right]. rewrite Hhd. cbn [length app].
    rewrite !length_app, Hl, (proj1 Hwf). done.
Qed.

(** The operand's masks in place of the operand. *)
Definition operand_masks (o : DynamicBitSetUnmanaged) : list Z := default [] (DynamicBitSet.masks_slice o).

Lemma operand_masks_eq o m : dyn_masks o m -> operand_masks o = m.
Proof. intros H. unfold operand_masks. by rewrite (dyn_masks_slice _ _ H). Qed.

Lemma dyn_apply_words s m o : dyn_masks s m -> legal_op bit_length dyn_ok (bit_length s) o ->
  exists m' s', words_op (bit_length s) m (bit_op_map operand_masks o) = Some m' /\ dyn_apply s o = Some s' /\
    dyn_masks s' m' /\ bit_length s' = bit_length s.
Proof.
  intros Hs Ho. pose proof Hs as (H0 & Hm & _).
  assert (legal_op (fun _ => bit_length s) (well_formed (bit_length s)) (bit_length s) (bit_op_map operand_masks o)) as Hlo.
  { destruct o as [i|i|i|i v|r v| |v| |b|b|b|b]; cbn [legal_op bit_op_map] in *; try done;
      (destruct Ho as [[mb Hb] Hl]; split; [|done]; rewrite (operand_masks_eq _ _ Hb), <- Hl; apply Hb). }
  destruct (words_op_ok (bit_length s) m _ H0 Hm Hlo) as (m' & Hw & Hm' & _). exists m'.
  assert (forall g, g m = Some m' -> exists s', Some m' = Some m' /\ DynamicBitSet.on_masks s g = Some s' /\
    dyn_masks s' m' /\ bit_length s' = bit_length s) as Hgo.
  { intros g Hg. destruct (on_masks_ok s m g m' Hs Hg Hm') as (s' & ? & ? & ?). by exists s'. }
  assert (0 < bit_length s -> mask_last m' (num_masks_for (bit_length s)) (bit_length s) = Some m') as Hid
    by (intros; by apply mask_last_id).
  rewrite Hw. destruct o as [i|i|i|i v|r v| |v| |b|b|b|b]; cbn [bit_op_map words_op dyn_apply legal_op] in *;
    try (by apply Hgo).
  - unfold DynamicBitSet.toggle_all. destruct (Z.eqb_spec (bit_length s) 0) as [E|Hne].
    { injection Hw as <-. by exists s. }
    destruct (dyn_padded s m (fun m => Some (wnot <$> m)) (wnot <$> m) m' Hs Hne) as (s' & -> & ? & ?);
      [done|by rewrite length_fmap|apply Forall_fmap, Forall_true; intros; apply wnot_u64|done|done|by exists s'].
  - unfold DynamicBitSet.set_all. destruct (Z.eqb_spec (bit_length s) 0) as [E|Hne].
    { injection Hw as <-. by exists s. }
    assert ((fun _ => bool_mask_usize v) <$> m = replicate (num_masks_for (bit_length s)) (bool_mask_usize v)) as Hr.
    { rewrite <- (proj1 Hm). clear. induction m; cbn; congruence. }
    destruct (dyn_padded s m (fun m => Some ((fun _ => bool_mask_usize v) <$> m)) _ m' Hs Hne eq_refl) as (s' & -> & ? & ?);
      [by rewrite length_fmap|rewrite Hr; apply Forall_replicate, bool_mask_u64|by rewrite Hr|done|by exists s'].
  - unfold DynamicBitSet.toggle_first_set. rewrite (dyn_masks_slice _ _ Hs). cbn [mbind option_bind].
    destruct (Hgo (fun m => Some (fst (words_toggle_first 0 m))) Hw) as (s' & _ & -> & ? & ?). cbn. by exists s'.
  - destruct Ho as [[mb Hb] Hl]. unfold DynamicBitSet.set_union. rewrite (zip_masks_raw_same s m b mb) by done.
    apply Hgo. by rewrite (operand_masks_eq _ _ Hb) in Hw.
  - destruct Ho as [[mb Hb] Hl]. unfold DynamicBitSet.set_intersection. rewrite (zip_masks_raw_same s m b mb) by done.
    apply Hgo. by rewrite (operand_masks_eq _ _ Hb) in Hw.
  - destruct Ho as [[mb Hb] Hl]. unfold DynamicBitSet.toggle_set. destruct (Z.eqb_spec (bit_length s) 0) as [E|Hne].
    { exists s. split; [done|]. split; [done|]. split; [|done]. injection Hw as <-.
      assert (m = []) as -> by (apply nil_length_inv; rewrite (proj1 Hm), E; done). done. }
    rewrite (zip_masks_raw_same s m b mb) by done. rewrite (operand_masks_eq _ _ Hb) in Hw. injection Hw as Hw.
    destruct (dyn_padded s m (fun m => Some (zip_with Z.lxor m mb)) (zip_with Z.lxor m mb) m' Hs Hne eq_refl) as (s' & -> & ? & ?);
      [rewrite Hw, (proj1 Hm); apply Hm'|rewrite Hw; apply Hm'|rewrite Hw; apply Hid; lia|done|by exists s'].
  - destruct Ho as [[mb Hb] Hl]. unfold DynamicBitSet.set_exclude. rewrite (zip_masks_raw_same s m b mb) by done.
    apply Hgo. by rewrite (operand_masks_eq _ _ Hb) in Hw.
Qed.

#[export] Instance dyn_laws : BitSetLaws DynamicBitSetUnmanaged.
Proof.
  split. cbn. intros s o [m Hs] Ho. pose proof Hs as (H0 & Hm & _).
  destruct (dyn_apply_words s m o Hs Ho) as (m' & s' & Hw & Hs' & Hd' & Hl'). exists s'. split; [done|].
  split; [by exists m'|]. split; [done|]. rewrite (dyn_elems_eq _ _ Hd'), (dyn_elems_eq _ _ Hs), Hl'.
  assert (legal_op (fun _ => bit_length s) (well_formed (bit_length s)) (bit_length s) (bit_op_map operand_masks o) /\
    bit_op_map (members (bit_length s)) (bit_op_map operand_masks o) = bit_op_map dyn_elems o) as [Hlo Hmap].
  { destruct o as [i|i|i|i v|r v| |v| |b|b|b|b]; cbn [legal_op bit_op_map] in *; try done;
      (destruct Ho as [[mb Hb] Hl]; rewrite (operand_masks_eq _ _ Hb), (dyn_elems_eq _ _ Hb), Hl;
       split; [split; [|done]; rewrite <- Hl; apply Hb|done]). }
  destruct (words_op_ok (bit_length s) m _ H0 Hm Hlo) as (m2 & Hw2 & _ & He).
  rewrite Hw in Hw2. injection Hw2 as <-. by rewrite He, Hmap.
Qed.

(** * Resizing *)

Lemma update_word_cons hd w k f :
  update_word (hd :: w) (S k) f = cons hd <$> update_word w k f.
Proof. unfold update_word. cbn. by destruct (w !! k). Qed.

Lemma fill_words_cons hd w i j v :
  fill_words (hd :: w) (S i) (S j) v = cons hd <$> fill_words w i j v.
Proof. unfold fill_words. cbn [length]. repeat case_decide; try lia; done. Qed.

Lemma mbit_prefix a b i : (forall k, (k < Z.to_nat (i / 64) + 1)%nat -> a !! k = b !! k) -> mbit a i = mbit b i.
Proof. intros H. unfold mbit. rewrite H; [done|lia]. Qed.

Lemma mbit_take k m i : 0 <= i < 64 * Z.of_nat k -> mbit (take k m) i = mbit m i.
Proof.
  intros Hi. apply mbit_prefix. intros j Hj. pose proof (bit_word_lt _ _ Hi). apply lookup_take_lt. lia.
Qed.

Section Resize.
Context (sys_realloc : list Z -> nat -> option (list Z)) `{!Allocator sys_realloc}.

Lemma dyn_realloc_ok base old_len new_len p : Forall is_u64 base -> (0 < new_len)%nat ->
  DynamicBitSet.dyn_realloc sys_realloc base old_len new_len = Ok p ->
  length p = new_len /\ Forall is_u64 p /\ 8 * Z.of_nat new_len < 2 ^ 63 /\
  forall i, (i < new_len)%nat -> (i < length base)%nat -> old_len <> O -> p !! i = base !! i.
Proof.
  intros Hb Hn. unfold DynamicBitSet.dyn_realloc. destruct (Z.ltb_spec (2 ^ 63 - 1) (8 * Z.of_nat new_len)); [done|].
  destruct (sys_realloc _ new_len) as [q|] eqn:E; [|done]. intros [= <-].
  split; [by eapply sys_realloc_length|]. split; [eapply sys_realloc_words; [done|by destruct (old_len =? 0)%nat]|].
  split; [lia|]. intros i Hi Hl Hne. rewrite (proj2 (Nat.eqb_neq _ _) Hne) in E. by eapply sys_realloc_prefix.
Qed.

Lemma resize_alloc_ok s m new : dyn_masks s m -> (0 < new)%nat ->
  exists r, DynamicBitSet.resize_alloc sys_realloc s new = Some r /\
    match r with
    | Err _ => (length m < new)%nat
    | Ok a => exists w, a = Z.of_nat (length a) :: w /\ Forall is_u64 a /\ (new <= length w)%nat /\
        forall k, (k < length m)%nat -> (k < new)%nat -> w !! k = m !! k
    end.
Proof.
  intros (H0 & (Hl & _) & Hu & hd & rest & Ha & Hhd) Hn. unfold DynamicBitSet.resize_alloc. rewrite Ha in *.
  cbn [lookup list_lookup mbind option_bind]. set (base := hd :: m ++ rest) in *.
  assert (hd = 0 -> length m = O) as Hsent.
  { intros E0. destruct Hhd as [[_ E]|E]; [by rewrite Hl, E|]. rewrite E0 in E. unfold base in E. cbn [length] in E. lia. }
  assert (0 <= hd /\ (hd <> 0 -> hd = Z.of_nat (length base))) as [Hhd0 Hhd1] by (destruct Hhd as [[? _]|?]; lia).
  assert (forall k, (k < length m)%nat -> base !! S k = m !! k) as Hbase
    by (intros k Hk; unfold base; cbn; by apply lookup_app_l).
  assert (length base = 1 + length m + length rest)%nat as Hbl by (unfold base; cbn; len).
  destruct (Nat.eqb_spec (Z.to_nat hd) (new + 1)) as [E|Hne].
  - eexists. split; [done|]. exists (m ++ rest). split; [by rewrite <- Hhd1 by lia|].
    split; [done|]. split; [len|]. intros k Hk _. by apply lookup_app_l.
  - destruct (DynamicBitSet.dyn_realloc sys_realloc base (Z.to_nat hd) (new + 1)) as [p|e] eqn:Ep.
    + apply dyn_realloc_ok in Ep as (Hpl & Hpu & Hbnd & Hpk); [|done|lia]. destruct p as [|h w]; [cbn in Hpl; lia|].
      cbn [update_word lookup list_lookup mbind option_bind]. eexists. split; [done|]. exists w. cbn in Hpl.
      split; [cbn; f_equal; lia|]. split; [|split; [lia|]].
      * inversion Hpu; subst. constructor; [unfold is_u64; lia|done].
      * intros k Hk Hkn. rewrite <- Hbase by done. change (w !! k) with ((h :: w) !! S k).
        apply Hpk; [lia|lia|]. intros E0. assert (hd = 0) by lia. specialize (Hsent ltac:(done)). lia.
    + eexists. split; [done|]. destruct (Nat.ltb_spec (Z.to_nat hd) (new + 1)) as [Hlt|Hge].
      * destruct (decide (hd = 0)) as [E0|E0]; [specialize (Hsent E0); lia|]. specialize (Hhd1 E0). lia.
      * exists (m ++ rest). split; [by rewrite <- Hhd1 by lia|]. split; [done|].
        split; [rewrite Hhd1 in Hge by lia; len|]. intros k Hk _. by apply lookup_app_l.
Qed.

Lemma bit_not_last_mask n w i : 0 < n -> is_u64 w -> 0 <= i < 64 ->
  Z.testbit (Z.lor w (wnot (last_item_mask (num_masks_for n) n))) i =
  if 64 * (Z.of_nat (num_masks_for n) - 1) + i <? n then Z.testbit w i else true.
Proof.
  intros Hn Hw Hi. rewrite Z.lor_spec, bit_wnot, bit_last_mask by lia. rewrite (proj2 (Z.ltb_lt i 64)) by lia.
  destruct (_ <? n); [by rewrite orb_false_r|by rewrite orb_true_r].
Qed.

(** The bits below the new length: the old ones, then the fill value. *)
Lemma fill_new_ok hd w P old new fill :
  0 <= old -> 0 <= new -> is_u64 hd -> Forall is_u64 w -> (num_masks_for new <= length w)%nat ->
  (forall i, 0 <= i < 64 * Z.of_nat (num_masks_for old) -> i < 64 * Z.of_nat (num_masks_for new) ->
     mbit w i = P i && (i <? old)) ->
  exists w', DynamicBitSet.fill_new (hd :: w) old new fill = Some (hd :: w') /\ Forall is_u64 w' /\ length w' = length w /\
    forall i, 0 <= i < new -> mbit w' i = if i <? old then P i else fill.
Proof.
  intros Ho Hn Hhd Hu Hlen Hb. pose proof (num_masks_spec old Ho) as So. pose proof (num_masks_spec new Hn) as Sn.
  unfold DynamicBitSet.fill_new, DynamicBitSet.num_masks. destruct (Z.ltb_spec old new) as [Hlt|Hge].
  2: { exists w. split; [done|]. split; [done|]. split; [done|]. intros i Hi. rewrite Hb by lia.
       rewrite (proj2 (Z.ltb_lt i old)) by lia. apply andb_true_r. }
  set (om := num_masks_for old) in *. set (nm := num_masks_for new) in *.
  assert (exists w1, (if fill && (0 <? om)%nat
      then update_word (hd :: w) om (fun w => Z.lor w (wnot (last_item_mask om old))) else Some (hd :: w)) = Some (hd :: w1) /\
    Forall is_u64 w1 /\ length w1 = length w /\
    forall i, 0 <= i < 64 * Z.of_nat om -> mbit w1 i = if i <? old then P i else fill) as (w1 & -> & Hu1 & Hl1 & Hb1).
  { destruct (fill && (0 <? om)%nat) eqn:E.
    - apply andb_true_iff in E as [-> E]. apply Nat.ltb_lt in E. destruct om as [|k] eqn:Eom; [lia|].
      rewrite update_word_cons.
      destruct (update_word_ok w k (fun w => Z.lor w (wnot (last_item_mask (S k) old)))) as (w1 & Hw1 & Hl1 & Hk); [lia|].
      rewrite Hw1. exists w1. split; [done|]. split; [eapply update_word_u64; eauto with words|]. split; [done|].
      intros i Hi. pose proof (Z.mod_pos_bound i 64 ltac:(lia)). pose proof (Z.div_mod i 64 ltac:(lia)).
      pose proof (Z.div_pos i 64 ltac:(lia) ltac:(lia)). specialize (Hb i Hi ltac:(lia)). revert Hb. unfold mbit. rewrite Hk.
      destruct (lookup_lt_is_Some_2 w (Z.to_nat (i / 64))) as [x Hx]; [lia|]. rewrite Hx. cbn [fmap option_fmap option_map].
      intros Hbx. case_decide as Hd; unfold id.
      + rewrite <- Eom. unfold om. rewrite bit_not_last_mask; [|lia|rewrite Forall_lookup in Hu; by eapply Hu|lia].
        fold om. rewrite Eom, Hbx. replace (64 * (Z.of_nat (S k) - 1) + i mod 64) with i by lia.
        destruct (i <? old); [by rewrite andb_true_r|done].
      + rewrite Hbx. rewrite (proj2 (Z.ltb_lt i old)) by lia. apply andb_true_r.
    - exists w. split; [done|]. split; [done|]. split; [done|]. intros i Hi. rewrite Hb by lia.
      destruct (Z.ltb_spec i old); [apply andb_true_r|]. rewrite andb_false_r.
      destruct fill; [|done]. cbn [andb] in E. apply Nat.ltb_ge in E. lia. }
  cbn [mbind option_bind]. destruct (Nat.ltb_spec om nm) as [Hm|Hm].
  - cbn [Nat.add]. rewrite fill_words_cons. destruct (fill_words_ok w1 om nm (bool_mask_usize fill)) as (w2 & Hw2 & Hl2 & Hk2); [lia|].
    rewrite Hw2. exists w2. split; [done|]. split; [eapply fill_words_u64; eauto with words|]. split; [lia|].
    intros i Hi. pose proof (Z.mod_pos_bound i 64 ltac:(lia)). pose proof (Z.div_mod i 64 ltac:(lia)).
    pose proof (Z.div_pos i 64 ltac:(lia) ltac:(lia)).
    destruct (Z.lt_ge_cases i (64 * Z.of_nat om)) as [Hi1|Hi1].
    + rewrite <- Hb1 by lia. unfold mbit. rewrite Hk2, decide_False by lia. by destruct (w1 !! _).
    + rewrite (proj2 (Z.ltb_ge i old)) by lia. unfold mbit. rewrite Hk2, decide_True by lia.
      destruct (lookup_lt_is_Some_2 w1 (Z.to_nat (i / 64))) as [x ->]; [lia|]. cbn. rewrite bit_bool_mask.
      rewrite (proj2 (Z.leb_le _ _)), (proj2 (Z.ltb_lt _ _)) by lia. by rewrite !andb_true_r.
  - exists w1. split; [done|]. split; [done|]. split; [lia|]. intros i Hi. apply Hb1. lia.
Qed.

(** [resize]: the elements that fit stay, new indices get the fill value; when
    the allocator refuses, growing fails and the set is as it was. *)
Lemma resize_ok s m n fill : dyn_masks s m -> 0 <= n ->
  exists s' r, DynamicBitSet.resize sys_realloc s n fill = Some (s', r) /\
    match r with
    | Ok _ => exists m', dyn_masks s' m' /\ bit_length s' = n /\
        rep n m' (fun i => if i <? bit_length s then mbit m i else fill)
    | Err _ => s' = s /\ (num_masks_for (bit_length s) < num_masks_for n)%nat
    end.
Proof.
  intros Hs Hn. pose proof Hs as (H0 & Hm & _). pose proof (num_masks_spec n Hn) as Sn.
  unfold DynamicBitSet.resize, DynamicBitSet.num_masks. destruct (Nat.eqb_spec (num_masks_for n) 0) as [E|Hne].
  { assert (n = 0) as -> by lia. eexists _, _. split; [done|]. exists []. split.
    - split; [done|]. split; [split; [done|]; split; [constructor|done]|]. split; [repeat constructor; done|].
      exists 0, [0]. split; [done|]. by left.
    - split; [done|]. split; [done|]. split; [constructor|]. intros i Hi. rewrite (proj2 (Z.ltb_ge i 0)) by lia.
      by rewrite andb_false_r. }
  destruct (resize_alloc_ok s m (num_masks_for n) Hs) as (r & -> & Hr); [lia|]. cbn [mbind option_bind].
  destruct r as [a|e]; [|eexists _, _; split; [done|]; split; [done|]; by rewrite (proj1 Hm) in Hr].
  destruct Hr as (w & Ea & Hu & Hlw & Hk). apply (f_equal length) in Ea as Hla. cbn [length] in Hla.
  set (hd := Z.of_nat (length a)) in *. assert (hd = Z.of_nat (S (length w))) as Hhdl by (by rewrite <- Hla). clearbody hd.
  rewrite Ea in *. clear Ea a. inversion Hu as [|?? Hhd Hw]; subst x l.
  apply well_formed_rep in Hm as Hrm.
  destruct (fill_new_ok hd w (mbit m) (bit_length s) n fill H0 Hn Hhd Hw Hlw) as (w1 & -> & Hu1 & Hl1 & Hb1).
  { intros i Hi Hin. rewrite <- (proj2 (proj2 Hrm)) by lia. rewrite <- (proj1 Hm) in Hi.
    pose proof (bit_word_lt _ _ Hi). pose proof (bit_word_lt i (num_masks_for n) ltac:(lia)).
    apply mbit_prefix. intros k Hkk. apply Hk; lia. }
  cbn [mbind option_bind]. rewrite (proj2 (Z.ltb_lt 0 n)) by lia.
  destruct (num_masks_for n) as [|k] eqn:Ek; [lia|]. rewrite update_word_cons.
  destruct (mask_last_ok n (take (num_masks_for n) w1)) as (m' & Hm' & Hlm' & Hum' & Hbm');
    [lia|rewrite length_take, Ek; lia|by apply Forall_take|]. unfold mask_last in Hm'. rewrite Ek in Hm'.
  replace (S k - 1)%nat with k in Hm' by lia.
  assert (update_word w1 k (fun w => Z.land w (last_item_mask (S k) n)) = Some (m' ++ drop (S k) w1)) as ->.
  { revert Hm'. unfold update_word. rewrite lookup_take_lt by lia.
    destruct (lookup_lt_is_Some_2 w1 k) as [x ->]; [lia|]. cbn [mbind option_bind]. intros [= <-]. f_equal.
    rewrite <- insert_app_l by (rewrite length_take; lia). by rewrite take_drop. }
  cbn [fmap option_fmap option_map mbind option_bind]. eexists _, _. split; [done|]. exists m'.
  rewrite length_take, Nat.min_l in Hlm' by lia.
  assert (rep n m' (fun i => if i <? bit_length s then mbit m i else fill)) as Hrep.
  { split; [lia|]. split; [done|]. intros i Hi. rewrite Hbm' by done. destruct (Z.ltb_spec i n); [|by rewrite !andb_false_r].
    f_equal. rewrite mbit_take by (rewrite Ek; lia). by apply Hb1. }
  split; [|done]. split; [done|]. split; [by eapply rep_well_formed|]. cbn [alloc bit_length]. split.
  - constructor; [done|]. apply Forall_app. split; [done|]. by apply Forall_drop.
  - exists hd, (drop (S k) w1). split; [done|]. right. cbn [length]. rewrite length_app, length_drop. lia.
Qed.

Lemma rep_dyn_elems s m P : dyn_masks s m -> rep (bit_length s) m P ->
  forall i, i ∈ dyn_elems s <-> 0 <= i < bit_length s /\ P i = true.
Proof.
  intros Hs Hr i. rewrite (dyn_elems_eq _ _ Hs), elem_of_members.
  split; intros [Hi H]; (split; [done|]); by rewrite (rep_P _ _ _ _ Hr Hi) in *.
Qed.

(** [copy_into] reads as many words of the source's allocation as the destination has. *)
Lemma copy_into_words s m other : dyn_masks s m -> Forall is_u64 (alloc other) -> bit_length s <> 0 ->
  (1 + num_masks_for (bit_length s) <= length (alloc other))%nat ->
  exists s' m', DynamicBitSet.copy_into s other = Some s' /\ dyn_masks s' m' /\ bit_length s' = bit_length s /\
    rep (bit_length s) m' (mbit (drop 1 (alloc other))).
Proof.
  intros Hs Hu Hne Hle. pose proof Hs as (H0 & Hm & _). set (mo := drop 1 (alloc other)).
  unfold DynamicBitSet.copy_into. rewrite (proj2 (Z.eqb_neq _ _) Hne).
  unfold DynamicBitSet.zip_masks_raw, DynamicBitSet.num_masks. rewrite slice_ok by lia. cbn [mbind option_bind].
  replace (1 + num_masks_for (bit_length s) - 1)%nat with (num_masks_for (bit_length s)) by lia.
  set (k := num_masks_for (bit_length s)) in *. fold mo.
  assert (forall x y : list Z, length x = length y -> zip_with (fun _ b => b) x y = y) as Hz.
  { induction x as [|a x IH]; intros [|b y]; cbn; try done. intros [= H]. f_equal. auto. }
  assert (length (take k mo) = length m) as Hlt by (unfold mo; rewrite length_take, length_drop, (proj1 Hm); lia).
  assert (Forall is_u64 (take k mo)) as Hut by by apply Forall_take, Forall_drop.
  destruct (mask_last_ok (bit_length s) (take k mo)) as (m' & Hm' & Hlm & Hum & Hbm); [lia|rewrite Hlt; apply Hm|done|].
  assert (rep (bit_length s) m' (mbit mo)) as Hrep.
  { split; [rewrite Hlm, Hlt; apply Hm|]. split; [done|]. intros i Hi. rewrite Hbm by done.
    destruct (Z.ltb_spec i (bit_length s)); [|by rewrite !andb_false_r]. f_equal.
    pose proof (num_masks_spec _ H0). apply mbit_take. unfold k. lia. }
  destruct (dyn_padded s m (fun m => Some (zip_with (fun _ b => b) m (take k mo))) (take k mo) m' Hs Hne)
    as (s' & -> & ? & ?); [by rewrite Hz|done|done|done|by eapply rep_well_formed|]. by exists s', m'.
Qed.

Lemma copy_into_ok s m other mo : dyn_masks s m -> dyn_masks other mo ->
  (num_masks_for (bit_length s) <= num_masks_for (bit_length other))%nat ->
  exists s' m', DynamicBitSet.copy_into s other = Some s' /\ dyn_masks s' m' /\ bit_length s' = bit_length s /\
    rep (bit_length s) m' (mbit mo).
Proof.
  intros Hs (_ & (Hlo & _) & Hu & hd & rest & Ha & _) Hle. destruct (Z.eqb_spec (bit_length s) 0) as [E|Hne].
  { exists s, m. unfold DynamicBitSet.copy_into. rewrite E. split; [done|]. split; [done|]. split; [done|].
    destruct Hs as (_ & Hm & _). rewrite E in Hm. eapply rep_0. by apply well_formed_rep. }
  destruct (copy_into_words s m other Hs Hu Hne) as (s' & m' & E & Hs' & Hl & (H1 & H2 & H3)); [rewrite Ha; cbn; len|].
  exists s', m'. do 3 (split; [done|]). split; [done|]. split; [done|]. intros i Hi. rewrite (H3 i Hi), Ha. cbn [drop].
  destruct Hs as (H0 & _). pose proof (num_masks_spec _ H0). destruct (Z.ltb_spec i (bit_length s)); [|by rewrite !andb_false_r]. f_equal.
  rewrite drop_0. rewrite <- (mbit_take (length mo) (mo ++ rest)), take_app_length by lia. done.
Qed.

(** The words past the end of the source are read when the destination has more. *)
Lemma copy_into_overrun s other : bit_length s <> 0 ->
  (length (alloc other) < 1 + num_masks_for (bit_length s))%nat -> DynamicBitSet.copy_into s other = None.
Proof.
  intros Hne Hlt. unfold DynamicBitSet.copy_into. rewrite (proj2 (Z.eqb_neq _ _) Hne).
  unfold DynamicBitSet.zip_masks_raw, slice, DynamicBitSet.num_masks. by rewrite decide_False by lia.
Qed.

Lemma exclude_two_ok s o p : dyn_ok s -> dyn_ok o -> dyn_ok p -> bit_length o = bit_length s -> bit_length p = bit_length s ->
  exists s', DynamicBitSet.set_exclude_two s o p = Some s' /\ dyn_ok s' /\ bit_length s' = bit_length s /\
    dyn_elems s' = (dyn_elems s ∖ dyn_elems o) ∖ dyn_elems p.
Proof.
  intros Hs Ho Hp Hlo Hlp. destruct (@apply_op_ok _ _ dyn_laws s (OExclude o) Hs) as (s1 & H1 & Hs1 & Hn1 & He1); [done|].
  cbn in H1, Hs1, Hn1, He1. destruct (@apply_op_ok _ _ dyn_laws s1 (OExclude p) Hs1) as (s2 & H2 & Hs2 & Hn2 & He2);
    [split; [done|]; cbn; congruence|]. cbn in H2, Hs2, Hn2, He2.
  exists s2. unfold DynamicBitSet.set_exclude_two, DynamicBitSet.set_exclude in *. rewrite H1. cbn [mbind option_bind].
  split; [done|]. split; [done|]. split; [congruence|]. by rewrite He2, He1.
Qed.

Lemma default_ok : dyn_masks DynamicBitSet.default [].
Proof.
  split; [done|]. split; [split; [done|]; split; [constructor|done]|]. split; [repeat constructor; done|].
  exists 0, [0]. split; [done|]. by left.
Qed.

Lemma init_ok n fill : 0 <= n ->
  exists r, DynamicBitSet.init sys_realloc n fill = Some r /\
    match r with
    | Ok s => exists m, dyn_masks s m /\ bit_length s = n /\ rep n m (fun _ => fill)
    | Err _ => 0 < n
    end.
Proof.
  intros Hn. unfold DynamicBitSet.init. destruct (resize_ok _ _ n fill default_ok Hn) as (s & r & -> & Hr).
  cbn [mbind option_bind]. eexists. split; [done|]. destruct r as [[]|e].
  - destruct Hr as (m & Hm & Hl & Hrep). exists m. split; [done|]. split; [done|].
    eapply rep_ext; [|exact Hrep]. intros i Hi. cbn. by rewrite (proj2 (Z.ltb_ge i 0)) by lia.
  - destruct Hr as [_ Hr]. cbn in Hr. pose proof (num_masks_spec n Hn). change (num_masks_for 0) with O in Hr. lia.
Qed.

Lemma clone_ok s m : dyn_masks s m ->
  exists r, DynamicBitSet.clone sys_realloc s = Some r /\
    match r with Ok c => dyn_masks c m /\ bit_length c = bit_length s | Err _ => 0 < bit_length s end.
Proof.
  intros Hs. pose proof Hs as (H0 & Hm & _). unfold DynamicBitSet.clone, DynamicBitSet.init_empty.
  destruct (init_ok (bit_length s) false H0) as (r & -> & Hr). cbn [mbind option_bind].
  destruct r as [c|e]; [|by eexists]. destruct Hr as (mc & Hc & Hl & _).
  rewrite (dyn_masks_slice _ _ Hs). cbn [mbind option_bind].
  destruct (on_masks_ok c mc (fun m' => if (length m =? length m')%nat then Some m else None) m Hc) as (c' & -> & Hc' & Hl').
  - rewrite (proj2 (Nat.eqb_eq _ _)); [done|]. pose proof Hc as (_ & Hmc & _). by rewrite (proj1 Hm), (proj1 Hmc), Hl.
  - by rewrite Hl.
  - cbn [mbind option_bind]. eexists. split; [done|]. split; [done|]. congruence.
Qed.

(** * Sequences with resizing *)

Inductive DynOp :=
| Common (o : BitOp DynamicBitSetUnmanaged)
| OResize (n : Z) (fill : bool)
| OCopyInto (o : DynamicBitSetUnmanaged)
| OExcludeTwo (o p : DynamicBitSetUnmanaged)
| OClone.

Definition dyn_step (s : DynamicBitSetUnmanaged) (o : DynOp) : option (DynamicBitSetUnmanaged * Result unit AllocError) :=
  match o with
  | Common o => s' ← dyn_apply s o; Some (s', Ok ())
  | OResize n fill => DynamicBitSet.resize sys_realloc s n fill
  | OCopyInto o => s' ← DynamicBitSet.copy_into s o; Some (s', Ok ())
  | OExcludeTwo o p => s' ← DynamicBitSet.set_exclude_two s o p; Some (s', Ok ())
  | OClone =>
    r ← DynamicBitSet.clone sys_realloc s;
    Some (match r with Ok c => (c, Ok ()) | Err e => (s, Err e) end)
  end.

Fixpoint dyn_run (s : DynamicBitSetUnmanaged) (ops : list DynOp)
    : option (DynamicBitSetUnmanaged * list (Result unit AllocError)) :=
  match ops with
  | [] => Some (s, [])
  | o :: ops => '(s, r) ← dyn_step s o; '(s, rs) ← dyn_run s ops; Some (s, r :: rs)
  end.

(** The model: a length and a subset of what is below it.  Only a request for
    more words can fail, and it changes nothing. *)
Inductive set_step (n : Z) (S : gset Z) : DynOp -> Z -> gset Z -> Result unit AllocError -> Prop :=
| s_common o : set_step n S (Common o) n (model_op n S (bit_op_map dyn_elems o)) (Ok ())
| s_resize n' fill : set_step n S (OResize n' fill) n'
    ((S ∩ universe n') ∪ (if fill then universe n' ∖ universe n else ∅)) (Ok ())
| s_resize_fails n' fill : (num_masks_for n < num_masks_for n')%nat ->
    set_step n S (OResize n' fill) n S (Err OutOfMemory)
| s_copy o : set_step n S (OCopyInto o) n (dyn_elems o ∩ universe n) (Ok ())
| s_exclude o p : set_step n S (OExcludeTwo o p) n ((S ∖ dyn_elems o) ∖ dyn_elems p) (Ok ())
| s_clone : set_step n S OClone n S (Ok ())
| s_clone_fails : 0 < n -> set_step n S OClone n S (Err OutOfMemory).

Inductive set_run (n : Z) (S : gset Z) : list DynOp -> Z -> gset Z -> list (Result unit AllocError) -> Prop :=
| sr_nil : set_run n S [] n S []
| sr_cons o ops n1 S1 r n2 S2 rs :
    set_step n S o n1 S1 r -> set_run n1 S1 ops n2 S2 rs -> set_run n S (o :: ops) n2 S2 (r :: rs).

Definition dyn_legal (n : Z) (o : DynOp) : Prop :=
  match o with
  | Common o => legal_op bit_length dyn_ok n o
  | OResize n' _ => 0 <= n'
  | OCopyInto o => dyn_ok o /\ (num_masks_for n <= num_masks_for (bit_length o))%nat
  | OExcludeTwo o p => dyn_ok o /\ dyn_ok p /\ bit_length o = n /\ bit_length p = n
  | OClone => True
  end.

Fixpoint dyn_safe (n : Z) (S : gset Z) (ops : list DynOp) : Prop :=
  match ops with
  | [] => True
  | o :: ops => dyn_legal n o /\ forall n' S' r, set_step n S o n' S' r -> dyn_safe n' S' ops
  end.

Lemma dyn_step_ok s o : dyn_ok s -> dyn_legal (bit_length s) o ->
  exists s' r, dyn_step s o = Some (s', r) /\ dyn_ok s' /\
    set_step (bit_length s) (dyn_elems s) o (bit_length s') (dyn_elems s') r.
Proof.
  intros [m Hs] Ho. destruct o as [o|n fill|o|o p|]; cbn [dyn_legal dyn_step] in *.
  - destruct (@apply_op_ok _ _ dyn_laws s o (ex_intro _ m Hs) Ho) as (s' & Hs' & Hv & Hn & He). cbn in *. rewrite Hs'.
    cbn [mbind option_bind]. eexists _, _. split; [done|]. split; [done|]. rewrite Hn, He. constructor.
  - destruct (resize_ok s m n fill Hs Ho) as (s' & r & -> & Hr). eexists _, _. split; [done|]. destruct r as [[]|[]].
    + destruct Hr as (m' & Hs' & <- & Hrep). split; [by exists m'|].
      assert (dyn_elems s' = (dyn_elems s ∩ universe (bit_length s')) ∪
        (if fill then universe (bit_length s') ∖ universe (bit_length s) else ∅)) as ->; [|constructor].
      apply set_eq. intros i. rewrite (rep_dyn_elems _ _ _ Hs' Hrep), elem_of_union, elem_of_intersection, elem_of_universe.
      rewrite (dyn_elems_eq _ _ Hs), elem_of_members. pose proof (proj1 Hs).
      assert (i ∈ (if fill then universe (bit_length s') ∖ universe (bit_length s) else ∅) <->
        fill = true /\ 0 <= i < bit_length s' /\ ~ 0 <= i < bit_length s) as ->.
      { destruct fill; [rewrite elem_of_difference, !elem_of_universe; tauto|].
        split; [by intros ?%not_elem_of_empty|by intros []]. }
      destruct (Z.ltb_spec i (bit_length s)); naive_solver lia.
    + destruct Hr as [-> Hlt]. split; [by exists m|]. by constructor.
  - destruct Ho as [[mo Hmo] Hle]. destruct (copy_into_ok s m o mo Hs Hmo Hle) as (s' & m' & -> & Hs' & Hn & Hrep).
    cbn [mbind option_bind]. eexists _, _. split; [done|]. split; [by exists m'|]. rewrite Hn.
    assert (dyn_elems s' = dyn_elems o ∩ universe (bit_length s)) as ->; [|constructor].
    apply set_eq. intros i. rewrite <- Hn in Hrep. rewrite (rep_dyn_elems _ _ _ Hs' Hrep), elem_of_intersection, elem_of_universe, Hn.
    rewrite (dyn_elems_eq _ _ Hmo), elem_of_members. split; [|tauto]. intros [Hi Hb]. split; [|done]. split; [|done].
    destruct (Z.lt_ge_cases i (bit_length o)); [lia|]. pose proof Hmo as (_ & Hwf & _). by rewrite (proj2 (proj2 Hwf)) in Hb.
  - destruct Ho as (Ho & Hp & Hlo & Hlp). destruct (exclude_two_ok s o p) as (s' & -> & Hs' & Hn & He); [by exists m|done..|].
    cbn [mbind option_bind]. eexists _, _. split; [done|]. split; [done|]. rewrite Hn, He. constructor.
  - destruct (clone_ok s m Hs) as (r & -> & Hr). cbn [mbind option_bind]. destruct r as [c|[]].
    + destruct Hr as [Hc Hl]. eexists _, _. split; [done|]. split; [by exists m|].
      rewrite Hl, (dyn_elems_eq _ _ Hc), Hl, <- (dyn_elems_eq _ _ Hs). constructor.
    + eexists _, _. split; [done|]. split; [by exists m|]. by constructor.
Qed.

Lemma dyn_run_ok ops : forall s, dyn_ok s -> dyn_safe (bit_length s) (dyn_elems s) ops ->
  exists s' rs, dyn_run s ops = Some (s', rs) /\ dyn_ok s' /\
    set_run (bit_length s) (dyn_elems s) ops (bit_length s') (dyn_elems s') rs.
Proof.
  induction ops as [|o ops IH]; intros s Hs Hsafe; cbn [dyn_run].
  { exists s, []. split; [done|]. split; [done|constructor]. }
  destruct Hsafe as [Ho Hsafe]. destruct (dyn_step_ok s o Hs Ho) as (s1 & r & -> & Hs1 & Hst). cbn [mbind option_bind].
  destruct (IH s1 Hs1 (Hsafe _ _ _ Hst)) as (s' & rs & -> & Hs' & Hrun). cbn [mbind option_bind].
  exists s', (r :: rs). split; [done|]. split; [done|]. by econstructor.
Qed.
End Resize.
