(* ===== verification/MultiBitSetQuery.v ===== *)
(** Queries and iteration of the sets of several words, and the properties of
    these sets. *)
From Stdlib Require Import Sorting.Sorted.
From stdpp Require Import sorting.
From S2P Require Import Prelude BitSet MultiBitSet MultiBitSetSpec.

(** * What is left to visit *)

Section Iteration.
Context (KIND_SET DIR_FWD : bool).
Implicit Types (it : BitSetIterator) (p : list (Z * Z)).

(** The indices of one word, in order. *)
Definition word_list (w : Z) : list Z := default [] (iter_collect 64 DIR_FWD w).

Lemma iter_collect_mono fuel fuel' x l :
  iter_collect fuel DIR_FWD x = Some l -> (fuel <= fuel')%nat -> iter_collect fuel' DIR_FWD x = Some l.
Proof.
  revert fuel' x l. induction fuel as [|fuel IH]; intros fuel' x l; cbn [iter_collect];
    destruct (iter_next DIR_FWD x) as [[i rest]|] eqn:E; try done.
  - intros [= <-] _. destruct fuel'; cbn [iter_collect]; by rewrite E.
  - intros (k & Hk & [= <-])%bind_Some Hle. destruct fuel' as [|fuel']; [lia|]. cbn [iter_collect].
    rewrite E, (IH fuel' rest k Hk) by lia. done.
  - intros [= <-] _. destruct fuel'; cbn [iter_collect]; by rewrite E.
Qed.

Lemma word_list_ok w : is_u64 w ->
  iter_collect 64 DIR_FWD w = Some (word_list w) /\ StronglySorted (iter_lt DIR_FWD) (word_list w) /\
  forall i, i ∈ word_list w <-> 0 <= i < 64 /\ Z.testbit w i = true.
Proof.
  intros Hw. destruct (iter_collect_ok DIR_FWD 64 w Hw) as (l & Hl & Hs & Hi).
  { intros j Hj Hb. destruct DIR_FWD; [lia|]. destruct (Z.lt_ge_cases j 64); [lia|]. by rewrite u64_bits in Hb. }
  unfold word_list. rewrite Hl. cbn. split; [done|]. split; [done|]. intros i. rewrite Hi.
  split; [|tauto]. intros [H0 Hb]. split; [|done]. split; [done|].
  destruct (Z.lt_ge_cases i 64); [done|]. by rewrite u64_bits in Hb.
Qed.

Lemma iter_collect_S fuel x i rest l : iter_next DIR_FWD x = Some (i, rest) ->
  iter_collect (S fuel) DIR_FWD x = Some l -> exists k, iter_collect fuel DIR_FWD rest = Some k /\ l = i :: k.
Proof. cbn [iter_collect]. intros ->. intros (k & Hk & [= <-])%bind_Some. by exists k. Qed.

Lemma word_list_0 : word_list 0 = [].
Proof. done. Qed.

Lemma word_list_next w i rest : is_u64 w -> iter_next DIR_FWD w = Some (i, rest) ->
  is_u64 rest /\ word_list w = i :: word_list rest.
Proof.
  intros Hw Hn. pose proof (iter_next_spec DIR_FWD w Hw) as Hs. rewrite Hn in Hs. destruct Hs as (Hr & _).
  split; [done|]. destruct (word_list_ok w Hw) as (Hc & _).
  apply (iter_collect_S 63 _ _ _ _ Hn) in Hc as (l & Hl & ->). f_equal.
  apply (iter_collect_mono 63 64) in Hl; [|lia]. unfold word_list. by rewrite Hl.
Qed.

(** The words an iterator has still to load, with their offsets. *)
Inductive steps : BitSetIterator -> list (Z * Z) -> Prop :=
| steps_nil it : words_remain it = [] -> steps it []
| steps_cons it it' off w p :
    words_remain it <> [] -> next_word KIND_SET DIR_FWD false it = Some it' ->
    (if DIR_FWD then Some (bit_offset it' + BITS)
     else if BITS <=? bit_offset it' then Some (bit_offset it' - BITS) else None) = Some off ->
    bits_remain it' = w -> is_u64 w ->
    steps {| bits_remain := w; words_remain := words_remain it'; bit_offset := off;
             last_word_mask := last_word_mask it' |} p ->
    steps it ((off, w) :: p).

Definition flat p : list Z := p ≫= fun '(off, w) => Z.add off <$> word_list w.

Definition now it p : list (Z * Z) := (bit_offset it, bits_remain it) :: p.

Lemma steps_same it it' p : steps it p -> words_remain it' = words_remain it ->
  bit_offset it' = bit_offset it -> last_word_mask it' = last_word_mask it -> steps it' p.
Proof.
  intros Hs Hw Ho Hl. destruct Hs as [it Hn|it it1 off w p Hne Hnext Hoff Hbits Hu Hs].
  - apply steps_nil. congruence.
  - eapply steps_cons; [congruence|..|exact Hu|exact Hs]; [|exact Hoff|exact Hbits].
    revert Hnext. unfold next_word. by rewrite Hw, Ho, Hl.
Qed.

Lemma skip_empty_ok fuel : forall it p,
  steps it p -> is_u64 (bits_remain it) -> (length (words_remain it) <= fuel)%nat ->
  exists r, skip_empty_words KIND_SET DIR_FWD fuel it = Some r /\
    match r with
    | None => flat (now it p) = []
    | Some it' => exists p', steps it' p' /\ is_u64 (bits_remain it') /\ bits_remain it' <> 0 /\
        flat (now it' p') = flat (now it p)
    end.
Proof.
  induction fuel as [|fuel IH]; intros it p Hs Hu Hf; destruct (Z.eqb_spec (bits_remain it) 0) as [E|Hne].
  1,3: destruct Hs as [it Hn|it it' off w p Hn Hnext Hoff Hbits Hw Hs].
  - exists None. cbn [skip_empty_words]. rewrite E, Hn. split; [done|]. unfold flat, now. cbn [mbind list_bind]. by rewrite E, word_list_0.
  - destruct (words_remain it); [done|cbn in Hf; lia].
  - exists None. cbn [skip_empty_words]. rewrite E, Hn. split; [done|]. unfold flat, now. cbn [mbind list_bind]. by rewrite E, word_list_0.
  - cbn [skip_empty_words]. rewrite E. cbn [Z.eqb]. destruct (words_remain it) as [|w0 ws] eqn:Ew; [done|].
    rewrite Hnext. cbn [mbind option_bind]. rewrite Hoff. cbn [mbind option_bind]. rewrite Hbits.
    destruct (IH _ p Hs Hw) as (r & -> & Hr).
    { cbn [words_remain]. revert Hnext. unfold next_word. rewrite Ew. intros (x & Hx & [= <-])%bind_Some.
      cbn [words_remain]. cbn [length] in Hf. destruct DIR_FWD; cbn [drop]; [rewrite drop_0; lia|rewrite length_take; cbn [length]; lia]. }
    exists r. split; [done|].
    assert (flat (now it ((off, w) :: p)) = flat ((off, w) :: p)) as ->
      by (unfold flat, now; cbn [mbind list_bind]; by rewrite E, word_list_0).
    exact Hr.
  - exists (Some it). destruct (words_remain it) eqn:Ew; cbn [skip_empty_words];
      rewrite (proj2 (Z.eqb_neq _ _) Hne); (split; [done|]); by exists p.
  - exists (Some it). cbn [skip_empty_words]. rewrite (proj2 (Z.eqb_neq _ _) Hne). split; [done|]. by exists p.
Qed.

(** Collecting visits exactly what is planned. *)
Lemma collect_ok fuel : forall it p,
  steps it p -> is_u64 (bits_remain it) -> (length (flat (now it p)) <= fuel)%nat ->
  bit_set_collect KIND_SET DIR_FWD fuel it = Some (flat (now it p)).
Proof.
  induction fuel as [|fuel IH]; intros it p Hs Hu Hf;
    destruct (skip_empty_ok (length (words_remain it)) it p Hs Hu) as (r & Hr & Hcase); try done;
    cbn [bit_set_collect]; unfold bit_set_next; rewrite Hr; cbn [mbind option_bind];
    (destruct r as [it'|]; [|by rewrite Hcase]); destruct Hcase as (p' & Hs' & Hu' & Hne & Hfl); rewrite <- Hfl in *; clear Hfl;
    (destruct (iter_next DIR_FWD (bits_remain it')) as [[i rest]|] eqn:En;
      [|exfalso; pose proof (iter_next_spec DIR_FWD _ Hu') as H0; by rewrite En in H0]);
    destruct (word_list_next _ _ _ Hu' En) as [Hur Hw].
  - exfalso. revert Hf. unfold flat, now. cbn [mbind list_bind]. rewrite Hw. cbn. lia.
  - cbn [mbind option_bind]. set (it2 := {| bits_remain := rest; words_remain := words_remain it';
      bit_offset := bit_offset it'; last_word_mask := last_word_mask it' |}).
    assert (flat (now it' p') = (i + bit_offset it') :: flat (now it2 p')) as Hflat.
    { unfold flat, now, it2. cbn [mbind list_bind bit_offset bits_remain]. rewrite Hw. cbn. f_equal. lia. }
    rewrite Hflat in Hf |- *. cbn [length] in Hf. rewrite (IH it2 p'); [done|by eapply steps_same|done|lia].
Qed.
End Iteration.

Section Plan.
Context (KIND_SET : bool) (last : Z).
Implicit Types m : list Z.

(** A word as the iterator sees it. *)
Definition view (is_last : bool) (w : Z) : Z :=
  if KIND_SET then w else if is_last then Z.land (wnot w) last else wnot w.

Definition planned m : list (Z * Z) :=
  imap (fun k w => (64 * Z.of_nat k, view (k =? length m - 1)%nat w)) m.

Lemma view_u64 b w : is_u64 w -> is_u64 (view b w).
Proof. unfold view. repeat case_match; auto with words. Qed.

Lemma planned_lookup m k : planned m !! k = (fun w => (64 * Z.of_nat k, view (k =? length m - 1)%nat w)) <$> m !! k.
Proof. unfold planned. by rewrite list_lookup_imap. Qed.

Lemma length_planned m : length (planned m) = length m.
Proof. apply length_imap. Qed.

Lemma steps_fwd m bits d : Forall is_u64 m -> forall j, (length m = S j + d)%nat ->
  steps KIND_SET true {| bits_remain := bits; words_remain := drop (S j) m; bit_offset := 64 * Z.of_nat j;
    last_word_mask := last |} (drop (S j) (planned m)).
Proof.
  intros Hm. revert bits. induction d as [|d IH]; intros bits j Hl.
  - rewrite !drop_ge by (rewrite ?length_planned; lia). by apply steps_nil.
  - destruct (lookup_lt_is_Some_2 m (S j)) as [w Hw]; [lia|].
    assert (planned m !! S j = Some (64 * Z.of_nat (S j), view (S j =? length m - 1)%nat w)) as Hp
      by (by rewrite planned_lookup, Hw).
    rewrite (drop_S _ _ _ Hp). rewrite (drop_S _ _ _ Hw).
    assert (is_u64 w) as Huw by (rewrite Forall_lookup in Hm; by eapply Hm).
    eapply steps_cons; [done|cbn; reflexivity| | |by apply view_u64|].
    + cbn [bit_offset]. unfold BITS. f_equal. lia.
    + cbn [bits_remain]. unfold view. cbn [negb andb orb]. rewrite length_drop.
      assert ((length m - S (S j) =? 0)%nat = (S j =? length m - 1)%nat) as ->; [|done].
      destruct (Nat.eqb_spec (length m - S (S j)) 0), (Nat.eqb_spec (S j) (length m - 1)); lia.
    + cbn [words_remain last_word_mask]. rewrite drop_0. apply IH. lia.
Qed.

Lemma steps_rev m bits : Forall is_u64 m -> forall j, (j < length m)%nat ->
  steps KIND_SET false {| bits_remain := bits; words_remain := take j m; bit_offset := 64 * Z.of_nat j;
    last_word_mask := last |} (reverse (take j (planned m))).
Proof.
  intros Hm j. revert bits. induction j as [|j IH]; intros bits Hl; [by apply steps_nil|].
  destruct (lookup_lt_is_Some_2 m j) as [w Hw]; [lia|].
  assert (planned m !! j = Some (64 * Z.of_nat j, view false w)) as Hp.
  { rewrite planned_lookup, Hw. cbn. rewrite (proj2 (Nat.eqb_neq _ _)) by lia. done. }
  assert (is_u64 w) as Huw by (rewrite Forall_lookup in Hm; by eapply Hm).
  rewrite (take_S_r _ _ _ Hp), reverse_snoc.
  assert (length (take (S j) m) = S j) as Ht by (rewrite length_take; lia).
  eapply (steps_cons KIND_SET false _ {| bits_remain := view false w; words_remain := take j m;
    bit_offset := 64 * Z.of_nat (S j); last_word_mask := last |}); [| | |done|by apply view_u64|].
  - cbn [words_remain]. intros E. by rewrite E in Ht.
  - unfold next_word. cbn [words_remain bit_offset last_word_mask]. rewrite Ht.
    replace (S j - 1)%nat with j by lia. rewrite lookup_take_lt, Hw by lia. cbn [mbind option_bind negb andb orb].
    rewrite take_take, Nat.min_l by lia. unfold view. by destruct KIND_SET.
  - cbn [bit_offset]. unfold BITS. rewrite (proj2 (Z.leb_le _ _)) by lia. f_equal. lia.
  - cbn [words_remain last_word_mask]. apply IH. lia.
Qed.

(** The iterator of a set visits the words planned, in its direction. *)
Lemma iterator_ok DIR_FWD m : Forall is_u64 m ->
  exists it l, bit_set_iterator KIND_SET DIR_FWD m last = Some it /\
    l = flat DIR_FWD (if DIR_FWD then planned m else reverse (planned m)) /\
    forall fuel, (length l <= fuel)%nat -> bit_set_collect KIND_SET DIR_FWD fuel it = Some l.
Proof.
  intros Hm. destruct m as [|w m].
  { exists {| bits_remain := 0; words_remain := []; bit_offset := 0; last_word_mask := last |}, [].
    split; [done|]. split; [by destruct DIR_FWD|]. intros [|fuel] _; done. }
  set (ws := w :: m) in *. assert (length ws = S (length m)) as Hl by done.
  assert (exists it p, bit_set_iterator KIND_SET DIR_FWD ws last = Some it /\ steps KIND_SET DIR_FWD it p /\
    is_u64 (bits_remain it) /\ now it p = if DIR_FWD then planned ws else reverse (planned ws))
    as (it & p & Hit & Hs & Hu & Hp).
  { inversion Hm as [|?? Hw Hm']; subst. destruct DIR_FWD.
    - pose proof (steps_fwd ws (if KIND_SET then w else if (length m =? 0)%nat then Z.land (wnot w) last else wnot w) (length m) Hm 0 ltac:(lia)) as Hs.
      eexists _, _. split; [cbn; reflexivity|]. split; [exact Hs|]. split.
      + cbn [bits_remain]. unfold view. destruct KIND_SET; [done|]. case_match; auto with words.
      + unfold now. cbn [bit_offset bits_remain]. replace (planned ws) with (drop 0 (planned ws)) at 2 by apply drop_0.
        symmetry. apply drop_S. rewrite planned_lookup. cbn. unfold view.
        destruct KIND_SET; [done|]. destruct (length m); done.
    - destruct (lookup_lt_is_Some_2 ws (length m)) as [x Hx]; [lia|].
      assert (is_u64 x) as Hux by (rewrite Forall_lookup in Hm; by eapply Hm).
      pose proof (steps_rev ws (view true x) Hm (length m) ltac:(lia)) as Hs.
      eexists _, _. split; [|split; [exact Hs|split; [by apply view_u64|]]].
      + unfold bit_set_iterator, next_word. cbn [words_remain bit_offset last_word_mask]. fold ws.
        rewrite Hl. replace (S (length m) - 1)%nat with (length m) by lia. unfold ws at 1. fold ws.
        rewrite Hx. cbn [mbind option_bind negb andb orb]. unfold view, BITS. rewrite (Z.mul_comm 64). by destruct KIND_SET.
      + unfold now. cbn [bit_offset bits_remain].
        assert (planned ws !! length m = Some (64 * Z.of_nat (length m), view true x)) as Hp.
        { rewrite planned_lookup, Hx. cbn. replace (length m - 0)%nat with (length m) by lia. by rewrite Nat.eqb_refl. }
        rewrite <- (take_ge (planned ws) (S (length m))) at 2 by (rewrite length_planned; lia).
        by rewrite (take_S_r _ _ _ Hp), reverse_snoc. }
  exists it, (flat DIR_FWD (now it p)). split; [done|]. split; [by rewrite Hp|]. intros fuel Hf. by apply collect_ok.
Qed.
End Plan.

(** * The indices planned *)

Lemma strongly_sorted_lookup {X} (R : X -> X -> Prop) (l : list X) :
  (forall j k x y, (j < k)%nat -> l !! j = Some x -> l !! k = Some y -> R x y) -> StronglySorted R l.
Proof.
  induction l as [|x l IH]; intros H; constructor.
  - apply IH. intros j k y z Hjk Hj Hk. apply (H (S j) (S k)); [lia|done..].
  - apply Forall_lookup. intros k y Hk. apply (H O (S k)); [lia|done..].
Qed.

Lemma flat_elem DIR_FWD p i : Forall (fun '(_, w) => is_u64 w) p ->
  i ∈ flat DIR_FWD p <-> exists off w, (off, w) ∈ p /\ 0 <= i - off < 64 /\ Z.testbit w (i - off) = true.
Proof.
  intros Hp. unfold flat. rewrite list_elem_of_bind. split.
  - intros ([off w] & Hi & Hin). apply list_elem_of_fmap in Hi as (j & -> & Hj).
    rewrite Forall_forall in Hp. specialize (Hp _ Hin). cbn in Hp.
    apply (word_list_ok DIR_FWD w Hp) in Hj. exists off, w. replace (off + j - off) with j by lia. tauto.
  - intros (off & w & Hin & Hi & Hb). exists (off, w). split; [|done]. apply list_elem_of_fmap.
    exists (i - off). split; [lia|]. rewrite Forall_forall in Hp. specialize (Hp _ Hin). by apply word_list_ok.
Qed.

Definition later (DIR_FWD : bool) (x y : Z * Z) : Prop := if DIR_FWD then fst x + 64 <= fst y else fst y + 64 <= fst x.

Lemma flat_sorted DIR_FWD p : Forall (fun '(_, w) => is_u64 w) p -> StronglySorted (later DIR_FWD) p ->
  StronglySorted (iter_lt DIR_FWD) (flat DIR_FWD p).
Proof.
  intros Hp. induction 1 as [|[off w] p Hs IH Hlater]; [constructor|]. inversion Hp as [|?? Hw Hp']; subst.
  unfold flat. cbn [mbind list_bind]. fold (flat DIR_FWD p). destruct (word_list_ok DIR_FWD w Hw) as (_ & Hws & Hwi).
  apply StronglySorted_app_2; [|clear -Hws|by apply IH].
  - intros x y Hx Hy. apply list_elem_of_fmap in Hx as (j & -> & [Hj _]%Hwi).
    apply (flat_elem DIR_FWD p) in Hy as (off' & w' & Hin & Hy & _); [|done].
    rewrite Forall_forall in Hlater. specialize (Hlater _ Hin). unfold later, iter_lt in *. cbn in Hlater.
    destruct DIR_FWD; lia.
  - induction Hws as [|j l Hs IH Hall]; cbn; constructor; [done|]. apply Forall_fmap.
    eapply Forall_impl; [exact Hall|]. cbn. intros k. unfold iter_lt. destruct DIR_FWD; lia.
Qed.

Section Planned.
Context (KIND_SET DIR_FWD : bool) (n : Z) (Hn : 0 <= n) (m : list Z) (Hm : well_formed n m).
Notation last := (last_item_mask (num_masks_for n) n).
Notation order := (if DIR_FWD then planned KIND_SET last m else reverse (planned KIND_SET last m)).

Lemma order_elem x : x ∈ order <-> x ∈ planned KIND_SET last m.
Proof. destruct DIR_FWD; [done|]. apply elem_of_reverse. Qed.

Lemma planned_elem off w : (off, w) ∈ planned KIND_SET last m <->
  exists k x, m !! k = Some x /\ off = 64 * Z.of_nat k /\ w = view KIND_SET last (k =? length m - 1)%nat x.
Proof.
  rewrite list_elem_of_lookup. split.
  - intros (k & Hk). rewrite planned_lookup in Hk. apply fmap_Some in Hk as (x & Hx & [= -> ->]). by exists k, x.
  - intros (k & x & Hx & -> & ->). exists k. by rewrite planned_lookup, Hx.
Qed.

Lemma order_u64 : Forall (fun '(_, w) => is_u64 w) order.
Proof.
  apply Forall_forall. intros [off w] (k & x & Hx & -> & ->)%order_elem%planned_elem. apply view_u64.
  destruct Hm as (_ & Hu & _). rewrite Forall_lookup in Hu. by eapply Hu.
Qed.

Lemma order_sorted : StronglySorted (later DIR_FWD) order.
Proof.
  apply strongly_sorted_lookup. intros j k [o1 w1] [o2 w2] Hjk Hj Hk. unfold later. destruct DIR_FWD.
  - rewrite planned_lookup in Hj, Hk. apply fmap_Some in Hj as (? & _ & [= -> _]). apply fmap_Some in Hk as (? & _ & [= -> _]).
    cbn. lia.
  - apply reverse_lookup_Some in Hj as [Hj Hj'], Hk as [Hk Hk']. rewrite planned_lookup in Hj, Hk.
    apply fmap_Some in Hj as (? & _ & [= -> _]). apply fmap_Some in Hk as (? & _ & [= -> _]). cbn. lia.
Qed.

(** A bit of a word in view is membership, or its absence below [n]. *)
Lemma view_bit k x j : m !! k = Some x -> 0 <= j < 64 ->
  Z.testbit (view KIND_SET last (k =? length m - 1)%nat x) j =
  Bool.eqb (mbit m (64 * Z.of_nat k + j)) KIND_SET && (64 * Z.of_nat k + j <? n).
Proof.
  intros Hx Hj. pose proof (num_masks_spec n Hn) as Hs. pose proof Hm as (Hl & _ & Hpad).
  apply lookup_lt_Some in Hx as Hk. assert (mbit m (64 * Z.of_nat k + j) = Z.testbit x j) as Hb.
  { unfold mbit. rewrite (Z.mul_comm 64), Z.div_add_l, Z.div_small, Z.add_0_r, Nat2Z.id, Hx by lia.
    by rewrite Z.add_comm, Z.mod_add, Z.mod_small by lia. }
  rewrite Hb. unfold view. destruct KIND_SET.
  - destruct (Z.testbit x j) eqn:E; [cbn|done]. symmetry. apply Z.ltb_lt.
    destruct (Z.lt_ge_cases (64 * Z.of_nat k + j) n); [done|]. by rewrite Hpad in Hb.
  - assert (Bool.eqb (Z.testbit x j) false = negb (Z.testbit x j)) as -> by by destruct (Z.testbit x j).
    destruct (Nat.eqb_spec k (length m - 1)) as [->|Hne]; rewrite ?Z.land_spec, bit_wnot by lia;
      rewrite (proj2 (Z.ltb_lt j 64)) by lia; cbn [andb].
    + rewrite bit_last_mask by lia. f_equal. f_equal. lia.
    + rewrite (proj2 (Z.ltb_lt _ n)) by lia. by rewrite andb_true_r.
Qed.

Lemma flat_order_elem i : i ∈ flat DIR_FWD order <-> 0 <= i < n /\ mbit m i = KIND_SET.
Proof.
  rewrite flat_elem by apply order_u64. pose proof (num_masks_spec n Hn) as Hs. split.
  - intros (off & w & Hin & Hi & Hb). apply order_elem, planned_elem in Hin as (k & x & Hx & -> & ->).
    rewrite (view_bit k x _ Hx Hi) in Hb. replace (64 * Z.of_nat k + (i - 64 * Z.of_nat k)) with i in Hb by lia.
    apply andb_true_iff in Hb as [Hb Hlt]. split; [lia|by apply Bool.eqb_prop].
  - intros [Hi Hb]. pose proof (Z.mod_pos_bound i 64 ltac:(lia)). pose proof (Z.div_mod i 64 ltac:(lia)).
    pose proof (Z.div_pos i 64 ltac:(lia) ltac:(lia)).
    destruct (lookup_lt_is_Some_2 m (Z.to_nat (i / 64))) as [x Hx]; [apply bit_word_lt; rewrite (proj1 Hm); lia|].
    eexists _, _. split; [apply order_elem, planned_elem; by eexists _, _|]. split; [lia|].
    rewrite (view_bit _ x _ Hx) by lia. replace (64 * _ + _) with i by lia. rewrite Hb, Bool.eqb_reflx. cbn. lia.
Qed.

Lemma flat_order_sorted : StronglySorted (iter_lt DIR_FWD) (flat DIR_FWD order).
Proof. apply flat_sorted; [apply order_u64|apply order_sorted]. Qed.

Lemma sorted_nodup l : StronglySorted (iter_lt DIR_FWD) l -> NoDup l.
Proof.
  induction 1 as [|x l Hs IH Hall]; constructor; [|done]. intros Hx. rewrite Forall_forall in Hall.
  specialize (Hall _ Hx). unfold iter_lt in Hall. destruct DIR_FWD; lia.
Qed.
End Planned.

(** * Counting *)

Lemma filter_shift (P : Z -> Prop) `{!forall x, Decision (P x)} d l :
  length (filter P (Z.add d <$> l)) = length (filter (fun x => P (d + x)) l).
Proof.
  induction l as [|x l IH]; [done|]. rewrite fmap_cons, !filter_cons. repeat case_decide; cbn; auto; done.
Qed.

Lemma filter_length_ext (P Q : Z -> Prop) `{!forall x, Decision (P x)} `{!forall x, Decision (Q x)} l :
  (forall x, x ∈ l -> P x <-> Q x) -> length (filter P l) = length (filter Q l).
Proof.
  induction l as [|x l IH]; intros Hext; [done|]. rewrite !filter_cons. pose proof (Hext x ltac:(by left)).
  repeat case_decide; try tauto; cbn; rewrite IH; (done || intros; apply Hext; by right).
Qed.

Lemma words_count_length m :
  words_count m = length (filter (fun i => mbit m i = true) (seqZ 0 (64 * Z.of_nat (length m)))).
Proof.
  induction m as [|w m IH]; [done|]. cbn [words_count foldr]. fold (words_count m). rewrite IH.
  replace (64 * Z.of_nat (length (w :: m))) with (64 + 64 * Z.of_nat (length m)) by (cbn; lia).
  rewrite seqZ_app, filter_app, length_app by lia. apply (f_equal2 Nat.add).
  - unfold count_ones, BITS. apply filter_length_ext. intros i Hi%elem_of_seqZ. rewrite mbit_cons by lia.
    by rewrite (proj2 (Z.ltb_lt _ _)) by lia.
  - replace (0 + 64) with (64 + 0) by lia. rewrite <- (fmap_add_seqZ 64 0), filter_shift.
    apply filter_length_ext. intros i Hi%elem_of_seqZ. rewrite mbit_cons, (proj2 (Z.ltb_ge _ _)) by lia.
    by replace (64 + i - 64) with i by lia.
Qed.

Lemma words_count_members n m : 0 <= n -> well_formed n m -> words_count m = size (members n m).
Proof.
  intros Hn (Hl & Hu & Hpad). pose proof (num_masks_spec n Hn). unfold members.
  rewrite size_list_to_set by apply NoDup_filter, NoDup_seqZ. rewrite words_count_length.
  replace (64 * Z.of_nat (length m)) with (n + (64 * Z.of_nat (length m) - n)) by lia.
  rewrite seqZ_app, filter_app, length_app by lia.
  assert (filter (fun i => mbit m i = true) (seqZ (0 + n) (64 * Z.of_nat (length m) - n)) = []) as ->; [|cbn; lia].
  apply filter_none. intros i Hi%elem_of_seqZ. rewrite Hpad by lia. done.
Qed.

(** * Relations between two sets *)

Section Relations.
Context (n : Z) (Hn : 0 <= n) (a b : list Z) (Ha : well_formed n a) (Hb : well_formed n b).

Lemma pair_words_eq (f g : Z -> Z -> Z) x y : length x = length y ->
  negb (any_pair (fun x y => negb (f x y =? g x y)) x y) = true <-> zip_with f x y = zip_with g x y.
Proof.
  unfold any_pair. revert y. induction x as [|w x IH]; intros [|v y]; cbn [zip_with zip existsb length]; try done.
  intros [= Hl]. rewrite negb_orb, negb_involutive, andb_true_iff, Z.eqb_eq, IH by done. split; [intros [-> ->]; done|by intros [=]].
Qed.

Lemma zip_with_fst (x y : list Z) : length x = length y -> zip_with (fun x _ => x) x y = x.
Proof. revert y. induction x as [|w x IH]; intros [|v y]; cbn; try done. intros [= H]. by rewrite IH. Qed.

Lemma zip_with_snd (x y : list Z) : length x = length y -> zip_with (fun _ y => y) x y = y.
Proof. revert y. induction x as [|w x IH]; intros [|v y]; cbn; try done. intros [= H]. by rewrite IH. Qed.

Lemma same_length : length a = length b.
Proof. by rewrite (proj1 Ha), (proj1 Hb). Qed.

Lemma well_formed_ext x y : well_formed n x -> well_formed n y -> members n x = members n y -> x = y.
Proof.
  intros Hx Hy He. apply well_formed_rep in Hx as Hrx, Hy as Hry.
  apply mbit_ext; [by rewrite (proj1 Hx), (proj1 Hy)|apply Hx|apply Hy|]. intros i Hi.
  rewrite (proj2 (proj2 Hrx)), (proj2 (proj2 Hry)) by lia. destruct (Z.ltb_spec i n); [|by rewrite !andb_false_r].
  f_equal. pose proof (elem_of_members n x i) as H1. pose proof (elem_of_members n y i) as H2. rewrite He in H1.
  destruct (mbit x i), (mbit y i); try done; naive_solver lia.
Qed.

Lemma land_rep : rep n (zip_with Z.land a b) (fun i => mbit a i && mbit b i).
Proof.
  apply (rep_zip n Hn a b _ _ Z.land andb); [by apply well_formed_rep..|auto with words|zip_bits|done].
Qed.

Lemma land_members : members n (zip_with Z.land a b) = members n a ∩ members n b.
Proof.
  eapply rep_members; [apply land_rep|]. intros i. rewrite elem_of_intersection, !elem_of_members, andb_true_iff. tauto.
Qed.

Lemma land_well_formed : well_formed n (zip_with Z.land a b).
Proof. apply (rep_well_formed n Hn _ _ land_rep). Qed.

Lemma words_eql : negb (any_pair (fun x y => negb (x =? y)) a b) = true <-> members n a = members n b.
Proof.
  rewrite (pair_words_eq (fun x _ => x) (fun _ y => y)) by apply same_length.
  rewrite zip_with_fst, zip_with_snd by apply same_length. split; [by intros ->|by apply well_formed_ext].
Qed.

Lemma words_subset : zip_with Z.land a b = a <-> members n a ⊆ members n b.
Proof.
  assert (zip_with Z.land a b = a <-> members n a ∩ members n b = members n a) as ->; [|set_solver].
  rewrite <- land_members. split; [by intros ->|]. apply well_formed_ext; [apply land_well_formed|done].
Qed.

Lemma words_superset : zip_with Z.land a b = b <-> members n b ⊆ members n a.
Proof.
  assert (zip_with Z.land a b = b <-> members n a ∩ members n b = members n b) as ->; [|set_solver].
  rewrite <- land_members. split; [by intros ->|]. apply well_formed_ext; [apply land_well_formed|done].
Qed.

Lemma words_intersect :
  any_pair (fun x y => negb (Z.land x y =? 0)) a b = true <-> members n a ∩ members n b <> ∅.
Proof.
  rewrite <- land_members. rewrite <- not_false_iff_true, <- negb_true_iff.
  rewrite (pair_words_eq Z.land (fun _ _ => 0)) by apply same_length.
  assert (zip_with (fun _ _ => 0) a b = replicate (num_masks_for n) 0) as ->.
  { rewrite <- (proj1 Ha). generalize same_length. generalize a, b. clear.
    induction a as [|w x IH]; intros [|v y]; cbn; try done. intros [= H]. by rewrite IH. }
  assert (well_formed n (replicate (num_masks_for n) 0) /\ members n (replicate (num_masks_for n) 0) = ∅) as [Hw Hm].
  { assert (forall i, mbit (replicate (num_masks_for n) 0) i = false) as Hz.
    { intros i. unfold mbit. destruct (_ !! _) as [w|] eqn:E; [|done]. apply lookup_replicate in E as [-> _]. apply Z.bits_0. }
    split; [split; [len|]; split; [by apply Forall_replicate|intros; apply Hz]|].
    apply set_eq. intros i. rewrite elem_of_members, Hz. split; [by intros []|by intros ?%not_elem_of_empty]. }
  split; [|by intros Hne Heq; apply Hne; rewrite Heq].
  intros Hne Heq. apply Hne. apply well_formed_ext; [apply land_well_formed|done|congruence].
Qed.
End Relations.

(** * The two kinds of sets *)

Lemma array_eql n a b : well_formed n a -> well_formed n b ->
  ArrayBitSet.eql a b = true <-> members n a = members n b.
Proof. intros Ha Hb. unfold ArrayBitSet.eql. by apply words_eql. Qed.

Lemma array_subset n a b : 0 <= n -> well_formed n a -> well_formed n b ->
  ArrayBitSet.subset_of a b = true <-> members n a ⊆ members n b.
Proof.
  intros Hn Ha Hb. unfold ArrayBitSet.subset_of, ArrayBitSet.intersect_with, ArrayBitSet.set_intersection.
  rewrite zip_words_zip by by rewrite (proj1 Ha), (proj1 Hb).
  rewrite (array_eql n) by (by apply land_well_formed || done). rewrite land_members by done. set_solver.
Qed.

Lemma dyn_relations s t a b : dyn_masks s a -> dyn_masks t b -> bit_length s = bit_length t ->
  let n := bit_length s in
  (exists r, DynamicBitSet.eql s t = Some r /\ (r = true <-> members n a = members n b)) /\
  (exists r, DynamicBitSet.subset_of s t = Some r /\ (r = true <-> members n a ⊆ members n b)) /\
  (exists r, DynamicBitSet.superset_of s t = Some r /\ (r = true <-> members n b ⊆ members n a)) /\
  (exists r, DynamicBitSet.has_intersection s t = Some r /\ (r = true <-> members n a ∩ members n b <> ∅)).
Proof.
  intros Hs Ht Hl n. pose proof (dyn_masks_slice _ _ Hs) as Hsl. pose proof (dyn_masks_slice _ _ Ht) as Htl.
  pose proof Hs as (Hn & Ha & _). pose proof Ht as (_ & Hb & _). fold n in Hn, Ha. rewrite <- Hl in Hb. fold n in Hb.
  unfold DynamicBitSet.eql, DynamicBitSet.subset_of, DynamicBitSet.superset_of, DynamicBitSet.has_intersection.
  rewrite (proj2 (Z.eqb_eq _ _) Hl), Hsl, Htl. cbn [negb mbind option_bind].
  assert (length a = length b) as Hab by by rewrite (proj1 Ha), (proj1 Hb).
  repeat split; eexists; (split; [done|]).
  - rewrite bool_decide_eq_true. split; [by intros ->|by apply well_formed_ext].
  - rewrite (pair_words_eq Z.land (fun x _ => x)), zip_with_fst by done. by apply words_subset.
  - rewrite (pair_words_eq Z.land (fun _ y => y)), zip_with_snd by done. by apply words_superset.
  - by apply words_intersect.
Qed.

(** * The list of sets and the two-armed set *)

(** An update of one view leaves the others alone. *)
Lemma put_at l i s l' : BitSetList.put l i s = Some l' -> length (alloc s) = BitSetList.block l ->
  bit_length s = list_bit_length l ->
  BitSetList.at_ l' i = Some s /\ forall k, k <> i -> BitSetList.at_ l' k = BitSetList.at_ l k.
Proof.
  unfold BitSetList.put, BitSetList.at_. intros H Ha Hl.
  destruct (copy_from_slice (list_buf l) (BitSetList.block l * i) (alloc s)) as [b|] eqn:E; [|done].
  injection H as <-. unfold BitSetList.block in *. cbn [list_buf list_bit_length]. set (w := (num_masks_for (list_bit_length l) + 1)%nat) in *. clearbody w.
  assert (w * i + w <= length (list_buf l))%nat as Hfit by (revert E; unfold copy_from_slice; case_decide; [lia|done]).
  destruct (copy_lookup (list_buf l) (alloc s) (w * i)) as (b' & Hb' & Hlen & Hk); [lia|].
  rewrite E in Hb'. injection Hb' as <-. rewrite Ha in Hk.
  assert (forall k, slice b (w * k) (w * k + w) = if decide (k = i) then Some (alloc s) else slice (list_buf l) (w * k) (w * k + w)) as Hs.
  { intros k. unfold slice. rewrite Hlen. case_decide as Hr; [|case_decide as Hki; [subst; lia|done]].
    replace (w * k + w - w * k)%nat with w by lia.
    case_decide as Hki; f_equal; apply list_eq; intros j; (destruct (decide (j < w)%nat) as [Hj|Hj];
      [rewrite !lookup_take_lt, !lookup_drop by lia|rewrite !lookup_ge_None_2; rewrite ?length_take; (done || lia)]); rewrite Hk.
    - subst k. rewrite decide_True by lia. f_equal. lia.
    - rewrite decide_False; [done|]. destruct (Nat.lt_ge_cases k i); nia. }
  rewrite Hs, decide_True by done. cbn [mbind option_bind]. split; [rewrite <- Hl; by destruct s|].
  intros k Hne. by rewrite Hs, decide_False by done.
Qed.

Lemma array_init_full SIZE : 0 <= SIZE ->
  exists m, ArrayBitSet.init_full SIZE (num_masks_for SIZE) = Some m /\ well_formed SIZE m /\ members SIZE m = universe SIZE.
Proof.
  intros HS. unfold ArrayBitSet.init_full, ArrayBitSet.LAST_ITEM_MASK.
  assert (exists m, rep SIZE m (fun _ => true) /\
    (if (num_masks_for SIZE =? 0)%nat then Some (replicate (num_masks_for SIZE) 0)
     else update_word (replicate (num_masks_for SIZE) U64_MAX) (num_masks_for SIZE - 1)
            (fun _ => last_item_mask (num_masks_for SIZE) SIZE)) = Some m) as (m & Hr & Hm).
  { destruct (Nat.eqb_spec (num_masks_for SIZE) 0) as [E|Hne].
    - apply num_masks_0 in E; [|done]. subst. exists []. split; [|done]. apply (rep_0 _ (fun _ => false)).
      split; [done|]. split; [constructor|]. intros i Hi. done.
    - assert (0 < SIZE) as H0 by (pose proof (num_masks_0 SIZE HS); lia).
      destruct (rep_const SIZE HS U64_MAX) as (m & Hm & Hr); [split; by vm_compute|done|]. exists m. split.
      + eapply rep_ext; [|exact Hr]. intros i Hi. cbn beta. rewrite bit_max. pose proof (Z.mod_pos_bound i 64 ltac:(lia)). lia.
      + rewrite <- Hm. unfold mask_last, update_word. rewrite lookup_replicate_2 by lia. cbn [mbind option_bind].
        do 2 f_equal. apply Z.bits_inj'. intros i Hi. rewrite Z.land_spec, bit_last_mask, bit_max by lia.
        pose proof (num_masks_spec SIZE HS). bit_cases. }
  exists m. split; [done|]. split; [by eapply rep_well_formed|]. eapply rep_members; [done|].
  intros i. rewrite elem_of_universe. tauto.
Qed.

Section Enumeration.
Context (n : Z) (m l : list Z) (Hn : 0 <= n) (Hm : well_formed n m).

(** The length of a duplicate-free enumeration of the elements. *)
Lemma count_is_length fwd : StronglySorted (iter_lt fwd) l ->
  (forall i, i ∈ l <-> 0 <= i < n /\ mbit m i = true) -> words_count m = length l.
Proof.
  intros Hs Hi. rewrite (words_count_members n m Hn Hm).
  assert (members n m = list_to_set l) as -> by (apply set_eq; intros i; by rewrite elem_of_members, elem_of_list_to_set, Hi).
  apply size_list_to_set, (sorted_nodup fwd l Hs).
Qed.

Lemma find_first_is_head : StronglySorted Z.lt l ->
  (forall i, i ∈ l <-> 0 <= i < n /\ mbit m i = true) -> words_find_first 0 m = head l.
Proof.
  intros Hs Hi. rewrite words_find_toggle. apply well_formed_rep in Hm as Hr.
  pose proof (rep_toggle_first n m _ Hn Hr) as Ht. destruct (words_toggle_first 0 m) as [m' [k|]]; destruct Ht as [_ Ht]; cbn [snd].
  - destruct Ht as [Hk Hle]. rewrite elem_of_members, <- Hi in Hk. destruct l as [|x l']; [by apply not_elem_of_nil in Hk|].
    cbn. f_equal. inversion Hs as [|?? _ Hall]; subst. apply elem_of_cons in Hk as [->|Hk]; [done|].
    rewrite Forall_forall in Hall. specialize (Hall _ Hk).
    assert (x ∈ members n m) as Hx by (apply elem_of_members, Hi; by left). specialize (Hle _ Hx). cbn in Hle. lia.
  - destruct l as [|x l']; [done|]. exfalso. assert (x ∈ members n m) as Hx by (apply elem_of_members, Hi; by left).
    rewrite Ht in Hx. by apply not_elem_of_empty in Hx.
Qed.
End Enumeration.

Module MultiBitSetProps.

(** C15: the sets of several words refine finite sets: from any well-formed
    state, any sequence of operations within the preconditions runs without
    an access out of bounds and leaves a well-formed set (whole words, no
    padding bit) with the elements the sequence gives on finite sets.  This
    holds for arrays of any size, and for dynamic sets under any allocator,
    resizing, cloning and copying included: a refused allocation is an error
    that changes nothing, and only growing can meet it. *)
Theorem bit_sets_refine_finite_sets :
  (forall SIZE, 0 <= SIZE ->
    members SIZE (ArrayBitSet.init_empty (num_masks_for SIZE)) = ∅ /\
    (exists m, ArrayBitSet.init_full SIZE (num_masks_for SIZE) = Some m /\ well_formed SIZE m /\ members SIZE m = universe SIZE) /\
    forall m ops, well_formed SIZE m ->
      Forall (legal_op (fun _ => SIZE) (well_formed SIZE) SIZE) ops ->
      exists m', @apply_ops _ (array_ops SIZE) m ops = Some m' /\ well_formed SIZE m' /\
        members SIZE m' = foldl (model_op SIZE) (members SIZE m) (bit_op_map (members SIZE) <$> ops)) /\
  (forall sys_realloc, Allocator sys_realloc ->
    (forall n fill r, 0 <= n -> DynamicBitSet.init sys_realloc n fill = Some (Ok r) ->
      dyn_ok r /\ bit_length r = n /\ dyn_elems r = if fill then universe n else ∅) /\
    forall s ops, dyn_ok s -> dyn_safe (bit_length s) (dyn_elems s) ops ->
      exists s' rs, dyn_run sys_realloc s ops = Some (s', rs) /\ dyn_ok s' /\
        set_run (bit_length s) (dyn_elems s) ops (bit_length s') (dyn_elems s') rs).
Proof.
  split.
  - intros SIZE HS. split; [|split].
    + apply set_eq. intros i. rewrite elem_of_members. split; [|by intros ?%not_elem_of_empty]. intros [Hi Hb].
      unfold ArrayBitSet.init_empty in Hb. pose proof (num_masks_spec SIZE HS). by rewrite mbit_replicate, Z.bits_0 in Hb by lia.
    + apply array_init_full. done.
    + intros m ops Hm Hops. destruct (@apply_ops_ok _ _ (array_laws SIZE HS) ops m Hm Hops) as (m' & ? & ? & _ & ?).
      by exists m'.
  - intros sr Hsr. split; [|intros; by apply dyn_run_ok]. intros n fill r Hn Hr.
    destruct (init_ok sr n fill Hn) as (r' & Hr' & Hok). rewrite Hr in Hr'. injection Hr' as <-.
    destruct Hok as (m & Hm & Hl & Hrep). split; [by exists m|]. split; [done|]. apply set_eq. intros i.
    rewrite <- Hl in Hrep. rewrite (rep_dyn_elems _ _ _ Hm Hrep), Hl. destruct fill; rewrite ?elem_of_universe; [tauto|].
    split; [by intros []|by intros ?%not_elem_of_empty].
Qed.

(** C17: the queries of a set of several words agree with its elements.
    Iteration, of set or unset indices and in either direction, terminates and
    yields exactly the right indices, each once and in order; [count] is their
    number and [find_first_set] the first of them; [is_set] decides
    membership, [eql], [subset_of], [superset_of] and [has_intersection] the
    relations of sets.  The array and the dynamic set give the same answers. *)
Theorem multi_bit_set_queries n m kind fwd :
  0 <= n -> well_formed n m ->
  let S := members n m in
  let NUM := num_masks_for n in
  exists l, StronglySorted (iter_lt fwd) l /\ (forall i, i ∈ l <-> 0 <= i < n /\ bool_decide (i ∈ S) = kind) /\
    (exists it, ArrayBitSet.iterator n NUM kind fwd m = Some it /\ bit_set_collect kind fwd (length l) it = Some l) /\
    (kind = true -> ArrayBitSet.count m = length l) /\
    (kind = true -> fwd = true -> ArrayBitSet.find_first_set m = head l) /\
    (forall i, 0 <= i < n -> ArrayBitSet.is_set NUM m i = Some (bool_decide (i ∈ S))) /\
    (forall m2, well_formed n m2 -> let T := members n m2 in
      (ArrayBitSet.eql m m2 = true <-> S = T) /\ (ArrayBitSet.subset_of m m2 = true <-> S ⊆ T) /\
      (ArrayBitSet.superset_of m m2 = true <-> T ⊆ S) /\ (ArrayBitSet.has_intersection m m2 = true <-> S ∩ T <> ∅)) /\
    (forall s, dyn_masks s m -> bit_length s = n ->
      DynamicBitSet.iterator kind fwd s = ArrayBitSet.iterator n NUM kind fwd m /\
      DynamicBitSet.count s = Some (ArrayBitSet.count m) /\
      DynamicBitSet.find_first_set s = Some (ArrayBitSet.find_first_set m) /\
      (forall i oob, 0 <= i -> DynamicBitSet.is_set_allow_out_of_bound s i oob =
         Some (if i <? n then bool_decide (i ∈ S) else oob)) /\
      (forall s2 m2, dyn_masks s2 m2 -> bit_length s2 = n -> let T := members n m2 in
        (exists r, DynamicBitSet.eql s s2 = Some r /\ (r = true <-> S = T)) /\
        (exists r, DynamicBitSet.subset_of s s2 = Some r /\ (r = true <-> S ⊆ T)) /\
        (exists r, DynamicBitSet.superset_of s s2 = Some r /\ (r = true <-> T ⊆ S)) /\
        (exists r, DynamicBitSet.has_intersection s s2 = Some r /\ (r = true <-> S ∩ T <> ∅)))).
Proof.
  intros Hn Hm S NUM. pose proof Hm as (_ & Hu & _). apply well_formed_rep in Hm as Hrep.
  destruct (iterator_ok kind (last_item_mask NUM n) fwd m Hu) as (it & l & Hit & Hl & Hc).
  pose proof (flat_order_elem kind fwd n Hn m Hm) as Hel. pose proof (flat_order_sorted kind fwd n m Hm) as Hso.
  fold NUM in Hel, Hso. rewrite <- Hl in Hel, Hso.
  assert (forall i, 0 <= i < n -> bool_decide (i ∈ S) = mbit m i) as HS.
  { intros i Hi. unfold S. destruct (mbit m i) eqn:E; [apply bool_decide_eq_true_2|apply bool_decide_eq_false_2];
      rewrite elem_of_members; [done|rewrite E; by intros []]. }
  assert (forall i, 0 <= i < n -> word_is_set m i = Some (bool_decide (i ∈ S))) as His
    by (intros i Hi; rewrite HS by done; by apply (rep_is_set n Hn)).
  exists l. split; [done|]. split; [intros i; rewrite Hel; split; intros [Hi ?]; (split; [done|]); by rewrite HS in *|].
  split; [exists it; split; [done|by apply Hc]|].
  split; [intros ->; by apply (count_is_length n m l Hn Hm fwd)|].
  split; [intros -> ->; by apply (find_first_is_head n m l Hn Hm)|].
  split; [intros i Hi; unfold ArrayBitSet.is_set; pose proof (num_masks_0 n Hn); fold NUM in H;
          rewrite (proj2 (Nat.eqb_neq NUM 0)) by lia; by apply His|].
  split.
  - intros m2 Hm2 T. split; [by apply array_eql|]. split; [by apply array_subset|]. split; [by apply array_subset|by apply words_intersect].
  - intros s Hs Hb. pose proof (dyn_masks_slice _ _ Hs) as Hsl. split; [|split; [|split; [|split]]].
    + unfold DynamicBitSet.iterator. rewrite Hsl, Hb. done.
    + unfold DynamicBitSet.count. by rewrite Hsl.
    + unfold DynamicBitSet.find_first_set. by rewrite Hsl.
    + intros i oob Hi. unfold DynamicBitSet.is_set_allow_out_of_bound. rewrite Hb, Hsl.
      destruct (Z.leb_spec n i), (Z.ltb_spec i n); try lia; [done|]. apply His. lia.
    + intros s2 m2 Hs2 Hb2 T. pose proof (dyn_relations s s2 m m2 Hs Hs2) as Hrel. rewrite Hb, Hb2 in Hrel. by apply Hrel.
Qed.

(** [copy_into] of a dynamic set copies as many words as the destination
    needs from the source's allocation.  It succeeds exactly when that has so many
    (or the destination is empty); the destination then holds the bits of those
    words below its own length: the elements of the source, when the source needs
    as many words, and otherwise also what the allocation's spare words were left
    with.  Copying into a set of more words than the allocation has, which its
    comment asks for and the package installer does, reads past its end. *)
Theorem copy_into_needs_a_long_source src dst :
  dyn_ok src -> dyn_ok dst ->
  match DynamicBitSet.managed_copy_into src dst with
  | None => bit_length dst <> 0 /\ (length (alloc src) < 1 + num_masks_for (bit_length dst))%nat
  | Some dst' =>
    (bit_length dst = 0 \/ (1 + num_masks_for (bit_length dst) <= length (alloc src))%nat) /\ dyn_ok dst' /\ bit_length dst' = bit_length dst /\
    (forall i, i ∈ dyn_elems dst' <-> 0 <= i < bit_length dst /\ mbit (drop 1 (alloc src)) i = true) /\
    ((num_masks_for (bit_length dst) <= num_masks_for (bit_length src))%nat -> dyn_elems dst' = dyn_elems src ∩ universe (bit_length dst))
  end.
Proof.
  intros [mo Ho] [m Hs]. pose proof Ho as (_ & _ & Hu & _). unfold DynamicBitSet.managed_copy_into.
  destruct (decide (bit_length dst <> 0 /\ (length (alloc src) < 1 + num_masks_for (bit_length dst))%nat)) as [[Hne Hlt]|Hok].
  { by rewrite copy_into_overrun. }
  assert (exists d m', DynamicBitSet.copy_into dst src = Some d /\ dyn_masks d m' /\ bit_length d = bit_length dst /\
    forall i, 0 <= i < bit_length dst -> mbit m' i = mbit (drop 1 (alloc src)) i) as (d & m' & E & Hd & Hl & Hb).
  { destruct (decide (bit_length dst = 0)) as [E|Hne].
    - exists dst, m. unfold DynamicBitSet.copy_into. rewrite E. do 3 (split; [done|]). lia.
    - destruct (copy_into_words dst m src Hs Hu Hne) as (d & m' & E & Hd & Hl & _ & _ & Hb); [lia|].
      exists d, m'. do 3 (split; [done|]). intros i Hi. rewrite (Hb i) by lia. destruct (Z.ltb_spec i (bit_length dst)); [apply andb_true_r | lia]. }
  rewrite E. split; [lia|]. split; [by exists m'|]. split; [done|]. split.
  - intros i. rewrite (dyn_elems_eq d m' Hd), elem_of_members, Hl. split; (intros [Hi H]; split; [done|]); [by rewrite <- Hb | by rewrite Hb].
  - intros Hle. destruct (copy_into_ok dst m src mo Hs Ho Hle) as (d2 & m2 & E2 & Hd2 & Hl2 & Hrep).
    rewrite E in E2. injection E2 as <-. apply set_eq. intros i. pose proof Ho as (_ & (_ & _ & Hpad) & _).
    rewrite (dyn_elems_eq d m2 Hd2), (dyn_elems_eq src mo Ho), elem_of_intersection, !elem_of_members, elem_of_universe, Hl.
    destruct Hrep as (_ & _ & Hrep). split.
    + intros [Hi H]. rewrite (Hrep i) in H by lia. apply andb_true_iff in H as [H _]. split; [|done]. split; [|done].
      destruct (Z.ltb_spec i (bit_length src)) as [?|Hge]; [lia|]. by rewrite (Hpad i Hge) in H.
    + intros [[Hi H] Hi2]. split; [done|]. rewrite (Hrep i) by lia. rewrite H. cbn [andb]. apply Z.ltb_lt. lia.
Qed.

(** An allocator that hands out uncleared words and never refuses. *)
Definition dirty_realloc (b : list Z) (n : nat) : option (list Z) :=
  Some (take n b ++ replicate (n - length b) 7).

#[local] Instance dirty_realloc_ok : Allocator dirty_realloc.
Proof.
  split; intros b n b'; [intros [= <-] Hb|intros [= <-]|intros i [= <-] Hi Hl].
  - apply Forall_app. split; [by apply Forall_take|]. apply Forall_replicate. split; by vm_compute.
  - len.
  - rewrite lookup_app_l by len. by rewrite lookup_take_lt.
Qed.

Definition demo_bit_ops : list (BitOp (list Z)) :=
  [OSet 69; OSetRange {| start := 60; end_ := 66 |} true; OToggle 0; OToggleFirst; OExclude [2 ^ 63; 0]; OToggleAll].

Lemma demo_zero_ok n : 0 <= n -> well_formed n (replicate (num_masks_for n) 0).
Proof.
  intros Hn. split; [len|]. split; [by apply Forall_replicate|]. intros i Hi. unfold mbit.
  destruct (_ !! _) as [w|] eqn:E; [|done]. apply lookup_replicate in E as [-> _]. apply Z.bits_0.
Qed.

Lemma demo_operand_ok : well_formed 70 [2 ^ 63; 0].
Proof.
  split; [done|]. split; [repeat constructor; by vm_compute|]. intros i Hi.
  rewrite !mbit_cons by lia. rewrite (proj2 (Z.ltb_ge i 64)) by lia. case_match; [apply Z.bits_0|done].
Qed.

Lemma dyn_masks_demo n m : 0 <= n -> well_formed n m ->
  Z.of_nat (length m) < 100 -> dyn_masks {| bit_length := n; alloc := Z.of_nat (S (length m)) :: m |} m.
Proof.
  intros Hn Hm Hl. split; [done|]. split; [done|]. split.
  - constructor; [split; [lia|]; change (2 ^ 64) with 18446744073709551616; lia|apply Hm].
  - exists (Z.of_nat (S (length m))), []. split; [by rewrite app_nil_r|]. by right.
Qed.

(** A spare word after those of a set of 10, left with what it had. *)
Lemma dyn_masks_spare : dyn_ok {| bit_length := 10; alloc := [3; 5; 8] |}.
Proof.
  exists [5]. split; [cbn; lia|]. split; [|split].
  - split; [done|]. split; [repeat constructor; by vm_compute|]. cbn [bit_length]. intros i Hi. unfold mbit.
    destruct (decide (i < 64)) as [Hlt|]; [|by apply mbit_out; cbn; lia].
    replace (Z.to_nat (i / 64)) with O by (rewrite Z.div_small; lia). cbn. rewrite Z.mod_small by lia. apply Z.bits_above_log2; [lia|].
    change (Z.log2 5) with 2. lia.
  - repeat constructor; by vm_compute.
  - exists 3, [8]. split; [done|]. by right.
Qed.

Theorem bit_sets_refine_finite_sets_witness :
  @apply_ops _ (array_ops 70) [0; 0] demo_bit_ops = Some [Z.ones 60 + 2 ^ 63; 28] /\
  (exists m', @apply_ops _ (array_ops 70) [0; 0] demo_bit_ops = Some m' /\ well_formed 70 m' /\
    members 70 m' = foldl (model_op 70) (members 70 [0; 0]) (bit_op_map (members 70) <$> demo_bit_ops)) /\
  dyn_run dirty_realloc DynamicBitSet.default [OResize 3 true; OResize 70 false; OClone] =
    Some ({| bit_length := 70; alloc := [3; 7; 0] |}, [Ok (); Ok (); Ok ()]) /\
  (exists s' rs, dyn_run dirty_realloc DynamicBitSet.default [OResize 3 true; OResize 70 false; OClone] = Some (s', rs) /\
    dyn_ok s').
Proof.
  destruct bit_sets_refine_finite_sets as [Harr Hdyn].
  split; [vm_compute; reflexivity|]. split; [|split; [vm_compute; reflexivity|]].
  - destruct (Harr 70 ltac:(lia)) as (_ & _ & H). apply H; [apply (demo_zero_ok 70); lia|].
    repeat constructor; cbn; try lia; apply demo_operand_ok.
  - destruct (Hdyn dirty_realloc _) as [_ H].
    destruct (H DynamicBitSet.default [OResize 3 true; OResize 70 false; OClone]) as (s' & rs & H1 & H2 & _).
    + exists []. apply default_ok.
    + split; [cbn; lia|]. intros n1 S1 r1 _. split; [cbn; lia|]. intros n2 S2 r2 _. split; [done|]. intros. done.
    + exists s', rs. split; assumption.
Defined.

Theorem multi_bit_set_queries_witness :
  exists l, StronglySorted (iter_lt false) l /\
    (forall i, i ∈ l <-> 0 <= i < 70 /\ bool_decide (i ∈ members 70 [2 ^ 63; 0]) = true) /\
    ArrayBitSet.count [2 ^ 63; 0] = length l.
Proof.
  destruct (multi_bit_set_queries 70 [2 ^ 63; 0] true false) as (l & H1 & H2 & _ & H3 & _).
  - lia.
  - apply demo_operand_ok.
  - exists l. split; [exact H1|]. split; [exact H2|]. apply H3. reflexivity.
Defined.

(** The installer's call: a set of 64 packages copied into one of 65 reads past the end; a set of 10
    whose allocation has a spare word leaves that word's bit 3 in it, which is element 67. *)
Theorem copy_into_needs_a_long_source_witness :
  let src := {| bit_length := 64; alloc := [2; 5] |} in
  let spare := {| bit_length := 10; alloc := [3; 5; 8] |} in
  let dst := {| bit_length := 70; alloc := [3; 0; 0] |} in
  DynamicBitSet.managed_copy_into src dst = None /\
  match DynamicBitSet.managed_copy_into spare dst with
  | None => False
  | Some d => forall i, i ∈ dyn_elems d <-> 0 <= i < 70 /\ mbit [5; 8] i = true
  end.
Proof.
  assert (dyn_ok {| bit_length := 64; alloc := [2; 5] |}) as Hsrc.
  { exists [5]. apply (dyn_masks_demo 64 [5]); [lia| |cbn; lia]. split; [done|]. split; [repeat constructor; by vm_compute|].
    intros i Hi. apply mbit_out. cbn. lia. }
  assert (dyn_ok {| bit_length := 70; alloc := [3; 0; 0] |}) as Hdst.
  { exists [0; 0]. apply (dyn_masks_demo 70 [0; 0]); [lia|apply (demo_zero_ok 70); lia|cbn; lia]. }
  assert (dyn_ok {| bit_length := 10; alloc := [3; 5; 8] |}) as Hspare by apply dyn_masks_spare.
  split; [reflexivity|].
  pose proof (copy_into_needs_a_long_source _ _ Hspare Hdst) as H. pose proof (copy_into_needs_a_long_source _ _ Hsrc Hdst) as _.
  destruct (DynamicBitSet.managed_copy_into _ _) as [d|] eqn:E; [apply H | discriminate E].
Defined.

End MultiBitSetProps.
