(* ===== verification/Vlq.v ===== *)
(** src/src/base64/lib.rs, module [vlq]: the base64 variable-length integers of
    source maps.  An [i32] is a [Z], wrapped by [i32_wrap]. *)
From S2P Require Import Prelude.

Definition is_i32 (z : Z) : Prop := - 2 ^ 31 <= z < 2 ^ 31.

(** Signed 32-bit arithmetic of a release build. *)
Definition i32_wrap (z : Z) : Z := (z + 2 ^ 31) mod 2 ^ 32 - 2 ^ 31.

Definition STANDARD_ALPHABET_CHARS : bytes :=
  b!"ABCDEFGHIJKLMNOPQRSTUVWXYZabcdefghijklmnopqrstuvwxyz0123456789+/".

Definition VLQ_MAX_IN_BYTES : nat := 7.

Record VLQ := { vlq_bytes : bytes; vlq_len : nat }.

Definition vlq_slice (v : VLQ) : bytes := take (vlq_len v) (vlq_bytes v).

Definition BASE64 : bytes := STANDARD_ALPHABET_CHARS.

(** The loop of [encode_slow_path]: [fuel] is what is left of the seven
    rounds, [len] the number of bytes written. *)
Fixpoint encode_rounds (fuel : nat) (bytes : bytes) (len : nat) (vlq : Z) : VLQ :=
  match fuel with
  | O => {| vlq_bytes := bytes; vlq_len := O |}
  | S fuel =>
    let digit := Z.land vlq 31 in
    let vlq := Z.shiftr vlq 5 in
    let digit := if vlq =? 0 then digit else Z.lor digit 32 in
    let bytes := <[len := nth (Z.to_nat digit) BASE64 0]> bytes in
    if vlq =? 0 then {| vlq_bytes := bytes; vlq_len := S len |}
    else encode_rounds fuel bytes (S len) vlq
  end.

Definition encode_slow_path (value : Z) : VLQ :=
  let vlq :=
    if 0 <=? value then trunc32 (Z.shiftl value 1)
    else Z.lor (trunc32 (Z.shiftl (Z.abs value) 1)) 1 in
  encode_rounds VLQ_MAX_IN_BYTES (replicate VLQ_MAX_IN_BYTES 0) 0 vlq.

Definition VLQ_LOOKUP_TABLE : list VLQ := encode_slow_path <$> seqZ 0 256.

(** [VLQ::encode]. *)
Definition encode (value : Z) : VLQ :=
  if (0 <=? value) && (value <=? 255)
  then nth (Z.to_nat value) VLQ_LOOKUP_TABLE {| vlq_bytes := []; vlq_len := O |}
  else encode_slow_path value.

Record VLQResult := { vlq_value : Z; vlq_start : nat }.

Definition U7_MAX : Z := 127.

(** The index of each alphabet character; 127 elsewhere. *)
Definition BASE64_LUT : list Z :=
  foldl (fun bytes i => <[Z.to_nat (nth i BASE64 0) := Z.of_nat i]> bytes)
    (replicate 128 U7_MAX) (seq 0 64).

(** The loop of [decode_impl] over the window [encoded_]: the value and the
    number of bytes read. *)
Fixpoint decode_loop (encoded_ : bytes) (i : nat) (shift vlq : Z) : option (Z * nat) :=
  match encoded_ with
  | [] => None
  | c :: r =>
    let index := nth (Z.to_nat (Z.land c 0x7f)) BASE64_LUT 0 in
    let vlq := Z.lor vlq (trunc32 (Z.shiftl (Z.land index 31) (Z.land shift 31))) in
    let shift := shift + 5 in
    if Z.land index 32 =? 0 then
      Some (if Z.land vlq 1 =? 0 then Z.shiftr vlq 1 else - Z.shiftr vlq 1, S i)
    else decode_loop r (S i) shift vlq
  end.

(** [decode]; [None] is a start past the end. *)
Definition decode (encoded : bytes) (start : nat) : option VLQResult :=
  e ← slice_from encoded start;
  let encoded_ := take ((length encoded - start) `min` (VLQ_MAX_IN_BYTES + 1)) e in
  Some match decode_loop encoded_ 0 0 0 with
       | Some (value, n) => {| vlq_value := value; vlq_start := start + n |}
       | None => {| vlq_value := 0; vlq_start := start |}
       end.

Example encode_max : vlq_slice (encode (2 ^ 31 - 1)) = b!"+/////D". Proof. reflexivity. Qed.
Example encode_min : vlq_slice (encode (- 2 ^ 31)) = b!"B". Proof. reflexivity. Qed.
Example decode_max : decode b!"//////DA" 0 = Some {| vlq_value := - (2 ^ 31 - 1); vlq_start := 7 |}.
Proof. reflexivity. Qed.

(** * Facts *)

Lemma i32_wrap_id z : is_i32 z -> i32_wrap z = z.
Proof. unfold is_i32, i32_wrap. intros. rewrite Z.mod_small; lia. Qed.

Lemma i32_wrap_range z : is_i32 (i32_wrap z).
Proof. unfold is_i32, i32_wrap. pose proof (Z.mod_pos_bound (z + 2 ^ 31) (2 ^ 32)). lia. Qed.

(** A sum of two [i32]s is what it should be, or negative when both are not. *)
Lemma i32_wrap_add a b : 0 <= a < 2 ^ 31 -> is_i32 b -> 0 <= i32_wrap (a + b) -> i32_wrap (a + b) = a + b.
Proof.
  unfold is_i32. intros Ha Hb H.
  destruct (decide (a + b < 2 ^ 31)); [apply i32_wrap_id; unfold is_i32; lia|].
  unfold i32_wrap in H. replace (a + b + 2 ^ 31) with ((a + b - 2 ^ 31) + 1 * 2 ^ 32) in H by lia.
  rewrite Z.mod_add, Z.mod_small in H; lia.
Qed.

Lemma land1 v : Z.land v 1 = v mod 2.
Proof. change 1 with (Z.ones 1). rewrite Z.land_ones by lia. done. Qed.

Lemma lor_even k : Z.lor (2 * k) 1 = 2 * k + 1.
Proof.
  assert (Z.land (2 * k) 1 = 0) as H.
  { rewrite land1, Z.mul_comm, Z.mod_mul; lia. }
  by rewrite <- Z.lxor_lor, <- Z.add_nocarry_lxor.
Qed.

(** The digits of a value, least significant first. *)
Definition digit_char (d : Z) : Z := nth (Z.to_nat d) BASE64 0.

Fixpoint digits (fuel : nat) (v : Z) : bytes :=
  match fuel with
  | O => []
  | S fuel => if v <? 32 then [digit_char v] else digit_char (v mod 32 + 32) :: digits fuel (v / 32)
  end.

Lemma land31 v : Z.land v 31 = v mod 32.
Proof. change 31 with (Z.ones 5). rewrite Z.land_ones by lia. done. Qed.

Lemma lor32 d : 0 <= d < 32 -> Z.lor d 32 = d + 32.
Proof. intros. change 32 with (2 ^ 5) at 1. apply lor_high_bit; lia. Qed.

Lemma insert_middle {A} (acc pad : list A) x p : <[length acc := x]> (acc ++ p :: pad) = (acc ++ [x]) ++ pad.
Proof. rewrite <- (Nat.add_0_r (length acc)), insert_app_r. cbn. by rewrite <- app_assoc. Qed.

Lemma encode_rounds_digits fuel acc pad v :
  length pad = fuel -> 0 <= v < 32 ^ Z.of_nat fuel -> (0 < fuel)%nat ->
  vlq_slice (encode_rounds fuel (acc ++ pad) (length acc) v) = acc ++ digits fuel v.
Proof.
  revert acc pad v; induction fuel as [|fuel IH]; intros acc pad v Hp Hv Hf; [lia|].
  destruct pad as [|p pad]; [done|]. injection Hp as Hp. cbn [encode_rounds digits].
  rewrite Z.shiftr_div_pow2 by lia. change (2 ^ 5) with 32. rewrite land31.
  pose proof (Z.mod_pos_bound v 32). pose proof (Z.div_mod v 32).
  destruct (Z.ltb_spec v 32) as [Hlt|Hge].
  - rewrite Z.div_small, Z.mod_small by lia. cbn. unfold vlq_slice; cbn.
    rewrite insert_middle, take_app_length'; [done|]. rewrite length_app; cbn; lia.
  - destruct (Z.eqb_spec (v / 32) 0) as [E|_]; [pose proof (Z.div_small_iff v 32); lia|].
    rewrite lor32, insert_middle by lia. rewrite Nat2Z.inj_succ, Z.pow_succ_r in Hv by lia.
    assert (0 <= v / 32 < 32 ^ Z.of_nat fuel) by (split; [apply Z.div_pos; lia|apply Z.div_lt_upper_bound; lia]).
    destruct fuel as [|fuel]; [change (32 ^ Z.of_nat 0) with 1 in *; pose proof (Z.div_le_mono 32 v 32); lia|].
    replace (S (length acc)) with (length (acc ++ [digit_char (v mod 32 + 32)])) by (rewrite length_app; cbn; lia).
    fold (digit_char (v mod 32 + 32)). rewrite IH; [by rewrite <- app_assoc|lia|lia|lia].
Qed.

(** [value] in sign-magnitude form; [-2^31] wraps to minus zero. *)
Definition zigzag (v : Z) : Z := if 0 <=? v then 2 * v else trunc32 (2 * - v) + 1.

Lemma zigzag_range v : is_i32 v -> 0 <= zigzag v < 2 ^ 32.
Proof.
  unfold is_i32, zigzag. intros. destruct (Z.leb_spec 0 v); [lia|].
  unfold trunc32. pose proof (Z.mod_pos_bound (2 * - v) (2 ^ 32)).
  destruct (decide (v = - 2 ^ 31)) as [->|]; [vm_compute; split; congruence|].
  rewrite Z.mod_small by lia. lia.
Qed.

Lemma encode_slow_path_digits v : is_i32 v -> vlq_slice (encode_slow_path v) = digits 7 (zigzag v).
Proof.
  intros Hv. pose proof (zigzag_range v Hv). unfold is_i32 in Hv. unfold encode_slow_path.
  replace (if 0 <=? v then _ else _) with (zigzag v).
  - apply (encode_rounds_digits 7 [] (replicate 7 0)); [done| |lia]. change (32 ^ Z.of_nat 7) with (2 ^ 35). lia.
  - unfold zigzag, trunc32. destruct (Z.leb_spec 0 v); rewrite Z.shiftl_mul_pow2 by lia.
    + rewrite Z.mod_small; lia.
    + rewrite Z.abs_neq by lia. rewrite (Z.mul_comm _ (2 ^ 1)). change (2 ^ 1) with 2.
      destruct (decide (v = - 2 ^ 31)) as [->|]; [reflexivity|]. rewrite Z.mod_small by lia.
      by rewrite lor_even.
Qed.

Lemma encode_digits v : is_i32 v -> vlq_slice (encode v) = digits 7 (zigzag v).
Proof.
  intros Hv. rewrite <- encode_slow_path_digits by done. unfold encode.
  destruct (_ && _) eqn:E; [|done]. bool_prop. f_equal. unfold VLQ_LOOKUP_TABLE.
  apply nth_lookup_Some. rewrite list_lookup_fmap, lookup_seqZ_lt by lia. cbn [fmap option_fmap option_map]. do 2 f_equal. lia.
Qed.

(** The table inverts the alphabet. *)
Lemma lut_digit d : 0 <= d < 64 -> nth (Z.to_nat (Z.land (digit_char d) 127)) BASE64_LUT 0 = d.
Proof.
  intros Hd. assert (forallb (fun d => nth (Z.to_nat (Z.land (digit_char d) 127)) BASE64_LUT 0 =? d)
    (seqZ 0 64) = true) as H by (vm_compute; reflexivity).
  rewrite forallb_forall in H. apply Z.eqb_eq, H, list_elem_of_In, elem_of_seqZ. lia.
Qed.

(** Adding a digit above the bits read so far. *)
Lemma lor_digit acc d s :
  0 <= s <= 30 -> 0 <= acc < 2 ^ s -> 0 <= d -> d * 2 ^ s < 2 ^ 32 ->
  Z.lor acc (trunc32 (Z.shiftl d (Z.land s 31))) = acc + d * 2 ^ s.
Proof.
  intros Hs Hacc Hd Hlt. rewrite land31, (Z.mod_small s) by lia.
  rewrite Z.shiftl_mul_pow2 by lia. unfold trunc32. rewrite Z.mod_small by nia.
  assert (Z.land acc (d * 2 ^ s) = 0) as H.
  { rewrite <- Z.shiftl_mul_pow2 by lia. apply Z.bits_inj'. intros n Hn. rewrite Z.land_spec, Z.bits_0.
    destruct (decide (n < s)); [rewrite Z.shiftl_spec_low by lia; apply andb_false_r|].
    rewrite <- (Z.mod_small acc (2 ^ s)) by lia. by rewrite Z.mod_pow2_bits_high by lia. }
  by rewrite <- Z.lxor_lor, <- Z.add_nocarry_lxor.
Qed.

Lemma land_32 d : 0 <= d < 64 -> (Z.land d 32 =? 0) = (d <? 32).
Proof.
  intros Hd. assert (forallb (fun d => Bool.eqb (Z.land d 32 =? 0) (d <? 32)) (seqZ 0 64) = true) as H
    by (vm_compute; reflexivity).
  rewrite forallb_forall in H. apply Bool.eqb_prop, H, list_elem_of_In, elem_of_seqZ. lia.
Qed.

(** What [decode] makes of the sign-magnitude form. *)
Definition unzigzag (vlq : Z) : Z :=
  if Z.land vlq 1 =? 0 then Z.shiftr vlq 1 else - Z.shiftr vlq 1.

Lemma unzigzag_zigzag v : is_i32 v -> v <> - 2 ^ 31 -> unzigzag (zigzag v) = v.
Proof.
  unfold is_i32, unzigzag, zigzag. intros Hv Hne.
  rewrite land1, Z.shiftr_div_pow2 by lia. change (2 ^ 1) with 2.
  destruct (Z.leb_spec 0 v).
  - rewrite (Z.mul_comm 2), Z.mod_mul, Z.div_mul by lia. done.
  - unfold trunc32. rewrite (Z.mod_small (2 * - v)) by lia. replace (2 * - v + 1) with (1 + (- v) * 2) by lia.
    rewrite Z.mod_add, Z.div_add by lia. change (1 mod 2 =? 0) with false. change (1 / 2) with 0. cbn [orb]. lia.
Qed.

Lemma decode_digits fuel v s acc i rest :
  0 <= s -> s + 5 * Z.of_nat fuel <= 35 -> 0 <= acc < 2 ^ s ->
  0 <= v < 32 ^ Z.of_nat fuel -> v * 2 ^ s < 2 ^ 32 -> (0 < fuel)%nat ->
  decode_loop (digits fuel v ++ rest) i s acc =
    Some (unzigzag (acc + v * 2 ^ s), (i + length (digits fuel v))%nat).
Proof.
  revert v s acc i; induction fuel as [|fuel IH]; intros v s acc i Hs Hf Hacc Hv Hvs Hpos; [lia|].
  cbn [digits]. pose proof (Z.pow_pos_nonneg 2 s). pose proof (Z.mod_pos_bound v 32). pose proof (Z.div_mod v 32).
  destruct (Z.ltb_spec v 32) as [Hlt|Hge]; cbn [app decode_loop length].
  - rewrite lut_digit, land_32 by lia. destruct (Z.ltb_spec v 32); [|lia].
    rewrite (land31 v), (Z.mod_small v), lor_digit by lia. unfold unzigzag. f_equal. f_equal. lia.
  - rewrite lut_digit, land_32 by lia. destruct (Z.ltb_spec (v mod 32 + 32) 32); [lia|].
    rewrite land31, <- Z.add_mod_idemp_r, Z.mod_same, Z.add_0_r, Z.mod_mod by lia.
    rewrite Nat2Z.inj_succ, Z.pow_succ_r in Hv by lia.
    assert (1 <= v / 32 < 32 ^ Z.of_nat fuel).
    { split; [change 1 with (32 / 32); apply Z.div_le_mono; lia|apply Z.div_lt_upper_bound; lia]. }
    assert (0 < fuel)%nat by (destruct fuel; [change (32 ^ Z.of_nat 0) with 1 in *|]; lia).
    assert (2 ^ (s + 5) = 2 ^ s * 32) as E by (rewrite Z.pow_add_r by lia; done).
    rewrite lor_digit by nia. rewrite IH; [| lia | lia | nia | lia | nia | lia].
    f_equal. f_equal; [f_equal; nia|lia].
Qed.

Lemma length_digits fuel v : (length (digits fuel v) <= fuel)%nat.
Proof. revert v; induction fuel as [|fuel IH]; intros v; cbn; [lia|]. case_match; cbn; [|specialize (IH (v / 32))]; lia. Qed.

(** Decoding what was encoded, at any place of a text. *)
Lemma decode_encode pre v rest :
  is_i32 v -> v <> - 2 ^ 31 ->
  decode (pre ++ vlq_slice (encode v) ++ rest) (length pre) =
    Some {| vlq_value := v; vlq_start := length pre + length (vlq_slice (encode v)) |}.
Proof.
  intros Hv Hne. pose proof (zigzag_range v Hv). rewrite encode_digits by done. unfold decode.
  rewrite slice_from_ok by (rewrite length_app; lia). rewrite drop_app_length. cbn [mbind option_bind].
  pose proof (length_digits 7 (zigzag v)) as Hl.
  rewrite take_app_ge by (rewrite !length_app; unfold VLQ_MAX_IN_BYTES; lia).
  rewrite decode_digits; [| lia | lia | lia | | lia | lia].
  - change (2 ^ 0) with 1. rewrite Z.mul_1_r, Z.add_0_l, unzigzag_zigzag; done.
  - change (32 ^ Z.of_nat 7) with (2 ^ 35). lia.
Qed.

Lemma lor_u32 a b : is_u32 a -> is_u32 b -> is_u32 (Z.lor a b).
Proof.
  unfold is_u32. intros Ha Hb. split; [apply Z.lor_nonneg; lia|].
  assert (Z.lor a b = Z.lor a b mod 2 ^ 32) as E.
  { rewrite <- Z.land_ones, Z.land_lor_distr_l, !Z.land_ones, !Z.mod_small by lia. done. }
  rewrite E. apply Z.mod_pos_bound. lia.
Qed.

Lemma unzigzag_range v : is_u32 v -> - 2 ^ 31 < unzigzag v < 2 ^ 31.
Proof.
  unfold is_u32, unzigzag. intros Hv. rewrite Z.shiftr_div_pow2 by lia. change (2 ^ 1) with 2.
  pose proof (Z.div_mod v 2). pose proof (Z.mod_pos_bound v 2). case_match; lia.
Qed.

Lemma decode_loop_range e : forall i shift acc v n,
  is_u32 acc -> decode_loop e i shift acc = Some (v, n) ->
  - 2 ^ 31 < v < 2 ^ 31 /\ (i < n <= i + length e)%nat.
Proof.
  induction e as [|c e IH]; intros i shift acc v n Hacc H; cbn [decode_loop length] in *; [done|].
  set (acc' := Z.lor acc _) in *.
  assert (is_u32 acc') as Hacc' by (apply lor_u32; [done|apply Z.mod_pos_bound; lia]).
  destruct (_ =? 0).
  - injection H as <- <-. split; [by apply unzigzag_range|lia].
  - apply IH in H as [Hv Hn]; [split; [done|lia]|done].
Qed.

(** [decode] returns; without progress the value is 0. *)
Lemma decode_total e s :
  (s <= length e)%nat ->
  exists r, decode e s = Some r /\ - 2 ^ 31 < vlq_value r < 2 ^ 31 /\ (s <= vlq_start r <= length e)%nat.
Proof.
  intros Hs. unfold decode. rewrite slice_from_ok by done. cbn [mbind option_bind].
  destruct (decode_loop _ 0 0 0) as [[v n]|] eqn:E; eexists; (split; [done|]); cbn; [|lia].
  apply decode_loop_range in E; [|unfold is_u32; lia]. rewrite length_take, length_drop in E. lia.
Qed.
