(* ===== verification/SemverString.v ===== *)
(** src/src/semver/lib.rs: the 8-byte string handles of the package manager
    ([String], [ExternalString], [SlicedString]) and the two arenas that hold
    their text ([Buf], [Builder]).

    A handle is the array [bytes: [u8; 8]], stored inline or as a packed
    (offset, length) pair; the machine is 64-bit little-endian, as the source
    asserts for the pointer width.  A slice of another buffer is a byte list
    together with its address relative to that buffer, which only
    [Pointer::init] reads.  [None] is a panic. *)
From S2P Require Import Prelude Wyhash BunCore.

(** * Pointers *)

Record Pointer := { off : Z; plen : Z }.

Definition MAX_INLINE_LEN : nat := 8.
Definition MAX_ADDRESSABLE_SPACE_MASK : Z := Z.shiftl 1 63 - 1.

(** [Pointer::init(buf, in_)], [addr] the distance from [buf] to [in_]. *)
Definition pointer_init (addr : Z) (in_ : bytes) : Pointer :=
  {| off := trunc32 addr; plen := trunc32 (Z.of_nat (length in_)) |}.

Definition to_bits (p : Pointer) : Z := le_decode (le_encode 4 (off p) ++ le_encode 4 (plen p)).

Definition from_bits (bits : Z) : Pointer :=
  let b := le_encode 8 bits in
  {| off := le_decode (take 4 b); plen := le_decode (drop 4 b) |}.

(** * Handles *)

Record SemverString := { sbytes : bytes }.

Definition string_default : SemverString := {| sbytes := replicate 8 0 |}.

(** The handle of a string left in its buffer: the pointer and bit 63. *)
Definition packed (addr : Z) (in_ : bytes) : SemverString :=
  let ptr_bits := to_bits (pointer_init addr in_) in
  {| sbytes := le_encode 8 (Z.lor (Z.land ptr_bits MAX_ADDRESSABLE_SPACE_MASK) (Z.shiftl 1 63)) |}.

(** The arms [1 ..= 8] that copy the bytes and zero the rest of the array. *)
Definition inlined (in_ : bytes) : SemverString :=
  {| sbytes := in_ ++ replicate (8 - length in_) 0 |}.

(** The byte at [MAX_INLINE_LEN - 1]; only read on arrays and slices of 8 bytes. *)
Definition last_byte (l : bytes) : Z := default 0 (l !! 7%nat).

(** [String::init(buf, in_)]. *)
Definition string_init (addr : Z) (in_ : bytes) : SemverString :=
  match length in_ with
  | 0 => string_default
  | 1 | 2 | 3 | 4 | 5 | 6 | 7 => inlined in_
  | 8 => if (128 <=? last_byte in_)%Z then packed addr in_ else inlined in_
  | _ => packed addr in_
  end%nat.

Definition can_inline (buf : bytes) : bool :=
  match length buf with
  | 0 | 1 | 2 | 3 | 4 | 5 | 6 | 7 => true
  | 8 => (Z.land (last_byte buf) 0x80 =? 0)%Z
  | _ => false
  end%nat.

Definition is_inline (s : SemverString) : bool := Z.land (last_byte (sbytes s)) 0x80 =? 0.

(** [String::init_inline]: [unreachable!()] beyond 8 bytes. *)
Definition init_inline (in_ : bytes) : option SemverString :=
  match length in_ with
  | 0 => Some string_default
  | 1 | 2 | 3 | 4 | 5 | 6 | 7 | 8 => Some (inlined in_)
  | _ => None
  end%nat.

(** [String::init_append(buf, in_)]: the grown buffer and the handle. *)
Definition init_append (buf in_ : bytes) : bytes * SemverString :=
  let items := buf ++ in_ in
  (items, packed (Z.of_nat (length items - length in_)) in_).

Definition init_append_if_needed (buf in_ : bytes) : bytes * SemverString :=
  match length in_ with
  | 0 => (buf, string_default)
  | 1 | 2 | 3 | 4 | 5 | 6 | 7 => (buf, inlined in_)
  | 8 => if (128 <=? last_byte in_)%Z then init_append buf in_ else (buf, inlined in_)
  | _ => init_append buf in_
  end%nat.

Definition is_empty (s : SemverString) : bool := le_decode (sbytes s) =? 0.

Definition string_ptr (s : SemverString) : Pointer :=
  from_bits (Z.land (le_decode (sbytes s)) MAX_ADDRESSABLE_SPACE_MASK).

(** The inline text: up to the first zero byte, or all 8 bytes. *)
Definition until_nul (l : bytes) : bytes := take (prefix_len (fun c => negb (c =? 0)) l) l.

Definition string_len (s : SemverString) : nat :=
  if Z.land (last_byte (sbytes s)) 128 =? 0 then length (until_nul (sbytes s))
  else Z.to_nat (plen (string_ptr s)).

(** [buf.get(off..off + len)]. *)
Definition get_range (buf : bytes) (p : Pointer) : option bytes :=
  slice buf (Z.to_nat (off p)) (Z.to_nat (off p) + Z.to_nat (plen p)).

(** [String::slice(buf)]: out-of-range handles read as the empty string. *)
Definition string_slice (s : SemverString) (buf : bytes) : bytes :=
  if Z.land (last_byte (sbytes s)) 128 =? 0 then until_nul (sbytes s)
  else default [] (get_range buf (string_ptr s)).

(** [String::eql]: byte equality of the texts, out-of-range handles unequal. *)
Definition string_eql (s t : SemverString) (sbuf tbuf : bytes) : bool :=
  if is_inline s && is_inline t then le_decode (sbytes s) =? le_decode (sbytes t)
  else if negb (Bool.eqb (is_inline s) (is_inline t)) then false
  else match get_range sbuf (string_ptr s), get_range tbuf (string_ptr t) with
    | Some a, Some b => bool_decide (a = b)
    | _, _ => false
    end.

Definition string_order (s t : SemverString) (lhs_buf rhs_buf : bytes) : comparison :=
  order (string_slice s lhs_buf) (string_slice t rhs_buf).

(** [write_char(n as char)] of a byte: its Latin-1 character in UTF-8. *)
Definition write_char (n : Z) : bytes :=
  if n <? 128 then [n] else [Z.lor 192 (Z.shiftr n 6); Z.lor 128 (Z.land n 63)].

(** [StorePathFormatter]: the characters a store path cannot hold become [+]. *)
Definition store_path (s : SemverString) (buf : bytes) : bytes :=
  concat ((fun c =>
    write_char (if (c =? #"/") || (c =? #"\") || (c =? #":") || (c =? #"#") then #"+" else c))
    <$> string_slice s buf).

(** * External strings: a handle and the hash of its text *)

Record ExternalString := { value : SemverString; hash : Z }.

Definition external_default : ExternalString := {| value := string_default; hash := 0 |}.

Definition external_init (addr : Z) (in_ : bytes) (h : Z) : ExternalString :=
  {| value := string_init addr in_; hash := h |}.

Definition external_is_empty (e : ExternalString) : bool := is_empty (value e).
Definition external_is_inline (e : ExternalString) : bool := is_inline (value e).
Definition external_len (e : ExternalString) : nat := string_len (value e).
Definition external_slice (e : ExternalString) (buf : bytes) : bytes := string_slice (value e) buf.

Definition external_order (e f : ExternalString) (lhs_buf rhs_buf : bytes) : comparison :=
  if (hash e =? hash f) && (0 <? hash e) then Eq
  else string_order (value e) (value f) lhs_buf rhs_buf.

(** [Builder::string_hash]: the legacy hash with seed 0, which always returns. *)
Definition string_hash (b : bytes) : Z := default 0 (Wyhash11.hash11 0 b).

(** * Sliced strings: a slice with the buffer it lies in *)

Record SlicedString := { ss_buf : bytes; ss_off : nat; ss_slice : bytes }.

(** [sub(&input[a..b])], [input] the slice of [s]: [None] when out of range. *)
Definition ss_sub (s : SlicedString) (a b : nat) : option SlicedString :=
  l ← slice (ss_slice s) a b;
  Some {| ss_buf := ss_buf s; ss_off := ss_off s + a; ss_slice := l |}.

(** [sub(&input[a..])]. *)
Definition ss_sub_from (s : SlicedString) (a : nat) : option SlicedString :=
  ss_sub s a (length (ss_slice s)).

Definition ss_value (s : SlicedString) : SemverString :=
  string_init (Z.of_nat (ss_off s)) (ss_slice s).

Definition ss_external (s : SlicedString) : ExternalString :=
  external_init (Z.of_nat (ss_off s)) (ss_slice s) (string_hash (ss_slice s)).

(** A string that is its own buffer: [SlicedString { buf: slice, slice }]. *)
Definition ss_whole (s : bytes) : SlicedString :=
  {| ss_buf := s; ss_off := 0; ss_slice := s |}.

(** * [Buf]: a growing arena with a pool of the strings by hash *)

Record Buf := { bbytes : bytes; pool : gmap Z SemverString }.

Definition buf_append_with_hash (b : Buf) (str : bytes) (h : Z) : option (Buf * SemverString) :=
  if can_inline str then s ← init_inline str; Some (b, s)
  else match pool b !! h with
    | Some s => Some (b, s)
    | None =>
      let '(items, new) := init_append (bbytes b) str in
      Some ({| bbytes := items; pool := <[h := new]> (pool b) |}, new)
    end.

Definition buf_append (b : Buf) (str : bytes) : option (Buf * SemverString) :=
  buf_append_with_hash b str (string_hash str).

Definition buf_append_external_with_hash (b : Buf) (str : bytes) (h : Z)
    : option (Buf * ExternalString) :=
  '(b', s) ← buf_append_with_hash b str h; Some (b', {| value := s; hash := h |}).

Definition buf_append_external (b : Buf) (str : bytes) : option (Buf * ExternalString) :=
  buf_append_external_with_hash b str (string_hash str).

(** * [Builder]: count, allocate once, then append *)

Record Builder := {
  blen : nat; cap : nat; bptr : option bytes; string_pool : gmap Z SemverString }.

Definition builder_default : Builder :=
  {| blen := 0; cap := 0; bptr := None; string_pool := ∅ |}.

(** The two string types a builder can return. *)
Class BuilderStringType (T : Type) := {
  from_init : Z -> bytes -> Z -> T;
  from_pooled : SemverString -> Z -> T
}.

#[export] Instance string_builder_type : BuilderStringType SemverString := {
  from_init addr s _ := string_init addr s;
  from_pooled v _ := v
}.

#[export] Instance external_builder_type : BuilderStringType ExternalString := {
  from_init addr s h := external_init addr s h;
  from_pooled v h := {| value := v; hash := h |}
}.

Definition builder_count_with_hash (b : Builder) (s : bytes) (h : Z) : Builder :=
  if (length s <=? MAX_INLINE_LEN)%nat then b
  else match string_pool b !! h with
    | Some _ => b
    | None => {| blen := blen b; cap := cap b + length s; bptr := bptr b;
                 string_pool := string_pool b |}
    end.

Definition builder_count (b : Builder) (s : bytes) : Builder :=
  builder_count_with_hash b s
    (if (MAX_INLINE_LEN <=? length s)%nat then string_hash s else U64_MAX).

Definition builder_allocate (b : Builder) : Builder :=
  {| blen := blen b; cap := cap b; bptr := Some (replicate (cap b) 0);
     string_pool := string_pool b |}.

Definition allocated_slice (b : Builder) : option bytes :=
  if (0 <? cap b)%nat then p ← bptr b; slice p 0 (cap b) else Some [].

(** [self.ptr[start..cap][..s.len()].copy_from_slice(s); self.len += s.len()]:
    the builder and the offset of the copy. *)
Definition builder_write (b : Builder) (s : bytes) : option (Builder * nat) :=
  p ← bptr b;
  dst ← slice p (blen b) (cap b);
  dst' ← copy_from_slice dst 0 s;
  p' ← copy_from_slice p (blen b) dst';
  Some ({| blen := blen b + length s; cap := cap b; bptr := Some p';
           string_pool := string_pool b |}, blen b).

Section BuilderAppend.
Context {T : Type} `{BuilderStringType T}.

(** [addr]: the address of the argument relative to the allocation. *)
Definition builder_append_without_pool (b : Builder) (addr : Z) (s : bytes) (h : Z)
    : option (Builder * T) :=
  if (length s <=? MAX_INLINE_LEN)%nat then
    _ ← allocated_slice b; Some (b, from_init addr s h)
  else
    '(b', start) ← builder_write b s;
    p ← bptr b'; allocated ← slice p 0 (cap b');
    final_slice ← slice allocated start (start + length s);
    Some (b', from_init (Z.of_nat start) final_slice h).

Definition builder_append_utf8_without_pool (b : Builder) (addr : Z) (s : bytes) (h : Z)
    : option (Builder * T) :=
  if (length s <=? MAX_INLINE_LEN)%nat && forallb (fun c => c <? 128) s then
    _ ← allocated_slice b; Some (b, from_init addr s h)
  else
    '(b', start) ← builder_write b s;
    p ← bptr b'; allocated ← slice p 0 (cap b');
    final_slice ← slice allocated start (start + length s);
    Some (b', from_init (Z.of_nat start) final_slice h).

Definition builder_append_with_hash (b : Builder) (addr : Z) (s : bytes) (h : Z)
    : option (Builder * T) :=
  if (length s <=? MAX_INLINE_LEN)%nat then
    _ ← allocated_slice b; Some (b, from_init addr s h)
  else match string_pool b !! h with
    | Some v =>
      p ← bptr b; allocated ← slice p 0 (cap b);
      if negb (bool_decide (string_slice v allocated = s))
      then builder_append_without_pool b addr s h
      else Some (b, from_pooled v h)
    | None =>
      '(b', start) ← builder_write b s;
      p ← bptr b'; allocated ← slice p 0 (cap b');
      final_slice ← slice allocated start (start + length s);
      let v := string_init (Z.of_nat start) final_slice in
      Some ({| blen := blen b'; cap := cap b'; bptr := bptr b';
               string_pool := <[h := v]> (string_pool b') |}, from_pooled v h)
    end.

Definition builder_append (b : Builder) (addr : Z) (s : bytes) : option (Builder * T) :=
  builder_append_with_hash b addr s (string_hash s).
End BuilderAppend.

(** * Facts about pointers and handles *)

Lemma to_bits_value p :
  is_u32 (off p) -> is_u32 (plen p) -> to_bits p = off p + 2 ^ 32 * plen p.
Proof.
  intros Ho Hl. unfold to_bits. rewrite le_decode_app, length_le_encode, !le_decode_encode.
  unfold is_u32 in *. rewrite !Z.mod_small by lia. done.
Qed.

Lemma from_bits_value w :
  from_bits w = {| off := w mod 2 ^ 32; plen := (w / 2 ^ 32) mod 2 ^ 32 |}.
Proof.
  unfold from_bits. rewrite (le_encode_app 4 4).
  rewrite take_app_length', drop_app_length' by by rewrite length_le_encode.
  by rewrite !le_decode_encode.
Qed.

Lemma pointer_init_u32 addr in_ :
  is_u32 (off (pointer_init addr in_)) /\ is_u32 (plen (pointer_init addr in_)).
Proof. split; apply Z.mod_pos_bound; lia. Qed.

(** The 64-bit word of a packed handle. *)
Definition packed_word (addr : Z) (in_ : bytes) : Z :=
  to_bits (pointer_init addr in_) mod 2 ^ 63 + 2 ^ 63.

Lemma packed_word_range addr in_ : 2 ^ 63 <= packed_word addr in_ < 2 ^ 64.
Proof.
  unfold packed_word.
  pose proof (Z.mod_pos_bound (to_bits (pointer_init addr in_)) (2 ^ 63) ltac:(lia)). lia.
Qed.

Lemma packed_bytes addr in_ : sbytes (packed addr in_) = le_encode 8 (packed_word addr in_).
Proof.
  unfold packed, packed_word. cbn [sbytes]. f_equal.
  change MAX_ADDRESSABLE_SPACE_MASK with (Z.ones 63). rewrite Z.land_ones by lia.
  change (Z.shiftl 1 63) with (2 ^ 63). apply lor_high_bit; [lia|].
  apply Z.mod_pos_bound. lia.
Qed.

Lemma packed_decode addr in_ : le_decode (sbytes (packed addr in_)) = packed_word addr in_.
Proof.
  rewrite packed_bytes, le_decode_encode. apply Z.mod_small.
  pose proof (packed_word_range addr in_). lia.
Qed.

Lemma packed_tag addr in_ : Z.land (last_byte (sbytes (packed addr in_))) 128 =? 0 = false.
Proof.
  rewrite packed_bytes. pose proof (packed_word_range addr in_) as Hr.
  assert (last_byte (le_encode 8 (packed_word addr in_)) = packed_word addr in_ / 256 ^ 7) as ->.
  { unfold last_byte. rewrite (le_encode_app 7 1), lookup_app_r by (rewrite length_le_encode; lia).
    rewrite length_le_encode. cbn [Nat.sub le_encode lookup list_lookup default].
    apply Z.mod_small. split; [apply Z.div_pos; lia|]. apply Z.div_lt_upper_bound; lia. }
  rewrite land_128.
  - apply Z.ltb_ge. apply Z.div_le_lower_bound; lia.
  - split; [apply Z.div_pos; lia|]. apply Z.div_lt_upper_bound; lia.
Qed.

(** The offset survives in 32 bits, the length in 31. *)
Lemma packed_ptr addr in_ :
  string_ptr (packed addr in_) =
  {| off := trunc32 addr; plen := Z.of_nat (length in_) mod 2 ^ 31 |}.
Proof.
  unfold string_ptr. rewrite packed_decode.
  change MAX_ADDRESSABLE_SPACE_MASK with (Z.ones 63). rewrite Z.land_ones by lia.
  unfold packed_word. rewrite <- (Z.mul_1_l (2 ^ 63)) at 2. rewrite Z.mod_add, Z.mod_mod by lia.
  destruct (pointer_init_u32 addr in_) as [Ho Hl]. rewrite to_bits_value by done.
  change (2 ^ 63) with (2 ^ 32 * 2 ^ 31). rewrite Z.rem_mul_r by lia.
  rewrite (Z.mul_comm (2 ^ 32) (plen _)), Z.mod_add, Z.div_add by lia.
  unfold is_u32 in *. rewrite (Z.mod_small (off _)), (Z.div_small (off _)), Z.add_0_l by lia.
  rewrite from_bits_value.
  rewrite (Z.mul_comm (2 ^ 32)), Z.mod_add, Z.div_add by lia.
  rewrite (Z.mod_small (off _)), (Z.div_small (off _)), Z.add_0_l by lia.
  cbn [pointer_init off plen]. unfold trunc32. f_equal.
  rewrite (Z.mod_small (_ mod 2 ^ 31) (2 ^ 32)).
  - change (2 ^ 32) with (2 ^ 31 * 2). rewrite Z.rem_mul_r, Z.mul_comm, Z.mod_add by lia.
    by rewrite Z.mod_mod by lia.
  - pose proof (Z.mod_pos_bound (Z.of_nat (length in_) mod 2 ^ 32) (2 ^ 31) ltac:(lia)). lia.
Qed.

Lemma length_inlined in_ : (length in_ <= 8)%nat -> length (sbytes (inlined in_)) = 8%nat.
Proof. intros. cbn. len. Qed.

Lemma last_byte_byte l : Forall is_byte l -> is_byte (last_byte l).
Proof.
  intros H. unfold last_byte. destruct (l !! 7%nat) eqn:E; cbn; [|unfold is_byte; lia].
  by eapply Forall_lookup in E.
Qed.

(** [can_inline] as a proposition on bytes. *)
Lemma can_inline_spec in_ :
  Forall is_byte in_ ->
  can_inline in_ = bool_decide ((length in_ < 8)%nat \/ length in_ = 8%nat /\ last_byte in_ < 128).
Proof.
  intros Hb. unfold can_inline.
  destruct (length in_) as [|n] eqn:E; [by rewrite bool_decide_eq_true_2 by lia|].
  do 7 (destruct n as [|n]; [by rewrite bool_decide_eq_true_2 by lia|]).
  destruct n as [|n].
  - rewrite land_128 by by apply last_byte_byte.
    destruct (last_byte in_ <? 128) eqn:El; bool_prop; symmetry.
    + apply bool_decide_eq_true_2. lia.
    + apply bool_decide_eq_false_2. lia.
  - symmetry. apply bool_decide_eq_false_2. lia.
Qed.

(** [init] has two cases: inline exactly when [can_inline]. *)
Lemma string_init_cases addr in_ :
  Forall is_byte in_ ->
  string_init addr in_ = if can_inline in_ then inlined in_ else packed addr in_.
Proof.
  intros Hb. unfold string_init, can_inline.
  destruct (length in_) as [|n] eqn:E.
  { by destruct in_; [|cbn in E]. }
  do 7 (destruct n as [|n]; [done|]). destruct n as [|n]; [|done].
  rewrite land_128 by by apply last_byte_byte.
  destruct (Z.leb_spec 128 (last_byte in_)), (Z.ltb_spec (last_byte in_) 128); done || lia.
Qed.

Lemma inlined_tag in_ :
  Forall is_byte in_ -> can_inline in_ = true ->
  Z.land (last_byte (sbytes (inlined in_))) 128 =? 0 = true.
Proof.
  intros Hb Hc. rewrite can_inline_spec in Hc by done. apply bool_decide_eq_true_1 in Hc.
  assert (Forall is_byte (sbytes (inlined in_))) as Hb'.
  { apply Forall_app; split; [done|]. apply Forall_replicate. unfold is_byte; lia. }
  rewrite land_128 by by apply last_byte_byte. apply Z.ltb_lt.
  destruct Hc as [Hc|[Hc Hl]]; unfold last_byte; cbn [inlined sbytes].
  - rewrite lookup_app_r, lookup_replicate_2 by lia. cbn. lia.
  - rewrite lookup_app_l by lia. done.
Qed.

Lemma init_is_inline addr in_ :
  Forall is_byte in_ -> is_inline (string_init addr in_) = can_inline in_.
Proof.
  intros Hb. unfold is_inline. rewrite string_init_cases by done.
  destruct (can_inline in_) eqn:E; [by apply inlined_tag|apply packed_tag].
Qed.

Lemma until_nul_pad in_ n : until_nul (in_ ++ replicate n 0) = until_nul in_.
Proof.
  unfold until_nul. induction in_ as [|c l IH]; cbn.
  { by destruct n. }
  destruct (negb (c =? 0)) eqn:E; cbn; [by rewrite IH|done].
Qed.

Definition no_nul (l : bytes) : Prop := Forall (fun c => c <> 0) l.

Lemma no_nul_ok l : forallb (fun c => negb (c =? 0)) l = true -> no_nul l.
Proof.
  intros H. apply Forall_forall. intros c Hc. rewrite forallb_forall in H.
  specialize (H c ltac:(by apply list_elem_of_In)). lia.
Qed.

Lemma until_nul_id l : no_nul l -> until_nul l = l.
Proof.
  induction 1 as [|c l Hc _ IH]; [done|]. unfold until_nul in *. cbn.
  apply Z.eqb_neq in Hc. rewrite Hc. cbn. by rewrite IH.
Qed.

(** The handle of [in_], found at [addr] of [buf], reads back as [in_]. *)
Lemma string_slice_init_inline addr in_ buf :
  Forall is_byte in_ -> can_inline in_ = true ->
  string_slice (string_init addr in_) buf = until_nul in_.
Proof.
  intros Hb Hc. unfold string_slice. rewrite string_init_cases, Hc by done.
  rewrite inlined_tag by done. cbn. apply until_nul_pad.
Qed.

Lemma get_range_packed (start : nat) in_ buf :
  slice buf start (start + length in_) = Some in_ ->
  Z.of_nat start < 2 ^ 32 -> Z.of_nat (length in_) < 2 ^ 31 ->
  get_range buf (string_ptr (packed (Z.of_nat start) in_)) = Some in_.
Proof.
  intros Hs Ha Hl. unfold get_range. rewrite packed_ptr. cbn [off plen].
  unfold trunc32. rewrite !Z.mod_small by lia. by rewrite !Nat2Z.id.
Qed.

Lemma string_slice_packed (start : nat) in_ buf :
  slice buf start (start + length in_) = Some in_ ->
  Z.of_nat start < 2 ^ 32 -> Z.of_nat (length in_) < 2 ^ 31 ->
  string_slice (packed (Z.of_nat start) in_) buf = in_.
Proof.
  intros. unfold string_slice. rewrite packed_tag. by rewrite get_range_packed.
Qed.

Lemma string_slice_init (start : nat) in_ buf :
  Forall is_byte in_ -> slice buf start (start + length in_) = Some in_ ->
  Z.of_nat start < 2 ^ 32 -> Z.of_nat (length in_) < 2 ^ 31 ->
  string_slice (string_init (Z.of_nat start) in_) buf =
  if can_inline in_ then until_nul in_ else in_.
Proof.
  intros Hb ???. destruct (can_inline in_) eqn:E.
  - by apply string_slice_init_inline.
  - rewrite string_init_cases, E by done. by apply string_slice_packed.
Qed.

Lemma string_len_init addr in_ :
  Forall is_byte in_ -> Z.of_nat (length in_) < 2 ^ 31 ->
  string_len (string_init addr in_) =
  length (if can_inline in_ then until_nul in_ else in_).
Proof.
  intros Hb Hl. unfold string_len. rewrite string_init_cases by done.
  destruct (can_inline in_) eqn:E.
  - rewrite inlined_tag by done. cbn [inlined sbytes]. by rewrite until_nul_pad.
  - rewrite packed_tag, packed_ptr. cbn [plen]. rewrite Z.mod_small by lia. lia.
Qed.

Lemma long_not_inline in_ : (8 < length in_)%nat -> can_inline in_ = false.
Proof.
  intros. unfold can_inline. destruct (length in_) as [|n]; [lia|].
  do 8 (destruct n as [|n]; [lia|]). done.
Qed.

(** Inline handles of texts without zero bytes are equal as words only when the texts are. *)
Lemma inlined_inj l k :
  Forall is_byte l -> Forall is_byte k -> (length l <= 8)%nat -> (length k <= 8)%nat ->
  no_nul l -> no_nul k -> le_decode (sbytes (inlined l)) = le_decode (sbytes (inlined k)) -> l = k.
Proof.
  intros Hl Hk Hll Hlk Hnl Hnk H.
  assert (forall x, Forall is_byte x -> Forall is_byte (sbytes (inlined x))) as Hb.
  { intros x Hx. apply Forall_app; split; [done|]. apply Forall_replicate. unfold is_byte; lia. }
  apply le_decode_inj in H; [|auto..|by rewrite !length_inlined].
  apply (f_equal until_nul) in H. cbn [inlined sbytes] in H.
  by rewrite !until_nul_pad, !until_nul_id in H.
Qed.

Lemma can_inline_length l : Forall is_byte l -> can_inline l = true -> (length l <= 8)%nat.
Proof. intros Hb H. rewrite can_inline_spec in H by done. apply bool_decide_eq_true_1 in H. lia. Qed.

(** * Facts about [Buf] *)

Lemma slice_app_l {A} (l k s : list A) a b : slice l a b = Some s -> slice (l ++ k) a b = Some s.
Proof.
  intros H. apply slice_Some in H as (Hb & -> & _). rewrite slice_ok by len.
  by rewrite drop_app_le, take_app_le by len.
Qed.

(** [s] is the handle of the text [str] stored somewhere in [buf]. *)
Definition stored (buf : bytes) (s : SemverString) (str : bytes) : Prop :=
  exists start : nat, s = packed (Z.of_nat start) str /\
    slice buf start (start + length str) = Some str.

Lemma stored_slice buf s str :
  stored buf s str -> Z.of_nat (length buf) < 2 ^ 31 -> string_slice s buf = str.
Proof.
  intros (start & -> & Hs) Hb. pose proof (slice_Some _ _ _ _ Hs) as (? & _).
  apply string_slice_packed; [done|lia..].
Qed.

Lemma stored_app buf k s str : stored buf s str -> stored (buf ++ k) s str.
Proof. intros (start & -> & Hs). exists start. eauto using slice_app_l. Qed.

Record buf_ok (b : Buf) : Prop := {
  buf_small : Z.of_nat (length (bbytes b)) < 2 ^ 31;
  buf_pool h s : pool b !! h = Some s ->
    exists str, stored (bbytes b) s str /\ h = string_hash str
}.

Lemma init_append_stored buf str :
  stored (buf ++ str) (packed (Z.of_nat (length (buf ++ str) - length str)) str) str.
Proof.
  exists (length buf). split; [do 2 f_equal; len|].
  rewrite slice_ok by len. rewrite drop_app_length. f_equal. apply take_ge. lia.
Qed.

(** * Facts about [Builder] *)

Record builder_ok (b : Builder) (p : bytes) : Prop := {
  bo_ptr : bptr b = Some p;
  bo_cap : length p = cap b;
  bo_len : (blen b <= cap b)%nat;
  bo_small : Z.of_nat (cap b) < 2 ^ 31;
  bo_pool h v : string_pool b !! h = Some v -> exists str, stored (take (blen b) p) v str
}.

Lemma builder_write_ok b p s :
  builder_ok b p -> (blen b + length s <= cap b)%nat ->
  exists b' p', builder_write b s = Some (b', blen b) /\ builder_ok b' p' /\
    blen b' = (blen b + length s)%nat /\ cap b' = cap b /\ string_pool b' = string_pool b /\
    take (blen b') p' = take (blen b) p ++ s.
Proof.
  intros [Hp Hc Hl Hs Hpool] Hfit. unfold builder_write. rewrite Hp. cbn [mbind option_bind].
  rewrite slice_ok by lia. cbn [mbind option_bind].
  rewrite copy_from_slice_ok by len. cbn [mbind option_bind app Nat.add].
  rewrite take_0. cbn [app].
  rewrite (copy_from_slice_ok p) by len. cbn [mbind option_bind].
  match goal with |- context [Some (?w, blen b)] => set (b1 := w) end.
  set (p' := default [] (bptr b1)). exists b1, p'. split; [done|].
  assert (take (blen b + length s) p' = take (blen b) p ++ s) as Htake.
  { unfold p', b1. simpl. rewrite <- (app_assoc s), (app_assoc (take _ p)). by rewrite take_app_length' by len. }
  split; [|repeat split; done].
  split; cbn [bptr cap blen string_pool]; try done.
  - unfold p', b1. simpl. len.
  - intros h v Hv. unfold b1. simpl. rewrite Htake. destruct (Hpool h v Hv) as [str Hst].
    exists str. by apply stored_app.
Qed.

Lemma take_stored n p v str : stored (take n p) v str -> stored p v str.
Proof. intros H. rewrite <- (take_drop n p). by apply stored_app. Qed.

Lemma allocated_ok b p : builder_ok b p -> slice p 0 (cap b) = Some p.
Proof. intros []. rewrite slice_ok by lia. by rewrite drop_0, Nat.sub_0_r, take_ge by lia. Qed.

(** The copy of a text that fits, and the slice of it the handle is made from. *)
Lemma builder_copy_ok b p s :
  builder_ok b p -> (blen b + length s <= cap b)%nat ->
  exists b' p', builder_ok b' p' /\ blen b' = (blen b + length s)%nat /\ cap b' = cap b /\
    string_pool b' = string_pool b /\ take (blen b') p' = take (blen b) p ++ s /\
    stored (take (blen b') p') (packed (Z.of_nat (blen b)) s) s /\
    forall X (k : Builder -> nat -> bytes -> option X),
      ('(b', start) ← builder_write b s;
       q ← bptr b'; allocated ← slice q 0 (cap b');
       final_slice ← slice allocated start (start + length s);
       k b' start final_slice) = k b' (blen b) s.
Proof.
  intros Hok Hfit.
  destruct (builder_write_ok b p s Hok Hfit) as (b' & p' & Hw & Hok' & Hbl & Hcap & Hpl & Htk).
  pose proof Hok as []. pose proof Hok' as [].
  assert (slice (take (blen b') p') (blen b) (blen b + length s) = Some s) as Hsl.
  { rewrite Htk, slice_ok by len. rewrite drop_app_length' by len. f_equal. apply take_ge. lia. }
  exists b', p'. repeat (split; [done|]). split; [by exists (blen b)|].
  intros X k. rewrite Hw. cbn [mbind option_bind]. rewrite bo_ptr1. cbn [mbind option_bind].
  rewrite (allocated_ok _ _ Hok'). cbn [mbind option_bind].
  rewrite <- (take_drop (blen b') p') at 1. by rewrite (slice_app_l _ _ _ _ _ Hsl).
Qed.

Lemma allocated_slice_ok b p : builder_ok b p -> is_Some (allocated_slice b).
Proof.
  intros Hok. unfold allocated_slice. destruct (0 <? cap b)%nat; [|eauto].
  rewrite (bo_ptr _ _ Hok). cbn [mbind option_bind]. rewrite (allocated_ok _ _ Hok). eauto.
Qed.

Lemma builder_pool_insert b p h v s :
  builder_ok b p -> stored (take (blen b) p) v s ->
  builder_ok {| blen := blen b; cap := cap b; bptr := bptr b;
                string_pool := <[h := v]> (string_pool b) |} p.
Proof.
  intros [H1 H2 H3 H4 H5] Hst. split; cbn; try done. intros h' w.
  rewrite lookup_insert. case_decide; [intros [= <-]|]; eauto.
Qed.

(** The bytes an append may need: none for the texts of at most 8 bytes. *)
Definition need (s : bytes) : nat := if (length s <=? MAX_INLINE_LEN)%nat then 0 else length s.

(** One [append]: succeeds when the text fits, and its handle is the inline
    one or that of a copy of the text; the bytes written before are kept. *)
(** The handle of the text [s] at the address [addr]: it holds the text, or where the buffer
    [buf] has it, or, for eight bytes with the high bit of the last one set, the address. *)
Definition handle_for (addr : Z) (buf : bytes) (v : SemverString) (s : bytes) : Prop :=
  if can_inline s then v = inlined s
  else if decide (8 < length s)%nat then stored buf v s
  else v = string_init addr s.

Lemma builder_append_ok b p addr s :
  builder_ok b p -> Forall is_byte s -> (blen b + need s <= cap b)%nat ->
  exists b' p' v, builder_append (T := SemverString) b addr s = Some (b', v) /\
    builder_ok b' p' /\ cap b' = cap b /\ (blen b' <= blen b + need s)%nat /\
    (exists k, take (blen b') p' = take (blen b) p ++ k) /\
    handle_for addr (take (blen b') p') v s.
Proof.
  intros Hok Hb. unfold need, builder_append, builder_append_with_hash.
  destruct (length s <=? MAX_INLINE_LEN)%nat eqn:E8; unfold MAX_INLINE_LEN in E8;
    [apply Nat.leb_le in E8|apply Nat.leb_gt in E8]; intros Hfit.
  - destruct (allocated_slice_ok _ _ Hok) as [al ->].
    exists b, p, (string_init addr s). split; [done|]. split; [done|]. split; [done|].
    split; [lia|]. split; [exists []; by rewrite app_nil_r|]. unfold handle_for. rewrite string_init_cases by done.
    destruct (can_inline s); [done|]. by rewrite decide_False by lia.
  - assert (forall buf v, stored buf v s -> handle_for addr buf v s) as Hh.
    { intros buf v Hv. unfold handle_for. by rewrite (long_not_inline s E8), decide_True. }
    destruct (builder_copy_ok b p s Hok Hfit) as (b' & p' & Hok' & Hbl & Hcap & Hpl & Htk & Hst & Hk).
    destruct (string_pool b !! string_hash s) as [v|] eqn:Ev.
    + rewrite (bo_ptr _ _ Hok). cbn [mbind option_bind]. rewrite (allocated_ok _ _ Hok).
      cbn [mbind option_bind]. destruct (bo_pool _ _ Hok _ _ Ev) as [str Hstr].
      pose proof Hok as [Hp Hc Hl Hsm _].
      rewrite (stored_slice p v str) by (by eapply take_stored || lia).
      case_bool_decide as Heq; cbn [negb].
      * subst str. exists b, p, v. repeat (split; [done || lia|]).
        split; [exists []; by rewrite app_nil_r|by apply Hh].
      * unfold builder_append_without_pool, MAX_INLINE_LEN.
        rewrite (proj2 (Nat.leb_gt _ _)), Hk by lia.
        exists b', p', (string_init (Z.of_nat (blen b)) s). split; [done|].
        rewrite string_init_cases, (long_not_inline s E8) by done.
        repeat (split; [done || lia|]). split; [by exists s|by apply Hh].
    + rewrite Hk. eexists _, p', _. split; [done|]. cbn [blen cap from_pooled string_builder_type].
      rewrite string_init_cases, (long_not_inline s E8) by done.
      split; [by eapply builder_pool_insert|]. repeat (split; [done || lia|]).
      split; [by exists s|by apply Hh].
Qed.

(** The appends of a list of texts, [addrs] where the arguments lie. *)
Fixpoint builder_appends (b : Builder) (l : list (Z * bytes)) : option (Builder * list SemverString) :=
  match l with
  | [] => Some (b, [])
  | (addr, s) :: l' =>
    '(b1, v) ← builder_append b addr s; '(b2, vs) ← builder_appends b1 l'; Some (b2, v :: vs)
  end.

Definition total_need (l : list bytes) : nat := sum_list_with need l.

(** The texts a builder copies or inlines; the remaining ones, of eight bytes
    with the high bit of the last one set, it leaves where they are. *)
Definition copyable (s : bytes) : Prop := can_inline s = true \/ (8 < length s)%nat.

Lemma handle_for_app addr buf k v s : handle_for addr buf v s -> handle_for addr (buf ++ k) v s.
Proof. unfold handle_for. case_match; [done|]. case_decide; [|done]. apply stored_app. Qed.

Definition reads_back (buf : bytes) (v : SemverString) (s : bytes) : Prop :=
  if can_inline s then v = inlined s else stored buf v s.

Lemma reads_back_app buf k v s : reads_back buf v s -> reads_back (buf ++ k) v s.
Proof. unfold reads_back. case_match; [done|]. apply stored_app. Qed.

Lemma reads_back_slice buf v s :
  Forall is_byte s -> no_nul s -> Z.of_nat (length buf) < 2 ^ 31 ->
  reads_back buf v s -> string_slice v buf = s.
Proof.
  intros Hb Hn Hs. unfold reads_back. destruct (can_inline s) eqn:E; [|by intros; apply stored_slice].
  intros ->. pose proof (string_slice_init_inline 0 s buf Hb E) as H.
  by rewrite string_init_cases, E, until_nul_id in H.
Qed.

Lemma handle_for_reads addr buf v s : copyable s -> handle_for addr buf v s -> reads_back buf v s.
Proof.
  unfold handle_for, reads_back. destruct (can_inline s) eqn:E; [done|]. intros [?|H]; [congruence|]. by rewrite decide_True.
Qed.

(** The handles of the texts of [l], each with its address. *)
Definition handles_for (buf : bytes) (vs : list SemverString) (l : list (Z * bytes)) : Prop :=
  Forall2 (fun v x => handle_for x.1 buf v x.2) vs l.

Lemma builder_appends_ok l : forall b p,
  builder_ok b p -> Forall (Forall is_byte) l.*2 ->
  (blen b + total_need l.*2 <= cap b)%nat ->
  exists (b' : Builder) p' vs, builder_appends b l = Some (b', vs) /\ builder_ok b' p' /\ cap b' = cap b /\
    (blen b' <= blen b + total_need l.*2)%nat /\
    (exists k, take (blen b') p' = take (blen b) p ++ k) /\
    handles_for (take (blen b') p') vs l.
Proof.
  induction l as [|[addr s] l IH]; intros b p Hok Hb Hfit.
  { exists b, p, []. repeat (split; [done || (cbn; lia)|]).
    split; [exists []; by rewrite app_nil_r|constructor]. }
  cbn [fmap list_fmap snd] in *. inv Hb.
  unfold total_need in Hfit. cbn [sum_list_with] in Hfit.
  destruct (builder_append_ok b p addr s) as (b1 & p1 & v & He & Hok1 & Hc1 & Hl1 & [k1 Hk1] & Hv);
    [done..|lia|].
  destruct (IH b1 p1) as (b2 & p2 & vs & He2 & Hok2 & Hc2 & Hl2 & [k2 Hk2] & Hvs);
    [done..|unfold total_need; lia|].
  exists b2, p2, (v :: vs). cbn [builder_appends]. rewrite He. cbn [mbind option_bind]. rewrite He2.
  unfold total_need in *. cbn [sum_list_with].
  split; [done|]. split; [done|]. split; [lia|]. split; [lia|]. split.
  - exists (k1 ++ k2). by rewrite Hk2, Hk1, app_assoc.
  - constructor; [|done]. rewrite Hk2. by apply handle_for_app.
Qed.

Lemma builder_counts_cap l : forall b, string_pool b = ∅ ->
  foldl builder_count b l =
  {| blen := blen b; cap := cap b + total_need l; bptr := bptr b; string_pool := ∅ |}.
Proof.
  unfold total_need.
  induction l as [|s l IH]; intros b Hp; cbn [foldl sum_list_with].
  { destruct b; cbn in *. subst. f_equal. lia. }
  assert (builder_count b s = {| blen := blen b; cap := cap b + need s; bptr := bptr b;
    string_pool := ∅ |}) as ->.
  { unfold builder_count, builder_count_with_hash, need. rewrite Hp, lookup_empty.
    destruct (length s <=? MAX_INLINE_LEN)%nat; [|done].
    destruct b; cbn in *. subst. f_equal. lia. }
  rewrite IH by done. cbn [blen cap bptr]. f_equal. lia.
Qed.

Lemma builder_allocate_ok b :
  blen b = 0%nat -> string_pool b = ∅ -> Z.of_nat (cap b) < 2 ^ 31 ->
  builder_ok (builder_allocate b) (replicate (cap b) 0).
Proof.
  intros Hl Hp Hc. split; cbn; [done|len|lia|done|]. intros h v. rewrite Hp, lookup_empty. done.
Qed.

(** * Facts about [string_eql] *)

(** [s] is the handle [String::init] makes for the text [str] of [buf]. *)
Definition handle_of (buf : bytes) (s : SemverString) (str : bytes) : Prop :=
  exists start : nat, s = string_init (Z.of_nat start) str /\
    slice buf start (start + length str) = Some str.

Definition text_ok (buf str : bytes) : Prop :=
  Forall is_byte str /\ no_nul str /\ Z.of_nat (length buf) < 2 ^ 31.

Lemma handle_inline buf s str :
  handle_of buf s str -> Forall is_byte str -> is_inline s = can_inline str.
Proof. intros (start & -> & _) Hb. by apply init_is_inline. Qed.

Lemma handle_packed buf s str :
  handle_of buf s str -> text_ok buf str -> can_inline str = false ->
  get_range buf (string_ptr s) = Some str.
Proof.
  intros (start & -> & Hs) (Hb & _ & Hl) Hc. pose proof (slice_Some _ _ _ _ Hs) as (? & _).
  rewrite string_init_cases, Hc by done. apply get_range_packed; [done|lia..].
Qed.

Lemma handle_word buf s str :
  handle_of buf s str -> Forall is_byte str -> can_inline str = true -> s = inlined str.
Proof. intros (start & -> & _) Hb Hc. by rewrite string_init_cases, Hc. Qed.

Lemma handle_slice buf s str : handle_of buf s str -> text_ok buf str -> string_slice s buf = str.
Proof.
  intros (start & -> & Hs) (Hb & Hn & Hl). pose proof (slice_Some _ _ _ _ Hs) as (? & _).
  rewrite string_slice_init by (done || lia). rewrite until_nul_id by done. by case_match.
Qed.

(** Sixteen-byte texts starting with these bytes zero a factor of the legacy hash. *)
Definition hash_prefix : bytes := [0x64; 0x1d; 0x76; 0xa0; 0x2f; 0x64; 0xbd; 0x78].

Lemma hash_prefix_collides u :
  length u = 8%nat -> string_hash (hash_prefix ++ u) = 15628865630291174641.
Proof.
  intros Hu. destruct u as [|c1 [|c2 [|c3 [|c4 [|c5 [|c6 [|c7 [|c8 [|]]]]]]]]]; try discriminate Hu.
  unfold string_hash. rewrite (Wyhash11Facts.hash11_absorb _ _ 0) by (cbn; lia).
  unfold Wyhash11.stateless_final. cbn [length Nat.sub Wyhash11.seed Wyhash11Facts.absorb32].
  set (m := hash_prefix ++ _). change (drop (32 * 0) m) with m.
  assert (Wyhash11.final_seed 0 m = Some 0) as -> by reflexivity.
  reflexivity.
Qed.

Module SemverStringProps.



(** [eql] decides equality of the texts two handles stand for, and
    [order] their byte-lexicographic order, although [eql] compares words
    when both are inline and never reads a buffer when only one is. *)
Theorem string_eql_spec sbuf tbuf s t str1 str2 :
  handle_of sbuf s str1 -> handle_of tbuf t str2 -> text_ok sbuf str1 -> text_ok tbuf str2 ->
  string_eql s t sbuf tbuf = bool_decide (str1 = str2) /\
  string_order s t sbuf tbuf = order str1 str2.
Proof.
  intros Hs Ht Ok1 Ok2. split; [|unfold string_order; by rewrite (handle_slice _ _ _ Hs), (handle_slice _ _ _ Ht)].
  pose proof Ok1 as (Hb1 & Hn1 & _). pose proof Ok2 as (Hb2 & Hn2 & _).
  unfold string_eql. rewrite (handle_inline _ _ _ Hs Hb1), (handle_inline _ _ _ Ht Hb2).
  destruct (can_inline str1) eqn:E1, (can_inline str2) eqn:E2; cbn [andb Bool.eqb negb].
  - rewrite (handle_word _ _ _ Hs Hb1 E1), (handle_word _ _ _ Ht Hb2 E2).
    case_bool_decide as He; [subst; apply Z.eqb_refl|]. apply Z.eqb_neq. contradict He.
    apply inlined_inj in He; auto using can_inline_length.
  - symmetry. apply bool_decide_eq_false_2. congruence.
  - symmetry. apply bool_decide_eq_false_2. congruence.
  - by rewrite (handle_packed _ _ _ Hs Ok1 E1), (handle_packed _ _ _ Ht Ok2 E2).
Qed.

Theorem string_eql_spec_witness :
  string_eql (string_init 0 b!"lodash-es") (string_init 3 b!"lodash-es")
    b!"lodash-es" b!"is-lodash-es" = true.
Proof.
  assert (Forall is_byte b!"lodash-es" /\ no_nul b!"lodash-es") as [Hb Hn].
  { split; [by apply all_bytes|by apply no_nul_ok]. }
  refine (eq_trans (proj1 (string_eql_spec b!"lodash-es" b!"is-lodash-es" _ _
    b!"lodash-es" b!"lodash-es" _ _ _ _)) _);
    [exists 0%nat; split; reflexivity|exists 3%nat; split; reflexivity
    |split; [exact Hb|split; [exact Hn|reflexivity]]
    |split; [exact Hb|split; [exact Hn|reflexivity]]|reflexivity].
Defined.



(** The pool of [Buf] is keyed by a hash with known collisions, and a hit
    is not compared: the second of two texts of sixteen bytes that start with
    the zeroing prefix gets the handle of the first. *)
Theorem buf_append_collision u v :
  Forall is_byte u -> length u = 8%nat -> length v = 8%nat ->
  exists b1 b2 s1 s2, buf_append {| bbytes := []; pool := ∅ |} (hash_prefix ++ u) = Some (b1, s1) /\
    buf_append b1 (hash_prefix ++ v) = Some (b2, s2) /\
    string_slice s2 (bbytes b2) = hash_prefix ++ u.
Proof.
  intros Hb Hu Hv. unfold buf_append, buf_append_with_hash.
  rewrite !hash_prefix_collides by done.
  assert (forall w, length w = 8%nat -> length (hash_prefix ++ w) = 16%nat) as H16.
  { intros w Hw. by rewrite length_app, Hw. }
  rewrite !long_not_inline by (rewrite H16 by done; lia).
  cbn [pool]. rewrite lookup_empty. unfold init_append. cbn [bbytes]. rewrite app_nil_l.
  eexists _, _, _, _. split; [reflexivity|]. cbn [pool bbytes]. rewrite lookup_insert_eq.
  split; [reflexivity|]. cbn [bbytes]. rewrite Nat.sub_diag.
  apply (string_slice_packed 0); [|done|rewrite H16 by done; lia].
  rewrite slice_ok by lia. by rewrite drop_0, Nat.sub_0_r, take_ge by lia.
Qed.

Theorem buf_append_collision_witness :
  exists b1 b2 s1 s2,
    buf_append {| bbytes := []; pool := ∅ |} (hash_prefix ++ b!"one-text") = Some (b1, s1) /\
    buf_append b1 (hash_prefix ++ b!"another!") = Some (b2, s2) /\
    string_slice s2 (bbytes b2) = hash_prefix ++ b!"one-text".
Proof.
  apply buf_append_collision; [|reflexivity|reflexivity].
  by apply all_bytes.
Defined.



(** An 8-byte text whose last byte has the high bit set is the exception:
    [Builder::append] copies nothing and returns a packed handle of the
    argument's own address, which reads as empty in the builder's buffer when
    that address lies outside it. *)
Theorem builder_append_foreign b p addr s :
  builder_ok b p -> Forall is_byte s -> length s = 8%nat -> 128 <= last_byte s ->
  builder_append (T := SemverString) b addr s = Some (b, packed addr s) /\
  (Z.of_nat (cap b) <= trunc32 addr -> string_slice (packed addr s) p = []).
Proof.
  intros Hok Hb Hl Hlast. unfold builder_append, builder_append_with_hash.
  rewrite Hl. cbn [Nat.leb MAX_INLINE_LEN]. destruct (allocated_slice_ok _ _ Hok) as [a ->].
  cbn [mbind option_bind from_init string_builder_type]. split.
  - do 2 f_equal. rewrite string_init_cases by done.
    destruct (can_inline s) eqn:E; [|done]. rewrite can_inline_spec in E by done.
    apply bool_decide_eq_true_1 in E. lia.
  - intros Ha. unfold string_slice. rewrite packed_tag, packed_ptr. unfold get_range.
    cbn [off plen]. rewrite Hl. unfold slice. rewrite decide_False; [done|].
    rewrite (bo_cap _ _ Hok). change (Z.of_nat 8 mod 2 ^ 31) with 8. lia.
Qed.

Theorem builder_append_foreign_witness :
  let b := builder_allocate builder_default in
  let s := b!"caf-ole" ++ [0xE9] in
  builder_append (T := SemverString) b 4096 s = Some (b, packed 4096 s) /\
  string_slice (packed 4096 s) [] = [].
Proof.
  destruct (builder_append_foreign (builder_allocate builder_default) [] 4096 (b!"caf-ole" ++ [0xE9]))
    as [H1 H2].
  - apply (builder_allocate_ok builder_default); reflexivity.
  - by apply all_bytes.
  - reflexivity.
  - vm_compute. discriminate.
  - split; [exact H1|]. apply H2. vm_compute. discriminate.
Defined.

End SemverStringProps.
