(* ===== verification/SemverVersion.v ===== *)
(** src/src/semver/Version.rs: versions with their prerelease and build tags,
    the parser, the orders and the formatter.

    The integer parameter [T] of [VersionType<T>] enters through [T::MAX]
    only; the zeroed padding field has no behaviour.  Slices of the input are
    [SlicedString]s; [None] is a panic or exhausted fuel, both of which the
    theorems exclude. *)
From S2P Require Import Prelude Wyhash BunCore SemverString.

(** * Data *)

Record Tag := { pre : ExternalString; build : ExternalString }.
Definition tag_default : Tag := {| pre := external_default; build := external_default |}.

Record VersionType := { major : Z; minor : Z; patch : Z; tag : Tag }.

Record Partial := { pmajor : option Z; pminor : option Z; ppatch : option Z; ptag : Tag }.
Definition partial_default : Partial :=
  {| pmajor := None; pminor := None; ppatch := None; ptag := tag_default |}.

Inductive Wildcard := WNone | WMajor | WMinor | WPatch.
#[export] Instance Wildcard_eq_dec : EqDecision Wildcard.
Proof. solve_decision. Defined.

Inductive ChangedVersion := CMajor | CMinor | CPatch | CPre | CBuild | CNone.
Inductive PinnedVersion := PinMajor | PinMinor | PinPatch.

Record TagResult := { tr_tag : Tag; tr_len : Z }.
Record ParseResult := { wildcard : Wildcard; valid : bool; version : Partial; len : Z }.

Definition parse_result_default : ParseResult :=
  {| wildcard := WNone; valid := true; version := partial_default; len := 0 |}.

(** * Tags: order, equality, copying *)

Definition has_pre (t : Tag) : bool := negb (external_is_empty (pre t)).
Definition has_build (t : Tag) : bool := negb (external_is_empty (build t)).

(** [T::parse_ascii], [max] being [T::MAX]. *)
Definition parse_ascii (max : Z) (s : bytes) : option Z := ok (parse_unsigned max s 10).

(** The loop of [order_pre] on the two iterators; [None] out of fuel. *)
Section OrderPre.
Context {F : ByteSearch}.

Fixpoint order_pre_loop (fuel : nat) (lhs_itr rhs_itr : SplitIterator) : option comparison :=
  match fuel with
  | O => None
  | S fuel =>
    match split_next lhs_itr, split_next rhs_itr with
    | None, None => Some Eq
    | _, None => Some Gt
    | None, _ => Some Lt
    | Some (lhs_part, lhs_itr), Some (rhs_part, rhs_itr) =>
      let continue := order_pre_loop fuel lhs_itr rhs_itr in
      match parse_ascii U64_MAX lhs_part, parse_ascii U64_MAX rhs_part with
      | Some _, None => Some Lt
      | None, Some _ => Some Gt
      | None, None =>
        match order lhs_part rhs_part with Eq => continue | not_equal => Some not_equal end
      | Some lhs_uint, Some rhs_uint =>
        match lhs_uint ?= rhs_uint with Eq => continue | not_equal => Some not_equal end
      end
    end
  end.

Definition order_pre (l r : Tag) (lhs_buf rhs_buf : bytes) : option comparison :=
  let lhs_str := external_slice (pre l) lhs_buf in
  let rhs_str := external_slice (pre r) rhs_buf in
  order_pre_loop (S (S (length lhs_str))) (split lhs_str [ #"."]) (split rhs_str [ #"."]).

Definition tag_order (l r : Tag) (lhs_buf rhs_buf : bytes) : option comparison :=
  if has_pre l && has_pre r then order_pre l r lhs_buf rhs_buf
  else
    match external_order (pre l) (pre r) lhs_buf rhs_buf with
    | Eq => Some (external_order (build l) (build r) lhs_buf rhs_buf)
    | pre_order => Some pre_order
    end.

Definition tag_order_without_build (l r : Tag) (lhs_buf rhs_buf : bytes) : option comparison :=
  if has_pre l && has_pre r then order_pre l r lhs_buf rhs_buf
  else Some (external_order (pre l) (pre r) lhs_buf rhs_buf).
End OrderPre.

Definition tag_eql (l r : Tag) : bool := hash (pre l) =? hash (pre r).

(** [clone_into]: the handles are made at the front of what is left of [buf]. *)
Definition clone_string (e : ExternalString) (slice_ buf : bytes)
    : option (SemverString * bytes * bytes) :=
  if external_is_inline e then Some (value e, [], buf)
  else
    let s := external_slice e slice_ in
    buf' ← copy_from_slice buf 0 s;
    Some (string_init 0 s, take (length s) buf', drop (length s) buf').

Definition tag_clone_into (t : Tag) (slice_ buf : bytes) : option (Tag * bytes) :=
  '(p, w1, buf) ← clone_string (pre t) slice_ buf;
  '(b, w2, buf) ← clone_string (build t) slice_ buf;
  Some ({| pre := {| value := p; hash := hash (pre t) |};
           build := {| value := b; hash := hash (build t) |} |}, w1 ++ w2 ++ buf).

(** * Versions: comparison *)

Definition version_is_zero (v : VersionType) : bool :=
  (patch v =? 0) && (minor v =? 0) && (major v =? 0).

Definition version_eql (l r : VersionType) : bool :=
  (major l =? major r) && (minor l =? minor r) && (patch l =? patch r) && tag_eql (tag r) (tag l).

Definition order_without_tag (l r : VersionType) : comparison :=
  if major l <? major r then Lt else if major r <? major l then Gt
  else if minor l <? minor r then Lt else if minor r <? minor l then Gt
  else if patch l <? patch r then Lt else if patch r <? patch l then Gt
  else if has_pre (tag l) then (if has_pre (tag r) then Eq else Lt)
  else if has_pre (tag r) then Gt else Eq.

Section Orders.
Context {F : ByteSearch}.

Definition version_order (l r : VersionType) (lhs_buf rhs_buf : bytes) : option comparison :=
  match order_without_tag l r with
  | Eq => tag_order (tag l) (tag r) lhs_buf rhs_buf
  | c => Some c
  end.

Definition order_without_build (l r : VersionType) (lhs_buf rhs_buf : bytes) : option comparison :=
  match order_without_tag l r with
  | Eq => tag_order_without_build (tag l) (tag r) lhs_buf rhs_buf
  | c => Some c
  end.

Definition sort_gt (ctx : bytes) (l r : VersionType) : option bool :=
  c ← version_order l r ctx ctx; Some (match c with Gt => true | _ => false end).

Definition which_version_is_different (left right : VersionType) (left_buf right_buf : bytes)
    : option (option ChangedVersion) :=
  if negb (major left =? major right) then Some (Some CMajor)
  else if negb (minor left =? minor right) then Some (Some CMinor)
  else if negb (patch left =? patch right) then Some (Some CPatch)
  else if negb (Bool.eqb (has_pre (tag left)) (has_pre (tag right))) then Some (Some CPre)
  else if negb (has_pre (tag left)) && negb (has_pre (tag right)) then Some None
  else
    c ← order_pre (tag left) (tag right) left_buf right_buf;
    match c with
    | Eq =>
      if negb (Bool.eqb (has_build (tag left)) (has_build (tag right))) then Some (Some CBuild)
      else if negb (has_build (tag left)) && negb (has_build (tag right)) then Some None
      else match external_order (build (tag left)) (build (tag right)) left_buf right_buf with
        | Eq => Some None
        | _ => Some (Some CBuild)
        end
    | _ => Some (Some CPre)
    end.
End Orders.

(** * Versions: bounds, copies, formatting *)

Definition partial_min (p : Partial) : VersionType :=
  {| major := default 0 (pmajor p); minor := default 0 (pminor p);
     patch := default 0 (ppatch p); tag := ptag p |}.

Definition partial_max (T_MAX : Z) (p : Partial) : VersionType :=
  {| major := default T_MAX (pmajor p); minor := default T_MAX (pminor p);
     patch := default T_MAX (ppatch p); tag := ptag p |}.

(** [VersionType<u32>::migrate]: [u64::from] is the identity on values. *)
Definition migrate (v : VersionType) : VersionType :=
  {| major := major v; minor := minor v; patch := patch v;
     tag := {| pre := pre (tag v); build := build (tag v) |} |}.

(** [len]: the tag lengths, as [u32]. *)
Definition version_len (v : VersionType) : Z :=
  trunc32 (Z.of_nat (external_len (build (tag v)) + external_len (pre (tag v)))).

Definition version_clone_into (v : VersionType) (slice_ buf : bytes) : option (VersionType * bytes) :=
  '(t, buf') ← tag_clone_into (tag v) slice_ buf;
  Some ({| major := major v; minor := minor v; patch := patch v; tag := t |}, buf').

Definition version_count (v : VersionType) (buf : bytes) (b : Builder) : Builder :=
  let b := if has_pre (tag v) && negb (external_is_inline (pre (tag v)))
           then builder_count b (external_slice (pre (tag v)) buf) else b in
  if has_build (tag v) && negb (external_is_inline (build (tag v)))
  then builder_count b (external_slice (build (tag v)) buf) else b.

(** [append]; the addresses of the arguments only matter for texts of 8 bytes. *)
Definition append_tag_part (addr : Z) (e : ExternalString) (present : bool) (buf : bytes) (b : Builder)
    : option (Builder * ExternalString) :=
  if present && negb (external_is_inline e)
  then builder_append (T := ExternalString) b addr (external_slice e buf) else Some (b, e).

Definition version_append (a1 a2 : Z) (v : VersionType) (buf : bytes) (b : Builder)
    : option (Builder * VersionType) :=
  '(b, p) ← append_tag_part a1 (pre (tag v)) (has_pre (tag v)) buf b;
  '(b, bl) ← append_tag_part a2 (build (tag v)) (has_build (tag v)) buf b;
  Some (b, {| major := major v; minor := minor v; patch := patch v;
              tag := {| pre := p; build := bl |} |}).

(** [Formatter]. *)
Definition version_fmt (v : VersionType) (input : bytes) : bytes :=
  decimal (major v) ++ [ #"."] ++ decimal (minor v) ++ [ #"."] ++ decimal (patch v) ++
  (if has_pre (tag v) then #"-" :: external_slice (pre (tag v)) input else []) ++
  (if has_build (tag v) then #"+" :: external_slice (build (tag v)) input else []).

(** * Parsing tags *)

Inductive TagState := SNone | SPre | SBuild.
#[export] Instance TagState_eq_dec : EqDecision TagState.
Proof. solve_decision. Defined.

(** The locals of the loop of [parse_with_pre_count]. *)
Record TLoop := { t_tag : Tag; t_state : TagState; t_start : nat; t_i : nat }.

Definition set_pre (t : Tag) (e : ExternalString) : Tag := {| pre := e; build := build t |}.
Definition set_build (t : Tag) (e : ExternalString) : Tag := {| pre := pre t; build := e |}.

(** [sliced_string.sub(&input[start..i]).external()]. *)
Definition sub_external (ss : SlicedString) (start i : nat) : option ExternalString :=
  s ← ss_sub ss start i; Some (ss_external s).

Definition is_tag_char (c : Z) : bool :=
  is_ascii_lowercase c || is_ascii_uppercase c || is_ascii_digit c || (c =? #".").

(** One iteration on the character [c]: the new state, and whether to go on. *)
Definition tag_step (ss : SlicedString) (initial_pre_count : Z) (s : TLoop) (c : Z)
    : option (TLoop * bool) :=
  let go t st start := Some ({| t_tag := t; t_state := st; t_start := start; t_i := S (t_i s) |}, true) in
  if c =? #"+" then
    t ← (if bool_decide (t_state s = SPre) || bool_decide (t_state s = SNone) && (0 <? initial_pre_count)
         then e ← sub_external ss (t_start s) (t_i s); Some (set_pre (t_tag s) e)
         else Some (t_tag s));
    if negb (bool_decide (t_state s = SBuild)) then go t SBuild (S (t_i s))
    else go t (t_state s) (t_start s)
  else if c =? #"-" then
    if negb (bool_decide (t_state s = SPre)) then go (t_tag s) SPre (S (t_i s))
    else go (t_tag s) (t_state s) (t_start s)
  else if is_tag_char c then go (t_tag s) (t_state s) (t_start s)
  else
    t ← (match t_state s with
         | SNone => Some (t_tag s)
         | SPre => e ← sub_external ss (t_start s) (t_i s); Some (set_pre (t_tag s) e)
         | SBuild => e ← sub_external ss (t_start s) (t_i s); Some (set_build (t_tag s) e)
         end);
    Some ({| t_tag := t; t_state := SNone; t_start := t_start s; t_i := t_i s |}, false).

(** [while i < input.len()]. *)
Fixpoint tag_loop (fuel : nat) (ss : SlicedString) (initial_pre_count : Z) (s : TLoop)
    : option TLoop :=
  match ss_slice ss !! t_i s with
  | None => Some s
  | Some c =>
    match fuel with
    | O => None
    | S fuel =>
      '(s', continue) ← tag_step ss initial_pre_count s c;
      if continue : bool then tag_loop fuel ss initial_pre_count s' else Some s'
    end
  end.

(** What follows the loop. *)
Definition tag_finish (ss : SlicedString) (initial_pre_count : Z) (s : TLoop) : option TagResult :=
  let '(state, start) :=
    if bool_decide (t_state s = SNone) && (0 <? initial_pre_count) then (SPre, O)
    else (t_state s, t_start s) in
  t ← (match state with
       | SNone => Some (t_tag s)
       | SPre => e ← sub_external ss start (t_i s); Some (set_pre (t_tag s) e)
       | SBuild => e ← sub_external ss start (t_i s); Some (set_build (t_tag s) e)
       end);
  Some {| tr_tag := t; tr_len := trunc32 (Z.of_nat (t_i s)) |}.

Definition count_char (c : Z) (l : bytes) : Z := Z.of_nat (length (filter (fun x => x = c) l)).

Definition parse_with_pre_count (ss : SlicedString) (initial_pre_count : Z) : option TagResult :=
  let input := ss_slice ss in
  let counted := take (prefix_len (fun c => negb (c =? #" ")) input) input in
  let build_count := count_char #"+" counted in
  let pre_count := initial_pre_count + count_char #"-" counted in
  if (build_count =? 0) && (pre_count =? 0) then Some {| tr_tag := tag_default; tr_len := 0 |}
  else
    s ← tag_loop (length input) ss initial_pre_count
          {| t_tag := tag_default; t_state := SNone; t_start := 0; t_i := 0 |};
    tag_finish ss initial_pre_count s.

Definition tag_parse (ss : SlicedString) : option TagResult := parse_with_pre_count ss 0.

(** * Parsing versions *)

Definition is_whitespace (c : Z) : bool := chars_contains WHITESPACE_CHARS c.
Definition is_separator (c : Z) : bool := is_whitespace c || (c =? #"v") || (c =? #"=").
Definition is_wild_char (c : Z) : bool := (c =? #"x") || (c =? #"*") || (c =? #"X").

Section Parse.
Context (T_MAX : Z).

(** The digits kept by [parse_version_number], [None] when it returns early. *)
Fixpoint number_bytes (input bs : bytes) : option bytes :=
  match input with
  | [] => Some bs
  | c :: r =>
    if is_wild_char c then None
    else if is_ascii_digit c then
      if (20 <? length bs + 1)%nat then None else number_bytes r (bs ++ [c])
    else if (c =? #" ") || (c =? #".") then Some bs
    else number_bytes r bs
  end.

Definition parse_version_number (input : bytes) : option Z :=
  match number_bytes input [] with
  | None | Some [] => None
  | Some bs => Some (default 0 (parse_ascii T_MAX bs))
  end.

(** The locals of the main loop. *)
Record PLoop := { p_i : nat; part_i : Z; p_res : ParseResult }.

Definition set_valid (r : ParseResult) (b : bool) : ParseResult :=
  {| wildcard := wildcard r; valid := b; version := version r; len := len r |}.
Definition set_wildcard (r : ParseResult) (w : Wildcard) : ParseResult :=
  {| wildcard := w; valid := valid r; version := version r; len := len r |}.
Definition set_version (r : ParseResult) (v : Partial) : ParseResult :=
  {| wildcard := wildcard r; valid := valid r; version := v; len := len r |}.
Definition set_tag (r : ParseResult) (t : Tag) : ParseResult :=
  set_version r {| pmajor := pmajor (version r); pminor := pminor (version r);
                   ppatch := ppatch (version r); ptag := t |}.

(** [match part_i] on a number: the component it sets and the next part. *)
Definition set_part (r : ParseResult) (part_i : Z) (n : option Z) : ParseResult * Z :=
  let v := version r in
  if part_i =? 0 then
    (set_version r {| pmajor := n; pminor := pminor v; ppatch := ppatch v; ptag := ptag v |}, 1)
  else if part_i =? 1 then
    (set_version r {| pmajor := pmajor v; pminor := n; ppatch := ppatch v; ptag := ptag v |}, 2)
  else if part_i =? 2 then
    (set_version r {| pmajor := pmajor v; pminor := pminor v; ppatch := n; ptag := ptag v |}, 3)
  else (r, part_i).

Definition set_wild_part (r : ParseResult) (part_i : Z) : ParseResult * Z :=
  if part_i =? 0 then (set_wildcard r WMajor, 1)
  else if part_i =? 1 then (set_wildcard r WMinor, 2)
  else if part_i =? 2 then (set_wildcard r WPatch, 3)
  else (r, part_i).

Definition no_wildcard (r : ParseResult) : bool := bool_decide (wildcard r = WNone).

(** One iteration on the character [c] at [p_i]: the locals and whether to go on. *)
Definition parse_step (ss : SlicedString) (s : PLoop) (c : Z) : option (PLoop * bool) :=
  let input := ss_slice ss in
  let i := p_i s in
  let break_ i' r := Some ({| p_i := i'; part_i := part_i s; p_res := r |}, false) in
  if c =? #" " then break_ i (p_res s)
  else if existsb (Z.eqb c) b!"|^#&%!" then break_ (i - 1)%nat (p_res s)
  else if is_ascii_digit c then
    let last_char_i := skip_while is_ascii_digit input (S i) in
    number ← slice input i last_char_i;
    let '(r, part) := set_part (p_res s) (part_i s) (parse_version_number number) in
    let i' := match input !! last_char_i with
              | Some d => if (d =? #".") && negb (part =? 3) then S last_char_i else last_char_i
              | None => last_char_i
              end in
    Some ({| p_i := i'; part_i := part; p_res := r |}, true)
  else if c =? #"." then break_ i (set_valid (p_res s) false)
  else if (c =? #"-") || (c =? #"+") then
    if (part_i s <? 2) && no_wildcard (p_res s) then break_ i (set_valid (p_res s) false)
    else
      sub ← ss_sub_from ss i;
      tag_result ← tag_parse sub;
      break_ (skip_while (Z.eqb #" ") input i + Z.to_nat (tr_len tag_result))%nat
             (set_tag (p_res s) (tr_tag tag_result))
  else if is_wild_char c then
    let last_char_i := skip_while is_wild_char input (S i) in
    let i' := match input !! last_char_i with
              | Some d => if d =? #"." then S last_char_i else last_char_i
              | None => last_char_i
              end in
    let '(r, part) :=
      if no_wildcard (p_res s) then set_wild_part (p_res s) (part_i s) else (p_res s, part_i s) in
    Some ({| p_i := i'; part_i := part; p_res := r |}, true)
  else if no_wildcard (p_res s) && (2 <=? part_i s) && is_ascii_alphabetic c then
    sub ← ss_sub_from ss i;
    tag_result ← parse_with_pre_count sub 1;
    break_ (i + Z.to_nat (tr_len tag_result))%nat (set_tag (p_res s) (tr_tag tag_result))
  else break_ i (set_valid (p_res s) false).

Fixpoint parse_loop (fuel : nat) (ss : SlicedString) (s : PLoop) : option PLoop :=
  match ss_slice ss !! p_i s with
  | None => Some s
  | Some c =>
    match fuel with
    | O => None
    | S fuel =>
      '(s', continue) ← parse_step ss s c;
      if continue : bool then parse_loop fuel ss s' else Some s'
    end
  end.

(** [i] after the scan over whitespace, [v] and [=]: it stays 0 when the
    scan reaches the end, so the test after it never fires. *)
Definition leading_separators (input : bytes) : nat :=
  let n := prefix_len is_separator input in if (n <? length input)%nat then n else O.

Definition parse (ss : SlicedString) : option ParseResult :=
  let input := ss_slice ss in
  if (length input =? 0)%nat then Some (set_valid parse_result_default false)
  else
    let i := leading_separators input in
    if (i =? length input)%nat then Some (set_valid parse_result_default false)
    else
      s ← parse_loop (length input) ss {| p_i := i; part_i := 0; p_res := parse_result_default |};
      let r := if no_wildcard (p_res s) then fst (set_wild_part (p_res s) (part_i s)) else p_res s in
      if (Z.of_nat (p_i s) <=? U32_MAX) then
        Some {| wildcard := wildcard r; valid := valid r; version := version r;
                len := Z.of_nat (p_i s) |}
      else None.

Definition parse_utf8 (slice_ : bytes) : option ParseResult := parse (ss_whole slice_).
End Parse.

(** * Scans that avoid a parse *)

Definition valid_pre_or_build_tag_character (c : Z) : bool :=
  (c =? #"-") || (c =? #"+") || (c =? #".") || is_ascii_uppercase c || is_ascii_lowercase c ||
  is_ascii_digit c.

(** One core number of [which_version_is_pinned] at [i]: a verdict, or the
    index and the character after the digits. *)
Definition pin_number (version : bytes) (i : nat) (at_end : PinnedVersion)
    : PinnedVersion + (nat * Z) :=
  match version !! i with
  | None => inl PinMajor
  | Some d =>
    if negb (is_ascii_digit d) then inl PinMajor
    else
      let i := skip_while is_ascii_digit version i in
      match version !! i with
      | None => inl at_end
      | Some d => inr (i, d)
      end
  end.

Definition pin_or (pinned short : PinnedVersion) : PinnedVersion :=
  match pinned with PinPatch => short | _ => pinned end.

Definition pin_tags (version : bytes) (i : nat) (d : Z) (pinned : PinnedVersion) : PinnedVersion :=
  if negb (valid_pre_or_build_tag_character d) || is_ascii_whitespace d then PinMajor
  else
    let p c := valid_pre_or_build_tag_character c && negb (is_ascii_whitespace c) in
    if (length version <=? skip_while p version (S i))%nat then pinned else PinMajor.

(** The core numbers from [i] on. *)
Definition pin_core (version : bytes) (i : nat) (pinned : PinnedVersion) : PinnedVersion :=
  match pin_number version i (pin_or pinned PinMajor) with
  | inl p => p
  | inr (i, d) =>
    if negb (d =? #".") then PinMajor
    else match pin_number version (S i) (pin_or pinned PinMinor) with
      | inl p => p
      | inr (i, d) =>
        if negb (d =? #".") then PinMajor
        else match pin_number version (S i) pinned with
          | inl p => p
          | inr (i, d) => pin_tags version i d pinned
          end
      end
  end.

Definition which_version_is_pinned (input : bytes) : PinnedVersion :=
  let version := trim input WHITESPACE_CHARS in
  let j := prefix_len is_separator version in
  match version !! j with
  | None => PinMajor
  | Some c =>
    if (c =? #"~") || (c =? #"^") then
      let k := skip_while is_whitespace version (S j) in
      if (k <? length version)%nat
      then pin_core version k (if c =? #"~" then PinMinor else PinMajor)
      else PinMajor
    else if is_ascii_digit c then pin_core version j PinPatch
    else PinMajor
  end.

Definition is_tagged_version_only (input : bytes) : bool :=
  match trim input WHITESPACE_CHARS with
  | [] => false
  | c :: r => is_ascii_alphabetic c && forallb is_ascii_alphanumeric r
  end.

(** * Facts about parsing the text of a version *)

(** The handle made for the text [s] at [o] of the slice of [ss]. *)
Definition at_off (ss : SlicedString) (o : nat) (s : bytes) : ExternalString :=
  {| value := string_init (Z.of_nat (ss_off ss + o)) s; hash := string_hash s |}.

Lemma sub_external_text ss a s r :
  ss_slice ss = a ++ s ++ r ->
  sub_external ss (length a) (length a + length s) = Some (at_off ss (length a) s).
Proof.
  intros H. unfold sub_external, ss_sub. rewrite H, slice_ok by len.
  rewrite drop_app_length. replace (length a + length s - length a)%nat with (length s) by lia.
  by rewrite take_app_length.
Qed.

Definition is_pre_char (c : Z) : bool := is_tag_char c || (c =? #"-").

(** A tag component, the text of a pair of them, and what may follow it. *)
Definition pre_text (p : bytes) : Prop := Forall (fun c => is_pre_char c = true) p.
Definition build_text (b : bytes) : Prop := Forall (fun c => is_tag_char c = true) b.
Definition prefixed (c : Z) (s : bytes) : bytes := match s with [] => [] | _ => c :: s end.
Definition tag_text (p b : bytes) : bytes := prefixed #"-" p ++ prefixed #"+" b.
Definition stops (rest : bytes) : Prop := rest = [] \/ exists r, rest = #" " :: r.

Lemma tag_char_not c : is_tag_char c = true -> (c =? #"+") = false /\ (c =? #"-") = false.
Proof.
  unfold is_tag_char, is_ascii_lowercase, is_ascii_uppercase, is_ascii_digit. intros H. lia.
Qed.

Lemma pre_char_not_plus c : is_pre_char c = true -> (c =? #"+") = false.
Proof.
  unfold is_pre_char. intros [H|H]%orb_true_iff; [by apply tag_char_not|]. lia.
Qed.

(** The tag loop runs over the characters of a component without effect. *)
Lemma tag_loop_pre ss ipc fuel a p r t st :
  ss_slice ss = a ++ p ++ r -> pre_text p ->
  tag_loop (length p + fuel) ss ipc {| t_tag := t; t_state := SPre; t_start := st; t_i := length a |} =
  tag_loop fuel ss ipc {| t_tag := t; t_state := SPre; t_start := st; t_i := length a + length p |}.
Proof.
  revert a. induction p as [|c p IH]; intros a H Hp; cbn [length]; [by rewrite !Nat.add_0_r|].
  inv Hp. cbn [Nat.add tag_loop t_i].
  rewrite H, lookup_app_r, Nat.sub_diag by lia. cbn [app lookup list_lookup].
  unfold tag_step. cbn [t_state t_tag t_start t_i]. rewrite pre_char_not_plus by done.
  specialize (IH (a ++ [c])). rewrite length_app in IH. cbn [length] in IH.
  assert (forall n, (n + S (length p) = n + 1 + length p)%nat) as Hn by lia. rewrite Hn.
  rewrite <- IH by (done || by rewrite H, <- app_assoc). rewrite Nat.add_1_r.
  destruct (c =? #"-") eqn:E; [done|]. unfold is_pre_char in *. rewrite E, orb_false_r in *.
  by destruct (is_tag_char c).
Qed.

Lemma tag_loop_build ss ipc fuel a b r t st :
  ss_slice ss = a ++ b ++ r -> build_text b ->
  tag_loop (length b + fuel) ss ipc {| t_tag := t; t_state := SBuild; t_start := st; t_i := length a |} =
  tag_loop fuel ss ipc {| t_tag := t; t_state := SBuild; t_start := st; t_i := length a + length b |}.
Proof.
  revert a. induction b as [|c b IH]; intros a H Hb; cbn [length]; [by rewrite !Nat.add_0_r|].
  inv Hb. cbn [Nat.add tag_loop t_i].
  rewrite H, lookup_app_r, Nat.sub_diag by lia. cbn [app lookup list_lookup].
  unfold tag_step. cbn [t_state t_tag t_start t_i]. destruct (tag_char_not c) as [-> ->]; [done|].
  specialize (IH (a ++ [c])). rewrite length_app in IH. cbn [length] in IH.
  assert (forall n, (n + S (length b) = n + 1 + length b)%nat) as Hn by lia. rewrite Hn.
  rewrite <- IH by (done || by rewrite H, <- app_assoc). rewrite Nat.add_1_r.
  by destruct (is_tag_char c).
Qed.

(** At the end of the text the loop leaves the current component closed, one
    way (end of input, closed by [tag_finish]) or the other (a space). *)
Definition tag_end (ss : SlicedString) (fuel : nat) (s : TLoop) : option TagResult :=
  s' ← tag_loop fuel ss 0 s; tag_finish ss 0 s'.

(** Every component ends the same way, closed by the loop or after it. *)
Lemma tag_end_component ss fuel a s r t st close :
  ss_slice ss = a ++ s ++ r -> stops r -> (length r <= fuel)%nat ->
  st = SPre /\ close = set_pre \/ st = SBuild /\ close = set_build ->
  tag_end ss fuel {| t_tag := t; t_state := st; t_start := length a; t_i := length a + length s |} =
  Some {| tr_tag := close t (at_off ss (length a) s);
          tr_len := trunc32 (Z.of_nat (length a + length s)) |}.
Proof.
  intros H Hr Hf Hst. pose proof (sub_external_text ss a s r H) as Hs.
  assert (ss_slice ss !! (length a + length s)%nat = head r) as Hl.
  { rewrite H, app_assoc, lookup_app_r by len. replace (_ - _)%nat with 0%nat by len. by destruct r. }
  unfold tag_end. destruct Hr as [->|[r' ->]]; cbn [head] in Hl.
  - destruct fuel; cbn [tag_loop t_i]; rewrite Hl; cbn [mbind option_bind]; unfold tag_finish;
      (rewrite bool_decide_eq_false_2 by naive_solver); cbn -[sub_external Z.of_nat]; rewrite Hs;
      by destruct Hst as [[-> ->]|[-> ->]].
  - destruct fuel as [|fuel]; [cbn in Hf; lia|]. cbn [tag_loop t_i]. rewrite Hl. unfold tag_step.
    cbn -[sub_external Z.of_nat tag_finish]. rewrite Hs. by destruct Hst as [[-> ->]|[-> ->]].
Qed.

(** The tags of the text of a slice that starts with them. *)
Definition tag_of (ss : SlicedString) (p b : bytes) : Tag :=
  {| pre := match p with [] => external_default | _ => at_off ss 1 p end;
     build := match b with
              | [] => external_default
              | _ => at_off ss (length (prefixed #"-" p) + 1) b
              end |}.

Lemma count_char_pos c x l : x = c -> 0 < count_char c (x :: l).
Proof. intros ->. unfold count_char. rewrite filter_cons_True by done. cbn [length]. lia. Qed.

Lemma count_char_nonneg c l : 0 <= count_char c l.
Proof. unfold count_char. lia. Qed.

(** A slice that starts with a qualifier goes to the loop. *)
Lemma tag_parse_loop ss c l :
  ss_slice ss = c :: l -> c = #"-" \/ c = #"+" ->
  tag_parse ss = tag_end ss (length (ss_slice ss))
    {| t_tag := tag_default; t_state := SNone; t_start := 0; t_i := 0 |}.
Proof.
  intros H Hc. unfold tag_parse, parse_with_pre_count. rewrite H.
  set (counted := take _ _). assert (exists k, counted = c :: k) as [k ->].
  { unfold counted. cbn [prefix_len]. assert ((c =? 32) = false) as -> by lia. cbn. eauto. }
  pose proof (count_char_nonneg 43 (c :: k)). pose proof (count_char_nonneg 45 (c :: k)).
  destruct (_ && _) eqn:E; [|by rewrite <- H].
  destruct Hc as [Hc|Hc]; apply (count_char_pos _ _ k) in Hc; lia.
Qed.

(** The loop from the start of a build component to the end of the text. *)
Lemma tag_end_build ss fuel a b rest t :
  ss_slice ss = a ++ #"+" :: b ++ rest -> stops rest -> build_text b ->
  (length b + length rest <= fuel)%nat ->
  tag_end ss fuel {| t_tag := t; t_state := SBuild; t_start := S (length a); t_i := S (length a) |} =
  Some {| tr_tag := set_build t (at_off ss (length a + 1) b);
          tr_len := trunc32 (Z.of_nat (length a + 1 + length b)) |}.
Proof.
  intros Ha Hr Hb Hf.
  assert (ss_slice ss = (a ++ [ #"+"]) ++ b ++ rest) as Ha' by (by rewrite Ha, <- app_assoc).
  replace fuel with (length b + (fuel - length b))%nat by lia.
  replace (S (length a)) with (length (a ++ [ #"+"])) by (rewrite length_app; cbn; lia).
  unfold tag_end. rewrite (tag_loop_build _ _ _ _ _ _ _ _ Ha' Hb).
  rewrite <- (length_app a [ #"+"] : _ = (length a + 1)%nat).
  exact (tag_end_component _ (fuel - length b) _ _ _ _ _ set_build Ha' Hr ltac:(lia)
    (or_intror (conj eq_refl eq_refl))).
Qed.

(** The loop from the start of a prerelease to the end of the text. *)
Lemma tag_end_pre ss fuel p b rest t :
  ss_slice ss = #"-" :: p ++ prefixed #"+" b ++ rest -> stops rest ->
  pre_text p -> build_text b -> (length p + length (prefixed #"+" b) + length rest <= fuel)%nat ->
  tag_end ss fuel {| t_tag := t; t_state := SPre; t_start := 1; t_i := 1 |} =
  Some {| tr_tag := match b with
                    | [] => set_pre t (at_off ss 1 p)
                    | _ => set_build (set_pre t (at_off ss 1 p)) (at_off ss (1 + length p + 1) b)
                    end;
          tr_len := trunc32 (Z.of_nat (1 + length p + length (prefixed #"+" b))) |}.
Proof.
  intros H Hr Hp Hb Hf. replace fuel with (length p + (fuel - length p))%nat by lia.
  unfold tag_end. rewrite (tag_loop_pre ss 0 _ [ #"-"] p _ _ _ H Hp). cbn [length].
  destruct b as [|c b]; cbn [prefixed length] in *.
  - rewrite Nat.add_0_r.
    exact (tag_end_component ss (fuel - length p) [ #"-"] p rest t SPre set_pre H Hr ltac:(lia)
      (or_introl (conj eq_refl eq_refl))).
  - destruct (fuel - length p)%nat as [|f] eqn:Ef; [lia|]. cbn [tag_loop t_i].
    assert (ss_slice ss !! (1 + length p)%nat = Some #"+") as ->.
    { rewrite H. change ((p ++ #"+" :: (c :: b) ++ rest) !! length p = Some #"+").
      rewrite lookup_app_r, Nat.sub_diag by lia. done. }
    unfold tag_step. cbn [t_state t_start t_i t_tag Z.eqb Pos.eqb].
    rewrite (bool_decide_eq_true_2 (SPre = SPre)), (bool_decide_eq_false_2 (SPre = SBuild)) by done.
    cbn [orb negb].
    pose proof (sub_external_text ss [ #"-"] p _ H) as Hs. cbn [length] in Hs.
    rewrite Hs. cbn [mbind option_bind].
    pose proof (tag_end_build ss f (#"-" :: p) (c :: b) rest (set_pre t (at_off ss 1 p))) as He.
    unfold tag_end in He. cbn [length] in He. etransitivity; [apply He; [done..|cbn; lia]|].
    cbn [length]. do 4 f_equal. lia.
Qed.

Lemma tag_parse_text ss p b rest :
  ss_slice ss = tag_text p b ++ rest -> stops rest -> pre_text p -> build_text b ->
  p <> [] \/ b <> [] ->
  tag_parse ss = Some {| tr_tag := tag_of ss p b; tr_len := trunc32 (Z.of_nat (length (tag_text p b))) |}.
Proof.
  intros H Hr Hp Hb Hne. unfold tag_text in *. rewrite <- app_assoc in H.
  destruct p as [|c p]; cbn [prefixed app length] in *.
  - destruct b as [|c b]; [naive_solver|]. cbn [prefixed app] in *.
    rewrite (tag_parse_loop ss _ _ H) by auto. rewrite H at 1. unfold tag_end.
    cbn [length tag_loop t_i]. rewrite H at 1. cbn [lookup list_lookup].
    unfold tag_step. cbn [t_state t_start t_i t_tag Z.eqb Pos.eqb].
    rewrite bool_decide_eq_false_2 by done. cbn [orb andb negb Z.ltb Z.compare].
    rewrite andb_false_r. cbn [mbind option_bind negb].
    pose proof (tag_end_build ss (length ((c :: b) ++ rest)) [] (c :: b) rest tag_default) as He.
    unfold tag_end in He. cbn [length Nat.add app] in *. rewrite bool_decide_eq_false_2 by done.
    cbn [negb]. etransitivity; [apply He; [done..|len]|done].
  - rewrite (tag_parse_loop ss _ _ H) by auto. rewrite H at 1. unfold tag_end.
    cbn [length tag_loop t_i]. rewrite H at 1. cbn [lookup list_lookup].
    unfold tag_step. cbn [t_state t_start t_i t_tag Z.eqb Pos.eqb].
    rewrite bool_decide_eq_false_2 by done. cbn [negb].
    pose proof (tag_end_pre ss (length ((c :: p) ++ prefixed #"+" b ++ rest)) (c :: p) b rest tag_default) as He.
    unfold tag_end in He. cbn [mbind option_bind]. cbn [length app Nat.add] in *. 
    etransitivity; [apply He; [done..|len]|].
    destruct b; cbn [prefixed]; unfold tag_of; cbn [prefixed length]; repeat f_equal; rewrite length_app; done.
Qed.

Lemma digit_not c : is_ascii_digit c = true ->
  (c =? #" ") = false /\ existsb (Z.eqb c) b!"|^#&%!" = false /\ is_wild_char c = false /\
  is_separator c = false.
Proof.
  intros H%digit_range. repeat split; try lia.
  - cbn [existsb]. lia.
  - unfold is_wild_char. lia.
  - unfold is_separator, is_whitespace, chars_contains, WHITESPACE_CHARS. cbn [existsb]. lia.
Qed.

Lemma number_bytes_digits ds bs :
  all_digits ds -> (length bs + length ds <= 20)%nat -> number_bytes ds bs = Some (bs ++ ds).
Proof.
  intros Hd. revert bs. induction Hd as [|c ds Hc Hd IH]; intros bs Hl; cbn [number_bytes].
  { by rewrite app_nil_r. }
  destruct (digit_not c Hc) as (_ & _ & -> & _). rewrite Hc. cbn [length] in Hl.
  rewrite (proj2 (Nat.ltb_ge _ _)) by lia. rewrite IH by (rewrite length_app; cbn; lia).
  by rewrite <- app_assoc.
Qed.

Lemma number_bytes_long ds bs :
  all_digits ds -> (length bs <= 20 < length bs + length ds)%nat -> number_bytes ds bs = None.
Proof.
  intros Hd. revert bs. induction Hd as [|c ds Hc Hd IH]; intros bs Hl; cbn [number_bytes length] in *;
    [lia|].
  destruct (digit_not c Hc) as (_ & _ & -> & _). rewrite Hc.
  destruct (Nat.ltb_spec 20 (length bs + 1)); [done|]. apply IH. rewrite length_app. cbn. lia.
Qed.

Lemma length_dec_digits fuel k n acc :
  0 <= n < 10 ^ Z.of_nat k -> (0 < k)%nat ->
  (length (dec_digits fuel n acc) <= k + length acc)%nat.
Proof.
  revert k n acc. induction fuel as [|fuel IH]; intros k n acc Hn Hk; cbn [dec_digits]; [lia|].
  destruct (Z.eqb_spec (n / 10) 0) as [|Hne]; [cbn; lia|].
  destruct k as [|[|k]]; [lia| |].
  { change (10 ^ Z.of_nat 1) with 10 in Hn. by rewrite Z.div_small in Hne. }
  etransitivity; [apply (IH (S k)); [|lia]|cbn; lia].
  rewrite Nat2Z.inj_succ, Z.pow_succ_r in Hn by lia. split; [by apply Z.div_pos; lia|].
  apply Z.div_lt_upper_bound; lia.
Qed.

Lemma length_decimal n : 0 <= n <= U64_MAX -> (length (decimal n) <= 20)%nat.
Proof.
  intros Hn. unfold decimal. etransitivity; [apply (length_dec_digits _ 20)|cbn; lia]; [|lia].
  unfold U64_MAX in Hn. change (10 ^ Z.of_nat 20) with 100000000000000000000. lia.
Qed.

Definition core_text (M m p : Z) : bytes :=
  decimal M ++ [ #"."] ++ decimal m ++ [ #"."] ++ decimal p.
Definition version_text (M m p : Z) (pr b : bytes) : bytes := core_text M m p ++ tag_text pr b.

Section ParseText.
Context (T_MAX : Z) (HT : 0 <= T_MAX <= U64_MAX).

Lemma parse_number_decimal n : 0 <= n <= T_MAX -> parse_version_number T_MAX (decimal n) = Some n.
Proof.
  intros Hn. unfold parse_version_number.
  rewrite number_bytes_digits by (apply decimal_digits || (cbn; apply length_decimal; lia)).
  cbn [app]. destruct (decimal n) eqn:E; [by apply decimal_ne in E|]. rewrite <- E.
  unfold parse_ascii. rewrite parse_unsigned_decimal; [done|done|]. unfold U128_MAX, U64_MAX in *. lia.
Qed.

(** One number of the main loop, with the dot after it if one is expected. *)
Lemma parse_loop_number fuel ss a ds r n k R :
  ss_slice ss = a ++ ds ++ r -> all_digits ds -> ds <> [] ->
  (forall d, head r = Some d -> is_ascii_digit d = false) ->
  parse_version_number T_MAX ds = Some n ->
  parse_loop T_MAX (S fuel) ss {| p_i := length a; part_i := k; p_res := R |} =
  parse_loop T_MAX fuel ss
    {| p_i := match head r with
              | Some d => if (d =? #".") && negb (snd (set_part R k (Some n)) =? 3)
                          then S (length a + length ds) else (length a + length ds)%nat
              | None => (length a + length ds)%nat
              end;
       part_i := snd (set_part R k (Some n)); p_res := fst (set_part R k (Some n)) |}.
Proof.
  intros H Hd Hne Hr Hn. destruct ds as [|c ds]; [done|]. cbn [parse_loop p_i].
  assert (ss_slice ss !! length a = Some c) as -> by (by rewrite H, lookup_app_r, Nat.sub_diag).
  pose proof (Forall_inv Hd) as Hc.
  assert (skip_while is_ascii_digit (ss_slice ss) (S (length a)) =
    (length a + length (c :: ds))%nat) as Hsk.
  { unfold skip_while. rewrite H.
    replace (drop (S (length a)) (a ++ (c :: ds) ++ r)) with (ds ++ r).
    - rewrite prefix_len_app by by inv Hd. cbn [length].
      assert (prefix_len is_ascii_digit r = 0)%nat as ->; [|lia].
      destruct r as [|d r]; [done|]. apply prefix_len_stop_cons. by apply Hr.
    - rewrite drop_app_ge by lia. replace (S (length a) - length a)%nat with 1%nat by lia. done. }
  unfold parse_step. cbn [p_i p_res part_i]. rewrite Hsk.
  destruct (digit_not c Hc) as (-> & -> & _). rewrite Hc.
  assert (slice (ss_slice ss) (length a) (length a + length (c :: ds)) = Some (c :: ds)) as ->.
  { rewrite H, slice_ok by len. rewrite drop_app_length.
    replace (_ - _)%nat with (length (c :: ds)) by lia. by rewrite take_app_length. }
  cbn [mbind option_bind]. rewrite Hn.
  assert (ss_slice ss !! (length a + length (c :: ds))%nat = head r) as ->.
  { rewrite H, app_assoc, lookup_app_r by len. replace (_ - _)%nat with 0%nat by len. by destruct r. }
  destruct (set_part R k (Some n)) as [R' k']. cbn [mbind option_bind fst snd]. by destruct r.
Qed.

Lemma decimal_head n r : exists c l, decimal n ++ r = c :: l /\ is_ascii_digit c = true.
Proof.
  pose proof (decimal_digits n) as Hd. destruct (decimal n) as [|c l] eqn:E; [by apply decimal_ne in E|].
  inv Hd. by exists c, (l ++ r).
Qed.

Definition core_result (M m p : Z) (t : Tag) (l : Z) : ParseResult :=
  {| wildcard := WNone; valid := true;
     version := {| pmajor := Some M; pminor := Some m; ppatch := Some p; ptag := t |}; len := l |}.

(** The three numbers of the core, from the start of the slice. *)
Lemma parse_loop_core fuel ss M m p r :
  0 <= M <= T_MAX -> 0 <= m <= T_MAX -> 0 <= p <= T_MAX ->
  ss_slice ss = core_text M m p ++ r ->
  (forall d, head r = Some d -> is_ascii_digit d = false) ->
  parse_loop T_MAX (S (S (S fuel))) ss {| p_i := 0; part_i := 0; p_res := parse_result_default |} =
  parse_loop T_MAX fuel ss {| p_i := length (core_text M m p); part_i := 3;
                              p_res := core_result M m p tag_default 0 |}.
Proof.
  intros HM Hm Hp H Hr. unfold core_text in H. rewrite <- !app_assoc in H.
  rewrite (parse_loop_number (S (S fuel)) ss [] (decimal M) _ M 0 _ H);
    [|apply decimal_digits|apply decimal_ne|by intros d [= <-]|by apply parse_number_decimal].
  cbn [head app length Nat.add set_part fst snd Z.eqb Pos.eqb negb andb].
  assert (S (length (decimal M)) = length (decimal M ++ [ #"."])) as -> by (rewrite length_app; cbn; lia).
  rewrite app_assoc in H.
  rewrite (parse_loop_number (S fuel) ss _ (decimal m) _ m 1 _ H);
    [|apply decimal_digits|apply decimal_ne|by intros d [= <-]|by apply parse_number_decimal].
  cbn [head app set_part fst snd Z.eqb Pos.eqb negb andb].
  assert (S (length (decimal M ++ [ #"."]) + length (decimal m)) =
    length (decimal M ++ [ #"."] ++ decimal m ++ [ #"."])) as -> by (rewrite !length_app; cbn; lia).
  rewrite <- !app_assoc in H. rewrite (app_assoc (decimal m)), (app_assoc [ #"."] _ (decimal p ++ r)),
    (app_assoc (decimal M)) in H.
  rewrite (parse_loop_number fuel ss _ (decimal p) _ p 2 _ H);
    [|apply decimal_digits|apply decimal_ne|done|by apply parse_number_decimal].
  cbn [set_part fst snd Z.eqb Pos.eqb negb]. do 2 f_equal.
  unfold core_text. rewrite !length_app. cbn [length].
  destruct r as [|d r]; cbn [head]; [lia|]. rewrite andb_false_r. lia.
Qed.

Lemma length_core_text M m p : (5 <= length (core_text M m p))%nat.
Proof.
  unfold core_text. rewrite !length_app. cbn [length].
  assert (forall n, 1 <= length (decimal n))%nat as H.
  { intros n. destruct (decimal n) eqn:E; [by apply decimal_ne in E|cbn; lia]. }
  pose proof (H M). pose proof (H m). pose proof (H p). lia.
Qed.

Definition sub_at (ss : SlicedString) (o : nat) : SlicedString :=
  {| ss_buf := ss_buf ss; ss_off := ss_off ss + o; ss_slice := drop o (ss_slice ss) |}.

Lemma ss_sub_from_ok ss o : (o <= length (ss_slice ss))%nat -> ss_sub_from ss o = Some (sub_at ss o).
Proof.
  intros Ho. unfold ss_sub_from, ss_sub. rewrite slice_ok by lia. cbn. unfold sub_at.
  do 2 f_equal. apply take_ge. len.
Qed.

(** The loop after the core: at the end, at a space, or on the tags. *)
Lemma parse_loop_tags fuel ss a R pr b rest :
  ss_slice ss = a ++ tag_text pr b ++ rest -> stops rest -> pre_text pr -> build_text b ->
  Z.of_nat (length (ss_slice ss)) <= U32_MAX -> (0 < fuel)%nat -> ptag (version R) = tag_default ->
  parse_loop T_MAX fuel ss {| p_i := length a; part_i := 3; p_res := R |} =
  Some {| p_i := length (a ++ tag_text pr b); part_i := 3;
          p_res := set_tag R (tag_of (sub_at ss (length a)) pr b) |}.
Proof.
  intros H Hs Hp Hb Hl Hf HR. destruct fuel as [|fuel]; [lia|]. cbn [parse_loop p_i].
  assert (ss_slice ss !! length a = head (tag_text pr b ++ rest)) as ->.
  { rewrite H, lookup_app_r, Nat.sub_diag by lia. by destruct (tag_text pr b ++ rest). }
  destruct (decide (pr = [] /\ b = [])) as [[-> ->]|Hne].
  - assert (set_tag R (tag_of (sub_at ss (length a)) [] []) = R) as ->.
    { destruct R as [? ? v ?], v; cbn in *. by subst. }
    cbn [tag_text prefixed app]. rewrite app_nil_r.
    by destruct Hs as [->|[r' ->]].
  - assert (exists c l, tag_text pr b = c :: l /\ (c = #"-" \/ c = #"+")) as (c & l & Ht & Hc).
    { unfold tag_text. destruct pr, b; cbn; eauto. naive_solver. }
    rewrite Ht. cbn [app head]. unfold parse_step. cbn [p_i part_i p_res].
    assert ((c =? #" ") = false /\ existsb (Z.eqb c) b!"|^#&%!" = false /\
      is_ascii_digit c = false /\ (c =? #".") = false /\ ((c =? #"-") || (c =? #"+")) = true)
      as (-> & -> & -> & -> & ->) by (by destruct Hc as [-> | ->]).
    cbn [Z.ltb Z.compare Pos.compare Pos.compare_cont andb].
    rewrite ss_sub_from_ok by (rewrite H; len). cbn [mbind option_bind].
    assert (ss_slice (sub_at ss (length a)) = tag_text pr b ++ rest) as Hsub.
    { cbn [sub_at ss_slice]. by rewrite H, drop_app_length. }
    rewrite (tag_parse_text _ pr b rest Hsub) by (done || (destruct pr, b; naive_solver)).
    cbn [mbind option_bind tr_len tr_tag]. do 2 f_equal.
    assert (skip_while (Z.eqb #" ") (ss_slice ss) (length a) = length a) as ->.
    { unfold skip_while. rewrite H, drop_app_length, Ht. cbn [app].
      rewrite prefix_len_stop_cons; [lia|]. by destruct Hc as [-> | ->]. }
    rewrite Ht, length_app. unfold trunc32. rewrite Z.mod_small, Nat2Z.id; [done|].
    rewrite H, Ht, !length_app in Hl. unfold U32_MAX in Hl. lia.
Qed.

(** The text of a version parses to it, and the parse stops at its end. *)
Lemma parse_version_text ss M m p pr b rest :
  0 <= M <= T_MAX -> 0 <= m <= T_MAX -> 0 <= p <= T_MAX -> pre_text pr -> build_text b ->
  ss_slice ss = version_text M m p pr b ++ rest -> stops rest ->
  Z.of_nat (length (ss_slice ss)) <= U32_MAX ->
  parse T_MAX ss = Some (core_result M m p
    (tag_of (sub_at ss (length (core_text M m p))) pr b) (Z.of_nat (length (version_text M m p pr b)))).
Proof.
  intros HM Hm Hp Hpr Hb H Hs Hl. unfold version_text in H. rewrite <- app_assoc in H.
  unfold parse.
  assert (exists c l, ss_slice ss = c :: l /\ is_ascii_digit c = true) as (c & l & Hc & Hd).
  { rewrite H. unfold core_text. rewrite <- !app_assoc. apply decimal_head. }
  assert (leading_separators (ss_slice ss) = 0%nat) as ->.
  { unfold leading_separators. rewrite Hc. destruct (digit_not c Hd) as (_ & _ & _ & Hsep).
    cbn [prefix_len]. by rewrite Hsep. }
  assert ((length (ss_slice ss) =? 0)%nat = false) as -> by (by rewrite Hc).
  assert ((0 =? length (ss_slice ss))%nat = false) as -> by (by rewrite Hc).
  pose proof (length_core_text M m p) as Hlen.
  assert (length (ss_slice ss) = S (S (S (length (ss_slice ss) - 3)))) as ->
    by (rewrite H, length_app; lia).
  rewrite (parse_loop_core _ ss M m p _ HM Hm Hp H).
  2: { unfold tag_text. intros d. destruct pr, b; cbn; try by intros [= <-].
       destruct Hs as [->|[r' ->]]; cbn; by intros [= <-]. }
  rewrite (parse_loop_tags _ ss _ _ pr b rest H Hs Hpr Hb Hl); [|rewrite H, length_app; lia|done].
  cbn [mbind option_bind p_res p_i part_i].
  unfold version_text. rewrite (proj2 (Z.leb_le _ _)); [done|].
  rewrite H, !length_app in Hl. rewrite length_app. lia.
Qed.
End ParseText.

(** * The precedence of versions, as the semver specification orders them *)

(** Identifiers: numeric ones by value and before the others, the others by bytes. *)
Definition ident_compare (a b : bytes) : comparison :=
  match parse_ascii U64_MAX a, parse_ascii U64_MAX b with
  | Some x, Some y => x ?= y
  | Some _, None => Lt
  | None, Some _ => Gt
  | None, None => order a b
  end.

(** A version with the texts of its tags instead of handles. *)
Record View := { v_major : Z; v_minor : Z; v_patch : Z; v_pre : bytes; v_build : bytes }.

Definition view (buf : bytes) (v : VersionType) : View :=
  {| v_major := major v; v_minor := minor v; v_patch := patch v;
     v_pre := external_slice (pre (tag v)) buf; v_build := external_slice (build (tag v)) buf |}.

Definition no_pre (v : View) : bool := bool_decide (v_pre v = []).
Definition idents (v : View) : list bytes := split_on #"." (v_pre v).

(** Core numbers, then a release above its prereleases, then the identifiers. *)
Definition core_compare : View -> View -> comparison :=
  compare_then (compare_on v_major Z.compare)
    (compare_then (compare_on v_minor Z.compare)
      (compare_then (compare_on v_patch Z.compare) (compare_on no_pre bool_compare))).

Definition precedence : View -> View -> comparison :=
  compare_then core_compare (compare_on idents (list_compare ident_compare)).

Definition ident_alpha (a : bytes) : bool := bool_decide (parse_ascii U64_MAX a = None).

Lemma ident_compare_key a b :
  ident_compare a b =
  compare_then (compare_on ident_alpha bool_compare)
    (compare_then (compare_on (fun a => default 0 (parse_ascii U64_MAX a)) Z.compare)
       (compare_on (fun a => if ident_alpha a then a else []) (list_compare Z.compare))) a b.
Proof.
  unfold ident_compare, compare_then, compare_on, ident_alpha.
  destruct (parse_ascii U64_MAX a) as [x|], (parse_ascii U64_MAX b) as [y|];
    rewrite ?bool_decide_eq_true_2, ?bool_decide_eq_false_2 by done; cbn; try done.
  by destruct (x ?= y).
Qed.

#[export] Instance ident_compare_preordered : Preordered ident_compare.
Proof.
  pose proof (_ : Preordered (compare_then (compare_on ident_alpha bool_compare)
    (compare_then (compare_on (fun a => default 0 (parse_ascii U64_MAX a)) Z.compare)
       (compare_on (fun a => if ident_alpha a then a else []) (list_compare Z.compare))))) as [].
  split; intros *; rewrite !ident_compare_key; eauto.
Qed.

#[export] Instance precedence_preordered : Preordered precedence.
Proof. unfold precedence, core_compare. apply _. Qed.

(** The handle of a tag part is the empty word exactly when its text is empty. *)
Definition part_ok (buf : bytes) (e : ExternalString) : Prop :=
  external_is_empty e = bool_decide (external_slice e buf = []).

Definition version_ok (buf : bytes) (v : VersionType) : Prop :=
  part_ok buf (pre (tag v)) /\ part_ok buf (build (tag v)).

Lemma handle_is_empty buf s str : handle_of buf s str -> text_ok buf str -> is_empty s = bool_decide (str = []).
Proof.
  intros (start & -> & Hs) (Hb & Hn & Hl). unfold is_empty. rewrite string_init_cases by done.
  destruct (can_inline str) eqn:E.
  - assert (le_decode (sbytes (inlined str)) = 0 <-> str = []) as H.
    { split; [|by intros ->]. intros H0. change 0 with (le_decode (sbytes (inlined []))) in H0.
      apply inlined_inj in H0; [done|done|constructor|by apply can_inline_length|cbn; lia|done|constructor]. }
    destruct (Z.eqb_spec (le_decode (sbytes (inlined str))) 0) as [H0|H0]; symmetry;
      [apply bool_decide_eq_true_2|apply bool_decide_eq_false_2]; naive_solver.
  - rewrite packed_decode. pose proof (packed_word_range (Z.of_nat start) str).
    rewrite bool_decide_eq_false_2 by (by intros ->). apply Z.eqb_neq. lia.
Qed.

Lemma handle_part_ok buf e str :
  handle_of buf (value e) str -> text_ok buf str -> part_ok buf e /\ external_slice e buf = str.
Proof.
  intros Hh Ht. unfold part_ok, external_slice, external_is_empty.
  rewrite (handle_slice _ _ _ Hh Ht), (handle_is_empty _ _ _ Hh Ht). done.
Qed.

Lemma default_part_ok buf : part_ok buf external_default /\ external_slice external_default buf = [].
Proof. done. Qed.

Lemma precedence_same_core a b :
  v_major a = v_major b -> v_minor a = v_minor b -> v_patch a = v_patch b ->
  precedence a b = ordering_then (bool_compare (no_pre a) (no_pre b))
    (list_compare ident_compare (idents a) (idents b)).
Proof.
  intros E1 E2 E3. unfold precedence, core_compare, compare_then, compare_on.
  by rewrite E1, E2, E3, !Z.compare_refl.
Qed.

Section OrderFacts.
Context {F : ByteSearch} {Fok : ByteSearchOk F}.

Lemma order_pre_loop_ok fuel it1 it2 fs1 fs2 :
  iter_fields #"." it1 fs1 -> iter_fields #"." it2 fs2 -> (length fs1 < fuel)%nat ->
  order_pre_loop fuel it1 it2 = Some (list_compare ident_compare fs1 fs2).
Proof.
  revert fs2 it1 it2 fuel. induction fs1 as [|f1 fs1 IH]; intros fs2 it1 it2 fuel H1 H2 Hf;
    (destruct fuel as [|fuel]; [lia|]); cbn [order_pre_loop].
  - rewrite (split_next_nil _ _ H1). destruct fs2 as [|f2 fs2].
    + by rewrite (split_next_nil _ _ H2).
    + by destruct (split_next_cons _ _ _ _ H2) as ([] & -> & _).
  - destruct (split_next_cons _ _ _ _ H1) as (it1' & -> & H1'). destruct fs2 as [|f2 fs2].
    + by rewrite (split_next_nil _ _ H2).
    + destruct (split_next_cons _ _ _ _ H2) as (it2' & -> & H2'). cbn zeta.
      rewrite (IH _ _ _ fuel H1' H2') by (cbn in Hf; lia). cbn [list_compare].
      generalize (list_compare ident_compare fs1 fs2). intros next. unfold ident_compare.
      destruct (parse_ascii U64_MAX f1) as [x|], (parse_ascii U64_MAX f2) as [y|]; try done.
      * by destruct (x ?= y).
      * by destruct (order f1 f2).
Qed.

Lemma order_pre_ok l r lbuf rbuf :
  order_pre l r lbuf rbuf =
  Some (list_compare ident_compare (split_on #"." (external_slice (pre l) lbuf))
          (split_on #"." (external_slice (pre r) rbuf))).
Proof.
  unfold order_pre. apply order_pre_loop_ok; [apply split_fields..|].
  pose proof (length_split_on #"." (external_slice (pre l) lbuf)). lia.
Qed.

Lemma has_pre_view buf v : version_ok buf v -> has_pre (tag v) = negb (no_pre (view buf v)).
Proof. intros [H _]. unfold has_pre. by rewrite H. Qed.

Lemma order_without_tag_ok lbuf rbuf l r :
  version_ok lbuf l -> version_ok rbuf r ->
  order_without_tag l r = core_compare (view lbuf l) (view rbuf r).
Proof.
  intros Hl Hr. unfold order_without_tag. rewrite (has_pre_view lbuf), (has_pre_view rbuf) by done.
  unfold core_compare, compare_then, compare_on, Z.ltb. cbn [v_major v_minor v_patch view].
  rewrite (Z.compare_antisym (major l)), (Z.compare_antisym (minor l)), (Z.compare_antisym (patch l)).
  destruct (major l ?= major r); cbn; try done.
  destruct (minor l ?= minor r); cbn; try done.
  destruct (patch l ?= patch r); cbn; try done.
  by destruct (no_pre _), (no_pre _).
Qed.

Lemma order_without_build_ok lbuf rbuf l r :
  version_ok lbuf l -> version_ok rbuf r ->
  order_without_build l r lbuf rbuf = Some (precedence (view lbuf l) (view rbuf r)).
Proof.
  intros Hl Hr. unfold order_without_build, tag_order_without_build.
  rewrite (order_without_tag_ok lbuf rbuf l r Hl Hr). unfold precedence, compare_then at 1.
  destruct (core_compare (view lbuf l) (view rbuf r)) eqn:E; cbn [ordering_then]; try done.
  rewrite order_pre_ok. rewrite (has_pre_view lbuf), (has_pre_view rbuf) by done.
  unfold compare_on, idents.
  destruct (no_pre (view lbuf l)) eqn:El, (no_pre (view rbuf r)) eqn:Er; cbn [negb andb]; try done.
  - apply bool_decide_eq_true_1 in El, Er. cbn [view v_pre] in *. unfold external_order, string_order.
    unfold external_slice in *. rewrite El, Er. by case_match.
  - exfalso. revert E. unfold core_compare, compare_then, compare_on. rewrite El, Er.
    destruct (v_major _ ?= _), (v_minor _ ?= _), (v_patch _ ?= _); done.
  - exfalso. revert E. unfold core_compare, compare_then, compare_on. rewrite El, Er.
    destruct (v_major _ ?= _), (v_minor _ ?= _), (v_patch _ ?= _); done.
Qed.
End OrderFacts.

(** * The order of the semver specification *)

(** An identifier of digits is numeric and compares by its value, without a
    bound, below the others; the others compare by their bytes. *)
Definition numeric_ident (a : bytes) : bool := negb (bool_decide (a = [])) && forallb is_ascii_digit a.

Definition semver_ident (a b : bytes) : comparison :=
  match numeric_ident a, numeric_ident b with
  | true, true => dec_value a ?= dec_value b
  | true, false => Lt
  | false, true => Gt
  | false, false => list_compare Z.compare a b
  end.

Definition semver_precedence : View -> View -> comparison :=
  compare_then core_compare (compare_on idents (list_compare semver_ident)).

(** The identifiers the specification allows, the numeric ones below 2^64. *)
Definition ident_char (c : Z) : bool := is_ascii_digit c || is_ascii_lowercase c || is_ascii_uppercase c || (c =? #"-").
Definition ident_ok (a : bytes) : Prop := Forall (fun c => ident_char c = true) a /\ (numeric_ident a = true -> dec_value a <= U64_MAX).
Definition idents_ok (v : View) : Prop := Forall ident_ok (idents v).

Lemma digits_of_ok ds : Forall (fun c => ident_char c = true) ds -> forall acc v, parse_digits 10 ds acc = Ok v -> forallb is_ascii_digit ds = true.
Proof.
  induction 1 as [|c ds Hc _ IH]; intros acc v; cbn [parse_digits forallb]; [done|].
  destruct (Z.eqb_spec c #"_") as [->|_]; [done|]. unfold digit_value, ident_char in *. destruct (is_ascii_digit c) eqn:Ed.
  - destruct (10 <=? _); [done|]. destruct (checked_mul_add _ _ _); [|done]. by intros H%IH.
  - destruct (is_ascii_lowercase c) eqn:El; [|destruct (is_ascii_uppercase c) eqn:Eu; [|done]];
      unfold is_ascii_lowercase, is_ascii_uppercase in *; by rewrite (proj2 (Z.leb_le _ _)) by lia.
Qed.

Lemma parse_ident a : ident_ok a -> parse_ascii U64_MAX a = if numeric_ident a then Some (dec_value a) else None.
Proof.
  intros [Hc Hn]. unfold parse_ascii. destruct (numeric_ident a) eqn:En.
  - specialize (Hn eq_refl). unfold numeric_ident in En. apply andb_true_iff in En as [Hne Hd]. apply negb_true_iff, bool_decide_eq_false_1 in Hne.
    rewrite parse_unsigned_digits; [by rewrite (proj2 (Z.leb_le _ _))|unfold U128_MAX, U64_MAX; lia| |done].
    unfold all_digits. rewrite forallb_forall in Hd. apply Forall_forall. intros c Hin. by apply Hd, list_elem_of_In.
  - unfold parse_unsigned, auto_radix. cbn [Z.eqb negb]. destruct (parse_with_sign a 10) as [v|e] eqn:Ep; [|done]. exfalso.
    unfold parse_with_sign in Ep. destruct a as [|c a]; [done|]. destruct (last (c :: a)); [|done]. destruct (_ || _); [done|].
    apply digits_of_ok in Ep; [|done]. unfold numeric_ident in En. rewrite Ep in En. done.
Qed.

Lemma semver_ident_ok a b : ident_ok a -> ident_ok b -> ident_compare a b = semver_ident a b.
Proof.
  intros Ha Hb. unfold ident_compare, semver_ident. rewrite (parse_ident a Ha), (parse_ident b Hb).
  by destruct (numeric_ident a), (numeric_ident b).
Qed.

Lemma semver_idents_ok l : Forall ident_ok l -> forall k, Forall ident_ok k -> list_compare ident_compare l k = list_compare semver_ident l k.
Proof.
  induction 1 as [|a l Ha _ IH]; intros k Hk; destruct Hk as [|b k Hb Hk]; cbn [list_compare]; try done.
  by rewrite semver_ident_ok, IH.
Qed.

Lemma semver_precedence_ok a b : idents_ok a -> idents_ok b -> precedence a b = semver_precedence a b.
Proof.
  intros Ha Hb. unfold precedence, semver_precedence, compare_then, compare_on. by rewrite (semver_idents_ok _ Ha _ Hb).
Qed.

(** * Facts about the handles the parser makes *)

(** The slice lies in its buffer where it says, and the buffer is addressable. *)
Definition ss_ok (ss : SlicedString) : Prop :=
  slice (ss_buf ss) (ss_off ss) (ss_off ss + length (ss_slice ss)) = Some (ss_slice ss) /\
  Z.of_nat (length (ss_buf ss)) < 2 ^ 31.

Lemma pre_char_range c : is_pre_char c = true -> 0 < c < 128.
Proof.
  unfold is_pre_char, is_tag_char, is_ascii_lowercase, is_ascii_uppercase, is_ascii_digit. lia.
Qed.

Lemma build_pre_text b : build_text b -> pre_text b.
Proof. intros Hb. eapply Forall_impl; [exact Hb|]. intros c H. unfold is_pre_char. by rewrite H. Qed.

Lemma pre_text_bytes s : pre_text s -> Forall is_byte s /\ no_nul s.
Proof.
  intros H. split; eapply Forall_impl; try exact H; intros c Hc%pre_char_range;
    unfold is_byte; lia.
Qed.

Lemma pre_text_ok buf s : pre_text s -> Z.of_nat (length buf) < 2 ^ 31 -> text_ok buf s.
Proof. intros []%pre_text_bytes ?. done. Qed.

(** Text of the tags is ASCII, so it is inline exactly up to eight bytes. *)
Lemma pre_text_copyable s : pre_text s -> copyable s.
Proof.
  intros H. destruct (decide (8 < length s)%nat) as [|Hl]; [by right|left].
  destruct (pre_text_bytes s H) as [Hb _]. rewrite can_inline_spec by done.
  apply bool_decide_eq_true_2. destruct (decide (length s = 8%nat)); [|lia]. right. split; [done|].
  unfold last_byte. destruct (s !! 7%nat) as [c|] eqn:E; cbn; [|lia].
  eapply Forall_lookup in E; [|exact H]. cbn in E. apply pre_char_range in E. lia.
Qed.

Lemma at_off_handle ss a s r :
  ss_ok ss -> ss_slice ss = a ++ s ++ r -> handle_of (ss_buf ss) (value (at_off ss (length a) s)) s.
Proof.
  intros [Hs _] H. exists (ss_off ss + length a)%nat. split; [done|].
  apply slice_Some in Hs as (Hb & Hs & _). rewrite H, !length_app in Hb.
  rewrite slice_ok by lia. f_equal. rewrite <- drop_drop.
  replace (ss_off ss + length (ss_slice ss) - ss_off ss)%nat with (length (ss_slice ss)) in Hs by lia.
  replace (_ - _)%nat with (length s) by lia.
  assert (drop (ss_off ss) (ss_buf ss) = a ++ s ++ r ++ drop (length (ss_slice ss)) (drop (ss_off ss) (ss_buf ss))) as ->.
  { rewrite <- (take_drop (length (ss_slice ss)) (drop (ss_off ss) (ss_buf ss))) at 1.
    rewrite <- Hs, H. by rewrite <- !app_assoc. }
  by rewrite drop_app_length, take_app_length.
Qed.

Lemma at_off_part_ok ss a s r :
  ss_ok ss -> ss_slice ss = a ++ s ++ r -> pre_text s ->
  part_ok (ss_buf ss) (at_off ss (length a) s) /\
  external_slice (at_off ss (length a) s) (ss_buf ss) = s.
Proof.
  intros Hok H Hs. apply handle_part_ok; [by eapply at_off_handle|]. by apply pre_text_ok, Hok.
Qed.

Lemma sub_at_ok ss a r : ss_ok ss -> ss_slice ss = a ++ r -> ss_ok (sub_at ss (length a)).
Proof.
  intros [Hs Hl] H. split; [|done]. cbn. apply slice_Some in Hs as (Hb & Hs & _).
  rewrite H, length_app in Hb. rewrite H, drop_app_length. rewrite slice_ok by lia.
  rewrite H, length_app in Hs. f_equal. rewrite <- drop_drop.
  replace (_ - _)%nat with (length a + length r)%nat in Hs by lia.
  replace (_ - _)%nat with (length r) by lia.
  assert (r = drop (length a) (take (length a + length r) (drop (ss_off ss) (ss_buf ss)))) as E
    by (by rewrite <- Hs, drop_app_length).
  rewrite E at 2. rewrite <- take_drop_commute. done.
Qed.

Lemma tag_of_ok ss pr b rest :
  ss_ok ss -> ss_slice ss = tag_text pr b ++ rest -> pre_text pr -> build_text b ->
  let t := tag_of ss pr b in
  part_ok (ss_buf ss) (pre t) /\ part_ok (ss_buf ss) (build t) /\
  external_slice (pre t) (ss_buf ss) = pr /\ external_slice (build t) (ss_buf ss) = b.
Proof.
  intros Hok H Hpr Hb t.
  assert (part_ok (ss_buf ss) (pre t) /\ external_slice (pre t) (ss_buf ss) = pr) as [? ?].
  { destruct pr as [|c pr]; [by apply default_part_ok|].
    unfold tag_text in H. cbn [prefixed] in H. rewrite <- app_assoc in H.
    by apply (at_off_part_ok ss [ #"-"] (c :: pr) _ Hok H). }
  assert (part_ok (ss_buf ss) (build t) /\ external_slice (build t) (ss_buf ss) = b) as [? ?].
  { destruct b as [|c b]; [by apply default_part_ok|].
    unfold tag_text in H. cbn [prefixed] in H.
    assert (ss_slice ss = (prefixed #"-" pr ++ [ #"+"]) ++ (c :: b) ++ rest) as H'
      by (by rewrite H, <- !app_assoc).
    pose proof (at_off_part_ok ss _ _ _ Hok H' (build_pre_text _ Hb)) as Hp.
    by rewrite length_app in Hp. }
  done.
Qed.

Lemma version_fmt_text v buf M m p pr b :
  version_ok buf v -> view buf v = {| v_major := M; v_minor := m; v_patch := p; v_pre := pr; v_build := b |} ->
  version_fmt v buf = version_text M m p pr b.
Proof.
  intros [Hp Hb] Hv. injection Hv as <- <- <- Hpr Hbd.
  unfold version_fmt, version_text, core_text, tag_text, has_pre, has_build.
  rewrite Hp, Hb, Hpr, Hbd. rewrite <- !app_assoc. do 5 f_equal.
  destruct pr, b; cbn; by rewrite ?app_nil_r.
Qed.

(** * Facts about parsing: it always returns *)

Lemma ss_sub_ok s a b :
  (a <= b <= length (ss_slice s))%nat ->
  exists s', ss_sub s a b = Some s' /\ ss_buf s' = ss_buf s /\ ss_off s' = (ss_off s + a)%nat /\
    ss_slice s' = take (b - a) (drop a (ss_slice s)).
Proof. intros H. unfold ss_sub. rewrite slice_ok by lia. cbn. eauto. Qed.

(** The characters of a qualifier. *)
Definition qual_char (c : Z) : Prop := is_pre_char c = true \/ c = #"+".

Lemma qual_text_ok buf s : Forall qual_char s -> Z.of_nat (length buf) < 2 ^ 31 -> text_ok buf s.
Proof.
  intros H Hl. assert (Forall (fun c => 0 < c < 128) s) as Hr.
  { eapply Forall_impl; [exact H|]. intros c [Hc| ->]; [by apply pre_char_range|lia]. }
  split; [|split; [|done]]; (eapply Forall_impl; [exact Hr|]); intros c Hc; cbn in Hc;
    unfold is_byte; lia.
Qed.

(** A slice of the qualifier read so far yields a sound part. *)
Lemma sub_external_ok s a b :
  (a <= b <= length (ss_slice s))%nat ->
  exists e, sub_external s a b = Some e /\
    (ss_ok s -> Forall qual_char (take b (ss_slice s)) -> part_ok (ss_buf s) e).
Proof.
  intros H. set (text := take (b - a) (drop a (ss_slice s))).
  assert (ss_slice s = take a (ss_slice s) ++ text ++ drop b (ss_slice s)) as Hs.
  { rewrite <- (take_drop a (ss_slice s)) at 1. f_equal. unfold text.
    rewrite <- (take_drop (b - a) (drop a (ss_slice s))) at 1. f_equal. rewrite drop_drop. f_equal. lia. }
  assert (length (take a (ss_slice s)) = a) as Ha by len.
  assert (length text = (b - a)%nat) as Ht by (unfold text; len).
  pose proof (sub_external_text s _ _ _ Hs) as He. rewrite Ha, Ht in He.
  replace (a + (b - a))%nat with b in He by lia.
  eexists. split; [exact He|]. intros Hok Hq.
  pose proof (at_off_handle s _ _ _ Hok Hs) as Hh. rewrite Ha in Hh.
  apply (handle_part_ok _ _ _ Hh). apply qual_text_ok; [|apply Hok].
  unfold text. rewrite take_drop_commute. replace (a + (b - a))%nat with b by lia. by apply Forall_drop.
Qed.

Definition tag_ok (buf : bytes) (t : Tag) : Prop := part_ok buf (pre t) /\ part_ok buf (build t).

(** The loop of the tag parser keeps [start <= i <= len], has read only
    characters of a qualifier, and makes sound parts. *)
Definition tloop_ok (ss : SlicedString) (s : TLoop) : Prop :=
  (t_start s <= t_i s <= length (ss_slice ss))%nat /\
  Forall qual_char (take (t_i s) (ss_slice ss)) /\ (ss_ok ss -> tag_ok (ss_buf ss) (t_tag s)).

Lemma take_qual l i c :
  l !! i = Some c -> qual_char c -> Forall qual_char (take i l) -> Forall qual_char (take (S i) l).
Proof. intros Hc Hq H. rewrite (take_S_r _ _ c) by done. apply Forall_app; auto. Qed.

Lemma tag_step_ok ss ipc s c :
  tloop_ok ss s -> ss_slice ss !! t_i s = Some c ->
  exists s' k, tag_step ss ipc s c = Some (s', k) /\ tloop_ok ss s' /\
    (k = true -> t_i s' = S (t_i s)) /\ (k = false -> t_i s' = t_i s).
Proof.
  intros (Hi & Hq & Ht) Hc. apply lookup_lt_Some in Hc as Hlt.
  destruct (sub_external_ok ss (t_start s) (t_i s) ltac:(lia)) as (e & He & Hpe).
  assert (ss_ok ss -> part_ok (ss_buf ss) e) as Hpart by auto. clear Hpe.
  unfold tag_step. rewrite He. cbn [mbind option_bind].
  destruct (Z.eqb_spec c #"+") as [->|Hplus]; [|destruct (Z.eqb_spec c #"-") as [->|Hminus];
    [|destruct (is_tag_char c) eqn:Etag]].
  - set (t := if bool_decide _ || _ then Some (set_pre (t_tag s) e) else Some (t_tag s)).
    assert (exists t', t = Some t' /\ (ss_ok ss -> tag_ok (ss_buf ss) t')) as (t' & -> & Ht').
    { unfold t. case_match; eexists; (split; [done|]); [|done]. intros Hok. split; [by apply Hpart|by apply Ht]. }
    cbn [mbind option_bind].
    pose proof (take_qual _ _ _ Hc (or_intror eq_refl) Hq) as Hq'.
    destruct (negb _); (eexists _, _; split; [done|]; (split; [split; [cbn; lia|done]|done])).
  - pose proof (take_qual _ _ _ Hc (or_introl eq_refl) Hq) as Hq'.
    destruct (negb _); (eexists _, _; split; [done|]; (split; [split; [cbn; lia|done]|done])).
  - assert (qual_char c) as Hqc by (left; unfold is_pre_char; by rewrite Etag).
    pose proof (take_qual _ _ _ Hc Hqc Hq) as Hq'.
    eexists _, _; split; [done|]; (split; [split; [cbn; lia|done]|done]).
  - assert (forall t, (ss_ok ss -> tag_ok (ss_buf ss) t) ->
      tloop_ok ss {| t_tag := t; t_state := SNone; t_start := t_start s; t_i := t_i s |}) as Hfin
      by (intros; split; [done|split; done]).
    destruct (t_state s); cbn [mbind option_bind]; (eexists _, _; split; [done|]; split; [|done]);
      apply Hfin; intros Hok; specialize (Hpart Hok); destruct (Ht Hok); by split.
Qed.

Lemma tag_loop_ok fuel ss ipc s :
  tloop_ok ss s -> (length (ss_slice ss) - t_i s <= fuel)%nat ->
  exists s', tag_loop fuel ss ipc s = Some s' /\ tloop_ok ss s'.
Proof.
  revert s. induction fuel as [|fuel IH]; intros s Hok Hf; cbn [tag_loop].
  - destruct (ss_slice ss !! t_i s) eqn:E; [|by eauto]. apply lookup_lt_Some in E. lia.
  - destruct (ss_slice ss !! t_i s) as [c|] eqn:E; [|by eauto].
    apply lookup_lt_Some in E as Hlt.
    destruct (tag_step_ok ss ipc s c Hok E) as (s' & k & -> & Hok' & Ht & _).
    cbn [mbind option_bind]. destruct k; [|by eauto]. apply IH; [done|]. rewrite Ht by done. lia.
Qed.

Lemma tag_finish_ok ss ipc s :
  tloop_ok ss s ->
  exists r, tag_finish ss ipc s = Some r /\ tr_len r = trunc32 (Z.of_nat (t_i s)) /\
    (ss_ok ss -> tag_ok (ss_buf ss) (tr_tag r)).
Proof.
  intros (Hi & Hq & Ht).
  destruct (sub_external_ok ss (t_start s) (t_i s) ltac:(lia)) as (e & He & Hpe).
  destruct (sub_external_ok ss 0 (t_i s) ltac:(lia)) as (e0 & He0 & Hpe0).
  assert (forall e, (ss_ok ss -> part_ok (ss_buf ss) e) ->
    (ss_ok ss -> tag_ok (ss_buf ss) (set_pre (t_tag s) e)) /\
    (ss_ok ss -> tag_ok (ss_buf ss) (set_build (t_tag s) e))) as Hset.
  { intros e' He'. split; intros Hok; specialize (He' Hok); destruct (Ht Hok); by split. }
  unfold tag_finish. destruct (bool_decide _ && _).
  - rewrite He0. cbn. eexists. split; [done|]. split; [done|]. apply Hset. auto.
  - destruct (t_state s); cbn; rewrite ?He; cbn; (eexists; split; [done|]; split; [done|]);
      [done|apply Hset; auto..].
Qed.

Lemma parse_with_pre_count_ok ss ipc :
  exists r, parse_with_pre_count ss ipc = Some r /\
    0 <= tr_len r <= Z.of_nat (length (ss_slice ss)) /\
    (ss_ok ss -> tag_ok (ss_buf ss) (tr_tag r)).
Proof.
  unfold parse_with_pre_count.
  destruct (_ && _); [eexists; split; [done|]; split; [cbn; lia|done]|].
  destruct (tag_loop_ok (length (ss_slice ss)) ss ipc
    {| t_tag := tag_default; t_state := SNone; t_start := 0; t_i := 0 |}) as (s & -> & Hok);
    [split; [cbn; lia|split; [constructor|done]]|cbn; lia|].
  cbn [mbind option_bind]. destruct (tag_finish_ok ss ipc s Hok) as (r & -> & Hl & Ht).
  exists r. split; [done|]. split; [|done]. destruct Hok as (Hi & _). rewrite Hl. unfold trunc32.
  pose proof (Z.mod_pos_bound (Z.of_nat (t_i s)) (2 ^ 32) ltac:(lia)).
  pose proof (Z.mod_le (Z.of_nat (t_i s)) (2 ^ 32) ltac:(lia) ltac:(lia)). lia.
Qed.

Lemma leading_separators_le input : (leading_separators input <= length input)%nat.
Proof. unfold leading_separators. cbn zeta. destruct (Nat.ltb_spec (prefix_len is_separator input) (length input)); lia. Qed.

Section ParseOk.
Context (T_MAX : Z).

Lemma skip_while_digit (p : Z -> bool) l i :
  (i < length l)%nat -> (i < skip_while p l (S i) <= length l)%nat.
Proof.
  intros Hi. pose proof (skip_while_bounds p l (S i) ltac:(lia)). lia.
Qed.

(** The main loop moves forward, stays in the input and makes sound tags. *)
Definition ploop_ok (ss : SlicedString) (s : PLoop) : Prop :=
  (p_i s <= length (ss_slice ss))%nat /\
  (ss_ok ss -> tag_ok (ss_buf ss) (ptag (version (p_res s)))).

Lemma ss_sub_from_some ss o :
  (o <= length (ss_slice ss))%nat ->
  ss_sub_from ss o = Some (sub_at ss o) /\ (ss_ok ss -> ss_ok (sub_at ss o)).
Proof.
  intros Ho. split; [by apply ss_sub_from_ok|]. intros Hok.
  pose proof (sub_at_ok ss _ _ Hok (eq_sym (take_drop o (ss_slice ss)))) as H.
  by rewrite length_take_le in H.
Qed.

Lemma set_part_tag r k n : ptag (version (fst (set_part r k n))) = ptag (version r).
Proof. unfold set_part. by repeat case_match. Qed.

Lemma set_wild_tag r k : version (fst (set_wild_part r k)) = version r.
Proof. unfold set_wild_part. by repeat case_match. Qed.

Lemma parse_step_ok ss s c :
  ploop_ok ss s -> ss_slice ss !! p_i s = Some c ->
  exists s' k, parse_step T_MAX ss s c = Some (s', k) /\ ploop_ok ss s' /\
    (k = true -> p_i s < p_i s')%nat.
Proof.
  intros [Hi Ht] Hc. apply lookup_lt_Some in Hc as Hlt. unfold parse_step.
  destruct (ss_sub_from_some ss (p_i s) Hi) as [-> Hsok].
  assert (length (ss_slice (sub_at ss (p_i s))) = (length (ss_slice ss) - p_i s)%nat) as Hsl by (cbn; len).
  destruct (c =? #" "); [eexists _, _; split; [done|]; (split; [split; [cbn; lia|done]|done])|].
  destruct (existsb _ _); [eexists _, _; split; [done|]; (split; [split; [cbn; lia|done]|done])|].
  destruct (is_ascii_digit c).
  { pose proof (skip_while_digit is_ascii_digit (ss_slice ss) (p_i s) Hlt) as Hsk.
    set (j := skip_while _ _ _) in *. rewrite slice_ok by lia. cbn [mbind option_bind].
    pose proof (set_part_tag (p_res s) (part_i s)) as Hpt.
    match goal with |- context [set_part _ _ ?n] => specialize (Hpt n) end.
    destruct (set_part _ _ _) as [r part]. eexists _, _. split; [done|]. cbn [fst] in Hpt.
    assert (forall i', (p_i s < i' <= length (ss_slice ss))%nat ->
      ploop_ok ss {| p_i := i'; part_i := part; p_res := r |} /\ (true = true -> p_i s < i')%nat) as Hgo.
    { intros i' Hi'. split; [|lia]. split; [cbn; lia|]. cbn. by rewrite Hpt. }
    apply Hgo. cbn [p_i]. destruct (ss_slice ss !! j) eqn:Ej; [|lia]. apply lookup_lt_Some in Ej. case_match; lia. }
  destruct (c =? #"."); [eexists _, _; split; [done|]; (split; [split; [cbn; lia|done]|done])|].
  destruct ((c =? #"-") || (c =? #"+")) eqn:Etag.
  { destruct (_ && _); [eexists _, _; split; [done|]; (split; [split; [cbn; lia|done]|done])|].
    cbn [mbind option_bind]. unfold tag_parse.
    destruct (parse_with_pre_count_ok (sub_at ss (p_i s)) 0) as (r & -> & Hr & Hrt).
    cbn [mbind option_bind]. eexists _, _. split; [done|]. split; [|done].
    split; [|intros Hok; by apply Hrt, Hsok]. cbn [p_i].
    assert (skip_while (Z.eqb #" ") (ss_slice ss) (p_i s) = p_i s) as ->; [|lia].
    unfold skip_while. rewrite (drop_S _ c) by done. rewrite prefix_len_stop_cons; lia. }
  destruct (is_wild_char c).
  { pose proof (skip_while_digit is_wild_char (ss_slice ss) (p_i s) Hlt) as Hsk.
    set (j := skip_while _ _ _) in *.
    set (i' := match ss_slice ss !! j with Some _ => _ | None => _ end).
    assert (p_i s < i' <= length (ss_slice ss))%nat as Hi'.
    { unfold i'. destruct (ss_slice ss !! j) eqn:Ej; [|lia]. apply lookup_lt_Some in Ej. case_match; lia. }
    pose proof (set_wild_tag (p_res s) (part_i s)) as Hw.
    destruct (no_wildcard (p_res s)); [destruct (set_wild_part _ _); cbn in Hw|];
      (eexists _, _; split; [done|]; split; [|cbn; lia]; split; [cbn; lia|cbn]); [by rewrite Hw|done]. }
  destruct (_ && _); [|eexists _, _; split; [done|]; (split; [split; [cbn; lia|done]|done])].
  cbn [mbind option_bind].
  destruct (parse_with_pre_count_ok (sub_at ss (p_i s)) 1) as (r & -> & Hr & Hrt).
  cbn [mbind option_bind]. eexists _, _. split; [done|]. split; [|done].
  split; [cbn [p_i]; lia|]. intros Hok. by apply Hrt, Hsok.
Qed.

Lemma parse_loop_ok fuel ss s :
  ploop_ok ss s -> (length (ss_slice ss) - p_i s <= fuel)%nat ->
  exists s', parse_loop T_MAX fuel ss s = Some s' /\ ploop_ok ss s'.
Proof.
  revert s. induction fuel as [|fuel IH]; intros s Hok Hf; cbn [parse_loop].
  - destruct (ss_slice ss !! p_i s) eqn:E; [|by eauto]. apply lookup_lt_Some in E. lia.
  - destruct (ss_slice ss !! p_i s) as [c|] eqn:E; [|by eauto].
    destruct (parse_step_ok ss s c Hok E) as (s' & k & -> & Hok' & Hk). cbn [mbind option_bind].
    destruct k; [|by eauto]. apply IH; [done|]. specialize (Hk eq_refl). lia.
Qed.

Lemma parse_ok ss :
  Z.of_nat (length (ss_slice ss)) <= U32_MAX ->
  exists r, parse T_MAX ss = Some r /\ 0 <= len r <= Z.of_nat (length (ss_slice ss)) /\
    (ss_ok ss -> tag_ok (ss_buf ss) (ptag (version r))).
Proof.
  intros Hl. unfold parse.
  destruct (_ =? 0)%nat; [eexists; split; [done|]; split; [cbn; lia|done]|].
  destruct (_ =? length _)%nat; [eexists; split; [done|]; split; [cbn; lia|done]|].
  destruct (parse_loop_ok (length (ss_slice ss)) ss
    {| p_i := leading_separators (ss_slice ss); part_i := 0; p_res := parse_result_default |})
    as (s & -> & Hi & Ht); [split; [apply leading_separators_le|done]|cbn [p_i]; lia|].
  cbn [mbind option_bind]. rewrite (proj2 (Z.leb_le _ _)) by lia.
  eexists. split; [done|]. cbn [len version]. split; [lia|].
  destruct (no_wildcard (p_res s)); [by rewrite set_wild_tag|done].
Qed.
End ParseOk.

(** * Facts about [which_version_is_pinned] *)

Lemma pin_number_digits v a ds r e :
  v = a ++ ds ++ r -> all_digits ds -> ds <> [] ->
  (forall d, head r = Some d -> is_ascii_digit d = false) ->
  pin_number v (length a) e =
  match head r with None => inl e | Some d => inr ((length a + length ds)%nat, d) end.
Proof.
  intros -> Hd Hne Hr. unfold pin_number. destruct ds as [|c ds]; [done|].
  rewrite lookup_app_r, Nat.sub_diag by lia. cbn [app lookup list_lookup].
  rewrite (Forall_inv Hd). cbn [negb].
  assert (skip_while is_ascii_digit (a ++ c :: ds ++ r) (length a) =
    (length a + length (c :: ds))%nat) as ->.
  { unfold skip_while. rewrite drop_app_length. change (c :: ds ++ r) with ((c :: ds) ++ r).
    rewrite prefix_len_app by done.
    assert (prefix_len is_ascii_digit r = 0%nat) as ->; [|lia].
    destruct r as [|d r]; [done|]. apply prefix_len_stop_cons. by apply Hr. }
  change (c :: ds ++ r) with ((c :: ds) ++ r).
  assert ((a ++ (c :: ds) ++ r) !! (length a + length (c :: ds))%nat = head r) as ->.
  { rewrite app_assoc, lookup_app_r by len. replace (_ - _)%nat with 0%nat by len. by destruct r. }
  by destruct r.
Qed.

(** The text of a version with any number of core components. *)
Definition dotted (nums : list bytes) : bytes := join_with #"." nums.

Definition pin_tail_char (c : Z) : Prop :=
  valid_pre_or_build_tag_character c = true /\ is_ascii_whitespace c = false.

(** The verdict on the core numbers of a dotted text, from where it starts. *)
Lemma pin_core_dotted v a pinned d1 :
  v = a ++ d1 -> all_digits d1 -> d1 <> [] -> pin_core v (length a) pinned = pin_or pinned PinMajor.
Proof.
  intros -> Hd Hne. unfold pin_core.
  by rewrite (pin_number_digits _ a d1 [] _ (f_equal (app a) (eq_sym (app_nil_r d1))) Hd Hne).
Qed.

Lemma pin_core_dotted2 v a pinned d1 d2 :
  v = a ++ d1 ++ [ #"."] ++ d2 -> all_digits d1 -> all_digits d2 -> d1 <> [] -> d2 <> [] ->
  pin_core v (length a) pinned = pin_or pinned PinMinor.
Proof.
  intros H H1 H2 N1 N2. unfold pin_core.
  rewrite (pin_number_digits v a d1 _ _ H H1 N1) by by intros d [= <-].
  cbn [app head Z.eqb Pos.eqb negb].
  assert (v = (a ++ d1 ++ [ #"."]) ++ d2 ++ []) as H' by (by rewrite H, app_nil_r, <- !app_assoc).
  replace (S (length a + length d1)) with (length (a ++ d1 ++ [ #"."])) by (rewrite !length_app; cbn; lia).
  by rewrite (pin_number_digits v _ d2 [] _ H' H2 N2).
Qed.

Lemma pin_tags_ok v a d tail pinned :
  v = a ++ d :: tail -> Forall pin_tail_char (d :: tail) -> pin_tags v (length a) d pinned = pinned.
Proof.
  intros -> Ht. inversion Ht as [|? ? [Hv Hw] Ht']. subst. unfold pin_tags. rewrite Hv, Hw. cbn [negb orb].
  rewrite (proj2 (Nat.leb_le _ _)); [done|]. unfold skip_while.
  rewrite drop_app_ge by lia. replace (S (length a) - length a)%nat with 1%nat by lia. cbn [drop]. rewrite drop_0.
  match goal with |- context [prefix_len ?p tail] => pose proof (prefix_len_app p tail []) as E end.
  rewrite app_nil_r in E. rewrite E; [rewrite length_app; cbn; lia|].
  eapply Forall_impl; [exact Ht'|]. by intros c [-> ->].
Qed.

Lemma pin_core_dotted3 v a pinned d1 d2 d3 tail :
  v = a ++ d1 ++ [ #"."] ++ d2 ++ [ #"."] ++ d3 ++ tail ->
  all_digits d1 -> all_digits d2 -> all_digits d3 -> d1 <> [] -> d2 <> [] -> d3 <> [] ->
  Forall pin_tail_char tail -> (forall d, head tail = Some d -> is_ascii_digit d = false) ->
  pin_core v (length a) pinned = pinned.
Proof.
  intros H H1 H2 H3 N1 N2 N3 Ht Hh. unfold pin_core.
  rewrite (pin_number_digits v a d1 _ _ H H1 N1) by by intros d [= <-].
  cbn [app head Z.eqb Pos.eqb negb].
  assert (v = (a ++ d1 ++ [ #"."]) ++ d2 ++ [ #"."] ++ d3 ++ tail) as H'
    by (by rewrite H, <- !app_assoc).
  replace (S (length a + length d1)) with (length (a ++ d1 ++ [ #"."])) by (rewrite !length_app; cbn; lia).
  rewrite (pin_number_digits v _ d2 _ _ H' H2 N2) by by intros d [= <-].
  cbn [app head Z.eqb Pos.eqb negb].
  set (a2 := a ++ d1 ++ [ #"."]) in *.
  assert (v = (a2 ++ d2 ++ [ #"."]) ++ d3 ++ tail) as H'' by (by rewrite H', <- !app_assoc).
  replace (S (length a2 + length d2)) with (length (a2 ++ d2 ++ [ #"."])) by (rewrite !length_app; cbn; lia).
  rewrite (pin_number_digits v _ d3 _ _ H'' H3 N3 Hh).
  destruct tail as [|d tail]; cbn [head]; [done|].
  rewrite <- length_app. apply (pin_tags_ok _ _ _ tail); [|done]. by rewrite H'', <- !app_assoc.
Qed.

(** The operators before a version, with what they pin a full version to. *)
Definition pin_prefix (pre_ : bytes) (pinned : PinnedVersion) : Prop :=
  exists seps, Forall (fun c => is_separator c = true) seps /\
    (pre_ = seps /\ pinned = PinPatch \/
     exists ws, Forall (fun c => is_whitespace c = true) ws /\
       (pre_ = seps ++ #"~" :: ws /\ pinned = PinMinor \/
        pre_ = seps ++ #"^" :: ws /\ pinned = PinMajor)).

Lemma last_nonws a s :
  s <> [] -> Forall (fun x => is_whitespace x = false) s ->
  exists e, last (a ++ s) = Some e /\ is_whitespace e = false.
Proof.
  intros Hne Hs. destruct (last s) as [e|] eqn:E; [|by apply last_None in E].
  exists e. split; [rewrite last_app, E; done|].
  apply last_Some in E as [l ->]. apply Forall_app in Hs as [_ Hs]. by inv Hs.
Qed.

Lemma digits_nonws ds : all_digits ds -> Forall (fun x => is_whitespace x = false) ds.
Proof.
  intros H. eapply Forall_impl; [exact H|]. intros c Hc. destruct (digit_not c Hc) as (_ & _ & _ & Hs).
  unfold is_separator in Hs. by apply orb_false_iff in Hs as [[]%orb_false_iff _].
Qed.

Lemma tail_nonws tail : Forall pin_tail_char tail -> Forall (fun x => is_whitespace x = false) tail.
Proof.
  intros H. eapply Forall_impl; [exact H|]. intros c [Hc _].
  unfold valid_pre_or_build_tag_character, is_ascii_uppercase, is_ascii_lowercase, is_ascii_digit in Hc.
  unfold is_whitespace, chars_contains, WHITESPACE_CHARS. cbn [existsb]. lia.
Qed.

Lemma pin_prefix_ok w1 w2 pre_ pinned s c :
  Forall (fun x => is_whitespace x = true) w1 -> Forall (fun x => is_whitespace x = true) w2 ->
  pin_prefix pre_ pinned -> head s = Some c -> is_ascii_digit c = true ->
  Forall (fun x => is_whitespace x = false) s ->
  (exists b, head (pre_ ++ s) = Some b /\ is_whitespace b = false) ->
  which_version_is_pinned (w1 ++ (pre_ ++ s) ++ w2) = pin_core (pre_ ++ s) (length pre_) pinned.
Proof.
  intros Hw1 Hw2 (seps & Hs & Hp) Hc Hd Hnw (b & Hb & Hb').
  destruct (last_nonws pre_ s) as (e & He & He'); [by intros ->|done|].
  unfold which_version_is_pinned. rewrite (trim_middle _ w1 _ w2 b e) by done.
  destruct s as [|c' s]; [done|]. cbn in Hc. injection Hc as ->.
  destruct (digit_not c Hd) as (_ & _ & _ & Hsep).
  assert (is_whitespace c = false) as Hws.
  { unfold is_separator in Hsep. apply orb_false_iff in Hsep as [Hsep _].
    by apply orb_false_iff in Hsep as []. }
  destruct Hp as [[-> ->]|(ws & Hws' & Hp)].
  - rewrite prefix_len_app, prefix_len_stop_cons, Nat.add_0_r by done.
    rewrite lookup_app_r, Nat.sub_diag by lia. cbn [lookup list_lookup].
    assert (((c =? #"~") || (c =? #"^")) = false) as -> by (apply digit_range in Hd; lia).
    by rewrite Hd.
  - assert (exists o, (o = #"~" \/ o = #"^") /\ pre_ = seps ++ o :: ws /\
      pinned = (if o =? #"~" then PinMinor else PinMajor)) as (o & Ho & -> & ->).
    { destruct Hp as [[-> ->]|[-> ->]]; eexists; eauto. }
    assert (is_separator o = false) as Hso by (by destruct Ho as [-> | ->]).
    rewrite <- app_assoc. cbn [app].
    rewrite prefix_len_app, prefix_len_stop_cons, Nat.add_0_r by done.
    rewrite lookup_app_r, Nat.sub_diag by lia. cbn [lookup list_lookup].
    assert (((o =? #"~") || (o =? #"^")) = true) as -> by (by destruct Ho as [-> | ->]).
    assert (skip_while is_whitespace (seps ++ o :: ws ++ c :: s) (S (length seps)) =
      length (seps ++ o :: ws)) as ->.
    { unfold skip_while. rewrite drop_app_ge by lia.
      replace (S (length seps) - length seps)%nat with 1%nat by lia. cbn [drop]. rewrite drop_0.
      rewrite prefix_len_app, prefix_len_stop_cons by done. rewrite length_app. cbn. lia. }
    rewrite (proj2 (Nat.ltb_lt _ _)); [done|]. rewrite !length_app. cbn. rewrite length_app. cbn. lia.
Qed.

(** * Facts about copying a version into a builder *)

Lemma builder_append_external b addr s :
  builder_append (T := ExternalString) b addr s =
  '(b', v) ← builder_append (T := SemverString) b addr s;
  Some (b', {| value := v; hash := string_hash s |}).
Proof.
  unfold builder_append, builder_append_with_hash, builder_append_without_pool.
  destruct (length s <=? MAX_INLINE_LEN)%nat; [by destruct (allocated_slice b)|].
  assert (forall b', ('(b'0, start) ← builder_write b' s; p ← bptr b'0; allocated ← slice p 0 (cap b'0);
      final_slice ← slice allocated start (start + length s);
      Some (b'0, from_init (T := ExternalString) (Z.of_nat start) final_slice (string_hash s))) =
    '(b', v) ← ('(b'0, start) ← builder_write b' s; p ← bptr b'0; allocated ← slice p 0 (cap b'0);
      final_slice ← slice allocated start (start + length s);
      Some (b'0, from_init (T := SemverString) (Z.of_nat start) final_slice (string_hash s)));
    Some (b', {| value := v; hash := string_hash s |})) as Hw.
  { intros b'. destruct (builder_write b' s) as [[b1 start]|]; cbn [mbind option_bind]; [|done].
    destruct (bptr b1); cbn [mbind option_bind]; [|done].
    destruct (slice _ 0 _); cbn [mbind option_bind]; [|done]. by destruct (slice _ start _). }
  destruct (string_pool b !! string_hash s) as [v|].
  - destruct (bptr b); cbn [mbind option_bind]; [|done].
    destruct (slice _ 0 _); cbn [mbind option_bind]; [|done].
    destruct (negb _); [apply Hw|done].
  - destruct (builder_write b s) as [[b1 start]|]; cbn [mbind option_bind]; [|done].
    destruct (bptr b1); cbn [mbind option_bind]; [|done].
    destruct (slice _ 0 _); cbn [mbind option_bind]; [|done]. by destruct (slice _ start _).
Qed.

(** The texts a version makes the builder copy. *)
Definition counted (buf : bytes) (e : ExternalString) (present : bool) : list bytes :=
  if present && negb (external_is_inline e) then [external_slice e buf] else [].

Lemma version_count_texts v buf b :
  version_count v buf b =
  foldl builder_count b (counted buf (pre (tag v)) (has_pre (tag v)) ++
                         counted buf (build (tag v)) (has_build (tag v))).
Proof. unfold version_count, counted. by destruct (_ && _), (_ && _). Qed.

Section AppendPart.
Context (buf : bytes) (Hbuf : Z.of_nat (length buf) < 2 ^ 31).

Definition part_handle (e : ExternalString) (s : bytes) : Prop :=
  handle_of buf (value e) s /\ pre_text s.

Lemma counted_need e s :
  part_handle e s -> total_need (counted buf e (negb (external_is_empty e))) = need s.
Proof.
  intros [Hh Hs]. pose proof (pre_text_ok buf s Hs Hbuf) as Hok. pose proof Hok as (Hb & _ & _).
  unfold counted, external_is_inline, external_is_empty, external_slice.
  rewrite (handle_inline _ _ _ Hh Hb), (handle_is_empty _ _ _ Hh Hok), (handle_slice _ _ _ Hh Hok).
  unfold need. destruct (can_inline s) eqn:E.
  - apply can_inline_length in E; [|done]. rewrite andb_false_r.
    by rewrite (proj2 (Nat.leb_le _ _)) by (unfold MAX_INLINE_LEN; lia).
  - destruct (pre_text_copyable s Hs) as [E'|Hl]; [congruence|].
    rewrite bool_decide_eq_false_2 by (by intros ->; cbn in Hl; lia). cbn [negb andb].
    unfold total_need. cbn. unfold need. lia.
Qed.

Lemma append_tag_part_ok b p addr e s :
  builder_ok b p -> part_handle e s -> (blen b + need s <= cap b)%nat ->
  exists b' p' e', append_tag_part addr e (negb (external_is_empty e)) buf b = Some (b', e') /\
    builder_ok b' p' /\ cap b' = cap b /\ (blen b' <= blen b + need s)%nat /\
    (exists k, take (blen b') p' = take (blen b) p ++ k) /\
    reads_back (take (blen b') p') (value e') s.
Proof.
  intros Hb [Hh Hs] Hfit. pose proof (pre_text_ok buf s Hs Hbuf) as Hok.
  pose proof Hok as (Hby & _ & _).
  unfold append_tag_part, external_is_inline, external_is_empty, external_slice.
  rewrite (handle_inline _ _ _ Hh Hby), (handle_is_empty _ _ _ Hh Hok), (handle_slice _ _ _ Hh Hok).
  destruct (can_inline s) eqn:E.
  - rewrite andb_false_r. exists b, p, e. split; [done|]. split; [done|]. split; [done|].
    split; [lia|]. split; [exists []; by rewrite app_nil_r|].
    unfold reads_back. rewrite E. by apply (handle_word _ _ _ Hh).
  - destruct (pre_text_copyable s Hs) as [E'|Hl]; [congruence|].
    rewrite bool_decide_eq_false_2 by (by intros ->; cbn in Hl; lia). cbn [negb andb].
    rewrite builder_append_external.
    destruct (builder_append_ok b p addr s Hb Hby Hfit)
      as (b' & p' & v & -> & Hb' & Hc & Hle & Hk & Hv%(handle_for_reads _ _ _ _ (or_intror Hl))).
    cbn [mbind option_bind]. eexists b', p', _. split; [done|]. repeat (split; [done|]). done.
Qed.

Lemma version_append_ok a1 a2 v pr b :
  part_handle (pre (tag v)) pr -> part_handle (build (tag v)) b ->
  Z.of_nat (length pr + length b) < 2 ^ 31 ->
  exists b' v' p, version_append a1 a2 v buf
      (builder_allocate (version_count v buf builder_default)) = Some (b', v') /\
    bptr b' = Some p /\ view p v' = view buf v.
Proof.
  intros Hp Hb Hsz.
  rewrite version_count_texts, builder_counts_cap by done.
  set (texts := counted _ _ _ ++ counted _ _ _).
  assert (total_need texts = (need pr + need b)%nat) as Hneed.
  { unfold texts, total_need. rewrite sum_list_with_app.
    by rewrite <- (counted_need _ _ Hp), <- (counted_need _ _ Hb). }
  assert (forall s, need s <= length s)%nat as Hn by (intros s; unfold need; case_match; lia).
  pose proof (Hn pr). pose proof (Hn b). rewrite Hneed. set (b0 := {| blen := _ |}).
  pose proof (builder_allocate_ok b0 eq_refl eq_refl ltac:(cbn; lia)) as Hok0.
  unfold version_append.
  destruct (append_tag_part_ok _ _ a1 _ _ Hok0 Hp) as (b1 & p1 & e1 & He1 & Hok1 & Hc1 & Hl1 & _ & Hr1).
  { cbn. lia. }
  unfold has_pre. rewrite He1. cbn [mbind option_bind].
  destruct (append_tag_part_ok _ _ a2 _ _ Hok1 Hb) as (b2 & p2 & e2 & He2 & Hok2 & Hc2 & Hl2 & [k Hk] & Hr2).
  { rewrite Hc1. cbn in *. lia. }
  unfold has_build. rewrite He2. cbn [mbind option_bind].
  eexists b2, _, p2. split; [done|]. split; [apply Hok2|].
  assert (forall e s e', part_handle e s -> reads_back (take (blen b2) p2) (value e') s ->
    external_slice e' p2 = external_slice e buf) as Hread.
  { intros e s e' [Hh Hs] Hr. pose proof (pre_text_ok buf s Hs Hbuf) as Hok.
    unfold external_slice. rewrite (handle_slice _ _ _ Hh Hok).
    destruct (pre_text_bytes s Hs) as [Hbs Hns].
    apply reads_back_slice; [done..| |].
    - rewrite (bo_cap _ _ Hok2). apply Hok2.
    - rewrite <- (take_drop (blen b2) p2). by apply reads_back_app. }
  unfold view. cbn [tag pre build major minor patch]. f_equal.
  - apply (Hread _ pr); [done|]. rewrite Hk. by apply reads_back_app.
  - by apply (Hread _ b).
Qed.
End AppendPart.

(** * Behaviours the comments of the source do not describe *)

(** What a parse says of a text: valid, wildcard, core numbers and tag texts. *)
Definition parsed (text : bytes) : option (bool * Wildcard * list (option Z) * bytes * bytes) :=
  r ← parse_utf8 U64_MAX text;
  Some (valid r, wildcard r, [pmajor (version r); pminor (version r); ppatch (version r)],
        external_slice (pre (ptag (version r))) text, external_slice (build (ptag (version r))) text).

(** An input of spaces is valid: the test after the scan for separators never fires. *)
Example parse_blank : parsed b!"  " = Some (true, WMajor, [None; None; None], [], []).
Proof. reflexivity. Qed.

(** A hyphen inside build metadata moves what follows it to the prerelease. *)
Example parse_hyphen_in_build :
  parsed b!"1.0.0+a-b" = Some (true, WNone, [Some 1; Some 0; Some 0], b!"b", []).
Proof. reflexivity. Qed.

(** Without a hyphen before the prerelease, a space after the build metadata
    makes both the prerelease. *)
Example parse_unqualified_build :
  parsed b!"1.0.0rc.1+b" = Some (true, WNone, [Some 1; Some 0; Some 0], b!"rc.1", b!"b") /\
  parsed b!"1.0.0rc.1+b ||" = Some (true, WNone, [Some 1; Some 0; Some 0], b!"rc.1+b", b!"b").
Proof. split; reflexivity. Qed.

(** The version of a text in a buffer of its own, for the witnesses. *)
Definition sample (text : bytes) : VersionType :=
  match parse_utf8 U64_MAX text with
  | Some r => partial_min (version r)
  | None => partial_min partial_default
  end.

Module SemverVersionProps.


(** A numeric identifier of 2^64 or more is compared as text: 10^20 is below 99999999999999999999. *)
Example large_numeric_ident :
  order_without_build (F := scalar_search) (sample b!"1.0.0-100000000000000000000") (sample b!"1.0.0-99999999999999999999")
    b!"1.0.0-100000000000000000000" b!"1.0.0-99999999999999999999" = Some Lt /\
  semver_ident b!"100000000000000000000" b!"99999999999999999999" = Gt.
Proof. split; vm_compute; reflexivity. Qed.

(** The order of versions is a total preorder: reflexive, antisymmetric
    under exchange and transitive, so sorting with it is well defined. *)
Theorem order_without_build_preorder {F : ByteSearch} {Fok : ByteSearchOk F} xbuf ybuf zbuf x y z :
  version_ok xbuf x -> version_ok ybuf y -> version_ok zbuf z ->
  exists xy yx yz xz, order_without_build x y xbuf ybuf = Some xy /\
    order_without_build y x ybuf xbuf = Some yx /\ order_without_build y z ybuf zbuf = Some yz /\
    order_without_build x z xbuf zbuf = Some xz /\
    order_without_build x x xbuf xbuf = Some Eq /\ yx = CompOpp xy /\
    (xy <> Gt -> yz <> Gt -> xz <> Gt) /\ (xy = Eq -> xz = yz).
Proof.
  intros Hx Hy Hz. eexists _, _, _, _. do 4 (split; [by apply order_without_build_ok|]).
  split; [rewrite order_without_build_ok by done; by rewrite cmp_refl|]. split; [apply cmp_flip|].
  split; [apply cmp_trans_le|]. intros H. by rewrite (cmp_trans_eq _ _ (view zbuf z) H).
Qed.

(** the parser returns on every input that a [u32] length can describe:
    no slice is out of range, the loops terminate within their fuel, the
    reported length is at most that of the input, and the handles of the tags
    are sound: they locate their text, and are the zero word only when it is empty. *)
Theorem parse_total T_MAX ss :
  Z.of_nat (length (ss_slice ss)) <= U32_MAX ->
  exists r, parse T_MAX ss = Some r /\ 0 <= len r <= Z.of_nat (length (ss_slice ss)) /\
    (ss_ok ss -> version_ok (ss_buf ss) (partial_min (version r))).
Proof.
  intros H. destruct (parse_ok T_MAX ss H) as (r & Hr & Hl & Ht). exists r.
  split; [done|]. split; [done|]. intros Hok. by apply Ht.
Qed.

(** C24: printing and parsing are inverse: the text of a version, alone or
    before a space in a larger buffer, parses to its numbers and tags, the
    parse ends where the text ends, and the result prints as the same text; for
    build metadata without a hyphen, which the parser would take for the start of
    a prerelease (see [parse_hyphen_in_build]). *)
Theorem parse_print_roundtrip T_MAX ss M m p pr b rest :
  0 <= T_MAX <= U64_MAX -> 0 <= M <= T_MAX -> 0 <= m <= T_MAX -> 0 <= p <= T_MAX ->
  pre_text pr -> build_text b -> ss_ok ss ->
  ss_slice ss = version_text M m p pr b ++ rest -> stops rest ->
  exists r, parse T_MAX ss = Some r /\ valid r = true /\ wildcard r = WNone /\
    len r = Z.of_nat (length (version_text M m p pr b)) /\
    let v := partial_min (version r) in
    v = partial_max T_MAX (version r) /\ version_ok (ss_buf ss) v /\
    view (ss_buf ss) v = {| v_major := M; v_minor := m; v_patch := p; v_pre := pr; v_build := b |} /\
    version_fmt v (ss_buf ss) = version_text M m p pr b.
Proof.
  intros HT HM Hm Hp Hpr Hb Hok H Hs.
  assert (Z.of_nat (length (ss_slice ss)) <= U32_MAX) as Hl.
  { destruct Hok as [Hsl Hbl]. apply slice_Some in Hsl as (? & _). unfold U32_MAX. lia. }
  eexists. split; [by apply (parse_version_text T_MAX HT ss M m p pr b rest)|]. cbn [valid wildcard len version core_result].
  do 3 (split; [done|]). cbn zeta. set (t := tag_of _ pr b).
  assert (ss_slice ss = core_text M m p ++ tag_text pr b ++ rest) as H'
    by (by rewrite H; unfold version_text; rewrite <- app_assoc).
  destruct (tag_of_ok (sub_at ss (length (core_text M m p))) pr b rest) as (Hp1 & Hp2 & Ht1 & Ht2);
    [by eapply sub_at_ok|cbn; by rewrite H', drop_app_length|done|done|].
  assert (view (ss_buf ss) (partial_min {| pmajor := Some M; pminor := Some m; ppatch := Some p; ptag := t |})
    = {| v_major := M; v_minor := m; v_patch := p; v_pre := pr; v_build := b |}) as Hv
    by (unfold view; cbn; by f_equal).
  split; [done|]. split; [by split|]. split; [done|]. by apply version_fmt_text.
Qed.

Theorem parse_print_roundtrip_witness :
  let buf := b!"^10.20.30-beta.1-x+exp.5 || 2" in
  let ss := {| ss_buf := buf; ss_off := 1; ss_slice := drop 1 buf |} in
  exists r, parse U64_MAX ss = Some r /\ valid r = true /\ len r = 23 /\
    version_fmt (partial_min (version r)) buf = b!"10.20.30-beta.1-x+exp.5".
Proof.
  destruct (parse_print_roundtrip U64_MAX
    {| ss_buf := b!"^10.20.30-beta.1-x+exp.5 || 2"; ss_off := 1;
       ss_slice := drop 1 b!"^10.20.30-beta.1-x+exp.5 || 2" |}
    10 20 30 b!"beta.1-x" b!"exp.5" b!" || 2") as (r & H1 & H2 & _ & H3 & H4).
  - unfold U64_MAX. lia.
  - unfold U64_MAX. lia.
  - unfold U64_MAX. lia.
  - unfold U64_MAX. lia.
  - repeat constructor.
  - repeat constructor.
  - split; reflexivity.
  - reflexivity.
  - right. eexists. reflexivity.
  - exists r. split; [exact H1|]. split; [exact H2|]. split; [exact H3|]. apply H4.
Defined.

Theorem parse_total_witness :
  exists r, parse_utf8 U64_MAX b!"1.0.0rc.1+b || >=v2.x" = Some r /\ 0 <= len r <= 21.
Proof.
  destruct (parse_total U64_MAX (ss_whole b!"1.0.0rc.1+b || >=v2.x")) as (r & H & Hl & _);
    [vm_compute; discriminate|].
  exists r. split; [exact H|exact Hl].
Defined.


Theorem order_without_build_preorder_witness :
  exists xy yz xz,
    order_without_build (sample b!"1.0.0-a") (sample b!"1.0.0-a.1") b!"1.0.0-a" b!"1.0.0-a.1" = Some xy /\
    order_without_build (sample b!"1.0.0-a.1") (sample b!"1.0.0") b!"1.0.0-a.1" b!"1.0.0" = Some yz /\
    order_without_build (sample b!"1.0.0-a") (sample b!"1.0.0") b!"1.0.0-a" b!"1.0.0" = Some xz /\
    (xy <> Gt -> yz <> Gt -> xz <> Gt).
Proof.
  destruct (order_without_build_preorder (F := scalar_search) (Fok := scalar_search_ok)
    b!"1.0.0-a" b!"1.0.0-a.1" b!"1.0.0" (sample b!"1.0.0-a") (sample b!"1.0.0-a.1") (sample b!"1.0.0"))
    as (xy & yx & yz & xz & H1 & _ & H2 & H3 & _ & _ & H4 & _);
    [split; reflexivity|split; reflexivity|split; reflexivity|].
  exists xy, yz, xz. split; [exact H1|]. split; [exact H2|]. split; [exact H3|exact H4].
Defined.

(** A core number of up to twenty digits reads as its value, or as 0 when
    that exceeds the maximum of the integer type; one of more digits reads as
    missing. *)
Theorem parse_version_number_bounds T_MAX ds :
  0 <= T_MAX <= U64_MAX -> all_digits ds -> ds <> [] ->
  parse_version_number T_MAX ds =
  if (20 <? length ds)%nat then None
  else Some (if dec_value ds <=? T_MAX then dec_value ds else 0).
Proof.
  intros HT Hd Hne. unfold parse_version_number. destruct (Nat.ltb_spec 20 (length ds)).
  - by rewrite number_bytes_long by (done || cbn; lia).
  - rewrite number_bytes_digits by (done || cbn; lia). cbn [app]. destruct ds as [|c ds]; [done|].
    unfold parse_ascii. rewrite parse_unsigned_digits by (done || unfold U128_MAX, U64_MAX in *; lia).
    by destruct (dec_value (c :: ds) <=? T_MAX).
Qed.

Theorem parse_version_number_bounds_witness :
  parse_version_number U64_MAX b!"18446744073709551616" = Some 0.
Proof.
  refine (eq_trans (parse_version_number_bounds U64_MAX b!"18446744073709551616" _ _ _) _);
    [unfold U64_MAX; lia|repeat constructor|discriminate|reflexivity].
Defined.

(** [which_version_is_pinned] on well-formed input: after whitespace, [v]
    and [=], a full version pins the patch, the minor under [~] and the major
    under [^], whatever tags follow; a version with components left out pins
    the last one present, unless an operator says otherwise. *)
Theorem which_version_is_pinned_spec w1 w2 pre_ pinned d1 d2 d3 tail :
  Forall (fun x => is_whitespace x = true) w1 -> Forall (fun x => is_whitespace x = true) w2 ->
  pin_prefix pre_ pinned -> (exists c, head (pre_ ++ d1) = Some c /\ is_whitespace c = false) ->
  all_digits d1 -> all_digits d2 -> all_digits d3 -> d1 <> [] -> d2 <> [] -> d3 <> [] ->
  Forall pin_tail_char tail -> (forall d, head tail = Some d -> is_ascii_digit d = false) ->
  which_version_is_pinned (w1 ++ (pre_ ++ d1 ++ [ #"."] ++ d2 ++ [ #"."] ++ d3 ++ tail) ++ w2) = pinned /\
  which_version_is_pinned (w1 ++ (pre_ ++ d1 ++ [ #"."] ++ d2) ++ w2) = pin_or pinned PinMinor /\
  which_version_is_pinned (w1 ++ (pre_ ++ d1) ++ w2) = pin_or pinned PinMajor.
Proof.
  intros Hw1 Hw2 Hp (b & Hb & Hb') H1 H2 H3 N1 N2 N3 Ht Hh.
  destruct d1 as [|c d1]; [done|]. pose proof (Forall_inv H1) as Hc.
  assert (forall s, exists b, head (pre_ ++ (c :: d1) ++ s) = Some b /\ is_whitespace b = false) as Hhd.
  { intros s. exists b. split; [|done]. by destruct pre_. }
  apply digits_nonws in H1 as W1. apply digits_nonws in H2 as W2. apply digits_nonws in H3 as W3.
  apply tail_nonws in Ht as Wt.
  split; [|split].
  - rewrite (pin_prefix_ok w1 w2 pre_ pinned _ c); try done.
    + by apply (pin_core_dotted3 _ pre_ pinned (c :: d1) d2 d3 tail).
    + repeat (apply Forall_app; split); auto.
  - rewrite (pin_prefix_ok w1 w2 pre_ pinned _ c); try done.
    + by apply (pin_core_dotted2 _ pre_ pinned (c :: d1) d2).
    + repeat (apply Forall_app; split); auto.
  - specialize (Hhd []). rewrite app_nil_r in Hhd.
    rewrite (pin_prefix_ok w1 w2 pre_ pinned _ c); try done. by apply (pin_core_dotted _ _ _ (c :: d1)).
Qed.

Theorem which_version_is_pinned_spec_witness :
  which_version_is_pinned b!" ~ 1.22.3-rc.4 " = PinMinor /\ which_version_is_pinned b!" ~ 1.22 " = PinMinor.
Proof.
  destruct (which_version_is_pinned_spec [32] [32] b!"~ " PinMinor b!"1" b!"22" b!"3" b!"-rc.4")
    as (H1 & H2 & _).
  - repeat constructor.
  - repeat constructor.
  - exists []. split; [constructor|]. right. exists [32]. split; [repeat constructor|]. left. split; reflexivity.
  - eexists. split; reflexivity.
  - repeat constructor.
  - repeat constructor.
  - repeat constructor.
  - discriminate.
  - discriminate.
  - discriminate.
  - repeat constructor.
  - intros d [= <-]. reflexivity.
  - split; [exact H1|exact H2].
Defined.

(** Copying a version into a string builder keeps it: after [count] and
    [allocate] the two appends succeed, and the tags of the copy read in the
    new buffer as those of the original in the old one. *)
Theorem version_append_preserves buf a1 a2 v pr b :
  Z.of_nat (length buf) < 2 ^ 31 -> Z.of_nat (length pr + length b) < 2 ^ 31 ->
  part_handle buf (pre (tag v)) pr -> part_handle buf (build (tag v)) b ->
  exists b' v' p, version_append a1 a2 v buf
      (builder_allocate (version_count v buf builder_default)) = Some (b', v') /\
    bptr b' = Some p /\ view p v' = view buf v.
Proof. intros Hb Hs Hp Hbd. by apply (version_append_ok buf Hb a1 a2 v pr b). Qed.

Theorem version_append_preserves_witness :
  let text := b!"1.2.3-canary.20240101+sha.5114f85" in
  let v := sample text in
  exists b' v' p, version_append 0 0 v text
      (builder_allocate (version_count v text builder_default)) = Some (b', v') /\
    bptr b' = Some p /\ view p v' = view text v.
Proof.
  apply (version_append_preserves b!"1.2.3-canary.20240101+sha.5114f85" 0 0
    (sample b!"1.2.3-canary.20240101+sha.5114f85") b!"canary.20240101" b!"sha.5114f85").
  - reflexivity.
  - reflexivity.
  - split; [exists 6%nat; split; reflexivity|repeat constructor].
  - split; [exists 22%nat; split; reflexivity|repeat constructor].
Defined.

(** [which_version_is_different] reports the first component that
    differs: core numbers, then the prerelease by precedence, then, only when
    there is a prerelease, the build. *)
Theorem which_version_is_different_spec {F : ByteSearch} {Fok : ByteSearchOk F} lbuf rbuf l r :
  version_ok lbuf l -> version_ok rbuf r ->
  let a := view lbuf l in let b := view rbuf r in
  exists d, which_version_is_different l r lbuf rbuf = Some d /\
    (d = Some CMajor <-> v_major a <> v_major b) /\
    (d = Some CMinor <-> v_major a = v_major b /\ v_minor a <> v_minor b) /\
    (d = Some CPatch <-> v_major a = v_major b /\ v_minor a = v_minor b /\ v_patch a <> v_patch b) /\
    (d = Some CPre <-> v_major a = v_major b /\ v_minor a = v_minor b /\ v_patch a = v_patch b /\
      precedence a b <> Eq) /\
    (d = None \/ d = Some CBuild -> precedence a b = Eq) /\
    (v_pre a = [] -> d <> Some CBuild).
Proof.
  intros Hl Hr a b. unfold which_version_is_different.
  rewrite (has_pre_view lbuf l Hl), (has_pre_view rbuf r Hr), order_pre_ok.
  change (major l) with (v_major a). change (major r) with (v_major b).
  change (minor l) with (v_minor a). change (minor r) with (v_minor b).
  change (patch l) with (v_patch a). change (patch r) with (v_patch b). fold a b.
  destruct (Z.eqb_spec (v_major a) (v_major b)) as [E1|]; cbn [negb]; [|eexists; split; [done|]; naive_solver].
  destruct (Z.eqb_spec (v_minor a) (v_minor b)) as [E2|]; cbn [negb]; [|eexists; split; [done|]; naive_solver].
  destruct (Z.eqb_spec (v_patch a) (v_patch b)) as [E3|]; cbn [negb]; [|eexists; split; [done|]; naive_solver].
  pose proof (precedence_same_core a b E1 E2 E3) as Hprec.
  change (split_on _ (external_slice (pre (tag l)) lbuf)) with (idents a).
  change (split_on _ (external_slice (pre (tag r)) rbuf)) with (idents b).
  destruct (no_pre a) eqn:Na, (no_pre b) eqn:Nb; cbn [negb Bool.eqb andb bool_compare ordering_then] in *.
  - apply bool_decide_eq_true_1 in Na, Nb. unfold idents in Hprec. rewrite Na, Nb in Hprec. cbn in Hprec.
    rewrite Hprec. eexists; split; [done|]; naive_solver.
  - rewrite Hprec. eexists; split; [done|]; clear -E1 E2 E3; naive_solver.
  - rewrite Hprec. eexists; split; [done|]; clear -E1 E2 E3; naive_solver.
  - apply bool_decide_eq_false_1 in Na. cbn [mbind option_bind]. rewrite Hprec.
    destruct (list_compare ident_compare (idents a) (idents b)) eqn:Ec;
      [|eexists; split; [done|]; clear -E1 E2 E3; naive_solver..].
    repeat case_match; (eexists; split; [done|]; clear -E1 E2 E3 Na; naive_solver).
Qed.

Theorem which_version_is_different_spec_witness :
  which_version_is_different (sample b!"1.2.3-a+x") (sample b!"1.2.3-a+y") b!"1.2.3-a+x" b!"1.2.3-a+y"
    = Some (Some CBuild) /\
  which_version_is_different (sample b!"1.2.3+x") (sample b!"1.2.3+y") b!"1.2.3+x" b!"1.2.3+y"
    = Some None /\
  precedence (view b!"1.2.3-a+x" (sample b!"1.2.3-a+x")) (view b!"1.2.3-a+y" (sample b!"1.2.3-a+y")) = Eq.
Proof.
  split; [reflexivity|]. split; [reflexivity|].
  destruct (which_version_is_different_spec (F := scalar_search) (Fok := scalar_search_ok)
    b!"1.2.3-a+x" b!"1.2.3-a+y" (sample b!"1.2.3-a+x") (sample b!"1.2.3-a+y"))
    as (d & Hd & _ & _ & _ & _ & H & _); [split; reflexivity|split; reflexivity|].
  apply H. right. vm_compute in Hd. congruence.
Defined.

End SemverVersionProps.
