(* ===== verification/SemverRange.v ===== *)
(** src/src/semver/SemverRange.rs: comparators and ranges of versions.

    A comparison consults the split iterators, so [satisfies] is an [option];
    the theorems show it is never [None]. *)
From S2P Require Import Prelude BunCore SemverString SemverVersion.

Inductive Op := Unset | Eql | Lt_ | Lte | Gt_ | Gte.
#[export] Instance Op_eq_dec : EqDecision Op.
Proof. solve_decision. Defined.

Record Comparator := { op : Op; cversion : VersionType }.
Record Range := { left_ : Comparator; right_ : Comparator }.

Definition version_default : VersionType := {| major := 0; minor := 0; patch := 0; tag := tag_default |}.
Definition comparator_default : Comparator := {| op := Unset; cversion := version_default |}.
Definition range_default : Range := {| left_ := comparator_default; right_ := comparator_default |}.

(** A version with core numbers only, the other fields defaulted. *)
Definition core_version (M m p : Z) : VersionType :=
  {| major := M; minor := m; patch := p; tag := tag_default |}.

Definition saturating_add1 (x : Z) : Z := saturating_succ64 x.

Definition only_left (o : Op) (v : VersionType) : Range :=
  {| left_ := {| op := o; cversion := v |}; right_ := comparator_default |}.

Definition init_wildcard (v : VersionType) (w : Wildcard) : Range :=
  match w with
  | WNone => only_left Eql v
  | WMajor => only_left Gte version_default
  | WMinor =>
    {| left_ := {| op := Lt_; cversion := core_version (saturating_add1 (major v)) 0 0 |};
       right_ := {| op := Gte; cversion := core_version (major v) 0 0 |} |}
  | WPatch =>
    {| left_ := {| op := Lt_; cversion := core_version (major v) (saturating_add1 (minor v)) 0 |};
       right_ := {| op := Gte; cversion := core_version (major v) (minor v) 0 |} |}
  end.

Definition has_left (r : Range) : bool := negb (bool_decide (op (left_ r) = Unset)).
Definition has_right (r : Range) : bool := negb (bool_decide (op (right_ r) = Unset)).

Definition comparator_eql (c d : Comparator) : bool :=
  bool_decide (op c = op d) && version_eql (cversion c) (cversion d).

Definition range_eql (r s : Range) : bool :=
  comparator_eql (left_ r) (left_ s) && comparator_eql (right_ r) (right_ s).

(** The operators an ordering of the version against the comparator admits. *)
Definition op_admits (o : Op) (c : comparison) : bool :=
  match c, o with
  | Eq, (Lte | Gte | Eql) => true
  | Gt, (Gt_ | Gte) => true
  | Lt, (Lt_ | Lte) => true
  | _, _ => false
  end.

Section Satisfies.
Context {F : ByteSearch}.

Definition comparator_satisfies (c : Comparator) (v : VersionType) (comparator_buf version_buf : bytes)
    : option bool :=
  o ← order_without_build v (cversion c) version_buf comparator_buf; Some (op_admits (op c) o).

(** The two comparators, the right one only when present. *)
Definition both_satisfy (r : Range) (v : VersionType) (range_buf version_buf : bytes) : option bool :=
  l ← comparator_satisfies (left_ r) v range_buf version_buf;
  if negb l then Some false
  else if has_right r then comparator_satisfies (right_ r) v range_buf version_buf
  else Some true.

Definition range_satisfies (r : Range) (v : VersionType) (range_buf version_buf : bytes) : option bool :=
  if negb (has_left r) then Some true else both_satisfy r v range_buf version_buf.

Definition same_core (v w : VersionType) : bool :=
  (patch v =? patch w) && (minor v =? minor w) && (major v =? major w).

(** The result and the new value of [*pre_matched]. *)
Definition range_satisfies_pre (r : Range) (v : VersionType) (range_buf version_buf : bytes)
    (pre_matched : bool) : option (bool * bool) :=
  if negb (has_left r) then Some (true, pre_matched)
  else
    let pm := pre_matched ||
      (has_pre (tag (cversion (left_ r))) && same_core v (cversion (left_ r))) ||
      (has_right r && has_pre (tag (cversion (right_ r))) && same_core v (cversion (right_ r))) in
    b ← both_satisfy r v range_buf version_buf; Some (b, pm).
End Satisfies.

Definition comparator_fmt (c : Comparator) (buf : bytes) : bytes :=
  match op c with
  | Unset => []
  | Eql => b!"==" ++ version_fmt (cversion c) buf
  | Lt_ => b!"<" ++ version_fmt (cversion c) buf
  | Lte => b!"<=" ++ version_fmt (cversion c) buf
  | Gt_ => b!">" ++ version_fmt (cversion c) buf
  | Gte => b!">=" ++ version_fmt (cversion c) buf
  end.

Definition range_fmt (r : Range) (buf : bytes) : bytes :=
  if bool_decide (op (left_ r) = Unset) && bool_decide (op (right_ r) = Unset) then []
  else if bool_decide (op (right_ r) = Unset) then comparator_fmt (left_ r) buf
  else comparator_fmt (left_ r) buf ++ b!" " ++ comparator_fmt (right_ r) buf.

(** * What a range means *)

(** The set of versions a comparator, and a range, admit, over views. *)
Definition op_holds (o : Op) (c : comparison) : Prop :=
  match o with
  | Unset => False
  | Eql => c = Eq
  | Lt_ => c = Lt
  | Lte => c <> Gt
  | Gt_ => c = Gt
  | Gte => c <> Lt
  end.

Definition comparator_admits (c : Comparator) (buf : bytes) (v : View) : Prop :=
  op_holds (op c) (precedence v (view buf (cversion c))).

Definition range_admits (r : Range) (buf : bytes) (v : View) : Prop :=
  has_left r = true ->
  comparator_admits (left_ r) buf v /\ (has_right r = true -> comparator_admits (right_ r) buf v).

(** The same in the order of the semver specification, and what a prerelease needs. *)
Definition comparator_meets (c : Comparator) (buf : bytes) (v : View) : Prop :=
  op_holds (op c) (semver_precedence v (view buf (cversion c))).

Definition range_meets (r : Range) (buf : bytes) (v : View) : Prop :=
  has_left r = true ->
  comparator_meets (left_ r) buf v /\ (has_right r = true -> comparator_meets (right_ r) buf v).

Definition names_prerelease_of (v w : View) : Prop :=
  v_pre w <> [] /\ v_major v = v_major w /\ v_minor v = v_minor w /\ v_patch v = v_patch w.

Definition range_names_prerelease_of (r : Range) (buf : bytes) (v : View) : Prop :=
  has_left r = true /\
  (names_prerelease_of v (view buf (cversion (left_ r))) \/
   has_right r = true /\ names_prerelease_of v (view buf (cversion (right_ r)))).

Definition range_idents_ok (buf : bytes) (r : Range) : Prop :=
  idents_ok (view buf (cversion (left_ r))) /\ idents_ok (view buf (cversion (right_ r))).

Definition range_ok (buf : bytes) (r : Range) : Prop :=
  version_ok buf (cversion (left_ r)) /\ version_ok buf (cversion (right_ r)).

Lemma op_admits_holds o c : op_admits o c = true <-> op_holds o c.
Proof. destruct o, c; cbn; naive_solver. Qed.

Section SatisfiesFacts.
Context {F : ByteSearch} {Fok : ByteSearchOk F} (rbuf vbuf : bytes) (v : VersionType)
        (Hv : version_ok vbuf v).

Lemma comparator_satisfies_ok c :
  version_ok rbuf (cversion c) ->
  exists b, comparator_satisfies c v rbuf vbuf = Some b /\
    (b = true <-> comparator_admits c rbuf (view vbuf v)).
Proof.
  intros Hc. unfold comparator_satisfies. rewrite (order_without_build_ok vbuf rbuf) by done.
  eexists. split; [done|]. apply op_admits_holds.
Qed.

Lemma both_satisfy_ok r :
  range_ok rbuf r ->
  exists b, both_satisfy r v rbuf vbuf = Some b /\
    (b = true <-> comparator_admits (left_ r) rbuf (view vbuf v) /\
      (has_right r = true -> comparator_admits (right_ r) rbuf (view vbuf v))).
Proof.
  intros [Hl Hr]. unfold both_satisfy.
  destruct (comparator_satisfies_ok (left_ r) Hl) as (l & -> & Hlb). cbn [mbind option_bind].
  destruct l; cbn [negb]; [|eexists; split; [done|]; naive_solver].
  destruct (has_right r); [|eexists; split; [done|]; naive_solver].
  destruct (comparator_satisfies_ok (right_ r) Hr) as (b & -> & Hb).
  eexists; split; [done|]. naive_solver.
Qed.

Lemma range_satisfies_ok r :
  range_ok rbuf r ->
  exists b, range_satisfies r v rbuf vbuf = Some b /\
    (b = true <-> range_admits r rbuf (view vbuf v)).
Proof.
  intros Hr. unfold range_satisfies, range_admits.
  destruct (has_left r); cbn [negb]; [|eexists; split; [done|]; naive_solver].
  destruct (both_satisfy_ok r Hr) as (b & -> & Hb). eexists; split; [done|]. naive_solver.
Qed.

(** The core numbers of a comparator with a prerelease are those of the version. *)
Definition pins_core (r : Range) : Prop :=
  has_left r = true /\
  (has_pre (tag (cversion (left_ r))) = true /\ same_core v (cversion (left_ r)) = true \/
   has_right r = true /\ has_pre (tag (cversion (right_ r))) = true /\
     same_core v (cversion (right_ r)) = true).

Lemma range_meets_ok r : range_idents_ok rbuf r -> idents_ok (view vbuf v) -> range_admits r rbuf (view vbuf v) <-> range_meets r rbuf (view vbuf v).
Proof.
  intros [Hl Hr] Hi. unfold range_admits, range_meets, comparator_admits, comparator_meets. by rewrite !semver_precedence_ok.
Qed.

Lemma names_prerelease_ok w : version_ok rbuf w ->
  (has_pre (tag w) = true /\ same_core v w = true) <-> names_prerelease_of (view vbuf v) (view rbuf w).
Proof.
  intros Hw. rewrite (has_pre_view rbuf w Hw). unfold no_pre, same_core, names_prerelease_of. cbn [view v_major v_minor v_patch v_pre].
  rewrite negb_true_iff, bool_decide_eq_false, !andb_true_iff, !Z.eqb_eq. naive_solver.
Qed.

Lemma pins_core_ok r : range_ok rbuf r -> pins_core r <-> range_names_prerelease_of r rbuf (view vbuf v).
Proof.
  intros [Hl Hr]. unfold pins_core, range_names_prerelease_of. by rewrite !names_prerelease_ok.
Qed.

Lemma range_satisfies_pre_ok r pm :
  range_ok rbuf r ->
  exists b pm', range_satisfies_pre r v rbuf vbuf pm = Some (b, pm') /\
    (b = true <-> range_admits r rbuf (view vbuf v)) /\
    (pm' = true <-> pm = true \/ pins_core r).
Proof.
  intros Hr. unfold range_satisfies_pre, range_admits, pins_core.
  destruct (has_left r); cbn [negb]; [|eexists _, _; split; [done|]; naive_solver].
  destruct (both_satisfy_ok r Hr) as (b & -> & Hb). cbn [mbind option_bind].
  eexists _, _. split; [done|]. split; [naive_solver|].
  rewrite !orb_true_iff, !andb_true_iff. naive_solver.
Qed.
End SatisfiesFacts.
