(* ===== verification/SemverQuery.v ===== *)
(** src/src/semver/SemverQuery.rs: queries ([^1 || >=2 <3]) as linked lists,
    their parser and their evaluation.

    A [Query] is a chain of ranges joined by AND, a [QList] a chain of
    queries joined by OR.  A tail pointer is the position, from the head, of
    the node it points at; following one that is out of the chain is [None],
    as is a panic, an [unreachable!()] or exhausted fuel.  [input] is given as
    the [SlicedString] [sliced.sub(input)]. *)
From S2P Require Import Prelude BunCore BitSet SemverString SemverVersion SemverRange.

(** * Chains *)

Inductive Query := QNode (q_range : Range) (q_next : option Query).
Inductive QList := LNode (l_head : Query) (l_tail : option nat) (l_next : option QList).

Definition q_range (q : Query) : Range := let 'QNode r _ := q in r.
Definition q_next (q : Query) : option Query := let 'QNode _ n := q in n.
Definition l_head (l : QList) : Query := let 'LNode h _ _ := l in h.
Definition l_tail (l : QList) : option nat := let 'LNode _ t _ := l in t.
Definition l_next (l : QList) : option QList := let 'LNode _ _ n := l in n.

Definition query_default : Query := QNode range_default None.
Definition list_default : QList := LNode query_default None None.

Definition PRE : Z := 1.
Definition BUILD : Z := 0.

Record Group := { g_head : QList; g_tail : option nat; flags : IntegerBitSet }.
Definition group_default : Group := {| g_head := list_default; g_tail := None; flags := init_empty |}.

(** [p.as_mut().next = Some(new)] for the pointer to node [k] of the chain. *)
Fixpoint q_set_next (k : nat) (q new : Query) : option Query :=
  let 'QNode r n := q in
  match k, n with
  | O, _ => Some (QNode r (Some new))
  | S k, Some n => n' ← q_set_next k n new; Some (QNode r (Some n'))
  | S k, None => None
  end.

(** An update of node [k] of a chain of lists through a pointer to it. *)
Fixpoint l_update (k : nat) (l : QList) (f : QList -> option QList) : option QList :=
  match k with
  | O => f l
  | S k =>
    let 'LNode h t n := l in
    match n with
    | Some n => n' ← l_update k n f; Some (LNode h t (Some n'))
    | None => None
    end
  end.

(** [List::and_range]. *)
Definition list_and_range (l : QList) (range : Range) : option QList :=
  let 'LNode h t n := l in
  if negb (has_left (q_range h)) && negb (has_right (q_range h)) then
    Some (LNode (QNode range (q_next h)) t n)
  else
    h' ← q_set_next (default O t) h (QNode range None);
    Some (LNode h' (Some (S (default O t))) n).

(** [prev_tail.next = Some(new_tail); self.tail = Some(new_tail_ptr)]. *)
Definition group_push (g : Group) (new_tail : QList) : option Group :=
  let k := default O (g_tail g) in
  h ← l_update k (g_head g) (fun l => Some (LNode (l_head l) (l_tail l) (Some new_tail)));
  Some {| g_head := h; g_tail := Some (S k); flags := flags g |}.

Definition group_set_head (g : Group) (h : QList) : Group :=
  {| g_head := h; g_tail := g_tail g; flags := flags g |}.

(** [self.head.head.range = r]. *)
Definition set_head_range (l : QList) (r : Range) : QList :=
  let 'LNode h t n := l in LNode (QNode r (q_next h)) t n.

Definition group_or_version (g : Group) (v : VersionType) : option Group :=
  let r := q_range (l_head (g_head g)) in
  if bool_decide (g_tail g = None) && negb (has_left r) then
    Some (group_set_head g (set_head_range (g_head g)
      {| left_ := {| op := Eql; cversion := v |}; right_ := right_ r |}))
  else group_push g (LNode (QNode (only_left Eql v) None) None None).

Definition group_and_range (g : Group) (range : Range) : option Group :=
  h ← l_update (default O (g_tail g)) (g_head g) (fun l => list_and_range l range);
  Some (group_set_head g h).

Definition group_or_range (g : Group) (range : Range) : option Group :=
  if bool_decide (g_tail g = None) && bool_decide (l_tail (g_head g) = None) &&
     negb (has_left (q_range (l_head (g_head g)))) then
    Some (group_set_head g (set_head_range (g_head g) range))
  else group_push g (LNode (QNode range None) None None).

(** [Clone]: the chains are copied and the tails recomputed on the copy. *)
Fixpoint query_last (q : Query) : nat :=
  match q with QNode _ (Some n) => S (query_last n) | QNode _ None => O end.

Definition query_tail (q : Query) : option nat :=
  match q_next q with None => None | Some _ => Some (query_last q) end.

Fixpoint list_clone (l : QList) : QList :=
  match l with
  | LNode h _ (Some n) => LNode h (query_tail h) (Some (list_clone n))
  | LNode h _ None => LNode h (query_tail h) None
  end.

Fixpoint list_last (l : QList) : nat :=
  match l with LNode _ _ (Some n) => S (list_last n) | LNode _ _ None => O end.

Definition group_clone (g : Group) : Group :=
  let h := list_clone (g_head g) in
  {| g_head := h; g_tail := match l_next h with None => None | Some _ => Some (list_last h) end;
     flags := flags g |}.

(** * Equality, shape *)

Fixpoint query_eql (q r : Query) : bool :=
  range_eql (q_range q) (q_range r) &&
  match q, r with
  | QNode _ None, QNode _ None => true
  | QNode _ (Some qn), QNode _ (Some rn) => query_eql qn rn
  | _, _ => false
  end.

Fixpoint list_eql (l k : QList) : bool :=
  query_eql (l_head l) (l_head k) &&
  match l, k with
  | LNode _ _ None, LNode _ _ None => true
  | LNode _ _ (Some ln), LNode _ _ (Some kn) => list_eql ln kn
  | _, _ => false
  end.

Definition group_eql (g h : Group) : bool := list_eql (g_head g) (g_head h).

Definition is_none {A} (o : option A) : bool := match o with None => true | Some _ => false end.

Definition head_range (g : Group) : Range := q_range (l_head (g_head g)).
Definition single (g : Group) : bool := is_none (l_next (g_head g)) && is_none (q_next (l_head (g_head g))).

Definition is_exact (g : Group) : bool :=
  single g && negb (has_right (head_range g)) && bool_decide (op (left_ (head_range g)) = Eql).

Definition get_exact_version (g : Group) : option VersionType :=
  let r := head_range g in
  if single g && has_left r && bool_decide (op (left_ r) = Eql) && negb (has_right r)
  then Some (cversion (left_ r)) else None.

Definition is_star (g : Group) : bool :=
  let r := head_range g in
  bool_decide (op (right_ r) = Unset) && bool_decide (op (left_ r) = Gte) && single g &&
  version_is_zero (cversion (left_ r)) && negb (is_set 3 (flags g) BUILD).

(** [from]; [to_version], whose assertion only runs in debug builds. *)
Definition group_from (v : VersionType) : Group :=
  {| g_head := LNode (QNode (only_left Eql v) None) None None; g_tail := None; flags := init_empty |}.

Definition to_version (g : Group) : VersionType := cversion (left_ (head_range g)).

(** * Evaluation *)

Section Evaluate.
Context {F : ByteSearch} (v : VersionType) (list_buf version_buf : bytes).

Fixpoint query_satisfies (q : Query) : option bool :=
  match q with QNode r n =>
    b ← range_satisfies r v list_buf version_buf;
    if negb b then Some false
    else match n with Some n => query_satisfies n | None => Some true end
  end.

Fixpoint query_satisfies_pre (q : Query) (pre_matched : bool) : option (bool * bool) :=
  match q with QNode r n =>
    '(b, pre_matched) ← range_satisfies_pre r v list_buf version_buf pre_matched;
    if negb b then Some (false, pre_matched)
    else match n with
      | Some n => query_satisfies_pre n pre_matched
      | None => Some (true, pre_matched)
      end
  end.

Fixpoint list_satisfies (l : QList) : option bool :=
  match l with LNode h _ n =>
    b ← query_satisfies h;
    if (b : bool) then Some true
    else match n with Some n => list_satisfies n | None => Some false end
  end.

Fixpoint list_satisfies_pre (l : QList) : option bool :=
  match l with LNode h _ n =>
    '(b, pre_matched) ← query_satisfies_pre h false;
    if (b : bool) && pre_matched then Some true
    else match n with Some n => list_satisfies_pre n | None => Some false end
  end.

Definition group_satisfies (g : Group) : option bool :=
  if has_pre (tag v) then list_satisfies_pre (g_head g) else list_satisfies (g_head g).
End Evaluate.

(** * Formatting *)

Definition query_fmt (q : Query) (buf : bytes) : bytes :=
  match q_next q with
  | Some n =>
    if has_left (q_range n) || has_right (q_range n)
    then range_fmt (q_range q) buf ++ b!" && " ++ range_fmt (q_range n) buf
    else range_fmt (q_range q) buf
  | None => range_fmt (q_range q) buf
  end.

Fixpoint list_fmt (l : QList) (buf : bytes) : bytes :=
  match l with
  | LNode h _ (Some n) => query_fmt h buf ++ b!" || " ++ list_fmt n buf
  | LNode h _ None => query_fmt h buf
  end.

Fixpoint lists_fmt (l : QList) (buf : bytes) : bytes :=
  match l with
  | LNode _ _ (Some n) => list_fmt l buf ++ b!" && " ++ lists_fmt n buf
  | LNode _ _ None => list_fmt l buf
  end.

Definition group_fmt (g : Group) (buf : bytes) : bytes :=
  if is_none (g_tail g) && is_none (l_tail (g_head g)) && negb (has_left (head_range g)) then []
  else if is_none (g_tail g) && is_none (l_tail (g_head g)) then list_fmt (g_head g) buf
  else lists_fmt (g_head g) buf.

(** * Tokens *)

Inductive TokenTag := TNone | TGt | TGte | TLt | TLte | TVersion | TTilda | TCaret.
#[export] Instance TokenTag_eq_dec : EqDecision TokenTag.
Proof. solve_decision. Defined.

Record Token := { t_op : TokenTag; t_wildcard : Wildcard }.

(** [>=lo <hi] with the core of [hi]; [lo] may carry the tag. *)
Definition gte_lt (lo hi : VersionType) : Range :=
  {| left_ := {| op := Gte; cversion := lo |}; right_ := {| op := Lt_; cversion := hi |} |}.

Definition with_tag (v : VersionType) (t : Tag) : VersionType :=
  {| major := major v; minor := minor v; patch := patch v; tag := t |}.

Definition caret_range (version : Partial) : Range :=
  match pmajor version with
  | None => range_default
  | Some major =>
    match pminor version with
    | None => gte_lt (core_version major 0 0) (core_version (saturating_add1 major) 0 0)
    | Some minor =>
      match ppatch version with
      | Some patch =>
        let lo := with_tag (core_version major minor patch) (ptag version) in
        if major =? 0 then
          if minor =? 0 then gte_lt lo (core_version 0 0 (saturating_add1 patch))
          else gte_lt lo (core_version 0 (saturating_add1 minor) 0)
        else gte_lt lo (core_version (saturating_add1 major) 0 0)
      | None =>
        let lo := core_version major minor 0 in
        if major =? 0 then gte_lt lo (core_version 0 (saturating_add1 minor) 0)
        else gte_lt lo (core_version (saturating_add1 major) 0 0)
      end
    end
  end.

Definition tilda_range (version : Partial) : Range :=
  match pmajor version with
  | None => range_default
  | Some major =>
    match pminor version with
    | None => gte_lt (core_version major 0 0) (core_version (saturating_add1 major) 0 0)
    | Some minor =>
      let hi := core_version major (saturating_add1 minor) 0 in
      match ppatch version with
      | Some patch => gte_lt (with_tag (core_version major minor patch) (ptag version)) hi
      | None => gte_lt (core_version major minor 0) hi
      end
    end
  end.

Definition comparison_op (t : TokenTag) : option Op :=
  match t with
  | TGt => Some Gt_
  | TGte => Some Gte
  | TLt => Some Lt_
  | TLte => Some Lte
  | _ => None
  end.

(** [Token::to_range]; the [unreachable!()] arms are [None]. *)
Definition to_range (t : Token) (version : Partial) : option Range :=
  match t_op t with
  | TCaret => Some (caret_range version)
  | TTilda => Some (tilda_range version)
  | TNone => None
  | TVersion =>
    if bool_decide (t_wildcard t = WNone) then Some (only_left Eql (partial_min version))
    else Some (init_wildcard (partial_min version) (t_wildcard t))
  | tg =>
    match t_wildcard t with
    | WMajor =>
      Some {| left_ := {| op := Gte; cversion := partial_min version |};
              right_ := {| op := Lte; cversion := core_version U64_MAX U64_MAX U64_MAX |} |}
    | WMinor =>
      let M := default 0 (pmajor version) in
      match tg with
      | TLte => Some (only_left Lte (core_version M U64_MAX U64_MAX))
      | TLt => Some (only_left Lt_ (core_version M 0 0))
      | TGt => Some (only_left Gt_ (core_version M U64_MAX U64_MAX))
      | TGte => Some (only_left Gte (core_version M 0 0))
      | _ => None
      end
    | WPatch =>
      let M := default 0 (pmajor version) in
      let m := default 0 (pminor version) in
      match tg with
      | TLte => Some (only_left Lte (core_version M m U64_MAX))
      | TLt => Some (only_left Lt_ (core_version M m 0))
      | TGt => Some (only_left Gt_ (core_version M m U64_MAX))
      | TGte => Some (only_left Gte (core_version M m 0))
      | _ => None
      end
    | WNone => o ← comparison_op tg; Some (only_left o (partial_min version))
    end
  end.

(** * The parser *)

(** The locals of [parse] that survive a round. *)
Record QLoop := { q_i : nat; q_token : Token; q_count : Z; q_is_or : bool; q_list : Group }.

Definition is_space (c : Z) : bool := c =? #" ".

(** [i += 1] and the loop over spaces that follows it. *)
Definition skip_spaces (input : bytes) (i : nat) : nat := skip_while is_space input i.

Definition next_is (input : bytes) (i : nat) (c : Z) : bool :=
  match input !! i with Some d => d =? c | None => false end.

(** The characters a version can start with after a hyphen. *)
Definition starts_version (c : Z) : bool := is_ascii_digit c || is_wild_char c.

(** The match on [input[i]]: [i], the token tag, [is_or] and [skip_round]. *)
Definition scan_token (input : bytes) (i : nat) (c : Z) (tg : TokenTag) (is_or : bool)
    : nat * TokenTag * bool * bool :=
  if c =? #">" then
    if next_is input (S i) #"=" then (skip_spaces input (S (S i)), TGte, is_or, false)
    else (skip_spaces input (S i), TGt, is_or, false)
  else if c =? #"<" then
    if next_is input (S i) #"=" then (skip_spaces input (S (S i)), TLte, is_or, false)
    else (skip_spaces input (S i), TLt, is_or, false)
  else if (c =? #"=") || (c =? #"v") then (skip_spaces input (S i), TVersion, true, false)
  else if c =? #"~" then
    let i := S i in
    let i := if next_is input i #">" then S i else i in
    (skip_spaces input i, TTilda, is_or, false)
  else if c =? #"^" then (skip_spaces input (S i), TCaret, is_or, false)
  else if starts_version c then (i, TVersion, true, false)
  else if c =? #"|" then
    (skip_spaces input (skip_while (Z.eqb #"|") input (S i)), TNone, true, true)
  else if c =? #"-" then (skip_spaces input (S i), tg, is_or, false)
  else if is_space c then (skip_spaces input (S i), tg, is_or, true)
  else (skip_while (fun c => negb (is_space c) && negb (c =? #"|")) input (S i), TNone, is_or, true).

(** [i += length_of_leading_whitespace_ascii(&input[i..])]. *)
Definition skip_leading (input : bytes) (i : nat) : option nat :=
  r ← slice_from input i; Some (i + length_of_leading_whitespace_ascii r)%nat.

(** The block [possibly_hyphenate], from [i]: where the second version of a
    hyphen range starts, or [None] inside when there is none. *)
Definition possibly_hyphenate (input : bytes) (i : nat) : option (option nat) :=
  i ← skip_leading input i;
  if negb (next_is input i #"-") then Some None
  else
    i ← skip_leading input (S i);
    if (i =? length input)%nat then Some None
    else
      c ← input !! i;
      let i := if (c =? #"v") || (c =? #"=") then S i else i in
      if (i =? length input)%nat then Some None
      else
        i ← skip_leading input i;
        if (i =? length input)%nat then Some None
        else
          c ← input !! i;
          Some (if starts_version c then Some i else None).

Definition hyphenate (input : bytes) (i : nat) : option (option nat) :=
  if next_is input i #" " || next_is input i #"-" then possibly_hyphenate input i else Some None.

(** The range of [version - second]. *)
Definition hyphen_range (version : VersionType) (second : ParseResult) : Range :=
  let sv := partial_min (SemverVersion.version second) in
  match wildcard second with
  | WMajor => only_left Gte version
  | WMinor =>
    gte_lt version {| major := saturating_add1 (major sv); minor := 0; patch := 0; tag := tag sv |}
  | WPatch =>
    gte_lt version {| major := major sv; minor := saturating_add1 (minor sv); patch := 0; tag := tag sv |}
  | WNone =>
    {| left_ := {| op := Gte; cversion := version |}; right_ := {| op := Lte; cversion := sv |} |}
  end.

Definition set_flags (g : Group) (v : VersionType) : Group :=
  let f := flags g in
  let f := if has_build (tag v) then set_value 3 f BUILD true else f in
  let f := if has_pre (tag v) then set_value 3 f PRE true else f in
  {| g_head := g_head g; g_tail := g_tail g; flags := f |}.

(** The ladder that adds a comparator that is not a hyphen range;
    [None] inside when the round is skipped by [continue]. *)
Definition add_comparator (g : Group) (token : Token) (count : Z) (is_or : bool) (r : ParseResult)
    : option (option Group) :=
  if bool_decide (t_op token = TNone) then Some None
  else if (count =? 0) && bool_decide (t_op token = TVersion) then
    match wildcard r with
    | WNone => g' ← group_or_version g (partial_min (version r)); Some (Some g')
    | _ => range ← to_range token (version r); g' ← group_or_range g range; Some (Some g')
    end
  else
    range ← to_range token (version r);
    g' ← (if (count =? 0) then group_and_range g range
          else if is_or then group_or_range g range else group_and_range g range);
    Some (Some g').

(** [Version::parse(sliced.sub(&input[i..]))]. *)
Definition parse_version_at (ss : SlicedString) (i : nat) : option ParseResult :=
  sub ← ss_sub_from ss i; SemverVersion.parse U64_MAX sub.

Definition set_wild (t : Token) (w : Wildcard) : Token := {| t_op := t_op t; t_wildcard := w |}.

(** The part of a round after the token, on the version at [i]. *)
Definition parse_comparator (ss : SlicedString) (i : nat) (tg : TokenTag) (is_or : bool) (s : QLoop)
    : option QLoop :=
  let input := ss_slice ss in
  r ← parse_version_at ss i;
  let g := set_flags (q_list s) (partial_min (version r)) in
  let token := {| t_op := tg; t_wildcard := wildcard r |} in
  let i := (i + Z.to_nat (len r))%nat in
  h ← hyphenate input i;
  match h with
  | Some i =>
    second ← parse_version_at ss i;
    let g := set_flags g (partial_min (version second)) in
    let range := hyphen_range (partial_min (version r)) second in
    g' ← (if is_or then group_or_range g range else group_and_range g range);
    Some {| q_i := i + Z.to_nat (len second) + 1; q_token := set_wild token WNone;
            q_count := q_count s + 1; q_is_or := false; q_list := g' |}
  | None =>
    added ← add_comparator g token (q_count s) is_or r;
    Some (match added with
          | None => {| q_i := S i; q_token := set_wild token WNone; q_count := q_count s;
                       q_is_or := is_or; q_list := g |}
          | Some g' => {| q_i := S i; q_token := set_wild token WNone; q_count := q_count s + 1;
                          q_is_or := false; q_list := g' |}
          end)
  end.

Definition parse_round (ss : SlicedString) (s : QLoop) (c : Z) : option QLoop :=
  let '(i, tg, is_or, skip_round) :=
    scan_token (ss_slice ss) (q_i s) c (t_op (q_token s)) (q_is_or s) in
  if (skip_round : bool) then
    Some {| q_i := i; q_token := {| t_op := tg; t_wildcard := t_wildcard (q_token s) |};
            q_count := q_count s; q_is_or := is_or; q_list := q_list s |}
  else parse_comparator ss i tg is_or s.

Fixpoint parse_rounds (fuel : nat) (ss : SlicedString) (s : QLoop) : option QLoop :=
  match ss_slice ss !! q_i s with
  | None => Some s
  | Some c =>
    match fuel with
    | O => None
    | S fuel => s' ← parse_round ss s c; parse_rounds fuel ss s'
    end
  end.

Definition parse (ss : SlicedString) : option Group :=
  s ← parse_rounds (length (ss_slice ss)) ss
    {| q_i := 0; q_token := {| t_op := TNone; t_wildcard := WNone |}; q_count := 0;
       q_is_or := false; q_list := group_default |};
  Some (q_list s).

(** A query and a version, each a text of its own. *)
Definition satisfies_text {F : ByteSearch} (query text : bytes) : option bool :=
  g ← parse (ss_whole query);
  r ← parse_utf8 U64_MAX text;
  group_satisfies (partial_min (version r)) query text g.

Example caret_1 : satisfies_text b!"^1.2.3 || ~2.0.0-rc.1 || >=3 <4" b!"1.9.0" = Some true /\
  satisfies_text b!"^1.2.3 || ~2.0.0-rc.1 || >=3 <4" b!"2.0.0-rc.2" = Some true /\
  satisfies_text b!"^1.2.3 || ~2.0.0-rc.1 || >=3 <4" b!"3.0.1" = Some true /\
  satisfies_text b!"^1.2.3 || ~2.0.0-rc.1 || >=3 <4" b!"4.0.0" = Some false /\
  satisfies_text b!"1.2.3 - 2.3" b!"2.3.9" = Some true.
Proof. repeat split; reflexivity. Qed.

(** * Chains as lists *)

Section QueryInd.
Context (P : Query -> Prop) (Hone : forall r, P (QNode r None))
        (Hmore : forall r n, P n -> P (QNode r (Some n))).
Fixpoint query_chain_ind (q : Query) : P q :=
  match q with
  | QNode r None => Hone r
  | QNode r (Some n) => Hmore r n (query_chain_ind n)
  end.
End QueryInd.

Section ListInd.
Context (P : QList -> Prop) (Hone : forall h t, P (LNode h t None))
        (Hmore : forall h t n, P n -> P (LNode h t (Some n))).
Fixpoint list_chain_ind (l : QList) : P l :=
  match l with
  | LNode h t None => Hone h t
  | LNode h t (Some n) => Hmore h t n (list_chain_ind n)
  end.
End ListInd.

(** The abstract query: a disjunction of conjunctions of ranges. *)
Fixpoint ranges (q : Query) : list Range :=
  match q with QNode r (Some n) => r :: ranges n | QNode r None => [r] end.

Fixpoint queries (l : QList) : list (list Range) :=
  match l with LNode h _ (Some n) => ranges h :: queries n | LNode h _ None => [ranges h] end.

Definition group_queries (g : Group) : list (list Range) := queries (g_head g).

(** The tails point at the last nodes. *)
Fixpoint lists_ok (l : QList) : Prop :=
  match l with
  | LNode h t (Some n) => t = query_tail h /\ lists_ok n
  | LNode h t None => t = query_tail h
  end.

Definition list_tail (l : QList) : option nat :=
  match l_next l with None => None | Some _ => Some (list_last l) end.

Definition group_ok (g : Group) : Prop :=
  lists_ok (g_head g) /\ g_tail g = list_tail (g_head g).

Lemma query_tail_default q : default O (query_tail q) = query_last q.
Proof. by destruct q as [r [n|]]. Qed.

Lemma list_tail_default l : default O (list_tail l) = list_last l.
Proof. by destruct l as [h t [n|]]. Qed.

Lemma ranges_cons q : exists rs, ranges q = q_range q :: rs.
Proof. destruct q as [r [n|]]; cbn; eauto. Qed.

(** Following the tail pointer appends to the chain. *)
Lemma q_set_next_last q r :
  exists q', q_set_next (query_last q) q (QNode r None) = Some q' /\
    ranges q' = ranges q ++ [r] /\ query_last q' = S (query_last q) /\
    query_tail q' = Some (S (query_last q)).
Proof.
  induction q as [r0|r0 n IH] using query_chain_ind; cbn [query_last q_set_next].
  { by eexists. }
  destruct IH as (q' & -> & Hr & Hl & _). cbn [mbind option_bind]. eexists. split; [done|].
  cbn [ranges query_last]. rewrite Hr, Hl. split; [done|]. split; [done|]. cbn. by rewrite Hl.
Qed.

Definition set_first (qs : list Range) (r : Range) : list Range :=
  match qs with [] => [r] | _ :: rs => r :: rs end.

Definition unset (r : Range) : bool := negb (has_left r) && negb (has_right r).

(** What AND-ing a range does to a conjunction: an unset first range is replaced. *)
Definition and_ranges (rs : list Range) (r : Range) : list Range :=
  match rs with
  | r0 :: rs' => if unset r0 then r :: rs' else rs ++ [r]
  | [] => [r]
  end.

Lemma list_and_range_ok l r :
  l_tail l = query_tail (l_head l) ->
  exists l', list_and_range l r = Some l' /\ ranges (l_head l') = and_ranges (ranges (l_head l)) r /\
    l_next l' = l_next l /\ l_tail l' = query_tail (l_head l').
Proof.
  destruct l as [h t n]. cbn [l_tail l_head l_next]. intros ->. unfold list_and_range.
  change (negb _ && negb _) with (unset (q_range h)).
  destruct (unset (q_range h)) eqn:E.
  - eexists. split; [done|]. cbn [l_head l_next l_tail]. split; [|split; [done|]].
    + destruct h as [r0 [n'|]]; cbn in *; by rewrite E.
    + by destruct h as [r0 [n'|]].
  - rewrite query_tail_default. destruct (q_set_next_last h r) as (h' & -> & Hr & Hl & Ht).
    cbn [mbind option_bind]. eexists. split; [done|]. cbn [l_head l_next l_tail].
    split; [|by rewrite Ht]. rewrite Hr. destruct h as [r0 [n'|]]; cbn in *; by rewrite E.
Qed.

(** An update through the tail pointer of the group reaches the last list. *)
Lemma l_update_last l f :
  lists_ok l ->
  exists h t init, l_tail (LNode h t None) = query_tail h /\ queries l = init ++ [ranges h] /\
    forall l0, f (LNode h t None) = Some l0 -> lists_ok l0 ->
    exists l', l_update (list_last l) l f = Some l' /\ lists_ok l' /\
      queries l' = init ++ queries l0 /\ list_last l' = (list_last l + list_last l0)%nat /\
      (l_next l' = None <-> l_next l = None /\ l_next l0 = None).
Proof.
  induction l as [h t|h t n IH] using list_chain_ind; intros Hok; cbn in Hok.
  - exists h, t, []. split; [done|]. split; [done|]. intros l0 Hf Hl0.
    exists l0. cbn. repeat split; try done; naive_solver.
  - destruct Hok as [Ht Hn]. destruct (IH Hn) as (h1 & t1 & init & Ht1 & Hq & Hup).
    exists h1, t1, (ranges h :: init). split; [done|]. split; [cbn; by rewrite Hq|].
    intros l0 Hf Hl0. destruct (Hup l0 Hf Hl0) as (n' & He & Hok' & Hq' & Hl' & _).
    cbn [list_last l_update]. rewrite He. cbn [mbind option_bind]. eexists. split; [done|].
    cbn [lists_ok queries list_last l_next]. rewrite Hq', Hl'. repeat split; try done. naive_solver.
Qed.

Lemma group_push_ok g h :
  group_ok g -> query_tail h = None ->
  exists g', group_push g (LNode h None None) = Some g' /\ group_ok g' /\
    group_queries g' = group_queries g ++ [ranges h] /\ flags g' = flags g.
Proof.
  intros [Hok Ht] Hh. unfold group_push. rewrite Ht, list_tail_default.
  destruct (l_update_last (g_head g)
    (fun l => Some (LNode (l_head l) (l_tail l) (Some (LNode h None None)))) Hok)
    as (h1 & t1 & init & Ht1 & Hq & Hup).
  destruct (Hup _ eq_refl) as (l' & -> & Hok' & Hq' & Hl' & Hn'); [by split|].
  cbn [mbind option_bind]. eexists. split; [done|]. split; [split|].
  - done.
  - cbn [g_tail g_head]. unfold list_tail.
    destruct (l_next l') eqn:E; [|by destruct Hn' as [[_ [=]] _]].
    rewrite Hl'. cbn. f_equal. lia.
  - split; [|done]. unfold group_queries. cbn [g_head]. rewrite Hq', Hq. cbn [queries l_head].
    by rewrite <- app_assoc.
Qed.

(** The three operations the parser uses, on the abstract query. *)
Lemma group_and_range_ok g r :
  group_ok g ->
  exists g' init last_, group_and_range g r = Some g' /\ group_ok g' /\ flags g' = flags g /\
    group_queries g = init ++ [last_] /\ group_queries g' = init ++ [and_ranges last_ r].
Proof.
  intros [Hok Ht]. unfold group_and_range. rewrite Ht, list_tail_default.
  destruct (l_update_last (g_head g) (fun l => list_and_range l r) Hok)
    as (h1 & t1 & init & Ht1 & Hq & Hup).
  destruct (list_and_range_ok (LNode h1 t1 None) r Ht1) as (l0 & He & Hr0 & Hn0 & Ht0).
  destruct (Hup l0 He) as (l' & -> & Hok' & Hq' & Hl' & Hn').
  { destruct l0 as [h0 t0 n0]. cbn in *. by subst. }
  cbn [mbind option_bind]. eexists _, init, (ranges h1). split; [done|].
  destruct l0 as [h0 t0 n0]. cbn in Hn0, Hr0. subst n0. split; [split|]; [done| |].
  - cbn [group_set_head g_tail g_head]. rewrite Ht. unfold list_tail. rewrite Hl'. cbn [list_last].
    rewrite Nat.add_0_r. destruct (l_next l') eqn:E, (l_next (g_head g)) eqn:E'; try done.
    + naive_solver.
    + naive_solver.
  - split; [done|]. split; [done|]. unfold group_queries. cbn [group_set_head g_head].
    rewrite Hq'. cbn [queries]. by rewrite Hr0.
Qed.

Definition set_head_query (qs : list (list Range)) (r : Range) : list (list Range) :=
  match qs with q :: qs' => set_first q r :: qs' | [] => [[r]] end.

Lemma set_head_range_ok l r :
  lists_ok l -> lists_ok (set_head_range l r) /\ queries (set_head_range l r) = set_head_query (queries l) r /\
  list_tail (set_head_range l r) = list_tail l.
Proof. destruct l as [[r0 [q|]] t [n|]]; cbn; intros H; repeat split; try done; naive_solver. Qed.

Lemma group_set_head_range_ok g r :
  group_ok g -> group_ok (group_set_head g (set_head_range (g_head g) r)) /\
  group_queries (group_set_head g (set_head_range (g_head g) r)) = set_head_query (group_queries g) r.
Proof.
  intros [Hok Ht]. destruct (set_head_range_ok (g_head g) r Hok) as (H1 & H2 & H3).
  split; [split; [done|cbn; by rewrite H3]|done].
Qed.

Lemma group_or_range_ok g r :
  group_ok g ->
  exists g', group_or_range g r = Some g' /\ group_ok g' /\ flags g' = flags g /\
    group_queries g' = if bool_decide (g_tail g = None) && bool_decide (l_tail (g_head g) = None) &&
                          negb (has_left (head_range g))
                       then set_head_query (group_queries g) r else group_queries g ++ [[r]].
Proof.
  intros Hok. unfold group_or_range. fold (head_range g). destruct (_ && _).
  - eexists. split; [done|]. destruct (group_set_head_range_ok g r Hok). done.
  - destruct (group_push_ok g (QNode r None) Hok eq_refl) as (g' & -> & ? & ? & ?). eauto.
Qed.

Lemma group_or_version_ok g v :
  group_ok g ->
  exists g', group_or_version g v = Some g' /\ group_ok g' /\ flags g' = flags g /\
    group_queries g' = if bool_decide (g_tail g = None) && negb (has_left (head_range g))
      then set_head_query (group_queries g)
             {| left_ := {| op := Eql; cversion := v |}; right_ := right_ (head_range g) |}
      else group_queries g ++ [[only_left Eql v]].
Proof.
  intros Hok. unfold group_or_version. fold (head_range g). destruct (_ && _).
  - eexists. split; [done|].
    destruct (group_set_head_range_ok g
      {| left_ := {| op := Eql; cversion := v |}; right_ := right_ (head_range g) |} Hok). done.
  - destruct (group_push_ok g (QNode (only_left Eql v) None) Hok eq_refl) as (g' & -> & ? & ? & ?). eauto.
Qed.

(** * The parser always returns *)

Lemma skip_spaces_bounds input i :
  (i <= length input)%nat -> (i <= skip_spaces input i <= length input)%nat.
Proof. apply skip_while_bounds. Qed.

Lemma next_is_lt input i c : next_is input i c = true -> (i < length input)%nat.
Proof. unfold next_is. destruct (input !! i) eqn:E; [|done]. by apply lookup_lt_Some in E. Qed.

(** Every token but a bare version moves past its first character. *)
Lemma scan_token_bounds input i c tg is_or i' tg' is_or' skip :
  input !! i = Some c -> scan_token input i c tg is_or = (i', tg', is_or', skip) ->
  (i <= i' <= length input)%nat /\ (skip = true -> i < i')%nat.
Proof.
  intros Hc. apply lookup_lt_Some in Hc as Hi. unfold scan_token.
  assert (forall j, (i < j <= length input)%nat -> (i < skip_spaces input j <= length input)%nat) as Hs.
  { intros j Hj. pose proof (skip_spaces_bounds input j ltac:(lia)). lia. }
  assert (forall j tg0 or0 sk, (i < j <= length input)%nat ->
    (skip_spaces input j, tg0, or0, sk) = (i', tg', is_or', skip) ->
    (i <= i' <= length input)%nat /\ (skip = true -> i < i')%nat) as Hgo.
  { intros j tg0 or0 sk Hj [= <- _ _ <-]. specialize (Hs j Hj). split; [lia|]. intros _. lia. }
  assert (forall d, next_is input (S i) d = true -> (S (S i) <= length input)%nat) as Hn
    by (intros d Hd; by apply next_is_lt in Hd).
  destruct (c =? #">").
  { destruct (next_is input (S i) #"=") eqn:E; [apply Hn in E|]; apply Hgo; lia. }
  destruct (c =? #"<").
  { destruct (next_is input (S i) #"=") eqn:E; [apply Hn in E|]; apply Hgo; lia. }
  destruct (_ || _); [apply Hgo; lia|].
  destruct (c =? #"~").
  { cbn zeta. destruct (next_is input (S i) #">") eqn:E; [apply Hn in E|]; apply Hgo; lia. }
  destruct (c =? #"^"); [apply Hgo; lia|].
  destruct (starts_version c); [intros [= <- _ _ <-]; split; [lia|done]|].
  destruct (c =? #"|").
  { pose proof (skip_while_bounds (Z.eqb #"|") input (S i) ltac:(lia)). apply Hgo. lia. }
  destruct (c =? #"-"); [apply Hgo; lia|].
  destruct (is_space c); [apply Hgo; lia|].
  intros [= <- _ _ <-].
  match goal with |- context [skip_while ?p input (S i)] =>
    pose proof (skip_while_bounds p input (S i) ltac:(lia)) end. split; lia.
Qed.

Lemma skip_leading_ok input i :
  (i <= length input)%nat -> exists j, skip_leading input i = Some j /\ (i <= j <= length input)%nat.
Proof.
  intros Hi. unfold skip_leading. rewrite slice_from_ok by done. cbn [mbind option_bind].
  eexists. split; [done|]. unfold length_of_leading_whitespace_ascii.
  pose proof (prefix_len_le (chars_contains WHITESPACE_CHARS) (drop i input)). len.
Qed.

Lemma hyphenate_ok input i :
  (i <= length input)%nat ->
  exists h, hyphenate input i = Some h /\
    (forall j, h = Some j -> i <= j <= length input)%nat.
Proof.
  intros Hi. unfold hyphenate. destruct (_ || _); [|by exists None].
  unfold possibly_hyphenate.
  destruct (skip_leading_ok input i Hi) as (i1 & -> & H1). cbn [mbind option_bind].
  destruct (next_is input i1 #"-") eqn:E; cbn [negb]; [|by exists None]. apply next_is_lt in E.
  destruct (skip_leading_ok input (S i1)) as (i2 & -> & H2); [lia|]. cbn [mbind option_bind].
  destruct (Nat.eqb_spec i2 (length input)); [by exists None|].
  destruct (lookup_lt_is_Some_2 input i2) as [c ->]; [lia|]. cbn [mbind option_bind].
  set (i3 := if _ || _ then S i2 else i2).
  assert (i2 <= i3 <= length input)%nat as H3 by (unfold i3; case_match; lia).
  destruct (Nat.eqb_spec i3 (length input)); [by exists None|].
  destruct (skip_leading_ok input i3) as (i4 & -> & H4); [lia|]. cbn [mbind option_bind].
  destruct (Nat.eqb_spec i4 (length input)); [by exists None|].
  destruct (lookup_lt_is_Some_2 input i4) as [d ->]; [lia|]. cbn [mbind option_bind].
  eexists. split; [done|]. intros j. destruct (starts_version d); [intros [= <-]; lia|done].
Qed.

(** [unreachable!()] is not reached: every pending token has a range. *)
Lemma to_range_some t v : t_op t <> TNone -> is_Some (to_range t v).
Proof.
  intros Hne. unfold to_range. destruct (t_op t) eqn:Et; try done; try (by eauto);
    try (by destruct (t_wildcard t); cbn; eauto).
Qed.

Lemma core_version_ok buf M m p : version_ok buf (core_version M m p).
Proof. by split. Qed.

Lemma partial_min_ok buf v : tag_ok buf (ptag v) -> version_ok buf (partial_min v).
Proof. done. Qed.

Lemma range_default_ok buf : range_ok buf range_default.
Proof. by repeat split. Qed.

Lemma to_range_ok buf t v r :
  tag_ok buf (ptag v) -> to_range t v = Some r -> range_ok buf r.
Proof.
  intros Hv. pose proof (core_version_ok buf) as Hc. pose proof (partial_min_ok buf v Hv) as Hm.
  assert (forall w, version_ok buf (with_tag w (ptag v))) as Hw by done.
  unfold to_range, caret_range, tilda_range, init_wildcard.
  repeat case_match; intros; simplify_option_eq; try done; by (split; cbn; auto).
Qed.

Lemma hyphen_range_ok buf v second :
  version_ok buf v -> tag_ok buf (ptag (version second)) -> range_ok buf (hyphen_range v second).
Proof. intros Hv Hs. unfold hyphen_range. destruct (wildcard second); by split. Qed.

(** What the loop maintains: the tail pointers, and ranges with sound handles. *)
Definition all_ranges (P : Range -> Prop) (g : Group) : Prop := Forall (Forall P) (group_queries g).

Definition qloop_ok (ss : SlicedString) (g : Group) : Prop :=
  group_ok g /\ (ss_ok ss -> all_ranges (range_ok (ss_buf ss)) g).

Lemma set_flags_ok ss g v : qloop_ok ss g -> qloop_ok ss (set_flags g v).
Proof. done. Qed.

Lemma set_head_query_all (P : Range -> Prop) qs r :
  P r -> Forall (Forall P) qs -> Forall (Forall P) (set_head_query qs r).
Proof.
  intros Hr H. destruct H as [|q qs Hq Hqs]; [by apply Forall_singleton, Forall_singleton|].
  apply Forall_cons; split; [|done]. destruct Hq; [by apply Forall_singleton|by apply Forall_cons].
Qed.

Lemma and_ranges_all (P : Range -> Prop) rs r :
  P r -> Forall P rs -> Forall P (and_ranges rs r).
Proof.
  intros Hr H. unfold and_ranges. destruct H as [|r0 rs Hr0 Hrs]; [by apply Forall_singleton|].
  destruct (unset r0); [by apply Forall_cons|].
  apply Forall_app; split; [by apply Forall_cons|by apply Forall_singleton].
Qed.

Lemma group_ops_ok ss g r :
  qloop_ok ss g -> (ss_ok ss -> range_ok (ss_buf ss) r) ->
  (exists g', group_and_range g r = Some g' /\ qloop_ok ss g') /\
  (exists g', group_or_range g r = Some g' /\ qloop_ok ss g').
Proof.
  intros [Hg Hall] Hr. split.
  - destruct (group_and_range_ok g r Hg) as (g' & init & last_ & He & Hg' & _ & Hq & Hq').
    exists g'. split; [done|]. split; [done|]. intros Hok. specialize (Hall Hok). specialize (Hr Hok).
    unfold all_ranges in *. rewrite Hq in Hall. rewrite Hq'. apply Forall_app in Hall as [Hi Hl].
    apply Forall_app. split; [done|]. apply Forall_singleton.
    apply and_ranges_all; [done|]. by apply Forall_inv in Hl.
  - destruct (group_or_range_ok g r Hg) as (g' & He & Hg' & _ & Hq).
    exists g'. split; [done|]. split; [done|]. intros Hok. unfold all_ranges. rewrite Hq.
    destruct (_ && _); [apply set_head_query_all; [by apply Hr|by apply Hall]|].
    apply Forall_app. split; [by apply Hall|].
    apply Forall_singleton, Forall_singleton. auto.
Qed.

Lemma head_range_all (P : Range -> Prop) g : all_ranges P g -> P (head_range g).
Proof.
  unfold all_ranges, group_queries, head_range. destruct (g_head g) as [h t [n|]]; cbn; intros H;
    apply Forall_cons in H as [H _]; destruct (ranges_cons h) as [rs Hrs]; rewrite Hrs in H;
    by apply Forall_cons in H as [H _].
Qed.

Lemma group_or_version_total ss g v :
  qloop_ok ss g -> (ss_ok ss -> version_ok (ss_buf ss) v) ->
  exists g', group_or_version g v = Some g' /\ qloop_ok ss g'.
Proof.
  intros [Hg Hall] Hv. destruct (group_or_version_ok g v Hg) as (g' & He & Hg' & _ & Hq).
  exists g'. split; [done|]. split; [done|]. intros Hok. unfold all_ranges. rewrite Hq.
  specialize (Hall Hok). specialize (Hv Hok). destruct (_ && _).
  - apply set_head_query_all; [|done]. split; [done|].
    apply (head_range_all _ _ Hall).
  - apply Forall_app. split; [done|]. by apply Forall_singleton, Forall_singleton.
Qed.

Section ParseTotal.
Context (ss : SlicedString) (Hlen : Z.of_nat (length (ss_slice ss)) <= U32_MAX).

Lemma parse_version_at_ok i :
  (i <= length (ss_slice ss))%nat ->
  exists r, parse_version_at ss i = Some r /\
    (i + Z.to_nat (len r) <= length (ss_slice ss))%nat /\
    (ss_ok ss -> tag_ok (ss_buf ss) (ptag (version r))).
Proof.
  intros Hi. unfold parse_version_at. destruct (ss_sub_from_some ss i Hi) as [-> Hok].
  cbn [mbind option_bind].
  assert (length (ss_slice (sub_at ss i)) = (length (ss_slice ss) - i)%nat) as Hl by (cbn; len).
  destruct (parse_ok U64_MAX (sub_at ss i)) as (r & -> & Hr & Ht); [rewrite Hl; lia|].
  exists r. split; [done|]. split; [lia|]. intros Hs. by apply Ht, Hok.
Qed.

Lemma add_comparator_ok g token count is_or r :
  qloop_ok ss g -> (ss_ok ss -> tag_ok (ss_buf ss) (ptag (version r))) ->
  exists a, add_comparator g token count is_or r = Some a /\
    forall g', a = Some g' -> qloop_ok ss g'.
Proof.
  intros Hg Ht. unfold add_comparator. case_bool_decide as Hn; [by exists None|].
  destruct (to_range_some token (version r) Hn) as [range Hrange].
  assert (ss_ok ss -> range_ok (ss_buf ss) range) as Hr.
  { intros Hok. eapply to_range_ok; [by apply Ht|done]. }
  destruct (group_ops_ok ss g range Hg Hr) as [(ga & Ha & Hga) (go & Ho & Hgo)].
  rewrite Hrange. cbn [mbind option_bind]. rewrite Ha, Ho. cbn [mbind option_bind].
  destruct (_ && _).
  - destruct (wildcard r); try (by eexists; split; [done|]; intros ? [= <-]).
    destruct (group_or_version_total ss g (partial_min (version r)) Hg Ht) as (gv & -> & Hgv).
    cbn [mbind option_bind]. eexists; split; [done|]; by intros ? [= <-].
  - destruct (count =? 0), is_or; cbn [mbind option_bind];
      (eexists; split; [done|]; by intros ? [= <-]).
Qed.

Lemma parse_comparator_ok i tg is_or s :
  (i <= length (ss_slice ss))%nat -> qloop_ok ss (q_list s) ->
  exists s', parse_comparator ss i tg is_or s = Some s' /\ (i < q_i s')%nat /\ qloop_ok ss (q_list s').
Proof.
  intros Hi Hg. unfold parse_comparator.
  destruct (parse_version_at_ok i Hi) as (r & -> & Hr & Ht). cbn [mbind option_bind].
  set (g := set_flags _ _). set (token := {| t_op := tg; t_wildcard := wildcard r |}).
  assert (qloop_ok ss g) as Hg1 by done.
  destruct (hyphenate_ok (ss_slice ss) (i + Z.to_nat (len r)) Hr) as (h & -> & Hh).
  cbn [mbind option_bind]. destruct h as [j|].
  - specialize (Hh j eq_refl). destruct (parse_version_at_ok j ltac:(lia)) as (sec & -> & Hs & Hst).
    cbn [mbind option_bind]. set (g2 := set_flags g _). assert (qloop_ok ss g2) as Hg2 by done.
    destruct (group_ops_ok ss g2 (hyphen_range (partial_min (version r)) sec) Hg2)
      as [(ga & Ha & Hga) (go & Ho & Hgo)].
    { intros Hok. apply hyphen_range_ok; [by apply Ht|by apply Hst]. }
    rewrite Ha, Ho. destruct is_or; cbn [mbind option_bind];
      (eexists; split; [done|]; cbn [q_i q_list]; split; [lia|done]).
  - destruct (add_comparator_ok g token (q_count s) is_or r Hg1 Ht) as (a & -> & Ha).
    cbn [mbind option_bind]. destruct a as [g'|];
      (eexists; split; [done|]; cbn [q_i q_list]; split; [lia|auto]).
Qed.

Lemma parse_rounds_ok fuel s :
  (length (ss_slice ss) - q_i s <= fuel)%nat -> qloop_ok ss (q_list s) ->
  exists s', parse_rounds fuel ss s = Some s' /\ qloop_ok ss (q_list s').
Proof.
  revert s. induction fuel as [|fuel IH]; intros s Hf Hg; cbn [parse_rounds];
    (destruct (ss_slice ss !! q_i s) as [c|] eqn:Hc; [|by eauto]); apply lookup_lt_Some in Hc as Hi; [lia|].
  assert (exists s', parse_round ss s c = Some s' /\ (q_i s < q_i s')%nat /\ qloop_ok ss (q_list s'))
    as (s' & -> & Hlt & Hg').
  { unfold parse_round. destruct (scan_token _ _ _ _ _) as [[[i tg] is_or] skip] eqn:Es.
    destruct (scan_token_bounds _ _ _ _ _ _ _ _ _ Hc Es) as [Hb Hsk]. destruct skip.
    - eexists. split; [done|]. cbn [q_i q_list]. split; [by apply Hsk|done].
    - destruct (parse_comparator_ok i tg is_or s ltac:(lia) Hg) as (s' & -> & Hlt & Hg').
      eexists. split; [done|]. split; [lia|done]. }
  cbn [mbind option_bind]. apply IH; [lia|done].
Qed.

Lemma query_parse_ok :
  exists g, parse ss = Some g /\ group_ok g /\ (ss_ok ss -> all_ranges (range_ok (ss_buf ss)) g).
Proof.
  unfold parse. set (s0 := {| q_i := 0 |}).
  destruct (parse_rounds_ok (length (ss_slice ss)) s0) as (s & -> & Hg & Hall).
  - cbn. lia.
  - split; [done|]. intros _. apply Forall_singleton, Forall_singleton, range_default_ok.
  - cbn [mbind option_bind]. by exists (q_list s).
Qed.
End ParseTotal.

(** * Evaluation against the abstract query *)

Section EvaluateFacts.
Context {F : ByteSearch} {Fok : ByteSearchOk F} (rbuf vbuf : bytes) (v : VersionType)
        (Hv : version_ok vbuf v).
Notation ok := (range_ok rbuf).
Notation admits r := (range_admits r rbuf (view vbuf v)).

Lemma query_satisfies_ok q :
  Forall ok (ranges q) ->
  exists b, query_satisfies v rbuf vbuf q = Some b /\
    (b = true <-> Forall (fun r => admits r) (ranges q)).
Proof.
  induction q as [r|r n IH] using query_chain_ind; cbn [ranges query_satisfies]; intros Hall;
    apply Forall_cons in Hall as [Hr Hn];
    destruct (range_satisfies_ok rbuf vbuf v Hv r Hr) as (b & -> & Hb); cbn [mbind option_bind].
  - destruct b; cbn [negb]; (eexists; split; [done|]); rewrite Forall_singleton; naive_solver.
  - destruct b; cbn [negb].
    + destruct (IH Hn) as (b' & -> & Hb'). eexists; split; [done|]. rewrite Forall_cons. naive_solver.
    + eexists; split; [done|]. rewrite Forall_cons. naive_solver.
Qed.

Lemma query_satisfies_pre_ok q pm :
  Forall ok (ranges q) ->
  exists b pm', query_satisfies_pre v rbuf vbuf q pm = Some (b, pm') /\
    (b = true <-> Forall (fun r => admits r) (ranges q)) /\
    (b = true -> (pm' = true <-> pm = true \/ Exists (pins_core v) (ranges q))).
Proof.
  revert pm. induction q as [r|r n IH] using query_chain_ind; cbn [ranges query_satisfies_pre];
    intros pm Hall; apply Forall_cons in Hall as [Hr Hn];
    destruct (range_satisfies_pre_ok rbuf vbuf v Hv r pm Hr) as (b & pm1 & -> & Hb & Hpm);
    cbn [mbind option_bind].
  - destruct b; cbn [negb]; (eexists _, _; split; [done|]); rewrite Forall_singleton, Exists_cons, Exists_nil;
      naive_solver.
  - destruct b; cbn [negb].
    + destruct (IH pm1 Hn) as (b' & pm' & -> & Hb' & Hpm'). eexists _, _; split; [done|].
      rewrite Forall_cons, Exists_cons. naive_solver.
    + eexists _, _; split; [done|]. rewrite Forall_cons. naive_solver.
Qed.

(** The specification: some conjunction admits the version; a prerelease
    also needs one of its ranges to name a prerelease of the same core. *)
Definition query_admits (qs : list (list Range)) : Prop :=
  Exists (fun rs => Forall (fun r => admits r) rs /\
    (has_pre (tag v) = true -> Exists (pins_core v) rs)) qs.

Lemma list_satisfies_ok l :
  Forall (Forall ok) (queries l) ->
  exists b, list_satisfies v rbuf vbuf l = Some b /\
    (b = true <-> Exists (Forall (fun r => admits r)) (queries l)).
Proof.
  induction l as [h t|h t n IH] using list_chain_ind; cbn [queries list_satisfies]; intros Hall;
    apply Forall_cons in Hall as [Hh Hn];
    destruct (query_satisfies_ok h Hh) as (b & -> & Hb); cbn [mbind option_bind];
    (destruct b; [eexists; split; [done|]; rewrite Exists_cons; naive_solver|]).
  - eexists; split; [done|]. rewrite Exists_cons, Exists_nil. naive_solver.
  - destruct (IH Hn) as (b' & -> & Hb'). eexists; split; [done|]. rewrite Exists_cons. naive_solver.
Qed.

Lemma list_satisfies_pre_ok l :
  Forall (Forall ok) (queries l) ->
  exists b, list_satisfies_pre v rbuf vbuf l = Some b /\
    (b = true <-> Exists (fun rs => Forall (fun r => admits r) rs /\ Exists (pins_core v) rs) (queries l)).
Proof.
  induction l as [h t|h t n IH] using list_chain_ind; cbn [queries list_satisfies_pre]; intros Hall;
    apply Forall_cons in Hall as [Hh Hn];
    destruct (query_satisfies_pre_ok h false Hh) as (b & pm & -> & Hb & Hpm); cbn [mbind option_bind];
    (destruct (b && pm) eqn:E; [eexists; split; [done|]; rewrite Exists_cons|]).
  - apply andb_true_iff in E as [-> ->]. naive_solver.
  - eexists; split; [done|]. rewrite Exists_cons, Exists_nil. split; [done|].
    intros [[Ha Hp]|[]]. apply Hb in Ha. subst b. rewrite (proj2 (Hpm eq_refl)) in E by auto. done.
  - apply andb_true_iff in E as [-> ->]. naive_solver.
  - destruct (IH Hn) as (b' & -> & Hb'). eexists; split; [done|]. rewrite Exists_cons, Hb'. split; [auto|].
    intros [[Ha Hp]|]; [|done]. apply Hb in Ha. subst b. rewrite (proj2 (Hpm eq_refl)) in E by auto. done.
Qed.

Lemma group_satisfies_ok g :
  all_ranges ok g ->
  exists b, group_satisfies v rbuf vbuf g = Some b /\ (b = true <-> query_admits (group_queries g)).
Proof.
  intros Hall. unfold group_satisfies, query_admits. destruct (has_pre (tag v)).
  - destruct (list_satisfies_pre_ok (g_head g) Hall) as (b & -> & Hb). exists b. split; [done|].
    rewrite Hb. unfold group_queries. rewrite !Exists_exists. naive_solver.
  - destruct (list_satisfies_ok (g_head g) Hall) as (b & -> & Hb). exists b. split; [done|].
    rewrite Hb. unfold group_queries. rewrite !Exists_exists. naive_solver.
Qed.
End EvaluateFacts.

(** * What the range tokens mean for releases *)

Section ReleaseFacts.
Context (buf : bytes) (v : View) (Hrel : v_pre v = [])
        (Hv : 0 <= v_major v /\ 0 <= v_minor v /\ 0 <= v_patch v).

Definition lex (c : VersionType) : comparison :=
  ordering_then (v_major v ?= major c)
    (ordering_then (v_minor v ?= minor c) (v_patch v ?= patch c)).

(** A release is compared by its core, and is above a prerelease of its core. *)
Lemma precedence_release c :
  precedence v (view buf c) =
  match lex c with Eq => if no_pre (view buf c) then Eq else Gt | o => o end.
Proof.
  unfold precedence, core_compare, compare_then, compare_on, lex.
  cbn [view v_major v_minor v_patch]. assert (no_pre v = true) as -> by by apply bool_decide_eq_true_2.
  destruct (v_major v ?= major c); cbn; try done. destruct (v_minor v ?= minor c); cbn; try done.
  destruct (v_patch v ?= patch c); cbn; try done. fold (view buf c).
  destruct (no_pre (view buf c)) eqn:E; cbn; [|done].
  apply bool_decide_eq_true_1 in E. unfold idents. cbn [view v_pre] in *. by rewrite Hrel, E.
Qed.

Lemma no_pre_core M m p : no_pre (view buf (core_version M m p)) = true.
Proof. done. Qed.

(** The comparators as inequalities on the core numbers. *)
Lemma release_gte c :
  comparator_admits {| op := Gte; cversion := c |} buf v <->
  major c < v_major v \/ major c = v_major v /\
    (minor c < v_minor v \/ minor c = v_minor v /\ patch c <= v_patch v).
Proof.
  unfold comparator_admits, op_holds. cbn [op cversion]. rewrite precedence_release. unfold lex.
  destruct (Z.compare_spec (v_major v) (major c)), (Z.compare_spec (v_minor v) (minor c)),
    (Z.compare_spec (v_patch v) (patch c)); cbn; try (split; [lia|done]);
    try (split; [done|lia]); destruct (no_pre _); split; done || lia.
Qed.

Lemma release_core o M m p :
  comparator_admits {| op := o; cversion := core_version M m p |} buf v <->
  op_holds o (lex (core_version M m p)).
Proof.
  unfold comparator_admits. cbn [op cversion]. rewrite precedence_release, no_pre_core.
  by destruct (lex _).
Qed.

Lemma release_lt M m p :
  comparator_admits {| op := Lt_; cversion := core_version M m p |} buf v <->
  v_major v < M \/ v_major v = M /\ (v_minor v < m \/ v_minor v = m /\ v_patch v < p).
Proof.
  rewrite release_core. unfold op_holds, lex. cbn [major minor patch core_version].
  destruct (Z.compare_spec (v_major v) M), (Z.compare_spec (v_minor v) m),
    (Z.compare_spec (v_patch v) p); cbn; split; done || lia.
Qed.

Lemma admits_gte_lt lo M m p :
  range_admits (gte_lt lo (core_version M m p)) buf v <->
  (major lo < v_major v \/ major lo = v_major v /\
    (minor lo < v_minor v \/ minor lo = v_minor v /\ patch lo <= v_patch v)) /\
  (v_major v < M \/ v_major v = M /\ (v_minor v < m \/ v_minor v = m /\ v_patch v < p)).
Proof.
  rewrite <- release_gte, <- release_lt. unfold range_admits, gte_lt, has_left, has_right. cbn.
  naive_solver.
Qed.

Lemma admits_only_left o c :
  o <> Unset -> range_admits (only_left o c) buf v <-> comparator_admits {| op := o; cversion := c |} buf v.
Proof.
  intros Ho. unfold range_admits, only_left, has_left, has_right. cbn.
  rewrite bool_decide_eq_false_2 by done. cbn. naive_solver.
Qed.

Lemma succ_small x : 0 <= x < U64_MAX -> saturating_add1 x = x + 1.
Proof. intros. unfold saturating_add1, saturating_succ64. lia. Qed.

(** The numbers of a partial version are below the maximum. *)
Definition partial_small (p : Partial) : Prop :=
  forall x, pmajor p = Some x \/ pminor p = Some x \/ ppatch p = Some x -> 0 <= x < U64_MAX.

(** [^M.m.p]: at least it, and no change of the leftmost nonzero component. *)
Definition caret_admits (p : Partial) : Prop :=
  match pmajor p, pminor p, ppatch p with
  | None, _, _ => True
  | Some M, None, _ => v_major v = M
  | Some M, Some m, None => v_major v = M /\ m <= v_minor v /\ (M = 0 -> v_minor v = m)
  | Some M, Some m, Some p =>
    v_major v = M /\ (m < v_minor v \/ m = v_minor v /\ p <= v_patch v) /\
    (M = 0 -> v_minor v = m /\ (m = 0 -> v_patch v = p))
  end.

(** [~M.m.p]: at least it, and only the patch changes (the minor for [~M]). *)
Definition tilda_admits (p : Partial) : Prop :=
  match pmajor p, pminor p, ppatch p with
  | None, _, _ => True
  | Some M, None, _ => v_major v = M
  | Some M, Some m, None => v_major v = M /\ v_minor v = m
  | Some M, Some m, Some p => v_major v = M /\ v_minor v = m /\ p <= v_patch v
  end.

Lemma caret_tilda_ok p :
  partial_small p ->
  (range_admits (caret_range p) buf v <-> caret_admits p) /\
  (range_admits (tilda_range p) buf v <-> tilda_admits p).
Proof.
  intros Hs. unfold caret_range, caret_admits, tilda_range, tilda_admits, partial_small in *.
  destruct p as [[M|] [m|] [n|] t]; cbn [pmajor pminor ppatch ptag] in *;
    try (split; (split; [done|by intros _ ?])).
  all: pose proof (Hs M ltac:(auto)); try pose proof (Hs m ltac:(auto));
    try pose proof (Hs n ltac:(auto)); rewrite ?succ_small by lia; split.
  all: repeat match goal with |- context [?x =? 0] => destruct (Z.eqb_spec x 0) end.
  all: rewrite admits_gte_lt; cbn [major minor patch with_tag core_version]; lia.
Qed.

(** Ranges with missing components, and comparisons against them. *)
Definition truncated (w : Wildcard) (p : Partial) : comparison :=
  let M := default 0 (pmajor p) in
  let m := default 0 (pminor p) in
  match w with
  | WMajor => Eq
  | WMinor => v_major v ?= M
  | WPatch => ordering_then (v_major v ?= M) (v_minor v ?= m)
  | WNone => precedence v (view buf (partial_min p))
  end.

Definition token_op (t : TokenTag) : Op :=
  match t with TGt => Gt_ | TGte => Gte | TLt => Lt_ | TLte => Lte | _ => Eql end.

(** The token is a comparison and the wildcard leaves nothing to compare. *)
Definition unbounded (t : Token) : bool :=
  negb (bool_decide (t_op t = TVersion)) && bool_decide (t_wildcard t = WMajor).

Lemma lex_max M m :
  v_major v <= U64_MAX /\ v_minor v <= U64_MAX /\ v_patch v <= U64_MAX ->
  (op_holds Lte (lex (core_version M U64_MAX U64_MAX)) <-> op_holds Lte (v_major v ?= M)) /\
  (op_holds Gt_ (lex (core_version M U64_MAX U64_MAX)) <-> op_holds Gt_ (v_major v ?= M)) /\
  (op_holds Lt_ (lex (core_version M 0 0)) <-> op_holds Lt_ (v_major v ?= M)) /\
  (op_holds Gte (lex (core_version M 0 0)) <-> op_holds Gte (v_major v ?= M)) /\
  let mid := ordering_then (v_major v ?= M) (v_minor v ?= m) in
  (op_holds Lte (lex (core_version M m U64_MAX)) <-> op_holds Lte mid) /\
  (op_holds Gt_ (lex (core_version M m U64_MAX)) <-> op_holds Gt_ mid) /\
  (op_holds Lt_ (lex (core_version M m 0)) <-> op_holds Lt_ mid) /\
  (op_holds Gte (lex (core_version M m 0)) <-> op_holds Gte mid) /\
  op_holds Lte (lex (core_version U64_MAX U64_MAX U64_MAX)).
Proof.
  intros Hb. unfold lex, op_holds. cbn [major minor patch core_version].
  repeat split; repeat match goal with |- context [?a ?= ?b] => destruct (Z.compare_spec a b) end;
    cbn; done || lia.
Qed.

Lemma init_wildcard_admits p w :
  partial_small p ->
  range_admits (init_wildcard (partial_min p) w) buf v <-> op_holds Eql (truncated w p).
Proof.
  intros Hs. unfold partial_small in Hs.
  assert (0 <= default 0 (pmajor p) < U64_MAX /\ 0 <= default 0 (pminor p) < U64_MAX) as [HM Hm].
  { split; [destruct (pmajor p) eqn:E|destruct (pminor p) eqn:E]; cbn;
      try (apply Hs; auto; fail); unfold U64_MAX; lia. }
  destruct w; unfold init_wildcard, truncated.
  - by rewrite admits_only_left.
  - rewrite admits_only_left by done. split; [done|]. intros _.
    apply release_gte. cbn. lia.
  - unfold range_admits, has_left, has_right. cbn [op left_ right_ major partial_min].
    rewrite !bool_decide_eq_false_2 by done. cbn [negb op_holds].
    rewrite release_lt, release_gte, succ_small by done. cbn [major minor patch core_version].
    rewrite Z.compare_eq_iff. intuition lia.
  - unfold range_admits, has_left, has_right. cbn [op left_ right_ major minor partial_min].
    rewrite !bool_decide_eq_false_2 by done. cbn [negb op_holds].
    rewrite release_lt, release_gte, succ_small by done. cbn [major minor patch core_version].
    destruct (Z.compare_spec (v_major v) (default 0 (pmajor p))),
      (Z.compare_spec (v_minor v) (default 0 (pminor p))); cbn; intuition (done || lia).
Qed.

Lemma to_range_admits t p r :
  partial_small p -> v_major v <= U64_MAX /\ v_minor v <= U64_MAX /\ v_patch v <= U64_MAX ->
  t_op t <> TNone -> t_op t <> TCaret -> t_op t <> TTilda -> to_range t p = Some r ->
  range_admits r buf v <->
  if unbounded t then comparator_admits {| op := Gte; cversion := partial_min p |} buf v
  else op_holds (token_op (t_op t)) (truncated (t_wildcard t) p).
Proof.
  intros Hs Hb H0 H1 H2 Hr.
  pose proof (lex_max (default 0 (pmajor p)) (default 0 (pminor p)) Hb)
    as (L1 & L2 & L3 & L4 & L5 & L6 & L7 & L8 & L9). cbn zeta in *.
  destruct t as [tg w]. unfold to_range, unbounded in *. cbn [t_op t_wildcard] in *.
  destruct tg; try done.
  5: { rewrite (bool_decide_eq_true_2 (TVersion = TVersion)) by done. cbn [negb andb token_op].
       case_bool_decide as Hw; injection Hr as <-; [subst w|by apply init_wildcard_admits].
       by rewrite admits_only_left. }
  all: rewrite bool_decide_eq_false_2 by done; cbn [negb andb];
    case_bool_decide as Hw;
    [|destruct w; try done; cbn in Hr; injection Hr as <-;
      rewrite admits_only_left by done; cbn [token_op truncated];
      first [done|rewrite release_core; done]].
  all: subst w; cbn in Hr; injection Hr as <-;
    unfold range_admits, has_left, has_right; cbn [op left_ right_];
    rewrite !bool_decide_eq_false_2 by done; cbn [negb];
    rewrite (release_core Lte); naive_solver.
Qed.
End ReleaseFacts.

(** * The text of a query *)

(** A comparator: an operator before a full version; [=] may be left out. *)
Record CText := { ct_op : TokenTag; ct_bare : bool; ct_major : Z; ct_minor : Z; ct_patch : Z;
                  ct_pre : bytes; ct_build : bytes }.

Definition op_text (c : CText) : bytes :=
  match ct_op c with
  | TGt => b!">" | TGte => b!">=" | TLt => b!"<" | TLte => b!"<="
  | TTilda => b!"~" | TCaret => b!"^"
  | TVersion => if ct_bare c then [] else b!"="
  | TNone => []
  end.

(** A version without an operator, or with [=]. *)
Definition is_version (c : CText) : bool := bool_decide (ct_op c = TVersion).

Definition ct_ok (c : CText) : Prop :=
  ct_op c <> TNone /\ 0 <= ct_major c < U64_MAX /\ 0 <= ct_minor c < U64_MAX /\
  0 <= ct_patch c < U64_MAX /\ pre_text (ct_pre c) /\ build_text (ct_build c).

Definition ct_version (c : CText) : bytes :=
  version_text (ct_major c) (ct_minor c) (ct_patch c) (ct_pre c) (ct_build c).
Definition comp_text (c : CText) : bytes := op_text c ++ ct_version c.

(** What follows a comparator: the next one of the conjunction, or of the next. *)
Fixpoint rest_text (l : list (bool * CText)) : bytes :=
  match l with
  | [] => []
  | (is_or, c) :: l => (if is_or : bool then b!" || " else b!" ") ++ comp_text c ++ rest_text l
  end.

(** [a b || c d || ...]; the first separator is not written. *)
Definition query_text (l : list (bool * CText)) : bytes :=
  match l with
  | (_, c) :: l => comp_text c ++ rest_text l
  | [] => []
  end.

(** The conjunctions, built a comparator at a time: a comparator after [||]
    starts one, and so does a bare version or one with [=], whatever is before
    it; any other one belongs to the last. *)
Definition add_item {A} (qs : list (list A)) (starts : bool) (r : A) : list (list A) :=
  if starts then qs ++ [[r]]
  else match last qs with Some q => removelast qs ++ [q ++ [r]] | None => [[r]] end.

Definition starts_conjunction (i : bool * CText) : bool := i.1 || is_version i.2.

Definition conjunctions (l : list (bool * CText)) : list (list CText) :=
  foldl (fun qs i => add_item qs (starts_conjunction i) i.2) [] l.

(** The range [r] is the one the comparator [c] denotes, its tags read in [buf]. *)
Definition ct_partial (c : CText) (t : Tag) : Partial :=
  {| pmajor := Some (ct_major c); pminor := Some (ct_minor c); ppatch := Some (ct_patch c); ptag := t |}.

Definition ct_means (ss : SlicedString) (c : CText) (r : Range) : Prop :=
  exists t, to_range {| t_op := ct_op c; t_wildcard := WNone |} (ct_partial c t) = Some r /\
    (ss_ok ss -> tag_ok (ss_buf ss) t /\ external_slice (pre t) (ss_buf ss) = ct_pre c /\
       external_slice (build t) (ss_buf ss) = ct_build c).

Lemma ct_means_set ss c r : ct_means ss c r -> has_left r = true.
Proof.
  intros (t & H & _). unfold to_range, caret_range, tilda_range, init_wildcard in H.
  destruct (ct_op c); cbn in H; try done; repeat case_match; by simplify_eq.
Qed.

Lemma ct_version_head c rest : exists d l, ct_version c ++ rest = d :: l /\ is_ascii_digit d = true.
Proof.
  unfold ct_version, version_text, core_text. rewrite <- !app_assoc. apply decimal_head.
Qed.

Lemma digit_not_space d : is_ascii_digit d = true -> is_whitespace d = false /\ d <> #"-".
Proof.
  intros Hd%digit_range. split; [|lia]. unfold is_whitespace, chars_contains, WHITESPACE_CHARS. cbn [existsb]. lia.
Qed.

Lemma comp_head c rest : ct_op c <> TNone ->
  exists o l, comp_text c ++ rest = o :: l /\ is_whitespace o = false /\ o <> #"-".
Proof.
  intros H. destruct (ct_version_head c rest) as (d & l & Hd & Hdig%digit_not_space).
  unfold comp_text, op_text. destruct (ct_op c); try done; try (eexists _, _; split; [done|]; by split).
  destruct (ct_bare c); [|eexists _, _; split; [done|]; by split]. cbn [app]. rewrite Hd. by eexists _, _.
Qed.

(** The end of a comparator: the input ends, or a space and no hyphen follow. *)
Definition comp_rest (rest : bytes) : Prop :=
  rest = [] \/ exists c l, rest = #" " :: c :: l /\ is_whitespace c = false /\ c <> #"-".

Lemma rest_text_comp l : Forall (fun i => ct_ok (snd i)) l -> comp_rest (rest_text l).
Proof.
  intros H. destruct H as [|[is_or c] l [Hc _] _]; [by left|right]. cbn [rest_text].
  destruct is_or; [by eexists _, _|].
  destruct (comp_head c (rest_text l) Hc) as (d & k & -> & Hd). by eexists d, _.
Qed.

Lemma comp_rest_stops rest : comp_rest rest -> stops rest.
Proof. intros [->|(c & l & -> & _)]; [by left|right; eauto]. Qed.

Lemma next_is_app a r c : next_is (a ++ r) (length a) c = match head r with Some d => d =? c | None => false end.
Proof.
  unfold next_is. rewrite lookup_app_r, Nat.sub_diag by lia. by destruct r.
Qed.

Lemma hyphenate_comp a rest : comp_rest rest -> hyphenate (a ++ rest) (length a) = Some None.
Proof.
  intros Hr. unfold hyphenate. rewrite !next_is_app.
  destruct Hr as [->|(c & l & -> & Hw & Hc)]; [done|]. cbn [head Z.eqb Pos.eqb orb].
  unfold possibly_hyphenate, skip_leading. rewrite slice_from_ok by len. cbn [mbind option_bind].
  rewrite drop_app_length. unfold length_of_leading_whitespace_ascii.
  assert (prefix_len (chars_contains WHITESPACE_CHARS) (#" " :: c :: l) = 1%nat) as ->.
  { cbn [prefix_len]. unfold is_whitespace in Hw. by rewrite Hw. }
  assert (next_is (a ++ #" " :: c :: l) (length a + 1) #"-" = false) as ->; [|done].
  assert (a ++ #" " :: c :: l = (a ++ [ #" "]) ++ c :: l) as -> by (by rewrite <- app_assoc).
  replace (length a + 1)%nat with (length (a ++ [ #" "])) by (rewrite length_app; cbn; lia).
  rewrite next_is_app. cbn. lia.
Qed.

(** The operator is scanned up to the version after it. *)
Lemma scan_comp a c rest tg is_or o l :
  ct_ok c -> comp_text c ++ rest = o :: l ->
  scan_token (a ++ comp_text c ++ rest) (length a) o tg is_or =
  (length (a ++ op_text c), ct_op c, is_or || is_version c, false).
Proof.
  intros [Hop _] Ho. destruct (ct_version_head c rest) as (d & k & Hd & Hdig).
  apply digit_range in Hdig as Hr.
  assert (forall i, i = length (a ++ op_text c) ->
    skip_spaces (a ++ comp_text c ++ rest) i = i) as Hsk.
  { intros i ->. unfold skip_spaces, skip_while, comp_text. rewrite <- app_assoc, app_assoc.
    rewrite drop_app_length, Hd, prefix_len_stop_cons; [lia|]. unfold is_space. lia. }
  assert (forall e, next_is (a ++ comp_text c ++ rest) (S (length a)) e =
    match l with x :: _ => x =? e | [] => false end) as Hn.
  { intros e. rewrite Ho. assert (a ++ o :: l = (a ++ [o]) ++ l) as -> by (by rewrite <- app_assoc).
    replace (S (length a)) with (length (a ++ [o])) by (rewrite length_app; cbn; lia).
    rewrite next_is_app. by destruct l. }
  unfold scan_token. rewrite !Hn. clear Hn. unfold is_version. unfold comp_text in Ho. rewrite <- app_assoc in Ho.
  unfold op_text in *. destruct (ct_op c); try done; [..|destruct (ct_bare c)| |].
  all: rewrite ?Hd in Ho; cbn [app] in Ho; injection Ho as <- <-; cbn [Z.eqb Pos.eqb orb].
  all: rewrite ?(proj2 (Z.eqb_neq d _)) by lia; cbn [orb]; cbn zeta.
  5: { unfold starts_version. by rewrite Hdig, app_nil_r, bool_decide_eq_true_2, orb_true_r. }
  5: rewrite Hsk, length_app, bool_decide_eq_true_2, orb_true_r by (rewrite ?length_app; cbn; lia || done); repeat f_equal; cbn; lia.
  all: rewrite Hsk, length_app, bool_decide_eq_false_2, orb_false_r by (rewrite ?length_app; cbn; lia || done); repeat f_equal; cbn; lia.
Qed.

Definition step_group (g : Group) (c : CText) (count : Z) (is_or : bool) (r : Range) : option Group :=
  if count =? 0 then (if is_version c then group_or_version g (cversion (left_ r)) else group_and_range g r)
  else if is_or || is_version c then group_or_range g r else group_and_range g r.

(** One round on a comparator: its range is added and the next round starts
    past the character after it. *)
Lemma comp_round ss a c rest s :
  ss_slice ss = a ++ comp_text c ++ rest -> ct_ok c -> comp_rest rest ->
  Z.of_nat (length (ss_slice ss)) <= U32_MAX -> q_i s = length a ->
  exists o r g0, ss_slice ss !! q_i s = Some o /\ ct_means ss c r /\
    (group_ok (q_list s) -> group_ok g0) /\ group_queries g0 = group_queries (q_list s) /\ g_tail g0 = g_tail (q_list s) /\
    parse_round ss s o =
    g' ← step_group g0 c (q_count s) (q_is_or s) r;
    Some {| q_i := S (length (a ++ comp_text c)); q_token := {| t_op := ct_op c; t_wildcard := WNone |};
            q_count := q_count s + 1; q_is_or := false; q_list := g' |}.
Proof.
  intros H Hc Hrest Hlen Hi. pose proof Hc as (Hop & HM & Hm & Hp & Hpr & Hb).
  destruct (comp_head c rest Hop) as (o & l & Ho & _).
  assert (ss_slice ss !! length a = Some o) as Hlook by (by rewrite H, lookup_app_r, Nat.sub_diag, Ho by lia).
  set (b := a ++ op_text c).
  assert (ss_slice ss = b ++ ct_version c ++ rest) as H' by (unfold b; by rewrite H; unfold comp_text; rewrite <- !app_assoc).
  assert (ss_slice (sub_at ss (length b)) = ct_version c ++ rest) as Hsub
    by (cbn; by rewrite H', drop_app_length).
  assert (0 <= ct_major c <= U64_MAX) as HM' by lia. assert (0 <= ct_minor c <= U64_MAX) as Hm' by lia.
  assert (0 <= ct_patch c <= U64_MAX) as Hp' by lia.
  pose proof (parse_version_text U64_MAX ltac:(unfold U64_MAX; lia) (sub_at ss (length b)) _ _ _ _ _ rest
    HM' Hm' Hp' Hpr Hb Hsub (comp_rest_stops _ Hrest)) as Hparse.
  set (t := tag_of _ _ _) in Hparse.
  destruct (to_range_some {| t_op := ct_op c; t_wildcard := WNone |} (ct_partial c t) Hop) as [r Hr].
  exists o, r, (set_flags (q_list s) (partial_min (ct_partial c t))).
  rewrite Hi. split; [done|]. split; [|split; [done|split; [done|split; [done|]]]].
  - exists t. split; [done|]. intros Hok.
    assert (length b <= length (ss_slice ss))%nat as Hbl by (rewrite H'; len).
    destruct (ss_sub_from_some ss (length b) Hbl) as [_ Hok'].
    pose proof (sub_at_ok (sub_at ss (length b)) (core_text (ct_major c) (ct_minor c) (ct_patch c)) _
      (Hok' Hok) (eq_trans Hsub (eq_sym (app_assoc _ _ _)))) as Hok2.
    destruct (tag_of_ok _ (ct_pre c) (ct_build c) rest Hok2) as (P1 & P2 & P3 & P4); [|done..|].
    + cbn [ss_slice sub_at]. cbn [ss_slice sub_at] in Hsub. rewrite Hsub.
      unfold ct_version, version_text. by rewrite <- app_assoc, drop_app_length.
    + by repeat split.
  - unfold parse_round. rewrite Hi, H at 1. rewrite (scan_comp a c rest _ _ o l Hc Ho). fold b.
    unfold parse_comparator, parse_version_at.
    rewrite ss_sub_from_ok by (rewrite H'; len). cbn [mbind option_bind].
    rewrite Hparse by (rewrite Hsub; rewrite H', length_app in Hlen; lia). cbn [mbind option_bind].
    cbn [core_result len wildcard version]. rewrite Nat2Z.id. fold (ct_version c).
    assert (ss_slice ss = (a ++ comp_text c) ++ rest) as H2 by (by rewrite H, <- app_assoc).
    assert ((length b + length (ct_version c))%nat = length (a ++ comp_text c)) as ->.
    { unfold b, comp_text. rewrite !length_app. lia. }
    rewrite H2, hyphenate_comp by done. cbn [mbind option_bind].
    unfold add_comparator. cbn [t_op]. rewrite (bool_decide_eq_false_2 (ct_op c = TNone)) by done.
    fold (is_version c). cbn [version core_result wildcard]. fold (ct_partial c t). rewrite Hr. cbn [mbind option_bind]. unfold step_group.
    destruct (q_count s =? 0); cbn [andb]; [|by destruct (if _ || _ then _ else _)].
    destruct (is_version c) eqn:Hv; [|by destruct (group_and_range _ _)]. unfold is_version in Hv. apply bool_decide_eq_true_1 in Hv.
    unfold to_range in Hr. rewrite Hv in Hr. cbn in Hr. injection Hr as <-. cbn [left_ only_left cversion]. by destruct (group_or_version _ _).
Qed.

(** All the conjunctions built so far start with a set range. *)
Definition started (qs : list (list Range)) : Prop :=
  qs <> [] /\ Forall (fun q => exists r rs, q = r :: rs /\ has_left r = true) qs.

Lemma started_head g : started (group_queries g) -> has_left (head_range g) = true.
Proof.
  unfold started, group_queries, head_range. destruct (g_head g) as [h t [n|]]; cbn; intros [_ H];
    apply Forall_cons in H as [(r & rs & Hq & Hr) _]; destruct h as [r0 [m|]]; cbn in *; congruence.
Qed.

Lemma step_group_ok g c count is_or r :
  group_ok g -> count <> 0 -> started (group_queries g) -> has_left r = true ->
  exists g', step_group g c count is_or r = Some g' /\ group_ok g' /\
    group_queries g' = add_item (group_queries g) (starts_conjunction (is_or, c)) r /\ started (group_queries g').
Proof.
  intros Hg Hc Hst Hr. unfold step_group, add_item, starts_conjunction. rewrite (proj2 (Z.eqb_neq _ _)) by done.
  pose proof (started_head g Hst) as Hh. destruct Hst as [Hne Hst]. cbn [fst snd]. destruct (is_or || is_version c).
  - destruct (group_or_range_ok g r Hg) as (g' & -> & Hg' & _ & Hq). exists g'.
    rewrite Hh, andb_false_r in Hq. cbn [negb] in Hq. repeat (split; [done|]).
    rewrite Hq. split; [by destruct (group_queries g)|]. apply Forall_app; split; [done|].
    apply Forall_singleton. eauto.
  - destruct (group_and_range_ok g r Hg) as (g' & init & last_ & -> & Hg' & _ & Hq & Hq'). exists g'.
    split; [done|]. split; [done|]. rewrite Hq in Hst. apply Forall_app in Hst as [Hi Hl].
    apply Forall_singleton in Hl as (r0 & rs & -> & Hr0).
    assert (and_ranges (r0 :: rs) r = (r0 :: rs) ++ [r]) as Ha.
    { unfold and_ranges, unset. by rewrite Hr0. }
    rewrite Hq', Hq, Ha, last_snoc, removelast_last. split; [done|].
    split; [by destruct init|]. apply Forall_app; split; [done|]. apply Forall_singleton. cbn. eauto.
Qed.

(** What the items denote, on top of what was built before. *)
Fixpoint items_mean (ss : SlicedString) (l : list (bool * CText)) (qs qs' : list (list Range)) : Prop :=
  match l with
  | [] => qs' = qs
  | i :: l => exists r, ct_means ss i.2 r /\ items_mean ss l (add_item qs (starts_conjunction i) r) qs'
  end.

(** The separator [||] is skipped up to the comparator after it. *)
Lemma skip_or a c r :
  ct_ok c ->
  let input := a ++ b!" || " ++ comp_text c ++ r in
  skip_spaces input (skip_while (Z.eqb #"|") input (S (S (length a)))) = (length a + 4)%nat.
Proof.
  intros [Hop _] input. destruct (comp_head c r Hop) as (o & l & Ho & Hw & _).
  assert (forall n, drop (length a + n) input = drop n (b!" || " ++ comp_text c ++ r)) as Hd
    by (intros n; unfold input; by rewrite drop_app_add).
  rewrite Ho in Hd.
  assert (skip_while (Z.eqb #"|") input (S (S (length a))) = (length a + 3)%nat) as ->.
  { unfold skip_while. replace (S (S (length a))) with (length a + 2)%nat by lia. rewrite Hd. cbn. lia. }
  unfold skip_spaces, skip_while. rewrite Hd. cbn [drop app].
  assert (is_space o = false) as Hs.
  { unfold is_space. unfold is_whitespace, chars_contains, WHITESPACE_CHARS in Hw. cbn [existsb] in Hw. lia. }
  cbn [prefix_len]. rewrite Hs. change (is_space 32) with true. cbn. lia.
Qed.

(** The rounds from the end of a comparator to the end of the query. *)
Lemma parse_rounds_items ss l : forall a s fuel,
  ss_slice ss = a ++ rest_text l -> Forall (fun i => ct_ok (snd i)) l ->
  Z.of_nat (length (ss_slice ss)) <= U32_MAX -> (length (ss_slice ss) - q_i s <= fuel)%nat ->
  q_i s = S (length a) -> 0 < q_count s -> q_is_or s = false ->
  group_ok (q_list s) -> started (group_queries (q_list s)) ->
  exists s', parse_rounds fuel ss s = Some s' /\
    items_mean ss l (group_queries (q_list s)) (group_queries (q_list s')) /\ group_ok (q_list s').
Proof.
  induction l as [|[is_or c] l IH]; intros a s fuel H Hl Hlen Hf Hi Hc Hor Hg Hst.
  { cbn [rest_text] in H. rewrite app_nil_r in H. exists s.
    assert (ss_slice ss !! q_i s = None) as E by (apply lookup_ge_None; rewrite H, Hi; lia).
    destruct fuel; cbn [parse_rounds]; rewrite E; done. }
  apply Forall_cons in Hl as [Hct Hl]. cbn [snd] in Hct.
  assert (forall a' s1 fuel1, ss_slice ss = a' ++ comp_text c ++ rest_text l ->
    (length (ss_slice ss) - q_i s1 <= fuel1)%nat -> q_i s1 = length a' -> 0 < q_count s1 ->
    q_is_or s1 = is_or -> q_list s1 = q_list s ->
    exists s', parse_rounds fuel1 ss s1 = Some s' /\
      items_mean ss ((is_or, c) :: l) (group_queries (q_list s)) (group_queries (q_list s')) /\
      group_ok (q_list s')) as Hcomp.
  { intros a' s1 fuel1 H1 Hf1 Hi1 Hc1 Hor1 Hl1.
    destruct (comp_round ss a' c (rest_text l) s1 H1 Hct (rest_text_comp l Hl) Hlen Hi1) as
      (o & r & g0 & Ho & Hm & Hg0 & Hq0 & _ & Hround).
    destruct fuel1 as [|fuel1]; [apply lookup_lt_Some in Ho; lia|].
    cbn [parse_rounds]. rewrite Ho, Hround, Hor1. rewrite Hl1 in Hg0, Hq0.
    destruct (step_group_ok g0 c (q_count s1) is_or r) as (g' & -> & Hg' & Hq' & Hst');
      [by apply Hg0|lia|by rewrite Hq0|by eapply ct_means_set|].
    cbn [mbind option_bind]. apply lookup_lt_Some in Ho.
    destruct (IH (a' ++ comp_text c) {| q_i := S (length (a' ++ comp_text c));
        q_token := {| t_op := ct_op c; t_wildcard := WNone |}; q_count := q_count s1 + 1;
        q_is_or := false; q_list := g' |} fuel1) as (s' & Hp & Him & Hok);
      cbn [q_i q_count q_is_or q_list]; try done; try lia.
    - by rewrite H1, <- app_assoc.
    - rewrite length_app. lia.
    - exists s'. split; [done|]. split; [|done]. cbn [items_mean]. exists r. split; [done|].
      by rewrite <- Hq0, <- Hq'. }
  destruct is_or; cbn [rest_text] in H.
  - (* the [||] round *)
    assert (ss_slice ss !! q_i s = Some #"|") as E.
    { rewrite Hi, H, lookup_app_r by lia. by replace (S (length a) - length a)%nat with 1%nat by lia. }
    destruct fuel as [|fuel]; [apply lookup_lt_Some in E; lia|]. cbn [parse_rounds]. rewrite E.
    unfold parse_round, scan_token. cbn [Z.eqb Pos.eqb orb]. unfold starts_version.
    cbn [is_ascii_digit is_wild_char Z.leb Z.compare Pos.compare Pos.compare_cont andb orb Z.eqb Pos.eqb].
    assert (skip_spaces (ss_slice ss) (skip_while (Z.eqb #"|") (ss_slice ss) (S (q_i s))) =
      length (a ++ b!" || ")) as ->; [|cbn [mbind option_bind]].
    { rewrite Hi, H, length_app. by apply skip_or. }
    apply (Hcomp (a ++ b!" || ")); cbn [q_i q_count q_is_or q_list]; try done.
    + by rewrite H, <- app_assoc.
    + rewrite length_app. cbn [length]. lia.
  - apply (Hcomp (a ++ b!" ")); try done; [by rewrite H, <- app_assoc|rewrite Hi, length_app; cbn; lia].
Qed.

Lemma add_item_means ss cq qs b c r :
  Forall2 (Forall2 (ct_means ss)) cq qs -> ct_means ss c r ->
  Forall2 (Forall2 (ct_means ss)) (add_item cq b c) (add_item qs b r).
Proof.
  intros H Hc. unfold add_item. destruct b; [apply Forall2_app; [done|by repeat constructor]|].
  destruct cq as [|cq x _] using rev_ind; [apply Forall2_nil_inv_l in H as ->; by repeat constructor|].
  apply Forall2_app_inv_l in H as (qs1 & qs2 & H1 & H2 & ->).
  apply Forall2_cons_inv_l in H2 as (y & ? & Hy & ->%Forall2_nil_inv_l & ->).
  rewrite !last_snoc, !removelast_last. apply Forall2_app; [done|]. constructor; [|done].
  apply Forall2_app; [done|by repeat constructor].
Qed.

Lemma items_mean_conjunctions ss l : forall cq qs qs',
  Forall2 (Forall2 (ct_means ss)) cq qs -> items_mean ss l qs qs' ->
  Forall2 (Forall2 (ct_means ss)) (foldl (fun qs i => add_item qs (starts_conjunction i) i.2) cq l) qs'.
Proof.
  induction l as [|i l IH]; intros cq qs qs' H Hm; cbn [items_mean foldl] in *; [by subst|].
  destruct Hm as (r & Hr & Hm). eapply IH; [|exact Hm]. by apply add_item_means.
Qed.

Definition query_ok (l : list (bool * CText)) : Prop := l <> [] /\ Forall (fun i => ct_ok (snd i)) l.

Lemma add_first {A} b (r : A) : add_item [] b r = [[r]].
Proof. by destruct b. Qed.

(** The first comparator replaces the empty range. *)
Lemma step_first ss g c is_or r : group_ok g -> group_queries g = [[range_default]] -> g_tail g = None -> ct_means ss c r ->
  exists g', step_group g c 0 is_or r = Some g' /\ group_ok g' /\ group_queries g' = [[r]].
Proof.
  intros Hg Hq Ht Hm. unfold step_group. cbn [Z.eqb]. destruct (is_version c) eqn:Hv.
  - unfold is_version in Hv. apply bool_decide_eq_true_1 in Hv. destruct Hm as (t & Hr & _). unfold to_range in Hr. rewrite Hv in Hr. cbn in Hr. injection Hr as <-.
    destruct (group_or_version_ok g (cversion (left_ (only_left Eql (partial_min (ct_partial c t))))) Hg) as (g' & -> & Hg' & _ & Hq').
    exists g'. split; [done|]. split; [done|].
    assert (head_range g = range_default) as Hh.
    { unfold head_range, group_queries in *. destruct (g_head g) as [[r0 n0] t0 n]. cbn in *. destruct n; cbn in *; by destruct n0; cbn in *; simplify_eq. }
    by rewrite Hq', Ht, Hh, Hq.
  - destruct (group_and_range_ok g r Hg) as (g' & init & last_ & -> & Hg' & _ & Hl & Hq'). rewrite Hq in Hl.
    assert (init = [] /\ last_ = [range_default]) as [-> ->] by (apply (app_inj_2 [] init [_] [last_]) in Hl as [<- [= <-]]; done).
    by exists g'.
Qed.

(** The parser reads the text of a query back, comparator for comparator. *)
Lemma parse_query_text ss l :
  ss_slice ss = query_text l -> query_ok l -> Z.of_nat (length (ss_slice ss)) <= U32_MAX ->
  exists g, parse ss = Some g /\ group_ok g /\ Forall2 (Forall2 (ct_means ss)) (conjunctions l) (group_queries g).
Proof.
  intros H [Hne Hl] Hlen. destruct l as [|[b c] l]; [done|]. apply Forall_cons in Hl as [Hc Hl]. cbn [snd query_text] in *.
  unfold parse. set (s0 := {| q_i := 0 |}).
  destruct (comp_round ss [] c (rest_text l) s0 H Hc (rest_text_comp _ Hl) Hlen eq_refl)
    as (o & r & g0 & Ho & Hm & Hg0 & Hq0 & Ht0 & Hround).
  destruct (step_first ss g0 c (q_is_or s0) r (Hg0 ltac:(done)) Hq0 Ht0 Hm) as (g1 & He & Hok1 & Hq1).
  pose proof (ct_means_set ss c r Hm) as Hr.
  destruct (parse_rounds_items ss l (comp_text c) {| q_i := S (length ([] ++ comp_text c));
      q_token := {| t_op := ct_op c; t_wildcard := WNone |}; q_count := q_count s0 + 1; q_is_or := false; q_list := g1 |}
      (pred (length (ss_slice ss))) H Hl Hlen) as (s' & Hs' & Him & Hok');
    try done; cbn [q_i q_list]; [cbn; lia|rewrite Hq1; split; [done|]; apply Forall_singleton; eauto|].
  exists (q_list s'). split; [|split; [done|]].
  - apply lookup_lt_Some in Ho as Hlt. destruct (length (ss_slice ss)) as [|n]; [lia|].
    cbn [parse_rounds]. rewrite Ho, Hround. change (q_count s0) with 0 in *. rewrite He. cbn [mbind option_bind]. cbn [pred] in Hs'.
    transitivity (s ← Some s'; Some (q_list s)); [|done]. f_equal. exact Hs'.
  - cbn [q_list] in Him. rewrite Hq1 in Him. unfold conjunctions. cbn [foldl snd]. rewrite add_first.
    eapply items_mean_conjunctions; [|exact Him]. by repeat constructor.
Qed.

(** What a comparator says of a release. *)
Definition ct_view (c : CText) : View :=
  {| v_major := ct_major c; v_minor := ct_minor c; v_patch := ct_patch c;
     v_pre := ct_pre c; v_build := ct_build c |}.

Definition ct_admits (v : View) (c : CText) : Prop :=
  match ct_op c with
  | TCaret => caret_admits v (ct_partial c tag_default)
  | TTilda => tilda_admits v (ct_partial c tag_default)
  | o => op_holds (token_op o) (precedence v (ct_view c))
  end.

(** The range of a comparator admits the releases the comparator does. *)
Lemma ct_means_admits ss c r v :
  ct_ok c -> ss_ok ss -> ct_means ss c r -> v_pre v = [] ->
  0 <= v_major v <= U64_MAX /\ 0 <= v_minor v <= U64_MAX /\ 0 <= v_patch v <= U64_MAX ->
  range_admits r (ss_buf ss) v <-> ct_admits v c.
Proof.
  intros (Hop & HM & Hm & Hp & _) Hss (t & Hr & Ht) Hv Hb. destruct (Ht Hss) as (_ & Hpre & Hbuild).
  assert (partial_small (ct_partial c t)) as Hs by (intros x [[= <-]|[[= <-]|[= <-]]]; done).
  pose proof (caret_tilda_ok (ss_buf ss) v Hv ltac:(lia) (ct_partial c t) Hs) as [Hcaret Htilda].
  pose proof (to_range_admits (ss_buf ss) v Hv ltac:(lia)
    {| t_op := ct_op c; t_wildcard := WNone |} _ r Hs ltac:(lia)) as Hto.
  assert (view (ss_buf ss) (partial_min (ct_partial c t)) = ct_view c) as Hview
    by (unfold view, ct_view, ct_partial, partial_min; cbn; by rewrite Hpre, Hbuild).
  unfold ct_admits. destruct (ct_op c) eqn:E; try done.
  all: try (injection Hr as <-; assumption).
  all: erewrite Hto; [|by idtac..|exact Hr]; cbn; by rewrite Hview.
Qed.

Lemma conjunctions_ok (P : CText -> Prop) l : Forall (fun i => P (snd i)) l -> Forall (Forall P) (conjunctions l).
Proof.
  unfold conjunctions. assert (forall qs, Forall (Forall P) qs -> Forall (fun i => P (snd i)) l ->
    Forall (Forall P) (foldl (fun qs i => add_item qs (starts_conjunction i) i.2) qs l)) as H; [|by apply H].
  induction l as [|i l IH]; intros qs Hqs Hl; cbn [foldl]; [done|]. apply Forall_cons in Hl as [Hi Hl]. apply IH; [|done].
  unfold add_item. destruct (starts_conjunction i); [apply Forall_app; split; [done|by repeat constructor]|].
  destruct qs as [|q qs _] using rev_ind; [by repeat constructor|]. rewrite last_snoc, removelast_last.
  apply Forall_app in Hqs as [H1 [H2 _]%Forall_cons]. apply Forall_app; split; [done|]. apply Forall_singleton, Forall_app.
  split; [done|by apply Forall_singleton].
Qed.

(** A disjunction of conjunctions, each range admitting what its comparator does. *)
Lemma queries_admit ss q qs v (pinned : Range -> Prop) :
  Forall (Forall ct_ok) q -> ss_ok ss -> v_pre v = [] ->
  0 <= v_major v <= U64_MAX /\ 0 <= v_minor v <= U64_MAX /\ 0 <= v_patch v <= U64_MAX ->
  Forall2 (Forall2 (ct_means ss)) q qs ->
  Exists (fun rs => Forall (fun r => range_admits r (ss_buf ss) v) rs /\
    (false = true -> Exists pinned rs)) qs <-> Exists (Forall (ct_admits v)) q.
Proof.
  intros Hok Hss Hv Hb H. induction H as [|cs rs q qs Hm _ IH]; [by rewrite !Exists_nil|].
  apply Forall_cons in Hok as [Hcs Hok]. rewrite !Exists_cons, IH by done.
  enough (Forall (fun r => range_admits r (ss_buf ss) v) rs <-> Forall (ct_admits v) cs) by naive_solver.
  clear IH Hok. induction Hm as [|c r cs rs Hc _ IH]; [by rewrite !Forall_nil|].
  apply Forall_cons in Hcs as [Hcok Hcs]. rewrite !Forall_cons, IH by done.
  by rewrite (ct_means_admits ss c r v).
Qed.

(** Equal precedence: the same core, both releases or both prereleases. *)
Lemma precedence_eq_core a b :
  precedence a b = Eq ->
  v_major a = v_major b /\ v_minor a = v_minor b /\ v_patch a = v_patch b /\ no_pre a = no_pre b.
Proof.
  unfold precedence, core_compare, compare_then, compare_on.
  destruct (Z.compare_spec (v_major a) (v_major b)), (Z.compare_spec (v_minor a) (v_minor b)),
    (Z.compare_spec (v_patch a) (v_patch b)); cbn; try done.
  by destruct (no_pre a), (no_pre b).
Qed.

(** The group of one exact version. *)
Lemma single_queries g : single g = true -> group_queries g = [[head_range g]].
Proof. unfold single, group_queries, head_range. by destruct (g_head g) as [[r [n|]] t [m|]]. Qed.

Lemma get_exact_version_some g e :
  get_exact_version g = Some e <->
  group_queries g = [[head_range g]] /\ left_ (head_range g) = {| op := Eql; cversion := e |} /\
  has_right (head_range g) = false.
Proof.
  unfold get_exact_version. split.
  - destruct (single g) eqn:Es; [|done]. apply single_queries in Es.
    destruct (head_range g) as [[o w] r]; cbn. destruct o, (has_right _); cbn; try done.
    by intros [= <-].
  - intros (Hq & Hl & Hr). rewrite Hl, Hr. unfold has_left. rewrite Hl. cbn.
    assert (single g = true) as ->; [|done]. unfold single, group_queries in *.
    destruct (g_head g) as [[r on] t om]; destruct on as [n|], om as [m|]; cbn in *; try done.
    + destruct (ranges_cons n) as [? E]; congruence.
    + destruct (ranges_cons n) as [? E]; congruence.
    + by destruct m as [? ? [?|]].
Qed.

(** * Corner cases of the parser and of the printer *)

(** [^*] is the unset range; the disjunct after it takes its place. *)
Example or_replaces_unset :
  satisfies_text b!"^*" b!"3.0.0" = Some true /\ satisfies_text b!"^* || 1.0.0" b!"3.0.0" = Some false.
Proof. split; reflexivity. Qed.

(** A comparison with a wildcard major admits every version. *)
Example less_than_star : satisfies_text b!"<*" b!"3.0.0" = Some true.
Proof. reflexivity. Qed.

Definition fmt_of (q : bytes) : option bytes := g ← parse (ss_whole q); Some (group_fmt g q).

(** [GroupFormatter] prints every suffix of the disjunction, and
    [QueryFormatter] the first two ranges of a conjunction. *)
Example group_fmt_repeats : fmt_of b!"1.0.0 || 2.0.0" = Some b!"==1.0.0 || ==2.0.0 && ==2.0.0".
Proof. reflexivity. Qed.

Example query_fmt_two_ranges : fmt_of b!">1.0.0 <2.0.0 >3.0.0" = Some b!">1.0.0 && <2.0.0".
Proof. reflexivity. Qed.

Module SemverQueryProps.

(** C35: [parse] returns on every input of a length a [u32] can hold: no slice
    is out of range, no [unreachable!()] arm of [to_range] is taken, a number
    of rounds equal to the length is enough. The tail pointers of the group
    and of its lists point at the last nodes, and every prerelease and build
    handle of the ranges that is not the zero word reads a text of the buffer. *)
Theorem query_parse_total ss :
  Z.of_nat (length (ss_slice ss)) <= U32_MAX ->
  exists g, parse ss = Some g /\ group_ok g /\ (ss_ok ss -> all_ranges (range_ok (ss_buf ss)) g).
Proof. apply query_parse_ok. Qed.

Theorem query_parse_total_witness :
  exists g, parse (ss_whole b!"^1.2 || >= 2.0.0-rc.1 <3 - x|") = Some g /\ group_ok g.
Proof.
  destruct (query_parse_total (ss_whole b!"^1.2 || >= 2.0.0-rc.1 <3 - x|")) as (g & H & Hg & _);
    [vm_compute; discriminate|]. exact (ex_intro _ g (conj H Hg)).
Defined.

(** The linked lists implement a disjunction of conjunctions of ranges.
    On a group whose tail pointers are right, [and_range] adds the range to
    the last conjunction, [or_range] and [or_version] add a conjunction, and
    each keeps the tail pointers right and the flags; the first range is
    replaced while it is unset. *)
Theorem group_ops_refine g r v :
  group_ok g ->
  (exists g' init last_, group_and_range g r = Some g' /\ group_ok g' /\ flags g' = flags g /\
    group_queries g = init ++ [last_] /\ group_queries g' = init ++ [and_ranges last_ r]) /\
  (exists g', group_or_range g r = Some g' /\ group_ok g' /\ flags g' = flags g /\
    group_queries g' = if bool_decide (g_tail g = None) && bool_decide (l_tail (g_head g) = None) &&
                          negb (has_left (head_range g))
                       then set_head_query (group_queries g) r else group_queries g ++ [[r]]) /\
  (exists g', group_or_version g v = Some g' /\ group_ok g' /\ flags g' = flags g /\
    group_queries g' = if bool_decide (g_tail g = None) && negb (has_left (head_range g))
      then set_head_query (group_queries g)
             {| left_ := {| op := Eql; cversion := v |}; right_ := right_ (head_range g) |}
      else group_queries g ++ [[only_left Eql v]]).
Proof.
  intros Hg. split; [by apply group_and_range_ok|]. split; [by apply group_or_range_ok|].
  by apply group_or_version_ok.
Qed.

Theorem group_ops_refine_witness :
  let one := only_left Gte (core_version 1 0 0) in
  let two := only_left Lt_ (core_version 2 0 0) in
  group_ok (group_from (core_version 3 0 0)) /\
  (g ← group_or_range (group_from (core_version 3 0 0)) one; g ← group_and_range g two; Some (group_queries g))
    = Some [[only_left Eql (core_version 3 0 0)]; [one; two]] /\
  exists g, group_or_range (group_from (core_version 3 0 0)) one = Some g /\ group_ok g.
Proof.
  intros one two. assert (group_ok (group_from (core_version 3 0 0))) as Hg by done.
  split; [done|]. split; [reflexivity|].
  destruct (group_ops_refine _ one (core_version 0 0 0) Hg) as (_ & (g & H & Hok & _) & _). by exists g.
Defined.

(** The version meets a conjunction of the group in the order of the semver
    specification; a prerelease also needs one of its comparators to name a
    prerelease of the same major, minor and patch. *)
Definition query_meets (buf : bytes) (v : View) (qs : list (list Range)) : Prop :=
  Exists (fun rs => Forall (fun r => range_meets r buf v) rs /\
    (v_pre v <> [] -> Exists (fun r => range_names_prerelease_of r buf v) rs)) qs.

Lemma query_meets_ok rbuf vbuf v qs : version_ok vbuf v -> idents_ok (view vbuf v) ->
  Forall (Forall (range_ok rbuf)) qs -> Forall (Forall (range_idents_ok rbuf)) qs ->
  query_admits rbuf vbuf v qs <-> query_meets rbuf (view vbuf v) qs.
Proof.
  intros Hv Hi Hok Hid. unfold query_admits, query_meets.
  assert (has_pre (tag v) = true <-> v_pre (view vbuf v) <> []) as Hp by (rewrite (has_pre_view vbuf v Hv); unfold no_pre; by rewrite negb_true_iff, bool_decide_eq_false).
  induction qs as [|rs qs IH]; [by rewrite !Exists_nil|]. apply Forall_cons in Hok as [Hr Hok]. apply Forall_cons in Hid as [Hd Hid].
  rewrite !Exists_cons, (IH Hok Hid), Hp.
  assert (Forall (fun r => range_admits r rbuf (view vbuf v)) rs <-> Forall (fun r => range_meets r rbuf (view vbuf v)) rs) as ->.
  { rewrite !Forall_forall in *. split; intros H r Hin; specialize (H r Hin); by apply (range_meets_ok rbuf vbuf v r (Hd r Hin) Hi). }
  assert (Exists (pins_core v) rs <-> Exists (fun r => range_names_prerelease_of r rbuf (view vbuf v)) rs) as ->; [|done].
  rewrite !Exists_exists. rewrite Forall_forall in Hr. split; intros (r & Hin & H); exists r; (split; [done|]); by apply (pins_core_ok rbuf vbuf v r (Hr r Hin)).
Qed.

(** C14: [Group::satisfies] returns, and is true exactly when some conjunction
    of the group admits the version in the precedence of the semver
    specification; a prerelease also needs a comparator of that conjunction to
    name a prerelease of the same major, minor and patch.  The prerelease
    identifiers of the version and of the group are those of the
    specification, the numeric ones below 2^64. *)
Theorem group_satisfies_spec {F : ByteSearch} {Fok : ByteSearchOk F} rbuf vbuf v g :
  version_ok vbuf v -> idents_ok (view vbuf v) -> all_ranges (range_ok rbuf) g -> all_ranges (range_idents_ok rbuf) g ->
  exists b, group_satisfies v rbuf vbuf g = Some b /\
    (b = true <-> query_meets rbuf (view vbuf v) (group_queries g)).
Proof.
  intros Hv Hi Hok Hid. destruct (group_satisfies_ok rbuf vbuf v Hv g Hok) as (b & Hb & Hiff). exists b. split; [done|].
  rewrite Hiff. by apply query_meets_ok.
Qed.

Theorem group_satisfies_spec_witness :
  let q := b!">=1.2.3-beta.2 <2" in
  satisfies_text q b!"1.2.3-beta.10" = Some true /\ satisfies_text q b!"1.3.0-beta.10" = Some false /\
  exists g, parse (ss_whole q) = Some g /\
    (query_meets q (view b!"1.3.0-a" (sample b!"1.3.0-a")) (group_queries g) -> False) /\
    query_meets q (view b!"1.2.3-c" (sample b!"1.2.3-c")) (group_queries g).
Proof.
  intros q. split; [reflexivity|]. split; [reflexivity|].
  destruct (parse (ss_whole q)) as [g|] eqn:E; [|vm_compute in E; discriminate]. exists g. split; [done|].
  vm_compute in E. injection E as <-. match goal with |- context [group_queries ?g0] => set (g := g0) end.
  assert (all_ranges (range_ok q) g) as Hg by (repeat constructor).
  assert (all_ranges (range_idents_ok q) g) as Hd by (repeat (constructor || (cbn; intros; unfold U64_MAX; done || lia))).
  assert (forall t, t = b!"a" \/ t = b!"c" -> Forall ident_ok (split_on #"." t)) as Hi by (intros t [->| ->]; repeat constructor; by cbn).
  split.
  - intros H. destruct (group_satisfies_spec q b!"1.3.0-a" (sample b!"1.3.0-a") g)
      as (b & Hb & Hiff); [by split|by apply (Hi b!"a"); left|done|done|]. apply Hiff in H. subst b. discriminate.
  - destruct (group_satisfies_spec q b!"1.2.3-c" (sample b!"1.2.3-c") g)
      as (b & Hb & Hiff); [by split|by apply (Hi b!"c"); right|done|done|]. apply Hiff. vm_compute in Hb. congruence.
Defined.

(** on releases a caret range admits the versions at least its own that
    keep the leftmost nonzero component, a tilde range those that change only
    the patch (only the minor and the patch when the minor is missing). *)
Theorem caret_tilda_spec buf v p :
  v_pre v = [] -> 0 <= v_major v /\ 0 <= v_minor v /\ 0 <= v_patch v -> partial_small p ->
  (range_admits (caret_range p) buf v <-> caret_admits v p) /\
  (range_admits (tilda_range p) buf v <-> tilda_admits v p).
Proof. intros. by apply caret_tilda_ok. Qed.

Theorem caret_tilda_spec_witness :
  let p := {| pmajor := Some 0; pminor := Some 2; ppatch := Some 3; ptag := tag_default |} in
  let v := {| v_major := 0; v_minor := 2; v_patch := 9; v_pre := []; v_build := [] |} in
  range_admits (caret_range p) [] v /\ range_admits (tilda_range p) [] v.
Proof.
  intros p v. destruct (caret_tilda_spec [] v p) as [Hc Ht]; [done|cbn; lia| |].
  - intros x [[= <-]|[[= <-]|[= <-]]]; split; done.
  - split; [apply Hc|apply Ht]; cbn; lia.
Defined.

(** on releases the range of [=], [<], [<=], [>] and [>=] compares the
    version with the components that are present; when the major is a
    wildcard a comparison admits everything at least the zero version. *)
Theorem to_range_spec buf v t p r :
  v_pre v = [] -> 0 <= v_major v <= U64_MAX /\ 0 <= v_minor v <= U64_MAX /\ 0 <= v_patch v <= U64_MAX ->
  partial_small p -> t_op t <> TNone -> t_op t <> TCaret -> t_op t <> TTilda -> to_range t p = Some r ->
  range_admits r buf v <->
  if unbounded t then comparator_admits {| op := Gte; cversion := partial_min p |} buf v
  else op_holds (token_op (t_op t)) (truncated buf v (t_wildcard t) p).
Proof. intros Hv Hb Hs. apply to_range_admits; [done|lia|done|lia]. Qed.

Theorem to_range_spec_witness :
  let p := {| pmajor := Some 1; pminor := Some 2; ppatch := None; ptag := tag_default |} in
  let t := {| t_op := TLte; t_wildcard := WPatch |} in
  let v := {| v_major := 1; v_minor := 2; v_patch := 77; v_pre := []; v_build := [] |} in
  range_admits (only_left Lte (core_version 1 2 U64_MAX)) [] v.
Proof.
  intros p t v. apply (to_range_spec [] v t p); try done.
  intros x [[= <-]|[[= <-]|[=]]]; split; done.
Defined.

(** C1: the text of a query, comparators on full versions separated by a space
    or by [||], parses, and the group is satisfied by a release exactly when
    all the comparators of one conjunction hold of it.  A conjunction starts at
    the first comparator, after [||], and at each bare version and each version
    with [=]: these are alternatives to what is before them. *)
Theorem query_text_satisfied {F : ByteSearch} {Fok : ByteSearchOk F} ss q vbuf v :
  ss_slice ss = query_text q -> query_ok q -> ss_ok ss -> Z.of_nat (length (ss_slice ss)) <= U32_MAX ->
  version_ok vbuf v -> v_pre (view vbuf v) = [] ->
  0 <= major v <= U64_MAX /\ 0 <= minor v <= U64_MAX /\ 0 <= patch v <= U64_MAX ->
  exists g b, parse ss = Some g /\ group_satisfies v (ss_buf ss) vbuf g = Some b /\
    (b = true <-> Exists (Forall (ct_admits (view vbuf v))) (conjunctions q)).
Proof.
  intros H Hq Hss Hlen Hv Hpre Hb. destruct (parse_query_text ss q H Hq Hlen) as (g & Hg & _ & Hm).
  destruct (query_parse_ok ss Hlen) as (g' & Hg' & _ & Hall). rewrite Hg in Hg'. injection Hg' as <-.
  destruct (group_satisfies_ok (ss_buf ss) vbuf v Hv g (Hall Hss)) as (b & Hs & Hiff).
  exists g, b. split; [done|]. split; [done|]. rewrite Hiff. unfold query_admits.
  rewrite (has_pre_view vbuf v Hv). unfold no_pre. rewrite bool_decide_eq_true_2 by done. cbn [negb].
  apply (queries_admit ss); try done. by apply (conjunctions_ok ct_ok), Hq.
Qed.

Theorem query_text_satisfied_witness :
  let c o M m p pre := {| ct_op := o; ct_bare := true; ct_major := M; ct_minor := m; ct_patch := p;
                          ct_pre := pre; ct_build := [] |} in
  let q := [(false, c TGte 1 2 3 b!"rc.1"); (false, c TLt 2 0 0 []); (false, c TVersion 2 5 0 []); (true, c TCaret 3 0 1 [])] in
  query_text q = b!">=1.2.3-rc.1 <2.0.0 2.5.0 || ^3.0.1" /\
  conjunctions q = [[c TGte 1 2 3 b!"rc.1"; c TLt 2 0 0 []]; [c TVersion 2 5 0 []]; [c TCaret 3 0 1 []]] /\
  exists g b, parse (ss_whole (query_text q)) = Some g /\
    group_satisfies (core_version 3 4 5) (query_text q) [] g = Some b /\
    (b = true <-> Exists (Forall (ct_admits (view [] (core_version 3 4 5)))) (conjunctions q)).
Proof.
  intros c q. split; [reflexivity|]. split; [reflexivity|].
  refine (query_text_satisfied (ss_whole (query_text q)) q [] (core_version 3 4 5) eq_refl _ _ _ _ eq_refl _).
  - assert (forall o M m p pre, o <> TNone -> 0 <= M < 10 /\ 0 <= m < 10 /\ 0 <= p < 10 ->
      pre_text pre -> ct_ok (c o M m p pre)) as Hc.
    { intros o M m p pre Ho (HM & Hm & Hp) Hpre. unfold ct_ok, U64_MAX. cbn. do 4 (split; [first [done|lia]|]). split; [done|]. apply Forall_nil_2. }
    split; [discriminate|]. repeat (apply Forall_cons; split; [apply Hc; by repeat constructor|]). apply Forall_nil_2.
  - split; vm_compute; reflexivity.
  - vm_compute. discriminate.
  - by split.
  - cbn. unfold U64_MAX. lia.
Defined.

(** A bare version is an alternative even without [||] before it. *)
Example bare_version_is_or : satisfies_text b!">=1.0.0 2.0.0" b!"3.0.0" = Some true /\ satisfies_text b!">=1.0.0 =2.0.0" b!"3.0.0" = Some true.
Proof. split; reflexivity. Qed.

(** A group has an exact version precisely when it is one comparator
    [= e]; [is_exact] and [to_version] agree, and it is satisfied exactly by
    the versions of the same precedence as [e], prereleases included. *)
Theorem exact_version_spec {F : ByteSearch} {Fok : ByteSearchOk F} rbuf vbuf v g e :
  version_ok vbuf v -> all_ranges (range_ok rbuf) g -> get_exact_version g = Some e ->
  is_exact g = true /\ to_version g = e /\
  exists b, group_satisfies v rbuf vbuf g = Some b /\
    (b = true <-> precedence (view vbuf v) (view rbuf e) = Eq).
Proof.
  intros Hv Hall H. pose proof H as (Hq & Hl & Hr)%get_exact_version_some.
  destruct (group_satisfies_ok rbuf vbuf v Hv g Hall) as (b & Hb & Hiff). unfold to_version. rewrite Hl.
  assert (single g = true) as Hs by (unfold get_exact_version in H; by destruct (single g)).
  split; [unfold is_exact; by rewrite Hs, Hl, Hr|]. split; [done|]. exists b. split; [done|].
  rewrite Hiff. unfold query_admits. rewrite Hq, Exists_cons, Exists_nil, Forall_singleton, Exists_cons, Exists_nil.
  assert (range_ok rbuf (head_range g)) as [Hok _] by apply (head_range_all _ _ Hall).
  unfold range_admits, pins_core, has_left, comparator_admits. rewrite Hl, Hr in *. cbn in *. split.
  - intros [[Ha _]|[]]. by apply Ha.
  - intros He. left. split; [by split|]. intros Hp. left. split; [done|]. left.
    apply precedence_eq_core in He as (E1 & E2 & E3 & E4). cbn in E1, E2, E3.
    rewrite (has_pre_view vbuf v Hv) in Hp. rewrite (has_pre_view rbuf e Hok), <- E4. split; [done|].
    unfold same_core. by rewrite E1, E2, E3, !Z.eqb_refl.
Qed.

Theorem exact_version_spec_witness :
  let q := b!"=1.2.3-rc.1" in
  exists g e, parse (ss_whole q) = Some g /\ get_exact_version g = Some e /\ is_exact g = true /\
    group_satisfies (sample b!"1.2.3-rc.1+b") q b!"1.2.3-rc.1+b" g = Some true.
Proof.
  intros q. destruct (parse (ss_whole q)) as [g|] eqn:E; [|vm_compute in E; discriminate].
  destruct (get_exact_version g) as [e|] eqn:Ee; [|vm_compute in E; injection E as <-; discriminate].
  exists g, e. split; [done|]. split; [done|]. vm_compute in E. injection E as <-.
  match goal with |- context [is_exact ?g0] => set (g := g0) end.
  assert (all_ranges (range_ok q) g) as Hg by (repeat constructor).
  destruct (exact_version_spec q b!"1.2.3-rc.1+b" (sample b!"1.2.3-rc.1+b") g e) as (H & _ & _);
    [by split|exact Hg|exact Ee|]. split; [exact H|reflexivity].
Defined.

End SemverQueryProps.
