(* ===== verification/Mappings.v ===== *)
(** src/src/sourcemap/Mapping.rs: the list of mappings of a source map, its
    sort and its search, and the parser of the "mappings" text; with
    [LineColumnOffset] of src/src/sourcemap/lib.rs, [Ordinal] of
    src/src/bun_core/util.rs and the insertion sort of
    src/src/collections/multi_array_list.rs.

    An [Ordinal] is its zero-based [Z].  A [MultiArrayList] is the list of its
    rows.  [None] is a panic or a row read out of bounds. *)
From S2P Require Import Prelude Vlq SemverString.

Definition START : Z := 0.
Definition add_scalar (self inc : Z) : Z := i32_wrap (self + inc).
Definition ordinal_add (self b : Z) : Z := i32_wrap (self + b).

Record LineColumnOffset := { lines : Z; columns : Z }.

Definition lco_default : LineColumnOffset := {| lines := START; columns := START |}.

Definition lco_add (self b : LineColumnOffset) : LineColumnOffset :=
  if lines b =? 0 then {| lines := lines self; columns := ordinal_add (columns self) (columns b) |}
  else {| lines := ordinal_add (lines self) (lines b); columns := columns b |}.

Definition comes_before (a b : LineColumnOffset) : bool :=
  (lines a <? lines b) || ((lines a =? lines b) && (columns a <? columns b)).

Definition lco_cmp (a b : LineColumnOffset) : comparison :=
  if negb (lines a =? lines b) then lines a ?= lines b else columns a ?= columns b.

Record Mapping := {
  generated : LineColumnOffset; original : LineColumnOffset; source_index : Z; name_index : Z
}.
Record MappingWithoutName := {
  wn_generated : LineColumnOffset; wn_original : LineColumnOffset; wn_source_index : Z
}.

Definition to_named (m : MappingWithoutName) : Mapping :=
  {| generated := wn_generated m; original := wn_original m; source_index := wn_source_index m; name_index := -1 |}.

Inductive ListValue :=
| WithoutNames (list : list MappingWithoutName)
| WithNames (list : list Mapping).

(** [List]: the rows, the names and the buffer their handles point into. *)
Record MappingList := { impl : ListValue; names : list SemverString; names_buffer : bytes }.

Definition list_default : MappingList := {| impl := WithoutNames []; names := []; names_buffer := [] |}.

Definition with_impl (l : MappingList) (v : ListValue) : MappingList :=
  {| impl := v; names := names l; names_buffer := names_buffer l |}.

Definition ensure_with_names (l : MappingList) : MappingList :=
  match impl l with
  | WithNames _ => l
  | WithoutNames without_names => with_impl l (WithNames (to_named <$> without_names))
  end.

Definition items_generated (l : MappingList) : list LineColumnOffset :=
  match impl l with
  | WithoutNames list => wn_generated <$> list
  | WithNames list => generated <$> list
  end.
Definition items_original (l : MappingList) : list LineColumnOffset :=
  match impl l with
  | WithoutNames list => wn_original <$> list
  | WithNames list => original <$> list
  end.
Definition items_source_index (l : MappingList) : list Z :=
  match impl l with
  | WithoutNames list => wn_source_index <$> list
  | WithNames list => source_index <$> list
  end.
Definition items_name_index (l : MappingList) : list Z :=
  match impl l with
  | WithoutNames _ => []
  | WithNames list => name_index <$> list
  end.

(** * Search *)

(** The mapping is at or before the position: [<=] on lines, then columns. *)
Definition at_or_before (mapping : LineColumnOffset) (line column : Z) : bool :=
  (lines mapping <? line) || ((lines mapping =? line) && (columns mapping <=? column)).

(** The loop of [find_index_from_generated]; [count] never grows. *)
Fixpoint search_loop (fuel : nat) (offs : list LineColumnOffset) (line column : Z) (index count : nat) : option nat :=
  if decide (count = 0%nat) then Some index
  else
    match fuel with
    | O => None
    | S fuel =>
      let step := Nat.div count 2 in
      let i := (index + step)%nat in
      mapping ← offs !! i;
      if at_or_before mapping line column
      then search_loop fuel offs line column (i + 1) (count - (step + 1))
      else search_loop fuel offs line column index step
    end.

Definition find_index_from_generated (offs : list LineColumnOffset) (line column : Z) : option (option nat) :=
  index ← search_loop (length offs) offs line column 0 (length offs);
  if decide (0 < index)%nat then
    m ← offs !! (index - 1)%nat;
    Some (if lines m =? line then Some (index - 1)%nat else None)
  else Some None.

Definition find_index (l : MappingList) (line column : Z) : option (option nat) :=
  find_index_from_generated (items_generated l) line column.

(** [find]: the outer option is a panic. *)
Definition list_find (l : MappingList) (line column : Z) : option (option Mapping) :=
  match impl l with
  | WithoutNames list =>
    r ← find_index_from_generated (wn_generated <$> list) line column;
    match r with
    | Some i => m ← list !! i; Some (Some (to_named m))
    | None => Some None
    end
  | WithNames list =>
    r ← find_index_from_generated (generated <$> list) line column;
    match r with
    | Some i => m ← list !! i; Some (Some m)
    | None => Some None
    end
  end.

Definition get_name (l : MappingList) (index : Z) : option bytes :=
  if index <? 0 then None
  else
    let i := Z.to_nat index in
    if decide (length (names l) <= i)%nat then None
    else
      match impl l with
      | WithNames _ => str ← names l !! i; Some (string_slice str (names_buffer l))
      | WithoutNames _ => None
      end.

(** * Sort *)

(** [swap_rows]. *)
Definition swap_rows {A} (l : list A) (a b : nat) : option (list A) :=
  x ← l !! a; y ← l !! b; Some (<[b := x]> (<[a := y]> l)).

(** [while j > a && less(j, j - 1) { swap(j, j - 1); j -= 1 }]; the comparator
    reads the rows as they are. *)
Fixpoint sort_down {A} (less : list A -> nat -> nat -> option bool) (a : nat) (l : list A) (j : nat) : option (list A) :=
  match j with
  | O => Some l
  | S j' =>
    if decide (a < j)%nat then
      b ← less l j j';
      if b : bool then l' ← swap_rows l j j'; sort_down less a l' j' else Some l
    else Some l
  end.

(** [while i < b { ..; i += 1 }] for the [n] values of [i] left. *)
Fixpoint sort_up {A} (less : list A -> nat -> nat -> option bool) (a n : nat) (l : list A) (i : nat) : option (list A) :=
  match n with
  | O => Some l
  | S n => l' ← sort_down less a l i; sort_up less a n l' (S i)
  end.

(** [bun_collections_sort_context]. *)
Definition sort_context {A} (less : list A -> nat -> nat -> option bool) (a b : nat) (l : list A) : option (list A) :=
  if decide (b <= a)%nat then Some l else sort_up less a (b - (a + 1)) l (a + 1).

(** [SortContext::less_than] on the column of generated positions. *)
Definition less_than {A} (gen : A -> LineColumnOffset) (l : list A) (a_index b_index : nat) : option bool :=
  a ← gen <$> l !! a_index;
  b ← gen <$> l !! b_index;
  Some (if negb (lines a =? lines b) then lines a <? lines b
        else if negb (columns a =? columns b) then columns a <? columns b
        else bool_decide (a_index < b_index)%nat).

Definition list_sort (l : MappingList) : option MappingList :=
  match impl l with
  | WithoutNames list => list' ← sort_context (less_than wn_generated) 0 (length list) list; Some (with_impl l (WithoutNames list'))
  | WithNames list => list' ← sort_context (less_than generated) 0 (length list) list; Some (with_impl l (WithNames list'))
  end.

Definition list_append (l : MappingList) (mapping : Mapping) : MappingList :=
  match impl l with
  | WithoutNames list =>
    with_impl l (WithoutNames (list ++ [{| wn_generated := generated mapping; wn_original := original mapping;
                                           wn_source_index := source_index mapping |}]))
  | WithNames list => with_impl l (WithNames (list ++ [mapping]))
  end.

(** * Parsing *)

Inductive ParseError :=
| MissingGeneratedColumnValue | InvalidGeneratedColumnValue
| InvalidSourceIndexDelta | InvalidSourceIndexValue
| MissingOriginalLine | InvalidOriginalLineValue
| MissingOriginalColumnValue | InvalidOriginalColumnValue
| InvalidNameIndexDelta.

(** The message is determined by the error. *)
Record ParseResultFail := { err : ParseError; err_value : Z; loc_start : Z }.

Record ParsedSourceMap := { mappings : MappingList; input_line_count : nat }.

Inductive ParseResult :=
| Fail (f : ParseResultFail)
| Success (map : ParsedSourceMap).

Record ParseOptions := { allow_names : bool; opt_sort : bool }.

Definition HALF_USIZE : nat := 4.

(** [while remain.starts_with(&SEMICOLON_RUN)]. *)
Fixpoint skip_runs (lines : Z) (remain : bytes) : Z * bytes :=
  match remain with
  | a :: b :: c :: d :: r =>
    if (a =? #";") && (b =? #";") && (c =? #";") && (d =? #";")
    then skip_runs (add_scalar lines (Z.of_nat HALF_USIZE)) r else (lines, remain)
  | _ => (lines, remain)
  end.

(** [while remain.len() > 0 && remain[0] == b';']. *)
Fixpoint skip_single (lines : Z) (remain : bytes) : Z * bytes :=
  match remain with
  | c :: r => if c =? #";" then skip_single (add_scalar lines 1) r else (lines, remain)
  | [] => (lines, remain)
  end.

(** The locals of [parse]. *)
Record PState := {
  p_generated : LineColumnOffset; p_original : LineColumnOffset;
  p_name_index : Z; p_source_index : Z; p_needs_sort : bool;
  p_remain : bytes; p_has_names : bool; p_mapping : MappingList
}.

(** How a round of the loop ends. *)
Inductive Flow :=
| Continue (st : PState)
| Break (st : PState)
| Return (f : ParseResultFail).

Section Parse.
Context (input : bytes) (sources_count : Z) (options : ParseOptions).

(** The location: [i32::try_from(bytes.len() - remain.len()).unwrap_or(i32::MAX)]. *)
Definition loc_of (remain : bytes) : Z :=
  let n := Z.of_nat (length input - length remain) in
  if n <? 2 ^ 31 then n else 2 ^ 31 - 1.

Definition fail (e : ParseError) (value : Z) (remain : bytes) : option Flow :=
  Some (Return {| err := e; err_value := value; loc_start := loc_of remain |}).

(** The end of a mapping: an optional name, the comma, and the append. *)
Definition parse_name (st : PState) : option Flow :=
  let append name_index has_names remain mapping :=
    Some (Continue {|
      p_generated := p_generated st; p_original := p_original st; p_name_index := name_index;
      p_source_index := p_source_index st; p_needs_sort := p_needs_sort st; p_remain := remain;
      p_has_names := has_names;
      p_mapping := list_append mapping {| generated := p_generated st; original := p_original st;
                                          source_index := p_source_index st; name_index := name_index |} |}) in
  match p_remain st with
  | [] => append (p_name_index st) (p_has_names st) [] (p_mapping st)
  | c :: tl =>
    if c =? #"," then append (p_name_index st) (p_has_names st) tl (p_mapping st)
    else if c =? #";" then append (p_name_index st) (p_has_names st) (p_remain st) (p_mapping st)
    else
      name_index_delta ← decode (p_remain st) 0;
      if decide (vlq_start name_index_delta = 0%nat) then fail InvalidNameIndexDelta c (p_remain st)
      else
        remain ← slice_from (p_remain st) (vlq_start name_index_delta);
        let name_index :=
          if allow_names options then i32_wrap (p_name_index st + vlq_value name_index_delta) else p_name_index st in
        let mapping :=
          if allow_names options && negb (p_has_names st) then ensure_with_names (p_mapping st) else p_mapping st in
        let has_names := allow_names options || p_has_names st in
        append name_index has_names
          match remain with
          | c :: tl => if c =? #"," then tl else remain
          | [] => []
          end mapping
  end.

(** The original source, line and column. *)
Definition parse_original (st : PState) : option Flow :=
  source_index_delta ← decode (p_remain st) 0;
  if decide (vlq_start source_index_delta = 0%nat) then fail InvalidSourceIndexDelta 0 (p_remain st)
  else
    let source_index := i32_wrap (p_source_index st + vlq_value source_index_delta) in
    if (source_index <? 0) || (sources_count <=? source_index)
    then fail InvalidSourceIndexValue source_index (p_remain st)
    else
      remain ← slice_from (p_remain st) (vlq_start source_index_delta);
      original_line_delta ← decode remain 0;
      if decide (vlq_start original_line_delta = 0%nat) then fail MissingOriginalLine 0 remain
      else
        let lines := add_scalar (lines (p_original st)) (vlq_value original_line_delta) in
        if lines <? 0 then fail InvalidOriginalLineValue lines remain
        else
          remain ← slice_from remain (vlq_start original_line_delta);
          original_column_delta ← decode remain 0;
          if decide (vlq_start original_column_delta = 0%nat)
          then fail MissingOriginalColumnValue (columns (p_original st)) remain
          else
            let columns := add_scalar (columns (p_original st)) (vlq_value original_column_delta) in
            if columns <? 0 then fail InvalidOriginalColumnValue columns remain
            else
              remain ← slice_from remain (vlq_start original_column_delta);
              parse_name {|
                p_generated := p_generated st; p_original := {| lines := lines; columns := columns |};
                p_name_index := p_name_index st; p_source_index := source_index;
                p_needs_sort := p_needs_sort st; p_remain := remain; p_has_names := p_has_names st;
                p_mapping := p_mapping st |}.

(** The generated column of the next mapping. *)
Definition parse_generated (st : PState) : option Flow :=
  generated_column_delta ← decode (p_remain st) 0;
  if decide (vlq_start generated_column_delta = 0%nat)
  then fail MissingGeneratedColumnValue (columns (p_generated st)) (p_remain st)
  else
    let needs_sort := p_needs_sort st || (vlq_value generated_column_delta <? 0) in
    let columns := add_scalar (columns (p_generated st)) (vlq_value generated_column_delta) in
    if columns <? 0 then fail InvalidGeneratedColumnValue columns (p_remain st)
    else
      remain ← slice_from (p_remain st) (vlq_start generated_column_delta);
      let next remain := {|
        p_generated := {| lines := lines (p_generated st); columns := columns |};
        p_original := p_original st; p_name_index := p_name_index st; p_source_index := p_source_index st;
        p_needs_sort := needs_sort; p_remain := remain; p_has_names := p_has_names st;
        p_mapping := p_mapping st |} in
      match remain with
      | [] => Some (Break (next []))
      | c :: tl =>
        if c =? #"," then Some (Continue (next tl))
        else if c =? #";" then Some (Continue (next remain))
        else parse_original (next remain)
      end.

(** A round of the loop of [parse]. *)
Definition parse_step (st : PState) : option Flow :=
  match p_remain st with
  | [] => Some (Break st)
  | c :: _ =>
    if c =? #";" then
      let '(lines, remain) := skip_runs (lines (p_generated st)) (p_remain st) in
      let '(lines, remain) := skip_single lines remain in
      let st := {|
        p_generated := {| lines := lines; columns := START |};
        p_original := p_original st; p_name_index := p_name_index st; p_source_index := p_source_index st;
        p_needs_sort := p_needs_sort st; p_remain := remain; p_has_names := p_has_names st;
        p_mapping := p_mapping st |} in
      match remain with [] => Some (Break st) | _ => parse_generated st end
    else parse_generated st
  end.

Fixpoint parse_loop (fuel : nat) (st : PState) : option (Result PState ParseResultFail) :=
  match p_remain st with
  | [] => Some (Ok st)
  | _ =>
    match fuel with
    | O => None
    | S fuel =>
      r ← parse_step st;
      match r with
      | Continue st => parse_loop fuel st
      | Break st => Some (Ok st)
      | Return f => Some (Err f)
      end
    end
  end.

Definition parse_init : PState := {|
  p_generated := lco_default; p_original := lco_default; p_name_index := 0; p_source_index := 0;
  p_needs_sort := false; p_remain := input; p_has_names := false; p_mapping := list_default
|}.

Definition parse (input_line_count : nat) : option ParseResult :=
  r ← parse_loop (length input) parse_init;
  match r with
  | Err f => Some (Fail f)
  | Ok st =>
    mapping ← (if p_needs_sort st && opt_sort options then list_sort (p_mapping st) else Some (p_mapping st));
    Some (Success {| mappings := mapping; input_line_count := input_line_count |})
  end.

End Parse.
