(* ===== verification/MappingsSpec.v ===== *)
(** What the mapping list promises: [list_sort] is a stable sort by generated
    position, [list_find] on a sorted list is a lookup in a reference
    definition, and [parse] is total and establishes both. *)
From stdpp Require Import sorting.
From S2P Require Import Prelude Vlq SemverString Mappings.

(** * Positions *)

Definition pos_le (a b : LineColumnOffset) : Prop :=
  lines a < lines b \/ lines a = lines b /\ columns a <= columns b.

#[export] Instance lco_eq_dec : EqDecision LineColumnOffset.
Proof. solve_decision. Defined.

#[export] Instance pos_le_dec a b : Decision (pos_le a b).
Proof. unfold pos_le. apply _. Defined.

#[export] Instance pos_le_preorder : PreOrder pos_le.
Proof. split; [intros a|intros a b c]; unfold pos_le; lia. Qed.

Lemma at_or_before_spec m line column :
  at_or_before m line column = bool_decide (pos_le m {| lines := line; columns := column |}).
Proof. unfold at_or_before, pos_le. cbn. case_bool_decide; lia. Qed.

(** The rows of a list, the optimisation for lists without names undone. *)
Definition rows (l : MappingList) : list Mapping :=
  match impl l with
  | WithoutNames list => to_named <$> list
  | WithNames list => list
  end.

Definition positions (l : MappingList) : list LineColumnOffset := generated <$> rows l.

Definition sorted (l : list LineColumnOffset) : Prop := StronglySorted pos_le l.

Lemma sorted_lookup l i j x y : sorted l -> (i < j)%nat -> l !! i = Some x -> l !! j = Some y -> pos_le x y.
Proof.
  intros Hs Hij Hx Hy. unfold sorted in Hs. rewrite <- (take_drop j l) in Hs.
  eapply StronglySorted_app_1_elem_of; [exact Hs| |].
  - apply list_elem_of_lookup. exists i. by rewrite lookup_take_lt.
  - apply list_elem_of_lookup. exists 0%nat. by rewrite lookup_drop, Nat.add_0_r.
Qed.

(** * Search *)

Lemma search_loop_ok offs line column : forall fuel index count,
  (count <= fuel)%nat -> (index + count <= length offs)%nat ->
  sorted offs ->
  (forall i m, (i < index)%nat -> offs !! i = Some m -> at_or_before m line column = true) ->
  (forall i m, (index + count <= i)%nat -> offs !! i = Some m -> at_or_before m line column = false) ->
  exists r, search_loop fuel offs line column index count = Some r /\ (r <= length offs)%nat /\
    (forall i m, (i < r)%nat -> offs !! i = Some m -> at_or_before m line column = true) /\
    (forall i m, (r <= i)%nat -> offs !! i = Some m -> at_or_before m line column = false).
Proof.
  induction fuel as [|fuel IH]; intros index count Hf Hlen Hs Hlo Hhi; cbn [search_loop].
  { rewrite decide_True by lia. exists index. repeat split; [lia|done|]. intros i m Hi. apply Hhi. lia. }
  case_decide as Hc; [exists index; repeat split; [lia|done|]; intros i m Hi; apply Hhi; lia|].
  pose proof (Nat.div_lt count 2 ltac:(lia) ltac:(lia)) as Hd. set (step := Nat.div count 2) in *.
  destruct (lookup_lt_is_Some_2 offs (index + step)%nat ltac:(lia)) as [m Hm]. rewrite Hm. cbn [mbind option_bind].
  destruct (at_or_before m line column) eqn:Em.
  - apply IH; [lia|lia|done| |].
    + intros i m' Hi Hm'. destruct (decide (i = index + step)%nat) as [->|]; [congruence|].
      rewrite at_or_before_spec in *. apply bool_decide_eq_true in Em. apply bool_decide_eq_true.
      etrans; [|exact Em]. apply (sorted_lookup offs i (index + step)); [done|lia|done|done].
    + intros i m' Hi. apply Hhi. lia.
  - apply IH; [lia|lia|done|done|].
    intros i m' Hi Hm'. destruct (decide (i = index + step)%nat) as [->|]; [congruence|].
    rewrite at_or_before_spec in *. apply bool_decide_eq_false in Em. apply bool_decide_eq_false.
    intros Hle. apply Em. etrans; [|exact Hle].
    apply (sorted_lookup offs (index + step) i); [done|lia|done|done].
Qed.

(** The mappings of a line at or before a column, in the order of the list. *)
Definition on_line_before (line column : Z) (m : Mapping) : Prop :=
  lines (generated m) = line /\ columns (generated m) <= column.

#[export] Instance on_line_before_dec line column m : Decision (on_line_before line column m).
Proof. unfold on_line_before. apply _. Defined.

Lemma find_index_ok (list : list Mapping) line column :
  sorted (generated <$> list) ->
  exists r, find_index_from_generated (generated <$> list) line column = Some r /\
    match r with
    | Some i => is_Some (list !! i) /\ list !! i = last (filter (on_line_before line column) list)
    | None => last (filter (on_line_before line column) list) = None
    end.
Proof.
  intros Hs. unfold find_index_from_generated.
  destruct (search_loop_ok (generated <$> list) line column (length (generated <$> list)) 0 (length (generated <$> list)))
    as (r & Hr & Hle & Hlo & Hhi); [lia|lia|done|lia| |].
  { intros i m Hi Hm. apply lookup_lt_Some in Hm. lia. }
  rewrite Hr. cbn [mbind option_bind]. rewrite length_fmap in Hle.
  assert (filter (on_line_before line column) list = filter (on_line_before line column) (take r list)) as Hf.
  { rewrite <- (take_drop r list) at 1. rewrite filter_app.
    replace (filter _ (drop r list)) with (@nil Mapping); [by rewrite app_nil_r|]. symmetry. apply filter_none.
    intros m Hm [H1 H2]. apply list_elem_of_lookup in Hm as [i Hi]. rewrite lookup_drop in Hi.
    specialize (Hhi (r + i)%nat (generated m) ltac:(lia)). rewrite list_lookup_fmap, Hi in Hhi.
    specialize (Hhi eq_refl). unfold at_or_before in Hhi. lia. }
  rewrite Hf. clear Hf Hr. destruct (decide (0 < r)%nat) as [Hpos|]; [|exists None; split; [done|]].
  2: { replace r with 0%nat by lia. done. }
  destruct (lookup_lt_is_Some_2 list (r - 1)%nat ltac:(lia)) as [x Hx].
  rewrite list_lookup_fmap, Hx. cbn. replace r with (S (r - 1)) by lia.
  rewrite (take_S_r _ _ x), filter_app, filter_cons, filter_nil by done. replace (S (r - 1) - 1)%nat with (r - 1)%nat by lia.
  assert (at_or_before (generated x) line column = true) as Hx1.
  { apply (Hlo (r - 1)%nat); [lia|]. by rewrite list_lookup_fmap, Hx. }
  unfold at_or_before in Hx1. eexists. split; [done|].
  destruct (Z.eqb_spec (lines (generated x)) line) as [Hl|Hl]; cbn.
  - rewrite decide_True by (split; [done|lia]). by rewrite last_snoc, Hx.
  - rewrite decide_False by (intros []; congruence). rewrite app_nil_r.
    replace (filter _ _) with (@nil Mapping); [done|]. symmetry. apply filter_none.
    intros m Hm [H1 H2]. apply list_elem_of_lookup in Hm as [i Hi]. apply lookup_take_Some in Hi as [Hi Hlt].
    assert (pos_le (generated m) (generated x)) as Hp.
    { apply (sorted_lookup (generated <$> list) i (r - 1)); [done|lia| |]; by rewrite list_lookup_fmap, ?Hi, ?Hx. }
    unfold pos_le in Hp. lia.
Qed.

Lemma list_find_ok l line column :
  sorted (positions l) -> list_find l line column = Some (last (filter (on_line_before line column) (rows l))).
Proof.
  unfold positions, rows, list_find. intros Hs. destruct (impl l) as [list|list].
  - replace (wn_generated <$> list) with (generated <$> (to_named <$> list)) by (rewrite <- list_fmap_compose; done).
    destruct (find_index_ok _ line column Hs) as (r & -> & H). destruct r as [i|]; cbn; [|by rewrite H].
    destruct H as [[m Hm] <-]. rewrite list_lookup_fmap in *. by destruct (list !! i).
  - destruct (find_index_ok _ line column Hs) as (r & -> & H). destruct r as [i|]; cbn; [|by rewrite H].
    destruct H as [[m Hm] <-]. by rewrite Hm.
Qed.

(** * Sort *)

(** [l'] is [l] sorted by the key, equal keys in their old order. *)
Definition stable_sort {A} (key : A -> LineColumnOffset) (l l' : list A) : Prop :=
  l' ≡ₚ l /\ sorted (key <$> l') /\
  forall k, filter (fun x => key x = k) l' = filter (fun x => key x = k) l.

Section Sort.
Context {A : Type} (key : A -> LineColumnOffset).

(** Inserting from the right: [x] moves down past the rows after it. *)
Fixpoint insert_rev (x : A) (l : list A) : list A :=
  match l with
  | [] => [x]
  | y :: r => if decide (pos_le (key y) (key x)) then x :: y :: r else y :: insert_rev x r
  end.

Definition insert_row (l : list A) (x : A) : list A := reverse (insert_rev x (reverse l)).

Lemma lookup_pair (l : list A) y x post :
  (l ++ y :: x :: post) !! length l = Some y /\ (l ++ y :: x :: post) !! S (length l) = Some x.
Proof.
  split; [by apply list_lookup_middle|]. rewrite cons_middle, app_assoc. apply list_lookup_middle.
  rewrite length_app; cbn; lia.
Qed.

Lemma less_than_next l x y post :
  less_than key (l ++ y :: x :: post) (S (length l)) (length l) =
    Some (negb (bool_decide (pos_le (key y) (key x)))).
Proof.
  unfold less_than. destruct (lookup_pair l y x post) as [-> ->]. cbn. f_equal. unfold pos_le.
  case_bool_decide as H1; case_bool_decide as H2; cbn; split_ifs; lia.
Qed.

Lemma sort_down_insert pre x post :
  sort_down (less_than key) 0 (pre ++ x :: post) (length pre) = Some (insert_row pre x ++ post).
Proof.
  revert post. induction pre as [|y pre IH] using rev_ind; intros post; [done|].
  rewrite length_app, Nat.add_1_r. cbn [sort_down]. rewrite decide_True by lia.
  rewrite <- (app_assoc pre [y]). cbn [app]. rewrite less_than_next. cbn [mbind option_bind].
  unfold insert_row. rewrite reverse_snoc. cbn [insert_rev].
  case_bool_decide as H; cbn [negb].
  - rewrite decide_True by done. rewrite !reverse_cons, reverse_involutive, <- !app_assoc. done.
  - rewrite decide_False by done. unfold swap_rows.
    destruct (lookup_pair pre y x post) as [-> ->]. cbn [mbind option_bind].
    replace (<[length pre := x]> (<[S (length pre) := y]> (pre ++ y :: x :: post))) with (pre ++ x :: y :: post).
    + rewrite IH. rewrite reverse_cons, <- app_assoc. done.
    + replace (S (length pre)) with (length pre + 1)%nat by lia. rewrite insert_app_r.
      rewrite <- (Nat.add_0_r (length pre)). by rewrite insert_app_r.
Qed.

Lemma sort_up_insert pre post :
  sort_up (less_than key) 0 (length post) (pre ++ post) (length pre) = Some (foldl insert_row pre post).
Proof.
  revert pre; induction post as [|x post IH]; intros pre; cbn [sort_up length foldl]; [by rewrite app_nil_r|].
  rewrite sort_down_insert. cbn [mbind option_bind].
  replace (S (length pre)) with (length (insert_row pre x)); [apply IH|].
  unfold insert_row. rewrite length_reverse, <- (length_reverse pre). generalize (reverse pre) as l.
  induction l as [|y l IHl]; cbn; [done|]. case_decide; cbn; by rewrite ?IHl.
Qed.

Lemma insert_rev_perm x l : insert_rev x l ≡ₚ x :: l.
Proof. induction l as [|y l IH]; cbn; [done|]. case_decide; [done|]. rewrite IH. apply perm_swap. Qed.

Lemma insert_row_perm l x : insert_row l x ≡ₚ l ++ [x].
Proof. unfold insert_row. by rewrite reverse_Permutation, insert_rev_perm, reverse_Permutation, Permutation_cons_append. Qed.

(** Sorted backwards. *)
Lemma insert_rev_sorted x l :
  StronglySorted (flip pos_le) (key <$> l) -> StronglySorted (flip pos_le) (key <$> insert_rev x l).
Proof.
  induction l as [|y l IH]; intros Hs; cbn [insert_rev]; [repeat constructor|].
  cbn [fmap list_fmap] in Hs. apply StronglySorted_cons in Hs as [Hy Hs]. case_decide as Hle.
  - cbn. constructor; [by constructor|]. constructor; [done|].
    eapply Forall_impl; [exact Hy|]. intros z Hz. by trans (key y).
  - cbn. constructor; [by apply IH|]. apply Forall_fmap, Forall_forall. intros z Hz.
    rewrite insert_rev_perm in Hz. apply elem_of_cons in Hz as [->|Hin].
    + unfold flip, pos_le in *. cbn. lia.
    + rewrite Forall_fmap, Forall_forall in Hy. by apply Hy.
Qed.

Lemma reverse_sorted l : StronglySorted (flip pos_le) (key <$> reverse l) <-> sorted (key <$> l).
Proof.
  assert (Transitive (flip pos_le)) by (intros a b c Hab Hbc; unfold flip in *; by trans b).
  unfold sorted. rewrite fmap_reverse. split; intros Hs.
  - apply StronglySorted_Sorted, Sorted_reverse in Hs. rewrite reverse_involutive in Hs.
    apply Sorted_StronglySorted; [apply _|]. exact Hs.
  - apply Sorted_StronglySorted; [done|]. apply Sorted_reverse, StronglySorted_Sorted, Hs.
Qed.

Lemma insert_row_sorted l x : sorted (key <$> l) -> sorted (key <$> insert_row l x).
Proof.
  intros H. apply reverse_sorted. unfold insert_row. rewrite reverse_involutive.
  by apply insert_rev_sorted, reverse_sorted.
Qed.

(** Rows with the key of [x] are before [x] already, so [x] stops after them. *)
Lemma insert_rev_filter k x l :
  filter (fun x => key x = k) (insert_rev x l) = filter (fun x => key x = k) (x :: l).
Proof.
  induction l as [|y l IH]; cbn [insert_rev]; [done|]. case_decide as Hle; [done|].
  rewrite (filter_cons _ y (insert_rev x l)), IH, !filter_cons.
  destruct (decide (key y = k)), (decide (key x = k)); try done.
  exfalso. apply Hle. replace (key y) with (key x) by congruence. reflexivity.
Qed.

Lemma filter_reverse' (P : A -> Prop) `{!forall x, Decision (P x)} (l : list A) :
  filter P (reverse l) = reverse (filter P l).
Proof. induction l as [|x l IH]; [done|]. rewrite reverse_cons, filter_app, IH, !filter_cons, filter_nil. case_decide; by rewrite ?reverse_cons, ?app_nil_r. Qed.

Lemma insert_row_filter k l x :
  filter (fun x => key x = k) (insert_row l x) = filter (fun x => key x = k) (l ++ [x]).
Proof.
  unfold insert_row. rewrite filter_reverse', insert_rev_filter, <- filter_reverse'.
  by rewrite reverse_cons, reverse_involutive.
Qed.

Lemma foldl_insert_stable l : stable_sort key l (foldl insert_row [] l).
Proof.
  induction l as [|x l (Hp & Hs & Hf)] using rev_ind; [repeat split; constructor|].
  rewrite foldl_app. cbn. split; [|split].
  - by rewrite insert_row_perm, Hp.
  - by apply insert_row_sorted.
  - intros k. by rewrite insert_row_filter, !filter_app, Hf.
Qed.

Lemma sort_context_ok l :
  exists l', sort_context (less_than key) 0 (length l) l = Some l' /\ stable_sort key l l'.
Proof.
  exists (foldl insert_row [] l). split; [|apply foldl_insert_stable].
  unfold sort_context. destruct l as [|x l]; [done|]. rewrite decide_False by (cbn; lia).
  replace (length (x :: l) - (0 + 1))%nat with (length l) by (cbn; lia).
  apply (sort_up_insert [x] l).
Qed.

End Sort.

Lemma stable_sort_fmap {A B} (f : A -> B) (key : A -> LineColumnOffset) (key' : B -> LineColumnOffset) l l' :
  (forall x, key' (f x) = key x) -> stable_sort key l l' -> stable_sort key' (f <$> l) (f <$> l').
Proof.
  intros Hk (Hp & Hs & Hf).
  assert (forall k (m : list A), filter (fun x => key' x = k) (f <$> m) = f <$> filter (fun x => key x = k) m) as Hff.
  { intros k m. induction m as [|x m IH]; [done|]. cbn [fmap list_fmap]. rewrite !filter_cons, Hk, IH.
    by case_decide. }
  assert (forall m : list A, key' <$> (f <$> m) = key <$> m) as Hkk.
  { intros m. rewrite <- list_fmap_compose. apply list_fmap_ext. intros. apply Hk. }
  split; [by rewrite Hp|]. split; [by rewrite Hkk|]. intros k. by rewrite !Hff, Hf.
Qed.

Lemma list_sort_ok l :
  exists l', list_sort l = Some l' /\ stable_sort generated (rows l) (rows l') /\
    names l' = names l /\ names_buffer l' = names_buffer l.
Proof.
  unfold list_sort, rows. destruct (impl l) as [list|list].
  - destruct (sort_context_ok wn_generated list) as (l' & -> & H). eexists. split; [done|]. cbn.
    split; [|done]. eapply stable_sort_fmap; [|exact H]. done.
  - destruct (sort_context_ok generated list) as (l' & -> & H). eexists. split; [done|]. by cbn.
Qed.

(** * The parser *)

Definition row_ok (sources_count : Z) (m : Mapping) : Prop :=
  0 <= lines (generated m) < 2 ^ 31 /\ 0 <= columns (generated m) < 2 ^ 31 /\
  0 <= lines (original m) < 2 ^ 31 /\ 0 <= columns (original m) < 2 ^ 31 /\
  0 <= source_index m < sources_count /\ is_i32 (name_index m).

Lemma rows_append l m : exists m', rows (list_append l m) = rows l ++ [m'] /\
  generated m' = generated m /\ original m' = original m /\ source_index m' = source_index m /\
  (name_index m' = name_index m \/ name_index m' = -1).
Proof.
  unfold rows, list_append. destruct (impl l); cbn.
  - rewrite fmap_app. eexists. split; [done|]. repeat split; by right.
  - exists m. repeat split. by left.
Qed.

Lemma rows_ensure l : rows (ensure_with_names l) = rows l.
Proof. unfold rows, ensure_with_names. destruct (impl l) eqn:E; cbn; by rewrite ?E. Qed.

Section ParseOk.
Context (input : bytes) (sources_count : Z) (options : ParseOptions).
Hypothesis Hlen : Z.of_nat (length input) < 2 ^ 31.

(** The invariant of the loop: a line for every semicolon read at most, the
    rows in range and, while no sort is needed, in order. *)
Record p_ok (st : PState) : Prop := {
  ok_remain : (length (p_remain st) <= length input)%nat;
  ok_lines : 0 <= lines (p_generated st) <= Z.of_nat (length input - length (p_remain st));
  ok_columns : 0 <= columns (p_generated st) < 2 ^ 31;
  ok_original : 0 <= lines (p_original st) < 2 ^ 31 /\ 0 <= columns (p_original st) < 2 ^ 31;
  ok_name : is_i32 (p_name_index st);
  ok_rows : Forall (row_ok sources_count) (rows (p_mapping st));
  ok_sorted : p_needs_sort st = false ->
    sorted (positions (p_mapping st)) /\ Forall (fun m => pos_le (generated m) (p_generated st)) (rows (p_mapping st));
  ok_names : names (p_mapping st) = [] /\ names_buffer (p_mapping st) = []
}.

(** What a round may do from a text of [n] bytes. *)
Definition flow_ok (n : nat) (f : Flow) : Prop :=
  match f with
  | Continue st => p_ok st /\ (length (p_remain st) < n)%nat
  | Break st => p_ok st
  | Return f => 0 <= loc_start f <= Z.of_nat (length input)
  end.

Lemma loc_of_ok remain : (length remain <= length input)%nat -> 0 <= loc_of input remain <= Z.of_nat (length input).
Proof. unfold loc_of. intros. case_match; bool_prop; lia. Qed.

Lemma skip_runs_ok n : forall ln remain, (length remain <= n)%nat ->
  0 <= ln -> ln + Z.of_nat (length remain) < 2 ^ 31 ->
  fst (skip_runs ln remain) = ln + Z.of_nat (length remain) - Z.of_nat (length (snd (skip_runs ln remain))) /\
  (snd (skip_runs ln remain) = remain \/ length (snd (skip_runs ln remain)) < length remain)%nat.
Proof.
  induction n as [|n IH]; intros ln remain Hn Hln Hlt.
  { destruct remain; cbn in *; [|lia]. split; [lia|by left]. }
  destruct remain as [|a [|b [|c [|d r]]]]; try (cbn; split; [lia|by left]). cbn [skip_runs].
  destruct (_ && _); [|cbn [fst snd]; split; [lia|by left]].
  cbn [length] in *. unfold add_scalar. change (Z.of_nat HALF_USIZE) with 4.
  rewrite i32_wrap_id by (unfold is_i32; lia).
  destruct (IH (ln + 4) r) as [H1 [H2|H2]]; try lia; rewrite H2 in *; lia.
Qed.

Lemma skip_single_ok remain : forall ln, 0 <= ln -> ln + Z.of_nat (length remain) < 2 ^ 31 ->
  fst (skip_single ln remain) = ln + Z.of_nat (length remain) - Z.of_nat (length (snd (skip_single ln remain))) /\
  (length (snd (skip_single ln remain)) <= length remain)%nat.
Proof.
  induction remain as [|c r IH]; intros ln Hln Hlt; [cbn; lia|]. cbn [skip_single].
  destruct (c =? _); [|cbn [fst snd]; lia]. cbn [length] in *.
  unfold add_scalar. rewrite i32_wrap_id by (unfold is_i32; lia). destruct (IH (ln + 1)); lia.
Qed.

(** Both loops together count the semicolons, at least one when there is one. *)
Lemma skip_lines_ok ln remain :
  0 <= ln -> ln + Z.of_nat (length remain) < 2 ^ 31 ->
  let '(ln1, r1) := skip_runs ln remain in
  let '(ln2, r2) := skip_single ln1 r1 in
  ln2 = ln + Z.of_nat (length remain) - Z.of_nat (length r2) /\ (length r2 <= length remain)%nat /\
  (head remain = Some #";" -> length r2 < length remain)%nat.
Proof.
  intros Hln Hlt. pose proof (skip_runs_ok (length remain) ln remain ltac:(lia) Hln Hlt) as [H1 H2].
  destruct (skip_runs ln remain) as [ln1 r1] eqn:E1. cbn [fst snd] in *.
  assert (length r1 <= length remain)%nat by (destruct H2 as [->|]; lia).
  pose proof (skip_single_ok r1 ln1 ltac:(lia) ltac:(lia)) as [H3 H4].
  destruct (skip_single ln1 r1) as [ln2 r2] eqn:E2. cbn [fst snd] in *.
  split; [lia|]. split; [lia|]. intros Hh. destruct H2 as [->|]; [|lia].
  destruct remain as [|c r]; [done|]. injection Hh as ->. cbn [skip_single length] in *. change (#";" =? #";") with true in E2.
  cbv iota in E2. unfold add_scalar in E2. rewrite i32_wrap_id in E2 by (unfold is_i32; lia).
  pose proof (skip_single_ok r (ln1 + 1) ltac:(lia) ltac:(lia)) as [_ Hr]. rewrite E2 in Hr. cbn [snd] in Hr. lia.
Qed.

(** A coordinate that is not negative after a step is in range. *)
Lemma coordinate_ok a d : 0 <= a < 2 ^ 31 -> - 2 ^ 31 < d < 2 ^ 31 -> (add_scalar a d <? 0) = false ->
  add_scalar a d = a + d /\ 0 <= a + d < 2 ^ 31.
Proof.
  unfold add_scalar. intros Ha Hd H. bool_prop. pose proof (i32_wrap_range (a + d)).
  rewrite i32_wrap_add in * by (unfold is_i32 in *; lia). unfold is_i32 in *. lia.
Qed.

Lemma list_append_ok st name has remain mapping n :
  p_ok st -> is_i32 name -> (length remain <= length (p_remain st))%nat -> (length remain < n)%nat ->
  rows mapping = rows (p_mapping st) -> names mapping = [] -> names_buffer mapping = [] ->
  0 <= p_source_index st < sources_count ->
  flow_ok n (Continue {|
    p_generated := p_generated st; p_original := p_original st; p_name_index := name;
    p_source_index := p_source_index st; p_needs_sort := p_needs_sort st; p_remain := remain;
    p_has_names := has;
    p_mapping := list_append mapping {| generated := p_generated st; original := p_original st;
                                        source_index := p_source_index st; name_index := name |} |}).
Proof.
  intros [H1 H2 H3 H4 H5 H6 H7 H8] Hname Hr Hn Hrows Hnm Hnb Hsrc.
  destruct (rows_append mapping {| generated := p_generated st; original := p_original st;
    source_index := p_source_index st; name_index := name |}) as (m' & Hm' & Hg & Ho & Hs & Hi). cbn in *.
  split; [|done]. split; cbn; try done; try lia.
  - rewrite Hm', Hrows. apply Forall_app. split; [done|]. constructor; [|constructor].
    unfold row_ok. rewrite Hg, Ho, Hs. repeat split; try lia.
    all: unfold is_i32 in *; destruct Hi as [->| ->]; lia.
  - intros Hns. destruct (H7 Hns) as [Hso Hle]. unfold positions in *. rewrite Hm', Hrows.
    rewrite fmap_app. cbn. rewrite Hg. split.
    + apply StronglySorted_app. split; [|split; [done|repeat constructor]].
      intros x y Hx ->%list_elem_of_singleton. apply list_elem_of_fmap in Hx as (m & -> & Hm).
      rewrite Forall_forall in Hle. by apply Hle.
    + apply Forall_app. split; [done|]. constructor; [|constructor]. by rewrite Hg.
  - unfold list_append. destruct (impl mapping); by cbn.
Qed.
Lemma fail_ok e v remain n :
  (length remain <= length input)%nat -> exists f, fail input e v remain = Some f /\ flow_ok n f.
Proof. intros. eexists. split; [done|]. by apply loc_of_ok. Qed.

(** The rest of a text after a decoded number. *)
Lemma decode_rest (remain : bytes) :
  exists d r, decode remain 0 = Some d /\ - 2 ^ 31 < vlq_value d < 2 ^ 31 /\
    slice_from remain (vlq_start d) = Some r /\
    length r = (length remain - vlq_start d)%nat /\ (vlq_start d <= length remain)%nat.
Proof.
  destruct (decode_total remain 0 ltac:(lia)) as (d & Hd & Hv & Hs).
  exists d, (drop (vlq_start d) remain). rewrite slice_from_ok, length_drop by lia. repeat split; done || lia.
Qed.

Lemma parse_name_ok st n :
  p_ok st -> (length (p_remain st) < n)%nat -> 0 <= p_source_index st < sources_count ->
  exists f, parse_name input options st = Some f /\ flow_ok n f.
Proof.
  intros Hok Hn Hsrc. pose proof Hok as [H1 H2 H3 H4 H5 H6 H7 [H8 H9]].
  unfold parse_name. destruct (p_remain st) as [|c tl] eqn:Hr.
  { eexists. split; [done|]. apply list_append_ok; try done. rewrite Hr. cbn. lia. }
  cbn [length] in *.
  destruct (c =? #","); [eexists; split; [done|]; apply list_append_ok; try done; rewrite ?Hr; cbn; lia|].
  destruct (c =? #";"); [eexists; split; [done|]; apply list_append_ok; try done; rewrite ?Hr; cbn; lia|].
  destruct (decode_rest (c :: tl)) as (d & r & -> & Hv & Hsl & Hlr & Hds). cbn [mbind option_bind].
  case_decide as Hz; [apply fail_ok; cbn; lia|]. rewrite Hsl. cbn [mbind option_bind].
  eexists. split; [done|]. cbn [length] in *.
  set (rest := match r with [] => _ | _ => _ end).
  assert (length rest <= length r)%nat by (unfold rest; destruct r; [done|]; case_match; cbn; lia).
  apply list_append_ok; try done; rewrite ?Hr; cbn [length]; try lia.
  - case_match; [apply i32_wrap_range|done].
  - case_match; [by rewrite rows_ensure|done].
  - case_match; [|done]. unfold ensure_with_names. by case_match.
  - case_match; [|done]. unfold ensure_with_names. by case_match.
Qed.

Lemma parse_original_ok st n :
  p_ok st -> (length (p_remain st) < n)%nat ->
  exists f, parse_original input sources_count options st = Some f /\ flow_ok n f.
Proof.
  intros Hok Hn. pose proof Hok as [H1 H2 H3 H4 H5 H6 H7 [H8 H9]]. unfold parse_original.
  destruct (decode_rest (p_remain st)) as (d & r & -> & Hv & Hsl & Hlr & Hds). cbn [mbind option_bind].
  case_decide; [by apply fail_ok|]. destruct (_ || _) eqn:Esrc; [by apply fail_ok|]. bool_prop.
  rewrite Hsl. cbn [mbind option_bind].
  destruct (decode_rest r) as (d2 & r2 & -> & Hv2 & Hsl2 & Hlr2 & Hds2). cbn [mbind option_bind].
  case_decide; [apply fail_ok; lia|]. destruct (_ <? 0) eqn:Eln; [apply fail_ok; lia|].
  apply coordinate_ok in Eln as [Eln Hln]; [|lia|lia]. rewrite Hsl2. cbn [mbind option_bind].
  destruct (decode_rest r2) as (d3 & r3 & -> & Hv3 & Hsl3 & Hlr3 & Hds3). cbn [mbind option_bind].
  case_decide; [apply fail_ok; lia|]. destruct (_ <? 0) eqn:Ecol; [apply fail_ok; lia|].
  apply coordinate_ok in Ecol as [Ecol Hcol]; [|lia|lia]. rewrite Hsl3. cbn [mbind option_bind].
  apply parse_name_ok; cbn; [|lia|lia]. rewrite Eln, Ecol. split; cbn; try done; lia.
Qed.

Lemma parse_generated_ok st :
  p_ok st -> p_remain st <> [] ->
  exists f, parse_generated input sources_count options st = Some f /\ flow_ok (length (p_remain st)) f.
Proof.
  intros Hok Hne. pose proof Hok as [H1 H2 H3 H4 H5 H6 H7 [H8 H9]]. unfold parse_generated.
  destruct (decode_rest (p_remain st)) as (d & r & -> & Hv & Hsl & Hlr & Hds). cbn [mbind option_bind].
  case_decide; [by apply fail_ok|]. destruct (_ <? 0) eqn:Ecol at 1; [by apply fail_ok|].
  apply coordinate_ok in Ecol as [Ecol Hcol]; [|lia|lia]. rewrite Hsl. cbn [mbind option_bind]. rewrite Ecol.
  pose (next := fun remain => {|
    p_generated := {| lines := lines (p_generated st); columns := columns (p_generated st) + vlq_value d |};
    p_original := p_original st; p_name_index := p_name_index st; p_source_index := p_source_index st;
    p_needs_sort := p_needs_sort st || (vlq_value d <? 0); p_remain := remain; p_has_names := p_has_names st;
    p_mapping := p_mapping st |}).
  assert (forall remain, (length remain <= length r)%nat -> p_ok (next remain)) as Hnext.
  { intros remain Hl. unfold next. split; cbn; try done; try lia.
    intros Hns. bool_prop. destruct (H7 ltac:(done)) as [Hs Hle]. split; [done|].
    eapply Forall_impl; [exact Hle|]. intros m. unfold pos_le. cbn. lia. }
  destruct r as [|c tl].
  { eexists. split; [done|]. apply Hnext. done. }
  destruct (c =? #","); [|destruct (c =? #";")].
  - eexists. split; [done|]. cbn [length] in *. split; [apply Hnext; cbn; lia|]. cbn. lia.
  - eexists. split; [done|]. cbn [length] in *. split; [apply Hnext; cbn; lia|]. cbn. lia.
  - apply parse_original_ok; [by apply Hnext|]. cbn in *. lia.
Qed.

Lemma mappings_step_ok st :
  p_ok st -> p_remain st <> [] ->
  exists f, parse_step input sources_count options st = Some f /\ flow_ok (length (p_remain st)) f.
Proof.
  intros Hok Hne. pose proof Hok as [H1 H2 H3 H4 H5 H6 H7 [H8 H9]]. unfold parse_step.
  destruct (p_remain st) as [|c tl] eqn:Hr; [done|]. destruct (Z.eqb_spec c #";") as [->|].
  2: { destruct (parse_generated_ok st) as (f & Hf & Hfo); [done|congruence|]. exists f. by rewrite <- Hr. }
  pose proof (skip_lines_ok (lines (p_generated st)) (#";" :: tl) ltac:(lia) ltac:(lia)) as Hsk.
  destruct (skip_runs _ _) as [ln1 r1]. destruct (skip_single ln1 r1) as [ln2 r2].
  destruct Hsk as (Hln & Hl & Hlt). specialize (Hlt eq_refl).
  set (st' := {| p_generated := _ |}).
  assert (p_ok st') as Hok'.
  { unfold st'. split; cbn [p_remain p_generated p_original p_name_index p_mapping p_needs_sort lines columns]; try done; try (unfold START; lia).
    intros Hns. destruct (H7 Hns) as [Hs Hle]. split; [done|].
    eapply Forall_impl; [exact Hle|]. intros m. unfold pos_le. cbn. lia. }
  destruct r2 as [|c2 r2]; [by eexists|].
  destruct (parse_generated_ok st') as (f & Hf & Hfo); [done|done|]. exists f. split; [done|].
  destruct f; cbn in *; try done. destruct Hfo as [? Hl2]. split; [done|]. cbn in *. lia.
Qed.

Lemma mappings_loop_ok fuel : forall st,
  p_ok st -> (length (p_remain st) <= fuel)%nat ->
  exists r, parse_loop input sources_count options fuel st = Some r /\
    match r with
    | Ok st' => p_ok st'
    | Err f => 0 <= loc_start f <= Z.of_nat (length input)
    end.
Proof.
  induction fuel as [|fuel IH]; intros st Hok Hf; cbn [parse_loop].
  { destruct (p_remain st); [by exists (Ok st)|cbn in Hf; lia]. }
  destruct (p_remain st) as [|c tl] eqn:Hr; [by exists (Ok st)|].
  destruct (mappings_step_ok st) as (f & -> & Hfo); [done|congruence|]. cbn [mbind option_bind].
  destruct f as [st'|st'|f]; cbn in Hfo.
  - destruct Hfo as [Hok' Hl]. rewrite Hr in Hl. cbn [length] in *. apply IH; [done|lia].
  - by exists (Ok st').
  - by exists (Err f).
Qed.

Lemma parse_init_ok : p_ok (parse_init input).
Proof.
  split; cbn; try done; unfold START; try lia.
  - intros _. repeat constructor.
Qed.

(** [parse] returns: an error with a location in the input, or a list of rows
    in range, sorted when [options.sort] asks for it. *)
Lemma parse_total_ok count :
  exists r, parse input sources_count options count = Some r /\
    match r with
    | Fail f => 0 <= loc_start f <= Z.of_nat (length input)
    | Success map =>
      input_line_count map = count /\ Forall (row_ok sources_count) (rows (mappings map)) /\
      names (mappings map) = [] /\ names_buffer (mappings map) = [] /\
      (opt_sort options = true -> sorted (positions (mappings map)))
    end.
Proof.
  unfold parse. destruct (mappings_loop_ok (length input) (parse_init input) parse_init_ok ltac:(cbn; lia)) as (r & -> & Hr).
  cbn [mbind option_bind]. destruct r as [st|f]; [|by exists (Fail f)].
  destruct Hr as [_ _ _ _ _ Hrows Hsorted [Hn Hb]].
  destruct (p_needs_sort st) eqn:Ens; cbn [andb]; [destruct (opt_sort options)|].
  - destruct (list_sort_ok (p_mapping st)) as (l' & -> & (Hp & Hs & _) & Hn' & Hb'). eexists. split; [done|]. cbn.
    rewrite Hp, Hn', Hb'. done.
  - eexists. split; [done|]. cbn. done.
  - eexists. split; [done|]. cbn. repeat split; try done. intros _. by apply Hsorted.
Qed.
End ParseOk.
