(* ===== verification/Wtf8.v ===== *)
(** Code points of a source text: [wtf8_byte_sequence_length] of
    src/src/bun_core/lib.rs, [decode_wtf8_rune_t] of
    src/src/bun_core/string/immutable/unicode.rs and
    [index_of_newline_or_non_ascii] of src/src/bun_core/string/immutable.rs,
    with the encoding they invert as a reference. *)
From S2P Require Import Prelude.

Definition wtf8_byte_sequence_length (first_byte : Z) : nat :=
  if first_byte <=? 0x7F then 1
  else if (0xC0 <=? first_byte) && (first_byte <=? 0xDF) then 2
  else if (0xE0 <=? first_byte) && (first_byte <=? 0xEF) then 3
  else if (0xF0 <=? first_byte) && (first_byte <=? 0xF7) then 4
  else 1.

Definition wtf8_byte_sequence_length_with_invalid (first_byte : Z) : nat := wtf8_byte_sequence_length first_byte.

(** [p] is an array of four bytes. *)
Definition decode_wtf8_rune_t_multibyte (p : bytes) (len : nat) (zero : Z) : Z :=
  let p0 := nth 0 p 0 in
  let s1 := nth 1 p 0 in
  if negb (Z.land s1 0xC0 =? 0x80) then zero
  else if decide (len = 2%nat) then
    let cp := Z.lor (Z.shiftl (Z.land p0 0x1F) 6) (Z.land s1 0x3F) in
    if cp <? 0x80 then zero else cp
  else
    let s2 := nth 2 p 0 in
    if negb (Z.land s2 0xC0 =? 0x80) then zero
    else if decide (len = 3%nat) then
      let cp := Z.lor (Z.lor (Z.shiftl (Z.land p0 0x0F) 12) (Z.shiftl (Z.land s1 0x3F) 6)) (Z.land s2 0x3F) in
      if cp <? 0x800 then zero else cp
    else
      let s3 := nth 3 p 0 in
      if negb (Z.land s3 0xC0 =? 0x80) then zero
      else
        let cp := Z.lor (Z.lor (Z.lor (Z.shiftl (Z.land p0 0x07) 18) (Z.shiftl (Z.land s1 0x3F) 12))
          (Z.shiftl (Z.land s2 0x3F) 6)) (Z.land s3 0x3F) in
        if (cp <? 0x10000) || (0x10FFFF <? cp) then zero else cp.

Definition decode_wtf8_rune_t (p : bytes) (len : nat) (zero : Z) : Z :=
  match len with
  | O => zero
  | S O => nth 0 p 0
  | _ => decode_wtf8_rune_t_multibyte p len zero
  end.

(** The first [len] bytes of a text in a zeroed array of four. *)
Definition cp_bytes (text : bytes) (len : nat) : bytes :=
  let take_ := (len `min` length text)%nat in take take_ text ++ replicate (4 - take_) 0.

(** The Highway search is C++: its result is the position of the first byte
    below 0x20 or above 127, or the length. *)
Class NewlineSearch := highway_index_of_newline_or_non_ascii : bytes -> nat.

Definition printable (c : Z) : bool := (0x20 <=? c) && (c <=? 127).

Class NewlineSearchOk (F : NewlineSearch) : Prop :=
  highway_newline_spec h : highway_index_of_newline_or_non_ascii h = prefix_len printable h.

Section Search.
Context {F : NewlineSearch}.

(** [index_of_newline_or_non_ascii_check_start]; the outer option is a panic. *)
Definition index_of_newline_or_non_ascii_check_start (CHECK_START : bool) (slice_ : bytes) (offset : nat) : option (option Z) :=
  remaining ← slice_from slice_ offset;
  Some match remaining with
       | [] => None
       | c :: _ =>
         if CHECK_START && ((127 <? c) || ((c <? 0x20) && negb (c =? 0x09))) then Some (Z.of_nat offset)
         else
           let i := highway_index_of_newline_or_non_ascii remaining in
           if decide (i = length remaining) then None
           else Some (trunc32 (trunc32 (Z.of_nat i) + Z.of_nat offset))
       end.

Definition index_of_newline_or_non_ascii (slice_ : bytes) (offset : nat) : option (option Z) :=
  index_of_newline_or_non_ascii_check_start true slice_ offset.

End Search.

(** A search that satisfies the specification. *)
Definition scalar_newline_search : NewlineSearch := fun h => prefix_len printable h.

Lemma scalar_newline_search_ok : NewlineSearchOk scalar_newline_search.
Proof. by intros h. Qed.

(** * The encoding *)

(** Any code point of Unicode, surrogates too. *)
Definition code_point (c : Z) : Prop := 0 <= c <= 0x10FFFF.

Definition wtf8_encode (c : Z) : bytes :=
  if c <? 0x80 then [c]
  else if c <? 0x800 then [0xC0 + c / 64; 0x80 + c mod 64]
  else if c <? 0x10000 then [0xE0 + c / 4096; 0x80 + c / 64 mod 64; 0x80 + c mod 64]
  else [0xF0 + c / 262144; 0x80 + c / 4096 mod 64; 0x80 + c / 64 mod 64; 0x80 + c mod 64].

Definition wtf8 (cps : list Z) : bytes := cps ≫= wtf8_encode.

Lemma wtf8_app a b : wtf8 (a ++ b) = wtf8 a ++ wtf8 b.
Proof. apply bind_app. Qed.

Lemma wtf8_cons c cps : wtf8 (c :: cps) = wtf8_encode c ++ wtf8 cps.
Proof. done. Qed.

Lemma shift_lor a b k : 0 <= k -> 0 <= b < 2 ^ k -> Z.lor (Z.shiftl a k) b = a * 2 ^ k + b.
Proof.
  intros Hk Hb. rewrite <- Z.shiftl_mul_pow2 by lia. assert (Z.land (Z.shiftl a k) b = 0) as H.
  { apply Z.bits_inj'. intros n Hn. rewrite Z.land_spec, Z.bits_0.
    destruct (decide (n < k)); [by rewrite Z.shiftl_spec_low by lia|].
    rewrite <- (Z.mod_small b (2 ^ k)) by lia. rewrite Z.mod_pow2_bits_high by lia. apply andb_false_r. }
  by rewrite <- Z.lxor_lor, <- Z.add_nocarry_lxor.
Qed.

Lemma continuation x : 0 <= x < 64 -> Z.land (0x80 + x) 0xC0 = 0x80 /\ Z.land (0x80 + x) 0x3F = x.
Proof.
  intros Hx. assert (forallb (fun x => (Z.land (0x80 + x) 0xC0 =? 0x80) && (Z.land (0x80 + x) 0x3F =? x)) (seqZ 0 64) = true)
    as H by (vm_compute; reflexivity).
  rewrite forallb_forall in H. specialize (H x). rewrite andb_true_iff, !Z.eqb_eq in H.
  apply H, list_elem_of_In, elem_of_seqZ. lia.
Qed.

Lemma shift_lor2 a b c : 0 <= b < 64 -> 0 <= c < 64 ->
  Z.lor (Z.lor (Z.shiftl a 12) (Z.shiftl b 6)) c = a * 4096 + b * 64 + c.
Proof.
  intros Hb Hc. rewrite (Z.shiftl_mul_pow2 b) by lia. rewrite shift_lor by lia.
  replace (a * 2 ^ 12 + b * 2 ^ 6) with (Z.shiftl (a * 64 + b) 6) by (rewrite Z.shiftl_mul_pow2; lia).
  rewrite shift_lor; lia.
Qed.

Lemma shift_lor3 a b c d : 0 <= b < 64 -> 0 <= c < 64 -> 0 <= d < 64 ->
  Z.lor (Z.lor (Z.lor (Z.shiftl a 18) (Z.shiftl b 12)) (Z.shiftl c 6)) d = a * 262144 + b * 4096 + c * 64 + d.
Proof.
  intros Hb Hc Hd. rewrite (Z.shiftl_mul_pow2 b) by lia. rewrite shift_lor by lia.
  replace (a * 2 ^ 18 + b * 2 ^ 12) with (Z.shiftl (a * 64 + b) 12) by (rewrite Z.shiftl_mul_pow2; lia).
  rewrite shift_lor2; lia.
Qed.

(** The low bits of a lead byte. *)
Lemma lead_bits m k x : 0 <= k -> 0 <= x < 2 ^ k -> Z.land (m * 2 ^ k + x) (Z.ones k) = x.
Proof. intros Hk Hx. rewrite Z.land_ones, Z.add_comm, Z.mod_add, Z.mod_small; lia. Qed.

(** The length and the value of an encoded code point are read back. *)
Lemma wtf8_length_encode c : code_point c ->
  exists b r, wtf8_encode c = b :: r /\ wtf8_byte_sequence_length b = length (wtf8_encode c).
Proof.
  unfold code_point, wtf8_encode, wtf8_byte_sequence_length. intros Hc.
  destruct (Z.ltb_spec c 0x80); [|destruct (Z.ltb_spec c 0x800); [|destruct (Z.ltb_spec c 0x10000)]];
    (eexists; eexists; split; [reflexivity|]); cbn [length]; split_ifs; try reflexivity; exfalso;
    Z.div_mod_to_equations; lia.
Qed.

Lemma decode_encode_rune c rest zero : code_point c ->
  decode_wtf8_rune_t (cp_bytes (wtf8_encode c ++ rest) (length (wtf8_encode c))) (length (wtf8_encode c)) zero = c.
Proof.
  unfold code_point. intros Hc.
  assert (forall l : bytes, cp_bytes (l ++ rest) (length l) = l ++ replicate (4 - length l) 0) as Hcp.
  { intros l. unfold cp_bytes. rewrite Nat.min_l by (rewrite length_app; lia). by rewrite take_app_length. }
  rewrite Hcp. clear Hcp. unfold wtf8_encode.
  destruct (Z.ltb_spec c 0x80); [done|].
  assert (0 <= c mod 64 < 64) as H0 by (apply Z.mod_pos_bound; lia).
  assert (0 <= c / 64 mod 64 < 64) as H1 by (apply Z.mod_pos_bound; lia).
  assert (0 <= c / 4096 mod 64 < 64) as H2 by (apply Z.mod_pos_bound; lia).
  destruct (continuation _ H0) as [C0 D0], (continuation _ H1) as [C1 D1], (continuation _ H2) as [C2 D2].
  destruct (Z.ltb_spec c 0x800); [|destruct (Z.ltb_spec c 0x10000)];
    cbn [length decode_wtf8_rune_t replicate app Nat.sub]; unfold decode_wtf8_rune_t_multibyte; cbn [nth];
    rewrite ?C0, ?C1, ?C2, ?D0, ?D1, ?D2; change (negb (0x80 =? 0x80)) with false; cbv iota.
  - rewrite decide_True by done. assert (0 <= c / 64 < 32) as Hq by (Z.div_mod_to_equations; lia).
    replace (Z.land (0xC0 + c / 64) 0x1F) with (c / 64) by (symmetry; apply (lead_bits 6 5); lia). rewrite shift_lor by lia.
    assert (c / 64 * 2 ^ 6 + c mod 64 = c) as -> by (Z.div_mod_to_equations; lia).
    destruct (Z.ltb_spec c 0x80); lia.
  - rewrite decide_False, decide_True by done. assert (0 <= c / 4096 < 16) as Hq by (Z.div_mod_to_equations; lia).
    replace (Z.land (0xE0 + c / 4096) 0x0F) with (c / 4096) by (symmetry; apply (lead_bits 14 4); lia).
    rewrite shift_lor2 by lia. assert (c / 4096 * 4096 + c / 64 mod 64 * 64 + c mod 64 = c) as -> by (Z.div_mod_to_equations; lia).
    destruct (Z.ltb_spec c 0x800); lia.
  - rewrite !decide_False by done. assert (0 <= c / 262144 < 8) as Hq by (Z.div_mod_to_equations; lia).
    replace (Z.land (0xF0 + c / 262144) 0x07) with (c / 262144) by (symmetry; apply (lead_bits 30 3); lia).
    rewrite shift_lor3 by lia.
    assert (c / 262144 * 262144 + c / 4096 mod 64 * 4096 + c / 64 mod 64 * 64 + c mod 64 = c) as -> by (Z.div_mod_to_equations; lia).
    destruct (Z.ltb_spec c 0x10000), (Z.ltb_spec 0x10FFFF c); cbn [orb]; reflexivity || lia.
Qed.
