(* ===== verification/LineOffsetTable.v ===== *)
(** src/src/sourcemap/LineOffsetTable.rs: the table that turns a byte offset of
    a source text into a line and a column in UTF-16 units, and the lookup of
    an original position in it ([add_source_mapping] of Chunk.rs).

    A [Loc] is its [start].  The table is a list of rows; its allocation is
    assumed to succeed and is not modelled further.  [None] is a panic. *)
From S2P Require Import Prelude Vlq Wtf8.

Record LineOffsetTable := {
  columns_for_non_ascii : list Z; byte_offset_to_first_non_ascii : Z; byte_offset_to_start_of_line : Z
}.

Definition I32_MAX : Z := 2 ^ 31 - 1.

(** The binary search of [find_line]. *)
Fixpoint find_line_loop (fuel : nat) (offsets : list Z) (loc_start : Z) (original_line count : nat) : option nat :=
  if decide (count = 0%nat) then Some original_line
  else
    match fuel with
    | O => None
    | S fuel =>
      let step := Nat.div count 2 in
      let i := (original_line + step)%nat in
      o ← offsets !! i;
      if o <=? loc_start then find_line_loop fuel offsets loc_start (i + 1) (count - step - 1)
      else find_line_loop fuel offsets loc_start original_line step
    end.

Definition find_line (offsets : list Z) (loc : Z) : option Z :=
  if loc <? 0 then None
  else
    original_line ← find_line_loop (length offsets) offsets loc 0 (length offsets);
    if Z.of_nat original_line <? 2 ^ 31 then Some (Z.of_nat original_line - 1) else None.

(** [h + k == len || loc_start < offsets[h + k]]. *)
Definition ends_before (offsets : list Z) (loc_start : Z) (i : nat) : option bool :=
  if decide (i = length offsets) then Some true
  else o ← offsets !! i; Some (loc_start <? o).

Definition find_line_with_hint (offsets : list Z) (loc hint : Z) : option Z :=
  let loc_start := trunc32 loc in
  let h := Z.to_nat hint in
  if decide (h < length offsets)%nat then
    o ← offsets !! h;
    if o <=? loc_start then
      b1 ← ends_before offsets loc_start (h + 1);
      if b1 : bool then Some (i32_wrap hint)
      else
        b2 ← ends_before offsets loc_start (h + 2);
        if b2 : bool then Some (i32_wrap (i32_wrap hint + 1))
        else
          b3 ← ends_before offsets loc_start (h + 3);
          if b3 : bool then Some (i32_wrap (i32_wrap hint + 2)) else find_line offsets loc
    else find_line offsets loc
  else find_line offsets loc.

(** [find_index]; the outer option is a panic. *)
Fixpoint find_index_loop (fuel : nat) (offsets : list Z) (loc_start : Z) (original_line count : nat) : option (option nat) :=
  if decide (count = 0%nat) then Some None
  else
    match fuel with
    | O => None
    | S fuel =>
      let step := Nat.div count 2 in
      let i := (original_line + step)%nat in
      byte_offset ← offsets !! i;
      if byte_offset =? loc_start then Some (Some i)
      else
        inside ← (if decide (i + 1 < length offsets)%nat then
                    next_byte_offset ← offsets !! (i + 1)%nat;
                    Some ((byte_offset <? loc_start) && (loc_start <? next_byte_offset))
                  else Some false);
        if inside : bool then Some (Some i)
        else if byte_offset <? loc_start
        then find_index_loop fuel offsets loc_start (i + 1) (count - step - 1)
        else find_index_loop fuel offsets loc_start original_line step
    end.

Definition find_index (offsets : list Z) (loc : Z) : option (option nat) :=
  if loc <? 0 then None else find_index_loop (length offsets) offsets loc 0 (length offsets).

(** The locals of [generate_in]. *)
Record GState := {
  column : Z; first_non_ascii : Z; column_byte_offset : Z; line_byte_offset : Z;
  scratch : list Z; rows_so_far : list LineOffsetTable; remaining : bytes
}.

Definition generate_init (contents : bytes) : GState := {|
  column := 0; first_non_ascii := I32_MAX; column_byte_offset := 0; line_byte_offset := 0;
  scratch := []; rows_so_far := []; remaining := contents |}.

Section Generate.
Context {F : NewlineSearch} (contents_len : nat).

Definition is_newline (c : Z) : bool := (c =? 0x0D) || (c =? 0x0A) || (c =? 0x2028) || (c =? 0x2029).

(** The match on the code point: a newline ends the row, any other character
    moves the column; then the [cp_len] bytes are passed. *)
Definition generate_char (st : GState) (c : Z) (cp_len : nat) : option GState :=
  if is_newline c then
    if (c =? 0x0D) && bool_decide (1 < length (remaining st))%nat && bool_decide (remaining st !! 1%nat = Some 0x0A) then
      r ← slice_from (remaining st) 1;
      Some {| column := i32_wrap (column st + 1); first_non_ascii := first_non_ascii st;
              column_byte_offset := column_byte_offset st; line_byte_offset := line_byte_offset st;
              scratch := scratch st; rows_so_far := rows_so_far st; remaining := r |}
    else
      r ← slice_from (remaining st) cp_len;
      Some {| column := 0; first_non_ascii := I32_MAX; column_byte_offset := 0; line_byte_offset := 0; scratch := [];
              rows_so_far := rows_so_far st ++ [{|
                columns_for_non_ascii := scratch st; byte_offset_to_first_non_ascii := first_non_ascii st;
                byte_offset_to_start_of_line := line_byte_offset st |}];
              remaining := r |}
  else
    r ← slice_from (remaining st) cp_len;
    Some {| column := i32_wrap (column st + ((if 0xFFFF <? c then 1 else 0) + 1)); first_non_ascii := first_non_ascii st;
            column_byte_offset := column_byte_offset st; line_byte_offset := line_byte_offset st;
            scratch := scratch st; rows_so_far := rows_so_far st; remaining := r |}.

(** The repeated column up to the offset: [extend(repeat_n(column, need))]. *)
Definition extend_scratch (scratch : list Z) (column line_bytes_so_far column_byte_offset : Z) : list Z :=
  scratch ++ replicate (Z.to_nat (trunc32 (line_bytes_so_far - column_byte_offset + 1))) column.

(** A round of the loop of [generate_in]. *)
Definition generate_step (st : GState) : option GState :=
  b0 ← head (remaining st);
  let len_ := wtf8_byte_sequence_length_with_invalid b0 in
  let c := if decide (len_ = 1%nat) then b0 else decode_wtf8_rune_t (cp_bytes (remaining st) len_) len_ 0 in
  let offset := trunc32 (Z.of_nat (contents_len - length (remaining st))) in
  let line_byte_offset := if column st =? 0 then offset else line_byte_offset st in
  let starts := (0x7F <? c) && bool_decide (scratch st = []) in
  let scratch1 := if starts then [column st] else scratch st in
  let column_byte_offset := if starts then trunc32 (offset - line_byte_offset) else column_byte_offset st in
  let first_non_ascii := if starts then column_byte_offset else first_non_ascii st in
  let at_char scratch column_byte_offset := {|
    column := column st; first_non_ascii := first_non_ascii; column_byte_offset := column_byte_offset;
    line_byte_offset := line_byte_offset; scratch := scratch; rows_so_far := rows_so_far st; remaining := remaining st |} in
  if bool_decide (scratch1 <> []) then
    let line_bytes_so_far := trunc32 (offset - line_byte_offset) in
    generate_char
      (at_char (extend_scratch scratch1 (column st) line_bytes_so_far column_byte_offset) (trunc32 (line_bytes_so_far + 1))) c len_
  else if (14 <=? c) && (c <=? 127) then
    j ← index_of_newline_or_non_ascii_check_start false (remaining st) len_;
    let n := match j with Some j => Z.to_nat j | None => length (remaining st) end in
    if Z.of_nat n <? 2 ^ 31 then
      r ← slice_from (remaining st) n;
      Some {| column := i32_wrap (column st + Z.of_nat n); first_non_ascii := first_non_ascii;
              column_byte_offset := column_byte_offset; line_byte_offset := line_byte_offset;
              scratch := scratch1; rows_so_far := rows_so_far st; remaining := r |}
    else None
  else generate_char (at_char scratch1 column_byte_offset) c len_.

Fixpoint generate_loop (fuel : nat) (st : GState) : option GState :=
  match remaining st with
  | [] => Some st
  | _ =>
    match fuel with
    | O => None
    | S fuel => st ← generate_step st; generate_loop fuel st
    end
  end.

End Generate.

Definition generate {F : NewlineSearch} (contents : bytes) : option (list LineOffsetTable) :=
  st ← generate_loop (length contents) (length contents) (generate_init contents);
  let line_byte_offset := if column st =? 0 then trunc32 (Z.of_nat (length contents)) else line_byte_offset st in
  let scratch :=
    if bool_decide (scratch st <> []) then
      extend_scratch (scratch st) (column st) (trunc32 (trunc32 (Z.of_nat (length contents)) - line_byte_offset))
        (column_byte_offset st)
    else [] in
  Some (rows_so_far st ++ [{|
    columns_for_non_ascii := scratch; byte_offset_to_first_non_ascii := first_non_ascii st;
    byte_offset_to_start_of_line := line_byte_offset |}]).

(** The original line and column of a location ([add_source_mapping]), with the
    cached columns of the table. *)
Definition original_position (table : list LineOffsetTable) (byte_offsets first_non_ascii : list Z) (loc hint : Z) :
    option (Z * Z) :=
  original_line ← find_line_with_hint byte_offsets loc hint;
  let idx := Z.to_nat (Z.max original_line 0) in
  start ← byte_offsets !! idx;
  let original_column := i32_wrap (loc - i32_wrap start) in
  first ← first_non_ascii !! idx;
  if i32_wrap first <=? original_column then
    row ← table !! idx;
    match columns_for_non_ascii row with
    | [] => Some (original_line, original_column)
    | cols =>
      original_column ← cols !! Z.to_nat (trunc32 (trunc32 original_column - first));
      Some (original_line, original_column)
    end
  else Some (original_line, original_column).
