(* ===== verification/LineOffsetTableSpec.v ===== *)
(** What the line table of a text holds, row by row, and where a location is
    found in it. *)
From S2P Require Import Prelude Vlq Wtf8 LineOffsetTable.

(** * Lines of code points *)

(** UTF-16 units. *)
Definition units (c : Z) : Z := if 0xFFFF <? c then 2 else 1.
Fixpoint width (l : list Z) : Z := match l with [] => 0 | c :: r => units c + width r end.

Definition len (l : list Z) : nat := length (wtf8 l).
#[global] Arguments len : simpl never.

Definition ascii (c : Z) : bool := c <=? 0x7F.

(** A character ends the line, unless it is the return of a return-newline. *)
Definition breaks (c : Z) (next : option Z) : bool :=
  is_newline c && negb ((c =? 0x0D) && bool_decide (next = Some 0x0A)).

Fixpoint ascii_prefix (l : list Z) : list Z :=
  match l with c :: r => if ascii c then c :: ascii_prefix r else [] | [] => [] end.
Fixpoint wide_suffix (l : list Z) : list Z :=
  match l with c :: r => if ascii c then wide_suffix r else l | [] => [] end.

(** For every byte of the characters, the column after its character. *)
Fixpoint columns_after (u : Z) (l : list Z) : list Z :=
  match l with
  | [] => []
  | x :: r => replicate (len [x]) (u + units x) ++ columns_after (u + units x) r
  end.

(** The scratch once the last character of [l] has been reached: an entry for
    the column of the first non-ASCII character, and then one for every byte
    from that character to the last. *)
Definition line_scratch (l : list Z) : list Z :=
  match wide_suffix l with
  | [] => []
  | m => width (ascii_prefix l) :: width (ascii_prefix l) :: columns_after (width (ascii_prefix l)) (removelast m)
  end.

Definition line_first (l : list Z) : Z :=
  match wide_suffix l with [] => I32_MAX | _ => Z.of_nat (len (ascii_prefix l)) end.

(** The row of the line [l] that the character [e] ends. *)
Definition row (start : nat) (l : list Z) (e : Z) : LineOffsetTable := {|
  columns_for_non_ascii := line_scratch (l ++ [e]); byte_offset_to_first_non_ascii := line_first (l ++ [e]);
  byte_offset_to_start_of_line := Z.of_nat start |}.

(** The rows of a text, [l] being what is before it on its first line.  The
    end of the text is like a line feed. *)
Fixpoint table_rows (start : nat) (l cps : list Z) : list LineOffsetTable :=
  match cps with
  | [] => [row start l 0x0A]
  | c :: r =>
    if breaks c (head r) then row start l c :: table_rows (start + len l + len [c]) [] r
    else table_rows start (l ++ [c]) r
  end.

(** * Facts on lines *)

Lemma units_range c : 1 <= units c <= 2.
Proof. unfold units. case_match; lia. Qed.

Lemma width_app a b : width (a ++ b) = width a + width b.
Proof. induction a as [|c a IH]; cbn; lia. Qed.

Lemma width_nonneg l : 0 <= width l.
Proof. induction l as [|c l IH]; cbn; [lia|]. unfold units. case_match; lia. Qed.

Lemma width_zero l : width l = 0 <-> l = [].
Proof. split; [|by intros ->]. destruct l as [|c l]; [done|]. cbn. pose proof (width_nonneg l). unfold units. case_match; lia. Qed.

Lemma len_app a b : len (a ++ b) = (len a + len b)%nat.
Proof. unfold len. by rewrite wtf8_app, length_app. Qed.

Lemma len_one c : (1 <= len [c])%nat.
Proof. unfold len, wtf8. cbn. rewrite app_nil_r. unfold wtf8_encode. repeat case_match; cbn; lia. Qed.

Lemma len_cons c l : len (c :: l) = (len [c] + len l)%nat.
Proof. apply (len_app [c]). Qed.

Lemma width_len l : width l <= Z.of_nat (len l).
Proof.
  induction l as [|c l IH]; [done|]. rewrite len_cons. cbn [width].
  assert (units c <= Z.of_nat (len [c])); [|lia].
  unfold units, len, wtf8. cbn. rewrite app_nil_r. unfold wtf8_encode. repeat case_match; bool_prop; cbn; lia.
Qed.

Lemma ascii_wide l : l = ascii_prefix l ++ wide_suffix l.
Proof. induction l as [|c l IH]; cbn; [done|]. destruct (ascii c); cbn; congruence. Qed.

Lemma ascii_wide_snoc l y :
  match wide_suffix l with
  | [] => if ascii y then ascii_prefix (l ++ [y]) = l ++ [y] /\ wide_suffix (l ++ [y]) = []
          else ascii_prefix (l ++ [y]) = l /\ wide_suffix (l ++ [y]) = [y]
  | _ => ascii_prefix (l ++ [y]) = ascii_prefix l /\ wide_suffix (l ++ [y]) = wide_suffix l ++ [y]
  end.
Proof.
  induction l as [|c l IH]; cbn; [by destruct (ascii y)|].
  destruct (ascii c) eqn:Ec; cbn; [|done].
  destruct (wide_suffix l); [destruct (ascii y)|]; destruct IH as [-> ->]; done.
Qed.

Lemma ascii_encode c : code_point c -> ascii c = true -> wtf8_encode c = [c].
Proof. unfold ascii, wtf8_encode, code_point. intros Hc H. destruct (Z.ltb_spec c 0x80); [done|lia]. Qed.

Lemma ascii_len c : code_point c -> (ascii c = true <-> len [c] = 1%nat).
Proof.
  unfold ascii, len, wtf8, wtf8_encode, code_point. intros Hc. cbn. rewrite app_nil_r.
  repeat case_match; bool_prop; cbn; split; intros; lia.
Qed.

Lemma columns_after_app u a b : columns_after u (a ++ b) = columns_after u a ++ columns_after (u + width a) b.
Proof.
  revert u; induction a as [|x a IH]; intros u; cbn; [by rewrite Z.add_0_r|].
  rewrite IH, <- app_assoc. do 3 f_equal. lia.
Qed.

Lemma length_columns_after u l : length (columns_after u l) = len l.
Proof.
  revert u; induction l as [|x l IH]; intros u; [done|]. rewrite len_cons. cbn [columns_after].
  by rewrite length_app, length_replicate, IH.
Qed.

(** The entry of a byte just before the boundary after [x :: m1]. *)
Lemma columns_after_lookup m1 : forall u x m2,
  (u :: columns_after u ((x :: m1) ++ m2)) !! (len (x :: m1) - 1)%nat =
    Some (u + width (x :: m1) - match last (x :: m1) with Some y => if decide (len [y] = 1%nat) then units y else 0 | None => 0 end).
Proof.
  induction m1 as [|y m1 IH]; intros u x m2; pose proof (len_one x) as Hx.
  - cbn [app last width columns_after]. case_decide as H1.
    + rewrite H1. cbn. f_equal. lia.
    + destruct (len [x] - 1)%nat as [|n] eqn:En; [lia|].
      rewrite lookup_cons_ne_0 by done. cbn [Nat.pred]. rewrite lookup_app_l by (rewrite length_replicate; lia). rewrite lookup_replicate_2 by lia. f_equal. lia.
  - rewrite (len_cons x). cbn [app columns_after]. pose proof (len_one y). rewrite (len_cons y).
    destruct (len [x]) as [|n] eqn:En; [lia|]. rewrite replicate_S_end.
    rewrite <- (app_assoc (replicate n _)), app_comm_cons, lookup_app_r by (cbn [length]; rewrite length_replicate; lia).
    cbn [length app]. rewrite length_replicate. specialize (IH (u + units x) y m2). rewrite (len_cons y) in IH.
    replace (S n + (len [y] + len m1) - 1 - S n)%nat with (len [y] + len m1 - 1)%nat by lia.
    cbn [app columns_after] in IH. rewrite IH. f_equal.
    change (last (x :: y :: m1)) with (last (y :: m1)). destruct (last (y :: m1)); cbn [width]; lia.
Qed.

(** The entries that are added when the next character is reached. *)
Lemma extend_line l y : wide_suffix l <> [] -> Z.of_nat (len l) < 2 ^ 31 ->
  extend_scratch (line_scratch l) (width l) (Z.of_nat (len l)) (Z.of_nat (S (len (removelast l)))) = line_scratch (l ++ [y]).
Proof.
  intros Hw Hlen. pose proof (ascii_wide l) as Hl. pose proof (ascii_wide_snoc l y) as Hs. unfold line_scratch.
  destruct (wide_suffix l) as [|c m] eqn:Ew; [done|]. destruct Hs as [-> ->].
  destruct ((c :: m) ++ [y]) as [|c' m'] eqn:Ecm; [by destruct m|]. rewrite <- Ecm, removelast_last. clear Ecm c' m'.
  set (p := ascii_prefix l) in *. destruct (c :: m) as [|x q _] eqn:Eq using rev_ind; [done|]. clear Eq Hw Ew.
  rewrite removelast_last, Hl, app_assoc, removelast_last, !len_app, !width_app, columns_after_app. unfold extend_scratch.
  cbn [app columns_after width]. rewrite app_nil_r. pose proof (len_one x). rewrite Hl, !len_app in Hlen.
  replace (trunc32 _) with (Z.of_nat (len [x])) by (unfold trunc32; rewrite Z.mod_small; lia).
  rewrite Nat2Z.id. cbn [app]. do 4 f_equal. lia.
Qed.

(** * The loop of [generate] *)

Definition line_state (start : nat) (rows : list LineOffsetTable) (l : list Z) (rem : bytes) : GState := {|
  column := width l; first_non_ascii := line_first l;
  column_byte_offset := match wide_suffix l with [] => 0 | _ => Z.of_nat (S (len (removelast l))) end;
  line_byte_offset := match l with [] => 0 | _ => Z.of_nat start end;
  scratch := line_scratch l; rows_so_far := rows; remaining := rem |}.

(** Before the character [y] has moved the column. *)
Definition char_state (start : nat) (rows : list LineOffsetTable) (l : list Z) (y : Z) (rem : bytes) : GState := {|
  column := width l; first_non_ascii := line_first (l ++ [y]);
  column_byte_offset := match wide_suffix (l ++ [y]) with [] => 0 | _ => Z.of_nat (S (len l)) end;
  line_byte_offset := Z.of_nat start; scratch := line_scratch (l ++ [y]); rows_so_far := rows; remaining := rem |}.

Lemma wtf8_cons' y r : wtf8 (y :: r) = wtf8 [y] ++ wtf8 r.
Proof. unfold wtf8. cbn. by rewrite app_nil_r. Qed.

Lemma wtf8_one y : wtf8 [y] = wtf8_encode y.
Proof. unfold wtf8. cbn. apply app_nil_r. Qed.

(** A line feed comes next exactly when its byte does. *)
Lemma head_newline r : Forall code_point r -> head (wtf8 r) = Some 0x0A <-> head r = Some 0x0A.
Proof.
  intros H. destruct H as [|c r Hc _]; [done|]. rewrite wtf8_cons. unfold code_point in Hc. cbn [head].
  unfold wtf8_encode. destruct (Z.ltb_spec c 0x80); [done|].
  repeat case_match; bool_prop; cbn; split; intros [= E]; exfalso; try lia; Z.div_mod_to_equations; lia.
Qed.

(** Reading the character at the front of a text. *)
Lemma read_char y r : code_point y -> exists b rest,
  wtf8 (y :: r) = b :: rest /\ wtf8_byte_sequence_length_with_invalid b = len [y] /\
  (if decide (len [y] = 1%nat) then b else decode_wtf8_rune_t (cp_bytes (b :: rest) (len [y])) (len [y]) 0) = y.
Proof.
  intros Hy. rewrite wtf8_cons' , wtf8_one. unfold len. rewrite wtf8_one.
  destruct (wtf8_length_encode y Hy) as (b & t & E & Hl). exists b, (t ++ wtf8 r). split; [by rewrite E|]. split; [done|].
  case_decide as H1.
  - assert (wtf8_encode y = [y]) as Ey.
    { apply ascii_encode; [done|]. apply ascii_len; [done|]. unfold len. by rewrite wtf8_one. }
    congruence.
  - rewrite app_comm_cons, <- E. by apply decode_encode_rune.
Qed.

Lemma printable_run r : Forall code_point r ->
  exists run rest, r = run ++ rest /\ Forall (fun c => printable c = true) run /\
    prefix_len printable (wtf8 r) = len run /\ len run = length run /\
    (prefix_len printable (wtf8 r) = length (wtf8 r) <-> rest = []).
Proof.
  induction 1 as [|c r Hc Hr IH]; [by exists [], []|].
  rewrite wtf8_cons'. destruct (printable c) eqn:Ep.
  - destruct IH as (run & rest & -> & Hrun & Hlen & Hl & Hiff). exists (c :: run), rest.
    assert (wtf8 [c] = [c]) as E1.
    { rewrite wtf8_one. apply ascii_encode; [done|]. unfold printable, ascii in *. lia. }
    assert (len [c] = 1%nat) as L1 by (unfold len; by rewrite E1).
    rewrite E1. cbn [app prefix_len length]. rewrite Ep, Hlen, len_cons, L1.
    split; [done|]. split; [by constructor|]. split; [done|]. split; [lia|]. rewrite <- Hiff, Hlen. lia.
  - exists [], (c :: r). split; [done|]. split; [constructor|].
    assert (prefix_len printable (wtf8 [c] ++ wtf8 r) = 0%nat) as ->.
    { assert (exists b t, wtf8 [c] = b :: t /\ printable b = false) as (b & t & -> & Hb); [|cbn; by rewrite Hb].
      rewrite wtf8_one. unfold wtf8_encode, code_point in *. destruct (Z.ltb_spec c 0x80); [by eexists _, _|].
      destruct (Z.ltb_spec c 0x800); [|destruct (Z.ltb_spec c 0x10000)]; eexists _, _; (split; [done|]);
        apply andb_false_iff; right; apply Z.leb_gt; Z.div_mod_to_equations; lia. }
    split; [done|]. split; [done|]. rewrite length_app. split; [|done].
    pose proof (len_one c). unfold len in *. lia.
Qed.

Lemma printable_ascii run : Forall (fun c => printable c = true) run -> Forall (fun c => ascii c = true) run.
Proof. intros H. eapply Forall_impl; [exact H|]. unfold printable, ascii. intros c. lia. Qed.

Lemma ascii_append l run : wide_suffix l = [] -> Forall (fun c => ascii c = true) run ->
  ascii_prefix (l ++ run) = l ++ run /\ wide_suffix (l ++ run) = [].
Proof.
  intros Hl Hrun. revert l Hl; induction Hrun as [|c run Hc _ IH]; intros l Hl.
  - rewrite app_nil_r. split; [|done]. pose proof (ascii_wide l) as H. by rewrite Hl, app_nil_r in H.
  - rewrite cons_middle, app_assoc. apply IH. pose proof (ascii_wide_snoc l c) as H. rewrite Hl, Hc in H. apply H.
Qed.

Lemma no_break_run run : forall start l rest,
  Forall (fun c => is_newline c = false) run -> table_rows start l (run ++ rest) = table_rows start (l ++ run) rest.
Proof.
  induction run as [|c run IH]; intros start l rest H; [by rewrite app_nil_r|]. inv H. cbn [app table_rows].
  unfold breaks. rewrite H2. cbn [andb]. rewrite IH by done. by rewrite <- app_assoc.
Qed.

Lemma width_ascii l : Forall (fun c => ascii c = true) l -> width l = Z.of_nat (length l).
Proof. induction 1 as [|c l Hc _ IH]; [done|]. cbn [width length]. unfold units, ascii in *. destruct (Z.ltb_spec 0xFFFF c); lia. Qed.

Section Loop.
Context {F : NewlineSearch} {HF : NewlineSearchOk F} (n : nat).
Hypothesis Hn : Z.of_nat n < 2 ^ 31.

Lemma generate_char_ok start rows l y r :
  code_point y -> Forall code_point r -> (start + len l + len [y] + len r = n)%nat ->
  generate_char (char_state start rows l y (wtf8 (y :: r))) y (len [y]) =
    Some (if breaks y (head r) then line_state (start + len l + len [y]) (rows ++ [row start l y]) [] (wtf8 r)
          else line_state start rows (l ++ [y]) (wtf8 r)).
Proof.
  intros Hy Hr Hlen. pose proof (width_len (l ++ [y])) as Hw. rewrite width_app, len_app in Hw. cbn [width] in Hw.
  pose proof (width_nonneg l). unfold generate_char, char_state, breaks.
  cbn [column first_non_ascii column_byte_offset line_byte_offset scratch rows_so_far remaining].
  rewrite (wtf8_cons' y r).
  assert (slice_from (wtf8 [y] ++ wtf8 r) (len [y]) = Some (wtf8 r)) as Hsl.
  { unfold len. rewrite slice_from_ok by (rewrite length_app; lia). by rewrite drop_app_length. }
  assert (removelast (l ++ [y]) = l) as Hrl by apply removelast_last.
  assert (match l ++ [y] with [] => 0 | _ :: _ => Z.of_nat start end = Z.of_nat start) as Hnil by (by destruct l).
  pose proof (units_range y).
  destruct (is_newline y) eqn:Enl; cbn [andb].
  - destruct (Z.eqb_spec y 0x0D) as [->|Hy13]; cbn [andb negb].
    + assert (wtf8 [0x0D] = [0x0D]) as E13 by reflexivity. assert (len [0x0D] = 1%nat) as L13 by reflexivity.
      rewrite E13, L13 in *. cbn [app length] in *.
      assert (bool_decide ((1 < S (length (wtf8 r)))%nat) && bool_decide ((0x0D :: wtf8 r) !! 1%nat = Some 0x0A) =
        bool_decide (head r = Some 0x0A)) as ->.
      { pose proof (head_newline r Hr) as Hh. destruct (wtf8 r) as [|b rest] eqn:Er; cbn.
        - symmetry. apply bool_decide_eq_false. intros E. apply Hh in E. done.
        - apply bool_decide_ext. cbn in Hh. tauto. }
      destruct (bool_decide (head r = Some 0x0A)); cbn [negb]; rewrite Hsl; cbn [mbind option_bind]; [|done].
      unfold line_state. rewrite Hrl, Hnil, width_app. cbn [width]. do 2 f_equal.
      change (units 0x0D) with 1. rewrite i32_wrap_id by (unfold is_i32; lia). lia.
    + rewrite Hsl. done.
  - rewrite Hsl. cbn [mbind option_bind]. unfold line_state. rewrite Hrl, Hnil, width_app. cbn [width]. do 2 f_equal.
    assert ((if 0xFFFF <? y then 1 else 0) + 1 = units y) as -> by (unfold units; by destruct (_ <? y)).
    rewrite i32_wrap_id by (unfold is_i32; lia). lia.
Qed.
(** A round that does not skip: the character joins the line. *)
Lemma generate_step_char start rows l y r :
  code_point y -> Forall code_point r -> (start + len l + len [y] + len r = n)%nat ->
  wide_suffix (l ++ [y]) <> [] \/ (14 <=? y) && (y <=? 127) = false ->
  generate_step n (line_state start rows l (wtf8 (y :: r))) =
    generate_char (char_state start rows l y (wtf8 (y :: r))) y (len [y]).
Proof.
  intros Hy Hr Hlen Hcase. pose proof (width_zero l) as Hz.
  assert (length (wtf8 (y :: r)) = len [y] + len r)%nat as Hlr by (rewrite <- len_cons; done).
  destruct (read_char y r Hy) as (b & rest & Eb & Hb & Hc).
  unfold generate_step, line_state.
  cbn [column first_non_ascii column_byte_offset line_byte_offset scratch rows_so_far remaining].
  rewrite Eb. cbn [head mbind option_bind]. rewrite Hb, Hc, <- Eb.
  rewrite Hlr. replace (n - (len [y] + len r))%nat with (start + len l)%nat by lia.
  assert (trunc32 (Z.of_nat (start + len l)) = Z.of_nat (start + len l)) as Et by (unfold trunc32; apply Z.mod_small; lia).
  rewrite Et.
  assert ((if width l =? 0 then Z.of_nat (start + len l) else match l with [] => 0 | _ :: _ => Z.of_nat start end) = Z.of_nat start) as ->.
  { destruct (Z.eqb_spec (width l) 0) as [E|E]; [|destruct l; [done|done]].
    apply Hz in E as ->. unfold len, wtf8. cbn. lia. }
  replace (trunc32 (Z.of_nat (start + len l) - Z.of_nat start)) with (Z.of_nat (len l))
    by (unfold trunc32; rewrite Z.mod_small; lia).
  replace (trunc32 (Z.of_nat (len l) + 1)) with (Z.of_nat (S (len l))) by (unfold trunc32; rewrite Z.mod_small; lia).
  pose proof (ascii_wide_snoc l y) as Hs. unfold line_first, line_scratch, char_state, ascii in *.
  destruct (wide_suffix l) as [|c m] eqn:Ew.
  - change (bool_decide (@nil Z = [])) with true. rewrite andb_true_r.
    destruct (Z.leb_spec y 0x7F), (Z.ltb_spec 0x7F y); try lia; destruct Hs as [Ea Es].
    + change (bool_decide (@nil Z <> [])) with false. cbv iota. rewrite Es in Hcase. destruct Hcase as [?|Hcase]; [done|].
      rewrite Hcase. unfold line_first, line_scratch. by rewrite Es.
    + change (bool_decide ([width l] <> [])) with true. unfold line_first, line_scratch. rewrite Es, Ea.
      unfold extend_scratch. rewrite Z.sub_diag. reflexivity.
  - destruct Hs as [Ea Es].
    match goal with |- context [bool_decide ((?x :: ?r) = [])] => change (bool_decide ((x :: r) = [])) with false end.
    rewrite andb_false_r. cbv iota.
    match goal with |- context [bool_decide ((?x :: ?r) <> [])] => change (bool_decide ((x :: r) <> [])) with true end.
    cbv iota. unfold line_first, line_scratch. rewrite Es, Ea.
    destruct ((c :: m) ++ [y]) as [|c' m'] eqn:Ecm; [by destruct m|]. rewrite <- Ecm, removelast_last.
    do 2 f_equal. pose proof (extend_line l y) as He. unfold line_scratch in He. rewrite Ew, Es, Ea, <- Ecm, removelast_last in He.
    apply He; [done|lia].
Qed.

(** A round on a printable character of an ASCII line skips to the next
    character that is not. *)
Lemma generate_step_run start rows l y r :
  code_point y -> Forall code_point r -> (start + len l + len [y] + len r = n)%nat ->
  wide_suffix l = [] -> (14 <=? y) && (y <=? 127) = true ->
  exists run rest, r = run ++ rest /\ Forall (fun c => printable c = true) run /\
    generate_step n (line_state start rows l (wtf8 (y :: r))) = Some (line_state start rows (l ++ y :: run) (wtf8 rest)).
Proof.
  intros Hy Hr Hlen Hw Hc14. destruct (printable_run r Hr) as (run & rest & Er & Hrun & Hp & Hl & Hiff).
  exists run, rest. split; [done|]. split; [done|].
  assert (ascii y = true) as Hya by (unfold ascii; lia).
  assert (wtf8 [y] = [y]) as Ey by (rewrite wtf8_one; by apply ascii_encode).
  assert (len [y] = 1%nat) as Ly by (unfold len; by rewrite Ey).
  assert (wtf8 (y :: r) = y :: wtf8 r) as Eyr by (rewrite wtf8_cons', Ey; done).
  assert (wtf8_byte_sequence_length_with_invalid y = 1%nat) as Hb.
  { unfold wtf8_byte_sequence_length_with_invalid, wtf8_byte_sequence_length. unfold ascii in Hya. by rewrite Hya. }
  destruct (ascii_append l (y :: run) Hw) as [Ea Ew]; [constructor; [done|]; by apply printable_ascii|].
  pose proof (width_zero l) as Hz. pose proof (width_len l) as Hwl. pose proof (width_nonneg l) as Hwn.
  assert (len (run ++ rest) = len run + len rest)%nat as Hlr by apply len_app. rewrite <- Er in Hlr.
  unfold generate_step, line_state. rewrite Ew, Hw. unfold line_scratch, line_first. rewrite Ew, Hw.
  cbn [column first_non_ascii column_byte_offset line_byte_offset scratch rows_so_far remaining].
  rewrite Eyr. cbn [head mbind option_bind]. rewrite Hb, decide_True by done.
  change (bool_decide (@nil Z = [])) with true. rewrite andb_true_r. unfold ascii in Hya.
  destruct (Z.ltb_spec 0x7F y); [lia|]. change (bool_decide (@nil Z <> [])) with false. cbv iota. rewrite Hc14.
  assert (length (y :: wtf8 r) = S (len r)) as Hlyr by done. rewrite Hlyr.
  assert ((if width l =? 0 then trunc32 (Z.of_nat (n - S (len r))) else match l with [] => 0 | _ :: _ => Z.of_nat start end) = Z.of_nat start) as Hstart.
  { destruct (Z.eqb_spec (width l) 0) as [E|E]; [|by destruct l]. apply Hz in E as ->.
    assert (len [] = 0%nat) as L0 by done. unfold trunc32. rewrite Z.mod_small; lia. }
  rewrite Hstart. unfold index_of_newline_or_non_ascii_check_start.
  rewrite slice_from_ok by (cbn; lia). change (drop 1 (y :: wtf8 r)) with (wtf8 r). cbn [mbind option_bind andb].
  rewrite (@highway_newline_spec F HF), Hp.
  assert (exists j, (match wtf8 r with
      | [] => None
      | _ :: _ => if decide (len run = length (wtf8 r)) then None else Some (trunc32 (trunc32 (Z.of_nat (len run)) + Z.of_nat 1))
      end) = j /\ match j with Some j => Z.to_nat j | None => S (len r) end = S (len run)) as (j & -> & ->).
  { eexists. split; [reflexivity|]. destruct (wtf8 r) as [|b t] eqn:Et.
    - unfold len at 1. rewrite Et. cbn in Hp |- *. lia.
    - rewrite <- Et. change (length (wtf8 r)) with (len r). case_decide as Hd; [lia|].
      unfold trunc32. rewrite (Z.mod_small (Z.of_nat (len run))) by lia. rewrite Z.mod_small by lia. lia. }
  destruct (Z.ltb_spec (Z.of_nat (S (len run))) (2 ^ 31)); [|lia].
  rewrite slice_from_ok by (cbn [length]; change (length (wtf8 r)) with (len r); lia). cbn [mbind option_bind drop].
  assert (drop (len run) (wtf8 r) = wtf8 rest) as Hdrop.
  { rewrite Er, wtf8_app. apply drop_app_length'. done. }
  rewrite Hdrop, width_app. cbn [width]. rewrite (width_ascii run) by (by apply printable_ascii).
  assert (units y = 1) as -> by (unfold units; destruct (Z.ltb_spec 0xFFFF y); lia).
  rewrite i32_wrap_id by (unfold is_i32; lia). do 2 f_equal; [lia|]. by destruct l.
Qed.

(** The loop ends with the last line of the text. *)
Lemma generate_loop_ok k : forall fuel start rows l cps,
  (length cps <= k)%nat -> Forall code_point cps -> (start + len l + len cps = n)%nat -> (len cps <= fuel)%nat ->
  exists start' rows' l', generate_loop n fuel (line_state start rows l (wtf8 cps)) = Some (line_state start' rows' l' []) /\
    (start' + len l' = n)%nat /\ rows' ++ [row start' l' 0x0A] = rows ++ table_rows start l cps.
Proof.
  induction k as [|k IH]; intros fuel start rows l cps Hk Hcp Hlen Hf.
  { destruct cps; [|cbn in Hk; lia]. exists start, rows, l. split; [by destruct fuel|]. split; [|done].
    assert (len [] = 0%nat) by done. lia. }
  destruct cps as [|y r].
  { exists start, rows, l. split; [by destruct fuel|]. split; [|done]. assert (len [] = 0%nat) by done. lia. }
  apply Forall_cons in Hcp as [Hy Hr]. rewrite len_cons in *. pose proof (len_one y). cbn [length] in Hk.
  destruct fuel as [|fuel]; [lia|]. cbn [generate_loop].
  assert (exists b t, wtf8 (y :: r) = b :: t) as (b & t & Eb).
  { destruct (wtf8 (y :: r)) eqn:E; [|eauto]. assert (len (y :: r) = 0%nat) as E0 by (unfold len; by rewrite E).
    rewrite len_cons in E0. lia. }
  change (remaining (line_state start rows l (wtf8 (y :: r)))) with (wtf8 (y :: r)). rewrite Eb. rewrite <- Eb. clear Eb b t.
  destruct (decide (wide_suffix (l ++ [y]) = [] /\ (14 <=? y) && (y <=? 127) = true)) as [[Hw Hc]|Hc].
  - assert (wide_suffix l = []) as Hw0.
    { pose proof (ascii_wide_snoc l y) as Hs. destruct (wide_suffix l); [done|]. destruct Hs as [_ Hs]. rewrite Hs in Hw. done. }
    destruct (generate_step_run start rows l y r Hy Hr ltac:(lia) Hw0 Hc) as (run & rest & -> & Hrun & Hstep).
    rewrite Hstep. cbn [mbind option_bind]. apply Forall_app in Hr as [_ Hrest].
    destruct (IH fuel start rows (l ++ y :: run) rest) as (start' & rows' & l' & E & El & Erows); try done.
    + rewrite length_app in Hk. lia.
    + rewrite len_app, len_cons. rewrite len_app in *. lia.
    + rewrite len_app in *. lia.
    + exists start', rows', l'. split; [exact E|]. split; [done|]. rewrite Erows. f_equal.
      change (y :: run ++ rest) with ((y :: run) ++ rest). rewrite no_break_run; [done|].
      constructor; [unfold is_newline; lia|]. eapply Forall_impl; [exact Hrun|]. unfold printable, is_newline. intros c. lia.
  - rewrite generate_step_char; [|done|done|lia|].
    2: { destruct (decide (wide_suffix (l ++ [y]) = [])); [right; apply not_true_iff_false; tauto|by left]. }
    rewrite generate_char_ok by (done || lia). cbn [mbind option_bind table_rows].
    destruct (breaks y (head r)).
    + destruct (IH fuel (start + len l + len [y])%nat (rows ++ [row start l y]) [] r) as (start' & rows' & l' & E & El & Erows); try done; try lia.
      { assert (len [] = 0%nat) by done. lia. }
      exists start', rows', l'. split; [exact E|]. split; [done|]. by rewrite Erows, <- app_assoc.
    + destruct (IH fuel start rows (l ++ [y]) r) as (start' & rows' & l' & E & El & Erows); try done; try lia.
      { rewrite len_app. lia. }
      exists start', rows', l'. done.
Qed.
End Loop.

Lemma generate_ok {F : NewlineSearch} {HF : NewlineSearchOk F} cps :
  Forall code_point cps -> Z.of_nat (len cps) < 2 ^ 31 -> generate (wtf8 cps) = Some (table_rows 0 [] cps).
Proof.
  intros Hcp Hlen. unfold generate. change (length (wtf8 cps)) with (len cps).
  destruct (generate_loop_ok (len cps) Hlen (length cps) (len cps) 0 [] [] cps) as (start & rows & l & E & El & Erows); try done.
  change (generate_init (wtf8 cps)) with (line_state 0 [] [] (wtf8 cps)). rewrite E. cbn [mbind option_bind].
  unfold line_state. cbn [column first_non_ascii column_byte_offset line_byte_offset scratch rows_so_far remaining].
  assert (trunc32 (Z.of_nat (len cps)) = Z.of_nat (len cps)) as Et by (unfold trunc32; apply Z.mod_small; lia).
  rewrite Et. pose proof (width_zero l) as Hz.
  assert ((if width l =? 0 then Z.of_nat (len cps) else match l with [] => 0 | _ :: _ => Z.of_nat start end) = Z.of_nat start) as ->.
  { destruct (Z.eqb_spec (width l) 0) as [H0|H0]; [|by destruct l]. apply Hz in H0 as ->. assert (len [] = 0%nat) by done. lia. }
  replace (trunc32 (Z.of_nat (len cps) - Z.of_nat start)) with (Z.of_nat (len l)) by (unfold trunc32; rewrite Z.mod_small; lia).
  cbn [app] in Erows. rewrite <- Erows. do 3 f_equal. unfold row. f_equal.
  - pose proof (extend_line l 0x0A) as He. pose proof (ascii_wide_snoc l 0x0A) as Hs. unfold line_scratch in *.
    destruct (wide_suffix l) as [|c m].
    + cbn in Hs. destruct Hs as [_ ->]. done.
    + match goal with |- context [bool_decide ((?x :: ?r) <> [])] => change (bool_decide ((x :: r) <> [])) with true end.
      apply He; [done|lia].
  - unfold line_first. pose proof (ascii_wide_snoc l 0x0A) as Hs. destruct (wide_suffix l) as [|c m].
    + cbn in Hs. by destruct Hs as [_ ->].
    + destruct Hs as [-> ->]. by destruct m.
Qed.

(** * Looking up *)

(** [offsets] is split by the location: the lines that start at or before it,
    and the others. *)
Definition split_at (offsets : list Z) (loc : Z) (k : nat) : Prop :=
  (k <= length offsets)%nat /\ forall i o, offsets !! i = Some o -> (o <= loc <-> (i < k)%nat).

Lemma find_line_loop_ok offsets loc k : split_at offsets loc k ->
  forall fuel line count, (count <= fuel)%nat -> (line <= k <= line + count)%nat -> (line + count <= length offsets)%nat ->
  find_line_loop fuel offsets loc line count = Some k.
Proof.
  intros [Hk Hs]. induction fuel as [|fuel IH]; intros line count Hf Hl Hlen; cbn [find_line_loop].
  { rewrite decide_True by lia. f_equal. lia. }
  case_decide as Hc; [f_equal; lia|]. pose proof (Nat.div_lt count 2 ltac:(lia) ltac:(lia)). set (step := Nat.div count 2) in *.
  destruct (lookup_lt_is_Some_2 offsets (line + step)%nat ltac:(lia)) as [o Ho]. rewrite Ho. cbn [mbind option_bind].
  specialize (Hs _ _ Ho). destruct (Z.leb_spec o loc); apply IH; lia.
Qed.

Lemma find_line_ok offsets loc k : split_at offsets loc k -> 0 <= loc -> Z.of_nat (length offsets) < 2 ^ 31 ->
  find_line offsets loc = Some (Z.of_nat k - 1).
Proof.
  intros Hs Hloc Hlen. pose proof Hs as [Hk _]. unfold find_line. destruct (Z.ltb_spec loc 0); [lia|].
  rewrite (find_line_loop_ok offsets loc k) by (done || lia). cbn [mbind option_bind].
  destruct (Z.ltb_spec (Z.of_nat k) (2 ^ 31)); [done|lia].
Qed.

Lemma ends_before_ok offsets loc k i : split_at offsets loc k -> (i <= length offsets)%nat ->
  ends_before offsets loc i = Some (bool_decide (k <= i)%nat).
Proof.
  intros [Hk Hs] Hi. unfold ends_before. case_decide as E; [by rewrite bool_decide_eq_true_2 by lia|].
  destruct (lookup_lt_is_Some_2 offsets i ltac:(lia)) as [o Ho]. rewrite Ho. cbn [mbind option_bind]. f_equal.
  specialize (Hs _ _ Ho). case_bool_decide; lia.
Qed.

(** The hint changes nothing. *)
Lemma find_line_with_hint_ok offsets loc k hint : split_at offsets loc k -> 0 <= loc < 2 ^ 31 -> 0 <= hint ->
  Z.of_nat (length offsets) < 2 ^ 31 -> find_line_with_hint offsets loc hint = Some (Z.of_nat k - 1).
Proof.
  intros Hs Hloc Hh Hlen. pose proof Hs as [Hk Hsp]. unfold find_line_with_hint.
  assert (trunc32 loc = loc) as -> by (unfold trunc32; apply Z.mod_small; lia).
  pose proof (find_line_ok offsets loc k Hs ltac:(lia) Hlen) as Hfl. set (h := Z.to_nat hint).
  case_decide as Hd; [|done]. assert (i32_wrap hint = hint) as -> by (apply i32_wrap_id; unfold is_i32; lia).
  destruct (lookup_lt_is_Some_2 offsets h Hd) as [o Ho]. rewrite Ho. cbn [mbind option_bind].
  specialize (Hsp _ _ Ho). destruct (Z.leb_spec o loc); [|done].
  rewrite (ends_before_ok offsets loc k (h + 1)) by (done || lia). cbn [mbind option_bind].
  case_bool_decide; [f_equal; lia|]. rewrite (ends_before_ok offsets loc k (h + 2)) by (done || lia). cbn [mbind option_bind].
  case_bool_decide; [rewrite i32_wrap_id by (unfold is_i32; lia); f_equal; lia|].
  rewrite (ends_before_ok offsets loc k (h + 3)) by (done || lia). cbn [mbind option_bind].
  case_bool_decide; [rewrite i32_wrap_id by (unfold is_i32; lia); f_equal; lia|done].
Qed.

(** Where a text [pre] followed by [post] ends: its line, the byte its line
    starts at and what it has of that line. *)
Fixpoint position (line start : nat) (l pre post : list Z) : nat * nat * list Z :=
  match pre with
  | [] => (line, start, l)
  | c :: r =>
    if breaks c (head (r ++ post)) then position (S line) (start + len l + len [c]) [] r post
    else position line start (l ++ [c]) r post
  end.

Lemma later_starts cps : forall start l i row,
  table_rows start l cps !! S i = Some row -> Z.of_nat (start + len l) < byte_offset_to_start_of_line row.
Proof.
  induction cps as [|c r IH]; intros start l i row; cbn [table_rows]; [done|].
  pose proof (len_one c). destruct (breaks c (head r)); intros Hrow.
  - cbn [lookup list_lookup] in Hrow.
    assert (Z.of_nat (start + len l + len [c]) <= byte_offset_to_start_of_line row); [|lia].
    destruct i as [|i]; [|apply IH in Hrow; lia]. clear IH. revert Hrow.
    set (s := (start + len l + len [c])%nat). generalize (@nil Z) as k.
    induction r as [|d r IH]; intros k; cbn [table_rows]; [intros [= <-]; cbn; lia|].
    destruct (breaks d (head r)); [intros [= <-]; cbn; lia|apply IH].
  - apply IH in Hrow. rewrite len_app in Hrow. lia.
Qed.

(** The first row is that of the line, to its end or that of the text. *)
Lemma first_row cps : forall start l, exists m e rest, table_rows start l cps = row start (l ++ m) e :: rest /\
  ((exists t, cps = m ++ e :: t) \/ cps = m /\ e = 0x0A).
Proof.
  induction cps as [|c r IH]; intros start l; cbn [table_rows]; [exists [], 0x0A, []; rewrite app_nil_r; auto|].
  destruct (breaks c (head r)).
  - exists [], c. eexists. rewrite app_nil_r. split; [done|]. left. by exists r.
  - destruct (IH start (l ++ [c])) as (m & e & rest & -> & Hm). exists (c :: m), e, rest.
    rewrite <- app_assoc. split; [done|]. destruct Hm as [[t ->]|[-> ->]]; [left; by exists t|by right].
Qed.

(** The rows before a position start before it. *)
Lemma rows_before pre : forall line start l post line' start' l',
  position line start l pre post = (line', start', l') ->
  (start' + len l' = start + len l + len pre)%nat /\ (start <= start')%nat /\
  exists before, table_rows start l (pre ++ post) = before ++ table_rows start' l' post /\
    (line + length before = line')%nat /\
    Forall (fun r => byte_offset_to_start_of_line r <= Z.of_nat start') before.
Proof.
  induction pre as [|c r IH]; intros line start l post line' start' l' H; cbn [position] in H.
  { injection H as <- <- <-. assert (len [] = 0%nat) by done. split; [lia|]. split; [done|].
    exists []. split; [done|]. split; [cbn; lia|constructor]. }
  cbn [app table_rows]. rewrite (len_cons c r). pose proof (len_one c). destruct (breaks c (head (r ++ post))).
  - apply IH in H as (El & Hs & before & -> & Hb & Hf). assert (len [] = 0%nat) as L0 by done. split; [lia|]. split; [lia|].
    exists (row start l c :: before). split; [done|]. split; [cbn; lia|]. constructor; [cbn; lia|done].
  - apply IH in H as (El & Hs & before & -> & Hb & Hf). rewrite len_app in El. split; [lia|]. split; [done|].
    by exists before.
Qed.

Lemma position_Forall (P : Z -> Prop) pre : forall line start l post line' start' l',
  position line start l pre post = (line', start', l') -> Forall P l -> Forall P pre -> Forall P l'.
Proof.
  induction pre as [|c r IH]; intros line start l post line' start' l' H Hl Hp; cbn [position] in H; [by injection H as <- <- <-|].
  apply Forall_cons in Hp as [Hc Hp]. destruct (breaks c (head (r ++ post))); eapply IH; try done.
  apply Forall_app. split; [done|]. by constructor.
Qed.

(** The entry of the byte before the last one is that of the last character
    when it has several bytes, and that of the one before it otherwise. *)
Definition shifted (l : list Z) : bool :=
  match last (wide_suffix l) with Some c => ascii c | None => false end.

Lemma wide_suffix_app a b :
  if bool_decide (wide_suffix a = [])
  then ascii_prefix (a ++ b) = a ++ ascii_prefix b /\ wide_suffix (a ++ b) = wide_suffix b
  else ascii_prefix (a ++ b) = ascii_prefix a /\ wide_suffix (a ++ b) = wide_suffix a ++ b.
Proof.
  induction a as [|c a IH]; [done|]. cbn [wide_suffix ascii_prefix app]. destruct (ascii c).
  - case_bool_decide; destruct IH as [-> ->]; done.
  - done.
Qed.

(** An ASCII text has a byte and a unit for every character. *)
Lemma width_of_ascii l : Forall code_point l -> wide_suffix l = [] -> width l = Z.of_nat (len l).
Proof.
  induction l as [|c l IH]; intros Hcp Hw; [done|]. apply Forall_cons in Hcp as [Hc Hcp].
  cbn [wide_suffix width] in *. destruct (ascii c) eqn:Ea; [|done]. rewrite len_cons, IH by done.
  pose proof (proj1 (ascii_len c Hc) Ea) as ->. unfold units, ascii in *. destruct (Z.ltb_spec 0xFFFF c); lia.
Qed.

(** The column found for the position after [l] in the row of a line. *)
Lemma row_column start l m e :
  Forall code_point (l ++ m ++ [e]) -> Z.of_nat (len (l ++ m ++ [e])) < 2 ^ 31 ->
  let r := row start (l ++ m) e in
  let column := Z.of_nat (len l) in
  (if i32_wrap (byte_offset_to_first_non_ascii r) <=? column then
     match columns_for_non_ascii r with
     | [] => Some column
     | cols => cols !! Z.to_nat (trunc32 (trunc32 column - byte_offset_to_first_non_ascii r))
     end
   else Some column) = Some (width l - if shifted l then 1 else 0).
Proof.
  intros Hcp Hlen r column. unfold r, row, line_first, line_scratch, column, shifted. cbn [byte_offset_to_first_non_ascii columns_for_non_ascii].
  rewrite <- app_assoc. pose proof (wide_suffix_app l (m ++ [e])) as Hw. rewrite len_app in Hlen.
  assert (trunc32 (Z.of_nat (len l)) = Z.of_nat (len l)) as -> by (unfold trunc32; apply Z.mod_small; lia).
  destruct (wide_suffix l) as [|x m1] eqn:El.
  - rewrite bool_decide_eq_true_2 in Hw by done. destruct Hw as [-> ->].
    apply Forall_app in Hcp as [Hcl _]. rewrite (width_of_ascii l Hcl El).
    change (last (@nil Z)) with (@None Z). cbv iota. rewrite Z.sub_0_r.
    destruct (wide_suffix (m ++ [e])) as [|y m2] eqn:Em; [by destruct (_ <=? _)|].
    set (p := ascii_prefix (m ++ [e])). assert (len p <= len (m ++ [e]))%nat.
    { pose proof (len_app p (wide_suffix (m ++ [e]))) as Hp. unfold p in Hp at 1. rewrite <- ascii_wide in Hp. lia. }
    rewrite len_app, i32_wrap_id by (unfold is_i32; lia). destruct (Z.leb_spec (Z.of_nat (len l + len p)) (Z.of_nat (len l))); [|done].
    assert (p = []) as ->.
    { destruct p as [|c p]; [done|]. rewrite (len_cons c p) in *. pose proof (len_one c). lia. }
    replace (trunc32 _) with 0 by (unfold trunc32; replace (len []) with 0%nat by done; rewrite Z.mod_small; lia).
    rewrite app_nil_r. cbn. by rewrite (width_of_ascii l Hcl El).
  - rewrite bool_decide_eq_false_2 in Hw by done. destruct Hw as [-> ->].
    pose proof (ascii_wide l) as Hl. rewrite El in Hl. set (p := ascii_prefix l) in *.
    assert (len l = len p + len (x :: m1))%nat as Hll by (rewrite Hl at 1; apply len_app).
    assert (width l = width p + width (x :: m1)) as -> by (rewrite Hl at 1; apply width_app).
    pose proof (len_one x) as Hx. cbn [app]. rewrite (app_assoc m1).
    change (x :: (m1 ++ m) ++ [e]) with ((x :: m1 ++ m) ++ [e]). rewrite removelast_last.
    rewrite i32_wrap_id by (unfold is_i32; lia). destruct (Z.leb_spec (Z.of_nat (len p)) (Z.of_nat (len l))); [|lia].
    replace (trunc32 _) with (Z.of_nat (len (x :: m1))) by (unfold trunc32; rewrite Z.mod_small; lia).
    rewrite Nat2Z.id.
    rewrite (len_cons x m1) in *. destruct (len [x] + len m1)%nat as [|k] eqn:Ek; [lia|].
    rewrite lookup_cons_ne_0 by done. cbn [Nat.pred].
    pose proof (columns_after_lookup m1 (width p) x m) as Hc. rewrite len_cons, Ek in Hc.
    replace (S k - 1)%nat with k in Hc by lia. cbn [app] in Hc. rewrite Hc. f_equal.
    assert (Forall code_point (x :: m1)) as Hcx by (apply Forall_app in Hcp as [Hcl _]; rewrite Hl in Hcl; by apply Forall_app in Hcl as [_ ?]).
    destruct (last (x :: m1)) as [y|] eqn:Ey; [|lia].
    assert (code_point y) as Hy by (rewrite Forall_forall in Hcx; apply Hcx; by apply last_Some_elem_of).
    pose proof (ascii_len y Hy) as Ha. case_decide as Hd.
    + rewrite (proj2 Ha Hd). unfold units. assert (ascii y = true) as Hya by tauto. unfold ascii in Hya.
      destruct (Z.ltb_spec 0xFFFF y); lia.
    + destruct (ascii y); [by exfalso; apply Hd, Ha|lia].
Qed.

Lemma table_length cps : forall start l, (length (table_rows start l cps) <= S (len cps))%nat.
Proof.
  induction cps as [|c r IH]; intros start l; cbn [table_rows]; [cbn; lia|].
  rewrite (len_cons c r). pose proof (len_one c). destruct (breaks c (head r)); cbn [length]; [specialize (IH (start + len l + len [c])%nat [])|specialize (IH start (l ++ [c]))]; lia.
Qed.

(** A location is looked up on its own line. *)
Lemma original_position_ok pre post hint line start l :
  Forall code_point (pre ++ post) -> Z.of_nat (len (pre ++ post)) < 2 ^ 31 - 1 -> 0 <= hint ->
  position 0 0 [] pre post = (line, start, l) ->
  let table := table_rows 0 [] (pre ++ post) in
  original_position table (byte_offset_to_start_of_line <$> table) (byte_offset_to_first_non_ascii <$> table)
    (Z.of_nat (len pre)) hint = Some (Z.of_nat line, width l - if shifted l then 1 else 0).
Proof.
  intros Hcp Hlen Hh Hpos. cbv zeta. assert (len [] = 0%nat) as L0 by done.
  pose proof (table_length (pre ++ post) 0 []) as Htl. rewrite len_app in Hlen, Htl.
  destruct (rows_before _ _ _ _ _ _ _ _ Hpos) as (El & _ & before & Etable & Eline & Hbefore).
  destruct (first_row post start l) as (m & e & rest & Erow & Hme). rewrite Etable in *. rewrite Erow in *.
  assert (split_at (byte_offset_to_start_of_line <$> before ++ row start (l ++ m) e :: rest) (Z.of_nat (len pre)) (S line)) as Hsp.
  { split; [rewrite length_fmap, length_app; cbn; lia|]. intros i o Ho. rewrite list_lookup_fmap in Ho.
    destruct ((before ++ row start (l ++ m) e :: rest) !! i) as [r|] eqn:Er; [|done]. injection Ho as <-.
    apply lookup_app_Some in Er as [Er|[Hi Er]].
    - pose proof (lookup_lt_Some _ _ _ Er). rewrite Forall_lookup in Hbefore. specialize (Hbefore _ _ Er). lia.
    - destruct (i - length before)%nat as [|k] eqn:Ek.
      + injection Er as <-. cbn. lia.
      + assert (Z.of_nat (start + len l) < byte_offset_to_start_of_line r); [|lia].
        apply (later_starts post start l k). by rewrite Erow. }
  unfold original_position. rewrite (find_line_with_hint_ok _ _ (S line)) by (done || (rewrite ?length_fmap; lia)).
  cbn [mbind option_bind]. replace (Z.of_nat (S line) - 1) with (Z.of_nat line) by lia.
  replace (Z.to_nat (Z.max (Z.of_nat line) 0)) with (length before) by lia.
  rewrite !list_lookup_fmap, list_lookup_middle by done. cbn [mbind option_bind fmap option_fmap option_map].
  apply Forall_app in Hcp as [Hcpre Hcpost]. pose proof (position_Forall _ _ _ _ _ _ _ _ _ Hpos (Forall_nil_2 _) Hcpre) as Hcl.
  assert (Forall code_point (l ++ m ++ [e]) /\ Z.of_nat (len (l ++ m ++ [e])) < 2 ^ 31) as [Hcps Hlcps].
  { rewrite !len_app. destruct Hme as [[t ->]|[-> ->]].
    - rewrite len_app, (len_cons e t) in *. apply Forall_app in Hcpost as [? [? _]%Forall_cons].
      split; [rewrite !Forall_app; auto|lia].
    - assert (len [0x0A] = 1%nat) by done. split; [|lia]. rewrite !Forall_app. repeat split; try done.
      constructor; [unfold code_point; lia|done]. }
  change (byte_offset_to_start_of_line (row start (l ++ m) e)) with (Z.of_nat start).
  rewrite (i32_wrap_id (Z.of_nat start)) by (unfold is_i32; lia).
  rewrite (i32_wrap_id (Z.of_nat (len pre) - _)) by (unfold is_i32; lia).
  replace (Z.of_nat (len pre) - Z.of_nat start) with (Z.of_nat (len l)) by lia.
  pose proof (row_column start l m e Hcps Hlcps) as Hrc. cbv zeta in Hrc.
  destruct (i32_wrap _ <=? Z.of_nat (len l)); [|by injection Hrc as ->].
  destruct (columns_for_non_ascii (row start (l ++ m) e)) as [|x xs]; [by injection Hrc as ->|].
  rewrite Hrc. done.
Qed.

(** * Properties *)

Module LineOffsetTableProps.

(** C22: The line table of a text answers every location.  [generate] returns a
    table for every text of code points under two gigabytes, and for the byte
    offset of any of its characters, whatever the hint, [find_line_with_hint]
    finds the line of the character and the table gives its column in UTF-16
    units; except that where the line has a character outside ASCII and the
    character before the position is ASCII, the column is one too small
    ([shifted]), because the table has an entry too many at its front. *)
Theorem line_table_lookup {F : NewlineSearch} {HF : NewlineSearchOk F} pre post hint :
  Forall code_point (pre ++ post) -> Z.of_nat (len (pre ++ post)) < 2 ^ 31 - 1 -> 0 <= hint ->
  exists table, generate (wtf8 (pre ++ post)) = Some table /\
    let '(line, _, l) := position 0 0 [] pre post in
    original_position table (byte_offset_to_start_of_line <$> table) (byte_offset_to_first_non_ascii <$> table)
      (Z.of_nat (len pre)) hint = Some (Z.of_nat line, width l - if shifted l then 1 else 0).
Proof.
  intros Hcp Hlen Hh. exists (table_rows 0 [] (pre ++ post)). split; [apply generate_ok; [done|lia]|].
  destruct (position 0 0 [] pre post) as [[line start] l] eqn:Epos. by apply (original_position_ok pre post hint line start l).
Qed.

(** The second line of a text, after a character of two bytes: the column of
    the next character is right, that of the one after it is not. *)
Theorem line_table_lookup_witness :
  let text := b!"x" ++ [10; 0xE9] ++ b!"=1" in
  exists table, generate (F := scalar_newline_search) (wtf8 text) = Some table /\
    original_position table (byte_offset_to_start_of_line <$> table) (byte_offset_to_first_non_ascii <$> table) 4 0 = Some (1, 1) /\
    original_position table (byte_offset_to_start_of_line <$> table) (byte_offset_to_first_non_ascii <$> table) 5 0 = Some (1, 1).
Proof.
  cbv zeta.
  destruct (@line_table_lookup scalar_newline_search scalar_newline_search_ok (b!"x" ++ [10; 0xE9]) b!"=1" 0) as (table & Ht & H);
    [repeat constructor; vm_compute; intuition congruence|vm_compute; reflexivity|lia|].
  exists table. rewrite <- app_assoc in Ht. split; [exact Ht|]. split; [exact H|].
  vm_compute in Ht. injection Ht as <-. vm_compute. reflexivity.
Defined.

End LineOffsetTableProps.
