(* ===== verification/SourceMapBuilder.v ===== *)
(** How the source map of one file is written while the file is printed:
    [append_mapping_to_buffer] of src/src/sourcemap/lib.rs and [VLQSourceMap],
    [NewBuilder] and [Chunk] of src/src/sourcemap/Chunk.rs.

    The compact form that the runtime keeps instead of the text ([internal],
    with [prepend_count]) is not modelled: the data is always the text.  [None]
    is a panic; a [Loc] is its [start]. *)
From S2P Require Import Prelude Vlq Wtf8 LineOffsetTable.

Record SourceMapState := {
  s_generated_line : Z; s_generated_column : Z; s_source_index : Z; s_original_line : Z; s_original_column : Z
}.

Definition state_default : SourceMapState := {|
  s_generated_line := 0; s_generated_column := 0; s_source_index := 0; s_original_line := 0; s_original_column := 0
|}.

(** [i32::saturating_sub]. *)
Definition saturating_sub (a b : Z) : Z := Z.max (- 2 ^ 31) (Z.min (2 ^ 31 - 1) (a - b)).

Definition append_mapping_to_buffer (buffer : bytes) (last_byte : Z) (prev_state current_state : SourceMapState) : bytes :=
  let needs_comma := negb (last_byte =? 0) && negb (last_byte =? #";") && negb (last_byte =? 34) in
  let vlqs := [
    encode (saturating_sub (s_generated_column current_state) (s_generated_column prev_state));
    encode (saturating_sub (s_source_index current_state) (s_source_index prev_state));
    encode (saturating_sub (s_original_line current_state) (s_original_line prev_state));
    encode (saturating_sub (s_original_column current_state) (s_original_column prev_state))] in
  buffer ++ (if needs_comma then [ #","] else []) ++ (vlqs ≫= vlq_slice).

Record VLQSourceMap := { data : bytes; sm_count : nat; offset : nat }.

Definition sm_init : VLQSourceMap := {| data := []; sm_count := 0; offset := 0 |}.

Definition append_line_separator (m : VLQSourceMap) : VLQSourceMap :=
  {| data := data m ++ [ #";"]; sm_count := sm_count m; offset := offset m |}.

Definition sm_append (m : VLQSourceMap) (current_state prev_state : SourceMapState) : option VLQSourceMap :=
  last_byte ← (if decide (offset m < length (data m))%nat then data m !! (length (data m) - 1)%nat else Some 0);
  Some {| data := append_mapping_to_buffer (data m) last_byte prev_state current_state;
          sm_count := S (sm_count m); offset := offset m |}.

(** [NewBuilder]: the text and the state of its last mapping, the tables of the
    source, and how far the output has been read. *)
Record Builder := {
  source_map : VLQSourceMap; line_offset_tables : list LineOffsetTable;
  lazy_line_offset_tables : option (list LineOffsetTable); deferred_source : option bytes;
  prev_state : SourceMapState; last_generated_update : Z; generated_column : Z; prev_loc : Z; has_prev_state : bool;
  line_offset_table_byte_offset_list : list Z; line_offset_table_first_non_ascii : list Z;
  line_starts_with_mapping : bool; cover_lines_without_mappings : bool
}.

Definition LOC_EMPTY : Z := -1.

(** The default, with the tables of the source: given, or deferred. *)
Definition builder_init (cover : bool) (tables : list LineOffsetTable) (deferred : option bytes) : Builder := {|
  source_map := sm_init; line_offset_tables := tables; lazy_line_offset_tables := None; deferred_source := deferred;
  prev_state := state_default; last_generated_update := 0; generated_column := 0; prev_loc := LOC_EMPTY;
  has_prev_state := false; line_offset_table_byte_offset_list := []; line_offset_table_first_non_ascii := [];
  line_starts_with_mapping := false; cover_lines_without_mappings := cover |}.

(** Assignments to the fields of the map, to the position in the output and to
    the tables. *)
Definition set_map (b : Builder) (m : VLQSourceMap) (s : SourceMapState) (column : Z) (has_prev starts : bool) : Builder := {|
  source_map := m; line_offset_tables := line_offset_tables b; lazy_line_offset_tables := lazy_line_offset_tables b;
  deferred_source := deferred_source b; prev_state := s; last_generated_update := last_generated_update b;
  generated_column := column; prev_loc := prev_loc b; has_prev_state := has_prev;
  line_offset_table_byte_offset_list := line_offset_table_byte_offset_list b;
  line_offset_table_first_non_ascii := line_offset_table_first_non_ascii b;
  line_starts_with_mapping := starts; cover_lines_without_mappings := cover_lines_without_mappings b |}.

Definition set_read (b : Builder) (last_update column : Z) : Builder := {|
  source_map := source_map b; line_offset_tables := line_offset_tables b; lazy_line_offset_tables := lazy_line_offset_tables b;
  deferred_source := deferred_source b; prev_state := prev_state b; last_generated_update := last_update;
  generated_column := column; prev_loc := prev_loc b; has_prev_state := has_prev_state b;
  line_offset_table_byte_offset_list := line_offset_table_byte_offset_list b;
  line_offset_table_first_non_ascii := line_offset_table_first_non_ascii b;
  line_starts_with_mapping := line_starts_with_mapping b; cover_lines_without_mappings := cover_lines_without_mappings b |}.

Definition set_tables (b : Builder) (loc : Z) (lazy : option (list LineOffsetTable)) (byte_offsets first_non_ascii : list Z) : Builder := {|
  source_map := source_map b; line_offset_tables := line_offset_tables b; lazy_line_offset_tables := lazy;
  deferred_source := deferred_source b; prev_state := prev_state b; last_generated_update := last_generated_update b;
  generated_column := generated_column b; prev_loc := loc; has_prev_state := has_prev_state b;
  line_offset_table_byte_offset_list := byte_offsets; line_offset_table_first_non_ascii := first_non_ascii;
  line_starts_with_mapping := line_starts_with_mapping b; cover_lines_without_mappings := cover_lines_without_mappings b |}.

Definition append_mapping_without_remapping (b : Builder) (current_state : SourceMapState) : option Builder :=
  m ← sm_append (source_map b) current_state (prev_state b);
  Some (set_map b m current_state (generated_column b) true (line_starts_with_mapping b)).

(** The mapping that replicates the previous one at the start of a line. *)
Definition line_start_state (s : SourceMapState) : SourceMapState := {|
  s_generated_line := s_generated_line s; s_generated_column := 0; s_source_index := s_source_index s;
  s_original_line := s_original_line s; s_original_column := s_original_column s |}.

(** [needs_mapping] of the scan. *)
Definition needs_mapping (b : Builder) : bool :=
  cover_lines_without_mappings b && negb (line_starts_with_mapping b) && has_prev_state b.

(** The text moves to the next line (the end of the newline arm). *)
Definition next_line (b : Builder) (needs : bool) : option Builder :=
  b ← (if needs then append_mapping_without_remapping b (line_start_state (prev_state b)) else Some b);
  let s := prev_state b in
  Some (set_map b (append_line_separator (source_map b)) {|
      s_generated_line := i32_wrap (s_generated_line s + 1); s_generated_column := 0;
      s_source_index := s_source_index s; s_original_line := s_original_line s;
      s_original_column := s_original_column s |} 0 (has_prev_state b) false).

Definition add_column (b : Builder) (d : Z) : Builder :=
  set_read b (last_generated_update b) (i32_wrap (generated_column b + i32_wrap d)).

Definition UNICODE_REPLACEMENT : Z := 0xFFFD.

Section Scan.
Context {F : NewlineSearch}.

(** The loop of [update_generated_line_and_column_slow] over the characters of
    [slice_], the rest of [output]. *)
Fixpoint scan (fuel : nat) (output slice_ : bytes) (i : nat) (needs : bool) (b : Builder) : option Builder :=
  if decide (i < length slice_)%nat then
    match fuel with
    | O => None
    | S fuel =>
      b0 ← slice_ !! i;
      let len_ := wtf8_byte_sequence_length_with_invalid b0 in
      let c := decode_wtf8_rune_t (cp_bytes (drop i slice_) len_) len_ UNICODE_REPLACEMENT in
      let i := (i + len_)%nat in
      if (14 <=? c) && (c <=? 127) then
        j ← index_of_newline_or_non_ascii slice_ (Z.to_nat (trunc32 (Z.of_nat i)));
        match j with
        | Some j => scan fuel output slice_ (Z.to_nat j) needs (add_column b (j - Z.of_nat i + 1))
        | None =>
          remaining ← slice_from slice_ i;
          Some (add_column b (i32_wrap (Z.of_nat (length remaining)) + 1))
        end
      else if is_newline c then
        let newline_check := (Z.to_nat (last_generated_update b) + i + 1)%nat in
        if (c =? 0x0D) && bool_decide (output !! newline_check = Some 0x0A)
        then scan fuel output slice_ i needs b
        else b ← next_line b needs; scan fuel output slice_ i (needs_mapping b) b
      else scan fuel output slice_ i needs (add_column b ((if 0xFFFF <? c then 1 else 0) + 1))
    end
  else Some b.

Definition update_generated_line_and_column_slow (b : Builder) (output : bytes) : option Builder :=
  slice_ ← slice_from output (Z.to_nat (last_generated_update b));
  b ← scan (length slice_) output slice_ 0 (needs_mapping b) b;
  Some (set_read b (trunc32 (Z.of_nat (length output))) (generated_column b)).

Definition update_generated_line_and_column (b : Builder) (output : bytes) : option Builder :=
  slice_ ← slice_from output (Z.to_nat (last_generated_update b));
  pure_ascii ←
    (if decide (length slice_ < 16)%nat then Some (negb (existsb (fun c => (127 <? c) || (c <? 0x20)) slice_))
     else j ← index_of_newline_or_non_ascii slice_ 0; Some (bool_decide (j = None)));
  if pure_ascii : bool then
    Some (set_read b (trunc32 (Z.of_nat (length output)))
            (i32_wrap (generated_column b + i32_wrap (Z.of_nat (length slice_)))))
  else update_generated_line_and_column_slow b output.

(** The table in use. *)
Definition tables (b : Builder) : list LineOffsetTable :=
  match lazy_line_offset_tables b with Some t => t | None => line_offset_tables b end.

(** The part of [add_source_mapping] that builds the table and caches its
    columns. *)
Definition prepare_tables (b : Builder) (loc : Z) : option Builder :=
  let b := set_tables b loc (lazy_line_offset_tables b) (line_offset_table_byte_offset_list b)
             (line_offset_table_first_non_ascii b) in
  match lazy_line_offset_tables b, deferred_source b with
  | None, Some contents =>
    t ← generate contents; Some (set_tables b loc (Some t) [] (line_offset_table_first_non_ascii b))
  | _, _ => Some b
  end.

Definition cache_tables (b : Builder) : Builder :=
  if decide (length (line_offset_table_byte_offset_list b) = length (tables b)) then b
  else set_tables b (prev_loc b) (lazy_line_offset_tables b) (byte_offset_to_start_of_line <$> tables b)
         (byte_offset_to_first_non_ascii <$> tables b).

(** The end of [add_source_mapping], once the position in the output and the
    original position are known. *)
Definition add_mapping_at (b : Builder) (original_line original_column : Z) : option Builder :=
  b ← (if cover_lines_without_mappings b && negb (line_starts_with_mapping b) &&
          (0 <? generated_column b) && has_prev_state b
       then append_mapping_without_remapping b (line_start_state (prev_state b)) else Some b);
  b ← append_mapping_without_remapping b {|
    s_generated_line := s_generated_line (prev_state b); s_generated_column := Z.max (generated_column b) 0;
    s_source_index := s_source_index (prev_state b); s_original_line := Z.max original_line 0;
    s_original_column := Z.max original_column 0 |};
  Some (set_map b (source_map b) (prev_state b) (generated_column b) (has_prev_state b) true).

Definition add_source_mapping (b : Builder) (loc : Z) (output : bytes) : option Builder :=
  if (prev_loc b =? loc) || (loc =? LOC_EMPTY) then Some b
  else
    b ← prepare_tables b loc;
    if decide (tables b = []) then Some b
    else
      let b := cache_tables b in
      p ← original_position (tables b) (line_offset_table_byte_offset_list b) (line_offset_table_first_non_ascii b)
            loc (trunc32 (s_original_line (prev_state b)));
      b ← update_generated_line_and_column b output;
      add_mapping_at b p.1 p.2.

Record Chunk := {
  buffer : bytes; mappings_count : nat; end_state : SourceMapState; final_generated_column : Z; should_ignore : bool
}.

Definition generate_chunk (b : Builder) (output : bytes) : option Chunk :=
  b ← update_generated_line_and_column b output;
  Some {| buffer := data (source_map b); mappings_count := sm_count (source_map b); end_state := prev_state b;
     final_generated_column := generated_column b; should_ignore := sm_count (source_map b) =? 0 |}%nat.

End Scan.
