(* ===== verification/SourceMapBuilderSpec.v ===== *)
(** The text of a chunk as events, and what printing a file makes the builder
    write: a semicolon for every line of the output, and a mapping for every
    location that was asked for, at the UTF-16 position of the output. *)
From S2P Require Import Prelude Vlq SemverString Wtf8 LineOffsetTable LineOffsetTableSpec SourceMapBuilder.

(** * Events and their rendering *)

Inductive Event :=
| ELine
| EMap (s : SourceMapState).

(** The state a mapping after the event is relative to. *)
Definition end_line (s : SourceMapState) : SourceMapState := {|
  s_generated_line := s_generated_line s + 1; s_generated_column := 0; s_source_index := s_source_index s;
  s_original_line := s_original_line s; s_original_column := s_original_column s |}.

Definition after (s : SourceMapState) (e : Event) : SourceMapState :=
  match e with ELine => end_line s | EMap s => s end.

(** Whether a mapping after the event needs a comma. *)
Definition comma_after (e : Event) : bool := match e with ELine => false | EMap _ => true end.

Definition fields (prev s : SourceMapState) : bytes :=
  [encode (saturating_sub (s_generated_column s) (s_generated_column prev));
   encode (saturating_sub (s_source_index s) (s_source_index prev));
   encode (saturating_sub (s_original_line s) (s_original_line prev));
   encode (saturating_sub (s_original_column s) (s_original_column prev))] ≫= vlq_slice.

Fixpoint render (comma : bool) (prev : SourceMapState) (evs : list Event) : bytes :=
  match evs with
  | [] => []
  | ELine :: r => #";" :: render false (end_line prev) r
  | EMap s :: r => (if comma then [ #","] else []) ++ fields prev s ++ render true s r
  end.

(** The state and the comma after the events. *)
Definition state_after (s : SourceMapState) (evs : list Event) : SourceMapState := foldl after s evs.
Definition comma_after_all (c : bool) (evs : list Event) : bool := foldl (fun _ e => comma_after e) c evs.

Lemma render_app c prev evs evs' :
  render c prev (evs ++ evs') =
  render c prev evs ++ render (comma_after_all c evs) (state_after prev evs) evs'.
Proof.
  revert c prev; induction evs as [|[|s] evs IH]; intros c prev; cbn [app render]; [done| |].
  - by rewrite IH.
  - by rewrite IH, <- !app_assoc.
Qed.

Lemma saturating_sub_range a b : is_i32 (saturating_sub a b).
Proof. unfold is_i32, saturating_sub. lia. Qed.

Lemma saturating_sub_ok a b : 0 <= a < 2 ^ 31 -> 0 <= b < 2 ^ 31 -> saturating_sub a b = a - b.
Proof. unfold saturating_sub. lia. Qed.

(** A character of the alphabet is none of the separators. *)
Definition is_digit (c : Z) : Prop := c <> 0 /\ c <> #";" /\ c <> #"," /\ c <> 34.

Lemma digit_char_ok d : 0 <= d < 64 -> is_digit (digit_char d).
Proof.
  intros Hd. assert (forallb (fun d => bool_decide (digit_char d <> 0 /\ digit_char d <> #";" /\
    digit_char d <> #"," /\ digit_char d <> 34)) (seqZ 0 64) = true) as H by (vm_compute; reflexivity).
  rewrite forallb_forall in H. specialize (H d). rewrite bool_decide_eq_true in H. apply H.
  apply list_elem_of_In, elem_of_seqZ. lia.
Qed.

Lemma digits_ok fuel v : (0 < fuel)%nat -> 0 <= v -> digits fuel v <> [] /\ Forall is_digit (digits fuel v).
Proof.
  revert v; induction fuel as [|fuel IH]; intros v Hf Hv; [lia|]. cbn [digits].
  destruct (Z.ltb_spec v 32); [split; [done|]; repeat constructor; apply digit_char_ok; lia|].
  split; [done|]. constructor; [apply digit_char_ok; pose proof (Z.mod_pos_bound v 32); lia|].
  destruct fuel; [constructor|]. apply IH; [lia|]. apply Z.div_pos; lia.
Qed.

Lemma encode_ok v : is_i32 v -> vlq_slice (encode v) <> [] /\ Forall is_digit (vlq_slice (encode v)).
Proof. intros Hv. rewrite encode_digits by done. apply digits_ok; [lia|]. pose proof (zigzag_range v Hv). lia. Qed.

Lemma fields_ok prev s : exists f l, fields prev s = l ++ [f] /\ Forall is_digit (l ++ [f]).
Proof.
  assert (Forall is_digit (fields prev s)) as H.
  { unfold fields. cbn. rewrite app_nil_r, !Forall_app. repeat split; apply encode_ok, saturating_sub_range. }
  assert (fields prev s <> []) as Hne.
  { unfold fields. cbn. intros E. apply app_eq_nil in E as [E _].
    by apply (encode_ok _ (saturating_sub_range (s_generated_column s) (s_generated_column prev))). }
  destruct (fields prev s) as [|x l] eqn:E using rev_ind; [done|]. eauto.
Qed.

Definition needs_comma (x : Z) : bool := negb (x =? 0) && negb (x =? #";") && negb (x =? 34).

Lemma append_mapping_fields buf x prev s :
  append_mapping_to_buffer buf x prev s = buf ++ (if needs_comma x then [ #","] else []) ++ fields prev s.
Proof. done. Qed.

#[local] Opaque fields.

Lemma fields_last prev s pre : exists x, last (pre ++ fields prev s) = Some x /\ needs_comma x = true.
Proof.
  destruct (fields_ok prev s) as (x & l & -> & H). exists x. rewrite app_assoc, last_snoc. split; [done|].
  apply Forall_app in H as [_ H]. apply Forall_singleton in H as (H1 & H2 & H3 & H4).
  unfold needs_comma. lia.
Qed.

Lemma render_snoc c prev evs e :
  render c prev (evs ++ [e]) = render c prev evs ++
  match e with
  | ELine => [ #";"]
  | EMap s => (if comma_after_all c evs then [ #","] else []) ++ fields (state_after prev evs) s
  end.
Proof. rewrite render_app. destruct e; cbn; by rewrite ?app_nil_r. Qed.

(** The byte a text ends with, after [pre]. *)
Lemma render_last pre c prev evs :
  (exists x, last pre = Some x /\ needs_comma x = c) ->
  exists x, last (pre ++ render c prev evs) = Some x /\ needs_comma x = comma_after_all c evs.
Proof.
  intros H. destruct evs as [|e evs _] using rev_ind; [cbn; by rewrite app_nil_r|].
  rewrite render_snoc. unfold comma_after_all. rewrite foldl_app. cbn. destruct e; cbn.
  - exists #";". by rewrite app_assoc, last_snoc.
  - rewrite !app_assoc. apply fields_last.
Qed.

Lemma render_last' c prev evs :
  evs <> [] -> exists x, last (render c prev evs) = Some x /\ needs_comma x = comma_after_all c evs.
Proof.
  intros Hne. destruct evs as [|e evs _] using rev_ind; [done|].
  rewrite render_snoc. unfold comma_after_all. rewrite foldl_app. cbn. destruct e; cbn.
  - exists #";". by rewrite last_snoc.
  - rewrite !app_assoc. apply fields_last.
Qed.


(** * What the builder holds *)

(** A mapping stays on the line and in the source of what is before it. *)
Fixpoint lined (prev : SourceMapState) (evs : list Event) : Prop :=
  match evs with
  | [] => True
  | ELine :: r => lined (end_line prev) r
  | EMap s :: r =>
    s_generated_line s = s_generated_line prev /\ s_source_index s = s_source_index prev /\ lined s r
  end.

Lemma lined_app prev evs evs' : lined prev (evs ++ evs') <-> lined prev evs /\ lined (state_after prev evs) evs'.
Proof. revert prev; induction evs as [|[|s] evs IH]; intros prev; cbn; [tauto|apply IH|]. rewrite IH. tauto. Qed.

Record built (b : Builder) (evs : list Event) : Prop := {
  built_data : data (source_map b) = render false state_default evs;
  built_offset : offset (source_map b) = 0%nat;
  built_state : prev_state b = state_after state_default evs;
  built_line : 0 <= s_generated_line (prev_state b);
  built_source : s_source_index (prev_state b) = 0;
  built_lined : lined state_default evs
}.

Lemma built_same b evs b' :
  built b evs -> source_map b' = source_map b -> prev_state b' = prev_state b -> built b' evs.
Proof. intros [] E1 E2. by split; rewrite ?E1, ?E2. Qed.

(** The fields that writing to the map leaves alone; the scan of the output
    writes the first of them too. *)
Definition source_side (b : Builder) :=
  (line_offset_tables b, lazy_line_offset_tables b, deferred_source b, prev_loc b,
   line_offset_table_byte_offset_list b, line_offset_table_first_non_ascii b, cover_lines_without_mappings b).

Definition others (b : Builder) := (last_generated_update b, source_side b).

(** The position of the output that the builder tracks. *)
Record PrintState := { ps_map : SourceMapState; ps_column : Z; ps_has : bool; ps_starts : bool }.

Definition shows (b : Builder) (p : PrintState) : Prop :=
  prev_state b = ps_map p /\ generated_column b = ps_column p /\ has_prev_state b = ps_has p /\
  line_starts_with_mapping b = ps_starts p.

Lemma append_built b evs s :
  built b evs -> s_generated_line s = s_generated_line (prev_state b) -> s_source_index s = s_source_index (prev_state b) ->
  exists b', append_mapping_without_remapping b s = Some b' /\ built b' (evs ++ [EMap s]) /\ others b' = others b /\
    shows b' {| ps_map := s; ps_column := generated_column b; ps_has := true; ps_starts := line_starts_with_mapping b |}.
Proof.
  intros [H1 H2 H3 H4 H5 H6] Hl Hs. unfold append_mapping_without_remapping, sm_append. rewrite H2.
  assert (exists x, (if decide (0 < length (data (source_map b)))%nat
    then data (source_map b) !! (length (data (source_map b)) - 1)%nat else Some 0) = Some x /\
    needs_comma x = comma_after_all false evs) as (x & -> & Hx).
  { rewrite H1. destruct (decide (evs = [])) as [->|Hne]; [by exists 0|].
    destruct (render_last' false state_default evs Hne) as (x & Hlast & Hx). exists x. split; [|done].
    rewrite last_lookup in Hlast. pose proof (lookup_lt_Some _ _ _ Hlast).
    rewrite decide_True by lia. rewrite <- Hlast. f_equal. lia. }
  cbn [mbind option_bind]. eexists. split; [done|]. split; [|done]. split; cbn; try done.
  - rewrite append_mapping_fields, render_snoc, H1, H3, Hx. done.
  - unfold state_after. by rewrite foldl_app.
  - lia.
  - congruence.
  - apply lined_app. cbn. rewrite <- H3. auto.
Qed.

(** The mapping at the start of a line is written when it is asked for. *)
Lemma line_start_built b evs (needs : bool) :
  built b evs -> (needs = true -> has_prev_state b = true) ->
  exists b', (if needs then append_mapping_without_remapping b (line_start_state (prev_state b)) else Some b) = Some b' /\
    built b' (evs ++ if needs then [EMap (line_start_state (prev_state b))] else []) /\ others b' = others b /\
    shows b' {| ps_map := if needs then line_start_state (prev_state b) else prev_state b;
                ps_column := generated_column b; ps_has := has_prev_state b; ps_starts := line_starts_with_mapping b |}.
Proof.
  intros Hb Hn. destruct needs; [|exists b; by rewrite app_nil_r].
  destruct (append_built b evs (line_start_state (prev_state b)) Hb) as (b' & E & Hb' & Ho & Hs); [done|done|].
  exists b'. rewrite (Hn eq_refl). done.
Qed.

(** * The reference: the output, one character at a time *)

Section Reference.
Context (cover : bool).

(** The mapping that covers the start of a line without one. *)
Definition covers (p : PrintState) : bool := cover && negb (ps_starts p) && ps_has p.

Definition out_char (p : PrintState) (c : Z) : PrintState * list Event :=
  if is_newline c then
    ({| ps_map := end_line (ps_map p); ps_column := 0; ps_has := ps_has p; ps_starts := false |},
     (if covers p then [EMap (line_start_state (ps_map p))] else []) ++ [ELine])
  else ({| ps_map := ps_map p; ps_column := ps_column p + units c; ps_has := ps_has p; ps_starts := ps_starts p |}, []).

Fixpoint out_text (p : PrintState) (cps : list Z) : PrintState * list Event :=
  match cps with
  | [] => (p, [])
  | c :: r =>
    let q := out_char p c in
    ((out_text q.1 r).1, q.2 ++ (out_text q.1 r).2)
  end.

(** A mapping to an original position, at the current column. *)
Definition out_mapping (p : PrintState) (line column : Z) : PrintState * list Event :=
  let s := {| s_generated_line := s_generated_line (ps_map p); s_generated_column := ps_column p;
              s_source_index := s_source_index (ps_map p); s_original_line := line; s_original_column := column |} in
  ({| ps_map := s; ps_column := ps_column p; ps_has := true; ps_starts := true |},
   (if covers p && (0 <? ps_column p) then [EMap (line_start_state (ps_map p))] else []) ++ [EMap s]).

Lemma out_text_app p a b :
  out_text p (a ++ b) = ((out_text (out_text p a).1 b).1, (out_text p a).2 ++ (out_text (out_text p a).1 b).2).
Proof.
  revert p; induction a as [|c a IH]; intros p; cbn [app out_text]; [apply surjective_pairing|].
  rewrite IH. cbn. by rewrite app_assoc.
Qed.

Lemma out_text_plain p run : Forall (fun c => is_newline c = false) run ->
  out_text p run = ({| ps_map := ps_map p; ps_column := ps_column p + width run; ps_has := ps_has p; ps_starts := ps_starts p |}, []).
Proof.
  intros H. revert p; induction H as [|c run Hc _ IH]; intros p; cbn [out_text width].
  { rewrite Z.add_0_r. by destruct p. }
  unfold out_char. rewrite Hc. cbn [fst snd app]. rewrite IH. cbn. by rewrite Z.add_assoc.
Qed.

(** The column and the line stay within the length of the output. *)
Definition within (p : PrintState) (n : nat) : Prop :=
  0 <= ps_column p <= Z.of_nat n /\ 0 <= s_generated_line (ps_map p) <= Z.of_nat n.

Lemma out_char_within p c n : within p n -> within (out_char p c).1 (n + len [c]).
Proof.
  intros [H1 H2]. pose proof (len_one c). pose proof (units_range c). unfold out_char, within.
  destruct (is_newline c); cbn; [lia|]. pose proof (width_len [c]) as Hw. cbn [width] in Hw. lia.
Qed.

Lemma out_text_within p cps n : within p n -> within (out_text p cps).1 (n + len cps).
Proof.
  revert p n; induction cps as [|c r IH]; intros p n H; cbn [out_text].
  { assert (len [] = 0%nat) as -> by done. by rewrite Nat.add_0_r. }
  rewrite len_cons, Nat.add_assoc. apply IH, out_char_within, H.
Qed.

End Reference.

Lemma next_line_built b evs p :
  built b evs -> shows b p -> s_generated_line (ps_map p) < 2 ^ 31 - 1 ->
  forall c, is_newline c = true -> let q := out_char (cover_lines_without_mappings b) p c in
  exists b', next_line b (needs_mapping b) = Some b' /\ built b' (evs ++ q.2) /\ shows b' q.1 /\ others b' = others b.
Proof.
  intros Hb Hs Hlt c Hc q. pose proof Hs as (S1 & S2 & S3 & S4). pose proof (built_line _ _ Hb) as Hge.
  assert (needs_mapping b = covers (cover_lines_without_mappings b) p) as En by (unfold needs_mapping, covers; by rewrite S3, S4).
  destruct (line_start_built b evs (needs_mapping b) Hb) as (b1 & E1 & Hb1 & Ho1 & T1 & T2 & T3 & T4).
  { unfold needs_mapping. intros H. by apply andb_prop in H as [_ ?]. }
  unfold next_line. rewrite E1. cbn [mbind option_bind]. cbn in T1, T2, T3, T4. eexists. split; [done|].
  assert (i32_wrap (s_generated_line (prev_state b1) + 1) = s_generated_line (ps_map p) + 1) as El.
  { rewrite T1. rewrite <- S1 in *. rewrite i32_wrap_id by (unfold is_i32; destruct (needs_mapping b); cbn; lia).
    by destruct (needs_mapping b). }
  unfold q, out_char. rewrite Hc, <- En, <- S1 in *. cbn [fst snd]. split; [|split].
  - destruct Hb1 as [H1 H2 H3 H4 H5 H6]. rewrite app_assoc. split; cbn [set_map source_map prev_state]; cbn; try done.
    + by rewrite H1, render_snoc.
    + unfold state_after in *. rewrite foldl_app, <- H3, El. cbn. unfold end_line. rewrite T1; by destruct (needs_mapping b).
    + rewrite El. lia.
    + apply lined_app. split; [done|]. done.
  - unfold shows. cbn. rewrite El. unfold end_line. split; [rewrite T1; by destruct (needs_mapping b)|]. split; [done|].
    by rewrite T3, S3.
  - rewrite <- Ho1. done.
Qed.

Lemma add_mapping_at_built b evs p line column :
  built b evs -> shows b p -> 0 <= ps_column p -> 0 <= line -> 0 <= column ->
  let q := out_mapping (cover_lines_without_mappings b) p line column in
  exists b', add_mapping_at b line column = Some b' /\ built b' (evs ++ q.2) /\ shows b' q.1 /\ others b' = others b.
Proof.
  intros Hb Hs Hp Hl Hc q. pose proof Hs as (S1 & S2 & S3 & S4). unfold add_mapping_at.
  set (needs := cover_lines_without_mappings b && _ && _ && _).
  assert (needs = covers (cover_lines_without_mappings b) p && (0 <? ps_column p)) as En.
  { unfold needs, covers. rewrite S2, S3, S4. rewrite <- !andb_assoc. do 2 f_equal. apply andb_comm. }
  destruct (line_start_built b evs needs Hb) as (b1 & E1 & Hb1 & Ho1 & T1 & T2 & T3 & T4).
  { unfold needs. intros H. by apply andb_prop in H as [_ ?]. }
  rewrite E1. cbn [mbind option_bind]. cbn in T1, T2, T3, T4.
  rewrite !Z.max_l by (rewrite ?T2, ?S2; lia).
  match goal with |- context [append_mapping_without_remapping b1 ?s] =>
    destruct (append_built b1 _ s Hb1) as (b2 & E2 & Hb2 & Ho2 & U1 & U2 & U3 & U4); [done|done|] end.
  rewrite E2. cbn [mbind option_bind]. cbn in U1, U2, U3, U4. eexists. split; [done|].
  assert (s_generated_line (prev_state b1) = s_generated_line (ps_map p) /\
    s_source_index (prev_state b1) = s_source_index (ps_map p)) as [L1 L2] by (rewrite T1, <- S1; by destruct needs).
  rewrite L1, L2, T2, S2 in *. unfold q, out_mapping. cbn [fst snd]. rewrite <- En, <- S1 in *. split; [|split].
  - rewrite app_assoc. by eapply built_same.
  - unfold shows. cbn. by rewrite U1, U2, U3.
  - transitivity (others b2); [done|]. by rewrite Ho2.
Qed.

(** * The scan of the output *)

(** Only the position in the output moves within a line. *)
Lemma add_column_shows b p d :
  shows b p -> is_i32 d -> is_i32 (ps_column p + d) ->
  shows (add_column b d) {| ps_map := ps_map p; ps_column := ps_column p + d; ps_has := ps_has p; ps_starts := ps_starts p |}.
Proof.
  intros (S1 & S2 & S3 & S4) Hd Hs. unfold shows, add_column. cbn. rewrite S2, (i32_wrap_id d), i32_wrap_id by done. done.
Qed.

Section Scan.
Context {F : NewlineSearch} {HF : NewlineSearchOk F}.

Lemma drop_wtf8 pre r : drop (len pre) (wtf8 (pre ++ r)) = wtf8 r.
Proof. rewrite wtf8_app. unfold len. apply drop_app_length. Qed.

Lemma slice_wtf8 pre r : slice_from (wtf8 (pre ++ r)) (len pre) = Some (wtf8 r).
Proof. rewrite slice_from_ok; [by rewrite drop_wtf8|]. change (len pre <= len (pre ++ r))%nat. rewrite len_app. lia. Qed.

(** The search stops after a run of printable characters. *)
Lemma index_of_run pre r : Forall code_point r -> Z.of_nat (len (pre ++ r)) < 2 ^ 31 ->
  exists run rest, r = run ++ rest /\ Forall (fun c => printable c = true) run /\
    index_of_newline_or_non_ascii (wtf8 (pre ++ r)) (len pre) =
      Some (if decide (rest = []) then None else Some (Z.of_nat (len (pre ++ run)))).
Proof.
  intros Hr Hlen. destruct (printable_run r Hr) as (run & rest & Er & Hrun & Hp & Hl & Hiff).
  exists run, rest. split; [done|]. split; [done|]. rewrite len_app in Hlen.
  assert (len run <= len r)%nat as Hle by (rewrite Er, len_app; lia).
  unfold index_of_newline_or_non_ascii, index_of_newline_or_non_ascii_check_start.
  rewrite slice_wtf8. cbn [mbind option_bind]. f_equal. rewrite len_app.
  destruct (wtf8 r) as [|c t] eqn:Et.
  { rewrite decide_True; [done|]. apply Hiff. cbn in Hp |- *. done. }
  destruct (true && _) eqn:Estart.
  - assert (prefix_len printable (c :: t) = 0%nat) as E0.
    { cbn [prefix_len]. assert (printable c = false) as ->; [|done]. unfold printable. lia. }
    rewrite decide_False. 2: { intros E. apply Hiff in E. rewrite E0 in E. done. }
    do 2 f_equal. lia.
  - rewrite (@highway_newline_spec F HF), Hp. case_decide as Hd.
    + rewrite decide_True; [done|]. apply Hiff. by rewrite Hp.
    + rewrite decide_False. 2: { intros E. apply Hiff in E. by rewrite Hp in E. }
      f_equal. unfold trunc32. rewrite (Z.mod_small (Z.of_nat (len run))) by lia. rewrite Z.mod_small; lia.
Qed.

(** A character of the output is read. *)
Lemma scan_char pre y r : code_point y ->
  (len pre < len (pre ++ y :: r))%nat /\
  exists b, wtf8 (pre ++ y :: r) !! len pre = Some b /\ wtf8_byte_sequence_length_with_invalid b = len [y] /\
  decode_wtf8_rune_t (cp_bytes (drop (len pre) (wtf8 (pre ++ y :: r))) (len [y])) (len [y]) UNICODE_REPLACEMENT = y /\
  (len pre + len [y] = len (pre ++ [y]))%nat.
Proof.
  intros Hy. rewrite !len_app, (len_cons y r). pose proof (len_one y). split; [lia|].
  destruct (read_char y r Hy) as (b & rest & E & Hb & _). exists b. split; [|split; [done|split; [|done]]].
  - rewrite wtf8_app, E. by apply list_lookup_middle.
  - rewrite drop_wtf8, wtf8_cons', wtf8_one. unfold len. rewrite wtf8_one.
    by apply decode_encode_rune.
Qed.

(** The loop reads the rest of the output as the reference does. *)
Lemma scan_ok output k : forall rest pre fuel b evs p,
  (length rest <= k)%nat -> (len rest <= fuel)%nat -> Forall code_point rest -> Forall (fun c => c <> 0x0D) rest ->
  Z.of_nat (len (pre ++ rest)) < 2 ^ 31 -> built b evs -> shows b p ->
  forall n, within p n -> Z.of_nat (n + len rest) < 2 ^ 31 - 1 ->
  let q := out_text (cover_lines_without_mappings b) p rest in
  exists b', scan fuel output (wtf8 (pre ++ rest)) (len pre) (needs_mapping b) b = Some b' /\
    built b' (evs ++ q.2) /\ shows b' q.1 /\ others b' = others b.
Proof.
  induction k as [|k IH]; intros rest pre fuel b evs p Hk Hf Hcp Hcr Hlen Hb Hs n Hw Hn q;
    (destruct rest as [|y r];
     [exists b; unfold q; cbn [out_text fst snd]; rewrite !app_nil_r; split; [|done];
      destruct fuel; cbn [scan]; (rewrite decide_False; [done|]); unfold len; lia|]); [cbn in Hk; lia|].
  apply Forall_cons in Hcp as [Hy Hcp]. apply Forall_cons in Hcr as [Hy13 Hcr]. cbn [length] in Hk.
  destruct (scan_char pre y r Hy) as (Hlt & b0 & Hb0 & Hl & Hc & Hi). pose proof (len_one y). rewrite len_cons in Hf, Hn.
  destruct fuel as [|fuel]; [lia|]. cbn [scan]. rewrite decide_True by exact Hlt. rewrite Hb0. cbn [mbind option_bind].
  rewrite Hl, Hc, Hi. rewrite cons_middle, app_assoc in Hlen |- *. destruct Hw as [[Hw1 Hw2] [Hw3 Hw4]].
  pose proof (units_range y) as Hu. pose proof (width_len [y]) as Hwy. cbn [width] in Hwy.
  pose proof (out_char_within (cover_lines_without_mappings b) p y n ltac:(done)) as Hw'.
  destruct ((14 <=? y) && (y <=? 127)) eqn:E14.
  - assert (Forall (fun c => is_newline c = false) [y]) as Hny by (constructor; [unfold is_newline; lia|done]).
    assert (units y = 1) as Hu1 by (unfold units; destruct (Z.ltb_spec 0xFFFF y); lia).
    destruct (index_of_run (pre ++ [y]) r Hcp Hlen) as (run & rest & -> & Hrun & Hix).
    assert (Forall (fun c => is_newline c = false) (y :: run)) as Hnr.
    { constructor; [unfold is_newline; lia|]. eapply Forall_impl; [exact Hrun|]. unfold printable, is_newline. intros c. lia. }
    assert (width run = Z.of_nat (len run)) as Hwr.
    { apply width_of_ascii; [by apply Forall_app in Hcp as [? _]|].
      apply (ascii_append [] run); [done|by apply printable_ascii]. }
    rewrite len_app in Hlen. replace (Z.to_nat (trunc32 (Z.of_nat (len (pre ++ [y]))))) with (len (pre ++ [y]))
      by (unfold trunc32; rewrite Z.mod_small; lia).
    rewrite Hix. cbn [mbind option_bind]. rewrite len_app in Hn, Hf.
    unfold q. change (y :: run ++ rest) with ((y :: run) ++ rest). rewrite out_text_app, (out_text_plain _ p (y :: run)) by done.
    cbn [width fst snd app]. rewrite Hu1, Hwr in *.
    case_decide as Hd.
    + subst rest. rewrite app_nil_r in *. rewrite slice_wtf8.
      cbn [mbind option_bind out_text fst snd]. eexists. split; [reflexivity|]. rewrite app_nil_r.
      change (length (wtf8 run)) with (len run).
      rewrite i32_wrap_id by (unfold is_i32; lia). rewrite Z.add_comm with (m := 1).
      split; [by eapply built_same|]. split; [|done]. apply add_column_shows; [done| |]; unfold is_i32; lia.
    + rewrite Nat2Z.id.
      replace (Z.of_nat (len ((pre ++ [y]) ++ run)) - Z.of_nat (len (pre ++ [y])) + 1) with (1 + Z.of_nat (len run))
        by (rewrite (len_app (pre ++ [y]) run); lia).
      pose proof (add_column_shows b p (1 + Z.of_nat (len run)) Hs ltac:(unfold is_i32; lia) ltac:(unfold is_i32; lia)) as Hs'.
      rewrite !app_assoc.
      edestruct (IH rest ((pre ++ [y]) ++ run) fuel (add_column b (1 + Z.of_nat (len run))) evs)
        with (n := (n + (len [y] + len run))%nat) as (b' & E & H'); [| | | | | |exact Hs'| | |].
      * rewrite length_app in Hk. lia.
      * lia.
      * by apply Forall_app in Hcp as [_ ?].
      * by apply Forall_app in Hcr as [_ ?].
      * rewrite !len_app in *. lia.
      * by eapply built_same.
      * unfold within. cbn. lia.
      * lia.
      * exists b'. split; [exact E|exact H'].
  - destruct (is_newline y) eqn:Enl.
    + destruct (Z.eqb_spec y 0x0D); [done|]. cbn [andb].
      destruct (next_line_built b evs p Hb Hs ltac:(lia) y Enl) as (b1 & E1 & Hb1 & Hs1 & Ho1).
      rewrite E1. cbn [mbind option_bind]. assert (cover_lines_without_mappings b1 = cover_lines_without_mappings b) as Ec by (by injection Ho1).
      edestruct (IH r (pre ++ [y]) fuel b1) with (n := (n + len [y])%nat) as (b' & E & Hb' & Hs' & Ho');
        [lia|lia|done|done|done|exact Hb1|exact Hs1|done|lia|].
      exists b'. split; [exact E|]. unfold q. cbn [out_text fst snd]. rewrite app_assoc, <- Ec in *. by rewrite Ho'.
    + assert ((if 0xFFFF <? y then 1 else 0) + 1 = units y) as -> by (unfold units; by destruct (_ <? y)).
      pose proof (add_column_shows b p (units y) Hs ltac:(unfold is_i32; lia) ltac:(unfold is_i32; lia)) as Hs'.
      edestruct (IH r (pre ++ [y]) fuel (add_column b (units y)) evs)
        with (n := (n + len [y])%nat) as (b' & E & Hb' & Hsb' & Ho'); [lia|lia|done|done|done|by eapply built_same|exact Hs'|unfold within; cbn; lia|lia|].
      exists b'. split; [exact E|]. unfold q. cbn [out_text fst snd]. unfold out_char. rewrite Enl. done.
Qed.

Lemma pure_run r : Forall code_point r ->
  (forall c, c ∈ wtf8 r -> printable c = true) -> Forall (fun c => printable c = true) r.
Proof.
  intros Hr H. destruct (printable_run r Hr) as (run & rest & Er & Hrun & _ & _ & Hiff).
  rewrite (proj1 Hiff), app_nil_r in Er; [by subst|]. clear -H. induction (wtf8 r) as [|c t IH]; [done|].
  cbn [prefix_len length]. rewrite H by left. f_equal. apply IH. intros x Hx. apply H. by right.
Qed.

(** Reading the output up to its end. *)
Lemma update_ok b evs p before pending :
  built b evs -> shows b p -> last_generated_update b = Z.of_nat (len before) -> within p (len before) ->
  Forall code_point pending -> Forall (fun c => c <> 0x0D) pending -> Z.of_nat (len (before ++ pending)) < 2 ^ 31 - 1 ->
  let q := out_text (cover_lines_without_mappings b) p pending in
  exists b', update_generated_line_and_column b (wtf8 (before ++ pending)) = Some b' /\
    built b' (evs ++ q.2) /\ shows b' q.1 /\ last_generated_update b' = Z.of_nat (len (before ++ pending)) /\
    source_side b' = source_side b.
Proof.
  intros Hb Hs Hu Hw Hcp Hcr Hlen q. unfold update_generated_line_and_column, update_generated_line_and_column_slow.
  rewrite Hu, Nat2Z.id, slice_wtf8. cbn [mbind option_bind]. pose proof Hlen as Hlen'. rewrite len_app in Hlen'.
  assert (trunc32 (Z.of_nat (length (wtf8 (before ++ pending)))) = Z.of_nat (len (before ++ pending))) as Et
    by (unfold trunc32; apply Z.mod_small; unfold len in *; lia).
  rewrite Et. pose proof (index_of_run [] pending Hcp) as Hix. cbn [app] in Hix. change (len []) with 0%nat in Hix.
  assert (exists pure, (if decide (length (wtf8 pending) < 16)%nat
      then Some (negb (existsb (fun c => (127 <? c) || (c <? 0x20)) (wtf8 pending)))
      else j ← index_of_newline_or_non_ascii (wtf8 pending) 0; Some (bool_decide (j = None))) = Some pure /\
      (pure = true -> Forall (fun c => printable c = true) pending)) as (pure & -> & Hpure).
  { case_decide.
    - eexists. split; [reflexivity|]. intros Hp. apply pure_run; [done|]. intros c Hc.
      apply negb_true_iff in Hp. destruct (printable c) eqn:Ec; [done|]. exfalso.
      rewrite <- not_true_iff_false, existsb_exists in Hp. apply Hp. exists c. split; [by apply list_elem_of_In|].
      unfold printable in Ec. lia.
    - destruct Hix as (run & rest & Er & Hrun & ->); [unfold len in *; lia|]. cbn [mbind option_bind].
      eexists. split; [reflexivity|]. case_decide as Hd; [|done]. intros _. subst rest. by rewrite Er, app_nil_r. }
  cbn [mbind option_bind]. destruct pure.
  - specialize (Hpure eq_refl). eexists. split; [reflexivity|].
    assert (width pending = Z.of_nat (len pending)) as Hwp.
    { apply width_of_ascii; [done|]. apply (ascii_append [] pending); [done|by apply printable_ascii]. }
    assert (Forall (fun c => is_newline c = false) pending) as Hn.
    { eapply Forall_impl; [exact Hpure|]. unfold printable, is_newline. intros c. lia. }
    unfold q. rewrite out_text_plain by done. cbn [fst snd]. rewrite app_nil_r, Hwp.
    split; [by eapply built_same|]. split; [|done]. destruct Hs as (S1 & S2 & S3 & S4), Hw as [Hw1 Hw2].
    unfold shows. cbn. change (length (wtf8 pending)) with (len pending). rewrite S2.
    rewrite (i32_wrap_id (Z.of_nat (len pending))), i32_wrap_id by (unfold is_i32; lia). done.
  - cbn [mbind option_bind].
    destruct (scan_ok (wtf8 (before ++ pending)) (length pending) pending [] (length (wtf8 pending)) b evs p)
      with (n := len before) as (b' & E & Hb' & Hs' & Ho'); try done.
    + cbn [app]. lia.
    + change (len []) with 0%nat in E. cbn [app] in E. rewrite E. cbn [mbind option_bind]. eexists. split; [reflexivity|].
      split; [by eapply built_same|]. split; [done|]. split; [done|]. injection Ho'. intros. unfold source_side in *. cbn. congruence.
Qed.

End Scan.

(** * Printing a file *)

(** A call of the printer: the text printed since the last one, and the number
    of characters of the source before the location, if it has one. *)
Definition Call : Type := list Z * option nat.

Definition loc_of (src : list Z) (o : option nat) : Z :=
  match o with None => LOC_EMPTY | Some k => Z.of_nat (len (take k src)) end.

(** The original position that the table gives a location; where a column is
    [shifted] it is one too small. *)
Definition original_of (src : list Z) (k : nat) : Z * Z :=
  let '(line, _, l) := position 0 0 [] (take k src) (drop k src) in
  (Z.of_nat line, width l - if shifted l then 1 else 0).

(** What a call adds: nothing for a location that is that of the call before. *)
Definition out_call (cover : bool) (src : list Z) (p : PrintState) (pl : Z) (o : option nat) : PrintState * list Event * Z :=
  match o with
  | None => (p, [], pl)
  | Some k =>
    if pl =? loc_of src o then (p, [], pl)
    else (out_mapping cover p (original_of src k).1 (original_of src k).2, loc_of src o)
  end.

Fixpoint out_calls (cover : bool) (src : list Z) (p : PrintState) (pl : Z) (calls : list Call) : PrintState * list Event :=
  match calls with
  | [] => (p, [])
  | (text, o) :: r =>
    let q := out_text cover p text in
    let m := out_call cover src q.1 pl o in
    let t := out_calls cover src m.1.1 m.2 r in
    (t.1, q.2 ++ m.1.2 ++ t.2)
  end.

Definition print_start : PrintState := {| ps_map := state_default; ps_column := 0; ps_has := false; ps_starts := false |}.

(** The events of a file whose output is that of the calls and [tail]. *)
Definition out_file (cover : bool) (src : list Z) (calls : list Call) (tail : list Z) : PrintState * list Event :=
  let t := out_calls cover src print_start LOC_EMPTY calls in
  let q := out_text cover t.1 tail in
  (q.1, t.2 ++ q.2).

Lemma shifted_width l : 0 <= width l - if shifted l then 1 else 0.
Proof.
  pose proof (width_nonneg l). destruct (shifted l) eqn:E; [|lia]. assert (width l <> 0); [|lia].
  rewrite width_zero. by intros ->.
Qed.

(** The tables of the builder are those of the source, or will be. *)
Record knows (b : Builder) (src : list Z) : Prop := {
  knows_tables : match deferred_source b, lazy_line_offset_tables b with
                 | Some text, None => text = wtf8 src /\ line_offset_tables b = []
                 | _, _ => tables b = table_rows 0 [] src
                 end;
  knows_cache : line_offset_table_byte_offset_list b = [] \/
    tables b = table_rows 0 [] src /\
    line_offset_table_byte_offset_list b = byte_offset_to_start_of_line <$> tables b /\
    line_offset_table_first_non_ascii b = byte_offset_to_first_non_ascii <$> tables b
}.

Lemma knows_same b b' src : source_side b' = source_side b -> knows b src -> knows b' src.
Proof.
  unfold source_side. intros [= E1 E2 E3 E4 E5 E6 E7] [H1 H2]. unfold tables in *.
  by split; unfold tables; rewrite ?E1, ?E2, ?E3, ?E5, ?E6.
Qed.

(** The fields that preparing the tables leaves alone. *)
Definition map_side (b : Builder) :=
  (source_map b, prev_state b, generated_column b, has_prev_state b, line_starts_with_mapping b,
   last_generated_update b, cover_lines_without_mappings b).

Lemma map_side_shows b b' p : map_side b' = map_side b -> shows b p -> shows b' p.
Proof. unfold map_side, shows. intros [= E1 E2 E3 E4 E5 E6 E7]. by rewrite E2, E3, E4, E5. Qed.

Lemma table_rows_nonempty start l cps : table_rows start l cps <> [].
Proof. by destruct (first_row cps start l) as (m & e & rest & -> & _). Qed.

Section Print.
Context {F : NewlineSearch} {HF : NewlineSearchOk F} (src : list Z).
Hypothesis Hsrc : Forall code_point src.
Hypothesis Hlen : Z.of_nat (len src) < 2 ^ 31 - 1.

Lemma prepare_tables_ok b loc :
  knows b src -> exists b', prepare_tables b loc = Some b' /\ knows b' src /\ tables b' = table_rows 0 [] src /\
    prev_loc b' = loc /\ map_side b' = map_side b.
Proof using HF Hsrc Hlen.
  intros [H1 H2]. unfold prepare_tables. cbn [lazy_line_offset_tables deferred_source set_tables].
  destruct (lazy_line_offset_tables b) as [t|] eqn:El, (deferred_source b) as [text|] eqn:Ed.
  2, 4: (eexists; split; [reflexivity|]; repeat split; unfold tables in *; cbn in *; rewrite ?Ed, ?El in *; done).
  - eexists. split; [reflexivity|]. repeat split; unfold tables in *; cbn in *; rewrite ?Ed, ?El in *; done.
  - destruct H1 as [-> Ht]. rewrite (generate_ok src) by (done || lia). cbn [mbind option_bind].
    eexists. split; [reflexivity|]. repeat split; unfold tables in *; cbn in *; rewrite ?Ed; auto.
Qed.

Lemma cache_tables_ok b :
  knows b src -> tables b = table_rows 0 [] src -> let b' := cache_tables b in
  knows b' src /\ tables b' = tables b /\ prev_loc b' = prev_loc b /\ map_side b' = map_side b /\
  line_offset_table_byte_offset_list b' = byte_offset_to_start_of_line <$> tables b /\
  line_offset_table_first_non_ascii b' = byte_offset_to_first_non_ascii <$> tables b.
Proof.
  intros [H1 H2] Ht b'. unfold b', cache_tables. case_decide as Hd.
  - destruct H2 as [H2|(_ & H2 & H3)]; [|split; [by split; auto|done]].
    rewrite H2, Ht in Hd. symmetry in Hd. apply nil_length_inv in Hd. by apply table_rows_nonempty in Hd.
  - split; [|done]. split; [|by right]. cbn. unfold tables in *. cbn. done.
Qed.

(** One call, [pending] being the output that the builder has not read. *)
Lemma add_source_mapping_ok b evs p pl before pending k :
  knows b src -> prev_loc b = pl -> built b evs -> shows b p -> last_generated_update b = Z.of_nat (len before) ->
  within p (len before) ->
  Forall code_point pending -> Forall (fun c => c <> 0x0D) pending -> Z.of_nat (len (before ++ pending)) < 2 ^ 31 - 1 ->
  pl <> loc_of src (Some k) -> let cover := cover_lines_without_mappings b in
  let q := out_text cover p pending in
  let m := out_mapping cover q.1 (original_of src k).1 (original_of src k).2 in
  exists b', add_source_mapping b (loc_of src (Some k)) (wtf8 (before ++ pending)) = Some b' /\
    knows b' src /\ prev_loc b' = loc_of src (Some k) /\ built b' (evs ++ q.2 ++ m.2) /\ shows b' m.1 /\
    last_generated_update b' = Z.of_nat (len (before ++ pending)) /\ cover_lines_without_mappings b' = cover.
Proof using HF Hsrc Hlen.
  intros Hk Hpl Hb Hs Hu Hw Hcp Hcr Hout Hne cover q m. unfold add_source_mapping.
  rewrite Hpl. destruct (Z.eqb_spec pl (loc_of src (Some k))); [done|].
  destruct (Z.eqb_spec (loc_of src (Some k)) LOC_EMPTY) as [E|_]; [unfold loc_of, LOC_EMPTY in E; lia|]. cbn [orb].
  destruct (prepare_tables_ok b (loc_of src (Some k)) Hk) as (b1 & -> & Hk1 & Ht1 & Hl1 & Hm1). cbn [mbind option_bind].
  rewrite decide_False by (rewrite Ht1; apply table_rows_nonempty).
  destruct (cache_tables_ok b1 Hk1 Ht1) as (Hk2 & Ht2 & Hl2 & Hm2 & Hc1 & Hc2). set (b2 := cache_tables b1) in *.
  rewrite Hm1 in Hm2. clear Hk1 Hm1. rewrite Ht2, Hc1, Hc2, Ht1. pose proof (map_side_shows _ _ p Hm2 Hs) as Hs2.
  unfold original_of, loc_of in *. destruct (position 0 0 [] (take k src) (drop k src)) as [[line start] l] eqn:Epos.
  pose proof (take_drop k src) as Htd.
  pose proof (original_position_ok (take k src) (drop k src) (trunc32 (s_original_line (prev_state b2))) line start l) as Hop.
  rewrite Htd in Hop. cbv zeta in Hop. rewrite Hop; [|done|done|unfold trunc32; apply Z.mod_pos_bound; lia|done].
  cbn [mbind option_bind fst snd]. clear Hop.
  assert (built b2 evs) as Hb2 by (apply (built_same b evs); [done| |]; by injection Hm2).
  assert (last_generated_update b2 = Z.of_nat (len before)) as Hu2 by (rewrite <- Hu; by injection Hm2).
  assert (cover_lines_without_mappings b2 = cover) as Hcov2 by (by injection Hm2).
  destruct (update_ok b2 evs p before pending Hb2 Hs2 Hu2 Hw Hcp Hcr Hout) as (b3 & -> & Hb3 & Hs3 & Hu3 & Hsrc3).
  cbn [mbind option_bind]. rewrite Hcov2 in *.
  assert (cover_lines_without_mappings b3 = cover) as Hcov3 by (rewrite <- Hcov2; by injection Hsrc3).
  pose proof (out_text_within cover p pending (len before) Hw) as [[Hw1 _] _].
  destruct (add_mapping_at_built b3 _ (out_text cover p pending).1 (Z.of_nat line) (width l - if shifted l then 1 else 0) Hb3 Hs3)
    as (b4 & E4 & Hb4 & Hs4 & Ho4); [done|lia|apply shifted_width|].
  rewrite Hcov3 in *. exists b4. split; [exact E4|]. injection Ho4 as Hu4 Hsrc4. rewrite <- app_assoc in Hb4.
  assert (source_side b4 = source_side b2) as Hss by (unfold source_side in *; congruence).
  split; [by apply (knows_same b2)|]. split; [rewrite <- Hl1, <- Hl2; by injection Hss|]. split; [done|]. split; [done|].
  split; [congruence|]. rewrite <- Hcov2. by injection Hss.
Qed.


(** What holds between the calls of the printer. *)
Record printing (cover : bool) (b : Builder) (evs : list Event) (p : PrintState) (pl : Z) (before : list Z) : Prop := {
  pr_knows : knows b src;
  pr_loc : prev_loc b = pl;
  pr_built : built b evs;
  pr_shows : shows b p;
  pr_read : last_generated_update b = Z.of_nat (len before);
  pr_within : within p (len before);
  pr_cover : cover_lines_without_mappings b = cover
}.

(** The calls of the printer, the output growing. *)
Fixpoint print_calls (b : Builder) (output : list Z) (calls : list Call) : option (Builder * list Z) :=
  match calls with
  | [] => Some (b, output)
  | (text, o) :: r =>
    b ← add_source_mapping b (loc_of src o) (wtf8 (output ++ text));
    print_calls b (output ++ text) r
  end.

Definition call_text (calls : list Call) : list Z := calls ≫= fst.

(** Characters that the output may have. *)
Definition printed (c : Z) : Prop := code_point c /\ c <> 0x0D.

Lemma printed_split l : Forall printed l -> Forall code_point l /\ Forall (fun c => c <> 0x0D) l.
Proof. intros H. split; eapply Forall_impl; try exact H; by intros c []. Qed.

Lemma print_calls_ok cover calls : forall b evs p pl before pending,
  printing cover b evs p pl before -> Forall printed pending -> Forall printed (call_text calls) ->
  Z.of_nat (len (before ++ pending ++ call_text calls)) < 2 ^ 31 - 1 ->
  let q := out_text cover p pending in
  let t := out_calls cover src q.1 pl calls in
  exists b' evs' p' pl' before' pending',
    print_calls b (before ++ pending) calls = Some (b', before' ++ pending') /\
    printing cover b' evs' p' pl' before' /\ Forall printed pending' /\
    before' ++ pending' = before ++ pending ++ call_text calls /\
    (out_text cover p' pending').1 = t.1 /\ evs' ++ (out_text cover p' pending').2 = evs ++ q.2 ++ t.2.
Proof using HF Hsrc Hlen.
  induction calls as [|[text o] r IH]; intros b evs p pl before pending Hpr Hpend Htext Hl q t.
  { exists b, evs, p, pl, before, pending. unfold call_text. cbn. by rewrite !app_nil_r. }
  unfold call_text in Htext, Hl |- *. cbn [mbind list_bind fst] in Htext, Hl |- *. fold (call_text r) in *.
  apply Forall_app in Htext as [Htext Hr]. assert (Forall printed (pending ++ text)) as Hpt by (by apply Forall_app).
  cbn [print_calls]. rewrite <- (app_assoc before). pose proof (out_text_app cover p pending text) as Happ.
  unfold t. cbn [out_calls]. fold q in Happ. set (u := out_text cover q.1 text) in *.
  assert (forall out, out = (u.1, [], pl) -> out_call cover src u.1 pl o = out ->
    add_source_mapping b (loc_of src o) (wtf8 (before ++ pending ++ text)) = Some b ->
    exists b' evs' p' pl' before' pending',
    (b ← add_source_mapping b (loc_of src o) (wtf8 (before ++ pending ++ text)); print_calls b (before ++ pending ++ text) r) =
      Some (b', before' ++ pending') /\
    printing cover b' evs' p' pl' before' /\ Forall printed pending' /\
    before' ++ pending' = before ++ pending ++ text ++ call_text r /\
    (out_text cover p' pending').1 = (out_calls cover src u.1 pl r).1 /\
    evs' ++ (out_text cover p' pending').2 = evs ++ q.2 ++ u.2 ++ (out_calls cover src u.1 pl r).2) as Hskip.
  { intros out _ _ ->. cbn [mbind option_bind].
    destruct (IH b evs p pl before (pending ++ text)) as (b' & evs' & p' & pl' & bf & pd & E & H1 & H2 & H3 & H4 & H5);
      [done|done|done|by rewrite <- app_assoc|].
    exists b', evs', p', pl', bf, pd. rewrite Happ in H4, H5. cbn [fst snd] in H4, H5.
    split; [exact E|]. split; [done|]. split; [done|]. split; [by rewrite H3, <- app_assoc|]. split; [done|].
    by rewrite H5, <- app_assoc. }
  destruct Hpr as [P1 P2 P3 P4 P5 P6 P7]. unfold out_call. destruct o as [k|].
  2: { cbn [fst snd app]. eapply Hskip; [done|done|]. unfold add_source_mapping. change (loc_of src None) with LOC_EMPTY. by rewrite orb_true_r. }
  destruct (Z.eqb_spec pl (loc_of src (Some k))) as [Epl|Hne].
  { cbn [fst snd app]. eapply Hskip; [done|unfold out_call; by rewrite Epl, Z.eqb_refl|]. unfold add_source_mapping. by rewrite P2, Epl, Z.eqb_refl. }
  clear Hskip. destruct (printed_split _ Hpt) as [Hcp Hcr].
  destruct (add_source_mapping_ok b evs p pl before (pending ++ text) k P1 P2 P3 P4 P5 P6 Hcp Hcr) as (b1 & -> & K1 & K2 & K3 & K4 & K5 & K6);
    [rewrite !len_app in *; lia|done|].
  rewrite P7, Happ in *. cbn [fst snd mbind option_bind] in *. set (m := out_mapping cover u.1 _ _) in *.
  destruct (IH b1 (evs ++ (q.2 ++ u.2) ++ m.2) m.1 (loc_of src (Some k)) (before ++ pending ++ text) [])
    as (b' & evs' & p' & pl' & bf & pd & E & H1 & H2 & H3 & H4 & H5); [|done|done| |].
  - split; try done. pose proof (out_text_within cover p (pending ++ text) (len before) P6) as Hw.
    rewrite Happ in Hw. rewrite (len_app before). exact Hw.
  - cbn [app]. by rewrite <- !app_assoc.
  - rewrite app_nil_r in E. exists b', evs', p', pl', bf, pd. split; [exact E|]. split; [done|]. split; [done|].
    split; [rewrite H3; cbn [app]; by rewrite <- !app_assoc|]. split; [exact H4|]. rewrite H5. cbn [out_text fst snd app].
    by rewrite <- !app_assoc.
Qed.

(** A file is printed: the builder is made with the table of the source or
    with the source, is called, and gives its chunk. *)
Definition print_file (cover lazy : bool) (calls : list Call) (tail : list Z) : option Chunk :=
  table ← (if lazy then Some [] else generate (wtf8 src));
  r ← print_calls (builder_init cover table (if lazy then Some (wtf8 src) else None)) [] calls;
  generate_chunk r.1 (wtf8 (r.2 ++ tail)).

(** The chunk of a file holds its events. *)
Definition holds (chunk : Chunk) (evs : list Event) (final : Z) : Prop :=
  buffer chunk = render false state_default evs /\ end_state chunk = state_after state_default evs /\
  final_generated_column chunk = final /\ lined state_default evs.

Lemma print_file_ok cover lazy calls tail :
  Forall printed (call_text calls) -> Forall printed tail -> Z.of_nat (len (call_text calls ++ tail)) < 2 ^ 31 - 1 ->
  let f := out_file cover src calls tail in
  exists chunk, print_file cover lazy calls tail = Some chunk /\ holds chunk f.2 (ps_column f.1).
Proof using HF Hsrc Hlen.
  intros Hc Ht Hl f. unfold print_file.
  assert (exists table, (if lazy then Some [] else generate (wtf8 src)) = Some table /\
    printing cover (builder_init cover table (if lazy then Some (wtf8 src) else None)) [] print_start LOC_EMPTY []) as (table & -> & Hpr).
  { exists (if lazy then [] else table_rows 0 [] src). split; [destruct lazy; [done|apply generate_ok; [done|lia]]|].
    split; try done. split; [|by left]. by destruct lazy. }
  rewrite len_app in Hl. cbn [mbind option_bind].
  destruct (print_calls_ok cover calls _ [] print_start LOC_EMPTY [] [] Hpr) as
    (b & evs & p & pl & before & pending & E & [P1 P2 P3 P4 P5 P6 P7] & Hpend & Eb & E1 & E2); [done|done|cbn [app]; lia|].
  cbn [app] in E. rewrite E. cbn [mbind option_bind fst snd]. unfold generate_chunk. rewrite <- app_assoc.
  assert (Forall printed (pending ++ tail)) as [Hcp Hcr]%printed_split by (by apply Forall_app).
  destruct (update_ok b evs p before (pending ++ tail) P3 P4 P5 P6 Hcp Hcr) as (b' & E' & Hb' & Hs' & _ & _).
  { rewrite app_assoc, Eb. cbn [app]. rewrite len_app. lia. }
  rewrite E'. cbn [mbind option_bind]. rewrite P7, out_text_app, E1 in *. cbn [fst snd app out_text] in *.
  rewrite app_assoc, E2 in Hb'. eexists. split; [reflexivity|]. unfold f, out_file. cbn [fst snd].
  destruct Hb' as [B1 B2 B3 B4 B5 B6], Hs' as (_ & S2 & _). unfold holds. cbn. done.
Qed.

End Print.
