(* ===== verification/SourceMapChunk.v ===== *)
(** How the chunks of a bundle are joined: [append_source_map_chunk] of
    src/src/sourcemap/lib.rs and the loop of src/src/bundler/LinkerContext.rs,
    over [StringJoiner] of src/src/bun_core/string/StringJoiner.rs. *)
From S2P Require Import Prelude Vlq Mappings SourceMapBuilder.

(** * The joiner: its slices are not empty, [j_len] is their length. *)
Record StringJoiner := { nodes : list bytes; j_len : nat }.

Definition push (j : StringJoiner) (data : bytes) : StringJoiner :=
  match data with
  | [] => j
  | _ => {| nodes := nodes j ++ [data]; j_len := j_len j + length data |}
  end.

Definition joiner_last_byte (j : StringJoiner) : option Z :=
  match last (nodes j) with
  | None => Some 0
  | Some s => s !! (length s - 1)%nat
  end.

(** [done]. *)
Definition joiner_done (j : StringJoiner) : bytes := concat (nodes j).

Definition index_of_not_char (slice : bytes) (char : Z) : option Z :=
  match slice with
  | [] => None
  | c :: _ =>
    if negb (c =? char) then Some 0
    else
      let i := prefix_len (fun current => current =? char) slice in
      if decide (i < length slice)%nat then Some (trunc32 (Z.of_nat i)) else None
  end.

Definition append_source_map_chunk (j : StringJoiner) (prev_end_state start_state : SourceMapState)
    (source_map : bytes) : option StringJoiner :=
  let set_column s c := {|
    s_generated_line := s_generated_line s; s_generated_column := c; s_source_index := s_source_index s;
    s_original_line := s_original_line s; s_original_column := s_original_column s |} in
  if s_generated_line start_state <? 0 then None
  else
    let '(j, prev_end_state) :=
      if negb (s_generated_line start_state =? 0)
      then (push j (replicate (Z.to_nat (s_generated_line start_state)) #";"), set_column prev_end_state 0)
      else (j, prev_end_state) in
    let semicolons :=
      match index_of_not_char source_map #";" with Some i => Z.to_nat i | None => O end in
    leading ← slice source_map 0 semicolons;
    let '(j, source_map, prev_end_state, start_state) :=
      if decide (0 < semicolons)%nat
      then (push j leading, drop semicolons source_map, set_column prev_end_state 0, set_column start_state 0)
      else (j, source_map, prev_end_state, start_state) in
    generated_column ← decode source_map 0;
    source_index ← decode source_map (vlq_start generated_column);
    original_line ← decode source_map (vlq_start source_index);
    original_column ← decode source_map (vlq_start original_line);
    rest ← slice_from source_map (vlq_start original_column);
    let start_state := {|
      s_generated_line := s_generated_line start_state;
      s_generated_column := i32_wrap (s_generated_column start_state + vlq_value generated_column);
      s_source_index := i32_wrap (s_source_index start_state + vlq_value source_index);
      s_original_line := i32_wrap (s_original_line start_state + vlq_value original_line);
      s_original_column := i32_wrap (s_original_column start_state + vlq_value original_column) |} in
    last_byte ← joiner_last_byte j;
    Some (push (push j (append_mapping_to_buffer [] last_byte prev_end_state start_state)) rest).

(** The loop that joins the chunks of a bundle: the state of its locals. *)
Record JoinState := { js_joiner : StringJoiner; prev_end_state : SourceMapState; prev_column_offset : Z }.

Record CompileResult := { source_map_chunk : Chunk; generated_offset : LineColumnOffset; cr_source_index : Z }.

Definition join_chunk (source_id_map : gmap Z Z) (st : JoinState) (r : CompileResult) : option JoinState :=
  mapping_source_index ← source_id_map !! cr_source_index r;
  let chunk := source_map_chunk r in
  let column := columns (generated_offset r) in
  let column :=
    if lines (generated_offset r) =? 0 then i32_wrap (column + prev_column_offset st) else column in
  let start_state := {|
    s_generated_line := lines (generated_offset r); s_generated_column := column;
    s_source_index := mapping_source_index; s_original_line := 0; s_original_column := 0 |} in
  j ← append_source_map_chunk (js_joiner st) (prev_end_state st) start_state (buffer chunk);
  let e := end_state chunk in
  let on_line := s_generated_line e =? 0 in
  Some {|
    js_joiner := j;
    prev_end_state := {|
      s_generated_line := s_generated_line e;
      s_generated_column := if on_line then i32_wrap (s_generated_column e + column) else s_generated_column e;
      s_source_index := mapping_source_index;
      s_original_line := s_original_line e; s_original_column := s_original_column e |};
    prev_column_offset :=
      if on_line then i32_wrap (final_generated_column chunk + column) else final_generated_column chunk |}.

Fixpoint join_chunks (source_id_map : gmap Z Z) (st : JoinState) (results : list CompileResult) : option JoinState :=
  match results with
  | [] => Some st
  | r :: results => st ← join_chunk source_id_map st r; join_chunks source_id_map st results
  end.

Definition join_init (j : StringJoiner) : JoinState :=
  {| js_joiner := j; prev_end_state := state_default; prev_column_offset := 0 |}.
