(* ===== verification/SourceMapChunkSpec.v ===== *)
(** The join of the chunks of a bundle renders their mappings moved to their
    places. *)
From stdpp Require Import sorting.
From S2P Require Import Prelude Vlq SemverString Mappings MappingsSpec SourceMapBuilder SourceMapBuilderSpec SourceMapChunk.

(** * Moving events *)

(** Where a mapping of a chunk goes in a bundle: the first line of the chunk
    starts at the column [col] of the line [line]. *)
Definition move (line col src : Z) (s : SourceMapState) : SourceMapState := {|
  s_generated_line := line + s_generated_line s;
  s_generated_column := if s_generated_line s =? 0 then col + s_generated_column s else s_generated_column s;
  s_source_index := src + s_source_index s; s_original_line := s_original_line s;
  s_original_column := s_original_column s |}.

Definition move_event (line col src : Z) (e : Event) : Event :=
  match e with ELine => ELine | EMap s => EMap (move line col src s) end.

Definition same_fields (a b : SourceMapState) : Prop :=
  s_generated_column a = s_generated_column b /\ s_source_index a = s_source_index b /\
  s_original_line a = s_original_line b /\ s_original_column a = s_original_column b.

#[local] Transparent fields.

Lemma fields_same a b s : same_fields a b -> fields a s = fields b s.
Proof. unfold fields. by intros (-> & -> & -> & ->). Qed.

Lemma saturating_sub_shift d a b : saturating_sub (d + a) (d + b) = saturating_sub a b.
Proof. unfold saturating_sub. by replace (d + a - (d + b)) with (a - b) by lia. Qed.

Lemma fields_move line col src prev s :
  s_generated_line s = s_generated_line prev -> fields (move line col src prev) (move line col src s) = fields prev s.
Proof.
  intros Hl. unfold fields, move. cbn [s_generated_column s_source_index s_original_line s_original_column].
  rewrite Hl, saturating_sub_shift. by destruct (_ =? 0); rewrite ?saturating_sub_shift.
Qed.

#[local] Opaque fields.

Lemma render_same c a b evs : same_fields a b -> render c a evs = render c b evs.
Proof.
  revert c a b; induction evs as [|[|s] evs IH]; intros c a b H; cbn [render]; [done| |].
  - f_equal. apply IH. destruct H as (_ & ? & ? & ?). by repeat split.
  - by rewrite (fields_same a b).
Qed.

#[export] Instance same_fields_equiv : Equivalence same_fields.
Proof.
  split; [by intros a|intros a b (? & ? & ? & ?)|intros a b c (? & ? & ? & ?) (? & ? & ? & ?)]; unfold same_fields;
    repeat split; congruence.
Qed.

#[export] Instance render_proper : Proper (eq ==> same_fields ==> eq ==> eq) render.
Proof. intros c ? <- a b H evs ? <-. by apply render_same. Qed.

#[export] Instance state_after_proper : Proper (same_fields ==> eq ==> same_fields) state_after.
Proof.
  intros a b H evs ? <-. revert a b H. induction evs as [|[|s] evs IH]; intros a b H; [done| |]; apply IH; [|done].
  destruct H as (_ & ? & ? & ?). by repeat split.
Qed.

Lemma end_line_move line col src prev :
  0 <= s_generated_line prev -> same_fields (end_line (move line col src prev)) (move line col src (end_line prev)).
Proof. intros H. unfold same_fields, move. cbn. destruct (Z.eqb_spec (s_generated_line prev + 1) 0); [lia|done]. Qed.

Lemma render_move line col src c prev evs :
  lined prev evs -> 0 <= s_generated_line prev ->
  render c (move line col src prev) (move_event line col src <$> evs) = render c prev evs.
Proof.
  revert c prev; induction evs as [|[|s] evs IH]; intros c prev Hl H0; cbn [render fmap list_fmap move_event]; [done| |].
  - f_equal. rewrite end_line_move by done. apply IH; [done|cbn; lia].
  - destruct Hl as (Hl & _ & Hr). rewrite fields_move, IH; [done|done|lia|done].
Qed.

Lemma render_lines c prev n evs :
  render c prev (replicate n ELine ++ evs) =
  replicate n #";" ++ render (if decide (n = 0%nat) then c else false) (state_after prev (replicate n ELine)) evs.
Proof.
  revert c prev; induction n as [|n IH]; intros c prev; [done|]. cbn [replicate app render]. f_equal.
  rewrite IH. cbn. by case_decide.
Qed.

Lemma after_lines prev n :
  state_after prev (replicate n ELine) = {|
    s_generated_line := s_generated_line prev + Z.of_nat n;
    s_generated_column := if decide (n = 0%nat) then s_generated_column prev else 0;
    s_source_index := s_source_index prev; s_original_line := s_original_line prev;
    s_original_column := s_original_column prev |}.
Proof.
  revert prev; induction n as [|n IH]; intros prev.
  - cbn. rewrite Z.add_0_r. by destruct prev.
  - cbn [replicate]. unfold state_after in *. cbn [foldl after]. rewrite IH. unfold end_line. cbn. f_equal; [lia|by case_decide].
Qed.

(** * The joiner *)

Definition joiner_ok (j : StringJoiner) : Prop := Forall (fun s => s <> []) (nodes j).

Lemma push_done j d : joiner_done (push j d) = joiner_done j ++ d.
Proof. unfold joiner_done, push. destruct d; cbn; [by rewrite app_nil_r|]. rewrite concat_app. cbn. by rewrite app_nil_r. Qed.

Lemma push_ok j d : joiner_ok j -> joiner_ok (push j d).
Proof. unfold joiner_ok, push. destruct d; [done|]. cbn. intros. apply Forall_app. split; [done|]. by constructor. Qed.

Lemma joiner_last j : joiner_ok j -> joiner_last_byte j = Some (default 0 (last (joiner_done j))).
Proof.
  unfold joiner_ok, joiner_last_byte, joiner_done. destruct (nodes j) as [|s l _] using rev_ind; [done|].
  intros [_ [H _]%Forall_cons]%Forall_app. rewrite last_snoc, concat_app. cbn. rewrite app_nil_r.
  destruct s as [|x s _] using rev_ind; [done|]. rewrite app_assoc, last_snoc, length_app, Nat.add_sub. cbn.
  apply list_lookup_middle. done.
Qed.

(** * Decoding the fields of a mapping *)

#[local] Transparent fields.

Definition field_deltas (prev s : SourceMapState) : list Z := [
  saturating_sub (s_generated_column s) (s_generated_column prev);
  saturating_sub (s_source_index s) (s_source_index prev);
  saturating_sub (s_original_line s) (s_original_line prev);
  saturating_sub (s_original_column s) (s_original_column prev)].

Lemma decode_front v rest :
  is_i32 v -> v <> - 2 ^ 31 ->
  decode (vlq_slice (encode v) ++ rest) 0 = Some {| vlq_value := v; vlq_start := length (vlq_slice (encode v)) |} /\
  (0 < length (vlq_slice (encode v)))%nat.
Proof.
  intros Hv Hne. split; [apply (decode_encode [] v rest Hv Hne)|].
  destruct (encode_ok v Hv) as [H _]. destruct (vlq_slice (encode v)); [done|cbn; lia].
Qed.

(** A state whose fields are in range. *)
Definition in_range (s : SourceMapState) : Prop :=
  0 <= s_generated_column s < 2 ^ 31 /\ 0 <= s_source_index s < 2 ^ 31 /\
  0 <= s_original_line s < 2 ^ 31 /\ 0 <= s_original_column s < 2 ^ 31.

Lemma decode_at pre v rest n :
  n = length pre -> is_i32 v -> v <> - 2 ^ 31 ->
  decode (pre ++ vlq_slice (encode v) ++ rest) n =
    Some {| vlq_value := v; vlq_start := length (pre ++ vlq_slice (encode v)) |}.
Proof. intros -> Hv Hne. rewrite decode_encode by done. by rewrite length_app. Qed.

(** The four numbers that [append_source_map_chunk] reads. *)
Lemma decode_fields s rest :
  in_range s -> s_source_index s = 0 -> exists a b c d,
    let text := fields state_default s ++ rest in
    decode text 0 = Some a /\ decode text (vlq_start a) = Some b /\ decode text (vlq_start b) = Some c /\
    decode text (vlq_start c) = Some d /\ slice_from text (vlq_start d) = Some rest /\
    vlq_value a = s_generated_column s /\ vlq_value b = 0 /\
    vlq_value c = s_original_line s /\ vlq_value d = s_original_column s.
Proof.
  intros (H1 & H2 & H3 & H4) Hs. unfold fields. cbn. rewrite app_nil_r, <- !app_assoc.
  rewrite !saturating_sub_ok, Hs, !Z.sub_0_r by lia.
  set (v1 := vlq_slice (encode (s_generated_column s))). set (v2 := vlq_slice (encode 0)).
  set (v3 := vlq_slice (encode (s_original_line s))). set (v4 := vlq_slice (encode (s_original_column s))).
  exists {| vlq_value := s_generated_column s; vlq_start := length v1 |}.
  exists {| vlq_value := 0; vlq_start := length (v1 ++ v2) |}.
  exists {| vlq_value := s_original_line s; vlq_start := length ((v1 ++ v2) ++ v3) |}.
  exists {| vlq_value := s_original_column s; vlq_start := length (((v1 ++ v2) ++ v3) ++ v4) |}. cbn [vlq_start vlq_value].
  split; [apply (decode_at [] _ (v2 ++ v3 ++ v4 ++ rest)); [done|unfold is_i32; lia|lia]|].
  split; [apply (decode_at v1 _ (v3 ++ v4 ++ rest)); [done|unfold is_i32; lia|lia]|].
  split; [rewrite (app_assoc v1); apply (decode_at (v1 ++ v2) _ (v4 ++ rest)); [done|unfold is_i32; lia|lia]|].
  split; [rewrite (app_assoc v1), (app_assoc _ v3); apply (decode_at ((v1 ++ v2) ++ v3) _ rest); [done|unfold is_i32; lia|lia]|].
  split; [|done]. rewrite (app_assoc v1), (app_assoc _ v3), (app_assoc _ v4).
  rewrite slice_from_ok by (rewrite !length_app; lia). by rewrite drop_app_length.
Qed.

Lemma prefix_len_replicate (p : Z -> bool) k c (rest : bytes) :
  p c = true -> (match rest with [] => True | x :: _ => p x = false end) -> prefix_len p (replicate k c ++ rest) = k.
Proof.
  intros Hc Hr. induction k as [|k IH]; cbn; [|by rewrite Hc, IH]. destruct rest; cbn; [done|]. by rewrite Hr.
Qed.

Lemma fields_head prev s rest : exists x r, fields prev s ++ rest = x :: r /\ is_digit x.
Proof.
  destruct (fields_ok prev s) as (f & l & -> & H). destruct l as [|x l]; cbn in *; inv H; eauto.
Qed.

Lemma semicolons_ok k prev s rest :
  Z.of_nat k < 2 ^ 32 ->
  index_of_not_char (replicate k #";" ++ fields prev s ++ rest) #";" = Some (Z.of_nat k).
Proof.
  intros Hk. destruct (fields_head prev s rest) as (x & r & -> & Hx).
  assert ((x =? #";") = false) as Hne by (apply Z.eqb_neq; apply Hx).
  unfold index_of_not_char. destruct k as [|k]; [cbn; by rewrite Hne|]. cbn [replicate app].
  change (#";" :: replicate k #";" ++ x :: r) with (replicate (S k) #";" ++ x :: r). cbn [negb].
  rewrite prefix_len_replicate by done. rewrite length_app, length_replicate. cbn [length].
  rewrite decide_True by lia. unfold trunc32. by rewrite Z.mod_small by lia.
Qed.

#[local] Opaque fields.

#[local] Transparent fields.

Lemma fields_same_r prev a b : same_fields a b -> fields prev a = fields prev b.
Proof. unfold fields. by intros (-> & -> & -> & ->). Qed.

#[local] Opaque fields.

Definition set_column (s : SourceMapState) (c : Z) : SourceMapState := {|
  s_generated_line := s_generated_line s; s_generated_column := c; s_source_index := s_source_index s;
  s_original_line := s_original_line s; s_original_column := s_original_column s |}.

(** The joiner ends in a state where the next mapping needs a comma or not. *)
Definition joined (c : bool) (j : StringJoiner) : Prop :=
  joiner_ok j /\ needs_comma (default 0 (last (joiner_done j))) = c.

Lemma joined_push c j d x : joined c j -> last d = Some x -> joined (needs_comma x) (push j d).
Proof.
  intros [Hj Hc] Hd. split; [by apply push_ok|]. rewrite push_done. destruct d as [|y d _] using rev_ind; [done|].
  rewrite last_snoc in Hd. injection Hd as ->. by rewrite app_assoc, last_snoc.
Qed.

Lemma joined_lines c j n :
  joined c j -> joined (if decide (n = 0%nat) then c else false) (push j (replicate n #";")).
Proof.
  intros Hj. case_decide as Hn; [by rewrite Hn|]. apply (joined_push c j _ #";"); [done|].
  destruct n as [|n]; [done|]. rewrite replicate_S_end. apply last_snoc.
Qed.

(** The join of one chunk, its text taken apart. *)
Lemma append_chunk_text c j prev start k s tail :
  joined c j -> Z.of_nat k < 2 ^ 31 -> 0 <= s_generated_line start -> in_range s -> s_source_index s = 0 ->
  let lines := (Z.to_nat (s_generated_line start) + k)%nat in
  let s' := {|
    s_generated_line := s_generated_line start;
    s_generated_column := i32_wrap ((if decide (k = 0%nat) then s_generated_column start else 0) + s_generated_column s);
    s_source_index := i32_wrap (s_source_index start + 0);
    s_original_line := i32_wrap (s_original_line start + s_original_line s);
    s_original_column := i32_wrap (s_original_column start + s_original_column s) |} in
  exists j', append_source_map_chunk j prev start (replicate k #";" ++ fields state_default s ++ tail) = Some j' /\
    joiner_ok j' /\
    joiner_done j' = joiner_done j ++ replicate lines #";" ++
      (if if decide (lines = 0%nat) then c else false then [ #","] else []) ++
      fields (if decide (lines = 0%nat) then prev else set_column prev 0) s' ++ tail.
Proof.
  intros Hj Hk Hline Hs Hsrc lines s'. unfold append_source_map_chunk.
  destruct (Z.ltb_spec (s_generated_line start) 0) as [?|_]; [lia|].
  set (n := Z.to_nat (s_generated_line start)) in *.
  set (j1 := push j (replicate n #";")).
  assert ((if negb (s_generated_line start =? 0) then (j1, set_column prev 0) else (j, prev)) =
    (j1, if decide (n = 0%nat) then prev else set_column prev 0)) as Hif.
  { destruct (Z.eqb_spec (s_generated_line start) 0) as [E|E]; cbn [negb].
    - unfold j1. replace n with 0%nat by lia. by rewrite decide_True.
    - by rewrite decide_False by lia. }
  unfold set_column in Hif at 1. rewrite Hif. clear Hif.
  rewrite semicolons_ok, Nat2Z.id by lia.
  rewrite slice_ok, drop_0, Nat.sub_0_r, take_app_length' by (rewrite ?length_app, ?length_replicate; lia).
  cbn [mbind option_bind]. set (j2 := push j1 (replicate k #";")).
  set (prev' := if decide (lines = 0%nat) then prev else set_column prev 0).
  set (start' := if decide (k = 0%nat) then start else set_column start 0).
  match goal with |- context [if decide (0 < k)%nat then ?x else ?y] =>
    assert ((if decide (0 < k)%nat then x else y) = (j2, fields state_default s ++ tail, prev', start')) as Hif end.
  { case_decide as Hd.
    - rewrite drop_app_length' by (by rewrite length_replicate). unfold prev', start'.
      destruct (decide (n = 0%nat)), (decide (lines = 0%nat)), (decide (k = 0%nat)); done || lia.
    - assert (k = 0%nat) as Ek by lia. unfold j2, start', prev'. rewrite Ek. cbn.
      destruct (decide (n = 0%nat)), (decide (lines = 0%nat)); done || lia. }
  rewrite Hif. clear Hif.
  destruct (decode_fields s tail Hs Hsrc) as (a & b & c' & d & Ha & Hb & Hc & Hd & Hrest & Va & Vb & Vc & Vd).
  rewrite Ha; cbn [mbind option_bind]. rewrite Hb; cbn [mbind option_bind]. rewrite Hc; cbn [mbind option_bind].
  rewrite Hd; cbn [mbind option_bind]. rewrite Hrest; cbn [mbind option_bind].
  assert (joined (if decide (lines = 0%nat) then c else false) j2) as [Hj2 Hcomma].
  { pose proof (joined_lines _ _ k (joined_lines c j n Hj)) as H. fold j1 j2 in H.
    destruct (decide (k = 0%nat)), (decide (n = 0%nat)), (decide (lines = 0%nat)); try done; lia. }
  rewrite (joiner_last j2 Hj2). cbn [mbind option_bind]. eexists. split; [done|].
  split; [by apply push_ok, push_ok|]. rewrite !push_done, append_mapping_fields, Hcomma. cbn [app].
  unfold j2, j1. rewrite !push_done. unfold lines. rewrite replicate_add, <- !app_assoc. do 4 f_equal.
  f_equal. apply fields_same_r. unfold start', s'. rewrite Va, Vb, Vc, Vd.
  unfold same_fields. destruct (decide (k = 0%nat)); by cbn.
Qed.

(** * Bundles *)

Definition event_in_range (e : Event) : Prop := match e with ELine => True | EMap s => in_range s end.

Fixpoint num_lines (evs : list Event) : Z :=
  match evs with
  | [] => 0
  | ELine :: r => 1 + num_lines r
  | EMap _ :: r => num_lines r
  end.

(** A mapping is on the line the lines before it lead to. *)
Fixpoint on_lines (line : Z) (evs : list Event) : Prop :=
  match evs with
  | [] => True
  | ELine :: r => on_lines (line + 1) r
  | EMap s :: r => s_generated_line s = line /\ on_lines line r
  end.

Lemma num_lines_nonneg evs : 0 <= num_lines evs.
Proof. induction evs as [|[] evs IH]; cbn; lia. Qed.

Lemma num_lines_app evs evs' : num_lines (evs ++ evs') = num_lines evs + num_lines evs'.
Proof. induction evs as [|[] evs IH]; cbn; lia. Qed.

Lemma num_lines_replicate n : num_lines (replicate n ELine) = Z.of_nat n.
Proof. induction n; cbn; lia. Qed.

Lemma num_lines_move line col src evs : num_lines (move_event line col src <$> evs) = num_lines evs.
Proof. induction evs as [|[] evs IH]; cbn; lia. Qed.

Lemma on_lines_app line evs evs' : on_lines line (evs ++ evs') <-> on_lines line evs /\ on_lines (line + num_lines evs) evs'.
Proof.
  revert line; induction evs as [|[|s] evs IH]; intros line; cbn.
  - rewrite Z.add_0_r. tauto.
  - rewrite IH. replace (line + 1 + num_lines evs) with (line + (1 + num_lines evs)) by lia. done.
  - rewrite IH. tauto.
Qed.

Lemma on_lines_replicate line n : on_lines line (replicate n ELine).
Proof. revert line; induction n; cbn; auto. Qed.

Lemma lined_on_lines prev evs : lined prev evs -> on_lines (s_generated_line prev) evs.
Proof.
  revert prev; induction evs as [|[|s] evs IH]; intros prev; cbn; [done|apply (IH (end_line prev))|].
  intros (Hl & _ & Hr). split; [done|]. rewrite <- Hl. by apply IH.
Qed.

Lemma on_lines_move line col src l evs :
  on_lines l evs -> on_lines (line + l) (move_event line col src <$> evs).
Proof.
  revert l; induction evs as [|[|s] evs IH]; intros l; cbn; [done| |].
  - intros H. apply IH in H. by replace (line + l + 1) with (line + (l + 1)) by lia.
  - intros [-> H]. split; [done|]. by apply IH.
Qed.

Lemma state_line prev evs :
  lined prev evs -> s_generated_line (state_after prev evs) = s_generated_line prev + num_lines evs.
Proof.
  revert prev; induction evs as [|[|s] evs IH]; intros prev; cbn; [lia| |].
  - intros H. unfold state_after in IH. rewrite IH by done. cbn. lia.
  - intros (Hl & _ & H). unfold state_after in IH. rewrite IH by done. lia.
Qed.

(** A text with a mapping is lines, the mapping and the rest. *)
Lemma first_map evs :
  (exists k, evs = replicate k ELine) \/ exists k s rest, evs = replicate k ELine ++ EMap s :: rest.
Proof.
  induction evs as [|[|s] evs IH].
  - left. by exists 0%nat.
  - destruct IH as [[k ->]|(k & s & rest & ->)]; [left; by exists (S k)|right; by exists (S k), s, rest].
  - right. by exists 0%nat, s, evs.
Qed.

Lemma state_in_range prev evs : in_range prev -> Forall event_in_range evs -> in_range (state_after prev evs).
Proof.
  intros Hp H. revert prev Hp. induction H as [|[|s] evs He _ IH]; intros prev Hp; cbn; [done| |]; apply IH; [|done].
  destruct Hp as (? & ? & ? & ?). repeat split; cbn; lia.
Qed.

Lemma state_after_move line col src prev evs :
  lined prev evs -> 0 <= s_generated_line prev ->
  same_fields (state_after (move line col src prev) (move_event line col src <$> evs)) (move line col src (state_after prev evs)).
Proof.
  revert prev; induction evs as [|[|s] evs IH]; intros prev Hl H0; [done| |].
  - rewrite fmap_cons. change (state_after (move line col src prev) (move_event line col src ELine :: (move_event line col src <$> evs)))
      with (state_after (end_line (move line col src prev)) (move_event line col src <$> evs)).
    rewrite (end_line_move line col src prev) by done. apply (IH (end_line prev)); [done|cbn; lia].
  - destruct Hl as (Hl & _ & Hr). apply (IH s); [done|lia].
Qed.

(** What a chunk of a bundle holds, and where it goes: the offset of its text
    from the end of the text before it, its source, and the column its text
    ends in. *)
Record Piece := { p_events : list Event; p_offset : LineColumnOffset; p_source : Z; p_final : Z }.

Definition start_line (line : Z) (p : Piece) : Z := line + lines (p_offset p).
Definition start_column (col : Z) (p : Piece) : Z :=
  if lines (p_offset p) =? 0 then columns (p_offset p) + col else columns (p_offset p).

Definition piece_events (line col : Z) (p : Piece) : list Event :=
  replicate (Z.to_nat (lines (p_offset p))) ELine ++
  (move_event (start_line line p) (start_column col p) (p_source p) <$> p_events p).

Definition end_line_of (line : Z) (p : Piece) : Z := start_line line p + num_lines (p_events p).
Definition end_column_of (col : Z) (p : Piece) : Z :=
  if num_lines (p_events p) =? 0 then p_final p + start_column col p else p_final p.

(** The events of a bundle whose text so far ends at a line and column. *)
Fixpoint bundle_events (line col : Z) (ps : list Piece) : list Event :=
  match ps with
  | [] => []
  | p :: ps => piece_events line col p ++ bundle_events (end_line_of line p) (end_column_of col p) ps
  end.

(** Every chunk has a mapping, and no position leaves the range of an [i32]. *)
Definition piece_ok (line col : Z) (p : Piece) : Prop :=
  (exists s, EMap s ∈ p_events p) /\ Z.of_nat (length (p_events p)) < 2 ^ 31 /\
  Forall event_in_range (p_events p) /\ 0 <= lines (p_offset p) < 2 ^ 31 /\
  0 <= start_column col p < 2 ^ 31 /\ 0 <= p_source p < 2 ^ 31 /\ 0 <= end_column_of col p < 2 ^ 31 /\
  Forall event_in_range (piece_events line col p).

Fixpoint bundle_ok (line col : Z) (ps : list Piece) : Prop :=
  match ps with
  | [] => True
  | p :: ps => piece_ok line col p /\ bundle_ok (end_line_of line p) (end_column_of col p) ps
  end.

(** The chunk of a piece goes at the end of a joiner. *)
Lemma append_chunk_ok c j prev G col p :
  joined c j -> same_fields prev G -> 0 <= s_generated_line G ->
  lined state_default (p_events p) -> piece_ok (s_generated_line G) col p ->
  exists j', append_source_map_chunk j prev {|
      s_generated_line := lines (p_offset p); s_generated_column := start_column col p;
      s_source_index := p_source p; s_original_line := 0; s_original_column := 0 |}
      (render false state_default (p_events p)) = Some j' /\
    joiner_done j' = joiner_done j ++ render c G (piece_events (s_generated_line G) col p) /\
    joined (comma_after_all c (piece_events (s_generated_line G) col p)) j'.
Proof.
  intros Hj Hprev HG Hlined (Hmap & Hlen & Hr & Hlines & Hcol & Hsrc & _ & Hgr).
  destruct (first_map (p_events p)) as [[k E]|(k & s & rest & E)].
  { destruct Hmap as [s Hs]. rewrite E in Hs. by apply elem_of_replicate in Hs as [? _]. }
  set (L := start_line (s_generated_line G) p). set (C := start_column col p) in *. set (src := p_source p) in *.
  unfold piece_events in *. fold L C src. rewrite E in Hlined, Hlen, Hr, Hgr |- *. fold L C src in Hgr.
  apply lined_app in Hlined as [_ Hlined]. rewrite after_lines in Hlined. cbn in Hlined. destruct Hlined as (Hsl & Hss & Hrest).
  rewrite length_app, length_replicate in Hlen. apply Forall_app in Hr as [_ [Hs _]%Forall_cons]. cbn in Hs.
  rewrite fmap_app, fmap_replicate, fmap_cons, app_assoc, <- replicate_add in *. cbn [move_event] in *.
  apply Forall_app in Hgr as [_ [Hms _]%Forall_cons]. cbn in Hms.
  rewrite (render_lines false), after_lines. cbn [render].
  replace (if decide (k = 0%nat) then false else false) with false by (by case_decide). cbn [app].
  rewrite (fields_same _ state_default) by (repeat split; cbn; by case_decide).
  destruct (append_chunk_text c j prev {|
      s_generated_line := lines (p_offset p); s_generated_column := C;
      s_source_index := src; s_original_line := 0; s_original_column := 0 |} k s (render true s rest))
    as (j' & Hj' & Hok & Hdone); [done|lia|cbn; lia|done|done|].
  exists j'. split; [exact Hj'|]. cbn [s_generated_line s_generated_column s_source_index s_original_line s_original_column] in Hdone.
  set (n := (Z.to_nat (lines (p_offset p)) + k)%nat) in *.
  assert (joiner_done j' = joiner_done j ++ render c G (replicate n ELine ++ EMap (move L C src s) :: (move_event L C src <$> rest))) as Hd.
  { rewrite Hdone, render_lines, after_lines. cbn [render]. do 3 f_equal.
    rewrite render_move by (done || lia). f_equal.
    rewrite (fields_same (if decide (n = 0%nat) then prev else _) {|
      s_generated_line := s_generated_line G + Z.of_nat n;
      s_generated_column := if decide (n = 0%nat) then s_generated_column G else 0;
      s_source_index := s_source_index G; s_original_line := s_original_line G; s_original_column := s_original_column G |}).
    2: { destruct Hprev as (? & ? & ? & ?). by case_decide. }
    apply fields_same_r. destruct Hms as (M1 & M2 & M3 & M4), Hs as (S1 & S2 & S3 & S4). unfold move in *.
    cbn in M1, M2, M3, M4. rewrite Hsl in M1 |- *. unfold same_fields. cbn.
    destruct (decide (k = 0%nat)) as [Ek|Ek], (Z.eqb_spec (0 + Z.of_nat k) 0); try lia.
    all: rewrite !i32_wrap_id by (unfold is_i32; lia); repeat split; lia. }
  split; [exact Hd|]. split; [done|]. rewrite Hd, last_app.
  destruct (render_last' c G (replicate n ELine ++ EMap (move L C src s) :: (move_event L C src <$> rest))) as (x & Hx & Hc).
  { by destruct n. }
  by rewrite Hx.
Qed.

(** A compile result that is the chunk of a piece. *)
Definition fits (source_id_map : gmap Z Z) (r : CompileResult) (p : Piece) : Prop :=
  holds (source_map_chunk r) (p_events p) (p_final p) /\ generated_offset r = p_offset p /\
  source_id_map !! cr_source_index r = Some (p_source p).

Lemma state_after_map G evs s rest : state_after G (evs ++ EMap s :: rest) = state_after s rest.
Proof. unfold state_after. by rewrite foldl_app. Qed.

Lemma piece_state line col p G :
  lined state_default (p_events p) -> piece_ok line col p ->
  same_fields (state_after G (piece_events line col p))
    (move (start_line line p) (start_column col p) (p_source p) (state_after state_default (p_events p))) /\
  in_range (state_after G (piece_events line col p)) /\
  s_source_index (state_after state_default (p_events p)) = 0.
Proof.
  intros Hlined (Hmap & _ & Hr & _ & _ & _ & _ & Hgr).
  destruct (first_map (p_events p)) as [[k E]|(k & s & rest & E)].
  { destruct Hmap as [s Hs]. rewrite E in Hs. by apply elem_of_replicate in Hs as [? _]. }
  unfold piece_events in *. rewrite E in *. set (m := move_event _ _ _) in *.
  rewrite fmap_app, fmap_cons in *. apply lined_app in Hlined as [_ Hlined]. rewrite after_lines in Hlined.
  cbn in Hlined. destruct Hlined as (Hsl & Hss & Hrest).
  apply Forall_app in Hgr as [_ [_ [Hms Hgr]%Forall_cons]%Forall_app].
  rewrite app_assoc, !state_after_map. cbn [m move_event]. change (m (EMap s)) with (EMap (move (start_line line p) (start_column col p) (p_source p) s)).
  rewrite state_after_map. split; [|split].
  - apply (state_after_move _ _ _ s rest); [done|lia].
  - by apply (state_in_range _ (m <$> rest)).
  - cbn in Hss. clear -Hss Hrest. revert s Hss Hrest. unfold state_after.
    induction rest as [|[|s'] rest IH]; intros s Hss Hl; cbn in *; [done|by apply (IH (end_line s))|].
    destruct Hl as (_ & Hs' & Hl). apply (IH s'); [congruence|done].
Qed.

Lemma join_chunks_ok source_id_map results ps : forall c G col st,
  Forall2 (fits source_id_map) results ps -> bundle_ok (s_generated_line G) col ps ->
  joined c (js_joiner st) -> same_fields (prev_end_state st) G -> prev_column_offset st = col ->
  0 <= s_generated_line G ->
  exists st', join_chunks source_id_map st results = Some st' /\
    joiner_done (js_joiner st') = joiner_done (js_joiner st) ++ render c G (bundle_events (s_generated_line G) col ps).
Proof.
  revert ps; induction results as [|r results IH]; intros ps c G col st Hh Hok Hj Hprev Hcol HG.
  { apply Forall2_nil_inv_l in Hh as ->. exists st. cbn. by rewrite app_nil_r. }
  apply Forall2_cons_inv_l in Hh as (p & ps' & Hp & Hps & ->). destruct Hok as [Hpo Hok].
  destruct Hp as ((B1 & B3 & Hfin & B6) & Hoff & Hsrc).
  pose proof Hpo as (_ & _ & _ & Hlines & HC & Hs & HE & _).
  cbn [join_chunks]. unfold join_chunk. rewrite Hsrc, Hoff. cbn [mbind option_bind].
  replace (if lines (p_offset p) =? 0 then i32_wrap (columns (p_offset p) + prev_column_offset st) else columns (p_offset p))
    with (start_column col p).
  2: { unfold start_column in *. rewrite Hcol. case_match; [|done]. by rewrite i32_wrap_id by (unfold is_i32; lia). }
  destruct (append_chunk_ok c (js_joiner st) (prev_end_state st) G col p Hj Hprev HG B6 Hpo) as (j' & Hj' & Hd & Hjd).
  rewrite B1, Hj'. cbn [mbind option_bind].
  pose proof (state_line _ _ B6) as Hln. cbn [s_generated_line state_default] in Hln. rewrite Z.add_0_l in Hln.
  destruct (piece_state (s_generated_line G) col p G B6 Hpo) as (Hsf & Hsr & Hs0).
  set (G' := state_after G (piece_events (s_generated_line G) col p)) in *.
  set (G2 := {| s_generated_line := end_line_of (s_generated_line G) p;
    s_generated_column := s_generated_column G'; s_source_index := s_source_index G';
    s_original_line := s_original_line G'; s_original_column := s_original_column G' |}).
  match goal with |- exists st', join_chunks _ ?st2 _ = _ /\ _ =>
    destruct (IH ps' (comma_after_all c (piece_events (s_generated_line G) col p)) G2 (end_column_of col p) st2)
      as (st' & Hst' & Hd') end; cbn [js_joiner prev_end_state prev_column_offset]; try done.
  - destruct Hsf as (F1 & F2 & F3 & F4), Hsr as (R1 & R2 & R3 & R4). unfold move in F1, F2, F3, F4.
    cbn in F1, F2, F3, F4. rewrite B3, Hln in *. unfold same_fields. cbn. rewrite F2, F3, F4, Hs0, Z.add_0_r.
    split; [|done]. rewrite F1 in R1 |- *. case_match; [|done].
    rewrite i32_wrap_id by (unfold is_i32; lia). lia.
  - rewrite B3, Hln, Hfin. unfold end_column_of in *. case_match; [|done].
    by rewrite i32_wrap_id by (unfold is_i32; lia).
  - cbn. unfold end_line_of, start_line. pose proof (num_lines_nonneg (p_events p)). lia.
  - exists st'. split; [exact Hst'|]. rewrite Hd'. cbn [js_joiner bundle_events]. rewrite Hd, render_app, <- app_assoc.
    do 2 f_equal. by apply render_same.
Qed.
