(* ===== verification/SourceMapProps.v ===== *)
(** Parsing the text of source maps back, and the properties of source maps. *)
From stdpp Require Import sorting.
From S2P Require Import Prelude Vlq SemverString Mappings MappingsSpec Wtf8 LineOffsetTable LineOffsetTableSpec SourceMapBuilder SourceMapBuilderSpec SourceMapChunk SourceMapChunkSpec.

(** * Parsing the text back *)

Lemma skip_single_exact k ln rest :
  0 <= ln -> ln + Z.of_nat k < 2 ^ 31 -> head rest <> Some #";" ->
  skip_single ln (replicate k #";" ++ rest) = (ln + Z.of_nat k, rest).
Proof.
  revert ln; induction k as [|k IH]; intros ln Hln Hlt Hr.
  - cbn [replicate app]. rewrite Z.add_0_r. destruct rest as [|x rest]; [done|]. cbn [skip_single].
    destruct (Z.eqb_spec x #";") as [->|]; [done|done].
  - cbn [replicate app skip_single]. change (#";" =? #";") with true. cbv iota. unfold add_scalar.
    rewrite i32_wrap_id by (unfold is_i32; lia). rewrite IH by (done || lia). f_equal. lia.
Qed.

Lemma skip_runs_exact rest : head rest <> Some #";" -> forall n k ln, (k <= n)%nat ->
  0 <= ln -> ln + Z.of_nat k < 2 ^ 31 ->
  exists k', (k' <= k)%nat /\
    skip_runs ln (replicate k #";" ++ rest) = (ln + Z.of_nat (k - k'), replicate k' #";" ++ rest).
Proof.
  intros Hr. induction n as [|n IH]; intros k ln Hn Hln Hlt.
  - assert (k = 0%nat) as -> by lia. exists 0%nat. split; [lia|]. rewrite Z.add_0_r. cbn [replicate app].
    destruct rest as [|a [|b [|c [|d r]]]]; try done. cbn [skip_runs].
    destruct (Z.eqb_spec a #";") as [->|]; done.
  - destruct (decide (4 <= k)%nat) as [H4|H4].
    + destruct k as [|[|[|[|k]]]]; try lia. destruct (IH k (ln + 4)) as (k' & Hk' & E); [lia|lia|lia|].
      exists k'. split; [lia|]. cbn [replicate app skip_runs]. change (#";" =? #";") with true. cbn [andb].
      unfold add_scalar. change (Z.of_nat HALF_USIZE) with 4. rewrite i32_wrap_id by (unfold is_i32; lia).
      rewrite E. f_equal. lia.
    + exists k. split; [lia|]. rewrite Nat.sub_diag, Z.add_0_r.
      destruct k as [|[|[|[|k]]]]; try lia; cbn [replicate app];
        destruct rest as [|a [|b [|c [|d r]]]]; try done; cbn [skip_runs];
        destruct (Z.eqb_spec a #";") as [->|]; try done; rewrite ?andb_false_r; done.
Qed.

Lemma skip_lines_exact k ln rest :
  0 <= ln -> ln + Z.of_nat k < 2 ^ 31 -> head rest <> Some #";" ->
  (let '(ln1, r1) := skip_runs ln (replicate k #";" ++ rest) in skip_single ln1 r1) = (ln + Z.of_nat k, rest).
Proof.
  intros Hln Hlt Hr. destruct (skip_runs_exact rest Hr k k ln) as (k' & Hk & ->); [lia|lia|lia|].
  rewrite skip_single_exact by (done || lia). f_equal. lia.
Qed.

(** The locals of the parser stand at the state [G]. *)
Definition at_state (st : PState) (G : SourceMapState) : Prop :=
  p_generated st = {| lines := s_generated_line G; columns := s_generated_column G |} /\
  p_original st = {| lines := s_original_line G; columns := s_original_column G |} /\
  p_source_index st = s_source_index G.

(** The row that a mapping event is parsed to. *)
Definition event_row (s : SourceMapState) : Mapping := {|
  generated := {| lines := s_generated_line s; columns := s_generated_column s |};
  original := {| lines := s_original_line s; columns := s_original_column s |};
  source_index := s_source_index s; name_index := -1 |}.

Definition event_rows (evs : list Event) : list Mapping :=
  omap (fun e => match e with ELine => None | EMap s => Some (event_row s) end) evs.

(** What follows a mapping in a text: nothing, a comma or a semicolon. *)
Definition tail_ok (tail : bytes) : Prop :=
  match tail with [] => True | c :: _ => c = #"," \/ c = #";" end.

Definition strip_comma (tail : bytes) : bytes :=
  match tail with c :: r => if c =? #"," then r else tail | [] => [] end.

Definition nameless (l : MappingList) : Prop := exists list, impl l = WithoutNames list.

Section ParseRender.
Context (input : bytes) (sources_count : Z) (options : ParseOptions).

#[local] Transparent fields.

Lemma add_delta a b : 0 <= a < 2 ^ 31 -> 0 <= b < 2 ^ 31 -> add_scalar a (saturating_sub b a) = b.
Proof. intros. unfold add_scalar. rewrite saturating_sub_ok by lia. rewrite i32_wrap_id; [|unfold is_i32]; lia. Qed.

Lemma delta_ok a b : 0 <= a < 2 ^ 31 -> 0 <= b < 2 ^ 31 ->
  is_i32 (saturating_sub b a) /\ saturating_sub b a <> - 2 ^ 31.
Proof. intros. rewrite saturating_sub_ok by lia. unfold is_i32. lia. Qed.

(** Reading one number off the front. *)
Lemma decode_slice a b rest : 0 <= a < 2 ^ 31 -> 0 <= b < 2 ^ 31 ->
  let d := {| vlq_value := saturating_sub b a; vlq_start := length (vlq_slice (encode (saturating_sub b a))) |} in
  let text := vlq_slice (encode (saturating_sub b a)) ++ rest in
  decode text 0 = Some d /\ vlq_start d <> 0%nat /\ slice_from text (vlq_start d) = Some rest.
Proof.
  intros Ha Hb d text. destruct (delta_ok a b Ha Hb) as [Hd Hne].
  destruct (decode_front _ rest Hd Hne) as [E Hl]. split; [done|]. split; [cbn; lia|].
  unfold text. cbn [d vlq_start]. rewrite slice_from_ok by (rewrite length_app; lia). by rewrite drop_app_length.
Qed.

Lemma encode_front v rest : is_i32 v -> exists x r, vlq_slice (encode v) ++ rest = x :: r /\ is_digit x.
Proof. intros Hv. destruct (encode_ok v Hv) as [Hne H]. destruct (vlq_slice (encode v)); [done|]. inv H. eauto. Qed.

Lemma parse_fields st G s tail :
  at_state st G -> in_range G -> in_range s -> s_source_index s < sources_count -> tail_ok tail -> nameless (p_mapping st) ->
  p_remain st = fields G s ++ tail ->
  exists st', parse_generated input sources_count options st = Some (Continue st') /\
    p_generated st' = {| lines := s_generated_line G; columns := s_generated_column s |} /\
    p_original st' = {| lines := s_original_line s; columns := s_original_column s |} /\
    p_source_index st' = s_source_index s /\ p_remain st' = strip_comma tail /\
    nameless (p_mapping st') /\
    rows (p_mapping st') = rows (p_mapping st) ++ [event_row {|
      s_generated_line := s_generated_line G; s_generated_column := s_generated_column s;
      s_source_index := s_source_index s; s_original_line := s_original_line s; s_original_column := s_original_column s |}].
Proof.
  intros (Hg & Ho & Hsrc) (G1 & G2 & G3 & G4) (S1 & S2 & S3 & S4) Hsc Htail [list Hlist] Hr.
  unfold parse_generated. rewrite Hr, Hg. unfold fields. cbn [mbind list_bind]. rewrite app_nil_r, <- !app_assoc.
  cbn [columns lines].
  set (v1 := vlq_slice (encode (saturating_sub (s_generated_column s) _))).
  set (v2 := vlq_slice (encode (saturating_sub (s_source_index s) _))).
  set (v3 := vlq_slice (encode (saturating_sub (s_original_line s) _))).
  set (v4 := vlq_slice (encode (saturating_sub (s_original_column s) _))).
  destruct (decode_slice _ _ (v2 ++ v3 ++ v4 ++ tail) G1 S1) as (D1 & N1 & L1). fold v1 in D1, L1.
  destruct (decode_slice _ _ (v3 ++ v4 ++ tail) G2 S2) as (D2 & N2 & L2). fold v2 in D2, L2.
  destruct (decode_slice _ _ (v4 ++ tail) G3 S3) as (D3 & N3 & L3). fold v3 in D3, L3.
  destruct (decode_slice _ _ tail G4 S4) as (D4 & N4 & L4). fold v4 in D4, L4.
  rewrite D1. cbn [mbind option_bind]. rewrite decide_False by exact N1. cbn [vlq_value]. rewrite add_delta by done.
  destruct (Z.ltb_spec (s_generated_column s) 0); [lia|]. cbn [vlq_start] in L1 |- *. rewrite L1. cbn [mbind option_bind].
  destruct (encode_front (saturating_sub (s_source_index s) (s_source_index G)) (v3 ++ v4 ++ tail) (saturating_sub_range _ _))
    as (x & r & Ex & Hx). fold v2 in Ex. rewrite Ex. destruct Hx as (_ & X1 & X2 & _).
  destruct (Z.eqb_spec x #","); [done|]. destruct (Z.eqb_spec x #";"); [done|]. rewrite <- Ex. clear Ex X1 X2 n n0 x r.
  unfold parse_original. cbn [p_remain p_source_index p_original p_generated p_name_index p_needs_sort p_has_names p_mapping].
  rewrite D2. cbn [mbind option_bind]. rewrite decide_False by exact N2. cbn [vlq_value]. rewrite Hsrc, Ho.
  change (i32_wrap (s_source_index G + ?d)) with (add_scalar (s_source_index G) d). rewrite add_delta by done.
  destruct (Z.ltb_spec (s_source_index s) 0); [lia|]. destruct (Z.leb_spec sources_count (s_source_index s)); [lia|].
  cbn [orb vlq_start] in L2 |- *. rewrite L2. cbn [mbind option_bind]. rewrite D3. cbn [mbind option_bind].
  rewrite decide_False by exact N3. cbn [vlq_value lines columns]. rewrite add_delta by done.
  destruct (Z.ltb_spec (s_original_line s) 0); [lia|]. cbn [vlq_start] in L3 |- *. rewrite L3. cbn [mbind option_bind].
  rewrite D4. cbn [mbind option_bind]. rewrite decide_False by exact N4. cbn [vlq_value]. rewrite add_delta by done.
  destruct (Z.ltb_spec (s_original_column s) 0); [lia|]. cbn [vlq_start] in L4 |- *. rewrite L4. cbn [mbind option_bind].
  unfold parse_name, list_append. cbn [p_remain p_source_index p_original p_generated p_name_index p_needs_sort p_has_names p_mapping].
  rewrite Hlist. unfold rows. rewrite Hlist. unfold nameless.
  destruct tail as [|c tl]; cbn [tail_ok strip_comma] in *; [|destruct Htail as [->| ->]].
  all: eexists; (split; [reflexivity|]); cbn; rewrite fmap_app; repeat split; eauto.
Qed.
#[local] Opaque fields.

Lemma render_tail s evs : tail_ok (render true s evs) /\ strip_comma (render true s evs) = render false s evs.
Proof. destruct evs as [|[|s'] evs]; cbn; auto. Qed.

Lemma parse_step_lines st G k s tail :
  at_state st G -> in_range G -> in_range s -> s_source_index s < sources_count -> tail_ok tail -> nameless (p_mapping st) ->
  0 <= s_generated_line G -> s_generated_line s = s_generated_line G + Z.of_nat k -> s_generated_line s < 2 ^ 31 ->
  p_remain st = replicate k #";" ++ fields (state_after G (replicate k ELine)) s ++ tail ->
  exists st', parse_step input sources_count options st = Some (Continue st') /\
    at_state st' s /\ p_remain st' = strip_comma tail /\ nameless (p_mapping st') /\
    rows (p_mapping st') = rows (p_mapping st) ++ [event_row s].
Proof.
  intros Hat HG Hs Hsc Htail Hn HG0 Hl Hlt Hr. pose proof Hat as (Hg & Ho & Hsrc).
  set (G' := state_after G (replicate k ELine)) in *.
  destruct (fields_head G' s tail) as (x & r & Ex & Hx).
  assert (exists st1, parse_step input sources_count options st = parse_generated input sources_count options st1 /\
    at_state st1 G' /\ p_remain st1 = fields G' s ++ tail /\ p_mapping st1 = p_mapping st) as (st1 & -> & Hat1 & Hr1 & Hm1).
  { unfold parse_step. rewrite Hr, Ex. destruct k as [|k].
    - cbn [replicate app]. destruct (Z.eqb_spec x #";") as [E|]; [by destruct Hx as (_ & ? & _)|].
      exists st. rewrite Hr, <- Ex. done.
    - change (replicate (S k) #";" ++ x :: r) with (#";" :: (replicate k #";" ++ x :: r)) at 1. cbv iota.
      change (#";" =? #";") with true. cbv iota.
      pose proof (skip_lines_exact (S k) (s_generated_line G) (x :: r) ltac:(lia) ltac:(lia)) as Hskip.
      rewrite Hg. cbn [lines]. destruct (skip_runs _ _) as [ln1 r1]. rewrite Hskip by (cbn; intros [= E]; by destruct Hx as (_ & ? & _)).
      rewrite <- Ex. eexists. split; [by rewrite Ex|]. split; [|by split; cbn].
      unfold at_state, G'. rewrite after_lines. cbn [p_generated p_original p_source_index]. rewrite Ho, Hsrc. done. }
  assert (in_range G') as HG' by (apply state_in_range; [done|]; apply Forall_replicate; done).
  destruct (parse_fields st1 G' s tail Hat1 HG' Hs Hsc Htail ltac:(by rewrite Hm1) Hr1)
    as (st' & E & Eg & Eo & Es & Er & En & Erows).
  exists st'. split; [exact E|]. rewrite Hm1 in Erows.
  assert (s_generated_line G' = s_generated_line s) as El by (unfold G'; rewrite after_lines; cbn; lia).
  rewrite El in Eg, Erows. destruct s. done.
Qed.

Lemma parse_render evs : forall st G fuel,
  at_state st G -> in_range G -> Forall event_in_range evs ->
  Forall (fun e => match e with ELine => True | EMap s => s_source_index s < sources_count end) evs ->
  on_lines (s_generated_line G) evs -> 0 <= s_generated_line G -> s_generated_line G + num_lines evs < 2 ^ 31 ->
  nameless (p_mapping st) -> p_remain st = render false G evs -> (length (p_remain st) <= fuel)%nat ->
  exists st', parse_loop input sources_count options fuel st = Some (Ok st') /\
    nameless (p_mapping st') /\ rows (p_mapping st') = rows (p_mapping st) ++ event_rows evs.
Proof.
  induction evs as [evs IH] using (induction_ltof1 _ (@length Event)). unfold ltof in IH.
  intros st G fuel Hat HG Hr Hsc Hl HG0 Hn Hm Hrem Hf.
  destruct (first_map evs) as [[k ->]|(k & s & rest & ->)].
  - rewrite <- (app_nil_r (replicate k ELine)), render_lines in Hrem. cbn [render] in Hrem. rewrite app_nil_r in Hrem.
    replace (event_rows (replicate k ELine)) with (@nil Mapping) by (clear; induction k; done). rewrite app_nil_r.
    destruct k as [|k]; [destruct fuel; cbn [parse_loop]; rewrite Hrem; eauto|].
    destruct fuel as [|fuel]; [rewrite Hrem in Hf; cbn in Hf; lia|]. rewrite num_lines_replicate in Hn.
    cbn [parse_loop]. pose proof (skip_lines_exact (S k) (s_generated_line G) [] ltac:(lia) ltac:(lia) ltac:(done)) as Hskip.
    rewrite app_nil_r in Hskip. destruct Hat as (Hg & _). unfold parse_step. rewrite Hrem, Hg. cbn [lines].
    change (replicate (S k) #";") with (#";" :: replicate k #";") at 1. cbv iota.
    change (replicate (S k) #";") with (#";" :: replicate k #";") at 1. cbv iota. change (#";" =? #";") with true. cbv iota.
    destruct (skip_runs _ _) as [ln1 r1]. rewrite Hskip. cbn [mbind option_bind]. eexists. split; [done|]. by cbn.
  - rewrite num_lines_app, num_lines_replicate in Hn. cbn [num_lines] in Hn. pose proof (num_lines_nonneg rest).
    apply on_lines_app in Hl as [_ Hl]. rewrite num_lines_replicate in Hl. destruct Hl as [Hsl Hl].
    apply Forall_app in Hr as [_ [Hs Hr]%Forall_cons]. apply Forall_app in Hsc as [_ [Hss Hsc]%Forall_cons].
    rewrite render_lines in Hrem. cbn [render] in Hrem.
    replace (if decide (k = 0%nat) then false else false) with false in Hrem by (by case_decide). cbn [app] in Hrem.
    destruct (render_tail s rest) as [Ht Hst].
    destruct (parse_step_lines st G k s (render true s rest)) as (st1 & E1 & Hat1 & Hr1 & Hn1 & Hrows1); try done; [lia|].
    assert (p_remain st <> []) as Hne.
    { rewrite Hrem. destruct (fields_head (state_after G (replicate k ELine)) s (render true s rest)) as (x & r & -> & _).
      by destruct k. }
    destruct fuel as [|fuel]; [destruct (p_remain st); [done|cbn in Hf; lia]|]. cbn [parse_loop].
    destruct (p_remain st) as [|x0 r0] eqn:Hrem0; [done|]. rewrite E1. cbn [mbind option_bind].
    destruct (IH rest) with (st := st1) (G := s) (fuel := fuel) as (st' & E' & Hm' & Hrows'); try done.
    + rewrite length_app. cbn. lia.
    + by rewrite Hsl.
    + lia.
    + lia.
    + by rewrite Hr1, Hst.
    + rewrite Hr1. assert (length (strip_comma (render true s rest)) <= length (render true s rest))%nat.
      { destruct (render true s rest); cbn; [lia|]. case_match; cbn; lia. }
      assert (length (x0 :: r0) = k + length (fields (state_after G (replicate k ELine)) s) + length (render true s rest))%nat as El
        by (rewrite Hrem, !length_app, length_replicate; lia).
      destruct (fields_ok (state_after G (replicate k ELine)) s) as (f & l & Ef & _). rewrite Ef, length_app in El. cbn in El, Hf. lia.
    + exists st'. split; [exact E'|]. split; [done|]. rewrite Hrows', Hrows1, <- app_assoc. f_equal.
      unfold event_rows. rewrite omap_app. cbn.
      replace (omap _ (replicate k ELine)) with (@nil Mapping) by (clear; induction k; done). done.
Qed.
End ParseRender.

(** * The events of a bundle *)

Lemma bundle_on_lines ps : forall line col,
  Forall (fun p => lined state_default (p_events p)) ps -> bundle_ok line col ps ->
  on_lines line (bundle_events line col ps).
Proof.
  induction ps as [|p ps IH]; intros line col Hl Hok; [done|]. inv Hl. destruct Hok as [Hp Hok].
  pose proof Hp as (_ & _ & _ & Hlines & _). cbn [bundle_events]. unfold piece_events.
  assert (line + Z.of_nat (Z.to_nat (lines (p_offset p))) = start_line line p) as E by (unfold start_line; lia).
  apply on_lines_app. split; [apply on_lines_app; split; [apply on_lines_replicate|]|].
  - rewrite num_lines_replicate, E, <- (Z.add_0_r (start_line line p)) at 1.
    apply on_lines_move. by apply (lined_on_lines state_default).
  - rewrite num_lines_app, num_lines_replicate, num_lines_move, Z.add_assoc, E. by apply IH.
Qed.

Lemma bundle_in_range ps : forall line col, bundle_ok line col ps -> Forall event_in_range (bundle_events line col ps).
Proof.
  induction ps as [|p ps IH]; intros line col Hok; [constructor|]. destruct Hok as [(_ & _ & _ & _ & _ & _ & _ & H) Hok].
  apply Forall_app. split; [done|]. by apply IH.
Qed.

Lemma lined_source prev evs : lined prev evs ->
  Forall (fun e => match e with ELine => True | EMap s => s_source_index s = s_source_index prev end) evs.
Proof.
  revert prev; induction evs as [|[|s] evs IH]; intros prev H; [constructor| |].
  - constructor; [done|]. apply (IH (end_line prev) H).
  - destruct H as (_ & Hs & H). constructor; [done|]. rewrite <- Hs. by apply IH.
Qed.

Lemma bundle_sources sources_count ps : forall line col,
  Forall (fun p => lined state_default (p_events p)) ps -> Forall (fun p => p_source p < sources_count) ps ->
  Forall (fun e => match e with ELine => True | EMap s => s_source_index s < sources_count end) (bundle_events line col ps).
Proof.
  induction ps as [|p ps IH]; intros line col Hl Hs; [constructor|]. inv Hl. inv Hs.
  apply Forall_app. split; [|by apply IH]. apply Forall_app. split; [by apply Forall_replicate|].
  apply Forall_fmap. eapply Forall_impl; [apply (lined_source state_default); eassumption|].
  intros [|s]; cbn; [done|]. intros ->. lia.
Qed.

Lemma fits_lined source_id_map results ps :
  Forall2 (fits source_id_map) results ps -> Forall (fun p => lined state_default (p_events p)) ps.
Proof. induction 1 as [|r p results ps ((_ & _ & _ & Hb) & _) _ IH]; by constructor. Qed.

(** Parsing a rendered text, sorted or not as the options ask. *)
Lemma parse_rendered text sources_count options n evs :
  text = render false state_default evs -> Z.of_nat (length text) < 2 ^ 31 ->
  Forall event_in_range evs ->
  Forall (fun e => match e with ELine => True | EMap s => s_source_index s < sources_count end) evs ->
  on_lines 0 evs -> num_lines evs < 2 ^ 31 ->
  exists map, parse text sources_count options n = Some (Success map) /\ input_line_count map = n /\
    if opt_sort options then stable_sort generated (event_rows evs) (rows (mappings map))
    else rows (mappings map) = event_rows evs.
Proof.
  intros Et Hlen Hr Hs Hl Hn. unfold parse.
  destruct (parse_render text sources_count options evs (parse_init text) state_default (length text))
    as (st & E & _ & Hrows); try done; [by exists []|].
  destruct (mappings_loop_ok text sources_count options Hlen (length text) (parse_init text) (parse_init_ok text sources_count) ltac:(done))
    as (r & E' & Hok).
  rewrite E in *. injection E' as <-. cbn [mbind option_bind]. change (rows (p_mapping (parse_init text))) with (@nil Mapping) in Hrows.
  cbn [app] in Hrows. rewrite <- Hrows. destruct (p_needs_sort st) eqn:Ens, (opt_sort options); cbn [andb mbind option_bind].
  - destruct (list_sort_ok (p_mapping st)) as (l' & -> & H & _). eexists. split; [reflexivity|]. split; [done|]. exact H.
  - eexists. split; [reflexivity|]. done.
  - eexists. split; [reflexivity|]. split; [done|]. cbn. split; [done|]. split; [|done].
    by apply (ok_sorted _ _ _ Hok).
  - eexists. split; [reflexivity|]. done.
Qed.

(** * The files of a bundle *)

(** A file: what it is printed from and how, where its text goes after the
    text before it, and its index in the graph and in the map. *)
Record File := {
  f_source : list Z; f_cover : bool; f_lazy : bool; f_calls : list Call; f_tail : list Z;
  f_offset : LineColumnOffset; f_index : Z; f_map_index : Z
}.

Definition file_ok (source_id_map : gmap Z Z) (f : File) : Prop :=
  Forall code_point (f_source f) /\ Z.of_nat (len (f_source f)) < 2 ^ 31 - 1 /\
  Forall printed (call_text (f_calls f)) /\ Forall printed (f_tail f) /\
  Z.of_nat (len (call_text (f_calls f) ++ f_tail f)) < 2 ^ 31 - 1 /\
  source_id_map !! f_index f = Some (f_map_index f).

Definition file_piece (f : File) : Piece :=
  let o := out_file (f_cover f) (f_source f) (f_calls f) (f_tail f) in
  {| p_events := o.2; p_offset := f_offset f; p_source := f_map_index f; p_final := ps_column o.1 |}.

Definition compile {F : NewlineSearch} (f : File) : option CompileResult :=
  chunk ← print_file (f_source f) (f_cover f) (f_lazy f) (f_calls f) (f_tail f);
  Some {| source_map_chunk := chunk; generated_offset := f_offset f; cr_source_index := f_index f |}.

Lemma compile_all {F : NewlineSearch} {HF : NewlineSearchOk F} source_id_map files :
  Forall (file_ok source_id_map) files ->
  exists results, mapM compile files = Some results /\ Forall2 (fits source_id_map) results (file_piece <$> files).
Proof.
  intros Hf. assert (exists results, Forall2 (fun f r => compile f = Some r /\ fits source_id_map r (file_piece f)) files results)
    as (results & Hr).
  { induction Hf as [|f files (H1 & H2 & H3 & H4 & H5 & H6) _ (results & Hr)]; [by exists []|].
    destruct (print_file_ok (f_source f) H1 H2 (f_cover f) (f_lazy f) (f_calls f) (f_tail f) H3 H4 H5) as (chunk & Ec & Hc).
    eexists (_ :: results). constructor; [|exact Hr]. split; [unfold compile; by rewrite Ec|done]. }
  exists results. split; [apply mapM_Some_2; eapply Forall2_impl; [exact Hr|by intros ? ? []]|].
  apply Forall2_fmap_r, Forall2_flip. eapply Forall2_impl; [exact Hr|]. by intros ? ? [].
Qed.

(** * Properties *)

Module SourceMapProps.


(** C23: [parse] returns on every text of less than two gigabytes: it fails at a
    location in the text, or gives rows whose coordinates are not negative and
    whose sources exist.  When the options ask for it the rows are sorted, and
    then [find] gives the last mapping of a line that is at or before a column,
    or nothing when there is none. *)
Theorem parse_then_find input sources_count options n :
  Z.of_nat (length input) < 2 ^ 31 ->
  exists r, parse input sources_count options n = Some r /\
    match r with
    | Fail f => 0 <= loc_start f <= Z.of_nat (length input)
    | Success map =>
      input_line_count map = n /\ Forall (row_ok sources_count) (rows (mappings map)) /\
      (opt_sort options = true ->
        sorted (positions (mappings map)) /\
        forall line column, list_find (mappings map) line column =
          Some (last (filter (on_line_before line column) (rows (mappings map)))))
    end.
Proof.
  intros Hlen. destruct (parse_total_ok input sources_count options Hlen n) as (r & Hr & H). exists r. split; [done|].
  destruct r as [f|map]; [done|]. destruct H as (Hn & Hrows & _ & _ & Hs). split; [done|]. split; [done|].
  intros Ho. split; [by apply Hs|]. intros line column. by apply list_find_ok, Hs.
Qed.

(** * Witnesses *)

(** Two files: the first has mappings on two lines, the second, whose source is
    not ASCII, follows it on the last of them. *)
Definition demo_files : list File := [
  {| f_source := b!"one" ++ [10] ++ b!"two"; f_cover := true; f_lazy := false;
     f_calls := [([], Some 0%nat); (b!"x=1;" ++ [10], Some 4%nat)]; f_tail := b!"y;"; f_offset := lco_default;
     f_index := 5; f_map_index := 0 |};
  {| f_source := [0xE9] ++ b!"=z"; f_cover := true; f_lazy := true;
     f_calls := [([], Some 0%nat); ([0x1F600], Some 1%nat)]; f_tail := b!";"; f_offset := {| lines := 0; columns := 2 |};
     f_index := 8; f_map_index := 1 |}].

Definition demo_joiner : StringJoiner := push {| nodes := []; j_len := 0 |} [34].

Definition demo_state line col oline ocol : SourceMapState := {|
  s_generated_line := line; s_generated_column := col; s_source_index := 0;
  s_original_line := oline; s_original_column := ocol |}.

Lemma demo_pieces : file_piece <$> demo_files = [
  {| p_events := [EMap (demo_state 0 0 0 0); ELine; EMap (demo_state 1 0 1 0)]; p_offset := lco_default;
     p_source := 0; p_final := 2 |};
  {| p_events := [EMap (demo_state 0 0 0 0); EMap (demo_state 0 2 0 1)]; p_offset := {| lines := 0; columns := 2 |};
     p_source := 1; p_final := 3 |}].
Proof. vm_compute. reflexivity. Qed.

Definition demo_row line col src oline ocol : Mapping := {|
  generated := {| lines := line; columns := col |}; original := {| lines := oline; columns := ocol |};
  source_index := src; name_index := -1 |}.


Theorem parse_then_find_witness :
  exists map, parse b!"KAAA,FAAC;EAAA" 1 {| allow_names := false; opt_sort := true |} 3 = Some (Success map) /\
    list_find (mappings map) 0 4 = Some (last (filter (on_line_before 0 4) (rows (mappings map)))).
Proof.
  destruct (parse_then_find b!"KAAA,FAAC;EAAA" 1 {| allow_names := false; opt_sort := true |} 3) as (r & Hr & H); [vm_compute; reflexivity|].
  destruct r as [f|map]; [vm_compute in Hr; discriminate Hr|]. exists map. split; [exact Hr|].
  destruct H as (_ & _ & H). by apply H.
Defined.

End SourceMapProps.
