(* ===== verification/Glob.v ===== *)
(** src/src/glob/matcher.rs: whether a path matches a glob pattern.

    Indices are u32 in the code; they are [nat] here, for patterns and paths
    of less than 2^32 bytes.  [None] is a panic or no fuel left: a loop runs at
    most [2 ^ LOOP_FUEL] rounds, which GlobTotal shows to be enough. *)
From S2P Require Import Prelude Wtf8.

Record Brace := { open_brace_idx : nat; branch_idx : nat }.

Definition BRACE_STACK_CAPACITY : nat := 10.
Definition BRACE_BRANCH_BUDGET : Z := 10000.

Inductive MatchResult := NoMatch | Match | NegateNoMatch | NegateMatch.

#[global] Instance MatchResult_eq_dec : EqDecision MatchResult.
Proof. solve_decision. Defined.

Definition matches (self : MatchResult) : bool :=
  bool_decide (self = Match) || bool_decide (self = NegateMatch).

Record Wildcard := { w_glob_index : nat; w_path_index : nat; w_brace_depth : Z }.

Definition wildcard_default : Wildcard := {| w_glob_index := 0; w_path_index := 0; w_brace_depth := 0 |}.

Record State := {
  path_index : nat; glob_index : nat; wildcard : Wildcard; globstar : Wildcard; brace_depth : Z
}.

Definition state_default : State :=
  {| path_index := 0; glob_index := 0; wildcard := wildcard_default; globstar := wildcard_default; brace_depth := 0 |}.

(** Assignments to [path_index], [glob_index] and [brace_depth], and to the
    two wildcards. *)
Definition at_index (st : State) (p g : nat) (depth : Z) : State :=
  {| path_index := p; glob_index := g; wildcard := wildcard st; globstar := globstar st; brace_depth := depth |}.
Definition with_wildcards (st : State) (w gs : Wildcard) : State :=
  {| path_index := path_index st; glob_index := glob_index st; wildcard := w; globstar := gs; brace_depth := brace_depth st |}.

Definition backtrack (st : State) : State :=
  at_index st (w_path_index (wildcard st)) (w_glob_index (wildcard st)) (w_brace_depth (wildcard st)).

(** u8 arithmetic of a release build. *)
Definition u8_wrap (z : Z) : Z := z mod 256.

(** [n] halvings of the fuel: up to [2 ^ n] rounds of a loop. *)
Fixpoint run {A B} (n : nat) (step : A -> option (A + B)) (a : A) : option (A + B) :=
  match n with
  | O => step a
  | S n =>
    r ← run n step a;
    match r with inl a => run n step a | inr b => Some (inr b) end
  end.

Definition LOOP_FUEL : nat := 240.

Section Glob.
(** Whether the program was compiled for Windows. *)
Context (windows : bool).

Definition is_sep_native (c : Z) : bool := (c =? #"/") || (windows && (c =? #"\")).

Definition is_separator (c : Z) : bool := is_sep_native c.

Definition skip_to_separator (st : State) (path : bytes) (is_end_invalid : bool) : State :=
  let w := wildcard st in
  if decide (path_index st = length path)
  then with_wildcards st {| w_glob_index := w_glob_index w; w_path_index := w_path_index w + 1;
                            w_brace_depth := w_brace_depth w |} (globstar st)
  else
    let path_index := skip_while (fun c => negb (is_separator c)) path (path_index st) in
    let path_index :=
      if is_end_invalid || negb (bool_decide (path_index = length path)) then (path_index + 1)%nat else path_index in
    let w := {| w_glob_index := w_glob_index w; w_path_index := path_index; w_brace_depth := w_brace_depth w |} in
    with_wildcards st w w.

(** The escape of [unescape] and [get_unicode]. *)
Definition escaped (c : Z) : option Z :=
  if c =? #"a" then Some 0x61 else if c =? #"b" then Some 0x08 else if c =? #"n" then Some 10
  else if c =? #"r" then Some 13 else if c =? #"t" then Some 9 else None.

(** [Some None] is an invalid pattern. *)
Definition unescape (c : Z) (glob : bytes) (glob_index : nat) : option (option (Z * nat)) :=
  if c =? #"\" then
    let glob_index := S glob_index in
    if decide (length glob <= glob_index)%nat then Some None
    else cc ← glob !! glob_index; Some (Some (default cc (escaped cc), glob_index))
  else Some (Some (c, glob_index)).

Definition decode_wtf8_rune_at (text : bytes) (idx : nat) : option (Z * nat) :=
  b ← text !! idx;
  let len := wtf8_byte_sequence_length b in
  Some (decode_wtf8_rune_t (cp_bytes (drop idx text) 4) len 0xFFFD, len).

(** The character, its length and where it starts. *)
Definition get_unicode (c : Z) (glob : bytes) (glob_index : nat) : option (option (Z * nat * nat)) :=
  if (c <=? 0x7F) && negb (c =? #"\") then Some (Some (c, 1%nat, glob_index))
  else if c =? #"\" then
    let glob_index := S glob_index in
    if decide (length glob <= glob_index)%nat then Some None
    else
      cc ← glob !! glob_index;
      match escaped cc with
      | Some e => Some (Some (e, 1%nat, glob_index))
      | None => '(cp, len) ← decode_wtf8_rune_at glob glob_index; Some (Some (cp, len, glob_index))
      end
  else '(cp, len) ← decode_wtf8_rune_at glob glob_index; Some (Some (cp, len, glob_index)).

(** [glob[i..i + s.len()] == s], the length being checked before. *)
Definition text_at (glob : bytes) (i : nat) (s : bytes) : bool :=
  bool_decide (take (length s) (drop i glob) = s).

Fixpoint skip_globstars_loop (fuel : nat) (glob : bytes) (glob_index : nat) : nat :=
  match fuel with
  | O => glob_index
  | S fuel =>
    if decide (glob_index + 4 <= length glob)%nat then
      if text_at glob glob_index b!"/**/" then skip_globstars_loop fuel glob (glob_index + 3) else glob_index
    else glob_index
  end.

Definition skip_globstars (glob : bytes) (glob_index : nat) : nat :=
  let glob_index := skip_globstars_loop (length glob) glob (glob_index + 2) in
  let glob_index :=
    if decide (glob_index + 3 = length glob)%nat then
      if text_at glob glob_index b!"/**" then (glob_index + 3)%nat else glob_index
    else glob_index in
  (glob_index - 2)%nat.

Fixpoint skip_branch_loop (fuel : nat) (glob : bytes) (end_brace_depth : Z) (in_brackets : bool) (depth : Z) (i : nat) :
    option (Z * nat) :=
  if decide (i < length glob)%nat then
    match fuel with
    | O => None
    | S fuel =>
      c ← glob !! i;
      if (c =? #"}") && negb in_brackets then
        let depth := u8_wrap (depth - 1) in
        if depth =? end_brace_depth then Some (depth, S i)
        else skip_branch_loop fuel glob end_brace_depth in_brackets depth (S i)
      else
        let depth := if (c =? #"{") && negb in_brackets then u8_wrap (depth + 1) else depth in
        let in_brackets := if c =? #"[" then true else if c =? #"]" then false else in_brackets in
        let i := if c =? #"\" then S i else i in
        skip_branch_loop fuel glob end_brace_depth in_brackets depth (S i)
    end
  else Some (depth, i).

Definition skip_branch (st : State) (glob : bytes) : option State :=
  '(depth, i) ← skip_branch_loop (length glob) glob (brace_depth st - 1) false (brace_depth st) (glob_index st);
  Some (at_index st (path_index st) i depth).

(** How an arm of the match on the pattern's character ends. *)
Inductive Arm :=
| Continue (st : State)
| Fallthrough (st : State)
| ToElse
| Return (b : bool)
| MatchBrace.

Definition star_arm (glob path : bytes) (glob_start : nat) (st : State) : option Arm :=
  let p := path_index st in
  let is_globstar := bool_decide (glob !! S (glob_index st) = Some #"*") in
  let g := if is_globstar then skip_globstars glob (glob_index st) else glob_index st in
  len ← (if decide (p < length path)%nat then wtf8_byte_sequence_length <$> path !! p else Some 1%nat);
  let st := with_wildcards (at_index st p g (brace_depth st))
    {| w_glob_index := g; w_path_index := (p + len)%nat; w_brace_depth := brace_depth st |} (globstar st) in
  let at_separator := bool_decide (p < length path)%nat && match path !! p with Some c => is_separator c | None => false end in
  let plain g :=
    let st := at_index st p g (brace_depth st) in
    Some (Continue (if at_separator then with_wildcards st (globstar st) (globstar st) else st)) in
  if is_globstar then
    let g := (g + 2)%nat in
    let is_end_invalid := bool_decide (g < length glob)%nat in
    if is_end_invalid && bool_decide (p = length path) && bool_decide (length glob - g = 2)%nat &&
       match glob !! g with Some c => is_separator c | None => false end && bool_decide (glob !! S g = Some #"*")
    then Some (Continue (at_index st p g (brace_depth st)))
    else
      before ← (if decide (g - glob_start < 3)%nat then Some true else c ← glob !! (g - 3)%nat; Some (c =? #"/"));
      if before && (negb is_end_invalid || bool_decide (glob !! g = Some #"/")) then
        let g := if is_end_invalid then S g else g in
        Some (Continue (skip_to_separator (at_index st p g (brace_depth st)) path is_end_invalid))
      else plain g
  else plain (g + 1)%nat.

Definition question_arm (path : bytes) (st : State) : option Arm :=
  if decide (path_index st < length path)%nat then
    c ← path !! path_index st;
    Some (if negb (is_separator c)
          then Continue (at_index st (path_index st + wtf8_byte_sequence_length c) (S (glob_index st)) (brace_depth st))
          else Fallthrough st)
  else Some ToElse.

(** The members of a class: [Some None] is an invalid pattern. *)
Fixpoint class_loop (fuel : nat) (glob : bytes) (c : Z) (g : nat) (first is_match : bool) : option (option (nat * bool)) :=
  if decide (g < length glob)%nat then
    ch ← glob !! g;
    if first || negb (ch =? #"]") then
      match fuel with
      | O => None
      | S fuel =>
        low ← get_unicode ch glob g;
        match low with
        | None => Some None
        | Some (low, low_len, g) =>
          let g := (g + low_len)%nat in
          high ←
            (if bool_decide (S g < length glob)%nat && bool_decide (glob !! g = Some #"-") &&
                negb (bool_decide (glob !! S g = Some #"]"))
             then
               ch ← glob !! S g;
               high ← get_unicode ch glob (S g);
               Some match high with None => None | Some (high, high_len, g) => Some (high, (g + high_len)%nat) end
             else Some (Some (low, g)));
          match high with
          | None => Some None
          | Some (high, g) => class_loop fuel glob c g false (is_match || ((low <=? c) && (c <=? high)))
          end
        end
      end
    else Some (Some (g, is_match))
  else Some (Some (g, is_match)).

Definition class_arm (glob path : bytes) (st : State) : option Arm :=
  if decide (path_index st < length path)%nat then
    let g := S (glob_index st) in
    let negated := bool_decide (glob !! g = Some #"^") || bool_decide (glob !! g = Some #"!") in
    let g := if negated then S g else g in
    '(c, len) ← decode_wtf8_rune_at path (path_index st);
    r ← class_loop (length glob) glob c g true false;
    match r with
    | None => Some (Return false)
    | Some (g, is_match) =>
      if decide (length glob <= g)%nat then Some (Return false)
      else
        let g := S g in
        Some (if xorb is_match negated then Continue (at_index st (path_index st + len) g (brace_depth st))
              else Fallthrough (at_index st (path_index st) g (brace_depth st)))
    end
  else Some ToElse.

Definition open_arm (brace_stack : list Brace) (st : State) : Arm :=
  match find (fun brace => open_brace_idx brace =? glob_index st)%nat brace_stack with
  | Some brace => Continue (at_index st (path_index st) (branch_idx brace) (u8_wrap (brace_depth st + 1)))
  | None => MatchBrace
  end.

Definition close_arm (glob : bytes) (st : State) : option Arm :=
  if 0 <? brace_depth st then st ← skip_branch st glob; Some (Continue st) else Some ToElse.

(** The code at the end of ['to_else]. *)
Definition else_arm (glob path : bytes) (ch : Z) (st : State) : option Arm :=
  if decide (path_index st < length path)%nat then
    u ← unescape ch glob (glob_index st);
    match u with
    | None => Some (Return false)
    | Some (cc, g) =>
      let p := path_index st in
      let st := at_index st p g (brace_depth st) in
      let cc_len := wtf8_byte_sequence_length cc in
      pc ← path !! p;
      let is_match :=
        if cc =? #"/" then is_separator pc
        else if decide (1 < cc_len)%nat
        then bool_decide (p + cc_len <= length path)%nat && bool_decide (g + cc_len <= length glob)%nat &&
             bool_decide (take cc_len (drop p path) = take cc_len (drop g glob))
        else pc =? cc in
      if is_match then
        let st := at_index st (p + cc_len) (g + cc_len) (brace_depth st) in
        Some (Continue (if cc =? #"/" then with_wildcards st (globstar st) (globstar st) else st))
      else Some (Fallthrough st)
    end
  else Some (Fallthrough st).

Definition arm (glob path : bytes) (glob_start : nat) (brace_stack : list Brace) (st : State) : option Arm :=
  if decide (glob_index st < length glob)%nat then
    ch ← glob !! glob_index st;
    a ← (if ch =? #"*" then star_arm glob path glob_start st
         else if ch =? #"?" then question_arm path st
         else if ch =? #"[" then class_arm glob path st
         else if ch =? #"{" then Some (open_arm brace_stack st)
         else if (ch =? #",") || (ch =? #"}") then close_arm glob st
         else Some ToElse);
    match a with
    | ToElse => else_arm glob path ch st
    | _ => Some a
    end
  else Some (Fallthrough st).

(** A round of the main loop, [match_brace] being the rest of the program. *)
Definition step (glob path : bytes) (glob_start : nat) (brace_stack : list Brace) (brace_budget : Z)
    (match_brace : State -> option (bool * Z)) (st : State) : option (State + bool * Z) :=
  if bool_decide (glob_index st < length glob)%nat || bool_decide (path_index st < length path)%nat then
    a ← arm glob path glob_start brace_stack st;
    match a with
    | Continue st => Some (inl st)
    | Return b => Some (inr (b, brace_budget))
    | MatchBrace => r ← match_brace st; Some (inr r)
    | Fallthrough st =>
      if decide (0 < w_path_index (wildcard st) <= length path)%nat then Some (inl (backtrack st))
      else Some (inr (false, brace_budget))
    | ToElse => None
    end
  else Some (inr (true, brace_budget)).

(** The loop of [match_brace] from the index [i]: the depth is an i16. *)
Fixpoint match_brace_loop (fuel : nat) (glob : bytes) (branch : nat -> Z -> option (bool * Z))
    (i : nat) (depth : Z) (in_brackets : bool) (branch_index : nat) (budget : Z) : option (bool * Z) :=
  if decide (i < length glob)%nat then
    match fuel with
    | O => None
    | S fuel =>
      c ← glob !! i;
      let i16_wrap z := (z + 2 ^ 15) mod 2 ^ 16 - 2 ^ 15 in
      if (c =? #"{") && negb in_brackets then
        let depth := i16_wrap (depth + 1) in
        match_brace_loop fuel glob branch (S i) depth in_brackets (if depth =? 1 then S i else branch_index) budget
      else if (c =? #"}") && negb in_brackets then
        let depth := i16_wrap (depth - 1) in
        if depth =? 0 then branch branch_index budget
        else match_brace_loop fuel glob branch (S i) depth in_brackets branch_index budget
      else if (c =? #",") && (depth =? 1) && negb in_brackets then
        '(m, budget) ← branch branch_index budget;
        if m : bool then Some (true, budget)
        else match_brace_loop fuel glob branch (S i) depth in_brackets (S i) budget
      else
        let in_brackets := if c =? #"[" then true else if c =? #"]" then false else in_brackets in
        let i := if c =? #"\" then S i else i in
        match_brace_loop fuel glob branch (S i) depth in_brackets branch_index budget
    end
  else Some (false, budget).

(** [match_brace_branch], [go] being [glob_match_impl]. *)
Definition match_brace_branch (go : list Brace -> Z -> nat -> State -> option (bool * Z)) (st : State)
    (open_brace_index : nat) (brace_stack : list Brace) (branch_index : nat) (brace_budget : Z) : option (bool * Z) :=
  if brace_budget =? 0 then Some (false, 0)
  else
    let brace_budget := brace_budget - 1 in
    if decide (BRACE_STACK_CAPACITY <= length brace_stack)%nat then Some (false, brace_budget)
    else
      let brace_stack := brace_stack ++ [{| open_brace_idx := open_brace_index; branch_idx := branch_index |}] in
      go brace_stack brace_budget branch_index
        (at_index st (path_index st) branch_index (Z.of_nat (length brace_stack))).

Definition match_brace (go : list Brace -> Z -> nat -> State -> option (bool * Z)) (glob : bytes)
    (brace_stack : list Brace) (brace_budget : Z) (st : State) : option (bool * Z) :=
  match_brace_loop (length glob) glob (match_brace_branch go st (glob_index st) brace_stack) (glob_index st) 0 false 0 brace_budget.

(** [depth] calls of [match_brace] may be nested. *)
Fixpoint glob_match_impl (depth : nat) (glob path : bytes) (brace_stack : list Brace) (brace_budget : Z) (glob_start : nat)
    (st : State) : option (bool * Z) :=
  match depth with
  | O => None
  | S depth =>
    r ← run LOOP_FUEL
          (step glob path glob_start brace_stack brace_budget
             (match_brace (glob_match_impl depth glob path) glob brace_stack brace_budget)) st;
    match r with inl _ => None | inr r => Some r end
  end.

(** [r#match]. *)
Definition glob_match (glob path : bytes) : option MatchResult :=
  let bangs := prefix_len (fun c => c =? #"!") glob in
  let negated := Nat.odd bangs in
  '(matched, _) ← glob_match_impl (S BRACE_STACK_CAPACITY) glob path [] BRACE_BRANCH_BUDGET 0
                    (at_index state_default 0 bangs 0);
  Some (if negated then if matched : bool then NegateNoMatch else NegateMatch
        else if matched then Match else NoMatch).

End Glob.
