(* ===== verification/GlobTotal.v ===== *)
(** The glob matcher returns on every pattern and path: its loop, with its two
    points to go back to, has a measure, and braces nest at most as deep as
    their stack. *)
From S2P Require Import Prelude Wtf8 Glob.

#[global] Instance Wildcard_eq_dec : EqDecision Wildcard.
Proof. solve_decision. Defined.

(** * Loops *)

(** A loop whose rounds keep an invariant and decrease a measure ends within
    its fuel. *)
Lemma run_ok {A B} (step : A -> option (A + B)) (Inv : A -> Prop) (Post : B -> Prop) (m : A -> Z) :
  (forall a, Inv a -> 0 <= m a /\ exists r, step a = Some r /\
    match r with inl a' => Inv a' /\ m a' < m a | inr b => Post b end) ->
  forall n a, Inv a -> m a < 2 ^ Z.of_nat n -> exists b, run n step a = Some (inr b) /\ Post b.
Proof.
  intros Hstep.
  assert (forall n a, Inv a -> exists r, run n step a = Some r /\
    match r with inl a' => Inv a' /\ m a' + 2 ^ Z.of_nat n <= m a | inr b => Post b end) as Hrun.
  { induction n as [|n IH]; intros a Ha.
    - destruct (Hstep a Ha) as (_ & r & Hr & H). exists r. split; [done|]. destruct r; [|done]. split; [tauto|].
      change (2 ^ Z.of_nat 0) with 1. lia.
    - destruct (IH a Ha) as (r & Hr & H). cbn [run]. rewrite Hr. cbn [mbind option_bind].
      destruct r as [a'|b]; [|by exists (inr b)]. destruct H as [Ha' Hm].
      destruct (IH a' Ha') as (r' & Hr' & H'). exists r'. split; [done|]. destruct r' as [a''|b]; [|done].
      destruct H' as [Ha'' Hm']. split; [done|]. rewrite Nat2Z.inj_succ, Z.pow_succ_r by lia. lia. }
  intros n a Ha Hm. destruct (Hrun n a Ha) as ([a'|b] & Hr & H); [|by exists b].
  exfalso. destruct H as [Ha' Hle]. destruct (Hstep a' Ha') as [Hge _]. lia.
Qed.

(** A pair ordered by its first component, then its second. *)
Definition mix (hi lo bound : Z) : Z := hi * bound + lo.

Lemma mix_lt hi lo hi' lo' bound :
  0 <= lo < bound -> 0 <= lo' < bound -> hi' < hi \/ hi' = hi /\ lo' < lo -> mix hi' lo' bound < mix hi lo bound.
Proof. unfold mix. intros H H' [Hlt|[-> Hlt]]; nia. Qed.

Lemma mix_range hi lo a bound : 0 <= hi < a -> 0 <= lo < bound -> 0 <= mix hi lo bound < a * bound.
Proof. unfold mix. intros. nia. Qed.

Lemma wtf8_length_range b : (1 <= wtf8_byte_sequence_length b <= 4)%nat.
Proof. unfold wtf8_byte_sequence_length. repeat case_match; lia. Qed.

Lemma mix_nonneg hi lo bound : 0 <= hi -> 0 <= lo -> 0 <= bound -> 0 <= mix hi lo bound.
Proof. unfold mix. nia. Qed.

Section Total.
Context (windows : bool) (glob path : bytes).

Abbreviation G := (length glob).
Abbreviation P := (length path).
Abbreviation sep c := (is_separator windows c).

(** * Scans *)

Definition next_start (p : nat) : nat := S (skip_while (fun c => negb (sep c)) path p).

Lemma skip_while_mono (f : Z -> bool) (l : bytes) i j : (i <= j)%nat -> (skip_while f l i <= skip_while f l j)%nat.
Proof.
  intros Hij. unfold skip_while. destruct (decide (j <= i + prefix_len f (drop i l))%nat) as [Hle|]; [|lia].
  assert (prefix_len f (drop i l) = (j - i) + prefix_len f (drop j l))%nat as ->; [|lia].
  pose proof (prefix_len_Forall f (drop i l)) as Hall. rewrite <- (take_drop (j - i) (drop i l)) at 1.
  rewrite drop_drop. replace (i + (j - i))%nat with j by lia.
  pose proof (prefix_len_le f (drop i l)) as Hl. rewrite length_drop in Hl.
  rewrite prefix_len_app.
  - rewrite length_take, length_drop. f_equal. lia.
  - replace (j - i)%nat with ((j - i) `min` prefix_len f (drop i l))%nat by lia. rewrite <- take_take. by apply Forall_take.
Qed.

Lemma next_start_mono p q : (p <= q)%nat -> (next_start p <= next_start q)%nat.
Proof. intros H. unfold next_start. pose proof (skip_while_mono (fun c => negb (sep c)) path p q H). lia. Qed.

Lemma skip_while_range p : let i := skip_while (fun c => negb (sep c)) path p in (p <= i /\ (i <= P \/ i = p))%nat.
Proof. unfold skip_while. pose proof (prefix_len_le (fun c => negb (sep c)) (drop p path)). rewrite length_drop in *. lia. Qed.

Lemma next_start_gt p : (p < next_start p)%nat.
Proof. unfold next_start, skip_while. lia. Qed.

Lemma next_start_le p : (p < P)%nat -> (next_start p <= P + 1)%nat.
Proof.
  intros Hp. unfold next_start, skip_while. pose proof (prefix_len_le (fun c => negb (sep c)) (drop p path)).
  rewrite length_drop in *. lia.
Qed.

(** What stands where [skip_globstars] stops. *)
Lemma skip_loop_ok fuel : forall j, (G <= j + fuel)%nat -> glob !! (j - 2)%nat = Some #"*" -> glob !! (j - 1)%nat = Some #"*" ->
  (2 <= j)%nat ->
  let j' := skip_globstars_loop fuel glob j in
  (j <= j')%nat /\ glob !! (j' - 2)%nat = Some #"*" /\ glob !! (j' - 1)%nat = Some #"*" /\
  ((j' + 4 <= G)%nat -> text_at glob j' b!"/**/" = false).
Proof.
  induction fuel as [|fuel IH]; intros j Hf H1 H2 Hj; cbn [skip_globstars_loop].
  { split; [lia|]. split; [done|]. split; [done|]. lia. }
  case_decide as Hd.
  - destruct (text_at glob j b!"/**/") eqn:Et.
    + unfold text_at in Et. apply bool_decide_eq_true in Et.
      assert (forall k, (k < 4)%nat -> glob !! (j + k)%nat = b!"/**/" !! k) as Hk.
      { intros k Hk. rewrite <- Et, lookup_take_lt by exact Hk. by rewrite lookup_drop. }
      destruct (IH (j + 3)%nat) as (I1 & I2 & I3 & I4); [lia| | |lia|].
      * replace (j + 3 - 2)%nat with (j + 1)%nat by lia. by rewrite Hk by lia.
      * replace (j + 3 - 1)%nat with (j + 2)%nat by lia. by rewrite Hk by lia.
      * split; [lia|done].
    + split; [lia|]. done.
  - split; [lia|]. split; [done|]. split; [done|]. lia.
Qed.

Lemma skip_loop_stop fuel j : ((j + 4 <= G)%nat -> text_at glob j b!"/**/" = false) -> skip_globstars_loop fuel glob j = j.
Proof. intros H. destruct fuel; [done|]. cbn [skip_globstars_loop]. case_decide; [|done]. by rewrite H. Qed.

Lemma skip_globstars_ok g : glob !! g = Some #"*" -> glob !! S g = Some #"*" ->
  let g' := skip_globstars glob g in
  (g <= g')%nat /\ glob !! g' = Some #"*" /\ glob !! S g' = Some #"*" /\ skip_globstars glob g' = g'.
Proof.
  intros H1 H2 g'. pose proof (lookup_lt_Some _ _ _ H2).
  destruct (skip_loop_ok G (g + 2)) as (I1 & I2 & I3 & I4); [lia| | |lia|].
  1: by replace (g + 2 - 2)%nat with g by lia. 1: by replace (g + 2 - 1)%nat with (S g) by lia.
  unfold g', skip_globstars. set (j := skip_globstars_loop G glob (g + 2)) in *.
  destruct (decide (j + 3 = G)%nat) as [Hj|Hj]; [destruct (text_at glob j b!"/**") eqn:Et|].
  - unfold text_at in Et. apply bool_decide_eq_true in Et.
    assert (forall k, (k < 3)%nat -> glob !! (j + k)%nat = b!"/**" !! k) as Hk.
    { intros k Hk. rewrite <- Et, lookup_take_lt by exact Hk. by rewrite lookup_drop. }
    replace (j + 3 - 2)%nat with (j + 1)%nat by lia. split; [lia|]. split; [by rewrite Hk by lia|].
    replace (S (j + 1)) with (j + 2)%nat by lia. split; [by rewrite Hk by lia|].
    replace (j + 1 + 2)%nat with (j + 3)%nat by lia. rewrite skip_loop_stop by lia. rewrite decide_False by lia. lia.
  - split; [lia|]. split; [done|]. replace (S (j - 2)) with (j - 1)%nat by lia. split; [done|].
    replace (j - 2 + 2)%nat with j by lia. rewrite skip_loop_stop by done. rewrite decide_True by lia. by rewrite Et.
  - split; [lia|]. split; [done|]. replace (S (j - 2)) with (j - 1)%nat by lia. split; [done|].
    replace (j - 2 + 2)%nat with j by lia. rewrite skip_loop_stop by done. by rewrite decide_False by lia.
Qed.

(** * The arms *)

(** The braces on the stack open before their branches. *)
Definition stack_ok (brace_stack : list Brace) : Prop :=
  Forall (fun b => open_brace_idx b < branch_idx b <= G)%nat brace_stack.

(** A round that reads on: the pattern's index grows; a separator may put the
    last globstar in the place of the wildcard. *)
Definition moves (st st' : State) : Prop :=
  (glob_index st < glob_index st' <= S G)%nat /\ (path_index st <= path_index st')%nat /\
  (path_index st' = path_index st \/ path_index st < P /\ path_index st' <= path_index st + 4)%nat /\
  globstar st' = globstar st /\
  (wildcard st' = wildcard st \/ wildcard st' = globstar st /\ (path_index st < P)%nat).

Definition stays (st st' : State) : Prop := wildcard st' = wildcard st /\ globstar st' = globstar st.

Lemma skip_branch_loop_ok e fuel : forall ib d i, (G <= i + fuel)%nat -> exists d' i',
  skip_branch_loop fuel glob e ib d i = Some (d', i') /\ (i <= i')%nat /\ (i < G -> i < i')%nat /\ (i <= S G -> i' <= S G)%nat.
Proof.
  induction fuel as [|fuel IH]; intros ib d i Hf; cbn [skip_branch_loop].
  { rewrite decide_False by lia. exists d, i. split; [done|lia]. }
  case_decide as Hi; [|exists d, i; split; [done|lia]].
  destruct (lookup_lt_is_Some_2 glob i Hi) as [c ->]. cbn [mbind option_bind].
  assert (forall ib d j, (i < j <= S (S i))%nat -> exists d' i', skip_branch_loop fuel glob e ib d j = Some (d', i') /\
    (i <= i')%nat /\ (i < G -> i < i')%nat /\ (i <= S G -> i' <= S G)%nat) as Hgo.
  { intros ib' d0 j Hj. destruct (IH ib' d0 j ltac:(lia)) as (d' & i' & E & H1 & H2 & H3). exists d', i'. split; [done|lia]. }
  destruct (_ && _); [destruct (_ =? e); [eexists _, _; split; [done|lia]|apply Hgo; lia]|].
  apply Hgo. destruct (c =? #"\"); lia.
Qed.

Lemma get_unicode_ok c i : glob !! i = Some c -> exists r, get_unicode c glob i = Some r /\
  match r with Some (_, n, j) => (i <= j /\ 1 <= n)%nat | None => True end.
Proof.
  intros Hi. unfold get_unicode, decode_wtf8_rune_at. destruct (_ && _); [eexists; split; [done|cbn; lia]|].
  pose proof (lookup_lt_Some _ _ _ Hi). destruct (c =? #"\").
  - case_decide as Hd; [by eexists|]. destruct (lookup_lt_is_Some_2 glob (S i) ltac:(lia)) as [d Hd']. rewrite Hd'.
    cbn [mbind option_bind]. pose proof (wtf8_length_range d). destruct (escaped d); eexists; (split; [done|cbn; lia]).
  - rewrite Hi. cbn [mbind option_bind]. pose proof (wtf8_length_range c). eexists; split; [done|cbn; lia].
Qed.

Lemma class_loop_ok c fuel : forall g first m, (G <= g + fuel)%nat -> exists r, class_loop fuel glob c g first m = Some r /\
  match r with Some (g', _) => (g <= g')%nat | None => True end.
Proof.
  induction fuel as [|fuel IH]; intros g first m Hf; cbn [class_loop].
  { rewrite decide_False by lia. eexists; split; [done|cbn; lia]. }
  case_decide as Hg; [|eexists; split; [done|cbn; lia]]. destruct (lookup_lt_is_Some_2 glob g Hg) as [ch Hch]. rewrite Hch. cbn [mbind option_bind].
  destruct (_ || _); [|eexists; split; [done|cbn; lia]]. destruct (get_unicode_ok ch g Hch) as ([[[low n] j]|] & -> & H); cbn [mbind option_bind]; [|by eexists].
  assert (forall g' m', (g < g')%nat -> exists r, class_loop fuel glob c g' false m' = Some r /\
    match r with Some (g'', _) => (g <= g'')%nat | None => True end) as Hgo.
  { intros g' m' Hlt. destruct (IH g' false m' ltac:(lia)) as (r & E & Hr). exists r. split; [done|]. destruct r as [[]|]; [lia|done]. }
  destruct (bool_decide (S (j + n) < G)%nat) eqn:Ed; cbn [andb]; [|cbn [mbind option_bind]; apply Hgo; lia].
  apply bool_decide_eq_true in Ed. destruct (_ && negb _); [|cbn [mbind option_bind]; apply Hgo; lia].
  destruct (lookup_lt_is_Some_2 glob (S (j + n)) Ed) as [ch' Hch']. rewrite Hch'. cbn [mbind option_bind].
  destruct (get_unicode_ok ch' _ Hch') as ([[[high n'] j']|] & -> & H'); cbn [mbind option_bind]; [apply Hgo; lia|by eexists].
Qed.

Lemma lookup_Some (l : bytes) i : (i < length l)%nat -> exists x, l !! i = Some x.
Proof. intros H. destruct (lookup_lt_is_Some_2 l i H) as [x ->]. eauto. Qed.

(** Every arm but that of a star reads on, gives up or opens a brace. *)
Definition arm_ok (st : State) (a : Arm) : Prop :=
  match a with
  | Continue st' => moves st st'
  | Fallthrough st' => stays st st'
  | Return _ => True
  | MatchBrace => glob !! glob_index st = Some #"{"
  | ToElse => False
  end.

Lemma else_arm_ok ch st : glob !! glob_index st = Some ch ->
  exists a, else_arm windows glob path ch st = Some a /\ arm_ok st a.
Proof.
  intros Hch. pose proof (lookup_lt_Some _ _ _ Hch). unfold else_arm. case_decide as Hp; [|by eexists].
  assert (exists u, unescape ch glob (glob_index st) = Some u /\
    match u with Some (cc, g) => (glob_index st <= g < G)%nat | None => True end) as (u & -> & Hu).
  { unfold unescape. destruct (ch =? #"\"); [|eexists; split; [done|cbn; lia]]. case_decide; [by eexists|].
    destruct (lookup_Some glob (S (glob_index st)) ltac:(lia)) as [x ->]. cbn [mbind option_bind]. eexists; split; [done|cbn; lia]. }
  cbn [mbind option_bind]. destruct u as [[cc g]|]; [|by eexists].
  destruct (lookup_Some path _ Hp) as [pc ->]. cbn [mbind option_bind]. pose proof (wtf8_length_range cc) as Hcc.
  match goal with |- context [if ?b then Some (Continue _) else _] => destruct b eqn:Em end; [|by eexists].
  eexists. split; [done|]. unfold arm_ok, moves.
  assert (glob_index st < g + wtf8_byte_sequence_length cc <= S G)%nat as Hg.
  { destruct (decide (1 < wtf8_byte_sequence_length cc)%nat) as [H1|]; [|lia].
    destruct (cc =? #"/") eqn:Es; [apply Z.eqb_eq in Es; subst cc; cbn in H1; lia|].
    rewrite <- !andb_assoc in Em. apply andb_prop in Em as [_ Em]. apply andb_prop in Em as [Em _].
    apply bool_decide_eq_true in Em. lia. }
  destruct (cc =? #"/"); cbn; repeat split; try lia; auto.
Qed.

Lemma arm_other_ok gs brace_stack st ch :
  stack_ok brace_stack -> glob !! glob_index st = Some ch -> ch <> #"*" ->
  exists a, arm windows glob path gs brace_stack st = Some a /\ arm_ok st a.
Proof.
  intros Hs Hch Hns. pose proof (lookup_lt_Some _ _ _ Hch) as Hg. unfold arm. rewrite decide_True by done. rewrite Hch.
  cbn [mbind option_bind]. destruct (Z.eqb_spec ch #"*"); [done|].
  destruct (else_arm_ok ch st Hch) as (e & He & Heok).
  assert (forall a, (exists a', a = Some a' /\ (a' = ToElse \/ arm_ok st a')) ->
    exists a', (a ≫= fun a => match a with ToElse => else_arm windows glob path ch st | _ => Some a end) = Some a' /\ arm_ok st a') as Hend.
  { intros a (a' & -> & [->|Ha]); cbn [mbind option_bind]; [by exists e|]. destruct a'; try done; by eexists. }
  apply Hend. clear Hend He Heok.
  destruct (ch =? #"?"); [|destruct (ch =? #"["); [|destruct (Z.eqb_spec ch #"{") as [->|]; [|destruct (_ || _)]]].
  - unfold question_arm. case_decide as Hp; [|eexists; split; [done|by auto]]. destruct (lookup_Some path _ Hp) as [c ->]. cbn [mbind option_bind].
    eexists. split; [done|]. right. pose proof (wtf8_length_range c). destruct (sep c); cbn; [done|].
    unfold moves. cbn. repeat split; try lia; auto.
  - unfold class_arm. case_decide as Hp; [|eexists; split; [done|by auto]]. unfold decode_wtf8_rune_at.
    destruct (lookup_Some path _ Hp) as [c ->]. cbn [mbind option_bind]. pose proof (wtf8_length_range c).
    match goal with |- context [class_loop G glob ?x ?g true false] => destruct (class_loop_ok x G g true false ltac:(lia)) as (r & -> & Hr) end.
    cbn [mbind option_bind]. destruct r as [[g m]|]; [|eexists; split; [done|by right]].
    destruct (decide (G <= g)%nat); [eexists; split; [done|by right]|].
    eexists. split; [done|]. right. destruct (xorb _ _); [|done]. unfold arm_ok, moves. cbn.
    destruct (_ || _); repeat split; try lia; auto.
  - eexists. split; [done|]. right. unfold open_arm. destruct (find _ _) as [b|] eqn:Ef; [|done].
    apply find_some in Ef as [Hin Heq]. apply Nat.eqb_eq in Heq. unfold stack_ok in Hs. rewrite Forall_forall in Hs.
    specialize (Hs b (proj2 (list_elem_of_In _ _) Hin)). unfold arm_ok, moves. cbn. repeat split; try lia; auto.
  - unfold close_arm, skip_branch. destruct (0 <? brace_depth st); [|eexists; split; [done|by auto]].
    destruct (skip_branch_loop_ok (brace_depth st - 1) G false (brace_depth st) (glob_index st) ltac:(lia)) as (d & i & -> & H1 & H2 & H3).
    cbn [mbind option_bind]. eexists. split; [done|]. right. unfold arm_ok, moves. cbn. repeat split; try lia; auto.
  - eexists; split; [done|by left].
Qed.

(** Where [skip_to_separator] is reached: the stars of a globstar that are a
    path segment of the pattern. *)
Definition globstar_at (gs g : nat) : Prop :=
  glob !! g = Some #"*" /\ glob !! S g = Some #"*" /\ skip_globstars glob g = g /\
  (g + 2 - gs < 3 \/ glob !! (g - 1)%nat = Some #"/")%nat /\ (G <= g + 2 \/ glob !! (g + 2) = Some #"/")%nat.

(** A star makes itself the wildcard, or is lost to the last globstar at a
    separator, or is a globstar itself. *)
Definition star_ok (gs : nat) (st st' : State) : Prop :=
  let p := path_index st in
  path_index st' = p /\ exists g d, (glob_index st <= g < glob_index st')%nat /\ (glob_index st' <= S G)%nat /\
    glob !! g = Some #"*" /\ (globstar_at gs (glob_index st) -> g = glob_index st) /\
    let w q := {| w_glob_index := g; w_path_index := q; w_brace_depth := d |} in
    ((globstar st' = globstar st /\ ((p < P)%nat -> ~ globstar_at gs g) /\
      exists q, wildcard st' = w q /\ (p < q <= p + 5)%nat) \/
     (globstar st' = globstar st /\ wildcard st' = globstar st /\ (p < P)%nat /\ ~ globstar_at gs g) \/
     (globstar_at gs g /\ p <> P /\ exists q, wildcard st' = w q /\ globstar st' = w q /\ (p < q)%nat /\
      (q `min` P = next_start p `min` P)%nat /\ (q <= p + 1 \/ q <= P + 1)%nat)).

Lemma star_plain_ok gs st g g' q d at_separator :
  (glob_index st <= g < g')%nat -> (g' <= S G)%nat -> glob !! g = Some #"*" ->
  (globstar_at gs (glob_index st) -> g = glob_index st) -> ((path_index st < P)%nat -> ~ globstar_at gs g) ->
  (path_index st < q <= path_index st + 5)%nat -> (at_separator = true -> (path_index st < P)%nat) ->
  let st1 := at_index (with_wildcards (at_index st (path_index st) g d)
      {| w_glob_index := g; w_path_index := q; w_brace_depth := d |} (globstar st)) (path_index st) g' d in
  star_ok gs st (if at_separator : bool then with_wildcards st1 (globstar st1) (globstar st1) else st1).
Proof.
  intros Hg Hg' Hs Hat Hn Hq Hsep st1. unfold st1.
  destruct at_separator; cbn; (split; [done|]); exists g, d; cbn; (split; [done|]); (split; [done|]); (split; [done|]);
    (split; [done|]); [right; left|left]; (split; [done|]); (split; [by auto|]); [by auto|eauto].
Qed.

Lemma star_arm_ok gs st : glob !! glob_index st = Some #"*" ->
  exists st', star_arm windows glob path gs st = Some (Continue st') /\ star_ok gs st st'.
Proof.
  intros Hch. pose proof (lookup_lt_Some _ _ _ Hch) as Hlt. unfold star_arm.
  set (two := bool_decide (glob !! S (glob_index st) = Some #"*")).
  set (g := if two then skip_globstars glob (glob_index st) else glob_index st).
  assert ((glob_index st <= g)%nat /\ glob !! g = Some #"*" /\ (two = true -> glob !! S g = Some #"*" /\ skip_globstars glob g = g) /\
    (globstar_at gs (glob_index st) -> g = glob_index st) /\ (two = false -> ~ globstar_at gs g)) as (Hg & Hsg & Htwo & Hat & Hone).
  { unfold g, two. destruct (decide (glob !! S (glob_index st) = Some #"*")) as [Ht|Ht].
    - rewrite bool_decide_true by done. destruct (skip_globstars_ok _ Hch Ht) as (I1 & I2 & I3 & I4).
      split; [done|]. split; [done|]. split; [done|]. split; [|done]. intros (_ & _ & E & _). done.
    - rewrite bool_decide_false by done. split; [lia|]. split; [done|]. split; [done|]. split; [done|].
      intros _ (_ & E & _). done. }
  assert (exists len, (if decide (path_index st < P)%nat then wtf8_byte_sequence_length <$> path !! path_index st else Some 1%nat) = Some len
    /\ (1 <= len <= 4)%nat) as (len & -> & Hlen).
  { destruct (decide (path_index st < P)%nat) as [Hp|]; [|exists 1%nat; split; [done|lia]].
    destruct (lookup_Some path _ Hp) as [c ->]. eexists. split; [done|]. apply wtf8_length_range. }
  cbn [mbind option_bind]. pose proof (lookup_lt_Some _ _ _ Hsg).
  set (sepb := bool_decide (path_index st < P)%nat && _).
  assert (sepb = true -> (path_index st < P)%nat) as Hsepb.
  { unfold sepb. intros [E _]%andb_prop. by apply bool_decide_eq_true in E. }
  destruct two eqn:Et; [|eexists; split; [done|]; apply star_plain_ok; auto; lia].
  destruct (Htwo eq_refl) as [Htwo1 Htwo2]. pose proof (lookup_lt_Some _ _ _ Htwo1).
  set (ei := bool_decide (g + 2 < G)%nat).
  match goal with |- context [if ?b then Some (Continue _) else _] => destruct b eqn:Equirk end.
  - eexists. split; [done|]. rewrite !andb_true_iff, !bool_decide_eq_true in Equirk. destruct Equirk as [[[[_ Ep] _] _] _].
    apply (star_plain_ok gs st g (g + 2) _ _ false); auto; lia.
  - assert (exists b, (if decide (g + 2 - gs < 3)%nat then Some true else c ← glob !! (g + 2 - 3)%nat; Some (c =? #"/")) = Some b /\
      (b = true <-> (g + 2 - gs < 3 \/ glob !! (g - 1)%nat = Some #"/")%nat)) as (b & -> & Hb).
    { destruct (decide (g + 2 - gs < 3)%nat) as [Hd|Hd]; [exists true; split; [done|]; tauto|]. replace (g + 2 - 3)%nat with (g - 1)%nat by lia.
      destruct (lookup_Some glob (g - 1)%nat ltac:(lia)) as [c ->]. eexists. split; [done|]. cbn [mbind option_bind].
      rewrite Z.eqb_eq. naive_solver lia. }
    cbn [mbind option_bind]. assert (b && (negb ei || bool_decide (glob !! (g + 2)%nat = Some #"/")) = true <-> globstar_at gs g) as Hiff.
    { unfold globstar_at, ei. rewrite andb_true_iff, Hb, orb_true_iff, negb_true_iff, bool_decide_eq_true, bool_decide_eq_false.
      rewrite Nat.nlt_ge. tauto. }
    destruct (b && _) eqn:Ebe.
    2: { eexists. split; [done|]. apply star_plain_ok; auto; try lia. intros _ F%Hiff. done. }
    eexists. split; [done|]. unfold skip_to_separator. cbn [at_index with_wildcards path_index glob_index wildcard globstar brace_depth].
    destruct Hiff as [Hiff _]. specialize (Hiff eq_refl).
    assert (g < (if ei then S (g + 2) else g + 2) <= S G)%nat as Hg2.
    { unfold ei. destruct (decide (g + 2 < G)%nat); [rewrite bool_decide_true by done|rewrite bool_decide_false by done]; lia. }
    destruct (decide (path_index st = P)) as [HP|HP].
    + split; [done|]. exists g, (brace_depth st). cbn. split; [lia|]. split; [lia|]. split; [done|]. split; [done|]. left.
      split; [done|]. split; [lia|]. eexists. split; [done|]. cbn. lia.
    + split; [done|]. exists g, (brace_depth st). cbn -[Nat.min]. split; [lia|]. split; [lia|]. split; [done|]. split; [done|]. right. right.
      split; [done|]. split; [done|]. eexists. split; [done|]. cbn -[Nat.min]. unfold next_start.
      pose proof (skip_while_range (path_index st)) as Hsw. cbn zeta in Hsw. split; [done|].
      set (i := skip_while _ path (path_index st)) in *. clearbody i. change (S i) with (1 + i)%nat.
      destruct ei; unfold orb; [lia|].
      destruct (decide (i = P)); [rewrite bool_decide_true by done|rewrite bool_decide_false by done]; unfold negb; lia.
Qed.

(** * The loop *)

(** The state in numbers: the indices of the loop, of the wildcard and of the
    globstar, and whether these are one. *)
Record inv (gs : nat) (st : State) : Prop := {
  inv_bounds : (path_index st <= P + 4 /\ glob_index st <= S G /\ w_path_index (wildcard st) <= P + 9 /\
                w_path_index (globstar st) <= P + 9)%nat;
  inv_order : (w_glob_index (globstar st) <= w_glob_index (wildcard st) <= glob_index st)%nat;
  inv_wildcard : (0 < w_path_index (wildcard st))%nat -> glob !! w_glob_index (wildcard st) = Some #"*";
  inv_globstar : (0 < w_path_index (globstar st))%nat -> globstar_at gs (w_glob_index (globstar st));
  inv_behind : (w_path_index (globstar st) `min` P <= next_start (path_index st) `min` P)%nat;
  inv_wildcard_behind : (w_path_index (wildcard st) <= P)%nat ->
    (w_path_index (globstar st) `min` P <= next_start (w_path_index (wildcard st)) `min` P)%nat;
  inv_at : wildcard st <> globstar st -> glob_index st = w_glob_index (wildcard st) ->
    path_index st = w_path_index (wildcard st);
  inv_at_globstar : wildcard st = globstar st -> glob_index st = w_glob_index (globstar st) ->
    (0 < w_path_index (globstar st))%nat -> path_index st = w_path_index (globstar st)
}.

(** Past the end of the path there is nothing left to go back to. *)
Definition dead (st : State) : bool :=
  bool_decide (P <= path_index st)%nat && bool_decide (P < w_path_index (wildcard st))%nat.

Definition same (st : State) : bool := bool_decide (wildcard st = globstar st).
Definition at_globstar (st : State) : bool :=
  same st && bool_decide (glob_index st = w_glob_index (globstar st)) && bool_decide (0 < w_path_index (globstar st))%nat.
Definition at_wildcard (st : State) : bool :=
  negb (same st) && bool_decide (glob_index st = w_glob_index (wildcard st)) && bool_decide (0 < w_path_index (wildcard st))%nat.
Definition frontier (st : State) : nat := if same st then glob_index st else w_glob_index (wildcard st).

Abbreviation m1 st := (2 * P + 1 - (2 * (w_path_index (globstar st) `min` P) + Nat.b2n (at_globstar st)))%nat.
Abbreviation m2 st := (G + 5 - w_glob_index (globstar st))%nat.
Abbreviation m3 st := (G + 5 - frontier st)%nat.
Abbreviation m4 st := (Nat.b2n (same st)).
Abbreviation m5 st := (2 * P + 20 - (2 * w_path_index (wildcard st) + Nat.b2n (at_wildcard st)))%nat.
Abbreviation m6 st := (G + 5 - glob_index st)%nat.

(** What decreases, in this order: the path left to the globstar, the pattern
    left to it, the pattern left to the wildcard, whether they are one, the
    path left to the wildcard, and the pattern left. *)
Definition measure (st : State) : Z :=
  let z := Z.of_nat in
  let g := z G + 6 in
  if dead st then z (m6 st)
  else mix (mix (mix (mix (mix (z (m1 st)) (z (m2 st)) g) (z (m3 st)) g) (z (m4 st)) 2) (z (m5 st)) (2 * z P + 21)) (z (m6 st)) g + g.

Definition smaller (st st' : State) : Prop :=
  dead st' = true /\ (dead st = true -> m6 st' < m6 st)%nat \/
  dead st = false /\ dead st' = false /\
   (m1 st' < m1 st \/ m1 st' = m1 st /\
     (m2 st' < m2 st \/ m2 st' = m2 st /\
      (m3 st' < m3 st \/ m3 st' = m3 st /\
        (m4 st' < m4 st \/ m4 st' = m4 st /\
          (m5 st' < m5 st \/ m5 st' = m5 st /\ m6 st' < m6 st)))))%nat.

Lemma measure_nonneg st : 0 <= measure st.
Proof. unfold measure. destruct (dead st); [lia|]. apply Z.add_nonneg_nonneg; [repeat apply mix_nonneg|]; lia. Qed.

Lemma b2n_range b : (Nat.b2n b <= 1)%nat.
Proof. destruct b; cbn; lia. Qed.

Lemma smaller_measure st st' : smaller st st' -> measure st' < measure st.
Proof.
  unfold smaller, measure. pose proof (b2n_range (same st)). pose proof (b2n_range (same st')).
  intros [[-> H']|(-> & -> & H')].
  - destruct (dead st); [specialize (H' eq_refl); lia|]. apply Z.lt_le_trans with (0 + (Z.of_nat G + 6)); [lia|].
    apply Z.add_le_mono_r. repeat apply mix_nonneg; lia.
  - apply Z.add_lt_mono_r. destruct H' as [H'|(-> & [H'|(-> & [H'|(-> & [H'|(-> & [H'|(-> & H')])])])])];
      repeat (apply mix_lt; [lia|lia|first [right; split; [reflexivity|lia]|left]]); lia.
Qed.

Lemma same_spec st : same st = true /\ wildcard st = globstar st \/ same st = false /\ wildcard st <> globstar st.
Proof. unfold same. destruct (decide (wildcard st = globstar st)); [rewrite bool_decide_true by done|rewrite bool_decide_false by done]; auto. Qed.

Lemma at_globstar_false st :
  glob_index st <> w_glob_index (globstar st) \/ w_path_index (globstar st) = 0%nat \/ wildcard st <> globstar st -> at_globstar st = false.
Proof.
  intros H. unfold at_globstar, same. rewrite !andb_false_iff, !bool_decide_eq_false. destruct H as [H|[H|H]]; auto. right. lia.
Qed.

Lemma at_wildcard_false st :
  glob_index st <> w_glob_index (wildcard st) \/ w_path_index (wildcard st) = 0%nat -> at_wildcard st = false.
Proof.
  intros H. unfold at_wildcard. rewrite !andb_false_iff, !bool_decide_eq_false. destruct H as [H|H]; auto. right. lia.
Qed.

(** No star stands at the index: it is at neither of the two. *)
Lemma no_star_not_at gs st : inv gs st -> glob !! glob_index st <> Some #"*" -> at_globstar st = false /\ at_wildcard st = false.
Proof.
  intros Hinv Hns. split.
  - apply at_globstar_false. destruct (decide (w_path_index (globstar st) = 0)%nat); [by auto|]. left. intros E.
    destruct (inv_globstar _ _ Hinv ltac:(lia)) as [H _]. by rewrite <- E in H.
  - apply at_wildcard_false. destruct (decide (w_path_index (wildcard st) = 0)%nat); [by auto|]. left. intros E.
    pose proof (inv_wildcard _ _ Hinv ltac:(lia)) as H. by rewrite <- E in H.
Qed.

Lemma dead_spec st : dead st = true /\ (P <= path_index st /\ P < w_path_index (wildcard st))%nat \/
  dead st = false /\ ~ (P <= path_index st /\ P < w_path_index (wildcard st))%nat.
Proof. unfold dead. destruct (decide (P <= path_index st)%nat), (decide (P < w_path_index (wildcard st))%nat);
  rewrite ?bool_decide_true, ?bool_decide_false by done; auto; right; (split; [done|]); lia. Qed.

Lemma moves_inv gs st st' : inv gs st -> moves st st' -> inv gs st'.
Proof.
  intros [Hb Ho Hw Hs Hbe Hwb Hat Hats] (Mg & Mp & Mp' & Ms & Mw).
  pose proof (next_start_mono _ _ Mp). pose proof (next_start_gt (w_path_index (globstar st))).
  assert (wildcard st' = wildcard st \/ wildcard st' = globstar st) as Mw' by tauto.
  split; rewrite ?Ms; destruct Mw' as [E|E]; rewrite ?E; try lia; try done; try (intros; lia).
  intros H'. by apply Hs in H' as [H' _].
Qed.

Lemma moves_smaller gs st st' : inv gs st -> glob !! glob_index st <> Some #"*" -> moves st st' -> smaller st st'.
Proof.
  intros Hinv Hns Hm. destruct (no_star_not_at gs st Hinv Hns) as [E1 E2]. pose proof (inv_order _ _ Hinv) as Ho.
  destruct Hm as (Mg & Mp & Mp' & Ms & Mw). unfold smaller, frontier. rewrite E1, E2, Ms.
  assert (w_glob_index (wildcard st') <= w_glob_index (wildcard st))%nat by (destruct Mw as [->|[-> _]]; lia).
  rewrite (at_globstar_false st') by (rewrite Ms; lia). rewrite (at_wildcard_false st') by lia.
  destruct (dead_spec st') as [[-> _]|[-> H']]; [left; split; [done|lia]|right]. split.
  { destruct (dead_spec st) as [[_ Hd]|[-> _]]; [|done]. destruct H'. destruct Mw as [Mw|[_ ?]]; [rewrite Mw|]; lia. }
  split; [done|]. destruct Mw as [Mw|[Mw Hp]].
  - assert (same st' = same st) as -> by (unfold same; by rewrite Ms, Mw). rewrite Mw. destruct (same st); lia.
  - assert (same st' = true) as -> by (unfold same; rewrite Ms, Mw; by apply bool_decide_true). destruct (same st); lia.
Qed.

Lemma backtrack_ok gs st st1 : inv gs st -> glob !! glob_index st <> Some #"*" -> stays st st1 ->
  (0 < w_path_index (wildcard st) <= P)%nat -> inv gs (backtrack st1) /\ smaller st (backtrack st1).
Proof.
  intros Hinv Hns [Hw1 Hs1] Hwp. destruct (no_star_not_at gs st Hinv Hns) as [E1 E2].
  unfold backtrack, at_index. rewrite Hw1, Hs1. pose proof (inv_wildcard _ _ Hinv ltac:(lia)) as Hstar.
  assert (glob_index st <> w_glob_index (wildcard st)) as Hne by (intros E; by rewrite E in Hns).
  destruct Hinv as [Hb Ho Hw Hs Hbe Hwb Hat Hats]. split.
  - split; cbn -[Nat.min next_start]; try done; try lia; try (apply Hwb; lia); intros E; by rewrite E.
  - unfold smaller, frontier. rewrite E1, E2. unfold dead, at_globstar, at_wildcard, same. cbn -[Nat.min Nat.mul].
    rewrite (bool_decide_false (P < _)%nat) by lia. rewrite !andb_false_r. right. split; [done|]. split; [done|].
    rewrite (bool_decide_true (w_glob_index (wildcard st) = w_glob_index (wildcard st))) by done.
    destruct (decide (wildcard st = globstar st)) as [E|E].
    + rewrite (bool_decide_true (wildcard st = globstar st)) by done. rewrite <- E, !bool_decide_true by (done || lia).
      left. change (Nat.b2n (true && true && true)) with 1%nat. change (Nat.b2n false) with 0%nat. lia.
    + rewrite (bool_decide_false (wildcard st = globstar st)) by done. rewrite (bool_decide_true (0 < w_path_index (wildcard st))%nat) by lia.
      cbn -[Nat.min Nat.mul]. lia.
Qed.

Lemma star_inv gs st st' : inv gs st -> star_ok gs st st' -> inv gs st'.
Proof.
  intros [Hb Ho Hw Hs Hbe Hwb Hat Hats] (Hp & g & d & Hg & Hg' & Hstar & Hsame & Hcases).
  pose proof (next_start_gt (w_path_index (globstar st))). pose proof (next_start_gt (path_index st)).
  destruct Hcases as [(Es & Hn & q & Ew & Hq)|[(Es & Ew & HP & Hn)|(Hgs & HP & q & Ew & Es & Hq & Hqm & Hqb)]];
    split; rewrite ?Ew, ?Es, ?Hp; cbn -[Nat.min next_start]; try lia; auto.
  - intros. pose proof (next_start_mono (path_index st) q). lia.
  - intros H'. by apply Hs in H' as [H' _].
  - pose proof (next_start_gt q). lia.
Qed.

Lemma at_globstar_true gs st : inv gs st -> at_globstar st = true ->
  globstar_at gs (glob_index st) /\ path_index st = w_path_index (globstar st) /\ w_glob_index (globstar st) = glob_index st.
Proof.
  intros Hinv H. unfold at_globstar, same in H. rewrite !andb_true_iff, !bool_decide_eq_true in H. destruct H as [[E Eg] Hgp].
  split; [rewrite Eg; by apply (inv_globstar _ _ Hinv)|]. split; [by apply (inv_at_globstar _ _ Hinv)|done].
Qed.

Lemma star_smaller gs st st' : inv gs st -> star_ok gs st st' -> smaller st st'.
Proof.
  intros Hinv (Hp & g & d & Hg & Hg' & Hstar & Hsame & Hcases). pose proof (inv_order _ _ Hinv) as Ho. pose proof (inv_bounds _ _ Hinv) as Hb.
  unfold smaller. destruct (dead_spec st') as [[-> _]|[-> Hd']]; [left; split; [done|lia]|right].
  destruct (dead_spec st) as [[-> Hd]|[-> Hd]].
  { exfalso. apply Hd'. destruct Hcases as [(Es & Hn & q & Ew & Hq)|[(Es & Ew & HP & Hn)|(Hgs & HP & q & Ew & Es & Hq & _)]];
      rewrite Hp, Ew; cbn; lia. }
  split; [done|]. split; [done|].
  assert (path_index st < P)%nat as HpP.
  { destruct Hcases as [(Es & Hn & q & Ew & Hq)|[(Es & Ew & HP & Hn)|(Hgs & HP & q & Ew & Es & Hq & _)]]; [| done|];
      rewrite Hp, Ew in Hd'; cbn in Hd'; lia. }
  destruct Hcases as [(Es & Hn & q & Ew & Hq)|[(Es & Ew & HP & Hn)|(Hgs & HP & q & Ew & Es & Hq & Hqm & Hqb)]].
  - assert (at_globstar st = false) as ->.
    { destruct (at_globstar st) eqn:E; [|done]. destruct (at_globstar_true gs st Hinv E) as (H & _ & _).
      destruct (Hn HpP). by rewrite (Hsame H). }
    rewrite (at_globstar_false st') by (rewrite Es; lia). rewrite (at_wildcard_false st') by (rewrite Ew; cbn; lia).
    rewrite Es. unfold frontier. destruct (same_spec st') as [[-> E']|[-> E']], (same_spec st) as [[-> E]|[-> E]]; rewrite ?Ew; cbn -[Nat.min Nat.mul]; try lia.
    pose proof (inv_at _ _ Hinv E). pose proof (b2n_range (at_wildcard st)). lia.
  - assert (at_globstar st = false) as ->.
    { destruct (at_globstar st) eqn:E; [|done]. destruct (at_globstar_true gs st Hinv E) as (H & _ & _).
      destruct Hn. by rewrite (Hsame H). }
    rewrite (at_globstar_false st') by (rewrite Es; lia). rewrite Es. unfold frontier.
    destruct (same_spec st') as [[-> _]|[-> E']]; [|destruct E'; by rewrite Ew, Es].
    destruct (same st); lia.
  - rewrite (at_globstar_false st') by (rewrite Es; cbn; lia). rewrite Es. unfold frontier. cbn -[Nat.min Nat.mul].
    destruct (same_spec st') as [[-> _]|[-> E']]; [|destruct E'; by rewrite Ew, Es].
    pose proof (inv_behind _ _ Hinv) as Hbe. destruct (at_globstar st) eqn:Eat.
    + destruct (at_globstar_true gs st Hinv Eat) as (_ & H & _). pose proof (next_start_gt (path_index st)).
      cbn -[Nat.min Nat.mul]. left. lia.
    + cbn -[Nat.min Nat.mul]. destruct (decide (w_path_index (globstar st) `min` P < q `min` P)%nat); [left; lia|].
      right. split; [lia|]. destruct (decide (w_glob_index (globstar st) < g)%nat); [left; lia|].
      right. split; [lia|]. left. destruct (same st); lia.
Qed.

(** A round does not fail, and the next state is smaller. *)
Lemma glob_step_ok gs brace_stack budget match_brace st : inv gs st -> stack_ok brace_stack ->
  (glob !! glob_index st = Some #"{" -> exists r, match_brace st = Some r) ->
  exists r, step windows glob path gs brace_stack budget match_brace st = Some r /\
    match r with inl st' => inv gs st' /\ measure st' < measure st | inr _ => True end.
Proof.
  intros Hinv Hstack Hbrace. unfold step. destruct (_ || _); [|by eexists].
  assert (forall st', inv gs st' -> smaller st st' -> exists r : State + bool * Z, Some (inl st') = Some r /\
    match r with inl st' => inv gs st' /\ measure st' < measure st | inr _ => True end) as Hnext.
  { intros st' H1 H2. eexists. split; [done|]. split; [done|]. by apply smaller_measure. }
  assert (forall st1, glob !! glob_index st <> Some #"*" -> stays st st1 -> exists r : State + bool * Z,
    (if decide (0 < w_path_index (wildcard st1) <= P)%nat then Some (inl (backtrack st1)) else Some (inr (false, budget))) = Some r /\
    match r with inl st' => inv gs st' /\ measure st' < measure st | inr _ => True end) as Hfall.
  { intros st1 Hns Hst. destruct (decide _) as [Hd|]; [|by eexists]. destruct Hst as [E1 E2]. rewrite E1 in Hd.
    apply Hnext; by apply (backtrack_ok gs st st1). }
  destruct (decide (glob_index st < G)%nat) as [Hg|Hg].
  - destruct (lookup_Some glob _ Hg) as [ch Hch]. destruct (decide (ch = #"*")) as [->|Hns].
    + destruct (star_arm_ok gs st Hch) as (st' & E & Hst). unfold arm. rewrite decide_True by done. rewrite Hch. cbn [mbind option_bind].
      rewrite Z.eqb_refl, E. cbn [mbind option_bind]. apply Hnext; [by eapply star_inv|by eapply star_smaller].
    + destruct (arm_other_ok gs brace_stack st ch Hstack Hch Hns) as (a & -> & Ha). cbn [mbind option_bind].
      assert (glob !! glob_index st <> Some #"*") as Hns' by congruence.
      destruct a as [st'|st'| |b|]; cbn in Ha; [|by apply Hfall|done|by eexists|].
      * apply Hnext; [by eapply moves_inv|by eapply moves_smaller].
      * destruct (Hbrace Ha) as [r ->]. by eexists.
  - unfold arm. rewrite decide_False by done. cbn [mbind option_bind]. apply Hfall; [|done].
    intros H. by apply lookup_lt_Some in H.
Qed.

Lemma measure_bound gs st : inv gs st -> Z.of_nat G < 2 ^ 32 -> Z.of_nat P < 2 ^ 32 -> measure st < 2 ^ Z.of_nat LOOP_FUEL.
Proof.
  intros Hinv HG HP. pose proof (inv_bounds _ _ Hinv). pose proof (b2n_range (same st)). pose proof (b2n_range (at_globstar st)).
  unfold measure. destruct (dead st); [change LOOP_FUEL with 240%nat; lia|].
  set (g := Z.of_nat G + 6). set (x := mix _ _ g).
  assert (0 <= x < (2 * Z.of_nat P + 2) * g * g * 2 * (2 * Z.of_nat P + 21) * g).
  { unfold x. repeat (apply mix_range; [|lia]). lia. }
  assert (forall a b k l, 0 <= a < 2 ^ k -> 0 <= b < 2 ^ l -> 0 <= k -> 0 <= l -> 0 <= a * b < 2 ^ (k + l)) as Hmul.
  { intros a b k l Ha Hb Hk Hl. rewrite Z.pow_add_r by done. nia. }
  assert (0 <= (2 * Z.of_nat P + 2) * g * g * 2 * (2 * Z.of_nat P + 21) * g < 2 ^ (34 + 33 + 33 + 2 + 34 + 33)).
  { repeat apply Hmul; lia. }
  change LOOP_FUEL with 240%nat. lia.
Qed.

(** * Braces *)

Lemma match_brace_loop_ok (branch : nat -> Z -> option (bool * Z)) g :
  (forall bi budget, (g < bi <= G)%nat -> exists r, branch bi budget = Some r) ->
  forall fuel i depth ib bi budget, (G <= i + fuel)%nat -> (g < bi <= i)%nat ->
  exists r, match_brace_loop fuel glob branch i depth ib bi budget = Some r.
Proof.
  intros Hbranch. induction fuel as [|fuel IH]; intros i depth ib bi budget Hf Hbi; cbn [match_brace_loop].
  { rewrite decide_False by lia. by eexists. }
  destruct (decide (i < G)%nat) as [Hi|]; [|by eexists]. destruct (lookup_Some glob i Hi) as [c ->]. cbn [mbind option_bind].
  destruct ((c =? #"{") && _). { destruct (_ =? 1); apply IH; lia. }
  destruct ((c =? #"}") && _). { destruct (_ =? 0); [apply Hbranch; lia|apply IH; lia]. }
  destruct (_ && negb ib). { destruct (Hbranch bi budget ltac:(lia)) as [[[] b] ->]; cbn [mbind option_bind]; [by eexists|]. apply IH; lia. }
  apply IH; destruct (c =? #"\"); lia.
Qed.

Lemma inv_branch gs st bi d : inv gs st -> (glob_index st < bi <= G)%nat -> inv bi (at_index st (path_index st) bi d).
Proof.
  intros [Hb Ho Hw Hs Hbe Hwb Hat Hats] Hbi. split; cbn -[Nat.min next_start]; try lia; auto.
  intros H. destruct (Hs H) as (H1 & H2 & H3 & H4 & H5). split; [done|]. split; [done|]. split; [done|]. split; [left; lia|done].
Qed.

Lemma glob_match_impl_total : Z.of_nat G < 2 ^ 32 -> Z.of_nat P < 2 ^ 32 ->
  forall depth brace_stack budget gs st, (BRACE_STACK_CAPACITY < depth + length brace_stack)%nat ->
  (length brace_stack <= BRACE_STACK_CAPACITY)%nat -> stack_ok brace_stack -> inv gs st ->
  exists r, glob_match_impl windows depth glob path brace_stack budget gs st = Some r.
Proof.
  intros HG HP. induction depth as [|depth IH]; intros stack budget gs st Hd Hl Hstack Hinv; [lia|]. cbn [glob_match_impl].
  edestruct (run_ok (step windows glob path gs stack budget
      (match_brace (glob_match_impl windows depth glob path) glob stack budget)) (inv gs) (fun _ => True) measure) as (r & -> & _);
    [|exact Hinv|by eapply measure_bound|by exists r].
  clear st Hinv. intros st Hinv. split; [apply measure_nonneg|].
  edestruct (glob_step_ok gs stack budget (match_brace (glob_match_impl windows depth glob path) glob stack budget) st Hinv Hstack) as (r & E & Hr).
  2: { exists r. split; [exact E|]. destruct r; auto. }
  intros Hbrace. unfold match_brace. pose proof (lookup_lt_Some _ _ _ Hbrace) as Hg. destruct G as [|n] eqn:EG; [lia|].
  cbn [match_brace_loop]. rewrite EG, decide_True by lia. rewrite Hbrace. cbn [mbind option_bind]. rewrite Z.eqb_refl. cbn [andb negb].
  change ((0 + 1 + 2 ^ 15) mod 2 ^ 16 - 2 ^ 15 =? 1) with true. cbn iota.
  apply match_brace_loop_ok with (g := glob_index st); [|lia|lia]. intros bi b Hbi. unfold match_brace_branch.
  destruct (b =? 0); [by eexists|]. destruct (decide _) as [|Hcap]; [by eexists|]. rewrite length_app. cbn [length].
  apply IH; [rewrite length_app; cbn; lia|rewrite length_app; cbn; lia| |].
  - apply Forall_app. split; [done|]. apply Forall_singleton. cbn. lia.
  - by apply (inv_branch gs).
Qed.

End Total.

Module GlobTotalProps.

(** C25: the matcher answers for every pattern and every path shorter than
    2^32 bytes: it never indexes out of them, and its loop ends whatever stars,
    globstars, braces and backslashes they hold. *)
Theorem glob_match_total (windows : bool) (glob path : bytes) :
  Z.of_nat (length glob) < 2 ^ 32 -> Z.of_nat (length path) < 2 ^ 32 ->
  exists r, glob_match windows glob path = Some r.
Proof.
  intros HG HP. unfold glob_match.
  destruct (glob_match_impl_total windows glob path HG HP (S BRACE_STACK_CAPACITY) [] BRACE_BRANCH_BUDGET 0
    (at_index state_default 0 (prefix_len (fun c => c =? #"!") glob) 0)) as [[b n] ->]; [by apply (bool_decide_unpack _)|by apply (bool_decide_unpack _)|constructor| |by eexists].
  pose proof (prefix_len_le (fun c => c =? #"!") glob). split; cbn; try lia; try done.
Qed.

Lemma glob_match_total_witness : exists r, glob_match false b!"{**/,}*[a-c]" b!"x/yb" = Some r.
Proof. apply glob_match_total; cbn; lia. Defined.

Example bang_globstar :
  glob_match false b!"**/a" b!"x/y/a" = Some Match /\ glob_match false b!"!**/a" b!"x/y/a" = Some NegateMatch.
Proof. split; by vm_compute. Qed.

Example brace_depth_of_second_group :
  glob_match false b!"{a}{b},c" b!"ab,c" = Some NoMatch /\ glob_match false b!"{a}{b},c" b!"ab" = Some Match /\
  glob_match false b!"{a},c" b!"a,c" = Some Match.
Proof. repeat split; by vm_compute. Qed.

Example globstar_then_star :
  glob_match false b!"a/**/*" b!"a/" = Some NoMatch /\ glob_match false b!"a/*" b!"a/" = Some Match.
Proof. split; by vm_compute. Qed.

Example class_matches_separator :
  glob_match false b!"a[^b]c" b!"a/c" = Some Match /\ glob_match false b!"a?c" b!"a/c" = Some NoMatch.
Proof. split; by vm_compute. Qed.

End GlobTotalProps.
