(* ===== verification/GlobSpec.v ===== *)
(** What a glob pattern means: patterns without braces as trees, their text,
    and the reference [segs_match] of a path, name by name, which [fmatch]
    restates on the flat pattern as a relation. *)
From S2P Require Import Prelude Wtf8 Glob GlobTotal.

(** * Patterns *)

(** One pattern of a name; characters are code points. *)
Inductive tok :=
| TLit (c : Z)
| TAny
| TStar
| TClass (negated : bool) (items : list (Z * Z)).

Inductive segment :=
| SName (ts : list tok)
| SGlobstar.

#[global] Instance tok_eq_dec : EqDecision tok.
Proof. solve_decision. Defined.

(** Characters that mean something outside or inside of a class. *)
Definition special (c : Z) : bool := existsb (Z.eqb c) b!"*?[]{},\!-^".

Definition print_char (c : Z) : bytes := if special c then #"\" :: wtf8_encode c else wtf8_encode c.

Definition print_item (item : Z * Z) : bytes :=
  let '(low, high) := item in
  if low =? high then print_char low else print_char low ++ #"-" :: print_char high.

Definition print_tok (t : tok) : bytes :=
  match t with
  | TLit c => print_char c
  | TAny => b!"?"
  | TStar => b!"*"
  | TClass negated items => b!"[" ++ (if negated then b!"!" else []) ++ (items ≫= print_item) ++ b!"]"
  end.

Definition print_segment (s : segment) : bytes :=
  match s with
  | SName ts => ts ≫= print_tok
  | SGlobstar => b!"**"
  end.

Fixpoint join_with {A} (sep : A) (l : list (list A)) : list A :=
  match l with
  | [] => []
  | [x] => x
  | x :: r => x ++ sep :: join_with sep r
  end.

Definition glob_text (bangs : nat) (segs : list segment) : bytes :=
  replicate bangs #"!" ++ join_with #"/" (print_segment <$> segs).

(** * The reference *)

Definition class_match (negated : bool) (items : list (Z * Z)) (c : Z) : bool :=
  xorb negated (existsb (fun '(low, high) => (low <=? c) && (c <=? high)) items).

(** The patterns of one character. *)
Definition tok_match (t : tok) (c : Z) : bool :=
  match t with
  | TLit x => c =? x
  | TAny => true
  | TStar => false
  | TClass negated items => class_match negated items c
  end.

Fixpoint name_match (ts : list tok) (name : list Z) : bool :=
  match ts with
  | [] => match name with [] => true | _ => false end
  | TStar :: ts =>
    (fix star name := name_match ts name || match name with [] => false | _ :: name => star name end) name
  | t :: ts => match name with [] => false | x :: name => tok_match t x && name_match ts name end
  end.

Fixpoint segs_match (segs : list segment) (names : list (list Z)) : bool :=
  match segs with
  | [] => match names with [] => true | _ => false end
  | SName ts :: segs => match names with [] => false | name :: names => name_match ts name && segs_match segs names end
  | SGlobstar :: segs =>
    (fix rest names :=
       match names with
       | [] => false
       | _ :: names' => match segs with [] => true | _ => segs_match segs names || rest names' end
       end) names
  end.

Example segs_match_1 : segs_match [SGlobstar; SName [TStar; TLit #"."; TLit #"j"; TLit #"s"]] [b!"src"; b!"a.js"] = true.
Proof. reflexivity. Qed.

(** * Well-formed patterns *)

(** A class is not empty and admits no separator; stars are not adjacent, as
    two of them in a name are a globstar where the name is nothing else. *)
Definition tok_ok (t : tok) : Prop :=
  match t with
  | TLit c => code_point c /\ c <> #"/"
  | TClass negated items =>
    items <> [] /\ Forall (fun '(low, high) => code_point low /\ code_point high) items /\ class_match negated items #"/" = false
  | _ => True
  end.

Fixpoint no_stars_adjacent (ts : list tok) : Prop :=
  match ts with
  | TStar :: (TStar :: _) => False
  | _ :: ts => no_stars_adjacent ts
  | [] => True
  end.

Definition segment_ok (s : segment) : Prop :=
  match s with
  | SName ts => Forall tok_ok ts /\ no_stars_adjacent ts
  | SGlobstar => True
  end.

(** A globstar right after a leading [!] is not one. *)
Definition pattern_ok (bangs : nat) (segs : list segment) : Prop :=
  segs <> [] /\ Forall segment_ok segs /\ (bangs = 0%nat \/ forall r, segs <> SGlobstar :: r).

(** Names are not empty and hold no separator. *)
Definition name_ok (windows : bool) (name : list Z) : Prop :=
  name <> [] /\ Forall (fun c => code_point c /\ is_separator windows c = false) name.

Definition path_ok (windows : bool) (names : list (list Z)) : Prop := names <> [] /\ Forall (name_ok windows) names.

(** * The flat pattern *)

Inductive ftok :=
| FTok (t : tok)
| FSep
| FGlob.

Definition flat_segment (s : segment) : list ftok :=
  match s with
  | SName ts => FTok <$> ts
  | SGlobstar => [FGlob]
  end.

Definition flat (segs : list segment) : list ftok := join_with FSep (flat_segment <$> segs).

Definition print_ftok (t : ftok) : bytes :=
  match t with
  | FTok t => print_tok t
  | FSep => b!"/"
  | FGlob => b!"**"
  end.

Definition pf (ts : list ftok) : bytes := ts ≫= print_ftok.

Lemma pf_app a b : pf (a ++ b) = pf a ++ pf b.
Proof. apply bind_app. Qed.

Lemma pf_cons t ts : pf (t :: ts) = print_ftok t ++ pf ts.
Proof. done. Qed.

Lemma pf_name ts : pf (FTok <$> ts) = ts ≫= print_tok.
Proof. induction ts as [|t ts IH]; [done|]. cbn. by rewrite <- IH. Qed.

Lemma join_with_cons {A} (sep : A) x y r : join_with sep (x :: y :: r) = x ++ sep :: join_with sep (y :: r).
Proof. done. Qed.

Lemma pf_flat segs : pf (flat segs) = join_with #"/" (print_segment <$> segs).
Proof.
  unfold flat. induction segs as [|s segs IH]; [done|].
  assert (pf (flat_segment s) = print_segment s) as Hs by (destruct s; [apply pf_name|done]).
  destruct segs as [|s' segs]; [by rewrite !fmap_cons|]. rewrite !fmap_cons, !join_with_cons in *. by rewrite pf_app, pf_cons, Hs, IH.
Qed.

Definition slash_free (l : list Z) : Prop := Forall (fun c => c <> #"/") l.

(** A text matches a flat pattern. *)
Inductive fmatch : list ftok -> list Z -> Prop :=
| fm_nil : fmatch [] []
| fm_char t ts x s : tok_match t x = true -> x <> #"/" -> fmatch ts s -> fmatch (FTok t :: ts) (x :: s)
| fm_star0 ts s : fmatch ts s -> fmatch (FTok TStar :: ts) s
| fm_star ts x s : x <> #"/" -> fmatch (FTok TStar :: ts) s -> fmatch (FTok TStar :: ts) (x :: s)
| fm_sep ts s : fmatch ts s -> fmatch (FSep :: ts) (#"/" :: s)
| fm_glob_end s : fmatch [FGlob] s
| fm_glob0 ts s : fmatch ts s -> fmatch (FGlob :: FSep :: ts) s
| fm_glob n ts s : slash_free n -> fmatch (FGlob :: FSep :: ts) s -> fmatch (FGlob :: FSep :: ts) (n ++ #"/" :: s).

(** * Pieces of a match *)

Fixpoint slashes (s : list Z) : nat :=
  match s with
  | [] => 0
  | c :: s => if c =? #"/" then S (slashes s) else slashes s
  end.

Fixpoint seps (ts : list ftok) : nat :=
  match ts with
  | [] => 0
  | FSep :: ts => S (seps ts)
  | _ :: ts => seps ts
  end.

Lemma slashes_app a b : slashes (a ++ b) = (slashes a + slashes b)%nat.
Proof. induction a as [|c a IH]; [done|]. cbn. rewrite IH. by destruct (c =? #"/"). Qed.

Lemma seps_app a b : seps (a ++ b) = (seps a + seps b)%nat.
Proof. induction a as [|t a IH]; [done|]. destruct t; cbn; by rewrite IH. Qed.

Lemma slash_free_0 s : slash_free s <-> slashes s = 0%nat.
Proof.
  induction s as [|c s IH]; [split; [done|constructor]|]. unfold slash_free in *. rewrite Forall_cons, IH. cbn.
  destruct (Z.eqb_spec c #"/"); [|tauto]. split; [tauto|done].
Qed.

Definition plain (ts : list ftok) : Prop := Forall (fun t => exists t', t = FTok t' /\ t' <> TStar) ts.
Definition glob_free (ts : list ftok) : Prop := Forall (fun t => t <> FGlob) ts.
Definition seg_start (s : list Z) : Prop := s = [] \/ last s = Some #"/".
Definition ends_sep (ts : list ftok) : Prop := ts = [] \/ last ts = Some FSep.

Lemma plain_glob_free ts : plain ts -> glob_free ts.
Proof. intros H. eapply Forall_impl; [exact H|]. by intros t (t' & -> & _). Qed.

Lemma plain_seps ts : plain ts -> seps ts = 0%nat.
Proof. induction 1 as [|t ts (t' & -> & _) _ IH]; [done|]. done. Qed.

Lemma fm_plain_app c : plain c -> forall rest z, fmatch (c ++ rest) z ->
  exists w z', z = w ++ z' /\ slash_free w /\ length w = length c /\ fmatch rest z'.
Proof.
  induction 1 as [|t c (t' & -> & Ht) _ IH]; intros rest z H; cbn in H; [exists [], z; split; [done|]; split; [constructor|done]|].
  inversion H as [|? ? x s Hm Hx Hs| | | | | |]; subst; try congruence. destruct (IH _ _ Hs) as (w & z' & -> & Hw & Hl & Hz).
  exists (x :: w), z'. split; [done|]. split; [by constructor|]. split; [by cbn; rewrite Hl|done].
Qed.

Lemma fm_star_inv ts z : fmatch (FTok TStar :: ts) z -> exists v z', z = v ++ z' /\ slash_free v /\ fmatch ts z'.
Proof.
  intros H. remember (FTok TStar :: ts) as l eqn:E. revert ts E. induction H; intros ts0 E; try done.
  - by injection E as -> ->.
  - injection E as ->. exists [], s. repeat split; [constructor|done].
  - destruct (IHfmatch _ E) as (v & z' & -> & Hv & Hz). exists (x :: v), z'. repeat split; [by constructor|done].
Qed.

Lemma fm_star_app ts v z : slash_free v -> fmatch (FTok TStar :: ts) z -> fmatch (FTok TStar :: ts) (v ++ z).
Proof. induction 1; cbn; [done|]. intros. apply fm_star; auto. Qed.

Lemma fm_glob_free_app rest l z : fmatch l z -> forall c, glob_free c -> l = c ++ rest ->
  exists w z', z = w ++ z' /\ slashes w = seps c /\ fmatch rest z'.
Proof.
  induction 1; intros [|t' c] Hc E; cbn in E; subst.
  all: try (eexists [], _; repeat split; by econstructor).
  all: try done. all: apply Forall_cons in Hc as [Ht Hc]; injection E as <- E; try (by destruct Ht); subst ts.
  - destruct (IHfmatch c Hc eq_refl) as (w & z' & -> & Hw & Hz). exists (x :: w), z'. repeat split; [|done].
    cbn. by rewrite (proj2 (Z.eqb_neq x _)) by done.
  - destruct (IHfmatch c Hc eq_refl) as (w & z' & -> & Hw & Hz). by exists w, z'.
  - destruct (IHfmatch (FTok TStar :: c)) as (w & z' & -> & Hw & Hz); [by constructor|done|]. exists (x :: w), z'.
    repeat split; [|done]. cbn. by rewrite (proj2 (Z.eqb_neq x _)) by done.
  - destruct (IHfmatch c Hc eq_refl) as (w & z' & -> & Hw & Hz). exists (#"/" :: w), z'. repeat split; [|done]. cbn. by rewrite Hw.
Qed.

(** A piece that ends a name of the pattern ends a name of the path. *)
Lemma fm_names_app rest c z : glob_free c -> ends_sep c -> fmatch (c ++ rest) z ->
  exists w z', z = w ++ z' /\ slashes w = seps c /\ seg_start w /\ fmatch rest z'.
Proof.
  intros Hc [->|[c' ->]%last_Some] H; [by exists [], z; repeat split; [left|]|].
  unfold glob_free in Hc. rewrite Forall_app in Hc. rewrite <- app_assoc in H.
  destruct (fm_glob_free_app _ _ _ H c' (proj1 Hc) eq_refl) as (w & z' & -> & Hw & Hz). inversion Hz; subst.
  exists (w ++ b!"/"), s. rewrite <- app_assoc, slashes_app, seps_app, Hw. repeat split; [|done]. right. apply last_snoc.
Qed.

Lemma seg_start_cons n s : seg_start (n ++ #"/" :: s) <-> seg_start s.
Proof.
  unfold seg_start. rewrite last_app, last_cons. destruct s as [|c s]; [split; auto|].
  destruct (last (c :: s)) as [x|] eqn:E; [|by apply last_None in E]. split; intros [H|H]; auto; [by destruct n|done].
Qed.

Lemma seg_start_app a b : seg_start a -> seg_start b -> seg_start (a ++ b).
Proof. intros Ha [->|Hb]; [by rewrite app_nil_r|]. right. by rewrite last_app, Hb. Qed.

Lemma first_slash s : slash_free s \/ exists n r, s = n ++ #"/" :: r /\ slash_free n.
Proof.
  induction s as [|c s IH]; [left; constructor|]. destruct (decide (c = #"/")) as [->|Hc]; [right; exists [], s; split; [done|constructor]|].
  destruct IH as [H|(n & r & -> & H)]; [left; by constructor|]. right. exists (c :: n), r. split; [done|by constructor].
Qed.

Lemma slash_split n r n' r' : slash_free n -> slash_free n' -> n ++ #"/" :: r = n' ++ #"/" :: r' -> n = n' /\ r = r'.
Proof.
  intros Hn. revert n'. induction Hn as [|c n Hc _ IH]; intros [|c' n'] Hn' E; cbn in E; injection E.
  - by intros ->.
  - intros _ <-. exfalso. by apply Forall_cons in Hn' as [? _].
  - done.
  - intros E' <-. apply Forall_cons in Hn' as [_ Hn']. by destruct (IH n' Hn' E') as [-> ->].
Qed.

Lemma slash_free_no_slash n a r : slash_free n -> n <> a ++ #"/" :: r.
Proof. intros H ->. unfold slash_free in H. rewrite Forall_app, Forall_cons in H. tauto. Qed.

Lemma slash_free_seg_start s : slash_free s -> seg_start s -> s = [].
Proof. intros H [|[s' ->]%last_Some]; [done|]. by apply (slash_free_no_slash _ s' []) in H. Qed.

Lemma fm_glob_inv ts z : fmatch (FGlob :: FSep :: ts) z -> exists v z', z = v ++ z' /\ seg_start v /\ fmatch ts z'.
Proof.
  intros H. remember (FGlob :: FSep :: ts) as l eqn:E. revert ts E. induction H; intros ts0 E; try done.
  - injection E as ->. exists [], s. repeat split; [by left|done].
  - destruct (IHfmatch _ E) as (v & z' & -> & Hv & Hz). exists (n ++ #"/" :: v), z'. rewrite <- app_assoc. split; [done|].
    by rewrite seg_start_cons.
Qed.

Lemma fm_glob_app ts v : seg_start v -> forall z, fmatch (FGlob :: FSep :: ts) z -> fmatch (FGlob :: FSep :: ts) (v ++ z).
Proof.
  remember (length v) as k eqn:Ek. revert v Ek. induction (lt_wf k) as [k _ IH]. intros v -> Hv z Hz.
  destruct (first_slash v) as [Hf|(n & r & -> & Hn)]; [by rewrite (slash_free_seg_start v Hf Hv)|].
  rewrite seg_start_cons in Hv. rewrite <- app_assoc. cbn. apply fm_glob; [done|]. eapply IH; [|reflexivity|done|done].
  rewrite length_app. cbn. lia.
Qed.

Lemma fm_glob_iff ts z : fmatch (FGlob :: FSep :: ts) z <->
  fmatch ts z \/ exists n s, slash_free n /\ z = n ++ #"/" :: s /\ fmatch (FGlob :: FSep :: ts) s.
Proof. split; [inversion 1; subst; eauto 10|]. intros [H|(n & s & Hn & -> & H)]; by constructor. Qed.

(** * The relation is the reference *)

Lemma name_star ts n : name_match (TStar :: ts) n = name_match ts n || match n with [] => false | _ :: n' => name_match (TStar :: ts) n' end.
Proof. by destruct n. Qed.

Lemma name_star_iff ts n : name_match (TStar :: ts) n = true <-> exists v n', n = v ++ n' /\ name_match ts n' = true.
Proof.
  induction n as [|c n IH]; rewrite name_star, orb_true_iff.
  - split; [intros [H|H]; [by exists [], []|done]|]. intros (v & n' & E & H). symmetry in E. apply app_nil in E as [-> ->]. by left.
  - rewrite IH. split.
    + intros [H|(v & n' & -> & H)]; [by exists [], (c :: n)|by exists (c :: v), n'].
    + intros ([|c' v] & n' & E & H); cbn in E; [subst; by left|]. injection E as _ ->. right. eauto.
Qed.

Lemma name_char t ts n : t <> TStar -> name_match (t :: ts) n = true <-> exists x n', n = x :: n' /\ tok_match t x = true /\ name_match ts n' = true.
Proof.
  intros Ht. transitivity (match n with [] => false | x :: n' => tok_match t x && name_match ts n' end = true).
  - by destruct t.
  - destruct n as [|x n]; [split; [done|by intros (x & n' & ? & _)]|]. rewrite andb_true_iff. split; [eauto 6|].
    by intros (x' & n' & [= -> ->] & H).
Qed.

Lemma fm_name_iff rest ts : forall s, fmatch ((FTok <$> ts) ++ rest) s <->
  exists n z, s = n ++ z /\ slash_free n /\ name_match ts n = true /\ fmatch rest z.
Proof.
  induction ts as [|t ts IH]; intros s.
  { split; [intros H; exists [], s; repeat split; [constructor|done]|]. intros (n & z & -> & _ & Hn & H). by destruct n. }
  rewrite fmap_cons. cbn [app]. destruct (decide (t = TStar)) as [->|Ht]; [|split].
  - split.
    + intros (v & z' & -> & Hv & (n & z & -> & Hn & Hm & H)%IH)%fm_star_inv. exists (v ++ n), z. rewrite <- app_assoc.
      repeat split; [by apply Forall_app| |done]. apply name_star_iff. eauto.
    + intros (n & z & -> & Hn & (v & n' & -> & Hm)%name_star_iff & H). unfold slash_free in Hn. rewrite Forall_app in Hn.
      rewrite <- app_assoc. apply fm_star_app; [tauto|]. apply fm_star0, IH. exists n', z. tauto.
  - inversion 1 as [|? ? x s' Hm Hx Hs| | | | | |]; subst; try congruence. apply IH in Hs as (n & z & -> & Hn & Hnm & H').
    exists (x :: n), z. repeat split; [by constructor| |done]. apply name_char; eauto.
  - intros (n & z & -> & Hn & (x & n' & -> & Hm & Hnm)%name_char & H); [|done]. apply Forall_cons in Hn as [Hx Hn].
    cbn. apply fm_char; [done|done|]. apply IH. eauto 6.
Qed.

Definition name_free (names : list (list Z)) : Prop := Forall (fun n => n <> [] /\ slash_free n) names.

Lemma segs_globstar segs names : segs_match (SGlobstar :: segs) names =
  match names with
  | [] => false
  | _ :: names' => match segs with [] => true | _ => segs_match segs names || segs_match (SGlobstar :: segs) names' end
  end.
Proof. by destruct names. Qed.

Lemma segs_nil segs : segs <> [] -> segs_match segs [] = false.
Proof. destruct segs as [|[] segs]; done. Qed.

Lemma flat_cons s s' segs : flat (s :: s' :: segs) = flat_segment s ++ FSep :: flat (s' :: segs).
Proof. done. Qed.

Lemma flat_match segs : segs <> [] -> forall names, name_free names -> names <> [] ->
  fmatch (flat segs) (join_with #"/" names) <-> segs_match segs names = true.
Proof.
  induction segs as [|s segs IH]; [done|]. intros _.
  assert (forall n names, slash_free n -> names = [] \/ exists r, join_with #"/" (n :: names) = n ++ #"/" :: r) as Hjoin.
  { intros n [|n' names] _; [by left|]. right. eexists. by rewrite join_with_cons. }
  destruct s as [ts|], segs as [|s' segs].
  - intros [|n names] Hall Hne; [done|]. apply Forall_cons in Hall as [[_ Hn] _]. assert (flat [SName ts] = (FTok <$> ts) ++ []) as -> by (cbn; by rewrite app_nil_r).
    rewrite fm_name_iff. cbn [segs_match]. rewrite andb_true_iff. split.
    + intros (n' & z & E & Hn' & Hm & Hz). inversion Hz; subst. rewrite app_nil_r in E. destruct (Hjoin n names Hn) as [->|[r Er]].
      * cbn in E. by subst.
      * rewrite Er in E. symmetry in E. by apply slash_free_no_slash in E.
    + intros [Hm Hnil]. destruct names; [|done]. exists n, []. rewrite app_nil_r. repeat split; [done|done|constructor].
  - intros [|n names] Hall Hne; [done|]. apply Forall_cons in Hall as [[Hn0 Hn] Hall]. rewrite flat_cons. cbn [flat_segment]. rewrite fm_name_iff.
    change (segs_match (SName ts :: s' :: segs) (n :: names)) with (name_match ts n && segs_match (s' :: segs) names). rewrite andb_true_iff. split.
    + intros (n' & z & E & Hn' & Hm & Hz). inversion Hz as [| | | |? z' Hz'| | |]; subst.
      destruct names as [|n2 names]; [cbn in E; by apply slash_free_no_slash in E|]. rewrite join_with_cons in E.
      apply slash_split in E as [-> <-]; [|done|done]. split; [done|]. by apply (IH ltac:(done) (n2 :: names)).
    + intros [Hm Hs]. destruct names as [|n2 names]; [by rewrite (segs_nil (s' :: segs)) in Hs|]. rewrite join_with_cons.
      exists n, (#"/" :: join_with #"/" (n2 :: names)). repeat split; [done|done|]. apply fm_sep. by apply (IH ltac:(done) (n2 :: names)).
  - intros names _ Hne. split; [|intros _; apply fm_glob_end]. intros _. by destruct names.
  - intros names Hall Hne. induction names as [|n names IHn]; [done|]. pose proof Hall as [[Hn0 Hn] Hall']%Forall_cons.
    rewrite segs_globstar, flat_cons. cbn [flat_segment app]. rewrite fm_glob_iff, IH by done. rewrite orb_true_iff.
    rewrite flat_cons in IHn. cbn [flat_segment app] in IHn. split; (intros [H|H]; [by left|right]).
    + destruct H as (n' & s & Hn' & E & H). destruct names as [|n2 names]; [cbn in E; by apply slash_free_no_slash in E|].
      rewrite join_with_cons in E. apply slash_split in E as [<- <-]; [|done|done]. by apply IHn.
    + destruct names as [|n2 names]; [done|]. exists n, (join_with #"/" (n2 :: names)). rewrite join_with_cons. repeat split; [done|].
      by apply IHn.
Qed.
