(* ===== verification/GlobArms.v ===== *)
(** What the arms of the matcher's loop do on the text of a pattern, one lemma
    per pattern of a character. *)
From S2P Require Import Prelude Wtf8 Glob GlobTotal GlobSpec.

(** * Characters *)

Lemma encode_ne c : wtf8_encode c <> [].
Proof. unfold wtf8_encode. repeat case_match; done. Qed.

Lemma encode_ascii c : 0 <= c < 0x80 -> wtf8_encode c = [c].
Proof. intros H. unfold wtf8_encode. by rewrite (proj2 (Z.ltb_lt c 0x80)) by lia. Qed.

Lemma encode_high c : code_point c -> 0x80 <= c -> exists b r, wtf8_encode c = b :: r /\ 0xC0 <= b.
Proof.
  unfold code_point, wtf8_encode. intros Hc H. rewrite (proj2 (Z.ltb_ge c 0x80)) by lia.
  repeat case_match; eexists _, _; (split; [done|]); Z.div_mod_to_equations; lia.
Qed.

(** An encoding is read back whatever follows. *)
Lemma encode_inj_app x c r r' : code_point x -> code_point c -> wtf8_encode x ++ r = wtf8_encode c ++ r' -> x = c.
Proof.
  intros Hx Hc E. destruct (wtf8_length_encode x Hx) as (b & t & Ex & Lx), (wtf8_length_encode c Hc) as (b' & t' & Ec & Lc).
  assert (b = b') as <- by (rewrite Ex, Ec in E; by injection E).
  rewrite <- (decode_encode_rune x r 0 Hx), <- (decode_encode_rune c r' 0 Hc). by rewrite E, <- Lx, <- Lc.
Qed.

Lemma special_small c : special c = true -> 0 <= c < 0x80 /\ escaped c = None /\ c <> #"/".
Proof.
  unfold special. cbn [existsb]. rewrite !orb_true_iff, !Z.eqb_eq. intros H.
  repeat (destruct H as [H|H]; [subst c; split; [lia|done]|]). done.
Qed.

Lemma drop_lookup (l : bytes) i b r : drop i l = b :: r -> l !! i = Some b.
Proof. intros H. rewrite <- (Nat.add_0_r i), <- lookup_drop, H. done. Qed.

Lemma drop_next (l a r : bytes) i : drop i l = a ++ r -> drop (i + length a) l = r.
Proof. intros H. by rewrite <- drop_drop, H, drop_app_length. Qed.

Lemma drop_len (l r : bytes) i : drop i l = r -> r <> [] -> (length l = i + length r)%nat.
Proof. intros H Hr. pose proof (f_equal length H) as E. rewrite length_drop in E. destruct r; [done|]. cbn in *. lia. Qed.

(** A decoding reads only as many bytes as the character has. *)
Lemma decode_take p q len zero : (len <= 4)%nat -> take len p = take len q -> decode_wtf8_rune_t p len zero = decode_wtf8_rune_t q len zero.
Proof.
  intros Hlen E. assert (forall k, (k < len)%nat -> nth k p 0 = nth k q 0) as Hn.
  { intros k Hk. rewrite !nth_lookup. by rewrite <- (lookup_take_lt p len), <- (lookup_take_lt q len), E by done. }
  destruct len as [|[|[|[|[|]]]]]; try lia; cbn [decode_wtf8_rune_t]; unfold decode_wtf8_rune_t_multibyte; rewrite ?Hn by lia; try done.
Qed.

(** The character at an index of an encoded text. *)
Lemma rune_at_ok text i c r : code_point c -> drop i text = wtf8_encode c ++ r ->
  decode_wtf8_rune_at text i = Some (c, length (wtf8_encode c)).
Proof.
  intros Hc E. destruct (wtf8_length_encode c Hc) as (b & t & Ec & Lc). unfold decode_wtf8_rune_at.
  rewrite (drop_lookup text i b (t ++ r)) by (by rewrite E, Ec). cbn [mbind option_bind]. rewrite Lc, E. do 2 f_equal.
  assert (1 <= length (wtf8_encode c) <= 4)%nat as Hl by (unfold wtf8_encode; repeat case_match; cbn; lia).
  assert (forall n, (length (wtf8_encode c) <= n)%nat -> take (length (wtf8_encode c)) (cp_bytes (wtf8_encode c ++ r) n) = wtf8_encode c) as Ht.
  { intros n Hn. unfold cp_bytes. rewrite take_app_le by (rewrite length_take, length_app; lia).
    rewrite take_take, Nat.min_l by (rewrite length_app; lia). by apply take_app_length'. }
  etransitivity; [|exact (decode_encode_rune c r 0xFFFD Hc)]. apply decode_take; [lia|]. by rewrite !Ht by lia.
Qed.

(** The first byte of a printed character. *)
Lemma print_char_head c : code_point c ->
  special c = true /\ print_char c = b!"\" ++ [c] \/
  special c = false /\ exists b r, print_char c = wtf8_encode c /\ wtf8_encode c = b :: r /\ special b = false /\ (b = c \/ 0x80 <= b /\ 0x80 <= c).
Proof.
  intros Hc. unfold print_char. destruct (special c) eqn:Es; [left|right]; (split; [done|]).
  - destruct (special_small c Es) as (H & _). by rewrite encode_ascii.
  - destruct (decide (c < 0x80)) as [Hl|Hl].
    + exists c, []. unfold code_point in Hc. rewrite encode_ascii by lia. auto.
    + destruct (encode_high c Hc ltac:(lia)) as (b & r & E & Hb). exists b, r. split; [done|]. split; [done|]. split; [|right; lia].
      destruct (special b) eqn:Eb; [|done]. apply special_small in Eb. lia.
Qed.

(** * Classes *)

Lemma get_unicode_print glob i c r b : code_point c -> drop i glob = print_char c ++ r -> glob !! i = Some b ->
  exists len j, get_unicode b glob i = Some (Some (c, len, j)) /\ (j + len = i + length (print_char c))%nat.
Proof.
  intros Hc E Hb. pose proof (drop_len _ _ _ E) as Hlen.
  destruct (print_char_head c Hc) as [[Es Ep]|(Es & b' & r' & Ep & Ee & Eb & Hbc)]; rewrite Ep in *.
  - rewrite (drop_lookup _ _ _ _ E) in Hb. injection Hb as <-. destruct (special_small c Es) as (Hs & He & _).
    assert (drop (S i) glob = c :: r) as E' by (replace (S i) with (i + length b!"\")%nat by (cbn; lia); by apply (drop_next _ b!"\")).
    assert (drop (S i) glob = wtf8_encode c ++ r) as E'' by (by rewrite encode_ascii).
    unfold get_unicode. cbn [andb negb Z.leb Z.eqb]. change ((92 <=? 127) && negb (92 =? 92)) with false. change (92 =? 92) with true. cbn iota.
    rewrite decide_False by (rewrite (Hlen ltac:(done)); cbn; lia). rewrite (drop_lookup _ _ _ _ E'). cbn [mbind option_bind]. rewrite He.
    rewrite (rune_at_ok _ _ c r Hc E''). cbn [mbind option_bind]. eexists _, _. split; [done|]. rewrite encode_ascii by done. cbn. lia.
  - rewrite Ee in E. rewrite (drop_lookup _ _ _ _ E) in Hb. injection Hb as <-. assert (b' <> #"\") as Hns by (intros ->; done).
    unfold get_unicode. destruct (Z.eqb_spec b' #"\"); [done|]. rewrite andb_true_r. destruct (Z.leb_spec b' 0x7F) as [Hle|Hgt].
    + eexists _, _. split; [do 2 f_equal; f_equal; f_equal; lia|]. unfold code_point in Hc. rewrite encode_ascii by lia. cbn. lia.
    + rewrite (rune_at_ok _ _ c r Hc) by (by rewrite Ee). cbn [mbind option_bind]. by eexists _, _.
Qed.

Definition in_items (items : list (Z * Z)) (c : Z) : bool := existsb (fun '(low, high) => (low <=? c) && (c <=? high)) items.

Definition items_ok (items : list (Z * Z)) : Prop := Forall (fun '(low, high) => code_point low /\ code_point high) items.

Lemma print_char_front c : code_point c -> exists b r, print_char c = b :: r /\ b <> #"-" /\ b <> #"]" /\ b <> #"!" /\ b <> #"^".
Proof.
  intros Hc. destruct (print_char_head c Hc) as [[_ ->]|(_ & b & r & -> & -> & Eb & _)]; eexists _, _; (split; [done|]); [done|].
  repeat split; intros ->; done.
Qed.

(** A round of the class loop reads a range. *)
Lemma class_loop_item fuel glob c g first m low high r : code_point low -> code_point high ->
  drop g glob = print_item (low, high) ++ r -> r <> [] -> glob !! (g + length (print_item (low, high)))%nat <> Some #"-" ->
  class_loop (S fuel) glob c g first m =
  class_loop fuel glob c (g + length (print_item (low, high))) false (m || ((low <=? c) && (c <=? high))).
Proof.
  intros Hl Hh E Hr Hdash. destruct (print_char_front low Hl) as (b & t & Eb & B1 & B2 & _).
  assert (exists r0, drop g glob = print_char low ++ r0) as [r0 E0].
  { unfold print_item in E. destruct (low =? high); [by exists r|]. exists (#"-" :: print_char high ++ r). by rewrite E, <- app_assoc. }
  pose proof (drop_len _ _ _ E0) as Hlen. rewrite Eb in Hlen.
  assert (glob !! g = Some b) as Hb by (apply (drop_lookup _ _ _ (t ++ r0)); by rewrite E0, Eb).
  cbn [class_loop]. rewrite decide_True by (rewrite Hlen by done; cbn; lia). rewrite Hb. cbn [mbind option_bind].
  rewrite (proj2 (Z.eqb_neq b #"]")) by done. cbn [negb]. rewrite orb_true_r.
  destruct (get_unicode_print glob g low r0 b Hl E0 Hb) as (n & j & -> & Hj). cbn [mbind option_bind]. rewrite Hj. clear Hj n j.
  unfold print_item in *. destruct (Z.eqb_spec low high) as [<-|Hne].
  - rewrite (bool_decide_false (_ = Some #"-")) by done. rewrite andb_false_r. cbn [andb mbind option_bind]. done.
  - rewrite <- app_assoc in E. destruct (print_char_front high Hh) as (b' & t' & Eb' & B1' & B2' & _).
    pose proof (drop_next _ _ _ _ E) as E1. cbn [app] in E1.
    assert (drop (S (g + length (print_char low))) glob = print_char high ++ r) as E2.
    { replace (S (g + length (print_char low))) with (g + length (print_char low) + length b!"-")%nat by (cbn; lia). by apply (drop_next _ b!"-"). }
    pose proof (drop_len _ _ _ E2) as Hlen2. rewrite Eb' in Hlen2.
    assert (glob !! S (g + length (print_char low)) = Some b') as Hb' by (apply (drop_lookup _ _ _ (t' ++ r)); by rewrite E2, Eb').
    rewrite bool_decide_true by (rewrite Hlen2 by done; cbn; lia). rewrite (drop_lookup _ _ _ _ E1).
    rewrite bool_decide_true by done. rewrite Hb', (bool_decide_false (Some b' = _)) by congruence. cbn [andb negb mbind option_bind].
    destruct (get_unicode_print glob _ high r b' Hh E2 Hb') as (n & j & -> & Hj). cbn [mbind option_bind]. rewrite Hj.
    f_equal. rewrite length_app. cbn. lia.
Qed.

Lemma class_loop_ok_items items glob c r : items_ok items -> forall fuel g first m,
  drop g glob = (items ≫= print_item) ++ #"]" :: r -> (first = true -> items <> []) -> (length items <= fuel)%nat ->
  class_loop fuel glob c g first m = Some (Some ((g + length (items ≫= print_item))%nat, m || in_items items c)).
Proof.
  induction 1 as [|[low high] items [Hl Hh] Hitems IH]; intros fuel g first m E Hfirst Hfuel.
  - cbn in E. pose proof (drop_len _ _ _ E ltac:(done)) as Hlen. assert (first = false) as -> by (destruct first; [by destruct Hfirst|done]).
    destruct fuel; cbn [class_loop]; rewrite decide_True by (rewrite Hlen; cbn; lia); rewrite (drop_lookup _ _ _ _ E); cbn [mbind option_bind];
      change (negb (#"]" =? #"]")) with false; cbn [orb]; by rewrite orb_false_r, Nat.add_0_r.
  - destruct fuel as [|fuel]; [cbn in Hfuel; lia|]. cbn [mbind list_bind] in E. rewrite <- app_assoc in E.
    rewrite (class_loop_item fuel glob c g first m low high ((items ≫= print_item) ++ #"]" :: r)); try done.
    + rewrite (IH _ _ false); [|by apply drop_next|done|cbn in Hfuel; lia]. cbn [mbind list_bind]. rewrite length_app. cbn [in_items existsb].
      by rewrite Nat.add_assoc, orb_assoc.
    + by destruct (items ≫= print_item).
    + pose proof (drop_next _ _ _ _ E) as E1. intros Hd. destruct items as [|[l h] items]; [by rewrite (drop_lookup _ _ _ _ E1) in Hd|].
      apply Forall_cons in Hitems as [[Hl' _] _]. destruct (print_char_front l Hl') as (b & t & Eb & B & _).
      assert (exists t', print_item (l, h) = b :: t') as [t' Et'] by (unfold print_item; rewrite Eb; destruct (l =? h); by eexists).
      cbn [mbind list_bind] in E1. rewrite Et' in E1. rewrite (drop_lookup _ _ _ _ E1) in Hd. congruence.
Qed.

Lemma items_length items : items_ok items -> (length items <= length (items ≫= print_item))%nat.
Proof.
  induction 1 as [|[l h] items [Hl _] _ IH]; [done|]. cbn [mbind list_bind]. rewrite length_app. cbn [length].
  destruct (print_char_front l Hl) as (b & t & Eb & _). assert (1 <= length (print_item (l, h)))%nat; [|lia].
  unfold print_item. rewrite Eb. destruct (l =? h); cbn; lia.
Qed.

(** * Arms *)

Definition char_ok (windows : bool) (c : Z) : Prop := code_point c /\ (c = #"/" \/ is_separator windows c = false).

Lemma encode_first c : code_point c -> exists b t, wtf8_encode c = b :: t /\ wtf8_byte_sequence_length b = length (wtf8_encode c) /\
  (0 <= c < 0x80 /\ b = c /\ t = [] \/ 0x80 <= c /\ 0x80 <= b /\ (1 < length (wtf8_encode c))%nat).
Proof.
  intros Hc. destruct (wtf8_length_encode c Hc) as (b & t & E & L). exists b, t. split; [done|]. split; [done|].
  destruct (decide (c < 0x80)) as [Hl|Hl].
  - left. unfold code_point in Hc. rewrite encode_ascii in E by lia. injection E as <- <-. split; [lia|done].
  - right. destruct (encode_high c Hc ltac:(lia)) as (b' & r & E' & Hb). rewrite E in E'. injection E' as <- <-. split; [lia|]. split; [lia|].
    unfold wtf8_encode. rewrite (proj2 (Z.ltb_ge c 0x80)) by lia. repeat case_match; cbn; lia.
Qed.

Lemma sep_front windows c b t : char_ok windows c -> wtf8_encode c = b :: t -> is_separator windows b = (c =? #"/").
Proof.
  intros [Hc Hs] E. destruct (encode_first c Hc) as (b' & t' & E' & _ & Hcase). rewrite E in E'. injection E' as <- <-.
  destruct Hcase as [(Hl & -> & _)|(Hl & Hb & _)].
  - destruct (Z.eqb_spec c #"/") as [->|Hne]; [done|]. by destruct Hs.
  - rewrite (proj2 (Z.eqb_neq c #"/")) by lia. unfold is_separator, is_sep_native.
    rewrite (proj2 (Z.eqb_neq b #"/")), (proj2 (Z.eqb_neq b #"\")) by lia. by rewrite andb_false_r.
Qed.

Section Arms.
Context (windows : bool) (glob path : bytes) (st : State).

Notation g := (glob_index st).
Notation p := (path_index st).

Definition falls (a : option Arm) : Prop := exists st1, a = Some (Fallthrough st1) /\ stays st st1.

(** The outcome of the pattern of a character. *)
Definition char_outcome (a : option Arm) (accepts : Z -> bool) (n : nat) (s : list Z) : Prop :=
  match s with
  | x :: _ =>
    if accepts x && negb (x =? #"/") then a = Some (Continue (at_index st (p + length (wtf8_encode x)) (g + n) (brace_depth st))) else falls a
  | [] => falls a
  end.

Lemma path_end : drop p path = [] -> (length path <= p)%nat.
Proof. intros H. pose proof (f_equal length H) as E. rewrite length_drop in E. cbn in E. lia. Qed.

Lemma path_char x s : code_point x -> drop p path = wtf8 (x :: s) -> exists b t, wtf8_encode x = b :: t /\ path !! p = Some b /\
  (p < length path)%nat /\ (length path = p + length (wtf8_encode x) + length (wtf8 s))%nat.
Proof.
  intros Hx E. rewrite wtf8_cons in E. destruct (encode_first x Hx) as (b & t & Ex & _). exists b, t. split; [done|].
  rewrite Ex in E. split; [by apply (drop_lookup _ _ _ _ E)|]. pose proof (drop_len _ _ _ E ltac:(done)) as H. rewrite H, Ex.
  cbn. rewrite length_app. lia.
Qed.

Lemma else_lit c r s : tok_ok (TLit c) -> Forall (char_ok windows) s ->
  drop g glob = print_char c ++ r -> drop p path = wtf8 s ->
  forall ch, glob !! g = Some ch -> char_outcome (else_arm windows glob path ch st) (fun x => x =? c) (length (print_char c)) s.
Proof.
  intros [Hc Hcs] Hs Eg Ep ch Hch. unfold else_arm. destruct s as [|x s].
  { apply path_end in Ep. rewrite decide_False by lia. by exists st. }
  apply Forall_cons in Hs as [Hx _]. destruct (path_char x s (proj1 Hx) Ep) as (bx & tx & Ex & Hp & Hlt & Hlen). rewrite decide_True by done.
  destruct (encode_first c Hc) as (b & t & Ec & Lc & Hcase). pose proof (drop_len _ _ _ Eg) as HG.
  assert (exists gi, unescape ch glob g = Some (Some (b, gi)) /\ drop gi glob = wtf8_encode c ++ r /\ (gi + length (wtf8_encode c) = g + length (print_char c))%nat)
    as (gi & -> & Egi & Hgi).
  { unfold unescape. destruct (print_char_head c Hc) as [[Es Ep']|(Es & b' & r' & Ep' & Ee & Eb & _)]; rewrite Ep' in *.
    - rewrite (drop_lookup _ _ _ _ Eg) in Hch. injection Hch as <-. rewrite Z.eqb_refl. destruct (special_small c Es) as (Hsm & He & _).
      assert (drop (S g) glob = c :: r) as E' by (replace (S g) with (g + length b!"\")%nat by (cbn; lia); by apply (drop_next _ b!"\")).
      rewrite decide_False by (rewrite (HG ltac:(done)); cbn; lia). rewrite (drop_lookup _ _ _ _ E'). cbn [mbind option_bind]. rewrite He.
      rewrite encode_ascii in Ec |- * by done. injection Ec as <- <-. exists (S g). split; [done|]. split; [done|]. cbn. lia.
    - rewrite Ec in Ee. injection Ee as <- <-. rewrite Ec in Eg. rewrite (drop_lookup _ _ _ _ Eg) in Hch. injection Hch as <-.
      destruct (Z.eqb_spec b #"\") as [->|]; [done|]. exists g. split; [done|]. by rewrite Ec. }
  cbn [mbind option_bind path_index at_index]. rewrite Hp, Lc. cbn [mbind option_bind].
  assert (b <> #"/") as Hbs by (destruct Hcase as [(_ & -> & _)|?]; lia || done). rewrite (proj2 (Z.eqb_neq b #"/")) by done.
  match goal with |- context [if ?m then Some (Continue _) else _] => assert (m = (x =? c)) as -> end.
  { destruct (decide (1 < length (wtf8_encode c))%nat) as [H1|H1].
    - destruct (Z.eqb_spec x c) as [->|Hne].
      + rewrite !bool_decide_true; [done| | |].
        * rewrite Ep, Egi, wtf8_cons, !take_app_length. done.
        * pose proof (drop_len _ _ _ Egi) as H. rewrite H by (by rewrite Ec). rewrite length_app. lia.
        * lia.
      + rewrite (bool_decide_false (take _ _ = _)); [apply andb_false_r|]. rewrite Ep, Egi, wtf8_cons, take_app_length. intros E.
        apply Hne. apply (encode_inj_app x c (wtf8 s) (drop (length (wtf8_encode c)) (wtf8_encode x ++ wtf8 s))); [apply Hx|done|].
        rewrite <- (take_drop (length (wtf8_encode c)) (wtf8_encode x ++ wtf8 s)) at 1. by rewrite E.
    - destruct Hcase as [(Hl & -> & _)|(_ & _ & ?)]; [|lia]. destruct (encode_first x (proj1 Hx)) as (b' & t' & Ex' & _ & Hxcase).
      rewrite Ex in Ex'. injection Ex' as <- <-. destruct Hxcase as [(_ & -> & _)|(Hx1 & Hx2 & _)]; [done|].
      rewrite (proj2 (Z.eqb_neq bx c)), (proj2 (Z.eqb_neq x c)) by lia. done. }
  unfold char_outcome. destruct (Z.eqb_spec x c) as [->|Hne].
  - rewrite (proj2 (Z.eqb_neq c #"/")) by done. cbn [andb negb]. do 3 f_equal. cbn. rewrite <- Hgi. done.
  - cbn [andb]. eexists. split; [done|]. done.
Qed.

Lemma else_falls ch : drop p path = [] -> falls (else_arm windows glob path ch st).
Proof. intros H%path_end. unfold else_arm. rewrite decide_False by lia. by exists st. Qed.

Lemma any_char s : Forall (char_ok windows) s -> drop p path = wtf8 s ->
  match s with
  | [] => question_arm windows path st = Some ToElse
  | _ => char_outcome (question_arm windows path st) (fun _ => true) 1 s
  end.
Proof.
  intros Hs Ep. unfold question_arm. destruct s as [|x s]; [apply path_end in Ep; by rewrite decide_False by lia|].
  apply Forall_cons in Hs as [Hx _]. destruct (path_char x s (proj1 Hx) Ep) as (b & t & Ex & Hp & Hlt & _). rewrite decide_True by done.
  rewrite Hp. cbn [mbind option_bind]. rewrite (sep_front windows x b t Hx Ex). unfold char_outcome.
  destruct (encode_first x (proj1 Hx)) as (b' & t' & E' & L & _). rewrite Ex in E'. injection E' as <- <-. rewrite L.
  destruct (x =? #"/"); cbn [andb negb]; [by exists st|]. do 3 f_equal. lia.
Qed.

Lemma class_char negated items r s : tok_ok (TClass negated items) -> Forall (char_ok windows) s ->
  drop g glob = print_tok (TClass negated items) ++ r -> drop p path = wtf8 s ->
  match s with
  | [] => class_arm glob path st = Some ToElse
  | _ => char_outcome (class_arm glob path st) (class_match negated items) (length (print_tok (TClass negated items))) s
  end.
Proof.
  intros (Hne & Hitems & Hsep) Hs Eg Ep. unfold class_arm. destruct s as [|x s]; [apply path_end in Ep; by rewrite decide_False by lia|].
  apply Forall_cons in Hs as [Hx _]. destruct (path_char x s (proj1 Hx) Ep) as (b & t & Ex & Hp & Hlt & _). rewrite decide_True by done.
  rewrite (rune_at_ok path p x (wtf8 s) (proj1 Hx)) by (by rewrite Ep). cbn [mbind option_bind print_tok] in *.
  set (body := (items ≫= print_item) ++ #"]" :: r). rewrite <- !app_assoc in Eg.
  assert (drop (S g) glob = (if negated then b!"!" else []) ++ body) as E1.
  { replace (S g) with (g + length b!"[")%nat by (cbn; lia). by apply (drop_next _ b!"["). }
  assert (exists b0 t0, body = b0 :: t0 /\ b0 <> #"!" /\ b0 <> #"^") as (b0 & t0 & Eb & B1 & B2).
  { unfold body. destruct items as [|[low high] items]; [done|]. apply Forall_cons in Hitems as [[Hl _] _].
    destruct (print_char_front low Hl) as (b0 & t0 & E0 & _ & _ & B1 & B2). cbn [mbind list_bind]. unfold print_item. rewrite E0.
    destruct (low =? high); eexists _, _; (split; [done|done]). }
  assert (bool_decide (glob !! S g = Some #"^") || bool_decide (glob !! S g = Some #"!") = negated) as Hneg.
  { destruct negated; [by rewrite (drop_lookup _ _ _ _ E1)|]. rewrite Eb in E1. rewrite (drop_lookup _ _ _ _ E1).
    rewrite !bool_decide_false by congruence. done. }
  cbv zeta. rewrite Hneg.
  assert (drop (if negated then S (S g) else S g) glob = body) as E2.
  { destruct negated; [|done]. replace (S (S g)) with (S g + length b!"!")%nat by (cbn; lia). by apply (drop_next _ b!"!"). }
  pose proof (items_length items Hitems) as Hil.
  pose proof (drop_len _ _ _ E2 ltac:(by rewrite Eb)) as Hlen. unfold body in Hlen. rewrite length_app in Hlen. cbn [length] in Hlen.
  rewrite (class_loop_ok_items items glob x r Hitems _ _ _ _ E2) by (done || lia). cbn [mbind option_bind orb].
  rewrite decide_False by lia. unfold char_outcome, class_match.
  assert (S ((if negated then S (S g) else S g) + length (items ≫= print_item)) =
    g + length (b!"[" ++ (if negated then b!"!" else []) ++ (items ≫= print_item) ++ b!"]"))%nat as ->.
  { rewrite !length_app. destruct negated; cbn [length]; lia. }
  rewrite (xorb_comm negated). destruct (Z.eqb_spec x #"/") as [->|Hxs].
  - unfold class_match in Hsep. rewrite xorb_comm in Hsep. unfold in_items. rewrite Hsep, andb_false_r. by eexists.
  - rewrite andb_true_r. unfold in_items. destruct (xorb _ _); [done|by eexists].
Qed.

Lemma arm_char t r s : tok_ok t -> t <> TStar -> Forall (char_ok windows) s ->
  drop g glob = print_tok t ++ r -> drop p path = wtf8 s ->
  char_outcome (arm windows glob path 0 [] st) (tok_match t) (length (print_tok t)) s.
Proof.
  intros Ht Hns Hs Eg Ep.
  assert (exists ch t', print_tok t = ch :: t') as (ch & t' & Et) by (destruct t as [c| | |negated items]; cbn [print_tok];
    [destruct Ht as [Hc _]; destruct (print_char_front c Hc) as (b & t' & -> & _)| | |]; by eexists _, _).
  assert (glob !! g = Some ch) as Hch by (apply (drop_lookup _ _ _ (t' ++ r)); by rewrite Eg, Et).
  unfold arm. rewrite decide_True by (by apply lookup_lt_Some in Hch). rewrite Hch. cbn [mbind option_bind].
  destruct t as [c| | |negated items]; cbn [print_tok] in Et; [|..].
  - pose proof (else_lit c r s Ht Hs Eg Ep ch Hch) as He. destruct Ht as [Hc _].
    assert (forallb (fun x => negb (ch =? x)) b!"*?[{,}" = true) as Hd.
    { destruct (print_char_head c Hc) as [[_ E]|(_ & b & r' & E & E' & Eb & _)]; rewrite E in Et.
      - by injection Et as <- _.
      - rewrite E' in Et. injection Et as <- _. unfold special in Eb. cbn [existsb] in Eb. rewrite !orb_false_iff in Eb. cbn [forallb].
        rewrite !andb_true_iff, !negb_true_iff. tauto. }
    cbn [forallb] in Hd. rewrite !andb_true_iff, !negb_true_iff in Hd. destruct Hd as (-> & -> & -> & -> & -> & -> & _).
    cbn [orb mbind option_bind]. exact He.
  - injection Et as <- <-. cbn -[question_arm else_arm]. pose proof (any_char s Hs Ep) as Ha. destruct s as [|x s].
    + rewrite Ha. cbn [mbind option_bind]. by apply else_falls.
    + unfold char_outcome in *. cbn [tok_match]. destruct (_ && _); [by rewrite Ha|]. destruct Ha as (st1 & -> & H). by exists st1.
  - done.
  - injection Et as <- _. cbn -[class_arm else_arm print_tok]. pose proof (class_char negated items r s Ht Hs Eg Ep) as Ha. destruct s as [|x s].
    + rewrite Ha. cbn [mbind option_bind]. by apply else_falls.
    + unfold char_outcome in *. cbn [tok_match]. destruct (_ && _); [by rewrite Ha|]. destruct Ha as (st1 & -> & H). by exists st1.
Qed.

Lemma arm_sep r s : Forall (char_ok windows) s -> drop g glob = #"/" :: r -> drop p path = wtf8 s ->
  match s with
  | x :: _ =>
    if x =? #"/" then
      arm windows glob path 0 [] st = Some (Continue (with_wildcards (at_index st (p + 1) (g + 1) (brace_depth st)) (globstar st) (globstar st)))
    else falls (arm windows glob path 0 [] st)
  | [] => falls (arm windows glob path 0 [] st)
  end.
Proof.
  intros Hs Eg Ep. pose proof (drop_lookup _ _ _ _ Eg) as Hch. unfold arm. rewrite decide_True by (by apply lookup_lt_Some in Hch).
  rewrite Hch. cbn -[else_arm]. destruct s as [|x s]; [by apply else_falls|]. apply Forall_cons in Hs as [Hx _].
  destruct (path_char x s (proj1 Hx) Ep) as (b & t & Ex & Hp & Hlt & _). unfold else_arm. rewrite decide_True by done.
  change (unescape #"/" glob g) with (Some (Some (#"/", g))). cbn [mbind option_bind]. rewrite Hp. cbn [mbind option_bind].
  change (#"/" =? #"/") with true. rewrite (sep_front windows x b t Hx Ex). destruct (x =? #"/"); [done|by eexists].
Qed.

Lemma arm_star r s : Forall (char_ok windows) s -> drop g glob = #"*" :: r -> head r <> Some #"*" -> drop p path = wtf8 s ->
  let w n := {| w_glob_index := g; w_path_index := (p + n)%nat; w_brace_depth := brace_depth st |} in
  let next w := with_wildcards (at_index st p (g + 1) (brace_depth st)) w (globstar st) in
  arm windows glob path 0 [] st =
  Some (Continue match s with
                 | x :: _ => if x =? #"/" then next (globstar st) else next (w (length (wtf8_encode x)))
                 | [] => next (w 1%nat)
                 end).
Proof.
  intros Hs Eg Hr Ep. pose proof (drop_lookup _ _ _ _ Eg) as Hch. unfold arm. rewrite decide_True by (by apply lookup_lt_Some in Hch).
  rewrite Hch. cbn -[star_arm]. unfold star_arm.
  assert (glob !! S g <> Some #"*") as Hns.
  { intros H. apply Hr. replace (S g) with (g + 1)%nat in H by lia. rewrite <- lookup_drop, Eg in H. by destruct r. }
  rewrite bool_decide_false by done. destruct s as [|x s].
  - apply path_end in Ep. rewrite decide_False by lia. cbn [mbind option_bind]. rewrite bool_decide_false by lia. done.
  - apply Forall_cons in Hs as [Hx _]. destruct (path_char x s (proj1 Hx) Ep) as (b & t & Ex & Hp & Hlt & _). rewrite decide_True by done.
    rewrite Hp. cbn [fmap option_fmap option_map mbind option_bind]. rewrite bool_decide_true by done. cbn [andb].
    rewrite (sep_front windows x b t Hx Ex). destruct (encode_first x (proj1 Hx)) as (b' & t' & E' & L & _). rewrite Ex in E'.
    injection E' as <- <-. rewrite L. by destruct (x =? #"/").
Qed.

Lemma arm_end : (length glob <= g)%nat -> falls (arm windows glob path 0 [] st).
Proof. intros H. unfold arm. rewrite decide_False by lia. by exists st. Qed.

End Arms.
