(* ===== verification/GlobCorrect.v ===== *)
(** The matcher decides the reference: positions in the text of a pattern and
    of a path, the globstar's arm, the invariant that ties the two points to
    go back to with the answers still possible, and the property. *)
From S2P Require Import Prelude Wtf8 Glob GlobTotal GlobSpec GlobArms.

(** * Well-formed flat patterns *)

(** What may follow what; the first token has no predecessor. *)
Definition follows (prev : option ftok) (t : ftok) : Prop :=
  (prev = Some FGlob -> t = FSep) /\
  match t with
  | FTok t => tok_ok t /\ (t = TStar -> prev <> Some (FTok TStar))
  | FSep => True
  | FGlob => prev = None \/ prev = Some FSep
  end.

Fixpoint wf (prev : option ftok) (ts : list ftok) : Prop :=
  match ts with
  | [] => True
  | t :: ts => follows prev t /\ wf (Some t) ts
  end.

Definition last_or (prev : option ftok) (ts : list ftok) : option ftok := match last ts with Some t => Some t | None => prev end.

Lemma last_or_snoc prev a t : last_or prev (a ++ [t]) = Some t.
Proof. unfold last_or. by rewrite last_snoc. Qed.

Lemma last_or_app prev a b : last_or prev (a ++ b) = last_or (last_or prev a) b.
Proof. unfold last_or. rewrite last_app. by destruct (last b). Qed.

Lemma wf_app prev a b : wf prev (a ++ b) <-> wf prev a /\ wf (last_or prev a) b.
Proof.
  revert prev. induction a as [|t a IH]; intros prev; [cbn; tauto|]. cbn [app wf]. rewrite IH.
  replace (last_or prev (t :: a)) with (last_or (Some t) a); [tauto|]. unfold last_or. rewrite last_cons. by destruct (last a).
Qed.

Lemma wf_name ts prev : Forall tok_ok ts -> no_stars_adjacent ts -> prev <> Some FGlob -> prev <> Some (FTok TStar) -> wf prev (FTok <$> ts).
Proof.
  intros Hall. revert prev. induction Hall as [|t ts Ht Hall IH]; intros prev Ha H1 H2; [done|]. cbn [fmap list_fmap wf]. split; [by split|].
  destruct (decide (t = TStar)) as [->|Hns].
  - destruct ts as [|t' ts]; [done|]. apply Forall_cons in Hall as [Ht' Hall]. cbn [fmap list_fmap wf] in *.
    destruct t'; try done. all: apply (IH (Some FSep)) in Ha as [Hf Hw]; [|done|done]; split; [|done]; destruct Hf as [_ Hf]; split; [done|]; split; [apply Hf|done].
  - apply IH; [by destruct t|done|congruence].
Qed.

Lemma wf_flat segs prev : Forall segment_ok segs -> prev = None \/ prev = Some FSep -> wf prev (flat segs).
Proof.
  intros Hall. revert prev. induction Hall as [|s segs Hs Hall IH]; intros prev Hp; [done|].
  assert (wf prev (flat_segment s)) as Hw.
  { destruct s as [ts|]; [apply wf_name; [apply Hs|apply Hs|by destruct Hp as [->| ->]..]|]. cbn. split; [|done]. split; [by destruct Hp as [->| ->]|done]. }
  destruct segs as [|s' segs]; [done|]. rewrite flat_cons, wf_app. split; [done|]. split; [split; [done|done]|]. apply IH. by right.
Qed.

(** No byte of a name is a separator. *)
Lemma name_bytes windows n : Forall (char_ok windows) n -> slash_free n -> Forall (fun b => negb (is_separator windows b) = true) (wtf8 n).
Proof.
  intros Hn Hs. induction Hn as [|c n [Hc Hsep] _ IH]; [constructor|]. apply Forall_cons in Hs as [Hcs Hs]. rewrite wtf8_cons, Forall_app.
  split; [|by apply IH]. destruct Hsep as [|Hsep]; [done|]. unfold wtf8_encode. unfold code_point in Hc.
  assert (forall b, 0x80 <= b -> negb (is_separator windows b) = true) as Hhigh.
  { intros b Hb. unfold is_separator, is_sep_native. rewrite (proj2 (Z.eqb_neq b #"/")), (proj2 (Z.eqb_neq b #"\")) by lia. by destruct windows. }
  destruct (Z.ltb_spec c 0x80); [apply Forall_singleton; by rewrite Hsep|].
  repeat case_match; repeat (apply Forall_cons; split); try constructor; apply Hhigh; Z.div_mod_to_equations; lia.
Qed.

(** A loop whose rounds keep an invariant ends as they do. *)
Lemma run_partial {A B} (step : A -> option (A + B)) (Inv : A -> Prop) (Post : B -> Prop) :
  (forall a r, Inv a -> step a = Some r -> match r with inl a' => Inv a' | inr b => Post b end) ->
  forall n a r, Inv a -> run n step a = Some r -> match r with inl a' => Inv a' | inr b => Post b end.
Proof.
  intros Hstep. induction n as [|n IH]; intros a r Ha H; cbn [run] in H; [by eapply Hstep|].
  destruct (run n step a) as [[a'|b]|] eqn:E; cbn [mbind option_bind] in H; [|injection H as <-|done]; pose proof (IH a _ Ha E) as H'; [exact (IH a' r H' H)|done].
Qed.

Section Correct.
Context (windows : bool) (bangs : nat) (T : list ftok) (C : list Z).

Definition glob_ : bytes := replicate bangs #"!" ++ pf T.
Definition path_ : bytes := wtf8 C.

Hypothesis HT : wf None T.
Hypothesis HB : bangs = 0%nat \/ head T <> Some FGlob.
Hypothesis HC : Forall (char_ok windows) C.
Hypothesis HN : forall sp s, C = sp ++ s -> seg_start sp -> s <> [].

(** * Positions *)

Definition gi (tp : list ftok) : nat := bangs + length (pf tp).
Definition pi (sp : list Z) : nat := length (wtf8 sp).

Lemma gi_app a b : gi (a ++ b) = (gi a + length (pf b))%nat.
Proof. unfold gi. rewrite pf_app, length_app. lia. Qed.

Lemma pi_app a b : pi (a ++ b) = (pi a + length (wtf8 b))%nat.
Proof. unfold pi. by rewrite wtf8_app, length_app. Qed.

Lemma drop_glob tp ts : T = tp ++ ts -> drop (gi tp) glob_ = pf ts.
Proof.
  intros E. unfold glob_, gi. rewrite E, pf_app, app_assoc. rewrite <- (length_replicate bangs #"!") at 1.
  by rewrite <- length_app, drop_app_length.
Qed.

Lemma drop_path sp s : C = sp ++ s -> drop (pi sp) path_ = wtf8 s.
Proof. intros E. unfold path_, pi. by rewrite E, wtf8_app, drop_app_length. Qed.

Lemma chars_ok sp s : C = sp ++ s -> Forall (char_ok windows) s.
Proof. intros E. rewrite E, Forall_app in HC. tauto. Qed.

Lemma print_ftok_ne t : print_ftok t <> [].
Proof.
  destruct t as [[c| | |negated items]| |]; cbn; try done. unfold print_char. pose proof (encode_ne c). by destruct (special c).
Qed.

(** A prefix is known from its length. *)
Lemma prefix_inj {A} (f : A -> bytes) (Hf : forall x, f x <> []) (a b a' b' : list A) :
  a ++ b = a' ++ b' -> length (a ≫= f) = length (a' ≫= f) -> a = a'.
Proof.
  revert a'. induction a as [|x a IH]; intros [|x' a'] E H; cbn in E; [done| | |].
  - exfalso. cbn [mbind list_bind] in H. rewrite length_app in H. specialize (Hf x'). destruct (f x'); [done|cbn in H; lia].
  - exfalso. cbn [mbind list_bind] in H. rewrite length_app in H. specialize (Hf x). destruct (f x); [done|cbn in H; lia].
  - injection E as <- E. cbn [mbind list_bind] in H. rewrite !length_app in H. f_equal. apply IH; [done|lia].
Qed.

Lemma gi_inj tp ts tp' ts' : T = tp ++ ts -> T = tp' ++ ts' -> gi tp = gi tp' -> tp = tp' /\ ts = ts'.
Proof.
  intros E E' H. assert (tp = tp') as <-; [|split; [done|]; rewrite E in E'; by apply app_inv_head in E'].
  apply (prefix_inj print_ftok print_ftok_ne tp ts tp' ts'); [by rewrite <- E, <- E'|]. unfold gi, pf in H. lia.
Qed.

Lemma pi_inj sp s sp' s' : C = sp ++ s -> C = sp' ++ s' -> pi sp = pi sp' -> sp = sp' /\ s = s'.
Proof.
  intros E E' H. assert (sp = sp') as <-; [|split; [done|]; rewrite E in E'; by apply app_inv_head in E'].
  apply (prefix_inj wtf8_encode encode_ne sp s sp' s'); [by rewrite <- E, <- E'|done].
Qed.

Lemma length_glob tp ts : T = tp ++ ts -> length glob_ = (gi tp + length (pf ts))%nat.
Proof. intros E. unfold glob_, gi. rewrite E, pf_app, !length_app, length_replicate. lia. Qed.

Lemma length_path sp s : C = sp ++ s -> length path_ = (pi sp + length (wtf8 s))%nat.
Proof. intros E. unfold path_, pi. by rewrite E, wtf8_app, length_app. Qed.

(** The first byte of a token. *)
Lemma front_star p ts r : wf p ts -> pf ts = #"*" :: r ->
  exists ts', ts = FTok TStar :: ts' /\ pf ts' = r \/ ts = FGlob :: ts' /\ #"*" :: pf ts' = r.
Proof.
  intros Hw E. destruct ts as [|t ts]; [done|]. rewrite pf_cons in E. exists ts.
  destruct t as [[c| | |negated items]| |]; cbn in E; try (by injection E).
  - exfalso. assert (code_point c) as Hc by (destruct Hw as [[_ [[? _] _]] _]; done).
    destruct (print_char_head c Hc) as [[_ Ep]|(_ & b & r' & Ep & Ee & Eb & _)]; rewrite Ep in E; [by injection E|].
    rewrite Ee in E. injection E as -> _. done.
  - left. by injection E as ->.
  - right. by injection E as <-.
Qed.


(** * Globstars *)

Lemma after_glob tp post : T = tp ++ FGlob :: post -> ends_sep tp /\ (post = [] \/ exists r, post = FSep :: r).
Proof.
  intros E. rewrite E, wf_app in HT. destruct HT as (_ & [_ Hf] & Hw). split.
  - destruct Hf as [H|H]; [left|right]; unfold last_or in H; destruct (last tp) eqn:El; try done. by apply last_None in El.
  - destruct post as [|t r]; [by left|right]. destruct Hw as [[Ht _] _]. rewrite Ht by done. eauto.
Qed.

Lemma skip_chain fuel : forall tp post, T = tp ++ FGlob :: post -> (length glob_ <= gi tp + fuel)%nat ->
  exists tp' post', T = tp' ++ FGlob :: post' /\ skip_globstars_loop fuel glob_ (gi tp + 2) = (gi tp' + 2)%nat /\
    (forall s, fmatch (FGlob :: post) s <-> fmatch (FGlob :: post') s).
Proof.
  induction fuel as [|fuel IH]; intros tp post E Hf; [exists tp, post; done|]. cbn [skip_globstars_loop].
  destruct (decide (gi tp + 2 + 4 <= length glob_)%nat); [|exists tp, post; done].
  destruct (text_at glob_ (gi tp + 2) b!"/**/") eqn:Et; [|exists tp, post; done].
  unfold text_at in Et. apply bool_decide_eq_true in Et.
  assert (drop (gi tp + 2) glob_ = pf post) as Ed.
  { pose proof (drop_glob tp _ E) as Ed. rewrite pf_cons in Ed. by apply drop_next in Ed. }
  rewrite Ed in Et. destruct (after_glob tp post E) as [Hsep [->|[r ->]]]; [done|]. rewrite pf_cons in Et. injection Et as Et.
  assert (T = (tp ++ [FGlob; FSep]) ++ r) as E' by (by rewrite <- app_assoc).
  assert (wf (Some FSep) r) as Hw by (rewrite E', wf_app, last_or_app in HT; apply HT).
  destruct (pf r) as [|b1 r1] eqn:E1; [done|]. cbn [take] in Et. injection Et as -> Et.
  destruct (front_star _ r r1 Hw E1) as [r2 [[-> E2]|[-> E2]]].
  - exfalso. rewrite <- E2 in Et. destruct (pf r2) as [|b2 r3] eqn:E3; [done|]. cbn [take] in Et. injection Et as -> _.
    destruct Hw as [_ Hw]. destruct (front_star _ r2 r3 Hw E3) as [r4 [[-> _]|[-> _]]]; destruct Hw as [[_ Hf2] _].
    + destruct Hf2 as [_ Hf2]. by apply Hf2.
    + by destruct Hf2.
  - destruct (after_glob (tp ++ [FGlob; FSep]) r2 E') as [_ [->|[r3 ->]]]; [by rewrite <- E2 in Et|].
    destruct (IH (tp ++ [FGlob; FSep]) (FSep :: r3) E') as (tp' & post' & E4 & E5 & Hm); [rewrite gi_app; cbn; lia|].
    exists tp', post'. split; [done|]. split; [rewrite <- E5, gi_app; cbn; f_equal; lia|]. intros s. rewrite <- Hm. split; [|apply fm_glob0].
    intros (v & z & -> & Hv & (v' & z' & -> & Hv' & Hz)%fm_glob_inv)%fm_glob_inv. rewrite app_assoc. apply fm_glob_app; [by apply seg_start_app|].
    by apply fm_glob0.
Qed.

Lemma skip_ok tp post : T = tp ++ FGlob :: post ->
  exists tp' post', T = tp' ++ FGlob :: post' /\ skip_globstars glob_ (gi tp) = gi tp' /\
    (forall s, fmatch (FGlob :: post) s <-> fmatch (FGlob :: post') s).
Proof.
  intros E. unfold skip_globstars. destruct (skip_chain (length glob_) tp post E ltac:(lia)) as (tp' & post' & E' & -> & Hm).
  destruct (decide (gi tp' + 2 + 3 = length glob_)%nat) as [Hl|]; [|exists tp', post'; split; [done|]; split; [lia|done]].
  destruct (text_at glob_ (gi tp' + 2) b!"/**") eqn:Et; [|exists tp', post'; split; [done|]; split; [lia|done]].
  unfold text_at in Et. apply bool_decide_eq_true in Et. pose proof (drop_glob tp' _ E') as Ed. rewrite pf_cons in Ed. apply drop_next in Ed.
  cbn [length print_ftok] in Ed. rewrite Ed in Et. pose proof (length_glob tp' _ E') as Hg. rewrite pf_cons, length_app in Hg. cbn [length print_ftok] in Hg.
  destruct (after_glob tp' post' E') as [Hsep [->|[r ->]]]; [done|]. rewrite pf_cons in Et, Hg. injection Et as Et. cbn [app length print_ftok] in Hg.
  assert (T = (tp' ++ [FGlob; FSep]) ++ r) as E2 by (by rewrite <- app_assoc).
  assert (wf (Some FSep) r) as Hw by (rewrite E2, wf_app, last_or_app in HT; apply HT).
  rewrite take_ge in Et by lia. destruct (front_star _ r _ Hw Et) as [r2 [[-> E3]|[-> E3]]].
  - exfalso. destruct Hw as [_ Hw]. destruct (front_star _ r2 _ Hw E3) as [r4 [[-> _]|[-> _]]]; destruct Hw as [[_ Hf2] _].
    + destruct Hf2 as [_ Hf2]. by apply Hf2.
    + by destruct Hf2.
  - injection E3 as E3. destruct r2 as [|t r2]; [|exfalso; rewrite pf_cons in E3; apply app_nil in E3 as [E3 _]; by apply print_ftok_ne in E3].
    exists (tp' ++ [FGlob; FSep]), []. split; [done|]. split; [rewrite gi_app; cbn; lia|]. intros s. rewrite Hm. split; intros _; [apply fm_glob_end|].
    apply fm_glob0, fm_glob_end.
Qed.


(** The end of a name. *)
Lemma skip_name sp s : C = sp ++ s ->
  (forall n r, s = n ++ #"/" :: r -> slash_free n -> skip_while (fun c => negb (is_separator windows c)) path_ (pi sp) = pi (sp ++ n)) /\
  (slash_free s -> skip_while (fun c => negb (is_separator windows c)) path_ (pi sp) = length path_).
Proof.
  intros E. pose proof (chars_ok sp s E) as Hs. unfold skip_while. rewrite (drop_path sp s E). split.
  - intros n r -> Hn. rewrite Forall_app in Hs. rewrite wtf8_app, prefix_len_app by (apply name_bytes; tauto).
    rewrite wtf8_cons, (encode_ascii #"/") by done. cbn [app]. rewrite prefix_len_stop_cons by done. rewrite pi_app. lia.
  - intros Hf. rewrite (length_path sp s E), <- (app_nil_r (wtf8 s)), prefix_len_app by (by apply name_bytes). rewrite app_nil_r. cbn. lia.
Qed.

Lemma length_pf_pos tp ts : T = tp ++ ts -> ts <> [] -> (gi tp < length glob_)%nat.
Proof.
  intros E Hts. rewrite (length_glob tp ts E). destruct ts as [|t ts]; [done|]. rewrite pf_cons, length_app. pose proof (print_ftok_ne t).
  destruct (print_ftok t); [done|cbn; lia].
Qed.

Lemma length_wtf8_pos sp s : C = sp ++ s -> s <> [] -> (pi sp < length path_)%nat.
Proof.
  intros E Hs. rewrite (length_path sp s E). destruct s as [|x s]; [done|]. rewrite wtf8_cons, length_app. pose proof (encode_ne x).
  destruct (wtf8_encode x); [done|cbn; lia].
Qed.

(** A globstar is a segment of the pattern: what the code looks at around it. *)
Lemma glob_segment tp post : T = tp ++ FGlob :: post ->
  (if decide (gi tp + 2 - 0 < 3)%nat then Some true else c ← glob_ !! (gi tp + 2 - 3)%nat; Some (c =? #"/")) = Some true.
Proof.
  intros E. destruct (after_glob tp post E) as [Hsep _]. destruct (decide (gi tp + 2 - 0 < 3)%nat) as [|Hge]; [done|]. destruct Hsep as [->|[tq ->]%last_Some].
  - exfalso. rewrite E in HB. destruct HB as [Hb|Hb]; [unfold gi in Hge; rewrite Hb in Hge; cbn in Hge; lia|done].
  - rewrite gi_app. cbn [pf mbind list_bind print_ftok app length]. replace (gi tq + 1 + 2 - 3)%nat with (gi tq) by lia.
    rewrite (drop_lookup glob_ (gi tq) #"/" (pf (FGlob :: post))); [done|]. apply (drop_glob tq (FSep :: FGlob :: post)). by rewrite E, <- app_assoc.
Qed.

Lemma glob_inner tp post : T = tp ++ FGlob :: post ->
  bool_decide (gi tp + 2 < length glob_)%nat = match post with [] => false | _ => true end /\
  (post <> [] -> glob_ !! (gi tp + 2)%nat = Some #"/").
Proof.
  intros E. pose proof (drop_glob tp _ E) as Ed. rewrite pf_cons in Ed. apply drop_next in Ed.
  pose proof (length_glob tp _ E) as HG. destruct (after_glob tp post E) as [_ [->|[r ->]]]; cbn [pf mbind list_bind print_ftok app length] in HG.
  - split; [apply bool_decide_eq_false; lia|done].
  - split; [apply bool_decide_eq_true; lia|]. intros _. by apply (drop_lookup _ _ _ _ Ed).
Qed.

Definition glob_next (post : list ftok) : list ftok := match post with [] => [FGlob] | _ => [FGlob; FSep] end.

Lemma arm_glob st tp post sp s : T = tp ++ FGlob :: post -> C = sp ++ s -> (s = [] -> post = []) ->
  glob_index st = gi tp -> path_index st = pi sp ->
  exists tp' post' st', T = tp' ++ FGlob :: post' /\ (forall z, fmatch (FGlob :: post) z <-> fmatch (FGlob :: post') z) /\
    arm windows glob_ path_ 0 [] st = Some (Continue st') /\ path_index st' = pi sp /\ glob_index st' = gi (tp' ++ glob_next post') /\
    brace_depth st' = brace_depth st /\ (post = [] -> post' = []) /\
    (s <> [] -> exists q, wildcard st' = globstar st' /\
      wildcard st' = {| w_glob_index := gi tp'; w_path_index := q; w_brace_depth := brace_depth st |} /\
      (forall n r, s = n ++ #"/" :: r -> slash_free n -> q = pi (sp ++ n ++ b!"/")) /\
      (slash_free s -> q = match post' with [] => length path_ | _ => S (length path_) end)).
Proof.
  intros E Ec Hend Hg Hp. destruct (skip_ok tp post E) as (tp' & post' & E' & Hskip & Hm). exists tp', post'.
  pose proof (drop_glob tp _ E) as Ed. rewrite pf_cons in Ed. pose proof (drop_glob tp' _ E') as Ed'. rewrite pf_cons in Ed'.
  pose proof (length_glob tp _ E) as HG. rewrite pf_cons, length_app in HG. cbn [length print_ftok] in HG.
  pose proof (length_glob tp' _ E') as HG'. rewrite pf_cons, length_app in HG'. cbn [length print_ftok] in HG'.
  assert (post = [] -> post' = []) as Hend'.
  { intros ->. assert (gi tp' = gi tp) as Hgi.
    { rewrite <- Hskip. unfold skip_globstars. cbn [pf length mbind list_bind] in HG. rewrite skip_loop_stop by lia. rewrite decide_False by lia. lia. }
    destruct (gi_inj tp' _ tp _ E' E Hgi) as [_ H]. by injection H. }
  assert (glob_ !! gi tp = Some #"*" /\ glob_ !! S (gi tp) = Some #"*") as [Hch Hch2].
  { split; [by apply (drop_lookup _ _ _ _ Ed)|]. replace (S (gi tp)) with (gi tp + 1)%nat by lia. by rewrite <- lookup_drop, Ed. }
  unfold arm. rewrite Hg, decide_True by lia. rewrite Hch. cbn -[star_arm]. unfold star_arm. rewrite Hg, Hch2, bool_decide_true, Hskip by done.
  assert (exists len, (if decide (path_index st < length path_)%nat then wtf8_byte_sequence_length <$> path_ !! path_index st else Some 1%nat) = Some len) as [len ->].
  { destruct (decide (path_index st < length path_)%nat) as [Hlt|]; [|by eexists]. destruct (lookup_Some path_ _ Hlt) as [b ->]. by eexists. }
  cbn [mbind option_bind]. rewrite Hp. pose proof (length_path sp s Ec) as HP.
  assert (s <> [] -> (pi sp < length path_)%nat) as Hlt by (by apply length_wtf8_pos).
  pose proof (glob_segment tp' post' E') as Hbefore. destruct (glob_inner tp' post' E') as [Hinv Hslash].
  rewrite Hinv.
  assert (match post' with [] => false | _ => true end && bool_decide (pi sp = length path_) = false) as Hquirk.
  { destruct post'; [done|]. cbn [andb]. apply bool_decide_eq_false. destruct s; [by specialize (Hend' (Hend eq_refl))|]. specialize (Hlt ltac:(done)). lia. }
  rewrite Hquirk. cbn [andb]. rewrite Hbefore. cbn [mbind option_bind].
  assert (negb match post' with [] => false | _ => true end || bool_decide (glob_ !! (gi tp' + 2)%nat = Some #"/") = true) as ->.
  { destruct post'; [done|]. rewrite Hslash, bool_decide_true by done. done. }
  cbn [andb]. eexists. split; [done|]. split; [done|]. split; [done|]. unfold skip_to_separator.
  cbn [at_index with_wildcards path_index glob_index wildcard globstar brace_depth w_glob_index w_brace_depth w_path_index].
  assert (gi (tp' ++ glob_next post') = if match post' with [] => false | _ => true end then S (gi tp' + 2) else (gi tp' + 2)%nat) as Hn.
  { rewrite gi_app. destruct post'; cbn; lia. }
  rewrite Hn. destruct (decide (pi sp = length path_)) as [Hpe|Hpe]; cbn [path_index glob_index wildcard globstar brace_depth at_index with_wildcards].
  - do 3 (split; [done|]). split; [done|]. intros Hs. specialize (Hlt Hs). lia.
  - do 3 (split; [done|]). split; [done|]. intros Hs. eexists. split; [done|]. split; [done|].
    destruct (skip_name sp s Ec) as [Hs1 Hs2]. split.
    + intros n r En Hn'. rewrite (Hs1 n r En Hn'). rewrite (bool_decide_false (pi (sp ++ n) = length path_)).
      * rewrite orb_true_r. rewrite app_assoc, (pi_app (sp ++ n)). done.
      * subst s. rewrite HP, !pi_app, wtf8_app, length_app, wtf8_cons, length_app, (encode_ascii #"/") by done. cbn. lia.
    + intros Hf. rewrite (Hs2 Hf), bool_decide_true by done. destruct post'; cbn; lia.
Qed.


(** * The invariant *)

(** The state is at a place of the pattern and of the path. *)
Definition at_pos (st : State) (tp ts : list ftok) (sp s : list Z) : Prop :=
  T = tp ++ ts /\ C = sp ++ s /\ glob_index st = gi tp /\ path_index st = pi sp /\ brace_depth st = 0.

(** What there is to match at a point to go back to, if there is one. *)
Definition val (w : Wildcard) : Prop :=
  exists tp ts sp s, T = tp ++ ts /\ C = sp ++ s /\ w_glob_index w = gi tp /\ w_path_index w = pi sp /\ sp <> [] /\ fmatch ts s.

(** The globstar [tq] was last started at [sq], [c] and [v] being matched
    since, and goes on at the next name. *)
Definition globstar_of (w : Wildcard) (tp : list ftok) (sp s : list Z) : Prop :=
  w_path_index w = 0%nat \/
  exists tq post c sq v, T = tq ++ FGlob :: post /\ tp = tq ++ glob_next post ++ c /\ glob_free c /\
    sp = sq ++ v /\ (post <> [] -> seg_start sq) /\ slashes v = seps c /\ w_glob_index w = gi tq /\ w_brace_depth w = 0 /\
    (forall n r, v ++ s = n ++ #"/" :: r -> slash_free n -> w_path_index w = pi (sq ++ n ++ b!"/")) /\
    (slash_free (v ++ s) -> w_path_index w = match post with [] => length path_ | _ => S (length path_) end).

(** The star [tq] was last started at [sq], and goes on at the next character
    of the name. *)
Definition star_of (w : Wildcard) (tq c : list ftok) (sq u s : list Z) : Prop :=
  plain c /\ slash_free u /\ length u = length c /\ w_glob_index w = gi tq /\ w_brace_depth w = 0 /\
  match u ++ s with
  | x :: _ => x <> #"/" /\ w_path_index w = pi (sq ++ [x])
  | [] => w_path_index w = S (length path_)
  end.

Inductive good (st : State) : Prop :=
| good_done tp sp : at_pos st tp [] sp [] -> fmatch T C -> good st
| good_globstar tp ts sp s : at_pos st tp ts sp s -> (forall r, ts = FGlob :: r -> r = [] \/ seg_start sp) ->
    wildcard st = globstar st -> globstar_of (globstar st) tp sp s ->
    (fmatch T C <-> fmatch ts s \/ val (globstar st)) -> good st
| good_star tq c ts sq u s : at_pos st (tq ++ FTok TStar :: c) ts (sq ++ u) s ->
    star_of (wildcard st) tq c sq u s -> globstar_of (globstar st) tq sq (u ++ s) ->
    (fmatch T C <-> fmatch ts s \/ val (wildcard st) \/ val (globstar st)) -> good st
| good_at_star tp ts sp s : at_pos st tp (FTok TStar :: ts) sp s -> globstar_of (globstar st) tp sp s ->
    (fmatch T C <-> fmatch (FTok TStar :: ts) s \/ val (globstar st)) -> good st
| good_at_globstar tp post sp s : at_pos st tp (FGlob :: post) sp s -> post = [] \/ seg_start sp ->
    (fmatch T C <-> fmatch (FGlob :: post) s) -> good st.

Lemma val_at w tp ts sp s : T = tp ++ ts -> C = sp ++ s -> w_glob_index w = gi tp -> w_path_index w = pi sp -> sp <> [] ->
  val w <-> fmatch ts s.
Proof.
  intros E Ec Hg Hp Hne. split; [|by exists tp, ts, sp, s]. intros (tp' & ts' & sp' & s' & E' & Ec' & Hg' & Hp' & _ & H).
  destruct (gi_inj tp ts tp' ts' E E') as [_ ->]; [congruence|]. by destruct (pi_inj sp s sp' s' Ec Ec') as [_ ->]; [congruence|].
Qed.

Lemma val_dead w : (w_path_index w = 0 \/ length path_ < w_path_index w)%nat -> ~ val w.
Proof.
  intros H (tp & ts & sp & s & _ & Ec & _ & Hp & Hne & _). pose proof (length_path sp s Ec). destruct H as [H|H]; [|lia].
  destruct sp as [|x sp]; [done|]. unfold pi in Hp. rewrite wtf8_cons, length_app in Hp. pose proof (encode_ne x). destruct (wtf8_encode x); [done|cbn in Hp; lia].
Qed.

(** Tokens and characters read on from a globstar. *)
Lemma globstar_of_app w tp c sp v s : glob_free c -> slashes v = seps c ->
  globstar_of w tp sp (v ++ s) -> globstar_of w (tp ++ c) (sp ++ v) s.
Proof.
  intros Hc Hv [H|(tq & post & c0 & sq & v0 & E & -> & Hc0 & -> & Hst & Hv0 & Hg & Hd & H1 & H2)]; [by left|right].
  exists tq, post, (c0 ++ c), sq, (v0 ++ v). rewrite !app_assoc in *. rewrite <- (app_assoc v0) in *. rewrite slashes_app, seps_app.
  repeat split; try done; [|lia]. by apply Forall_app.
Qed.

Lemma app_longer {A} (a b x y : list A) : a ++ b = x ++ y -> (length x < length a)%nat -> exists q, a = x ++ q /\ y = q ++ b /\ q <> [].
Proof.
  intros E Hl. apply app_eq_app in E as [q [[-> ->]|[-> ->]]]; [|rewrite length_app in Hl; lia].
  exists q. split; [done|]. split; [done|]. intros ->. rewrite app_nil_r in Hl. lia.
Qed.

(** A match that starts at a later character of the star's name. *)
Lemma star_val w tq c ts sq u s : T = (tq ++ FTok TStar :: c) ++ ts -> C = (sq ++ u) ++ s -> star_of w tq c sq u s -> val w ->
  exists q z, s = q ++ z /\ q <> [] /\ slash_free q /\ fmatch ts z.
Proof.
  intros E Ec (Hc & Hu & Hl & Hg & _ & Hx) Hval. destruct (u ++ s) as [|x r] eqn:Eus; [by apply val_dead in Hval; [|right; lia]|].
  destruct Hx as [Hx Hp].
  apply (val_at w tq (FTok TStar :: c ++ ts) (sq ++ [x]) r) in Hval as (y & z & -> & Hy & Hz)%fm_star_inv;
    [|by rewrite E, <- app_assoc|by rewrite Ec, <- !app_assoc, Eus|done|done|by destruct sq].
  apply fm_plain_app in Hz as (k & z' & -> & Hk & Hkl & Hz'); [|done].
  destruct (app_longer (x :: y ++ k) z' u s) as (q & Eq & -> & Hq); [rewrite Eus; cbn; by rewrite <- app_assoc|cbn; rewrite length_app; lia|].
  exists q, z'. split; [done|]. split; [done|]. split; [|done].
  assert (slash_free (x :: y ++ k)) as Hall by (constructor; [done|by apply Forall_app]). rewrite Eq in Hall. by apply Forall_app in Hall as [_ Hall].
Qed.

(** A match that starts at a later name than the globstar did. *)
Lemma globstar_val w tp ts sp s : T = tp ++ ts -> C = sp ++ s -> globstar_of w tp sp s -> val w ->
  ts = [] \/ exists c v n y z, glob_free c /\ (ends_sep tp -> ends_sep c) /\ slashes v = seps c /\ v ++ s = n ++ #"/" :: y ++ z /\ seg_start y /\ fmatch (c ++ ts) z.
Proof.
  intros E Ec [H|(tq & post & c & sq & v & E' & -> & Hc & -> & Hst & Hv & Hg & Hd & H1 & H2)] Hval; [by apply val_dead in Hval; [|left]|].
  destruct (after_glob tq post E') as [_ [->|[r ->]]].
  { left. rewrite E', <- !app_assoc in E. apply app_inv_head in E. cbn in E. injection E as E. symmetry in E. by apply app_nil in E as [_ ->]. }
  right. rewrite E', <- !app_assoc in E. apply app_inv_head in E. cbn in E. injection E as ->.
  destruct (first_slash (v ++ s)) as [Hf|(n & r & Er & Hn)]; [specialize (H2 Hf); by apply val_dead in Hval; [|right; lia]|].
  specialize (H1 n r Er Hn).
  apply (val_at w tq (FGlob :: FSep :: c ++ ts) (sq ++ n ++ b!"/") r) in Hval;
    [|done|by rewrite Ec, <- !app_assoc, Er|done|done|destruct sq; [by destruct n|done]].
  apply fm_glob_inv in Hval as (y & z & Eyz & Hy & Hz). subst r. exists c, v, n, y, z. split; [done|]. split; [|done]. intros [He|He]; [by destruct tq|].
  destruct c as [|t c]; [by left|right]. rewrite !last_app in He. destruct (last (t :: c)) eqn:El; [by rewrite <- He|by apply last_None in El].
Qed.

Lemma slashes_cons_ge n y : (1 + slashes y <= slashes (n ++ #"/" :: y))%nat.
Proof. rewrite slashes_app. cbn. lia. Qed.

(** At the end of the path no later name is left. *)
Lemma globstar_val_end w tp ts sp : T = tp ++ FTok TStar :: ts -> C = sp ++ [] -> globstar_of w tp sp [] -> ~ val w.
Proof.
  intros E Ec Hg Hval. destruct (globstar_val w tp _ sp [] E Ec Hg Hval) as [|(c & v & n & y & z & Hc & _ & Hv & Ev & Hy & Hz)]; [done|].
  destruct (fm_glob_free_app _ _ _ Hz c Hc eq_refl) as (k & z' & -> & Hk & _). rewrite app_nil_r in Ev.
  assert (1 + slashes (y ++ k ++ z') <= slashes v)%nat as Hle by (rewrite Ev; apply slashes_cons_ge). rewrite !slashes_app in Hle. lia.
Qed.

(** A new globstar makes up for the one before. *)
Lemma globstar_val_globstar w tp post sp s : T = tp ++ FGlob :: post -> C = sp ++ s -> post = [] \/ seg_start sp ->
  globstar_of w tp sp s -> val w -> fmatch (FGlob :: post) s.
Proof.
  intros E Ec Hsp Hg Hval. destruct (after_glob tp post E) as [Hends [->|[r ->]]]; [apply fm_glob_end|].
  destruct (globstar_val w tp _ sp s E Ec Hg Hval) as [|(c & v & n & y & z & Hc & Hce & Hv & Ev & Hy & Hz)]; [done|].
  destruct (fm_names_app _ c z Hc (Hce Hends) Hz) as (k & z' & -> & Hk & Hks & Hz').
  assert ((n ++ #"/" :: y ++ k) ++ z' = v ++ s) as [q [[Eq ->]|[-> ->]]]%app_eq_app by (by rewrite Ev, <- !app_assoc; cbn; rewrite <- app_assoc).
  - apply fm_glob_app; [|done]. destruct q as [|b q]; [by left|right].
    assert (seg_start (n ++ #"/" :: y ++ k)) as Hx by (rewrite seg_start_cons; by apply seg_start_app).
    rewrite Eq in Hx. destruct Hx as [Hx|Hx]; [by destruct v|]. rewrite last_app in Hx. by destruct (last (b :: q)) eqn:El; [|by apply last_None in El].
  - exfalso. assert (1 + slashes (y ++ k) <= slashes ((n ++ #"/" :: y ++ k) ++ q))%nat as Hle
      by (rewrite (slashes_app (n ++ _)); pose proof (slashes_cons_ge n (y ++ k)); lia).
    rewrite slashes_app in Hle. lia.
Qed.


(** * Rounds *)

(** After a mismatch: back to a point where the rest can match, or no rest
    can. *)
Definition back (st : State) : Prop :=
  if decide (0 < w_path_index (wildcard st) <= length path_)%nat then forall st1, stays st st1 -> good (backtrack st1) else ~ fmatch T C.

Lemma pi_pos sp : (0 < pi sp)%nat -> sp <> [].
Proof. by destruct sp; cbn; [lia|]. Qed.

Lemma back_globstar st tp ts sp s : at_pos st tp ts sp s -> wildcard st = globstar st -> globstar_of (globstar st) tp sp s ->
  (fmatch T C <-> fmatch ts s \/ val (globstar st)) -> ~ fmatch ts s -> back st.
Proof.
  intros (E & Ec & _) Ew Hg HA Hno. unfold back. rewrite Ew. destruct (decide _) as [Hd|Hd].
  - intros st1 [Ew1 Es1]. destruct Hg as [|(tq & post & c & sq & v & E' & -> & Hc & -> & Hst & Hv & Hgi & Hdp & H1 & H2)]; [lia|].
    assert (exists sp' s', C = sp' ++ s' /\ w_path_index (globstar st) = pi sp' /\ (post = [] \/ seg_start sp')) as (sp' & s' & Ec' & Hp & Hs).
    { destruct (first_slash (v ++ s)) as [Hf|(n & r & Er & Hn)].
      - specialize (H2 Hf). destruct post; [|lia]. exists C, []. split; [by rewrite app_nil_r|]. split; [|by left]. rewrite H2.
        by rewrite (length_path C []) by (by rewrite app_nil_r); cbn; rewrite Nat.add_0_r.
      - exists (sq ++ n ++ b!"/"), r. split; [rewrite Ec, <- !app_assoc, Er; done|]. split; [by apply (H1 n r)|]. right. rewrite app_assoc.
        right. by rewrite last_snoc. }
    apply (good_at_globstar _ tq post sp' s'); [|done|].
    + unfold at_pos, backtrack, at_index. cbn. rewrite Ew1, Ew. done.
    + rewrite HA, (val_at _ tq (FGlob :: post) sp' s' E' Ec' Hgi Hp (pi_pos sp' ltac:(lia))). tauto.
  - rewrite HA. intros [|Hval]; [done|]. apply val_dead in Hval; [done|lia].
Qed.

Lemma back_star st tq c ts sq u s : at_pos st (tq ++ FTok TStar :: c) ts (sq ++ u) s ->
  star_of (wildcard st) tq c sq u s -> globstar_of (globstar st) tq sq (u ++ s) ->
  (fmatch T C <-> fmatch ts s \/ val (wildcard st) \/ val (globstar st)) -> ~ fmatch ts s -> back st.
Proof.
  intros (E & Ec & _) Hstar Hg HA Hno. unfold back. pose proof Hstar as (Hc & Hu & Hl & Hgi & Hdp & Hx).
  rewrite <- app_assoc in Ec. destruct (u ++ s) as [|x r] eqn:Eus.
  - rewrite decide_False by lia. rewrite HA. intros [?|[Hval|Hval]]; [done|apply val_dead in Hval; [done|right; lia]|].
    rewrite <- app_assoc in E. by apply (globstar_val_end _ tq (c ++ ts) sq) in Hval.
  - destruct Hx as [Hx Hp]. assert (C = (sq ++ [x]) ++ r) as Ec' by (by rewrite <- app_assoc).
    assert (T = tq ++ FTok TStar :: c ++ ts) as E' by (by rewrite E, <- app_assoc).
    pose proof (length_path _ _ Ec') as Hlen.
    assert (0 < pi (sq ++ [x]))%nat as Hpos.
    { rewrite pi_app. cbn [wtf8 mbind list_bind]. rewrite app_nil_r. pose proof (encode_ne x). destruct (wtf8_encode x); [done|cbn; lia]. }
    rewrite decide_True by lia. intros st1 [Ew1 Es1]. apply (good_at_star _ tq (c ++ ts) (sq ++ [x]) r).
    + unfold at_pos, backtrack, at_index. cbn. by rewrite Ew1.
    + cbn. rewrite Es1, <- (app_nil_r tq). apply (globstar_of_app _ tq [] sq [x]); [constructor|cbn; by rewrite (proj2 (Z.eqb_neq x _))|done].
    + cbn. rewrite Es1, HA, (val_at _ tq (FTok TStar :: c ++ ts) (sq ++ [x]) r E' Ec' Hgi Hp (pi_pos _ Hpos)). tauto.
Qed.

Lemma star_round st tp ts sp s : at_pos st tp (FTok TStar :: ts) sp s -> globstar_of (globstar st) tp sp s ->
  (fmatch T C <-> fmatch (FTok TStar :: ts) s \/ val (globstar st)) ->
  exists st', arm windows glob_ path_ 0 [] st = Some (Continue st') /\ good st'.
Proof.
  intros (E & Ec & Hg & Hp & Hd) Hgs HA. pose proof (drop_glob tp _ E) as Eg. rewrite pf_cons in Eg. cbn [print_ftok print_tok app] in Eg.
  rewrite <- Hg in Eg. pose proof (drop_path sp s Ec) as Ep. rewrite <- Hp in Ep.
  assert (wf (Some (FTok TStar)) ts) as Hw by (rewrite E, wf_app in HT; apply HT).
  assert (head (pf ts) <> Some #"*") as Hhead.
  { destruct (pf ts) as [|b r] eqn:Ets; [done|]. intros [= ->]. destruct (front_star _ ts r Hw Ets) as [ts' [[-> _]|[-> _]]]; destruct Hw as [[_ Hf] _].
    - destruct Hf as [_ Hf]. by apply Hf.
    - by destruct Hf. }
  rewrite (arm_star windows glob_ path_ st (pf ts) s (chars_ok sp s Ec) Eg Hhead Ep). eexists. split; [done|].
  assert (T = (tp ++ [FTok TStar]) ++ ts) as E' by (by rewrite <- app_assoc).
  assert (forall w, at_pos (with_wildcards (at_index st (path_index st) (glob_index st + 1) (brace_depth st)) w (globstar st))
    (tp ++ [FTok TStar]) ts sp s) as Hpos.
  { intros w. unfold at_pos. cbn. rewrite gi_app. cbn. rewrite Hg. done. }
  assert (forall n, star_of {| w_glob_index := glob_index st; w_path_index := (path_index st + n)%nat; w_brace_depth := brace_depth st |} tp [] sp [] s <->
    match s with x :: _ => x <> #"/" /\ (path_index st + n)%nat = pi (sp ++ [x]) | [] => (path_index st + n)%nat = S (length path_) end) as Hstar.
  { intros n. unfold star_of. cbn. split; [tauto|]. intros H. repeat split; try done; constructor. }
  destruct s as [|x s]; [|destruct (Z.eqb_spec x #"/") as [->|Hx]].
  - apply (good_star _ tp [] ts sp [] []); [by rewrite app_nil_r|apply Hstar; rewrite (length_path sp [] Ec), Hp; cbn; lia|done|]. cbn [globstar with_wildcards].
    rewrite HA. split; [|intros [H|[H|H]]; [left; by apply fm_star0| |by right]].
    + intros [H|H]; [left|by right; right]. by inversion H; subst.
    + apply val_dead in H; [done|]. cbn. rewrite (length_path sp [] Ec), Hp. cbn. lia.
  - apply (good_globstar _ (tp ++ [FTok TStar]) ts sp (#"/" :: s)); [apply Hpos| |done| |].
    + intros r ->. destruct (after_glob _ _ E') as [[H|H] _]; [by destruct tp|]. by rewrite last_snoc in H.
    + cbn. pose proof (globstar_of_app (globstar st) tp [FTok TStar] sp [] (#"/" :: s)) as H. rewrite app_nil_r in H. apply H; [by constructor|done|done].
    + cbn. rewrite HA. split; (intros [H|H]; [left|by right]); [by inversion H; subst|by apply fm_star0].
  - assert (pi sp + length (wtf8_encode x) = pi (sp ++ [x]))%nat as Hpx by (rewrite pi_app, wtf8_cons; cbn; by rewrite app_nil_r).
    apply (good_star _ tp [] ts sp [] (x :: s)); [by rewrite app_nil_r|apply Hstar; split; [done|by rewrite Hp]|done|].
    cbn [globstar wildcard with_wildcards]. rewrite HA.
    rewrite (val_at (Build_Wildcard (glob_index st) (path_index st + length (wtf8_encode x)) (brace_depth st)) tp (FTok TStar :: ts) (sp ++ [x]) s E); [|by rewrite <- app_assoc|by cbn; rewrite Hg|by cbn; rewrite Hp, Hpx|by destruct sp].
    split; [intros [H|H]; [|by right; right]|intros [H|[H|H]]; [left; by apply fm_star0|left; by apply fm_star|by right]].
    inversion H; subst; auto; done.
Qed.


Lemma globstar_round st tp post sp s : at_pos st tp (FGlob :: post) sp s -> post = [] \/ seg_start sp ->
  (fmatch T C <-> fmatch (FGlob :: post) s) -> exists st', arm windows glob_ path_ 0 [] st = Some (Continue st') /\ good st'.
Proof.
  intros (E & Ec & Hg & Hp & Hd) Hsp HA.
  destruct (arm_glob st tp post sp s E Ec) as (tp' & post' & st' & E' & Hm & Ha & Hp' & Hg' & Hd' & Hpost & Hw); [|done|done|].
  { intros ->. destruct Hsp as [|Hsp]; [done|]. by destruct (HN sp [] Ec Hsp). }
  exists st'. split; [done|]. rewrite Hm in HA. rewrite Hd in Hd', Hw.
  assert (exists ts', T = (tp' ++ glob_next post') ++ ts' /\ (post' = [] /\ ts' = [] \/ post' = FSep :: ts')) as (ts' & E2 & Hts).
  { destruct (after_glob tp' post' E') as [_ [->|[r ->]]]; cbn; [exists []|exists r]; rewrite <- !app_assoc; auto. }
  destruct (decide (s = [])) as [->|Hs].
  - assert (post' = []) as -> by (destruct Hsp as [|Hsp]; [by apply Hpost|by destruct (HN sp [] Ec Hsp)]).
    destruct Hts as [[_ ->]|]; [|done]. apply (good_done _ (tp' ++ [FGlob]) sp); [done|]. apply HA, fm_glob_end.
  - destruct (Hw Hs) as (q & Ews & Ew & H1 & H2). clear Hw.
    assert (post' <> [] -> seg_start sp) as Hseg by (intros Hne; destruct Hsp as [Hsp|]; [by destruct Hne; apply Hpost|done]).
    assert (globstar_of (globstar st') (tp' ++ glob_next post') sp s) as Hgs.
    { right. exists tp', post', [], sp, []. rewrite <- Ews, Ew, !app_nil_r. repeat split; try done; try constructor; done. }
    apply (good_globstar _ (tp' ++ glob_next post') ts' sp s); [done| |done|done|].
    + intros r ->. right. apply Hseg. by destruct Hts as [[_ ?]|[= ->]].
    + rewrite HA, <- Ews, Ew. destruct Hts as [[-> ->]|[= ->]].
      * split; [intros _; right|intros _; apply fm_glob_end].
        destruct (first_slash s) as [Hf|(n & r & Er & Hn)].
        -- rewrite (H2 Hf). exists tp', [FGlob], C, []. rewrite app_nil_r. split; [done|]. split; [done|]. split; [done|]. split; [|split].
           ++ cbn. rewrite (length_path C []); [cbn; lia|by rewrite app_nil_r].
           ++ intros HCn. destruct sp; [|by rewrite HCn in Ec]. cbn in Ec. by rewrite <- Ec, HCn in Hs.
           ++ apply fm_glob_end.
        -- rewrite (H1 n r Er Hn). exists tp', [FGlob], (sp ++ n ++ b!"/"), r. split; [done|]. split; [by rewrite Ec, Er, <- !app_assoc|].
           split; [done|]. split; [done|]. split; [destruct sp; [by destruct n|done]|apply fm_glob_end].
      * rewrite fm_glob_iff. split; (intros [H|H]; [by left|right]).
        -- destruct H as (n & r & Hn & Er & H). rewrite (H1 n r Er Hn). exists tp', (FGlob :: FSep :: ts'), (sp ++ n ++ b!"/"), r.
           split; [done|]. split; [by rewrite Ec, Er, <- !app_assoc|]. split; [done|]. split; [done|]. split; [destruct sp; [by destruct n|done]|done].
        -- destruct (first_slash s) as [Hf|(n & r & Er & Hn)]; [rewrite (H2 Hf) in H; apply val_dead in H; [done|right; cbn; lia]|].
           rewrite (H1 n r Er Hn) in H. exists n, r. split; [done|]. split; [done|].
           apply (val_at _ tp' (FGlob :: FSep :: ts') (sp ++ n ++ b!"/") r) in H; [done|done|by rewrite Ec, Er, <- !app_assoc|done|done|].
           destruct sp; [by destruct n|done].
Qed.

(** A round of the loop: it reads on, goes back, or answers. *)
Definition round_ok (st : State) : Prop :=
  (exists st', arm windows glob_ path_ 0 [] st = Some (Continue st') /\ good st') \/
  (falls st (arm windows glob_ path_ 0 [] st) /\ back st).

Definition next_state (st : State) (t : ftok) (x : Z) : State :=
  at_index st (path_index st + length (wtf8_encode x)) (glob_index st + length (print_ftok t)) (brace_depth st).

Lemma next_pos st tp t ts sp x s : at_pos st tp (t :: ts) sp (x :: s) -> at_pos (next_state st t x) (tp ++ [t]) ts (sp ++ [x]) s.
Proof.
  intros (E & Ec & Hg & Hp & Hd). unfold at_pos, next_state. cbn. rewrite gi_app, pi_app, Hg, Hp, <- !app_assoc. cbn. rewrite !app_nil_r. done.
Qed.

Lemma token_round st tp ts sp s : at_pos st tp ts sp s -> (forall r, ts <> FTok TStar :: r) -> (forall r, ts <> FGlob :: r) -> ts <> [] \/ s <> [] ->
  (~ fmatch ts s -> back st) ->
  (forall t ts' x s', ts = FTok t :: ts' -> s = x :: s' -> t <> TStar -> tok_match t x = true -> x <> #"/" -> good (next_state st (FTok t) x)) ->
  (forall ts' s', ts = FSep :: ts' -> s = #"/" :: s' -> globstar_of (globstar st) (tp ++ [FSep]) (sp ++ b!"/") s' /\
    (fmatch T C <-> fmatch ts' s' \/ val (globstar st))) ->
  round_ok st.
Proof.
  intros (E & Ec & Hg & Hp & Hd) Hns Hng Hne Hback Hchar Hsep. pose proof (drop_glob tp _ E) as Eg. rewrite <- Hg in Eg.
  pose proof (drop_path sp s Ec) as Ep. rewrite <- Hp in Ep. pose proof (chars_ok sp s Ec) as Hs.
  destruct ts as [|[t| |] ts].
  - right. split; [apply arm_end; rewrite (length_glob tp [] E), Hg; cbn; lia|]. apply Hback. inversion 1; subst. by destruct Hne.
  - rewrite pf_cons in Eg. assert (t <> TStar) as Ht by (intros ->; by apply (Hns ts)).
    assert (tok_ok t) as Hok by (rewrite E, wf_app in HT; apply HT).
    pose proof (arm_char windows glob_ path_ st t (pf ts) s Hok Ht Hs Eg Ep) as Ha. unfold char_outcome in Ha. destruct s as [|x s].
    { right. split; [done|]. apply Hback. inversion 1; congruence. }
    destruct (tok_match t x) eqn:Em; [destruct (Z.eqb_spec x #"/") as [->|Hx]|]; cbn [andb negb] in Ha.
    + right. split; [done|]. apply Hback. inversion 1; congruence.
    + left. eexists. split; [exact Ha|]. by apply (Hchar t ts x s).
    + right. split; [done|]. apply Hback. inversion 1; congruence.
  - rewrite pf_cons in Eg. pose proof (arm_sep windows glob_ path_ st (pf ts) s Hs Eg Ep) as Ha. destruct s as [|x s].
    { right. split; [done|]. apply Hback. inversion 1. }
    destruct (Z.eqb_spec x #"/") as [->|Hx].
    + left. eexists. split; [exact Ha|]. destruct (Hsep ts s eq_refl eq_refl) as [Hgs HA].
      apply (good_globstar _ (tp ++ [FSep]) ts (sp ++ b!"/") s); [|by intros; right; right; rewrite last_snoc|done|done|done].
      unfold at_pos. cbn. rewrite gi_app, pi_app, Hg, Hp, <- !app_assoc. done.
    + right. split; [done|]. apply Hback. inversion 1. congruence.
  - by destruct (Hng ts).
Qed.


Lemma fm_char_iff t ts x s : t <> TStar -> tok_match t x = true -> x <> #"/" -> fmatch (FTok t :: ts) (x :: s) <-> fmatch ts s.
Proof. intros Ht Hm Hx. split; [inversion 1; congruence|by apply fm_char]. Qed.

Lemma fm_sep_iff ts s : fmatch (FSep :: ts) (#"/" :: s) <-> fmatch ts s.
Proof. split; [by inversion 1|by apply fm_sep]. Qed.

Lemma not_after_tok tp t post : T <> (tp ++ [FTok t]) ++ FGlob :: post.
Proof. intros E. destruct (after_glob _ _ E) as [[H|H] _]; [by destruct tp|]. by rewrite last_snoc in H. Qed.

Lemma plain_last tq c post : plain c -> T <> (tq ++ FTok TStar :: c) ++ FGlob :: post.
Proof.
  intros Hc. destruct c as [|t c] using rev_ind; [apply not_after_tok|]. apply Forall_app in Hc as [_ Hc]. apply Forall_cons in Hc as [(t' & -> & _) _].
  rewrite (app_comm_cons c), (app_assoc tq). apply not_after_tok.
Qed.

Lemma one_slash_free x : x <> #"/" -> slashes [x] = 0%nat.
Proof. intros H. cbn. by rewrite (proj2 (Z.eqb_neq x _)). Qed.

Lemma ts_cases ts : (exists r, ts = FTok TStar :: r) \/ (exists r, ts = FGlob :: r) \/ (forall r, ts <> FTok TStar :: r) /\ (forall r, ts <> FGlob :: r).
Proof. destruct ts as [|[[]| |] r]; eauto; right; right; done. Qed.

Lemma round_globstar st tp ts sp s : at_pos st tp ts sp s -> (forall r, ts = FGlob :: r -> r = [] \/ seg_start sp) ->
  wildcard st = globstar st -> globstar_of (globstar st) tp sp s -> (fmatch T C <-> fmatch ts s \/ val (globstar st)) ->
  ts <> [] \/ s <> [] -> round_ok st.
Proof.
  intros Hpos Hseg Ew Hgs HA Hne. pose proof Hpos as (E & Ec & _).
  destruct (ts_cases ts) as [[r ->]|[[r ->]|[Hns Hng]]]; [left; by eapply star_round| |].
  { left. apply (globstar_round st tp r sp s); [done|by apply Hseg|]. rewrite HA. split; [|by left]. intros [H|H]; [done|].
    eapply (globstar_val_globstar (globstar st)); eauto. }
  apply (token_round st tp ts sp s Hpos Hns Hng Hne).
  - intros Hno. by eapply back_globstar.
  - intros t ts' x s' -> -> Ht Hm Hx. apply (good_globstar _ (tp ++ [FTok t]) ts' (sp ++ [x]) s'); [by apply next_pos| |done| |].
    + intros r ->. exfalso. apply (not_after_tok tp t r). by rewrite <- app_assoc.
    + apply globstar_of_app; [by constructor|by rewrite one_slash_free|done].
    + by rewrite HA, fm_char_iff.
  - intros ts' s' -> ->. split; [apply globstar_of_app; [by constructor|done|done]|]. by rewrite HA, fm_sep_iff.
Qed.

Lemma round_star st tq c ts sq u s : at_pos st (tq ++ FTok TStar :: c) ts (sq ++ u) s ->
  star_of (wildcard st) tq c sq u s -> globstar_of (globstar st) tq sq (u ++ s) ->
  (fmatch T C <-> fmatch ts s \/ val (wildcard st) \/ val (globstar st)) -> ts <> [] \/ s <> [] -> round_ok st.
Proof.
  intros Hpos Hstar Hgs HA Hne. pose proof Hpos as (E & Ec & _). pose proof Hstar as (Hc & Hu & Hl & Hg & Hd & Hx).
  pose proof (star_val _ _ _ _ _ _ _ E Ec Hstar) as Hval.
  assert (forall k ts' v s', T = tq ++ (FTok TStar :: c ++ k) ++ ts' -> glob_free k -> slashes v = seps k -> u ++ s = (u ++ v) ++ s' ->
    globstar_of (globstar st) (tq ++ FTok TStar :: c ++ k) (sq ++ u ++ v) s') as Hgs'.
  { intros k ts' v s' _ Hk Hv Es. apply globstar_of_app; [constructor; [done|]; apply Forall_app; split; [by apply plain_glob_free|done]| |by rewrite <- Es].
    cbn. rewrite slashes_app, seps_app, plain_seps, Hv by done. by rewrite (proj1 (slash_free_0 u) Hu). }
  destruct (ts_cases ts) as [[r ->]|[[r ->]|[Hns Hng]]]; [left|by destruct (plain_last tq c r Hc)|].
  - apply (star_round st _ r _ s Hpos).
    + pose proof (Hgs' [] (FTok TStar :: r) [] s) as H. rewrite !app_nil_r in H. apply H; [by rewrite E, <- app_assoc|constructor|done|done].
    + rewrite HA. split; [|tauto]. intros [H|[H|H]]; [by left|left|by right].
      destruct (Hval H) as (q & z & -> & _ & Hq & Hz). by apply fm_star_app.
  - apply (token_round st _ ts _ s Hpos Hns Hng Hne).
    + intros Hno. by eapply back_star.
    + intros t ts' x s' -> -> Ht Hm Hxs. pose proof (next_pos st _ _ _ _ _ _ Hpos) as Hpos'. rewrite <- !app_assoc in Hpos'. cbn [app] in Hpos'.
      apply (good_star _ tq (c ++ [FTok t]) ts' sq (u ++ [x]) s'); [done| | |].
      * split; [apply Forall_app; split; [done|constructor; [by exists t|constructor]]|]. split; [apply Forall_app; split; [done|by constructor]|].
        rewrite !length_app, Hl. split; [done|]. split; [done|]. split; [done|]. by rewrite <- app_assoc.
      * by rewrite <- app_assoc.
      * cbn [next_state at_index wildcard globstar]. by rewrite HA, fm_char_iff.
    + intros ts' s' -> ->. rewrite <- !app_assoc. cbn [app]. split.
      * apply (Hgs' [FSep] ts' b!"/" s'); [|by constructor|done|by rewrite <- app_assoc]. rewrite E, <- !app_assoc. cbn. by rewrite <- app_assoc.
      * rewrite HA, fm_sep_iff. split; [|tauto]. intros [H|[H|H]]; [by left| |by right]. exfalso.
        destruct (Hval H) as (q & z & Eq & Hqn & Hq & _). destruct q as [|b q]; [done|]. injection Eq as <- _. by apply Forall_cons in Hq as [? _].
Qed.

(** The loop ends where pattern and path do. *)
Lemma at_end st tp ts sp s : at_pos st tp ts sp s ->
  bool_decide (glob_index st < length glob_)%nat || bool_decide (path_index st < length path_)%nat = true <-> ts <> [] \/ s <> [].
Proof.
  intros (E & Ec & -> & -> & _). rewrite orb_true_iff, !bool_decide_eq_true. split.
  - intros [H|H]; [left; intros ->; rewrite (length_glob tp [] E) in H|right; intros ->; rewrite (length_path sp [] Ec) in H]; cbn in H; lia.
  - intros [H|H]; [left; by eapply length_pf_pos|right; by eapply length_wtf8_pos].
Qed.

Lemma good_at st : good st -> exists tp ts sp s, at_pos st tp ts sp s /\ (ts = [] -> s = [] -> fmatch T C) /\ (ts <> [] \/ s <> [] -> round_ok st).
Proof.
  intros Hgood. destruct Hgood as [tp sp Hpos HA|tp ts sp s Hpos Hseg Ew Hgs HA|tq c ts sq u s Hpos Hstar Hgs HA|tp ts sp s Hpos Hgs HA|tp post sp s Hpos Hseg HA].
  - exists tp, [], sp, []. split; [done|]. split; [done|]. by intros [H|H].
  - exists tp, ts, sp, s. split; [done|]. split; [|by eapply round_globstar]. intros -> ->. apply HA. left. constructor.
  - exists (tq ++ FTok TStar :: c), ts, (sq ++ u), s. split; [done|]. split; [|by eapply round_star]. intros -> ->. apply HA. left. constructor.
  - exists tp, (FTok TStar :: ts), sp, s. split; [done|]. split; [done|]. intros _. left. by eapply star_round.
  - exists tp, (FGlob :: post), sp, s. split; [done|]. split; [done|]. intros _. left. by eapply globstar_round.
Qed.

(** A round keeps the invariant, and the answer is right. *)
Lemma good_step budget match_brace st r : good st -> step windows glob_ path_ 0 [] budget match_brace st = Some r ->
  match r with inl st' => good st' | inr (b, _) => b = true <-> fmatch T C end.
Proof.
  intros Hgood. destruct (good_at st Hgood) as (tp & ts & sp & s & Hpos & Hend & Hround). unfold step.
  pose proof (at_end st tp ts sp s Hpos) as Hiff. destruct (_ || _).
  - destruct (Hround (proj1 Hiff eq_refl)) as [(st' & -> & Hst')|[(st1 & -> & Hst1) Hback]]; cbn [mbind option_bind].
    + by intros [= <-].
    + unfold back in Hback. destruct Hst1 as [Ew Es]. rewrite Ew. destruct (decide _); intros [= <-]; [by apply Hback|done].
  - intros [= <-]. assert (ts = [] /\ s = []) as [-> ->] by (destruct ts, s; try done; exfalso; assert (false = true) by (apply Hiff; auto); done).
    split; [intros _; by apply Hend|done].
Qed.

(** The loop starts at the two beginnings. *)
Lemma good_start : good (at_index state_default 0 bangs 0).
Proof.
  apply (good_globstar _ [] T [] C).
  - unfold at_pos, gi. cbn. by rewrite Nat.add_0_r.
  - intros r _. right. by left.
  - done.
  - by left.
  - split; [by left|]. intros [H|H]; [done|]. apply val_dead in H; [done|by left].
Qed.

Lemma glob_bangs : prefix_len (fun c => c =? #"!") glob_ = bangs.
Proof.
  unfold glob_. rewrite prefix_len_app by (apply Forall_replicate; done). rewrite length_replicate.
  destruct T as [|t ts] eqn:ET; [cbn; lia|]. rewrite pf_cons. destruct HT as [[_ Ht] _].
  assert (exists b r, print_ftok t = b :: r /\ b <> #"!") as (b & r & -> & Hb).
  { destruct t as [[c| | |negated items]| |]; cbn [print_ftok print_tok app]; try (eexists _, _; split; [done|done]).
    destruct Ht as [[Hc _] _]. destruct (print_char_front c Hc) as (b & r & -> & _ & _ & H & _). eauto. }
  cbn [app]. rewrite prefix_len_stop_cons; [lia|]. by apply Z.eqb_neq.
Qed.

Lemma impl_correct depth budget b n st : good st ->
  glob_match_impl windows (S depth) glob_ path_ [] budget 0 st = Some (b, n) -> b = true <-> fmatch T C.
Proof.
  intros Hgood. cbn [glob_match_impl].
  destruct (run _ _ _) as [[st'|[b' n']]|] eqn:E; cbn [mbind option_bind]; try done. intros [= -> ->].
  by apply (run_partial _ good (fun '(b, _) => b = true <-> fmatch T C)) in E; [|intros; by eapply good_step|].
Qed.

End Correct.

Lemma name_free_ok windows names : Forall (name_ok windows) names -> name_free names.
Proof.
  intros H. eapply Forall_impl; [exact H|]. intros n [Hn Hc]. split; [done|]. eapply Forall_impl; [exact Hc|]. intros c [_ Hs] ->. done.
Qed.

Lemma join_chars windows names : Forall (name_ok windows) names -> Forall (char_ok windows) (join_with #"/" names).
Proof.
  induction 1 as [|n names [Hn Hc] Hall IH]; [constructor|]. assert (Forall (char_ok windows) n) as Hn'.
  { eapply Forall_impl; [exact Hc|]. intros c [H1 H2]. split; [done|by right]. }
  destruct names as [|n' names]; [done|]. rewrite join_with_cons, Forall_app, Forall_cons. split; [done|]. split; [|done].
  split; [by unfold code_point|by left].
Qed.

Lemma join_no_end names : name_free names -> names <> [] -> ~ seg_start (join_with #"/" names).
Proof.
  intros Hall. induction Hall as [|n names [Hn Hf] Hall IH]; [done|]. intros _. destruct names as [|n' names].
  - intros H. by apply slash_free_seg_start in H.
  - rewrite join_with_cons, seg_start_cons. by apply IH.
Qed.

Module GlobProps.

(** C6: on a pattern without braces the matcher decides the reference, name
    by name: literals, [?], [*], classes and [**] in any order, whatever number
    of exclamation marks before, as long as no class admits a separator (a
    negated one does unless it lists it) and no [**] stands directly after a
    leading exclamation mark (the matcher takes it for two stars); the path has no
    empty name. *)
Theorem glob_match_correct (windows : bool) (bangs : nat) (segs : list segment) (names : list (list Z)) :
  pattern_ok bangs segs -> path_ok windows names ->
  let glob := glob_text bangs segs in
  let path := wtf8 (join_with #"/" names) in
  Z.of_nat (length glob) < 2 ^ 32 -> Z.of_nat (length path) < 2 ^ 32 ->
  glob_match windows glob path =
  Some (if Nat.odd bangs then if segs_match segs names then NegateNoMatch else NegateMatch
        else if segs_match segs names then Match else NoMatch).
Proof.
  intros (Hne & Hsegs & Hbangs) [Hnames Hall] glob path HG HP. pose proof (name_free_ok _ _ Hall) as Hfree.
  assert (glob = glob_ bangs (flat segs)) as Eg by (unfold glob_; by rewrite pf_flat).
  assert (wf None (flat segs)) as Hwf by (apply wf_flat; auto).
  assert (bangs = 0%nat \/ head (flat segs) <> Some FGlob) as Hb.
  { destruct Hbangs as [|Hs]; [by left|right]. destruct segs as [|[ts|] segs]; [done| |by destruct (Hs segs)].
    unfold flat. cbn [fmap list_fmap flat_segment]. destruct ts as [|t ts], segs; done. }
  assert (forall sp s, join_with #"/" names = sp ++ s -> seg_start sp -> s <> []) as HN.
  { intros sp s E Hs ->. rewrite app_nil_r in E. subst sp. by apply join_no_end in Hs. }
  unfold glob_match. rewrite Eg, glob_bangs by done.
  destruct (glob_match_impl_total windows (glob_ bangs (flat segs)) path ltac:(by rewrite <- Eg) HP (S BRACE_STACK_CAPACITY) [] BRACE_BRANCH_BUDGET 0
    (at_index state_default 0 bangs 0)) as [[b n] E]; [by apply (bool_decide_unpack _)|by apply (bool_decide_unpack _)|constructor| |].
  { assert (bangs <= length (glob_ bangs (flat segs)))%nat by (unfold glob_; rewrite length_app, length_replicate; lia).
    split; cbn -[glob_]; try lia; done. }
  rewrite E. cbn [mbind option_bind].
  apply (impl_correct windows bangs (flat segs) (join_with #"/" names) Hwf Hb (join_chars _ _ Hall) HN) in E; [|by apply good_start].
  rewrite (flat_match segs Hne names Hfree Hnames) in E. destruct b, (segs_match segs names); try done; exfalso; by destruct E as [E1 E2]; (discriminate E1 || discriminate E2 || auto).
Qed.

Lemma glob_match_correct_witness :
  glob_match false (glob_text 1 [SName [TStar]; SGlobstar; SName [TClass true [(47, 47); (120, 122)]; TAny; TLit #"."; TLit 233]])
    (wtf8 (join_with #"/" [b!"src"; b!"a"; b!"b"; [98; 99; 46; 233]])) = Some NegateNoMatch.
Proof.
  refine (eq_trans (glob_match_correct false 1 _ [b!"src"; b!"a"; b!"b"; [98; 99; 46; 233]] _ _ _ _) _).
  - split; [done|]. split; [|right; by intros r]. repeat constructor; unfold code_point; lia || done.
  - split; [done|]. repeat constructor; unfold code_point; try lia; done.
  - by vm_compute.
  - by vm_compute.
  - reflexivity.
Defined.

End GlobProps.
