(* ===== verification/Paths.v ===== *)
(** src/src/paths/resolve_path.rs: normalising, joining and relating paths.

    Units are bytes ([T = u8]); [None] is a panic (an index out of bounds, or
    a buffer too short) or no fuel left. *)
From S2P Require Import Prelude BunCore.

Inductive Platform := Loose | Windows | Posix | Nt.

#[global] Instance Platform_eq_dec : EqDecision Platform.
Proof. solve_decision. Defined.

Definition SEP_POSIX : Z := #"/".
Definition SEP_WINDOWS : Z := #"\".

Definition is_sep_any (c : Z) : bool := (c =? #"/") || (c =? #"\").
Definition is_sep_posix (c : Z) : bool := c =? #"/".

Definition is_absolute_posix (p : bytes) : bool := bool_decide (p !! 0%nat = Some #"/").

Definition is_absolute_windows (p : bytes) : bool :=
  match p with
  | c0 :: r =>
    is_sep_any c0 ||
    match r with
    | c1 :: c2 :: _ => (c1 =? #":") && is_sep_any c2
    | _ => false
    end
  | [] => false
  end.

Definition is_absolute (p : Platform) (path : bytes) : bool :=
  match p with
  | Posix => is_absolute_posix path
  | _ => is_absolute_windows path
  end.

Definition separator (p : Platform) : Z :=
  match p with Loose | Posix => SEP_POSIX | Nt | Windows => SEP_WINDOWS end.

Definition is_separator (p : Platform) (c : Z) : bool :=
  match p with Posix => is_sep_posix c | _ => is_sep_any c end.

Definition trailing_separator (p : Platform) : bytes :=
  match p with Nt | Windows => b!".\" | Posix | Loose => b!"./" end.

Definition leading_separator_index_windows (path : bytes) : option nat :=
  match path with
  | [] => None
  | c0 :: r =>
    if is_sep_any c0 then Some 0%nat
    else
      match r with
      | c1 :: c2 :: _ =>
        if (#"A" <=? c0) && (c0 <=? #"Z") && (c1 =? #":") then if is_sep_any c2 then Some 2%nat else Some 1%nat
        else None
      | _ => None
      end
  end.

Definition leading_separator_index_posix (path : bytes) : option nat :=
  if is_absolute_posix path then Some 0%nat else None.

Definition leading_separator_index (p : Platform) (path : bytes) : option nat :=
  match p with
  | Nt | Windows => leading_separator_index_windows path
  | Posix => leading_separator_index_posix path
  | Loose =>
    match leading_separator_index_windows path with
    | Some i => Some i
    | None => leading_separator_index_posix path
    end
  end.

(** [rposition] and [position]. *)
Fixpoint position (f : Z -> bool) (l : bytes) : option nat :=
  match l with
  | [] => None
  | c :: r => if f c then Some 0%nat else S <$> position f r
  end.

Fixpoint rposition (f : Z -> bool) (l : bytes) : option nat :=
  match l with
  | [] => None
  | c :: r =>
    match rposition f r with
    | Some i => Some (S i)
    | None => if f c then Some 0%nat else None
    end
  end.

(** * Volumes *)

Definition is_drive_letter (c : Z) : bool := is_ascii_alphabetic c.

Definition to_ascii_upper (c : Z) : Z := if is_ascii_lowercase c then c - 32 else c.

(** [path[i]] where the length has been checked. *)
Definition at_ (path : bytes) (i : nat) : Z := nth i path 0.

Definition windows_volume_name_len (path : bytes) : nat * nat :=
  if decide (length path < 2)%nat then (0, 0)%nat
  else if (at_ path 1 =? #":") && is_drive_letter (at_ path 0) then (2, 0)%nat
  else if bool_decide (5 <= length path)%nat && is_sep_any (at_ path 0) && is_sep_any (at_ path 1) &&
          negb (is_sep_any (at_ path 2)) && negb (at_ path 2 =? #".") then
    match position is_sep_any (drop 3 path) with
    | Some idx =>
      if bool_decide (idx + 4 < length path)%nat && negb (is_sep_any (at_ path (idx + 4))) then
        match position is_sep_any (drop (idx + 4) path) with
        | Some idx2 => (idx + idx2 + 4, idx + 3)%nat
        | None => (length path, (idx + 3)%nat)
        end
      else (length path, 0%nat)
    | None => (length path, 0%nat)
    end
  else (0, 0)%nat.

Definition windows_filesystem_root (path : bytes) : bytes :=
  match path with
  | [] => []
  | [c] => if is_sep_any c then [c] else []
  | c :: c1 :: _ =>
    if (c1 =? #":") && is_drive_letter c then
      if bool_decide (2 < length path)%nat && is_sep_any (at_ path 2) then take 3 path else take 2 path
    else if bool_decide (5 <= length path)%nat && is_sep_any c && is_sep_any c1 && negb (is_sep_any (at_ path 2)) then
      if (at_ path 2 =? #".") && is_sep_any (at_ path 3) then take 4 path
      else
        match position is_sep_any (drop 3 path) with
        | Some idx =>
          match position is_sep_any (drop (4 + idx) path) with
          | Some idx_second => take (idx + idx_second + 4 + 1) path
          | None => path
          end
        | None => path
        end
    else if is_sep_any c then take 1 path else []
  end.

(** * Normalisation *)

Definition is_dotdot (slice : bytes) : bool := bool_decide (take 2 slice = b!"..").

(** [buf[i] = c]. *)
Definition put (buf : bytes) (i : nat) (c : Z) : option bytes := copy_from_slice buf i [c].

(** The four locals the loop changes. *)
Record NLoop := { n_buf : bytes; buf_i : nat; dotdot : nat; n_r : nat }.

(** [while buf_i > dotdot && !is_separator(buf[buf_i]) { buf_i -= 1 }]. *)
Fixpoint scan_back (is_separator : Z -> bool) (buf : bytes) (dotdot i : nat) : option nat :=
  match i with
  | O => Some 0%nat
  | S i' =>
    if decide (dotdot < i)%nat then
      c ← buf !! i;
      if is_separator c then Some i else scan_back is_separator buf dotdot i'
    else Some i
  end.

Section Generic.
Context (ALLOW_ABOVE_ROOT PRESERVE_TRAILING_SLASH ZERO_TERMINATE ADD_NT_PREFIX : bool).
Context (separator : Z) (is_separator : Z -> bool).

(** A round of the loop over [path], [buf_start] being where its output starts. *)
Definition normalize_step (path : bytes) (buf_start : nat) (s : NLoop) : option NLoop :=
  let n := length path in
  let r := n_r s in
  c ← path !! r;
  if is_separator c then Some {| n_buf := n_buf s; buf_i := buf_i s; dotdot := dotdot s; n_r := S r |}
  else if (c =? #".") && match path !! S r with None => true | Some c1 => is_separator c1 end then
    Some {| n_buf := n_buf s; buf_i := buf_i s; dotdot := dotdot s; n_r := S r |}
  else if is_dotdot (drop r path) && match path !! (r + 2)%nat with None => true | Some c2 => is_separator c2 end then
    let r := (r + 2)%nat in
    if decide (dotdot s < buf_i s)%nat then
      i ← scan_back is_separator (n_buf s) (dotdot s) (buf_i s - 1);
      Some {| n_buf := n_buf s; buf_i := i; dotdot := dotdot s; n_r := r |}
    else if ALLOW_ABOVE_ROOT then
      if decide (buf_start < buf_i s)%nat then
        buf ← copy_from_slice (n_buf s) (buf_i s) [separator; #"."; #"."];
        Some {| n_buf := buf; buf_i := buf_i s + 3; dotdot := buf_i s + 3; n_r := r |}
      else
        buf ← copy_from_slice (n_buf s) (buf_i s) b!"..";
        Some {| n_buf := buf; buf_i := buf_i s + 2; dotdot := buf_i s + 2; n_r := r |}
    else Some {| n_buf := n_buf s; buf_i := buf_i s; dotdot := dotdot s; n_r := r |}
  else
    '(buf, i) ←
      (if bool_decide (buf_i s <> buf_start) && bool_decide (0 < buf_i s)%nat then
         c ← n_buf s !! (buf_i s - 1)%nat;
         if is_separator c then Some (n_buf s, buf_i s)
         else buf ← put (n_buf s) (buf_i s) separator; Some (buf, S (buf_i s))
       else Some (n_buf s, buf_i s));
    let to := skip_while (fun c => negb (is_separator c)) path r in
    name ← slice path r to;
    buf ← copy_from_slice buf i name;
    Some {| n_buf := buf; buf_i := i + length name; dotdot := dotdot s; n_r := to |}.

Fixpoint normalize_loop (fuel : nat) (path : bytes) (buf_start : nat) (s : NLoop) : option NLoop :=
  if decide (n_r s < length path)%nat then
    match fuel with
    | O => None
    | S fuel => s ← normalize_step path buf_start s; normalize_loop fuel path buf_start s
    end
  else Some s.

Definition is_windows : bool := separator =? SEP_WINDOWS.

(** The volume of a Windows path: [inr] is a whole result, [inl] the buffer,
    [buf_i], [dotdot] and [path_begin]. *)
Definition normalize_volume (path_ buf : bytes) : option (bytes * nat * nat * nat + bytes * nat) :=
  let '(vol_len, index_of_third_unc_slash) := windows_volume_name_len path_ in
  if decide (0 < vol_len)%nat then
    '(buf, i) ← (if ADD_NT_PREFIX then buf ← copy_from_slice buf 0 b!"\??\"; Some (buf, 4%nat) else Some (buf, 0%nat));
    c1 ← path_ !! 1%nat;
    if negb (c1 =? #":") then
      '(buf, i) ←
        (if ADD_NT_PREFIX then buf ← copy_from_slice buf i (b!"UNC" ++ [separator]); Some (buf, (i + 2)%nat)
         else buf ← copy_from_slice buf i [separator; separator]; Some (buf, i));
      buf ←
        (if decide (0 < index_of_third_unc_slash)%nat then
           server ← slice path_ 2 (index_of_third_unc_slash + 1);
           buf ← copy_from_slice buf (i + 2) server;
           buf ← put buf (i + index_of_third_unc_slash) separator;
           share ← slice path_ (index_of_third_unc_slash + 1) vol_len;
           copy_from_slice buf (i + index_of_third_unc_slash + 1) share
         else
           server ← slice path_ 2 vol_len;
           copy_from_slice buf (i + 2) server);
      buf ← put buf (i + vol_len) separator;
      let i := (i + vol_len + 1)%nat in
      let path_begin := (vol_len + 1)%nat in
      if decide (length path_ <= path_begin)%nat then
        buf ← (if ZERO_TERMINATE then put buf i 0 else Some buf);
        Some (inr (buf, i))
      else Some (inl (buf, i, 0%nat, path_begin))
    else
      c0 ← path_ !! 0%nat;
      buf ← copy_from_slice buf i [to_ascii_upper c0; #":"];
      Some (inl (buf, (i + 2)%nat, (i + 2)%nat, 2%nat))
  else
    match path_ with
    | c :: _ =>
      if is_separator c then buf ← put buf 0 separator; Some (inl (buf, 1%nat, 1%nat, 1%nat)) else Some (inl (buf, 0%nat, 0%nat, 0%nat))
    | [] => Some (inl (buf, 0%nat, 0%nat, 0%nat))
    end.

(** After the loop. *)
Definition normalize_end (path_ path : bytes) (buf : bytes) (i : nat) : option (bytes * nat) :=
  '(buf, i) ←
    (if PRESERVE_TRAILING_SLASH && bool_decide (0 < i)%nat then
       l ← last path_;
       if l =? separator then
         c ← buf !! (i - 1)%nat;
         if negb (c =? separator) then buf ← put buf i separator; Some (buf, S i) else Some (buf, i)
       else Some (buf, i)
     else Some (buf, i));
  '(buf, i) ←
    (if is_windows && bool_decide (i = 2%nat) && bool_decide (buf !! 1%nat = Some #":") then
       buf ← put buf i (if bool_decide (path !! 0%nat = Some #"\") then #"\" else #".");
       Some (buf, S i)
     else Some (buf, i));
  buf ← (if ZERO_TERMINATE then put buf i 0 else Some buf);
  Some (buf, i).

(** The buffer, and the length of the result at its start. *)
Definition normalize_string_generic_tz (path_ buf : bytes) : option (bytes * nat) :=
  v ← (if is_windows then normalize_volume path_ buf else Some (inl (buf, 0%nat, 0%nat, 0%nat)));
  match v with
  | inr r => Some r
  | inl (buf, i, dd, path_begin) =>
    path ← (if is_windows then slice_from path_ path_begin else Some path_);
    let buf_start := if is_windows then i else 0%nat in
    s ←
      (if is_windows && (ALLOW_ABOVE_ROOT || bool_decide (0 < (windows_volume_name_len path_).1)%nat) then
         match path with
         | c :: _ =>
           if is_separator c then
             buf ← put buf i separator; Some {| n_buf := buf; buf_i := S i; dotdot := S i; n_r := 1 |}
           else Some {| n_buf := buf; buf_i := i; dotdot := dd; n_r := 0 |}
         | [] => Some {| n_buf := buf; buf_i := i; dotdot := dd; n_r := 0 |}
         end
       else Some {| n_buf := buf; buf_i := i; dotdot := dd; n_r := 0 |});
    s ← normalize_loop (length path) path buf_start s;
    normalize_end path_ path (n_buf s) (buf_i s)
  end.

End Generic.

(** The platforms; a result is the buffer and where the path stands in it. *)
Definition normalize_string_buf (ALLOW_ABOVE_ROOT : bool) (p : Platform) (PRESERVE_TRAILING_SLASH : bool) (str buf : bytes) :
    option (bytes * nat) :=
  match p with
  | Nt => None
  | Windows => normalize_string_generic_tz ALLOW_ABOVE_ROOT PRESERVE_TRAILING_SLASH false false SEP_WINDOWS is_sep_any str buf
  | Posix | Loose => normalize_string_generic_tz ALLOW_ABOVE_ROOT PRESERVE_TRAILING_SLASH false false SEP_POSIX is_sep_any str buf
  end.

(** [f] on [&mut buf[k..]]: the whole buffer and the length of the result. *)
Definition in_tail (k : nat) (buf : bytes) (f : bytes -> option (bytes * nat)) : option (bytes * nat) :=
  tail ← slice_from buf k;
  '(t, n) ← f tail;
  Some (take k buf ++ t, n).

Definition slash_to_posix (c : Z) : Z := if c =? #"\" then #"/" else c.
Definition slash_to_windows (c : Z) : Z := if c =? #"/" then #"\" else c.
Definition slashes_to_posix_in_place (path : bytes) : bytes := slash_to_posix <$> path.
Definition slashes_to_windows_in_place (path : bytes) : bytes := slash_to_windows <$> path.

(** The loop finds the backslashes after [idx] one by one. *)
Fixpoint posix_buf_loop (fuel : nat) (path buf : bytes) (idx : nat) : option bytes :=
  rest ← slice_from path idx;
  match position (Z.eqb SEP_WINDOWS) rest with
  | Some p =>
    match fuel with
    | O => None
    | S fuel =>
      let index := (p + idx)%nat in
      name ← slice path idx index;
      buf ← copy_from_slice buf idx name;
      buf ← put buf index SEP_POSIX;
      posix_buf_loop fuel path buf (S index)
    end
  | None => copy_from_slice buf idx rest
  end.

Definition path_to_posix_buf (path buf : bytes) : option bytes :=
  take (length path) <$> posix_buf_loop (length path) path buf 0.

(** * Names *)

(** [dirname] of a path with no separator on Windows (Path.rs). *)
Definition token_end (this_sep : Z) (path : bytes) (idx : nat) : option nat :=
  let idx := skip_while (Z.eqb this_sep) path idx in
  if decide (length path <= idx)%nat then None
  else Some (skip_while (fun c => negb (Z.eqb this_sep c)) path idx).

Definition disk_designator_len_windows (path : bytes) : nat :=
  if bool_decide (2 <= length path)%nat && (at_ path 1 =? #":") then 2%nat
  else if bool_decide (0 < length path)%nat && is_sep_any (at_ path 0) &&
          (bool_decide (length path = 1%nat) || negb (is_sep_any (at_ path 1))) then 0%nat
  else if decide (length path < 5)%nat then 0%nat
  else
    let unc this_sep :=
      if is_sep_any (at_ path 2) && (at_ path 2 =? this_sep) then 0%nat
      else default 0%nat (i ← token_end this_sep path 0; token_end this_sep path i) in
    if (at_ path 0 =? #"/") && (at_ path 1 =? #"/") then unc #"/"
    else if (at_ path 0 =? #"\") && (at_ path 1 =? #"\") then unc #"\"
    else 0%nat.

Definition disk_designator_windows (p : bytes) : bytes := take (disk_designator_len_windows p) p.

Fixpoint basename_end (path : bytes) (end_index : nat) : option nat :=
  if is_sep_any (at_ path end_index) then
    match end_index with O => None | S i => basename_end path i end
  else Some end_index.

(** [None] when the scan meets the start of the path. *)
Fixpoint basename_start (path : bytes) (start_index : nat) : option nat :=
  if negb (is_sep_any (at_ path start_index)) then
    match start_index with O => None | S i => basename_start path i end
  else Some start_index.

Definition basename (path : bytes) : bytes :=
  match path with
  | [] => []
  | _ =>
    match basename_end path (length path - 1) with
    | None => b!"/"
    | Some end_index =>
      match basename_start path end_index with
      | None => take (S end_index) path
      | Some start_index => take (S end_index - S start_index) (drop (S start_index) path)
      end
    end
  end.

Section Host.
(** The target ([cfg!(windows)]), the length of a [PathBuffer], the contents of
    the buffer the pool hands out, and libc's [strncasecmp(a, b, n) == 0]. *)
Context (windows : bool) (MAX_PATH_BYTES : Z) (pool : bytes) (strncasecmp_eq : bytes -> bytes -> nat -> bool) {F : ByteSearch}.

Definition SEP : Z := if windows then SEP_WINDOWS else SEP_POSIX.

Definition last_index_of_separator (p : Platform) (slice : bytes) : option nat :=
  match p with
  | Loose => if windows then rposition is_sep_any slice else rposition (Z.eqb #"/") slice
  | Nt | Windows => rposition is_sep_any slice
  | Posix => rposition (Z.eqb SEP_POSIX) slice
  end.

Definition platform_to_posix_in_place (path : bytes) : bytes :=
  if SEP =? #"/" then path else slashes_to_posix_in_place path.

Definition eql_case_insensitive_ascii (a b : bytes) (check_len : bool) : bool :=
  if check_len then
    if bool_decide (length a <> length b) then false
    else if decide (a = []) then true
    else strncasecmp_eq a b (length a)
  else if decide (length b < length a)%nat then false
  else strncasecmp_eq a b (length a).

Fixpoint dirname_loop (fuel : nat) (p : Platform) (str : bytes) : option bytes :=
  match fuel with
  | O => None
  | S fuel =>
    match p with
    | Loose => Some (match last_index_of_separator Loose str with Some s => take s str | None => [] end)
    | Posix =>
      match last_index_of_separator Posix str with
      | None => Some []
      | Some s =>
        if decide (s = 0%nat) then Some b!"/"
        else if decide (s = (length str - 1)%nat) then dirname_loop fuel p (take (length str - 1) str)
        else Some (take s str)
      end
    | Windows =>
      Some (match last_index_of_separator Windows str with Some s => take s str | None => disk_designator_windows str end)
    | Nt => None
    end
  end.

Definition dirname (p : Platform) (str : bytes) : option bytes := dirname_loop (S (length str)) p str.

Inductive ParentEqual := Parent | Equal | Unrelated.

Fixpoint trim_seps (fuel : nat) (parent : bytes) : bytes :=
  match fuel with
  | O => parent
  | S fuel =>
    match last parent with
    | Some c => if is_sep_any c then trim_seps fuel (take (length parent - 1) parent) else parent
    | None => parent
    end
  end.

(** Linux and Android. *)
Definition is_parent_or_equal (parent_ child : bytes) : ParentEqual :=
  let parent := trim_seps (length parent_) parent_ in
  match index_of child parent with
  | None => Unrelated
  | Some _ =>
    if decide (length child = length parent) then Equal
    else if bool_decide (length parent < length child)%nat && is_sep_any (at_ child (length parent)) then Parent
    else Unrelated
  end.

(** * Joining *)

Definition normalize_buf (p : Platform) (str buf : bytes) : option (bytes * nat) :=
  match str with
  | [] => buf ← put buf 0 #"."; Some (buf, 1%nat)
  | _ =>
    normalize_string_buf (is_absolute p str) p
      (bool_decide (last_index_of_separator p str = Some (length str - 1)%nat)) str buf
  end.

(** The buffer, and where the result starts and ends. *)
Definition normalize_string_node (p : Platform) (str buf : bytes) : option (bytes * nat * nat) :=
  match last str with
  | None => buf ← put buf 0 #"."; Some (buf, 0%nat, 1%nat)
  | Some l =>
    let absolute := is_absolute p str in
    let trailing := is_separator p l in
    let buf_off := match p with Windows => 0%nat | _ => 1%nat end in
    '(buf, out_len) ←
      in_tail buf_off buf (normalize_string_generic_tz (negb absolute) false false false (separator p) (is_separator p) str);
    if decide (out_len = 0%nat) then
      if absolute then buf ← put buf 0 (separator p); Some (buf, 0%nat, 1%nat)
      else if trailing then buf ← copy_from_slice buf 0 (trailing_separator p); Some (buf, 0%nat, 2%nat)
      else buf ← put buf 0 #"."; Some (buf, 0%nat, 1%nat)
    else
      '(buf, out_len) ←
        (if trailing then
           c ← buf !! (buf_off + out_len - 1)%nat;
           if negb (is_separator p c) then buf ← put buf (buf_off + out_len) (separator p); Some (buf, S out_len)
           else Some (buf, out_len)
         else Some (buf, out_len));
      if absolute then
        match p with
        | Windows => Some (buf, buf_off, (buf_off + out_len)%nat)
        | _ => buf ← put buf 0 (separator p); Some (buf, 0%nat, S out_len)
        end
      else Some (buf, buf_off, (buf_off + out_len)%nat)
  end.

Fixpoint parts_count (parts : list bytes) : nat :=
  match parts with
  | [] => 0
  | part :: r => ((match part with [] => 0 | _ => length part + 1 end) + parts_count r)%nat
  end.

Fixpoint write_parts (p : Platform) (parts : list bytes) (temp_buf : bytes) (written : nat) : option (bytes * nat) :=
  match parts with
  | [] => Some (temp_buf, written)
  | [] :: r => write_parts p r temp_buf written
  | part :: r =>
    '(temp_buf, written) ←
      (if decide (0 < written)%nat then temp_buf ← put temp_buf written (separator p); Some (temp_buf, S written)
       else Some (temp_buf, written));
    temp_buf ← copy_from_slice temp_buf written part;
    write_parts p r temp_buf (written + length part)
  end.

Definition TEMP_LEN : Z := 4096.

Definition join_string_buf (p : Platform) (parts : list bytes) (buf : bytes) : option (bytes * nat * nat) :=
  let count := parts_count parts in
  let temp_buf := replicate (Z.to_nat (Z.max TEMP_LEN (Z.of_nat (count * 2)))) 0 in
  '(temp_buf, written) ← write_parts p parts temp_buf 0;
  if decide (written = 0%nat) then buf ← put buf 0 #"."; Some (buf, 0%nat, 1%nat)
  else str ← slice temp_buf 0 written; normalize_string_node p str buf.

(** [JoinScratch]. *)
Definition scratch_total (base : nat) (parts : list bytes) : nat :=
  (base + 2 + sum_list_with (fun p => length p + 1) parts)%nat.

Definition scratch_init (base : nat) (parts : list bytes) : bytes :=
  if Z.of_nat (scratch_total base parts) <=? MAX_PATH_BYTES then pool else replicate (scratch_total base parts) 0.

(** The scan for absolute parts: [rest] is [parts[part_i..]] and [n_left] is
    [part_len - part_i]. *)
Definition as_u16 (n : nat) : nat := Z.to_nat (Z.of_nat n mod 2 ^ 16).

Fixpoint find_cwd (p : Platform) (cwd : bytes) (parts rest : list bytes) (n_left : nat) : bytes * list bytes :=
  match rest, n_left with
  | part :: rest, S n_left =>
    if is_absolute p part then find_cwd p part rest rest (as_u16 (length rest))
    else find_cwd p cwd parts rest n_left
  | _, _ => (cwd, parts)
  end.

Fixpoint append_parts (sep : Z) (parts : list bytes) (temp_buf : bytes) (out : nat) : option (bytes * nat) :=
  match parts with
  | [] => Some (temp_buf, out)
  | [] :: r => append_parts sep r temp_buf out
  | part :: r =>
    '(temp_buf, out) ←
      (if decide (0 < out)%nat then
         c ← temp_buf !! (out - 1)%nat;
         if negb (c =? sep) then temp_buf ← put temp_buf out sep; Some (temp_buf, S out) else Some (temp_buf, out)
       else Some (temp_buf, out));
    temp_buf ← copy_from_slice temp_buf out part;
    append_parts sep r temp_buf (out + length part)
  end.

(** The last part with a volume, and the last absolute part of that volume:
    the reversed parts are scanned, [n] of them being left. *)
Fixpoint last_volume (rev_parts : list bytes) : option bytes :=
  match rev_parts with
  | [] => None
  | part :: r =>
    let len := (windows_volume_name_len part).1 in
    if decide (0 < len)%nat then Some (take len part) else last_volume r
  end.

Definition volume (path : bytes) : bytes := take (windows_volume_name_len path).1 path.

Fixpoint last_absolute (root : bytes) (rev_parts : list bytes) : option (bytes * nat) :=
  match rev_parts with
  | [] => None
  | part :: r =>
    if is_absolute_windows part &&
       (bool_decide (volume part = []) || bool_decide (volume part = root))
    then Some (drop (length (volume part)) part, S (length r))
    else last_absolute root r
  end.

Fixpoint append_parts_windows (root : bytes) (parts : list bytes) (temp_buf : bytes) (out : nat) : option (bytes * nat) :=
  match parts with
  | [] => Some (temp_buf, out)
  | [] :: r => append_parts_windows root r temp_buf out
  | part :: r =>
    '(temp_buf, out) ←
      (if decide (0 < out)%nat then
         c ← temp_buf !! (out - 1)%nat;
         if negb (c =? #"\") then temp_buf ← put temp_buf out #"\"; Some (temp_buf, S out) else Some (temp_buf, out)
       else Some (temp_buf, out));
    skip ← (if decide (volume part = []) then Some false else negb <$> eql_long false (volume part) root true);
    if (skip : bool) then
      append_parts_windows root r temp_buf out
    else
      let part_without_vol := drop (length (volume part)) part in
      temp_buf ← copy_from_slice temp_buf out part_without_vol;
      append_parts_windows root r temp_buf (out + length part_without_vol)
  end.

(** A result is the buffer and the bytes returned. *)
Definition join_abs_string_buf_windows (IS_SENTINEL : bool) (cwd buf : bytes) (parts : list bytes) : option (bytes * bytes) :=
  if decide (parts = []) then if IS_SENTINEL then None else Some (buf, cwd)
  else
    let root := default (volume cwd) (last_volume (rev parts)) in
    let '(set_cwd, n_start) :=
      match last_absolute root (rev parts) with
      | Some r => r
      | None => if decide (volume cwd = root) then (drop (length (volume cwd)) cwd, 0%nat) else (b!"/", 0%nat)
      end in
    let temp_buf := scratch_init (length root + length set_cwd) (drop n_start parts) in
    temp_buf ← copy_from_slice temp_buf 0 root;
    temp_buf ← copy_from_slice temp_buf (length root) set_cwd;
    let out := (length root + length set_cwd)%nat in
    '(temp_buf, out) ←
      (if decide (set_cwd = []) then temp_buf ← put temp_buf out #"\"; Some (temp_buf, S out) else Some (temp_buf, out));
    '(temp_buf, out) ← append_parts_windows root (drop n_start parts) temp_buf out;
    str ← slice temp_buf 0 out;
    '(buf, result_len) ← normalize_string_buf false Windows true str buf;
    buf ← (if IS_SENTINEL then put buf result_len 0 else Some buf);
    Some (buf, take result_len buf).

Definition join_abs_string_buf_ (IS_SENTINEL : bool) (p : Platform) (_cwd buf : bytes) (_parts : list bytes) :
    option (bytes * bytes) :=
  if bool_decide (p = Windows) || (windows && bool_decide (p = Loose)) then
    join_abs_string_buf_windows IS_SENTINEL _cwd buf _parts
  else if decide (p = Nt) then
    tail ← slice_from buf 4;
    '(tail, end_path) ← join_abs_string_buf_windows IS_SENTINEL _cwd tail _parts;
    buf ← copy_from_slice (take 4 buf ++ tail) 0 b!"\\?\";
    buf ← (if IS_SENTINEL then put buf (length end_path + 4) 0 else Some buf);
    r ← slice buf 0 (length end_path + 4);
    Some (buf, r)
  else if decide (_parts = []) then if IS_SENTINEL then None else Some (buf, _cwd)
  else if decide (_parts = [[SEP_POSIX]]) then
    buf ← put buf 0 #"/";
    buf ← (if IS_SENTINEL then put buf 1 0 else Some buf);
    Some (buf, take 1 buf)
  else
    let cwd := if windows && bool_decide (3 <= length _cwd)%nat && (at_ _cwd 1 =? #":") then drop 2 _cwd else _cwd in
    let '(cwd, parts) := find_cwd p cwd _parts _parts (as_u16 (length _parts)) in
    temp_buf ← copy_from_slice (scratch_init (length cwd) parts) 0 cwd;
    '(temp_buf, out) ← append_parts (separator p) parts temp_buf (length cwd);
    joined ← slice temp_buf 0 out;
    let leading :=
      match leading_separator_index p joined with
      | Some i =>
        let outdir := take (i + 1) joined in
        if decide (p = Loose) then slashes_to_posix_in_place outdir else outdir
      | None => b!"/"
      end in
    buf ← copy_from_slice buf 0 leading;
    str ← slice joined (length leading) out;
    '(buf, result_len) ← in_tail (length leading) buf (normalize_string_buf false p true str);
    buf ← (if IS_SENTINEL then put buf (result_len + length leading) 0 else Some buf);
    Some (buf, take (result_len + length leading) buf).

Definition join_abs_string_buf (p : Platform) (cwd buf : bytes) (parts : list bytes) : option (bytes * bytes) :=
  join_abs_string_buf_ false p cwd buf parts.

Definition join_abs_string_buf_z (p : Platform) (cwd buf : bytes) (parts : list bytes) : option (bytes * bytes) :=
  join_abs_string_buf_ true p cwd buf parts.

(** The inner [None] is the [None] of the code. *)
Definition join_abs_string_buf_checked (p : Platform) (cwd buf : bytes) (parts : list bytes) : option (bytes * option bytes) :=
  let total := scratch_total (length cwd) parts in
  if decide (total < length buf)%nat then
    '(buf, r) ← join_abs_string_buf p cwd buf parts; Some (buf, Some r)
  else
    '(_, joined) ← join_abs_string_buf p cwd (replicate total 0) parts;
    if decide (length buf < length joined)%nat then Some (buf, None)
    else buf ← copy_from_slice buf 0 joined; Some (buf, Some (take (length joined) buf)).

End Host.
