(* ===== verification/PathNorm.v ===== *)
(** What src/src/paths/resolve_path.rs computes, on path segments: normalising
    is a walk over the segments with a stack, and joining resolves the
    concatenated segments. *)
From S2P Require Import Prelude BunCore Paths.

(** * Segments *)

Section Segments.
Context (f : Z -> bool).

(** The fields of [p] between separators. *)
Fixpoint fields (p : bytes) : list bytes :=
  match p with
  | [] => [[]]
  | c :: r =>
    if f c then [] :: fields r
    else match fields r with [] => [[c]] | s :: ss => (c :: s) :: ss end
  end.

Definition segments (p : bytes) : list bytes := filter (fun s => s <> []) (fields p).

(** A name holds no separator and is not empty. *)
Definition name (s : bytes) : Prop := s <> [] /\ Forall (fun c => f c = false) s.

(** The rest of the path at the end of a name. *)
Definition boundary (p : bytes) : Prop := forall c, head p = Some c -> f c = true.

Lemma fields_ne p : fields p <> [].
Proof. destruct p as [|c p]; cbn; [done|]. destruct (f c); [done|]. by destruct (fields p). Qed.

Lemma segments_sep c p : f c = true -> segments (c :: p) = segments p.
Proof. intros H. unfold segments. cbn. rewrite H. by rewrite filter_cons_False by naive_solver. Qed.

Lemma fields_app_sep a c b : f c = true -> fields (a ++ c :: b) = fields a ++ fields b.
Proof.
  intros Hc. induction a as [|x a IH]; cbn; [by rewrite Hc|].
  destruct (f x); [by rewrite IH|]. rewrite IH. pose proof (fields_ne a). by destruct (fields a).
Qed.

Lemma segments_app_sep a c b : f c = true -> segments (a ++ c :: b) = segments a ++ segments b.
Proof. intros Hc. unfold segments. by rewrite fields_app_sep, filter_app. Qed.

Lemma fields_name s : Forall (fun c => f c = false) s -> fields s = [s].
Proof. induction 1 as [|c s Hc _ IH]; cbn; [done|]. by rewrite Hc, IH. Qed.

Lemma segments_nil : segments [] = [].
Proof. done. Qed.

Lemma segments_name s p : name s -> boundary p -> segments (s ++ p) = s :: segments p.
Proof.
  intros [Hne Hs] Hp. destruct p as [|c p].
  - unfold segments. rewrite app_nil_r, fields_name by done. by rewrite filter_cons_True.
  - assert (f c = true) as Hc by (by apply Hp).
    rewrite segments_app_sep, segments_sep by done. unfold segments at 1.
    rewrite fields_name by done. by rewrite filter_cons_True.
Qed.

Lemma segments_names p : Forall name (segments p).
Proof.
  unfold segments. apply Forall_forall. intros s [Hne Hs]%list_elem_of_filter.
  split; [done|]. clear Hne. revert s Hs. induction p as [|c p IH]; cbn.
  - intros s ->%list_elem_of_singleton. done.
  - intros s. destruct (f c) eqn:E.
    + intros [->|Hs]%elem_of_cons; [done|by apply IH].
    + destruct (fields p) as [|h t]; [by intros ->%list_elem_of_singleton; repeat constructor|].
      intros [->|Hs]%elem_of_cons; [constructor; [done|apply IH; by left]|apply IH; by right].
Qed.

Lemma segments_seps a b : Forall (fun c => f c = true) a -> segments (a ++ b) = segments b.
Proof. induction 1 as [|c a Hc _ IH]; [done|]. cbn [app]. by rewrite segments_sep. Qed.

End Segments.

(** * Resolving segments *)

Section Resolve.
Context (allow : bool).

(** The ".." kept at the front, and the names after them, the last one first. *)
Definition push (st : nat * list bytes) (s : bytes) : nat * list bytes :=
  let '(ups, names) := st in
  if decide (s = b!".") then (ups, names)
  else if decide (s = b!"..") then
    match names with
    | _ :: names => (ups, names)
    | [] => if allow then (S ups, []) else (ups, [])
    end
  else (ups, s :: names).

Definition comps (st : nat * list bytes) : list bytes := replicate st.1 b!".." ++ rev st.2.

Definition resolve (ss : list bytes) : list bytes := comps (fold_left push ss (0%nat, [])).

(** A resolved list: ".." only at its front, and no "." *)
Definition proper (s : bytes) : Prop := s <> b!"." /\ s <> b!"..".

Lemma push_dot st : push st b!"." = st.
Proof. by destruct st. Qed.

Lemma push_up u n ns : push (u, n :: ns) b!".." = (u, ns).
Proof. done. Qed.

Lemma push_root u : push (u, []) b!".." = if allow then (S u, []) else (u, []).
Proof. done. Qed.

Lemma push_name st s : proper s -> push st s = (st.1, s :: st.2).
Proof. intros [H1 H2]. destruct st. unfold push. by rewrite !decide_False. Qed.

Lemma push_inv (st : nat * list bytes) s P :
  (st.1 <> 0%nat -> allow = true) -> Forall (fun n => P n /\ proper n) st.2 -> P s ->
  ((push st s).1 <> 0%nat -> allow = true) /\ Forall (fun n => P n /\ proper n) (push st s).2.
Proof.
  destruct st as [u ns]; cbn. intros Hu Hns Hs. repeat case_decide; [done| |].
  - destruct ns as [|? ns]; [by destruct allow|]. inv Hns. done.
  - split; [done|]. constructor; [|done]. done.
Qed.

Lemma resolve_inv ss st P :
  (st.1 <> 0%nat -> allow = true) -> Forall (fun n => P n /\ proper n) st.2 -> Forall P ss ->
  ((fold_left push ss st).1 <> 0%nat -> allow = true) /\ Forall (fun n => P n /\ proper n) (fold_left push ss st).2.
Proof.
  intros Hu Hns Hss. revert st Hu Hns. induction Hss as [|s ss Hs _ IH]; intros st Hu Hns; cbn; [done|].
  destruct (push_inv st s P) as [? ?]; [done..|]. by apply IH.
Qed.

(** Walking over proper names pushes them all. *)
Lemma fold_push_proper ns u acc : Forall proper ns -> fold_left push ns (u, acc) = (u, rev ns ++ acc).
Proof.
  intros H. revert acc. induction H as [|n ns Hn _ IH]; intros acc; cbn [fold_left]; [done|].
  rewrite push_name, IH by done. cbn. by rewrite <- app_assoc.
Qed.

Lemma fold_push_ups k u : allow = true -> fold_left push (replicate k b!"..") (u, []) = ((k + u)%nat, []).
Proof.
  intros Ha. revert u. induction k as [|k IH]; intros u; cbn [replicate fold_left]; [done|].
  rewrite push_root, Ha, IH. f_equal. lia.
Qed.

Lemma resolve_comps u ns :
  (u <> 0%nat -> allow = true) -> Forall proper ns -> resolve (comps (u, ns)) = comps (u, ns).
Proof.
  intros Hu Hns. unfold resolve. f_equal. unfold comps. cbn. rewrite fold_left_app.
  assert (fold_left push (replicate u b!"..") (0%nat, []) = (u, [])) as ->.
  { destruct u; [done|]. rewrite fold_push_ups by (by apply Hu). f_equal. lia. }
  rewrite fold_push_proper by (by apply Forall_rev). by rewrite rev_involutive, app_nil_r.
Qed.

Lemma resolve_idem ss : resolve (resolve ss) = resolve ss.
Proof.
  unfold resolve at 2 3. destruct (resolve_inv ss (0%nat, []) (fun _ => True)) as [Hu Hns]; [done|done|by apply Forall_true|].
  destruct (fold_left push ss (0%nat, [])) as [u ns]. apply resolve_comps; [done|].
  eapply Forall_impl; [done|]. naive_solver.
Qed.

End Resolve.

(** * Rendering *)

Section Render.
Context (sep : Z).

Fixpoint render (cs : list bytes) : bytes :=
  match cs with
  | [] => []
  | [c] => c
  | c :: r => c ++ sep :: render r
  end.

Lemma render_cons c r : r <> [] -> render (c :: r) = c ++ sep :: render r.
Proof. by destruct r. Qed.

Lemma render_path_snoc cs c : render (cs ++ [c]) = if decide (cs = []) then c else render cs ++ sep :: c.
Proof.
  induction cs as [|x cs IH]; [done|]. cbn [app]. rewrite render_cons by (by destruct cs).
  rewrite IH. case_decide; subst; cbn; [done|]. by destruct cs; [|rewrite <- app_assoc].
Qed.

Lemma render_nil cs : Forall (fun c => c <> []) cs -> render cs = [] -> cs = [].
Proof.
  destruct 1 as [|c cs Hc _]; [done|]. destruct cs; cbn; [done|]. by destruct c.
Qed.

Context (f : Z -> bool) (Hsep : f sep = true).

Lemma segments_render cs : Forall (name f) cs -> segments f (render cs) = cs.
Proof.
  induction 1 as [|c cs Hc Hcs IH]; [done|]. destruct (decide (cs = [])) as [->|Hne].
  - cbn [render]. rewrite <- (app_nil_r c) at 1. by rewrite segments_name.
  - rewrite render_cons, segments_name, segments_sep, IH by first [done|by intros ? [= <-]]. done.
Qed.

Lemma last_render cs c : Forall (name f) cs -> last (render cs) = Some c -> f c = false.
Proof.
  induction cs as [|x cs _] using rev_ind; [done|]. intros [_ Hx]%Forall_app.
  rewrite Forall_singleton in Hx. destruct Hx as [Hne Hx]. rewrite render_path_snoc. intros H.
  assert (last x = Some c) as Hl.
  { destruct x as [|y x]; [done|]. case_decide; [done|]. rewrite last_app, last_cons_cons in H.
    destruct (last (y :: x)) eqn:E; [done|]. by apply last_None in E. }
  apply last_Some_elem_of in Hl. rewrite Forall_forall in Hx. by apply Hx.
Qed.

End Render.

(** * The loop *)

Lemma copy_extend (buf : bytes) i src X :
  take i buf = X -> length X = i -> (i + length src <= length buf)%nat ->
  exists buf', copy_from_slice buf i src = Some buf' /\ length buf' = length buf /\ take (i + length src) buf' = X ++ src.
Proof.
  intros <- Hi Hl. rewrite copy_from_slice_ok by done. eexists. split; [done|].
  split; [by apply length_copied|]. apply take_copied. lia.
Qed.

Lemma scan_back_spec f buf d i j :
  (d <= j <= i)%nat -> (i < length buf)%nat ->
  (forall k, (j < k <= i)%nat -> exists c, buf !! k = Some c /\ f c = false) ->
  (j = d \/ exists c, buf !! j = Some c /\ f c = true) ->
  scan_back f buf d i = Some j.
Proof.
  intros Hj Hi Hn Hstop. induction i as [|i IH]; cbn; [f_equal; lia|].
  case_decide as Hd; [|f_equal; lia]. destruct (decide (j = S i)) as [->|Hne].
  - destruct Hstop as [?|(c & -> & Hc)]; [lia|]. cbn. by rewrite Hc.
  - destruct (Hn (S i)) as (c & -> & Hc); [lia|]. cbn. rewrite Hc. apply IH; [lia..|].
    intros k Hk. apply Hn. lia.
Qed.

Lemma boundary_drop f (path : bytes) i :
  boundary f (drop i path) <-> match path !! i with None => true | Some c => f c end = true.
Proof.
  unfold boundary. pose proof (lookup_drop path i 0) as H. rewrite Nat.add_0_r in H. rewrite <- H.
  destruct (drop i path) as [|c l]; cbn; [done|]. naive_solver.
Qed.

Section Loop.
Context (allow : bool) (sep : Z) (f : Z -> bool) (Hsep : f sep = true) (Hdot : f #"." = false).

Lemma name_dot : name f b!".".
Proof. split; [done|]. repeat constructor. done. Qed.

Lemma name_dotdot : name f b!"..".
Proof. split; [done|]. repeat constructor; done. Qed.

Lemma comps_names st : Forall (name f) st.2 -> Forall (name f) (comps st).
Proof.
  intros H. unfold comps. apply Forall_app. split; [|by apply Forall_rev].
  apply Forall_replicate, name_dotdot.
Qed.

Lemma comps_cons u n ns : comps (u, n :: ns) = comps (u, ns) ++ [n].
Proof. unfold comps. cbn. by rewrite app_assoc. Qed.

Lemma comps_up u : comps (S u, []) = comps (u, []) ++ [b!".."].
Proof. unfold comps. cbn [fst snd rev]. rewrite !app_nil_r. by rewrite replicate_S_end. Qed.

Notation text st := (render sep (comps st)).

Lemma text_name u n ns :
  text (u, n :: ns) = if decide (comps (u, ns) = []) then n else text (u, ns) ++ sep :: n.
Proof. by rewrite comps_cons, render_path_snoc. Qed.

(** The ups are the front of the text. *)
Lemma text_ups u ns : (length (text (u, [])) <= length (text (u, ns)))%nat.
Proof.
  induction ns as [|n ns IH]; [done|]. rewrite text_name. case_decide as E; cycle 1.
  - rewrite length_app. lia.
  - rewrite E in IH. cbn [render length] in IH. lia.
Qed.

(** The text ends with no separator. *)
Lemma text_last st c : Forall (name f) st.2 -> last (text st) = Some c -> f c = false.
Proof. intros Hn. by apply last_render, comps_names. Qed.

Record inv (path : bytes) (L : nat) (st : nat * list bytes) (s : NLoop) : Prop := {
  inv_buf : take (buf_i s) (n_buf s) = text st;
  inv_len : length (n_buf s) = L;
  inv_r : (buf_i s <= n_r s <= length path)%nat;
  inv_gap : boundary f (drop (n_r s) path) \/ buf_i s = 0%nat \/ (buf_i s < n_r s)%nat;
  inv_dotdot : dotdot s = length (text (st.1, []));
  inv_names : Forall (name f) st.2;
  inv_allow : st.1 <> 0%nat -> allow = true;
}.

Lemma inv_i path L st s : (length path <= L)%nat -> inv path L st s -> buf_i s = length (text st).
Proof. intros HL [Hb Hl Hr _ _ _ _]. rewrite <- Hb, length_take. lia. Qed.

Context (path : bytes) (L : nat) (HL : (length path <= L)%nat).

(** A round from [s], with stack [st]: the segments left lead to the same stack. *)
Definition advances (st : nat * list bytes) (s s' : NLoop) : Prop :=
  exists st', inv path L st' s' /\ (n_r s < n_r s')%nat /\
    fold_left (push allow) (segments f (drop (n_r s) path)) st =
    fold_left (push allow) (segments f (drop (n_r s') path)) st'.

Lemma drop_step r c : path !! r = Some c -> drop r path = c :: drop (S r) path.
Proof. intros. by apply drop_S. Qed.

Lemma step_skip st s s' n :
  inv path L st s -> n_buf s' = n_buf s -> buf_i s' = buf_i s -> dotdot s' = dotdot s ->
  (n_r s < n_r s' <= length path)%nat ->
  segments f (drop (n_r s) path) = n ++ segments f (drop (n_r s') path) ->
  fold_left (push allow) n st = st ->
  advances st s s'.
Proof.
  intros [Hb Hl Hr Hg Hd Hn Ha] Eb Ei Ed Hlt Hseg Hpush. exists st. split; [|split; [lia|]].
  - split; rewrite ?Eb, ?Ei, ?Ed; try done; lia.
  - by rewrite Hseg, fold_left_app, Hpush.
Qed.

(** "..", when there is a name to remove. *)
Lemma scan_name u n ns b i :
  take i b = text (u, n :: ns) -> i = length (text (u, n :: ns)) -> (i <= length b)%nat -> name f n ->
  scan_back f b (length (text (u, []))) (i - 1) = Some (length (text (u, ns))).
Proof.
  intros Hb -> Hl [Hne Hn]. pose proof (text_ups u ns) as Hup.
  assert (0 < length n)%nat as H0 by (destruct n; cbn; [done|lia]).
  assert (forall k, (k < length (text (u, n :: ns)))%nat -> b !! k = text (u, n :: ns) !! k) as Hk.
  { intros k Hk. rewrite <- Hb, lookup_take_lt; done. }
  rewrite text_name in *. case_decide as E.
  - rewrite E in *. cbn [render length] in *. apply scan_back_spec; [lia..| |left; lia].
    intros k Hk'. rewrite Hk by lia. destruct (lookup_lt_is_Some_2 n k) as [c Hc]; [lia|].
    exists c. split; [done|]. by eapply Forall_lookup_1 in Hn.
  - rewrite length_app in *. cbn [length] in *. apply scan_back_spec; [lia..| |right].
    + intros k Hk'. rewrite Hk, lookup_app_r by lia.
      destruct (lookup_lt_is_Some_2 n (k - length (text (u, ns)) - 1)) as [c Hc]; [lia|].
      exists c. split; [|by eapply Forall_lookup_1 in Hn].
      replace (k - length (text (u, ns)))%nat with (S (k - length (text (u, ns)) - 1)) by lia. done.
    + exists sep. split; [|done]. rewrite Hk, lookup_app_r, Nat.sub_diag by lia. done.
Qed.

(** ".." at [r]: what the stack becomes, the segments left being those after it. *)
Lemma step_up st s s' st' :
  inv path L st s -> length (n_buf s') = L ->
  take (buf_i s') (n_buf s') = text st' -> (buf_i s' <= n_r s' <= length path)%nat ->
  n_r s' = (n_r s + 2)%nat -> boundary f (drop (n_r s') path) ->
  dotdot s' = length (text (st'.1, [])) -> Forall (name f) st'.2 -> (st'.1 <> 0%nat -> allow = true) ->
  take 2 (drop (n_r s) path) = b!".." -> push allow st b!".." = st' ->
  advances st s s'.
Proof.
  intros Hinv Hl Hb Hr Er Hbd Hd Hn Ha Hdd Hpush. exists st'. split; [|split; [lia|]].
  - split; try done. by left.
  - rewrite Er in *. rewrite <- (take_drop 2 (drop (n_r s) path)), drop_drop, Hdd, segments_name by (done || apply name_dotdot).
    cbn [fold_left]. by rewrite Hpush.
Qed.

(** The separator before a name. *)
Lemma put_separator st b i :
  take i b = text st -> i = length (text st) -> (i < length b)%nat -> Forall (name f) st.2 ->
  exists b' i',
    (if bool_decide (i <> 0%nat) && bool_decide (0 < i)%nat then
       c ← b !! (i - 1)%nat; if f c then Some (b, i) else buf ← put b i sep; Some (buf, S i)
     else Some (b, i)) = Some (b', i') /\
    length b' = length b /\ take i' b' = (if decide (comps st = []) then [] else text st ++ [sep]) /\
    i' = length (if decide (comps st = []) then [] else text st ++ [sep]).
Proof.
  intros Hb Hi Hl Hn. case_decide as E.
  - rewrite E in *. cbn in Hi. subst i. cbn. by exists b, 0%nat.
  - assert (text st <> []) as Hne.
    { intros H. apply render_nil in H; [done|]. eapply Forall_impl; [by apply comps_names|]. by intros ? [? _]. }
    assert (0 < i)%nat by (rewrite Hi; destruct (text st); cbn; [done|lia]).
    rewrite !bool_decide_true by lia. cbn [andb].
    destruct (last (text st)) as [c|] eqn:El; [|by apply last_None in El].
    assert (b !! (i - 1)%nat = Some c) as ->.
    { rewrite <- El, last_lookup, <- Hb, length_take, lookup_take_lt by lia. f_equal. lia. }
    cbn [mbind option_bind]. rewrite (text_last st) by done.
    unfold put. edestruct copy_extend as (b' & -> & Hl' & Ht); [exact Hb|done|cbn; lia|].
    cbn. exists b', (S i). split; [done|]. split; [done|]. cbn [length] in Ht. rewrite Nat.add_1_r in Ht.
    split; [done|]. rewrite length_app. cbn. lia.
Qed.

Lemma prefix_name p c r : p = c :: r -> f c = false ->
  let k := prefix_len (fun c => negb (f c)) p in
  name f (take k p) /\ boundary f (drop k p) /\ (0 < k <= length p)%nat.
Proof.
  intros -> Hc k. assert (0 < k)%nat by (unfold k; cbn; rewrite Hc; cbn; lia).
  pose proof (prefix_len_le (fun c => negb (f c)) (c :: r)) as Hk. fold k in Hk. split; [split|split].
  - destruct k; [lia|done].
  - eapply Forall_impl; [apply prefix_len_Forall|]. cbn. intros x. by destruct (f x).
  - apply boundary_drop. destruct ((c :: r) !! k) as [x|] eqn:E; [|done].
    apply prefix_len_stop in E. by destruct (f x).
  - lia.
Qed.

Lemma step_name st s b i c :
  inv path L st s -> (n_r s < length path)%nat -> path !! n_r s = Some c -> f c = false ->
  let k := prefix_len (fun c => negb (f c)) (drop (n_r s) path) in
  proper (take k (drop (n_r s) path)) ->
  length b = L -> take i b = (if decide (comps st = []) then [] else text st ++ [sep]) ->
  i = length (if decide (comps st = []) then [] else text st ++ [sep]) ->
  exists b', copy_from_slice b i (take k (drop (n_r s) path)) = Some b' /\
    advances st s {| n_buf := b'; buf_i := i + k; dotdot := dotdot s; n_r := n_r s + k |}.
Proof.
  intros Hinv Hlt Hc Hf k Hp Hl Hb Hi.
  destruct (prefix_name (drop (n_r s) path) c (drop (S (n_r s)) path)) as (Hn & Hbd & Hk); [by apply drop_step|done|].
  fold k in Hn, Hbd, Hk. rewrite length_drop in Hk.
  pose proof (inv_i _ _ _ _ HL Hinv) as Hbi. destruct Hinv as [Hbuf Hlen Hr Hg Hd Hns Ha].
  assert (length (take k (drop (n_r s) path)) = k) as Hlk by (rewrite length_take, length_drop; lia).
  assert (i <= n_r s)%nat as Hir.
  { rewrite Hi. case_decide as E; [cbn; lia|]. rewrite length_app. cbn [length].
    destruct Hg as [Hg|[Hg|Hg]]; [|exfalso|lia].
    - rewrite boundary_drop, Hc in Hg. congruence.
    - rewrite Hg in Hbi. apply E, (render_nil sep); [|by apply nil_length_inv].
      eapply Forall_impl; [by apply comps_names|]. by intros ? [? _]. }
  destruct (copy_extend b i (take k (drop (n_r s) path)) _ Hb) as (b' & Hcp & Hl' & Ht); [done|lia|].
  rewrite Hlk in Ht. exists b'. split; [done|].
  exists (st.1, take k (drop (n_r s) path) :: st.2). split; [split|split]; cbn [n_buf buf_i dotdot n_r fst snd]; try done; try lia.
  - rewrite Ht, text_name. destruct st as [u ns]. cbn [fst snd]. case_decide; [done|]. by rewrite <- app_assoc.
  - left. by rewrite <- drop_drop.
  - by constructor.
  - rewrite <- (take_drop k (drop (n_r s) path)) at 1. rewrite segments_name by done. cbn [fold_left].
    by rewrite push_name, drop_drop by done.
Qed.

Notation step := (normalize_step allow sep f path 0).

Lemma step_dotdot st s b :
  inv path L st s -> (n_r s + 2 <= length path)%nat -> take 2 (drop (n_r s) path) = b!".." ->
  boundary f (drop (n_r s + 2) path) -> b = n_buf s ->
  exists s',
    (if decide (dotdot s < buf_i s)%nat then
       i ← scan_back f b (dotdot s) (buf_i s - 1);
       Some {| n_buf := b; buf_i := i; dotdot := dotdot s; n_r := n_r s + 2 |}
     else if allow then
       if decide (0 < buf_i s)%nat then
         buf ← copy_from_slice b (buf_i s) [sep; #"."; #"."];
         Some {| n_buf := buf; buf_i := buf_i s + 3; dotdot := buf_i s + 3; n_r := n_r s + 2 |}
       else
         buf ← copy_from_slice b (buf_i s) b!"..";
         Some {| n_buf := buf; buf_i := buf_i s + 2; dotdot := buf_i s + 2; n_r := n_r s + 2 |}
     else Some {| n_buf := b; buf_i := buf_i s; dotdot := dotdot s; n_r := n_r s + 2 |}) = Some s' /\ advances st s s'.
Proof.
  intros Hinv Hr2 Hdd Hbd ->. pose proof (inv_i _ _ _ _ HL Hinv) as Hbi.
  destruct (Hinv) as [Hb Hl Hr Hg Hd Hns Ha]. destruct st as [u [|n ns]]; cbn [fst snd] in *.
  - rewrite decide_False by lia. destruct allow eqn:Hal; cycle 1.
    + eexists. split; [done|]. eapply step_up; cbn [n_buf buf_i dotdot n_r]; try done; [lia|by intros Hu; specialize (Ha Hu)|].
      by rewrite push_root, Hal.
    + assert (0 < buf_i s -> buf_i s < n_r s)%nat as Hgap.
      { intros H0. destruct Hg as [Hg|[Hg|Hg]]; [exfalso|lia..]. specialize (Hg #".").
        destruct (drop (n_r s) path); [done|]. injection Hdd as -> _. rewrite Hdot in Hg. by discriminate Hg. }
      assert (u = 0%nat \/ comps (u, []) <> []) as Hu by (destruct u; [by left|by right]).
      destruct Hu as [->|Hu].
      * cbn in Hbi. rewrite Hbi, decide_False by lia.
        destruct (copy_extend (n_buf s) 0 b!".." [] eq_refl eq_refl) as (b' & -> & Hl' & Ht); [cbn; lia|].
        eexists. split; [done|]. eapply (step_up _ _ _ (1%nat, [])); cbn [n_buf buf_i dotdot n_r]; try done; try lia.
        by rewrite push_root, Hal.
      * assert (text (u, []) <> []) as Hne.
        { intros H. apply render_nil in H; [done|]. eapply Forall_impl; [by apply comps_names|]. by intros ? [? _]. }
        assert (0 < buf_i s)%nat by (rewrite Hbi; destruct (text (u, [])); cbn; [done|lia]).
        rewrite decide_True by lia.
        destruct (copy_extend (n_buf s) (buf_i s) [sep; #"."; #"."] _ Hb) as (b' & -> & Hl' & Ht); [done|cbn; lia|].
        assert (text (S u, []) = text (u, []) ++ [sep; #"."; #"."]) as Et by (by rewrite comps_up, render_path_snoc, decide_False).
        cbn [length] in Ht. eexists. split; [done|].
        eapply (step_up _ _ _ (S u, [])); cbn [n_buf buf_i dotdot n_r fst snd]; try done; try lia.
        -- congruence.
        -- rewrite Et, length_app. cbn [length]. lia.
        -- by rewrite push_root, Hal.
  - pose proof (text_ups u ns) as Hup. inv Hns.
    assert (length (text (u, ns)) < length (text (u, n :: ns)))%nat as Hlt.
    { rewrite text_name. destruct H1 as [Hne _]. destruct n; [done|]. case_decide as E; [rewrite E|rewrite length_app]; cbn; lia. }
    rewrite decide_True, Hd by lia. erewrite scan_name by (done || lia). cbn [mbind option_bind].
    eexists. split; [done|]. eapply (step_up _ _ _ (u, ns)); cbn [n_buf buf_i dotdot n_r fst snd]; try done; try lia.
    rewrite <- (Nat.min_l (length (text (u, ns))) (buf_i s)), <- take_take, Hb by lia.
    rewrite text_name. case_decide as E; [by rewrite E|]. apply take_app_length.
Qed.

Lemma round_ok st s :
  inv path L st s -> (n_r s < length path)%nat -> exists s', step s = Some s' /\ advances st s s'.
Proof.
  intros Hinv Hlt. destruct (lookup_lt_is_Some_2 path (n_r s)) as [c Hc]; [done|].
  pose proof (drop_step _ _ Hc) as Hdr. unfold normalize_step. rewrite Hc. cbn [mbind option_bind].
  destruct (f c) eqn:Hf.
  { eexists. split; [done|]. eapply (step_skip _ _ _ []); cbn [n_buf buf_i dotdot n_r]; try done; [lia|].
    by rewrite Hdr, segments_sep. }
  destruct ((c =? #".") && _) eqn:Ed.
  { apply andb_true_iff in Ed as [Ec%Z.eqb_eq Ed]. apply boundary_drop in Ed. eexists. split; [done|].
    eapply (step_skip _ _ _ [b!"."]); cbn [n_buf buf_i dotdot n_r]; try done; [lia| |apply push_dot].
    rewrite Hdr, Ec. apply (segments_name _ b!"."); [apply name_dot|done]. }
  destruct (is_dotdot _ && _) eqn:Edd.
  { apply andb_true_iff in Edd as [E2%bool_decide_eq_true Edd]. apply boundary_drop in Edd.
    apply step_dotdot; try done. apply (f_equal length) in E2. rewrite length_take, length_drop in E2. cbn [length] in E2. lia. }
  destruct (Hinv) as [Hb Hl Hr Hg _ Hns _]. pose proof (inv_i _ _ _ _ HL Hinv) as Hbi.
  destruct (put_separator st (n_buf s) (buf_i s)) as (b & i & -> & Hbl & Hbt & Hi); [done|done|lia|done|].
  cbn [mbind option_bind]. cbn zeta. unfold skip_while. set (k := prefix_len _ _) in *.
  destruct (prefix_name (drop (n_r s) path) c (drop (S (n_r s)) path)) as (Hn & Hbd & Hk); [done..|].
  fold k in Hn, Hbd, Hk. rewrite length_drop in Hk.
  unfold slice. rewrite decide_True by lia. replace (n_r s + k - n_r s)%nat with k by lia. cbn [mbind option_bind].
  destruct (step_name st s b i c) as (b' & Hcp & Hadv); [done..| |congruence|done|done|].
  - rewrite drop_drop in Hbd. apply boundary_drop in Hbd.
    pose proof (f_equal length (eq_refl (take k (drop (n_r s) path)))) as Hlk.
    rewrite length_take_le in Hlk at 1 by (rewrite length_drop; lia).
    split; intros Heq; fold k in Heq; rewrite Heq in Hlk; cbn in Hlk; rewrite Hlk in *.
    + rewrite Hdr in Heq. injection Heq as Heq. rewrite Nat.add_1_r in Hbd. by rewrite Heq, Hbd in Ed.
    + unfold is_dotdot in Edd. by rewrite Heq, bool_decide_true, Hbd in Edd.
  - fold k in Hcp, Hadv. rewrite Hcp. cbn [mbind option_bind]. eexists. split; [done|].
    by rewrite length_take_le by (rewrite length_drop; lia).
Qed.

Lemma loop_ok fuel st s :
  inv path L st s -> (length path - n_r s <= fuel)%nat ->
  exists s' st', normalize_loop allow sep f fuel path 0 s = Some s' /\ inv path L st' s' /\
    fold_left (push allow) (segments f (drop (n_r s) path)) st = st'.
Proof.
  revert st s. induction fuel as [|fuel IH]; intros st s Hinv Hf; cbn [normalize_loop].
  all: case_decide as Hlt; [try lia|exists s, st; split; [done|]; split; [done|]].
  all: try (by rewrite drop_ge by lia).
  destruct (round_ok st s Hinv Hlt) as (s1 & -> & st1 & Hinv1 & Hr & ->). cbn [mbind option_bind].
  apply IH; [done|lia].
Qed.

Lemma loop_start buf :
  length buf = L ->
  let cs := resolve allow (segments f path) in
  exists s, normalize_loop allow sep f (length path) path 0 {| n_buf := buf; buf_i := 0; dotdot := 0; n_r := 0 |} = Some s /\
    length (n_buf s) = L /\ take (buf_i s) (n_buf s) = render sep cs /\
    buf_i s = length (render sep cs) /\ (buf_i s <= length path)%nat.
Proof.
  intros Hl. destruct (loop_ok (length path) (0%nat, []) {| n_buf := buf; buf_i := 0; dotdot := 0; n_r := 0 |})
    as (s & st & -> & Hinv & Hst).
  - split; cbn; try done; [lia|by right; left].
  - cbn. lia.
  - cbn [n_r] in Hst. rewrite drop_0 in Hst. pose proof (inv_i _ _ _ _ HL Hinv) as Hi.
    destruct Hinv as [Hb Hlb Hr _ _ _ _]. exists s. unfold resolve. rewrite Hst. repeat split; try done. lia.
Qed.

End Loop.

Lemma render_resolve_le allow sep f p :
  f sep = true -> f #"." = false -> (length (render sep (resolve allow (segments f p))) <= length p)%nat.
Proof.
  intros Hs Hd. destruct (loop_start allow sep f Hs Hd p (length p) (le_n _) (replicate (length p) 0)) as (s & _ & _ & _ & <- & H).
  - apply length_replicate.
  - done.
Qed.

(** * [normalize_string_generic_tz], where the separator is "/" *)

Section Generic.
Context (allow pts zt nt : bool) (sep : Z) (f : Z -> bool).

(** The separator that is kept at the end. *)
Definition trailing (path : bytes) : bytes :=
  if pts && negb (bool_decide (resolve allow (segments f path) = [])) && bool_decide (last path = Some sep) then [sep] else [].

(** The normalised path. *)
Definition normalized (path : bytes) : bytes := render sep (resolve allow (segments f path)) ++ trailing path.

Context (Hsep : f sep = true) (Hdot : f #"." = false) (Hw : sep <> SEP_WINDOWS).

Lemma resolve_names path : Forall (name f) (resolve allow (segments f path)).
Proof.
  unfold resolve. apply comps_names; [done|].
  destruct (resolve_inv allow (segments f path) (0%nat, []) (name f)) as [_ H]; [done|done|apply segments_names|].
  eapply Forall_impl; [done|]. naive_solver.
Qed.

Lemma render_empty path : render sep (resolve allow (segments f path)) = [] -> resolve allow (segments f path) = [].
Proof. apply render_nil. eapply Forall_impl; [apply resolve_names|]. by intros ? [? _]. Qed.

Lemma resolved_last path c : last (render sep (resolve allow (segments f path))) = Some c -> f c = false.
Proof.
  apply text_last; [done|].
  destruct (resolve_inv allow (segments f path) (0%nat, []) (name f)) as [_ H]; [done|done|apply segments_names|].
  eapply Forall_impl; [done|]. naive_solver.
Qed.

Lemma segments_snoc p c : f c = true -> segments f (p ++ [c]) = segments f p.
Proof. intros H. rewrite segments_app_sep by done. apply app_nil_r. Qed.

Lemma normalized_le path : (length (normalized path) <= length path)%nat.
Proof.
  unfold normalized, trailing. pose proof (render_resolve_le allow sep f path Hsep Hdot) as H.
  destruct (pts && _ && _) eqn:E; [|rewrite app_nil_r; done].
  rewrite !andb_true_iff, bool_decide_eq_true in E. destruct E as [_ [p ->]%last_Some].
  rewrite segments_snoc, !length_app by done. cbn [length].
  pose proof (render_resolve_le allow sep f p Hsep Hdot). lia.
Qed.

(** A separator kept at the end, written after the text [T]. *)
Lemma end_trailing path b i :
  let T := render sep (resolve allow (segments f path)) in
  take i b = T -> i = length T -> (length (normalized path) <= length b)%nat ->
  exists b',
    (if pts && bool_decide (0 < i)%nat then
       l ← last path;
       if l =? sep then
         c ← b !! (i - 1)%nat;
         if negb (c =? sep) then buf ← put b i sep; Some (buf, S i) else Some (b, i)
       else Some (b, i)
     else Some (b, i)) = Some (b', length (normalized path)) /\
    length b' = length b /\ take (length (normalized path)) b' = normalized path.
Proof.
  intros T Hb Hi Hl. unfold normalized, trailing in *. fold T in Hl |- *.
  destruct pts; cbn [andb] in *; cycle 1.
  { rewrite app_nil_r, <- Hi. by exists b. }
  destruct (bool_decide (0 < i)%nat) eqn:H0; [apply bool_decide_eq_true in H0|apply bool_decide_eq_false in H0]; cycle 1.
  { assert (T = []) as HT by (apply nil_length_inv; lia). rewrite (bool_decide_true (resolve _ _ = [])) by (by apply render_empty).
    cbn [andb negb]. rewrite app_nil_r, <- Hi. by exists b. }
  rewrite (bool_decide_false (resolve _ _ = [])) in * by (intros H; rewrite Hi in H0; unfold T in H0; rewrite H in H0; cbn in H0; lia).
  cbn [andb negb] in *. destruct (last path) as [l|] eqn:El; cycle 1.
  { apply last_None in El. exfalso. unfold T in Hi. rewrite El, segments_nil in Hi. cbn [resolve fold_left] in Hi. cbn in Hi. lia. }
  cbn [mbind option_bind]. destruct (Z.eqb_spec l sep) as [->|Hne]; cycle 1.
  { rewrite bool_decide_false in * by congruence. rewrite app_nil_r, <- Hi. by exists b. }
  rewrite bool_decide_true, length_app in * by done. cbn [length] in *.
  destruct (last T) as [c|] eqn:Ec; [|apply last_None in Ec; rewrite Ec in Hi; cbn in Hi; lia].
  assert (b !! (i - 1)%nat = Some c) as ->.
  { rewrite <- Ec, last_lookup, <- Hb, length_take, lookup_take_lt by lia. f_equal. lia. }
  assert (f c = false) as Hc.
  { by eapply resolved_last. }
  cbn [mbind option_bind]. destruct (Z.eqb_spec c sep) as [->|]; [congruence|]. cbn [negb].
  destruct (copy_extend b i [sep] T Hb) as (b' & Hcp & Hl' & Ht); [done|cbn; lia|]. unfold put. rewrite Hcp.
  cbn. exists b'. cbn in Ht. rewrite Nat.add_1_r in Ht. rewrite <- Hi, Nat.add_1_r. done.
Qed.

(** Normalising never panics in a buffer as long as the path, with the NUL. *)
Lemma normalize_generic_spec path buf :
  (length path + (if zt then 1 else 0) <= length buf)%nat ->
  exists buf',
    normalize_string_generic_tz allow pts zt nt sep f path buf = Some (buf', length (normalized path)) /\
    length buf' = length buf /\ take (length (normalized path)) buf' = normalized path /\
    (zt = true -> buf' !! length (normalized path) = Some 0).
Proof.
  intros Hl. unfold normalize_string_generic_tz, is_windows, normalize_end, is_windows.
  rewrite (proj2 (Z.eqb_neq _ _)) by done. cbn [mbind option_bind andb].
  destruct (loop_start allow sep f Hsep Hdot path (length buf) ltac:(destruct zt; lia) buf eq_refl) as (s & -> & Hlb & Hb & Hi & Hle).
  cbn [mbind option_bind].
  pose proof (normalized_le path) as HN.
  destruct (end_trailing path (n_buf s) (buf_i s) Hb Hi ltac:(rewrite Hlb; destruct zt; lia)) as (b & -> & Hbl & Ht).
  cbn [mbind option_bind]. destruct zt; cbn [mbind option_bind]; cycle 1.
  - exists b. split; [done|]. split; [congruence|]. done.
  - destruct (copy_extend b _ [0] _ Ht eq_refl) as (b' & Hcp & Hl' & Ht'); [cbn; lia|]. unfold put. rewrite Hcp.
    cbn [mbind option_bind]. exists b'. cbn [length] in Ht'. split; [done|]. split; [congruence|].
    set (N := normalized path) in *. split.
    + rewrite <- (Nat.min_l (length N) (length N + 1)), <- take_take, Ht', take_app_length by lia. done.
    + intros _. rewrite <- (lookup_take_lt _ (length N + 1)), Ht', lookup_app_r, Nat.sub_diag by lia. done.
Qed.

End Generic.

(** * Normalising a normalised path *)

Section Idem.
Context (allow pts : bool) (sep : Z) (f : Z -> bool) (Hsep : f sep = true) (Hdot : f #"." = false).

Lemma segments_normalized path : segments f (normalized allow pts sep f path) = resolve allow (segments f path).
Proof.
  unfold normalized, trailing. pose proof (resolve_names allow f Hdot path) as Hn.
  destruct (_ && _ && _); [rewrite segments_snoc by done|rewrite app_nil_r]; by apply segments_render.
Qed.

Lemma last_normalized path c :
  last (normalized allow pts sep f path) = Some c -> f c = true ->
  c = sep /\ pts = true /\ resolve allow (segments f path) <> [].
Proof.
  unfold normalized, trailing. destruct (pts && _ && _) eqn:E.
  - rewrite !andb_true_iff, negb_true_iff, bool_decide_eq_false in E. rewrite last_snoc. intros [= <-] _. naive_solver.
  - rewrite app_nil_r. intros Hl%resolved_last Hc; [congruence|done].
Qed.

Lemma normalized_idem path :
  normalized allow pts sep f (normalized allow pts sep f path) = normalized allow pts sep f path.
Proof.
  unfold normalized at 1. rewrite segments_normalized, resolve_idem. unfold normalized at 2. f_equal.
  unfold trailing at 1. rewrite segments_normalized, resolve_idem.
  destruct (decide (last (normalized allow pts sep f path) = Some sep)) as [Hl|Hl].
  - destruct (last_normalized path sep Hl Hsep) as (_ & -> & Hne).
    rewrite bool_decide_false, bool_decide_true by done. cbn [andb negb].
    unfold trailing. rewrite bool_decide_false by done. cbn [andb negb]. case_bool_decide as H; [done|exfalso].
    unfold normalized, trailing in Hl. rewrite bool_decide_false, (bool_decide_false _ H), app_nil_r in Hl by done.
    apply resolved_last in Hl; [congruence|done].
  - rewrite (bool_decide_false (last _ = _)), andb_false_r by done.
    unfold trailing. destruct (pts && _ && _) eqn:E; [exfalso|done].
    apply Hl. unfold normalized, trailing. rewrite E. apply last_snoc.
Qed.

End Idem.
