(* ===== verification/PathJoin.v ===== *)
(** Joining paths on POSIX: [join] is Node's [path.join], and [join_abs] resolves
    the segments of the parts that follow the last absolute one. *)
From S2P Require Import Prelude BunCore Paths PathNorm.

(** * Specifications *)

(** Node's [path.posix.normalize]. *)
Definition node_normalize (s : bytes) : bytes :=
  let absolute := is_absolute_posix s in
  let slash : bytes := if bool_decide (last s = Some #"/") then b!"/" else [] in
  let cs := resolve (negb absolute) (segments is_sep_posix s) in
  if absolute then b!"/" ++ render #"/" cs ++ (if decide (cs = []) then [] else slash)
  else if decide (cs = []) then b!"." ++ slash
  else render #"/" cs ++ slash.

(** Node's [path.posix.join]. *)
Definition node_join (parts : list bytes) : bytes := node_normalize (render #"/" (filter (fun p => p <> []) parts)).

(** The parts from the last absolute one on, [acc] being those before [parts]. *)
Fixpoint effective (acc parts : list bytes) : list bytes :=
  match parts with
  | [] => acc
  | p :: r => if is_absolute_posix p then effective [p] r else effective (acc ++ [p]) r
  end.

Definition path_resolve (cwd : bytes) (parts : list bytes) : bytes :=
  let es := effective [cwd] parts in
  let cs := resolve false (concat (segments is_sep_any <$> es)) in
  b!"/" ++ render #"/" cs ++ (if decide (cs = []) then [] else if bool_decide (last (concat es) = Some #"/") then b!"/" else []).

(** * Buffers *)

(** [buf], of which [X] is the start. *)
Definition holds (buf : bytes) (i : nat) (X : bytes) : Prop := take i buf = X /\ i = length X /\ (i <= length buf)%nat.

Lemma holds_copy buf i X src :
  holds buf i X -> (i + length src <= length buf)%nat ->
  exists buf', copy_from_slice buf i src = Some buf' /\ length buf' = length buf /\ holds buf' (i + length src) (X ++ src).
Proof.
  intros (Ht & Hi & Hl) H. destruct (copy_extend buf i src X Ht) as (b & -> & Hb & Hbt); [done..|].
  exists b. split; [done|]. split; [done|]. split; [done|]. rewrite length_app. lia.
Qed.

Lemma holds_slice buf i X : holds buf i X -> slice buf 0 i = Some X.
Proof. intros (Ht & Hi & Hl). unfold slice. rewrite decide_True by lia. by rewrite drop_0, Nat.sub_0_r, Ht. Qed.

Lemma holds_nil buf : holds buf 0 [].
Proof. split; [done|]. cbn. lia. Qed.

Lemma holds_last buf i X c : holds buf i X -> last X = Some c -> buf !! (i - 1)%nat = Some c.
Proof.
  intros (Ht & Hi & Hl) Hc. rewrite last_lookup, <- Ht, length_take in Hc.
  assert (i <> 0%nat) by (intros ->; cbn in Hc; done).
  rewrite lookup_take_lt in Hc by lia. rewrite <- Hc. f_equal. lia.
Qed.

Lemma in_tail_holds k buf f X N tail' :
  holds buf k X -> f (drop k buf) = Some (tail', length N) -> length tail' = length (drop k buf) -> take (length N) tail' = N ->
  in_tail k buf f = Some (X ++ tail', length N) /\ length (X ++ tail') = length buf /\ holds (X ++ tail') (k + length N) (X ++ N).
Proof.
  intros (Ht & Hk & Hl) Hf Htl HN. unfold in_tail, slice_from. rewrite decide_True by done.
  cbn [mbind option_bind]. rewrite Hf. cbn. rewrite Ht. rewrite length_drop in Htl.
  apply (f_equal length) in HN as Hle. rewrite length_take in Hle.
  split; [done|]. rewrite !length_app, Htl. split; [lia|]. split; [|rewrite !length_app; lia].
  rewrite Hk, take_app_add. by rewrite HN.
Qed.

(** * [normalize_string_node] *)

Lemma sep_posix : is_sep_posix #"/" = true. Proof. done. Qed.
Lemma dot_posix : is_sep_posix #"." = false. Proof. done. Qed.

Lemma put_dot buf :
  (0 < length buf)%nat ->
  exists b, put buf 0 #"." = Some b /\ length b = length buf /\ slice b 0 1 = Some b!".".
Proof.
  intros H. unfold put. destruct (holds_copy buf 0 [] b!"." (holds_nil _)) as (b & Hb & ? & Hh); [cbn; lia|].
  exists b. split; [done|]. split; [done|]. by apply holds_slice in Hh.
Qed.

(** The separator in front of a path that starts at 1. *)
Lemma put_slash buf n c N :
  holds buf (1 + n) (c :: N) ->
  exists b, put buf 0 #"/" = Some b /\ length b = length buf /\ slice b 0 (S n) = Some (b!"/" ++ N).
Proof.
  intros (Ht & Hn & Hl). destruct buf as [|x buf]; [cbn in Hl; lia|]. exists (#"/" :: buf). cbn [length] in Hl.
  split; [|split; [done|]].
  - unfold put. rewrite copy_from_slice_ok by (cbn; lia). done.
  - unfold slice. rewrite decide_True by (cbn [length]; lia). cbn in *. injection Ht as _ Ht. by rewrite Ht.
Qed.

Lemma slice_tail buf n c N : holds buf (1 + n) (c :: N) -> slice buf 1 (1 + n) = Some N.
Proof.
  intros (Ht & Hn & Hl). unfold slice. rewrite decide_True by lia.
  destruct buf as [|x buf]; [cbn in Hl; lia|]. cbn in *. rewrite Nat.sub_0_r, drop_0. congruence.
Qed.

(** The separator kept at the end of a text that ends with none. *)
Lemma put_trailing b x T (tr : bool) :
  holds b (1 + length T) (x :: T) -> T <> [] -> (forall c, last T = Some c -> is_sep_posix c = false) ->
  (1 + length T + (if tr then 1 else 0) <= length b)%nat ->
  exists b' n,
    (if tr then
       c ← b !! (1 + length T - 1)%nat;
       if negb (is_sep_posix c) then buf ← put b (1 + length T) #"/"; Some (buf, S (length T)) else Some (b, length T)
     else Some (b, length T)) = Some (b', n) /\
    length b' = length b /\ holds b' (1 + n) (x :: T ++ (if tr then b!"/" else [])).
Proof.
  intros Hh Hne Hlast Hl. destruct tr; cycle 1.
  { rewrite app_nil_r. by exists b, (length T). }
  destruct (last T) as [c|] eqn:Ec; [|by apply last_None in Ec].
  assert (b !! (1 + length T - 1)%nat = Some c) as ->.
  { eapply holds_last; [done|]. destruct T; [done|]. by rewrite last_cons_cons. }
  cbn [mbind option_bind]. rewrite Hlast by done. cbn [negb].
  unfold put. destruct (holds_copy b (1 + length T) (x :: T) b!"/" Hh) as (b' & -> & Hb & Hh'); [cbn [length]; lia|].
  cbn [mbind option_bind]. exists b', (S (length T)). split; [done|]. split; [done|].
  cbn [length] in Hh'. rewrite Nat.add_1_r in Hh'. done.
Qed.

Lemma normalize_string_node_spec s buf :
  (length s < length buf)%nat ->
  exists buf' a b, normalize_string_node Posix s buf = Some (buf', a, b) /\ length buf' = length buf /\
    slice buf' a b = Some (node_normalize s).
Proof.
  intros Hl. unfold normalize_string_node. destruct (last s) as [l|] eqn:El; cycle 1.
  { apply last_None in El. subst s. destruct (put_dot buf) as (b & -> & Hb & Hs); [cbn in Hl; lia|].
    by exists b, 0%nat, 1%nat. }
  assert (0 < length s)%nat as Hs0 by (destruct s; [done|cbn; lia]).
  unfold node_normalize. cbn [is_absolute is_separator separator trailing_separator]. unfold SEP_POSIX.
  change (is_separator Posix) with is_sep_posix. rewrite El.
  replace (bool_decide (Some l = Some #"/")) with (is_sep_posix l) by (unfold is_sep_posix; case_bool_decide; [by apply Z.eqb_eq; congruence|apply Z.eqb_neq; congruence]).
  set (abs := is_absolute_posix s). set (cs := resolve (negb abs) (segments is_sep_posix s)).
  destruct buf as [|x buf]; [cbn in Hl; lia|].
  destruct (normalize_generic_spec (negb abs) false false false #"/" is_sep_posix sep_posix dot_posix ltac:(done) s buf)
    as (t & Hn & Ht & HN & _); [cbn in Hl; lia|].
  unfold normalized, trailing in Hn, HN. cbn [andb] in Hn, HN. rewrite app_nil_r in Hn, HN. fold cs in Hn, HN.
  destruct (in_tail_holds 1 (x :: buf) _ [x] (render #"/" cs) t ltac:(split; [done|cbn; lia]) Hn Ht HN) as (Hit & Hlt & Hh).
  rewrite Hit. cbn [mbind option_bind app] in *. clear Hit Hn HN Ht.
  assert (render #"/" cs = [] -> cs = []) as Hcs by (by apply render_empty).
  case_decide as H0.
  - apply nil_length_inv in H0 as Hr. rewrite Hr in *. rewrite (Hcs eq_refl) in *. rewrite !decide_True by done.
    destruct abs; [|destruct (is_sep_posix l) eqn:Esl].
    + destruct (put_slash _ 0 _ _ Hh) as (b & -> & Hb & Hsl). exists b, 0%nat, 1%nat. split; [done|]. by rewrite Hb.
    + change (trailing_separator Posix) with b!"./". destruct (holds_copy (x :: t) 0 [] b!"./" (holds_nil _)) as (b & -> & Hb & Hh'); [cbn in *; lia|].
      exists b, 0%nat, 2%nat. split; [done|]. rewrite Hb. split; [done|]. by apply holds_slice in Hh'.
    + destruct (put_dot (x :: t)) as (b & -> & Hb & Hsl); [cbn; lia|]. exists b, 0%nat, 1%nat. split; [done|]. by rewrite Hb.
  - assert (cs <> []) as Hne by (intros Hc; rewrite Hc in H0; done).
    rewrite !decide_False by done.
    destruct (put_trailing (x :: t) x (render #"/" cs) (is_sep_posix l)) as (b & n & -> & Hb & Hh'); [done|by intros ?%Hcs| | |].
    + intros c Hc. by eapply resolved_last in Hc.
    + pose proof (normalized_le (negb abs) true #"/" is_sep_posix sep_posix dot_posix s) as Hle.
      unfold normalized, trailing in Hle. fold cs in Hle. rewrite bool_decide_false, El in Hle by done. cbn [andb negb] in Hle.
      rewrite Hlt. destruct (is_sep_posix l) eqn:Esl; [|rewrite length_app in Hle; cbn [length] in *; lia].
      apply Z.eqb_eq in Esl. rewrite bool_decide_true, length_app in Hle by congruence. cbn [length] in *. lia.
    + cbn [mbind option_bind]. destruct abs.
      * destruct (put_slash _ _ _ _ Hh') as (b' & -> & Hb' & Hsl). exists b', 0%nat, (S n). split; [done|]. split; [congruence|done].
      * exists b, 1%nat, (1 + n)%nat. split; [done|]. split; [congruence|]. by eapply slice_tail.
Qed.

(** * [join] *)

Notation nonempty := (filter (fun p : bytes => p <> [])).

Lemma render_app_length sep cs p :
  (length (render sep cs) <= length (render sep (cs ++ [p])))%nat.
Proof. rewrite render_path_snoc. case_decide; [subst; cbn; lia|]. rewrite length_app. lia. Qed.

Lemma render_mono sep cs ds : (length (render sep cs) <= length (render sep (cs ++ ds)))%nat.
Proof.
  revert cs. induction ds as [|d ds IH]; intros cs; [by rewrite app_nil_r|].
  rewrite cons_middle, app_assoc. etrans; [|apply IH]. apply render_app_length.
Qed.

Lemma parts_count_nonempty parts :
  parts_count parts = sum_list_with (fun p : bytes => length p + 1)%nat (nonempty parts).
Proof.
  induction parts as [|p parts IH]; [done|]. destruct p as [|x p].
  - rewrite filter_cons_False by naive_solver. done.
  - rewrite filter_cons_True by done. cbn [parts_count sum_list_with]. by rewrite IH.
Qed.

Lemma length_render_sum cs : (length (render #"/" cs) <= sum_list_with (fun p : bytes => length p + 1)%nat cs)%nat.
Proof.
  induction cs as [|c cs IH]; [done|]. destruct (decide (cs = [])) as [->|Hne]; [cbn; lia|].
  rewrite render_cons, length_app by done. cbn [length sum_list_with]. lia.
Qed.

Lemma write_parts_spec parts temp w cs :
  holds temp w (render #"/" cs) -> Forall (fun c => c <> []) cs ->
  (length (render #"/" (cs ++ nonempty parts)) <= length temp)%nat ->
  exists temp' w', write_parts Posix parts temp w = Some (temp', w') /\
    holds temp' w' (render #"/" (cs ++ nonempty parts)).
Proof.
  revert temp w cs. induction parts as [|p parts IH]; intros temp w cs Hh Hcs Hl.
  { exists temp, w. rewrite app_nil_r. done. }
  destruct p as [|x p].
  { rewrite filter_cons_False in Hl |- * by naive_solver. by apply IH. }
  rewrite filter_cons_True in Hl |- * by done. cbn [write_parts separator]. unfold SEP_POSIX.
  rewrite cons_middle, app_assoc in Hl |- *.
  assert (length (render #"/" (cs ++ [x :: p])) <= length temp)%nat as Hl1 by (etrans; [apply render_mono|exact Hl]).
  assert (exists t i, (if decide (0 < w)%nat then t ← put temp w #"/"; Some (t, S w) else Some (temp, w)) = Some (t, i) /\
    length t = length temp /\ holds t i (if decide (cs = []) then [] else render #"/" cs ++ b!"/")) as (t & i & -> & Ht & Hi).
  { destruct Hh as (Hb & Hw & Hlw). rewrite render_path_snoc in Hl1. case_decide as E.
    - subst cs. cbn in Hw. subst w. rewrite decide_False by lia. exists temp, 0%nat. split; [done|]. split; [done|apply holds_nil].
    - assert (w <> 0%nat) by (intros ->; apply E, (render_nil #"/"); [done|]; by apply nil_length_inv).
      rewrite decide_True by lia. rewrite length_app in Hl1. cbn [length] in Hl1.
      destruct (holds_copy temp w (render #"/" cs) b!"/") as (t & Hp & Hlt & Hi); [done|cbn [length]; lia|].
      unfold put. rewrite Hp. exists t, (S w). cbn [length] in Hi. rewrite Nat.add_1_r in Hi. done. }
  cbn [mbind option_bind].
  assert ((if decide (cs = []) then [] else render #"/" cs ++ b!"/") ++ (x :: p) = render #"/" (cs ++ [x :: p])) as Et.
  { rewrite render_path_snoc. case_decide; [done|]. by rewrite <- app_assoc. }
  destruct (holds_copy t i _ (x :: p) Hi) as (t' & -> & Ht' & Hh').
  { rewrite <- Et, length_app in Hl1. destruct Hi as (_ & -> & _). lia. }
  cbn [mbind option_bind]. rewrite Et in Hh'. apply IH; [done| |congruence].
  apply Forall_app. split; [done|]. by repeat constructor.
Qed.

Lemma join_string_buf_spec parts buf :
  (parts_count parts < length buf)%nat ->
  exists buf' a b, join_string_buf Posix parts buf = Some (buf', a, b) /\ length buf' = length buf /\
    slice buf' a b = Some (node_join parts).
Proof.
  intros Hl. unfold join_string_buf. cbn zeta.
  set (temp := replicate _ 0). pose proof (length_render_sum (nonempty parts)) as Hr. rewrite <- parts_count_nonempty in Hr.
  assert (parts_count parts * 2 <= length temp)%nat by (unfold temp; rewrite length_replicate; lia).
  destruct (write_parts_spec parts temp 0 []) as (t & w & -> & Hh); [apply holds_nil|done|cbn [app]; lia|].
  cbn [mbind option_bind app] in *. destruct (Hh) as (Ht & Hw & _). case_decide as E.
  - subst w. destruct (put_dot buf) as (b & -> & Hb & Hs); [lia|]. exists b, 0%nat, 1%nat. split; [done|]. split; [done|].
    unfold node_join. by rewrite (nil_length_inv (render _ _)).
  - rewrite (holds_slice _ _ _ Hh). cbn [mbind option_bind]. apply normalize_string_node_spec. lia.
Qed.

(** * [join_abs] *)

(** What a part adds to the text before it. *)
Definition add_part (X p : bytes) : bytes :=
  match p with
  | [] => X
  | _ => if decide (X = []) then p else if bool_decide (last X = Some #"/") then X ++ p else X ++ b!"/" ++ p
  end.

Lemma length_add_part X p : (length X + length p <= length (add_part X p) <= length X + length p + 1)%nat.
Proof. unfold add_part. destruct p; [cbn; lia|]. repeat case_match; subst; rewrite ?length_app; cbn; lia. Qed.

Lemma append_parts_spec parts temp out X :
  holds temp out X -> (length X + sum_list_with (fun p : bytes => length p + 1)%nat parts <= length temp)%nat ->
  exists temp' out', append_parts #"/" parts temp out = Some (temp', out') /\ holds temp' out' (fold_left add_part parts X).
Proof.
  revert temp out X. induction parts as [|p parts IH]; intros temp out X Hh Hl; [by exists temp, out|].
  cbn [sum_list_with] in Hl. destruct p as [|x p]; [apply (IH temp out X); [done|lia]|].
  cbn [append_parts fold_left]. pose proof (length_add_part X (x :: p)) as Hap.
  assert (exists t i, (if decide (0 < out)%nat then
        c ← temp !! (out - 1)%nat; if negb (c =? #"/") then t ← put temp out #"/"; Some (t, S out) else Some (temp, out)
      else Some (temp, out)) = Some (t, i) /\ length t = length temp /\
      exists Y, holds t i Y /\ Y ++ x :: p = add_part X (x :: p)) as (t & i & -> & Ht & Y & Hi & HY).
  { unfold add_part. destruct (Hh) as (Hb & Ho & _). case_decide as H0; cycle 1.
    - assert (X = []) as -> by (apply nil_length_inv; lia). exists temp, out. split; [done|]. split; [done|]. by exists [].
    - rewrite (decide_False (P := X = [])) by (intros ->; cbn in Ho; lia).
      destruct (last X) as [c|] eqn:Ec; [|apply last_None in Ec; rewrite Ec in Ho; cbn in Ho; lia].
      rewrite (holds_last _ _ _ _ Hh Ec). cbn [mbind option_bind]. destruct (Z.eqb_spec c #"/") as [->|Hne]; cbn [negb].
      + exists temp, out. split; [done|]. split; [done|]. exists X. by rewrite bool_decide_true.
      + destruct (holds_copy temp out X b!"/" Hh) as (t & Hp & Hlt & Hi); [cbn [length] in *; lia|].
        unfold put. rewrite Hp. exists t, (S out). split; [done|]. split; [done|]. exists (X ++ b!"/").
        cbn [length] in Hi. rewrite Nat.add_1_r in Hi. split; [done|].
        by rewrite bool_decide_false, <- app_assoc by congruence. }
  cbn [mbind option_bind]. apply (f_equal length) in HY as HYl. rewrite length_app in HYl.
  destruct (holds_copy t i Y (x :: p) Hi) as (t' & -> & Ht' & Hh'); [destruct Hi as (_ & -> & _); cbn [length] in *; lia|].
  cbn [mbind option_bind]. rewrite HY in Hh'. apply IH; [done|]. cbn [length] in *. lia.
Qed.

Lemma segments_add_part f X p : f #"/" = true -> segments f (add_part X p) = segments f X ++ segments f p.
Proof.
  intros Hf. unfold add_part. destruct p as [|x p]; [by rewrite segments_nil, app_nil_r|]. repeat case_match; subst.
  - done.
  - match goal with H : bool_decide _ = true |- _ => apply bool_decide_eq_true, last_Some in H as [X' ->] end.
    rewrite <- app_assoc. cbn [app]. rewrite segments_app_sep, segments_snoc by done. done.
  - cbn [app]. by rewrite segments_app_sep.
Qed.

Lemma segments_joined f parts X :
  f #"/" = true -> segments f (fold_left add_part parts X) = segments f X ++ concat (segments f <$> parts).
Proof.
  intros Hf. revert X. induction parts as [|p parts IH]; intros X; cbn [fold_left fmap list_fmap concat sum_list_with]; [by rewrite app_nil_r|].
  by rewrite IH, segments_add_part, <- app_assoc.
Qed.

Lemma last_add_part X p : last (add_part X p) = last (X ++ p).
Proof.
  unfold add_part. destruct p as [|x p]; [by rewrite app_nil_r|]. repeat case_match; subst; [done..|].
  cbn [app]. rewrite !last_app, last_cons_cons. by destruct (last (x :: p)) eqn:E; [|apply last_None in E].
Qed.

Lemma last_joined parts X : last (fold_left add_part parts X) = last (X ++ concat parts).
Proof.
  revert X. induction parts as [|p parts IH]; intros X; cbn [fold_left fmap list_fmap concat sum_list_with]; [by rewrite app_nil_r|].
  rewrite IH, app_assoc, !last_app. by rewrite last_add_part, last_app.
Qed.

Lemma head_joined parts X c : head X = Some c -> head (fold_left add_part parts X) = Some c.
Proof.
  revert X. induction parts as [|p parts IH]; intros X HX; cbn [fold_left fmap list_fmap concat sum_list_with]; [done|]. apply IH.
  unfold add_part. destruct p; [done|]. repeat case_match; subst; try done; by destruct X.
Qed.

Lemma length_joined parts X :
  (length (fold_left add_part parts X) <= length X + sum_list_with (fun p : bytes => length p + 1)%nat parts)%nat.
Proof.
  revert X. induction parts as [|p parts IH]; intros X; cbn [fold_left fmap list_fmap concat sum_list_with]; [lia|]. etrans; [apply IH|].
  pose proof (length_add_part X p). lia.
Qed.

(** The scan finds the last absolute part. *)
Lemma as_u16_id n : (Z.of_nat n < 2 ^ 16) -> as_u16 n = n.
Proof. intros. unfold as_u16. rewrite Z.mod_small by lia. lia. Qed.

Lemma find_cwd_spec cwd pre rest :
  Z.of_nat (length rest) < 2 ^ 16 ->
  let '(c, ps) := find_cwd Posix cwd (pre ++ rest) rest (length rest) in c :: ps = effective (cwd :: pre) rest.
Proof.
  revert cwd pre. induction rest as [|p rest IH]; intros cwd pre Hl; cbn; [by rewrite app_nil_r|].
  cbn [length] in Hl. destruct (is_absolute_posix p).
  - rewrite as_u16_id by lia. apply (IH p []). lia.
  - rewrite cons_middle, app_assoc. apply IH. lia.
Qed.

Lemma effective_spec parts acc n :
  head acc <> None -> (forall c, head acc = Some c -> is_absolute_posix c = true) ->
  (sum_list_with (fun p : bytes => length p + 1)%nat acc <= n)%nat ->
  exists c ps, effective acc parts = c :: ps /\ is_absolute_posix c = true /\
    (sum_list_with (fun p : bytes => length p + 1) (c :: ps) <= n + sum_list_with (fun p : bytes => length p + 1) parts)%nat.
Proof.
  revert acc n. induction parts as [|p parts IH]; intros acc n Hne Ha Hn; cbn [effective].
  - destruct acc as [|c ps]; [done|]. exists c, ps. split; [done|]. split; [by apply Ha|]. cbn [sum_list_with] in *. lia.
  - cbn [sum_list_with]. destruct (is_absolute_posix p) eqn:E.
    + destruct (IH [p] (length p + 1)%nat) as (c & ps & Heq & Hc & Hs); [done|by intros ? [= <-]|cbn; lia|].
      exists c, ps. split; [done|]. split; [done|]. cbn [sum_list_with] in *. lia.
    + destruct (IH (acc ++ [p]) (n + (length p + 1))%nat) as (c & ps & Heq & Hc & Hs).
      * by destruct acc.
      * intros c. destruct acc; [done|]. apply Ha.
      * rewrite sum_list_with_app. cbn [sum_list_with]. lia.
      * exists c, ps. split; [done|]. split; [done|]. cbn [sum_list_with] in *. lia.
Qed.

Lemma sep_any : is_sep_any #"/" = true. Proof. done. Qed.
Lemma dot_any : is_sep_any #"." = false. Proof. done. Qed.

(** The text after the root, normalised, is the resolved path without its root. *)
Lemma path_resolve_joined cwd parts c ps str :
  effective [cwd] parts = c :: ps -> is_absolute_posix c = true ->
  fold_left add_part ps c = #"/" :: str ->
  b!"/" ++ normalized false true #"/" is_sep_any str = path_resolve cwd parts.
Proof.
  intros He Hc Hj. unfold path_resolve, normalized, trailing. rewrite He.
  assert (segments is_sep_any str = concat (segments is_sep_any <$> c :: ps)) as Hs.
  { cbn [fmap list_fmap concat]. rewrite <- segments_joined, Hj, segments_sep by done. done. }
  assert (last (concat (c :: ps)) = last (#"/" :: str)) as Hlast by (rewrite <- Hj, last_joined; done).
  rewrite <- Hs, Hlast. cbn [andb]. f_equal. f_equal. destruct (decide (resolve _ _ = [])) as [E|E].
  - by rewrite bool_decide_true.
  - rewrite (bool_decide_false (resolve _ _ = [])) by done. cbn [andb negb]. destruct str as [|x str]; [|by rewrite last_cons_cons].
    exfalso. apply E. by rewrite segments_nil.
Qed.

Section JoinAbs.
Context (MAX_PATH_BYTES : Z) (pool : bytes) (Hpool : Z.of_nat (length pool) = MAX_PATH_BYTES).

Lemma length_scratch base parts : (scratch_total base parts <= length (scratch_init MAX_PATH_BYTES pool base parts))%nat.
Proof. unfold scratch_init. destruct (Z.leb_spec (Z.of_nat (scratch_total base parts)) MAX_PATH_BYTES); [lia|]. by rewrite length_replicate. Qed.

Lemma path_resolve_cons cwd parts : exists N, path_resolve cwd parts = #"/" :: N.
Proof. by eexists. Qed.

(** What follows the scan for the last absolute part. *)
Lemma join_text c ps :
  is_absolute_posix c = true ->
  exists temp out str, fold_left add_part ps c = #"/" :: str /\ (length str < length c + sum_list_with (fun p : bytes => length p + 1) ps)%nat /\
    (temp_buf ← copy_from_slice (scratch_init MAX_PATH_BYTES pool (length c) ps) 0 c; append_parts #"/" ps temp_buf (length c)) = Some (temp, out) /\
    slice temp 0 out = Some (#"/" :: str).
Proof.
  intros Hc. pose proof (length_scratch (length c) ps) as Hl. unfold scratch_total in Hl at 1.
  destruct (holds_copy _ 0 [] c (holds_nil (scratch_init MAX_PATH_BYTES pool (length c) ps))) as (t & -> & Ht & Hh); [lia|].
  cbn [mbind option_bind]. destruct (append_parts_spec ps t (length c) c) as (temp & out & -> & Hout); [exact Hh|lia|].
  pose proof (length_joined ps c) as Hj.
  unfold is_absolute_posix in Hc. apply bool_decide_eq_true in Hc. rewrite <- head_lookup in Hc.
  apply (head_joined ps) in Hc. destruct (fold_left add_part ps c) as [|x str]; [done|]. injection Hc as ->.
  exists temp, out, str. cbn [length] in Hj. split; [done|]. split; [lia|]. split; [done|]. by apply holds_slice.
Qed.

(** A NUL after the result, for a sentinel. *)
Lemma sentinel_spec (s : bool) buf n R :
  holds buf n R -> (n < length buf)%nat ->
  exists b, (if s then put buf n 0 else Some buf) = Some b /\ length b = length buf /\ take n b = R /\
    (s = true -> b !! n = Some 0).
Proof.
  intros Hh Hl. destruct s; cycle 1.
  { exists buf. split; [done|]. split; [done|]. by destruct Hh. }
  destruct (holds_copy buf n R [0] Hh) as (b & Hb & Hlb & Ht & _ & _); [cbn; lia|]. unfold put. rewrite Hb.
  destruct Hh as (_ & -> & _). exists b. cbn [length] in Ht. split; [done|]. split; [done|]. split.
  - rewrite <- (Nat.min_l (length R) (length R + 1)), <- take_take, Ht by lia. apply take_app_length.
  - intros _. rewrite <- (lookup_take_lt _ (length R + 1)), Ht, lookup_app_r, Nat.sub_diag by lia. done.
Qed.

Lemma join_abs_spec (s : bool) cwd buf parts :
  is_absolute_posix cwd = true -> parts <> [] -> Z.of_nat (length parts) < 2 ^ 16 ->
  (scratch_total (length cwd) parts <= length buf)%nat ->
  exists buf', join_abs_string_buf_ false MAX_PATH_BYTES pool s Posix cwd buf parts = Some (buf', path_resolve cwd parts) /\
    length buf' = length buf /\ take (length (path_resolve cwd parts)) buf' = path_resolve cwd parts /\
    (s = true -> buf' !! length (path_resolve cwd parts) = Some 0).
Proof.
  intros Ha Hne H16 Hl. unfold join_abs_string_buf_. cbn [andb orb]. rewrite bool_decide_false by done. cbn [orb].
  rewrite (decide_False (P := Posix = Nt)), (decide_False (P := parts = [])) by done. unfold scratch_total in Hl.
  case_decide as Hp.
  { subst parts. change (path_resolve cwd [[SEP_POSIX]]) with b!"/".
    change (put buf 0 #"/") with (copy_from_slice buf 0 b!"/").
    destruct (holds_copy buf 0 [] b!"/" (holds_nil _)) as (b & -> & Hb & Hh); [cbn [length]; lia|]. cbn [mbind option_bind].
    destruct (sentinel_spec s b 1 b!"/" Hh) as (b' & -> & Hb' & Ht & Hs); [lia|]. cbn [mbind option_bind].
    rewrite Ht. exists b'. split; [done|]. split; [congruence|]. done. }
  pose proof (find_cwd_spec cwd [] parts H16) as Hf. rewrite as_u16_id by done. cbn [app] in Hf.
  destruct (find_cwd Posix cwd parts parts (length parts)) as [c ps].
  destruct (effective_spec parts [cwd] (length cwd + 1)) as (c' & ps' & He & Hc & Hsum); [done|by intros ? [= <-]|cbn [sum_list_with]; lia|].
  rewrite <- Hf in He. injection He as <- <-. symmetry in Hf.
  destruct (join_text c ps Hc) as (temp & out & str & Hj & Hstr & Happ & Hsl). cbn [sum_list_with] in Hsum.
  change (separator Posix) with #"/". destruct (copy_from_slice _ 0 c) as [t|] eqn:Et; [|done].
  cbn [mbind option_bind] in Happ |- *. rewrite Happ. cbn [mbind option_bind]. rewrite Hsl. cbn [mbind option_bind].
  change (leading_separator_index Posix (#"/" :: str)) with (Some 0%nat).
  cbn zeta. destruct (decide (Posix = Loose)) as [|H]; [done|clear H]. change (take (0 + 1) (#"/" :: str)) with b!"/".
  destruct (holds_copy buf 0 [] b!"/" (holds_nil _)) as (b & -> & Hb & Hh); [cbn [length]; lia|]. cbn [mbind option_bind length].
  assert (slice (#"/" :: str) 1 out = Some str) as ->.
  { unfold slice in Hsl. case_decide; [|done]. injection Hsl as Hsl. apply (f_equal length) in Hsl.
    rewrite length_take, length_drop in Hsl. cbn [length] in Hsl. unfold slice. rewrite decide_True by (cbn [length]; lia).
    change (drop 1 (#"/" :: str)) with str. rewrite take_ge; [done|lia]. }
  cbn [mbind option_bind]. cbn [length app] in Hh. rewrite Nat.add_0_l in Hh.
  destruct (normalize_generic_spec false true false false #"/" is_sep_any sep_any dot_any ltac:(done) str (drop 1 b))
    as (t' & Hn & Ht & HN & _); [rewrite length_drop; lia|].
  destruct (in_tail_holds 1 b (normalize_string_buf false Posix true str) _ _ t' Hh Hn Ht HN) as (-> & Hlt & Hh').
  cbn [mbind option_bind]. rewrite (path_resolve_joined cwd parts c ps str Hf Hc Hj) in Hh'.
  pose proof (normalized_le false true #"/" is_sep_any sep_any dot_any str) as Hle.
  rewrite Nat.add_comm. destruct (sentinel_spec s _ _ _ Hh') as (b' & -> & Hb' & Ht' & Hs'); [rewrite Hlt; lia|].
  cbn [mbind option_bind]. destruct Hh' as (_ & HR & _). rewrite Ht'. exists b'. rewrite <- HR. split; [done|].
  split; [congruence|]. split; [done|]. done.
Qed.

(** The checked variant works with any buffer: it answers [None] exactly when
    the result does not fit. *)
Lemma join_abs_checked_spec cwd buf parts :
  is_absolute_posix cwd = true -> parts <> [] -> Z.of_nat (length parts) < 2 ^ 16 ->
  exists buf', join_abs_string_buf_checked false MAX_PATH_BYTES pool Posix cwd buf parts =
      Some (buf', if decide (length (path_resolve cwd parts) <= length buf)%nat then Some (path_resolve cwd parts) else None) /\
    length buf' = length buf /\
    ((length (path_resolve cwd parts) <= length buf)%nat -> take (length (path_resolve cwd parts)) buf' = path_resolve cwd parts).
Proof.
  intros Ha Hne H16. unfold join_abs_string_buf_checked. cbn zeta. case_decide as Ht.
  - destruct (join_abs_spec false cwd buf parts) as (b & Hj & Hb & HR & _); [done..|lia|].
    unfold join_abs_string_buf. rewrite Hj. cbn [mbind option_bind]. apply (f_equal length) in HR as HL.
    rewrite length_take in HL. rewrite decide_True by lia. by exists b.
  - destruct (join_abs_spec false cwd (replicate (scratch_total (length cwd) parts) 0) parts) as (b & Hj & _ & _ & _);
      [done..|by rewrite length_replicate|].
    unfold join_abs_string_buf. rewrite Hj. cbn [mbind option_bind]. case_decide as Hlt.
    + rewrite decide_False by lia. exists buf. split; [done|]. split; [done|]. lia.
    + destruct (holds_copy buf 0 [] (path_resolve cwd parts) (holds_nil _)) as (b' & -> & Hb' & Hh); [lia|].
      cbn [mbind option_bind]. rewrite Nat.add_0_l in Hh. destruct Hh as (HR & _ & _). rewrite HR, decide_True by lia. by exists b'.
Qed.

End JoinAbs.
