(* ===== verification/PathRelative.v ===== *)
(** The longest common path of several paths, and the path of one directory
    relative to another (src/src/paths/resolve_path.rs): on normalised absolute
    POSIX paths the result drops the common segments and climbs with "..". *)
From S2P Require Import Prelude BunCore Paths PathNorm PathJoin.

Section Host.
Context (windows : bool) (MAX_PATH_BYTES : Z) (pool : bytes) (strncasecmp_eq : bytes -> bytes -> nat -> bool).

(** * Common paths *)

Definition eq_ignore_ascii_case (a b : Z) : bool := to_ascii_lowercase a =? to_ascii_lowercase b.

(** Two units differ ([nql_at_index_dyn] and its case-insensitive variant). *)
Definition byte_eq (p : Platform) (a b : Z) : bool :=
  match p with Windows => eq_ignore_ascii_case a b | _ => a =? b end.

Definition nql_at_index (p : Platform) (index : nat) (input : list bytes) : bool :=
  match input with
  | [] => false
  | first :: rest => existsb (fun s => negb (byte_eq p (at_ first index) (at_ s index))) rest
  end.

Definition min_length (input : list bytes) : nat :=
  match input with
  | [] => 0
  | s :: r => fold_left (fun m t => Nat.min (length t) m) r (length s)
  end.

Section Loops.
Context (p : Platform) (input : list bytes) (first : bytes) (min_len : nat).

(** 2 to 8 paths: [n_left] is [min_length - index]; the third result tells
    whether the loop stopped at a difference. *)
Fixpoint common_scan (n_left index : nat) (last : option nat) : nat * option nat * bool :=
  match n_left with
  | O => (index, last, false)
  | S n_left =>
    if nql_at_index p index input then (index, last, true)
    else common_scan n_left (S index) (if is_separator p (at_ first index) then Some index else last)
  end.

(** More than 8 paths: the inner loop, and the loop over the paths. *)
Fixpoint pair_scan (s : bytes) (n_left index : nat) : nat * bool :=
  match n_left with
  | O => (index, false)
  | S n_left => if negb (byte_eq p (at_ first index) (at_ s index)) then (index, true) else pair_scan s n_left (S index)
  end.

(** The result [Some None] is an early return of [None]. *)
Fixpoint many_scan (must : bool) (rest : list bytes) (index : nat) (last : option nat) : option (option (nat * option nat)) :=
  match rest with
  | [] => Some (Some (index, last))
  | s :: rest =>
    let '(index, differs) := pair_scan s (min_len - index) index in
    if must && differs && bool_decide (last = None) then Some None
    else
      index ← (if decide (index = min_len) then match index with O => None | S i => Some i end else Some index);
      c ← first !! index;
      many_scan must rest index (if is_separator p c then Some index else last)
  end.

End Loops.

(** The path with a separator at [index], if all the longer ones have one there. *)
Fixpoint dir_scan (p : Platform) (index : nat) (input : list bytes) (idx : option bytes) : option bytes :=
  match input with
  | [] => idx
  | s :: r =>
    if decide (index < length s)%nat then
      if is_separator p (at_ s index) then dir_scan p index r (Some s) else None
    else dir_scan p index r idx
  end.

Definition separator_string (p : Platform) : bytes := [separator p].

(** [if P::P == Platform::Windows]: the roots of the paths are the same. *)
Definition same_roots (input : list bytes) : bool :=
  match input with
  | [] => true
  | first :: rest =>
    forallb (fun s => eql_case_insensitive_ascii strncasecmp_eq (windows_filesystem_root first) (windows_filesystem_root s) true) rest
  end.

Definition longest_common_path_generic (p : Platform) (input : list bytes) : option bytes :=
  match input with
  | [] => Some []
  | [s] => Some s
  | first :: rest =>
    if bool_decide (p = Windows) && negb (same_roots input) then Some []
    else
      let m := min_length input in
      r ←
        (if decide (length input <= 8)%nat then
           let '(index, last, _) := common_scan p input first m 0 None in Some (index, last)
         else r ← many_scan p first m false rest 0 None; r);
      let '(index, last) := r in
      if decide (index = 0%nat) then Some (separator_string p)
      else
        match dir_scan p index input None with
        | Some s => Some (take (index + 1) s)
        | None => Some (take (default 0%nat last + 1) first)
        end
  end.

Definition longest_common_path (input : list bytes) : option bytes := longest_common_path_generic Loose input.

(** The inner [None] is the [None] of the code. *)
Definition get_if_exists_longest_common_path_generic (p : Platform) (input : list bytes) : option (option bytes) :=
  match input with
  | [] => Some (Some [])
  | [s] => Some (Some s)
  | first :: rest =>
    let m := min_length input in
    r ←
      (if decide (length input <= 8)%nat then
         let '(index, last, differs) := common_scan p input first m 0 None in
         Some (if differs && bool_decide (last = None) then None else Some (index, last))
       else many_scan p first m true rest 0 None);
    match r with
    | None => Some None
    | Some (index, last) =>
      if decide (index = 0%nat) then Some (Some (separator_string p))
      else
        match last with
        | None => Some (Some b!".")
        | Some last =>
          match find (fun s => bool_decide (index < length s)%nat && is_separator p (at_ s index)) input with
          | Some s => Some (Some (take (index + 1) s))
          | None => Some (Some (take (last + 1) first))
          end
        end
    end
  end.

Definition get_if_exists_longest_common_path (input : list bytes) : option (option bytes) :=
  get_if_exists_longest_common_path_generic Loose input.

(** * Relative paths *)

(** [..] for each segment of [normalized_from] from [i] on. *)
Fixpoint climb (sep : Z) (from : bytes) (n_left i : nat) (buf : bytes) (out_len : nat) : option (bytes * nat) :=
  match n_left with
  | O => Some (buf, out_len)
  | S n_left =>
    '(buf, out_len) ←
      (if bool_decide (i = length from) || (bool_decide (from !! i = Some sep) && bool_decide (i + 1 < length from)%nat) then
         if decide (out_len = 0%nat) then buf ← copy_from_slice buf 0 b!".."; Some (buf, 2%nat)
         else
           buf ← put buf out_len sep;
           buf ← copy_from_slice buf (out_len + 1) b!"..";
           Some (buf, (out_len + 3)%nat)
       else Some (buf, out_len));
    climb sep from n_left (S i) buf out_len
  end.

Definition copy_result (ALWAYS_COPY : bool) (buf r : bytes) : option (bytes * bytes) :=
  if ALWAYS_COPY then buf ← copy_from_slice buf 0 r; Some (buf, r) else Some (buf, r).

(** The tail of the path, after the common part. *)
Definition generate (p : Platform) (normalized_from normalized_to buf : bytes) (last_common_separator : nat) :
    option (bytes * bytes) :=
  let sep := separator p in
  '(buf, out_len) ←
    match normalized_from with
    | [] => Some (buf, 0%nat)
    | c :: _ =>
      let i := ((if is_separator p c then 1 else 0) + 1 + last_common_separator)%nat in
      climb sep normalized_from (length normalized_from + 1 - i) i buf 0
    end;
  '(buf, out_len) ←
    (if decide (last_common_separator + 1 < length normalized_to)%nat then
       tail ← slice_from normalized_to last_common_separator;
       c ← tail !! 0%nat;
       let tail :=
         if negb (bool_decide (normalized_from = [])) &&
            (bool_decide (last_common_separator = length normalized_from) ||
             bool_decide (last_common_separator = length normalized_from - 1)%nat) &&
            is_separator p c
         then drop 1 tail else tail in
       c ← tail !! 0%nat;
       insert_leading_slash ←
         (if negb (is_separator p c) && bool_decide (0 < out_len)%nat then
            d ← buf !! (out_len - 1)%nat; Some (negb (is_separator p d))
          else Some false);
       '(buf, out_len) ←
         (if (insert_leading_slash : bool) then buf ← put buf out_len sep; Some (buf, S out_len) else Some (buf, out_len));
       buf ← copy_from_slice buf out_len tail;
       Some (buf, (out_len + length tail)%nat)
     else Some (buf, out_len));
  let out_len := if bool_decide (3 < out_len)%nat && bool_decide (buf !! (out_len - 1)%nat = Some sep) then (out_len - 1)%nat else out_len in
  r ← slice buf 0 out_len;
  Some (buf, r).

(** [without_trailing_slash] on Windows. *)
Definition trim_windows (p : Platform) (s : bytes) : bytes :=
  if bool_decide (p = Windows) && bool_decide (3 < length s)%nat && bool_decide (last s = Some (separator p))
  then take (length s - 1) s else s.

Definition relative_to_common_path (ALWAYS_COPY : bool) (p : Platform) (common_path_ normalized_from_ normalized_to_ buf : bytes) :
    option (bytes * bytes) :=
  let from_root := windows_filesystem_root normalized_from_ in
  let to_root := windows_filesystem_root normalized_to_ in
  if bool_decide (p = Windows) && bool_decide (common_path_ = []) && negb (eql_case_insensitive_ascii strncasecmp_eq from_root to_root true) then
    if bool_decide (length to_root < length normalized_to_)%nat && bool_decide (last normalized_to_ = Some #"\") then
      copy_result ALWAYS_COPY buf (take (length normalized_to_ - 1) normalized_to_)
    else copy_result ALWAYS_COPY buf normalized_to_
  else
    let normalized_from := if decide (p = Windows) then drop (length from_root) normalized_from_ else normalized_from_ in
    let normalized_to := if decide (p = Windows) then drop (length to_root) normalized_to_ else normalized_to_ in
    common_path ←
      (if decide (p = Windows) then slice_from common_path_ (length from_root)
       else Some (if is_absolute_posix common_path_ then drop 1 common_path_ else common_path_));
    let rest :=
      generate p normalized_from normalized_to buf
        (default 0%nat (rposition (Z.eqb (separator p)) (if decide (p = Windows) then common_path else common_path_))) in
    if bool_decide (Nat.min (length normalized_from) (length normalized_to) = length common_path) &&
       bool_decide (length normalized_from <= length normalized_to)%nat then
      match common_path with
      | [] => copy_result ALWAYS_COPY buf (trim_windows p normalized_to)
      | _ =>
        c ← normalized_to !! (length common_path - 1)%nat;
        if c =? separator p then
          slice ← slice_from normalized_to (length common_path);
          copy_result ALWAYS_COPY buf (trim_windows p slice)
        else rest
      end
    else rest.

(** A result is the buffer and the bytes returned. *)
Definition relative_normalized_buf (p : Platform) (ALWAYS_COPY : bool) (buf from to : bytes) : option (bytes * bytes) :=
  equal ←
    match p with
    | Windows => Some (eql_case_insensitive_ascii strncasecmp_eq from to true)
    | _ => if decide (length from = length to) then eql_long false from to false else Some false
    end;
  if (equal : bool) then Some (buf, [])
  else
    common_path ← longest_common_path_generic p [from; to];
    relative_to_common_path ALWAYS_COPY p common_path from to buf.

(** The two thread-local buffers, and the directory of [Fs::FileSystem]. *)
Record RelativeBufs := { relative_from_buf : bytes; relative_to_buf : bytes }.

(** An absolute path, normalised in the thread-local buffer [tl]: the buffer and
    the path. *)
Definition normalize_absolute (p : Platform) (path tl : bytes) : option (bytes * bytes) :=
  if bool_decide (p = Loose) && windows then
    '(tl, n) ← in_tail 1 tl (normalize_string_buf true Windows true path);
    r ← slice tl 1 (1 + n);
    let r := platform_to_posix_in_place windows r in
    tl ← copy_from_slice tl 1 r;
    Some (tl, r)
  else
    '(tl, n) ← in_tail 1 tl (normalize_string_buf true p true path);
    if decide (p = Windows) then r ← slice tl 1 (1 + n); Some (tl, r)
    else tl ← put tl 0 (separator p); r ← slice tl 0 (n + 1); Some (tl, r).

Definition relative_platform_buf (top_level_dir : bytes) (p : Platform) (ALWAYS_COPY : bool) (bufs : RelativeBufs) (buf from to : bytes) :
    option (RelativeBufs * bytes * bytes) :=
  '(bufs, normalized_from) ←
    (if is_absolute p from then
       '(tl, r) ← normalize_absolute p from (relative_from_buf bufs);
       Some ({| relative_from_buf := tl; relative_to_buf := relative_to_buf bufs |}, r)
     else
       '(tl_to, n) ← normalize_string_buf true p true from (relative_to_buf bufs);
       '(tl_from, r) ← join_abs_string_buf windows MAX_PATH_BYTES pool p top_level_dir (relative_from_buf bufs) [take n tl_to];
       Some ({| relative_from_buf := tl_from; relative_to_buf := tl_to |}, r));
  '(bufs, buf, normalized_to) ←
    (if is_absolute p to then
       '(tl, r) ← normalize_absolute p to (relative_to_buf bufs);
       Some ({| relative_from_buf := relative_from_buf bufs; relative_to_buf := tl |}, buf, r)
     else
       '(buf, n) ← normalize_string_buf true p true to buf;
       '(tl, r) ← join_abs_string_buf windows MAX_PATH_BYTES pool p top_level_dir (relative_to_buf bufs) [take n buf];
       Some ({| relative_from_buf := relative_from_buf bufs; relative_to_buf := tl |}, buf, r));
  '(buf, r) ← relative_normalized_buf p ALWAYS_COPY buf normalized_from normalized_to;
  Some (bufs, buf, r).

End Host.

(** * The common path of two paths *)

Lemma rposition_snoc f l x : rposition f (l ++ [x]) = if f x then Some (length l) else rposition f l.
Proof.
  induction l as [|y l IH]; cbn; [done|]. rewrite IH. destruct (f x); [done|]. done.
Qed.

Lemma rposition_none f l : Forall (fun c => f c = false) l -> rposition f l = None.
Proof. induction 1 as [|c l Hc _ IH]; cbn; [done|]. by rewrite IH, Hc. Qed.

Lemma rposition_app_none f l k : Forall (fun c => f c = false) k -> rposition f (l ++ k) = rposition f l.
Proof.
  intros H. induction k as [|x k IH] using rev_ind; [by rewrite app_nil_r|].
  apply Forall_app in H as [Hk Hx]. rewrite app_assoc, rposition_snoc, IH by done. inv Hx. by rewrite H1.
Qed.

(** [a] and [b] part here. *)
Definition part (a b : bytes) : Prop :=
  match a, b with x :: _, y :: _ => x <> y | _, _ => True end.

Lemma lcp_exists a b : exists c a' b', a = c ++ a' /\ b = c ++ b' /\ part a' b'.
Proof.
  revert b. induction a as [|x a IH]; intros b; [by exists [], [], b|].
  destruct b as [|y b]; [by exists [], (x :: a), []|].
  destruct (decide (x = y)) as [->|Hne]; [|by exists [], (x :: a), (y :: b)].
  destruct (IH b) as (c & a' & b' & -> & -> & H). by exists (y :: c), a', b'.
Qed.

Lemma at_app a c k : at_ (a ++ c :: k) (length a) = c.
Proof. unfold at_. by rewrite app_nth2, Nat.sub_diag by lia. Qed.

Lemma common_scan_two c1 c2 a' b' :
  part a' b' ->
  fst (common_scan Posix [c1 ++ c2 ++ a'; c1 ++ c2 ++ b'] (c1 ++ c2 ++ a')
    (Nat.min (length (c2 ++ a')) (length (c2 ++ b'))) (length c1) (rposition is_sep_posix c1)) =
  (length (c1 ++ c2), rposition is_sep_posix (c1 ++ c2)).
Proof.
  intros Hp. revert c1. induction c2 as [|x c2 IH]; intros c1.
  - rewrite !app_nil_r. cbn [app]. destruct a' as [|x a']; [done|]. destruct b' as [|y b']; [done|].
    cbn [length Nat.min common_scan]. unfold nql_at_index. cbn [existsb byte_eq]. rewrite !at_app.
    rewrite (proj2 (Z.eqb_neq _ _)) by exact Hp. done.
  - cbn [app length Nat.min common_scan]. unfold nql_at_index. cbn [existsb byte_eq]. rewrite !at_app, Z.eqb_refl. cbn [negb orb].
    replace (if is_separator Posix x then Some (length c1) else rposition is_sep_posix c1)
      with (rposition is_sep_posix (c1 ++ [x])) by (rewrite rposition_snoc; done).
    specialize (IH (c1 ++ [x])). rewrite <- !app_assoc in IH. cbn [app] in IH. rewrite (length_app c1 [x]) in IH.
    cbn [length] in IH. rewrite Nat.add_1_r in IH. rewrite IH. done.
Qed.

(** * Rendered paths *)

Notation pname := (name is_sep_posix).
Notation ups k := (replicate k b!"..").

(** An absolute path from its segments. *)
Definition abs (cs : list bytes) : bytes := #"/" :: render #"/" cs.

Lemma render_path_app cs ds : cs <> [] -> ds <> [] -> render #"/" (cs ++ ds) = render #"/" cs ++ #"/" :: render #"/" ds.
Proof.
  intros Hc Hd. induction cs as [|c cs IH]; [done|]. destruct (decide (cs = [])) as [->|Hne].
  - cbn [app]. by rewrite render_cons.
  - cbn [app]. rewrite !render_cons, IH by (done || by destruct cs). by rewrite <- app_assoc.
Qed.

(** The first name of a rendered path. *)
Lemma render_head h cs : pname h -> exists tl, render #"/" (h :: cs) = h ++ tl /\ (tl = [] /\ cs = [] \/ exists t, tl = #"/" :: t).
Proof.
  intros _. destruct (decide (cs = [])) as [->|Hne].
  - exists []. cbn. rewrite app_nil_r. split; [done|by left].
  - rewrite render_cons by done. eexists. split; [done|]. right. by eexists.
Qed.

Lemma app_eq_name d h t u :
  Forall (fun c => is_sep_posix c = false) d -> Forall (fun c => is_sep_posix c = false) h ->
  d ++ #"/" :: t = h ++ u -> (u = [] \/ head u = Some #"/") -> d = h.
Proof.
  revert h. induction d as [|x d IH]; intros h Hd Hh E Hu.
  - destruct h as [|y h]; [done|]. cbn in E. injection E as <- _. by inv Hh.
  - inv Hd. destruct h as [|y h].
    + cbn in E. subst u. destruct Hu as [?|Hu]; [done|]. injection Hu as ->. done.
    + injection E as <- E. inv Hh. f_equal. by eapply IH.
Qed.

(** * The common path of two normalised absolute paths *)

(** [abs p], ended with a separator. *)
Definition base_dir (p : list bytes) : bytes := if decide (p = []) then [] else abs p.
Definition base (p : list bytes) : bytes := base_dir p ++ b!"/".

(** The segments after the common ones. *)
Definition diverge (r1 r2 : list bytes) : Prop :=
  (r1 <> [] \/ r2 <> []) /\ forall h, head r1 = Some h -> head r2 = Some h -> False.

Lemma diverge_sym r1 r2 : diverge r1 r2 -> diverge r2 r1.
Proof. intros [H1 H2]. split; [tauto|]. intros h ? ?. by apply (H2 h). Qed.

Lemma abs_app p r : r <> [] -> abs (p ++ r) = base p ++ render #"/" r.
Proof.
  intros Hr. unfold base, base_dir. case_decide as E; [by subst p|].
  unfold abs. rewrite render_path_app by done. cbn [app]. by rewrite <- app_assoc.
Qed.

(** A name ends at the next separator. *)
Lemma name_ends r h t d e :
  Forall pname r -> r = h :: t -> render #"/" r = d ++ e -> Forall (fun c => is_sep_posix c = false) d ->
  (e = [] \/ head e = Some #"/") -> d = h.
Proof.
  intros Hn -> E Hd He. inv Hn. destruct (render_head h t H1) as (u & Hu & Hu'). rewrite Hu in E.
  destruct H1 as [_ Hh]. destruct He as [->|He].
  - rewrite app_nil_r in E. destruct Hu' as [[-> _]|[v ->]]; [by rewrite app_nil_r in E|].
    subst d. apply Forall_app in Hd as [_ Hd]. by inv Hd.
  - destruct e as [|x e]; [done|]. injection He as ->. eapply app_eq_name; [done|done|by symmetry|].
    destruct Hu' as [[-> _]|[v ->]]; [by left|by right].
Qed.

Lemma first_sep d :
  Forall (fun c => is_sep_posix c = false) d \/
  exists d1 d2, d = d1 ++ #"/" :: d2 /\ Forall (fun c => is_sep_posix c = false) d1.
Proof.
  induction d as [|x d IH]; [by left|]. destruct (is_sep_posix x) eqn:E.
  - right. exists [], d. apply Z.eqb_eq in E. subst x. done.
  - destruct IH as [IH|(d1 & d2 & -> & H)]; [left; by constructor|]. right. exists (x :: d1), d2. split; [done|by constructor].
Qed.

Section Common.
Context (strncasecmp_eq : bytes -> bytes -> nat -> bool).
Notation common := (longest_common_path_generic strncasecmp_eq Posix).

Lemma common_formula c a' b' :
  part a' b' -> c <> [] ->
  common [c ++ a'; c ++ b'] =
  Some match dir_scan Posix (length c) [c ++ a'; c ++ b'] None with
       | Some s => take (length c + 1) s
       | None => take (default 0%nat (rposition is_sep_posix c) + 1) (c ++ a')
       end.
Proof.
  intros Hp Hc. unfold longest_common_path_generic. rewrite (bool_decide_false (Posix = Windows)) by done. cbn [andb].
  rewrite decide_True by (cbn; lia). unfold min_length. cbn [fold_left]. rewrite Nat.min_comm.
  pose proof (common_scan_two [] c a' b' Hp) as Hs. cbn [app length] in Hs.
  change (rposition is_sep_posix []) with (@None nat) in Hs.
  destruct (common_scan _ _ _ _ _ _) as [[i l] b]. cbn in Hs. injection Hs as -> ->. cbn [mbind option_bind].
  rewrite decide_False by (by intros ?%nil_length_inv). by destruct (dir_scan _ _ _ _).
Qed.

Lemma dir_scan_two c a' b' :
  dir_scan Posix (length c) [c ++ a'; c ++ b'] None =
  match a', b' with
  | x :: _, [] => if is_sep_posix x then Some (c ++ a') else None
  | [], y :: _ => if is_sep_posix y then Some (c ++ b') else None
  | x :: _, y :: _ => if is_sep_posix x && is_sep_posix y then Some (c ++ b') else None
  | [], [] => None
  end.
Proof.
  cbn [dir_scan]. rewrite !length_app. destruct a' as [|x a'], b' as [|y b']; cbn [length].
  - by rewrite !decide_False by lia.
  - rewrite decide_False, decide_True, at_app by lia. done.
  - rewrite decide_True, decide_False, at_app by lia. done.
  - rewrite !decide_True, !at_app by lia. cbn [is_separator]. by destruct (is_sep_posix x).
Qed.

(** One path is an ancestor of the other. *)
Lemma common_ancestor p r :
  r <> [] -> Forall pname r -> common [abs p; abs (p ++ r)] = Some (base p) /\ common [abs (p ++ r); abs p] = Some (base p).
Proof.
  intros Hr Hn. rewrite abs_app by done. unfold base, base_dir. case_decide as E.
  - subst p. cbn [app]. change (abs []) with b!"/".
    destruct r as [|h t]; [done|]. destruct (Forall_inv Hn) as [Hne Hh]. destruct (render_head h t (Forall_inv Hn)) as (u & -> & _).
    destruct h as [|x h]; [done|]. inv Hh.
    pose proof (common_formula b!"/" [] ((x :: h) ++ u) I ltac:(done)) as H0. rewrite dir_scan_two in H0. cbn [app] in H0 |- *. rewrite H1 in H0.
    pose proof (common_formula b!"/" ((x :: h) ++ u) [] I ltac:(done)) as H3. rewrite dir_scan_two in H3. cbn [app] in H3 |- *. rewrite H1 in H3.
    split; [exact H0|exact H3].
  - rewrite <- app_assoc. cbn [app].
    pose proof (common_formula (abs p) [] (#"/" :: render #"/" r) I ltac:(done)) as H0. rewrite dir_scan_two, app_nil_r in H0.
    pose proof (common_formula (abs p) (#"/" :: render #"/" r) [] I ltac:(done)) as H1. rewrite dir_scan_two, app_nil_r in H1.
    rewrite H0, H1. change (is_sep_posix #"/") with true. cbn match.
    rewrite take_app_add. done.
Qed.

(** After the common prefix of two different names, both paths cannot stop. *)
Lemma not_both_stop r1 r2 h1 t1 h2 t2 d a' b' :
  Forall pname r1 -> Forall pname r2 -> r1 = h1 :: t1 -> r2 = h2 :: t2 -> h1 <> h2 ->
  render #"/" r1 = d ++ a' -> render #"/" r2 = d ++ b' ->
  Forall (fun c => is_sep_posix c = false) d /\
  ~ ((a' = [] \/ head a' = Some #"/") /\ (b' = [] \/ head b' = Some #"/")).
Proof.
  intros Hn1 Hn2 E1 E2 Hne H1 H2. assert (Forall (fun c => is_sep_posix c = false) d) as Hd.
  { destruct (first_sep d) as [|(d1 & d2 & -> & Hd1)]; [done|]. exfalso. apply Hne.
    rewrite <- app_assoc in H1, H2. cbn [app] in H1, H2.
    rewrite <- (name_ends r1 h1 t1 d1 _ Hn1 E1 H1 Hd1) by (by right). by rewrite <- (name_ends r2 h2 t2 d1 _ Hn2 E2 H2 Hd1) by (by right). }
  split; [done|]. intros [Ha Hb]. apply Hne.
  rewrite <- (name_ends r1 h1 t1 d a' Hn1 E1 H1 Hd Ha). by rewrite <- (name_ends r2 h2 t2 d b' Hn2 E2 H2 Hd Hb).
Qed.

Lemma common_spec p r1 r2 :
  Forall pname r1 -> Forall pname r2 -> diverge r1 r2 -> common [abs (p ++ r1); abs (p ++ r2)] = Some (base p).
Proof.
  intros Hn1 Hn2 [Hne Hd]. destruct (decide (r1 = [])) as [->|H1].
  { rewrite app_nil_r. apply common_ancestor; [|done]. by destruct Hne. }
  destruct (decide (r2 = [])) as [->|H2].
  { rewrite app_nil_r. by apply common_ancestor. }
  rewrite !abs_app by done. destruct (lcp_exists (render #"/" r1) (render #"/" r2)) as (d & a' & b' & E1 & E2 & Hp).
  destruct r1 as [|h1 t1]; [done|]. destruct r2 as [|h2 t2]; [done|].
  destruct (not_both_stop _ _ h1 t1 h2 t2 d a' b' Hn1 Hn2 eq_refl eq_refl) as [Hds Hstop]; [|done|done|].
  { intros ->. by apply (Hd h2). }
  rewrite E1, E2, !app_assoc. rewrite common_formula; [|done|by unfold base; destruct (base_dir p)].
  rewrite dir_scan_two. rewrite rposition_app_none by done.
  replace (match a', b' with [], [] => None | [], y :: _ => if is_sep_posix y then Some ((base p ++ d) ++ b') else None
    | x :: _, [] => if is_sep_posix x then Some ((base p ++ d) ++ a') else None
    | x :: _, y :: _ => if is_sep_posix x && is_sep_posix y then Some ((base p ++ d) ++ b') else None end) with (@None bytes).
  - assert (rposition is_sep_posix (base p) = Some (length (base_dir p))) as -> by (unfold base; by rewrite rposition_snoc).
    change (default 0%nat (Some (length (base_dir p)))) with (length (base_dir p)). unfold base. rewrite <- !app_assoc, take_app_add. done.
  - destruct a' as [|x a'], b' as [|y b']; cbn in Hstop; [exfalso; tauto|..].
    + destruct (is_sep_posix y) eqn:Ey; [|done]. apply Z.eqb_eq in Ey. subst y. exfalso. tauto.
    + destruct (is_sep_posix x) eqn:Ex; [|done]. apply Z.eqb_eq in Ex. subst x. exfalso. tauto.
    + destruct (is_sep_posix x) eqn:Ex, (is_sep_posix y) eqn:Ey; try done.
      apply Z.eqb_eq in Ex, Ey. subst. exfalso. tauto.
Qed.

End Common.

(** * Climbing *)

(** The separators of a path that does not end with one. *)
Definition seps (l : bytes) : nat := length (filter (fun c => c = #"/") l).

Lemma ups_snoc k : render #"/" (ups (S k)) = if decide (k = 0%nat) then b!".." else render #"/" (ups k) ++ b!"/..".
Proof.
  rewrite replicate_S_end, render_path_snoc. destruct k; [done|].
  rewrite decide_False by done. rewrite decide_False by done. done.
Qed.

Lemma ups_length_mono k j : (k <= j)%nat -> (length (render #"/" (ups k)) <= length (render #"/" (ups j)))%nat.
Proof. intros H. replace j with (k + (j - k))%nat by lia. rewrite replicate_add. apply render_mono. Qed.

Lemma climb_up buf out k :
  holds buf out (render #"/" (ups k)) -> (length (render #"/" (ups (S k))) <= length buf)%nat ->
  exists buf',
    (if decide (out = 0%nat) then buf ← copy_from_slice buf 0 b!".."; Some (buf, 2%nat)
     else buf ← put buf out #"/"; buf ← copy_from_slice buf (out + 1) b!".."; Some (buf, (out + 3)%nat)) =
      Some (buf', length (render #"/" (ups (S k)))) /\
    length buf' = length buf /\ holds buf' (length (render #"/" (ups (S k)))) (render #"/" (ups (S k))).
Proof.
  intros Hh Hl. destruct (Hh) as (_ & Ho & _). destruct (decide (k = 0%nat)) as [->|Hk].
  - change (render #"/" (ups 1)) with b!".." in *. cbn in Ho. subst out.
    destruct (holds_copy buf 0 [] b!".." (holds_nil _)) as (b & Hc & Hb & Hh'); [exact Hl|].
    rewrite decide_True by done. rewrite Hc. exists b. done.
  - assert (out <> 0%nat) by (rewrite Ho; destruct k as [|[|k]]; [done|done|rewrite ups_snoc, decide_False, length_app by done; cbn [length]; lia]).
    rewrite decide_False by done. rewrite ups_snoc, decide_False, length_app in * by done. cbn [length] in *.
    destruct (holds_copy buf out _ b!"/" Hh) as (b & Hc & Hb & Hh1); [cbn [length]; lia|]. unfold put. rewrite Hc. cbn [mbind option_bind].
    destruct (holds_copy b (out + 1) _ b!".." Hh1) as (b' & Hc' & Hb' & Hh2); [cbn [length]; lia|].
    rewrite Hc'. cbn [mbind option_bind]. exists b'. rewrite <- app_assoc in Hh2. cbn [length app] in Hh2.
    rewrite <- Ho. split; [done|]. split; [congruence|]. replace (out + 3)%nat with (out + 1 + 2)%nat by lia. exact Hh2.
Qed.

Lemma seps_drop from i c : from !! i = Some c -> seps (drop i from) = ((if decide (c = #"/") then 1 else 0) + seps (drop (S i) from))%nat.
Proof. intros H. rewrite (drop_S _ _ _ H). unfold seps. rewrite filter_cons. by case_decide. Qed.

(** [..] for the end of the path and for each separator from [i] on. *)
Definition climbs (from : bytes) (i : nat) : nat := if decide (i <= length from)%nat then S (seps (drop i from)) else 0%nat.

Lemma climb_spec from n i buf out k :
  n = (length from + 1 - i)%nat -> ((i <= length from)%nat -> last from <> Some #"/") ->
  holds buf out (render #"/" (ups k)) -> (length (render #"/" (ups (k + climbs from i))) <= length buf)%nat ->
  exists buf', climb #"/" from n i buf out = Some (buf', length (render #"/" (ups (k + climbs from i)))) /\ length buf' = length buf /\
    holds buf' (length (render #"/" (ups (k + climbs from i)))) (render #"/" (ups (k + climbs from i))).
Proof.
  intros Hin Hlast Hh Hl. revert i buf out k Hin Hlast Hh Hl. induction n as [|n IH]; intros i buf out k Hin Hlast Hh Hl.
  { unfold climbs in *. rewrite decide_False in * by lia. rewrite Nat.add_0_r in *. destruct (Hh) as (_ & -> & _). by exists buf. }
  cbn [climb].
  assert (climbs from i = ((if bool_decide (i = length from) || (bool_decide (from !! i = Some #"/") && bool_decide (i + 1 < length from)%nat)
     then 1 else 0) + climbs from (S i))%nat) as Hm.
  { unfold climbs. rewrite (decide_True (P := (i <= length from)%nat)) by lia. case_bool_decide as Hi; cbn [orb].
    - rewrite decide_False, drop_ge by lia. done.
    - rewrite decide_True by lia. destruct (lookup_lt_is_Some_2 from i) as [c Hc]; [lia|]. rewrite (seps_drop _ _ _ Hc), Hc.
      destruct (decide (c = #"/")) as [->|Hne]; cycle 1.
      + rewrite bool_decide_false by congruence. done.
      + rewrite bool_decide_true by done. cbn [andb]. rewrite bool_decide_true; [lia|].
        assert (i <> length from - 1)%nat; [|lia]. intros ->. apply Hlast; [lia|]. by rewrite last_lookup, <- Hc, Nat.sub_1_r. }
  destruct (bool_decide (i = length from) || _).
  - replace (k + climbs from i)%nat with (S k + climbs from (S i))%nat in * by lia.
    destruct (climb_up buf out k Hh) as (b & -> & Hb & Hh'); [etrans; [|exact Hl]; apply ups_length_mono; lia|].
    cbn [mbind option_bind]. rewrite <- Hb in Hl |- *. apply IH; [lia|intros; apply Hlast; lia|done|done].
  - replace (climbs from i) with (climbs from (S i)) in * by lia. cbn [mbind option_bind]. apply IH; [lia|intros; apply Hlast; lia|done|done].
Qed.

(** The segments of a rendered path, by its separators. *)
Lemma seps_render h t : Forall pname (h :: t) -> seps (render #"/" (h :: t)) = length t.
Proof.
  revert h. induction t as [|h' t IH]; intros h Hn; inv Hn.
  - cbn. destruct H1 as [_ Hh]. unfold seps. induction Hh as [|c h Hc _ IH]; [done|]. rewrite filter_cons_False; [done|].
    intros ->. done.
  - rewrite render_cons by done. unfold seps in *. rewrite filter_app, filter_cons_True, length_app by done. cbn [length].
    rewrite IH by done. destruct H1 as [_ Hh]. induction Hh as [|c h Hc _ IHh]; [done|]. by rewrite filter_cons_False by (by intros ->).
Qed.

(** * The relative path *)

Lemma names_ups k r : Forall pname r -> Forall pname (ups k ++ r).
Proof. intros H. apply Forall_app. split; [|done]. apply Forall_replicate. by apply name_dotdot. Qed.

(** Where the segments after the common ones start. *)
Section Parts.
Context (p r : list bytes) (Hr : Forall pname r).
Notation n := (length (base_dir p)).

Lemma abs_parts : r <> [] -> abs (p ++ r) = base_dir p ++ #"/" :: render #"/" r.
Proof. intros H. rewrite abs_app by done. unfold base. by rewrite <- app_assoc. Qed.

Lemma abs_own : r = [] -> length (abs (p ++ r)) = n \/ length (abs (p ++ r)) = 1%nat /\ n = 0%nat.
Proof. intros ->. rewrite app_nil_r. unfold base_dir. case_decide; [subst; by right|by left]. Qed.

Lemma render_first : r <> [] -> exists c l, render #"/" r = c :: l /\ is_sep_posix c = false.
Proof.
  intros H. destruct r as [|h t]; [done|]. destruct (Forall_inv Hr) as [Hne Hh].
  destruct (render_head h t (Forall_inv Hr)) as (u & -> & _). destruct h as [|c h]; [done|]. inv Hh. by exists c, (h ++ u).
Qed.

Lemma climbs_parts : climbs (abs (p ++ r)) (2 + n) = length r.
Proof.
  unfold climbs. destruct (decide (r = [])) as [E|E].
  - rewrite decide_False by (destruct (abs_own E); lia). by rewrite E.
  - destruct (render_first E) as (c & l & El & Hc). rewrite (abs_parts E), length_app. cbn [length].
    rewrite decide_True by (rewrite El; cbn [length]; lia). rewrite drop_app_ge by lia.
    replace (2 + n - n)%nat with 2%nat by lia. rewrite El. destruct r as [|h t] eqn:Er; [done|].
    cbn [length]. f_equal. rewrite <- (seps_render h t) by done. rewrite El. unfold seps.
    change (drop 2 (#"/" :: c :: l)) with l. rewrite filter_cons_False; [done|]. intros ->. done.
Qed.

Lemma last_abs : (2 + n <= length (abs (p ++ r)))%nat -> last (abs (p ++ r)) <> Some #"/".
Proof.
  intros Hl. destruct (decide (r = [])) as [E|E]; [destruct (abs_own E); lia|].
  rewrite (abs_parts E). destruct (render_first E) as (c & l & El & _).
  rewrite last_app. rewrite El, last_cons_cons. intros Hx.
  assert (last (render #"/" r) = Some #"/") as Ex by (rewrite El; revert Hx; destruct (last (c :: l)) eqn:E2; [done|by apply last_None in E2]).
  by apply (last_render #"/" is_sep_posix r #"/" Hr) in Ex.
Qed.

End Parts.

(** The tail goes after the text, with no separator put between them. *)
Lemma append_tail b out X tail R :
  holds b out X -> X ++ tail = R -> is_sep_posix (at_ tail 0) = true \/ out = 0%nat -> tail <> [] -> (length R <= length b)%nat ->
  exists b',
    (c ← tail !! 0%nat;
     insert_leading_slash ← (if negb (is_separator Posix c) && bool_decide (0 < out)%nat then d ← b !! (out - 1)%nat; Some (negb (is_separator Posix d)) else Some false);
     '(buf, out_len) ← (if (insert_leading_slash : bool) then buf ← put b out #"/"; Some (buf, S out) else Some (b, out));
     buf ← copy_from_slice buf out_len tail; Some (buf, (out_len + length tail)%nat)) = Some (b', length R) /\
    holds b' (length R) R /\ length b' = length b.
Proof.
  intros HX HR Hs Hne Hl. destruct tail as [|y tail]; [done|]. cbn [lookup list_lookup mbind option_bind].
  assert (negb (is_separator Posix y) && bool_decide (0 < out)%nat = false) as ->.
  { destruct Hs as [Hs| ->]; [by cbn in Hs |- *; rewrite Hs|by rewrite andb_false_r]. }
  cbn [mbind option_bind]. apply (f_equal length) in HR as HRl. rewrite length_app in HRl. destruct (HX) as (_ & Ho & _).
  destruct (holds_copy b out X (y :: tail) HX) as (b' & -> & Hb' & Hh'); [lia|]. cbn [mbind option_bind].
  rewrite HR in Hh'. rewrite Ho, HRl in *. by exists b'.
Qed.

(** No separator is dropped from the end. *)
Lemma finish_result b R :
  holds b (length R) R -> (forall c, last R = Some c -> is_sep_posix c = false) ->
  (r ← slice b 0 (if bool_decide (3 < length R)%nat && bool_decide (b !! (length R - 1)%nat = Some #"/") then (length R - 1)%nat else length R);
   Some (b, r)) = Some (b, R).
Proof.
  intros Hh Hl. replace (bool_decide (3 < length R)%nat && bool_decide (b !! (length R - 1)%nat = Some #"/")) with false.
  - by rewrite (holds_slice _ _ _ Hh).
  - symmetry. apply andb_false_iff. destruct (last R) as [c|] eqn:Ec.
    + right. apply bool_decide_eq_false. rewrite (holds_last _ _ _ _ Hh Ec). intros [= ->]. by specialize (Hl _ eq_refl).
    + left. apply last_None in Ec. by rewrite Ec.
Qed.

Lemma generate_spec p r1 r2 buf :
  Forall pname r1 -> Forall pname r2 ->
  (length (render #"/" (ups (length r1) ++ r2)) <= length buf)%nat ->
  exists buf', generate Posix (abs (p ++ r1)) (abs (p ++ r2)) buf (length (base_dir p)) =
      Some (buf', render #"/" (ups (length r1) ++ r2)) /\ length buf' = length buf /\
    take (length (render #"/" (ups (length r1) ++ r2))) buf' = render #"/" (ups (length r1) ++ r2).
Proof.
  intros H1 H2 Hl. set (n := length (base_dir p)). set (R := render #"/" (ups (length r1) ++ r2)) in *.
  assert (forall c, last R = Some c -> is_sep_posix c = false) as HRlast.
  { intros c. by apply (last_render #"/"), names_ups. }
  unfold generate. cbn [separator abs]. fold (abs (p ++ r1)). change (is_separator Posix #"/") with true. cbn match. unfold SEP_POSIX.
  change (1 + 1 + n)%nat with (2 + n)%nat.
  destruct (climb_spec (abs (p ++ r1)) (length (abs (p ++ r1)) + 1 - (2 + n)) (2 + n) buf 0 0) as (b & Hc & Hb & Hh).
  { done. } { by apply last_abs. } { apply holds_nil. }
  { rewrite climbs_parts by done. etrans; [apply render_mono|exact Hl]. }
  rewrite climbs_parts in Hc, Hh by done. rewrite Nat.add_0_l in Hc, Hh. rewrite Hc. cbn [mbind option_bind].
  destruct (decide (r2 = [])) as [E2|E2].
  { rewrite decide_False by (destruct (abs_own p r2 H2 E2); lia). cbn [mbind option_bind].
    unfold R in *. rewrite E2, app_nil_r in *. exists b. rewrite finish_result by done. by destruct Hh. }
  destruct (render_first r2 H2 E2) as (c & l & El & Hsep). rewrite (abs_parts p r2 E2).
  rewrite decide_True by (rewrite length_app, El; cbn [length]; fold n; lia).
  unfold slice_from. rewrite decide_True by (rewrite length_app; cbn [length]; fold n; lia).
  rewrite drop_app_length' by done. cbn [mbind option_bind lookup list_lookup]. change (is_separator Posix #"/") with true.
  rewrite (bool_decide_false (abs (p ++ r1) = [])), andb_true_r by done. cbn [negb andb].
  set (tail := if _ || _ then _ else _).
  assert (render #"/" (ups (length r1)) ++ tail = R /\ (is_sep_posix (at_ tail 0) = true \/ r1 = []) /\ tail <> []) as (HR & Hs & Hne).
  { unfold tail, R. destruct (decide (r1 = [])) as [E1|E1].
    - replace (bool_decide (n = length (abs (p ++ r1))) || _) with true; [by rewrite E1, El; split; [|split; [right|]]|].
      symmetry. apply orb_true_iff. rewrite !bool_decide_eq_true. fold n. destruct (abs_own p r1 H1 E1); lia.
    - rewrite !bool_decide_false; cbn [orb].
      + split; [|by split; [left|]]. rewrite render_path_app; [done|by destruct r1|done].
      + rewrite (abs_parts p r1 E1), length_app. destruct (render_first r1 H1 E1) as (? & ? & -> & _). cbn [length]. fold n. lia.
      + rewrite (abs_parts p r1 E1), length_app. cbn [length]. fold n. lia. }
  destruct (append_tail b _ _ tail R Hh HR) as (b' & Ha & Hh' & Hb'); [destruct Hs as [|E]; [by left|right; by rewrite E]|done|lia|].
  cbn zeta. rewrite Ha. cbn [mbind option_bind]. exists b'. rewrite finish_result by done. destruct Hh' as (? & _ & _).
  split; [done|]. split; [congruence|done].
Qed.

(** [path.posix.relative] on segments: drop the common ones, climb the others. *)
Fixpoint relative_segments (cs1 cs2 : list bytes) : list bytes :=
  match cs1, cs2 with
  | a :: r1, b :: r2 => if decide (a = b) then relative_segments r1 r2 else ups (length cs1) ++ cs2
  | _, _ => ups (length cs1) ++ cs2
  end.

Lemma relative_segments_split cs1 cs2 :
  exists p r1 r2, cs1 = p ++ r1 /\ cs2 = p ++ r2 /\ relative_segments cs1 cs2 = ups (length r1) ++ r2 /\
    (cs1 <> cs2 -> diverge r1 r2).
Proof.
  revert cs2. induction cs1 as [|a r1 IH]; intros cs2.
  { exists [], [], cs2. repeat split; [|done]. destruct cs2; [done|by right]. }
  destruct cs2 as [|b r2].
  { exists [], (a :: r1), []. repeat split; [by left|done]. }
  cbn [relative_segments]. destruct (decide (a = b)) as [->|Hne].
  - destruct (IH r2) as (p & s1 & s2 & -> & -> & E & H). exists (b :: p), s1, s2.
    do 3 (split; [done|]). intros Hne. apply H. congruence.
  - exists [], (a :: r1), (b :: r2). do 3 (split; [done|]). intros _. split; [by left|]. cbn. congruence.
Qed.

Lemma abs_inj cs1 cs2 : Forall pname cs1 -> Forall pname cs2 -> abs cs1 = abs cs2 -> cs1 = cs2.
Proof.
  intros H1 H2 [= E]. rewrite <- (segments_render #"/" is_sep_posix sep_posix cs1), E by done. by apply segments_render.
Qed.

Lemma rposition_ext f g l : (forall c, f c = g c) -> rposition f l = rposition g l.
Proof. intros H. induction l as [|c l IH]; cbn; [done|]. by rewrite IH, H. Qed.

Lemma relative_to_common_spec strn copy p r1 r2 buf :
  Forall pname p -> Forall pname r1 -> Forall pname r2 ->
  (length (render #"/" (ups (length r1) ++ r2)) <= length buf)%nat ->
  exists buf', relative_to_common_path strn copy Posix (base p) (abs (p ++ r1)) (abs (p ++ r2)) buf =
      Some (buf', render #"/" (ups (length r1) ++ r2)) /\ length buf' = length buf /\
    take (length (render #"/" (ups (length r1) ++ r2))) buf' = render #"/" (ups (length r1) ++ r2).
Proof.
  intros Hp H1 H2 Hl. unfold relative_to_common_path. rewrite (bool_decide_false (Posix = Windows)) by done. cbn [andb].
  destruct (decide (Posix = Windows)) as [|_]; [done|]. cbn zeta. cbn [mbind option_bind].
  assert (is_absolute_posix (base p) = true) as ->.
  { unfold base, base_dir. by case_decide. }
  assert (length (drop 1 (base p)) = length (base_dir p)) as Hlen by (unfold base; rewrite length_drop, length_app; cbn [length]; lia).
  assert (default 0%nat (rposition (Z.eqb (separator Posix)) (base p)) = length (base_dir p)) as ->.
  { rewrite (rposition_ext _ is_sep_posix) by (intros c; apply Z.eqb_sym). unfold base. by rewrite rposition_snoc. }
  destruct (generate_spec p r1 r2 buf H1 H2 Hl) as (buf' & Hg & Hb & Ht). cbn [mbind option_bind]. rewrite Hg.
  exists buf'. split; [|done]. case_match eqn:Hs; [|done].
  apply andb_true_iff in Hs as [Hs1%bool_decide_eq_true Hs2%bool_decide_eq_true].
  rewrite Nat.min_l, Hlen in Hs1 by done.
  assert (r1 = [] /\ p <> []) as [-> Hne].
  { destruct (decide (r1 = [])) as [->|E].
    - split; [done|]. intros ->. done.
    - rewrite (abs_parts p r1 E), length_app in Hs1. cbn [length] in Hs1. lia. }
  destruct (drop 1 (base p)) as [|x cp] eqn:Ecp; [exfalso; rewrite app_nil_r in Hs1; cbn in Hlen, Hs1; lia|].
  rewrite Hlen. assert (abs p <> []) by done. destruct (last (abs p)) as [c|] eqn:Ec; [|by apply last_None in Ec].
  assert (abs (p ++ r2) !! (length (base_dir p) - 1)%nat = Some c) as ->.
  { unfold base_dir. rewrite decide_False by done. rewrite <- Ec, last_lookup, <- Nat.sub_1_r.
    destruct (decide (r2 = [])) as [->|E]; [by rewrite app_nil_r|].
    rewrite (abs_parts p r2 E). unfold base_dir. rewrite decide_False by done. rewrite lookup_app_l; [done|]. cbn [length abs]. lia. }
  cbn [mbind option_bind]. unfold abs in Ec. destruct (render #"/" p) as [|y l] eqn:Er.
  { apply render_nil in Er; [done|]. eapply Forall_impl; [done|]. by intros ? [? _]. }
  rewrite last_cons_cons, <- Er in Ec. apply (last_render #"/" is_sep_posix p c Hp) in Ec.
  unfold is_sep_posix in Ec. change (separator Posix) with #"/". by rewrite Ec.
Qed.

Lemma relative_normalized_spec strn copy cs1 cs2 buf :
  Forall pname cs1 -> Forall pname cs2 -> Forall is_byte (abs cs1) -> Forall is_byte (abs cs2) ->
  (length (render #"/" (relative_segments cs1 cs2)) <= length buf)%nat ->
  exists buf', relative_normalized_buf strn Posix copy buf (abs cs1) (abs cs2) = Some (buf', render #"/" (relative_segments cs1 cs2)) /\
    length buf' = length buf.
Proof.
  intros H1 H2 Hb1 Hb2 Hl. unfold relative_normalized_buf.
  assert ((if decide (length (abs cs1) = length (abs cs2)) then eql_long false (abs cs1) (abs cs2) false else Some false) =
    Some (bool_decide (cs1 = cs2))) as ->.
  { case_decide as E.
    - rewrite eql_long_ok by done. f_equal. apply bool_decide_ext. split; [by apply abs_inj|by intros ->].
    - rewrite bool_decide_false; [done|]. by intros ->. }
  cbn [mbind option_bind]. case_bool_decide as E.
  - exists buf. split; [|done]. f_equal. f_equal. subst cs2. clear.
    induction cs1 as [|c cs IH]; [done|]. cbn [relative_segments]. by rewrite decide_True.
  - destruct (relative_segments_split cs1 cs2) as (p & r1 & r2 & E1 & E2 & ER & Hd).
    rewrite ER in Hl |- *. subst cs1 cs2. apply Forall_app in H1 as [Hp H1]. apply Forall_app in H2 as [_ H2].
    rewrite common_spec by auto. cbn [mbind option_bind].
    destruct (relative_to_common_spec strn copy p r1 r2 buf Hp H1 H2 Hl) as (b & -> & Hb & _). by exists b.
Qed.

(** * Resolving a relative path *)

Lemma resolve_false_true ss u ns ns' :
  fold_left (push true) ss (u, ns) = (u, ns') -> fold_left (push false) ss (u, ns) = (u, ns').
Proof.
  assert (forall ss st, (st.1 <= (fold_left (push true) ss st).1)%nat) as Hmono.
  { clear. induction ss as [|s ss IH]; intros st; cbn [fold_left]; [done|]. etrans; [|apply IH].
    destruct st as [u ns]. unfold push. repeat case_decide; cbn; [lia| |lia]. destruct ns; cbn; lia. }
  revert ns. induction ss as [|s ss IH]; intros ns; cbn [fold_left]; [done|]. unfold push at 2 4.
  case_decide; [by apply IH|]. case_decide; [|by apply IH]. destruct ns as [|n ns]; [|by apply IH].
  intros Heq. specialize (Hmono ss (S u, [])). rewrite Heq in Hmono. cbn in Hmono. lia.
Qed.

(** A resolved list without "..". *)
Notation rooted cs := (Forall proper cs).

Lemma resolve_rooted ss :
  Forall (name is_sep_any) ss -> rooted (resolve true ss) ->
  fold_left (push false) ss (0%nat, []) = (0%nat, rev (resolve true ss)).
Proof.
  intros Hn Hr. apply resolve_false_true. unfold resolve in *. destruct (fold_left (push true) ss (0%nat, [])) as [u ns].
  unfold comps in *. cbn [fst snd] in *. destruct u as [|u]; [by cbn; rewrite rev_involutive|].
  cbn [replicate app] in Hr. inv Hr. by destruct H1.
Qed.

(** Climbing from [cs1] and descending reaches [cs2]. *)
Lemma resolve_relative cs1 cs2 :
  rooted cs2 -> fold_left (push false) (relative_segments cs1 cs2) (0%nat, rev cs1) = (0%nat, rev cs2).
Proof.
  intros H2. destruct (relative_segments_split cs1 cs2) as (p & r1 & r2 & -> & -> & -> & _).
  apply Forall_app in H2 as [_ H2]. rewrite fold_left_app, !rev_app_distr.
  assert (fold_left (push false) (ups (length r1)) (0%nat, rev r1 ++ rev p) = (0%nat, rev p)) as ->.
  { rewrite <- length_rev. induction (rev r1) as [|h t IH]; [done|]. cbn [length replicate fold_left app]. by rewrite push_up. }
  by rewrite fold_push_proper.
Qed.

(** * Bytes *)

Lemma segments_bytes f path : Forall is_byte path -> Forall (Forall is_byte) (segments f path).
Proof.
  intros H. assert (Forall (Forall is_byte) (fields f path)) as Hf.
  { induction H as [|c l Hc _ IH]; cbn; [by repeat constructor|].
    destruct (f c); [by constructor|]. destruct (fields f l); [|inv IH]; constructor; solve [done|by constructor]. }
  unfold segments. rewrite Forall_forall in Hf |- *. intros s [_ Hs]%list_elem_of_filter. by apply Hf.
Qed.

Lemma resolve_bytes ss : Forall (Forall is_byte) ss -> Forall (Forall is_byte) (resolve true ss).
Proof.
  intros H. unfold resolve, comps. destruct (resolve_inv true ss (0%nat, []) (Forall is_byte)) as [_ Hi]; [done..|].
  apply Forall_app. split.
  - apply Forall_replicate, all_bytes. done.
  - apply Forall_rev. eapply Forall_impl; [done|]. naive_solver.
Qed.

Lemma render_bytes cs : Forall (Forall is_byte) cs -> Forall is_byte (render #"/" cs).
Proof.
  induction 1 as [|c cs Hc _ IH]; [done|]. destruct (decide (cs = [])) as [->|Hne]; [done|].
  rewrite render_cons by done. apply Forall_app. split; [done|]. constructor; [done|done].
Qed.

(** * Absolute paths *)

(** The segments of an absolute path. *)
Definition absolute_segments (path : bytes) : list bytes := resolve true (segments is_sep_any path).

(** No separator is kept at the end. *)
Definition no_trailing (path : bytes) : Prop := last path <> Some #"/" \/ absolute_segments path = [].

Lemma absolute_names path : Forall (name is_sep_any) (absolute_segments path).
Proof. by apply resolve_names. Qed.

Lemma any_posix cs : Forall (name is_sep_any) cs -> Forall pname cs.
Proof.
  intros H. eapply Forall_impl; [done|]. intros s [Hne Hs]. split; [done|]. eapply Forall_impl; [done|].
  intros c Hc. unfold is_sep_any, is_sep_posix in *. by apply orb_false_iff in Hc as [-> _].
Qed.

Lemma absolute_bytes path : Forall is_byte path -> Forall is_byte (abs (absolute_segments path)).
Proof. intros H. constructor; [done|]. by apply render_bytes, resolve_bytes, segments_bytes. Qed.

Section Platform.
Context (MAX_PATH_BYTES : Z) (pool : bytes) (Hpool : Z.of_nat (length pool) = MAX_PATH_BYTES).
Context (strn : bytes -> bytes -> nat -> bool) (top_level_dir : bytes) (copy : bool).
Notation relative := (relative_platform_buf false MAX_PATH_BYTES pool strn top_level_dir Posix copy).

Lemma normalize_absolute_spec path tl :
  no_trailing path -> (length path < length tl)%nat ->
  exists tl', normalize_absolute false Posix path tl = Some (tl', abs (absolute_segments path)) /\ length tl' = length tl.
Proof.
  intros Hnt Hl. unfold normalize_absolute. rewrite (bool_decide_false (Posix = Loose)) by done. cbn [andb].
  destruct tl as [|x tl]; [cbn in Hl; lia|]. cbn [length] in Hl.
  destruct (normalize_generic_spec true true false false #"/" is_sep_any sep_any dot_any ltac:(done) path tl) as (t & Hn & Ht & HN & _); [lia|].
  assert (normalized true true #"/" is_sep_any path = render #"/" (absolute_segments path)) as HE.
  { unfold normalized, trailing. fold (absolute_segments path). destruct Hnt as [H|H]; [rewrite (bool_decide_false (last _ = _)), andb_false_r by done|rewrite (bool_decide_true (_ = [])) by done]; apply app_nil_r. }
  rewrite HE in Hn, HN.
  destruct (in_tail_holds 1 (x :: tl) (normalize_string_buf true Posix true path) [x] _ t ltac:(split; [done|cbn; lia]) Hn Ht HN) as (-> & Hlt & Hh).
  cbn [mbind option_bind app] in *. destruct (decide (Posix = Windows)) as [|_]; [done|].
  destruct (put_slash _ _ _ _ Hh) as (b & Hp & Hb & Hs). change (separator Posix) with #"/". rewrite Hp. cbn [mbind option_bind].
  rewrite Nat.add_1_r, Hs. cbn [mbind option_bind]. exists b. split; [done|]. congruence.
Qed.

Lemma relative_platform_spec bufs buf from to :
  is_absolute_posix from = true -> is_absolute_posix to = true -> no_trailing from -> no_trailing to ->
  Forall is_byte from -> Forall is_byte to ->
  (length from < length (relative_from_buf bufs))%nat -> (length to < length (relative_to_buf bufs))%nat ->
  (length (render #"/" (relative_segments (absolute_segments from) (absolute_segments to))) <= length buf)%nat ->
  exists bufs' buf', relative bufs buf from to =
    Some (bufs', buf', render #"/" (relative_segments (absolute_segments from) (absolute_segments to))).
Proof.
  intros Ha1 Ha2 Hn1 Hn2 Hb1 Hb2 Hl1 Hl2 Hl. unfold relative_platform_buf. cbn [is_absolute]. rewrite Ha1, Ha2.
  destruct (normalize_absolute_spec from _ Hn1 Hl1) as (tl1 & -> & _). cbn [mbind option_bind relative_to_buf relative_from_buf].
  destruct (normalize_absolute_spec to _ Hn2 Hl2) as (tl2 & -> & _). cbn [mbind option_bind].
  destruct (relative_normalized_spec strn copy (absolute_segments from) (absolute_segments to) buf) as (b & -> & _);
    [apply any_posix, absolute_names|apply any_posix, absolute_names|by apply absolute_bytes|by apply absolute_bytes|done|].
  cbn [mbind option_bind]. by eexists _, _.
Qed.

(** Resolving the relative path from [from] leads to [to]. *)
Lemma path_resolve_relative from to :
  is_absolute_posix from = true -> no_trailing from -> rooted (absolute_segments from) -> rooted (absolute_segments to) ->
  path_resolve from [render #"/" (relative_segments (absolute_segments from) (absolute_segments to))] = abs (absolute_segments to).
Proof.
  intros Ha Hnt Hr1 Hr2. set (rs := relative_segments _ _).
  assert (Forall (name is_sep_any) rs) as Hrs.
  { destruct (relative_segments_split (absolute_segments from) (absolute_segments to)) as (p & r1 & r2 & _ & E2 & E & _).
    unfold rs. rewrite E. apply Forall_app. split; [apply Forall_replicate; by apply name_dotdot|].
    pose proof (absolute_names to) as H. rewrite E2 in H. by apply Forall_app in H as [_ H]. }
  assert (is_absolute_posix (render #"/" rs) = false) as Hrel.
  { destruct (decide (rs = [])) as [->|E]; [done|]. destruct (render_first rs (any_posix _ Hrs) E) as (c & l & -> & Hc).
    unfold is_absolute_posix. apply bool_decide_eq_false. intros [= ->]. done. }
  unfold path_resolve. cbn [effective]. rewrite Hrel. cbn [app fmap list_fmap concat].
  rewrite (segments_render #"/" is_sep_any sep_any rs Hrs), !app_nil_r.
  assert (resolve false (segments is_sep_any from ++ rs) = absolute_segments to) as ->.
  { unfold resolve. rewrite fold_left_app, resolve_rooted by first [apply segments_names|exact Hr1].
    unfold rs. unfold absolute_segments at 2. rewrite resolve_relative by done. unfold comps. cbn. by rewrite rev_involutive. }
  unfold abs. cbn [app]. f_equal. case_decide as E; [by rewrite app_nil_r|]. rewrite bool_decide_false; [by rewrite app_nil_r|].
  destruct (decide (rs = [])) as [E'|E'].
  - rewrite E'. cbn [render]. rewrite app_nil_r. destruct Hnt as [H|H]; [done|]. exfalso. apply E.
    unfold rs in E'. rewrite H in E'. by destruct (absolute_segments to).
  - rewrite last_app. destruct (render_first rs (any_posix _ Hrs) E') as (c & l & El & _).
    destruct (last (render #"/" rs)) as [x|] eqn:Ex; [|apply last_None in Ex; by rewrite Ex in El].
    intros [= ->]. by apply (last_render #"/" is_sep_any _ _ Hrs) in Ex.
Qed.

End Platform.
