(* ===== verification/PathProps.v ===== *)
(** The properties of path resolution on POSIX: normalising, joining, resolving
    and relating paths. *)
From S2P Require Import Prelude BunCore Paths PathNorm PathJoin PathRelative.

Lemma normalize_posix_ok (allow pts : bool) (p : Platform) (path buf : bytes) :
  p = Posix \/ p = Loose -> (length path <= length buf)%nat ->
  let N := normalized allow pts #"/" is_sep_any path in
  exists buf', normalize_string_buf allow p pts path buf = Some (buf', length N) /\
    length buf' = length buf /\ take (length N) buf' = N.
Proof.
  intros Hp Hl N. destruct (normalize_generic_spec allow pts false false #"/" is_sep_any sep_any dot_any ltac:(done) path buf)
    as (b & Hn & Hb & Ht & _); [lia|]. exists b. split; [|done]. destruct Hp; by subst p.
Qed.

Module PathProps.

(** C31: Normalising a path on POSIX (and Loose) never panics in a buffer as long
    as the path, and the result is the walk over its segments: empty ones and
    "." are dropped, ".." removes the name before it and, with no name left, is
    kept only when the path may go above its root; a separator at the end is
    kept on demand. *)
Theorem normalize_string_buf_correct (allow pts : bool) (p : Platform) (path buf : bytes) :
  p = Posix \/ p = Loose -> (length path <= length buf)%nat ->
  let N := normalized allow pts #"/" is_sep_any path in
  exists buf', normalize_string_buf allow p pts path buf = Some (buf', length N) /\
    length buf' = length buf /\ take (length N) buf' = N.
Proof. apply normalize_posix_ok. Qed.

Lemma normalize_string_buf_correct_witness :
  exists buf', normalize_string_buf true Posix true b!"a/./b//../../../c/" (replicate 18 0) = Some (buf', 5%nat) /\
    length buf' = 18%nat /\ take 5 buf' = b!"../c/".
Proof. apply (normalize_string_buf_correct true true Posix b!"a/./b//../../../c/" (replicate 18 0)); [by left|vm_compute; lia]. Defined.

(** Normalising the result of normalising gives it back. *)
Theorem normalize_idempotent (allow pts : bool) (p : Platform) (path buf buf1 buf2 : bytes) (n : nat) :
  p = Posix \/ p = Loose -> (length path <= length buf)%nat -> (n <= length buf2)%nat ->
  normalize_string_buf allow p pts path buf = Some (buf1, n) ->
  exists buf3, normalize_string_buf allow p pts (take n buf1) buf2 = Some (buf3, n) /\ take n buf3 = take n buf1.
Proof.
  intros Hp Hl Hn E. destruct (normalize_posix_ok allow pts p path buf Hp Hl) as (b & E' & _ & Ht).
  rewrite E' in E. injection E as -> <-. rewrite Ht.
  destruct (normalize_posix_ok allow pts p (normalized allow pts #"/" is_sep_any path) buf2 Hp Hn) as (b3 & E3 & _ & Ht3).
  rewrite normalized_idem in E3, Ht3 by done. by exists b3.
Qed.

Lemma normalize_idempotent_witness :
  exists buf1 buf3, normalize_string_buf false Loose false b!"/x\..//y/" (replicate 9 0) = Some (buf1, 1%nat) /\
    normalize_string_buf false Loose false (take 1 buf1) (replicate 1 0) = Some (buf3, 1%nat) /\ take 1 buf3 = take 1 buf1.
Proof.
  eexists _. edestruct (normalize_idempotent false false Loose b!"/x\..//y/" (replicate 9 0)) as (b3 & H & H');
    [by right| | |vm_compute; reflexivity|exists b3; split; [vm_compute; reflexivity|split; [exact H|exact H']]]; vm_compute; lia.
Defined.

(** C27: Joining parts on POSIX is Node's path.join: the parts that are not empty
    are joined with "/" and normalised, "." standing for no path at all. *)
Theorem join_correct (parts : list bytes) (buf : bytes) :
  (parts_count parts < length buf)%nat ->
  exists buf' a b, join_string_buf Posix parts buf = Some (buf', a, b) /\ length buf' = length buf /\
    slice buf' a b = Some (node_join parts).
Proof. apply join_string_buf_spec. Qed.

Lemma join_correct_witness :
  exists buf' a b, join_string_buf Posix [b!"/a"; []; b!"../..//b\"; b!"./"] (replicate 24 0) = Some (buf', a, b) /\ length buf' = 24%nat /\
    slice buf' a b = Some b!"/b\/".
Proof. apply (join_correct [b!"/a"; []; b!"../..//b\"; b!"./"] (replicate 24 0)). vm_compute. lia. Defined.

(** C13: Resolving parts against an absolute directory on POSIX gives, in any
    buffer, the segments of the parts from the last absolute one on, resolved;
    it answers None exactly when the result does not fit, and never panics. *)
Theorem join_abs_checked_correct (MAX_PATH_BYTES : Z) (pool cwd buf : bytes) (parts : list bytes) :
  Z.of_nat (length pool) = MAX_PATH_BYTES ->
  is_absolute_posix cwd = true -> parts <> [] -> Z.of_nat (length parts) < 2 ^ 16 ->
  exists buf', join_abs_string_buf_checked false MAX_PATH_BYTES pool Posix cwd buf parts =
      Some (buf', if decide (length (path_resolve cwd parts) <= length buf)%nat then Some (path_resolve cwd parts) else None) /\
    length buf' = length buf /\
    ((length (path_resolve cwd parts) <= length buf)%nat -> take (length (path_resolve cwd parts)) buf' = path_resolve cwd parts).
Proof. intros. by apply join_abs_checked_spec. Qed.

Lemma join_abs_checked_correct_witness :
  exists buf', join_abs_string_buf_checked false 4 (replicate 4 9) Posix b!"/home/me" (replicate 5 0) [b!"../x"; b!"/y/./z"; b!".."; b!"w/"] = Some (buf', Some b!"/y/w/") /\
    length buf' = 5%nat /\ ((5 <= 5)%nat -> take 5 buf' = b!"/y/w/").
Proof.
  apply (join_abs_checked_correct 4 (replicate 4 9) b!"/home/me" (replicate 5 0) [b!"../x"; b!"/y/./z"; b!".."; b!"w/"]); done.
Defined.

(** C12: Going from one absolute POSIX path to another: [relative] returns, and
    resolving what it returns against the first path leads to the second one,
    normalised, when neither climbs above the root nor ends with a separator. *)
Theorem relative_round_trip (MAX_PATH_BYTES : Z) (pool : bytes) (strn : bytes -> bytes -> nat -> bool) (top_level_dir : bytes)
    (copy : bool) (bufs : RelativeBufs) (from to buf out : bytes) :
  Z.of_nat (length pool) = MAX_PATH_BYTES ->
  is_absolute_posix from = true -> is_absolute_posix to = true -> Forall is_byte from -> Forall is_byte to ->
  no_trailing from -> no_trailing to ->
  Forall proper (absolute_segments from) -> Forall proper (absolute_segments to) ->
  (length from < length (relative_from_buf bufs))%nat -> (length to < length (relative_to_buf bufs))%nat ->
  (length (render #"/" (relative_segments (absolute_segments from) (absolute_segments to))) <= length buf)%nat ->
  exists bufs' buf' r,
    relative_platform_buf false MAX_PATH_BYTES pool strn top_level_dir Posix copy bufs buf from to = Some (bufs', buf', r) /\
    ((scratch_total (length from) [r] <= length out)%nat ->
     exists out', join_abs_string_buf false MAX_PATH_BYTES pool Posix from out [r] = Some (out', abs (absolute_segments to))).
Proof.
  intros Hpool Ha1 Ha2 Hb1 Hb2 Hn1 Hn2 Hr1 Hr2 Hl1 Hl2 Hl.
  destruct (relative_platform_spec MAX_PATH_BYTES pool strn top_level_dir copy bufs buf from to) as (bufs' & buf' & E); [done..|].
  eexists _, _, _. split; [exact E|]. intros Hout.
  destruct (join_abs_spec MAX_PATH_BYTES pool Hpool false from out [render #"/" (relative_segments (absolute_segments from) (absolute_segments to))])
    as (out' & Ej & _); [done..|].
  exists out'. unfold join_abs_string_buf. by rewrite Ej, path_resolve_relative.
Qed.

Lemma relative_round_trip_witness :
  exists bufs' buf' r,
    relative_platform_buf false 4 (replicate 4 9) (fun _ _ _ => false) b!"/" Posix false
      {| relative_from_buf := replicate 30 0; relative_to_buf := replicate 30 0 |} (replicate 20 0) b!"/home/me/./src" b!"/home/me/../you" = Some (bufs', buf', r) /\
    ((scratch_total 14 [r] <= 60)%nat ->
     exists out', join_abs_string_buf false 4 (replicate 4 9) Posix b!"/home/me/./src" (replicate 60 0) [r] = Some (out', b!"/home/you")).
Proof.
  apply (relative_round_trip 4 (replicate 4 9) (fun _ _ _ => false) b!"/" false
    {| relative_from_buf := replicate 30 0; relative_to_buf := replicate 30 0 |} b!"/home/me/./src" b!"/home/me/../you" (replicate 20 0) (replicate 60 0)); try done.
  all: try (by apply all_bytes).
  all: try (by left).
  all: try (vm_compute; lia).
  all: vm_compute; repeat constructor; done.
Defined.

(** A backslash splits a name on POSIX, except in [join]. *)
Example backslash_splits :
  snd <$> join_abs_string_buf false 4 (replicate 4 0) Posix b!"/" (replicate 9 0) [b!"a\b"] = Some b!"/a/b" /\
  node_join [b!"a\b"] = b!"a\b".
Proof. split; by vm_compute. Qed.

(** [path.resolve] drops the separator at the end. *)
Example resolve_keeps_slash :
  snd <$> join_abs_string_buf false 4 (replicate 4 0) Posix b!"/a" (replicate 9 0) [b!"b/"] = Some b!"/a/b/".
Proof. by vm_compute. Qed.

(** An absolute path may climb above the root, a relative one may not. *)
Example normalize_buf_above_root :
  (fun '(b, n) => take n b) <$> normalize_buf false Posix b!"/../a" (replicate 9 0) = Some b!"../a" /\
  (fun '(b, n) => take n b) <$> normalize_buf false Posix b!"../a" (replicate 9 0) = Some b!"a" /\
  node_normalize b!"/../a" = b!"/a" /\ node_normalize b!"../a" = b!"../a".
Proof. repeat split; by vm_compute. Qed.

Example relative_above_root :
  snd <$> relative_platform_buf false 4 (replicate 4 0) (fun _ _ _ => false) b!"/" Posix false
    {| relative_from_buf := replicate 9 0; relative_to_buf := replicate 9 0 |} (replicate 9 0) b!"/../a" b!"/b" = Some b!"../../b" /\
  path_resolve b!"/" [b!"/../a"] = b!"/a".
Proof. split; by vm_compute. Qed.

(** With more than eight paths the common directory is lost. *)
Example nine_entry_points :
  let entry (c : Z) := b!"/app/src/" ++ [c] in
  get_if_exists_longest_common_path (entry <$> b!"12345678") = Some (Some b!"/app/src/") /\
  get_if_exists_longest_common_path (entry <$> b!"123456789") = Some None /\
  longest_common_path (fun _ _ _ => false) (entry <$> b!"123456789") = Some b!"/".
Proof. repeat split; by vm_compute. Qed.

(** A directory whose text occurs anywhere in a path is taken for a parent. *)
Example parent_by_substring : is_parent_or_equal b!"/b" b!"/a/b" = Parent.
Proof. by vm_compute. Qed.

End PathProps.
