(* ===== verification/PathIter.v ===== *)
(** src/src/paths/component_iterator.rs: the iterator over the components of a
    path, and the walk that makes a directory with its missing parents. *)
From S2P Require Import Prelude BunCore Paths PathNorm.

Inductive PathFormat := FmtPosix | FmtWindows.

Definition fmt_is_sep (fmt : PathFormat) (c : Z) : bool :=
  match fmt with FmtPosix => c =? #"/" | FmtWindows => is_sep_any c end.

(** [name] and [path] of a component. *)
Record Component := { c_name : bytes; c_path : bytes }.

Record ComponentIterator := { it_path : bytes; root_end : nat; it_start : nat; it_end : nat; it_fmt : PathFormat }.

Inductive PathError := BadPathName.

(** [\\.\], [\\?\], [\??\]. *)
Definition namespace_prefix (path : bytes) : bool :=
  match path with
  | c0 :: c1 :: c2 :: c3 :: _ =>
    is_sep_any c0 && is_sep_any c3 &&
    (if c1 =? #"?" then (c2 =? #"?") && (c0 =? #"\") && (c3 =? #"\")
     else is_sep_any c1 && ((c2 =? #"?") || (c2 =? #".")))
  | _ => false
  end.

Definition windows_root_end (path : bytes) : Result nat PathError :=
  let skip_seps := skip_while is_sep_any path in
  let skip_name := skip_while (fun c => negb (is_sep_any c)) path in
  if namespace_prefix path then Err BadPathName
  else
    match path with
    | [] => Ok 0%nat
    | c0 :: r =>
      if is_sep_any c0 then
        match r with
        | c1 :: r' =>
          if is_sep_any c1 then
            if bool_decide (length path = 3%nat) && ((at_ path 2 =? #".") || (at_ path 2 =? #"?")) then Ok (length path)
            else if bool_decide (2 < length path)%nat && is_sep_any (at_ path 2) then Err BadPathName
            else Ok (skip_seps (skip_name (skip_seps (skip_name 2%nat))))
          else Ok 1%nat
        | [] => Ok 1%nat
        end
      else
        match r with
        | c1 :: _ =>
          if negb (c1 =? #":") then Ok 0%nat
          else if bool_decide (2 < length path)%nat && is_sep_any (at_ path 2) then Ok (skip_seps 3%nat)
          else Ok 2%nat
        | [] => Ok 0%nat
        end
    end.

Definition init (path : bytes) (fmt : PathFormat) : Result ComponentIterator PathError :=
  (root <-? match fmt with FmtPosix => Ok (skip_while (fmt_is_sep FmtPosix) path 0) | FmtWindows => windows_root_end path end;
   Ok {| it_path := path; root_end := root; it_start := root; it_end := root; it_fmt := fmt |})%result.

Definition is_sep (it : ComponentIterator) (c : Z) : bool := fmt_is_sep (it_fmt it) c.

Definition root (it : ComponentIterator) : option bytes :=
  if decide (root_end it = 0%nat) then None else Some (take (root_end it) (it_path it)).

Definition seek (it : ComponentIterator) (s e : nat) : ComponentIterator :=
  {| it_path := it_path it; root_end := root_end it; it_start := s; it_end := e; it_fmt := it_fmt it |}.

(** [&path[start..end]] and [&path[..end]]. *)
Definition component (path : bytes) (s e : nat) : Component := {| c_name := take (e - s) (drop s path); c_path := take e path |}.

(** The forward scans. *)
Definition skip_seps (it : ComponentIterator) (i : nat) : nat := skip_while (is_sep it) (it_path it) i.
Definition skip_name (it : ComponentIterator) (i : nat) : nat := skip_while (fun c => negb (is_sep it c)) (it_path it) i.

(** The backward scans: [None] at the root, which [e] never passes. *)
Fixpoint back_seps (it : ComponentIterator) (e : nat) : option nat :=
  if decide (e = root_end it) then None
  else
    match e with
    | O => None
    | S i => if is_sep it (at_ (it_path it) i) then back_seps it i else Some e
    end.

Fixpoint back_name (it : ComponentIterator) (s : nat) : nat :=
  match s with
  | O => 0
  | S i => if bool_decide (root_end it < s)%nat && negb (is_sep it (at_ (it_path it) i)) then back_name it i else s
  end.

Definition first (it : ComponentIterator) : ComponentIterator * option Component :=
  let s := root_end it in
  let e := skip_name it s in
  (seek it s e, if decide (e = s) then None else Some (component (it_path it) s e)).

Definition last_component (it : ComponentIterator) : ComponentIterator * option Component :=
  match back_seps it (length (it_path it)) with
  | None => (seek it (root_end it) (root_end it), None)
  | Some e =>
    let s := back_name it e in
    (seek it s e, if decide (s = e) then None else Some (component (it_path it) s e))
  end.

Definition peek_next (it : ComponentIterator) : option Component :=
  let s := skip_seps it (it_end it) in
  let e := skip_name it s in
  if decide (s = e) then None else Some (component (it_path it) s e).

Definition peek_previous (it : ComponentIterator) : option Component :=
  match back_seps it (it_start it) with
  | None => None
  | Some e =>
    let s := back_name it e in
    if decide (s = e) then None else Some (component (it_path it) s e)
  end.

Definition seek_to (it : ComponentIterator) (c : Component) : ComponentIterator :=
  seek it (length (c_path c) - length (c_name c)) (length (c_path c)).

Definition next (it : ComponentIterator) : ComponentIterator * option Component :=
  match peek_next it with
  | None => (it, None)
  | Some p => (seek_to it p, Some p)
  end.

Definition previous (it : ComponentIterator) : ComponentIterator * option Component :=
  match peek_previous it with
  | None => (it, None)
  | Some p => (seek_to it p, Some p)
  end.

(** * [make_path_with] *)

Inductive MakePathStep (E : Type) := Created | Exists | NotFound (e : E).
Arguments Created {E}.
Arguments Exists {E}.
Arguments NotFound {E} e.

Section MakePath.
(** The closure [mkdir] and the state it captures. *)
Context {S E : Type} (mkdir : S -> bytes -> S * Result (MakePathStep E) E).

(** [None]: no fuel left. *)
Fixpoint make_path_loop (fuel : nat) (st : S) (it : ComponentIterator) (comp : Component) : option (S * Result unit E) :=
  match fuel with
  | O => None
  | Datatypes.S fuel =>
    let '(st, r) := mkdir st (c_path comp) in
    match r with
    | Err e => Some (st, Err e)
    | Ok Created | Ok Exists =>
      match next it with
      | (it, Some comp) => make_path_loop fuel st it comp
      | (_, None) => Some (st, Ok tt)
      end
    | Ok (NotFound e) =>
      match previous it with
      | (it, Some comp) => make_path_loop fuel st it comp
      | (_, None) => Some (st, Err e)
      end
    end
  end.

Definition make_path_with (fuel : nat) (st : S) (it : ComponentIterator) : option (S * Result unit E) :=
  match last_component it with
  | (it, Some comp) => make_path_loop fuel st it comp
  | (_, None) => Some (st, Ok tt)
  end.

End MakePath.

(** * The components of a path *)

Section Spans.
Context (f : Z -> bool) (path : bytes).

(** From [a] on, the path is separators and the names at these positions. *)
Inductive spans : nat -> list (nat * nat) -> Prop :=
| spans_nil a : (a <= length path)%nat -> Forall (fun c => f c = true) (drop a path) -> spans a []
| spans_cons a s e l :
    (a <= s < e)%nat -> (e <= length path)%nat ->
    Forall (fun c => f c = true) (take (s - a) (drop a path)) ->
    Forall (fun c => f c = false) (take (e - s) (drop s path)) ->
    (forall c, path !! e = Some c -> f c = true) ->
    spans e l -> spans a ((s, e) :: l).

Lemma spans_exist n a : (length path - a <= n)%nat -> (a <= length path)%nat -> exists l, spans a l.
Proof.
  revert a. induction n as [|n IH]; intros a Hn Ha.
  { exists []. constructor; [done|]. by rewrite drop_ge by lia. }
  set (s := skip_while f path a). set (e := skip_while (fun c => negb (f c)) path s).
  pose proof (skip_while_bounds f path a Ha) as Hs. fold s in Hs.
  pose proof (skip_while_bounds (fun c => negb (f c)) path s ltac:(lia)) as He. fold e in He.
  assert (Forall (fun c => f c = true) (take (s - a) (drop a path))) as Hsep.
  { unfold s, skip_while. replace (a + _ - a)%nat with (prefix_len f (drop a path)) by lia. apply prefix_len_Forall. }
  destruct (decide (s = length path)) as [Hl|Hl].
  { exists []. constructor; [done|]. by rewrite Hl, take_ge in Hsep by (rewrite length_drop; lia). }
  destruct (lookup_lt_is_Some_2 path s) as [c Hc]; [lia|].
  assert (f c = false) as Hf.
  { rewrite <- (Nat.sub_add a s), Nat.add_comm, <- lookup_drop in Hc by lia.
    unfold s, skip_while in Hc. replace (a + _ - a)%nat with (prefix_len f (drop a path)) in Hc by lia. by apply prefix_len_stop in Hc. }
  assert (s < e)%nat as Hlt.
  { unfold e, skip_while. rewrite (drop_S _ _ _ Hc). cbn. rewrite Hf. cbn. lia. }
  destruct (IH e) as [l Hspans]; [lia|lia|]. exists ((s, e) :: l). constructor; [lia|lia|done| |  |done].
  - unfold e, skip_while. replace (s + _ - s)%nat with (prefix_len (fun c => negb (f c)) (drop s path)) by lia.
    eapply Forall_impl; [apply prefix_len_Forall|]. cbn. intros x. by destruct (f x).
  - intros x Hx. rewrite <- (Nat.sub_add s e), Nat.add_comm, <- lookup_drop in Hx by lia.
    unfold e, skip_while in Hx. replace (s + _ - s)%nat with (prefix_len (fun c => negb (f c)) (drop s path)) in Hx by lia.
    apply prefix_len_stop in Hx. by destruct (f x).
Qed.

End Spans.

(** * Scans *)

Lemma skip_while_to p (path : bytes) a s :
  (a <= s <= length path)%nat -> Forall (fun c => p c = true) (take (s - a) (drop a path)) ->
  (forall c, path !! s = Some c -> p c = false) -> skip_while p path a = s.
Proof.
  intros Hs Hall Hstop. unfold skip_while. rewrite <- (take_drop (s - a) (drop a path)), prefix_len_app by done.
  rewrite drop_drop, length_take, length_drop. replace (a + (s - a))%nat with s by lia.
  destruct (path !! s) as [c|] eqn:Hc.
  - rewrite (drop_S _ _ _ Hc). rewrite prefix_len_stop_cons by (by apply Hstop). lia.
  - apply lookup_ge_None in Hc. rewrite drop_ge by lia. cbn. lia.
Qed.

Lemma Forall_range (P : Z -> Prop) (path : bytes) a s i c :
  Forall P (take (s - a) (drop a path)) -> (a <= i < s)%nat -> path !! i = Some c -> P c.
Proof.
  intros H Hi Hc. rewrite Forall_lookup in H. apply (H (i - a)%nat).
  rewrite lookup_take_lt, lookup_drop by lia. rewrite <- Hc. f_equal. lia.
Qed.

Lemma spans_cons_inv f path a s e l :
  spans f path a ((s, e) :: l) ->
  (a <= s < e)%nat /\ (e <= length path)%nat /\ Forall (fun c => f c = true) (take (s - a) (drop a path)) /\
  Forall (fun c => f c = false) (take (e - s) (drop s path)) /\ (forall c, path !! e = Some c -> f c = true) /\ spans f path e l.
Proof. inversion 1; subst. auto 10. Qed.

Section Walk.
Context (it0 : ComponentIterator).
Notation path := (it_path it0).
Notation r := (root_end it0).
Notation f := (is_sep it0).
Notation at_pos s e := (seek it0 s e).
Context (Hr : (r <= length path)%nat).

Lemma at_lookup i c : path !! i = Some c -> at_ path i = c.
Proof. intros H. unfold at_. by apply nth_lookup_Some. Qed.

(** The component to the right of a position. *)
Lemma next_spans s e l :
  spans f path e l ->
  next (at_pos s e) = match l with [] => (at_pos s e, None) | (s', e') :: _ => (at_pos s' e', Some (component path s' e')) end.
Proof.
  intros Hsp. unfold next, peek_next, skip_seps, skip_name. cbn [it_path it_end seek].
  change (is_sep (at_pos s e)) with f. destruct l as [|[s' e'] l].
  - inversion Hsp as [? Hle Hall|]; subst. assert (skip_while f path e = length path) as ->.
    { apply skip_while_to; [lia| |]; [by rewrite take_ge by (rewrite length_drop; lia)|].
      intros c Hc. apply lookup_lt_Some in Hc. lia. }
    assert (skip_while (fun c => negb (f c)) path (length path) = length path) as ->.
    { apply skip_while_to; [lia|by rewrite Nat.sub_diag|]. intros c Hc. apply lookup_lt_Some in Hc. lia. }
    by rewrite decide_True.
  - apply spans_cons_inv in Hsp as (Hse & Hle & Hsep & Hn & Hb & _).
    destruct (lookup_lt_is_Some_2 path s') as [c Hc]; [lia|].
    assert (f c = false) as Hf by (eapply (Forall_range (fun c => f c = false) _ s' e'); [done| |done]; lia).
    rewrite (skip_while_to f path e s'); [|lia|done|intros ?; rewrite Hc; by intros [= <-]].
    rewrite (skip_while_to (fun c => negb (f c)) path s' e'); [|lia| |].
    + rewrite decide_False by lia. unfold seek_to, component. cbn [c_path c_name].
      rewrite !length_take, length_drop. unfold seek. cbn. repeat f_equal; lia.
    + eapply Forall_impl; [done|]. cbn. by intros ? ->.
    + intros x Hx. by rewrite (Hb x Hx).
Qed.

(** What stands around a component. *)
Lemma spans_at a pre s e post :
  spans f path a (pre ++ (s, e) :: post) ->
  (a <= s < e)%nat /\ (e <= length path)%nat /\ Forall (fun c => f c = false) (take (e - s) (drop s path)) /\
  (forall c, path !! e = Some c -> f c = true) /\
  (s = a \/ (a < s)%nat /\ exists c, path !! (s - 1)%nat = Some c /\ f c = true) /\ spans f path e post.
Proof.
  revert a. induction pre as [|[s1 e1] pre IH]; intros a Hsp; cbn [app] in Hsp; apply spans_cons_inv in Hsp as (Hse & Hle & Hsep & Hn & Hb & Hsp).
  - do 4 (split; [done|]). split; [|done]. destruct (decide (s = a)) as [|Hne]; [by left|right]. split; [lia|].
    destruct (lookup_lt_is_Some_2 path (s - 1)) as [c Hc]; [lia|]. exists c. split; [done|].
    eapply (Forall_range (fun c => f c = true) _ a s); [done| |done]. lia.
  - destruct (IH e1 Hsp) as (Hse' & Hle' & Hn' & Hb' & Hs & Hsp'). split; [lia|]. do 3 (split; [done|]). split; [|done].
    right. destruct Hs as [->|[Hlt Hc]]; [|by split; [lia|]]. exfalso.
    destruct (lookup_lt_is_Some_2 path e1) as [c Hc]; [lia|].
    assert (f c = false) as Hf by (eapply (Forall_range (fun c => f c = false) _ e1 e); [done| |done]; lia).
    rewrite (Hb c Hc) in Hf. done.
Qed.

(** The separators between two components. *)
Lemma spans_gap a pre s' e' s e post :
  spans f path a (pre ++ (s', e') :: (s, e) :: post) ->
  (e' < s)%nat /\ Forall (fun c => f c = true) (take (s - e') (drop e' path)).
Proof.
  intros Hsp. apply spans_at in Hsp as (Hse & Hle & Hn & Hb & _ & Hsp).
  apply spans_cons_inv in Hsp as (Hse' & Hle' & Hsep & Hn' & _ & _). split; [|done].
  assert (e' <> s); [|lia]. intros ->. destruct (lookup_lt_is_Some_2 path s) as [c Hc]; [lia|].
  assert (f c = false) as Hf by (eapply (Forall_range (fun c => f c = false) _ s e); [done| |done]; lia).
  rewrite (Hb c Hc) in Hf. done.
Qed.

(** The backward scans. *)
Lemma back_seps_to n m :
  (r <= m <= n)%nat -> (n <= length path)%nat -> Forall (fun c => f c = true) (take (n - m) (drop m path)) ->
  (m = r \/ exists c, path !! (m - 1)%nat = Some c /\ f c = false /\ (r < m)%nat) ->
  back_seps it0 n = if decide (m = r) then None else Some m.
Proof.
  intros Hm Hn Hall Hstop. induction n as [|n IH]; cbn [back_seps].
  { destruct (decide (0%nat = r)); [by rewrite decide_True by lia|lia]. }
  destruct (decide (S n = r)); [by rewrite decide_True by lia|]. destruct (decide (m = S n)) as [->|Hne].
  - destruct Hstop as [?|(c & Hc & Hf & Hlt)]; [congruence|]. replace (S n - 1)%nat with n in Hc by lia.
    rewrite (at_lookup _ _ Hc), Hf. by rewrite decide_False by lia.
  - destruct (lookup_lt_is_Some_2 path n) as [c Hc]; [lia|].
    assert (f c = true) as Hf by (eapply (Forall_range (fun c => f c = true) _ m (S n)); [done| |done]; lia).
    rewrite (at_lookup _ _ Hc), Hf. apply IH; [lia|lia|].
    replace (n - m)%nat with (Nat.min (n - m) (S n - m)) by lia. rewrite <- take_take. by apply Forall_take.
Qed.

Lemma back_name_to e s :
  (r <= s <= e)%nat -> (e <= length path)%nat -> Forall (fun c => f c = false) (take (e - s) (drop s path)) ->
  (s = r \/ (r < s)%nat /\ exists c, path !! (s - 1)%nat = Some c /\ f c = true) ->
  back_name it0 e = s.
Proof.
  intros Hs He Hall Hstop. induction e as [|e IH]; cbn [back_name]; [lia|].
  destruct (decide (s = S e)) as [->|Hne].
  - destruct Hstop as [->|(Hlt & c & Hc & Hf)]; [by rewrite bool_decide_false by lia|].
    replace (S e - 1)%nat with e in Hc by lia. by rewrite (at_lookup _ _ Hc), Hf, andb_false_r.
  - destruct (lookup_lt_is_Some_2 path e) as [c Hc]; [lia|].
    assert (f c = false) as Hf by (eapply (Forall_range (fun c => f c = false) _ s (S e)); [done| |done]; lia).
    rewrite (at_lookup _ _ Hc), Hf, bool_decide_true by lia. cbn [negb andb]. apply IH; [lia|lia|].
    replace (e - s)%nat with (Nat.min (e - s) (S e - s)) by lia. rewrite <- take_take. by apply Forall_take.
Qed.


(** From the end [e'] of a component, over the separators after it. *)
Lemma back_component pre s' e' post n :
  spans f path r (pre ++ (s', e') :: post) -> (e' <= n)%nat -> (n <= length path)%nat ->
  Forall (fun c => f c = true) (take (n - e') (drop e' path)) ->
  back_seps it0 n = Some e' /\ back_name it0 e' = s' /\ (s' < e')%nat /\ (e' <= length path)%nat.
Proof.
  intros Hsp Hn Hle Hall. apply spans_at in Hsp as (Hse & Hle' & Hname & _ & Hs & _).
  split; [|split; [by apply back_name_to; [lia|..]|lia]].
  destruct (lookup_lt_is_Some_2 path (e' - 1)) as [c Hc]; [lia|].
  rewrite (back_seps_to n e'); [by rewrite decide_False by lia|lia|done|done|]. right. exists c. split; [done|]. split; [|lia].
  eapply (Forall_range (fun c => f c = false) _ s' e'); [done| |done]. lia.
Qed.

Lemma seek_component (s e s' e' : nat) :
  (s' <= e' <= length path)%nat -> seek_to (at_pos s e) (component path s' e') = at_pos s' e'.
Proof.
  intros H. unfold seek_to, component. cbn [c_path c_name]. rewrite !length_take, length_drop. unfold seek. cbn. f_equal; lia.
Qed.

Lemma back_seps_seek s e n : back_seps (at_pos s e) n = back_seps it0 n.
Proof. induction n as [|n IH]; cbn [back_seps]; [done|]. by rewrite IH. Qed.

Lemma back_name_seek s e n : back_name (at_pos s e) n = back_name it0 n.
Proof. induction n as [|n IH]; cbn [back_name]; [done|]. by rewrite IH. Qed.

(** The component to the left of a component. *)
Lemma previous_spans pre s e post :
  spans f path r (pre ++ (s, e) :: post) ->
  previous (at_pos s e) = match last pre with None => (at_pos s e, None) | Some (s', e') => (at_pos s' e', Some (component path s' e')) end.
Proof.
  intros Hsp. unfold previous, peek_previous. cbn [it_start seek].
  rewrite back_seps_seek. change (it_path (at_pos s e)) with path. destruct pre as [|[s' e'] pre' _] using rev_ind.
  - apply spans_cons_inv in Hsp as (Hse & Hle & Hsep & _). cbn [last].
    rewrite (back_seps_to s r); [by rewrite decide_True|lia|lia|done|by left].
  - rewrite last_snoc. rewrite <- app_assoc in Hsp. cbn [app] in Hsp. destruct (spans_gap _ _ _ _ _ _ _ Hsp) as [Hlt Hsep].
    assert (s <= length path)%nat as Hs.
    { rewrite cons_middle, app_assoc in Hsp. apply spans_at in Hsp. lia. }
    destruct (back_component pre' s' e' _ s Hsp) as (-> & Hbn & Hse & Hle); [lia|done|done|].
    rewrite back_name_seek, Hbn, decide_False by lia. by rewrite seek_component by lia.
Qed.

Lemma last_spans l :
  spans f path r l ->
  last_component it0 = match last l with None => (at_pos r r, None) | Some (s, e) => (at_pos s e, Some (component path s e)) end.
Proof.
  intros Hsp. unfold last_component. destruct l as [|[s e] pre _] using rev_ind.
  - inversion Hsp as [? Hle Hall|]; subst. cbn [last].
    rewrite (back_seps_to (length path) r); [by rewrite decide_True|lia|lia| |by left]. by rewrite take_ge by (rewrite length_drop; lia).
  - rewrite last_snoc. pose proof Hsp as Hat. apply spans_at in Hat as (_ & Hle & _ & _ & _ & Hend).
    inversion Hend as [? _ Hall|]; subst.
    destruct (back_component pre s e [] (length path) Hsp) as (-> & -> & Hse & _); [lia|done|by rewrite take_ge by (rewrite length_drop; lia)|].
    by rewrite decide_False by lia.
Qed.

End Walk.

(** The names are the segments after the root. *)
Lemma spans_segments f path a l :
  spans f path a l -> (fun '(s, e) => take (e - s) (drop s path)) <$> l = segments f (drop a path).
Proof.
  induction 1 as [a Ha Hall|a s e l Hse Hle Hsep Hn Hb Hsp IH]; cbn.
  - rewrite <- (app_nil_r (drop a path)). by rewrite segments_seps.
  - rewrite IH. rewrite <- (take_drop (s - a) (drop a path)), segments_seps, drop_drop by done.
    replace (a + (s - a))%nat with s by lia. rewrite <- (take_drop (e - s) (drop s path)) at 2. rewrite drop_drop.
    replace (s + (e - s))%nat with e by lia. rewrite segments_name; [done| |].
    + split; [|done]. intros H. apply (f_equal length) in H. rewrite length_take, length_drop in H. cbn in H. lia.
    + apply boundary_drop. destruct (path !! e) eqn:E; [by apply Hb|done].
Qed.

(** * Whole walks *)

(** All the components forward; [None] if there is no fuel left. *)
Fixpoint collect_next (fuel : nat) (it : ComponentIterator) : option (list Component) :=
  match fuel with
  | O => None
  | S fuel =>
    match next it with
    | (_, None) => Some []
    | (it, Some c) => (c ::.) <$> collect_next fuel it
    end
  end.

Fixpoint collect_previous (fuel : nat) (it : ComponentIterator) : option (list Component) :=
  match fuel with
  | O => None
  | S fuel =>
    match previous it with
    | (_, None) => Some []
    | (it, Some c) => (c ::.) <$> collect_previous fuel it
    end
  end.

(** Backward, from the last component. *)
Definition collect_back (fuel : nat) (it : ComponentIterator) : option (list Component) :=
  match last_component it with
  | (_, None) => Some []
  | (it, Some c) => (c ::.) <$> collect_previous fuel it
  end.

Lemma windows_root_end_le path n : windows_root_end path = Ok n -> (n <= length path)%nat.
Proof.
  unfold windows_root_end. destruct (namespace_prefix path); [done|].
  assert (forall p a, (a <= length path)%nat -> (skip_while p path a <= length path)%nat) as Hb.
  { intros p a Ha. by destruct (skip_while_bounds p path a Ha). }
  destruct path as [|c0 [|c1 path]]; [by intros [= <-]|by destruct (is_sep_any c0); intros [= <-]; cbn; lia|].
  destruct (is_sep_any c0).
  - destruct (is_sep_any c1); [|by intros [= <-]; cbn; lia].
    destruct (_ && _); [by intros [= <-]|]. destruct (_ && _); [done|]. intros [= <-]. do 4 apply Hb. cbn. lia.
  - destruct (negb _); [by intros [= <-]; cbn; lia|]. destruct (bool_decide (2 < _)%nat && _) eqn:E; intros [= <-].
    + apply andb_true_iff in E as [E%bool_decide_eq_true _]. by apply Hb.
    + cbn. lia.
Qed.

Lemma init_inv path fmt it :
  init path fmt = Ok it ->
  it_path it = path /\ it_fmt it = fmt /\ it = seek it (root_end it) (root_end it) /\ (root_end it <= length path)%nat.
Proof.
  unfold init. destruct (match fmt with FmtPosix => _ | FmtWindows => _ end) as [n|] eqn:E; cbn; [|done].
  intros [= <-]. cbn. do 3 (split; [done|]). destruct fmt.
  - injection E as <-. by destruct (skip_while_bounds (fmt_is_sep FmtPosix) path 0 ltac:(lia)).
  - by apply windows_root_end_le.
Qed.

Lemma spans_length f path a l : spans f path a l -> (length l + a <= length path)%nat.
Proof. induction 1; cbn; lia. Qed.

Section Collect.
Context (it : ComponentIterator) (Hr : (root_end it <= length (it_path it))%nat).

Lemma collect_next_spans l s e fuel :
  spans (is_sep it) (it_path it) e l -> (length l < fuel)%nat ->
  collect_next fuel (seek it s e) = Some ((fun '(s, e) => component (it_path it) s e) <$> l).
Proof.
  revert s e fuel. induction l as [|[s' e'] l IH]; intros s e fuel Hsp Hf; (destruct fuel as [|fuel]; [lia|]); cbn [collect_next].
  - by rewrite (next_spans it Hr s e [] Hsp).
  - rewrite (next_spans it Hr s e _ Hsp). apply spans_cons_inv in Hsp as (_ & _ & _ & _ & _ & Hsp). cbn [length] in Hf.
    rewrite (IH s' e' fuel Hsp) by lia. done.
Qed.

Lemma collect_previous_spans pre s e post fuel :
  spans (is_sep it) (it_path it) (root_end it) (pre ++ (s, e) :: post) -> (length pre < fuel)%nat ->
  collect_previous fuel (seek it s e) = Some (rev ((fun '(s, e) => component (it_path it) s e) <$> pre)).
Proof.
  revert s e post fuel. induction pre as [|[s' e'] pre IH] using rev_ind; intros s e post fuel Hsp Hf; (destruct fuel as [|fuel]; [lia|]); cbn [collect_previous].
  - by rewrite (previous_spans it Hr [] s e post Hsp).
  - rewrite (previous_spans it Hr _ s e post Hsp), last_snoc. rewrite <- app_assoc in Hsp. cbn [app] in Hsp.
    rewrite length_app in Hf. cbn in Hf. rewrite (IH s' e' _ fuel Hsp) by lia.
    rewrite fmap_app, rev_app_distr. done.
Qed.

Lemma collect_spans l :
  spans (is_sep it) (it_path it) (root_end it) l ->
  collect_back (S (length l)) it = Some (rev ((fun '(s, e) => component (it_path it) s e) <$> l)).
Proof.
  intros Hsp. unfold collect_back. rewrite (last_spans it Hr l Hsp). destruct l as [|[s e] pre _] using rev_ind; [done|].
  rewrite last_snoc, (collect_previous_spans pre s e [] _ Hsp) by (rewrite length_app; cbn; lia).
  by rewrite fmap_app, rev_app_distr.
Qed.

End Collect.

(** * The roots *)

(** [rest] does not start with a character of [f]. *)
Definition stops (f : Z -> bool) (rest : bytes) : Prop := forall c, rest !! 0%nat = Some c -> f c = false.

(** The root of a Windows path and what follows it. *)
Inductive windows_root : bytes -> bytes -> Prop :=
| root_none rest : stops is_sep_any rest -> rest !! 1%nat <> Some #":" -> windows_root [] rest
| root_drive_relative c rest : is_sep_any c = false -> stops is_sep_any rest -> windows_root [c; #":"] rest
| root_drive_absolute c seps rest :
    is_sep_any c = false -> seps <> [] -> Forall (fun x => is_sep_any x = true) seps -> stops is_sep_any rest ->
    windows_root (c :: #":" :: seps) rest
| root_rooted c rest : is_sep_any c = true -> stops is_sep_any rest -> windows_root [c] rest
| root_unc a b server s1 share s2 rest :
    is_sep_any a = true -> is_sep_any b = true ->
    Forall (fun x => is_sep_any x = false) server -> Forall (fun x => is_sep_any x = true) s1 ->
    Forall (fun x => is_sep_any x = false) share -> Forall (fun x => is_sep_any x = true) s2 ->
    (server = [] -> s1 = []) -> (s1 = [] -> share = []) -> (share = [] -> s2 = []) -> (s2 = [] -> rest = []) -> stops is_sep_any rest ->
    windows_root (a :: b :: server ++ s1 ++ share ++ s2) rest.

(** The Windows paths that are refused: [\\.\], [\\?\] and their like, [\??\],
    and three separators at the start. *)
Inductive windows_bad : bytes -> Prop :=
| bad_device a b c d r :
    is_sep_any a = true -> is_sep_any b = true -> c = #"?" \/ c = #"." -> is_sep_any d = true -> windows_bad (a :: b :: c :: d :: r)
| bad_nt r : windows_bad (#"\" :: #"?" :: #"?" :: #"\" :: r)
| bad_separators a b c r : is_sep_any a = true -> is_sep_any b = true -> is_sep_any c = true -> windows_bad (a :: b :: c :: r).

Definition path_root (fmt : PathFormat) (root rest : bytes) : Prop :=
  match fmt with
  | FmtPosix => Forall (fun c => c = #"/") root /\ stops (fmt_is_sep FmtPosix) rest
  | FmtWindows => windows_root root rest
  end.

(** A scan takes the longest prefix. *)
Lemma skip_while_split p (path : bytes) a :
  (a <= length path)%nat ->
  exists w, drop a path = w ++ drop (skip_while p path a) path /\ Forall (fun c => p c = true) w /\
    stops p (drop (skip_while p path a) path) /\ skip_while p path a = (a + length w)%nat.
Proof.
  intros Ha. unfold skip_while. set (n := prefix_len p (drop a path)). exists (take n (drop a path)).
  rewrite <- drop_drop, take_drop. split; [done|]. split; [apply prefix_len_Forall|]. split.
  - intros c Hc. rewrite lookup_drop, Nat.add_0_r in Hc. by apply prefix_len_stop in Hc.
  - pose proof (prefix_len_le p (drop a path)) as Hn. fold n in Hn. rewrite length_take. lia.
Qed.

Lemma drop_nil_take {A} n (l : list A) : drop n l = [] -> take n l = l.
Proof. intros H. rewrite <- (take_drop n l) at 2. by rewrite H, app_nil_r. Qed.

Lemma stops_nil f l : stops f l -> stops (fun c => negb (f c)) l -> l = [].
Proof.
  intros H1 H2. destruct l as [|c l]; [done|]. specialize (H1 c eq_refl). specialize (H2 c eq_refl). cbn in H2. by rewrite H1 in H2.
Qed.

Lemma namespace_prefix_bad path : namespace_prefix path = true -> windows_bad path.
Proof.
  destruct path as [|c0 [|c1 [|c2 [|c3 path]]]]; try done. cbn [namespace_prefix]. rewrite !andb_true_iff. intros [[H0 H3] H].
  destruct (Z.eqb_spec c1 #"?") as [->|_].
  - rewrite !andb_true_iff, !Z.eqb_eq in H. destruct H as [[-> ->] ->]. apply bad_nt.
  - rewrite andb_true_iff, orb_true_iff, !Z.eqb_eq in H. destruct H as [H1 H2]. by apply bad_device.
Qed.

(** What the scans of [\\server\share] find. *)
Lemma unc_root a b path :
  is_sep_any a = true -> is_sep_any b = true -> stops is_sep_any path ->
  let p := a :: b :: path in
  let n := skip_while is_sep_any p (skip_while (fun c => negb (is_sep_any c)) p (skip_while is_sep_any p (skip_while (fun c => negb (is_sep_any c)) p 2))) in
  windows_root (take n p) (drop n p).
Proof.
  intros Ha Hb Hstop p. set (i1 := skip_while _ p 2). set (i2 := skip_while _ p i1). set (i3 := skip_while _ p i2). cbn zeta. set (i4 := skip_while _ p i3).
  assert (Hnot : forall w, Forall (fun c => negb (is_sep_any c) = true) w -> Forall (fun c => is_sep_any c = false) w).
  { intros w Hw. eapply Forall_impl; [exact Hw|]. cbn. intros x. by destruct (is_sep_any x). }
  destruct (skip_while_split (fun c => negb (is_sep_any c)) p 2) as (server & E1 & F1 & S1 & N1); [cbn; lia|]. fold i1 in E1, S1, N1.
  pose proof (skip_while_bounds (fun c => negb (is_sep_any c)) p 2 ltac:(cbn; lia)) as B1. fold i1 in B1.
  destruct (skip_while_split is_sep_any p i1) as (s1 & E2 & F2 & S2 & N2); [lia|]. fold i2 in E2, S2, N2.
  pose proof (skip_while_bounds is_sep_any p i1 ltac:(lia)) as B2. fold i2 in B2.
  destruct (skip_while_split (fun c => negb (is_sep_any c)) p i2) as (share & E3 & F3 & S3 & N3); [lia|]. fold i3 in E3, S3, N3.
  pose proof (skip_while_bounds (fun c => negb (is_sep_any c)) p i2 ltac:(lia)) as B3. fold i3 in B3.
  destruct (skip_while_split is_sep_any p i3) as (s2 & E4 & F4 & S4 & N4); [lia|]. fold i4 in E4, S4, N4.
  change (drop 2 p) with path in E1.
  assert (take i4 p = a :: b :: server ++ s1 ++ share ++ s2) as ->.
  { unfold p. rewrite N4, N3, N2, N1. cbn [take Nat.add]. do 2 f_equal. rewrite E1, E2, E3, E4, !app_assoc.
    apply take_app_length'. rewrite !length_app. lia. }
  assert (drop i1 p = [] -> drop i2 p = [] /\ s1 = []) as D2.
  { intros D. rewrite D in E2. symmetry in E2. apply app_eq_nil in E2 as [? ?]. done. }
  assert (drop i2 p = [] -> drop i3 p = [] /\ share = []) as D3.
  { intros D. rewrite D in E3. symmetry in E3. apply app_eq_nil in E3 as [? ?]. done. }
  assert (drop i3 p = [] -> drop i4 p = [] /\ s2 = []) as D4.
  { intros D. rewrite D in E4. symmetry in E4. apply app_eq_nil in E4 as [? ?]. done. }
  apply root_unc; try done; [by apply Hnot | by apply Hnot | | | | ].
  - intros ->. apply D2, (stops_nil is_sep_any); [|done]. rewrite app_nil_l in E1. by rewrite <- E1.
  - intros ->. apply D3, D2, (stops_nil is_sep_any); [|done]. rewrite app_nil_l in E2. by rewrite E2.
  - intros ->. apply D4, D3, (stops_nil is_sep_any); [done|]. rewrite app_nil_l in E3. by rewrite E3.
  - intros ->. apply D4, (stops_nil is_sep_any); [|done]. rewrite app_nil_l in E4. by rewrite E4.
Qed.

Lemma windows_root_end_ok path :
  match windows_root_end path with
  | Ok n => ~ windows_bad path /\ windows_root (take n path) (drop n path)
  | Err _ => windows_bad path
  end.
Proof.
  unfold windows_root_end. destruct (namespace_prefix path) eqn:En; [by apply namespace_prefix_bad|].
  assert (Hbad : windows_bad path -> exists a b c r, path = a :: b :: c :: r /\ is_sep_any a = true /\ is_sep_any b = true /\ is_sep_any c = true).
  { intros B. destruct B as [a b c d r Ha Hb Hc Hd| r |a b c r Ha Hb Hc]; [| done | by exists a, b, c, r]. exfalso. revert En. cbn. rewrite Ha, Hb, Hd.
    assert (b =? #"?" = false) as -> by (apply Z.eqb_neq; by intros ->). by destruct Hc as [-> | ->]. }
  destruct path as [|c0 [|c1 path]].
  - split; [intros (a & b & c & r & [=] & _)%Hbad|]. by constructor.
  - destruct (is_sep_any c0) eqn:E0; (split; [by intros (a & b & c & r & [=] & _)%Hbad|]); cbn; constructor; try done; by intros c [= <-].
  - destruct (is_sep_any c0) eqn:E0; [destruct (is_sep_any c1) eqn:E1|].
    + destruct path as [|c2 path].
      { cbn -[skip_while]. split; [by intros (a & b & c & r & [=] & _)%Hbad|]. by apply unc_root. }
      cbn [at_ nth]. rewrite (bool_decide_eq_true_2 (2 < _)%nat) by (cbn; lia). rewrite andb_true_l.
      destruct (is_sep_any c2) eqn:E2.
      { replace (_ || _) with false by (symmetry; apply orb_false_iff; split; apply Z.eqb_neq; by intros ->). rewrite andb_false_r. by constructor. }
      assert (Hok : ~ windows_bad (c0 :: c1 :: c2 :: path)) by (intros (a & b & c & r & [= <- <- <- <-] & _ & _ & H)%Hbad; congruence).
      destruct (_ && _) eqn:E3.
      * split; [done|]. apply andb_true_iff in E3 as [E3 _]. apply bool_decide_eq_true in E3. destruct path; [|done]. cbn.
        apply (root_unc c0 c1 [c2] [] [] [] []); try done. by constructor.
      * split; [done|]. apply unc_root; [done | done|]. by intros c [= <-].
    + split; [by intros (a & b & c & r & [= <- <- _] & _ & H & _)%Hbad; congruence|]. cbn. constructor; [done|]. by intros c [= <-].
    + assert (Hok : ~ windows_bad (c0 :: c1 :: path)) by (intros (a & b & c & r & [= <- <- _] & H & _)%Hbad; congruence).
      destruct (Z.eqb_spec c1 #":") as [->|Hc1]; cbn [negb].
      * destruct (bool_decide (2 < _)%nat && _) eqn:E2; (split; [done|]).
        -- apply andb_true_iff in E2 as [_ E2]. destruct path as [|c2 path]; [done|]. cbn [at_ nth] in E2. set (p := c0 :: #":" :: c2 :: path).
           destruct (skip_while_split is_sep_any p 3) as (w & E & F & Hs & N); [cbn; lia|]. set (n := skip_while is_sep_any p 3) in *. clearbody n.
           assert (take n p = c0 :: #":" :: c2 :: w) as ->.
           { rewrite N. change (drop 3 p) with path in E. change (3 + length w)%nat with (S (S (S (length w)))). unfold p. rewrite !firstn_cons. do 3 f_equal.
             transitivity (take (length w) (w ++ drop n p)); [by rewrite <- E | apply take_app_length]. }
           by apply root_drive_absolute; [| |constructor|].
        -- cbn. apply root_drive_relative; [done|]. destruct path as [|c2 path]; [done|]. intros c [= <-]. cbn [at_ nth] in E2.
           by rewrite (bool_decide_eq_true_2 _) in E2 by (cbn; lia).
      * split; [done|]. cbn. constructor; [by intros c [= <-] | by intros [= ->]].
Qed.

(** * The iterator starts after the root *)

Lemma init_refuses path fmt e : init path fmt = Err e -> fmt = FmtWindows /\ windows_bad path.
Proof.
  unfold init. destruct fmt; [done|]. pose proof (windows_root_end_ok path) as H. by destruct (windows_root_end path).
Qed.

Lemma init_root path fmt it :
  init path fmt = Ok it -> (fmt = FmtWindows -> ~ windows_bad path) /\ path_root fmt (take (root_end it) path) (drop (root_end it) path).
Proof.
  unfold init. destruct fmt.
  - intros [= <-]. cbn [root_end]. split; [done|].
    destruct (skip_while_split (fmt_is_sep FmtPosix) path 0) as (w & E & F & Hs & N); [lia|]. split; [|done].
    set (n := skip_while (fmt_is_sep FmtPosix) path 0) in *. clearbody n. change (drop 0 path) with path in E. rewrite N.
    assert (take (0 + length w) path = w) as ->.
    { transitivity (take (length w) (w ++ drop n path)); [by rewrite <- E | apply take_app_length]. }
    eapply Forall_impl; [exact F|]. intros c. apply Z.eqb_eq.
  - pose proof (windows_root_end_ok path) as H. destruct (windows_root_end path) as [n|]; cbn; [|done]. intros [= <-]. by destruct H.
Qed.

Lemma root_taken path fmt it : init path fmt = Ok it ->
  root it = (if decide (take (root_end it) path = []) then None else Some (take (root_end it) path)).
Proof.
  intros Hi. destruct (init_inv _ _ _ Hi) as (Hp & _ & _ & Hr). unfold root. rewrite Hp. destruct (root_end it) as [|n]; [done|].
  rewrite !decide_False; [done | | done]. intros H. apply (f_equal length) in H. rewrite length_take in H. change (length []) with 0%nat in H. lia.
Qed.

Module PathIterProps.

(** C32: iterating the components of a path: [init] refuses only the Windows
    paths that start with a device or NT prefix or with three separators, and
    takes the longest root, as many separators as there are on POSIX and the
    drive, the share or the separator of a Windows path; forward the components
    are the segments after the root, in order, each with the prefix of the path
    that ends with it; backward from [last] they are the same, reversed. *)
Theorem component_iteration (path : bytes) (fmt : PathFormat) :
  match init path fmt with
  | Err _ => fmt = FmtWindows /\ windows_bad path
  | Ok it =>
    (fmt = FmtWindows -> ~ windows_bad path) /\
    exists root rest cs, path = root ++ rest /\ path_root fmt root rest /\ PathIter.root it = (if decide (root = []) then None else Some root) /\
      collect_next (S (length path)) it = Some cs /\ collect_back (S (length cs)) it = Some (rev cs) /\
      c_name <$> cs = segments (fmt_is_sep fmt) rest /\
      Forall (fun c => exists a b, path = a ++ c_name c ++ b /\ c_path c = a ++ c_name c) cs
  end.
Proof.
  destruct (init path fmt) as [it|e] eqn:Hi; [|by apply init_refuses in Hi].
  destruct (init_root _ _ _ Hi) as [Hok Hroot]. split; [done|].
  destruct (init_inv _ _ _ Hi) as (Hp & Hf & Hs & Hr). rewrite <- Hp in Hr.
  destruct (spans_exist (is_sep it) (it_path it) (length (it_path it) - root_end it) (root_end it)) as [l Hsp]; [lia|done|].
  exists (take (root_end it) path), (drop (root_end it) path), ((fun '(s, e) => component (it_path it) s e) <$> l).
  split; [by rewrite take_drop|]. split; [done|]. split; [by apply (root_taken path fmt)|]. split; [|split; [|split]].
  - rewrite Hs. apply (collect_next_spans it Hr l); [done|]. pose proof (spans_length _ _ _ _ Hsp). rewrite <- Hp. lia.
  - rewrite length_fmap. by apply (collect_spans it Hr).
  - rewrite <- list_fmap_compose. rewrite <- Hf, <- Hp. erewrite <- (spans_segments (is_sep it)) by exact Hsp.
    apply list_fmap_ext. by intros _ [s e] _.
  - apply Forall_fmap, Forall_forall. intros [s e] Hin. apply list_elem_of_split in Hin as (l1 & l2 & ->).
    apply (spans_at it Hr) in Hsp as (Hse & Hle & _). exists (take s path), (drop e path). cbn. rewrite Hp. split.
    + rewrite <- (take_drop s path) at 1. f_equal. rewrite <- (take_drop (e - s) (drop s path)) at 1. rewrite drop_drop. f_equal. f_equal. lia.
    + rewrite <- (take_drop s (take e path)) at 1. rewrite take_take, Nat.min_l, skipn_firstn_comm by lia. done.
Qed.

(** A drive-relative path: the drive is the root. *)
Lemma component_iteration_witness :
  exists root rest cs, b!"C:a\b" = root ++ rest /\ windows_root root rest /\
    (if decide (root = []) then None else Some root) = Some b!"C:" /\ c_name <$> cs = segments is_sep_any rest.
Proof.
  destruct (component_iteration b!"C:a\b" FmtWindows) as [_ (root & rest & cs & E & Hr & Hroot & _ & _ & Hn & _)].
  exists root, rest, cs. split; [exact E|]. split; [exact Hr|]. split; [rewrite <- Hroot; reflexivity | exact Hn].
Defined.

End PathIterProps.
