(* ===== verification/PathMake.v ===== *)
(** The walk that makes a directory with its missing parents
    (src/src/paths/component_iterator.rs), and its use with mkdirat
    (src/src/sys/lib.rs). *)
From S2P Require Import Prelude BunCore Paths PathNorm PathIter.

Inductive Errno := EEXIST | ENOENT | ENAMETOOLONG | OtherErrno (n : Z).

Section MkdirAt.
(** The file system, the limit on the length of a path and mkdirat. *)
Context {S : Type} (max_path_bytes : nat) (mkdirat : S -> bytes -> S * Result unit Errno).

(** The closure of [mkdir_recursive_at_mode]. *)
Definition mkdir_step (st : S) (p : bytes) : S * Result (MakePathStep Errno) Errno :=
  if decide (max_path_bytes <= length p)%nat then (st, Err ENAMETOOLONG)
  else
    match mkdirat st p with
    | (st, Ok _) => (st, Ok Created)
    | (st, Err EEXIST) => (st, Ok Exists)
    | (st, Err ENOENT) => (st, Ok (NotFound ENOENT))
    | (st, Err e) => (st, Err e)
    end.

(** [None]: no fuel left, or [init] refused the path. *)
Definition mkdir_recursive_at_mode (fuel : nat) (st : S) (sub_path : bytes) : option (S * Result unit Errno) :=
  match init sub_path FmtPosix with
  | Ok it => make_path_with mkdir_step fuel st it
  | Err _ => None
  end.

(** * What mkdirat does

    [there st p]: the path [p] resolves to something in [st].  On the prefixes
    [dirs] of a path, nothing is removed; what was made, or existed already, is
    there; and where a directory is said to miss, its parent is not there. *)
Record mkdirat_spec (there : S -> bytes -> Prop) (dirs : list bytes) : Prop := {
  at_stays st p q : there st q -> there (mkdirat st p).1 q;
  at_made st p : p ∈ dirs -> (mkdirat st p).2 = Ok tt -> there (mkdirat st p).1 p;
  at_exists st p : p ∈ dirs -> (mkdirat st p).2 = Err EEXIST -> there (mkdirat st p).1 p;
  at_missing st i q p : dirs !! i = Some q -> dirs !! Datatypes.S i = Some p -> (mkdirat st p).2 = Err ENOENT -> ~ there (mkdirat st p).1 q }.

(** The error of a call: one that the walk does not handle, or a missing parent of the first directory. *)
Definition call_failed (dirs : list bytes) (e : Errno) : Prop :=
  exists st i p, dirs !! i = Some p /\
    ((max_path_bytes <= length p)%nat /\ e = ENAMETOOLONG \/
     (mkdirat st p).2 = Err e /\ e <> EEXIST /\ (e = ENOENT -> i = 0%nat)).

End MkdirAt.

(** * The walk *)

Section Walk.
Context {S : Type} (max_path_bytes : nat) (mkdirat : S -> bytes -> S * Result unit Errno) (it : ComponentIterator).
Context (Hr : (root_end it <= length (it_path it))%nat) (l : list (nat * nat)) (Hsp : spans (is_sep it) (it_path it) (root_end it) l).
Context (there : S -> bytes -> Prop).
Notation dirs := ((fun '(s, e) => take e (it_path it)) <$> l).
Notation step := (mkdir_step max_path_bytes mkdirat).
Context (Hmk : mkdirat_spec mkdirat there dirs).

Lemma dirs_lookup i s e : l !! i = Some (s, e) -> dirs !! i = Some (take e (it_path it)).
Proof. intros Hl. by rewrite list_lookup_fmap, Hl. Qed.

(** One call, on the [i]-th directory. *)
Lemma step_spec st i s e st' r :
  l !! i = Some (s, e) -> step st (take e (it_path it)) = (st', r) ->
  (forall q, there st q -> there st' q) /\
  match r with
  | Ok Created | Ok Exists => there st' (take e (it_path it))
  | Ok (NotFound err) => match i with O => call_failed max_path_bytes mkdirat dirs err | Datatypes.S j => forall q, dirs !! j = Some q -> ~ there st' q end
  | Err err => call_failed max_path_bytes mkdirat dirs err
  end.
Proof.
  intros Hl. pose proof (dirs_lookup _ _ _ Hl) as Hd. set (p := take e (it_path it)) in *. unfold mkdir_step.
  destruct (decide _) as [Hlong|_]; [intros [= <- <-]; split; [done|]; exists st, i, p; auto|].
  pose proof (at_stays _ _ _ Hmk st p) as Hstays. pose proof (at_made _ _ _ Hmk st p) as Hmade.
  pose proof (at_exists _ _ _ Hmk st p) as Hexists. pose proof (fun j q => at_missing _ _ _ Hmk st j q p) as Hmissing.
  assert (p ∈ dirs) as Hin by (eapply list_elem_of_lookup_2; exact Hd).
  assert (forall err, err <> EEXIST -> (err = ENOENT -> i = 0%nat) -> (mkdirat st p).2 = Err err -> call_failed max_path_bytes mkdirat dirs err) as Hfail
    by (intros err H1 H2 H3; exists st, i, p; auto).
  destruct (mkdirat st p) as [st1 [[]|err]]; cbn [fst snd] in *.
  - intros [= <- <-]. split; [exact Hstays | by apply Hmade].
  - destruct err; intros [= <- <-]; (split; [exact Hstays|]); [by apply Hexists | | by apply Hfail | by apply Hfail].
    destruct i as [|j]; [by apply Hfail|]. intros q Hq. by apply (Hmissing j q).
Qed.

(** The walk is over: the last directory is there, or a call failed. *)
Definition ended (x : option (S * Result unit Errno)) : Prop :=
  exists st r, x = Some (st, r) /\
    match r with Ok _ => forall p, last dirs = Some p -> there st p | Err err => call_failed max_path_bytes mkdirat dirs err end.

Notation loop := (make_path_loop step).
Notation at_dir s e := (seek it s e).

(** Forward from the [i]-th directory, whose parent is there. *)
Definition goes_up (n : nat) : Prop := forall fuel st i s e,
  (length l - Datatypes.S i <= n)%nat -> (n < fuel)%nat -> l !! Datatypes.S i = Some (s, e) ->
  (forall q, dirs !! i = Some q -> there st q) -> ended (loop fuel st (at_dir s e) (component (it_path it) s e)).

Lemma goes_next n fuel st i s e :
  goes_up n -> l !! i = Some (s, e) -> there st (take e (it_path it)) -> (length l - Datatypes.S i <= n)%nat -> (n < fuel)%nat ->
  ended (match next (at_dir s e) with (it1, Some comp) => loop fuel st it1 comp | (_, None) => Some (st, Ok tt) end).
Proof.
  intros Hup Hl Hth Hn Hf. pose proof (lookup_lt_Some _ _ _ Hl). pose proof (take_drop_middle _ _ _ Hl) as Hsplit.
  pose proof Hsp as Hs. rewrite <- Hsplit in Hs. apply (spans_at it Hr) in Hs as (_ & _ & _ & _ & _ & Hs). rewrite (next_spans it Hr s e _ Hs).
  destruct (drop (Datatypes.S i) l) as [|[s' e'] rest] eqn:Ed.
  - exists st, (Ok tt). split; [done|]. intros p Hp. apply (f_equal length) in Ed. rewrite length_drop in Ed. cbn [length] in Ed.
    rewrite last_lookup, length_fmap in Hp. replace (pred (length l)) with i in Hp by lia. rewrite (dirs_lookup _ _ _ Hl) in Hp. by injection Hp as <-.
  - assert (l !! Datatypes.S i = Some (s', e')) as Hl'.
    { rewrite <- (Nat.add_0_r (Datatypes.S i)), <- lookup_drop. by rewrite Ed. }
    apply (Hup fuel st i); [done | done | done|]. intros q Hq. rewrite (dirs_lookup _ _ _ Hl) in Hq. by injection Hq as <-.
Qed.

Lemma walk_up n : goes_up n.
Proof.
  induction n as [|n IH]; intros fuel st i s e Hn Hf Hl Hpar; pose proof (lookup_lt_Some _ _ _ Hl); [lia|].
  destruct fuel as [|fuel]; [lia|]. cbn [make_path_loop component c_path].
  destruct (step st (take e (it_path it))) as [st1 r] eqn:Es. destruct (step_spec _ _ _ _ _ _ Hl Es) as [Hstays Hres].
  destruct r as [[| |err]|err];
    [apply (goes_next n _ _ _ _ _ IH Hl Hres); lia | apply (goes_next n _ _ _ _ _ IH Hl Hres); lia | | by eexists _, _].
  exfalso. destruct (lookup_lt_is_Some_2 dirs i) as [q Hq]; [rewrite length_fmap; lia|]. by apply (Hres q Hq), Hstays, Hpar.
Qed.

(** Backward from the [i]-th directory until one is there or can be made. *)
Lemma walk_down i : forall fuel st s e,
  (i + length l < fuel)%nat -> l !! i = Some (s, e) -> ended (loop fuel st (at_dir s e) (component (it_path it) s e)).
Proof.
  induction i as [|i IH]; intros fuel st s e Hf Hl; pose proof (lookup_lt_Some _ _ _ Hl); (destruct fuel as [|fuel]; [lia|]);
    cbn [make_path_loop component c_path]; destruct (step st (take e (it_path it))) as [st1 r] eqn:Es;
    destruct (step_spec _ _ _ _ _ _ Hl Es) as [Hstays Hres]; pose proof (take_drop_middle _ _ _ Hl) as Hsplit; pose proof Hsp as Hs; rewrite <- Hsplit in Hs;
    (destruct r as [[| |err]|err];
      [apply (goes_next (length l - 1) _ _ _ _ _ (walk_up _) Hl Hres); lia | apply (goes_next (length l - 1) _ _ _ _ _ (walk_up _) Hl Hres); lia | | by eexists _, _]);
    rewrite (previous_spans it Hr _ s e _ Hs).
  - by eexists _, _.
  - destruct (lookup_lt_is_Some_2 l i) as [[s' e'] Hl']; [lia|]. rewrite (take_S_r _ _ _ Hl'), last_snoc. apply IH; [lia | done].
Qed.

Lemma make_path_ended st : ended (make_path_with step (2 * length l + 1) st it).
Proof.
  unfold make_path_with. rewrite (last_spans it Hr l Hsp). destruct (last l) as [[s e]|] eqn:El.
  - rewrite last_lookup in El. pose proof (lookup_lt_Some _ _ _ El). apply (walk_down (pred (length l))); [lia | done].
  - apply last_None in El. exists st, (Ok tt). split; [done|]. rewrite El. done.
Qed.

End Walk.

(** * A dangling link *)

Section Dangling.
Context {S : Type} (max_path_bytes : nat) (mkdirat : S -> bytes -> S * Result unit Errno) (it : ComponentIterator).
Context (Hr : (root_end it <= length (it_path it))%nat) (pre : list (nat * nat)) (s1 e1 s2 e2 : nat).
Context (Hsp : spans (is_sep it) (it_path it) (root_end it) (pre ++ [(s1, e1); (s2, e2)])) (st : S).
Notation path := (it_path it).
Context (Hlen : (length path < max_path_bytes)%nat)
  (H1 : mkdirat st (take e1 path) = (st, Err EEXIST)) (H2 : mkdirat st (take e2 path) = (st, Err ENOENT)).
Notation loop := (make_path_loop (mkdir_step max_path_bytes mkdirat)).

Lemma step_short e : mkdir_step max_path_bytes mkdirat st (take e path) =
  match mkdirat st (take e path) with
  | (st, Ok _) => (st, Ok Created) | (st, Err EEXIST) => (st, Ok Exists)
  | (st, Err ENOENT) => (st, Ok (NotFound ENOENT)) | (st, Err e) => (st, Err e) end.
Proof. unfold mkdir_step. rewrite decide_False; [done|]. rewrite length_take. lia. Qed.

Lemma link_loops fuel :
  loop fuel st (seek it s1 e1) (component path s1 e1) = None /\ loop fuel st (seek it s2 e2) (component path s2 e2) = None.
Proof.
  induction fuel as [|fuel [IH1 IH2]]; [done|]. split; cbn [make_path_loop component c_path]; rewrite step_short.
  - rewrite H1. pose proof (spans_at it Hr _ _ _ _ _ Hsp) as (_ & _ & _ & _ & _ & Hnext). by rewrite (next_spans it Hr s1 e1 _ Hnext).
  - rewrite H2. assert (Hs' : spans (is_sep it) path (root_end it) ((pre ++ [(s1, e1)]) ++ [(s2, e2)])) by (by rewrite <- app_assoc).
    by rewrite (previous_spans it Hr _ s2 e2 _ Hs'), last_snoc.
Qed.

Lemma make_path_loops fuel : make_path_with (mkdir_step max_path_bytes mkdirat) fuel st it = None.
Proof.
  unfold make_path_with. rewrite (last_spans it Hr _ Hsp), last_app. cbn [last]. apply link_loops.
Qed.

End Dangling.

(** The names of a path are those after its leading separators. *)
Lemma spans_skip f path l : spans f path 0 l -> spans f path (skip_while f path 0) l.
Proof.
  intros Hsp. inversion Hsp as [a Ha Hall|a s e l' Hse Hle Hsep Hn Hb Hsp' E]; subst.
  - replace (skip_while f path 0) with (length path); [constructor; [done|]; by rewrite drop_all|].
    symmetry. apply skip_while_to; [lia | by rewrite take_ge by (rewrite length_drop; lia) |]. intros c Hc. apply lookup_lt_Some in Hc. lia.
  - replace (skip_while f path 0) with s; [constructor; [lia | done | by rewrite Nat.sub_diag | done | done | done]|].
    symmetry. apply skip_while_to; [lia | done|]. intros c Hc. by apply (Forall_range (fun c => f c = false) path s e s c); [| lia |].
Qed.

Lemma posix_init path l :
  spans (fun c => c =? #"/") path 0 l ->
  exists it, init path FmtPosix = Ok it /\ it_path it = path /\ (root_end it <= length (it_path it))%nat /\ spans (is_sep it) (it_path it) (root_end it) l.
Proof.
  intros Hsp%spans_skip. destruct (init path FmtPosix) as [it|] eqn:Hi; [|done].
  destruct (init_inv _ _ _ Hi) as (Hp & _ & _ & Hr). injection Hi as Hi. exists it. split; [done|]. split; [done|]. rewrite Hp. split; [done|].
  by rewrite <- Hi.
Qed.

Module PathMakeProps.

(** C28: making a directory with all its missing parents: where nothing is
    removed meanwhile, every directory that is said to exist already resolves to
    something (no dangling link), and a missing one is reported where its parent
    is not there, the walk ends after at most twice as many calls as the path has
    components, plus one.  It succeeds with the whole path there, or fails with
    the error of a call: any that mkdirat gave but EEXIST, a missing parent only
    at the first component. *)
Theorem mkdir_recursive_terminates {S : Type} (max_path_bytes : nat) (mkdirat : S -> bytes -> S * Result unit Errno)
    (there : S -> bytes -> Prop) (path : bytes) (l : list (nat * nat)) (st : S) :
  spans (fun c => c =? #"/") path 0 l -> mkdirat_spec mkdirat there ((fun '(s, e) => take e path) <$> l) ->
  exists st' r, mkdir_recursive_at_mode max_path_bytes mkdirat (2 * length l + 1) st path = Some (st', r) /\
    match r with
    | Ok _ => forall p, last ((fun '(s, e) => take e path) <$> l) = Some p -> there st' p
    | Err e => call_failed max_path_bytes mkdirat ((fun '(s, e) => take e path) <$> l) e
    end.
Proof.
  intros Hsp Hmk. destruct (posix_init path l Hsp) as (it & Hi & <- & Hr & Hs). unfold mkdir_recursive_at_mode. rewrite Hi.
  by apply (make_path_ended max_path_bytes mkdirat it Hr l Hs there Hmk).
Qed.

(** Where the parent of the last directory is a dangling link, so that
    mkdirat says that it exists and that a directory below it has no parent, the
    walk goes from one to the other and back for ever. *)
Theorem dangling_link_never_returns {S : Type} (max_path_bytes : nat) (mkdirat : S -> bytes -> S * Result unit Errno)
    (path : bytes) (pre : list (nat * nat)) (s1 e1 s2 e2 : nat) (st : S) (fuel : nat) :
  spans (fun c => c =? #"/") path 0 (pre ++ [(s1, e1); (s2, e2)]) -> (length path < max_path_bytes)%nat ->
  mkdirat st (take e1 path) = (st, Err EEXIST) -> mkdirat st (take e2 path) = (st, Err ENOENT) ->
  mkdir_recursive_at_mode max_path_bytes mkdirat fuel st path = None.
Proof.
  intros Hsp Hl H1 H2. destruct (posix_init path _ Hsp) as (it & Hi & <- & Hr & Hs). unfold mkdir_recursive_at_mode. rewrite Hi.
  by apply (make_path_loops max_path_bytes mkdirat it Hr pre s1 e1 s2 e2 Hs st Hl).
Qed.

(** A file system: the names that are there, with their parents' names, and whether each is a directory. *)
Definition FsTree : Type := list (list bytes * bool).

Definition kind_of (fs : FsTree) (name : list bytes) : option bool :=
  match name with [] => Some true | _ => snd <$> List.find (fun x => bool_decide (x.1 = name)) fs end.

Definition tree_mkdirat (fs : FsTree) (p : bytes) : FsTree * Result unit Errno :=
  let name := segments is_sep_posix p in
  match kind_of fs name, kind_of fs (removelast name) with
  | Some _, _ => (fs, Err EEXIST)
  | None, Some true => ((name, true) :: fs, Ok tt)
  | None, Some false => (fs, Err (OtherErrno 20))
  | None, None => (fs, Err ENOENT)
  end.

Definition tree_there (fs : FsTree) (p : bytes) : Prop := is_Some (kind_of fs (segments is_sep_posix p)).

Lemma tree_stays fs p q : tree_there fs q -> tree_there (tree_mkdirat fs p).1 q.
Proof.
  unfold tree_there, tree_mkdirat. intros H. destruct (kind_of fs (segments _ p)) eqn:Ep; [done|].
  destruct (kind_of fs (removelast _)) as [[]|]; [|done|done]. cbn [fst].
  destruct (segments is_sep_posix q) as [|x n]; [done|]. cbn. by case_bool_decide.
Qed.

Lemma tree_spec dirs :
  (forall i q p, dirs !! i = Some q -> dirs !! S i = Some p -> removelast (segments is_sep_posix p) = segments is_sep_posix q) ->
  mkdirat_spec tree_mkdirat tree_there dirs.
Proof.
  intros Hdirs. split.
  - apply tree_stays.
  - intros fs p _. unfold tree_there, tree_mkdirat. destruct (kind_of fs (segments _ p)) eqn:Ep; [done|].
    destruct (kind_of fs (removelast _)) as [[]|]; [|done|done]. intros _. cbn [fst]. destruct (segments is_sep_posix p) as [|x n]; [done|].
    cbn. by rewrite bool_decide_eq_true_2.
  - intros fs p _. unfold tree_there, tree_mkdirat. destruct (kind_of fs (segments _ p)) eqn:Ep; [by intros _; eexists|].
    by destruct (kind_of fs (removelast _)) as [[]|].
  - intros fs i q p Hq Hp. unfold tree_there, tree_mkdirat. rewrite (Hdirs i q p Hq Hp).
    destruct (kind_of fs (segments _ p)) eqn:Ep; [done|]. destruct (kind_of fs (segments _ q)) as [[]|] eqn:Eq; [done | done|].
    intros _. cbn [fst]. rewrite ?Eq. by intros [? [=]].
Qed.

Lemma mkdir_recursive_terminates_witness :
  exists st' r, mkdir_recursive_at_mode 4096 tree_mkdirat 7 [([b!"a"], true)] b!"/a/bb//c" = Some (st', r) /\
    match r with
    | Ok _ => forall p, Some b!"/a/bb//c" = Some p -> tree_there st' p
    | Err e => call_failed 4096 tree_mkdirat [b!"/a"; b!"/a/bb"; b!"/a/bb//c"] e
    end.
Proof.
  apply (mkdir_recursive_terminates 4096 tree_mkdirat tree_there b!"/a/bb//c" [(1, 2); (3, 5); (7, 8)]%nat [([b!"a"], true)]).
  - repeat constructor; cbn; try lia; try done; by intros c [= <-].
  - apply tree_spec. intros i q p. destruct i as [|[|[|i]]]; intros [= <-] [= <-]; vm_compute; reflexivity.
Defined.

Lemma dangling_link_never_returns_witness :
  let mkdirat (_ : unit) (p : bytes) : unit * Result unit Errno := (tt, if decide (p = b!"/a/b") then Err ENOENT else Err EEXIST) in
  mkdir_recursive_at_mode 4096 mkdirat 1000 tt b!"/a/b" = None.
Proof.
  intros mkdirat. apply (dangling_link_never_returns 4096 mkdirat b!"/a/b" [] 1 2 3 4 tt 1000).
  - repeat constructor; cbn; try lia; try done; by intros c [= <-].
  - cbn. lia.
  - reflexivity.
  - reflexivity.
Defined.

End PathMakeProps.
