(* ===== verification/Valkey.v ===== *)
(** src/src/valkey/valkey_protocol.rs: the reader of RESP replies and the
    incremental scanner that finds where a reply ends.

    Lengths and positions in a buffer are nat; an [i64] is a Z.  A computation
    of the reader returns [None] when the code would panic or no fuel is left. *)
From S2P Require Import Prelude BunCore Paths.

Inductive RedisError :=
| AuthenticationFailed | ConnectionClosed | InvalidArgument | InvalidArray | InvalidAttribute | InvalidBigNumber
| InvalidBlobError | InvalidBoolean | InvalidBulkString | InvalidCommand | InvalidDouble | InvalidErrorString
| InvalidInteger | InvalidMap | InvalidNull | InvalidPush | InvalidResponse | InvalidResponseType | InvalidSet
| InvalidSimpleString | InvalidVerbatimString | JSError | OutOfMemory | JSTerminated | UnsupportedProtocol
| ConnectionTimeout | IdleTimeout | NestingDepthExceeded | LineTooLong.

#[global] Instance RedisError_eq_dec : EqDecision RedisError.
Proof. solve_decision. Defined.

Inductive RESPType :=
| TSimpleString | TError | TInteger | TBulkString | TArray
| TNull | TDouble | TBoolean | TBlobError | TVerbatimString | TMap | TSet | TAttribute | TPush | TBigNumber.

Definition type_byte (t : RESPType) : Z :=
  match t with
  | TSimpleString => #"+" | TError => #"-" | TInteger => #":" | TBulkString => #"$" | TArray => #"*"
  | TNull => #"_" | TDouble => #"," | TBoolean => #"#" | TBlobError => #"!" | TVerbatimString => #"="
  | TMap => #"%" | TSet => #"~" | TAttribute => #"|" | TPush => #">" | TBigNumber => #"("
  end.

Definition resp_types : list RESPType :=
  [TSimpleString; TError; TInteger; TBulkString; TArray; TNull; TDouble; TBoolean; TBlobError; TVerbatimString; TMap; TSet;
   TAttribute; TPush; TBigNumber].

(** The arms, in order. *)
Definition from_byte (byte : Z) : option RESPType := find (fun t => byte =? type_byte t) resp_types.

Definition MAX_NESTING_DEPTH : nat := 128.
Definition MAX_BULK_LEN : Z := 512 * 1024 * 1024.
Definition MAX_LINE_LEN : Z := 512 * 1024.

Definition I64_MIN : Z := - 2 ^ 63.
Definition I64_MAX : Z := 2 ^ 63 - 1.

Record ValkeyReader := { buffer : bytes; pos : nat; prealloc_budget : nat; crlf_skip : nat }.

(** * The state-and-error monad of the reader *)

Definition M (A : Type) : Type := ValkeyReader -> option (ValkeyReader * Result A RedisError).

Definition ret {A} (a : A) : M A := fun r => Some (r, Ok a).
Definition throw {A} (e : RedisError) : M A := fun r => Some (r, Err e).
Definition bind {A B} (m : M A) (k : A -> M B) : M B := fun r =>
  match m r with
  | Some (r, Ok a) => k a r
  | Some (r, Err e) => Some (r, Err e)
  | None => None
  end.
Definition get : M ValkeyReader := fun r => Some (r, Ok r).
Definition panic {A} : M A := fun _ => None.

Declare Scope resp_scope.
Delimit Scope resp_scope with resp.
Notation "x <~ m ; k" := (bind m (fun x => k)) (at level 20, m at level 100, k at level 200, right associativity) : resp_scope.
Notation "m ;~ k" := (bind m (fun _ => k)) (at level 100, k at level 200, right associativity) : resp_scope.
Open Scope resp_scope.

Definition lift {A} (o : option A) : M A := match o with Some a => ret a | None => panic end.

Definition set_pos (p : nat) : M unit := fun r =>
  Some ({| buffer := buffer r; pos := p; prealloc_budget := prealloc_budget r; crlf_skip := crlf_skip r |}, Ok tt).
Definition set_crlf_skip (n : nat) : M unit := fun r =>
  Some ({| buffer := buffer r; pos := pos r; prealloc_budget := prealloc_budget r; crlf_skip := n |}, Ok tt).
Definition set_budget (n : nat) : M unit := fun r =>
  Some ({| buffer := buffer r; pos := pos r; prealloc_budget := n; crlf_skip := crlf_skip r |}, Ok tt).

(** * The reader *)

Definition reader_init (b : bytes) : ValkeyReader := {| buffer := b; pos := 0; prealloc_budget := length b; crlf_skip := 0 |}.

Definition read_byte : M Z :=
  r <~ get;
  match buffer r !! pos r with
  | None => throw InvalidResponse
  | Some byte => set_pos (pos r + 1);~ ret byte
  end.

(** The first [\r\n] of the buffer from [i] on, [n] positions being looked at. *)
Fixpoint find_crlf (b : bytes) (n i : nat) : option nat :=
  match n with
  | O => None
  | S n =>
    if bool_decide (b !! i = Some 13) && bool_decide (b !! S i = Some 10) then Some i else find_crlf b n (S i)
  end.

Definition read_until_crlf : M bytes :=
  r <~ get;
  b <~ lift (slice_from (buffer r) (pos r));
  let limit := Z.to_nat (Z.min (Z.of_nat (length b)) (MAX_LINE_LEN + 1)) in
  let start := Nat.min (crlf_skip r) limit in
  set_crlf_skip 0;~
  match find_crlf b (limit - start) start with
  | Some i => set_pos (pos r + (i + 2));~ ret (take i b)
  | None => if MAX_LINE_LEN + 1 <? Z.of_nat (length b) then throw LineTooLong else throw InvalidResponse
  end.

Definition read_integer : M Z :=
  str <~ read_until_crlf;
  match parse_int I64_MIN I64_MAX str 10 with Ok n => ret n | Err _ => throw InvalidInteger end.

Definition read_boolean : M bool :=
  str <~ read_until_crlf;
  match str with
  | [c] => if c =? #"t" then ret true else if c =? #"f" then ret false else throw InvalidBoolean
  | _ => throw InvalidBoolean
  end.

(** [&self.buffer[self.pos..self.pos + len]], then [self.pos += len]. *)
Definition take_bytes (len : nat) : M bytes :=
  r <~ get;
  s <~ lift (slice (buffer r) (pos r) (pos r + len));
  set_pos (pos r + len);~ ret s.

(** The payload of [$], [=] and [!]: [short] is the error when the buffer ends
    inside of it, [bad] when no CRLF follows. *)
Definition read_payload (len : Z) (short bad : RedisError) : M bytes :=
  let len := Z.to_nat len in
  r <~ get;
  if decide (length (buffer r) < pos r + len)%nat then throw short
  else
    str <~ take_bytes len;
    crlf <~ read_until_crlf;
    match crlf with [] => ret str | _ => throw bad end.

Definition read_verbatim_string : M (bytes * bytes) :=
  len <~ read_integer;
  if negb ((0 <=? len) && (len <=? MAX_BULK_LEN)) then throw InvalidVerbatimString
  else
    content_with_format <~ read_payload len InvalidVerbatimString InvalidVerbatimString;
    match content_with_format with
    | a :: b :: c :: d :: content => if d =? #":" then ret ([a; b; c], content) else throw InvalidVerbatimString
    | _ => throw InvalidVerbatimString
    end.

(** [take_prealloc_budget], the capacity reserved for a vector. *)
Definition take_prealloc_budget (len : Z) (element_size : nat) : M nat :=
  r <~ get;
  let cap := Z.to_nat (Z.min len (Z.of_nat (prealloc_budget r / Nat.max element_size 1))) in
  set_budget (prealloc_budget r - cap * element_size);~ ret cap.

(** [f64] is an abstract type: its special values, WebKit's
    [WTF__parseDouble] (the number and how many bytes it read) and libc's
    [strncasecmp(a, b, n) == 0]; the sizes are those of the elements of the
    vectors in the compiled program. *)
Class Target := {
  F64 : Type;
  INFINITY : F64;
  NEG_INFINITY : F64;
  NAN : F64;
  WTF__parseDouble : bytes -> F64 * nat;
  strncasecmp_eq : bytes -> bytes -> nat -> bool;
  size_of_RESPValue : nat;
  size_of_MapEntry : nat }.

Section Values.
Context {T : Target}.

Definition eql_any_case_insensitive_ascii (needle : bytes) (haystack : list bytes) : bool :=
  existsb (fun h => eql_case_insensitive_ascii strncasecmp_eq needle h true) haystack.

Definition parse_f64 (s : bytes) : option F64 :=
  match s with
  | [] => None
  | c :: r =>
    let '(res, count) := WTF__parseDouble s in
    if decide (count = length s) then Some res
    else if decide (count = 0%nat) then
      let '(neg, rest) := if c =? #"-" then (true, r) else if c =? #"+" then (false, r) else (false, s) in
      if eql_any_case_insensitive_ascii rest [b!"inf"; b!"infinity"] then Some (if (neg : bool) then NEG_INFINITY else INFINITY)
      else if eql_case_insensitive_ascii strncasecmp_eq rest b!"nan" true then Some NAN
      else None
    else None
  end.

Inductive RESPValue :=
| SimpleString (s : bytes)
| Error (s : bytes)
| Integer (n : Z)
| BulkString (s : option bytes)
| Array (l : list RESPValue)
| Null
| Double (d : F64)
| Boolean (b : bool)
| BlobError (s : bytes)
| VerbatimString (format content : bytes)
| Map (l : list (RESPValue * RESPValue))
| RSet (l : list RESPValue)
| Attribute (attributes : list (RESPValue * RESPValue)) (value : RESPValue)
| Push (kind : bytes) (data : list RESPValue)
| BigNumber (s : bytes).

Definition read_double : M F64 :=
  str <~ read_until_crlf;
  if decide (str = b!"inf") then ret INFINITY
  else if decide (str = b!"-inf") then ret NEG_INFINITY
  else if decide (str = b!"nan") then ret NAN
  else match parse_f64 str with Some d => ret d | None => throw InvalidDouble end.

(** [while i < len { v.push(read()?) }], [n] being [len - i]. *)
Fixpoint read_many {A} (fuel : nat) (read : M A) (n : Z) : M (list A) :=
  if n <=? 0 then ret []
  else
    match fuel with
    | O => panic
    | S fuel => x <~ read; l <~ read_many fuel read (n - 1); ret (x :: l)
    end.

(** The string of the first element of a push. *)
Definition push_kind (v : RESPValue) : M bytes :=
  match v with
  | SimpleString s => ret s
  | BulkString (Some s) => ret s
  | _ => throw InvalidPush
  end.

(** An element of every list takes a byte at least. *)
Definition list_fuel : M nat := r <~ get; ret (S (length (buffer r))).

(** The arm of each type; [rec] reads a value one level down. *)
Definition read_arm (rec : M RESPValue) (depth : nat) (t : RESPType) : M RESPValue :=
  let pair := (key <~ rec; value <~ rec; ret (key, value)) in
  let nested (k : M RESPValue) := if decide (MAX_NESTING_DEPTH <= depth)%nat then throw NestingDepthExceeded else k in
  match t with
  | TSimpleString => str <~ read_until_crlf; ret (SimpleString str)
  | TError => str <~ read_until_crlf; ret (Error str)
  | TInteger => int <~ read_integer; ret (Integer int)
  | TBulkString =>
    len <~ read_integer;
    if len <? 0 then ret (BulkString None)
    else if MAX_BULK_LEN <? len then throw InvalidBulkString
    else str <~ read_payload len InvalidResponse InvalidBulkString; ret (BulkString (Some str))
  | TArray =>
    nested (
      len <~ read_integer;
      if len <? 0 then ret (Array [])
      else take_prealloc_budget len size_of_RESPValue;~ fuel <~ list_fuel; array <~ read_many fuel rec len; ret (Array array))
  | TNull => read_until_crlf;~ ret Null
  | TDouble => d <~ read_double; ret (Double d)
  | TBoolean => b <~ read_boolean; ret (Boolean b)
  | TBlobError =>
    len <~ read_integer;
    if negb ((0 <=? len) && (len <=? MAX_BULK_LEN)) then throw InvalidBlobError
    else str <~ read_payload len InvalidBlobError InvalidBlobError; ret (BlobError str)
  | TVerbatimString => v <~ read_verbatim_string; ret (VerbatimString v.1 v.2)
  | TMap =>
    nested (
      len <~ read_integer;
      if len <? 0 then throw InvalidMap
      else take_prealloc_budget len size_of_MapEntry;~ fuel <~ list_fuel; entries <~ read_many fuel pair len; ret (Map entries))
  | TSet =>
    nested (
      len <~ read_integer;
      if len <? 0 then throw InvalidSet
      else take_prealloc_budget len size_of_RESPValue;~ fuel <~ list_fuel; set <~ read_many fuel rec len; ret (RSet set))
  | TAttribute =>
    nested (
      len <~ read_integer;
      if len <? 0 then throw InvalidAttribute
      else
        take_prealloc_budget len size_of_MapEntry;~ fuel <~ list_fuel;
        attrs <~ read_many fuel pair len;
        value <~ rec; ret (Attribute attrs value))
  | TPush =>
    nested (
      len <~ read_integer;
      if len <=? 0 then throw InvalidPush
      else
        push_type <~ rec;
        kind <~ push_kind push_type;
        take_prealloc_budget (len - 1) size_of_RESPValue;~ fuel <~ list_fuel;
        data <~ read_many fuel rec (len - 1); ret (Push kind data))
  | TBigNumber => str <~ read_until_crlf; ret (BigNumber str)
  end.

(** [fuel] bounds the depth. *)
Fixpoint read_value_with_depth (fuel depth : nat) : M RESPValue :=
  match fuel with
  | O => panic
  | S fuel =>
    byte <~ read_byte;
    match from_byte byte with
    | None => throw InvalidResponseType
    | Some t => read_arm (read_value_with_depth fuel (depth + 1)) depth t
    end
  end.

Definition read_value : M RESPValue :=
  r <~ get;
  set_budget (length (buffer r) - pos r);~
  read_value_with_depth (MAX_NESTING_DEPTH + 1) 0.

(** * The scanner *)

Inductive ScanResult := Complete | NeedMoreData.

(** [scan_pos], [stack] (the innermost aggregate first), [scan_skip]. *)
Record ReplyScanner := { scan_pos : nat; stack : list Z; scan_skip : nat }.

Definition reset : ReplyScanner := {| scan_pos := 0; stack := []; scan_skip := 0 |}.

Definition saturating64 (n : Z) : Z := Z.min n U64_MAX.

(** The number of children of an aggregate, [None] for a scalar. *)
Definition scan_arm (depth : nat) (t : RESPType) : M (option Z) :=
  let nested (k : M (option Z)) := if decide (MAX_NESTING_DEPTH <= depth)%nat then throw NestingDepthExceeded else k in
  match t with
  | TSimpleString | TError | TInteger | TNull | TDouble | TBoolean | TBigNumber => read_until_crlf;~ ret None
  | TBulkString | TBlobError | TVerbatimString =>
    let invalid := match t with TBlobError => InvalidBlobError | TVerbatimString => InvalidVerbatimString | _ => InvalidBulkString end in
    len <~ read_integer;
    if len <? 0 then match t with TBulkString => ret None | _ => throw invalid end
    else if MAX_BULK_LEN <? len then throw invalid
    else
      let len := Z.to_nat len in
      r <~ get;
      if decide (length (buffer r) - pos r < len + 2)%nat then throw InvalidResponse
      else
        c <~ lift (buffer r !! (pos r + len)%nat);
        d <~ lift (buffer r !! (pos r + len + 1)%nat);
        if negb (c =? 13) || negb (d =? 10) then throw invalid
        else set_pos (pos r + (len + 2));~ ret None
  | TArray => nested (len <~ read_integer; if len <? 0 then ret (Some 0) else ret (Some len))
  | TSet => nested (len <~ read_integer; if len <? 0 then throw InvalidSet else ret (Some len))
  | TPush => nested (len <~ read_integer; if len <=? 0 then throw InvalidPush else ret (Some len))
  | TMap => nested (len <~ read_integer; if len <? 0 then throw InvalidMap else ret (Some (saturating64 (len * 2))))
  | TAttribute =>
    nested (len <~ read_integer; if len <? 0 then throw InvalidAttribute else ret (Some (saturating64 (saturating64 (len * 2) + 1))))
  end.

Definition scan_one (depth : nat) : M (option Z) :=
  byte <~ read_byte;
  match from_byte byte with
  | None => throw InvalidResponseType
  | Some t => scan_arm depth t
  end.

(** A value finished: the aggregates it completes are popped. *)
Fixpoint unwind (st : list Z) : list Z :=
  match st with
  | [] => []
  | remaining :: st => if 0 <? remaining - 1 then (remaining - 1) :: st else unwind st
  end.

Fixpoint scan (fuel : nat) (s : ReplyScanner) (b : bytes) : option (ReplyScanner * Result ScanResult RedisError) :=
  match fuel with
  | O => None
  | S fuel =>
    let unwound r :=
      match unwind (stack s) with
      | [] => Some ({| scan_pos := pos r; stack := []; scan_skip := 0 |}, Ok Complete)
      | st => scan fuel {| scan_pos := pos r; stack := st; scan_skip := 0 |} b
      end in
    match scan_one (length (stack s)) {| buffer := b; pos := scan_pos s; prealloc_budget := 0; crlf_skip := scan_skip s |} with
    | None => None
    | Some (r, Err e) =>
      if decide (e = InvalidResponse) then
        let skip := if decide (pos r = scan_pos s + 1)%nat then (length b - pos r - 1)%nat else 0%nat in
        Some ({| scan_pos := scan_pos s; stack := stack s; scan_skip := skip |}, Ok NeedMoreData)
      else Some (s, Err e)
    | Some (r, Ok (Some children)) =>
      if 0 <? children then scan fuel {| scan_pos := pos r; stack := children :: stack s; scan_skip := 0 |} b
      else unwound r
    | Some (r, Ok None) => unwound r
    end
  end.

(** Every round but the last takes a byte. *)
Definition reply_scan (s : ReplyScanner) (b : bytes) : option (ReplyScanner * Result ScanResult RedisError) :=
  scan (S (length b)) s b.

(** * Push messages *)

Inductive SubscriptionPushMessage := Message | Subscribe | Unsubscribe.

Definition from_bytes (bytes : list Z) : option SubscriptionPushMessage :=
  if decide (bytes = b!"message") then Some Message
  else if decide (bytes = b!"subscribe") then Some Subscribe
  else if decide (bytes = b!"unsubscribe") then Some Unsubscribe
  else None.

End Values.
