(* ===== verification/ValkeyGrammar.v ===== *)
(** The grammar of RESP replies, and the reader of Valkey as its decoder: what
    each routine of the reader does on the bytes that follow its position, and
    [read_value] as the function that inverts the grammar. *)
From S2P Require Import Prelude BunCore Valkey.

(** * Lines *)

Definition crlf : bytes := [13; 10].

Definition crlf_free (t : bytes) : Prop := find_crlf t (length t) 0 = None.

Definition line (t : bytes) : Prop := crlf_free t /\ Z.of_nat (length t) <= MAX_LINE_LEN.

#[export] Instance line_dec t : Decision (line t).
Proof. unfold line, crlf_free. apply _. Defined.

Definition int_text (n : Z) (t : bytes) : Prop := line t /\ parse_int I64_MIN I64_MAX t 10 = Ok n.

Definition bool_text (v : bool) : bytes := if v then b!"t" else b!"f".

(** * Replies *)

Section Grammar.
Context {T : Target}.

Definition double_value (t : bytes) : option F64 :=
  if decide (t = b!"inf") then Some INFINITY
  else if decide (t = b!"-inf") then Some NEG_INFINITY
  else if decide (t = b!"nan") then Some NAN
  else parse_f64 t.

Definition kind_of (v : RESPValue) : option bytes :=
  match v with SimpleString s | BulkString (Some s) => Some s | _ => None end.

(** A payload with its length before it. *)
Definition blob (c : Z) (t s : bytes) : bytes := c :: (t ++ crlf) ++ s ++ crlf.
Definition header (c : Z) (t : bytes) : bytes := c :: t ++ crlf.

Definition blob_length (t s : bytes) : Prop := int_text (Z.of_nat (length s)) t /\ Z.of_nat (length s) <= MAX_BULK_LEN.

(** [resp d v t]: [t] is a text of [v], whose aggregates nest at most [d] deep. *)
Inductive resp : nat -> RESPValue -> bytes -> Prop :=
| resp_simple d s : line s -> resp d (SimpleString s) (header #"+" s)
| resp_error d s : line s -> resp d (Error s) (header #"-" s)
| resp_integer d n t : int_text n t -> resp d (Integer n) (header #":" t)
| resp_nil d n t : int_text n t -> n < 0 -> resp d (BulkString None) (header #"$" t)
| resp_bulk d t s : blob_length t s -> resp d (BulkString (Some s)) (blob #"$" t s)
| resp_null_array d n t : int_text n t -> n < 0 -> resp (S d) (Array []) (header #"*" t)
| resp_array d t l u : int_text (Z.of_nat (length l)) t -> resp_list d l u -> resp (S d) (Array l) (header #"*" t ++ u)
| resp_null d t : line t -> resp d Null (header #"_" t)
| resp_double d x t : line t -> double_value t = Some x -> resp d (Double x) (header #"," t)
| resp_boolean d v : resp d (Boolean v) (header #"#" (bool_text v))
| resp_blob_error d t s : blob_length t s -> resp d (BlobError s) (blob #"!" t s)
| resp_verbatim d t format s :
  length format = 3%nat -> blob_length t (format ++ #":" :: s) ->
  resp d (VerbatimString format s) (blob #"=" t (format ++ #":" :: s))
| resp_map d t l u : int_text (Z.of_nat (length l)) t -> resp_pairs d l u -> resp (S d) (Map l) (header #"%" t ++ u)
| resp_set d t l u : int_text (Z.of_nat (length l)) t -> resp_list d l u -> resp (S d) (RSet l) (header #"~" t ++ u)
| resp_attribute d t l u v w :
  int_text (Z.of_nat (length l)) t -> resp_pairs d l u -> resp d v w ->
  resp (S d) (Attribute l v) (header #"|" t ++ u ++ w)
| resp_push d t k v w l u :
  int_text (Z.of_nat (S (length l))) t -> resp d v w -> kind_of v = Some k -> resp_list d l u ->
  resp (S d) (Push k l) (header #">" t ++ w ++ u)
| resp_big_number d s : line s -> resp d (BigNumber s) (header #"(" s)
with resp_list : nat -> list RESPValue -> bytes -> Prop :=
| resp_list_nil d : resp_list d [] []
| resp_list_cons d v t l u : resp d v t -> resp_list d l u -> resp_list d (v :: l) (t ++ u)
with resp_pairs : nat -> list (RESPValue * RESPValue) -> bytes -> Prop :=
| resp_pairs_nil d : resp_pairs d [] []
| resp_pairs_cons d k s v t l u :
  resp d k s -> resp d v t -> resp_pairs d l u -> resp_pairs d ((k, v) :: l) (s ++ t ++ u).

End Grammar.

Scheme resp_ind' := Minimality for resp Sort Prop
  with resp_list_ind' := Minimality for resp_list Sort Prop
  with resp_pairs_ind' := Minimality for resp_pairs Sort Prop.
Combined Scheme resp_mutind from resp_ind', resp_list_ind', resp_pairs_ind'.

(** * The search for the end of a line *)

Definition crlf_at (b : bytes) (i : nat) : Prop := b !! i = Some 13 /\ b !! S i = Some 10.

Lemma find_crlf_Some b n i j :
  find_crlf b n i = Some j <-> (i <= j < i + n)%nat /\ crlf_at b j /\ forall k, (i <= k < j)%nat -> ~ crlf_at b k.
Proof.
  revert i. induction n as [|n IH]; intros i; cbn [find_crlf]; [split; [done | lia]|].
  destruct (bool_decide (b !! i = Some 13) && bool_decide (b !! S i = Some 10)) eqn:E.
  - rewrite andb_true_iff, !bool_decide_eq_true in E. split.
    + intros [= <-]. split; [lia|]. split; [done|]. intros k Hk. lia.
    + intros (Hj & Hc & Hk). f_equal. destruct (decide (i = j)) as [|Hn]; [done|]. exfalso. apply (Hk i); [lia | done].
  - assert (Hi : ~ crlf_at b i).
    { intros [H1 H2]. rewrite !bool_decide_eq_true_2 in E by done. done. }
    rewrite IH. split; intros (Hj & Hc & Hk).
    + split; [lia|]. split; [done|]. intros k Hk'. destruct (decide (k = i)) as [->|]; [done | apply Hk; lia].
    + destruct (decide (i = j)) as [<-|]; [done|]. split; [lia|]. split; [done|]. intros k Hk'. apply Hk. lia.
Qed.

Lemma find_crlf_None b n i : find_crlf b n i = None <-> forall k, (i <= k < i + n)%nat -> ~ crlf_at b k.
Proof.
  revert i. induction n as [|n IH]; intros i; cbn [find_crlf]; [split; [intros _ k; lia | done]|].
  destruct (bool_decide (b !! i = Some 13) && bool_decide (b !! S i = Some 10)) eqn:E.
  - rewrite andb_true_iff, !bool_decide_eq_true in E. split; [done|]. intros H. exfalso. apply (H i); [lia | done].
  - assert (Hi : ~ crlf_at b i).
    { intros [H1 H2]. rewrite !bool_decide_eq_true_2 in E by done. done. }
    rewrite IH. split; intros H k Hk; [|apply H; lia].
    destruct (decide (k = i)) as [->|]; [done | apply H; lia].
Qed.

Lemma crlf_free_at t k : crlf_free t -> ~ crlf_at t k.
Proof.
  unfold crlf_free. rewrite find_crlf_None. intros H. destruct (decide (k < length t)%nat); [apply H; lia|].
  intros [H1 _]. apply lookup_lt_Some in H1. lia.
Qed.

Lemma crlf_at_prefix b c k : (S k < length b)%nat -> crlf_at (b ++ c) k <-> crlf_at b k.
Proof. intros H. unfold crlf_at. by rewrite !lookup_app_l by lia. Qed.

Lemma crlf_at_line t r k : crlf_free t -> crlf_at (t ++ crlf ++ r) k -> (length t <= k)%nat.
Proof.
  intros Hf [H1 H2]. destruct (decide (length t <= k)%nat) as [|Hk]; [done|]. exfalso.
  rewrite lookup_app_l in H1 by lia. destruct (decide (S k < length t)%nat).
  - rewrite lookup_app_l in H2 by lia. by apply (crlf_free_at t k).
  - rewrite lookup_app_r in H2 by lia. replace (S k - length t)%nat with 0%nat in H2 by lia. done.
Qed.

(** The line a buffer starts with. *)
Lemma find_crlf_line q n j :
  find_crlf q n 0 = Some j -> (j < n)%nat /\ crlf_free (take j q) /\ exists r, q = take j q ++ crlf ++ r.
Proof.
  rewrite find_crlf_Some. intros (Hj & [H1 H2] & Hk). split; [lia|].
  assert (Hl := lookup_lt_Some _ _ _ H2).
  split.
  - unfold crlf_free. rewrite find_crlf_None. intros k Hkl [Hk1 Hk2].
    rewrite length_take in Hkl. assert (Hk2' := lookup_lt_Some _ _ _ Hk2). rewrite length_take in Hk2'.
    rewrite lookup_take_lt in Hk1, Hk2 by lia. apply (Hk k); [lia | done].
  - exists (drop (S (S j)) q). rewrite <- (take_drop j q) at 1.
    by rewrite (drop_S q 13 j H1), (drop_S q 10 (S j) H2).
Qed.

Lemma line_find t r n : crlf_free t -> (length t < n)%nat -> find_crlf (t ++ crlf ++ r) n 0 = Some (length t).
Proof.
  intros Hf Hn. apply find_crlf_Some. split; [lia|]. split.
  - split; rewrite lookup_app_r by lia; [by rewrite Nat.sub_diag|].
    by replace (S (length t) - length t)%nat with 1%nat by lia.
  - intros k Hk Hc. apply crlf_at_line in Hc; [lia | done].
Qed.

(** * Computations of the reader *)

(** The reader at [p], with nothing of the line skipped. *)
Definition rd (b : bytes) (p k : nat) : ValkeyReader := {| buffer := b; pos := p; prealloc_budget := k; crlf_skip := 0 |}.

Definition reads {A} (m : M A) (b : bytes) (p : nat) (a : A) (p' : nat) : Prop :=
  forall k, exists k', m (rd b p k) = Some (rd b p' k', Ok a).
Definition fails {A} (m : M A) (b : bytes) (p : nat) (e : RedisError) : Prop :=
  forall k, exists r, m (rd b p k) = Some (r, Err e).

(** [m] ends, with a value of [P] further on in the buffer or with an error of [Q]. *)
Definition ends {A} (m : M A) (b : bytes) (p : nat) (P : A -> nat -> Prop) (Q : RedisError -> Prop) : Prop :=
  (exists a p', (p <= p' <= length b)%nat /\ reads m b p a p' /\ P a p') \/ (exists e, fails m b p e /\ Q e).

Lemma reads_ret {A} (a : A) b p : reads (ret a) b p a p.
Proof. intros k. by exists k. Qed.

Lemma fails_throw {A} e b p : fails (throw (A := A) e) b p e.
Proof. intros k. by eexists. Qed.

Lemma reads_bind {A B} (m : M A) (f : A -> M B) b p a p1 c p2 :
  reads m b p a p1 -> reads (f a) b p1 c p2 -> reads (bind m f) b p c p2.
Proof. intros H1 H2 k. destruct (H1 k) as [k1 E1], (H2 k1) as [k2 E2]. exists k2. unfold bind. by rewrite E1. Qed.

Lemma fails_bind {A B} (m : M A) (f : A -> M B) b p e : fails m b p e -> fails (bind m f) b p e.
Proof. intros H k. destruct (H k) as [r E]. exists r. unfold bind. by rewrite E. Qed.

Lemma fails_bind_after {A B} (m : M A) (f : A -> M B) b p a p1 e :
  reads m b p a p1 -> fails (f a) b p1 e -> fails (bind m f) b p e.
Proof. intros H1 H2 k. destruct (H1 k) as [k1 E1], (H2 k1) as [r E2]. exists r. unfold bind. by rewrite E1. Qed.

Lemma reads_fun {A} (m : M A) b p a p' a2 p2 : reads m b p a p' -> reads m b p a2 p2 -> a = a2 /\ p' = p2.
Proof.
  intros H1 H2. destruct (H1 0%nat) as [k1 E1], (H2 0%nat) as [k2 E2]. rewrite E1 in E2.
  assert (H3 : rd b p' k1 = rd b p2 k2) by congruence. apply (f_equal pos) in H3 as H4. split; [congruence | done].
Qed.

Lemma reads_fails {A} (m : M A) b p a p' e : reads m b p a p' -> ~ fails m b p e.
Proof. intros H1 H2. destruct (H1 0%nat) as [k1 E1], (H2 0%nat) as [r E2]. congruence. Qed.

Lemma ends_ret {A} (a : A) b p (P : A -> nat -> Prop) Q : (p <= length b)%nat -> P a p -> ends (ret a) b p P Q.
Proof. intros Hp HP. left. exists a, p. split; [lia|]. split; [apply reads_ret | done]. Qed.

Lemma ends_throw {A} e b p (P : A -> nat -> Prop) (Q : RedisError -> Prop) : Q e -> ends (throw e) b p P Q.
Proof. intros HQ. right. exists e. split; [apply fails_throw | done]. Qed.

Lemma ends_bind {A B} (m : M A) (f : A -> M B) b p P Q P' :
  ends m b p P Q -> (forall a p1, (p <= p1 <= length b)%nat -> P a p1 -> ends (f a) b p1 P' Q) -> ends (bind m f) b p P' Q.
Proof.
  intros [(a & p1 & Hp & Hr & HP)|(e & Hf & HQ)] H.
  - destruct (H a p1 Hp HP) as [(c & p2 & Hp2 & Hr2 & HP2)|(e & Hf & HQ)].
    + left. exists c, p2. split; [lia|]. split; [by eapply reads_bind | done].
    + right. exists e. split; [by eapply fails_bind_after | done].
  - right. exists e. split; [by apply fails_bind | done].
Qed.

Lemma ends_impl {A} (m : M A) b p (P P' : A -> nat -> Prop) (Q Q' : RedisError -> Prop) :
  ends m b p P Q -> (forall a p1, (p <= p1 <= length b)%nat -> P a p1 -> P' a p1) -> (forall e, Q e -> Q' e) -> ends m b p P' Q'.
Proof.
  intros [(a & p1 & Hp & Hr & HP)|(e & Hf & HQ)] H1 H2; [left; exists a, p1; auto | right; exists e; auto].
Qed.

(** A computation that looks at the reader, but not at the budget. *)
Lemma get_eq {B} (f : ValkeyReader -> M B) g b p k : f (rd b p k) = g -> bind get f (rd b p k) = g (rd b p k).
Proof. by intros <-. Qed.

Lemma reads_get {B} (f : ValkeyReader -> M B) g b p c p' :
  (forall k, f (rd b p k) = g) -> reads g b p c p' -> reads (bind get f) b p c p'.
Proof. intros H Hr k. destruct (Hr k) as [k' E]. exists k'. by rewrite (get_eq _ g). Qed.

Lemma fails_get {B} (f : ValkeyReader -> M B) g b p e :
  (forall k, f (rd b p k) = g) -> fails g b p e -> fails (bind get f) b p e.
Proof. intros H Hr k. destruct (Hr k) as [r E]. exists r. by rewrite (get_eq _ g). Qed.

Lemma ends_get {B} (f : ValkeyReader -> M B) g b p P Q :
  (forall k, f (rd b p k) = g) -> ends g b p P Q -> ends (bind get f) b p P Q.
Proof.
  intros H [(a & p1 & Hp & Hr & HP)|(e & Hf & HQ)].
  - left. exists a, p1. split; [done|]. split; [by eapply reads_get | done].
  - right. exists e. split; [by eapply fails_get | done].
Qed.

(** * The text at a position *)

Definition has (b : bytes) (p : nat) (t : bytes) : Prop := t `prefix_of` drop p b.

Lemma has_app b p t u : has b p (t ++ u) <-> has b p t /\ has b (p + length t) u.
Proof.
  unfold has. rewrite <- drop_drop. split.
  - intros [r Hr]. rewrite Hr, <- app_assoc. rewrite drop_app_length. split; [by exists (u ++ r) | by exists r].
  - intros [[r Hr] [r' Hr']]. rewrite Hr, drop_app_length in Hr'. exists r'. by rewrite Hr, Hr', <- app_assoc.
Qed.

Lemma has_length b p t : (p <= length b)%nat -> has b p t -> (p + length t <= length b)%nat.
Proof. intros Hp H. apply prefix_length in H. rewrite length_drop in H. lia. Qed.

Lemma has_0 b t : has b 0 t <-> t `prefix_of` b.
Proof. done. Qed.

Lemma has_cons b p c t : has b p (c :: t) <-> b !! p = Some c /\ has b (S p) t.
Proof.
  change (c :: t) with ([c] ++ t). rewrite has_app. replace (p + length [c])%nat with (S p) by (cbn; lia).
  apply and_iff_compat_r. unfold has. split.
  - intros [r Hr]. rewrite <- (Nat.add_0_r p), <- lookup_drop, Hr. done.
  - intros H. rewrite (drop_S _ _ _ H). by exists (drop (S p) b).
Qed.

(** * The routines *)

Lemma ends_byte b p Q :
  Q InvalidResponse -> (p <= length b)%nat -> ends read_byte b p (fun c p' => has b p [c] /\ p' = S p) Q.
Proof.
  intros HQ Hp. eapply ends_get; [intros k; cbn; reflexivity|]. destruct (b !! p) as [c|] eqn:E; [|by apply ends_throw].
  left. exists c, (S p). assert (Hl := lookup_lt_Some _ _ _ E). split; [lia|].
  split; [intros k; exists k; unfold bind, set_pos; cbn; by rewrite Nat.add_1_r|].
  split; [|done]. apply has_cons. split; [done|]. by apply prefix_nil.
Qed.

Lemma reads_byte b p c : has b p [c] -> reads read_byte b p c (S p).
Proof.
  rewrite has_cons. intros [H _]. eapply reads_get; [intros k0; cbn; reflexivity|]. rewrite H.
  intros k. exists k. unfold bind, set_pos; cbn. by rewrite Nat.add_1_r.
Qed.

Lemma limit_spec (n : nat) : Z.of_nat (Z.to_nat (Z.min (Z.of_nat n) (MAX_LINE_LEN + 1))) = Z.min (Z.of_nat n) (MAX_LINE_LEN + 1).
Proof. unfold MAX_LINE_LEN. lia. Qed.

Lemma read_line_eq b p k :
  (p <= length b)%nat ->
  read_until_crlf (rd b p k) =
  match find_crlf (drop p b) (Z.to_nat (Z.min (Z.of_nat (length (drop p b))) (MAX_LINE_LEN + 1))) 0 with
  | Some i => Some (rd b (p + (i + 2)) k, Ok (take i (drop p b)))
  | None => Some (rd b p k, Err (if MAX_LINE_LEN + 1 <? Z.of_nat (length (drop p b)) then LineTooLong else InvalidResponse))
  end.
Proof.
  intros Hp. unfold read_until_crlf, bind, get, lift, slice_from. cbn [rd pos buffer]. rewrite decide_True by done.
  unfold ret, set_crlf_skip, set_pos, throw. cbn [rd crlf_skip pos buffer prealloc_budget]. rewrite Nat.min_0_l, Nat.sub_0_r.
  destruct (find_crlf _ _ _); [done|]. by destruct (MAX_LINE_LEN + 1 <? _).
Qed.

Lemma reads_line b p t : line t -> has b p (t ++ crlf) -> (p <= length b)%nat -> reads read_until_crlf b p t (p + length t + 2).
Proof.
  intros [Hf Hl] [r Hr] Hp k. exists k. rewrite read_line_eq by done. rewrite <- app_assoc in Hr.
  assert (Hn := limit_spec (length (drop p b))).
  rewrite Hr, line_find.
  - rewrite take_app_length. do 3 f_equal. lia.
  - done.
  - rewrite <- Hr. assert (Hd := f_equal length Hr). rewrite !length_app in Hd. cbn in Hd. lia.
Qed.

Lemma ends_line b p Q :
  Q LineTooLong -> Q InvalidResponse -> (p <= length b)%nat ->
  ends read_until_crlf b p (fun t p' => line t /\ has b p (t ++ crlf) /\ p' = (p + length t + 2)%nat) Q.
Proof.
  intros Q1 Q2 Hp. assert (E := fun k => read_line_eq b p k Hp).
  assert (Hn := limit_spec (length (drop p b))).
  destruct (find_crlf _ _ _) as [i|] eqn:Ef.
  - apply find_crlf_line in Ef as (Hi & Hf & r & Hr). assert (Hd := f_equal length Hr).
    rewrite !length_app, length_take in Hd. rewrite length_drop in *. cbn in Hd.
    assert (Ht : length (take i (drop p b)) = i) by (rewrite length_take, length_drop; lia).
    left. exists (take i (drop p b)), (p + (i + 2))%nat. split; [lia|].
    split; [intros k; exists k; apply E|]. split; [split; [done | lia]|].
    split; [exists r; by rewrite <- app_assoc | lia].
  - right. eexists. split; [intros k; eexists; apply E|]. by destruct (MAX_LINE_LEN + 1 <? _).
Qed.

(** The short-read and long-line errors are among those allowed. *)
Definition allows_lines (Q : RedisError -> Prop) : Prop := Q LineTooLong /\ Q InvalidResponse.

Section Routines.
Context {T : Target} (b : bytes).

Lemma reads_integer p n t :
  int_text n t -> has b p (t ++ crlf) -> (p <= length b)%nat -> reads read_integer b p n (p + length t + 2).
Proof.
  intros [Hl Hn] Ht Hp. eapply reads_bind; [by apply reads_line|]. rewrite Hn. apply reads_ret.
Qed.

Lemma ends_integer p (Q : RedisError -> Prop) :
  allows_lines Q -> Q InvalidInteger -> (p <= length b)%nat ->
  ends read_integer b p (fun n p' => exists t, int_text n t /\ has b p (t ++ crlf) /\ p' = (p + length t + 2)%nat) Q.
Proof.
  intros [Q1 Q2] Q3 Hp. eapply ends_bind; [by apply ends_line|]. intros t p1 Hp1 (Hl & Ht & ->).
  destruct (parse_int I64_MIN I64_MAX t 10) as [n|] eqn:E; [|by apply ends_throw].
  apply ends_ret; [lia|]. by exists t.
Qed.

Lemma ends_boolean p (Q : RedisError -> Prop) :
  allows_lines Q -> Q InvalidBoolean -> (p <= length b)%nat ->
  ends read_boolean b p (fun v p' => has b p (bool_text v ++ crlf) /\ p' = (p + 3)%nat) Q.
Proof.
  intros [Q1 Q2] Q3 Hp. eapply ends_bind; [by apply ends_line|]. intros t p1 Hp1 (Hl & Ht & ->).
  destruct t as [|c [|]]; [by apply ends_throw | | by apply ends_throw].
  destruct (Z.eqb_spec c #"t") as [->|]; [apply ends_ret; [lia|]; split; [done | cbn; lia]|].
  destruct (Z.eqb_spec c #"f") as [->|]; [apply ends_ret; [lia|]; split; [done | cbn; lia]|].
  by apply ends_throw.
Qed.

Lemma line_bool v : line (bool_text v).
Proof. by destruct v. Qed.

Lemma reads_boolean p v : has b p (bool_text v ++ crlf) -> (p <= length b)%nat -> reads read_boolean b p v (p + 3).
Proof.
  intros Ht Hp. eapply reads_bind; [by apply reads_line; [apply line_bool | |]|].
  replace (p + length (bool_text v) + 2)%nat with (p + 3)%nat by (destruct v; cbn; lia). destruct v; apply reads_ret.
Qed.

Lemma read_double_eq str :
  (if decide (str = b!"inf") then ret INFINITY
   else if decide (str = b!"-inf") then ret NEG_INFINITY
   else if decide (str = b!"nan") then ret NAN
   else match parse_f64 str with Some d => ret d | None => throw InvalidDouble end)
  = match double_value str with Some d => ret d | None => throw InvalidDouble end.
Proof. unfold double_value. by repeat destruct (decide _). Qed.

Lemma ends_double p (Q : RedisError -> Prop) :
  allows_lines Q -> Q InvalidDouble -> (p <= length b)%nat ->
  ends read_double b p (fun x p' => exists t, line t /\ double_value t = Some x /\ has b p (t ++ crlf) /\ p' = (p + length t + 2)%nat) Q.
Proof.
  intros [Q1 Q2] Q3 Hp. eapply ends_bind; [by apply ends_line|]. intros t p1 Hp1 (Hl & Ht & ->).
  rewrite read_double_eq. destruct (double_value t) as [x|] eqn:E; [|by apply ends_throw].
  apply ends_ret; [lia|]. by exists t.
Qed.

Lemma reads_double p t x :
  line t -> double_value t = Some x -> has b p (t ++ crlf) -> (p <= length b)%nat -> reads read_double b p x (p + length t + 2).
Proof. intros Hl Hx Ht Hp. eapply reads_bind; [by apply reads_line|]. rewrite read_double_eq, Hx. apply reads_ret. Qed.

Lemma ends_payload p len short bad (Q : RedisError -> Prop) :
  allows_lines Q -> Q short -> Q bad -> (p <= length b)%nat -> 0 <= len ->
  ends (read_payload len short bad) b p
    (fun s p' => Z.of_nat (length s) = len /\ has b p (s ++ crlf) /\ p' = (p + length s + 2)%nat) Q.
Proof.
  intros [Q1 Q2] Q3 Q4 Hp H0. eapply ends_get; [intros k; cbn; reflexivity|].
  destruct (decide _) as [Hd|Hd]; [by apply ends_throw|].
  assert (Hl : length (take (Z.to_nat len) (drop p b)) = Z.to_nat len) by (rewrite length_take, length_drop; lia).
  eapply (ends_bind _ _ _ _ (fun s p' => s = take (Z.to_nat len) (drop p b) /\ p' = (p + length s)%nat)).
  - eapply ends_get; [intros k; cbn; reflexivity|]. rewrite slice_ok by lia. rewrite Nat.add_sub'.
    left. exists (take (Z.to_nat len) (drop p b)), (p + Z.to_nat len)%nat.
    split; [lia|]. split; [intros k; by exists k|]. split; [done | by rewrite Hl].
  - intros s p1 Hp1 [-> ->]. rewrite Hl. eapply ends_bind; [apply ends_line; [done | done | lia]|].
    intros t p2 Hp2 (_ & Ht & ->). destruct t; [|by apply ends_throw]. apply ends_ret; [cbn in *; lia|].
    split; [lia|]. rewrite Hl. split; [|cbn; lia]. apply has_app. rewrite Hl. split; [apply prefix_take | done].
Qed.

Lemma reads_payload p s short bad :
  has b p (s ++ crlf) -> (p <= length b)%nat ->
  reads (read_payload (Z.of_nat (length s)) short bad) b p s (p + length s + 2).
Proof.
  intros Ht Hp. assert (Hle := has_length _ _ _ Hp Ht). rewrite length_app in Hle. cbn in Hle.
  assert (Ht' := Ht). apply has_app in Ht' as [[r Hr] Hc].
  eapply reads_get; [intros k; cbn; reflexivity|]. rewrite Nat2Z.id.
  destruct (decide _) as [Hd|Hd]; [lia|].
  eapply reads_bind.
  - eapply reads_get; [intros k; cbn; reflexivity|]. rewrite slice_ok by lia. rewrite Nat.add_sub', Hr, take_app_length.
    intros k. by exists k.
  - eapply reads_bind; [apply (reads_line _ _ []); [done | done | lia]|]. cbn [length]. rewrite Nat.add_0_r. apply reads_ret.
Qed.

Lemma reads_prealloc {A} len size (m : M A) p a p' :
  reads m b p a p' -> reads (take_prealloc_budget len size;~ m) b p a p'.
Proof. intros H k. destruct (H (k - Z.to_nat (Z.min len (Z.of_nat (k / Nat.max size 1))) * size)%nat) as [k' E]. exists k'. apply E. Qed.

Lemma fails_prealloc {A} len size (m : M A) p e : fails m b p e -> fails (take_prealloc_budget len size;~ m) b p e.
Proof. intros H k. destruct (H (k - Z.to_nat (Z.min len (Z.of_nat (k / Nat.max size 1))) * size)%nat) as [r E]. exists r. apply E. Qed.

Lemma reads_fuel p : reads list_fuel b p (S (length b)) p.
Proof. intros k. by exists k. Qed.

(** The elements of a list, [many] of them. *)
Definition many {A} (len : Z) (size : nat) (read : M A) (n : Z) : M (list A) :=
  take_prealloc_budget len size;~ fuel <~ list_fuel; read_many fuel read n.

Lemma bind_many {A B} len size (read : M A) n (f : list A -> M B) :
  forall r, (take_prealloc_budget len size;~ fuel <~ list_fuel; l <~ read_many fuel read n; f l) r = bind (many len size read n) f r.
Proof. intros r. unfold many, bind. by repeat case_match. Qed.

Lemma ends_ext {A} (m m' : M A) p P Q : (forall r, m r = m' r) -> ends m' b p P Q -> ends m b p P Q.
Proof.
  intros H [(a & p1 & Hp & Hr & HP)|(e & Hf & HQ)].
  - left. exists a, p1. split; [done|]. split; [|done]. intros k. rewrite H. apply Hr.
  - right. exists e. split; [|done]. intros k. rewrite H. apply Hf.
Qed.

Lemma reads_ext {A} (m m' : M A) p a p' : (forall r, m r = m' r) -> reads m' b p a p' -> reads m b p a p'.
Proof. intros H Hr k. rewrite H. apply Hr. Qed.

Lemma fails_ext {A} (m m' : M A) p e : (forall r, m r = m' r) -> fails m' b p e -> fails m b p e.
Proof. intros H Hf k. rewrite H. apply Hf. Qed.

Section Many.
Context {A : Type} (L : list A -> bytes -> Prop) (R : A -> bytes -> Prop) (read : M A) (Q : RedisError -> Prop).
Hypothesis L_nil : L [] [].
Hypothesis L_cons : forall x t l u, R x t -> L l u -> L (x :: l) (t ++ u).
Hypothesis R_ne : forall x t, R x t -> t <> [].
Hypothesis read_ends : forall p, (p <= length b)%nat ->
  ends read b p (fun x p' => exists t, R x t /\ has b p t /\ p' = (p + length t)%nat) Q.

Lemma ends_read_many fuel n p :
  (p <= length b)%nat -> (length b - p < fuel)%nat ->
  ends (read_many fuel read n) b p
    (fun l p' => exists u, L l u /\ has b p u /\ Z.of_nat (length l) = Z.max 0 n /\ p' = (p + length u)%nat) Q.
Proof.
  revert n p. induction fuel as [|fuel IH]; intros n p Hp Hf; [lia|]. cbn [read_many].
  destruct (Z.leb_spec n 0) as [Hn|Hn].
  - apply ends_ret; [done|]. exists []. split; [done|]. split; [apply prefix_nil|]. cbn. lia.
  - eapply ends_bind; [by apply read_ends|]. intros x p1 Hp1 (t & Hx & Ht & ->).
    assert (Hne := R_ne _ _ Hx). assert (0 < length t)%nat by (destruct t; [done | cbn; lia]).
    eapply ends_bind; [apply IH; lia|]. intros l p2 Hp2 (u & Hl & Hu & Hn' & ->).
    apply ends_ret; [lia|]. exists (t ++ u). split; [by apply L_cons|]. split; [by apply has_app|].
    rewrite length_app. cbn [length]. lia.
Qed.

Lemma ends_many len size n p :
  (p <= length b)%nat ->
  ends (many len size read n) b p
    (fun l p' => exists u, L l u /\ has b p u /\ Z.of_nat (length l) = Z.max 0 n /\ p' = (p + length u)%nat) Q.
Proof.
  intros Hp. assert (H := ends_read_many (S (length b)) n p Hp ltac:(lia)).
  destruct H as [(l & p1 & Hp1 & Hr & HP)|(e & Hf & HQ)].
  - left. exists l, p1. split; [done|]. split; [|done]. apply reads_prealloc. eapply reads_bind; [apply reads_fuel | done].
  - right. exists e. split; [|done]. apply fails_prealloc. eapply fails_bind_after; [apply reads_fuel | done].
Qed.
End Many.

Lemma reads_many {A} len size (read : M A) n p l p' :
  (forall fuel, (length b - p < fuel)%nat -> reads (read_many fuel read n) b p l p') -> reads (many len size read n) b p l p'.
Proof. intros H. apply reads_prealloc. eapply reads_bind; [apply reads_fuel|]. apply H. lia. Qed.

Lemma ends_verbatim p (Q : RedisError -> Prop) :
  allows_lines Q -> Q InvalidInteger -> Q InvalidVerbatimString -> (p <= length b)%nat ->
  ends read_verbatim_string b p
    (fun v p' => exists t, length v.1 = 3%nat /\ blob_length t (v.1 ++ #":" :: v.2) /\
       has b p ((t ++ crlf) ++ (v.1 ++ #":" :: v.2) ++ crlf) /\
       p' = (p + length ((t ++ crlf) ++ (v.1 ++ #":" :: v.2) ++ crlf))%nat) Q.
Proof.
  intros Q1 Q2 Q3 Hp. eapply ends_bind; [by apply ends_integer|]. intros n p1 Hp1 (t & Ht & Hh & ->).
  destruct ((0 <=? n) && (n <=? MAX_BULK_LEN)) eqn:E; [|by apply ends_throw]. cbn [negb].
  eapply ends_bind; [apply ends_payload; [done | done | done | lia | lia]|]. intros s p2 Hp2 (Hs & Hc & ->).
  destruct s as [|x [|y [|z [|w s]]]]; try by apply ends_throw.
  destruct (Z.eqb_spec w #":") as [->|]; [|by apply ends_throw]. apply ends_ret; [lia|].
  exists t. cbn [fst snd]. split; [done|]. change ([x; y; z] ++ #":" :: s) with (x :: y :: z :: #":" :: s).
  split; [split; [by rewrite Hs | lia]|]. rewrite has_app, !length_app. cbn [length crlf] in *.
  split; [split; [done|]|lia]. by rewrite Nat.add_assoc.
Qed.

End Routines.

(** * The reader decodes the grammar *)

Section Reader.
Context {T : Target} (b : bytes).

Lemma resp_ne d v t : resp d v t -> t <> [].
Proof. by destruct 1. Qed.

Definition any_error (_ : RedisError) : Prop := True.

Definition value_at (depth p : nat) (v : RESPValue) (p' : nat) : Prop :=
  exists t, resp (MAX_NESTING_DEPTH - depth) v t /\ has b p t /\ p' = (p + length t)%nat.

(** A reader of values of some depth. *)
Definition reader_at (depth : nat) (m : M RESPValue) : Prop :=
  forall p, (p <= length b)%nat -> ends m b p (value_at depth p) any_error.

Lemma any_lines : allows_lines any_error.
Proof. done. Qed.

Lemma from_byte_inv c t : from_byte c = Some t -> c = type_byte t.
Proof. unfold from_byte. intros H. apply find_some in H as [_ H]. lia. Qed.

Lemma from_type_byte t : from_byte (type_byte t) = Some t.
Proof. by destruct t. Qed.

Lemma has_header p c t : has b p [c] -> has b (S p) (t ++ crlf) -> has b p (header c t).
Proof. intros Hc Ht. apply has_cons in Hc as [Hc _]. by apply has_cons. Qed.

Lemma header_length c t : length (header c t) = (length t + 3)%nat.
Proof. cbn. rewrite length_app. cbn. lia. Qed.

Lemma has_header_app p c t u : has b p [c] -> has b (S p) (t ++ crlf) -> has b (S p + length t + 2) u -> has b p (header c t ++ u).
Proof.
  intros H1 H2 H3. apply has_app. split; [by apply has_header|].
  rewrite header_length. by replace (p + (length t + 3))%nat with (S p + length t + 2)%nat by lia.
Qed.

Lemma ends_rec_list depth (rec : M RESPValue) len size n p :
  reader_at depth rec -> (p <= length b)%nat ->
  ends (many len size rec n) b p
    (fun l p' => exists u, resp_list (MAX_NESTING_DEPTH - depth) l u /\ has b p u /\ Z.of_nat (length l) = Z.max 0 n /\ p' = (p + length u)%nat) any_error.
Proof.
  intros Hr Hp. apply (ends_many _ _ (resp (MAX_NESTING_DEPTH - depth))); [constructor | by constructor | apply resp_ne | apply Hr | done].
Qed.

Definition pair_of (d : nat) (e : RESPValue * RESPValue) (t : bytes) : Prop :=
  exists s u, resp d e.1 s /\ resp d e.2 u /\ t = s ++ u.

Lemma ends_rec_pairs depth (rec : M RESPValue) len size n p :
  reader_at depth rec -> (p <= length b)%nat ->
  ends (many len size (key <~ rec; value <~ rec; ret (key, value)) n) b p
    (fun l p' => exists u, resp_pairs (MAX_NESTING_DEPTH - depth) l u /\ has b p u /\ Z.of_nat (length l) = Z.max 0 n /\ p' = (p + length u)%nat) any_error.
Proof.
  intros Hr Hp. apply (ends_many _ _ (pair_of (MAX_NESTING_DEPTH - depth))); [constructor | | | | done].
  - intros [k v] t l u (s & w & Hk & Hv & ->) Hl. rewrite <- app_assoc. by constructor.
  - intros [k v] t (s & u & Hk & Hv & ->). apply resp_ne in Hk. by destruct s.
  - intros q Hq. eapply ends_bind; [by apply Hr|]. intros k p1 Hp1 (s & Hk & Hs & ->).
    eapply ends_bind; [apply Hr; lia|]. intros v p2 Hp2 (u & Hv & Hu & ->). apply ends_ret; [lia|].
    exists (s ++ u). split; [by exists s, u|]. split; [by apply has_app | rewrite length_app; lia].
Qed.

Lemma ends_header depth p c t v :
  resp (MAX_NESTING_DEPTH - depth) v (header c t) -> has b p [c] -> has b (S p) (t ++ crlf) ->
  (S p + length t + 2 <= length b)%nat -> ends (ret v) b (S p + length t + 2) (value_at depth p) any_error.
Proof.
  intros Hv Hc Ht Hp. apply ends_ret; [done|]. exists (header c t). split; [done|].
  split; [by apply has_header | rewrite header_length; lia].
Qed.

Lemma ends_blob depth p c t s v :
  resp (MAX_NESTING_DEPTH - depth) v (blob c t s) -> has b p [c] -> has b (S p) (t ++ crlf) ->
  has b (S p + length t + 2) (s ++ crlf) -> (S p + length t + 2 + length s + 2 <= length b)%nat ->
  ends (ret v) b (S p + length t + 2 + length s + 2) (value_at depth p) any_error.
Proof.
  intros Hv Hc Ht Hs Hp. apply ends_ret; [done|]. exists (blob c t s). split; [done|].
  split; [by apply (has_header_app _ _ t (s ++ crlf))|]. unfold blob. cbn. rewrite !length_app. cbn. lia.
Qed.

(** The arms of the types without elements. *)
Definition nests (t : RESPType) : bool := match t with TArray | TMap | TSet | TAttribute | TPush => true | _ => false end.

Ltac by_line := eapply ends_bind; [apply ends_line; [done | done | lia]|]; intros s p1 Hp1 (Hl & Ht & ->).
Ltac by_integer := eapply ends_bind; [apply ends_integer; [done | done | lia]|]; intros n p1 Hp1 (t & Hn & Ht & ->).
Ltac by_payload := eapply ends_bind; [apply ends_payload; [done | done | done | lia | lia]|]; intros s p2 Hp2 (Hs & Hx & ->).

Lemma scalar_ends rec depth p t :
  nests t = false -> (p < length b)%nat -> has b p [type_byte t] -> ends (read_arm rec depth t) b (S p) (value_at depth p) any_error.
Proof.
  intros Hs Hp Hc. pose proof any_lines as Hq. destruct t; try done; clear Hs; cbn [read_arm type_byte] in *.
  - by_line. apply (ends_header _ _ _ _ _ (resp_simple _ _ Hl)); [done | done | lia].
  - by_line. apply (ends_header _ _ _ _ _ (resp_error _ _ Hl)); [done | done | lia].
  - by_integer. apply (ends_header _ _ _ _ _ (resp_integer _ _ _ Hn)); [done | done | lia].
  - by_integer. destruct (Z.ltb_spec n 0) as [H0|]; [apply (ends_header _ _ _ _ _ (resp_nil _ _ _ Hn H0)); [done | done | lia]|].
    destruct (Z.ltb_spec MAX_BULK_LEN n); [by apply ends_throw|]. by_payload.
    apply (ends_blob _ _ #"$" t); [constructor; split; [by rewrite Hs | lia] | done | done | done | lia].
  - by_line. apply (ends_header _ _ _ _ _ (resp_null _ _ Hl)); [done | done | lia].
  - eapply ends_bind; [apply ends_double; [done | done | lia]|]. intros x p1 Hp1 (s & Hl & Hx & Ht & ->).
    apply (ends_header _ _ _ _ _ (resp_double _ _ _ Hl Hx)); [done | done | lia].
  - eapply ends_bind; [apply ends_boolean; [done | done | lia]|]. intros v p1 Hp1 (Ht & ->).
    replace (S p + 3)%nat with (S p + length (bool_text v) + 2)%nat in * by (destruct v; cbn; lia).
    apply (ends_header _ _ _ _ _ (resp_boolean _ v)); [done | done | lia].
  - by_integer. destruct ((0 <=? n) && (n <=? MAX_BULK_LEN)) eqn:E; [|by apply ends_throw]. cbn [negb]. by_payload.
    apply (ends_blob _ _ #"!" t); [constructor; split; [by rewrite Hs | lia] | done | done | done | lia].
  - eapply ends_bind; [apply ends_verbatim; [done | done | done | lia]|]. intros [f s] p1 Hp1 (t & Hf & Hl & Ht & ->).
    cbn [fst snd] in *. apply ends_ret; [lia|]. exists (blob #"=" t (f ++ #":" :: s)).
    split; [by constructor|]. split; [|cbn; lia]. apply has_cons in Hc as [Hc _]. by apply has_cons.
  - by_line. apply (ends_header _ _ _ _ _ (resp_big_number _ _ Hl)); [done | done | lia].
Qed.

(** The arms with elements; [rec] reads the elements. *)
Lemma array_ends rec depth p t (n : Z) (K : list RESPValue -> RESPValue) c :
  reader_at (S depth) rec -> (depth < MAX_NESTING_DEPTH)%nat -> int_text n t -> 0 <= n -> has b p [c] -> has b (S p) (t ++ crlf) ->
  (S p + length t + 2 <= length b)%nat ->
  (forall l u, int_text (Z.of_nat (length l)) t -> resp_list (MAX_NESTING_DEPTH - S depth) l u ->
     resp (S (MAX_NESTING_DEPTH - S depth)) (K l) (header c t ++ u)) ->
  ends (take_prealloc_budget n size_of_RESPValue;~ fuel <~ list_fuel; l <~ read_many fuel rec n; ret (K l))
    b (S p + length t + 2) (value_at depth p) any_error.
Proof.
  intros Hr Hd Hn H0 Hc Ht Hp HK. eapply ends_ext; [apply bind_many|]. eapply ends_bind; [by apply (ends_rec_list (S depth))|].
  intros l p2 Hp2 (u & Hl & Hu & Hlen & ->). apply ends_ret; [lia|]. exists (header c t ++ u).
  rewrite <- (Nat.succ_pred_pos (MAX_NESTING_DEPTH - depth)) by lia. rewrite <- Nat.sub_succ_r.
  split; [apply HK; [by rewrite Hlen, Z.max_r | done]|].
  split; [by apply has_header_app | rewrite length_app, header_length; lia].
Qed.

Lemma pairs_ends {B} rec depth p t (n : Z) (k : list (RESPValue * RESPValue) -> M B) P c :
  reader_at (S depth) rec -> 0 <= n -> has b p [c] -> has b (S p) (t ++ crlf) -> (S p + length t + 2 <= length b)%nat ->
  (forall l u p2, Z.of_nat (length l) = n -> resp_pairs (MAX_NESTING_DEPTH - S depth) l u -> has b p (header c t ++ u) ->
     p2 = (p + length (header c t ++ u))%nat -> (p2 <= length b)%nat -> ends (k l) b p2 P any_error) ->
  ends (take_prealloc_budget n size_of_MapEntry;~ fuel <~ list_fuel;
        l <~ read_many fuel (key <~ rec; value <~ rec; ret (key, value)) n; k l)
    b (S p + length t + 2) P any_error.
Proof.
  intros Hr H0 Hc Ht Hp HK. eapply ends_ext; [apply bind_many|]. eapply ends_bind; [by apply (ends_rec_pairs (S depth))|].
  intros l p2 Hp2 (u & Hl & Hu & Hlen & ->). apply (HK l u); [lia | done | by apply has_header_app | | lia].
  rewrite length_app, header_length. lia.
Qed.

Lemma depth_S depth : (depth < MAX_NESTING_DEPTH)%nat -> (MAX_NESTING_DEPTH - depth = S (MAX_NESTING_DEPTH - S depth))%nat.
Proof. lia. Qed.

Lemma aggregate_ends rec depth p t :
  nests t = true -> (p < length b)%nat -> has b p [type_byte t] ->
  ((depth < MAX_NESTING_DEPTH)%nat -> reader_at (S depth) rec) ->
  ends (read_arm rec depth t) b (S p) (value_at depth p) any_error.
Proof.
  intros Hs Hp Hc Hr. pose proof any_lines as Hq. destruct t; try done; clear Hs; cbn [read_arm type_byte] in *.
  all: destruct (decide _) as [|Hd%Nat.nle_gt]; [by apply ends_throw|]; specialize (Hr Hd); by_integer.
  - destruct (Z.ltb_spec n 0) as [H0|H0].
    + apply (ends_header _ _ #"*" t); [rewrite (depth_S _ Hd); by econstructor | done | done | lia].
    + apply (array_ends _ _ _ _ _ Array #"*"); [done | done | done | done | done | done | lia | by constructor].
  - destruct (Z.ltb_spec n 0); [by apply ends_throw|].
    apply (pairs_ends rec depth p t n _ _ #"%"); [done | done | done | done | lia |]. intros l u p2 Hl Hu Hh -> Hp2.
    apply ends_ret; [done|]. exists (header #"%" t ++ u). rewrite (depth_S _ Hd). subst n. split; [by constructor | done].
  - destruct (Z.ltb_spec n 0); [by apply ends_throw|].
    apply (array_ends _ _ _ _ _ RSet #"~"); [done | done | done | done | done | done | lia | by constructor].
  - destruct (Z.ltb_spec n 0); [by apply ends_throw|].
    apply (pairs_ends rec depth p t n _ _ #"|"); [done | done | done | done | lia |]. intros l u p2 Hl Hu Hh -> Hp2.
    eapply ends_bind; [by apply Hr|]. intros v p3 Hp3 (w & Hv & Hw & ->).
    apply ends_ret; [lia|]. exists (header #"|" t ++ u ++ w). rewrite (depth_S _ Hd). subst n. split; [by constructor|].
    rewrite app_assoc. split; [by apply has_app | rewrite !length_app; lia].
  - destruct (Z.leb_spec n 0); [by apply ends_throw|].
    eapply ends_bind; [apply Hr; lia|]. intros v p2 Hp2 (w & Hv & Hw & ->).
    eapply (ends_bind _ _ _ _ (fun k p3 => kind_of v = Some k /\ p3 = (S p + length t + 2 + length w)%nat)).
    { destruct v as [| | |[]| | | | | | | | | | |]; cbn; try (by apply ends_throw); (apply ends_ret; [lia | done]). }
    intros k p3 Hp3 [Hk ->]. eapply ends_ext; [apply bind_many|].
    eapply ends_bind; [apply (ends_rec_list (S depth)); [done | lia]|].
    intros l p4 Hp4 (u & Hl & Hu & Hlen & ->). apply ends_ret; [lia|]. exists (header #">" t ++ w ++ u).
    rewrite (depth_S _ Hd). split; [econstructor; [replace (Z.of_nat (S (length l))) with n by lia | | |]; done|].
    split; [apply has_header_app; [done | done | by apply has_app] | rewrite !length_app, header_length; lia].
Qed.

Lemma value_ends fuel depth : (depth + fuel = S MAX_NESTING_DEPTH)%nat -> (0 < fuel)%nat -> reader_at depth (read_value_with_depth fuel depth).
Proof.
  revert depth. induction fuel as [|fuel IH]; intros depth Hd Hf p Hp; [lia|]. cbn [read_value_with_depth].
  eapply ends_bind; [by apply ends_byte|]. intros c p1 Hp1 [Hc ->].
  destruct (from_byte c) as [t|] eqn:E; [|by apply ends_throw]. apply from_byte_inv in E as ->.
  destruct (nests t) eqn:En; [|apply scalar_ends; [done | lia | done]].
  apply aggregate_ends; [done | lia | done|]. intros Hlt. rewrite Nat.add_1_r. apply IH; lia.
Qed.

Lemma read_value_reads p v p' : reads (read_value_with_depth (MAX_NESTING_DEPTH + 1) 0) b p v p' -> reads read_value b p v p'.
Proof. intros H k. destruct (H (length b - p)%nat) as [k' E]. exists k'. apply E. Qed.

Lemma read_value_fails p e : fails (read_value_with_depth (MAX_NESTING_DEPTH + 1) 0) b p e -> fails read_value b p e.
Proof. intros H k. destruct (H (length b - p)%nat) as [k' E]. exists k'. apply E. Qed.

Lemma read_value_ends p : (p <= length b)%nat -> ends read_value b p (value_at 0 p) any_error.
Proof.
  intros Hp. destruct (value_ends (MAX_NESTING_DEPTH + 1) 0 ltac:(lia) ltac:(lia) p Hp) as [(v & p' & Hp' & Hr & HP)|(e & Hf & HQ)].
  - left. exists v, p'. split; [done|]. split; [by apply read_value_reads | done].
  - right. exists e. split; [by apply read_value_fails | done].
Qed.

Lemma reads_arm fuel depth p t v p' :
  has b p [type_byte t] -> reads (read_arm (read_value_with_depth fuel (depth + 1)) depth t) b (S p) v p' ->
  reads (read_value_with_depth (S fuel) depth) b p v p'.
Proof. intros Hc Hr. eapply reads_bind; [by apply reads_byte|]. by rewrite from_type_byte. Qed.

Lemma has_header_inv p c t : has b p (header c t) -> has b p [c] /\ has b (S p) (t ++ crlf).
Proof. intros H. apply has_cons in H as [Hc Ht]. split; [apply has_cons; split; [done | apply prefix_nil] | done]. Qed.

Lemma has_header_app_inv p c t u :
  has b p (header c t ++ u) -> has b p [c] /\ has b (S p) (t ++ crlf) /\ has b (S p + length t + 2) u.
Proof.
  rewrite has_app, header_length. intros [H1 H2]. apply has_header_inv in H1 as [Hc Ht]. split; [done|]. split; [done|].
  by replace (S p + length t + 2)%nat with (p + (length t + 3))%nat by lia.
Qed.

Lemma header_end p c t : (p + length (header c t) = S p + length t + 2)%nat.
Proof. rewrite header_length. lia. Qed.

Lemma header_app_end p c t u : (p + length (header c t ++ u) = S p + length t + 2 + length u)%nat.
Proof. rewrite length_app, header_length. lia. Qed.

Lemma blob_app c t s : blob c t s = header c t ++ s ++ crlf.
Proof. done. Qed.

Definition reader (d : nat) : M RESPValue := read_value_with_depth (S d) (MAX_NESTING_DEPTH - d).

(** What [reader d] reads for a text. *)
Definition reads_text (d : nat) (v : RESPValue) (t : bytes) : Prop :=
  forall p, (d <= MAX_NESTING_DEPTH)%nat -> (p <= length b)%nat -> has b p t -> reads (reader d) b p v (p + length t).
Definition reads_list (d : nat) (l : list RESPValue) (u : bytes) : Prop :=
  forall p fuel, (d <= MAX_NESTING_DEPTH)%nat -> (p <= length b)%nat -> has b p u -> (length b - p < fuel)%nat ->
  reads (read_many fuel (reader d) (Z.of_nat (length l))) b p l (p + length u).
Definition reads_pairs (d : nat) (l : list (RESPValue * RESPValue)) (u : bytes) : Prop :=
  forall p fuel, (d <= MAX_NESTING_DEPTH)%nat -> (p <= length b)%nat -> has b p u -> (length b - p < fuel)%nat ->
  reads (read_many fuel (key <~ reader d; value <~ reader d; ret (key, value)) (Z.of_nat (length l))) b p l (p + length u).

Lemma reads_many_cons {A} fuel (m : M A) x l p p1 p2 :
  reads m b p x p1 -> reads (read_many fuel m (Z.of_nat (length l))) b p1 l p2 ->
  reads (read_many (S fuel) m (Z.of_nat (length (x :: l)))) b p (x :: l) p2.
Proof.
  intros Hx Hl. cbn [read_many length]. destruct (Z.leb_spec (Z.of_nat (S (length l))) 0); [lia|].
  eapply reads_bind; [done|]. replace (Z.of_nat (S (length l)) - 1) with (Z.of_nat (length l)) by lia.
  eapply reads_bind; [done|]. apply reads_ret.
Qed.

Lemma text_pos d v t : resp d v t -> (0 < length t)%nat.
Proof. intros H. apply resp_ne in H. destruct t; [done | cbn; lia]. Qed.

Lemma reader_rec d : (S d <= MAX_NESTING_DEPTH)%nat -> read_value_with_depth (S d) (MAX_NESTING_DEPTH - S d + 1) = reader d.
Proof. intros H. unfold reader. f_equal. lia. Qed.

Lemma decide_depth {A} d (x y : A) :
  (S d <= MAX_NESTING_DEPTH)%nat -> (if decide (MAX_NESTING_DEPTH <= MAX_NESTING_DEPTH - S d)%nat then x else y) = y.
Proof. intros H. destruct (decide _); [lia | done]. Qed.

Lemma text_header d v t ty :
  (forall p rec depth, has b (S p) (t ++ crlf) -> (S p + length t + 2 <= length b)%nat ->
     reads (read_arm rec depth ty) b (S p) v (S p + length t + 2)) ->
  reads_text d v (header (type_byte ty) t).
Proof.
  intros H p Hd Hp Hh. assert (Hl := has_length _ _ _ Hp Hh). rewrite header_end in Hl |- *.
  apply has_header_inv in Hh as [Hc Ht]. apply (reads_arm _ _ _ ty); [done|]. by apply H.
Qed.

Lemma text_blob d v t s ty :
  (forall p rec depth, has b (S p) (t ++ crlf) -> has b (S p + length t + 2) (s ++ crlf) ->
     (S p + length t + 2 + length s + 2 <= length b)%nat ->
     reads (read_arm rec depth ty) b (S p) v (S p + length t + 2 + length s + 2)) ->
  reads_text d v (blob (type_byte ty) t s).
Proof.
  intros H p Hd Hp Hh. rewrite blob_app in *. assert (Hl := has_length _ _ _ Hp Hh). rewrite header_app_end, length_app in Hl |- *.
  cbn [length crlf] in Hl |- *. rewrite Nat.add_assoc in Hl |- *.
  apply has_header_app_inv in Hh as (Hc & Ht & Hs). apply (reads_arm _ _ _ ty); [done|]. by apply H.
Qed.

Lemma text_nested d v t u ty :
  (forall p, (S d <= MAX_NESTING_DEPTH)%nat -> has b (S p) (t ++ crlf) -> has b (S p + length t + 2) u ->
     (S p + length t + 2 + length u <= length b)%nat ->
     reads (read_arm (reader d) (MAX_NESTING_DEPTH - S d) ty) b (S p) v (S p + length t + 2 + length u)) ->
  reads_text (S d) v (header (type_byte ty) t ++ u).
Proof.
  intros H p Hd Hp Hh. assert (Hl := has_length _ _ _ Hp Hh). rewrite header_app_end in Hl |- *.
  apply has_header_app_inv in Hh as (Hc & Ht & Hs). apply (reads_arm _ _ _ ty); [done|]. rewrite reader_rec by done. by apply H.
Qed.

Lemma reads_scalar d v t ty :
  match ty with
  | TSimpleString => line t /\ v = SimpleString t
  | TError => line t /\ v = Error t
  | TInteger => exists n, int_text n t /\ v = Integer n
  | TBulkString => exists n, int_text n t /\ n < 0 /\ v = BulkString None
  | TNull => line t /\ v = Null
  | TDouble => exists x, line t /\ double_value t = Some x /\ v = Double x
  | TBoolean => exists w, t = bool_text w /\ v = Boolean w
  | TBigNumber => line t /\ v = BigNumber t
  | _ => False
  end -> reads_text d v (header (type_byte ty) t).
Proof.
  intros H. apply text_header. intros p rec depth Ht Hp. destruct ty; try done; cbn [read_arm].
  - destruct H as [Hl ->]. eapply reads_bind; [apply reads_line; [done | done | lia]|]. apply reads_ret.
  - destruct H as [Hl ->]. eapply reads_bind; [apply reads_line; [done | done | lia]|]. apply reads_ret.
  - destruct H as (n & Hn & ->). eapply reads_bind; [apply reads_integer; [done | done | lia]|]. apply reads_ret.
  - destruct H as (n & Hn & H0 & ->). eapply reads_bind; [apply reads_integer; [done | done | lia]|].
    destruct (Z.ltb_spec n 0); [|lia]. apply reads_ret.
  - destruct H as [Hl ->]. eapply reads_bind; [apply reads_line; [done | done | lia]|]. apply reads_ret.
  - destruct H as (x & Hl & Hx & ->). eapply reads_bind; [apply reads_double; [done | done | done | lia]|]. apply reads_ret.
  - destruct H as (w & -> & ->). eapply reads_bind; [apply (reads_boolean _ _ w); [done | lia]|].
    replace (S p + 3)%nat with (S p + length (bool_text w) + 2)%nat by (destruct w; cbn; lia). apply reads_ret.
  - destruct H as [Hl ->]. eapply reads_bind; [apply reads_line; [done | done | lia]|]. apply reads_ret.
Qed.

Lemma reads_blobs d v t s ty :
  blob_length t s ->
  match ty with
  | TBulkString => v = BulkString (Some s)
  | TBlobError => v = BlobError s
  | TVerbatimString => exists f c, length f = 3%nat /\ s = f ++ #":" :: c /\ v = VerbatimString f c
  | _ => False
  end -> reads_text d v (blob (type_byte ty) t s).
Proof.
  intros [Hn Hm] H. apply text_blob. intros p rec depth Ht Hs Hp. destruct ty; try done; cbn [read_arm].
  - subst v. eapply reads_bind; [apply reads_integer; [done | done | lia]|]. destruct (Z.ltb_spec (Z.of_nat (length s)) 0); [lia|].
    destruct (Z.ltb_spec MAX_BULK_LEN (Z.of_nat (length s))); [lia|].
    eapply reads_bind; [apply reads_payload; [done | lia]|]. apply reads_ret.
  - subst v. eapply reads_bind; [apply reads_integer; [done | done | lia]|].
    replace ((0 <=? Z.of_nat (length s)) && (Z.of_nat (length s) <=? MAX_BULK_LEN)) with true by lia. cbn [negb].
    eapply reads_bind; [apply reads_payload; [done | lia]|]. apply reads_ret.
  - destruct H as (f & c & Hf & Hsf & ->). eapply (reads_bind _ _ _ _ (f, c)); [|apply reads_ret].
    eapply reads_bind; [apply reads_integer; [done | done | lia]|].
    replace ((0 <=? Z.of_nat (length s)) && (Z.of_nat (length s) <=? MAX_BULK_LEN)) with true by lia. cbn [negb].
    eapply reads_bind; [apply reads_payload; [done | lia]|]. rewrite Hsf.
    destruct f as [|x [|y [|z [|]]]]; try done. apply reads_ret.
Qed.

Lemma reads_rec_list {B} d l u p n (k : list RESPValue -> M B) v p' size len :
  reads_list d l u -> (d <= MAX_NESTING_DEPTH)%nat -> (p <= length b)%nat -> has b p u -> n = Z.of_nat (length l) ->
  reads (k l) b (p + length u) v p' ->
  reads (take_prealloc_budget len size;~ fuel <~ list_fuel; l <~ read_many fuel (reader d) n; k l) b p v p'.
Proof.
  intros Hl Hd Hp Hu -> Hk. eapply reads_ext; [apply bind_many|]. eapply reads_bind; [|done].
  apply reads_many. intros fuel Hf. by apply Hl.
Qed.

Lemma reads_rec_pairs {B} d l u p n (k : list (RESPValue * RESPValue) -> M B) v p' size len :
  reads_pairs d l u -> (d <= MAX_NESTING_DEPTH)%nat -> (p <= length b)%nat -> has b p u -> n = Z.of_nat (length l) ->
  reads (k l) b (p + length u) v p' ->
  reads (take_prealloc_budget len size;~ fuel <~ list_fuel;
         l <~ read_many fuel (key <~ reader d; value <~ reader d; ret (key, value)) n; k l) b p v p'.
Proof.
  intros Hl Hd Hp Hu -> Hk. eapply reads_ext; [apply bind_many|]. eapply reads_bind; [|done].
  apply reads_many. intros fuel Hf. by apply Hl.
Qed.

(** The header of an aggregate of [n] elements. *)
Ltac nested_arm Hd Ht :=
  cbn [read_arm]; rewrite ?decide_depth by done;
  eapply reads_bind; [apply reads_integer; [done | done | lia]|].

Lemma reads_array d t l u ty (K : list RESPValue -> RESPValue) :
  match ty with TArray => K = Array | TSet => K = RSet | _ => False end ->
  int_text (Z.of_nat (length l)) t -> reads_list d l u -> reads_text (S d) (K l) (header (type_byte ty) t ++ u).
Proof.
  intros HK Hn Hl. apply text_nested. intros p Hd Ht Hu Hp. destruct ty; try done; subst K; nested_arm Hd Ht.
  all: destruct (Z.ltb_spec (Z.of_nat (length l)) 0); [lia|].
  all: eapply reads_rec_list; [done | lia | lia | done | done | apply reads_ret].
Qed.

Lemma reads_map d t l u :
  int_text (Z.of_nat (length l)) t -> reads_pairs d l u -> reads_text (S d) (Map l) (header #"%" t ++ u).
Proof.
  intros Hn Hl. apply (text_nested _ _ _ _ TMap). intros p Hd Ht Hu Hp. nested_arm Hd Ht.
  destruct (Z.ltb_spec (Z.of_nat (length l)) 0); [lia|].
  eapply reads_rec_pairs; [done | lia | lia | done | done | apply reads_ret].
Qed.

Lemma reads_attribute d t l u v w :
  int_text (Z.of_nat (length l)) t -> reads_pairs d l u -> reads_text d v w ->
  reads_text (S d) (Attribute l v) (header #"|" t ++ u ++ w).
Proof.
  intros Hn Hl Hv. apply (text_nested _ _ _ _ TAttribute). intros p Hd Ht Hu Hp. rewrite length_app in *. apply has_app in Hu as [Hu Hw].
  nested_arm Hd Ht. destruct (Z.ltb_spec (Z.of_nat (length l)) 0); [lia|].
  eapply reads_rec_pairs; [done | lia | lia | done | done |].
  eapply reads_bind; [apply Hv; [lia | lia | done]|]. rewrite <- Nat.add_assoc. apply reads_ret.
Qed.

Lemma reads_push d t k v w l u :
  int_text (Z.of_nat (S (length l))) t -> reads_text d v w -> kind_of v = Some k -> reads_list d l u ->
  reads_text (S d) (Push k l) (header #">" t ++ w ++ u).
Proof.
  intros Hn Hv Hk Hl. apply (text_nested _ _ _ _ TPush). intros p Hd Ht Hu Hp. rewrite length_app in *. apply has_app in Hu as [Hw Hu].
  nested_arm Hd Ht. destruct (Z.leb_spec (Z.of_nat (S (length l))) 0); [lia|].
  eapply reads_bind; [apply Hv; [lia | lia | done]|].
  apply (reads_bind _ _ _ _ k (S p + length t + 2 + length w)).
  { destruct v as [| | |[]| | | | | | | | | | |]; try done; injection Hk as <-; apply reads_ret. }
  eapply reads_rec_list; [done | lia | lia | done | lia |]. rewrite <- Nat.add_assoc. apply reads_ret.
Qed.

Lemma reads_texts :
  (forall d v t, resp d v t -> reads_text d v t) /\
  (forall d l u, resp_list d l u -> reads_list d l u) /\
  (forall d l u, resp_pairs d l u -> reads_pairs d l u).
Proof.
  apply resp_mutind.
  - intros d s Hs. by apply (reads_scalar _ _ _ TSimpleString).
  - intros d s Hs. by apply (reads_scalar _ _ _ TError).
  - intros d n t Hn. apply (reads_scalar _ _ _ TInteger). by exists n.
  - intros d n t Hn H0. apply (reads_scalar _ _ _ TBulkString). by exists n.
  - intros d t s Hs. by apply (reads_blobs _ _ _ _ TBulkString).
  - intros d n t Hn H0. rewrite <- (app_nil_r (header _ _)). apply (text_nested _ _ _ _ TArray). intros p Hd Ht Hu Hp.
    cbn [length] in *. nested_arm Hd Ht. destruct (Z.ltb_spec n 0); [|lia]. rewrite Nat.add_0_r. apply reads_ret.
  - intros d t l u Hn _ Hl. by apply (reads_array _ _ _ _ TArray).
  - intros d t Hs. by apply (reads_scalar _ _ _ TNull).
  - intros d x t Hs Hx. apply (reads_scalar _ _ _ TDouble). by exists x.
  - intros d v. apply (reads_scalar _ _ _ TBoolean). by exists v.
  - intros d t s Hs. by apply (reads_blobs _ _ _ _ TBlobError).
  - intros d t f s Hf Hs. apply (reads_blobs _ _ _ _ TVerbatimString); [done|]. by exists f, s.
  - intros d t l u Hn _ Hl. by apply reads_map.
  - intros d t l u Hn _ Hl. by apply (reads_array _ _ _ _ TSet).
  - intros d t l u v w Hn _ Hl _ Hv. by apply reads_attribute.
  - intros d t k v w l u Hn _ Hv Hk _ Hl. by eapply reads_push.
  - intros d s Hs. by apply (reads_scalar _ _ _ TBigNumber).
  - intros d p fuel _ _ _ Hf. destruct fuel; [lia|]. cbn. rewrite Nat.add_0_r. apply reads_ret.
  - intros d v t l u Hv Hv' Hl Hl' p fuel Hd Hp Hu Hf. apply has_app in Hu as [Ht Hu]. apply text_pos in Hv.
    assert (Hlt := has_length _ _ _ Hp Ht). destruct fuel as [|fuel]; [lia|]. rewrite length_app, Nat.add_assoc.
    eapply reads_many_cons; [by apply Hv'|]. apply Hl'; [done | lia | done | lia].
  - intros d p fuel _ _ _ Hf. destruct fuel; [lia|]. cbn. rewrite Nat.add_0_r. apply reads_ret.
  - intros d k s v t l u Hk Hk' Hv Hv' Hl Hl' p fuel Hd Hp Hu Hf. apply has_app in Hu as [Hs Hu]. apply has_app in Hu as [Ht Hu].
    apply text_pos in Hk. apply text_pos in Hv.
    assert (Hls := has_length _ _ _ Hp Hs). assert (Hlt := has_length _ _ _ Hls Ht).
    destruct fuel as [|fuel]; [lia|]. rewrite !length_app, !Nat.add_assoc. eapply reads_many_cons.
    + eapply reads_bind; [by apply Hk'|]. eapply reads_bind; [by apply Hv'|]. apply reads_ret.
    + apply Hl'; [done | lia | done | lia].
Qed.

Lemma read_value_complete p v t : (p <= length b)%nat -> has b p t -> resp MAX_NESTING_DEPTH v t -> reads read_value b p v (p + length t).
Proof.
  intros Hp Ht Hv. apply read_value_reads. rewrite Nat.add_1_r, <- (Nat.sub_diag MAX_NESTING_DEPTH). by apply (proj1 reads_texts).
Qed.

(** [read_value] on a text decodes it or errs; it reads exactly the grammar. *)
Lemma read_value_iff p v p' :
  (p <= length b)%nat -> reads read_value b p v p' <-> exists t, resp MAX_NESTING_DEPTH v t /\ has b p t /\ p' = (p + length t)%nat.
Proof.
  intros Hp. split; [|intros (t & Hv & Ht & ->); by apply read_value_complete].
  intros Hr. destruct (read_value_ends p Hp) as [(v2 & p2 & Hp2 & Hr2 & t & Hv & Ht & Hpt)|(e & Hf & _)].
  - destruct (reads_fun _ _ _ _ _ _ _ Hr Hr2) as [<- <-]. rewrite Nat.sub_0_r in Hv. by exists t.
  - by apply (reads_fails _ _ _ _ _ _ Hr) in Hf.
Qed.

End Reader.
