(* ===== verification/ValkeyScan.v ===== *)
(** The scanner of replies: it finds the end of exactly the replies the reader
    reads, whatever the pieces in which their bytes arrive. *)
From S2P Require Import Prelude BunCore Valkey ValkeyGrammar.

Section Scanner.
Context {T : Target} (b : bytes).

(** * One element *)

(** What [scan_one] finds at [p] when it succeeds: the type, the text of its
    header, the number of children and the end. *)
Inductive shape (depth p : nat) : RESPType -> bytes -> option Z -> nat -> Prop :=
| shape_line ty t :
  match ty with TSimpleString | TError | TInteger | TNull | TDouble | TBoolean | TBigNumber => True | _ => False end ->
  line t -> has b p (header (type_byte ty) t) -> shape depth p ty t None (S p + length t + 2)
| shape_nil t n : int_text n t -> n < 0 -> has b p (header #"$" t) -> shape depth p TBulkString t None (S p + length t + 2)
| shape_blob ty t s :
  match ty with TBulkString | TBlobError | TVerbatimString => True | _ => False end ->
  blob_length t s -> has b p (blob (type_byte ty) t s) -> shape depth p ty t None (S p + length t + 2 + length s + 2)
| shape_nested ty t n c :
  (depth < MAX_NESTING_DEPTH)%nat -> int_text n t -> has b p (header (type_byte ty) t) ->
  match ty with
  | TArray => c = Z.max 0 n
  | TSet => 0 <= n /\ c = n
  | TPush => 0 < n /\ c = n
  | TMap => 0 <= n /\ c = 2 * n
  | TAttribute => 0 <= n /\ c = 2 * n + 1
  | _ => False
  end -> shape depth p ty t (Some c) (S p + length t + 2).

Lemma int_text_range n t : int_text n t -> I64_MIN <= n <= I64_MAX.
Proof.
  intros [_ H]. unfold parse_int in H. destruct t as [|c r]; [done|].
  destruct (if c =? #"+" then _ else _) as [neg rest]. destruct (auto_radix rest 10) as [digits radix] eqn:Er.
  destruct (parse_with_sign digits radix) as [acc|] eqn:Ep; [|done]. cbn in H.
  assert (Hr := auto_radix_ge rest 10 ltac:(lia) ltac:(lia)). rewrite Er in Hr.
  apply parse_with_sign_range in Ep; [|done]. unfold I64_MIN, I64_MAX in *.
  destruct neg; [destruct (2 ^ 127 <? acc); [done|]; destruct (Z.leb_spec (- 2 ^ 63) (- acc)) |
                 destruct (Z.leb_spec acc (2 ^ 63 - 1))]; try done; injection H as <-; lia.
Qed.

Definition shaped (depth p : nat) (c : option Z) (p' : nat) : Prop := exists ty t, shape depth p ty t c p'.

Lemma reads_scan_byte depth p ty c p' :
  has b p [type_byte ty] -> reads (scan_arm depth ty) b (S p) c p' -> reads (scan_one depth) b p c p'.
Proof. intros Hc Hr. eapply reads_bind; [by apply reads_byte|]. by rewrite from_type_byte. Qed.

(** The check of a payload. *)
Definition scan_payload (len : Z) (invalid : RedisError) : M (option Z) :=
  let len := Z.to_nat len in
  r <~ get;
  if decide (length (buffer r) - pos r < len + 2)%nat then throw InvalidResponse
  else
    c <~ lift (buffer r !! (pos r + len)%nat);
    d <~ lift (buffer r !! (pos r + len + 1)%nat);
    if negb (c =? 13) || negb (d =? 10) then throw invalid
    else set_pos (pos r + (len + 2));~ ret None.

Lemma reads_set_pos p q {A} (a : A) : reads (set_pos q;~ ret a) b p a q.
Proof. intros k. by exists k. Qed.

Lemma ends_scan_payload p len invalid :
  (p <= length b)%nat -> 0 <= len ->
  ends (scan_payload len invalid) b p
    (fun c p' => c = None /\ exists s, Z.of_nat (length s) = len /\ has b p (s ++ crlf) /\ p' = (p + length s + 2)%nat) any_error.
Proof.
  intros Hp H0. eapply ends_get; [intros k; cbn; reflexivity|].
  destruct (decide _) as [Hd|Hd]; [by apply ends_throw|].
  destruct (lookup_lt_is_Some_2 b (p + Z.to_nat len) ltac:(lia)) as [c Hc].
  destruct (lookup_lt_is_Some_2 b (p + Z.to_nat len + 1) ltac:(lia)) as [d Hd']. rewrite Hc, Hd'.
  unfold lift. change (ends (if negb (c =? 13) || negb (d =? 10) then throw invalid
    else set_pos (p + (Z.to_nat len + 2));~ ret None) b p
    (fun (c : option Z) p' => c = None /\ exists s, Z.of_nat (length s) = len /\ has b p (s ++ crlf) /\ p' = (p + length s + 2)%nat) any_error).
  destruct (Z.eqb_spec c 13) as [->|]; [|by apply ends_throw].
  destruct (Z.eqb_spec d 10) as [->|]; [|by apply ends_throw]. cbn [negb orb].
  assert (Hl : length (take (Z.to_nat len) (drop p b)) = Z.to_nat len) by (rewrite length_take, length_drop; lia).
  left. exists None, (p + (Z.to_nat len + 2))%nat. split; [lia|]. split; [apply reads_set_pos|].
  split; [done|]. exists (take (Z.to_nat len) (drop p b)). split; [lia|]. split; [|lia].
  apply has_app. split; [apply prefix_take|]. rewrite Hl. apply has_cons. split; [done|].
  apply has_cons. split; [by rewrite <- Nat.add_1_r | apply prefix_nil].
Qed.

Lemma reads_scan_payload p s invalid :
  has b p (s ++ crlf) -> (p <= length b)%nat -> reads (scan_payload (Z.of_nat (length s)) invalid) b p None (p + length s + 2).
Proof.
  intros Ht Hp. assert (Hl := has_length _ _ _ Hp Ht). rewrite length_app in Hl. cbn in Hl.
  apply has_app in Ht as [_ Hc]. apply has_cons in Hc as [Hc Hd]. apply has_cons in Hd as [Hd _].
  eapply reads_get; [intros k; cbn; reflexivity|]. rewrite Nat2Z.id. destruct (decide _); [lia|].
  rewrite Nat.add_1_r, Hc, Hd. rewrite <- Nat.add_assoc. intros k. by exists k.
Qed.

Lemma scan_one_ends depth p : (p <= length b)%nat -> ends (scan_one depth) b p (shaped depth p) any_error.
Proof.
  intros Hp. pose proof any_lines as Hq. eapply ends_bind; [by apply ends_byte|]. intros c p1 Hp1 [Hc ->].
  destruct (from_byte c) as [ty|] eqn:E; [|by apply ends_throw]. apply from_byte_inv in E as ->.
  destruct ty eqn:Ety; cbn [scan_arm]; rewrite <- Ety in Hc.
  1-3, 6-8, 15: eapply ends_bind; [apply ends_line; [done | done | lia]|]; intros t p1 Hp1' (Hl & Ht & ->);
    apply ends_ret; [lia|]; exists ty, t; apply shape_line; [by rewrite Ety | done | by apply has_header].
  all: try (destruct (decide _) as [|Hd%Nat.nle_gt]; [by apply ends_throw|]).
  all: eapply ends_bind; [apply ends_integer; [done | done | lia]|]; intros n p1 Hp1' (t & Hn & Ht & ->).
  1, 3, 4: destruct (Z.ltb_spec n 0) as [H0|H0]; cbn [orb]; try (by apply ends_throw).
  1: { apply ends_ret; [lia|]. subst ty. exists TBulkString, t. apply (shape_nil _ _ _ n); [done | done | by apply has_header]. }
  1-3: destruct (Z.ltb_spec MAX_BULK_LEN n); [by apply ends_throw|];
    eapply ends_impl; [apply (ends_scan_payload _ n); lia | | done]; intros c p2 Hp2 (-> & s & Hs & Hx & ->);
    exists ty, t; apply shape_blob; [by rewrite Ety | split; [by rewrite Hs | lia] | by apply has_header_app].
  all: assert (Hr := int_text_range _ _ Hn); unfold I64_MIN, I64_MAX in Hr.
  1: destruct (Z.ltb_spec n 0).
  3, 4, 5: destruct (Z.ltb_spec n 0); [by apply ends_throw|].
  6: destruct (Z.leb_spec n 0); [by apply ends_throw|].
  all: apply ends_ret; [lia|]; exists ty, t; apply (shape_nested _ _ _ _ n); [done | done | by apply has_header | rewrite Ety; cbn].
  all: unfold saturating64, U64_MAX; lia.
Qed.

Lemma reads_shape depth p ty t c p' : (p <= length b)%nat -> shape depth p ty t c p' -> reads (scan_one depth) b p c p'.
Proof.
  intros Hp H.
  assert (Hh : forall ty t, has b p (header (type_byte ty) t) ->
    has b p [type_byte ty] /\ has b (S p) (t ++ crlf) /\ (S p + length t + 2 <= length b)%nat).
  { intros ty' t' Hh. assert (Hl := has_length _ _ _ Hp Hh). rewrite header_end in Hl. apply has_header_inv in Hh as [Hc Ht]. done. }
  destruct H as [ty t Hty Hl Hd | t n Hn H0 Hd | ty t s Hty [Hn Hm] Hd | ty t n c Hdepth Hn Hd Hc].
  - apply Hh in Hd as (Hb & Ht & Hle). apply (reads_scan_byte _ _ ty); [done|].
    destruct ty; try done; (eapply reads_bind; [apply reads_line; [done | done | lia]|]; apply reads_ret).
  - apply (Hh TBulkString) in Hd as (Hb & Ht & Hle). apply (reads_scan_byte _ _ TBulkString); [done|].
    eapply reads_bind; [apply reads_integer; [done | done | lia]|]. destruct (Z.ltb_spec n 0); [apply reads_ret | lia].
  - rewrite blob_app in Hd. assert (Hl := has_length _ _ _ Hp Hd). rewrite header_app_end in Hl.
    apply has_header_app_inv in Hd as (Hb & Ht & Hs). apply (reads_scan_byte _ _ ty); [done|].
    destruct ty; try done; (eapply reads_bind; [apply reads_integer; [done | done | lia]|];
      destruct (Z.ltb_spec (Z.of_nat (length s)) 0); [lia|]; destruct (Z.ltb_spec MAX_BULK_LEN (Z.of_nat (length s))); [lia|];
      apply reads_scan_payload; [done | lia]).
  - apply Hh in Hd as (Hb & Ht & Hle). assert (Hr := int_text_range _ _ Hn). unfold I64_MIN, I64_MAX in Hr.
    apply (reads_scan_byte _ _ ty); [done|].
    destruct ty; try done; cbn [scan_arm]; (destruct (decide _) as [|_]; [lia|]);
      (eapply reads_bind; [apply reads_integer; [done | done | lia]|]).
    + subst c. destruct (Z.ltb_spec n 0); [replace (Z.max 0 n) with 0 by lia | replace (Z.max 0 n) with n by lia]; apply reads_ret.
    + destruct (Z.ltb_spec n 0); [lia|]. destruct Hc as [_ ->].
      replace (saturating64 (n * 2)) with (2 * n) by (unfold saturating64, U64_MAX; lia). apply reads_ret.
    + destruct (Z.ltb_spec n 0); [lia|]. destruct Hc as [_ ->]. apply reads_ret.
    + destruct (Z.ltb_spec n 0); [lia|]. destruct Hc as [_ ->].
      replace (saturating64 (saturating64 (n * 2) + 1)) with (2 * n + 1) by (unfold saturating64, U64_MAX; lia). apply reads_ret.
    + destruct (Z.leb_spec n 0); [lia|]. destruct Hc as [_ ->]. apply reads_ret.
Qed.

(** * Rounds *)

Definition at_pos (p : nat) (st : list Z) : ReplyScanner := {| scan_pos := p; stack := st; scan_skip := 0 |}.

(** The rest of the scan after a value that leaves the stack [st]. *)
Definition rest (fuel p : nat) (st : list Z) : option (ReplyScanner * Result ScanResult RedisError) :=
  match st with
  | [] => Some (at_pos p [], Ok Complete)
  | _ => scan fuel (at_pos p st) b
  end.

Lemma rd_0 p : {| buffer := b; pos := p; prealloc_budget := 0; crlf_skip := 0 |} = rd b p 0.
Proof. done. Qed.

Lemma scan_S fuel p st c p' :
  reads (scan_one (length st)) b p c p' ->
  scan (S fuel) (at_pos p st) b =
  match c with Some n => if 0 <? n then scan fuel (at_pos p' (n :: st)) b else rest fuel p' (unwind st) | None => rest fuel p' (unwind st) end.
Proof.
  intros H. destruct (H 0%nat) as [k' E]. cbn [scan at_pos scan_pos stack scan_skip]. rewrite rd_0, E. cbn [rd pos].
  unfold rest, at_pos. destruct c as [n|]; [destruct (0 <? n)|]; destruct (unwind st); done.
Qed.

(** From [p] with the stack [st], the scanner comes to [p'] with [st'] after a value. *)
Definition goes (p : nat) (st : list Z) (p' : nat) (st' : list Z) : Prop :=
  exists n, forall fuel, scan (S n + fuel) (at_pos p st) b = rest fuel p' st'.

Lemma goes_value p st c p' : reads (scan_one (length st)) b p c p' -> (forall n, c = Some n -> n <= 0) -> goes p st p' (unwind st).
Proof.
  intros Hr Hc. exists 0%nat. intros fuel. rewrite Nat.add_succ_l, (scan_S _ _ _ _ _ Hr). cbn [Nat.add].
  destruct c as [n|]; [|done]. specialize (Hc n eq_refl). destruct (Z.ltb_spec 0 n); [lia | done].
Qed.

Lemma goes_trans p st p1 r st1 p2 st2 : goes p st p1 (r :: st1) -> goes p1 (r :: st1) p2 st2 -> goes p st p2 st2.
Proof.
  intros [n Hn] [m Hm]. exists (n + S m)%nat. intros fuel.
  replace (S (n + S m) + fuel)%nat with (S n + (S m + fuel))%nat by lia. rewrite Hn. apply Hm.
Qed.

Lemma goes_children p st n p1 p2 st2 :
  reads (scan_one (length st)) b p (Some n) p1 -> 0 < n -> goes p1 (n :: st) p2 st2 -> goes p st p2 st2.
Proof.
  intros Hr H0 [m Hm]. exists (S m). intros fuel.
  replace (S (S m) + fuel)%nat with (S (S m + fuel)) by lia. rewrite (scan_S _ _ _ _ _ Hr).
  destruct (Z.ltb_spec 0 n); [apply Hm | lia].
Qed.

Lemma unwind_more r st : 1 < r -> unwind (r :: st) = (r - 1) :: st.
Proof. intros H. cbn. by destruct (Z.ltb_spec 0 (r - 1)); [|lia]. Qed.

(** * The scanner on the texts of the grammar *)

Definition depth_of (d : nat) (st : list Z) : Prop := (length st + d = MAX_NESTING_DEPTH)%nat.

Definition scans_text (d : nat) (v : RESPValue) (t : bytes) : Prop :=
  forall p st, depth_of d st -> (p <= length b)%nat -> has b p t -> goes p st (p + length t) (unwind st).

(** [k] values of the [r] left in the innermost aggregate. *)
Definition scans_values (d k : nat) (u : bytes) : Prop :=
  forall p r st, depth_of d (r :: st) -> (p <= length b)%nat -> has b p u -> (0 < k)%nat -> Z.of_nat k <= r ->
  goes p (r :: st) (p + length u) (unwind (r - Z.of_nat k + 1 :: st)).

Lemma scans_line d ty t v :
  match ty with TSimpleString | TError | TInteger | TNull | TDouble | TBoolean | TBigNumber => True | _ => False end ->
  line t -> scans_text d v (header (type_byte ty) t).
Proof.
  intros Hty Hl p st Hd Hp Hh. rewrite header_end. apply goes_value with (c := None); [|done].
  eapply reads_shape; [done|]. by apply (shape_line _ _ ty).
Qed.

Lemma scans_blob d ty t s v :
  match ty with TBulkString | TBlobError | TVerbatimString => True | _ => False end ->
  blob_length t s -> scans_text d v (blob (type_byte ty) t s).
Proof.
  intros Hty Hl p st Hd Hp Hh.
  replace (p + length (blob (type_byte ty) t s))%nat with (S p + length t + 2 + length s + 2)%nat
    by (rewrite blob_app, header_app_end, length_app; cbn; lia).
  apply goes_value with (c := None); [|done]. eapply reads_shape; [done|]. by apply (shape_blob _ _ ty).
Qed.

Lemma scans_one d v t : scans_text d v t -> scans_values d 1 t.
Proof. intros Hv p r st Hd Hp Ht _ Hr. replace (r - Z.of_nat 1 + 1) with r by lia. by apply Hv. Qed.

Lemma scans_app d j u k w :
  scans_values d j u -> (j = 0%nat -> u = []) -> scans_values d k w -> (k = 0%nat -> w = []) -> scans_values d (j + k) (u ++ w).
Proof.
  intros Hj H0 Hk H0' p r st Hd Hp Hh Hjk Hr. apply has_app in Hh as [Hu Hw]. assert (Hpu := has_length _ _ _ Hp Hu).
  rewrite length_app, Nat.add_assoc. destruct j as [|j].
  { rewrite H0, Nat.add_0_r in * by done. by apply Hk. }
  specialize (Hj p r st Hd Hp Hu ltac:(lia) ltac:(lia)). destruct k as [|k].
  { rewrite H0', !Nat.add_0_r by done. done. }
  rewrite unwind_more in Hj by lia. apply (goes_trans _ _ _ _ _ _ _ Hj).
  replace (r - Z.of_nat (S j + S k) + 1) with (r - Z.of_nat (S j) + 1 - 1 - Z.of_nat (S k) + 1) by lia.
  apply Hk; [done | done | done | lia | lia].
Qed.

Lemma scans_cons d v t k u : scans_text d v t -> scans_values d k u -> (k = 0%nat -> u = []) -> scans_values d (S k) (t ++ u).
Proof. intros Hv Hl Hk. apply (scans_app d 1 t k); [by eapply scans_one | done | done | done]. Qed.

(** An aggregate: a header that announces [k] values, then the values. *)
Lemma scans_nested d ty t n k u v :
  int_text n t -> scans_values d k u -> (k = 0%nat -> u = []) ->
  match ty with
  | TArray => Z.of_nat k = Z.max 0 n
  | TSet => Z.of_nat k = n
  | TPush => 0 < n /\ Z.of_nat k = n
  | TMap => 0 <= n /\ Z.of_nat k = 2 * n
  | TAttribute => 0 <= n /\ Z.of_nat k = 2 * n + 1
  | _ => False
  end -> scans_text (S d) v (header (type_byte ty) t ++ u).
Proof.
  intros Hn Hl Hk Hty p st Hd Hp Hh. rewrite header_app_end. assert (Hle := has_length _ _ _ Hp Hh). rewrite header_app_end in Hle.
  apply has_app in Hh as [Hh Hu]. rewrite header_end in Hu. unfold depth_of in Hd.
  assert (Hs : shape (length st) p ty t (Some (Z.of_nat k)) (S p + length t + 2)).
  { apply (shape_nested _ _ _ _ n); [lia | done | done | destruct ty; try done; lia]. }
  apply reads_shape in Hs; [|done]. destruct k as [|k].
  - rewrite Hk by done. cbn [length]. rewrite Nat.add_0_r. eapply goes_value; [done|]. intros m [= <-]. lia.
  - apply (goes_children _ _ _ _ _ _ Hs); [lia|].
    assert (Hg := Hl (S p + length t + 2)%nat (Z.of_nat (S k)) st).
    replace (Z.of_nat (S k) - Z.of_nat (S k) + 1) with 1 in Hg by lia.
    apply Hg; [unfold depth_of; cbn [length]; lia | lia | done | lia | lia].
Qed.

Lemma scans_texts :
  (forall d v t, resp d v t -> scans_text d v t) /\
  (forall d l u, resp_list d l u -> scans_values d (length l) u /\ (l = [] -> u = [])) /\
  (forall d l u, resp_pairs d l u -> scans_values d (2 * length l) u /\ (l = [] -> u = [])).
Proof.
  assert (H0 : forall d, scans_values d 0 []) by (intros d p r st _ _ _ Hk; lia).
  apply resp_mutind.
  - intros. by apply (scans_line _ TSimpleString).
  - intros. by apply (scans_line _ TError).
  - intros d n t [Hl _]. by apply (scans_line _ TInteger).
  - intros d n t Hn Hneg p st Hd Hp Hh. rewrite header_end. apply goes_value with (c := None); [|done].
    eapply reads_shape; [done|]. by apply (shape_nil _ _ _ n).
  - intros. by apply (scans_blob _ TBulkString).
  - intros d n t Hn Hneg. rewrite <- (app_nil_r (header _ _)). apply (scans_nested _ TArray t n 0); [done | apply H0 | done | lia].
  - intros d t l u Hn _ [Hl Hu]. eapply (scans_nested _ TArray); [done | done | by destruct l; auto | cbn [length]; lia].
  - intros. by apply (scans_line _ TNull).
  - intros. by apply (scans_line _ TDouble).
  - intros. apply (scans_line _ TBoolean); [done | apply line_bool].
  - intros. by apply (scans_blob _ TBlobError).
  - intros. by apply (scans_blob _ TVerbatimString).
  - intros d t l u Hn _ [Hl Hu]. eapply (scans_nested _ TMap); [done | done | by destruct l; auto | cbn [length]; lia].
  - intros d t l u Hn _ [Hl Hu]. eapply (scans_nested _ TSet); [done | done | by destruct l; auto | cbn [length]; lia].
  - intros d t l u v w Hn _ [Hl Hu] _ Hv. eapply (scans_nested _ TAttribute _ _ (2 * length l + 1)); [done | | lia | lia].
    apply scans_app; [done | by destruct l; auto | by eapply scans_one | done].
  - intros d t k v w l u Hn _ Hv Hk _ [Hl Hu]. eapply (scans_nested _ TPush _ _ (S (length l))); [done | | done | lia].
    apply (scans_cons _ v); [done | done | by destruct l; auto].
  - intros. by apply (scans_line _ TBigNumber).
  - done.
  - intros d v t l u _ Hv _ [Hl Hu]. split; [|done]. apply (scans_cons _ v); [done | done | by destruct l; auto].
  - done.
  - intros d k s v t l u _ Hk _ Hv _ [Hl Hu]. split; [|done].
    replace (2 * length ((k, v) :: l))%nat with (S (S (2 * length l))) by (cbn; lia).
    apply (scans_cons _ k); [done | | done]. apply (scans_cons _ v); [done | done | by destruct l; auto].
Qed.
End Scanner.

(** * Fuel *)

Lemma scan_more n k s b r : scan n s b = Some r -> scan (n + k) s b = Some r.
Proof.
  revert s. induction n as [|n IH]; intros s; [done|]. cbn [scan Nat.add].
  destruct (scan_one _ _) as [[r' [[c|]|e]]|]; try done.
  - destruct (0 <? c); [apply IH|]. destruct (unwind (stack s)); [done | apply IH].
  - destruct (unwind (stack s)); [done | apply IH].
Qed.

Lemma scan_agree n m s b r r' : scan n s b = Some r -> scan m s b = Some r' -> r = r'.
Proof.
  intros H1 H2. apply (scan_more _ m) in H1. apply (scan_more _ n) in H2. rewrite Nat.add_comm in H2. congruence.
Qed.

Lemma shape_end b depth p ty t c p' : shape b depth p ty t c p' -> (p < p')%nat.
Proof. destruct 1; lia. Qed.

Lemma scan_fails fuel b p st e :
  fails (scan_one (length st)) b p e ->
  exists r, scan_one (length st) (rd b p 0) = Some (r, Err e) /\
  scan (S fuel) (at_pos p st) b =
  if decide (e = InvalidResponse) then
    Some ({| scan_pos := p; stack := st; scan_skip := if decide (pos r = p + 1)%nat then (length b - pos r - 1)%nat else 0%nat |}, Ok NeedMoreData)
  else Some (at_pos p st, Err e).
Proof.
  intros H. destruct (H 0%nat) as [r E]. exists r. split; [done|]. cbn [scan at_pos scan_pos stack scan_skip]. by rewrite rd_0, E.
Qed.

Lemma scan_total b fuel p st : (p <= length b)%nat -> (length b - p < fuel)%nat -> is_Some (scan fuel (at_pos p st) b).
Proof.
  revert p st. induction fuel as [|fuel IH]; intros p st Hp Hf; [lia|].
  destruct (scan_one_ends b (length st) p Hp) as [(c & p1 & Hp1 & Hr & ty & t & Hs)|(e & He & _)].
  - apply shape_end in Hs. rewrite (scan_S _ _ _ _ _ _ Hr).
    assert (Hu : is_Some (rest b fuel p1 (unwind st))) by (unfold rest; destruct (unwind st); [done | apply IH; lia]).
    destruct c as [n|]; [|done]. destruct (0 <? n); [apply IH; lia | done].
  - destruct (scan_fails fuel _ _ _ _ He) as (r & _ & ->). by destruct (decide _).
Qed.

(** * Positions already searched *)

(** No line ends in the [k] bytes after the type byte at [p]. *)
Definition searched (b : bytes) (p k : nat) : Prop := forall i, (i < k)%nat -> ~ crlf_at (drop (S p) b) i.

Lemma find_crlf_skip q n j : (j <= n)%nat -> (forall i, (i < j)%nat -> ~ crlf_at q i) -> find_crlf q (n - j) j = find_crlf q n 0.
Proof.
  intros Hj Hi. destruct (find_crlf q n 0) as [i|] eqn:E.
  - apply find_crlf_Some in E as (Hin & Hc & Hk). apply find_crlf_Some.
    destruct (decide (i < j)%nat) as [Hlt|]; [by apply Hi in Hlt|]. split; [lia|]. split; [done|]. intros k Hk'. apply Hk. lia.
  - rewrite find_crlf_None in E |- *. intros k Hk. apply E. lia.
Qed.

Lemma line_skip b p n k :
  (forall i, (i < k)%nat -> ~ crlf_at (drop p b) i) ->
  read_until_crlf {| buffer := b; pos := p; prealloc_budget := n; crlf_skip := k |} = read_until_crlf (rd b p n).
Proof.
  intros Hi. unfold read_until_crlf, bind, get, lift, slice_from, rd. cbn [pos buffer crlf_skip prealloc_budget].
  destruct (decide _); [|done]. unfold ret, set_crlf_skip. cbn [pos buffer crlf_skip prealloc_budget].
  set (limit := Z.to_nat _). rewrite Nat.min_0_l, Nat.sub_0_r. rewrite find_crlf_skip; [done | lia|].
  intros i Hk. apply Hi. lia.
Qed.

(** Skipping them changes nothing but the field itself. *)
Definition same_round (x y : option (ValkeyReader * Result (option Z) RedisError)) : Prop :=
  match x, y with
  | Some (r, Ok c), Some (r', Ok c') => r = r' /\ c = c'
  | Some (r, Err e), Some (r', Err e') => pos r = pos r' /\ e = e'
  | _, _ => x = y
  end.

Lemma same_round_refl x : same_round x x.
Proof. by destruct x as [[r [c|e]]|]. Qed.

Lemma bind_same {A} (m : M A) f r r' : m r = m r' -> same_round (bind m f r) (bind m f r').
Proof. intros E. unfold bind. rewrite E. apply same_round_refl. Qed.

Lemma scan_one_eq depth b p n k :
  scan_one depth {| buffer := b; pos := p; prealloc_budget := n; crlf_skip := k |} =
  match b !! p with
  | None => Some ({| buffer := b; pos := p; prealloc_budget := n; crlf_skip := k |}, Err InvalidResponse)
  | Some c =>
    let r := {| buffer := b; pos := S p; prealloc_budget := n; crlf_skip := k |} in
    match from_byte c with
    | None => Some (r, Err InvalidResponseType)
    | Some ty => scan_arm depth ty r
    end
  end.
Proof.
  unfold scan_one, read_byte, bind, get, set_pos, ret. cbn [buffer pos prealloc_budget crlf_skip].
  destruct (b !! p) as [c|]; [|done]. cbn [buffer pos prealloc_budget crlf_skip]. rewrite Nat.add_1_r. by destruct (from_byte c).
Qed.

Lemma scan_one_skip b depth p k :
  searched b p k ->
  same_round (scan_one depth {| buffer := b; pos := p; prealloc_budget := 0; crlf_skip := k |}) (scan_one depth (rd b p 0)).
Proof.
  intros Hk. unfold rd. rewrite !scan_one_eq. destruct (b !! p) as [c|]; [|done]. cbv zeta. destruct (from_byte c) as [ty|]; [|done].
  assert (Hl := line_skip b (S p) 0 k Hk). unfold rd in Hl.
  assert (Hi : read_integer {| buffer := b; pos := S p; prealloc_budget := 0; crlf_skip := k |} =
               read_integer {| buffer := b; pos := S p; prealloc_budget := 0; crlf_skip := 0 |})
    by (unfold read_integer, bind; by rewrite Hl).
  destruct ty; cbn [scan_arm]; try (destruct (decide _); [done|]); by apply bind_same.
Qed.

(** Nothing moves back, not even when it fails. *)
Definition grows {A} (m : M A) : Prop := forall r r' x, m r = Some (r', x) -> (pos r <= pos r')%nat.

Lemma grows_bind {A B} (m : M A) (f : A -> M B) : grows m -> (forall a, grows (f a)) -> grows (bind m f).
Proof.
  intros Hm Hf r r' x. unfold bind. destruct (m r) as [[r1 [a|e]]|] eqn:E; [| |done].
  - intros Ef. apply Hm in E. apply Hf in Ef. lia.
  - intros [= <- <-]. by apply Hm in E.
Qed.

Lemma grows_ret {A} (a : A) : grows (ret a).
Proof. by intros r r' x [= <- <-]. Qed.

Lemma grows_throw {A} e : grows (throw (A := A) e).
Proof. by intros r r' x [= <- <-]. Qed.

Lemma grows_line : grows read_until_crlf.
Proof.
  intros r r' x. unfold read_until_crlf, bind, get, lift, slice_from. destruct (decide _); [|done].
  unfold ret, set_crlf_skip, set_pos, throw. cbn [pos buffer crlf_skip prealloc_budget].
  destruct (find_crlf _ _ _); [intros [= <- <-]; cbn; lia|]. destruct (_ <? _); by intros [= <- <-].
Qed.

Lemma grows_scan_payload len e : grows (scan_payload len e).
Proof.
  intros r r' x. unfold scan_payload, bind, get, lift, set_pos, ret, throw. destruct (decide _); [by intros [= <- <-]|].
  destruct (_ !! (pos r + Z.to_nat len)%nat) as [c|]; [|done]. destruct (_ !! (pos r + Z.to_nat len + 1)%nat) as [d|]; [|done].
  destruct (negb (c =? 13) || negb (d =? 10)); intros [= <- <-]; [done | cbn; lia].
Qed.

#[local] Hint Resolve grows_ret grows_throw grows_scan_payload : core.

Lemma scan_arm_short b depth p ty r :
  (S p <= length b)%nat -> scan_arm depth ty (rd b (S p) 0) = Some (r, Err InvalidResponse) -> pos r = S p ->
  forall i, ~ crlf_at (drop (S p) b) i.
Proof.
  intros Hp H Hr.
  assert (Hl : forall (f : bytes -> M (option Z)), (forall a, grows (f a)) -> bind read_until_crlf f (rd b (S p) 0) = Some (r, Err InvalidResponse) ->
    forall i, ~ crlf_at (drop (S p) b) i).
  { intros f Hf. unfold bind. rewrite read_line_eq by done.
    destruct (find_crlf _ _ _) as [j|] eqn:E; [intros Ef; apply Hf in Ef; cbn in Ef; lia|].
    destruct (Z.ltb_spec (MAX_LINE_LEN + 1) (Z.of_nat (length (drop (S p) b)))) as [|Hlen]; [done|]. intros _ i Hi.
    assert (Hi' := lookup_lt_Some _ _ _ (proj1 Hi)). rewrite find_crlf_None in E. apply (E i); [|done].
    assert (Hs := limit_spec (length (drop (S p) b))). lia. }
  assert (Hg : forall (f : Z -> M (option Z)), (forall a, grows (f a)) -> bind read_integer f (rd b (S p) 0) = Some (r, Err InvalidResponse) ->
    forall i, ~ crlf_at (drop (S p) b) i).
  { intros f Hf Hb. apply (Hl (fun str => bind (match parse_int I64_MIN I64_MAX str 10 with Ok n => ret n | Err _ => throw InvalidInteger end) f)).
    - intros a. apply grows_bind; [destruct (parse_int _ _ _ _)|]; auto.
    - rewrite <- Hb. unfold read_integer, bind. by repeat case_match. }
  revert H. destruct ty; cbn [scan_arm]; try (destruct (decide _) as [_|_]; [by intros [= <-]|]).
  all: first [apply Hl; intros ?; apply grows_ret | apply Hg; intros n].
  all: repeat (destruct (_ <? _) || destruct (_ <=? _)); try apply grows_ret; try apply grows_throw; apply (grows_scan_payload n).
Qed.

Lemma scan_one_short b depth p r :
  (p <= length b)%nat -> scan_one depth (rd b p 0) = Some (r, Err InvalidResponse) -> pos r = (p + 1)%nat ->
  forall k, searched b p k.
Proof.
  intros Hp. unfold rd. rewrite scan_one_eq. destruct (b !! p) as [c|] eqn:Ec; [|intros [= <-]; cbn; lia].
  apply lookup_lt_Some in Ec. cbv zeta. destruct (from_byte c) as [ty|]; [|done]. rewrite Nat.add_1_r.
  intros H Hr k i _. by apply (scan_arm_short b depth p ty r).
Qed.

(** * More bytes *)

Lemma has_more b c p t : (p <= length b)%nat -> has b p t -> has (b ++ c) p t.
Proof. intros Hp [r Hr]. exists (r ++ c). rewrite drop_app_le by done. by rewrite Hr, <- app_assoc. Qed.

(** What is read of [b] is read of [b] followed by more bytes, and errors other
    than a short read stay. *)
Definition stable {A} (m : M A) (b c : bytes) (p : nat) : Prop :=
  (exists a p', (p <= p' <= length b)%nat /\ reads m b p a p' /\ reads m (b ++ c) p a p') \/
  (exists e, fails m b p e /\ (e <> InvalidResponse -> fails m (b ++ c) p e)).

Lemma stable_bind {A B} (m : M A) (f : A -> M B) b c p :
  stable m b c p -> (forall a p1, (p <= p1 <= length b)%nat -> stable (f a) b c p1) -> stable (bind m f) b c p.
Proof.
  intros [(a & p1 & Hp & Hr & Hr')|(e & Hf & Hf')] H.
  - destruct (H a p1 Hp) as [(x & p2 & Hp2 & Hx & Hx')|(e & Hf & Hf')].
    + left. exists x, p2. split; [lia|]. split; by eapply reads_bind.
    + right. exists e. split; [by eapply fails_bind_after|]. intros He. eapply fails_bind_after; [done | auto].
  - right. exists e. split; [by apply fails_bind|]. intros He. apply fails_bind. auto.
Qed.

Lemma stable_ret {A} (a : A) b c p : (p <= length b)%nat -> stable (ret a) b c p.
Proof. intros Hp. left. exists a, p. split; [lia|]. split; apply reads_ret. Qed.

Lemma stable_throw {A} e b c p : stable (throw (A := A) e) b c p.
Proof. right. exists e. split; [apply fails_throw|]. intros _. apply fails_throw. Qed.

Lemma stable_byte b c p : (p <= length b)%nat -> stable read_byte b c p.
Proof.
  intros Hp. destruct (ends_byte b p (eq InvalidResponse) eq_refl Hp) as [(x & p1 & Hp1 & Hr & Hh & ->)|(e & Hf & <-)].
  - left. exists x, (S p). split; [done|]. split; [done|]. apply reads_byte. by apply has_more.
  - right. exists InvalidResponse. by split.
Qed.

Lemma stable_line b c p : (p <= length b)%nat -> stable read_until_crlf b c p.
Proof.
  intros Hp. destruct (ends_line b p any_error I I Hp) as [(t & p1 & Hp1 & Hr & Hl & Hh & ->)|(e & Hf & _)].
  - left. exists t, (p + length t + 2)%nat. split; [done|]. split; [done|].
    apply reads_line; [done | by apply has_more | rewrite length_app; lia].
  - right. exists e. split; [done|]. intros He k. assert (Hp' : (p <= length (b ++ c))%nat) by (rewrite length_app; lia).
    destruct (Hf k) as [r E]. rewrite read_line_eq in E by done. rewrite read_line_eq by done.
    assert (Hs := limit_spec (length (drop p b))). assert (Hs' := limit_spec (length (drop p (b ++ c)))).
    destruct (find_crlf (drop p b) _ 0) eqn:En; [done|].
    destruct (Z.ltb_spec (MAX_LINE_LEN + 1) (Z.of_nat (length (drop p b)))) as [Hlt|]; [|congruence].
    assert (Hle : (length (drop p b) <= length (drop p (b ++ c)))%nat) by (rewrite !length_drop, length_app; lia).
    assert (En' : find_crlf (drop p (b ++ c)) (Z.to_nat (Z.min (Z.of_nat (length (drop p (b ++ c)))) (MAX_LINE_LEN + 1))) 0 = None).
    { rewrite find_crlf_None in En |- *. intros i Hi. rewrite drop_app_le by done. rewrite crlf_at_prefix by lia. apply En. lia. }
    rewrite En'. eexists. destruct (Z.ltb_spec (MAX_LINE_LEN + 1) (Z.of_nat (length (drop p (b ++ c))))); [|lia].
    f_equal. f_equal. congruence.
Qed.

Lemma stable_integer b c p : (p <= length b)%nat -> stable read_integer b c p.
Proof.
  intros Hp. apply stable_bind; [by apply stable_line|]. intros t p1 Hp1.
  destruct (parse_int _ _ _ _); [apply stable_ret; lia | apply stable_throw].
Qed.

Lemma stable_scan_payload len e b c p : (p <= length b)%nat -> stable (scan_payload len e) b c p.
Proof.
  intros Hp. destruct (decide (length b - p < Z.to_nat len + 2)%nat) as [Hd|Hd].
  { right. exists InvalidResponse. split; [|done]. eapply fails_get; [intros k; cbn; reflexivity|].
    destruct (decide _); [apply fails_throw | lia]. }
  destruct (lookup_lt_is_Some_2 b (p + Z.to_nat len) ltac:(lia)) as [x Hx].
  destruct (lookup_lt_is_Some_2 b (p + Z.to_nat len + 1) ltac:(lia)) as [y Hy].
  set (m := if negb (x =? 13) || negb (y =? 10) then throw e else set_pos (p + (Z.to_nat len + 2));~ ret (@None Z)).
  assert (Hm : forall b', (length b <= length b')%nat -> b' !! (p + Z.to_nat len)%nat = Some x -> b' !! (p + Z.to_nat len + 1)%nat = Some y ->
    forall k, scan_payload len e (rd b' p k) = m (rd b' p k)).
  { intros b' Hl Hx' Hy' k. unfold scan_payload. apply get_eq. cbn [rd buffer pos]. rewrite Hx', Hy'.
    destruct (decide _); [lia | done]. }
  assert (H1 := Hm b ltac:(lia) Hx Hy).
  assert (H2 := Hm (b ++ c) ltac:(rewrite length_app; lia) ltac:(by apply lookup_app_l_Some) ltac:(by apply lookup_app_l_Some)).
  destruct (negb (x =? 13) || negb (y =? 10)); subst m.
  - right. exists e. split; [intros k; rewrite H1; apply fails_throw|]. intros _ k. rewrite H2. apply fails_throw.
  - left. exists None, (p + (Z.to_nat len + 2))%nat. split; [lia|].
    split; intros k; [rewrite H1 | rewrite H2]; apply reads_set_pos.
Qed.

Lemma stable_scan_one depth b c p : (p <= length b)%nat -> stable (scan_one depth) b c p.
Proof.
  intros Hp. apply stable_bind; [by apply stable_byte|]. intros x p1 Hp1. destruct (from_byte x) as [ty|]; [|apply stable_throw].
  destruct ty; cbn [scan_arm]; try (destruct (decide _) as [_|_]; [apply stable_throw|]).
  all: first [apply stable_bind; [apply stable_line; lia|]; intros t p2 Hp2; apply stable_ret; lia
             |apply stable_bind; [apply stable_integer; lia|]; intros m p2 Hp2].
  all: repeat (destruct (_ <? _) || destruct (_ <=? _)); try (apply stable_ret; lia); try apply stable_throw;
    apply (stable_scan_payload m); lia.
Qed.


(** * Resuming *)

(** The same outcome; a scanner that failed is not used again. *)
Definition same_scan (x y : option (ReplyScanner * Result ScanResult RedisError)) : Prop :=
  match x, y with
  | Some (s, Ok r), Some (s', Ok r') => s = s' /\ r = r'
  | Some (_, Err e), Some (_, Err e') => e = e'
  | _, _ => False
  end.

(** A state the scanner may resume from on [b]: what it skips was searched. *)
Definition ready (b : bytes) (s : ReplyScanner) : Prop :=
  (scan_pos s <= length b)%nat /\ (scan_skip s = 0 \/ S (scan_pos s) + scan_skip s < length b)%nat /\
  searched b (scan_pos s) (scan_skip s).

Lemma ready_more b c s : ready b s -> ready (b ++ c) s.
Proof.
  intros (Hp & Hk & Hs). split; [rewrite length_app; lia|]. split; [rewrite length_app; lia|].
  intros i Hi. destruct Hk as [Hk|Hk]; [lia|]. rewrite drop_app_le by lia. rewrite crlf_at_prefix; [by apply Hs|].
  rewrite length_drop. lia.
Qed.

Lemma ready_at b p st : (p <= length b)%nat -> ready b (at_pos p st).
Proof. intros Hp. split; [done|]. split; [by left|]. intros i Hi. cbn in Hi. lia. Qed.

Lemma same_scan_refl x : is_Some x -> same_scan x x.
Proof. by intros [[s [r|e]] ->]. Qed.

Lemma same_scan_trans x y z : same_scan x y -> same_scan y z -> same_scan x z.
Proof.
  destruct x as [[s [r|e]]|], y as [[s' [r'|e']]|], z as [[s2 [r2|e2]]|]; cbn; try done.
  - by intros [-> ->].
  - by intros -> ->.
Qed.

Lemma scan_ready fuel b s :
  ready b s -> is_Some (scan fuel (at_pos (scan_pos s) (stack s)) b) ->
  same_scan (scan fuel s b) (scan fuel (at_pos (scan_pos s) (stack s)) b).
Proof.
  intros (Hp & Hk & Hs). destruct fuel as [|fuel]; [by intros []|]. destruct s as [p st k]. cbn [scan_pos stack scan_skip] in *.
  cbn [scan at_pos scan_pos stack scan_skip]. rewrite rd_0.
  assert (H := scan_one_skip b (length st) p k Hs). revert H.
  destruct (scan_one _ {| buffer := b; pos := p; prealloc_budget := 0; crlf_skip := k |}) as [[r [c|e]]|];
    destruct (scan_one _ (rd b p 0)) as [[r' [c'|e']]|]; cbn [same_round]; try done.
  - intros [-> ->] Hsome. by apply same_scan_refl.
  - intros [-> ->] _. by destruct (decide (e' = InvalidResponse)).
Qed.

(** What a scan of [b] says of [b] followed by more bytes. *)
Definition extends (b c : bytes) (p : nat) (st : list Z) (x y : option (ReplyScanner * Result ScanResult RedisError)) : Prop :=
  match x with
  | Some (s, Ok Complete) => y = x /\ exists p', s = at_pos p' [] /\ (p < p' <= length b)%nat
  | Some (s, Ok NeedMoreData) =>
    ready b s /\ exists j, forall m, scan (j + m) (at_pos p st) (b ++ c) = scan m (at_pos (scan_pos s) (stack s)) (b ++ c)
  | Some (_, Err e) => exists s', y = Some (s', Err e)
  | None => True
  end.

Lemma scan_extends fuel b c p st :
  (p <= length b)%nat -> extends b c p st (scan fuel (at_pos p st) b) (scan fuel (at_pos p st) (b ++ c)).
Proof.
  revert p st. induction fuel as [|fuel IH]; intros p st Hp; [done|].
  destruct (stable_scan_one (length st) b c p Hp) as [(n & p1 & Hp1 & Hr & Hr')|(e & Hf & Hf')].
  - assert (Hlt : (p < p1)%nat).
    { destruct (scan_one_ends b (length st) p Hp) as [(n2 & p2 & _ & Hr2 & ty & t & Hs)|(e & He & _)].
      - destruct (reads_fun _ _ _ _ _ _ _ Hr Hr2) as [_ ->]. by apply shape_end in Hs.
      - by apply (reads_fails _ _ _ _ _ _ Hr) in He. }
    rewrite (scan_S _ _ _ _ _ _ Hr), (scan_S _ _ _ _ _ _ Hr').
    assert (Hcont : forall st', (forall m, scan (S m) (at_pos p st) (b ++ c) = scan m (at_pos p1 st') (b ++ c)) ->
      extends b c p st (scan fuel (at_pos p1 st') b) (scan fuel (at_pos p1 st') (b ++ c))).
    { intros st' Hst. specialize (IH p1 st' ltac:(lia)). unfold extends in *.
      destruct (scan fuel (at_pos p1 st') b) as [[s [[]|e]]|]; try done.
      - destruct IH as (-> & p2 & -> & Hp2). split; [done|]. exists p2. split; [done | lia].
      - destruct IH as [Hready [j Hj]]. split; [done|]. exists (S j). intros m. by rewrite Nat.add_succ_l, Hst, Hj. }
    assert (Hrest : (forall m, scan (S m) (at_pos p st) (b ++ c) = rest (b ++ c) m p1 (unwind st)) ->
      extends b c p st (rest b fuel p1 (unwind st)) (rest (b ++ c) fuel p1 (unwind st))).
    { unfold rest. destruct (unwind st) as [|r st']; [|apply Hcont]. intros _. split; [done|]. exists p1. split; [done | lia]. }
    destruct n as [n|]; [|apply Hrest; intros m; by rewrite (scan_S _ _ _ _ _ _ Hr')].
    destruct (0 <? n) eqn:En; [apply Hcont | apply Hrest]; intros m; by rewrite (scan_S _ _ _ _ _ _ Hr'), En.
  - destruct (scan_fails fuel _ _ _ _ Hf) as (r & Er & ->). destruct (decide (e = InvalidResponse)) as [->|He].
    + split; [|by exists 0%nat]. split; [done|]. cbn [scan_skip scan_pos]. destruct (decide (pos r = p + 1)%nat) as [Hr|].
      * split; [|by apply (scan_one_short b (length st) p r)]. lia.
      * split; [by left|]. intros i Hi. lia.
    + destruct (scan_fails fuel _ _ _ _ (Hf' He)) as (r' & _ & ->). destruct (decide _); [done|]. by eexists.
Qed.

(** [s] stands for a fresh scanner on every continuation of [b]. *)
Definition tracks (s : ReplyScanner) (b : bytes) : Prop :=
  ready b s /\ forall c, same_scan (reply_scan s (b ++ c)) (reply_scan reset (b ++ c)).

Lemma reply_scan_total b : is_Some (reply_scan reset b).
Proof. apply scan_total; lia. Qed.

Lemma tracks_reset b : tracks reset b.
Proof. split; [apply ready_at; lia|]. intros c. apply same_scan_refl, reply_scan_total. Qed.

Lemma tracks_more s b c s1 :
  tracks s b -> reply_scan s (b ++ c) = Some (s1, Ok NeedMoreData) -> tracks s1 (b ++ c).
Proof.
  intros [_ Ht] Hs. assert (Hfresh := Ht c). rewrite Hs in Hfresh.
  destruct (reply_scan reset (b ++ c)) as [[s2 [[]|e]]|] eqn:Ef; cbn in Hfresh; try (by destruct Hfresh).
  destruct Hfresh as [<- _].
  assert (Hext := fun d => scan_extends (S (length (b ++ c))) (b ++ c) d 0 [] ltac:(lia)).
  split.
  - specialize (Hext []). unfold reply_scan in Ef. change reset with (at_pos 0 []) in Ef. rewrite Ef in Hext. apply Hext.
  - intros d. specialize (Hext d). unfold reply_scan in Ef. change reset with (at_pos 0 []) in Ef. rewrite Ef in Hext.
    destruct Hext as [Hready [j Hj]]. apply (ready_more _ d) in Hready as Hready'.
    assert (Htot : is_Some (scan (S (length ((b ++ c) ++ d))) (at_pos (scan_pos s1) (stack s1)) ((b ++ c) ++ d))).
    { apply scan_total; [apply Hready' | lia]. }
    eapply same_scan_trans; [apply scan_ready; done|].
    destruct Htot as [x Hx]. rewrite Hx. destruct (reply_scan_total ((b ++ c) ++ d)) as [y Hy]. rewrite Hy.
    rewrite <- Hj in Hx. rewrite (scan_agree _ _ _ _ _ _ Hx Hy). by apply same_scan_refl.
Qed.

(** The scanner on the bytes of a stream as they arrive. *)
Fixpoint scan_stream (s : ReplyScanner) (b : bytes) (chunks : list bytes) : option (ReplyScanner * Result ScanResult RedisError) :=
  match chunks with
  | [] => Some (s, Ok NeedMoreData)
  | c :: chunks =>
    match reply_scan s (b ++ c) with
    | Some (s, Ok NeedMoreData) => scan_stream s (b ++ c) chunks
    | r => r
    end
  end.

Lemma reply_scan_extends b c :
  extends b c 0 [] (reply_scan reset b) (reply_scan reset (b ++ c)).
Proof.
  assert (H := scan_extends (S (length b)) b c 0 [] ltac:(lia)). change (scan (S (length b)) (at_pos 0 []) b) with (reply_scan reset b) in H.
  assert (Hy : forall r, scan (S (length b)) (at_pos 0 []) (b ++ c) = Some r -> reply_scan reset (b ++ c) = Some r).
  { intros r Hr. apply (scan_more _ (length c)) in Hr. unfold reply_scan. by rewrite length_app. }
  destruct (reply_scan reset b) as [[s [[]|e]]|]; [| done | | done]; unfold extends in *.
  - destruct H as [H1 H2]. split; [by apply Hy | done].
  - destruct H as [s' H]. exists s'. by apply Hy.
Qed.

Lemma scan_stream_tracks s b cs :
  tracks s b -> reply_scan reset b = Some (s, Ok NeedMoreData) ->
  same_scan (scan_stream s b cs) (reply_scan reset (b ++ concat cs)).
Proof.
  revert s b. induction cs as [|c cs IH]; intros s b Ht Hb; cbn [scan_stream concat].
  { rewrite app_nil_r, Hb. done. }
  assert (Hc := proj2 Ht c). assert (Hx := reply_scan_extends (b ++ c) (concat cs)). rewrite app_assoc.
  destruct (reply_scan s (b ++ c)) as [[s1 [[]|e]]|] eqn:E1; destruct (reply_scan reset (b ++ c)) as [[s2 [[]|e2]]|] eqn:E2;
    cbn in Hc; try done; try (by destruct Hc).
  - destruct Hc as [-> _]. cbn [extends] in Hx. destruct Hx as [-> _]. done.
  - destruct Hc as [-> _]. apply IH; [|done]. by eapply tracks_more.
  - subst e2. destruct Hx as [s' ->]. done.
Qed.

(** * Agreement with the reader *)

Section Agreement.
Context {T : Target} (b : bytes).

(** The scanner does not find the end of a reply. *)
Definition stuck (p : nat) (st : list Z) : Prop :=
  exists n, forall fuel, exists s r, scan (S n + fuel) (at_pos p st) b = Some (s, r) /\ r <> Ok Complete.

Lemma stuck_fails p st e : fails (scan_one (length st)) b p e -> stuck p st.
Proof.
  intros H. exists 0%nat. intros fuel. destruct (scan_fails fuel _ _ _ _ H) as (r & _ & E). rewrite Nat.add_succ_l. cbn [Nat.add].
  rewrite E. destruct (decide _); by do 2 eexists.
Qed.

Lemma stuck_goes p st p1 r st1 : goes b p st p1 (r :: st1) -> stuck p1 (r :: st1) -> stuck p st.
Proof.
  intros [n Hn] [m Hm]. exists (n + S m)%nat. intros fuel.
  replace (S (n + S m) + fuel)%nat with (S n + (S m + fuel))%nat by lia. rewrite Hn. apply Hm.
Qed.

Lemma stuck_children p st n p1 :
  reads (scan_one (length st)) b p (Some n) p1 -> 0 < n -> stuck p1 (n :: st) -> stuck p st.
Proof.
  intros Hr H0 [m Hm]. exists (S m). intros fuel.
  replace (S (S m) + fuel)%nat with (S (S m + fuel)) by lia. rewrite (scan_S _ _ _ _ _ _ Hr).
  destruct (Z.ltb_spec 0 n); [apply Hm | lia].
Qed.

Definition noshort (p : nat) (st : list Z) (e : RedisError) : Prop := e = InvalidResponse -> stuck p st.

Lemma ends_after {A B} (m : M A) (f : A -> M B) p a p1 P Q :
  reads m b p a p1 -> (p <= p1)%nat -> ends (f a) b p1 P Q -> ends (bind m f) b p P Q.
Proof.
  intros Hr Hp [(x & p2 & Hp2 & Hx & HP)|(e & Hf & HQ)].
  - left. exists x, p2. split; [lia|]. split; [by eapply reads_bind | done].
  - right. exists e. split; [by eapply fails_bind_after | done].
Qed.

Lemma ends_and {A} (m : M A) p P P' Q Q' :
  ends m b p P Q -> ends m b p P' Q' -> ends m b p (fun a q => P a q /\ P' a q) (fun e => Q e /\ Q' e).
Proof.
  intros [(a & q & Hq & Hr & HP)|(e & Hf & HQ)] [(a' & q' & Hq' & Hr' & HP')|(e' & Hf' & HQ')].
  - destruct (reads_fun _ _ _ _ _ _ _ Hr Hr') as [<- <-]. left. by exists a, q.
  - by apply (reads_fails _ _ _ _ _ _ Hr) in Hf'.
  - by apply (reads_fails _ _ _ _ _ _ Hr') in Hf.
  - right. exists e. split; [done|]. split; [done|]. destruct (Hf 0%nat) as [r E], (Hf' 0%nat) as [r' E']. congruence.
Qed.

Lemma ends_many_of {A} len size (read : M A) n p P Q :
  (p <= length b)%nat -> ends (read_many (S (length b)) read n) b p P Q -> ends (many len size read n) b p P Q.
Proof.
  intros Hp [(l & p1 & Hp1 & Hr & HP)|(e & Hf & HQ)].
  - left. exists l, p1. split; [done|]. split; [|done]. apply reads_prealloc. eapply reads_bind; [apply reads_fuel | done].
  - right. exists e. split; [|done]. apply fails_prealloc. eapply fails_bind_after; [apply reads_fuel | done].
Qed.

(** A reader of values that runs short only where the scanner is stuck. *)
Definition follows (depth : nat) (m : M RESPValue) : Prop :=
  forall p st, length st = depth -> (p <= length b)%nat -> ends m b p (value_at b depth p) (noshort p st).

Lemma goes_value_at depth p st v p1 :
  (length st <= MAX_NESTING_DEPTH)%nat -> length st = depth -> (p <= length b)%nat -> value_at b depth p v p1 -> goes b p st p1 (unwind st).
Proof.
  intros Hd <- Hp (t & Hv & Ht & ->). apply (proj1 (scans_texts b)) in Hv. apply Hv; [unfold depth_of; lia | done | done].
Qed.

(** After a value, with more of the same aggregate to come. *)
Lemma noshort_goes p r st p1 e : 1 < r -> goes b p (r :: st) p1 (unwind (r :: st)) -> noshort p1 (r - 1 :: st) e -> noshort p (r :: st) e.
Proof. intros Hr Hg Hs He. rewrite unwind_more in Hg by done. by apply (stuck_goes _ _ _ _ _ Hg), Hs. Qed.

Section Elements.
Context (depth : nat) (rec : M RESPValue) (st : list Z).
Hypothesis rec_follows : follows (S depth) rec.
Hypothesis st_depth : length st = depth.
Hypothesis deep : (depth < MAX_NESTING_DEPTH)%nat.

Lemma ends_element p r : (p <= length b)%nat ->
  ends rec b p (fun v p1 => value_at b (S depth) p v p1 /\ goes b p (r :: st) p1 (unwind (r :: st))) (noshort p (r :: st)).
Proof.
  intros Hp. eapply ends_impl; [apply (rec_follows p (r :: st)); [cbn; lia | done] | | done].
  intros v p1 Hp1 Hv. split; [done|]. apply (goes_value_at (S depth) _ _ v); [cbn [length]; lia | cbn [length]; lia | done | done].
Qed.

Lemma list_follows fuel n r p :
  (p <= length b)%nat -> (length b - p < fuel)%nat -> n <= r ->
  ends (read_many fuel rec n) b p (fun _ p1 => 0 < n -> goes b p (r :: st) p1 (unwind (r - n + 1 :: st)))
    (fun e => 0 < n /\ noshort p (r :: st) e).
Proof.
  revert n r p. induction fuel as [|fuel IH]; intros n r p Hp Hf Hr; [lia|]. cbn [read_many].
  destruct (Z.leb_spec n 0) as [Hn|Hn]; [apply ends_ret; [done | lia]|].
  eapply ends_bind; [eapply ends_impl; [by apply (ends_element p r) | done | done]|].
  intros v p1 Hp1 [(t & Hv & _ & ->) Hg]. apply text_pos in Hv.
  destruct (decide (n = 1)) as [->|Hn1].
  - destruct fuel as [|fuel]; [lia|]. cbn. apply ends_ret; [lia|]. intros _. by replace (r - 1 + 1) with r by lia.
  - eapply ends_bind.
    + eapply ends_impl; [apply (IH (n - 1) (r - 1)); lia | done |].
      intros e [_ He]. split; [done|]. eapply noshort_goes; [lia | done | done].
    + intros l p2 Hp2 Hg2. apply ends_ret; [lia|]. intros _. rewrite unwind_more in Hg by lia.
      apply (goes_trans _ _ _ _ _ _ _ _ Hg). replace (r - n + 1) with (r - 1 - (n - 1) + 1) by lia. apply Hg2. lia.
Qed.

Lemma pairs_follow fuel n r p :
  (p <= length b)%nat -> (length b - p < fuel)%nat -> 2 * n <= r ->
  ends (read_many fuel (key <~ rec; value <~ rec; ret (key, value)) n) b p
    (fun _ p1 => 0 < n -> goes b p (r :: st) p1 (unwind (r - 2 * n + 1 :: st)))
    (fun e => 0 < n /\ noshort p (r :: st) e).
Proof.
  revert n r p. induction fuel as [|fuel IH]; intros n r p Hp Hf Hr; [lia|]. cbn [read_many].
  destruct (Z.leb_spec n 0) as [Hn|Hn]; [apply ends_ret; [done | lia]|].
  eapply (ends_bind _ _ _ _ (fun _ p2 => (p < p2)%nat /\ goes b p (r :: st) p2 (unwind (r - 1 :: st)))).
  - eapply ends_bind; [eapply ends_impl; [by apply (ends_element p r) | done | done]|].
    intros k p1 Hp1 [(t & Hk & _ & ->) Hg]. apply text_pos in Hk.
    eapply ends_bind; [eapply ends_impl; [apply (ends_element _ (r - 1)); lia | done |]|].
    { intros e He. split; [done|]. eapply noshort_goes; [lia | done | done]. }
    intros v p2 Hp2 [(u & Hv & _ & ->) Hg2]. apply ends_ret; [lia|]. split; [lia|].
    rewrite unwind_more in Hg by lia. by apply (goes_trans _ _ _ _ _ _ _ _ Hg).
  - intros e p2 Hp2 [Hlt Hg]. destruct (decide (n = 1)) as [->|Hn1].
    + destruct fuel as [|fuel]; [lia|]. cbn. apply ends_ret; [lia|]. intros _. by replace (r - 2 * 1 + 1 - 1) with (r - 1 - 1) by lia.
    + rewrite unwind_more in Hg by lia. replace (r - 1 - 1) with (r - 2) in Hg by lia. eapply ends_bind.
      * eapply ends_impl; [apply (IH (n - 1) (r - 2)); lia | done |].
        intros e' [_ He]. split; [done|]. intros ->. by apply (stuck_goes _ _ _ _ _ Hg), He.
      * intros l p3 Hp3 Hg2. apply ends_ret; [lia|]. intros _. apply (goes_trans _ _ _ _ _ _ _ _ Hg).
        replace (r - 2 * n + 1) with (r - 2 - 2 * (n - 1) + 1) by lia. apply Hg2. lia.
Qed.

End Elements.
Lemma ends_weak {A} (m : M A) p (P : A -> nat -> Prop) Q :
  ends m b p P Q -> ends m b p (fun _ _ => True) Q.
Proof. intros H. by eapply ends_impl; [exact H | |]. Qed.

(** Errors of the values, not of the bytes that are there. *)
Definition not_short (e : RedisError) : Prop := e <> InvalidResponse.

Lemma line_arm depth rec p ty t :
  match ty with TSimpleString | TError | TInteger | TNull | TDouble | TBoolean | TBigNumber => True | _ => False end ->
  line t -> has b (S p) (t ++ crlf) -> (S p + length t + 2 <= length b)%nat ->
  ends (read_arm rec depth ty) b (S p) (fun _ _ => True) not_short.
Proof.
  intros Hty Hl Ht Hp. assert (Hr : reads read_until_crlf b (S p) t (S p + length t + 2)) by (apply reads_line; [done | done | lia]).
  assert (Hret : forall v, ends (ret v) b (S p + length t + 2) (fun (_ : RESPValue) _ => True) not_short) by (intros v; by apply ends_ret).
  assert (Hthrow : forall A e, not_short e -> ends (throw (A := A) e) b (S p + length t + 2) (fun _ _ => True) not_short) by (intros; by apply ends_throw).
  destruct ty; try done; cbn [read_arm]; try (eapply ends_after; [done | lia | apply Hret]).
  - eapply ends_bind; [|intros n p1 Hp1 _; by apply ends_ret; [lia|]]. eapply (ends_after _ _ _ _ _ (fun _ _ => True)); [done | lia|].
    destruct (parse_int _ _ _ _); [by apply ends_ret | by apply Hthrow].
  - eapply ends_bind; [|intros n p1 Hp1 _; by apply ends_ret; [lia|]]. eapply (ends_after _ _ _ _ _ (fun _ _ => True)); [done | lia|].
    rewrite read_double_eq. destruct (double_value t); [by apply ends_ret | by apply Hthrow].
  - eapply ends_bind; [|intros n p1 Hp1 _; by apply ends_ret; [lia|]]. eapply (ends_after _ _ _ _ _ (fun _ _ => True)); [done | lia|].
    destruct t as [|c [|]]; try by apply Hthrow. destruct (c =? #"t"); [by apply ends_ret|].
    destruct (c =? #"f"); [by apply ends_ret | by apply Hthrow].
Qed.

Lemma blob_arm depth rec p ty t s :
  match ty with TBulkString | TBlobError | TVerbatimString => True | _ => False end ->
  blob_length t s -> has b (S p) (t ++ crlf) -> has b (S p + length t + 2) (s ++ crlf) ->
  (S p + length t + 2 + length s + 2 <= length b)%nat ->
  ends (read_arm rec depth ty) b (S p) (fun _ _ => True) not_short.
Proof.
  intros Hty [Hn Hm] Ht Hs Hp.
  assert (Hi : reads read_integer b (S p) (Z.of_nat (length s)) (S p + length t + 2)) by (apply reads_integer; [done | done | lia]).
  assert (Hr : forall e e', reads (read_payload (Z.of_nat (length s)) e e') b (S p + length t + 2) s (S p + length t + 2 + length s + 2))
    by (intros; apply reads_payload; [done | lia]).
  destruct ty; try done; cbn [read_arm].
  - eapply ends_after; [done | lia|]. destruct (Z.ltb_spec (Z.of_nat (length s)) 0); [lia|].
    destruct (Z.ltb_spec MAX_BULK_LEN (Z.of_nat (length s))); [lia|]. eapply ends_after; [apply Hr | lia | by apply ends_ret].
  - eapply ends_after; [done | lia|].
    replace ((0 <=? Z.of_nat (length s)) && (Z.of_nat (length s) <=? MAX_BULK_LEN)) with true by lia. cbn [negb].
    eapply ends_after; [apply Hr | lia | by apply ends_ret].
  - eapply ends_bind; [|intros n p1 Hp1 _; by apply ends_ret; [lia|]]. eapply (ends_after _ _ _ _ _ (fun _ _ => True)); [done | lia|].
    replace ((0 <=? Z.of_nat (length s)) && (Z.of_nat (length s) <=? MAX_BULK_LEN)) with true by lia. cbn [negb].
    eapply ends_after; [apply Hr | lia|].
    destruct s as [|x [|y [|z [|w s]]]]; try by apply ends_throw. destruct (w =? #":"); [by apply ends_ret | by apply ends_throw].
Qed.

Lemma noshort_children p st n p1 e :
  reads (scan_one (length st)) b p (Some n) p1 -> 0 < n -> noshort p1 (n :: st) e -> noshort p st e.
Proof. intros Hr H0 Hs He. by apply (stuck_children _ _ _ _ Hr H0), Hs. Qed.

Lemma list_arm {B} depth rec p st n p1 len size (k : list RESPValue -> M B) :
  follows (S depth) rec -> length st = depth -> (depth < MAX_NESTING_DEPTH)%nat -> (p1 <= length b)%nat ->
  reads (scan_one (length st)) b p (Some n) p1 -> (forall l, exists a, k l = ret a) ->
  ends (take_prealloc_budget len size;~ fuel <~ list_fuel; l <~ read_many fuel rec n; k l) b p1 (fun _ _ => True) (noshort p st).
Proof.
  intros Hrec Hst Hd Hp Hr Hk. eapply ends_ext; [apply bind_many|]. eapply ends_bind.
  - apply ends_many_of; [done|]. eapply ends_impl; [apply (list_follows depth rec st Hrec Hst Hd _ n n); lia | done |].
    intros e [H0 He]. by eapply noshort_children.
  - intros l p2 Hp2 _. destruct (Hk l) as [a ->]. by apply ends_ret; [lia|].
Qed.

Lemma nested_arm depth rec p st ty t c p1 :
  (p <= length b)%nat -> (p1 <= length b)%nat -> ((depth < MAX_NESTING_DEPTH)%nat -> follows (S depth) rec) -> length st = depth ->
  shape b depth p ty t (Some c) p1 -> ends (read_arm rec depth ty) b (S p) (fun _ _ => True) (noshort p st).
Proof.
  intros Hp Hp1 Hrec Hst Hs. assert (Hr := reads_shape _ _ _ _ _ _ _ Hp Hs). rewrite <- Hst in Hr.
  inversion Hs as [| | |ty' t' n c' Hd Hn Hh Hc]; subst ty' t' c' p1. specialize (Hrec Hd).
  apply has_header_inv in Hh as [_ Ht].
  assert (Hi : reads read_integer b (S p) n (S p + length t + 2)) by (apply reads_integer; [done | done | lia]).
  destruct ty; try done; cbn [read_arm]; (destruct (decide _) as [|_]; [lia|]); (eapply ends_after; [exact Hi | lia|]).
  - destruct (Z.ltb_spec n 0); [by apply ends_ret|]. replace (Z.max 0 n) with n in Hc by lia. subst c.
    eapply list_arm; [done | done | done | done | done | by eexists].
  - destruct (Z.ltb_spec n 0); [lia|]. destruct Hc as [_ ->]. eapply ends_ext; [apply bind_many|]. eapply ends_bind.
    + apply ends_many_of; [done|]. eapply ends_impl; [apply (pairs_follow depth rec st Hrec Hst Hd _ n (2 * n)); lia | done |].
      intros e [H0 He]. eapply noshort_children; [done | lia | done].
    + intros l p2 Hp2 _. by apply ends_ret; [lia|].
  - destruct (Z.ltb_spec n 0); [lia|]. destruct Hc as [_ ->].
    eapply list_arm; [done | done | done | done | done | by eexists].
  - destruct (Z.ltb_spec n 0); [lia|]. destruct Hc as [_ ->]. eapply ends_ext; [apply bind_many|].
    assert (Hvalue : forall l p2, (p2 <= length b)%nat -> goes b p st p2 (1 :: st) \/ (n = 0 /\ p2 = (S p + length t + 2)%nat) ->
      ends (value <~ rec; ret (Attribute l value)) b p2 (fun _ _ => True) (noshort p st)).
    { intros l p2 Hp2 Hg. eapply ends_bind; [|intros v p3 Hp3 _; by apply ends_ret; [lia|]].
      eapply ends_weak, ends_impl; [by apply (ends_element depth rec st Hrec Hst Hd _ 1) | done |].
      intros e He. destruct Hg as [Hg|[-> ->]]; [intros Hes; by apply (stuck_goes _ _ _ _ _ Hg), He | by eapply noshort_children]. }
    destruct (decide (n = 0)) as [->|Hn0].
    { eapply (ends_after _ _ _ []); [apply reads_many; intros fuel Hf; destruct fuel; [lia | apply reads_ret] | done |].
      apply Hvalue; [done | by right]. }
    eapply ends_bind.
    + apply ends_many_of; [done|]. eapply ends_impl; [apply (pairs_follow depth rec st Hrec Hst Hd _ n (2 * n + 1)); lia | done |].
      intros e [H0 He]. eapply noshort_children; [done | lia | done].
    + intros l p2 Hp2 Hg. apply Hvalue; [lia|]. left. specialize (Hg ltac:(lia)).
      replace (2 * n + 1 - 2 * n + 1) with 2 in Hg by lia. rewrite unwind_more in Hg by lia.
      eapply goes_children; [done | lia | done].
  - destruct (Z.leb_spec n 0); [lia|]. destruct Hc as [_ ->]. eapply ends_bind.
    + eapply ends_impl; [apply (ends_element depth rec st Hrec Hst Hd _ n); lia | done |].
      intros e He. eapply noshort_children; [done | lia | done].
    + intros v p2 Hp2 [Hv Hg]. eapply (ends_bind _ _ _ _ (fun _ p3 => p3 = p2)).
      { destruct v as [| | |[]| | | | | | | | | | |]; cbn; try (by apply ends_throw); by apply ends_ret; [lia|]. }
      intros k p3 Hp3 ->. eapply ends_ext; [apply bind_many|]. eapply ends_bind.
      * apply ends_many_of; [lia|]. eapply ends_impl; [apply (list_follows depth rec st Hrec Hst Hd _ (n - 1) (n - 1)); lia | done |].
        intros e [H0 He]. eapply noshort_children; [done | lia |]. eapply noshort_goes; [lia | done | done].
      * intros l p4 Hp4 _. by apply ends_ret; [lia|].
Qed.

Lemma value_follows fuel depth :
  (depth + fuel = S MAX_NESTING_DEPTH)%nat -> (0 < fuel)%nat -> follows depth (read_value_with_depth fuel depth).
Proof.
  revert depth. induction fuel as [|fuel IH]; intros depth Hd Hf p st Hst Hp; [lia|].
  assert (Hv := value_ends b (S fuel) depth Hd Hf p Hp).
  enough (He : ends (read_value_with_depth (S fuel) depth) b p (fun _ _ => True) (noshort p st))
    by (eapply ends_impl; [exact (ends_and _ _ _ _ _ _ Hv He) | by intros v p1 _ [] | by intros e []]).
  assert (Hs := scan_one_ends b depth p Hp). rewrite <- Hst in Hs.
  destruct Hs as [(c & p1 & Hp1 & Hr & ty & t & Hs)|(e & Hf1 & _)].
  2: { eapply ends_impl; [exact Hv | done |]. intros e' _ _. by eapply stuck_fails. }
  assert (Hb : has b p [type_byte ty]).
  { destruct Hs as [ty t Hty Hl Hh | t n Hn H0 Hh | ty t s Hty Hl Hh | ty t n c Hdepth Hn Hh Hc];
      rewrite ?blob_app in Hh; try (by apply has_header_inv in Hh as [Hb _]); try (by apply has_header_app_inv in Hh as [Hb _]). }
  cbn [read_value_with_depth]. eapply ends_after; [by apply reads_byte | lia|]. rewrite from_type_byte.
  assert (Hweak : forall (m : M RESPValue) q, ends m b q (fun _ _ => True) not_short -> ends m b q (fun _ _ => True) (noshort p st)).
  { intros m q H. eapply ends_impl; [exact H | done |]. intros e' He' ->. by destruct (He' eq_refl). }
  rewrite Hst in Hs. destruct c as [c|].
  - eapply nested_arm; [done | by apply Hp1 | | done | done]. intros Hlt. rewrite Nat.add_1_r. apply IH; lia.
  - apply Hweak. inversion Hs as [ty' t' Hty Hl Hh | t' n Hn H0 Hh | ty' t' s Hty Hl Hh |]; subst.
    + apply has_header_inv in Hh as [_ Ht]. eapply line_arm; [done | done | done | lia].
    + apply (has_header_inv _ _ (type_byte TBulkString)) in Hh as [_ Ht]. cbn [read_arm].
      eapply ends_after; [apply reads_integer; [done | done | lia] | lia|]. destruct (Z.ltb_spec n 0); [|lia]. by apply ends_ret; [lia|].
    + rewrite blob_app in Hh. apply has_header_app_inv in Hh as (_ & Ht & Hx). eapply blob_arm; [done | done | done | done | lia].
Qed.

End Agreement.

(** The reader never runs short in what the scanner takes for a whole reply. *)
Lemma read_value_noshort {T : Target} b : ends read_value b 0%nat (value_at b 0%nat 0%nat) (fun e => e = InvalidResponse -> stuck b 0%nat []).
Proof.
  destruct (value_follows b (MAX_NESTING_DEPTH + 1) 0 ltac:(lia) ltac:(lia) 0%nat [] eq_refl ltac:(lia)) as [(v & p & Hp & Hr & Hv)|(e & Hf & He)].
  - left. exists v, p. split; [done|]. split; [by apply read_value_reads | done].
  - right. exists e. split; [by apply read_value_fails | done].
Qed.

Lemma stuck_scan b : stuck b 0%nat [] -> forall s, reply_scan reset b <> Some (s, Ok Complete).
Proof.
  intros [n Hn] s Hs. destruct (Hn 0%nat) as (s' & r & E & Hr). apply Hr.
  assert (H := scan_agree _ _ _ _ _ _ E Hs). congruence.
Qed.

(** Where the reader reads a reply, the scanner finds its end. *)
Lemma reads_complete {T : Target} b v p : reads read_value b 0%nat v p -> reply_scan reset b = Some (at_pos p [], Ok Complete).
Proof.
  intros Hr. apply read_value_iff in Hr as (t & Hv & Ht & ->); [|lia]. cbn [Nat.add].
  apply (proj1 (scans_texts b)) in Hv. destruct (Hv 0%nat [] ltac:(done) ltac:(lia) Ht) as [n Hn].
  specialize (Hn 0%nat). cbn [rest unwind] in Hn. destruct (reply_scan_total b) as [x Hx].
  assert (H := scan_agree _ _ _ _ _ _ Hn Hx). by rewrite Hx, <- H.
Qed.

Lemma complete_reads {T : Target} b s :
  reply_scan reset b = Some (s, Ok Complete) ->
  exists p, s = at_pos p [] /\ ((exists v, reads read_value b 0%nat v p) \/ exists e, fails read_value b 0%nat e /\ e <> InvalidResponse).
Proof.
  intros Hs. assert (Hx := reply_scan_extends b []). rewrite Hs in Hx. destruct Hx as [_ (p & -> & Hp)]. exists p. split; [done|].
  destruct (read_value_noshort b) as [(v & q & Hq & Hr & _)|(e & Hf & He)].
  - left. exists v. apply reads_complete in Hr as Hc. rewrite Hs in Hc. by injection Hc as ->.
  - right. exists e. split; [done|]. intros ->. by apply (stuck_scan b (He eq_refl) (at_pos p [])).
Qed.
