(* ===== verification/ValkeyCut.v ===== *)
(** The reader on a buffer that ends inside of a reply: it reports a short
    read, unless the reply holds a blob error or a verbatim string. *)
From S2P Require Import Prelude BunCore Valkey ValkeyGrammar.

Section Cut.
Context {T : Target}.

(** No blob error and no verbatim string. *)
Fixpoint plain (v : RESPValue) : bool :=
  match v with
  | BlobError _ | VerbatimString _ _ => false
  | Array l | RSet l | Push _ l => forallb plain l
  | Map l => forallb (fun e => plain e.1 && plain e.2) l
  | Attribute l v => forallb (fun e => plain e.1 && plain e.2) l && plain v
  | _ => true
  end.

Context (b : bytes).

(** The buffer ends inside of the text [t] that starts at [p]. *)
Definition cut (p : nat) (t : bytes) : Prop := exists r, r <> [] /\ t = drop p b ++ r.

Lemma cut_app p t u : cut p (t ++ u) -> cut p t \/ (has b p t /\ cut (p + length t) u).
Proof.
  intros (r & Hr & He). destruct (decide (length (drop p b) < length t)%nat) as [Hlt|Hge].
  - left. apply (f_equal (take (length t))) in He as Ht. rewrite take_app_length, take_app_ge in Ht by lia.
    eexists. split; [|exact Ht]. intros H0. rewrite H0, app_nil_r in Ht. apply (f_equal length) in Ht. lia.
  - right. apply (f_equal (take (length t))) in He as Ht. rewrite take_app_length, take_app_le in Ht by lia.
    assert (Hd : drop p b = t ++ drop (length t) (drop p b)) by (rewrite Ht at 1; by rewrite take_drop).
    split; [by exists (drop (length t) (drop p b))|]. exists r. split; [done|].
    rewrite Hd, <- app_assoc in He. apply app_inv_head in He. by rewrite <- drop_drop.
Qed.

Lemma cut_cons p c t : (p <= length b)%nat -> cut p (c :: t) -> p = length b \/ (has b p [c] /\ cut (S p) t).
Proof.
  intros Hp H. change (c :: t) with ([c] ++ t) in H. apply cut_app in H as [(r & Hr & He)|[Hc Hu]].
  - left. destruct (drop p b) as [|x l] eqn:Ed; [|destruct l; [by destruct r | done]].
    apply (f_equal length) in Ed. rewrite length_drop in Ed. cbn in Ed. lia.
  - right. split; [done|]. by rewrite Nat.add_1_r in Hu.
Qed.

Lemma fails_line p t : line t -> cut p (t ++ crlf) -> (p <= length b)%nat -> fails read_until_crlf b p InvalidResponse.
Proof.
  intros [Hf Hl] (r & Hr & He) Hp k. rewrite read_line_eq by done.
  assert (Hlen := f_equal length He). rewrite !length_app in Hlen. cbn [crlf length] in Hlen.
  assert (Hr1 : (1 <= length r)%nat) by (destruct r; [done | cbn; lia]).
  replace (find_crlf (drop p b) _ 0) with (@None nat).
  - destruct (Z.ltb_spec (MAX_LINE_LEN + 1) (Z.of_nat (length (drop p b)))) as [|_]; [lia|]. by eexists.
  - symmetry. apply find_crlf_None. intros i _ Hc. assert (Hi := lookup_lt_Some _ _ _ (proj2 Hc)).
    assert (length t <= i)%nat; [|lia]. apply (crlf_at_line t [] i Hf). rewrite app_nil_r, He.
    destruct Hc as [H1 H2]. split; by apply lookup_app_l_Some.
Qed.

Lemma fails_byte : fails read_byte b (length b) InvalidResponse.
Proof.
  eapply fails_get; [intros k; cbn; reflexivity|]. rewrite (proj2 (lookup_ge_None b (length b))) by lia. apply fails_throw.
Qed.

Lemma fails_integer p n t : int_text n t -> cut p (t ++ crlf) -> (p <= length b)%nat -> fails read_integer b p InvalidResponse.
Proof. intros [Hl _] Ht Hp. apply fails_bind. by apply (fails_line p t). Qed.

Lemma fails_payload p s bad :
  cut p (s ++ crlf) -> (p <= length b)%nat -> fails (read_payload (Z.of_nat (length s)) InvalidResponse bad) b p InvalidResponse.
Proof.
  intros Hc Hp. eapply fails_get; [intros k; cbn; reflexivity|]. rewrite Nat2Z.id.
  destruct (decide _) as [|Hd]; [apply fails_throw|].
  apply cut_app in Hc as [(r & Hr & He)|[[r Hr] Hc]].
  { apply (f_equal length) in He. rewrite length_app, length_drop in He. destruct r; [done | cbn in He; lia]. }
  eapply fails_bind_after.
  - eapply reads_get; [intros k; cbn; reflexivity|]. rewrite slice_ok by lia. rewrite Nat.add_sub', Hr, take_app_length.
    intros k. by exists k.
  - apply fails_bind. apply (fails_line _ []); [done | done | lia].
Qed.

(** * Values *)

Definition short_text (d : nat) (v : RESPValue) (t : bytes) : Prop :=
  plain v = true -> forall p, (d <= MAX_NESTING_DEPTH)%nat -> (p <= length b)%nat -> cut p t -> fails (reader d) b p InvalidResponse.
Definition short_list (d : nat) (l : list RESPValue) (u : bytes) : Prop :=
  forallb plain l = true -> forall p fuel, (d <= MAX_NESTING_DEPTH)%nat -> (p <= length b)%nat -> cut p u -> (length b - p < fuel)%nat ->
  fails (read_many fuel (reader d) (Z.of_nat (length l))) b p InvalidResponse.
Definition short_pairs (d : nat) (l : list (RESPValue * RESPValue)) (u : bytes) : Prop :=
  forallb (fun e => plain e.1 && plain e.2) l = true ->
  forall p fuel, (d <= MAX_NESTING_DEPTH)%nat -> (p <= length b)%nat -> cut p u -> (length b - p < fuel)%nat ->
  fails (read_many fuel (key <~ reader d; value <~ reader d; ret (key, value)) (Z.of_nat (length l))) b p InvalidResponse.

Lemma fails_arm fuel depth p t e :
  has b p [type_byte t] -> fails (read_arm (read_value_with_depth fuel (depth + 1)) depth t) b (S p) e ->
  fails (read_value_with_depth (S fuel) depth) b p e.
Proof. intros Hc Hr. eapply fails_bind_after; [by apply reads_byte|]. by rewrite from_type_byte. Qed.

Lemma fails_empty d : fails (reader d) b (length b) InvalidResponse.
Proof. apply fails_bind, fails_byte. Qed.

(** A text that is one header. *)
Lemma short_header d v t ty :
  (forall p rec depth, cut (S p) (t ++ crlf) -> (S p <= length b)%nat -> fails (read_arm rec depth ty) b (S p) InvalidResponse) ->
  short_text d v (header (type_byte ty) t).
Proof.
  intros H _ p Hd Hp Hc. apply cut_cons in Hc as [->|[Hh Ht]]; [apply fails_empty | | done].
  apply (fails_arm _ _ _ ty); [done|]. apply H; [done|]. apply (has_length _ _ _ Hp) in Hh. cbn in Hh. lia.
Qed.

(** A header that is whole, with the end of the buffer after it. *)
Lemma short_nested d v t u ty n :
  nests ty = true -> int_text n t ->
  (forall p, (S d <= MAX_NESTING_DEPTH)%nat -> plain v = true -> has b (S p) (t ++ crlf) -> (S p + length t + 2 <= length b)%nat ->
     cut (S p + length t + 2) u -> fails (read_arm (reader d) (MAX_NESTING_DEPTH - S d) ty) b (S p) InvalidResponse) ->
  short_text (S d) v (header (type_byte ty) t ++ u).
Proof.
  intros Hty Hn H Hv p Hd Hp Hc. apply cut_app in Hc as [Hc|[Hh Hu]].
  - apply cut_cons in Hc as [->|[Hh Ht]]; [apply fails_empty | | done].
    apply (fails_arm _ _ _ ty); [done|]. rewrite reader_rec by done. apply (has_length _ _ _ Hp) in Hh. cbn in Hh.
    destruct ty; try done; cbn [read_arm]; rewrite decide_depth by done; apply fails_bind; by eapply fails_integer; [| |lia].
  - assert (Hl := has_length _ _ _ Hp Hh). rewrite header_end in Hl, Hu. apply has_header_inv in Hh as [Hb Ht].
    apply (fails_arm _ _ _ ty); [done|]. rewrite reader_rec by done. by apply H.
Qed.

Lemma fails_many {A B} len size (read : M A) n p e (k : list A -> M B) :
  (forall fuel, (length b - p < fuel)%nat -> fails (read_many fuel read n) b p e) ->
  fails (take_prealloc_budget len size;~ fuel <~ list_fuel; l <~ read_many fuel read n; k l) b p e.
Proof.
  intros H. apply fails_prealloc. eapply fails_bind_after; [apply reads_fuel|]. apply fails_bind, H. lia.
Qed.

Lemma fails_many_cons {A} fuel (m : M A) n p e : 0 < n -> fails m b p e -> fails (read_many (S fuel) m n) b p e.
Proof. intros Hn Hf. cbn [read_many]. destruct (Z.leb_spec n 0); [lia|]. by apply fails_bind. Qed.

Lemma fails_many_tail {A} fuel (m : M A) (l : list A) x p p1 e :
  reads m b p x p1 -> fails (read_many fuel m (Z.of_nat (length l))) b p1 e ->
  fails (read_many (S fuel) m (Z.of_nat (length (x :: l)))) b p e.
Proof.
  intros Hr Hf. cbn [read_many length]. destruct (Z.leb_spec (Z.of_nat (S (length l))) 0); [lia|].
  eapply fails_bind_after; [done|]. replace (Z.of_nat (S (length l)) - 1) with (Z.of_nat (length l)) by lia. by apply fails_bind.
Qed.

Lemma short_line d v t ty :
  match ty with TSimpleString | TError | TInteger | TNull | TDouble | TBoolean | TBigNumber => True | _ => False end ->
  line t -> short_text d v (header (type_byte ty) t).
Proof.
  intros Hty Hl. apply short_header. intros p rec depth Ht Hp. assert (Hf := fails_line _ _ Hl Ht Hp).
  destruct ty; try done; cbn [read_arm]; first [by apply fails_bind | by apply fails_bind, fails_bind].
Qed.

Lemma short_bulk d t s v : blob_length t s -> short_text d v (blob #"$" t s).
Proof.
  intros [Hn Hm] _ p Hd Hp Hc. rewrite blob_app in Hc. apply cut_app in Hc as [Hc|[Hh Hs]].
  - apply cut_cons in Hc as [->|[Hh Ht]]; [apply fails_empty | | done]. apply (fails_arm _ _ _ TBulkString); [done|].
    apply (has_length _ _ _ Hp) in Hh. cbn in Hh. apply fails_bind. eapply fails_integer; [done | done | lia].
  - assert (Hl := has_length _ _ _ Hp Hh). rewrite header_end in Hl, Hs. apply (has_header_inv _ _ (type_byte TBulkString)) in Hh as [Hb Ht].
    apply (fails_arm _ _ _ TBulkString); [done|]. cbn [read_arm].
    eapply fails_bind_after; [apply reads_integer; [done | done | lia]|].
    destruct (Z.ltb_spec (Z.of_nat (length s)) 0); [lia|]. destruct (Z.ltb_spec MAX_BULK_LEN (Z.of_nat (length s))); [lia|].
    apply fails_bind. by apply fails_payload; [|lia].
Qed.

(** The header of a nested arm, read. *)
Ltac after_header :=
  cbn [read_arm]; rewrite ?decide_depth by done;
  eapply fails_bind_after; [apply reads_integer; [done | done | lia]|].

Lemma short_lists d t l u ty v :
  match ty with TArray => v = Array l | TSet => v = RSet l | _ => False end ->
  int_text (Z.of_nat (length l)) t -> short_list d l u -> short_text (S d) v (header (type_byte ty) t ++ u).
Proof.
  intros Hv Hn Hl. eapply short_nested; [by destruct ty | done |]. intros p Hd Hpl Ht Hp Hu. destruct ty; try done; subst v; after_header.
  all: destruct (Z.ltb_spec (Z.of_nat (length l)) 0); [lia|].
  all: apply fails_many; intros fuel Hf; apply Hl; [done | lia | lia | done | done].
Qed.

Lemma short_map d t l u :
  int_text (Z.of_nat (length l)) t -> short_pairs d l u -> short_text (S d) (Map l) (header #"%" t ++ u).
Proof.
  intros Hn Hl. eapply (short_nested _ _ _ _ TMap); [done | done |]. intros p Hd Hpl Ht Hp Hu. after_header.
  destruct (Z.ltb_spec (Z.of_nat (length l)) 0); [lia|].
  apply fails_many. intros fuel Hf. apply Hl; [done | lia | lia | done | done].
Qed.

Lemma short_attribute d t l u v w :
  int_text (Z.of_nat (length l)) t -> resp_pairs d l u -> short_pairs d l u -> short_text d v w ->
  short_text (S d) (Attribute l v) (header #"|" t ++ u ++ w).
Proof.
  intros Hn Hr Hl Hv. eapply (short_nested _ _ _ _ TAttribute); [done | done |]. intros p Hd Hpl Ht Hp Hc.
  cbn [plain] in Hpl. apply andb_true_iff in Hpl as [Hpl Hpv]. after_header.
  destruct (Z.ltb_spec (Z.of_nat (length l)) 0); [lia|]. apply cut_app in Hc as [Hu|[Hu Hw]].
  - apply fails_many. intros fuel Hf. apply Hl; [done | lia | lia | done | done].
  - eapply fails_ext; [apply bind_many|]. eapply fails_bind_after.
    + apply reads_many. intros fuel Hf. apply (proj2 (proj2 (reads_texts b)) _ _ _ Hr); [lia | lia | done | done].
    + assert (Hle := has_length _ _ _ Hp Hu). apply fails_bind. apply Hv; [done | lia | lia | done].
Qed.

Lemma short_push d t k v w l u :
  int_text (Z.of_nat (S (length l))) t -> resp d v w -> short_text d v w -> kind_of v = Some k -> short_list d l u ->
  short_text (S d) (Push k l) (header #">" t ++ w ++ u).
Proof.
  intros Hn Hr Hv Hk Hl. eapply (short_nested _ _ _ _ TPush); [done | done |]. intros p Hd Hpl Ht Hp Hc. after_header.
  destruct (Z.leb_spec (Z.of_nat (S (length l))) 0); [lia|]. apply cut_app in Hc as [Hw|[Hw Hu]].
  - apply fails_bind. apply Hv; [by destruct v as [| | |[]| | | | | | | | | | |] | lia | lia | done].
  - assert (Hle := has_length _ _ _ Hp Hw). eapply fails_bind_after; [apply (proj1 (reads_texts b) _ _ _ Hr); [lia | lia | done]|].
    eapply (fails_bind_after _ _ _ _ k).
    { destruct v as [| | |[]| | | | | | | | | | |]; try done; injection Hk as <-; apply reads_ret. }
    apply fails_many. intros fuel Hf. replace (Z.of_nat (S (length l)) - 1) with (Z.of_nat (length l)) by lia.
    apply Hl; [done | lia | lia | done | done].
Qed.

Lemma cut_nil p : ~ cut p [].
Proof. intros (r & Hr & He). symmetry in He. apply app_eq_nil in He as [_ ->]. done. Qed.

Lemma short_texts :
  (forall d v t, resp d v t -> short_text d v t) /\
  (forall d l u, resp_list d l u -> short_list d l u) /\
  (forall d l u, resp_pairs d l u -> short_pairs d l u).
Proof.
  apply resp_mutind.
  - intros. by apply (short_line _ _ _ TSimpleString).
  - intros. by apply (short_line _ _ _ TError).
  - intros d n t [Hl _]. by apply (short_line _ _ _ TInteger).
  - intros d n t Hn Hneg. apply (short_header _ _ _ TBulkString). intros p rec depth Ht Hp. apply fails_bind. by eapply fails_integer.
  - intros. by apply short_bulk.
  - intros d n t Hn Hneg _ p Hd Hp Hc. apply (short_nested d (Array []) t [] TArray n); [done | done | | done | done | done |].
    + intros q _ _ _ _ Hq. by apply cut_nil in Hq.
    + by rewrite app_nil_r.
  - intros d t l u Hn _ Hl. by eapply (short_lists _ _ _ _ TArray).
  - intros. by apply (short_line _ _ _ TNull).
  - intros. by apply (short_line _ _ _ TDouble).
  - intros. apply (short_line _ _ _ TBoolean); [done | apply line_bool].
  - done.
  - done.
  - intros d t l u Hn _ Hl. by apply short_map.
  - intros d t l u Hn _ Hl. by eapply (short_lists _ _ _ _ TSet).
  - intros d t l u v w Hn Hr Hl _ Hv. by apply short_attribute.
  - intros d t k v w l u Hn Hr Hv Hk _ Hl. by eapply short_push.
  - intros. by apply (short_line _ _ _ TBigNumber).
  - intros d _ p fuel _ _ Hc. by apply cut_nil in Hc.
  - intros d v t l u Hr Hv _ Hl Hpl p fuel Hd Hp Hc Hf. cbn [forallb] in Hpl. apply andb_true_iff in Hpl as [Hpv Hpl].
    destruct fuel as [|fuel]; [lia|]. assert (Hpos := text_pos _ _ _ Hr). apply cut_app in Hc as [Ht|[Ht Hu]].
    + apply fails_many_cons; [cbn [length]; lia | by apply Hv].
    + assert (Hle := has_length _ _ _ Hp Ht). eapply fails_many_tail; [by apply (proj1 (reads_texts b) _ _ _ Hr)|].
      apply Hl; [done | done | lia | done | lia].
  - intros d _ p fuel _ _ Hc. by apply cut_nil in Hc.
  - intros d k s v t l u Hrk Hk Hrv Hv _ Hl Hpl p fuel Hd Hp Hc Hf. cbn [forallb fst snd] in Hpl.
    apply andb_true_iff in Hpl as [Hpe Hpl]. apply andb_true_iff in Hpe as [Hpk Hpv].
    destruct fuel as [|fuel]; [lia|]. assert (Hpos := text_pos _ _ _ Hrk). apply cut_app in Hc as [Hs|[Hs Hc]].
    { apply fails_many_cons; [cbn [length]; lia|]. apply fails_bind. by apply Hk. }
    assert (Hls := has_length _ _ _ Hp Hs). assert (Hks := proj1 (reads_texts b) _ _ _ Hrk p Hd Hp Hs).
    apply cut_app in Hc as [Ht|[Ht Hu]].
    { apply fails_many_cons; [cbn [length]; lia|]. eapply fails_bind_after; [done|]. apply fails_bind. apply Hv; [done | done | lia | done]. }
    assert (Hlt := has_length _ _ _ Hls Ht). eapply fails_many_tail.
    + eapply reads_bind; [done|]. eapply reads_bind; [by apply (proj1 (reads_texts b) _ _ _ Hrv)|]. apply reads_ret.
    + apply Hl; [done | done | lia | done | lia].
Qed.

(** A buffer that ends inside of a plain reply is a short read. *)
Lemma read_value_short p v t :
  resp MAX_NESTING_DEPTH v t -> plain v = true -> (p <= length b)%nat -> cut p t -> fails read_value b p InvalidResponse.
Proof.
  intros Hr Hpl Hp Hc. apply read_value_fails. rewrite Nat.add_1_r, <- (Nat.sub_diag MAX_NESTING_DEPTH). by apply (proj1 short_texts _ _ _ Hr).
Qed.

End Cut.
