(* ===== verification/ValkeyClient.v ===== *)
(** src/src/runtime/valkey_jsc: the client of Valkey as a state machine.  The
    commands and their queues (ValkeyCommand.rs), the connection (valkey.rs:
    sending, pipelining, replies, failure, closing) and the part of
    js_valkey.rs that changes its state.

    What happens outside of the client is an event of its log: bytes the socket
    took, promises settled, callbacks called.  The answers of the outside (how
    many bytes a write took, whether a conversion threw) are arbitrary
    functions of that log, the class [Host]. *)
From S2P Require Import Prelude BunCore Valkey.

(** * Buffers of bytes: OffsetByteList *)

Record OffsetByteList := { head : Z; byte_list : bytes }.

Definition obl_default : OffsetByteList := {| head := 0; byte_list := [] |}.

Definition obl_write (o : OffsetByteList) (b : bytes) : OffsetByteList := {| head := head o; byte_list := byte_list o ++ b |}.

Definition remaining (o : OffsetByteList) : option bytes := slice_from (byte_list o) (Z.to_nat (head o)).

Definition saturating_add32 (a b : Z) : Z := Z.min (a + b) U32_MAX.

Definition consume (o : OffsetByteList) (n : Z) : OffsetByteList :=
  let head := saturating_add32 (head o) n in
  if Z.of_nat (length (byte_list o)) <=? head then obl_default else {| head := head; byte_list := byte_list o |}.

Definition obl_len (o : OffsetByteList) : Z := trunc32 (trunc32 (Z.of_nat (length (byte_list o))) - head o).

(** * Commands *)

(** The flags of a command, a [u8]. *)
Definition RETURN_AS_BOOL : Z := 1.
Definition SUPPORTS_AUTO_PIPELINING : Z := 2.
Definition RETURN_AS_BUFFER : Z := 4.
Definition SUBSCRIPTION_REQUEST : Z := 8.

Definition meta_default : Z := SUPPORTS_AUTO_PIPELINING.
Definition contains (meta flag : Z) : bool := Z.land meta flag =? flag.
Definition meta_set (meta flag : Z) (b : bool) : Z := if b then Z.lor meta flag else Z.land meta (Z.lxor flag 255).

(** The arguments, by the bytes of each. *)
Inductive Args := Slices (l : list bytes) | BlobArgs (l : list bytes) | Raw (l : list bytes).
Definition args_list (a : Args) : list bytes := match a with Slices l | BlobArgs l | Raw l => l end.

Record Command := { command : bytes; args : Args; meta : Z }.

Definition write_bulk (s : bytes) : bytes := #"$" :: decimal (Z.of_nat (length s)) ++ [13; 10] ++ s ++ [13; 10].

Definition serialize (c : Command) : bytes :=
  (#"*" :: decimal (1 + Z.of_nat (length (args_list (args c)))) ++ [13; 10]) ++
  write_bulk (command c) ++ concat (map write_bulk (args_list (args c))).

Definition AUTO_PIPELINE_DISALLOWED_COMMANDS : list bytes :=
  [b!"AUTH"; b!"EXEC"; b!"INFO"; b!"QUIT"; b!"MULTI"; b!"WATCH"; b!"SCRIPT"; b!"SELECT"; b!"CLUSTER"; b!"DISCARD"; b!"UNWATCH";
   b!"PIPELINE"; b!"SUBSCRIBE"; b!"PSUBSCRIBE"; b!"UNSUBSCRIBE"; b!"UNPSUBSCRIBE"].

Definition meta_check (m : Z) (c : Command) : Z :=
  meta_set m SUPPORTS_AUTO_PIPELINING (negb (bool_decide (command c ∈ AUTO_PIPELINE_DISALLOWED_COMMANDS))).

(** A [JSPromise] is its number, in the order of creation. *)
Record Promise := { promise_meta : Z; promise : nat }.
Record PromisePair := { pair_meta : Z; pair_promise : Promise }.
Record Entry := { serialized_data : bytes; entry_meta : Z; entry_promise : Promise }.

Definition entry_create (c : Command) (p : Promise) : Entry :=
  {| serialized_data := serialize c; entry_meta := meta c; entry_promise := p |}.

(** * The state *)

Inductive Status := Disconnected | Connecting | Connected.

#[global] Instance Status_eq_dec : EqDecision Status.
Proof. solve_decision. Defined.

(** [AnySocket]: detached, or a socket of the event loop with or without TLS. *)
Inductive Socket := Detached | SocketTcp | SocketTls.

Inductive TLS := TlsNone | TlsEnabled | TlsCustom.

Record ConnectionFlags := { is_authenticated : bool; is_manually_closed : bool; is_selecting_db_internal : bool; enable_offline_queue : bool; needs_to_open_socket : bool; enable_auto_reconnect : bool; is_reconnecting : bool; failed : bool; enable_auto_pipelining : bool; finalized : bool; connection_promise_returns_client : bool }.

Record SubscriptionCtx := { is_subscriber : bool; original_enable_offline_queue : bool; original_enable_auto_pipelining : bool }.

Section Client.
Context {T : Target}.

(** What JavaScript gets: the value of a reply, a number, an error. *)
Inductive JsErr :=
| ValkeyError (message : bytes) (err : RedisError)
| ReplyError (v : RESPValue)
| Thrown.
Inductive Settled :=
| Value (v : RESPValue) (return_as_buffer : bool)
| Number (n : Z)
| Undefined
| Rejected (e : JsErr).

Inductive Event :=
| Wrote (data : bytes) (n : Z)
| Settle (p : nat) (x : Settled)
| ConnectSocket
| CloseSocket
| FlusherRegistered
| FlusherUnregistered
| DeferredFailure (message : bytes) (err : RedisError) (in_flight : list PromisePair) (queue : list Entry)
| OnConnect (hello : RESPValue)
| OnMessage (data : list RESPValue)
| ReconnectTimer (ms : Z)
| ConnectionPromise (kept : bool)
| CloseTask
| OnClose.

(** The socket, the JavaScript engine and the listeners. *)
Class Host := {
  socket_write : list Event -> bytes -> Z;
  socket_is_closed : list Event -> bool;
  socket_is_semi : list Event -> bool;
  tls_context_fails : list Event -> bool;
  socket_connects : list Event -> bool;
  to_js_throws : list Event -> RESPValue -> bool;
  js_terminated : list Event -> bool;
  is_shutting_down : list Event -> bool;
  channels_subscribed_to_count : list Event -> option Z;
  microtasks : list Event -> list Command }.

Record Client := {
  socket : Socket;
  status : Status;
  write_buffer : OffsetByteList;
  in_flight : list PromisePair;
  queue : list Entry;
  password : bytes;
  username : bytes;
  database : Z;
  idle_timeout_interval_ms : Z;
  connection_timeout_ms : Z;
  retry_attempts : Z;
  max_retries : Z;
  flags : ConnectionFlags;
  registered : bool;
  _subscription_ctx : SubscriptionCtx;
  tls : TLS;
  connection_promise : bool;
  next_promise : nat;
  log : list Event }.

Definition flag_is_authenticated (b : bool) (c : ConnectionFlags) : ConnectionFlags :=
  {| is_authenticated := b; is_manually_closed := is_manually_closed c; is_selecting_db_internal := is_selecting_db_internal c; enable_offline_queue := enable_offline_queue c; needs_to_open_socket := needs_to_open_socket c; enable_auto_reconnect := enable_auto_reconnect c; is_reconnecting := is_reconnecting c; failed := failed c; enable_auto_pipelining := enable_auto_pipelining c; finalized := finalized c; connection_promise_returns_client := connection_promise_returns_client c |}.
Definition flag_is_manually_closed (b : bool) (c : ConnectionFlags) : ConnectionFlags :=
  {| is_authenticated := is_authenticated c; is_manually_closed := b; is_selecting_db_internal := is_selecting_db_internal c; enable_offline_queue := enable_offline_queue c; needs_to_open_socket := needs_to_open_socket c; enable_auto_reconnect := enable_auto_reconnect c; is_reconnecting := is_reconnecting c; failed := failed c; enable_auto_pipelining := enable_auto_pipelining c; finalized := finalized c; connection_promise_returns_client := connection_promise_returns_client c |}.
Definition flag_is_selecting_db_internal (b : bool) (c : ConnectionFlags) : ConnectionFlags :=
  {| is_authenticated := is_authenticated c; is_manually_closed := is_manually_closed c; is_selecting_db_internal := b; enable_offline_queue := enable_offline_queue c; needs_to_open_socket := needs_to_open_socket c; enable_auto_reconnect := enable_auto_reconnect c; is_reconnecting := is_reconnecting c; failed := failed c; enable_auto_pipelining := enable_auto_pipelining c; finalized := finalized c; connection_promise_returns_client := connection_promise_returns_client c |}.
Definition flag_enable_offline_queue (b : bool) (c : ConnectionFlags) : ConnectionFlags :=
  {| is_authenticated := is_authenticated c; is_manually_closed := is_manually_closed c; is_selecting_db_internal := is_selecting_db_internal c; enable_offline_queue := b; needs_to_open_socket := needs_to_open_socket c; enable_auto_reconnect := enable_auto_reconnect c; is_reconnecting := is_reconnecting c; failed := failed c; enable_auto_pipelining := enable_auto_pipelining c; finalized := finalized c; connection_promise_returns_client := connection_promise_returns_client c |}.
Definition flag_needs_to_open_socket (b : bool) (c : ConnectionFlags) : ConnectionFlags :=
  {| is_authenticated := is_authenticated c; is_manually_closed := is_manually_closed c; is_selecting_db_internal := is_selecting_db_internal c; enable_offline_queue := enable_offline_queue c; needs_to_open_socket := b; enable_auto_reconnect := enable_auto_reconnect c; is_reconnecting := is_reconnecting c; failed := failed c; enable_auto_pipelining := enable_auto_pipelining c; finalized := finalized c; connection_promise_returns_client := connection_promise_returns_client c |}.
Definition flag_connection_promise_returns_client (b : bool) (c : ConnectionFlags) : ConnectionFlags :=
  {| is_authenticated := is_authenticated c; is_manually_closed := is_manually_closed c; is_selecting_db_internal := is_selecting_db_internal c; enable_offline_queue := enable_offline_queue c; needs_to_open_socket := needs_to_open_socket c; enable_auto_reconnect := enable_auto_reconnect c; is_reconnecting := is_reconnecting c; failed := failed c; enable_auto_pipelining := enable_auto_pipelining c; finalized := finalized c; connection_promise_returns_client := b |}.
Definition flag_finalized (b : bool) (c : ConnectionFlags) : ConnectionFlags :=
  {| is_authenticated := is_authenticated c; is_manually_closed := is_manually_closed c; is_selecting_db_internal := is_selecting_db_internal c; enable_offline_queue := enable_offline_queue c; needs_to_open_socket := needs_to_open_socket c; enable_auto_reconnect := enable_auto_reconnect c; is_reconnecting := is_reconnecting c; failed := failed c; enable_auto_pipelining := enable_auto_pipelining c; finalized := b; connection_promise_returns_client := connection_promise_returns_client c |}.
Definition flag_is_reconnecting (b : bool) (c : ConnectionFlags) : ConnectionFlags :=
  {| is_authenticated := is_authenticated c; is_manually_closed := is_manually_closed c; is_selecting_db_internal := is_selecting_db_internal c; enable_offline_queue := enable_offline_queue c; needs_to_open_socket := needs_to_open_socket c; enable_auto_reconnect := enable_auto_reconnect c; is_reconnecting := b; failed := failed c; enable_auto_pipelining := enable_auto_pipelining c; finalized := finalized c; connection_promise_returns_client := connection_promise_returns_client c |}.
Definition flag_enable_auto_reconnect (b : bool) (c : ConnectionFlags) : ConnectionFlags :=
  {| is_authenticated := is_authenticated c; is_manually_closed := is_manually_closed c; is_selecting_db_internal := is_selecting_db_internal c; enable_offline_queue := enable_offline_queue c; needs_to_open_socket := needs_to_open_socket c; enable_auto_reconnect := b; is_reconnecting := is_reconnecting c; failed := failed c; enable_auto_pipelining := enable_auto_pipelining c; finalized := finalized c; connection_promise_returns_client := connection_promise_returns_client c |}.
Definition flag_failed (b : bool) (c : ConnectionFlags) : ConnectionFlags :=
  {| is_authenticated := is_authenticated c; is_manually_closed := is_manually_closed c; is_selecting_db_internal := is_selecting_db_internal c; enable_offline_queue := enable_offline_queue c; needs_to_open_socket := needs_to_open_socket c; enable_auto_reconnect := enable_auto_reconnect c; is_reconnecting := is_reconnecting c; failed := b; enable_auto_pipelining := enable_auto_pipelining c; finalized := finalized c; connection_promise_returns_client := connection_promise_returns_client c |}.
Definition flag_enable_auto_pipelining (b : bool) (c : ConnectionFlags) : ConnectionFlags :=
  {| is_authenticated := is_authenticated c; is_manually_closed := is_manually_closed c; is_selecting_db_internal := is_selecting_db_internal c; enable_offline_queue := enable_offline_queue c; needs_to_open_socket := needs_to_open_socket c; enable_auto_reconnect := enable_auto_reconnect c; is_reconnecting := is_reconnecting c; failed := failed c; enable_auto_pipelining := b; finalized := finalized c; connection_promise_returns_client := connection_promise_returns_client c |}.
Definition with_socket (x : Socket) (c : Client) : Client :=
  {| socket := x; status := status c; write_buffer := write_buffer c; in_flight := in_flight c; queue := queue c; password := password c; username := username c; database := database c; idle_timeout_interval_ms := idle_timeout_interval_ms c; connection_timeout_ms := connection_timeout_ms c; retry_attempts := retry_attempts c; max_retries := max_retries c; flags := flags c; registered := registered c; _subscription_ctx := _subscription_ctx c; tls := tls c; connection_promise := connection_promise c; next_promise := next_promise c; log := log c |}.
Definition with_status (x : Status) (c : Client) : Client :=
  {| socket := socket c; status := x; write_buffer := write_buffer c; in_flight := in_flight c; queue := queue c; password := password c; username := username c; database := database c; idle_timeout_interval_ms := idle_timeout_interval_ms c; connection_timeout_ms := connection_timeout_ms c; retry_attempts := retry_attempts c; max_retries := max_retries c; flags := flags c; registered := registered c; _subscription_ctx := _subscription_ctx c; tls := tls c; connection_promise := connection_promise c; next_promise := next_promise c; log := log c |}.
Definition with_write_buffer (x : OffsetByteList) (c : Client) : Client :=
  {| socket := socket c; status := status c; write_buffer := x; in_flight := in_flight c; queue := queue c; password := password c; username := username c; database := database c; idle_timeout_interval_ms := idle_timeout_interval_ms c; connection_timeout_ms := connection_timeout_ms c; retry_attempts := retry_attempts c; max_retries := max_retries c; flags := flags c; registered := registered c; _subscription_ctx := _subscription_ctx c; tls := tls c; connection_promise := connection_promise c; next_promise := next_promise c; log := log c |}.
Definition with_in_flight (x : list PromisePair) (c : Client) : Client :=
  {| socket := socket c; status := status c; write_buffer := write_buffer c; in_flight := x; queue := queue c; password := password c; username := username c; database := database c; idle_timeout_interval_ms := idle_timeout_interval_ms c; connection_timeout_ms := connection_timeout_ms c; retry_attempts := retry_attempts c; max_retries := max_retries c; flags := flags c; registered := registered c; _subscription_ctx := _subscription_ctx c; tls := tls c; connection_promise := connection_promise c; next_promise := next_promise c; log := log c |}.
Definition with_queue (x : list Entry) (c : Client) : Client :=
  {| socket := socket c; status := status c; write_buffer := write_buffer c; in_flight := in_flight c; queue := x; password := password c; username := username c; database := database c; idle_timeout_interval_ms := idle_timeout_interval_ms c; connection_timeout_ms := connection_timeout_ms c; retry_attempts := retry_attempts c; max_retries := max_retries c; flags := flags c; registered := registered c; _subscription_ctx := _subscription_ctx c; tls := tls c; connection_promise := connection_promise c; next_promise := next_promise c; log := log c |}.
Definition with_retry_attempts (x : Z) (c : Client) : Client :=
  {| socket := socket c; status := status c; write_buffer := write_buffer c; in_flight := in_flight c; queue := queue c; password := password c; username := username c; database := database c; idle_timeout_interval_ms := idle_timeout_interval_ms c; connection_timeout_ms := connection_timeout_ms c; retry_attempts := x; max_retries := max_retries c; flags := flags c; registered := registered c; _subscription_ctx := _subscription_ctx c; tls := tls c; connection_promise := connection_promise c; next_promise := next_promise c; log := log c |}.
Definition with_flags (x : ConnectionFlags) (c : Client) : Client :=
  {| socket := socket c; status := status c; write_buffer := write_buffer c; in_flight := in_flight c; queue := queue c; password := password c; username := username c; database := database c; idle_timeout_interval_ms := idle_timeout_interval_ms c; connection_timeout_ms := connection_timeout_ms c; retry_attempts := retry_attempts c; max_retries := max_retries c; flags := x; registered := registered c; _subscription_ctx := _subscription_ctx c; tls := tls c; connection_promise := connection_promise c; next_promise := next_promise c; log := log c |}.
Definition with_registered (x : bool) (c : Client) : Client :=
  {| socket := socket c; status := status c; write_buffer := write_buffer c; in_flight := in_flight c; queue := queue c; password := password c; username := username c; database := database c; idle_timeout_interval_ms := idle_timeout_interval_ms c; connection_timeout_ms := connection_timeout_ms c; retry_attempts := retry_attempts c; max_retries := max_retries c; flags := flags c; registered := x; _subscription_ctx := _subscription_ctx c; tls := tls c; connection_promise := connection_promise c; next_promise := next_promise c; log := log c |}.
Definition with_subscription_ctx (x : SubscriptionCtx) (c : Client) : Client :=
  {| socket := socket c; status := status c; write_buffer := write_buffer c; in_flight := in_flight c; queue := queue c; password := password c; username := username c; database := database c; idle_timeout_interval_ms := idle_timeout_interval_ms c; connection_timeout_ms := connection_timeout_ms c; retry_attempts := retry_attempts c; max_retries := max_retries c; flags := flags c; registered := registered c; _subscription_ctx := x; tls := tls c; connection_promise := connection_promise c; next_promise := next_promise c; log := log c |}.
Definition with_connection_promise (x : bool) (c : Client) : Client :=
  {| socket := socket c; status := status c; write_buffer := write_buffer c; in_flight := in_flight c; queue := queue c; password := password c; username := username c; database := database c; idle_timeout_interval_ms := idle_timeout_interval_ms c; connection_timeout_ms := connection_timeout_ms c; retry_attempts := retry_attempts c; max_retries := max_retries c; flags := flags c; registered := registered c; _subscription_ctx := _subscription_ctx c; tls := tls c; connection_promise := x; next_promise := next_promise c; log := log c |}.
Definition with_next_promise (x : nat) (c : Client) : Client :=
  {| socket := socket c; status := status c; write_buffer := write_buffer c; in_flight := in_flight c; queue := queue c; password := password c; username := username c; database := database c; idle_timeout_interval_ms := idle_timeout_interval_ms c; connection_timeout_ms := connection_timeout_ms c; retry_attempts := retry_attempts c; max_retries := max_retries c; flags := flags c; registered := registered c; _subscription_ctx := _subscription_ctx c; tls := tls c; connection_promise := connection_promise c; next_promise := x; log := log c |}.
Definition with_log (x : list Event) (c : Client) : Client :=
  {| socket := socket c; status := status c; write_buffer := write_buffer c; in_flight := in_flight c; queue := queue c; password := password c; username := username c; database := database c; idle_timeout_interval_ms := idle_timeout_interval_ms c; connection_timeout_ms := connection_timeout_ms c; retry_attempts := retry_attempts c; max_retries := max_retries c; flags := flags c; registered := registered c; _subscription_ctx := _subscription_ctx c; tls := tls c; connection_promise := connection_promise c; next_promise := next_promise c; log := x |}.

(** * Handlers

    A handler ends with a value, or because JavaScript terminated ([JsTerminated]);
    [None] is a panic. *)

Inductive JsTerminated := Terminated.

Definition J (A : Type) : Type := Client -> option (Client * Result A JsTerminated).

#[global] Instance J_ret : MRet J := fun A a c => Some (c, Ok a).
#[global] Instance J_bind : MBind J := fun A B k m c =>
  match m c with
  | Some (c, Ok a) => k a c
  | Some (c, Err e) => Some (c, Err e)
  | None => None
  end.

Definition gets {A} (f : Client -> A) : J A := fun c => Some (c, Ok (f c)).
Definition modify (f : Client -> Client) : J unit := fun c => Some (f c, Ok tt).
Definition jpanic {A} : J A := fun _ => None.
Definition expect {A} (o : option A) : J A := match o with Some a => mret a | None => jpanic end.
Definition terminate {A} : J A := fun c => Some (c, Err Terminated).
Definition skip : J unit := mret tt.
Definition when (b : bool) (m : J unit) : J unit := if b then m else skip.
(** [let _ = m]. *)
Definition ignore {A} (m : J A) : J unit := fun c =>
  match m c with Some (c, _) => Some (c, Ok tt) | None => None end.
(** Whether [m] ended with a value. *)
Definition attempt (m : J unit) : J bool := fun c =>
  match m c with Some (c, Ok _) => Some (c, Ok true) | Some (c, Err _) => Some (c, Ok false) | None => None end.
(** [m], then [k] also when [m] ended early: a guard dropped at the end of a scope. *)
Definition finally {A} (m : J A) (k : J unit) : J A := fun c =>
  match m c with
  | Some (c, r) => match k c with Some (c, _) => Some (c, r) | None => None end
  | None => None
  end.

Context {H : Host}.

Definition emit (e : Event) : J unit := modify (fun c => with_log (e :: log c) c).

Definition set_flags (f : ConnectionFlags -> ConnectionFlags) : J unit := modify (fun c => with_flags (f (flags c)) c).
Definition flag (f : ConnectionFlags -> bool) : J bool := gets (fun c => f (flags c)).

(** A call into JavaScript, which may be told to terminate. *)
Definition call_js (e : Event) : J unit :=
  emit e;;
  t ← gets (fun c => js_terminated (log c));
  if (t : bool) then terminate else skip.

Definition promise_reject (p : Promise) (e : JsErr) : J unit := call_js (Settle (promise p) (Rejected e)).

(** [Promise::resolve]: the value is converted first. *)
Definition promise_resolve (p : Promise) (v : RESPValue) : J unit :=
  throws ← gets (fun c => to_js_throws (log c) v);
  if (throws : bool) then promise_reject p Thrown
  else call_js (Settle (promise p) (Value v (contains (promise_meta p) RETURN_AS_BUFFER))).

Definition promise_create (m : Z) : J Promise :=
  p ← gets next_promise;
  modify (fun c => with_next_promise (S p) c);;
  mret {| promise_meta := m; promise := p |}.

Definition register_auto_flusher : J unit :=
  r ← gets registered;
  when (negb r) (emit FlusherRegistered;; modify (with_registered true)).

Definition unregister_auto_flusher : J unit :=
  r ← gets registered;
  when r (emit FlusherUnregistered;; modify (with_registered false)).

Definition write_buffer_write (b : bytes) : J unit := modify (fun c => with_write_buffer (obl_write (write_buffer c) b) c).

(** [self.socket.write(data)]. *)
Definition do_socket_write (data : bytes) : J Z :=
  n ← gets (fun c => socket_write (log c) data);
  emit (Wrote data n);;
  mret n.

Definition flush_data : J bool :=
  o ← gets write_buffer;
  chunk ← expect (remaining o);
  if decide (chunk = []) then mret false
  else
    wrote ← do_socket_write chunk;
    when (0 <? wrote) (modify (fun c => with_write_buffer (consume (write_buffer c) wrote) c));;
    gets (fun c => 0 <? obl_len (write_buffer c)).

Definition connection_ready (c : Client) : bool :=
  is_authenticated (flags c) && negb (is_selecting_db_internal (flags c)).

Definition queue_read_item : J (option Entry) :=
  q ← gets queue;
  match q with
  | [] => mret None
  | e :: q => modify (with_queue q);; mret (Some e)
  end.

Definition in_flight_read_item : J (option PromisePair) :=
  q ← gets in_flight;
  match q with
  | [] => mret None
  | e :: q => modify (with_in_flight q);; mret (Some e)
  end.

Definition in_flight_write_item (p : PromisePair) : J unit := modify (fun c => with_in_flight (in_flight c ++ [p]) c).
Definition queue_write_item (e : Entry) : J unit := modify (fun c => with_queue (queue c ++ [e]) c).

Definition entry_pair (e : Entry) : PromisePair := {| pair_meta := entry_meta e; pair_promise := entry_promise e |}.

Definition pipelines (e : Entry) : bool := contains (entry_meta e) SUPPORTS_AUTO_PIPELINING.

(** The bytes of a command straight to the socket, what it did not take into the buffer. *)
Definition write_through (data : bytes) : J unit :=
  wrote ← do_socket_write data;
  unwritten ← expect (slice_from data (Z.to_nat (Z.max wrote 0)));
  when (negb (bool_decide (unwritten = []))) (write_buffer_write unwritten).

Definition drain : J bool :=
  busy ← gets (fun c => negb (bool_decide (in_flight c = [])) &&
    match queue c with e :: _ => negb (pipelines e) | [] => false end);
  if (busy : bool) then mret false
  else
    cmd ← queue_read_item;
    match cmd with
    | None => mret false
    | Some offline_cmd =>
      in_flight_write_item (entry_pair offline_cmd);;
      let data := serialized_data offline_cmd in
      o ← gets write_buffer;
      rest ← expect (remaining o);
      ready ← gets connection_ready;
      if ready && bool_decide (rest = []) then write_through data;; mret true
      else write_buffer_write data;; mret true
    end.

Definition send_next_command : J unit :=
  o ← gets write_buffer;
  rest ← expect (remaining o);
  ready ← gets connection_ready;
  (if bool_decide (rest = []) && ready then
    q ← gets queue;
    match q with
    | e :: _ =>
      if negb (pipelines e) then
        busy ← gets in_flight;
        if decide (busy = []) then
          drain;;
          q ← gets queue;
          when (match q with e :: _ => pipelines e | [] => false end) register_auto_flusher
        else skip
      else register_auto_flusher
    | [] =>
      busy ← gets in_flight;
      when (bool_decide (busy = [])) (drain;; skip)
    end
  else skip);;
  flush_data;; skip.

Definition on_writable : J unit := send_next_command.

(** The commands at the head of the queue that may share a write. *)
Fixpoint flush_loop (n : nat) : J unit :=
  match n with
  | O => skip
  | S n =>
    e ← queue_read_item;
    e ← expect e;
    in_flight_write_item (entry_pair e);;
    write_buffer_write (serialized_data e);;
    flush_loop n
  end.

Definition on_auto_flush : J bool :=
  s ← gets status;
  if negb (bool_decide (s = Connected)) then modify (with_registered false);; mret false
  else
    n ← gets (fun c => prefix_len pipelines (queue c));
    flush_loop n;;
    flush_data;;
    have_more ← gets (fun c => negb (bool_decide (queue c = [])));
    modify (with_registered have_more);;
    mret have_more.

(** * Sending *)

Definition enqueue (c : Command) (p : Promise) : J unit :=
  let pipe := contains (meta c) SUPPORTS_AUTO_PIPELINING in
  auto ← flag enable_auto_pipelining;
  let can_pipeline := pipe && auto in
  queued ← gets (fun c => negb (bool_decide (queue c = [])));
  busy ← gets (fun c => negb (bool_decide (in_flight c = [])));
  ready ← gets connection_ready;
  if queued || (negb can_pipeline && busy) || negb ready || (negb pipe && queued) || can_pipeline then
    queue_write_item (entry_create c p);;
    s ← gets status;
    when (bool_decide (s = Connected) && can_pipeline) register_auto_flusher
  else
    s ← gets status;
    match s with
    | Connecting | Connected =>
      write_buffer_write (serialize c);;
      in_flight_write_item {| pair_meta := meta c; pair_promise := p |};;
      flush_data;; skip
    | Disconnected => jpanic
    end.

Definition send (c : Command) : J nat :=
  let c := {| command := command c; args := args c; meta := meta_check (meta c) c |} in
  p ← promise_create (meta c);
  f ← flag failed;
  (if (f : bool) then ignore (promise_reject p (ValkeyError b!"Connection has failed" ConnectionClosed))
   else
     s ← gets status;
     match s with
     | Connected =>
       enqueue c p;;
       auto ← flag enable_auto_pipelining;
       s ← gets status;
       queued ← gets (fun c => negb (bool_decide (queue c = [])));
       when (auto && contains (meta c) SUPPORTS_AUTO_PIPELINING && bool_decide (s = Connected) && queued) register_auto_flusher
     | Connecting | Disconnected =>
       offline ← flag enable_offline_queue;
       if (offline : bool) then enqueue c p
       else ignore (promise_reject p (ValkeyError b!"Connection is closed and offline queue is disabled" ConnectionClosed))
     end);;
  mret (promise p).

(** The end of a scope of the event loop runs the microtasks, whose scripts may send. *)
Fixpoint send_all (l : list Command) : J unit :=
  match l with [] => skip | c :: l => send c;; send_all l end.

Definition in_scope {A} (m : J A) : J A := finally m (l ← gets (fun c => microtasks (log c)); send_all l).

(** * Failing and closing *)

Fixpoint reject_pairs (l : list PromisePair) (e : JsErr) : J unit :=
  match l with [] => skip | p :: l => promise_reject (pair_promise p) e;; reject_pairs l e end.

Fixpoint reject_entries (l : list Entry) (e : JsErr) : J unit :=
  match l with [] => skip | p :: l => promise_reject (entry_promise p) e;; reject_entries l e end.

Definition reject_all_pending_commands (e : JsErr) : J unit :=
  pending ← gets in_flight;
  entries ← gets queue;
  modify (fun c => with_queue [] (with_in_flight [] c));;
  reject_pairs pending e;;
  reject_entries entries e.

(** Closing a socket that is not established yet runs the close handler, which
    may fail the client, which closes: [close] is the call of the next round. *)
Definition fail_with_js_value_ (close : J unit) (e : JsErr) : J unit :=
  f ← flag failed;
  if (f : bool) then skip
  else
    set_flags (flag_failed true);;
    finally (reject_all_pending_commands e)
      (ready ← gets connection_ready;
       when (negb ready) (set_flags (flag_is_manually_closed true);; close)).

Definition fail_ (close : J unit) (message : bytes) (err : RedisError) : J unit :=
  f ← flag failed;
  if (f : bool) then skip
  else
    fin ← flag finalized;
    if (fin : bool) then
      pending ← gets in_flight;
      entries ← gets queue;
      when (negb (bool_decide (length pending + length entries = 0)%nat))
        (emit (DeferredFailure message err pending entries);;
         modify (fun c => with_queue [] (with_in_flight [] c)))
    else fail_with_js_value_ close (ValkeyError message err).

Definition get_reconnect_delay (c : Client) : Z :=
  let fix double (n : nat) (delay : Z) : Z :=
    match n with O => delay | S n => double n (Z.min (delay * 2) 2000) end in
  if retry_attempts c =? 0 then 50
  else double (Z.to_nat (Z.min (retry_attempts c) 10) - 1)%nat 50.

(** JSValkeyClient::on_valkey_close and on_valkey_reconnect. *)
Definition on_valkey_close : J unit :=
  in_scope
    (waits ← gets connection_promise;
     when waits (modify (with_connection_promise false);; call_js (ConnectionPromise false));;
     emit OnClose).
Definition on_valkey_reconnect : J unit :=
  delay_ms ← gets get_reconnect_delay;
  when (0 <? delay_ms) (emit (ReconnectTimer delay_ms)).

Definition on_close_ (close : J unit) : J unit :=
  unregister_auto_flusher;;
  modify (with_write_buffer obl_default);;
  manual ← flag is_manually_closed;
  if (manual : bool) then fail_ close b!"Connection closed" ConnectionClosed;; on_valkey_close
  else
    auto ← flag enable_auto_reconnect;
    if negb auto then fail_ close b!"Connection closed" ConnectionClosed;; on_valkey_close
    else
      modify (fun c => with_retry_attempts (trunc32 (retry_attempts c + 1)) c);;
      delay_ms ← gets get_reconnect_delay;
      over ← gets (fun c => max_retries c <? retry_attempts c);
      if (delay_ms =? 0) || over then fail_ close b!"Max reconnection attempts reached" ConnectionClosed;; on_valkey_close
      else
        set_flags (fun f => flag_is_reconnecting true (flag_is_authenticated false (flag_is_selecting_db_internal false f)));;
        on_valkey_reconnect.

(** The handlers of established sockets run on their own: they are the
    operation [on_close]. *)
Fixpoint close_loop (fuel : nat) : J unit :=
  match fuel with
  | O => jpanic
  | S fuel =>
    s ← gets socket;
    modify (with_socket Detached);;
    closed ← gets (fun c => match s with Detached => true | _ => socket_is_closed (log c) end);
    if (closed : bool) then skip
    else
      semi ← gets (fun c => socket_is_semi (log c));
      emit CloseSocket;;
      when semi (modify (with_status Disconnected);; ignore (on_close_ (close_loop fuel)))
  end.

(** After one round the socket is detached. *)
Definition close : J unit := close_loop 2.
Definition fail_with_js_value : JsErr -> J unit := fail_with_js_value_ close.
Definition fail : bytes -> RedisError -> J unit := fail_ close.
Definition on_close : J unit := on_close_ close.

Definition disconnect : J unit :=
  set_flags (flag_is_manually_closed true);;
  unregister_auto_flusher;;
  s ← gets status;
  when (bool_decide (s = Connected) || bool_decide (s = Connecting)) close.

Definition on_valkey_timeout : J unit := fail b!"Connection timeout" ConnectionClosed.

(** SocketHandler::on_close and on_connect_error: the status is set last. *)
Definition socket_on_close : J unit :=
  modify (with_socket Detached);;
  finally on_close (modify (with_status Disconnected)).

(** [shutdown] with the global object, and while finalizing. *)
Fixpoint reject_all_ignoring (l : list Promise) (e : JsErr) : J unit :=
  match l with [] => skip | p :: l => ignore (promise_reject p e);; reject_all_ignoring l e end.

Definition shutdown (finalizing : bool) : J unit :=
  pending ← gets in_flight;
  commands ← gets queue;
  modify (fun c => with_queue [] (with_in_flight [] c));;
  (if finalizing then skip
   else reject_all_ignoring (map pair_promise pending ++ map entry_promise commands) (ValkeyError b!"Connection closed" ConnectionClosed));;
  unregister_auto_flusher.

Definition get_timeout_interval (c : Client) : Z :=
  if failed (flags c) then 0
  else match status c with Connected => idle_timeout_interval_ms c | _ => connection_timeout_ms c end.

(** * Opening *)

Definition raw (name : bytes) (l : list bytes) : Command := {| command := name; args := Raw l; meta := meta_default |}.

Definition hello_command (username password : bytes) : Command :=
  raw b!"HELLO"
    (if decide (username = [] /\ password = []) then [b!"3"]
     else [b!"3"; b!"AUTH"; if decide (username = []) then b!"default" else username; password]).

Definition authenticate : J unit :=
  c ← gets id;
  write_buffer_write (serialize (hello_command (username c) (password c)));;
  when (0 <? database c)
    (write_buffer_write (serialize (raw b!"SELECT" [decimal (database c)]));;
     set_flags (flag_is_selecting_db_internal true)).

Definition start : J unit := authenticate;; flush_data;; skip.

(** The part of [on_open] after the read side is cleared. *)
Definition open_ (s : Socket) : J unit :=
  modify (fun c => with_socket s (with_write_buffer obl_default c));;
  set_flags (fun f => flag_failed false (flag_is_authenticated false (flag_is_selecting_db_internal false f)));;
  match s with SocketTcp => start | _ => skip end.

(** JSValkeyClient::connect: whether it returns [Ok].  The SSL context of a
    custom configuration is made by the host, and [Address::connect] is. *)
Definition connect : J bool :=
  set_flags (flag_needs_to_open_socket false);;
  tls_ctx_failed ← gets (fun c => match tls c with TlsCustom => tls_context_fails (log c) | _ => false end);
  if (tls_ctx_failed : bool) then
    set_flags (flag_enable_auto_reconnect false);;
    attempt
      (fail b!"Failed to create TLS context" ConnectionClosed;;
       on_valkey_close;;
       modify (with_status Disconnected))
  else
    modify (with_status Connecting);;
    emit ConnectSocket;;
    ok ← gets (fun c => socket_connects (log c));
    (if (ok : bool) then modify (fun c => with_socket (match tls c with TlsNone => SocketTcp | _ => SocketTls end) c)
     else modify (with_status Disconnected));;
    mret ok.

Definition reconnect : J unit :=
  r ← flag is_reconnecting;
  shutting_down ← gets (fun c => is_shutting_down (log c));
  when (r && negb shutting_down)
    (ok ← connect;
     when (negb ok) (in_scope (emit OnClose))).

Definition do_connect : J unit :=
  s ← gets status;
  waits ← gets connection_promise;
  when (negb (bool_decide (s = Connected)) && negb waits)
    (modify (with_connection_promise true);;
     set_flags (fun f => flag_is_manually_closed false (flag_failed false f));;
     needs ← flag needs_to_open_socket;
     if (needs : bool) then
       ok ← connect;
       when (negb ok) (set_flags (flag_needs_to_open_socket true);; in_scope (call_js (ConnectionPromise false)))
     else
       when (bool_decide (s = Disconnected))
         (set_flags (flag_is_reconnecting true);;
          modify (with_retry_attempts 0);;
          reconnect)).

(** JSValkeyClient::send; when the socket does not open, the promise it returns
    is a new one, rejected. *)
Definition js_send (c : Command) : J unit :=
  needs ← flag needs_to_open_socket;
  ok ← (if (needs : bool) then connect else mret true);
  if (ok : bool) then send c;; skip
  else set_flags (flag_needs_to_open_socket true);; in_scope skip.

(** * Timers, handshakes and the end of the wrapper *)

Definition js_disconnect : J unit :=
  s ← gets status;
  when (negb (bool_decide (s = Disconnected))) disconnect.

(** The timers themselves are not part of the model. *)
Definition on_connection_timeout : J unit :=
  f ← flag failed;
  interval ← gets get_timeout_interval;
  when (negb f && negb (interval =? 0))
    (s ← gets status;
     ms ← gets (fun c => match s with Connected => idle_timeout_interval_ms c | _ => connection_timeout_ms c end);
     match s with
     | Connected => ignore (fail (b!"Idle timeout reached after " ++ decimal ms ++ b!"ms") IdleTimeout)
     | _ => ignore (fail (b!"Connection timeout reached after " ++ decimal ms ++ b!"ms") ConnectionTimeout)
     end).

Definition on_reconnect_timer : J unit := reconnect.

(** The name the certificate has to match: the servername of the handshake or
    the host, an IPv6 address without its brackets. *)
Definition handshake_hostname (servername : option bytes) (host : bytes) : bytes :=
  let hostname := default host servername in
  let n := length hostname in
  if bool_decide (2 <= n)%nat && bool_decide (hostname !! 0%nat = Some #"[") && bool_decide (hostname !! (n - 1)%nat = Some #"]")
  then take (n - 2) (drop 1 hostname)
  else hostname.

(** What [verify_error_to_js] gives. *)
Inductive VerifyError := VerifyValue | VerifyThrown | VerifyTerminated.

Definition fail_handshake (err_value : JsErr) : J unit :=
  set_flags (flag_is_authenticated false);;
  in_scope
    (set_flags (flag_is_manually_closed true);;
     finally (fail_with_js_value err_value) close).

Definition fail_handshake_with_verify_error (v : VerifyError) : J unit :=
  match v with
  | VerifyTerminated => terminate
  | VerifyThrown => set_flags (flag_is_authenticated false);; set_flags (flag_is_manually_closed true);; close
  | VerifyValue => fail_handshake Thrown
  end.

Definition on_handshake (success reject_unauthorized : bool) (error_no : Z) (v : VerifyError)
    (servername : option bytes) (host : bytes) (check_server_identity : bytes -> bool) : J unit :=
  if success then
    let hostname := handshake_hostname servername host in
    if reject_unauthorized && negb (error_no =? 0) then fail_handshake_with_verify_error v
    else if reject_unauthorized && negb (bool_decide (hostname = [])) && negb (check_server_identity hostname) then fail_handshake Thrown
    else start
  else fail_handshake_with_verify_error v.

(** The task that closes the socket is [close]. *)
Definition close_socket_next_tick : J unit :=
  s ← gets socket;
  closed ← gets (fun c => match s with Detached => true | _ => socket_is_closed (log c) end);
  if (closed : bool) then skip
  else
    shutting_down ← gets (fun c => is_shutting_down (log c));
    if (shutting_down : bool) then close else emit CloseTask.

Definition finalize : J unit :=
  set_flags (flag_finalized true);;
  close_socket_next_tick.

(** * Replies *)

Definition add_subscription : J unit :=
  modify (fun c =>
    let s := _subscription_ctx c in
    with_subscription_ctx
      (if is_subscriber s then s
       else {| is_subscriber := true; original_enable_offline_queue := enable_offline_queue (flags c);
               original_enable_auto_pipelining := enable_auto_pipelining (flags c) |}) c).

Definition has_subscriptions (c : Client) : bool :=
  match channels_subscribed_to_count (log c) with Some n => 0 <? n | None => false end.

Definition remove_subscription : J unit :=
  more ← gets has_subscriptions;
  when (negb more)
    (modify (fun c =>
       let s := _subscription_ctx c in
       with_subscription_ctx
         {| is_subscriber := false; original_enable_offline_queue := original_enable_offline_queue s;
            original_enable_auto_pipelining := original_enable_auto_pipelining s |}
         (with_flags (flag_enable_offline_queue (original_enable_offline_queue s)
            (flag_enable_auto_pipelining (original_enable_auto_pipelining s) (flags c))) c))).

(** [SubscriptionCtx::init], unless the client subscribes already. *)
Definition get_or_create_subscription_ctx : J unit :=
  modify (fun c =>
    if is_subscriber (_subscription_ctx c) then c
    else
      with_subscription_ctx
        {| is_subscriber := false; original_enable_offline_queue := enable_offline_queue (flags c);
           original_enable_auto_pipelining := enable_auto_pipelining (flags c) |}
        (with_flags
           (flag_enable_auto_pipelining false
              (if decide (status c = Connected) then flag_enable_offline_queue false (flags c) else flags c)) c)).

Definition subscriber : J bool := gets (fun c => is_subscriber (_subscription_ctx c)).

Definition on_valkey_message (data : list RESPValue) : J unit :=
  s ← subscriber;
  when s
    (in_scope
       match data with
       | channel :: message :: _ =>
         throws ← gets (fun c => to_js_throws (log c) channel || to_js_throws (log c) message);
         when (negb throws)
           (emit (OnMessage data);;
            t ← gets (fun c => js_terminated (log c));
            when (negb t) on_writable)
       | _ => skip
       end).

Definition on_valkey_subscribe : J unit := on_writable.
Definition on_valkey_unsubscribe : J unit := on_writable.

Definition on_valkey_connect (hello : RESPValue) : J unit :=
  finally
    (in_scope
       (emit (OnConnect hello);;
        waits ← gets connection_promise;
        when waits
          (modify (with_connection_promise false);;
           call_js (ConnectionPromise true);;
           set_flags (flag_connection_promise_returns_client false))))
    on_writable.

Inductive SubscribeHandled := Handled | Fallthrough.

Definition when_some {A} (o : option A) (f : A -> J unit) : J unit := match o with Some a => f a | None => skip end.

Definition handle_subscribe_response (value : RESPValue) (pair_maybe : option PromisePair) : J SubscribeHandled :=
  in_scope
    match value with
    | Error _ =>
      when_some pair_maybe (fun p => promise_reject (pair_promise p) (ReplyError value));;
      mret Handled
    | Push kind data =>
      sub_count ← gets (fun c => channels_subscribed_to_count (log c));
      match sub_count with
      | None => terminate
      | Some sub_count =>
        match from_bytes kind with
        | Some Message => on_valkey_message data;; mret Handled
        | Some Subscribe =>
          add_subscription;;
          on_valkey_subscribe;;
          when_some pair_maybe (fun p => call_js (Settle (promise (pair_promise p)) (Number sub_count)));;
          mret Handled
        | Some Unsubscribe =>
          on_valkey_unsubscribe;;
          remove_subscription;;
          when_some pair_maybe (fun p => call_js (Settle (promise (pair_promise p)) Undefined));;
          mret Handled
        | None => fail b!"Push message is not a subscription message." InvalidResponseType;; mret Handled
        end
      end
    | _ => mret Fallthrough
    end.

(** The protocol versions the entries of a HELLO reply give: the first that is not 3 fails. *)
Definition wrong_proto (e : RESPValue * RESPValue) : bool :=
  match e with
  | (SimpleString key, Integer v) => bool_decide (key = b!"proto") && negb (v =? 3)
  | _ => false
  end.

Definition hello_accepted (value : RESPValue) : J unit :=
  modify (with_status Connected);;
  set_flags (fun f => flag_is_authenticated true (flag_is_reconnecting false f));;
  modify (with_retry_attempts 0);;
  on_valkey_connect value.

Definition handle_hello_response (value : RESPValue) : J unit :=
  match value with
  | Error err => fail err AuthenticationFailed
  | SimpleString str_ =>
    if decide (str_ = b!"OK") then hello_accepted value
    else fail b!"Authentication failed (unexpected response)" AuthenticationFailed
  | Map map =>
    if existsb wrong_proto map then fail b!"Server does not support RESP3" UnsupportedProtocol
    else hello_accepted value
  | _ => fail b!"Authentication failed with unexpected response" AuthenticationFailed
  end.

Definition handle_select_response (value : RESPValue) : J unit :=
  match value with
  | Error err_str => fail err_str InvalidCommand
  | SimpleString ok_str =>
    if decide (ok_str = b!"OK") then send_next_command
    else fail b!"SELECT command failed with non-OK response" InvalidResponse
  | _ => fail b!"Received non-SELECT response while in the SELECT state." InvalidResponse
  end.

(** Whether a reply belongs to the command at the head of the pipeline. *)
Definition should_consume_promise_pair (c : Client) (value : RESPValue) : bool :=
  if is_subscriber (_subscription_ctx c) then
    match value with
    | Push kind _ =>
      match from_bytes kind with
      | Some Message => false
      | Some Subscribe | Some Unsubscribe => negb (bool_decide (in_flight c = []))
      | None => true
      end
    | _ => true
    end
  else true.

Definition as_bool (m : Z) (value : RESPValue) : RESPValue :=
  match value with
  | Integer n => if contains m RETURN_AS_BOOL then Boolean (0 <? n) else value
  | _ => value
  end.

(** The reply to an ordinary command settles its promise. *)
Definition settle_command (pair_maybe : option PromisePair) (value : RESPValue) : J unit :=
  match pair_maybe with
  | None => skip
  | Some p =>
    let value := as_bool (pair_meta p) value in
    in_scope
      match value with
      | Error _ =>
        throws ← gets (fun c => to_js_throws (log c) value);
        promise_reject (pair_promise p) (if (throws : bool) then Thrown else ReplyError value)
      | _ => promise_resolve (pair_promise p) value
      end
  end.

Definition handle_response (value : RESPValue) : J unit :=
  auth ← flag is_authenticated;
  if negb auth then handle_hello_response value
  else
    selecting ← flag is_selecting_db_internal;
    if (selecting : bool) then set_flags (flag_is_selecting_db_internal false);; handle_select_response value
    else
      consume ← gets (fun c => should_consume_promise_pair c value);
      pair_maybe ← (if (consume : bool) then in_flight_read_item else mret None);
      s ← subscriber;
      if s || match pair_maybe with Some p => contains (pair_meta p) SUBSCRIPTION_REQUEST | None => false end then
        match value with
        | Error err => fail err InvalidResponse
        | Push kind _ =>
          if from_bytes kind then
            h ← handle_subscribe_response value pair_maybe;
            match h with Handled => skip | Fallthrough => settle_command pair_maybe value end
          else fail b!"Unexpected push message kind without promise" InvalidResponseType
        | _ => settle_command pair_maybe value
        end
      else settle_command pair_maybe value.

(** * Data from the socket *)

(** The client with its read side. *)
Record ValkeyClient := { client : Client; read_buffer : OffsetByteList; reply_scanner : ReplyScanner }.

Definition stopped (c : Client) : bool := bool_decide (status c = Disconnected) || failed (flags c).

(** A handler of the client in one of [ValkeyClient]; [on_data] returns after it
    when JavaScript terminated. *)
Definition run_handler (m : J unit) (c : Client) : option (Client * bool) :=
  match m c with
  | Some (c, Ok _) => Some (c, true)
  | Some (c, Err _) => Some (c, false)
  | None => None
  end.

(** [handle_response], the checks after it and [send_next_command]: the client
    and whether the loop goes on. *)
Definition handle_reply (value : RESPValue) (c : Client) : option (Client * bool) :=
  r ← run_handler (handle_response value) c;
  let '(c, ok) := r in
  if negb ok || stopped c then Some (c, false)
  else run_handler send_next_command c.

Definition fail_data (v : ValkeyClient) (message : bytes) (err : RedisError) : option ValkeyClient :=
  r ← run_handler (fail message err) (client v);
  Some {| client := r.1; read_buffer := read_buffer v; reply_scanner := reply_scanner v |}.

(** The path through the read buffer. *)
Fixpoint buffer_path (fuel : nat) (v : ValkeyClient) : option ValkeyClient :=
  match fuel with
  | O => None
  | S fuel =>
    remaining_buffer ← remaining (read_buffer v);
    if decide (remaining_buffer = []) then Some v
    else
      scanned ← reply_scan (reply_scanner v) remaining_buffer;
      let '(s, r) := scanned in
      let v := {| client := client v; read_buffer := read_buffer v; reply_scanner := s |} in
      match r with
      | Err err => fail_data v b!"Failed to read data (buffer path)" err
      | Ok NeedMoreData => Some v
      | Ok Complete =>
        read ← read_value (reader_init remaining_buffer);
        match read with
        | (_, Err err) => fail_data v b!"Failed to read data (buffer path)" err
        | (reader, Ok value) =>
          let bytes_consumed := pos reader in
          if decide (bytes_consumed = 0%nat) then
            fail_data v b!"Parser consumed 0 bytes unexpectedly (buffer path)" InvalidResponse
          else
            let buffer := consume (read_buffer v) (trunc32 (Z.of_nat bytes_consumed)) in
            r ← handle_reply value (client v);
            let v := {| client := r.1; read_buffer := buffer; reply_scanner := reset |} in
            if (r.2 : bool) then buffer_path fuel v else Some v
        end
      end
  end.

(** The path through the data itself. *)
Fixpoint stack_path (fuel : nat) (v : ValkeyClient) (data : bytes) : option ValkeyClient :=
  match fuel with
  | O => None
  | S fuel =>
    if decide (data = []) then Some v
    else
      read ← read_value (reader_init data);
      match read with
      | (_, Err err) =>
        if decide (err = InvalidResponse) then
          Some {| client := client v; read_buffer := obl_write (read_buffer v) data; reply_scanner := reset |}
        else fail_data v b!"Failed to read data (stack path)" err
      | (reader, Ok value) =>
        let bytes_consumed := pos reader in
        if decide (bytes_consumed = 0%nat) then
          fail_data v b!"Parser consumed 0 bytes unexpectedly (stack path)" InvalidResponse
        else
          data ← slice_from data bytes_consumed;
          r ← handle_reply value (client v);
          let v := {| client := r.1; read_buffer := read_buffer v; reply_scanner := reply_scanner v |} in
          if (r.2 : bool) then stack_path fuel v data else Some v
      end
  end.

Definition on_data (v : ValkeyClient) (data : bytes) : option ValkeyClient :=
  rest ← remaining (read_buffer v);
  if decide (rest = []) then stack_path (S (length data)) v data
  else
    let v := {| client := client v; read_buffer := obl_write (read_buffer v) data; reply_scanner := reply_scanner v |} in
    buffer_path (S (length (byte_list (read_buffer v)))) v.

Definition on_open (v : ValkeyClient) (s : Socket) : option ValkeyClient :=
  r ← run_handler (open_ s) (client v);
  Some {| client := r.1; read_buffer := obl_default; reply_scanner := reset |}.

Definition has_any_pending_commands (v : ValkeyClient) : bool :=
  let c := client v in
  negb (bool_decide (in_flight c = [])) || negb (bool_decide (queue c = [])) ||
  (0 <? obl_len (write_buffer c)) || (0 <? obl_len (read_buffer v)).

End Client.
