(* ===== verification/ValkeyInv.v ===== *)
(** What every handler of the client keeps: a calculus of preservation for its
    monad, and with it that no promise is settled twice, whatever happens to the
    connection. *)
From S2P Require Import Prelude BunCore Valkey ValkeyClient.

(** * Preservation *)

Section Preserves.
Context {T : Target} {H : Host}.

Definition preserves {A} (P : Client -> Prop) (m : J A) : Prop := forall c c' r, m c = Some (c', r) -> P c -> P c'.

Context (P : Client -> Prop).

Lemma preserves_bind {A B} (m : J A) (k : A -> J B) : preserves P m -> (forall a, preserves P (k a)) -> preserves P (mbind k m).
Proof.
  intros Hm Hk c c' r. unfold mbind, J_bind. destruct (m c) as [[c1 [a|e]]|] eqn:E; [|intros [= <- <-]; by eapply Hm|done].
  intros Ek Hc. eapply Hk; [done|]. by eapply Hm.
Qed.

Lemma preserves_ret {A} (a : A) : preserves P (mret a).
Proof. by intros c c' r [= <- <-]. Qed.

Lemma preserves_terminate {A} : preserves P (terminate (A := A)).
Proof. by intros c c' r [= <- <-]. Qed.

Lemma preserves_panic {A} : preserves P (jpanic (A := A)).
Proof. done. Qed.

Lemma preserves_gets {A} (f : Client -> A) : preserves P (gets f).
Proof. by intros c c' r [= <- <-]. Qed.

Lemma preserves_expect {A} (o : option A) : preserves P (expect o).
Proof. destruct o; [apply preserves_ret | apply preserves_panic]. Qed.

Lemma preserves_ignore {A} (m : J A) : preserves P m -> preserves P (ignore m).
Proof. intros Hm c c' r. unfold ignore. destruct (m c) as [[c1 x]|] eqn:E; [|done]. intros [= <- <-]. by eapply Hm. Qed.

Lemma preserves_attempt (m : J unit) : preserves P m -> preserves P (attempt m).
Proof. intros Hm c c' r. unfold attempt. destruct (m c) as [[c1 [x|x]]|] eqn:E; [| |done]; intros [= <- <-]; by eapply Hm. Qed.

Lemma preserves_finally {A} (m : J A) k : preserves P m -> preserves P k -> preserves P (finally m k).
Proof.
  intros Hm Hk c c' r. unfold finally. destruct (m c) as [[c1 x]|] eqn:E; [|done]. destruct (k c1) as [[c2 y]|] eqn:Ek; [|done].
  intros [= <- <-] Hc. eapply Hk; [done|]. by eapply Hm.
Qed.

Lemma preserves_when (b : bool) m : preserves P m -> preserves P (when b m).
Proof. destruct b; [done | intros _; apply preserves_ret]. Qed.

Lemma preserves_modify f : (forall c, P c -> P (f c)) -> preserves P (modify f).
Proof. intros Hf c c' r [= <- <-]. apply Hf. Qed.

Lemma preserves_flag f : preserves P (flag f).
Proof. apply preserves_gets. Qed.

Lemma preserves_when_some {A} (o : option A) f : (forall a, preserves P (f a)) -> preserves P (when_some o f).
Proof. intros Hf. destruct o; [apply Hf | apply preserves_ret]. Qed.

End Preserves.

Create HintDb keep.
#[export] Hint Resolve preserves_ret preserves_terminate preserves_panic preserves_gets preserves_expect preserves_flag : keep.

(** One step down a handler; a [modify] is left to the hints of the property. *)
Ltac keep_step :=
  lazymatch goal with
  | |- preserves _ (mbind _ queue_read_item) => fail
  | |- preserves _ (mbind _ in_flight_read_item) => fail
  | |- preserves _ (mbind _ (promise_create _)) => fail
  | |- preserves _ (mbind _ _) => apply preserves_bind; [|intros ?]
  | |- preserves _ (when _ _) => apply preserves_when
  | |- preserves _ (when_some _ _) => apply preserves_when_some; intros ?
  | |- preserves _ (ignore _) => apply preserves_ignore
  | |- preserves _ (attempt _) => apply preserves_attempt
  | |- preserves _ (finally _ _) => apply preserves_finally
  | |- preserves _ (match ?x with _ => _ end) => destruct x
  | |- preserves _ skip => apply preserves_ret
  | |- preserves _ subscriber => apply preserves_gets
  | _ => solve [auto with keep]
  end.
Ltac keep := repeat keep_step.

(** * Promises *)

Section Once.
Context {T : Target} {H : Host}.

Definition pair_id (p : PromisePair) : nat := promise (pair_promise p).
Definition entry_id (e : Entry) : nat := promise (entry_promise e).

(** The promises settled so far, or handed to a task that settles them. *)
Fixpoint settled (l : list Event) : list nat :=
  match l with
  | [] => []
  | Settle p _ :: l => p :: settled l
  | DeferredFailure _ _ pending entries :: l => map pair_id pending ++ map entry_id entries ++ settled l
  | _ :: l => settled l
  end.

(** All the promises, those of [K] being in the hands of a handler. *)
Definition owed (K : list nat) (c : Client) : list nat :=
  K ++ settled (log c) ++ map pair_id (in_flight c) ++ map entry_id (queue c).

Definition once (K : list nat) (c : Client) : Prop :=
  NoDup (owed K c) /\ Forall (fun p => (p < next_promise c)%nat) (owed K c).

Lemma once_less K K' c c' :
  owed K' c' ⊆+ owed K c -> (next_promise c <= next_promise c')%nat -> once K c -> once K' c'.
Proof.
  intros Hs Hn [H1 H2]. apply submseteq_Permutation in Hs as [k Hk]. rewrite Hk in H1, H2.
  apply NoDup_app in H1 as [H1 _]. apply Forall_app in H2 as [H2 _].
  split; [done|]. eapply Forall_impl; [exact H2|]. cbn. intros. lia.
Qed.

(** A step that leaves promises and commands alone. *)
Lemma once_same K c c' :
  settled (log c') = settled (log c) -> in_flight c' = in_flight c -> queue c' = queue c -> next_promise c' = next_promise c ->
  once K c -> once K c'.
Proof. intros E1 E2 E3 E4. unfold once, owed. by rewrite E1, E2, E3, E4. Qed.

Lemma once_modify K f :
  (forall c, settled (log (f c)) = settled (log c) /\ in_flight (f c) = in_flight c /\ queue (f c) = queue c /\ next_promise (f c) = next_promise c) ->
  preserves (once K) (modify f).
Proof. intros Hf. apply preserves_modify. intros c. destruct (Hf c) as (E1 & E2 & E3 & E4). by apply once_same. Qed.

Lemma once_set_flags K f : preserves (once K) (set_flags f).
Proof. by apply once_modify. Qed.

Lemma once_write_buffer_write K b : preserves (once K) (write_buffer_write b).
Proof. by apply once_modify. Qed.

Definition settles_nothing (e : Event) : bool := match e with Settle _ _ | DeferredFailure _ _ _ _ => false | _ => true end.

Lemma once_emit K e : settles_nothing e = true -> preserves (once K) (emit e).
Proof. intros He. apply once_modify. intros c. by destruct e. Qed.

#[local] Hint Extern 1 (preserves (once _) (emit _)) => by apply once_emit : keep.
#[local] Hint Resolve once_set_flags once_write_buffer_write : keep.
#[local] Hint Extern 2 (preserves (once _) (modify _)) => by apply once_modify : keep.

Lemma once_call_js K e : settles_nothing e = true -> preserves (once K) (call_js e).
Proof. intros He. unfold call_js. keep. Qed.
#[local] Hint Extern 1 (preserves (once _) (call_js _)) => by apply once_call_js : keep.

Lemma once_drop ps K c : once (ps ++ K) c -> once K c.
Proof. apply once_less; [|done]. unfold owed. rewrite <- app_assoc. by apply submseteq_inserts_l. Qed.

(** A handler that settles the promises of [ps], or drops them. *)
Definition gives {A} (ps : list nat) (m : J A) : Prop := forall K c c' r, m c = Some (c', r) -> once (ps ++ K) c -> once K c'.

Lemma gives_nothing {A} ps (m : J A) : (forall K, preserves (once K) m) -> gives ps m.
Proof. intros Hm K c c' r E Hc. apply (Hm K c c' r E). by apply once_drop in Hc. Qed.

Lemma gives_bind_l {A B} ps (m : J A) (k : A -> J B) : gives ps m -> (forall a K, preserves (once K) (k a)) -> gives ps (mbind k m).
Proof.
  intros Hm Hk K c c' r. unfold mbind, J_bind. destruct (m c) as [[c1 [a|e]]|] eqn:E; [|intros [= <- <-]; by apply (Hm K c _ (Err e) E)|done].
  intros Ek Hc. eapply Hk; [exact Ek|]. by eapply Hm.
Qed.

Lemma gives_bind_r {A B} ps (m : J A) (k : A -> J B) : (forall K, preserves (once K) m) -> (forall a, gives ps (k a)) -> gives ps (mbind k m).
Proof.
  intros Hm Hk K c c' r. unfold mbind, J_bind. destruct (m c) as [[c1 [a|e]]|] eqn:E; [| |done].
  - intros Ek Hc. eapply Hk; [exact Ek|]. by eapply Hm.
  - intros [= <- <-] Hc. apply (gives_nothing ps m Hm K c c1 (Err e) E Hc).
Qed.

Lemma gives_ignore {A} ps (m : J A) : gives ps m -> gives ps (ignore m).
Proof. intros Hm K c c' r. unfold ignore. destruct (m c) as [[c1 x]|] eqn:E; [|done]. intros [= <- <-]. by apply (Hm K c c1 x). Qed.

Lemma gives_finally {A} ps (m : J A) k : gives ps m -> (forall K, preserves (once K) k) -> gives ps (finally m k).
Proof.
  intros Hm Hk K c c' r. unfold finally. destruct (m c) as [[c1 x]|] eqn:E; [|done]. destruct (k c1) as [[c2 y]|] eqn:Ek; [|done].
  intros [= <- <-] Hc. eapply Hk; [exact Ek|]. by apply (Hm K c c1 x).
Qed.

Lemma gives_settle p x : gives [p] (emit (Settle p x)).
Proof.
  intros K c c' r [= <- <-]. apply once_less; [|done]. unfold owed. cbn. solve_submseteq.
Qed.

Lemma gives_call_js p x : gives [p] (call_js (Settle p x)).
Proof. apply gives_bind_l; [apply gives_settle|]. intros. keep. Qed.

Lemma gives_reject p e : gives [promise p] (promise_reject p e).
Proof. apply gives_call_js. Qed.

Lemma gives_resolve p v : gives [promise p] (promise_resolve p v).
Proof.
  apply gives_bind_r; [intros; keep|]. intros []; [apply gives_reject | apply gives_call_js].
Qed.

Lemma gives_app {A B} ps qs (m : J A) (k : A -> J B) : gives ps m -> (forall a, gives qs (k a)) -> gives (ps ++ qs) (mbind k m).
Proof.
  intros Hm Hk K c c' r. unfold mbind, J_bind. rewrite <- app_assoc. destruct (m c) as [[c1 [a|e]]|] eqn:E; [| |done].
  - intros Ek Hc. eapply Hk; [exact Ek|]. by eapply Hm.
  - intros [= <- <-] Hc. apply (once_drop qs). by apply (Hm _ c c1 (Err e)).
Qed.

Lemma gives_pairs l e : gives (map pair_id l) (reject_pairs l e).
Proof.
  induction l as [|p l IH]; cbn [map reject_pairs]; [by apply gives_nothing; intros; keep|].
  apply (gives_app [_]); [apply gives_reject | done].
Qed.

Lemma gives_entries l e : gives (map entry_id l) (reject_entries l e).
Proof.
  induction l as [|p l IH]; cbn [map reject_entries]; [by apply gives_nothing; intros; keep|].
  apply (gives_app [_]); [apply gives_reject | done].
Qed.

Lemma gives_promises l e : gives (map promise l) (reject_all_ignoring l e).
Proof.
  induction l as [|p l IH]; cbn [map reject_all_ignoring]; [by apply gives_nothing; intros; keep|].
  apply (gives_app [_]); [apply gives_ignore, gives_reject | done].
Qed.

(** * Taking a promise *)

Lemma once_promise_create {A} K m (k : Promise -> J A) :
  (forall p, gives [promise p] (k p)) -> preserves (once K) (mbind k (promise_create m)).
Proof.
  intros Hk c c' r E [H1 H2]. unfold promise_create, mbind, J_bind, gets, modify, mret, J_ret in E.
  apply (Hk _ K _ c' r E). split; cbn [app owed log with_next_promise in_flight queue next_promise promise].
  - change (NoDup (next_promise c :: owed K c)). constructor; [|done]. rewrite Forall_forall in H2. intros Hin. apply H2 in Hin. lia.
  - change (Forall (fun p => (p < S (next_promise c))%nat) (next_promise c :: owed K c)). constructor; [lia|].
    eapply Forall_impl; [exact H2|]. cbn. lia.
Qed.

Lemma once_queue_read {A} K (k : option Entry -> J A) :
  preserves (once K) (k None) -> (forall e, gives [entry_id e] (k (Some e))) -> preserves (once K) (mbind k queue_read_item).
Proof.
  intros Hn Hs c c' r. unfold queue_read_item, mbind, J_bind, gets. destruct (queue c) as [|e q] eqn:Eq; [apply Hn|].
  unfold modify, mret, J_ret. intros E Hc. apply (Hs e K _ c' r E). revert Hc. apply once_less; [|done].
  unfold owed. cbn. rewrite Eq. cbn. solve_submseteq.
Qed.

Lemma once_in_flight_read {A} K (k : option PromisePair -> J A) :
  preserves (once K) (k None) -> (forall p, gives [pair_id p] (k (Some p))) -> preserves (once K) (mbind k in_flight_read_item).
Proof.
  intros Hn Hs c c' r. unfold in_flight_read_item, mbind, J_bind, gets. destruct (in_flight c) as [|p q] eqn:Eq; [apply Hn|].
  unfold modify, mret, J_ret. intros E Hc. apply (Hs p K _ c' r E). revert Hc. apply once_less; [|done].
  unfold owed. cbn. rewrite Eq. cbn. solve_submseteq.
Qed.

Lemma gives_in_flight_write e : gives [pair_id e] (in_flight_write_item e).
Proof. intros K c c' r [= <- <-]. apply once_less; [|done]. unfold owed. cbn. rewrite map_app. cbn. solve_submseteq. Qed.

Lemma gives_queue_write e : gives [entry_id e] (queue_write_item e).
Proof. intros K c c' r [= <- <-]. apply once_less; [|done]. unfold owed. cbn. rewrite map_app. cbn. solve_submseteq. Qed.

(** * Writing and sending *)

Lemma once_do_socket_write K b : preserves (once K) (do_socket_write b).
Proof. unfold do_socket_write. keep. Qed.
#[local] Hint Resolve once_do_socket_write : keep.

Lemma once_flush_data K : preserves (once K) flush_data.
Proof. unfold flush_data. keep. Qed.

Lemma once_write_through K b : preserves (once K) (write_through b).
Proof. unfold write_through. keep. Qed.

Lemma once_register K : preserves (once K) register_auto_flusher.
Proof. unfold register_auto_flusher. keep. Qed.

Lemma once_unregister K : preserves (once K) unregister_auto_flusher.
Proof. unfold unregister_auto_flusher. keep. Qed.
#[local] Hint Resolve once_flush_data once_write_through once_register once_unregister : keep.

Lemma once_drain K : preserves (once K) drain.
Proof.
  unfold drain. keep. apply once_queue_read; [keep|]. intros e. apply gives_bind_l; [apply (gives_in_flight_write (entry_pair e))|].
  intros; keep.
Qed.
#[local] Hint Resolve once_drain : keep.

Lemma once_send_next_command K : preserves (once K) send_next_command.
Proof. unfold send_next_command. keep. Qed.

Lemma once_on_writable K : preserves (once K) on_writable.
Proof. apply once_send_next_command. Qed.

Lemma gives_expect {A B} ps (a : A) (k : A -> J B) : gives ps (k a) -> gives ps (mbind k (expect (Some a))).
Proof. done. Qed.

Lemma once_flush_loop K n : preserves (once K) (flush_loop n).
Proof.
  revert K. induction n as [|n IH]; intros K; cbn [flush_loop]; [keep|]. apply once_queue_read; [done|].
  intros e. apply gives_expect, gives_bind_l; [apply (gives_in_flight_write (entry_pair e))|]. intros _ K'. keep.
Qed.
#[local] Hint Resolve once_send_next_command once_on_writable once_flush_loop : keep.

Lemma once_on_auto_flush K : preserves (once K) on_auto_flush.
Proof. unfold on_auto_flush. keep. Qed.

(** What remains of a handler once it takes no promise any more. *)
Ltac give :=
  repeat lazymatch goal with
  | |- gives _ (mbind _ (gets _)) => apply gives_bind_r; [intros ?; keep | intros ?]
  | |- gives _ (mbind _ (flag _)) => apply gives_bind_r; [intros ?; keep | intros ?]
  | |- gives _ (mbind _ subscriber) => apply gives_bind_r; [intros ?; keep | intros ?]
  | |- gives _ (mbind _ (write_buffer_write _)) => apply gives_bind_r; [intros ?; keep | intros ?]
  | |- gives _ (mbind _ _) => apply gives_bind_l; [|intros ? ?; keep]
  | |- gives _ (match ?x with _ => _ end) => destruct x
  | |- gives _ jpanic => done
  | |- gives _ (ignore _) => apply gives_ignore
  | |- gives _ (promise_reject _ _) => apply gives_reject
  end.

Lemma gives_enqueue c p : gives [promise p] (enqueue c p).
Proof.
  unfold enqueue. give; [apply (gives_queue_write (entry_create c p)) | |];
    apply (gives_in_flight_write {| pair_meta := meta c; pair_promise := p |}).
Qed.

Lemma once_send K c : preserves (once K) (send c).
Proof.
  unfold send. apply once_promise_create. intros p. give; apply gives_enqueue.
Qed.
#[local] Hint Resolve once_on_auto_flush once_send : keep.

Lemma once_send_all K l : preserves (once K) (send_all l).
Proof. induction l; cbn [send_all]; keep. Qed.
#[local] Hint Resolve once_send_all : keep.

Lemma once_in_scope {A} K (m : J A) : preserves (once K) m -> preserves (once K) (in_scope m).
Proof. intros Hm. apply preserves_finally; [done | keep]. Qed.

Lemma gives_in_scope {A} ps (m : J A) : gives ps m -> gives ps (in_scope m).
Proof. intros Hm. apply gives_finally; [done | intros; keep]. Qed.

#[local] Hint Resolve once_in_scope : keep.

(** * Failing and closing *)

(** A handler that takes all the waiting commands. *)
Lemma once_take_all {A} K (f : Client -> Client) (k : J A) c c' r :
  (forall c, in_flight (f c) = [] /\ queue (f c) = [] /\ log (f c) = log c /\ next_promise (f c) = next_promise c) ->
  gives (map pair_id (in_flight c) ++ map entry_id (queue c)) k -> k (f c) = Some (c', r) -> once K c -> once K c'.
Proof.
  intros Hf Hk E Hc. apply (Hk K _ _ _ E). revert Hc. destruct (Hf c) as (E1 & E2 & E3 & E4).
  apply once_less; [|by rewrite E4]. unfold owed. rewrite E1, E2, E3. cbn. solve_submseteq.
Qed.

Lemma once_reject_all K e : preserves (once K) (reject_all_pending_commands e).
Proof.
  intros c c' r E. apply (once_take_all K (fun c => with_queue [] (with_in_flight [] c))
    (reject_pairs (in_flight c) e;; reject_entries (queue c) e) c c' r); [done | | exact E].
  apply gives_app; [apply gives_pairs | intros; apply gives_entries].
Qed.
#[local] Hint Resolve once_reject_all : keep.

Lemma once_shutdown K b : preserves (once K) (shutdown b).
Proof.
  intros c c' r E. apply (once_take_all K (fun c => with_queue [] (with_in_flight [] c))
    ((if b then skip else reject_all_ignoring (map pair_promise (in_flight c) ++ map entry_promise (queue c))
        (ValkeyError b!"Connection closed" ConnectionClosed));; unregister_auto_flusher) c c' r); [done | | exact E].
  apply gives_bind_l; [|intros; keep]. destruct b; [apply gives_nothing; intros; keep|].
  assert (Hg := gives_promises (map pair_promise (in_flight c) ++ map entry_promise (queue c)) (ValkeyError b!"Connection closed" ConnectionClosed)).
  by rewrite map_app, !map_map in Hg.
Qed.

Lemma once_deferred K message err :
  preserves (once K) (pending ← gets in_flight; entries ← gets queue;
    when (negb (bool_decide (length pending + length entries = 0)%nat))
      (emit (DeferredFailure message err pending entries);; modify (fun c => with_queue [] (with_in_flight [] c)))).
Proof.
  intros c c' r. unfold mbind, J_bind, gets, emit, modify, when. destruct (negb _); intros [= <- <-]; [|done].
  apply once_less; [|done]. unfold owed. cbn. solve_submseteq.
Qed.

Lemma once_fail_ K close m e : preserves (once K) close -> preserves (once K) (fail_ close m e).
Proof.
  intros Hc. unfold fail_, fail_with_js_value_. keep_step; [keep|]. keep_step; [keep|]. keep_step; [keep|].
  keep_step; [apply once_deferred | keep].
Qed.
#[local] Hint Resolve once_fail_ : keep.

Lemma once_on_valkey_close K : preserves (once K) on_valkey_close.
Proof. apply once_in_scope. keep. Qed.
#[local] Hint Resolve once_on_valkey_close : keep.

Lemma once_on_close_ K close : preserves (once K) close -> preserves (once K) (on_close_ close).
Proof. intros Hc. unfold on_close_, on_valkey_reconnect. keep. Qed.

Lemma once_close_loop K n : preserves (once K) (close_loop n).
Proof. induction n; cbn [close_loop]; keep. by apply once_on_close_. Qed.

Lemma once_close K : preserves (once K) close.
Proof. apply once_close_loop. Qed.
#[local] Hint Resolve once_close : keep.

Lemma once_fail K m e : preserves (once K) (fail m e).
Proof. apply once_fail_, once_close. Qed.

Lemma once_on_close K : preserves (once K) on_close.
Proof. apply once_on_close_, once_close. Qed.
#[local] Hint Resolve once_fail once_on_close once_shutdown : keep.

(** * Opening *)

Lemma once_authenticate K : preserves (once K) authenticate.
Proof. unfold authenticate. keep. Qed.
#[local] Hint Resolve once_authenticate : keep.

Lemma once_start K : preserves (once K) start.
Proof. unfold start. keep. Qed.
#[local] Hint Resolve once_start : keep.

Lemma once_open K s : preserves (once K) (open_ s).
Proof. unfold open_. keep. Qed.

Lemma once_connect K : preserves (once K) connect.
Proof. unfold connect. keep. Qed.
#[local] Hint Resolve once_connect : keep.

Lemma once_reconnect K : preserves (once K) reconnect.
Proof. unfold reconnect. keep. Qed.
#[local] Hint Resolve once_reconnect : keep.

Lemma once_do_connect K : preserves (once K) do_connect.
Proof. unfold do_connect. keep. all: apply once_in_scope; keep. Qed.

Lemma once_js_send K c : preserves (once K) (js_send c).
Proof. unfold js_send. keep. all: apply once_in_scope; keep. Qed.

Lemma once_fail_handshake K e : preserves (once K) (fail_handshake e).
Proof. unfold fail_handshake, fail_with_js_value, fail_with_js_value_. keep. apply once_in_scope. keep. Qed.
#[local] Hint Resolve once_fail_handshake : keep.

(** * Replies *)

Lemma once_remove_subscription K : preserves (once K) remove_subscription.
Proof. unfold remove_subscription. keep. Qed.
#[local] Hint Resolve once_remove_subscription : keep.

Lemma once_on_valkey_message K l : preserves (once K) (on_valkey_message l).
Proof. unfold on_valkey_message. keep. all: apply once_in_scope; keep. Qed.

Lemma once_on_valkey_connect K v : preserves (once K) (on_valkey_connect v).
Proof. unfold on_valkey_connect. keep. apply once_in_scope. keep. Qed.
#[local] Hint Resolve once_on_valkey_message once_on_valkey_connect : keep.

Lemma once_handle_hello_response K v : preserves (once K) (handle_hello_response v).
Proof. unfold handle_hello_response, hello_accepted. keep. Qed.

Lemma once_handle_select_response K v : preserves (once K) (handle_select_response v).
Proof. unfold handle_select_response. keep. Qed.
#[local] Hint Resolve once_handle_hello_response once_handle_select_response : keep.

(** What settles the promise of a reply, when the reply has one. *)
Definition ids_of (o : option PromisePair) : list nat := match o with Some p => [pair_id p] | None => [] end.

Lemma gives_when_some o (f : PromisePair -> J unit) : (forall p, gives [pair_id p] (f p)) -> gives (ids_of o) (when_some o f).
Proof. intros Hf. destruct o; [apply Hf | apply gives_nothing; intros; apply preserves_ret]. Qed.

Lemma gives_settle_command o v : gives (ids_of o) (settle_command o v).
Proof.
  destruct o as [p|]; [|apply gives_nothing; intros; unfold settle_command; keep]. cbn [settle_command ids_of]. apply gives_in_scope.
  destruct (as_bool _ v); try apply gives_resolve. apply gives_bind_r; [intros; keep|]. intros. apply gives_reject.
Qed.

Lemma gives_handle_subscribe_response v o : gives (ids_of o) (handle_subscribe_response v o).
Proof.
  apply gives_in_scope. destruct v; try (apply gives_nothing; intros; keep; fail).
  - apply gives_bind_l; [|intros; keep]. apply gives_when_some. intros p. apply gives_reject.
  - apply gives_bind_r; [intros; keep|]. intros [n|]; [|apply gives_nothing; intros; keep].
    unfold add_subscription, on_valkey_subscribe, on_valkey_unsubscribe. destruct (from_bytes _) as [[]|].
    + apply gives_nothing. intros. keep.
    + do 2 (apply gives_bind_r; [intros; keep | intros _]). apply gives_bind_l; [|intros; keep]. apply gives_when_some. intros. apply gives_call_js.
    + do 2 (apply gives_bind_r; [intros; keep | intros _]). apply gives_bind_l; [|intros; keep]. apply gives_when_some. intros. apply gives_call_js.
    + apply gives_nothing. intros. keep.
Qed.

(** A push is never left to the ordinary commands. *)
Definition handled (m : J SubscribeHandled) : Prop := forall c c' h, m c = Some (c', Ok h) -> h = Handled.

Lemma handled_bind {A} (m : J A) k : (forall a, handled (k a)) -> handled (mbind k m).
Proof. intros Hk c c' h. unfold mbind, J_bind. destruct (m c) as [[c1 [a|e]]|]; [apply Hk | done | done]. Qed.

Lemma push_handled kind data o : handled (handle_subscribe_response (Push kind data) o).
Proof.
  intros c c' h. unfold handle_subscribe_response, in_scope, finally. match goal with |- context [match ?m c with _ => _ end] => set (body := m) end.
  assert (Hb : handled body).
  { unfold body. clear. apply handled_bind. intros [n|]; [|by intros c c' h]. destruct (from_bytes kind) as [[]|]; repeat (apply handled_bind; intros ?); by intros c c' h [= _ <-]. }
  destruct (body c) as [[c1 x]|] eqn:E; [|done]. destruct ((l ← gets (fun c => microtasks (log c)); send_all l) c1) as [[c2 y]|]; [|done].
  intros [= <- ->]. by apply Hb in E.
Qed.

Lemma gives_push kind data o (k : SubscribeHandled -> J unit) :
  (forall K, preserves (once K) (k Handled)) -> gives (ids_of o) (mbind k (handle_subscribe_response (Push kind data) o)).
Proof.
  intros Hk K c c' r. unfold mbind, J_bind. destruct (handle_subscribe_response (Push kind data) o c) as [[c1 [h|e]]|] eqn:E; [| |done].
  - rewrite (push_handled _ _ _ _ _ _ E). intros Ek Hc. eapply Hk; [exact Ek|]. by eapply gives_handle_subscribe_response.
  - intros [= <- <-]. by eapply gives_handle_subscribe_response.
Qed.

Lemma once_read_maybe {A} K (b : bool) (k : option PromisePair -> J A) :
  (forall o, gives (ids_of o) (k o)) -> preserves (once K) (mbind k (if b then in_flight_read_item else mret None)).
Proof.
  intros Hk. destruct b.
  - apply once_in_flight_read; [intros c c' r E; apply (Hk None K c c' r E) | intros p; apply (Hk (Some p))].
  - intros c c' r E. apply (Hk None K c c' r E).
Qed.

Lemma once_handle_response K v : preserves (once K) (handle_response v).
Proof.
  unfold handle_response. do 2 (keep_step; [keep|]; keep_step; [keep|]). keep_step; [keep|].
  apply once_read_maybe. intros o. apply gives_bind_r; [intros; apply preserves_gets|]. intros s.
  destruct (s || _); [|apply gives_settle_command].
  destruct v; try apply gives_settle_command; [apply gives_nothing; intros; keep|].
  destruct (from_bytes _); [|apply gives_nothing; intros; keep]. apply gives_push. intros. keep.
Qed.

(** * Whatever happens *)

(** The entry points of the client. *)
Inductive handler : J unit -> Prop :=
| on_js_send c : handler (js_send c)
| on_send c : handler (send c;; skip)
| on_reply v : handler (handle_response v)
| on_writable_event : handler on_writable
| on_auto_flush_event : handler (on_auto_flush;; skip)
| on_subscription_ctx : handler get_or_create_subscription_ctx
| on_do_connect : handler do_connect
| on_reconnect : handler reconnect
| on_opened s : handler (open_ s)
| on_timeout : handler on_valkey_timeout
| on_failed m e : handler (fail m e)
| on_disconnect : handler disconnect
| on_socket_close : handler socket_on_close
| on_shutdown b : handler (shutdown b)
| on_js_disconnect : handler js_disconnect
| on_timer : handler on_connection_timeout
| on_handshaken success reject n v s h check : handler (on_handshake success reject n v s h check)
| on_finalize : handler finalize
| on_close_task : handler close.

Inductive happens (c c' : Client) : Prop :=
| happened m r : handler m -> m c = Some (c', r) -> happens c c'.

Lemma once_handler K m : handler m -> preserves (once K) m.
Proof.
  intros []; unfold get_or_create_subscription_ctx, on_valkey_timeout, js_disconnect, disconnect, socket_on_close,
    on_connection_timeout, on_handshake, fail_handshake_with_verify_error, finalize, close_socket_next_tick.
  - apply once_js_send.
  - keep.
  - apply once_handle_response.
  - keep.
  - keep.
  - apply preserves_modify. intros c. by destruct (is_subscriber (_subscription_ctx c)).
  - apply once_do_connect.
  - apply once_reconnect.
  - apply once_open.
  - keep.
  - keep.
  - keep.
  - keep.
  - keep.
  - keep.
  - keep.
  - keep.
  - keep.
  - keep.
Qed.

Lemma once_reachable c c' : rtc happens c c' -> once [] c -> once [] c'.
Proof. induction 1 as [|c c1 c' [m r Hm E] _ IH]; [done|]. intros Hc. apply IH. by apply (once_handler [] m Hm c c1 r). Qed.

End Once.
