(* ===== verification/ValkeyStream.v ===== *)
(** The bytes of the socket and the replies of the server: however the stream
    is cut into chunks, [on_data] hands each reply to the client once, in order. *)
From S2P Require Import Prelude BunCore Valkey ValkeyGrammar ValkeyScan ValkeyCut ValkeyClient.

Section Stream.
Context {T : Target} {H : Host}.

(** The replies of a stream, each with its text. *)
Notation stream := (list (RESPValue * bytes)).

Definition sendable (e : RESPValue * bytes) : Prop := resp MAX_NESTING_DEPTH e.1 e.2 /\ plain e.1 = true.

Definition bytes_of (l : stream) : bytes := concat l.*2.

(** The client when it is given the replies one by one. *)
Fixpoint handle_all (l : list RESPValue) (c : Client) : option (Client * bool) :=
  match l with
  | [] => Some (c, true)
  | v :: l =>
    r ← handle_reply v c;
    if (r.2 : bool) then handle_all l r.1 else Some r
  end.

Fixpoint on_data_all (v : ValkeyClient) (chunks : list bytes) : option ValkeyClient :=
  match chunks with
  | [] => Some v
  | data :: chunks => v ← on_data v data; on_data_all v chunks
  end.

(** * The bytes of a stream up to some point *)

(** The start of a reply, not all of it. *)
Definition started (q : bytes) : Prop := exists e r, sendable e /\ e.2 = q ++ r /\ r <> [].

Lemma sendable_ne e : sendable e -> e.2 <> [].
Proof. intros [Hr _]. by apply resp_ne in Hr. Qed.

Lemma split_stream (l : stream) w f :
  Forall sendable l -> w ++ f = bytes_of l ->
  exists l1 l2 q, l = l1 ++ l2 /\ w = bytes_of l1 ++ q /\ q ++ f = bytes_of l2 /\ (q = [] \/ started q).
Proof.
  revert w. induction l as [|e l IH]; intros w Hl Hw; unfold bytes_of in *; cbn [fmap list_fmap concat] in *.
  - apply app_eq_nil in Hw as [-> ->]. exists [], [], []. auto.
  - apply Forall_cons in Hl as [He Hl]. destruct (decide (length w < length e.2)%nat) as [Hlt|Hge].
    + exists [], (e :: l), w. split; [done|]. split; [done|]. split; [done|].
      destruct (decide (w = [])) as [->|Hne]; [by left|]. right.
      apply (f_equal (take (length e.2))) in Hw as Ht. rewrite take_app_ge, take_app_length in Ht by lia.
      eexists e, _. split; [done|]. split; [symmetry; exact Ht|]. intros H0. rewrite H0, app_nil_r in Ht. apply (f_equal length) in Ht. lia.
    + apply (f_equal (take (length e.2))) in Hw as Ht. rewrite take_app_le, take_app_length in Ht by lia.
      assert (Hd : w = e.2 ++ drop (length e.2) w) by (rewrite <- Ht at 1; by rewrite take_drop).
      rewrite Hd, <- app_assoc in Hw. apply app_inv_head in Hw.
      destruct (IH _ Hl Hw) as (l1 & l2 & q & -> & Hq & Hf & Hs). exists (e :: l1), l2, q.
      split; [done|]. split; [|done]. cbn [fmap list_fmap concat]. by rewrite <- app_assoc, <- Hq.
Qed.

(** * One reply *)

Lemma read_reply e w :
  sendable e -> exists r, read_value (reader_init (e.2 ++ w)) = Some (r, Ok e.1) /\ pos r = length e.2.
Proof.
  intros [Hr _]. assert (Hh : has (e.2 ++ w) 0 e.2) by by exists w.
  assert (Hread := read_value_complete (e.2 ++ w) 0 e.1 e.2 ltac:(lia) Hh Hr).
  destruct (Hread (length (e.2 ++ w))) as [k E]. eexists. split; [exact E | done].
Qed.

Lemma read_started q : started q -> exists r, read_value (reader_init q) = Some (r, Err InvalidResponse).
Proof.
  intros (e & r & [Hr Hp] & He & Hne). apply (read_value_short q 0%nat e.1 e.2); [done | done | lia|]. by exists r.
Qed.

Lemma scan_reply e w : sendable e -> reply_scan reset (e.2 ++ w) = Some (at_pos (length e.2) [], Ok Complete).
Proof.
  intros [Hr _]. apply (reads_complete _ e.1). apply (read_value_complete _ 0%nat); [lia | by exists w | done].
Qed.

Lemma scan_started q : started q -> exists s, reply_scan reset q = Some (s, Ok NeedMoreData).
Proof.
  intros (e & r & Hs & He & Hne). assert (Hf := scan_reply e [] Hs). rewrite app_nil_r, He in Hf.
  assert (Hx := reply_scan_extends q r). rewrite Hf in Hx.
  destruct (reply_scan_total q) as [[s [[]|err]] E]; rewrite E in Hx.
  - destruct Hx as [Hx (p & -> & Hp)]. injection Hx as Hx. rewrite length_app in Hx. destruct r; [done | cbn in Hx; lia].
  - by exists s.
  - by destruct Hx as [s' Hx].
Qed.

(** * The buffer *)

(** [w] is what the buffer holds. *)
Definition buffers (o : OffsetByteList) (w : bytes) : Prop :=
  exists n, head o = Z.of_nat n /\ (n <= length (byte_list o))%nat /\ w = drop n (byte_list o).

Lemma buffers_remaining o w : buffers o w -> remaining o = Some w.
Proof. intros (n & Hh & Hn & ->). unfold remaining. rewrite Hh, Nat2Z.id. by apply slice_from_ok. Qed.

Lemma buffers_default : buffers obl_default [].
Proof. by exists 0%nat. Qed.

Lemma buffers_write o w b : buffers o w -> buffers (obl_write o b) (w ++ b).
Proof.
  intros (n & Hh & Hn & ->). exists n. cbn. split; [done|]. rewrite length_app. split; [lia|]. by rewrite drop_app_le by lia.
Qed.

Definition fits (o : OffsetByteList) : Prop := Z.of_nat (length (byte_list o)) < 2 ^ 32.

Lemma buffers_consume o w u :
  buffers o (w ++ u) -> fits o -> w <> [] ->
  buffers (consume o (trunc32 (Z.of_nat (length w)))) u /\ (u = [] -> consume o (trunc32 (Z.of_nat (length w))) = obl_default) /\
  (length (byte_list (consume o (trunc32 (Z.of_nat (length w))))) <= length (byte_list o))%nat.
Proof.
  intros (n & Hh & Hn & Hw) Hfit Hne. unfold fits in Hfit. assert (Hl := f_equal length Hw). rewrite length_app, length_drop in Hl.
  unfold consume, saturating_add32, trunc32, U32_MAX. rewrite Z.mod_small by lia. rewrite Hh, Z.min_l by lia.
  destruct (Z.leb_spec (Z.of_nat (length (byte_list o))) (Z.of_nat n + Z.of_nat (length w))) as [Hle|Hgt].
  - assert (length u = 0)%nat as Hu by lia. apply length_zero_iff_nil in Hu as ->. split; [apply buffers_default|]. split; [done | cbn; lia].
  - split; [|split; [|done]].
    + exists (n + length w)%nat. cbn. split; [lia|]. split; [lia|]. by rewrite <- drop_drop, <- Hw, drop_app_length.
    + intros ->. cbn in Hl. lia.
Qed.

(** * The two paths *)

Lemma stack_path_ok fuel l c c' o s q data :
  Forall sendable l -> data = bytes_of l ++ q -> q = [] \/ started q -> (length data < fuel)%nat ->
  handle_all l.*1 c = Some (c', true) ->
  stack_path fuel {| client := c; read_buffer := o; reply_scanner := s |} data =
  Some (if decide (q = []) then {| client := c'; read_buffer := o; reply_scanner := s |}
        else {| client := c'; read_buffer := obl_write o q; reply_scanner := reset |}).
Proof.
  intros Hl -> Hq. revert fuel c. induction l as [|e l IH]; intros fuel c Hf Hh; (destruct fuel as [|fuel]; [lia|]); cbn [stack_path].
  - injection Hh as <-. change (bytes_of [] ++ q) with q. destruct (decide (q = [])) as [|Hne]; [done|]. destruct Hq as [|Hq]; [done|].
    destruct (read_started q Hq) as [r ->]. done.
  - apply Forall_cons in Hl as [He Hl]. assert (Hne := sendable_ne _ He). unfold bytes_of in *. cbn [fmap list_fmap concat] in *.
    rewrite <- app_assoc in *. destruct (decide (e.2 ++ concat l.*2 ++ q = [])) as [H0|_]; [by apply app_eq_nil in H0 as [? _]|].
    destruct (read_reply e (concat l.*2 ++ q) He) as (r & -> & Hr). cbn [mbind option_bind]. rewrite Hr.
    destruct (decide (length e.2 = 0%nat)) as [H0|_]; [by apply length_zero_iff_nil in H0|].
    rewrite slice_from_ok by (rewrite length_app; lia). cbn [mbind option_bind]. rewrite drop_app_length.
    cbn [handle_all client read_buffer reply_scanner] in Hh |- *. destruct (handle_reply e.1 c) as [[c1 []]|]; [| done | done]. cbn in Hh |- *.
    apply IH; [done | | done]. rewrite length_app in Hf. destruct e.2; [done | cbn in Hf; lia].
Qed.

Lemma buffer_path_ok fuel l c c' o s q w :
  Forall sendable l -> w = bytes_of l ++ q -> q = [] \/ started q -> (length w < fuel)%nat -> buffers o w -> fits o ->
  (w <> [] -> same_scan (reply_scan s w) (reply_scan reset w)) -> handle_all l.*1 c = Some (c', true) ->
  exists o' s', buffer_path fuel {| client := c; read_buffer := o; reply_scanner := s |} =
    Some {| client := c'; read_buffer := o'; reply_scanner := s' |} /\ buffers o' q /\ (length (byte_list o') <= length (byte_list o))%nat /\
    (q <> [] -> reply_scan reset q = Some (s', Ok NeedMoreData)).
Proof.
  intros Hl Hw Hq. revert fuel c o s w Hw. induction l as [|e l IH]; intros fuel c o s w Hw Hf Hb Hfit Hs Hh;
    (destruct fuel as [|fuel]; [lia|]); cbn [buffer_path read_buffer client reply_scanner]; rewrite (buffers_remaining _ _ Hb); cbn [mbind option_bind].
  - injection Hh as <-. change (w = q) in Hw. subst w. destruct (decide (q = [])) as [->|Hne]; [by exists o, s|].
    destruct Hq as [|Hq]; [done|]. specialize (Hs Hne). destruct (scan_started q Hq) as [s0 E]. rewrite E in Hs.
    destruct (reply_scan s q) as [[s1 [[]|]]|]; cbn in Hs; try (by destruct Hs). destruct Hs as [-> _]. exists o, s0. done.
  - apply Forall_cons in Hl as [He Hl]. assert (Hne := sendable_ne _ He). unfold bytes_of in *. cbn [fmap list_fmap concat] in *.
    rewrite <- app_assoc in Hw. subst w. destruct (decide (e.2 ++ concat l.*2 ++ q = [])) as [H0|Hw]; [by apply app_eq_nil in H0 as [? _]|].
    specialize (Hs Hw). rewrite scan_reply in Hs by done.
    destruct (reply_scan s _) as [[s1 [[]|]]|]; cbn in Hs; try (by destruct Hs).
    destruct (read_reply e (concat l.*2 ++ q) He) as (r & -> & Hr). cbn [mbind option_bind]. rewrite Hr.
    destruct (decide (length e.2 = 0%nat)) as [H0|_]; [by apply length_zero_iff_nil in H0|].
    destruct (buffers_consume _ _ _ Hb Hfit Hne) as (Hb' & _ & Hle). cbn [handle_all] in Hh.
    destruct (handle_reply e.1 c) as [[c1 []]|]; [| done | done]. cbn [mbind option_bind fst snd] in Hh |- *.
    destruct (IH Hl fuel c1 (consume o (trunc32 (Z.of_nat (length e.2)))) reset _ eq_refl) as (o' & s' & E & Hb2 & Hle2 & Hs');
      [| done | unfold fits in *; lia | | done |].
    + rewrite !length_app in *. destruct e.2; [done | cbn in Hf; lia].
    + intros _. apply same_scan_refl, reply_scan_total.
    + exists o', s'. split; [exact E|]. split; [done|]. split; [lia | done].
Qed.

(** * The handler *)

Lemma tracks_scanned q s : reply_scan reset q = Some (s, Ok NeedMoreData) -> tracks s q.
Proof. apply (tracks_more reset [] q s (tracks_reset [])). Qed.

(** The client between two calls: [q] is the part of a reply it keeps. *)
Definition waits (v : ValkeyClient) (q : bytes) : Prop :=
  buffers (read_buffer v) q /\ (q = [] \/ started q) /\ (q <> [] -> tracks (reply_scanner v) q).

Definition held (v : ValkeyClient) : nat := length (byte_list (read_buffer v)).

Lemma on_data_ok v q data l q' c' :
  waits v q -> Forall sendable l -> q ++ data = bytes_of l ++ q' -> q' = [] \/ started q' ->
  Z.of_nat (held v + length data) < 2 ^ 32 -> handle_all l.*1 (client v) = Some (c', true) ->
  exists v', on_data v data = Some v' /\ client v' = c' /\ waits v' q' /\ (held v' <= held v + length data)%nat.
Proof.
  intros (Hb & Hq & Hs) Hl Hd Hq' Hsize Hh. unfold on_data. rewrite (buffers_remaining _ _ Hb). cbn [mbind option_bind].
  destruct v as [c o s]. unfold waits, held in *. cbn [read_buffer reply_scanner client] in *.
  destruct (decide (q = [])) as [->|Hne].
  - rewrite (stack_path_ok _ l c c' o s q' data); [|done|done|done|lia|done].
    destruct (decide (q' = [])) as [->|Hne']; (eexists; split; [done|]; split; [done|]); cbn [read_buffer reply_scanner].
    + split; [by split; [|split; [left|]]|]. lia.
    + split; [|cbn [app] in Hd; subst data; cbn; rewrite !length_app; lia].
      split; [by apply (buffers_write _ [])|]. split; [done|]. intros _. apply tracks_reset.
  - assert (Hb' := buffers_write _ _ data Hb). destruct Hb' as (n & Hh' & Hn & Hw).
    destruct (buffer_path_ok (S (length (byte_list (obl_write o data)))) l c c' (obl_write o data) s q' (q ++ data))
      as (o' & s' & E & Hb2 & Hle & Hs'); [done | done | done | | by apply buffers_write | | | done |].
    + rewrite Hw, length_drop. lia.
    + unfold fits. cbn. rewrite length_app. lia.
    + intros _. apply (proj2 (Hs Hne)).
    + exists {| client := c'; read_buffer := o'; reply_scanner := s' |}. split; [exact E|]. split; [done|].
      split; [|cbn in Hle |- *; rewrite length_app in Hle; lia].
      split; [done|]. split; [done|]. intros Hne'. by apply tracks_scanned, Hs'.
Qed.

Lemma handle_all_app l1 l2 c c' :
  handle_all (l1 ++ l2) c = Some (c', true) -> exists c1, handle_all l1 c = Some (c1, true) /\ handle_all l2 c1 = Some (c', true).
Proof.
  revert c. induction l1 as [|v l1 IH]; intros c Hh; [by exists c|]. cbn [app handle_all] in *.
  destruct (handle_reply v c) as [[c1 []]|]; [| done | done]. by apply IH.
Qed.

Lemma on_data_all_ok v q l chunks c' :
  waits v q -> Forall sendable l -> q ++ concat chunks = bytes_of l ->
  Z.of_nat (held v + length (concat chunks)) < 2 ^ 32 -> handle_all l.*1 (client v) = Some (c', true) ->
  exists v', on_data_all v chunks = Some v' /\ client v' = c' /\ waits v' [].
Proof.
  revert v q l. induction chunks as [|data chunks IH]; intros v q l Hw Hl Hd Hsize Hh; cbn [concat on_data_all] in *.
  - rewrite app_nil_r in Hd. subst q. exists v. split; [done|]. destruct l as [|e l].
    + injection Hh as <-. done.
    + exfalso. apply Forall_cons in Hl as [He Hl]. assert (Hne := sendable_ne _ He). unfold bytes_of in Hw. cbn [fmap list_fmap concat] in Hw.
      destruct (proj1 (proj2 Hw)) as [H0|Hq]; [by apply app_eq_nil in H0 as [? _]|].
      destruct (read_started _ Hq) as [r E]. destruct (read_reply e (concat l.*2) He) as (r2 & E2 & _). congruence.
  - rewrite app_assoc in Hd. destruct (split_stream l _ _ Hl Hd) as (l1 & l2 & q' & -> & Hq & Hf & Hq').
    apply Forall_app in Hl as [Hl1 Hl2]. rewrite fmap_app in Hh. apply handle_all_app in Hh as (c1 & Hh1 & Hh2).
    rewrite length_app in Hsize. destruct (on_data_ok v q data l1 q' c1 Hw Hl1 Hq Hq' ltac:(lia) Hh1) as (v1 & -> & Hc1 & Hw1 & Hheld).
    cbn [mbind option_bind]. subst c1. apply (IH v1 q' l2); [done | done | done | lia | done].
Qed.
End Stream.
