(* ===== verification/ValkeyFifo.v ===== *)
(** Commands and replies: the bytes of the commands go out in the order in
    which the commands were sent, and the replies settle their promises in
    that order. *)
From S2P Require Import Prelude BunCore Valkey ValkeyClient ValkeyInv ValkeyStream.

Section Fifo.
Context {T : Target} {H : Host}.

(** * What the log says *)

(** The bytes the socket took, the oldest first (the log has the newest first). *)
Fixpoint wire (l : list Event) : bytes :=
  match l with
  | [] => []
  | Wrote data n :: l => wire l ++ take (Z.to_nat (Z.max n 0)) data
  | _ :: l => wire l
  end.

(** Promises settled by a reply, and not by a failure of the connection. *)
Definition by_reply (x : Settled) : bool := match x with Rejected (ValkeyError _ _) => false | _ => true end.

Fixpoint replied (l : list Event) : list (nat * Settled) :=
  match l with
  | [] => []
  | Settle p x :: l => if by_reply x then replied l ++ [(p, x)] else replied l
  | _ :: l => replied l
  end.

Definition data_of (ds : list Entry) : bytes := concat (map serialized_data ds).

(** An established connection on which nobody subscribes. *)
Definition subscribes (m : Z) : bool := contains m SUBSCRIPTION_REQUEST.

Definition regular (c : Client) : Prop :=
  failed (flags c) = false /\ status c = Connected /\ connection_ready c = true /\ is_subscriber (_subscription_ctx c) = false /\ finalized (flags c) = false /\
  Forall (fun p => subscribes (pair_meta p) = false) (in_flight c) /\
  Forall (fun e => subscribes (entry_meta e) = false) (queue c).

(** [o] is what went out and what still has to, and the buffer holds at most [n] bytes. *)
Definition outgoing (c : Client) (o : bytes) (n : nat) : Prop :=
  exists rem, buffers (write_buffer c) rem /\ wire (log c) ++ rem = o /\ (length (byte_list (write_buffer c)) <= n)%nat.

(** A command on its way: the number of its promise, its bytes, whether it may share a
    write, and what to make of its reply. *)
Record Request := { request_id : nat; request_bytes : bytes; request_pipelines : bool; request_as_bool : bool; request_as_buffer : bool }.

Definition request_of (p : nat) (c : Command) : Request :=
  {| request_id := p; request_bytes := serialize c;
     request_pipelines := negb (bool_decide (command c ∈ AUTO_PIPELINE_DISALLOWED_COMMANDS));
     request_as_bool := contains (meta c) RETURN_AS_BOOL; request_as_buffer := contains (meta c) RETURN_AS_BUFFER |}.

Definition request_held (e : Entry) : Request :=
  {| request_id := entry_id e; request_bytes := serialized_data e; request_pipelines := pipelines e;
     request_as_bool := contains (entry_meta e) RETURN_AS_BOOL; request_as_buffer := contains (promise_meta (entry_promise e)) RETURN_AS_BUFFER |}.

(** The commands [sent], their promises numbered from [p] on. *)
Definition requests (p : nat) (sent : list Command) : list Request := imap (fun i c => request_of (p + i) c) sent.

(** The commands [own], with those that scripts sent meanwhile between them. *)
Inductive woven : list Command -> list Command -> Prop :=
| woven_nil : woven [] []
| woven_own c own sent : woven own sent -> woven (c :: own) (c :: sent)
| woven_script c l own sent : c ∈ microtasks l -> woven own sent -> woven own (c :: sent).

Lemma woven_app o1 s1 o2 s2 : woven o1 s1 -> woven o2 s2 -> woven (o1 ++ o2) (s1 ++ s2).
Proof. intros H1 H2. induction H1; cbn; [done | by constructor | by eapply woven_script]. Qed.

Lemma requests_app p s1 s2 : requests p (s1 ++ s2) = requests p s1 ++ requests (p + length s1) s2.
Proof. unfold requests. rewrite imap_app. f_equal. apply imap_ext. intros i c _. cbn. by rewrite Nat.add_assoc. Qed.

(** The event that settles a command. *)
Definition settlement (px : PromisePair * Settled) : nat * Settled := (pair_id px.1, px.2).

(** From [c] to [c'], the commands [sent] came to the queue as [new], the commands [ds]
    went out and the replies [ps] came in. *)
Record moved (sent : list Command) (ds new : list Entry) (ps : list (PromisePair * Settled)) (c c' : Client) : Prop := {
  moved_out : forall o n, outgoing c o n -> Z.of_nat (n + length (data_of ds)) < 2 ^ 32 -> outgoing c' (o ++ data_of ds) (n + length (data_of ds));
  moved_replied : replied (log c') = replied (log c) ++ map settlement ps;
  moved_fifo : in_flight c ++ map entry_pair ds = ps.*1 ++ in_flight c';
  moved_queue : queue c ++ new = ds ++ queue c';
  moved_new : map request_held new = requests (next_promise c) sent;
  moved_next : next_promise c' = (next_promise c + length sent)%nat }.

(** Unless the connection failed; a failed one stays so. *)
Record rel (own : list Command) (ps : list (PromisePair * Settled)) (c c' : Client) : Prop := {
  rel_failed : failed (flags c) = true -> failed (flags c') = true;
  rel_moved : regular c -> failed (flags c') = true \/ (regular c' /\ exists sent ds new, woven own sent /\ moved sent ds new ps c c') }.

Lemma data_of_app d1 d2 : data_of (d1 ++ d2) = data_of d1 ++ data_of d2.
Proof. unfold data_of. by rewrite map_app, concat_app. Qed.

Lemma rel_trans o1 o2 ps1 ps2 c1 c2 c3 : rel o1 ps1 c1 c2 -> rel o2 ps2 c2 c3 -> rel (o1 ++ o2) (ps1 ++ ps2) c1 c3.
Proof.
  intros [S1 M1] [S2 M2]. split; [auto|]. intros Hr.
  destruct (M1 Hr) as [Hf|(R1 & s1 & d1 & n1 & W1 & [O1 P1 F1 Q1 N1 L1])]; [by left; apply S2|].
  destruct (M2 R1) as [Hf|(R2 & s2 & d2 & n2 & W2 & [O2 P2 F2 Q2 N2 L2])]; [by left|]. right. split; [done|].
  exists (s1 ++ s2), (d1 ++ d2), (n1 ++ n2). split; [by apply woven_app|]. split.
  - intros o n Ho Hn. rewrite data_of_app, length_app in *. rewrite app_assoc, Nat.add_assoc. apply O2; [apply O1; [done | lia] | lia].
  - by rewrite P2, P1, map_app, app_assoc.
  - rewrite map_app, fmap_app, app_assoc, F1, <- app_assoc, F2. by rewrite app_assoc.
  - by rewrite app_assoc, Q1, <- app_assoc, Q2, app_assoc.
  - by rewrite map_app, N1, N2, L1, requests_app.
  - rewrite length_app. lia.
Qed.

(** A command of a script is none of the client's own. *)
Lemma rel_script cmd l c c' : cmd ∈ microtasks l -> rel [cmd] [] c c' -> rel [] [] c c'.
Proof.
  intros Hl [S M]. split; [done|]. intros Hr. destruct (M Hr) as [Hf|(R & sent & ds & new & W & Hm)]; [by left|].
  right. split; [done|]. exists sent, ds, new. split; [|done]. clear Hm M. remember [cmd] as own eqn:E.
  induction W as [|x own sent W _|x l' own sent Hx W IH]; [done | | by eapply woven_script; [done | apply IH]].
  injection E as -> ->. by eapply woven_script.
Qed.

(** The parts of the state that a step leaves alone. *)
Record untouched (c c' : Client) : Prop := {
  same_in_flight : in_flight c' = in_flight c;
  same_queue : queue c' = queue c;
  same_buffer : write_buffer c' = write_buffer c;
  same_wire : wire (log c') = wire (log c);
  same_replied : replied (log c') = replied (log c);
  same_status : status c' = status c;
  same_next : next_promise c' = next_promise c;
  same_subscriber : is_subscriber (_subscription_ctx c') = is_subscriber (_subscription_ctx c);
  same_failed : failed (flags c') = failed (flags c);
  same_ready : connection_ready c' = connection_ready c;
  same_finalized : finalized (flags c') = finalized (flags c) }.

Lemma rel_untouched c c' : untouched c c' -> rel [] [] c c'.
Proof.
  intros [E1 E2 E3 E4 E5 Es E6 E7 E8 E9 E10]. split; [by rewrite E8|]. intros Hr. right. unfold regular in *. rewrite E1, E2, Es, E7, E8, E9, E10.
  split; [done|]. exists [], [], []. split; [constructor|]. split; rewrite ?E1, ?E2, ?E5, ?E6; cbn; try done.
  - intros o n (rem & Hb & Hw & Hl) _. rewrite app_nil_r, Nat.add_0_r. exists rem. by rewrite E3, E4.
  - by rewrite app_nil_r.
  - by rewrite app_nil_r.
  - by rewrite app_nil_r.
Qed.

Lemma rel_refl c : rel [] [] c c.
Proof. by apply rel_untouched. Qed.

(** A handler that answers no command. *)
Definition quiet {A} (m : J A) : Prop := forall c c' r, m c = Some (c', r) -> rel [] [] c c'.

Lemma quiet_bind {A B} (m : J A) (k : A -> J B) : quiet m -> (forall a, quiet (k a)) -> quiet (mbind k m).
Proof.
  intros Hm Hk c c' r. unfold mbind, J_bind. destruct (m c) as [[c1 [a|e]]|] eqn:E; [|intros [= <- <-]; by eapply Hm|done].
  intros Ek. apply (rel_trans [] [] [] []) with c1; [by eapply Hm | by eapply Hk].
Qed.

Lemma quiet_ret {A} (a : A) : quiet (mret a).
Proof. intros c c' r [= <- <-]. apply rel_refl. Qed.

Lemma quiet_terminate {A} : quiet (terminate (A := A)).
Proof. intros c c' r [= <- <-]. apply rel_refl. Qed.

Lemma quiet_panic {A} : quiet (jpanic (A := A)).
Proof. done. Qed.

Lemma quiet_gets {A} (f : Client -> A) : quiet (gets f).
Proof. intros c c' r [= <- <-]. apply rel_refl. Qed.

Lemma quiet_expect {A} (o : option A) : quiet (expect o).
Proof. destruct o; [apply quiet_ret | apply quiet_panic]. Qed.

Lemma quiet_ignore {A} (m : J A) : quiet m -> quiet (ignore m).
Proof. intros Hm c c' r. unfold ignore. destruct (m c) as [[c1 x]|] eqn:E; [|done]. intros [= <- <-]. by eapply Hm. Qed.

Lemma quiet_finally {A} (m : J A) k : quiet m -> quiet k -> quiet (finally m k).
Proof.
  intros Hm Hk c c' r. unfold finally. destruct (m c) as [[c1 x]|] eqn:E; [|done]. destruct (k c1) as [[c2 y]|] eqn:Ek; [|done].
  intros [= <- <-]. apply (rel_trans [] [] [] []) with c1; [by eapply Hm | by eapply Hk].
Qed.

Lemma quiet_when (b : bool) m : quiet m -> quiet (when b m).
Proof. destruct b; [done | intros _; apply quiet_ret]. Qed.

Lemma quiet_modify f : (forall c, untouched c (f c)) -> quiet (modify f).
Proof. intros Hf c c' r [= <- <-]. by apply rel_untouched. Qed.

Definition neutral (e : Event) : bool :=
  match e with Wrote _ _ => false | Settle _ x => negb (by_reply x) | _ => true end.

Lemma quiet_emit e : neutral e = true -> quiet (emit e).
Proof.
  intros He. apply quiet_modify. intros c. split; try done; cbn; destruct e; try done.
  cbn in He. by destruct (by_reply x).
Qed.

Lemma quiet_call_js e : neutral e = true -> quiet (call_js e).
Proof.
  intros He. apply quiet_bind; [by apply quiet_emit|]. intros _. apply quiet_bind; [apply quiet_gets|].
  intros []; [apply quiet_terminate | apply quiet_ret].
Qed.

Lemma quiet_flag f : quiet (flag f).
Proof. apply quiet_gets. Qed.

(** * Writing *)

Lemma buffers_fun o w w' : buffers o w -> buffers o w' -> w = w'.
Proof. intros Hb Hb'. apply buffers_remaining in Hb, Hb'. congruence. Qed.

Lemma consume_any o w n :
  buffers o w -> fits o -> 0 < n ->
  buffers (consume o n) (drop (Z.to_nat n) w) /\ (length (byte_list (consume o n)) <= length (byte_list o))%nat.
Proof.
  intros (h & Hh & Hn & ->) Hfit H0. unfold fits in Hfit. unfold consume, saturating_add32, U32_MAX. rewrite Hh, drop_drop.
  destruct (Z.leb_spec (Z.of_nat (length (byte_list o))) (Z.min (Z.of_nat h + n) (2 ^ 32 - 1))) as [Hle|Hgt].
  - split; [|cbn; lia]. rewrite drop_ge by lia. apply buffers_default.
  - split; [|done]. exists (h + Z.to_nat n)%nat. cbn. split; [lia|]. split; [lia | done].
Qed.

Lemma outgoing_wrote c o n (k : Z) rem :
  outgoing c o n -> Z.of_nat n < 2 ^ 32 -> buffers (write_buffer c) rem ->
  outgoing
    (if 0 <? k then with_write_buffer (consume (write_buffer c) k) (with_log (Wrote rem k :: log c) c)
     else with_log (Wrote rem k :: log c) c) o n.
Proof.
  intros (rem' & Hb & Hw & Hl) Hn Hb'. rewrite (buffers_fun _ _ _ Hb' Hb) in *. clear Hb' rem. destruct (Z.ltb_spec 0 k).
  - destruct (consume_any _ _ k Hb) as [Hc Hlen]; [unfold fits; lia | done|].
    exists (drop (Z.to_nat k) rem'). cbn. split; [done|]. split; [|lia].
    rewrite Z.max_l by lia. by rewrite <- app_assoc, take_drop.
  - exists rem'. cbn. split; [done|]. split; [|done]. rewrite Z.max_r by lia. cbn. by rewrite app_nil_r.
Qed.

(** A step that changes only what is on its way out. *)
Lemma rel_out c c' :
  in_flight c' = in_flight c -> queue c' = queue c -> replied (log c') = replied (log c) -> next_promise c' = next_promise c ->
  _subscription_ctx c' = _subscription_ctx c -> flags c' = flags c -> status c' = status c ->
  (forall o n, outgoing c o n -> Z.of_nat n < 2 ^ 32 -> outgoing c' o n) -> rel [] [] c c'.
Proof.
  intros E1 E2 E3 E4 E5 E6 Es Ho. split; [by rewrite E6|]. intros Hr. right. unfold regular, connection_ready in *. rewrite E1, E2, E5, E6, Es.
  split; [done|]. exists [], [], []. split; [constructor|]. split; rewrite ?E1, ?E2, ?E3, ?E4; cbn; try done.
  - intros o n Hout Hn. rewrite app_nil_r, Nat.add_0_r in *. by apply Ho.
  - by rewrite app_nil_r.
  - by rewrite app_nil_r.
  - by rewrite app_nil_r.
Qed.

Lemma quiet_flush_data : quiet flush_data.
Proof.
  intros c c' r. unfold flush_data, mbind, J_bind, gets, expect. destruct (remaining (write_buffer c)) as [chunk|] eqn:E; [|done].
  cbn [mret J_ret]. destruct (decide (chunk = [])) as [_|_]; [intros [= <- <-]; apply rel_refl|].
  unfold do_socket_write, mbind, J_bind, gets, emit, modify, mret, J_ret, when. set (k := socket_write (log c) chunk).
  intros Hc. apply rel_out; try (by destruct (0 <? k); injection Hc as <- <-).
  intros o n Ho Hn. assert (Hb : buffers (write_buffer c) chunk).
  { destruct Ho as (rem & Hb & _). apply buffers_remaining in Hb as Hr. rewrite Hr in E. injection E as <-. done. }
  assert (Hout := outgoing_wrote c o n k chunk Ho Hn Hb). by destruct (0 <? k); injection Hc as <- <-.
Qed.

(** A command leaves the queue for the pipeline. *)
Lemma rel_issue c c' e q :
  queue c = e :: q -> in_flight c' = in_flight c ++ [entry_pair e] -> queue c' = q ->
  replied (log c') = replied (log c) -> next_promise c' = next_promise c ->
  _subscription_ctx c' = _subscription_ctx c -> flags c' = flags c -> status c' = status c ->
  (forall o n, outgoing c o n -> Z.of_nat (n + length (serialized_data e)) < 2 ^ 32 ->
     outgoing c' (o ++ serialized_data e) (n + length (serialized_data e))) -> rel [] [] c c'.
Proof.
  intros Eq Ei Eq' E3 E4 E5 E6 Es Ho. split; [by rewrite E6|]. intros (R1 & Rs & R2 & R3 & R4 & R5 & R6). right. rewrite Eq in R6. apply Forall_cons in R6 as [R6 R7].
  unfold regular, connection_ready in *. rewrite Ei, Eq', E5, E6, Es. split.
  { repeat split; try done. apply Forall_app. by repeat constructor. }
  exists [], [e], []. split; [constructor|]. split; rewrite ?Ei, ?Eq, ?Eq', ?E3, ?E4; cbn; try done.
  - intros o n Hout Hn. rewrite app_nil_r in *. by apply Ho.
  - by rewrite app_nil_r.
  - by rewrite app_nil_r.
Qed.

Lemma outgoing_write c c' o n b :
  write_buffer c' = obl_write (write_buffer c) b -> wire (log c') = wire (log c) ->
  outgoing c o n -> outgoing c' (o ++ b) (n + length b).
Proof.
  intros E1 E2 (rem & Hb & Hw & Hl). exists (rem ++ b). rewrite E1, E2. split; [by apply buffers_write|].
  split; [by rewrite app_assoc, Hw|]. cbn. rewrite length_app. lia.
Qed.

Lemma outgoing_through c c' o n b k un :
  buffers (write_buffer c) [] -> slice_from b (Z.to_nat (Z.max k 0)) = Some un ->
  log c' = Wrote b k :: log c -> write_buffer c' = (if decide (un = []) then write_buffer c else obl_write (write_buffer c) un) ->
  outgoing c o n -> outgoing c' (o ++ b) (n + length b).
Proof.
  intros Hb0 Hun El Ew (rem & Hb & Hw & Hl). rewrite <- (buffers_fun _ _ _ Hb0 Hb), app_nil_r in Hw. clear Hb rem.
  unfold slice_from in Hun. destruct (decide _) as [Hle|]; [|done]. injection Hun as Hun. exists un. rewrite El, Ew. cbn.
  split; [|split].
  - destruct (decide (un = [])) as [->|]; [done|]. by apply (buffers_write _ []).
  - by rewrite <- Hun, <- app_assoc, take_drop, Hw.
  - destruct (decide (un = [])); [lia|]. cbn. rewrite length_app, <- Hun, length_drop. lia.
Qed.

Lemma remaining_buffers c o n w : outgoing c o n -> remaining (write_buffer c) = Some w -> buffers (write_buffer c) w.
Proof. intros (rem & Hb & _) E. apply buffers_remaining in Hb as Hr. rewrite Hr in E. by injection E as <-. Qed.

Lemma quiet_drain : quiet drain.
Proof.
  apply quiet_bind; [apply quiet_gets|]. intros []; [apply quiet_ret|]. intros c c' r.
  unfold mbind, J_bind, queue_read_item, mbind, J_bind, gets. destruct (queue c) as [|e q] eqn:Eq; [intros [= <- <-]; apply rel_refl|].
  unfold modify, mret, J_ret, in_flight_write_item, modify, expect. cbn [in_flight with_queue write_buffer with_in_flight].
  destruct (remaining (write_buffer c)) as [rest|] eqn:Er; [|done]. cbn [mret J_ret].
  set (c1 := with_in_flight _ _).
  destruct (connection_ready c1 && bool_decide (rest = [])) eqn:Eready.
  - apply andb_true_iff in Eready as [_ Eready]. apply bool_decide_eq_true in Eready as ->.
    unfold write_through, mbind, J_bind, do_socket_write, gets, emit, modify, mret, J_ret, expect, mbind, J_bind.
    set (k := socket_write (log c1) (serialized_data e)).
    destruct (slice_from (serialized_data e) (Z.to_nat (Z.max k 0))) as [un|] eqn:Eun; [|done]. unfold mret, J_ret.
    unfold write_buffer_write, modify, when, skip, mret, J_ret.
    intros Hc. apply (rel_issue c c' e q Eq); try (destruct (bool_decide (un = [])); injection Hc as <- <-; done).
    intros o n Ho _. apply (outgoing_through c c' o n _ k un); [by eapply remaining_buffers | done | | | done].
    + by destruct (bool_decide (un = [])); injection Hc as <- <-.
    + destruct (bool_decide (un = [])) eqn:Eb; injection Hc as <- <-;
        [apply bool_decide_eq_true in Eb | apply bool_decide_eq_false in Eb]; by destruct (decide (un = [])).
  - unfold write_buffer_write, modify, mret, J_ret. intros [= <- <-].
    apply (rel_issue c _ e q Eq); try done. intros o n Ho _. by apply (outgoing_write c).
Qed.

Lemma quiet_register : quiet register_auto_flusher.
Proof.
  apply quiet_bind; [apply quiet_gets|]. intros r. apply quiet_when, quiet_bind; [by apply quiet_emit|]. intros _. by apply quiet_modify.
Qed.

Lemma quiet_unregister : quiet unregister_auto_flusher.
Proof.
  apply quiet_bind; [apply quiet_gets|]. intros r. apply quiet_when, quiet_bind; [by apply quiet_emit|]. intros _. by apply quiet_modify.
Qed.

Create HintDb quiet.
#[local] Hint Resolve quiet_ret quiet_terminate quiet_panic quiet_gets quiet_expect quiet_when quiet_flag quiet_flush_data quiet_drain
  quiet_register quiet_unregister quiet_bind quiet_ignore quiet_finally : quiet.

Ltac quiet_step :=
  match goal with
  | |- quiet (mbind _ _) => apply quiet_bind; [|intros ?]
  | |- quiet (when _ _) => apply quiet_when
  | |- quiet (ignore _) => apply quiet_ignore
  | |- quiet (finally _ _) => apply quiet_finally
  | |- quiet (match ?x with _ => _ end) => destruct x
  | |- quiet skip => apply quiet_ret
  | _ => solve [auto with quiet]
  end.

Lemma quiet_send_next_command : quiet send_next_command.
Proof. unfold send_next_command. repeat quiet_step. Qed.

Lemma quiet_flush_loop n : quiet (flush_loop n).
Proof.
  induction n as [|n IH]; cbn [flush_loop]; [repeat quiet_step|]. intros c c' r.
  unfold mbind at 1, J_bind at 1, queue_read_item. unfold mbind at 1, J_bind at 1, gets.
  destruct (queue c) as [|e q] eqn:Eq; [done|].
  unfold mbind, J_bind, modify, mret, J_ret, expect, in_flight_write_item, write_buffer_write, modify, mret, J_ret.
  intros Hc. apply (rel_trans [] [] [] []) with (c2 := with_write_buffer (obl_write (write_buffer c) (serialized_data e))
    (with_in_flight (in_flight c ++ [entry_pair e]) (with_queue q c))).
  - apply (rel_issue c _ e q Eq); try done. intros o m Ho _. by apply (outgoing_write c).
  - by eapply IH.
Qed.

Lemma quiet_on_auto_flush : quiet on_auto_flush.
Proof. unfold on_auto_flush. repeat quiet_step; [by apply quiet_modify | apply quiet_flush_loop | by apply quiet_modify]. Qed.


(** * Failures *)

(** A failed connection stays so. *)
Definition broken (c : Client) : Prop := failed (flags c) = true.
Notation sticky := (preserves broken).

Lemma quiet_sticky {A} (m : J A) : quiet m -> sticky m.
Proof. intros Hm c c' r E. by apply (Hm c c' r E). Qed.

Lemma sticky_set_flags f : (forall g, failed g = true -> failed (f g) = true) -> sticky (set_flags f).
Proof. intros Hf. apply preserves_modify. intros c. apply Hf. Qed.

#[local] Hint Extern 1 (sticky (emit _)) => by apply preserves_modify : keep.
#[local] Hint Extern 1 (sticky (set_flags _)) => by apply sticky_set_flags : keep.
#[local] Hint Extern 2 (sticky (modify _)) => by apply preserves_modify : keep.
#[local] Hint Extern 3 (sticky _) => apply quiet_sticky; solve [auto with quiet] : keep.

Lemma sticky_call_js e : sticky (call_js e).
Proof. unfold call_js. keep. Qed.
#[local] Hint Resolve sticky_call_js : keep.

Lemma sticky_promise_resolve p v : sticky (promise_resolve p v).
Proof. unfold promise_resolve, promise_reject. keep. Qed.

Lemma sticky_promise_reject p e : sticky (promise_reject p e).
Proof. apply sticky_call_js. Qed.
#[local] Hint Resolve sticky_promise_resolve sticky_promise_reject : keep.

Lemma sticky_reject_pairs l e : sticky (reject_pairs l e).
Proof. induction l; cbn [reject_pairs]; keep. Qed.

Lemma sticky_reject_entries l e : sticky (reject_entries l e).
Proof. induction l; cbn [reject_entries]; keep. Qed.
#[local] Hint Resolve sticky_reject_pairs sticky_reject_entries : keep.

(** * Sending *)

(** The number of a new promise. *)
Definition took (c : Client) : Client := with_next_promise (S (next_promise c)) c.

(** A new command comes to the queue. *)
Lemma rel_queued cmd c e :
  request_held e = request_of (next_promise c) cmd -> subscribes (entry_meta e) = false ->
  rel [cmd] [] c (with_queue (queue c ++ [e]) (took c)).
Proof.
  intros He Hs. split; [done|]. intros (R1 & Rs & R2 & R3 & R4 & R5 & R6). right. split.
  { repeat split; try done. cbn. apply Forall_app. by repeat constructor. }
  exists [cmd], [], [e]. split; [by repeat constructor|]. split; cbn; try done.
  - intros o n Ho _. by rewrite app_nil_r, Nat.add_0_r.
  - by rewrite app_nil_r.
  - by rewrite app_nil_r.
  - by rewrite He, Nat.add_0_r.
  - lia.
Qed.

(** It goes out at once. *)
Lemma rel_direct cmd c e :
  queue c = [] -> request_held e = request_of (next_promise c) cmd -> subscribes (entry_meta e) = false ->
  rel [cmd] [] c (with_in_flight (in_flight c ++ [entry_pair e]) (with_write_buffer (obl_write (write_buffer c) (serialized_data e)) (took c))).
Proof.
  intros Hq He Hs. apply (rel_trans [cmd] [] [] []) with (c2 := with_queue (queue c ++ [e]) (took c)); [by apply rel_queued|].
  apply (rel_issue _ _ e []); cbn; try done; [by rewrite Hq | ]. intros o n Ho _. by apply (outgoing_write c).
Qed.

(** What [send] makes of a command. *)
Definition checked (c : Command) : Command := {| command := command c; args := args c; meta := meta_check (meta c) c |}.

Definition promise_for (c : Command) (p : nat) : Promise := {| promise_meta := meta (checked c); promise := p |}.

Lemma meta_set_other m b f : Z.land f SUPPORTS_AUTO_PIPELINING = 0 -> Z.land 253 f = f -> contains (meta_set m SUPPORTS_AUTO_PIPELINING b) f = contains m f.
Proof.
  intros H1 H2. unfold contains, meta_set. destruct b.
  - rewrite Z.land_lor_distr_l, (Z.land_comm SUPPORTS_AUTO_PIPELINING), H1. by rewrite Z.lor_0_r.
  - change (Z.lxor SUPPORTS_AUTO_PIPELINING 255) with 253. by rewrite <- Z.land_assoc, H2.
Qed.

Lemma meta_set_same m b : contains (meta_set m SUPPORTS_AUTO_PIPELINING b) SUPPORTS_AUTO_PIPELINING = b.
Proof.
  unfold contains, meta_set. destruct b.
  - apply Z.eqb_eq, Z.bits_inj'. intros n _. rewrite Z.land_spec, Z.lor_spec. by destruct (Z.testbit m n), (Z.testbit _ n).
  - change (Z.lxor SUPPORTS_AUTO_PIPELINING 255) with 253. rewrite <- Z.land_assoc. by rewrite Z.land_0_r.
Qed.

Lemma request_checked cmd p : request_held (entry_create (checked cmd) (promise_for cmd p)) = request_of p cmd.
Proof.
  unfold request_held, request_of, entry_create, pipelines, promise_for, checked, meta_check. cbn [entry_meta entry_promise promise_meta meta command args].
  by rewrite meta_set_same, !meta_set_other.
Qed.

Lemma subscribes_meta_set m b : subscribes (meta_set m SUPPORTS_AUTO_PIPELINING b) = subscribes m.
Proof. by apply meta_set_other. Qed.

Lemma rel_enqueue cmd c c' r :
  subscribes (meta cmd) = false -> enqueue (checked cmd) (promise_for cmd (next_promise c)) (took c) = Some (c', r) -> rel [cmd] [] c c'.
Proof.
  intros Hs. unfold enqueue, mbind, J_bind, flag, gets. cbn [queue took with_next_promise].
  set (e := entry_create (checked cmd) (promise_for cmd (next_promise c))).
  assert (He : request_held e = request_of (next_promise c) cmd) by apply request_checked.
  assert (Hse : subscribes (entry_meta e) = false) by (cbn; unfold meta_check; by rewrite subscribes_meta_set).
  destruct (_ || _) eqn:E.
  - unfold queue_write_item, modify. cbn [queue took with_next_promise].
    intros Hc. apply (rel_trans [cmd] [] [] []) with (c2 := with_queue (queue c ++ [e]) (took c)); [by apply rel_queued|].
    revert Hc. match goal with |- context [when ?b register_auto_flusher] => assert (quiet (when b register_auto_flusher)) as Hq by auto with quiet end.
    apply Hq.
  - apply orb_false_iff in E as [E _]. apply orb_false_iff in E as [E _]. apply orb_false_iff in E as [E _]. apply orb_false_iff in E as [E _].
    apply negb_false_iff, bool_decide_eq_true in E.
    assert (Hd := rel_direct cmd c e E He Hse). destruct (status (took c)); [done| |];
      unfold write_buffer_write, in_flight_write_item, modify; intros Hc;
      (eapply (rel_trans [cmd] [] [] []); [exact Hd|]); revert Hc;
      (assert (quiet (flush_data;; skip)) as Hq by (repeat quiet_step)); apply Hq.
Qed.

Lemma sticky_enqueue cmd p : sticky (enqueue cmd p).
Proof. unfold enqueue, queue_write_item, write_buffer_write, in_flight_write_item. keep. Qed.
#[local] Hint Resolve sticky_enqueue : keep.

Lemma sticky_send cmd : sticky (send cmd).
Proof. unfold send, promise_create. keep. Qed.
#[local] Hint Resolve sticky_send : keep.

(** A command that is sent comes to the queue, or goes out at once. *)
Lemma rel_send cmd c c' r : subscribes (meta cmd) = false -> send cmd c = Some (c', r) -> rel [cmd] [] c c'.
Proof.
  intros Hs E. split; [by apply (sticky_send cmd c c' r)|]. intros Hr. revert E.
  assert (Hrs := Hr). destruct Hrs as (R1 & Rs & _).
  unfold send. fold (checked cmd). unfold promise_create, flag.
  unfold mbind at 1, J_bind at 1. unfold mbind at 1, J_bind at 1. unfold mbind at 1, J_bind at 1.
  unfold gets at 1, modify at 1. cbn [mret J_ret]. fold (promise_for cmd (next_promise c)). change (with_next_promise (S (next_promise c)) c) with (took c).
  set (p := promise_for cmd (next_promise c)).
  unfold mbind at 1, J_bind at 1. unfold gets at 1. change (failed (flags (took c))) with (failed (flags c)). rewrite R1.
  unfold mbind at 1, J_bind at 1. unfold mbind at 1, J_bind at 1. unfold gets at 1. change (status (took c)) with (status c). rewrite Rs.
  unfold mbind at 1, J_bind at 1. destruct (enqueue (checked cmd) p (took c)) as [[c2 [u|x]]|] eqn:Ee; [| |done].
  - intros E. refine (rel_moved _ _ _ _ _ Hr). apply (rel_trans [cmd] [] [] []) with c2; [by apply (rel_enqueue cmd c c2 (Ok u))|]. revert E.
    match goal with |- context [match ?m c2 with _ => _ end] => assert (quiet m) as Hq by (repeat quiet_step); destruct (m c2) as [[c3 [u3|x3]]|] eqn:E3 end;
      [| |done]; intros [= <- <-]; by eapply Hq.
  - intros [= <- <-]. refine (rel_moved _ _ _ _ _ Hr). by apply (rel_enqueue cmd c c2 (Err x)).
Qed.

Lemma quiet_promise_reject p m e : quiet (promise_reject p (ValkeyError m e)).
Proof. by apply quiet_call_js. Qed.
#[local] Hint Resolve quiet_promise_reject : quiet.

(** The commands of a script. *)
Definition scripted (c : Command) : Prop := subscribes (meta c) = false /\ exists l, c ∈ microtasks l.

Lemma quiet_send_all l : Forall scripted l -> quiet (send_all l).
Proof.
  induction 1 as [|c l [Hc [t Ht]] Hl IH]; cbn [send_all]; [apply quiet_ret|]. apply quiet_bind; [|done].
  intros c1 c2 r E. apply (rel_script c t); [done | by eapply rel_send].
Qed.

Lemma sticky_send_all l : sticky (send_all l).
Proof. induction l; cbn [send_all]; keep. Qed.
#[local] Hint Resolve sticky_send_all : keep.

Lemma sticky_in_scope {A} (m : J A) : sticky m -> sticky (in_scope m).
Proof. intros Hm. unfold in_scope. keep. Qed.

Lemma sticky_fail_ close m e : sticky close -> sticky (fail_ close m e).
Proof.
  intros Hc. unfold fail_, fail_with_js_value_, reject_all_pending_commands. keep.
Qed.
#[local] Hint Resolve sticky_in_scope sticky_fail_ : keep.

Lemma sticky_on_close_ close : sticky close -> sticky (on_close_ close).
Proof. intros Hc. unfold on_close_, on_valkey_close, on_valkey_reconnect. keep. all: apply sticky_in_scope; keep. Qed.

Lemma sticky_close_loop n : sticky (close_loop n).
Proof. induction n; cbn [close_loop]; keep. by apply sticky_on_close_. Qed.
#[local] Hint Resolve sticky_close_loop : keep.

Lemma sticky_close : sticky close.
Proof. apply sticky_close_loop. Qed.
#[local] Hint Resolve sticky_close : keep.

Lemma sticky_fail m e : sticky (fail m e).
Proof. apply sticky_fail_, sticky_close. Qed.
#[local] Hint Resolve sticky_fail : keep.

(** * Replies *)

Lemma sticky_on_writable : sticky on_writable.
Proof. apply quiet_sticky, quiet_send_next_command. Qed.
#[local] Hint Resolve sticky_on_writable : keep.

Lemma sticky_in_flight_read_item : sticky in_flight_read_item.
Proof. unfold in_flight_read_item. keep. Qed.
#[local] Hint Resolve sticky_in_flight_read_item : keep.

Lemma sticky_settle_command p v : sticky (settle_command p v).
Proof. unfold settle_command. keep. all: apply sticky_in_scope; keep. Qed.
#[local] Hint Resolve sticky_settle_command : keep.

Lemma sticky_on_valkey_connect v : sticky (on_valkey_connect v).
Proof. unfold on_valkey_connect. keep. apply sticky_in_scope. keep. Qed.

Lemma sticky_on_valkey_message l : sticky (on_valkey_message l).
Proof. unfold on_valkey_message, subscriber. keep. all: apply sticky_in_scope; keep. Qed.
#[local] Hint Resolve sticky_on_valkey_connect sticky_on_valkey_message : keep.

Lemma sticky_handle_hello_response v : sticky (handle_hello_response v).
Proof. unfold handle_hello_response, hello_accepted. keep. Qed.

Lemma sticky_handle_select_response v : sticky (handle_select_response v).
Proof. unfold handle_select_response. keep. all: apply sticky_on_writable. Qed.

Lemma sticky_remove_subscription : sticky remove_subscription.
Proof. unfold remove_subscription. keep. Qed.
#[local] Hint Resolve sticky_handle_hello_response sticky_handle_select_response sticky_remove_subscription : keep.

Lemma sticky_handle_subscribe_response v p : sticky (handle_subscribe_response v p).
Proof.
  unfold handle_subscribe_response. apply sticky_in_scope.
  unfold add_subscription, on_valkey_subscribe, on_valkey_unsubscribe.
  keep.
Qed.
#[local] Hint Resolve sticky_handle_subscribe_response : keep.

Lemma sticky_handle_response v : sticky (handle_response v).
Proof. unfold handle_response, subscriber. keep. Qed.

(** What the reply [v] makes of the promise of a command; a conversion may throw. *)
Definition answer (p : PromisePair) (v : RESPValue) (throws : bool) : Settled :=
  if throws then Rejected Thrown
  else
    match as_bool (pair_meta p) v with
    | Error e => Rejected (ReplyError (Error e))
    | v => Value v (contains (promise_meta (pair_promise p)) RETURN_AS_BUFFER)
    end.

(** The commands of the scripts that run between two events. *)
Context (calm : forall l, Forall (fun c => subscribes (meta c) = false) (microtasks l)).

Lemma in_scope_inv {A} (m : J A) c c' r :
  in_scope m c = Some (c', r) -> exists c1, m c = Some (c1, r) /\ rel [] [] c1 c'.
Proof.
  unfold in_scope, finally. destruct (m c) as [[c1 x]|]; [|done].
  destruct ((gets (fun c => microtasks (log c)) ≫= fun l => send_all l) c1) as [[c2 y]|] eqn:E; [|done]. intros [= <- <-]. exists c1. split; [done|].
  revert E. unfold mbind, J_bind, gets. apply quiet_send_all, Forall_forall. intros cmd Hc.
  split; [exact (proj1 (Forall_forall _ _) (calm (log c1)) cmd Hc) | by exists (log c1)].
Qed.

Lemma rel_reply c p rest x :
  in_flight c = p :: rest -> by_reply x = true ->
  rel [] [(p, x)] c (with_log (Settle (pair_id p) x :: log c) (with_in_flight rest c)).
Proof.
  intros Ep Hx. split; [done|]. intros (R1 & Rs & R2 & R3 & R4 & R5 & R6). right. rewrite Ep in R5. apply Forall_cons in R5 as [_ R5].
  split; [done|]. exists [], [], []. split; [constructor|]. split; cbn; rewrite ?Hx; try done.
  - intros o n Ho _. by rewrite app_nil_r, Nat.add_0_r.
  - by rewrite app_nil_r.
  - by rewrite app_nil_r.
Qed.

Lemma call_js_inv e c c' r : call_js e c = Some (c', r) -> c' = with_log (e :: log c) c.
Proof.
  unfold call_js, emit, modify, mbind, J_bind, gets, terminate, skip, mret, J_ret. cbn.
  destruct (js_terminated (e :: log c)); by intros [= <- <-].
Qed.

Lemma settle_inv p v c c' r :
  settle_command (Some p) v c = Some (c', r) ->
  exists throws, by_reply (answer p v throws) = true /\ rel [] [] (with_log (Settle (pair_id p) (answer p v throws) :: log c) c) c'.
Proof.
  unfold settle_command. intros E. apply in_scope_inv in E as (c1 & E & Hr).
  assert (Hc : exists throws, by_reply (answer p v throws) = true /\ c1 = with_log (Settle (pair_id p) (answer p v throws) :: log c) c);
    [|destruct Hc as (t & Ht & ->); by exists t].
  unfold answer. revert E. destruct (as_bool (pair_meta p) v) as [] eqn:Ea;
    unfold promise_resolve, promise_reject, mbind at 1, J_bind at 1, gets;
    (destruct (to_js_throws (log c) _); intros E; apply call_js_inv in E as ->; [by exists true | by exists false]).
Qed.

Lemma handle_response_rel v c c' r :
  regular c -> handle_response v c = Some (c', r) ->
  (in_flight c = [] /\ rel [] [] c c') \/
  exists p rest throws, in_flight c = p :: rest /\ rel [] [(p, answer p v throws)] c c'.
Proof.
  intros (R1 & Rs & R2 & R3 & R4 & R5 & R6). unfold connection_ready in R2. apply andb_true_iff in R2 as [R2 R2'].
  apply negb_true_iff in R2'. unfold handle_response, mbind, J_bind, flag, gets. rewrite R2. cbn [negb]. rewrite R2'.
  unfold should_consume_promise_pair. rewrite R3. unfold in_flight_read_item, mbind, J_bind, gets.
  destruct (in_flight c) as [|p rest] eqn:Ef.
  - unfold mret, J_ret, subscriber, gets. rewrite R3. intros [= <- <-]. left. split; [done | apply rel_refl].
  - apply Forall_cons in R5 as [R5 _]. unfold modify, mret, J_ret, subscriber, gets. cbn [_subscription_ctx with_in_flight].
    unfold subscribes in R5. rewrite R3, R5. intros E. apply settle_inv in E as (t & Ht & Hr). right. exists p, rest, t. split; [done|].
    apply (rel_trans [] [] [_] []) with (2 := Hr). by apply (rel_reply c p rest).
Qed.

(** * A run of the client *)

Inductive Op := Send (c : Command) | Reply (v : RESPValue) | Writable | AutoFlush.

Definition step (o : Op) : J unit :=
  match o with
  | Send c => send c;; skip
  | Reply v => handle_response v
  | Writable => on_writable
  | AutoFlush => on_auto_flush;; skip
  end.

(** A handler that JavaScript terminated is over, and the event loop goes on. *)
Fixpoint run (ops : list Op) (c : Client) : option Client :=
  match ops with
  | [] => Some c
  | o :: ops => r ← step o c; run ops r.1
  end.

Definition replies (ops : list Op) : list RESPValue := omap (fun o => match o with Reply v => Some v | _ => None end) ops.
Definition sends (ops : list Op) : list Command := omap (fun o => match o with Send c => Some c | _ => None end) ops.
Definition ordinary (o : Op) : Prop := match o with Send c => subscribes (meta c) = false | _ => True end.
Definition answered (v : RESPValue) (px : PromisePair * Settled) : Prop := exists throws, px.2 = answer px.1 v throws.

Lemma rel_step o c c' r :
  regular c -> ordinary o -> step o c = Some (c', r) ->
  exists vs ps, vs `sublist_of` replies [o] /\ Forall2 answered vs ps /\ rel (sends [o]) ps c c' /\ (in_flight c <> [] -> vs = replies [o]).
Proof.
  intros Hr Ho E. destruct o as [cmd|v| |]; cbn in Ho, E.
  - exists [], []. split; [done|]. split; [done|]. split; [|done]. revert E. cbn.
    unfold mbind, J_bind, skip, mret, J_ret. destruct (send cmd c) as [[c1 [n|x]]|] eqn:E; [| |done]; intros [= <- <-]; by eapply rel_send.
  - destruct (handle_response_rel v c c' r Hr E) as [[Hf H1]|(p & rest & t & Hf & H1)].
    + exists [], []. split; [apply sublist_nil_l|]. by split; [|split].
    + exists [v], [(p, answer p v t)]. split; [done|]. split; [|by split]. constructor; [by exists t | done].
  - exists [], []. split; [done|]. split; [done|]. split; [|done]. revert E. apply quiet_send_next_command.
  - exists [], []. split; [done|]. split; [done|]. split; [|done]. revert E. apply quiet_bind; [apply quiet_on_auto_flush | intros; apply quiet_ret].
Qed.

Lemma sticky_step_op o : sticky (step o).
Proof.
  destruct o; cbn; [keep | apply sticky_handle_response | apply sticky_on_writable |].
  apply preserves_bind; [apply quiet_sticky, quiet_on_auto_flush | intros; apply quiet_sticky, quiet_ret].
Qed.

Lemma run_failed ops c c' : run ops c = Some c' -> failed (flags c) = true -> failed (flags c') = true.
Proof.
  revert c. induction ops as [|o ops IH]; cbn; intros c; [by intros [= <-]|].
  destruct (step o c) as [[c1 r]|] eqn:E; [|done]. cbn. intros Er Hf. eapply IH; [done|]. by eapply sticky_step_op.
Qed.

Lemma run_moved ops c c' :
  regular c -> Forall ordinary ops -> run ops c = Some c' -> failed (flags c') = false ->
  exists sent ds new vs ps, regular c' /\ woven (sends ops) sent /\ moved sent ds new ps c c' /\ vs `sublist_of` replies ops /\ Forall2 answered vs ps /\
    ((length (replies ops) <= length (in_flight c))%nat -> vs = replies ops).
Proof.
  revert c. induction ops as [|o ops IH]; cbn [run]; intros c Hr Ho.
  - intros [= <-] _. exists [], [], [], [], []. split; [done|]. split; [constructor|].
    split; [|done]. split; cbn; rewrite ?app_nil_r; try done. intros o n Hout _. by rewrite Nat.add_0_r, app_nil_r.
  - apply Forall_cons in Ho as [Ho1 Ho]. destruct (step o c) as [[c1 r]|] eqn:E; [|done]. cbn [mbind option_bind fst]. intros Er Hf.
    destruct (rel_step o c c1 r Hr Ho1 E) as (vs1 & ps1 & S1 & A1 & M1 & L1).
    destruct M1 as [Hst M1]. destruct (M1 Hr) as [Hf1|(R1 & s1 & d1 & n1 & W1 & M1')].
    { by rewrite (run_failed _ _ _ Er Hf1) in Hf. }
    destruct (IH c1 R1 Ho Er Hf) as (s2 & d2 & n2 & vs2 & ps2 & R2 & W2 & M2 & S2 & A2 & L2).
    assert (Hps : rel (sends [o] ++ sends ops) (ps1 ++ ps2) c c').
    { apply rel_trans with c1; [split; [done|]; intros _; right; split; [done|]; by exists s1, d1, n1|].
      split; [by apply run_failed with ops|]. intros _. right. split; [done|]. by exists s2, d2, n2. }
    destruct Hps as [_ Hps]. destruct (Hps Hr) as [Hf2|(_ & sent & ds & new & W & M)]; [congruence|].
    assert (Es : sends (o :: ops) = sends [o] ++ sends ops) by (by destruct o).
    exists sent, ds, new, (vs1 ++ vs2), (ps1 ++ ps2). rewrite Es. do 3 (split; [done|]).
    assert (Er' : replies (o :: ops) = replies [o] ++ replies ops) by (by destruct o).
    rewrite Er', length_app. split; [by apply sublist_app|]. split; [by apply Forall2_app|]. intros Hlen.
    assert (Hlf := f_equal length (moved_fifo _ _ _ _ _ _ M1')). rewrite !length_app, length_fmap, length_map in Hlf.
    apply Forall2_length in A1. f_equal.
    + destruct (in_flight c); [|by apply L1]. cbn [length] in Hlen. destruct (replies [o]); [by apply sublist_nil_r | cbn in Hlen; lia].
    + apply L2. apply sublist_length in S1. lia.
Qed.

End Fifo.
