(* ===== verification/ValkeyProps.v ===== *)
(** The properties of the Valkey client: its reader and its scanner against the
    grammar of replies, the stream of replies, the order of commands and replies,
    and the promises. *)
From S2P Require Import Prelude BunCore Valkey ValkeyGrammar ValkeyScan ValkeyCut ValkeyClient ValkeyInv ValkeyStream ValkeyFifo.

Module ValkeyProps.

(** * A client to evaluate

    Its socket takes eight bytes at a time; the numbers of its replies are not
    parsed. *)

Definition sample_target : Target :=
  {| F64 := Z; INFINITY := 1; NEG_INFINITY := -1; NAN := 0; WTF__parseDouble := fun _ => (0, 0%nat);
     strncasecmp_eq := fun _ _ _ => false; size_of_RESPValue := 32; size_of_MapEntry := 64 |}.

Definition sample_host : @Host sample_target :=
  {| socket_write := fun _ b => Z.min 8 (Z.of_nat (length b)); socket_is_closed := fun _ => false; socket_is_semi := fun _ => false;
     tls_context_fails := fun _ => false; socket_connects := fun _ => true; to_js_throws := fun _ _ => false; js_terminated := fun _ => false; is_shutting_down := fun _ => false;
     channels_subscribed_to_count := fun _ => Some 0; microtasks := fun _ => [] |}.

#[local] Existing Instance sample_target.
#[local] Existing Instance sample_host.

Definition sample_flags : ConnectionFlags :=
  {| is_authenticated := true; is_manually_closed := false; is_selecting_db_internal := false; enable_offline_queue := true;
     needs_to_open_socket := false; enable_auto_reconnect := true; is_reconnecting := false; failed := false;
     enable_auto_pipelining := true; finalized := false; connection_promise_returns_client := false |}.

Definition sample_pair (p : nat) : PromisePair := {| pair_meta := meta_default; pair_promise := {| promise_meta := meta_default; promise := p |} |}.

Definition sample_client (pending : list PromisePair) : Client :=
  {| socket := SocketTcp; status := Connected; write_buffer := obl_default; in_flight := pending; queue := []; password := []; username := [];
     database := 0; idle_timeout_interval_ms := 0; connection_timeout_ms := 0; retry_attempts := 0; max_retries := 20; flags := sample_flags;
     registered := false; _subscription_ctx := {| is_subscriber := false; original_enable_offline_queue := true; original_enable_auto_pipelining := true |};
     tls := TlsNone; connection_promise := false; next_promise := length pending; log := [] |}.

Definition sample_valkey : ValkeyClient := {| client := sample_client [sample_pair 0; sample_pair 1]; read_buffer := obl_default; reply_scanner := reset |}.

Definition sample_get : Command := raw b!"GET" [b!"key"].
Definition sample_incr : Command := raw b!"INCR" [b!"n"].

Definition line_end : bytes := [13; 10].
Definition sample_stream : list (RESPValue * bytes) := [(SimpleString b!"OK", b!"+OK" ++ line_end); (Integer 5, b!":5" ++ line_end)].
Definition sample_chunks : list bytes := [b!"+O"; b!"K" ++ line_end ++ b!":"; b!"5" ++ line_end].

Lemma sample_sendable : Forall sendable sample_stream.
Proof.
  by repeat constructor.
Qed.

Lemma sample_regular pending : Forall (fun p => subscribes (pair_meta p) = false) pending -> regular (sample_client pending).
Proof. by repeat split. Qed.

Lemma sample_waits : waits sample_valkey [].
Proof. split; [apply buffers_default|]. split; [by left | done]. Qed.

(** The value of a run that does not panic. *)
Definition ran {A} (o : option (Client * A)) : Client := match o with Some (c, _) => c | None => sample_client [] end.

(** * Decimal lengths *)

Lemma length_dec_fuel fuel n acc : (length (dec_digits fuel n acc) <= fuel + length acc)%nat.
Proof.
  revert n acc. induction fuel as [|fuel IH]; intros n acc; cbn [dec_digits]; [lia|].
  destruct (n / 10 =? 0); [cbn; lia|]. etransitivity; [apply IH | cbn; lia].
Qed.

Lemma line_digits t : all_digits t -> Z.of_nat (length t) <= MAX_LINE_LEN -> line t.
Proof.
  intros Hd Hl. split; [|done]. apply find_crlf_None. intros k _ [Hk _].
  assert (Hc := Forall_lookup_1 _ _ _ _ Hd Hk). cbn beta in Hc. apply digit_range in Hc. lia.
Qed.

Lemma int_text_decimal n : 0 <= n <= I64_MAX -> int_text n (decimal n).
Proof.
  intros Hn. assert (Hd := decimal_digits n). unfold I64_MAX in Hn. split.
  - apply line_digits; [done|]. unfold MAX_LINE_LEN, decimal. assert (H := length_dec_fuel 40 n []). change (length []) with 0%nat in H. lia.
  - assert (Hu := parse_unsigned_decimal I64_MAX n). unfold parse_int. destruct (decimal n) as [|c r] eqn:E; [by apply decimal_ne in E|].
    assert (Hc := digit_range c (Forall_inv Hd)). rewrite (proj2 (Z.eqb_neq c 43)), (proj2 (Z.eqb_neq c 45)) by lia.
    unfold parse_unsigned in Hu. destruct (auto_radix (c :: r) 10) as [digits radix].
    specialize (Hu ltac:(unfold I64_MAX; lia) ltac:(unfold I64_MAX, U128_MAX; lia)).
    destruct (parse_with_sign digits radix) as [acc|e]; cbn [result_bind] in *; [|done]. destruct (acc <=? I64_MAX); congruence.
Qed.

(** * The reader and the scanner *)

(** C7: read_value returns on every buffer, and its values are exactly those of
    the grammar: it reads [v] up to the position [n] if and only if the first
    [n] bytes are a text of [v]. *)
Theorem reader_is_the_grammar {T : Target} (b : bytes) :
  exists r x, read_value (reader_init b) = Some (r, x) /\
    forall v n, x = Ok v /\ pos r = n <-> exists t, resp MAX_NESTING_DEPTH v t /\ t `prefix_of` b /\ n = length t.
Proof.
  destruct (read_value_ends b 0%nat ltac:(lia)) as [(v & p & Hp & Hr & _)|(e & Hf & _)].
  - destruct (Hr (length b)) as [k E]. eexists _, _. split; [exact E|]. intros v2 n. split.
    + intros [[= <-] <-]. apply read_value_iff in Hr as (t & Hv & Ht & Hn); [|lia]. exists t. by rewrite <- has_0.
    + intros (t & Hv & Ht & ->). rewrite <- has_0 in Ht.
      assert (Hr2 := read_value_complete b 0%nat v2 t ltac:(lia) Ht Hv). by destruct (reads_fun _ _ _ _ _ _ _ Hr Hr2) as [<- ->].
  - destruct (Hf (length b)) as [r E]. eexists _, _. split; [exact E|]. intros v n. split; [by intros [? _]|].
    intros (t & Hv & Ht & _). rewrite <- has_0 in Ht.
    assert (Hr := read_value_complete b 0%nat v t ltac:(lia) Ht Hv). by apply (reads_fails _ _ _ _ _ _ Hr) in Hf.
Qed.

(** C20: the scanner finds the end of a reply, however its bytes arrive: resuming
    on each chunk, it ends with the outcome of one scan of all the bytes. *)
Theorem scanner_resumes (chunks : list bytes) :
  same_scan (scan_stream reset [] chunks) (reply_scan reset (concat chunks)).
Proof. by apply (scan_stream_tracks reset [] chunks); [apply tracks_reset|]. Qed.

(** C21: scanner and reader agree.  The scan always returns; where the reader
    reads a value, the scan ends with the value; where the scan is complete, the
    reader reads a value that ends there or finds an error other than a short
    read. *)
Theorem scanner_agrees_with_reader {T : Target} (b : bytes) :
  (exists s x, reply_scan reset b = Some (s, x)) /\
  (forall r v, read_value (reader_init b) = Some (r, Ok v) -> exists s, reply_scan reset b = Some (s, Ok Complete) /\ scan_pos s = pos r) /\
  (forall s, reply_scan reset b = Some (s, Ok Complete) ->
     exists r, (exists v, read_value (reader_init b) = Some (r, Ok v) /\ pos r = scan_pos s) \/
       exists e, read_value (reader_init b) = Some (r, Err e) /\ e <> InvalidResponse).
Proof.
  split; [|split].
  - destruct (reply_scan_total b) as [[s x] E]. by exists s, x.
  - intros r v E. destruct (read_value_ends b 0%nat ltac:(lia)) as [(v2 & p & Hp & Hr & _)|(e & Hf & _)].
    + destruct (Hr (length b)) as [k E2]. unfold reader_init in E. unfold rd in E2. rewrite E in E2. injection E2 as -> ->.
      exists (at_pos p []). split; [by eapply reads_complete | done].
    + destruct (Hf (length b)) as [r2 E2]. unfold reader_init in E. unfold rd in E2. congruence.
  - intros s E. destruct (complete_reads b s E) as (p & -> & [(v & Hr)|(e & Hf & He)]).
    + destruct (Hr (length b)) as [k E2]. eexists. left. exists v. split; [exact E2 | done].
    + destruct (Hf (length b)) as [r E2]. exists r. right. by exists e.
Qed.

Lemma scanner_agrees_with_reader_witness :
  (exists s x, reply_scan reset (b!"*2" ++ line_end ++ b!"_" ++ line_end) = Some (s, x)) /\
  (forall r v, read_value (reader_init (b!"*2" ++ line_end ++ b!"_" ++ line_end)) = Some (r, Ok v) ->
     exists s, reply_scan reset (b!"*2" ++ line_end ++ b!"_" ++ line_end) = Some (s, Ok Complete) /\ scan_pos s = pos r) /\
  forall s, reply_scan reset (b!"*2" ++ line_end ++ b!"_" ++ line_end) = Some (s, Ok Complete) ->
    exists r, (exists v, read_value (reader_init (b!"*2" ++ line_end ++ b!"_" ++ line_end)) = Some (r, Ok v) /\ pos r = scan_pos s) \/
      exists e, read_value (reader_init (b!"*2" ++ line_end ++ b!"_" ++ line_end)) = Some (r, Err e) /\ e <> InvalidResponse.
Proof. apply scanner_agrees_with_reader. Defined.

(** * Commands *)

Lemma text_of_bulk {T : Target} d s : Z.of_nat (length s) <= MAX_BULK_LEN -> resp d (BulkString (Some s)) (write_bulk s).
Proof.
  intros Hs. unfold MAX_BULK_LEN in Hs. assert (Hb := resp_bulk d (decimal (Z.of_nat (length s))) s). unfold blob, crlf in Hb. unfold write_bulk.
  rewrite <- app_assoc in Hb. apply Hb. split; [apply int_text_decimal; unfold I64_MAX; lia | done].
Qed.

Lemma text_of_bulks {T : Target} d l : Forall (fun s => Z.of_nat (length s) <= MAX_BULK_LEN) l ->
  resp_list d (map (fun s => BulkString (Some s)) l) (concat (map write_bulk l)).
Proof. induction 1; cbn [map concat]; constructor; [by apply text_of_bulk | done]. Qed.

(** C26: a command is sent as the array of its strings: the reader reads back
    from its bytes, whatever follows, the command and its arguments. *)
Theorem command_round_trip {T : Target} (c : Command) (rest : bytes) :
  Forall (fun s => Z.of_nat (length s) <= MAX_BULK_LEN) (command c :: args_list (args c)) ->
  1 + Z.of_nat (length (args_list (args c))) <= I64_MAX ->
  exists r, read_value (reader_init (serialize c ++ rest)) =
      Some (r, Ok (Array (map (fun s => BulkString (Some s)) (command c :: args_list (args c))))) /\
    pos r = length (serialize c).
Proof.
  intros Hl Hn. set (v := Array _). assert (Ht : resp MAX_NESTING_DEPTH v (serialize c)).
  { apply (resp_array 127 (decimal (1 + Z.of_nat (length (args_list (args c))))) _ (concat (map write_bulk (command c :: args_list (args c))))).
    - rewrite length_map. cbn [length]. replace (Z.of_nat (S _)) with (1 + Z.of_nat (length (args_list (args c)))) by lia. by apply int_text_decimal; lia.
    - by apply text_of_bulks. }
  assert (Hh : has (serialize c ++ rest) 0 (serialize c)) by by exists rest.
  destruct (read_value_complete _ 0%nat v _ ltac:(lia) Hh Ht (length (serialize c ++ rest))) as [k E]. by eexists.
Qed.

Lemma command_round_trip_witness :
  exists r, read_value (reader_init (serialize sample_get ++ b!"+OK")) =
      Some (r, Ok (Array [BulkString (Some b!"GET"); BulkString (Some b!"key")])) /\ pos r = length (serialize sample_get).
Proof.
  apply (command_round_trip sample_get b!"+OK").
  - repeat constructor; by vm_compute.
  - by vm_compute.
Defined.

Section Machine.
Context {T : Target} {H : Host}.

(** * The stream of replies *)

(** On_data is chunk-invariant: the replies of a stream, none of them with a
    blob error or a verbatim string in it (a cut may fail those, see
    [cut_verbatim_string_fails]), reach the client once each, in order,
    however the stream is cut, as long as none of them stops the client. *)
Theorem replies_handled_in_order (v : ValkeyClient) (q : bytes) (l : list (RESPValue * bytes)) (chunks : list bytes) (c' : Client) :
  waits v q -> Forall sendable l -> q ++ concat chunks = bytes_of l ->
  Z.of_nat (held v + length (concat chunks)) < 2 ^ 32 -> handle_all l.*1 (client v) = Some (c', true) ->
  exists v', on_data_all v chunks = Some v' /\ client v' = c' /\ waits v' [].
Proof. apply on_data_all_ok. Qed.

(** * Commands and replies in order *)

Definition no_subscriptions : Prop := forall l, Forall (fun c => subscribes (meta c) = false) (microtasks l).

(** C8: on an established connection without subscriptions, as long as it does
    not fail, whatever is sent, written, flushed and received: each command sent,
    by the caller or by a script, takes the next promise and one place of the
    queue, with its bytes, arguments included, its right to share a write and what
    to make of its reply; the commands leave the queue in the order they were
    sent, the bytes that reach the socket are theirs in that order, and the
    replies settle the promises in that order, the k-th reply that of the k-th
    command. *)
Theorem commands_and_replies_in_order (ops : list Op) (c c' : Client) (rem : bytes) :
  no_subscriptions -> regular c -> Forall ordinary ops -> buffers (write_buffer c) rem -> run ops c = Some c' -> failed (flags c') = false ->
  exists (sent : list Command) (ds new : list Entry) (vs : list RESPValue) (ps : list (PromisePair * Settled)),
    woven (sends ops) sent /\ next_promise c' = (next_promise c + length sent)%nat /\
    map request_held new = requests (next_promise c) sent /\ queue c ++ new = ds ++ queue c' /\
    (Z.of_nat (length (byte_list (write_buffer c)) + length (data_of ds)) < 2 ^ 32 ->
       exists rem', buffers (write_buffer c') rem' /\ wire (log c') ++ rem' = wire (log c) ++ rem ++ data_of ds) /\
    in_flight c ++ map entry_pair ds = ps.*1 ++ in_flight c' /\
    replied (log c') = replied (log c) ++ map settlement ps /\
    vs `sublist_of` replies ops /\ Forall2 answered vs ps /\
    ((length (replies ops) <= length (in_flight c))%nat -> vs = replies ops).
Proof.
  intros Hm Hr Ho Hb E Hf. destruct (run_moved Hm ops c c' Hr Ho E Hf) as (sent & ds & new & vs & ps & _ & W & [O P F Q N L] & Hvs & Ha & Hl).
  exists sent, ds, new, vs, ps. do 4 (split; [done|]). split; [|done]. intros Hsize.
  destruct (O (wire (log c) ++ rem) (length (byte_list (write_buffer c)))) as (rem' & Hb' & Hw & _); [by exists rem | done|].
  exists rem'. by rewrite app_assoc.
Qed.

Definition each_reply (l : list RESPValue) : list Op := l ≫= fun v => [Reply v; Writable].

Lemma handle_all_run l c c' : handle_all l c = Some (c', true) -> run (each_reply l) c = Some c'.
Proof.
  revert c. induction l as [|v l IH]; intros c; cbn [handle_all]; [by intros [= <-]|].
  unfold handle_reply, run_handler. change (run (each_reply (v :: l)) c) with (r ← handle_response v c; r2 ← on_writable r.1; run (each_reply l) r2.1).
  destruct (handle_response v c) as [[c1 [u|e]]|]; [| done | done]. cbn [mbind option_bind negb orb fst].
  destruct (stopped c1); [done|]. unfold on_writable. destruct (send_next_command c1) as [[c2 [u2|e]]|]; [| done | done].
  cbn [mbind option_bind fst snd]. apply IH.
Qed.

Lemma replies_each l : replies (each_reply l) = l.
Proof. induction l as [|v l IH]; [done|]. change (v :: replies (each_reply l) = v :: l). by rewrite IH. Qed.

(** C4: from the socket to the promises: when the bytes of replies, none of them
    with a blob error or a verbatim string in it (a cut may fail those, see
    [cut_verbatim_string_fails]), arrive in any chunks on an established
    connection without subscriptions where at least as many commands wait for one,
    and the connection stands, the waiting promises are settled from the oldest
    on, each with its reply, and nothing else is. *)
Theorem stream_settles_promises (v : ValkeyClient) (q : bytes) (l : list (RESPValue * bytes)) (chunks : list bytes) (c' : Client) :
  no_subscriptions -> regular (client v) -> waits v q -> Forall sendable l -> q ++ concat chunks = bytes_of l ->
  Z.of_nat (held v + length (concat chunks)) < 2 ^ 32 ->
  handle_all l.*1 (client v) = Some (c', true) -> failed (flags c') = false ->
  (length l <= length (in_flight (client v)))%nat ->
  exists v' ps, on_data_all v chunks = Some v' /\
    replied (log (client v')) = replied (log (client v)) ++ map settlement ps /\
    ps.*1 = take (length l) (in_flight (client v)) /\ Forall2 answered l.*1 ps.
Proof.
  intros Hm Hr Hw Hl Hq Hsize Hh Hf Hlen. destruct (on_data_all_ok v q l chunks c' Hw Hl Hq Hsize Hh) as (v' & E & Hc & _).
  destruct (run_moved Hm (each_reply l.*1) (client v) c') as (sent & ds & new & vs & ps & _ & _ & [_ P F _ _ _] & _ & Ha & Hvs).
  - done.
  - apply Forall_forall. intros o Ho. unfold each_reply in Ho. apply list_elem_of_bind in Ho as (w & Ho & _).
    by apply elem_of_cons in Ho as [->|[->|[]%elem_of_nil]%elem_of_cons].
  - by apply handle_all_run.
  - done.
  - rewrite replies_each in Hvs. rewrite (Hvs ltac:(rewrite length_fmap; lia)) in Ha. exists v', ps.
    rewrite Hc. split; [done|]. split; [done|]. split; [|done]. assert (Hp := Forall2_length _ _ _ Ha). rewrite length_fmap in Hp.
    apply (f_equal (take (length l))) in F. rewrite take_app_le in F by lia. rewrite F, take_app_le by (rewrite length_fmap; lia).
    rewrite take_ge; [done|]. rewrite length_fmap. lia.
Qed.

(** * Promises *)

(** C9: no promise is settled twice, whatever the order of sends, replies,
    writes, failures, closes and reconnections; and the promises of the commands
    that wait are not settled. *)
Theorem promises_settle_once (c c' : Client) :
  log c = [] -> in_flight c = [] -> queue c = [] -> rtc happens c c' ->
  NoDup (settled (log c')) /\ NoDup (map pair_id (in_flight c') ++ map entry_id (queue c')) /\
  forall p, p ∈ map pair_id (in_flight c') ++ map entry_id (queue c') -> p ∉ settled (log c').
Proof.
  intros El Ef Eq Hr. destruct (once_reachable c c' Hr) as [Hn _].
  { split; unfold owed; rewrite El, Ef, Eq; constructor. }
  apply NoDup_app in Hn as (_ & _ & Hn). apply NoDup_app in Hn as (H1 & H2 & H3). split; [done|]. split; [done|]. intros p Hp Hs. by apply (H2 p).
Qed.

(** C39: a verbatim string whose first bytes end inside of its payload.  The
    scanner waits for the rest; on an idle connection the client does not ask the
    scanner, and fails. *)
Theorem cut_verbatim_string_fails (v : ValkeyClient) (t w : bytes) (n : Z) :
  int_text n t -> Z.of_nat (length w) < n -> n <= MAX_BULK_LEN -> remaining (read_buffer v) = Some [] ->
  (exists s, reply_scan reset (header #"=" t ++ w) = Some (s, Ok NeedMoreData)) /\
  on_data v (header #"=" t ++ w) = fail_data v b!"Failed to read data (stack path)" InvalidVerbatimString.
Proof.
  intros Ht Hw Hn Hv. set (b := header #"=" t ++ w).
  assert (Hb : has b 0 [ #"="] /\ has b 1 (t ++ crlf) /\ has b (1 + length t + 2) w) by (apply has_header_app_inv; by exists []; rewrite app_nil_r).
  destruct Hb as (Hb0 & Hb1 & _). assert (Hl : (length b = 1 + length t + 2 + length w)%nat) by (exact (header_app_end 0 #"=" t w)). clearbody b.
  assert (Hi : reads read_integer b 1 n (1 + length t + 2)) by (apply reads_integer; [done | done | lia]). split.
  - assert (Hf : fails (scan_one 0) b 0 InvalidResponse).
    { eapply fails_bind_after; [by apply reads_byte|]. change (from_byte #"=") with (Some TVerbatimString). cbn [scan_arm].
      eapply fails_bind_after; [exact Hi|]. destruct (Z.ltb_spec n 0); [lia|]. destruct (Z.ltb_spec MAX_BULK_LEN n); [lia|].
      eapply fails_get; [intros k; cbn; reflexivity|]. rewrite decide_True by lia. apply fails_throw. }
    destruct (Hf 0%nat) as [r E]. unfold reply_scan. cbn [scan]. unfold reset at 1 2 3. cbn [scan_pos stack scan_skip length]. rewrite rd_0, E.
    by eexists.
  - assert (Hf : fails read_value b 0 InvalidVerbatimString).
    { apply read_value_fails. cbn [MAX_NESTING_DEPTH Nat.add]. apply (fails_arm _ _ _ _ TVerbatimString); [done|]. cbn [read_arm].
      apply fails_bind. eapply fails_bind_after; [exact Hi|].
      destruct (Z.leb_spec 0 n); [|lia]. destruct (Z.leb_spec n MAX_BULK_LEN); [|lia]. cbn [negb andb].
      apply fails_bind. eapply fails_get; [intros k; cbn; reflexivity|]. rewrite decide_True by lia. apply fails_throw. }
    unfold on_data. rewrite Hv. cbn [mbind option_bind]. rewrite decide_True by done. cbn [stack_path].
    rewrite decide_False by (intros H0; rewrite H0 in Hl; cbn in Hl; lia).
    destruct (Hf (length b)) as [r E]. unfold reader_init. unfold rd in E. rewrite E. cbn [mbind option_bind]. by rewrite decide_False.
Qed.

(** * Failure *)

Definition rejected (x : JsErr) (l : list nat) : list Event := rev (map (fun p => Settle p (Rejected x)) l).

Lemma call_js_lives e c : (forall l, js_terminated l = false) -> call_js e c = Some (with_log (e :: log c) c, Ok tt).
Proof. intros Hj. unfold call_js, emit, modify, mbind, J_bind, gets. cbn. by rewrite Hj. Qed.

Lemma reject_pairs_ok x l c :
  (forall l, js_terminated l = false) -> reject_pairs l x c = Some (with_log (rejected x (map pair_id l) ++ log c) c, Ok tt).
Proof.
  intros Hj. revert c. induction l as [|p l IH]; intros c; [by destruct c|]. cbn [reject_pairs map]. unfold promise_reject.
  unfold mbind, J_bind. rewrite call_js_lives by done. rewrite IH. unfold rejected. cbn [map rev]. by rewrite <- app_assoc.
Qed.

Lemma reject_entries_ok x l c :
  (forall l, js_terminated l = false) -> reject_entries l x c = Some (with_log (rejected x (map entry_id l) ++ log c) c, Ok tt).
Proof.
  intros Hj. revert c. induction l as [|p l IH]; intros c; [by destruct c|]. cbn [reject_entries map]. unfold promise_reject.
  unfold mbind, J_bind. rewrite call_js_lives by done. rewrite IH. unfold rejected. cbn [map rev]. by rewrite <- app_assoc.
Qed.

Definition connection_has_failed : JsErr := ValkeyError b!"Connection has failed" ConnectionClosed.

Lemma send_failed cmd c :
  (forall l, js_terminated l = false) -> failed (flags c) = true ->
  send cmd c = Some (with_log (Settle (next_promise c) (Rejected connection_has_failed) :: log c) (with_next_promise (S (next_promise c)) c), Ok (next_promise c)).
Proof.
  intros Hj Hf. unfold send, mbind, J_bind, promise_create, mbind, J_bind, gets, modify, flag, gets. cbn [mret J_ret flags failed with_next_promise].
  unfold mret, J_ret, ignore, promise_reject. rewrite Hf. by rewrite call_js_lives.
Qed.

Lemma send_all_failed l c :
  (forall l, js_terminated l = false) -> failed (flags c) = true ->
  send_all l c = Some (with_log (rejected connection_has_failed (seq (next_promise c) (length l)) ++ log c)
                         (with_next_promise (next_promise c + length l) c), Ok tt).
Proof.
  intros Hj. revert c. induction l as [|cmd l IH]; intros c Hf; cbn [send_all length seq].
  - rewrite Nat.add_0_r. by destruct c.
  - unfold mbind, J_bind. rewrite send_failed by done. rewrite IH by done. unfold rejected. cbn [map rev next_promise with_log with_next_promise log].
    rewrite <- app_assoc. replace (S (next_promise c) + length l)%nat with (next_promise c + S (length l))%nat by lia. done.
Qed.

(** C29: a failure of an authenticated connection, as long as JavaScript is not
    told to terminate and the client not finalized, rejects the promise of every
    command in flight or queued, in order, with the error, and leaves none; from
    then on each command that is sent, however many were before it, is rejected at
    once and not queued. *)
Theorem failure_rejects_all (c : Client) (message : bytes) (err : RedisError) :
  (forall l, js_terminated l = false) -> failed (flags c) = false -> finalized (flags c) = false -> connection_ready c = true ->
  exists c', fail message err c = Some (c', Ok tt) /\ failed (flags c') = true /\ in_flight c' = [] /\ queue c' = [] /\
    log c' = rejected (ValkeyError message err) (map pair_id (in_flight c) ++ map entry_id (queue c)) ++ log c /\
    forall cmds, exists c2, send_all cmds c' = Some (c2, Ok tt) /\ in_flight c2 = [] /\ queue c2 = [] /\
      log c2 = rejected connection_has_failed (seq (next_promise c') (length cmds)) ++ log c' /\
      forall cmd, exists c3, send cmd c2 = Some (c3, Ok (next_promise c' + length cmds)%nat) /\ in_flight c3 = [] /\ queue c3 = [] /\
        log c3 = Settle (next_promise c' + length cmds)%nat (Rejected connection_has_failed) :: log c2.
Proof.
  intros Hj Hf Hfin Hr. unfold fail, fail_, fail_with_js_value_, finally, reject_all_pending_commands, mbind, J_bind, flag, gets, set_flags, modify.
  rewrite Hf, Hfin, Hf. unfold mbind, J_bind. rewrite reject_pairs_ok, reject_entries_ok by done.
  replace (connection_ready _) with true by (symmetry; exact Hr). eexists. split; [reflexivity|].
  split; [done|]. split; [done|]. split; [done|]. split.
  { cbn. unfold rejected. by rewrite map_app, rev_app_distr, <- app_assoc. }
  intros cmds. rewrite send_all_failed by done. eexists. split; [reflexivity|]. do 3 (split; [done|]).
  intros cmd. rewrite send_failed by done. by eexists.
Qed.

End Machine.

(** * The properties on the client above *)

Lemma replies_handled_in_order_witness :
  exists v', on_data_all sample_valkey sample_chunks = Some v' /\
    client v' = ran (handle_all [SimpleString b!"OK"; Integer 5] (client sample_valkey)) /\ waits v' [].
Proof.
  apply (replies_handled_in_order sample_valkey [] sample_stream sample_chunks); [apply sample_waits | apply sample_sendable | done | done | done].
Defined.

Definition sample_ops : list Op := [Send sample_get; Send sample_incr; AutoFlush; Reply (SimpleString b!"OK"); Writable; Writable; Reply (Integer 5)].
Definition sample_after : Client := match run sample_ops (sample_client [sample_pair 0]) with Some c => c | None => sample_client [] end.

Lemma commands_and_replies_in_order_witness :
  exists (sent : list Command) (ds new : list Entry) (vs : list RESPValue) (ps : list (PromisePair * Settled)),
    woven [sample_get; sample_incr] sent /\ next_promise sample_after = (1 + length sent)%nat /\
    map request_held new = requests 1 sent /\ [] ++ new = ds ++ queue sample_after /\
    (Z.of_nat (length (data_of ds)) < 2 ^ 32 ->
       exists rem', buffers (write_buffer sample_after) rem' /\ wire (log sample_after) ++ rem' = data_of ds) /\
    [sample_pair 0] ++ map entry_pair ds = ps.*1 ++ in_flight sample_after /\
    replied (log sample_after) = map settlement ps /\
    vs `sublist_of` [SimpleString b!"OK"; Integer 5] /\ Forall2 answered vs ps /\
    ((2 <= 1)%nat -> vs = [SimpleString b!"OK"; Integer 5]).
Proof.
  apply (commands_and_replies_in_order sample_ops (sample_client [sample_pair 0]) sample_after []).
  - intros l. constructor.
  - apply sample_regular. by repeat constructor.
  - by repeat constructor.
  - apply buffers_default.
  - by vm_compute.
  - by vm_compute.
Defined.

Lemma stream_settles_promises_witness :
  exists v' ps, on_data_all sample_valkey sample_chunks = Some v' /\ replied (log (client v')) = map settlement ps /\
    ps.*1 = [sample_pair 0; sample_pair 1] /\ Forall2 answered [SimpleString b!"OK"; Integer 5] ps.
Proof.
  apply (stream_settles_promises sample_valkey [] sample_stream sample_chunks (ran (handle_all [SimpleString b!"OK"; Integer 5] (client sample_valkey)))).
  - intros l. constructor.
  - apply sample_regular. by repeat constructor.
  - apply sample_waits.
  - apply sample_sendable.
  - done.
  - by vm_compute.
  - done.
  - by vm_compute.
  - cbn. lia.
Defined.

Lemma promises_settle_once_witness :
  let c := ran (send sample_get (sample_client [])) in
  let c' := ran (fail b!"Connection closed" ConnectionClosed c) in
  NoDup (settled (log c')) /\ NoDup (map pair_id (in_flight c') ++ map entry_id (queue c')) /\
  forall p, p ∈ map pair_id (in_flight c') ++ map entry_id (queue c') -> p ∉ settled (log c').
Proof.
  intros c c'. apply (promises_settle_once (sample_client []) c'); [done | done | done|].
  apply rtc_l with c; [|apply rtc_once].
  - apply (happened _ _ (send sample_get;; skip) (Ok tt)); [constructor | done].
  - apply (happened _ _ (fail b!"Connection closed" ConnectionClosed) (Ok tt)); [constructor | done].
Defined.

Lemma cut_verbatim_string_fails_witness :
  (exists s, reply_scan reset (header #"=" b!"15" ++ b!"txt:Some") = Some (s, Ok NeedMoreData)) /\
  on_data sample_valkey (header #"=" b!"15" ++ b!"txt:Some") =
    fail_data sample_valkey b!"Failed to read data (stack path)" InvalidVerbatimString.
Proof.
  apply (cut_verbatim_string_fails sample_valkey b!"15" b!"txt:Some" 15); [|done | done | done].
  split; [by apply (bool_decide_unpack _) | done].
Defined.

Lemma failure_rejects_all_witness :
  let c := sample_client [sample_pair 0; sample_pair 1] in
  exists c', fail b!"Connection timeout" ConnectionClosed c = Some (c', Ok tt) /\ failed (flags c') = true /\ in_flight c' = [] /\ queue c' = [] /\
    log c' = rejected (ValkeyError b!"Connection timeout" ConnectionClosed) [0; 1]%nat ++ [] /\
    forall cmds, exists c2, send_all cmds c' = Some (c2, Ok tt) /\ in_flight c2 = [] /\ queue c2 = [] /\
      log c2 = rejected connection_has_failed (seq (next_promise c') (length cmds)) ++ log c' /\
      forall cmd, exists c3, send cmd c2 = Some (c3, Ok (next_promise c' + length cmds)%nat) /\ in_flight c3 = [] /\ queue c3 = [] /\
        log c3 = Settle (next_promise c' + length cmds)%nat (Rejected connection_has_failed) :: log c2.
Proof.
  apply (failure_rejects_all (sample_client [sample_pair 0; sample_pair 1]) b!"Connection timeout" ConnectionClosed); done.
Defined.

(** * Cases where the code does not do what it means to *)

(** PUNSUBSCRIBE is pipelined: the list has UNPSUBSCRIBE. *)
Example punsubscribe_is_pipelined :
  contains (meta_check meta_default (raw b!"PUNSUBSCRIBE" [])) SUPPORTS_AUTO_PIPELINING = true /\
  contains (meta_check meta_default (raw b!"UNSUBSCRIBE" [])) SUPPORTS_AUTO_PIPELINING = false.
Proof. by vm_compute. Qed.

(** An error reply to SUBSCRIBE: the client fails, its command does not wait any more and its promise is not settled. *)
Definition subscribe_pair : PromisePair :=
  {| pair_meta := SUBSCRIPTION_REQUEST; pair_promise := {| promise_meta := SUBSCRIPTION_REQUEST; promise := 0 |} |}.

Example subscribe_error_loses_promise :
  let c := ran (handle_response (Error b!"NOPERM") (sample_client [subscribe_pair; sample_pair 1])) in
  in_flight c = [] /\ queue c = [] /\ settled (log c) = [1%nat].
Proof. by vm_compute. Qed.

(** The commands in flight when the connection is lost are still so on the next one: the reply to
    a later command settles the promise of a lost one. *)
Definition hello_text : bytes := b!"%1" ++ line_end ++ b!"+proto" ++ line_end ++ b!":3" ++ line_end.

Example reconnect_keeps_in_flight :
  let lost := ran (socket_on_close (sample_client [sample_pair 0])) in
  let back := v ← on_open {| client := ran (reconnect lost); read_buffer := obl_default; reply_scanner := reset |} SocketTcp; on_data v hello_text in
  let sent := ran (send_next_command (ran (on_auto_flush (ran (send sample_incr (default lost (client <$> back))))))) in
  let got := ran (handle_response (Integer 5) sent) in
  map pair_id (in_flight sent) = [0; 1]%nat /\ map pair_id (in_flight got) = [1]%nat /\
  replied (log got) = [(0%nat, Value (Integer 5) false)].
Proof. by vm_compute. Qed.

(** After a connection that was closed on purpose, is_authenticated is still set while the next one
    is opened: a command that is not pipelined is counted as in flight and its bytes are dropped. *)
Example stale_authentication :
  let closed := ran (socket_on_close (ran (disconnect (sample_client [])))) in
  let connecting := ran (do_connect closed) in
  let sent := ran (send (raw b!"INFO" []) connecting) in
  let opened := v ← on_open {| client := sent; read_buffer := obl_default; reply_scanner := reset |} SocketTcp; Some (client v) in
  (status connecting, connection_ready connecting) = (Connecting, true) /\
  map pair_id (in_flight (default closed opened)) = [0%nat].
Proof. by vm_compute. Qed.

End ValkeyProps.
