(* ===== verification/HashMap.v ===== *)
(** src/src/collections/zig_hash_map.rs: the hash map of the program, open
    addressing with a byte of metadata for each slot, linear probing and
    tombstones.

    A [u32] and a byte are Z, an index is nat.  [None] of an option is a panic:
    an index out of bounds, [unwrap] of an empty slot, a probe without end. *)
From S2P Require Import Prelude.

(** * The metadata byte *)

Definition SLOT_FREE : Z := 0.
Definition SLOT_TOMBSTONE : Z := 1.

Definition meta_is_used (m : Z) : bool := negb (Z.land m 0x80 =? 0).
Definition meta_is_free (m : Z) : bool := m =? SLOT_FREE.
Definition meta_is_tombstone (m : Z) : bool := m =? SLOT_TOMBSTONE.
Definition meta_fingerprint (m : Z) : Z := Z.land m 0x7F.
Definition take_fingerprint (hash : Z) : Z := Z.land (Z.shiftr hash (64 - 7)) 255.
Definition meta_fill (fp : Z) : Z := Z.lor 0x80 (Z.land fp 0x7F).

Definition MINIMAL_CAPACITY : Z := 8.
Definition MAX_LOAD_PERCENTAGE : Z := 80.

(** [u32::next_power_of_two] of a release build. *)
Definition next_power_of_two (n : Z) : Z :=
  let p := if n <=? 1 then 1 else 2 ^ (Z.log2 (n - 1) + 1) in
  if p <? 2 ^ 32 then p else 0.

Definition capacity_for_size (size : Z) : Z := next_power_of_two (trunc32 (trunc64 (size * 100) / MAX_LOAD_PERCENTAGE + 1)).

Definition max_load (capacity : nat) : Z := trunc32 (trunc64 (Z.of_nat capacity * MAX_LOAD_PERCENTAGE) / 100).

Class HashContext (K : Type) := { ctx_hash : K -> Z; ctx_eql : K -> K -> bool }.

Module HashMap.
Section HashMap.
Context {K V : Type} {C : HashContext K}.

Record HashMap := { metadata : list Z; slots : list (option (K * V)); size : Z; available : Z }.

Definition new : HashMap := {| metadata := []; slots := []; size := 0; available := 0 |}.

Definition len (m : HashMap) : Z := size m.
Definition is_empty (m : HashMap) : bool := size m =? 0.
Definition capacity (m : HashMap) : nat := length (metadata m).

Definition clear (m : HashMap) : HashMap :=
  if bool_decide (metadata m = []) then m
  else
    {| metadata := map (fun _ => SLOT_FREE) (metadata m); slots := map (fun _ => None) (slots m); size := 0;
       available := max_load (capacity m) |}.

Definition load (m : HashMap) : Z := trunc32 (max_load (capacity m) - available m).

(** [i & mask], [mask] being the capacity less one. *)
Definition masked (capacity : nat) (i : Z) : nat := Z.to_nat (Z.land i (trunc64 (Z.of_nat capacity - 1))).

(** [metadata[i] = b] and [slots[i] = s]. *)
Definition set_metadata (l : list Z) (i : nat) (b : Z) : option (list Z) :=
  if decide (i < length l)%nat then Some (<[i := b]> l) else None.
Definition set_slot (l : list (option (K * V))) (i : nat) (s : option (K * V)) : option (list (option (K * V))) :=
  if decide (i < length l)%nat then Some (<[i := s]> l) else None.

(** * Growing *)

(** The first slot from [idx] on that is not used. *)
Fixpoint unused_loop (fuel : nat) (m : HashMap) (idx : nat) : option nat :=
  match fuel with
  | O => None
  | S fuel =>
    b ← metadata m !! idx;
    if meta_is_used b then unused_loop fuel m (masked (capacity m) (Z.of_nat idx + 1)) else Some idx
  end.

Definition put_assume_capacity_no_clobber (m : HashMap) (key : K) (value : V) : option HashMap :=
  idx ← unused_loop (capacity m) m (masked (capacity m) (ctx_hash key));
  md ← set_metadata (metadata m) idx (meta_fill (take_fingerprint (ctx_hash key)));
  sl ← set_slot (slots m) idx (Some (key, value));
  Some {| metadata := md; slots := sl; size := trunc32 (size m + 1); available := trunc32 (available m - 1) |}.

(** The entries of the old slots, [todo] of them being left, into [m]. *)
Fixpoint rehash (old : list (Z * option (K * V))) (total : Z) (m : HashMap) : option HashMap :=
  match old with
  | [] => Some m
  | (b, s) :: old =>
    if negb (meta_is_used b) then rehash old total m
    else
      m ← (match s with Some (k, v) => put_assume_capacity_no_clobber m k v | None => Some m end);
      if size m =? total then Some m else rehash old total m
  end.

Definition grow (m : HashMap) (new_capacity : Z) : option HashMap :=
  let new_cap := Z.to_nat (Z.max new_capacity MINIMAL_CAPACITY) in
  let map :=
    {| metadata := replicate new_cap SLOT_FREE; slots := replicate new_cap None; size := 0; available := max_load new_cap |} in
  if size m =? 0 then Some map else rehash (zip (metadata m) (slots m)) (size m) map.

Definition grow_if_needed (m : HashMap) (new_count : Z) : option HashMap :=
  if available m <? new_count then grow m (capacity_for_size (trunc32 (load m + new_count))) else Some m.

Definition ensure_total_capacity (m : HashMap) (new_size : Z) : option HashMap :=
  let new_size := trunc32 new_size in
  if size m <? new_size then grow_if_needed m (new_size - size m) else Some m.

Definition ensure_unused_capacity (m : HashMap) (additional : Z) : option HashMap := ensure_total_capacity m (size m + additional).

Definition with_capacity (capacity : Z) : option HashMap :=
  if 0 <? capacity then ensure_total_capacity new capacity else Some new.

(** * Looking up *)

(** Whether the slot holds [key]: [slots[idx]] is looked at when the fingerprints agree. *)
Definition slot_matches (m : HashMap) (idx : nat) (b fp : Z) (key : K) : option bool :=
  if meta_is_used b && (meta_fingerprint b =? fp) then
    s ← slots m !! idx;
    Some (match s with Some (k, _) => ctx_eql key k | None => false end)
  else Some false.

Fixpoint get_index_loop (limit : nat) (m : HashMap) (key : K) (fp : Z) (idx : nat) : option (option nat) :=
  b ← metadata m !! idx;
  if meta_is_free b then Some None
  else
    match limit with
    | O => Some None
    | S limit =>
      found ← slot_matches m idx b fp key;
      if (found : bool) then Some (Some idx) else get_index_loop limit m key fp (masked (capacity m) (Z.of_nat idx + 1))
    end.

Definition get_index (m : HashMap) (key : K) : option (option nat) :=
  if size m =? 0 then Some None
  else
    let hash := ctx_hash key in
    get_index_loop (capacity m) m key (take_fingerprint hash) (masked (capacity m) hash).

Definition get_key_value (m : HashMap) (key : K) : option (option (K * V)) :=
  i ← get_index m key;
  match i with None => Some None | Some i => slots m !! i end.

Definition get (m : HashMap) (key : K) : option (option V) := r ← get_key_value m key; Some (option_map snd r).

Definition contains_key (m : HashMap) (key : K) : option bool := i ← get_index m key; Some (bool_decide (is_Some i)).

(** * Inserting *)

Inductive Probe := Occupied (idx : nat) | Stopped (idx first_tombstone_idx : nat).

Fixpoint put_loop (limit : nat) (m : HashMap) (key : K) (fp : Z) (idx first_tombstone_idx : nat) : option Probe :=
  b ← metadata m !! idx;
  if meta_is_free b then Some (Stopped idx first_tombstone_idx)
  else
    match limit with
    | O => Some (Stopped idx first_tombstone_idx)
    | S limit =>
      found ← slot_matches m idx b fp key;
      if (found : bool) then Some (Occupied idx)
      else
        let candidate := negb (meta_is_used b && (meta_fingerprint b =? fp)) && bool_decide (first_tombstone_idx = capacity m) && meta_is_tombstone b in
        put_loop limit m key fp (masked (capacity m) (Z.of_nat idx + 1)) (if candidate then idx else first_tombstone_idx)
    end.

(** The map, the index of the slot and whether it was occupied. *)
Definition get_or_put_slot (m : HashMap) (key : K) : option (HashMap * nat * bool) :=
  m ← grow_if_needed m 1;
  let hash := ctx_hash key in
  let fp := take_fingerprint hash in
  p ← put_loop (capacity m) m key fp (masked (capacity m) hash) (capacity m);
  match p with
  | Occupied idx => Some (m, idx, true)
  | Stopped idx first_tombstone_idx =>
    let idx := if decide (first_tombstone_idx < capacity m)%nat then first_tombstone_idx else idx in
    md ← set_metadata (metadata m) idx (meta_fill fp);
    Some ({| metadata := md; slots := slots m; size := trunc32 (size m + 1); available := trunc32 (available m - 1) |}, idx, false)
  end.

Definition with_slot (m : HashMap) (idx : nat) (s : option (K * V)) : option HashMap :=
  sl ← set_slot (slots m) idx s;
  Some {| metadata := metadata m; slots := sl; size := size m; available := available m |}.

(** [get_or_put] with the value the caller writes through [value_ptr] when the
    key was not found, and the value that was found. *)
Definition get_or_put (m : HashMap) (key : K) (value : V) : option (HashMap * option V) :=
  r ← get_or_put_slot m key;
  let '(m, idx, found_existing) := r in
  if (found_existing : bool) then
    kv ← slots m !! idx;
    kv ← kv;
    Some (m, Some kv.2)
  else m ← with_slot m idx (Some (key, value)); Some (m, None).

Definition insert (m : HashMap) (key : K) (value : V) : option (HashMap * option V) :=
  r ← get_or_put_slot m key;
  let '(m, idx, found_existing) := r in
  if (found_existing : bool) then
    kv ← slots m !! idx;
    kv ← kv;
    m ← with_slot m idx (Some (kv.1, value));
    Some (m, Some kv.2)
  else m ← with_slot m idx (Some (key, value)); Some (m, None).

Definition put (m : HashMap) (key : K) (value : V) : option HashMap := r ← insert m key value; Some r.1.

(** * Removing *)

Definition remove_by_index (m : HashMap) (idx : nat) : option (HashMap * option (K * V)) :=
  md ← set_metadata (metadata m) idx SLOT_TOMBSTONE;
  kv ← slots m !! idx;
  sl ← set_slot (slots m) idx None;
  Some ({| metadata := md; slots := sl; size := trunc32 (size m - 1); available := trunc32 (available m + 1) |}, kv).

Definition remove_entry (m : HashMap) (key : K) : option (HashMap * option (K * V)) :=
  i ← get_index m key;
  match i with None => Some (m, None) | Some i => remove_by_index m i end.

Definition remove (m : HashMap) (key : K) : option (HashMap * option V) :=
  r ← remove_entry m key;
  Some (r.1, option_map snd r.2).

(** * The entry API *)

Inductive MapEntry := OccupiedEntry (idx : nat) | VacantEntry (key : K).

Definition entry (m : HashMap) (key : K) : option MapEntry :=
  i ← get_index m key;
  Some (match i with Some idx => OccupiedEntry idx | None => VacantEntry key end).

Definition vacant_insert (m : HashMap) (key : K) (value : V) : option HashMap :=
  r ← get_or_put_slot m key;
  let '(m, idx, _) := r in
  with_slot m idx (Some (key, value)).

(** The map and the value that [or_insert_with] gives a reference to. *)
Definition or_insert_with (m : HashMap) (e : MapEntry) (f : V) : option (HashMap * V) :=
  match e with
  | OccupiedEntry idx => kv ← slots m !! idx; kv ← kv; Some (m, kv.2)
  | VacantEntry key => m ← vacant_insert m key f; Some (m, f)
  end.

(** * Iterating *)

Record Iter := { iter_metadata : list Z; iter_slots : list (option (K * V)); idx : nat; remaining : Z }.

Definition iter (m : HashMap) : Iter := {| iter_metadata := metadata m; iter_slots := slots m; idx := 0; remaining := size m |}.

(** The scan of [next], over the metadata left. *)
Fixpoint next_used (md : list Z) (i : nat) : option nat :=
  match md with
  | [] => None
  | b :: md => if meta_is_used b then Some i else next_used md (S i)
  end.

Definition next (it : Iter) : option (Iter * option (K * V)) :=
  if remaining it =? 0 then Some (it, None)
  else
    match next_used (drop (idx it) (iter_metadata it)) (idx it) with
    | None => Some ({| iter_metadata := iter_metadata it; iter_slots := iter_slots it; idx := length (iter_metadata it); remaining := remaining it |}, None)
    | Some i =>
      kv ← iter_slots it !! i;
      kv ← kv;
      Some ({| iter_metadata := iter_metadata it; iter_slots := iter_slots it; idx := S i; remaining := trunc32 (remaining it - 1) |}, Some kv)
    end.

(** A [for] loop over the iterator. *)
Fixpoint collect (fuel : nat) (it : Iter) : option (list (K * V)) :=
  match fuel with
  | O => None
  | S fuel =>
    r ← next it;
    match r.2 with None => Some [] | Some kv => l ← collect fuel r.1; Some (kv :: l) end
  end.

Definition keys (m : HashMap) : option (list K) := l ← collect (S (capacity m)) (iter m); Some l.*1.
Definition values (m : HashMap) : option (list V) := l ← collect (S (capacity m)) (iter m); Some l.*2.

End HashMap.
Arguments HashMap : clear implicits.
End HashMap.
