(* ===== verification/HashMapSpec.v ===== *)
(** The hash map as a finite map: the invariant of its slots, what a probe
    finds, and each operation on the finite map the slots hold. *)
From S2P Require Import Prelude HashMap.
Import HashMap.

(** Equality of keys is decided, a hash is a [u64]. *)
Class HashContextOk (K : Type) `{EqDecision K} {C : HashContext K} : Prop := {
  ctx_eql_spec : forall a b, ctx_eql a b = bool_decide (a = b);
  ctx_hash_range : forall k, 0 <= ctx_hash k < 2 ^ 64 }.

(** * Metadata bytes and capacities *)

Lemma used_fill fp : meta_is_used (meta_fill fp) = true.
Proof. unfold meta_is_used, meta_fill. by rewrite Z.land_lor_distr_l, <- Z.land_assoc, Z.land_0_r. Qed.

Lemma free_fill fp : meta_is_free (meta_fill fp) = false.
Proof.
  unfold meta_is_free, SLOT_FREE. apply Z.eqb_neq. intros H. assert (Hu := used_fill fp). by rewrite H in Hu.
Qed.

Lemma fingerprint_fill h : 0 <= h < 2 ^ 64 -> meta_fingerprint (meta_fill (take_fingerprint h)) = take_fingerprint h.
Proof.
  intros Hh. assert (Hr : 0 <= take_fingerprint h < 2 ^ 7).
  { unfold take_fingerprint. rewrite Z.shiftr_div_pow2 by lia. change 255 with (Z.ones 8). rewrite Z.land_ones by lia.
    assert (0 <= h / 2 ^ (64 - 7) < 2 ^ 7) by (split; [apply Z.div_pos; lia | apply Z.div_lt_upper_bound; lia]).
    rewrite Z.mod_small by lia. lia. }
  unfold meta_fingerprint, meta_fill. rewrite Z.land_lor_distr_l. change (Z.land 128 127) with 0. rewrite Z.lor_0_l, <- Z.land_assoc.
  change (Z.land 127 127) with (Z.ones 7). rewrite Z.land_ones by lia. by apply Z.mod_small.
Qed.

Definition pow2 (cap : nat) : Prop := exists p, 3 <= p <= 31 /\ Z.of_nat cap = 2 ^ p.

Lemma pow2_range cap : pow2 cap -> 8 <= Z.of_nat cap <= 2 ^ 31.
Proof.
  intros (p & Hp & ->). split; [change 8 with (2 ^ 3); apply Z.pow_le_mono_r; lia | apply Z.pow_le_mono_r; lia].
Qed.

Lemma masked_mod cap i : pow2 cap -> masked cap i = Z.to_nat (i mod Z.of_nat cap).
Proof.
  intros Hc. assert (Hr := pow2_range cap Hc). destruct Hc as (p & Hp & Hc). unfold masked. rewrite trunc64_id by (split; lia).
  rewrite Hc, <- Z.land_ones by lia. by rewrite Z.ones_equiv.
Qed.

Lemma max_load_pow2 cap : pow2 cap -> max_load cap = Z.of_nat cap * 80 / 100 /\ 0 < max_load cap < Z.of_nat cap.
Proof.
  intros Hc. apply pow2_range in Hc. unfold max_load, MAX_LOAD_PERCENTAGE. rewrite trunc64_id by (split; lia).
  assert (0 < Z.of_nat cap * 80 / 100 < Z.of_nat cap).
  { split; [apply Z.div_str_pos; lia | apply Z.div_lt_upper_bound; lia]. }
  unfold trunc32. rewrite Z.mod_small by lia. lia.
Qed.

Lemma capacity_for_size_ok n :
  0 < n <= 2 ^ 30 -> exists p, 0 <= p <= 31 /\ capacity_for_size n = 2 ^ p /\ n * 100 < 2 ^ p * 80.
Proof.
  intros Hn. unfold capacity_for_size, MAX_LOAD_PERCENTAGE. rewrite trunc64_id by (split; lia).
  assert (Hd := Z.div_mod (n * 100) 80 ltac:(lia)). assert (Hm := Z.mod_pos_bound (n * 100) 80 ltac:(lia)).
  set (q := n * 100 / 80) in *. assert (Hq : 1 <= q < 2 ^ 31) by lia. unfold trunc32. rewrite Z.mod_small by lia.
  unfold next_power_of_two. rewrite (proj2 (Z.leb_gt (q + 1) 1)) by lia. replace (q + 1 - 1) with q by lia.
  assert (Hl := Z.log2_spec q ltac:(lia)). rewrite <- Z.add_1_r in Hl. assert (0 <= Z.log2 q) by apply Z.log2_nonneg.
  assert (Hlt : Z.log2 q < 31) by (apply Z.log2_lt_pow2; lia).
  assert (2 ^ (Z.log2 q + 1) <= 2 ^ 31) by (apply Z.pow_le_mono_r; lia).
  rewrite (proj2 (Z.ltb_lt _ (2 ^ 32))) by lia. exists (Z.log2 q + 1). split; [lia|]. split; [done | lia].
Qed.

(** * Probe sequences *)

Section Spec.
Context {K V : Type} `{EqDecision K} {C : HashContext K} {Cok : HashContextOk K}.
Implicit Types (m : HashMap K V) (k : K) (v : V).

(** The [j]-th slot a probe for [k] looks at. *)
Definition pos (cap : nat) (k : K) (j : nat) : nat := Z.to_nat ((ctx_hash k + Z.of_nat j) mod Z.of_nat cap).

Lemma masked_start cap k : pow2 cap -> masked cap (ctx_hash k) = pos cap k 0.
Proof. intros Hc. rewrite masked_mod by done. unfold pos. by rewrite Z.add_0_r. Qed.

Lemma masked_next cap k j : pow2 cap -> masked cap (Z.of_nat (pos cap k j) + 1) = pos cap k (S j).
Proof.
  intros Hc. assert (Hr := pow2_range cap Hc). rewrite masked_mod by done. unfold pos.
  assert (Hm := Z.mod_pos_bound (ctx_hash k + Z.of_nat j) (Z.of_nat cap) ltac:(lia)).
  rewrite Z2Nat.id by lia. rewrite Zplus_mod_idemp_l. f_equal. f_equal. lia.
Qed.

Lemma pos_lt cap k j : pow2 cap -> (pos cap k j < cap)%nat.
Proof.
  intros Hc. apply pow2_range in Hc. unfold pos.
  assert (Hm := Z.mod_pos_bound (ctx_hash k + Z.of_nat j) (Z.of_nat cap) ltac:(lia)). lia.
Qed.

Lemma pos_inj cap k i j : pow2 cap -> (i < cap)%nat -> (j < cap)%nat -> pos cap k i = pos cap k j -> i = j.
Proof.
  intros Hc Hi Hj He. apply pow2_range in Hc. unfold pos in He.
  assert (Hm1 := Z.mod_pos_bound (ctx_hash k + Z.of_nat i) (Z.of_nat cap) ltac:(lia)).
  assert (Hm2 := Z.mod_pos_bound (ctx_hash k + Z.of_nat j) (Z.of_nat cap) ltac:(lia)).
  assert (He' : (ctx_hash k + Z.of_nat i) mod Z.of_nat cap = (ctx_hash k + Z.of_nat j) mod Z.of_nat cap) by lia.
  rewrite !Z.mod_eq in He' by lia.
  set (a := (ctx_hash k + Z.of_nat i) / Z.of_nat cap) in He'. set (b := (ctx_hash k + Z.of_nat j) / Z.of_nat cap) in He'.
  assert (Hd : Z.of_nat i - Z.of_nat j = Z.of_nat cap * (a - b)) by lia.
  assert (a - b = 0) by nia. nia.
Qed.

Lemma pos_surj cap k i : pow2 cap -> (i < cap)%nat -> exists j, (j < cap)%nat /\ pos cap k j = i.
Proof.
  intros Hc Hi. apply pow2_range in Hc. exists (Z.to_nat ((Z.of_nat i - ctx_hash k) mod Z.of_nat cap)).
  assert (Hm := Z.mod_pos_bound (Z.of_nat i - ctx_hash k) (Z.of_nat cap) ltac:(lia)). split; [lia|].
  unfold pos. rewrite Z2Nat.id by lia. rewrite Zplus_mod_idemp_r. replace (ctx_hash k + (Z.of_nat i - ctx_hash k)) with (Z.of_nat i) by lia.
  rewrite Z.mod_small by lia. lia.
Qed.

(** * The invariant *)

Definition slot m (i : nat) k v : Prop := slots m !! i = Some (Some (k, v)).

(** The finite map the slots hold. *)
Definition holds m k v : Prop := exists i, slot m i k v.
Definition absent m k : Prop := forall v, ~ holds m k v.

Definition entries m : list (K * V) := omap id (slots m).

Definition meta_ok (s : option (K * V)) (b : Z) : Prop :=
  match s with Some (k, _) => b = meta_fill (take_fingerprint (ctx_hash k)) | None => b = SLOT_FREE \/ b = SLOT_TOMBSTONE end.

(** No free slot comes before the [j]-th of [k]. *)
Definition unbroken m k (j : nat) : Prop := forall i, (i < j)%nat -> metadata m !! pos (capacity m) k i <> Some SLOT_FREE.

Record wf m : Prop := {
  wf_cap : capacity m = 0%nat \/ pow2 (capacity m);
  wf_meta : Forall2 meta_ok (slots m) (metadata m);
  wf_keys : forall i i' k v v', slot m i k v -> slot m i' k v' -> i = i';
  wf_reach : forall i k v, slot m i k v -> exists j, (j < capacity m)%nat /\ i = pos (capacity m) k j /\ unbroken m k j;
  wf_size : size m = Z.of_nat (length (entries m));
  wf_available : 0 <= available m /\ available m + size m = max_load (capacity m) }.

Lemma wf_length m : wf m -> length (slots m) = capacity m.
Proof. intros Hm. exact (Forall2_length _ _ _ (wf_meta m Hm)). Qed.

Lemma wf_size_pos m : wf m -> 0 <= size m.
Proof. intros Hm. rewrite (wf_size m Hm). lia. Qed.

Lemma slot_meta m i s : wf m -> slots m !! i = Some s -> exists b, metadata m !! i = Some b /\ meta_ok s b.
Proof. intros Hm Hs. destruct (Forall2_lookup_l _ _ _ _ _ (wf_meta m Hm) Hs) as (b & Hb & Hok). by exists b. Qed.

Lemma meta_slot m i : wf m -> (i < capacity m)%nat -> exists b s, metadata m !! i = Some b /\ slots m !! i = Some s /\ meta_ok s b.
Proof.
  intros Hm Hi. rewrite <- (wf_length m Hm) in Hi. destruct (lookup_lt_is_Some_2 _ _ Hi) as [s Hs].
  destruct (slot_meta m i s Hm Hs) as (b & Hb & Hok). by exists b, s.
Qed.

Lemma meta_ok_used (s : option (K * V)) b : meta_ok s b -> meta_is_used b = bool_decide (is_Some s).
Proof. destruct s as [[k v]|]; cbn [meta_ok]; [intros ->; apply used_fill | by intros [-> | ->]]. Qed.

Lemma slot_lt m i k v : wf m -> slot m i k v -> (i < capacity m)%nat.
Proof. intros Hm Hs. apply lookup_lt_Some in Hs. by rewrite <- (wf_length m Hm). Qed.

Lemma slot_cap m i k v : wf m -> slot m i k v -> pow2 (capacity m).
Proof. intros Hm Hs. apply (slot_lt m _ _ _ Hm) in Hs. destruct (wf_cap m Hm); [lia | done]. Qed.

Lemma holds_fun m k v v' : wf m -> holds m k v -> holds m k v' -> v = v'.
Proof. intros Hm [i Hi] [i' Hi']. assert (i = i') as -> by by eapply wf_keys. unfold slot in *. congruence. Qed.

(** ** Counting the used slots *)

Lemma omap_length_lt {A} (l : list (option A)) : (length (omap id l) < length l)%nat -> exists i, l !! i = Some None.
Proof.
  induction l as [|[a|] l IH]; cbn [omap list_omap id length]; intros Hl; [lia | | by exists 0%nat].
  destruct IH as [i Hi]; [lia|]. by exists (S i).
Qed.

Lemma omap_split {A} (l : list (option A)) i s :
  l !! i = Some s -> forall x, omap id (<[i := x]> l) = omap id (take i l) ++ omap id [x] ++ omap id (drop (S i) l).
Proof.
  intros Hs x. apply lookup_lt_Some in Hs. rewrite insert_take_drop by done. rewrite omap_app. f_equal. by destruct x.
Qed.

Lemma entries_set m i s :
  slots m !! i = Some s -> forall x, (length (omap id (<[i := x]> (slots m))) + length (omap id [s]) = length (entries m) + length (omap id [x]))%nat.
Proof.
  intros Hs x. unfold entries. assert (H0 := omap_split _ _ _ Hs s). rewrite list_insert_id in H0 by done.
  rewrite H0, (omap_split _ _ _ Hs x), !length_app. lia.
Qed.

Lemma has_unused m : wf m -> pow2 (capacity m) -> exists i, slots m !! i = Some None.
Proof.
  intros Hm Hc. apply omap_length_lt. fold (entries m). rewrite (wf_length m Hm).
  assert (Hl := max_load_pow2 _ Hc). assert (Ha := wf_available m Hm). rewrite (wf_size m Hm) in Ha. lia.
Qed.

(** * What a probe finds *)

Lemma slot_matches_spec m k i b s :
  slots m !! i = Some s -> meta_ok s b ->
  slot_matches m i b (take_fingerprint (ctx_hash k)) k = Some (bool_decide (option_map fst s = Some k)).
Proof.
  intros Hs Hok. unfold slot_matches. rewrite (meta_ok_used _ _ Hok), Hs. destruct s as [[k' v]|]; cbn [option_map fst]; [|done].
  rewrite bool_decide_true by done. cbn [andb meta_ok] in *. subst b. rewrite fingerprint_fill by apply ctx_hash_range.
  cbn [mbind option_bind]. rewrite ctx_eql_spec. destruct (decide (k' = k)) as [->|Hne].
  - rewrite Z.eqb_refl. by rewrite !bool_decide_true.
  - rewrite (bool_decide_false (k = k')) by congruence. rewrite (bool_decide_false (Some k' = Some k)) by congruence. by destruct (_ =? _).
Qed.

Lemma get_index_loop_found m k i v j :
  wf m -> slot m i k v -> (j < capacity m)%nat -> i = pos (capacity m) k j -> unbroken m k j ->
  forall n, (n <= j)%nat -> get_index_loop (capacity m - n) m k (take_fingerprint (ctx_hash k)) (pos (capacity m) k n) = Some (Some i).
Proof.
  intros Hm Hs Hj Hi Hu n Hn. assert (Hc := slot_cap _ _ _ _ Hm Hs). remember (j - n)%nat as d eqn:Hd. revert n Hn Hd.
  induction d as [|d IH]; intros n Hn Hd; replace (capacity m - n)%nat with (S (capacity m - S n)) by lia; cbn [get_index_loop].
  - assert (n = j) as -> by lia. rewrite <- Hi. destruct (slot_meta _ _ _ Hm Hs) as (b & Hb & Hok). rewrite Hb. cbn [mbind option_bind].
    rewrite (slot_matches_spec _ _ _ _ _ Hs Hok). cbn [option_map fst meta_ok] in *. subst b.
    by rewrite free_fill, bool_decide_true.
  - destruct (meta_slot m (pos (capacity m) k n) Hm) as (b & s & Hb & Hs' & Hok); [by apply pos_lt|]. rewrite Hb. cbn [mbind option_bind].
    assert (Hf : meta_is_free b = false). { apply Z.eqb_neq. intros ->. by apply (Hu n ltac:(lia)). }
    rewrite Hf, (slot_matches_spec _ _ _ _ _ Hs' Hok). cbn [mbind option_bind].
    rewrite bool_decide_false; [rewrite masked_next by done; apply IH; lia|].
    destruct s as [[k' v']|]; [|done]. intros [= ->].
    assert (Hp := wf_keys m Hm _ _ _ _ _ Hs Hs'). rewrite Hi in Hp. apply pos_inj in Hp; [lia | done | lia | lia].
Qed.

Lemma get_index_loop_absent m k limit :
  wf m -> pow2 (capacity m) -> absent m k ->
  forall n, get_index_loop limit m k (take_fingerprint (ctx_hash k)) (pos (capacity m) k n) = Some None.
Proof.
  intros Hm Hc Ha. induction limit as [|limit IH]; intros n; cbn [get_index_loop];
    destruct (meta_slot m (pos (capacity m) k n) Hm) as (b & s & Hb & Hs & Hok); [by apply pos_lt | | by apply pos_lt | ];
    rewrite Hb; cbn [mbind option_bind]; destruct (meta_is_free b); [done | done | done |].
  rewrite (slot_matches_spec _ _ _ _ _ Hs Hok). cbn [mbind option_bind].
  rewrite bool_decide_false; [by rewrite masked_next by done|].
  destruct s as [[k' v']|]; [|done]. intros [= ->]. apply (Ha v'). by exists (pos (capacity m) k n).
Qed.

Lemma entries_holds m k v : (k, v) ∈ entries m <-> holds m k v.
Proof.
  unfold entries, holds, slot. rewrite list_elem_of_omap. split.
  - intros (s & Hs & [= ->]). by apply list_elem_of_lookup in Hs.
  - intros [i Hi]. exists (Some (k, v)). split; [by eapply list_elem_of_lookup_2 | done].
Qed.

Lemma size_zero m : wf m -> size m = 0 -> entries m = [].
Proof. intros Hm Hz. rewrite (wf_size m Hm) in Hz. apply length_zero_iff_nil. lia. Qed.

Lemma holds_size m k v : wf m -> holds m k v -> 0 < size m.
Proof.
  intros Hm Hh. apply entries_holds in Hh. rewrite (wf_size m Hm). destruct (entries m); [by apply not_elem_of_nil in Hh | cbn; lia].
Qed.

Lemma get_index_found m k i v : wf m -> slot m i k v -> get_index m k = Some (Some i).
Proof.
  intros Hm Hs. unfold get_index. assert (Hz := holds_size m k v Hm ltac:(by exists i)). rewrite (proj2 (Z.eqb_neq _ _)) by lia.
  destruct (wf_reach m Hm _ _ _ Hs) as (j & Hj & Hi & Hu). rewrite masked_start by by eapply slot_cap.
  replace (capacity m) with (capacity m - 0)%nat at 1 by lia. by eapply get_index_loop_found; [..|lia].
Qed.

Lemma get_index_absent m k : wf m -> absent m k -> get_index m k = Some None.
Proof.
  intros Hm Ha. unfold get_index. destruct (Z.eqb_spec (size m) 0) as [|Hz]; [done|].
  assert (Hc : pow2 (capacity m)).
  { destruct (wf_cap m Hm) as [H0|]; [|done]. destruct Hz. rewrite (wf_size m Hm). unfold entries.
    rewrite <- (wf_length m Hm) in H0. by destruct (slots m). }
  rewrite masked_start by done. by apply get_index_loop_absent.
Qed.

Lemma holds_dec m k : wf m -> (exists i v, slot m i k v) \/ absent m k.
Proof.
  intros Hm. destruct (decide (k ∈ (entries m).*1)) as [Hk|Hk].
  - left. apply list_elem_of_fmap in Hk as ([k' v] & -> & Hk). apply entries_holds in Hk as [i Hi]. by exists i, v.
  - right. intros v Hv. apply Hk, list_elem_of_fmap. exists (k, v). split; [done | by apply entries_holds].
Qed.

End Spec.
