(* ===== verification/HashMapUpdate.v ===== *)
(** The hash map: writing a slot keeps the invariant, what a probe for an
    insertion finds, and growing. *)
From S2P Require Import Prelude HashMap HashMapSpec.
Import HashMap.

Section Update.
Context {K V : Type} `{EqDecision K} {C : HashContext K} {Cok : HashContextOk K}.
Implicit Types (m : HashMap K V) (k : K) (v : V).

(** The map with byte [b] and slot [s] at [i], the counters moved by [d]. *)
Definition write m (i : nat) (b : Z) (s : option (K * V)) (d : Z) : HashMap K V :=
  {| metadata := <[i := b]> (metadata m); slots := <[i := s]> (slots m); size := size m + d; available := available m - d |}.

Definition opt_count {A} (s : option A) : Z := if s then 1 else 0.

Lemma capacity_write m i b s d : capacity (write m i b s d) = capacity m.
Proof. apply length_insert. Qed.

Lemma slot_write m i b s d i' k v :
  (i < length (slots m))%nat -> slot (write m i b s d) i' k v <-> (i = i' /\ s = Some (k, v)) \/ (i <> i' /\ slot m i' k v).
Proof.
  intros Hi. unfold slot, write. cbn [slots]. rewrite list_lookup_insert_Some. naive_solver.
Qed.

Lemma unbroken_write m i b s d k j : b <> SLOT_FREE -> unbroken m k j -> unbroken (write m i b s d) k j.
Proof.
  intros Hb Hu n Hn. rewrite capacity_write. cbn [write metadata]. intros [(_ & Hx & _)|[_ Hx]]%list_lookup_insert_Some; [done | by eapply Hu].
Qed.

Lemma write_wf m i b s s' d :
  wf m -> slots m !! i = Some s -> meta_ok s' b -> b <> SLOT_FREE -> d = opt_count s' - opt_count s -> 0 <= available m - d ->
  (forall k v, s' = Some (k, v) -> (exists j, (j < capacity m)%nat /\ i = pos (capacity m) k j /\ unbroken m k j) /\
     forall i' v', i' <> i -> ~ slot m i' k v') ->
  wf (write m i b s' d).
Proof.
  intros Hm Hs Hok Hb Hd Ha Hnew. assert (Hi := lookup_lt_Some _ _ _ Hs). constructor; rewrite ?capacity_write.
  - apply Hm.
  - apply Forall2_insert; [apply Hm | done].
  - intros i1 i2 k v1 v2 H1 H2. apply slot_write in H1, H2; [|done..].
    destruct H1 as [[<- ->]|[Hn1 H1]], H2 as [[<- H2]|[Hn2 H2]]; [done | | |].
    + destruct (Hnew _ _ eq_refl) as [_ Hno]. by destruct (Hno i2 v2).
    + destruct (Hnew _ _ H2) as [_ Hno]. by destruct (Hno i1 v1).
    + by eapply (wf_keys m Hm).
  - intros i' k v H'. apply slot_write in H' as [[<- ->]|[Hn H']]; [| |done].
    + destruct (Hnew _ _ eq_refl) as [(j & Hj & He & Hu) _]. exists j. split; [done|]. split; [done | by apply unbroken_write].
    + destruct (wf_reach m Hm _ _ _ H') as (j & Hj & He & Hu). exists j. split; [done|]. split; [done | by apply unbroken_write].
  - assert (He := entries_set m i s Hs s'). unfold entries in *. cbn [write size slots]. rewrite (wf_size m Hm). unfold entries.
    destruct s, s'; cbn [omap list_omap id length opt_count] in *; lia.
  - cbn [write size available]. assert (Hw := wf_available m Hm). lia.
Qed.

(** The counters are far below the width. *)
Lemma size_bound m : wf m -> 0 <= size m <= 2 ^ 31 /\ 0 <= available m <= 2 ^ 31 /\ (capacity m = 0%nat -> size m = 0 /\ available m = 0).
Proof.
  intros Hm. assert (H1 := wf_size_pos m Hm). assert (H2 := wf_available m Hm).
  assert (H3 : 0 <= max_load (capacity m) <= 2 ^ 31 /\ (capacity m = 0%nat -> max_load (capacity m) = 0)).
  { destruct (wf_cap m Hm) as [->|Hc]; [done|]. assert (Hr := pow2_range _ Hc). assert (Hl := max_load_pow2 _ Hc). lia. }
  lia.
Qed.

(** ** A new key *)

Definition fill m i k v : HashMap K V := write m i (meta_fill (take_fingerprint (ctx_hash k))) (Some (k, v)) 1.

(** Slot [i] is where a probe for [k] may put it. *)
Definition fits m k (i : nat) : Prop :=
  slots m !! i = Some None /\ exists j, (j < capacity m)%nat /\ i = pos (capacity m) k j /\ unbroken m k j.

Lemma fill_ne_free fp : meta_fill fp <> SLOT_FREE.
Proof. apply Z.eqb_neq, free_fill. Qed.

Lemma fill_wf m i k v : wf m -> absent m k -> fits m k i -> 0 < available m -> wf (fill m i k v).
Proof.
  intros Hm Ha [Hs Hj] Hav. eapply write_wf; [done | done | done | apply fill_ne_free | done | lia |].
  intros k' v' [= <- <-]. split; [done|]. intros i' v' _ Hs'. apply (Ha v'). by exists i'.
Qed.

Lemma fill_holds m i k v k' v' :
  absent m k -> fits m k i -> holds (fill m i k v) k' v' <-> (k' = k /\ v' = v) \/ holds m k' v'.
Proof.
  intros Ha [Hs _]. assert (Hi := lookup_lt_Some _ _ _ Hs). unfold holds, fill. setoid_rewrite slot_write; [|done..]. split.
  - intros (i' & [[<- [= -> ->]]|[_ Hh]]); [by left | right; by exists i'].
  - intros [[-> ->]|[i' Hh]]; [exists i; by left|]. exists i'. right. split; [|done]. intros <-. unfold slot in Hh. congruence.
Qed.

(** ** The value of a key *)

Lemma set_value_wf m i k v v' : wf m -> slot m i k v ->
  wf {| metadata := metadata m; slots := <[i := Some (k, v')]> (slots m); size := size m; available := available m |}.
Proof.
  intros Hm Hs. destruct (slot_meta _ _ _ Hm Hs) as (b & Hb & Hok).
  assert (Hw : wf (write m i b (Some (k, v')) 0)).
  { eapply write_wf; [done | exact Hs | done | | done | destruct (size_bound m Hm) as (_ & ? & _); lia |].
    - cbn [meta_ok] in Hok. subst b. apply fill_ne_free.
    - intros k0 v0 [= <- <-]. split; [by eapply (wf_reach m Hm)|]. intros i' v0 Hne Hs'. by destruct Hne, (wf_keys m Hm _ _ _ _ _ Hs' Hs). }
  unfold write in Hw. by rewrite list_insert_id, Z.add_0_r, Z.sub_0_r in Hw.
Qed.

Lemma set_value_holds m i k v v' k0 v0 : wf m -> slot m i k v ->
  holds {| metadata := metadata m; slots := <[i := Some (k, v')]> (slots m); size := size m; available := available m |} k0 v0 <->
  (k0 = k /\ v0 = v') \/ (k0 <> k /\ holds m k0 v0).
Proof.
  intros Hm Hs. assert (Hi := lookup_lt_Some _ _ _ Hs). unfold holds, slot at 1. cbn [slots]. setoid_rewrite list_lookup_insert_Some. split.
  - intros (i' & [(<- & [= -> ->] & _)|[Hne Hh]]); [by left|]. right. split; [|by exists i'].
    intros ->. by destruct Hne, (wf_keys m Hm _ _ _ _ _ Hs Hh).
  - intros [[-> ->]|[Hne [i' Hh]]]; [exists i; by left|]. exists i'. right. split; [|done]. intros <-. unfold slot in *. congruence.
Qed.

(** ** Removing a key *)

Lemma erase_wf m i k v : wf m -> slot m i k v -> wf (write m i SLOT_TOMBSTONE None (-1)).
Proof.
  intros Hm Hs. eapply write_wf; [done | exact Hs | by right | done | done | | done].
  destruct (size_bound m Hm) as (_ & ? & _). lia.
Qed.

Lemma erase_holds m i k v k' v' : wf m -> slot m i k v ->
  holds (write m i SLOT_TOMBSTONE None (-1)) k' v' <-> k' <> k /\ holds m k' v'.
Proof.
  intros Hm Hs. assert (Hi := lookup_lt_Some _ _ _ Hs). unfold holds. setoid_rewrite slot_write; [|done..]. split.
  - intros (i' & [[_ [=]]|[Hne Hh]]). split; [|by exists i']. intros ->. by destruct Hne, (wf_keys m Hm _ _ _ _ _ Hs Hh).
  - intros [Hne [i' Hh]]. exists i'. right. split; [|done]. intros <-. unfold slot in *. congruence.
Qed.

(** * The probe of an insertion *)

Lemma put_loop_found m k i v j :
  wf m -> slot m i k v -> (j < capacity m)%nat -> i = pos (capacity m) k j -> unbroken m k j ->
  forall n t, (n <= j)%nat -> put_loop (capacity m - n) m k (take_fingerprint (ctx_hash k)) (pos (capacity m) k n) t = Some (Occupied i).
Proof.
  intros Hm Hs Hj Hi Hu n t Hn. assert (Hc := slot_cap _ _ _ _ Hm Hs). remember (j - n)%nat as d eqn:Hd. revert n t Hn Hd.
  induction d as [|d IH]; intros n t Hn Hd; replace (capacity m - n)%nat with (S (capacity m - S n)) by lia; cbn [put_loop].
  - assert (n = j) as -> by lia. rewrite <- Hi. destruct (slot_meta _ _ _ Hm Hs) as (b & Hb & Hok). rewrite Hb. cbn [mbind option_bind].
    rewrite (slot_matches_spec _ _ _ _ _ Hs Hok). cbn [option_map fst meta_ok] in *. subst b.
    by rewrite free_fill, (bool_decide_true (Some k = Some k)).
  - destruct (meta_slot m (pos (capacity m) k n) Hm) as (b & s & Hb & Hs' & Hok); [by apply pos_lt|]. rewrite Hb. cbn [mbind option_bind].
    assert (Hf : meta_is_free b = false). { apply Z.eqb_neq. intros ->. by apply (Hu n ltac:(lia)). }
    rewrite Hf, (slot_matches_spec _ _ _ _ _ Hs' Hok). cbn [mbind option_bind].
    rewrite (bool_decide_false (_ = Some k)); [rewrite masked_next by done; apply IH; lia|].
    destruct s as [[k' v']|]; [|done]. intros [= ->].
    assert (Hp := wf_keys m Hm _ _ _ _ _ Hs Hs'). rewrite Hi in Hp. apply pos_inj in Hp; [lia | done | lia | lia].
Qed.

(** What is known of the first tombstone after [n] steps. *)
Definition tombstone_inv m k (n t : nat) : Prop :=
  (t = capacity m /\ forall i, (i < n)%nat -> exists p, slots m !! pos (capacity m) k i = Some (Some p)) \/
  (exists j, (j < n)%nat /\ (j < capacity m)%nat /\ t = pos (capacity m) k j /\ slots m !! t = Some None).

Definition chosen m (i t : nat) : nat := if decide (t < capacity m)%nat then t else i.

Lemma all_used_lt m k n :
  wf m -> pow2 (capacity m) -> (n <= capacity m)%nat ->
  (forall i, (i < n)%nat -> exists p, slots m !! pos (capacity m) k i = Some (Some p)) -> (n < capacity m)%nat.
Proof.
  intros Hm Hc Hn Hall. destruct (decide (n = capacity m)) as [->|]; [|lia]. destruct (has_unused m Hm Hc) as [i Hi].
  assert (Hlt := lookup_lt_Some _ _ _ Hi). rewrite wf_length in Hlt by done.
  destruct (pos_surj (capacity m) k i Hc Hlt) as (j & Hj & <-). destruct (Hall j Hj) as [p Hp]. congruence.
Qed.

Lemma stopped_fits m k n t :
  wf m -> pow2 (capacity m) -> (n <= capacity m)%nat -> unbroken m k n -> tombstone_inv m k n t ->
  (n = capacity m \/ metadata m !! pos (capacity m) k n = Some SLOT_FREE) -> fits m k (chosen m (pos (capacity m) k n) t).
Proof.
  intros Hm Hc Hn Hu Ht Hstop. unfold chosen. destruct Ht as [[-> Hall]|(j & Hj & Hjc & -> & Hs)].
  - rewrite decide_False by lia. assert (Hlt := all_used_lt m k n Hm Hc Hn Hall). destruct Hstop as [->|Hf]; [lia|].
    destruct (meta_slot m (pos (capacity m) k n) Hm) as (b & s & Hb & Hs & Hok); [by apply pos_lt|].
    rewrite Hf in Hb. injection Hb as <-. split; [|by exists n].
    destruct s as [[k' v']|]; [|done]. cbn [meta_ok] in Hok. by destruct (fill_ne_free _ (eq_sym Hok)).
  - rewrite decide_True by by apply pos_lt. split; [done|]. exists j. split; [done|]. split; [done|]. intros i Hi. apply Hu. lia.
Qed.

Lemma put_loop_absent m k :
  wf m -> pow2 (capacity m) -> absent m k ->
  forall d n t, (n + d = capacity m)%nat -> unbroken m k n -> tombstone_inv m k n t ->
  exists i t', put_loop d m k (take_fingerprint (ctx_hash k)) (pos (capacity m) k n) t = Some (Stopped i t') /\ fits m k (chosen m i t').
Proof.
  intros Hm Hc Ha d. induction d as [|d IH]; intros n t Hn Hu Ht; cbn [put_loop];
    destruct (meta_slot m (pos (capacity m) k n) Hm) as (b & s & Hb & Hs & Hok); [by apply pos_lt | | by apply pos_lt | ];
    rewrite Hb; cbn [mbind option_bind].
  - exists (pos (capacity m) k n), t. split; [by destruct (meta_is_free b)|]. apply stopped_fits; [done | done | lia | done | done | left; lia].
  - destruct (meta_is_free b) eqn:Hf.
    + exists (pos (capacity m) k n), t. split; [done|]. apply stopped_fits; [done | done | lia | done | done | right].
      apply Z.eqb_eq in Hf. by subst b.
    + rewrite (slot_matches_spec _ _ _ _ _ Hs Hok). cbn [mbind option_bind].
      rewrite (bool_decide_false (_ = Some k)); [rewrite masked_next by done; apply IH; [lia | |]|].
      * intros i Hi. destruct (decide (i = n)) as [->|]; [|apply Hu; lia]. rewrite Hb. intros [= ->]. done.
      * rewrite (meta_ok_used _ _ Hok). destruct s as [[k' v']|].
        -- assert (Hnt : meta_is_tombstone b = false).
           { cbn [meta_ok] in Hok. subst b. apply Z.eqb_neq. intros Hx. assert (Hy := used_fill (take_fingerprint (ctx_hash k'))). by rewrite Hx in Hy. }
           rewrite Hnt, andb_false_r. destruct Ht as [[-> Hall]|(j & Hj & Hjc & Hte & Hs')].
           ++ left. split; [done|]. intros i Hi. destruct (decide (i = n)) as [->|]; [by eexists | apply Hall; lia].
           ++ right. exists j. split; [lia | done].
        -- cbn [meta_ok] in Hok. destruct Hok as [-> | ->]; [done|].
           rewrite (bool_decide_false (is_Some None)) by by intros [? ?].
           change (meta_is_tombstone SLOT_TOMBSTONE) with true. cbn [andb negb]. rewrite andb_true_r.
           destruct Ht as [[-> Hall]|(j & Hj & Hjc & -> & Hs')].
           ++ rewrite bool_decide_true by done. right. exists n. split; [lia|]. split; [lia | done].
           ++ rewrite bool_decide_false by (assert (Hp := pos_lt (capacity m) k j Hc); lia). right. exists j. split; [lia|]. done.
      * destruct s as [[k' v']|]; [|done]. intros [= ->]. apply (Ha v'). by exists (pos (capacity m) k n).
Qed.

End Update.
