(* ===== verification/HashMapGrow.v ===== *)
(** The hash map: rehashing into a larger table keeps the pairs, and growing
    makes the room that was asked for. *)
From S2P Require Import Prelude HashMap HashMapSpec HashMapUpdate.
Import HashMap.

Section Grow.
Context {K V : Type} `{EqDecision K} {C : HashContext K} {Cok : HashContextOk K}.
Implicit Types (m : HashMap K V) (k : K) (v : V).

Lemma size_incr m : wf m -> 0 < available m -> trunc32 (size m + 1) = size m + 1 /\ trunc32 (available m - 1) = available m - 1.
Proof. intros Hm Ha. destruct (size_bound m Hm) as (Hs & Hb & _). split; apply Z.mod_small; lia. Qed.

Lemma set_metadata_lt (l : list Z) i b : (i < length l)%nat -> set_metadata l i b = Some (<[i := b]> l).
Proof. intros Hi. unfold set_metadata. by rewrite decide_True by done. Qed.

Lemma set_slot_lt (l : list (option (K * V))) i s : (i < length l)%nat -> set_slot l i s = Some (<[i := s]> l).
Proof. intros Hi. unfold set_slot. by rewrite decide_True by done. Qed.

Lemma fits_lt m k i : wf m -> fits m k i -> (i < length (metadata m))%nat /\ (i < length (slots m))%nat.
Proof. intros Hm [Hs _]. apply lookup_lt_Some in Hs. split; [|done]. fold (capacity m). by rewrite <- (wf_length m Hm). Qed.

Lemma unused_loop_spec m k :
  wf m -> pow2 (capacity m) ->
  forall d n, (n + d = capacity m)%nat -> (forall i, (i < n)%nat -> exists p, slots m !! pos (capacity m) k i = Some (Some p)) ->
  exists i, unused_loop d m (pos (capacity m) k n) = Some i /\ fits m k i.
Proof.
  intros Hm Hc d. induction d as [|d IH]; intros n Hn Hall; assert (Hlt := all_used_lt m k n Hm Hc ltac:(lia) Hall); [lia|].
  cbn [unused_loop]. destruct (meta_slot m (pos (capacity m) k n) Hm) as (b & s & Hb & Hs & Hok); [by apply pos_lt|].
  rewrite Hb. cbn [mbind option_bind]. rewrite (meta_ok_used _ _ Hok). destruct s as [p|].
  - rewrite bool_decide_true by by eexists. rewrite masked_next by done. apply IH; [lia|].
    intros i Hi. destruct (decide (i = n)) as [->|]; [by eexists | apply Hall; lia].
  - rewrite bool_decide_false by by intros [? ?]. eexists. split; [done|]. split; [done|]. exists n. split; [done|]. split; [done|].
    intros i Hi Hf. destruct (Hall i Hi) as [[k' v'] Hp]. destruct (slot_meta _ _ _ Hm Hp) as (b' & Hb' & Hok').
    rewrite Hf in Hb'. injection Hb' as <-. by destruct (fill_ne_free _ (eq_sym Hok')).
Qed.

Lemma put_assume_ok m k v :
  wf m -> pow2 (capacity m) -> absent m k -> 0 < available m ->
  exists i, put_assume_capacity_no_clobber m k v = Some (fill m i k v) /\ fits m k i.
Proof.
  intros Hm Hc Ha Hav. destruct (unused_loop_spec m k Hm Hc (capacity m) 0 eq_refl) as (i & Hi & Hf); [lia|]. exists i. split; [|done].
  unfold put_assume_capacity_no_clobber. rewrite masked_start, Hi by done. destruct (fits_lt m k i Hm Hf). cbn [mbind option_bind].
  rewrite set_metadata_lt, set_slot_lt by done. cbn [mbind option_bind]. by destruct (size_incr m Hm Hav) as [-> ->].
Qed.

Definition used_ok (p : Z * option (K * V)) : Prop := meta_is_used p.1 = bool_decide (is_Some p.2).

Lemma rehash_ok old : forall m total,
  Forall used_ok old -> NoDup (omap snd old).*1 -> (forall k v, (k, v) ∈ omap snd old -> absent m k) ->
  Z.of_nat (length (omap snd old)) <= available m -> total = size m + Z.of_nat (length (omap snd old)) -> wf m -> pow2 (capacity m) ->
  exists m', rehash old total m = Some m' /\ wf m' /\ capacity m' = capacity m /\ size m' = total /\
    forall k v, holds m' k v <-> holds m k v \/ (k, v) ∈ omap snd old.
Proof.
  induction old as [|[b [[k v]|]] old IH]; intros m total Hu Hnd Hab Hav Ht Hm Hc; cbn [rehash].
  - exists m. cbn in Ht. split; [done|]. split; [done|]. split; [done|]. split; [lia|]. intros k v. cbn. by rewrite elem_of_nil; naive_solver.
  - apply Forall_cons in Hu as [Hb Hu]. cbv [used_ok fst snd] in Hb. rewrite Hb, bool_decide_true by by eexists. cbn [negb]. cbn [omap list_omap snd fmap list_fmap fst length] in *.
    apply NoDup_cons in Hnd as [Hk Hnd]. assert (Ha : absent m k) by (apply (Hab k v), list_elem_of_here).
    destruct (put_assume_ok m k v Hm Hc Ha ltac:(lia)) as (i & Hp & Hf). rewrite Hp. cbn [mbind option_bind].
    assert (Hm' := fill_wf m i k v Hm Ha Hf ltac:(lia)). assert (Hh := fun k' v' => fill_holds m i k v k' v' Ha Hf).
    assert (Hcap : capacity (fill m i k v) = capacity m) by apply capacity_write.
    change (size (fill m i k v)) with (size m + 1).
    destruct (Z.eqb_spec (size m + 1) total) as [He|Hne].
    + exists (fill m i k v). split; [done|]. split; [done|]. split; [done|]. split; [done|]. intros k' v'. rewrite Hh.
      destruct (omap snd old); [|cbn in Ht; lia]. rewrite elem_of_cons, elem_of_nil. naive_solver.
    + destruct (IH (fill m i k v) total) as (m' & Hr & Hw & Hcm & Hsz & Hhm); [done | done | | cbn; lia | cbn; lia | done | by rewrite Hcap |].
      * intros k' v' Hin v'' Hx. apply Hh in Hx as [[-> ->]|Hx].
        -- apply Hk, list_elem_of_fmap. by exists (k, v').
        -- apply (Hab k' v' ltac:(by right) v'' Hx).
      * exists m'. split; [done|]. split; [done|]. split; [congruence|]. split; [done|]. intros k' v'.
        rewrite Hhm, Hh, elem_of_cons. naive_solver.
  - apply Forall_cons in Hu as [Hb Hu]. cbv [used_ok fst snd] in Hb. rewrite Hb, bool_decide_false by by intros [? ?]. cbn [negb]. by apply IH.
Qed.

Lemma zip_snd {A B} (l1 : list A) (l2 : list (option B)) : length l1 = length l2 -> omap snd (zip l1 l2) = omap id l2.
Proof.
  revert l2. induction l1 as [|a l1 IH]; intros [|[b|] l2] Hl; cbn in *; [done | done | done | done | f_equal |]; by apply IH; lia.
Qed.

Lemma entries_nodup m : wf m -> NoDup (entries m).*1.
Proof.
  intros Hm. assert (Hk := wf_keys m Hm). unfold slot in Hk. unfold entries. revert Hk. generalize (slots m). clear.
  induction l as [|[[k v]|] l IH]; intros Hk; cbn [omap list_omap id fmap list_fmap fst]; [constructor | constructor |].
  - intros ([k' v'] & [= ->] & Hin)%list_elem_of_fmap. apply list_elem_of_omap in Hin as (s & Hs & [= ->]).
    apply list_elem_of_lookup in Hs as [i Hi]. assert (He := Hk 0%nat (S i) k' v v' eq_refl Hi). lia.
  - apply IH. intros i i' k' v1 v2 H1 H2. assert (He := Hk (S i) (S i') k' v1 v2 H1 H2). lia.
  - apply IH. intros i i' k' v1 v2 H1 H2. assert (He := Hk (S i) (S i') k' v1 v2 H1 H2). lia.
Qed.

(** The table [grow] starts from. *)
Definition empty_table (cap : nat) : HashMap K V :=
  {| metadata := replicate cap SLOT_FREE; slots := replicate cap None; size := 0; available := max_load cap |}.

Lemma empty_table_ok cap : cap = 0%nat \/ pow2 cap -> wf (empty_table cap) /\ forall k, absent (empty_table cap) k.
Proof.
  intros Hc. assert (Hno : forall i k v, ~ slot (empty_table cap) i k v) by (intros i k v [[=] _]%lookup_replicate).
  assert (Hcap : capacity (empty_table cap) = cap) by apply length_replicate.
  split; [|by intros k v [i Hi]; apply (Hno i k v)]. constructor; rewrite ?Hcap.
  - done.
  - apply Forall2_replicate. by left.
  - by intros i i' k v v' []%Hno.
  - by intros i k v []%Hno.
  - assert (He : entries (empty_table cap) = []).
    { unfold entries. cbn [empty_table slots]. clear. by induction cap. }
    by rewrite He.
  - cbn. assert (0 <= max_load cap); [|lia]. destruct Hc as [->|Hc]; [done|]. assert (Hl := max_load_pow2 _ Hc). lia.
Qed.

Lemma new_capacity_ok n :
  0 < n <= 2 ^ 30 -> pow2 (Z.to_nat (Z.max (capacity_for_size n) MINIMAL_CAPACITY)) /\
    n <= max_load (Z.to_nat (Z.max (capacity_for_size n) MINIMAL_CAPACITY)).
Proof.
  intros Hn. destruct (capacity_for_size_ok n Hn) as (p & Hp & Hcap & Hfit). rewrite Hcap. unfold MINIMAL_CAPACITY.
  assert (Hc : pow2 (Z.to_nat (Z.max (2 ^ p) 8))).
  { destruct (Z.le_gt_cases 3 p).
    - exists p. assert (2 ^ 3 <= 2 ^ p) by (apply Z.pow_le_mono_r; lia). split; lia.
    - exists 3. assert (2 ^ p <= 2 ^ 3) by (apply Z.pow_le_mono_r; lia). split; lia. }
  split; [done|]. destruct (max_load_pow2 _ Hc) as [-> _]. rewrite Z2Nat.id by lia. apply Z.div_le_lower_bound; lia.
Qed.

Lemma grow_ok m n :
  wf m -> size m <= n -> 0 < n <= 2 ^ 30 ->
  exists m', grow m (capacity_for_size n) = Some m' /\ wf m' /\ capacity m' = Z.to_nat (Z.max (capacity_for_size n) MINIMAL_CAPACITY) /\
    size m' = size m /\ n <= available m' + size m' /\ forall k v, holds m' k v <-> holds m k v.
Proof.
  intros Hm Hs Hn. unfold grow. destruct (new_capacity_ok n Hn) as [Hc Hfit]. set (cap := Z.to_nat _) in *. fold (empty_table cap).
  destruct (empty_table_ok cap (or_intror Hc)) as [Hw Hab]. assert (Hcap : capacity (empty_table cap) = cap) by apply length_replicate.
  destruct (Z.eqb_spec (size m) 0) as [Hz|Hz].
  - exists (empty_table cap). rewrite Hcap. split; [done|]. split; [done|]. split; [done|]. cbn. split; [lia|]. split; [lia|].
    intros k v. split; [by intros []%Hab|]. intros Hh%holds_size; [lia | done].
  - assert (He : omap snd (zip (metadata m) (slots m)) = entries m) by (apply zip_snd; by rewrite (wf_length m Hm)).
    destruct (rehash_ok (zip (metadata m) (slots m)) (empty_table cap) (size m)) as (m' & Hr & Hwm & Hcm & Hsz & Hh);
      rewrite ?He, ?Hcap in *.
    + apply Forall_forall. intros [b s] Hin. apply list_elem_of_lookup in Hin as [i Hi]. apply lookup_zip_Some in Hi as [Hb Hsl].
      destruct (slot_meta _ _ _ Hm Hsl) as (b' & Hb' & Hok). rewrite Hb in Hb'. injection Hb' as <-. by apply meta_ok_used.
    + by apply entries_nodup.
    + intros k v _. apply Hab.
    + rewrite <- (wf_size m Hm). cbn. lia.
    + cbn. by rewrite (wf_size m Hm).
    + done.
    + done.
    + exists m'. split; [done|]. split; [done|]. split; [by rewrite Hcm|]. split; [done|]. split.
      * assert (Ha := wf_available m' Hwm). rewrite Hcm in Ha. lia.
      * intros k v. rewrite Hh, entries_holds. split; [|by right]. intros [[]%Hab|]; done.
Qed.

Lemma load_ok m : wf m -> load m = size m.
Proof.
  intros Hm. unfold load. assert (Ha := wf_available m Hm). destruct (size_bound m Hm) as (Hs & _ & _).
  replace (max_load (capacity m) - available m) with (size m) by lia. apply Z.mod_small. lia.
Qed.

(** [m'] is [m], or a larger table made because less than [n] slots were available. *)
Definition grown (n : Z) m m' : Prop := m' = m \/ (available m < n /\ (capacity m < capacity m')%nat).

Lemma new_capacity_larger m n :
  wf m -> available m + size m < n <= 2 ^ 30 -> (capacity m < Z.to_nat (Z.max (capacity_for_size n) MINIMAL_CAPACITY))%nat.
Proof.
  intros Hm Hn. assert (Ha := wf_available m Hm). destruct (size_bound m Hm) as (Hs & _ & _).
  destruct (capacity_for_size_ok n ltac:(lia)) as (p & Hp & -> & Hfit). unfold MINIMAL_CAPACITY.
  destruct (wf_cap m Hm) as [->|Hc]; [lia|]. destruct (max_load_pow2 _ Hc) as [Hl _].
  assert (Hd := Z.div_mod (Z.of_nat (capacity m) * 80) 100 ltac:(lia)). assert (Hr := Z.mod_pos_bound (Z.of_nat (capacity m) * 80) 100 ltac:(lia)). lia.
Qed.

Lemma grow_if_needed_ok m n :
  wf m -> 0 < n -> size m + n <= 2 ^ 30 ->
  exists m', grow_if_needed m n = Some m' /\ wf m' /\ pow2 (capacity m') /\ size m' = size m /\ n <= available m' /\ grown n m m' /\
    forall k v, holds m' k v <-> holds m k v.
Proof.
  intros Hm Hn Hb. unfold grow_if_needed. destruct (size_bound m Hm) as (Hs & _ & H0). destruct (Z.ltb_spec (available m) n) as [Hlt|Hge].
  - rewrite load_ok by done. replace (trunc32 (size m + n)) with (size m + n) by (symmetry; apply Z.mod_small; lia).
    destruct (grow_ok m (size m + n) Hm ltac:(lia) ltac:(lia)) as (m' & Hg & Hw & Hc & Hsz & Hav & Hh).
    assert (Hlt' := new_capacity_larger m (size m + n) Hm ltac:(lia)). rewrite <- Hc in Hlt'.
    exists m'. split; [done|]. split; [done|]. split; [rewrite Hc; apply new_capacity_ok; lia|]. split; [done|]. split; [lia|].
    split; [by right | done].
  - exists m. split; [done|]. split; [done|]. split; [|split; [done|]; split; [done|]; split; [by left | done]].
    destruct (wf_cap m Hm) as [Hc|]; [|done]. destruct (H0 Hc). lia.
Qed.

End Grow.
