(* ===== verification/HashMapModel.v ===== *)
(** The hash map against a finite map: each operation of the table does what
    the operation of [gmap] does, and the iterator gives its pairs. *)
From stdpp Require Import fin_maps gmap.
From S2P Require Import Prelude HashMap HashMapSpec HashMapUpdate HashMapGrow.
Import HashMap.

Section Model.
Context {K V : Type} `{Countable K} {C : HashContext K} {Cok : HashContextOk K}.
Implicit Types (m : HashMap K V) (M : gmap K V) (k : K) (v : V).

(** The table [m] holds exactly the pairs of [M]. *)
Record models m M : Prop := {
  models_wf : wf m;
  models_holds : forall k v, holds m k v <-> M !! k = Some v }.

Lemma models_absent m M k : models m M -> M !! k = None -> absent m k.
Proof. intros Hm Hk v Hh. apply (models_holds m M Hm) in Hh. congruence. Qed.

Lemma models_slot m M k v : models m M -> M !! k = Some v -> exists i, slot m i k v.
Proof. intros Hm Hk. by apply (models_holds m M Hm). Qed.

Lemma models_change m m' M : models m M -> wf m' -> (forall k v, holds m' k v <-> holds m k v) -> models m' M.
Proof. intros Hm Hw Hh. split; [done|]. intros k v. rewrite Hh. by apply models_holds. Qed.

Lemma models_empty cap : cap = 0%nat \/ pow2 cap -> models (empty_table cap) ∅.
Proof.
  intros Hc. destruct (empty_table_ok (V:=V) cap Hc) as [Hw Hab]. split; [done|]. intros k v. rewrite lookup_empty.
  split; [by intros []%Hab | done].
Qed.

Lemma models_new : models new ∅.
Proof. exact (models_empty 0 (or_introl eq_refl)). Qed.

Lemma models_perm m M : models m M -> entries m ≡ₚ map_to_list M.
Proof.
  intros Hm. assert (Hnd := entries_nodup m (models_wf m M Hm)).
  assert (HM : M = list_to_map (entries m)).
  { apply map_eq. intros k. apply option_eq. intros v. rewrite <- (models_holds m M Hm), <- entries_holds. by apply elem_of_list_to_map. }
  rewrite HM. symmetry. by apply map_to_list_to_map.
Qed.

Lemma models_size m M : models m M -> HashMap.size m = Z.of_nat (base.size M).
Proof.
  intros Hm. rewrite (wf_size m (models_wf m M Hm)), (models_perm m M Hm). by rewrite length_map_to_list.
Qed.

(** * Looking up *)

Lemma get_index_ok m M k : models m M ->
  (exists i v, M !! k = Some v /\ slot m i k v /\ get_index m k = Some (Some i)) \/ (M !! k = None /\ get_index m k = Some None).
Proof.
  intros Hm. destruct (M !! k) as [v|] eqn:Hk; [left | right].
  - destruct (models_slot m M k v Hm Hk) as [i Hi]. exists i, v. split; [done|]. split; [done|]. by eapply get_index_found, Hi; apply Hm.
  - split; [done|]. apply get_index_absent; [apply Hm | by eapply models_absent].
Qed.

Lemma get_key_value_ok m M k : models m M -> get_key_value m k = Some ((fun v => (k, v)) <$> M !! k).
Proof.
  intros Hm. unfold get_key_value. destruct (get_index_ok m M k Hm) as [(i & v & -> & Hs & ->)|[-> ->]]; [|done].
  cbn [mbind option_bind]. by rewrite Hs.
Qed.

Lemma get_ok m M k : models m M -> get m k = Some (M !! k).
Proof. intros Hm. unfold get. rewrite (get_key_value_ok m M k Hm). by destruct (M !! k). Qed.

Lemma contains_key_ok m M k : models m M -> contains_key m k = Some (bool_decide (is_Some (M !! k))).
Proof.
  intros Hm. unfold contains_key. destruct (get_index_ok m M k Hm) as [(i & v & -> & Hs & ->)|[-> ->]]; cbn [mbind option_bind]; [|done].
  by rewrite !bool_decide_true by by eexists.
Qed.

(** * Where pairs are *)

(** A key of both tables is in the same slot of both. *)
Definition settled m m' : Prop := capacity m' = capacity m /\ forall i k v v', slot m i k v -> holds m' k v' -> slot m' i k v'.

(** No pair moves, or a larger table was made because less than [n] slots were available. *)
Definition changes (n : Z) m m' : Prop := settled m m' \/ (available m < n /\ (capacity m < capacity m')%nat).

Lemma settled_intro m m' : wf m' -> capacity m' = capacity m ->
  (forall i k v, slot m i k v -> (exists v', slot m' i k v') \/ absent m' k) -> settled m m'.
Proof.
  intros Hm Hc Hs. split; [done|]. intros i k v v' Hi [i' Hi']. destruct (Hs i k v Hi) as [[v0 Hi0]|Ha].
  - by rewrite (wf_keys m' Hm _ _ _ _ _ Hi0 Hi').
  - destruct (Ha v'). by exists i'.
Qed.

Lemma settled_refl m : wf m -> settled m m.
Proof. intros Hm. apply settled_intro; [done | done|]. intros i k v Hs. left. by exists v. Qed.

Lemma changes_grown n m m1 m' : grown n m m1 -> settled m1 m' -> changes n m m'.
Proof. intros [->|[Ha Hc]] Hs; [by left|]. right. split; [done|]. by destruct Hs as [-> _]. Qed.

Lemma write_settled m i b s d : wf (write m i b s d) -> (i < length (slots m))%nat ->
  (forall k v, slot m i k v -> (exists v', s = Some (k, v')) \/ absent (write m i b s d) k) -> settled m (write m i b s d).
Proof.
  intros Hw Hi Hs. apply settled_intro; [done | apply capacity_write|]. intros i' k v Hsl. destruct (decide (i = i')) as [<-|Hne].
  - destruct (Hs k v Hsl) as [[v' ->]|Ha]; [left | by right]. exists v'. apply slot_write; [done | by left].
  - left. exists v. apply slot_write; [done | by right].
Qed.

Lemma fill_settled m M k v i : models m M -> M !! k = None -> fits m k i -> 0 < available m -> settled m (fill m i k v).
Proof.
  intros Hm Hk Hf Ha. apply write_settled.
  - apply fill_wf; [apply Hm | by eapply models_absent | done | done].
  - destruct Hf as [Hf _]. by apply lookup_lt_Some in Hf.
  - intros k' v' Hs. destruct Hf as [Hf _]. unfold slot in Hs. congruence.
Qed.

Lemma set_value_settled m k v v' i : wf m -> slot m i k v ->
  settled m {| metadata := metadata m; slots := <[i := Some (k, v')]> (slots m); size := HashMap.size m; available := available m |}.
Proof.
  intros Hm Hs. apply settled_intro; [by eapply set_value_wf | done|]. intros i' k' v0 Hs'. left. unfold slot in *. cbn [slots].
  destruct (decide (i' = i)) as [->|Hne]; [|exists v0; by rewrite list_lookup_insert_ne].
  exists v'. rewrite list_lookup_insert_eq by (by apply lookup_lt_Some in Hs). congruence.
Qed.

Lemma erase_settled m i k v : wf m -> slot m i k v -> settled m (write m i SLOT_TOMBSTONE None (-1)).
Proof.
  intros Hm Hs. apply write_settled; [by eapply erase_wf | by apply lookup_lt_Some in Hs|]. intros k' v' Hs'.
  right. intros v0. rewrite (erase_holds m i k v) by done. intros [Hne _]. unfold slot in *. congruence.
Qed.

(** * Making room *)

Lemma table_ensure_total_ok m M n : models m M -> 0 <= n <= 2 ^ 30 -> 
  exists m', ensure_total_capacity m n = Some m' /\ models m' M /\ n <= HashMap.size m' + available m' /\ changes (n - HashMap.size m) m m'.
Proof.
  intros Hm Hn. assert (Hw := models_wf m M Hm). unfold ensure_total_capacity. unfold trunc32. rewrite Z.mod_small by lia.
  destruct (size_bound m Hw) as (Hs & Ha & _). destruct (Z.ltb_spec (HashMap.size m) n) as [Hlt|Hge].
  - destruct (grow_if_needed_ok m (n - HashMap.size m) Hw ltac:(lia) ltac:(lia)) as (m' & Hg & Hw' & _ & Hsz & Hav & Hgr & Hh).
    exists m'. split; [done|]. split; [by eapply models_change|]. split; [lia|].
    by eapply changes_grown, settled_refl.
  - exists m. split; [done|]. split; [done|]. split; [lia | by left; apply settled_refl].
Qed.

(** * Inserting *)

Lemma models_fill m M k v i : models m M -> M !! k = None -> fits m k i -> 0 < available m -> models (fill m i k v) (<[k := v]> M).
Proof.
  intros Hm Hk Hf Ha. assert (Hab := models_absent m M k Hm Hk). split; [by apply fill_wf; [apply Hm|..]|]. intros k' v'.
  rewrite fill_holds by done. rewrite (models_holds m M Hm), lookup_insert_Some. split; [|naive_solver].
  intros [[-> ->]|Hk']; [by left|]. right. split; [|done]. intros ->. congruence.
Qed.

Lemma models_set_value m M k v v' i : models m M -> slot m i k v ->
  models {| metadata := metadata m; slots := <[i := Some (k, v')]> (slots m); size := HashMap.size m; available := available m |} (<[k := v']> M).
Proof.
  intros Hm Hs. split; [by eapply set_value_wf, Hs; apply Hm|]. intros k0 v0.
  rewrite set_value_holds by (done || apply Hm). rewrite (models_holds m M Hm), lookup_insert_Some. naive_solver.
Qed.

(** The slot a [get_or_put_slot] gives, in the table it grew to. *)
Lemma get_or_put_slot_ok m M k : models m M -> HashMap.size m < 2 ^ 30 ->
  exists m1, models m1 M /\ grown 1 m m1 /\
    ((exists i v, M !! k = Some v /\ slot m1 i k v /\ get_or_put_slot m k = Some (m1, i, true)) \/
     (exists i m2, M !! k = None /\ fits m1 k i /\ 0 < available m1 /\ get_or_put_slot m k = Some (m2, i, false) /\
        forall v, with_slot m2 i (Some (k, v)) = Some (fill m1 i k v))).
Proof.
  intros Hm Hs. unfold get_or_put_slot.
  destruct (grow_if_needed_ok m 1 (models_wf m M Hm) ltac:(lia) ltac:(lia)) as (m1 & -> & Hw & Hc & Hsz & Hav & Hgr & Hh).
  assert (Hm1 := models_change m m1 M Hm Hw Hh). exists m1. split; [done|]. split; [done|]. cbn [mbind option_bind]. rewrite masked_start by done.
  destruct (M !! k) as [v|] eqn:Hk; [left | right].
  - destruct (models_slot m1 M k v Hm1 Hk) as [i Hi]. exists i, v. split; [done|]. split; [done|].
    destruct (wf_reach m1 Hw _ _ _ Hi) as (j & Hj & He & Hu).
    assert (Hp := put_loop_found m1 k i v j Hw Hi Hj He Hu 0 (capacity m1) ltac:(lia)). rewrite Nat.sub_0_r in Hp. by rewrite Hp.
  - destruct (put_loop_absent m1 k Hw Hc (models_absent m1 M k Hm1 Hk) (capacity m1) 0 (capacity m1) eq_refl) as (i & t & Hp & Hf).
    { intros i Hi. lia. }
    { left. split; [done|]. intros i Hi. lia. }
    rewrite Hp. cbn [mbind option_bind]. fold (chosen m1 i t) in *. set (i' := chosen m1 i t) in *.
    destruct (fits_lt m1 k i' Hw Hf) as [Hl1 Hl2]. rewrite set_metadata_lt by done. cbn [mbind option_bind].
    destruct (size_incr m1 Hw ltac:(lia)) as [-> ->].
    eexists i', _. split; [done|]. split; [done|]. split; [lia|]. split; [done|]. intros v. unfold with_slot. cbn [slots]. by rewrite set_slot_lt.
Qed.

Lemma with_slot_ok m i k v : wf m -> slot m i k v -> forall v', with_slot m i (Some (k, v')) = Some {| metadata := metadata m; slots := <[i := Some (k, v')]> (slots m); size := HashMap.size m; available := available m |}.
Proof. intros Hm Hs v'. unfold with_slot. rewrite set_slot_lt; [done|]. by apply lookup_lt_Some in Hs. Qed.

Lemma insert_ok m M k v : models m M -> HashMap.size m < 2 ^ 30 ->
  exists m', HashMap.insert m k v = Some (m', M !! k) /\ models m' (<[k := v]> M) /\ changes 1 m m'.
Proof.
  intros Hm Hs. unfold HashMap.insert.
  destruct (get_or_put_slot_ok m M k Hm Hs) as (m1 & Hm1 & Hg & [(i & v0 & -> & Hi & ->)|(i & m2 & Hk & Hf & Ha & -> & Hw)]); cbn [mbind option_bind].
  - rewrite Hi. cbn [mbind option_bind fst snd]. rewrite (with_slot_ok _ _ _ _ (models_wf _ _ Hm1) Hi). eexists. split; [done|].
    split; [by eapply models_set_value | by eapply changes_grown, set_value_settled; [..| apply Hm1|]].
  - rewrite Hw, Hk. eexists. split; [done|]. split; [by apply models_fill | by eapply changes_grown, (fill_settled m1 M)].
Qed.

Lemma get_or_put_ok m M k v : models m M -> HashMap.size m < 2 ^ 30 ->
  exists m', get_or_put m k v = Some (m', M !! k) /\ models m' (if M !! k then M else <[k := v]> M) /\ changes 1 m m'.
Proof.
  intros Hm Hs. unfold get_or_put.
  destruct (get_or_put_slot_ok m M k Hm Hs) as (m1 & Hm1 & Hg & [(i & v0 & -> & Hi & ->)|(i & m2 & Hk & Hf & Ha & -> & Hw)]); cbn [mbind option_bind].
  - rewrite Hi. exists m1. split; [done|]. split; [done | by eapply changes_grown, settled_refl, Hm1].
  - rewrite Hw, Hk. eexists. split; [done|]. split; [by apply models_fill | by eapply changes_grown, (fill_settled m1 M)].
Qed.

Lemma or_insert_with_ok m M k v : models m M -> HashMap.size m < 2 ^ 30 ->
  exists m', (e ← entry m k; or_insert_with m e v) = Some (m', default v (M !! k)) /\ models m' (if M !! k then M else <[k := v]> M) /\
    changes 1 m m'.
Proof.
  intros Hm Hs. unfold entry. destruct (get_index_ok m M k Hm) as [(i & v0 & -> & Hi & ->)|[Hk ->]]; cbn [mbind option_bind or_insert_with].
  - rewrite Hi. exists m. split; [done|]. split; [done | left; by eapply settled_refl, Hm].
  - rewrite Hk. unfold vacant_insert.
    destruct (get_or_put_slot_ok m M k Hm Hs) as (m1 & Hm1 & Hg & [(i & v0 & Hk' & Hi & ->)|(i & m2 & _ & Hf & Ha & -> & Hw)]); [congruence|].
    cbn [mbind option_bind]. rewrite Hw. eexists. split; [done|]. split; [by apply models_fill | by eapply changes_grown, (fill_settled m1 M)].
Qed.

(** * Removing *)

Lemma remove_entry_ok m M k : models m M ->
  exists m', remove_entry m k = Some (m', (fun v => (k, v)) <$> M !! k) /\ models m' (delete k M) /\ settled m m'.
Proof.
  intros Hm. assert (Hwf := models_wf m M Hm). unfold remove_entry.
  destruct (get_index_ok m M k Hm) as [(i & v & -> & Hi & ->)|[Hk ->]]; cbn [mbind option_bind].
  - assert (Hlt := slot_lt m i k v Hwf Hi). unfold remove_by_index. rewrite set_metadata_lt by done. rewrite Hi. cbn [mbind option_bind].
    rewrite set_slot_lt by (rewrite (wf_length m Hwf); done). cbn [mbind option_bind].
    assert (Hp := holds_size m k v Hwf ltac:(by exists i)). destruct (size_bound m Hwf) as (Hs & Ha & _).
    assert (trunc32 (HashMap.size m - 1) = HashMap.size m + -1) as -> by (unfold trunc32; rewrite Z.mod_small; lia).
    assert (trunc32 (available m + 1) = available m - -1) as -> by (unfold trunc32; rewrite Z.mod_small; lia).
    eexists. split; [done|]. split; [|by apply (erase_settled m i k v)]. split; [by apply (erase_wf m i k v)|]. intros k' v'.
    rewrite (erase_holds m i k v) by done. rewrite (models_holds m M Hm), lookup_delete_Some. naive_solver.
  - rewrite Hk, delete_id by done. exists m. split; [done|]. split; [done | by apply settled_refl].
Qed.

Lemma remove_ok m M k : models m M -> exists m', remove m k = Some (m', M !! k) /\ models m' (delete k M) /\ settled m m'.
Proof.
  intros Hm. unfold remove. destruct (remove_entry_ok m M k Hm) as (m' & -> & Hm'). exists m'. split; [|done].
  by destruct (M !! k).
Qed.

Lemma clear_empties m M : models m M -> models (HashMap.clear m) ∅.
Proof.
  intros Hm. assert (Hw := models_wf m M Hm). unfold HashMap.clear. case_bool_decide as He.
  - assert (Hs : slots m = []) by (apply length_zero_iff_nil; rewrite (wf_length m Hw); unfold capacity; by rewrite He).
    split; [done|]. intros k v. rewrite lookup_empty. split; [|done]. intros [i Hi]. unfold slot in Hi. by rewrite Hs in Hi.
  - assert (Hz : HashMap.clear m = empty_table (capacity m)).
    { unfold HashMap.clear. rewrite bool_decide_false by done. unfold empty_table. f_equal.
      - by apply const_fmap.
      - rewrite <- (wf_length m Hw). by apply const_fmap. }
    unfold HashMap.clear in Hz. rewrite bool_decide_false in Hz by done. rewrite Hz. apply models_empty, (wf_cap m Hw).
Qed.

Lemma clear_ok m M : models m M -> models (HashMap.clear m) ∅ /\ settled m (HashMap.clear m).
Proof.
  intros Hm. assert (He := clear_empties m M Hm). split; [done|]. apply settled_intro; [apply He | |].
  - unfold HashMap.clear. case_bool_decide; [done | apply length_map].
  - intros i k v _. right. by eapply models_absent, lookup_empty.
Qed.

(** * Iterating *)

Lemma hash_collect_ok (md : list Z) (sl : list (option (K * V))) : Forall2 meta_ok sl md ->
  forall d i fuel, (i + d = length sl)%nat -> (length (omap id (drop i sl)) < fuel)%nat -> Z.of_nat (length (omap id (drop i sl))) < 2 ^ 32 ->
  collect fuel {| iter_metadata := md; iter_slots := sl; idx := i; remaining := Z.of_nat (length (omap id (drop i sl))) |} = Some (omap id (drop i sl)).
Proof.
  intros Hf. assert (Hl := Forall2_length _ _ _ Hf).
  assert (Hn : forall d i, (i + d = length sl)%nat ->
    match omap id (drop i sl) with
    | [] => True
    | kv :: rest => exists i', next_used (drop i md) i = Some i' /\ (i' < length sl)%nat /\ sl !! i' = Some (Some kv) /\ omap id (drop (S i') sl) = rest
    end).
  { induction d as [|d IH]; intros i Hi; [by rewrite drop_ge by lia|].
    destruct (lookup_lt_is_Some_2 sl i ltac:(lia)) as [s Hs]. destruct (Forall2_lookup_l _ _ _ _ _ Hf Hs) as (b & Hb & Hok).
    rewrite (drop_S _ _ _ Hs), (drop_S _ _ _ Hb). cbn [omap list_omap next_used id]. rewrite (meta_ok_used _ _ Hok).
    destruct s as [kv|]; [rewrite bool_decide_true by by eexists | rewrite bool_decide_false by by intros [? ?]].
    - exists i. split; [done|]. split; [lia | done].
    - apply (IH (S i)). lia. }
  intros d i fuel. revert d i. induction fuel as [|fuel IH]; intros d i Hi Hfu Hb; [lia|]. cbn [collect].
  unfold next. cbn [remaining]. specialize (Hn d i Hi). destruct (omap id (drop i sl)) as [|kv rest] eqn:He; [done|].
  destruct Hn as (i' & Hnu & Hlt & Hs & Hrest). cbn [length] in *. rewrite (proj2 (Z.eqb_neq _ _)) by lia. cbn [iter_metadata iter_slots idx].
  rewrite Hnu, Hs. cbn [mbind option_bind fst snd].
  replace (trunc32 (Z.of_nat (S (length rest)) - 1)) with (Z.of_nat (length (omap id (drop (S i') sl)))).
  2: { rewrite Hrest. unfold trunc32. rewrite Z.mod_small; lia. }
  rewrite (IH (length sl - S i')%nat (S i')); rewrite ?Hrest; [done | lia | lia | lia].
Qed.

Lemma collect_entries m : wf m -> collect (S (capacity m)) (iter m) = Some (entries m).
Proof.
  intros Hm. unfold iter. assert (He := wf_size m Hm). destruct (size_bound m Hm) as (Hs & _ & _). unfold entries in *.
  rewrite He. rewrite <- (drop_0 (slots m)) at 2. rewrite (hash_collect_ok _ _ (wf_meta m Hm) (length (slots m)) 0); rewrite ?drop_0; [done | done | | lia].
  rewrite <- (wf_length m Hm). assert (Hlen : forall l : list (option (K * V)), (length (omap id l) <= length l)%nat) by (by induction l as [|[|] l IH]; cbn in *; lia).
  specialize (Hlen (slots m)). lia.
Qed.

End Model.
