(* ===== verification/HashMapProps.v ===== *)
(** What the hash map promises: any run of its operations is a run of a finite
    map, its iterator gives each pair once, and reserved room is enough. *)
From stdpp Require Import fin_maps gmap.
From S2P Require Import Prelude HashMap HashMapSpec HashMapUpdate HashMapGrow HashMapModel.
Import HashMap.

(** * Runs of operations *)

Inductive Op (K V : Type) :=
| OpInsert (k : K) (v : V) | OpGetOrPut (k : K) (v : V) | OpOrInsertWith (k : K) (v : V)
| OpGet (k : K) | OpContains (k : K) | OpRemove (k : K) | OpRemoveEntry (k : K)
| OpEnsureTotal (n : Z) | OpEnsureUnused (n : Z) | OpClear | OpLen.
Arguments OpInsert {K V}. Arguments OpGetOrPut {K V}. Arguments OpOrInsertWith {K V}. Arguments OpGet {K V}.
Arguments OpContains {K V}. Arguments OpRemove {K V}. Arguments OpRemoveEntry {K V}. Arguments OpEnsureTotal {K V}.
Arguments OpEnsureUnused {K V}. Arguments OpClear {K V}. Arguments OpLen {K V}.

Inductive Reply (K V : Type) := RUnit | RValue (v : option V) | RRef (v : V) | RFound (b : bool) | REntry (e : option (K * V)) | RLen (n : Z).
Arguments RUnit {K V}. Arguments RValue {K V}. Arguments RRef {K V}. Arguments RFound {K V}. Arguments REntry {K V}. Arguments RLen {K V}.

Section Runs.
Context {K V : Type} `{Countable K} {C : HashContext K}.

(** An operation on the table. *)
Definition table_step (m : HashMap K V) (op : Op K V) : option (HashMap K V * Reply K V) :=
  match op with
  | OpInsert k v => r ← HashMap.insert m k v; Some (r.1, RValue r.2)
  | OpGetOrPut k v => r ← get_or_put m k v; Some (r.1, RValue r.2)
  | OpOrInsertWith k v => r ← (e ← entry m k; or_insert_with m e v); Some (r.1, RRef r.2)
  | OpGet k => r ← get m k; Some (m, RValue r)
  | OpContains k => r ← contains_key m k; Some (m, RFound r)
  | OpRemove k => r ← remove m k; Some (r.1, RValue r.2)
  | OpRemoveEntry k => r ← remove_entry m k; Some (r.1, REntry r.2)
  | OpEnsureTotal n => m ← ensure_total_capacity m n; Some (m, RUnit)
  | OpEnsureUnused n => m ← ensure_unused_capacity m n; Some (m, RUnit)
  | OpClear => Some (HashMap.clear m, RUnit)
  | OpLen => Some (m, RLen (len m))
  end.

Fixpoint table_run (m : HashMap K V) (ops : list (Op K V)) : option (HashMap K V * list (Reply K V)) :=
  match ops with
  | [] => Some (m, [])
  | op :: ops => r ← table_step m op; rs ← table_run r.1 ops; Some (rs.1, r.2 :: rs.2)
  end.

(** The same operation on the finite map. *)
Definition map_step (M : gmap K V) (op : Op K V) : gmap K V * Reply K V :=
  match op with
  | OpInsert k v => (<[k := v]> M, RValue (M !! k))
  | OpGetOrPut k v => (if M !! k then M else <[k := v]> M, RValue (M !! k))
  | OpOrInsertWith k v => (if M !! k then M else <[k := v]> M, RRef (default v (M !! k)))
  | OpGet k => (M, RValue (M !! k))
  | OpContains k => (M, RFound (bool_decide (is_Some (M !! k))))
  | OpRemove k => (delete k M, RValue (M !! k))
  | OpRemoveEntry k => (delete k M, REntry ((fun v => (k, v)) <$> M !! k))
  | OpEnsureTotal _ | OpEnsureUnused _ => (M, RUnit)
  | OpClear => (∅, RUnit)
  | OpLen => (M, RLen (Z.of_nat (base.size M)))
  end.

Fixpoint map_run (M : gmap K V) (ops : list (Op K V)) : gmap K V * list (Reply K V) :=
  match ops with
  | [] => (M, [])
  | op :: ops => let '(M, r) := map_step M op in let '(M, rs) := map_run M ops in (M, r :: rs)
  end.

(** The most entries the run asks room for: [2 ^ 30] fit a table whose size is a [u32]. *)
Definition op_fits (M : gmap K V) (op : Op K V) : bool :=
  match op with
  | OpInsert _ _ | OpGetOrPut _ _ | OpOrInsertWith _ _ => Z.of_nat (base.size M) <? 2 ^ 30
  | OpEnsureTotal n => (0 <=? n) && (n <=? 2 ^ 30)
  | OpEnsureUnused n => (0 <=? n) && (Z.of_nat (base.size M) + n <=? 2 ^ 30)
  | _ => true
  end.

Fixpoint ops_fit (M : gmap K V) (ops : list (Op K V)) : bool :=
  match ops with
  | [] => true
  | op :: ops => op_fits M op && ops_fit (map_step M op).1 ops
  end.

Fixpoint insert_all (m : HashMap K V) (kvs : list (K * V)) : option (HashMap K V) :=
  match kvs with
  | [] => Some m
  | (k, v) :: kvs => m ← put m k v; insert_all m kvs
  end.

Context {Cok : HashContextOk K}.

(** The free slots an operation asks for. *)
Definition op_need (m : HashMap K V) (op : Op K V) : Z :=
  match op with
  | OpInsert _ _ | OpGetOrPut _ _ | OpOrInsertWith _ _ => 1
  | OpEnsureTotal n => n - HashMap.size m
  | OpEnsureUnused n => n
  | _ => 0
  end.

Lemma table_step_ok m M op :
  models m M -> op_fits M op = true ->
  exists m', table_step m op = Some (m', (map_step M op).2) /\ models m' (map_step M op).1 /\ changes (op_need m op) m m'.
Proof.
  intros Hm Hf. assert (Hsz := models_size m M Hm). assert (Hrefl := settled_refl m (models_wf m M Hm)).
  destruct op as [k v|k v|k v|k|k|k|k|n|n| |]; cbn [op_fits table_step map_step op_need fst snd] in *; rewrite ?andb_true_iff, ?Z.leb_le, ?Z.ltb_lt in Hf.
  - destruct (insert_ok m M k v Hm ltac:(lia)) as (m' & -> & Hm'). by exists m'.
  - destruct (get_or_put_ok m M k v Hm ltac:(lia)) as (m' & -> & Hm'). by exists m'.
  - destruct (or_insert_with_ok m M k v Hm ltac:(lia)) as (m' & -> & Hm'). by exists m'.
  - rewrite (get_ok m M k Hm). exists m. split; [done|]. split; [done | by left].
  - rewrite (contains_key_ok m M k Hm). exists m. split; [done|]. split; [done | by left].
  - destruct (remove_ok m M k Hm) as (m' & -> & Hm' & Hs). exists m'. split; [done|]. split; [done | by left].
  - destruct (remove_entry_ok m M k Hm) as (m' & -> & Hm' & Hs). exists m'. split; [done|]. split; [done | by left].
  - destruct (table_ensure_total_ok m M n Hm ltac:(lia)) as (m' & -> & Hm' & _ & Hc). by exists m'.
  - unfold ensure_unused_capacity. destruct (table_ensure_total_ok m M (HashMap.size m + n) Hm ltac:(lia)) as (m' & -> & Hm' & _ & Hc).
    exists m'. split; [done|]. split; [done|]. by replace n with (HashMap.size m + n - HashMap.size m) at 1 by lia.
  - exists (HashMap.clear m). split; [done|]. destruct (clear_ok m M Hm). split; [done | by left].
  - exists m. unfold len. rewrite Hsz. split; [done|]. split; [done | by left].
Qed.

Lemma table_run_ok ops : forall m M,
  models m M -> ops_fit M ops = true -> exists m', table_run m ops = Some (m', (map_run M ops).2) /\ models m' (map_run M ops).1.
Proof.
  induction ops as [|op ops IH]; intros m M Hm Hf; cbn [table_run map_run ops_fit] in *; [by exists m|].
  apply andb_true_iff in Hf as [Hf1 Hf2]. destruct (table_step_ok m M op Hm Hf1) as (m1 & -> & Hm1 & _). cbn [mbind option_bind fst snd].
  destruct (map_step M op) as [M1 r]. cbn [fst snd] in *. destruct (IH m1 M1 Hm1 Hf2) as (m2 & -> & Hm2).
  destruct (map_run M1 ops) as [M2 rs]. by exists m2.
Qed.

Lemma load_bound (m : HashMap K V) : wf m -> HashMap.size m * 100 <= Z.of_nat (capacity m) * 80.
Proof.
  intros Hm. assert (Ha := wf_available m Hm). destruct (wf_cap m Hm) as [Hc|Hc].
  - destruct (size_bound m Hm) as (_ & _ & H0). destruct (H0 Hc). lia.
  - destruct (max_load_pow2 _ Hc) as [Hl _]. assert (Hd := Z.div_mod (Z.of_nat (capacity m) * 80) 100 ltac:(lia)).
    assert (Hr := Z.mod_pos_bound (Z.of_nat (capacity m) * 80) 100 ltac:(lia)). lia.
Qed.

Lemma settled_trans (m m1 m2 : HashMap K V) M1 : wf m2 -> models m1 M1 -> settled m m1 -> settled m1 m2 -> (forall k v, holds m k v -> is_Some (M1 !! k)) -> settled m m2.
Proof.
  intros Hw Hm1 [Hc1 H1] [Hc2 H2] Hk. split; [congruence|]. intros i k v v' Hi Hh. destruct (Hk k v ltac:(by exists i)) as [v1 Hv1].
  eapply H2, Hh. eapply H1, (models_holds m1 M1 Hm1); done.
Qed.

Lemma insert_all_ok kvs : forall m M,
  models m M -> Z.of_nat (length kvs) <= available m -> HashMap.size m + Z.of_nat (length kvs) <= 2 ^ 30 ->
  exists m', insert_all m kvs = Some m' /\ models m' (foldl (fun M kv => <[kv.1 := kv.2]> M) M kvs) /\ settled m m'.
Proof.
  induction kvs as [|[k v] kvs IH]; intros m M Hm Ha Hs; cbn [insert_all foldl length fst snd] in *.
  - exists m. split; [done|]. split; [done | by apply settled_refl, Hm].
  - unfold put. destruct (insert_ok m M k v Hm ltac:(lia)) as (m1 & -> & Hm1 & [Hst|[Hav _]]); [|lia]. cbn [mbind option_bind fst].
    assert (Hb := wf_available m (models_wf m M Hm)). assert (Hb1 := wf_available m1 (models_wf _ _ Hm1)). rewrite (proj1 Hst) in Hb1.
    assert (Hz := models_size _ _ Hm). assert (Hz1 := models_size _ _ Hm1).
    assert (Hi : (base.size (<[k := v]> M) <= S (base.size M))%nat).
    { destruct (M !! k) eqn:Hk; [rewrite map_size_insert_Some by (by eexists); lia | rewrite map_size_insert_None by done; lia]. }
    destruct (IH m1 _ Hm1 ltac:(lia) ltac:(lia)) as (m2 & -> & Hm2 & Hst2). exists m2. split; [done|]. split; [done|].
    eapply settled_trans; [apply Hm2 | exact Hm1 | done | done|]. intros k' v' Hh%(models_holds m M Hm).
    apply lookup_insert_is_Some. destruct (decide (k = k')); [by left | right; split; [done | by eexists]].
Qed.

End Runs.

(** A table of numbers that all hash to the same slots, for the examples. *)
#[export] Instance collide : HashContext Z := {| ctx_hash k := Z.land k 3; ctx_eql a b := a =? b |}.

#[export] Instance collide_ok : HashContextOk Z.
Proof.
  split; [intros a b; cbn; by destruct (Z.eqb_spec a b); case_bool_decide|]. intros k. cbn.
  change 3 with (Z.ones 2). rewrite Z.land_ones by lia. assert (Hm := Z.mod_pos_bound k (2 ^ 2) ltac:(lia)). lia.
Qed.

(** Twenty keys on four slots, two of them gone and one of these back, and the
    operations that look. *)
Definition sample_ops : list (Op Z Z) :=
  ((fun i => OpInsert i (i * i)) <$> seqZ 0 20) ++
  [OpRemove 3; OpRemoveEntry 8; OpInsert 3 7; OpGetOrPut 3 1; OpGetOrPut 50 1; OpOrInsertWith 51 2; OpGet 8; OpGet 19; OpContains 8;
   OpLen; OpEnsureUnused 40; OpInsert 4 0].

Definition small_ops : list (Op Z Z) := [OpInsert 1 10; OpInsert 5 50; OpRemove 1; OpEnsureTotal 3].

Example colliding_keys :
  option_map snd (table_run new sample_ops) = Some (map_run ∅ sample_ops).2.
Proof. vm_compute. reflexivity. Qed.

(** * The properties *)

(** C2: any sequence of operations on a new table, of at most [2 ^ 30] entries,
    runs to its end without a panic and replies what the same sequence on a
    finite map replies; looking up a key then gives what the final map has. *)
Theorem hash_map_refines {K V} `{Countable K} {C : HashContext K} {Cok : HashContextOk K} (ops : list (Op K V)) :
  ops_fit ∅ ops = true ->
  exists m, table_run new ops = Some (m, (map_run ∅ ops).2) /\ forall k, get m k = Some ((map_run ∅ ops).1 !! k).
Proof.
  intros Hf. destruct (table_run_ok ops new ∅ models_new Hf) as (m & Hr & Hm). exists m. split; [done|]. intros k. by apply get_ok.
Qed.

Lemma hash_map_refines_witness :
  ops_fit ∅ sample_ops = true /\
  exists m, table_run new sample_ops = Some (m, (map_run ∅ sample_ops).2) /\ forall k, get m k = Some ((map_run ∅ sample_ops).1 !! k).
Proof. split; [by vm_compute | apply (hash_map_refines sample_ops); by vm_compute]. Defined.

(** C18: after any such sequence the iterator gives each pair of the finite map
    exactly once, and no other; its keys are distinct and [len] is their number. *)
Theorem iter_each_once {K V} `{Countable K} {C : HashContext K} {Cok : HashContextOk K} (ops : list (Op K V)) :
  ops_fit ∅ ops = true ->
  exists m rs l, table_run new ops = Some (m, rs) /\ collect (S (capacity m)) (iter m) = Some l /\
    l ≡ₚ map_to_list (map_run ∅ ops).1 /\ keys m = Some l.*1 /\ values m = Some l.*2 /\ NoDup l.*1 /\ len m = Z.of_nat (length l).
Proof.
  intros Hf. destruct (table_run_ok ops new ∅ models_new Hf) as (m & Hr & Hm). assert (Hw := models_wf _ _ Hm).
  eexists m, _, (entries m). split; [done|]. unfold keys, values. rewrite collect_entries by done. split; [done|].
  split; [by apply models_perm|]. split; [done|]. split; [done|]. split; [by apply entries_nodup | by apply wf_size].
Qed.

Lemma iter_each_once_witness :
  ops_fit ∅ sample_ops = true /\
  exists m rs l, table_run new sample_ops = Some (m, rs) /\ collect (S (capacity m)) (iter m) = Some l /\
    l ≡ₚ map_to_list (map_run ∅ sample_ops).1 /\ keys m = Some l.*1 /\ values m = Some l.*2 /\ NoDup l.*1 /\ len m = Z.of_nat (length l).
Proof. split; [by vm_compute | apply (iter_each_once sample_ops); by vm_compute]. Defined.

(** C19: the table is empty or a power of two of slots, at most 80% of them used,
    and an operation moves no pair and keeps the capacity, unless fewer slots
    were available than it asks for: then the table gets strictly larger. *)
Theorem pairs_move_only_to_grow {K V} `{Countable K} {C : HashContext K} {Cok : HashContextOk K} (ops : list (Op K V)) (op : Op K V) m rs :
  ops_fit ∅ (ops ++ [op]) = true -> table_run new ops = Some (m, rs) ->
  (capacity m = 0%nat \/ pow2 (capacity m)) /\ HashMap.size m * 100 <= Z.of_nat (capacity m) * 80 /\
  exists m' r, table_step m op = Some (m', r) /\
    ((capacity m' = capacity m /\ forall i k v v', slot m i k v -> get m' k = Some (Some v') -> slot m' i k v') \/
     (available m < op_need m op /\ (capacity m < capacity m')%nat)).
Proof.
  intros Hf Hr. assert (Hfit : ops_fit ∅ ops = true /\ op_fits (map_run ∅ ops).1 op = true).
  { clear Hr. revert Hf. generalize (∅ : gmap K V). induction ops as [|o ops IH]; intros M; cbn [app ops_fit map_run fst].
    - by rewrite andb_true_r.
    - intros [-> Hf]%andb_true_iff. destruct (IH _ Hf) as [-> H2]. split; [done|]. destruct (map_step M o) as [M1 r1]. cbn [fst] in *.
      by destruct (map_run M1 ops). }
  destruct Hfit as [Hf1 Hf2]. destruct (table_run_ok ops new ∅ models_new Hf1) as (m0 & Hr0 & Hm). rewrite Hr in Hr0. injection Hr0 as <- _.
  assert (Hw := models_wf _ _ Hm). split; [apply (wf_cap m Hw)|]. split; [by apply load_bound|].
  destruct (table_step_ok m _ op Hm Hf2) as (m' & Hs & Hm' & Hc). exists m', (map_step (map_run ∅ ops).1 op).2. split; [done|].
  destruct Hc as [[Hc Hp]|Hc]; [left | by right]. split; [done|]. intros i k v v' Hi Hg. apply (Hp i k v v' Hi).
  apply (models_holds _ _ Hm'). rewrite (get_ok m' _ k Hm') in Hg. congruence.
Qed.

Lemma pairs_move_only_to_grow_witness :
  let m := default new (option_map fst (table_run new small_ops)) in
  (capacity m = 0%nat \/ pow2 (capacity m)) /\ HashMap.size m * 100 <= Z.of_nat (capacity m) * 80 /\
  exists m' r, table_step m (OpInsert 9 90) = Some (m', r) /\
    ((capacity m' = capacity m /\ forall i k v v', slot m i k v -> get m' k = Some (Some v') -> slot m' i k v') \/
     (available m < op_need m (OpInsert 9 90) /\ (capacity m < capacity m')%nat)).
Proof.
  intros m. apply (pairs_move_only_to_grow small_ops (OpInsert 9 90) m (default [] (option_map snd (table_run new small_ops)))); by vm_compute.
Defined.

(** After [ensure_unused_capacity n] on any table a run reaches, inserting [n]
    pairs succeeds and moves nothing. *)
Theorem reserved_room_stays {K V} `{Countable K} {C : HashContext K} {Cok : HashContextOk K} (ops : list (Op K V)) (kvs : list (K * V)) m rs :
  ops_fit ∅ ops = true -> table_run new ops = Some (m, rs) -> HashMap.size m + Z.of_nat (length kvs) <= 2 ^ 30 ->
  exists m1 m2, ensure_unused_capacity m (Z.of_nat (length kvs)) = Some m1 /\ insert_all m1 kvs = Some m2 /\ settled m1 m2 /\
    forall k, get m2 k = Some (foldl (fun M kv => <[kv.1 := kv.2]> M) (map_run ∅ ops).1 kvs !! k).
Proof.
  intros Hf Hr Hs. destruct (table_run_ok ops new ∅ models_new Hf) as (m0 & Hr0 & Hm). rewrite Hr in Hr0. injection Hr0 as <- _.
  destruct (table_ensure_total_ok m _ (HashMap.size m + Z.of_nat (length kvs)) Hm) as (m1 & He & Hm1 & Hn & _).
  { assert (Hp := wf_size_pos m (models_wf _ _ Hm)). lia. }
  assert (Hz := models_size _ _ Hm). assert (Hz1 := models_size _ _ Hm1).
  destruct (insert_all_ok kvs m1 _ Hm1 ltac:(lia) ltac:(lia)) as (m2 & Hi & Hm2 & Hst). exists m1, m2.
  split; [done|]. split; [done|]. split; [done|]. intros k. by apply get_ok.
Qed.
