(* ===== verification/Hoist.v ===== *)
(** src/src/install/lockfile/Tree.rs and the functions around it: the packages
    of a lockfile placed into a tree of node_modules folders.

    Ids are u32, as Z; [None] of an option is a panic. *)
From stdpp Require Import gmap.
From S2P Require Import Prelude BunCore SemverString SemverVersion SemverQuery Glob Paths.

Definition invalid_package_id : Z := U32_MAX.
Definition invalid_dependency_id : Z := U32_MAX.
Definition ROOT_DEP_ID : Z := invalid_package_id - 1.
Definition INVALID_ID : Z := U32_MAX.

(** [l[i as usize]]. *)
Definition index {A} (l : list A) (i : Z) : option A := l !! Z.to_nat i.

Record ExternalSlice := { sl_off : Z; sl_len : Z }.

Definition slice_contains (s : ExternalSlice) (id : Z) : bool := (sl_off s <=? id) && (id <? sl_len s + sl_off s).
Definition slice_get {A} (s : ExternalSlice) (l : list A) : option (list A) :=
  slice l (Z.to_nat (sl_off s)) (Nat.min (length l) (Z.to_nat (sl_off s + sl_len s))).
Definition slice_begin (s : ExternalSlice) : Z := sl_off s.
Definition slice_end (s : ExternalSlice) : Z := trunc32 (sl_off s + sl_len s).

(** * Behaviour of a dependency: the bits of a u8 *)

Definition PROD : Z := 2.
Definition OPTIONAL : Z := 4.
Definition DEV : Z := 8.
Definition PEER : Z := 16.
Definition WORKSPACE : Z := 32.
Definition BUNDLED : Z := 64.

Definition has_flag (b flag : Z) : bool := Z.land b flag =? flag.
Definition is_prod (b : Z) : bool := has_flag b PROD.
Definition is_optional (b : Z) : bool := has_flag b OPTIONAL && negb (has_flag b PEER).
Definition is_optional_peer (b : Z) : bool := has_flag b OPTIONAL && has_flag b PEER.
Definition is_dev (b : Z) : bool := has_flag b DEV.
Definition is_peer (b : Z) : bool := has_flag b PEER.
Definition is_workspace (b : Z) : bool := has_flag b WORKSPACE.
Definition is_bundled (b : Z) : bool := has_flag b BUNDLED.

Record Features := {
  optional_dependencies : bool; dev_dependencies : bool; peer_dependencies : bool; workspaces : bool }.

Definition is_enabled (b : Z) (f : Features) : bool :=
  is_prod b || (optional_dependencies f && is_optional b) || (dev_dependencies f && is_dev b) ||
  (peer_dependencies f && is_peer b) || (workspaces f && is_workspace b).

(** The side with the flag comes first. *)
Definition flag_first (flag : Z -> bool) (l r : Z) (rest : comparison) : comparison :=
  if negb (Bool.eqb (flag l) (flag r)) then (if flag l then Lt else Gt) else rest.

Definition behavior_cmp (l r : Z) : comparison :=
  if l =? r then Eq
  else flag_first is_workspace l r (flag_first is_dev l r (flag_first is_optional l r
         (flag_first is_prod l r (flag_first is_peer l r Eq)))).

(** * The lockfile *)

(** The payloads of the other tags are not read here. *)
Inductive DependencyVersion :=
| DUninitialized | DNpm (version : Group) | DDistTag | DTarball | DFolder | DSymlink | DWorkspace | DGit | DGithub | DCatalog.

Inductive Resolution :=
| RUninitialized | RRoot | RNpm (version : VersionType) | RFolder | RLocalTarball | RGithub | RGit | RSymlink
| RWorkspace (path : SemverString) | RRemoteTarball | RSingleFileModule.

Definition is_folder (r : Resolution) : bool := match r with RFolder => true | _ => false end.

Record Dependency := { name_hash : Z; name : SemverString; version : DependencyVersion; behavior : Z }.

Record Meta := { meta_arch : Z; meta_os : Z }.

(** [Architecture::is_match], [OperatingSystem::is_match]. *)
Definition is_match (a target : Z) : bool := negb (Z.land a target =? 0).
Definition is_disabled (m : Meta) (cpu os : Z) : bool := negb (is_match (meta_arch m) cpu) || negb (is_match (meta_os m) os).

Record Package := {
  package_name : SemverString; resolution : Resolution; package_dependencies : ExternalSlice;
  package_resolutions : ExternalSlice; meta : Meta }.

Record Tree := { id : Z; dependency_id : Z; parent : Z; tree_dependencies : ExternalSlice }.

Record Lockfile := {
  packages : list Package; dependencies : list Dependency; buf_resolutions : list Z; string_bytes : bytes;
  trees : list Tree; hoisted_dependencies : list Z }.

Definition is_workspace_root_dependency (lf : Lockfile) (id : Z) : option bool :=
  p ← index (packages lf) 0; Some (slice_contains (package_dependencies p) id).

(** [is_safe_install_folder_name]. *)
Definition safe_char (c : Z) : bool := negb ((c =? #"\") || (c =? #":") || (c =? 0)).
Definition safe_component (c : bytes) : bool :=
  negb (bool_decide (c = []) || bool_decide (c = b!".") || bool_decide (c = b!"..")) && forallb safe_char c.
Definition is_safe_install_folder_name (name : bytes) : bool :=
  if bool_decide (name = []) then false else forallb safe_component (split_on #"/" name).

Definition dep_is_less_than (lf : Lockfile) (l r : Z) : option bool :=
  l_dep ← index (dependencies lf) l;
  r_dep ← index (dependencies lf) r;
  Some (match behavior_cmp (behavior l_dep) (behavior r_dep) with
        | Lt => true
        | Gt => false
        | Eq =>
          match order (string_slice (name l_dep) (string_bytes lf)) (string_slice (name r_dep) (string_bytes lf)) with
          | Lt => true | _ => false
          end
        end).

(** * The builder *)

Inductive WorkspaceFilter := All | Name (pattern : bytes) | Path (pattern : bytes).

(** What [Filter] reads of the package manager and of the arguments of [Lockfile::filter]. *)
Record FilterOptions := {
  cpu : Z; os : Z; local_package_features : Features; remote_package_features : Features;
  subcommand_is_install : bool; install_root_dependencies : bool; workspace_filters : list WorkspaceFilter;
  packages_to_install : option (list Z); top_level_dir : bytes }.

Inductive BuilderMethod := Resolvable | Filter (opts : FilterOptions).

Record BuilderEntry := { tree : Tree; entry_dependencies : list Z }.

Record FillItem := { item_tree_id : Z; item_dependency_id : Z; item_hoist_root_id : Z }.

Inductive LogMsg := InvalidDependencyName (dep_id : Z) | HasDependencyLoop (package_id res_id dep_id : Z).

(** The lockfile and the fixed fields of the Rust builder are arguments of its functions. *)
Record Builder := {
  list_ : list BuilderEntry; resolutions : list Z; queue : list FillItem;
  pending_optional_peers : gmap Z (list Z); log : list LogMsg }.

Definition with_list (b : Builder) (l : list BuilderEntry) : Builder :=
  {| list_ := l; resolutions := resolutions b; queue := queue b; pending_optional_peers := pending_optional_peers b; log := log b |}.
Definition with_resolutions (b : Builder) (r : list Z) : Builder :=
  {| list_ := list_ b; resolutions := r; queue := queue b; pending_optional_peers := pending_optional_peers b; log := log b |}.
Definition with_queue (b : Builder) (q : list FillItem) : Builder :=
  {| list_ := list_ b; resolutions := resolutions b; queue := q; pending_optional_peers := pending_optional_peers b; log := log b |}.
Definition with_pending (b : Builder) (p : gmap Z (list Z)) : Builder :=
  {| list_ := list_ b; resolutions := resolutions b; queue := queue b; pending_optional_peers := p; log := log b |}.
Definition with_log (b : Builder) (m : LogMsg) : Builder :=
  {| list_ := list_ b; resolutions := resolutions b; queue := queue b; pending_optional_peers := pending_optional_peers b; log := log b ++ [m] |}.

Definition write_item (b : Builder) (i : FillItem) : Builder := with_queue b (queue b ++ [i]).

Inductive HoistDependencyResult :=
| DependencyLoop | Hoisted | Resolve (id : Z) | ResolveReplace (id dep_id : Z) | ResolveLater | Placement (id : Z) (bundled : bool).

(** [sort_unstable_by] leaves open how equal elements are ordered. *)
Class UnstableSort := { sort_unstable_by : forall A, (A -> A -> comparison) -> list A -> list A }.

Section Hoist.
(** [MAX_PATH_BYTES] and the contents of a buffer of the pool are those of [Paths]; the target is not Windows. *)
Context {F : ByteSearch} {US : UnstableSort} (MAX_PATH_BYTES : Z) (pool : bytes) (lf : Lockfile).

(** * What [Filter] leaves out *)

(** [trim_input(Abs, ..)]. *)
Definition root_len (input : bytes) : nat := if at_ input 0 =? #"/" then 1 else 0.
Fixpoint trim_trailing (root : nat) (rev_input : bytes) : bytes :=
  match rev_input with
  | c :: rest => if (root <? length rev_input)%nat && (c =? #"/") then trim_trailing root rest else rev_input
  | [] => []
  end.
Definition trim_abs (input : bytes) : bytes := rev (trim_trailing (root_len input) (rev input)).

(** [AbsPath::init_top_level_dir()] joined with the path of a workspace. *)
Definition filter_path (top_level_dir workspace : bytes) : option bytes :=
  let initial := map (fun c => if (c =? #"/") || (c =? #"\") then #"/" else c) (trim_abs top_level_dir) in
  r ← join_abs_string_buf false MAX_PATH_BYTES pool Posix initial pool [workspace];
  Some (trim_abs r.2).

Fixpoint workspace_matches (opts : FilterOptions) (filters : list WorkspaceFilter) (pkg_name : bytes) (res : Resolution)
    (workspace_matched : bool) : option (option bool) :=
  match filters with
  | [] => Some (Some workspace_matched)
  | filter :: filters =>
    p ← (match filter with
         | All => Some None
         | Name name_pattern => Some (Some (Some (name_pattern, pkg_name)))
         | Path path_pattern =>
           match res with
           | RWorkspace w =>
             path ← filter_path (top_level_dir opts) (string_slice w (string_bytes lf));
             Some (Some (Some (path_pattern, path)))
           | _ => Some (Some None)
           end
         end);
    match p with
    | None => workspace_matches opts filters pkg_name res true
    | Some None => Some None
    | Some (Some (pattern, name_or_path)) =>
      m ← glob_match false pattern name_or_path;
      match m with
      | Match | NegateMatch => workspace_matches opts filters pkg_name res true
      | NegateNoMatch => Some (Some false)
      | NoMatch => workspace_matches opts filters pkg_name res workspace_matched
      end
    end
  end.

Definition is_filtered_dependency_or_workspace (opts : FilterOptions) (resolutions : list Z) (dep_id parent_pkg_id : Z) : option bool :=
  pkg_id ← index resolutions dep_id;
  dep ← index (dependencies lf) dep_id;
  if Z.of_nat (length (packages lf)) <=? pkg_id then Some (negb (is_optional_peer (behavior dep)))
  else
    pkg ← index (packages lf) pkg_id;
    parent_pkg ← index (packages lf) parent_pkg_id;
    if is_disabled (meta pkg) (cpu opts) (os opts) then Some true
    else if is_bundled (behavior dep) then Some true
    else
      let dep_features :=
        match resolution parent_pkg with
        | RRoot | RWorkspace _ | RFolder => local_package_features opts
        | _ => remote_package_features opts
        end in
      if negb (is_enabled (behavior dep) dep_features) then Some true
      else if negb (subcommand_is_install opts) || negb (parent_pkg_id =? 0) then Some false
      else if negb (is_workspace (behavior dep)) then Some (negb (install_root_dependencies opts))
      else
        m ← workspace_matches opts (workspace_filters opts) (string_slice (package_name pkg) (string_bytes lf)) (resolution pkg)
              (bool_decide (workspace_filters opts = []));
        Some (match m with None => false | Some workspace_matched => negb workspace_matched end).

(** Whether the rest of the loop body is skipped for [dep_id]. *)
Definition skipped_by_filter (METHOD : BuilderMethod) (b : Builder) (parent_pkg_id dep_id pkg_id : Z) : option bool :=
  match METHOD with
  | Resolvable => Some false
  | Filter opts =>
    f ← is_filtered_dependency_or_workspace opts (resolutions b) dep_id parent_pkg_id;
    if (f : bool) then Some true
    else if pkg_id =? invalid_package_id then Some true
    else
      match packages_to_install opts with
      | Some l => Some ((parent_pkg_id =? 0) && negb (existsb (Z.eqb pkg_id) l))
      | None => Some false
      end
  end.

(** * [hoist_dependency] *)

(** Whether the peer dependency takes the package [res_id] that [dep_id] has. *)
Definition peer_hoists (dep_id res_id : Z) (dependency : Dependency) : option bool :=
  satisfied ← (match version dependency with
               | DNpm range =>
                 res ← index (packages lf) res_id;
                 match resolution res with
                 | RNpm v => group_satisfies v (string_bytes lf) (string_bytes lf) range
                 | _ => Some false
                 end
               | _ => Some false
               end);
  if (satisfied : bool) then Some true else is_workspace_root_dependency lf dep_id.

(** A dependency [dep_id] of the same name is in the folder [this_id]. *)
Definition same_name (b : Builder) (AS_DEFINED : bool) (this_id dep_id package_id input_dep_id : Z) (dep dependency : Dependency) :
    option (Result HoistDependencyResult LogMsg) :=
  res_id ← index (resolutions b) dep_id;
  if (res_id =? invalid_package_id) && (package_id =? invalid_package_id) then Some (Ok ResolveLater)
  else if res_id =? invalid_package_id then Some (Ok (ResolveReplace this_id dep_id))
  else if package_id =? invalid_package_id then Some (Ok (Resolve res_id))
  else if res_id =? package_id then Some (Ok Hoisted)
  else if AS_DEFINED && negb (Bool.eqb (is_dev (behavior dep)) (is_dev (behavior dependency))) then Some (Ok Hoisted)
  else
    peer ← (if is_peer (behavior dependency) then peer_hoists dep_id res_id dependency else Some false);
    if (peer : bool) then Some (Ok Hoisted)
    else if AS_DEFINED && negb (is_peer (behavior dep)) then Some (Err (HasDependencyLoop package_id res_id input_dep_id))
    else Some (Ok DependencyLoop).

(** The first dependency of that name in a folder. *)
Fixpoint find_name (deps : list Z) (target_name_hash : Z) : option (option (Z * Dependency)) :=
  match deps with
  | [] => Some None
  | dep_id :: deps =>
    dep ← index (dependencies lf) dep_id;
    if name_hash dep =? target_name_hash then Some (Some (dep_id, dep)) else find_name deps target_name_hash
  end.

(** The message of an error has been logged when it is returned. *)
Fixpoint hoist_dependency (fuel : nat) (AS_DEFINED : bool) (b : Builder) (self_id hoist_root_id package_id input_dep_id : Z) :
    option (Result HoistDependencyResult LogMsg) :=
  match fuel with
  | O => None
  | S fuel =>
    dependency ← index (dependencies lf) input_dep_id;
    e ← index (list_ b) self_id;
    let this := tree e in
    this_deps ← slice_get (tree_dependencies this) (entry_dependencies e);
    found ← find_name this_deps (name_hash dependency);
    match found with
    | Some (dep_id, dep) => same_name b AS_DEFINED (id this) dep_id package_id input_dep_id dep dependency
    | None =>
      let place := Some (Ok (Placement (id this) false)) in
      if negb (parent this =? INVALID_ID) && negb (id this =? hoist_root_id) then
        r ← hoist_dependency fuel false b (parent this) hoist_root_id package_id input_dep_id;
        match r with
        | Err _ => None
        | Ok DependencyLoop => if AS_DEFINED then place else Some (Ok DependencyLoop)
        | Ok r => Some (Ok r)
        end
      else place
    end
  end.

(** * [process_subtree] *)

(** [resolutions[id] = pkg]. *)
Definition set_resolution (b : Builder) (dep_id pkg : Z) : option Builder :=
  if decide (Z.to_nat dep_id < length (resolutions b))%nat
  then Some (with_resolutions b (<[Z.to_nat dep_id := pkg]> (resolutions b))) else None.

Fixpoint set_resolutions (b : Builder) (dep_ids : list Z) (pkg : Z) : option Builder :=
  match dep_ids with
  | [] => Some b
  | dep_id :: dep_ids => b ← set_resolution b dep_id pkg; set_resolutions b dep_ids pkg
  end.

(** The pending optional peers of that name take the package. *)
Definition resolve_pending (b : Builder) (name_hash pkg : Z) : option Builder :=
  match pending_optional_peers b !! name_hash with
  | None => Some b
  | Some peers => set_resolutions (with_pending b (delete name_hash (pending_optional_peers b))) peers pkg
  end.

Definition update_entry (b : Builder) (i : Z) (f : BuilderEntry -> BuilderEntry) : option Builder :=
  e ← index (list_ b) i; Some (with_list b (<[Z.to_nat i := f e]> (list_ b))).

Definition replace_dep (old new : Z) (e : BuilderEntry) : BuilderEntry :=
  {| tree := tree e; entry_dependencies := map (fun d => if d =? old then new else d) (entry_dependencies e) |}.

Definition push_dep (dep_id : Z) (e : BuilderEntry) : BuilderEntry :=
  let t := tree e in
  {| tree := {| id := id t; dependency_id := dependency_id t; parent := parent t;
                tree_dependencies := {| sl_off := sl_off (tree_dependencies t); sl_len := trunc32 (sl_len (tree_dependencies t) + 1) |} |};
     entry_dependencies := entry_dependencies e ++ [dep_id] |}.

(** Queue the subtree of a package that has dependencies. *)
Definition queue_subtree (b : Builder) (pkg_id : Z) (item : FillItem) : option Builder :=
  if pkg_id =? invalid_package_id then Some b
  else p ← index (packages lf) pkg_id; Some (if 0 <? sl_len (package_resolutions p) then write_item b item else b).

Definition apply_hoisted (b : Builder) (hoist_root_id pkg_id dep_id : Z) (dependency : Dependency) (h : HoistDependencyResult) : option Builder :=
  match h with
  | DependencyLoop | Hoisted => Some b
  | Resolve res_id => b ← set_resolution b dep_id res_id; resolve_pending b (name_hash dependency) res_id
  | ResolveReplace replace_id replace_dep_id =>
    b ← set_resolution b replace_dep_id pkg_id;
    b ← resolve_pending b (name_hash dependency) pkg_id;
    b ← update_entry b replace_id (replace_dep replace_dep_id dep_id);
    queue_subtree b pkg_id {| item_tree_id := replace_id; item_dependency_id := dep_id; item_hoist_root_id := hoist_root_id |}
  | ResolveLater =>
    let peers := default [] (pending_optional_peers b !! name_hash dependency) in
    let peers := if existsb (Z.eqb dep_id) peers then peers else peers ++ [dep_id] in
    Some (with_pending b (<[name_hash dependency := peers]> (pending_optional_peers b)))
  | Placement dest bundled =>
    b ← update_entry b dest (push_dep dep_id);
    queue_subtree b pkg_id
      {| item_tree_id := dest; item_dependency_id := dep_id; item_hoist_root_id := if bundled : bool then dest else hoist_root_id |}
  end.

(** Where the dependency goes; [None] when it is skipped. *)
Definition hoisted_result (b : Builder) (next_id hoist_root_id pkg_id dep_id : Z) (dependency : Dependency) :
    option (option (Result HoistDependencyResult LogMsg)) :=
  let hoist := h ← hoist_dependency (length (list_ b)) true b next_id hoist_root_id pkg_id dep_id; Some (Some h) in
  if is_bundled (behavior dependency) then Some (Some (Ok (Placement next_id true)))
  else if pkg_id =? invalid_package_id then (if is_optional_peer (behavior dependency) then hoist else Some None)
  else
    p ← index (packages lf) pkg_id;
    if is_folder (resolution p) then Some (Some (Ok (Placement next_id false))) else hoist.

(** One round of ['dep]; [false] when it returns the error. *)
Definition process_dep (METHOD : BuilderMethod) (b : Builder) (next_id hoist_root_id parent_pkg_id dep_id : Z) : option (Builder * bool) :=
  pkg_id ← index (resolutions b) dep_id;
  skip ← skipped_by_filter METHOD b parent_pkg_id dep_id pkg_id;
  if (skip : bool) then Some (b, true)
  else
    dependency ← index (dependencies lf) dep_id;
    let dependency_name := string_slice (name dependency) (string_bytes lf) in
    if negb (bool_decide (dependency_name = [])) && negb (is_safe_install_folder_name dependency_name)
    then Some (with_log b (InvalidDependencyName dep_id), true)
    else
      h ← hoisted_result b next_id hoist_root_id pkg_id dep_id dependency;
      match h with
      | None => Some (b, true)
      | Some (Err m) => Some (with_log b m, false)
      | Some (Ok h) => b ← apply_hoisted b hoist_root_id pkg_id dep_id dependency h; Some (b, true)
      end.

Fixpoint process_deps (METHOD : BuilderMethod) (b : Builder) (next_id hoist_root_id parent_pkg_id : Z) (sort_buf : list Z) : option (Builder * bool) :=
  match sort_buf with
  | [] => Some (b, true)
  | dep_id :: sort_buf =>
    r ← process_dep METHOD b next_id hoist_root_id parent_pkg_id dep_id;
    if (r.2 : bool) then process_deps METHOD r.1 next_id hoist_root_id parent_pkg_id sort_buf else Some r
  end.

Definition sort_cmp (l r : Z) : comparison :=
  if default false (dep_is_less_than lf l r) then Lt else if default false (dep_is_less_than lf r l) then Gt else Eq.

(** The ids of the resolution list, each of which the sort looks up. *)
Definition sorted_deps (resolution_list : ExternalSlice) : option (list Z) :=
  let begin_ := slice_begin resolution_list in
  let ids := seqZ begin_ (slice_end resolution_list - begin_) in
  if bool_decide (Forall (fun i => (Z.to_nat i < length (dependencies lf))%nat) ids) then Some (sort_unstable_by Z sort_cmp ids) else None.

Definition process_subtree (METHOD : BuilderMethod) (b : Builder) (self_id dep_id hoist_root_id : Z) : option (Builder * bool) :=
  parent_pkg_id ← (if dep_id =? ROOT_DEP_ID then Some 0 else index (resolutions b) dep_id);
  p ← index (packages lf) parent_pkg_id;
  let resolution_list := package_resolutions p in
  if sl_len resolution_list =? 0 then Some (b, true)
  else
    let next_id := trunc32 (Z.of_nat (length (list_ b))) in
    let next := {| id := next_id; dependency_id := dep_id; parent := self_id; tree_dependencies := {| sl_off := 0; sl_len := 0 |} |} in
    sort_buf ← sorted_deps resolution_list;
    r ← process_deps METHOD (with_list b (list_ b ++ [{| tree := next; entry_dependencies := [] |}])) next_id hoist_root_id parent_pkg_id sort_buf;
    if (r.2 : bool) then
      e ← index (list_ r.1) next_id;
      Some (if sl_len (tree_dependencies (tree e)) =? 0 then with_list r.1 (take (length (list_ r.1) - 1) (list_ r.1)) else r.1, true)
    else Some r.

(** * [Lockfile::hoist] *)

(** [clean]: the folders flattened into one list. *)
Fixpoint clean (resolutions : list Z) (l : list BuilderEntry) (dep_ids : list Z) : option (list Tree * list Z) :=
  match l with
  | [] => Some ([], dep_ids)
  | e :: l =>
    pkgs ← mapM (index resolutions) (entry_dependencies e);
    let kept := (filter (fun p => p.2 <> invalid_package_id) (zip (entry_dependencies e) pkgs)).*1 in
    let off := trunc32 (Z.of_nat (length dep_ids)) in
    let dep_ids := dep_ids ++ kept in
    let t := tree e in
    r ← clean resolutions l dep_ids;
    Some ({| id := id t; dependency_id := dependency_id t; parent := parent t;
             tree_dependencies := {| sl_off := off; sl_len := trunc32 (trunc32 (Z.of_nat (length dep_ids)) - off) |} |} :: r.1, r.2)
  end.

(** How the loop over the queue ends; [OutOfFuel] when it has not. *)
Inductive Outcome := Finished (b : Builder) | Failed (b : Builder) | Panicked | OutOfFuel (b : Builder).

Fixpoint hoist_loop (fuel : nat) (METHOD : BuilderMethod) (b : Builder) : Outcome :=
  match queue b with
  | [] => Finished b
  | item :: rest =>
    match fuel with
    | O => OutOfFuel b
    | S fuel =>
      let b := with_queue b rest in
      match index (list_ b) (item_tree_id item) with
      | None => Panicked
      | Some e =>
        match process_subtree METHOD b (id (tree e)) (item_dependency_id item) (item_hoist_root_id item) with
        | None => Panicked
        | Some (b, true) => hoist_loop fuel METHOD b
        | Some (b, false) => Failed b
        end
      end
    end
  end.

Definition builder_init : Builder :=
  {| list_ := []; resolutions := buf_resolutions lf; queue := []; pending_optional_peers := ∅; log := [] |}.

Definition hoist_builder (fuel : nat) (METHOD : BuilderMethod) : Outcome :=
  match process_subtree METHOD builder_init INVALID_ID ROOT_DEP_ID INVALID_ID with
  | None => Panicked
  | Some (b, true) => hoist_loop fuel METHOD b
  | Some (b, false) => Failed b
  end.

(** The lockfile with its trees; [None] when the loop does not finish well. *)
Definition hoist (fuel : nat) (METHOD : BuilderMethod) : option Lockfile :=
  match hoist_builder fuel METHOD with
  | Finished b =>
    c ← clean (resolutions b) (list_ b) [];
    Some {| packages := packages lf; dependencies := dependencies lf; buf_resolutions := resolutions b; string_bytes := string_bytes lf;
            trees := c.1; hoisted_dependencies := c.2 |}
  | _ => None
  end.

End Hoist.
