(* ===== verification/HoistSpec.v ===== *)
(** Hoisting against the resolution of Node: where a require finds a package,
    and what placing one dependency does to that. *)
From stdpp Require Import gmap list.
From S2P Require Import Prelude BunCore SemverString SemverVersion SemverQuery Glob Paths Hoist.

(** * Folders, and looking a name up from one *)

Section Lookup.
Context (lf : Lockfile).

(** The hash of the name of a dependency. *)
Definition dep_hash (d : Z) : option Z := name_hash <$> index (dependencies lf) d.

Definition in_folder (deps : list Z) (h : Z) : option Z := snd <$> list_find (fun d => dep_hash d = Some h) deps.

(** The folder and the dependency that a require of the name [h] finds from
    the folder [i] up, as Node looks from node_modules to node_modules. *)
Fixpoint lookup_up (fuel : nat) (l : list BuilderEntry) (i h : Z) : option (Z * Z) :=
  match fuel with
  | O => None
  | S fuel =>
    e ← index l i;
    match in_folder (entry_dependencies e) h with
    | Some d => Some (i, d)
    | None => if parent (tree e) =? INVALID_ID then None else lookup_up fuel l (parent (tree e)) h
    end
  end.

Definition node_lookup (l : list BuilderEntry) (i h : Z) : option (Z * Z) := lookup_up (length l) l i h.

(** The node_modules folder of the package that is the dependency [d] in folder [t]. *)
Definition own_folder (l : list BuilderEntry) (t d : Z) : option nat :=
  fst <$> list_find (fun e => parent (tree e) = t /\ dependency_id (tree e) = d) l.

(** What a require of [h] finds from the files of that package. *)
Definition require (l : list BuilderEntry) (t d h : Z) : option (Z * Z) :=
  node_lookup l (default t (Z.of_nat <$> own_folder l t d)) h.

(** * Lists of folders as the builder makes them *)

Record entry_ok (n : nat) (e : BuilderEntry) : Prop := {
  entry_id : id (tree e) = Z.of_nat n;
  entry_parent : (n = 0%nat /\ parent (tree e) = INVALID_ID) \/ 0 <= parent (tree e) < Z.of_nat n;
  entry_slice : sl_off (tree_dependencies (tree e)) = 0 /\ sl_len (tree_dependencies (tree e)) = Z.of_nat (length (entry_dependencies e));
  entry_range : Forall (fun d => 0 <= d < Z.of_nat (length (dependencies lf))) (entry_dependencies e);
  entry_nodup : NoDup (entry_dependencies e) }.

Definition list_ok (l : list BuilderEntry) : Prop :=
  Z.of_nat (length l) < INVALID_ID /\ forall n e, l !! n = Some e -> entry_ok n e.

Lemma index_nat {A} (l : list A) n : index l (Z.of_nat n) = l !! n.
Proof. unfold index. by rewrite Nat2Z.id. Qed.

Lemma index_lt {A} (l : list A) i a : index l i = Some a -> (Z.to_nat i < length l)%nat.
Proof. apply lookup_lt_Some. Qed.

Lemma index_some {A} (l : list A) i : 0 <= i < Z.of_nat (length l) -> exists a, index l i = Some a.
Proof. intros Hi. apply lookup_lt_is_Some_2. lia. Qed.

Lemma list_ok_parent l n e : list_ok l -> l !! n = Some e -> parent (tree e) =? INVALID_ID = bool_decide (n = 0%nat).
Proof.
  intros [Hl Hok] He. assert (Hlt := lookup_lt_Some _ _ _ He). destruct (entry_parent n e (Hok n e He)) as [[-> ->]|Hp].
  - by rewrite bool_decide_true.
  - rewrite bool_decide_false by lia. apply Z.eqb_neq. lia.
Qed.

(** More fuel than the depth changes nothing. *)
Lemma lookup_up_fuel l h : list_ok l -> forall n f f', (n < f)%nat -> (n < f')%nat -> lookup_up f l (Z.of_nat n) h = lookup_up f' l (Z.of_nat n) h.
Proof.
  intros Hl n. induction n as [n IH] using lt_wf_ind. intros [|f] [|f'] Hf Hf'; [lia..|]. cbn [lookup_up]. rewrite index_nat.
  destruct (l !! n) as [e|] eqn:He; [|done]. cbn [mbind option_bind]. destruct (in_folder _ h); [done|]. rewrite (list_ok_parent l n e Hl He).
  case_bool_decide as Hn; [done|]. destruct Hl as [_ Hok]. destruct (entry_parent n e (Hok n e He)) as [[-> _]|Hp]; [done|].
  rewrite <- (Z2Nat.id (parent (tree e))) by lia. apply IH; lia.
Qed.

(** One step of the lookup. *)
Lemma node_lookup_step l n e h : list_ok l -> l !! n = Some e ->
  node_lookup l (Z.of_nat n) h =
  match in_folder (entry_dependencies e) h with
  | Some d => Some (Z.of_nat n, d)
  | None => if bool_decide (n = 0%nat) then None else node_lookup l (parent (tree e)) h
  end.
Proof.
  intros Hl He. assert (Hlt := lookup_lt_Some _ _ _ He).
  transitivity (lookup_up (S (length l)) l (Z.of_nat n) h); [apply lookup_up_fuel; [done | lia | lia]|]. cbn [lookup_up].
  rewrite index_nat, He. cbn [mbind option_bind]. destruct (in_folder _ h); [done|]. by rewrite (list_ok_parent l n e Hl He).
Qed.

Lemma in_folder_some deps h d : in_folder deps h = Some d -> d ∈ deps /\ dep_hash d = Some h.
Proof.
  unfold in_folder. destruct (list_find _ deps) as [[i x]|] eqn:Hf; [|done]. intros [= <-]. apply list_find_Some in Hf as (Hi & Hh & _).
  split; [by eapply list_elem_of_lookup_2 | done].
Qed.

Lemma in_folder_app deps d h : in_folder (deps ++ [d]) h = match in_folder deps h with Some x => Some x | None => if decide (dep_hash d = Some h) then Some d else None end.
Proof.
  unfold in_folder. destruct (list_find _ deps) as [[i x]|] eqn:Hf; [by rewrite (list_find_app_l _ _ _ _ _ Hf)|].
  rewrite (list_find_app_r _ _ _ Hf). cbn. by case_decide.
Qed.

(** What a lookup finds is in the folder it says. *)
Lemma node_lookup_found l n h t d : list_ok l -> node_lookup l (Z.of_nat n) h = Some (t, d) ->
  exists i e, t = Z.of_nat i /\ (i <= n)%nat /\ l !! i = Some e /\ d ∈ entry_dependencies e /\ dep_hash d = Some h.
Proof.
  intros Hl. induction n as [n IH] using lt_wf_ind. intros Hf. destruct (l !! n) as [e|] eqn:He.
  - rewrite (node_lookup_step l n e h Hl He) in Hf. destruct (in_folder _ h) as [x|] eqn:Hx.
    + injection Hf as <- <-. destruct (in_folder_some _ _ _ Hx). by exists n, e.
    + case_bool_decide as Hn; [done|]. destruct (entry_parent n e (proj2 Hl n e He)) as [[-> _]|Hp]; [done|].
      rewrite <- (Z2Nat.id (parent (tree e))) in Hf by lia. destruct (IH (Z.to_nat (parent (tree e))) ltac:(lia) Hf) as (i & e' & -> & Hi & H'). exists i, e'.
      split; [done|]. split; [lia | done].
  - unfold node_lookup in Hf. destruct (length l); [done|]. cbn [lookup_up] in Hf. by rewrite index_nat, He in Hf.
Qed.

(** * Adding a folder *)

Lemma list_ok_snoc l e : list_ok l -> Z.of_nat (S (length l)) < INVALID_ID -> entry_ok (length l) e -> list_ok (l ++ [e]).
Proof.
  intros [Hb Hok] Hlt He. split; [rewrite length_app; cbn; lia|]. intros n x [Hx|[Hn Hx]]%lookup_app_Some; [by apply Hok|].
  apply list_lookup_singleton_Some in Hx as [Hx <-]. by replace n with (length l) by lia.
Qed.

Lemma node_lookup_snoc l e n h : list_ok l -> list_ok (l ++ [e]) -> (n < length l)%nat ->
  node_lookup (l ++ [e]) (Z.of_nat n) h = node_lookup l (Z.of_nat n) h.
Proof.
  intros Hl Hl'. induction n as [n IH] using lt_wf_ind. intros Hn. destruct (lookup_lt_is_Some_2 _ _ Hn) as [x Hx].
  rewrite (node_lookup_step _ n x h Hl' (lookup_app_l_Some _ _ _ _ Hx)), (node_lookup_step l n x h Hl Hx).
  destruct (in_folder _ h); [done|]. case_bool_decide as H0; [done|]. destruct (entry_parent n x (proj2 Hl n x Hx)) as [[-> _]|Hp]; [done|].
  rewrite <- (Z2Nat.id (parent (tree x))) by lia. apply IH; lia.
Qed.

(** An empty folder is looked through. *)
Lemma node_lookup_empty l e h : list_ok (l ++ [e]) -> list_ok l -> entry_dependencies e = [] -> l <> [] ->
  node_lookup (l ++ [e]) (Z.of_nat (length l)) h = node_lookup l (parent (tree e)) h.
Proof.
  intros Hl' Hl He Hne. assert (Hx : (l ++ [e]) !! length l = Some e) by by rewrite list_lookup_middle.
  rewrite (node_lookup_step _ _ e h Hl' Hx), He. unfold in_folder at 1. cbn [list_find fmap option_fmap option_map].
  rewrite bool_decide_false by (destruct l; cbn; congruence). destruct (entry_parent _ e (proj2 Hl' _ e Hx)) as [[H0 _]|Hp]; [by destruct l|].
  rewrite <- (Z2Nat.id (parent (tree e))) by lia. apply node_lookup_snoc; [done | done | lia].
Qed.

(** * Adding a dependency to a folder *)

Definition push_at (l : list BuilderEntry) (i : nat) (d : Z) : list BuilderEntry := alter (push_dep d) i l.

Lemma push_at_lookup l i d n e : push_at l i d !! n = Some e -> exists e0, l !! n = Some e0 /\ parent (tree e) = parent (tree e0) /\
  dependency_id (tree e) = dependency_id (tree e0) /\ entry_dependencies e = (if decide (n = i) then entry_dependencies e0 ++ [d] else entry_dependencies e0).
Proof.
  unfold push_at. case_decide as Hn.
  - subst. rewrite list_lookup_alter_eq. intros (e0 & -> & ->)%fmap_Some_1. by exists e0.
  - rewrite list_lookup_alter_ne by done. intros He. by exists e.
Qed.

Lemma list_ok_push l i e d : list_ok l -> l !! i = Some e -> 0 <= d < Z.of_nat (length (dependencies lf)) -> d ∉ entry_dependencies e ->
  Z.of_nat (length (dependencies lf)) < INVALID_ID -> list_ok (push_at l i d).
Proof.
  intros [Hb Hok] He Hd Hn Hlen. split; [unfold push_at; by rewrite length_alter|]. intros n x Hx. unfold push_at in Hx.
  destruct (decide (n = i)) as [->|Hne]; [|rewrite list_lookup_alter_ne in Hx by done; by apply Hok].
  rewrite list_lookup_alter_eq, He in Hx. injection Hx as <-. destruct (Hok i e He) as [H1 H2 [H3 H4] H5 H6].
  assert (Hnd : NoDup (entry_dependencies e ++ [d])).
  { apply NoDup_app. split; [done|]. split; [|apply NoDup_singleton]. intros x Hx ->%list_elem_of_singleton. done. }
  assert (Hr : Forall (fun d => 0 <= d < Z.of_nat (length (dependencies lf))) (entry_dependencies e ++ [d])) by (apply Forall_app; by split; [|apply Forall_singleton]).
  split; cbn [push_dep tree entry_dependencies id parent tree_dependencies sl_off sl_len]; [done | done | | done | done].
  split; [done|]. rewrite H4, length_app. cbn [length].
  assert (Hc : (length (entry_dependencies e ++ [d]) <= length (dependencies lf))%nat).
  { assert (Hs : entry_dependencies e ++ [d] ⊆+ seqZ 0 (Z.of_nat (length (dependencies lf)))).
    { apply NoDup_submseteq; [done|]. intros x Hx. rewrite Forall_forall in Hr. apply elem_of_seqZ. specialize (Hr x Hx). lia. }
    apply submseteq_length in Hs. rewrite length_seqZ in Hs. lia. }
  rewrite length_app in Hc. cbn [length] in Hc. unfold trunc32. rewrite Z.mod_small; [lia|]. unfold INVALID_ID, U32_MAX in *. lia.
Qed.

Lemma push_at_some l i d n e : l !! n = Some e ->
  exists e', push_at l i d !! n = Some e' /\ parent (tree e') = parent (tree e) /\ dependency_id (tree e') = dependency_id (tree e) /\
    entry_dependencies e' = (if decide (n = i) then entry_dependencies e ++ [d] else entry_dependencies e).
Proof.
  intros He. destruct (push_at l i d !! n) as [e'|] eqn:He'.
  - destruct (push_at_lookup _ _ _ _ _ He') as (e0 & He0 & H'). rewrite He in He0. injection He0 as <-. by exists e'.
  - apply lookup_ge_None_1 in He'. unfold push_at in He'. rewrite length_alter in He'. apply lookup_lt_Some in He. lia.
Qed.

(** Below the folder nothing changes. *)
Lemma node_lookup_push_below l i d n h : list_ok l -> list_ok (push_at l i d) -> (n < i)%nat -> (n < length l)%nat ->
  node_lookup (push_at l i d) (Z.of_nat n) h = node_lookup l (Z.of_nat n) h.
Proof.
  intros Hl Hl'. induction n as [n IH] using lt_wf_ind. intros Hi Hn. destruct (lookup_lt_is_Some_2 _ _ Hn) as [e He].
  destruct (push_at_some l i d n e He) as (e' & He' & Hp & _ & Hd).
  rewrite (node_lookup_step _ n e' h Hl' He'), (node_lookup_step l n e h Hl He), Hd, Hp. rewrite decide_False by lia.
  destruct (in_folder _ h); [done|]. case_bool_decide as H0; [done|].
  destruct (entry_parent n e (proj2 Hl n e He)) as [[-> _]|Hpr]; [done|]. rewrite <- (Z2Nat.id (parent (tree e))) by lia. apply IH; lia.
Qed.

(** In the folder itself the dependency is found if its name was not there. *)
Lemma node_lookup_push_self l n e d h : list_ok l -> list_ok (push_at l n d) -> l !! n = Some e ->
  node_lookup (push_at l n d) (Z.of_nat n) h =
  match in_folder (entry_dependencies e) h with
  | Some x => Some (Z.of_nat n, x)
  | None => if decide (dep_hash d = Some h) then Some (Z.of_nat n, d) else node_lookup l (Z.of_nat n) h
  end.
Proof.
  intros Hl Hl' He. destruct (push_at_some l n d n e He) as (e' & He' & Hp & _ & Hd). rewrite decide_True in Hd by done.
  rewrite (node_lookup_step _ n e' h Hl' He'), (node_lookup_step l n e h Hl He), Hd, Hp, in_folder_app.
  destruct (in_folder (entry_dependencies e) h); [done|]. case_decide; [done|]. case_bool_decide as H0; [done|].
  destruct (entry_parent n e (proj2 Hl n e He)) as [[-> _]|Hpr]; [done|]. rewrite <- (Z2Nat.id (parent (tree e))) by lia.
  apply lookup_lt_Some in He. apply node_lookup_push_below; [done | done | lia | lia].
Qed.

(** At the root, what was found stays, and what was not is found now. *)
Lemma node_lookup_push_root l d n h : list_ok l -> list_ok (push_at l 0 d) -> (n < length l)%nat ->
  node_lookup (push_at l 0 d) (Z.of_nat n) h =
  match node_lookup l (Z.of_nat n) h with
  | Some r => Some r
  | None => if decide (dep_hash d = Some h) then Some (0, d) else None
  end.
Proof.
  intros Hl Hl'. induction n as [n IH] using lt_wf_ind. intros Hn. destruct (lookup_lt_is_Some_2 _ _ Hn) as [e He].
  destruct (decide (n = 0%nat)) as [->|H0].
  - rewrite (node_lookup_push_self l 0 e d h Hl Hl' He), (node_lookup_step l 0 e h Hl He). by destruct (in_folder _ h).
  - destruct (push_at_some l 0 d n e He) as (e' & He' & Hp & _ & Hd). rewrite decide_False in Hd by done.
    rewrite (node_lookup_step _ n e' h Hl' He'), (node_lookup_step l n e h Hl He), Hd, Hp.
    destruct (in_folder _ h); [done|]. rewrite bool_decide_false by done.
    destruct (entry_parent n e (proj2 Hl n e He)) as [[-> _]|Hpr]; [done|]. rewrite <- (Z2Nat.id (parent (tree e))) by lia. apply IH; lia.
Qed.

End Lookup.
