(* ===== verification/HoistStep.v ===== *)
(** One dependency of a package: what [hoist_dependency] answers in terms of
    what a require finds, and where the dependency is placed. *)
From stdpp Require Import gmap list.
From S2P Require Import Prelude BunCore SemverString SemverVersion SemverRange SemverQuery Glob Paths Hoist HoistSpec.

(** * Lockfiles the hoister is given *)

Definition count {A} (l : list A) : Z := Z.of_nat (length l).

(** The dependencies of a package. *)
Definition package_deps (p : Package) : list Z := seqZ (sl_off (package_resolutions p)) (sl_len (package_resolutions p)).

(** Two dependencies of a package of the same name have the same resolution. *)
Definition same_name_same_package (lf : Lockfile) (d e : Z) : bool :=
  negb (bool_decide (dep_hash lf d = dep_hash lf e)) || bool_decide (index (buf_resolutions lf) d = index (buf_resolutions lf) e).

(** A resolution is a package of the lockfile or not there, and lists of dependencies are in the lockfile. *)
Definition lockfile_ok (lf : Lockfile) : bool :=
  (0 <? count (packages lf)) && (count (packages lf) <? U32_MAX) && (count (dependencies lf) <? ROOT_DEP_ID) &&
  (count (buf_resolutions lf) =? count (dependencies lf)) &&
  forallb (fun r => (r =? invalid_package_id) || ((0 <=? r) && (r <? count (packages lf)))) (buf_resolutions lf) &&
  forallb (fun p => (0 <=? sl_off (package_resolutions p)) && (0 <=? sl_len (package_resolutions p)) &&
                    (sl_off (package_resolutions p) + sl_len (package_resolutions p) <=? count (dependencies lf)) &&
                    forallb (fun d => forallb (same_name_same_package lf d) (package_deps p)) (package_deps p)) (packages lf).

Section Facts.
Context (lf : Lockfile) (Hok : lockfile_ok lf = true).

Lemma lockfile_ok_spec :
  (0 < count (packages lf) < U32_MAX /\ count (dependencies lf) < ROOT_DEP_ID /\ length (buf_resolutions lf) = length (dependencies lf)) /\
  (forall d q, index (buf_resolutions lf) d = Some q -> q = invalid_package_id \/ 0 <= q < count (packages lf)) /\
  (forall i p, index (packages lf) i = Some p ->
     0 <= sl_off (package_resolutions p) /\ 0 <= sl_len (package_resolutions p) /\
     sl_off (package_resolutions p) + sl_len (package_resolutions p) <= count (dependencies lf) /\
     forall d e, d ∈ package_deps p -> e ∈ package_deps p -> dep_hash lf d = dep_hash lf e -> index (buf_resolutions lf) d = index (buf_resolutions lf) e).
Proof.
  unfold lockfile_ok in Hok. rewrite !andb_true_iff, !forallb_forall in Hok. destruct Hok as [[[[[H1 H2] H3] H4] H5] H6].
  apply Z.ltb_lt in H1, H2, H3. apply Z.eqb_eq in H4. unfold count in *. split; [lia|]. split.
  - intros d q Hq%list_elem_of_lookup_2%list_elem_of_In%H5. apply orb_true_iff in Hq as [Hq|Hq]; [left; by apply Z.eqb_eq|].
    apply andb_true_iff in Hq as [Ha Hb]. apply Z.leb_le in Ha. apply Z.ltb_lt in Hb. by right.
  - intros i p Hp%list_elem_of_lookup_2%list_elem_of_In%H6. rewrite !andb_true_iff, !Z.leb_le, forallb_forall in Hp. destruct Hp as [[[Ha Hb] Hc] Hd].
    split; [done|]. split; [done|]. split; [done|]. intros d e Hde%list_elem_of_In He%list_elem_of_In Hh. apply Hd in Hde. rewrite forallb_forall in Hde.
    specialize (Hde e He). unfold same_name_same_package in Hde. rewrite (bool_decide_true _ Hh) in Hde. by apply bool_decide_eq_true_1 in Hde.
Qed.

Lemma dep_range i p d : index (packages lf) i = Some p -> d ∈ package_deps p -> 0 <= d < count (dependencies lf).
Proof.
  intros Hp Hd%elem_of_seqZ. destruct lockfile_ok_spec as (_ & _ & H). destruct (H i p Hp) as (? & ? & ? & _). lia.
Qed.

Lemma package_some q : 0 <= q < count (packages lf) -> exists p, index (packages lf) q = Some p.
Proof. apply index_some. Qed.
End Facts.

(** * [hoist_dependency] *)

Section Step.
Context {F : ByteSearch} {Fok : ByteSearchOk F} (lf : Lockfile) (Hok : lockfile_ok lf = true).

Lemma find_name_ok deps h : Forall (fun d => 0 <= d < Z.of_nat (length (dependencies lf))) deps ->
  exists r, find_name lf deps h = Some r /\
    match r with
    | Some (d, dep) => in_folder lf deps h = Some d /\ index (dependencies lf) d = Some dep
    | None => in_folder lf deps h = None
    end.
Proof.
  unfold in_folder. induction deps as [|d deps IH]; intros Hr; cbn [find_name]; [by exists None|].
  apply Forall_cons in Hr as [Hd Hr]. destruct (index_some _ _ Hd) as [dep Hdep]. assert (Hdh : dep_hash lf d = Some (name_hash dep)) by (unfold dep_hash; by rewrite Hdep).
  rewrite Hdep. cbn [mbind option_bind list_find].
  destruct (Z.eqb_spec (name_hash dep) h) as [Hh|Hh].
  - exists (Some (d, dep)). split; [done|]. split; [|done]. by rewrite decide_True by by rewrite Hdh, Hh.
  - destruct (IH Hr) as (r & -> & Hr'). exists r. split; [done|]. rewrite !decide_False by (rewrite Hdh; by intros [= ?]). destruct (list_find _ deps) as [[i x]|]; cbn in *; by destruct r as [[]|].
Qed.

Lemma same_name_false_ok b t d pkg e dep dependency m : same_name lf b false t d pkg e dep dependency <> Some (Err m).
Proof.
  unfold same_name. destruct (index (resolutions b) d) as [r|]; [|done]. cbn [mbind option_bind].
  destruct (_ && _); [done|]. destruct (r =? _); [done|]. destruct (pkg =? _); [done|]. destruct (r =? pkg); [done|]. cbn [andb].
  destruct (if is_peer _ then _ else _) as [[]|]; done.
Qed.

Lemma folder_slice n e : entry_ok lf n e -> slice_get (tree_dependencies (tree e)) (entry_dependencies e) = Some (entry_dependencies e).
Proof.
  intros He. destruct (entry_slice lf n e He) as [H1 H2]. unfold slice_get. rewrite H1, H2, Z.add_0_l, Nat2Z.id, Nat.min_id.
  rewrite slice_ok by (cbn; lia). cbn. by rewrite Nat.sub_0_r, firstn_all.
Qed.

Lemma hoist_up b n pkg e dep : list_ok lf (list_ b) -> index (dependencies lf) e = Some dep ->
  forall f, (n < f)%nat -> (n < length (list_ b))%nat ->
  hoist_dependency lf f false b (Z.of_nat n) INVALID_ID pkg e =
  match node_lookup lf (list_ b) (Z.of_nat n) (name_hash dep) with
  | None => Some (Ok (Placement 0 false))
  | Some (t, d) => x ← index (dependencies lf) d; same_name lf b false t d pkg e x dep
  end.
Proof.
  intros Hl Hdep. induction n as [n IH] using lt_wf_ind. intros [|f] Hf Hn; [lia|]. destruct (lookup_lt_is_Some_2 _ _ Hn) as [x Hx].
  assert (Hx' := proj2 Hl n x Hx). cbn [hoist_dependency]. rewrite Hdep, index_nat, Hx. cbn [mbind option_bind].
  rewrite (folder_slice n x Hx'). cbn [mbind option_bind]. destruct (find_name_ok _ (name_hash dep) (entry_range lf n x Hx')) as (r & -> & Hr).
  cbn [mbind option_bind]. rewrite (node_lookup_step lf _ n x _ Hl Hx). destruct r as [[d y]|].
  - destruct Hr as [-> Hy]. rewrite Hy. cbn [mbind option_bind]. by rewrite (entry_id lf n x Hx').
  - rewrite Hr, (list_ok_parent lf _ n x Hl Hx), (entry_id lf n x Hx'). case_bool_decide as H0; [by subst n|]. cbn [negb andb].
    rewrite (proj2 (Z.eqb_neq (Z.of_nat n) INVALID_ID)) by (destruct Hl; lia). cbn [negb andb].
    destruct (entry_parent lf n x Hx') as [[-> _]|Hp]; [done|]. rewrite <- (Z2Nat.id (parent (tree x))) by lia. rewrite (IH (Z.to_nat (parent (tree x)))) by lia.
    destruct (node_lookup _ _ _ _) as [[t d]|]; [|done]. destruct (index _ d) as [y|]; [|done]. cbn [mbind option_bind].
    destruct (same_name lf b false t d pkg e y dep) as [[[]|m]|] eqn:Hs; try done. by apply same_name_false_ok in Hs.
Qed.

Lemma hoist_here b n pkg e dep : list_ok lf (list_ b) -> index (dependencies lf) e = Some dep -> (n < length (list_ b))%nat ->
  hoist_dependency lf (length (list_ b)) true b (Z.of_nat n) INVALID_ID pkg e =
  match node_lookup lf (list_ b) (Z.of_nat n) (name_hash dep) with
  | None => Some (Ok (Placement 0 false))
  | Some (t, d) =>
    x ← index (dependencies lf) d;
    if t =? Z.of_nat n then same_name lf b true t d pkg e x dep
    else
      r ← same_name lf b false t d pkg e x dep;
      Some (match r with Ok DependencyLoop => Ok (Placement (Z.of_nat n) false) | r => r end)
  end.
Proof.
  intros Hl Hdep Hn. destruct (lookup_lt_is_Some_2 _ _ Hn) as [x Hx]. destruct (length (list_ b)) as [|f] eqn:Hlen; [lia|].
  assert (Hx' := proj2 Hl n x Hx). cbn [hoist_dependency]. rewrite Hdep, index_nat, Hx. cbn [mbind option_bind].
  rewrite (folder_slice n x Hx'). cbn [mbind option_bind]. destruct (find_name_ok _ (name_hash dep) (entry_range lf n x Hx')) as (r & -> & Hr).
  cbn [mbind option_bind]. rewrite (node_lookup_step lf _ n x _ Hl Hx). destruct r as [[d y]|].
  - destruct Hr as [-> Hy]. rewrite Hy. cbn [mbind option_bind]. by rewrite (entry_id lf n x Hx'), Z.eqb_refl.
  - rewrite Hr, (list_ok_parent lf _ n x Hl Hx), (entry_id lf n x Hx'). case_bool_decide as H0; [by subst n|]. cbn [negb andb].
    rewrite (proj2 (Z.eqb_neq (Z.of_nat n) INVALID_ID)) by (destruct Hl; lia). cbn [negb andb].
    destruct (entry_parent lf n x Hx') as [[-> _]|Hp]; [done|]. rewrite <- (Z2Nat.id (parent (tree x))) by lia.
    rewrite (hoist_up b _ pkg e dep Hl Hdep f) by lia.
    destruct (node_lookup _ _ _ _) as [[t d]|] eqn:Hnl; [|done]. destruct (index (dependencies lf) d) as [y|]; [|done]. cbn [mbind option_bind].
    destruct (node_lookup_found lf _ _ _ _ _ Hl Hnl) as (i & _ & -> & Hi & _). rewrite (proj2 (Z.eqb_neq _ _)) by lia.
    destruct (same_name lf b false (Z.of_nat i) d pkg e y dep) as [[[]|m]|] eqn:Hs; try done. by apply same_name_false_ok in Hs.
Qed.

End Step.
