(* ===== verification/HoistPlace.v ===== *)
(** Where one dependency is placed when packages are installed: what
    [process_dep] does on a lockfile of which nothing is left to resolve. *)
From stdpp Require Import gmap list.
From S2P Require Import Prelude BunCore SemverString SemverVersion SemverRange SemverQuery Glob Paths Hoist HoistSpec HoistStep.

(** * Testing a version against a range always answers *)

Section Answers.
Context {F : ByteSearch} {Fok : ByteSearchOk F} (v : VersionType) (rbuf vbuf : bytes).

Lemma order_some l r lbuf buf : exists c, order_without_build l r lbuf buf = Some c.
Proof.
  unfold order_without_build, tag_order_without_build. destruct (order_without_tag l r); try by eexists.
  rewrite order_pre_ok. destruct (_ && _); by eexists.
Qed.

Lemma comparator_some c : exists b, comparator_satisfies c v rbuf vbuf = Some b.
Proof. unfold comparator_satisfies. destruct (order_some v (cversion c) vbuf rbuf) as [o ->]. by eexists. Qed.

Lemma both_some r : exists b, both_satisfy r v rbuf vbuf = Some b.
Proof.
  unfold both_satisfy. destruct (comparator_some (left_ r)) as [[] ->]; cbn; [|by eexists]. destruct (has_right r); [apply comparator_some | by eexists].
Qed.

Lemma query_some q : exists b, query_satisfies v rbuf vbuf q = Some b.
Proof.
  induction q as [r|r n IH] using query_chain_ind; cbn [query_satisfies]; unfold range_satisfies; destruct (both_some r) as [b Hb]; rewrite Hb;
    destruct (negb (has_left r)); cbn; try destruct b; cbn; first [apply IH | by eexists].
Qed.

Lemma query_pre_some q : forall pm, exists b, query_satisfies_pre v rbuf vbuf q pm = Some b.
Proof.
  induction q as [r|r n IH] using query_chain_ind; cbn [query_satisfies_pre]; intros pm; unfold range_satisfies_pre; destruct (both_some r) as [b Hb]; rewrite Hb;
    destruct (negb (has_left r)); cbn; try destruct b; cbn; first [apply IH | by eexists].
Qed.

Lemma list_some l : exists b, list_satisfies v rbuf vbuf l = Some b.
Proof.
  induction l as [h t|h t n IH] using list_chain_ind; cbn [list_satisfies]; destruct (query_some h) as [[] ->]; cbn; first [apply IH | by eexists].
Qed.

Lemma list_pre_some l : exists b, list_satisfies_pre v rbuf vbuf l = Some b.
Proof.
  induction l as [h t|h t n IH] using list_chain_ind; cbn [list_satisfies_pre]; destruct (query_pre_some h false) as [[b pm] ->]; cbn;
    destruct (b && pm); first [apply IH | by eexists].
Qed.

Lemma group_satisfies_some g : exists b, group_satisfies v rbuf vbuf g = Some b.
Proof. unfold group_satisfies. destruct (has_pre (tag v)); [apply list_pre_some | apply list_some]. Qed.

End Answers.

Section Place.
Context {F : ByteSearch} {Fok : ByteSearchOk F} {US : UnstableSort} (MAX_PATH_BYTES : Z) (pool : bytes).
Context (lf : Lockfile) (opts : FilterOptions) (Hok : lockfile_ok lf = true).

(** The name of a folder may be empty, but not lead out of node_modules. *)
Definition name_ok (dep : Dependency) : bool :=
  let n := string_slice (name dep) (string_bytes lf) in bool_decide (n = []) || is_safe_install_folder_name n.

(** The dependency [e] of package [p], resolved to [q], is one to install: the filter lets it pass and its name is safe. *)
Definition wanted (p e q : Z) (dep : Dependency) : Prop :=
  index (buf_resolutions lf) e = Some q /\ index (dependencies lf) e = Some dep /\ name_ok dep = true /\
  skipped_by_filter MAX_PATH_BYTES pool lf (Filter opts) (builder_init lf) p e q = Some false.

(** The dependency [d] that a require found serves for [e]: the same package, or
    for a peer dependency one that its range accepts or that the root asks for. *)
Definition accepts (e d : Z) : Prop :=
  exists q r dep, index (buf_resolutions lf) e = Some q /\ index (buf_resolutions lf) d = Some r /\ index (dependencies lf) e = Some dep /\
    (r = q \/ (is_peer (behavior dep) = true /\ peer_hoists lf d r dep = Some true)).

Definition needs_folder (q : Z) : bool :=
  match index (packages lf) q with Some p => 0 <? sl_len (package_resolutions p) | None => false end.

Definition folder_package (q : Z) : bool :=
  match index (packages lf) q with Some p => is_folder (resolution p) | None => false end.

(** [e], resolved to [q], goes to folder [i]; its own folder is made later. *)
Definition place (b : Builder) (i : nat) (e q : Z) : Builder :=
  let b := with_list b (push_at (list_ b) i e) in
  if needs_folder q then write_item b {| item_tree_id := Z.of_nat i; item_dependency_id := e; item_hoist_root_id := INVALID_ID |} else b.

(** Every dependency in a folder has a package. *)
Definition all_resolved (b : Builder) : Prop :=
  forall n x d, list_ b !! n = Some x -> d ∈ entry_dependencies x -> exists r, index (buf_resolutions lf) d = Some r /\ 0 <= r < count (packages lf).

Lemma wanted_plain p e q dep : wanted p e q dep -> 0 <= q < count (packages lf) /\ q =? invalid_package_id = false /\ is_bundled (behavior dep) = false.
Proof.
  intros (Hq & Hdep & _ & Hs). destruct (lockfile_ok_spec lf Hok) as (Hc & Hr & _). cbn [skipped_by_filter builder_init resolutions] in Hs.
  unfold is_filtered_dependency_or_workspace in Hs. rewrite Hq, Hdep in Hs. cbn [mbind option_bind] in Hs.
  assert (Hv : q =? invalid_package_id = false -> 0 <= q < count (packages lf)).
  { intros Hi%Z.eqb_neq. by destruct (Hr e q Hq). }
  destruct (Z.leb_spec (Z.of_nat (length (packages lf))) q) as [Hle|Hlt].
  - destruct (negb _); [done|]. destruct (q =? invalid_package_id) eqn:Hi; [done|]. specialize (Hv eq_refl). unfold count in Hv. lia.
  - destruct (index (packages lf) q); [|done]. destruct (index (packages lf) p); [|done]. cbn [mbind option_bind] in Hs.
    destruct (is_disabled _ _ _); [done|]. destruct (is_bundled (behavior dep)); [done|].
    assert (Hi : q =? invalid_package_id = false) by (apply Z.eqb_neq; unfold count, invalid_package_id in *; lia). by split; [apply Hv | split].
Qed.

Lemma skip_resolutions b p e q : resolutions b = buf_resolutions lf ->
  skipped_by_filter MAX_PATH_BYTES pool lf (Filter opts) b p e q = skipped_by_filter MAX_PATH_BYTES pool lf (Filter opts) (builder_init lf) p e q.
Proof. intros Hb. unfold skipped_by_filter. by rewrite Hb. Qed.

Lemma peer_hoists_some d r dep : 0 <= r < count (packages lf) -> exists s, peer_hoists lf d r dep = Some s.
Proof.
  intros Hr. destruct (lockfile_ok_spec lf Hok) as (Hc & _). destruct (package_some lf r Hr) as [p Hp]. destruct (package_some lf 0 ltac:(lia)) as [p0 Hp0].
  unfold peer_hoists, is_workspace_root_dependency. rewrite Hp, Hp0. cbn [mbind option_bind].
  destruct (version dep) as [|g| | | | | | | |]; try by eexists. destruct (resolution p) as [| |v| | | | | | | |]; try by eexists.
  assert (Hs : exists s, group_satisfies v (string_bytes lf) (string_bytes lf) g = Some s) by apply group_satisfies_some.
  destruct Hs as [[] ->]; by eexists.
Qed.

(** What a folder holding [d] under the name of [e] does with [e]. *)
Lemma same_name_ok b AS t d e q r x dep :
  resolutions b = buf_resolutions lf -> index (buf_resolutions lf) e = Some q -> index (dependencies lf) e = Some dep -> q =? invalid_package_id = false ->
  index (buf_resolutions lf) d = Some r -> 0 <= r < count (packages lf) -> (AS = true -> r = q) ->
  (same_name lf b AS t d q e x dep = Some (Ok Hoisted) /\ accepts e d) \/
  (same_name lf b AS t d q e x dep = Some (Ok DependencyLoop) /\ r <> q).
Proof.
  intros Hb Hq Hdep Hqi Hr Hrc HAS. unfold same_name. rewrite Hb, Hr. cbn [mbind option_bind]. rewrite Hqi, andb_false_r.
  destruct (lockfile_ok_spec lf Hok) as (Hc & _). rewrite (proj2 (Z.eqb_neq r invalid_package_id)) by (unfold count, invalid_package_id in *; lia).
  destruct (Z.eqb_spec r q) as [->|Hne]; [left; split; [done|]; exists q, q, dep; by auto|].
  destruct AS; [by destruct Hne, HAS|]. cbn [andb]. destruct (is_peer (behavior dep)) eqn:Hp; cbn [mbind option_bind]; [|by right].
  destruct (peer_hoists_some d r dep Hrc) as [[] Hs]; rewrite Hs; cbn [mbind option_bind]; [left | by right]. split; [done|]. exists q, r, dep.
  split; [done|]. split; [done|]. split; [done | by right].
Qed.

Lemma update_push b i e n : list_ b !! i = Some e -> update_entry b (Z.of_nat i) (push_dep n) = Some (with_list b (push_at (list_ b) i n)).
Proof.
  intros He. unfold update_entry. rewrite index_nat, He. cbn [mbind option_bind]. rewrite Nat2Z.id. unfold push_at.
  do 2 f_equal. rewrite list_insert_alter. apply list_alter_ext; [|done]. intros x Hx. congruence.
Qed.

Lemma apply_placement b i e q dep x bundled : list_ b !! i = Some x -> 0 <= q < count (packages lf) -> q =? invalid_package_id = false -> bundled = false ->
  apply_hoisted lf b INVALID_ID q e dep (Placement (Z.of_nat i) bundled) = Some (place b i e q).
Proof.
  intros Hx Hq Hi ->. cbn [apply_hoisted]. rewrite (update_push b i x e Hx). cbn [mbind option_bind]. unfold queue_subtree, place, needs_folder. rewrite Hi.
  destruct (package_some lf q Hq) as [p ->]. done.
Qed.

(** Where [e], resolved to [q], is placed: at the root when a require from [n]
    finds nothing of its name, in [n] when it finds another package or [q] is a
    folder. *)
Definition placement (b : Builder) (n i : nat) (q : Z) (dep : Dependency) : Prop :=
  (i = n /\ (folder_package q = true \/ exists t d r, node_lookup lf (list_ b) (Z.of_nat n) (name_hash dep) = Some (t, d) /\
                                                 index (buf_resolutions lf) d = Some r /\ r <> q)) \/
  (i = 0%nat /\ node_lookup lf (list_ b) (Z.of_nat n) (name_hash dep) = None).

(** A dependency that is wanted is found by a require from folder [n], or placed. *)
Lemma process_wanted b n p e q dep :
  list_ok lf (list_ b) -> resolutions b = buf_resolutions lf -> all_resolved b -> (n < length (list_ b))%nat -> wanted p e q dep ->
  (forall d, node_lookup lf (list_ b) (Z.of_nat n) (name_hash dep) = Some (Z.of_nat n, d) -> index (buf_resolutions lf) d = Some q) ->
  (process_dep MAX_PATH_BYTES pool lf (Filter opts) b (Z.of_nat n) INVALID_ID p e = Some (b, true) /\
     exists t d, node_lookup lf (list_ b) (Z.of_nat n) (name_hash dep) = Some (t, d) /\ accepts e d) \/
  exists i, placement b n i q dep /\
    process_dep MAX_PATH_BYTES pool lf (Filter opts) b (Z.of_nat n) INVALID_ID p e = Some (place b i e q, true).
Proof.
  intros Hl Hb Hall Hn Hw Hself. destruct (wanted_plain p e q dep Hw) as (Hqc & Hqi & Hbun). destruct Hw as (Hq & Hdep & Hname & Hskip).
  unfold process_dep. rewrite Hb, Hq. cbn [mbind option_bind]. rewrite (skip_resolutions b p e q Hb), Hskip. cbn [mbind option_bind].
  rewrite Hdep. cbn [mbind option_bind]. rewrite <- negb_orb. unfold name_ok in Hname. rewrite Hname. cbn [negb].
  unfold hoisted_result. rewrite Hbun, Hqi. destruct (package_some lf q Hqc) as [pk Hpk]. rewrite Hpk. cbn [mbind option_bind].
  assert (H0 : (0 < length (list_ b))%nat) by lia. destruct (lookup_lt_is_Some_2 _ _ Hn) as [xn Hxn]. destruct (lookup_lt_is_Some_2 _ _ H0) as [x0 Hx0].
  destruct (is_folder (resolution pk)) eqn:Hfo; cbn [mbind option_bind].
  { right. exists n. split; [|by rewrite (apply_placement b n e q dep xn)]. left. split; [done|]. left. unfold folder_package. by rewrite Hpk. }
  rewrite (hoist_here lf b n q e dep Hl Hdep Hn). destruct (node_lookup lf (list_ b) (Z.of_nat n) (name_hash dep)) as [[t d]|] eqn:Hnl.
  2: { right. exists 0%nat. split; [by right|]. cbn [mbind option_bind].
       assert (Hp := apply_placement b 0 e q dep x0 false Hx0 Hqc Hqi eq_refl). change (Z.of_nat 0) with 0 in Hp. by rewrite Hp. }
  destruct (node_lookup_found lf _ _ _ _ _ Hl Hnl) as (i & x & -> & Hi & Hx & Hd & Hh). destruct (Hall i x d Hx Hd) as (r & Hr & Hrc).
  unfold dep_hash in Hh. destruct (index (dependencies lf) d) as [y|]; [|done]. cbn [mbind option_bind].
  destruct (Z.eqb_spec (Z.of_nat i) (Z.of_nat n)) as [Hin|Hin].
  - assert (Hrq : r = q) by (specialize (Hself d ltac:(by rewrite Hin)); congruence).
    destruct (same_name_ok b true (Z.of_nat i) d e q r y dep Hb Hq Hdep Hqi Hr Hrc ltac:(done)) as [[-> Hacc]|[_ Hne]]; [|done].
    left. cbn. split; [done|]. by exists (Z.of_nat i), d.
  - destruct (same_name_ok b false (Z.of_nat i) d e q r y dep Hb Hq Hdep Hqi Hr Hrc ltac:(done)) as [[-> Hacc]|[-> Hne]]; cbn [mbind option_bind].
    + left. cbn. split; [done|]. by exists (Z.of_nat i), d.
    + right. exists n. split; [|by rewrite (apply_placement b n e q dep xn)]. left. split; [done|]. right. by exists (Z.of_nat i), d, r.
Qed.

End Place.
