(* ===== verification/HoistWant.v ===== *)
(** What an install asks for, and what serves it, told without the filter of
    the hoister. *)
From stdpp Require Import gmap list.
From S2P Require Import Prelude BunCore SemverString SemverVersion SemverRange SemverQuery Glob Paths Hoist HoistSpec HoistStep HoistPlace.

(** * Names of folders *)

(** A part of a name that stays inside of its folder. *)
Definition safe_part (c : bytes) : Prop := c ∉ [[]; b!"."; b!".."] /\ Forall (fun x => x ∉ [ #"/"; #"\"; #":"; 0]) c.

Definition safe_folder_name (n : bytes) : Prop := exists parts, parts <> [] /\ n = BunCore.join_with #"/" parts /\ Forall safe_part parts.

Lemma split_on_join c parts : parts <> [] -> Forall (fun p => c ∉ p) parts -> split_on c (BunCore.join_with c parts) = parts.
Proof.
  intros Hne Hall. induction Hall as [|p parts Hp Hall IH]; [done|]. clear Hne.
  assert (H0 : forall r, split_on c (p ++ c :: r) = p :: split_on c r).
  { intros r. induction p as [|x p IHp]; cbn [app split_on]; [by rewrite Z.eqb_refl|].
    apply not_elem_of_cons in Hp as [Hx Hp]. destruct (Z.eqb_spec x c); [congruence|]. by rewrite (IHp Hp). }
  destruct parts as [|p' parts]; cbn [BunCore.join_with].
  - clear IH H0. induction p as [|x p IHp]; cbn [split_on]; [done|]. apply not_elem_of_cons in Hp as [Hx Hp].
    destruct (Z.eqb_spec x c); [congruence|]. by rewrite (IHp Hp).
  - change (split_on c (p ++ c :: BunCore.join_with c (p' :: parts)) = p :: p' :: parts). rewrite H0. f_equal. by apply IH.
Qed.

Lemma safe_component_spec c : #"/" ∉ c -> safe_component c = true <-> safe_part c.
Proof.
  intros Hs. unfold safe_component, safe_part. rewrite andb_true_iff, negb_true_iff, !orb_false_iff, !bool_decide_eq_false, forallb_forall, Forall_forall.
  rewrite !not_elem_of_cons. split.
  - intros [[[H1 H2] H3] H]. split; [split; [done|]; split; [done|]; split; [done | by intros ?%elem_of_nil]|]. intros x Hx.
    specialize (H x ltac:(by apply list_elem_of_In)). unfold safe_char in H. rewrite negb_true_iff, !orb_false_iff, !Z.eqb_neq in H.
    rewrite !not_elem_of_cons. split; [by intros ->|]. split; [tauto|]. split; [tauto|]. split; [tauto | by intros ?%elem_of_nil].
  - intros [(H1 & H2 & H3 & _) H]. split; [tauto|]. intros x Hx. specialize (H x ltac:(by apply list_elem_of_In)). rewrite !not_elem_of_cons in H.
    unfold safe_char. rewrite negb_true_iff, !orb_false_iff, !Z.eqb_neq. tauto.
Qed.

Lemma safe_name_spec n : is_safe_install_folder_name n = true <-> safe_folder_name n.
Proof.
  unfold is_safe_install_folder_name. split.
  - case_bool_decide as Hn; [done|]. intros H. exists (split_on #"/" n). split; [apply split_on_ne|]. split; [by rewrite join_split_on|].
    rewrite forallb_forall in H. apply Forall_forall. intros c Hc. apply safe_component_spec; [|apply H; by apply list_elem_of_In].
    pose proof (split_on_free #"/" n) as Hf. rewrite Forall_forall in Hf. by apply Hf.
  - intros (parts & Hne & -> & Hall). assert (Hfree : Forall (fun p => #"/" ∉ p) parts).
    { eapply Forall_impl; [exact Hall|]. intros p [_ Hp] Hin. rewrite Forall_forall in Hp. apply (Hp _ Hin). left. }
    rewrite bool_decide_false.
    + rewrite split_on_join by done. apply forallb_forall. intros c Hc%list_elem_of_In. rewrite Forall_forall in Hall, Hfree. apply safe_component_spec; auto.
    + intros Hj. apply (f_equal (split_on #"/")) in Hj. rewrite split_on_join in Hj by done. cbn in Hj. subst parts.
      apply Forall_cons in Hall as [[H _] _]. apply H. left.
Qed.

(** * Behaviours, by their bits *)

Lemma land_bit b k : 0 <= k -> (Z.land b (2 ^ k) =? 2 ^ k) = Z.testbit b k.
Proof.
  intros Hk. assert (Z.land b (2 ^ k) = if Z.testbit b k then 2 ^ k else 0) as ->.
  - apply Z.bits_inj'. intros i Hi. rewrite Z.land_spec, (Z.pow2_bits_eqb k i) by done. destruct (Z.testbit b k) eqn:E.
    + rewrite Z.pow2_bits_eqb by done. destruct (Z.eqb_spec k i) as [<-|]; [by rewrite E | by rewrite andb_false_r].
    + rewrite Z.bits_0. destruct (Z.eqb_spec k i) as [<-|]; [by rewrite E | by rewrite andb_false_r].
  - destruct (Z.testbit b k); [apply Z.eqb_refl|]. apply Z.eqb_neq. pose proof (Z.pow_pos_nonneg 2 k). lia.
Qed.

(** prod; optional but not peer; dev; peer; workspace. *)
Definition asked_for (b : Z) (f : Features) : Prop :=
  Z.testbit b 1 = true \/
  (optional_dependencies f = true /\ Z.testbit b 2 = true /\ Z.testbit b 4 = false) \/
  (dev_dependencies f = true /\ Z.testbit b 3 = true) \/
  (peer_dependencies f = true /\ Z.testbit b 4 = true) \/
  (workspaces f = true /\ Z.testbit b 5 = true).

Lemma asked_for_enabled b f : asked_for b f -> is_enabled b f = true.
Proof.
  unfold asked_for, is_enabled, is_prod, is_optional, is_dev, is_peer, is_workspace, has_flag, PROD, OPTIONAL, DEV, PEER, WORKSPACE.
  change (Z.land b 2 =? 2) with (Z.land b (2 ^ 1) =? 2 ^ 1). change (Z.land b 4 =? 4) with (Z.land b (2 ^ 2) =? 2 ^ 2).
  change (Z.land b 8 =? 8) with (Z.land b (2 ^ 3) =? 2 ^ 3). change (Z.land b 16 =? 16) with (Z.land b (2 ^ 4) =? 2 ^ 4).
  change (Z.land b 32 =? 32) with (Z.land b (2 ^ 5) =? 2 ^ 5). rewrite !land_bit by lia.
  intros [->|[(-> & -> & ->)|[(-> & ->)|[(-> & ->)|(-> & ->)]]]]; rewrite ?orb_true_r; done.
Qed.

Section Want.
Context {F : ByteSearch} {US : UnstableSort} (MAX_PATH_BYTES : Z) (pool : bytes) (lf : Lockfile) (opts : FilterOptions) (Hok : lockfile_ok lf = true).

(** The dependencies of the user's own packages follow their own features. *)
Definition features_of (r : Resolution) : Features :=
  match r with RRoot | RWorkspace _ | RFolder => local_package_features opts | _ => remote_package_features opts end.

(** The workspace filters select the package. *)
Definition selected (pkg : Package) : Prop :=
  workspace_matches MAX_PATH_BYTES pool lf opts (workspace_filters opts) (string_slice (package_name pkg) (string_bytes lf)) (resolution pkg)
    (bool_decide (workspace_filters opts = [])) = Some (Some true).

(** The dependency [e] of the package [p], resolved to the package [q], is to be installed. *)
Record to_install (p e q : Z) (dep : Dependency) : Prop := {
  ti_dep : index (dependencies lf) e = Some dep;
  ti_resolution : index (buf_resolutions lf) e = Some q;
  ti_name : string_slice (name dep) (string_bytes lf) = [] \/ safe_folder_name (string_slice (name dep) (string_bytes lf));
  ti_bundled : Z.testbit (behavior dep) 6 = false;
  ti_package : exists pkg parent, index (packages lf) q = Some pkg /\ index (packages lf) p = Some parent /\
    Z.land (meta_arch (meta pkg)) (cpu opts) <> 0 /\ Z.land (meta_os (meta pkg)) (os opts) <> 0 /\
    asked_for (behavior dep) (features_of (resolution parent)) /\
    (subcommand_is_install opts = true -> p = 0 ->
       if Z.testbit (behavior dep) 5 then selected pkg else install_root_dependencies opts = true);
  ti_chosen : forall l, packages_to_install opts = Some l -> p = 0 -> q ∈ l }.

Lemma is_match_spec a t : Z.land a t <> 0 -> is_match a t = true.
Proof. intros H. unfold is_match. by apply negb_true_iff, Z.eqb_neq. Qed.

Lemma to_install_wanted p e q dep : to_install p e q dep -> wanted MAX_PATH_BYTES pool lf opts p e q dep.
Proof.
  intros [Hd Hq Hn Hb (pkg & parent & Hpkg & Hpar & Ha & Ho & Hf & Hr) Hc]. destruct (lockfile_ok_spec lf Hok) as ((Hp0 & _) & _).
  assert (Hlt := index_lt _ _ _ Hpkg). unfold count in Hp0. split; [done|]. split; [done|]. split.
  - unfold name_ok. destruct Hn as [->|Hn]; [done|]. apply safe_name_spec in Hn as ->. apply orb_true_r.
  - unfold skipped_by_filter, is_filtered_dependency_or_workspace. change (resolutions (builder_init lf)) with (buf_resolutions lf). rewrite Hq, Hd.
    cbn [mbind option_bind]. destruct (Z.leb_spec (Z.of_nat (length (packages lf))) q); [lia|]. rewrite Hpkg, Hpar. cbn [mbind option_bind].
    unfold is_disabled. rewrite (is_match_spec _ _ Ha), (is_match_spec _ _ Ho). cbn [negb orb].
    replace (is_bundled (behavior dep)) with false by (symmetry; unfold is_bundled, has_flag, BUNDLED; change (Z.land (behavior dep) 64 =? 64) with (Z.land (behavior dep) (2 ^ 6) =? 2 ^ 6); by rewrite land_bit by lia).
    unfold features_of in Hf. rewrite (asked_for_enabled _ _ Hf). cbn [negb].
    assert (Hrest : forall x : bool, x = false -> (if x then Some true else if q =? invalid_package_id then Some true else match packages_to_install opts with
        | Some l => Some ((p =? 0) && negb (existsb (Z.eqb q) l)) | None => Some false end) = Some false).
    { intros x ->. replace (q =? invalid_package_id) with false by (symmetry; apply Z.eqb_neq; unfold invalid_package_id; lia).
      destruct (packages_to_install opts) as [l|]; [|done]. destruct (Z.eqb_spec p 0) as [->|]; [|done]. cbn [andb].
      replace (existsb (Z.eqb q) l) with true; [done|]. symmetry. apply existsb_exists. exists q. split; [by apply list_elem_of_In, Hc | apply Z.eqb_refl]. }
    destruct (subcommand_is_install opts) eqn:Es; cbn [negb orb]; [|by apply (Hrest false)].
    destruct (Z.eqb_spec p 0) as [->|]; cbn [negb]; [|by apply (Hrest false)]. specialize (Hr eq_refl eq_refl).
    replace (is_workspace (behavior dep)) with (Z.testbit (behavior dep) 5) by (unfold is_workspace, has_flag, WORKSPACE; change (Z.land (behavior dep) 32 =? 32) with (Z.land (behavior dep) (2 ^ 5) =? 2 ^ 5); by rewrite land_bit by lia).
    destruct (Z.testbit (behavior dep) 5); cbn [negb].
    + unfold selected in Hr. rewrite Hr. cbn [mbind option_bind negb]. by apply (Hrest false).
    + rewrite Hr. by apply (Hrest false).
Qed.

(** The dependency [d] that a require found serves for [e]: it has the same
    package, or [e] is a peer dependency, and its range accepts the version, or
    [d] is a dependency of the root. *)
Definition serves (e d : Z) : Prop :=
  exists q r dep, index (buf_resolutions lf) e = Some q /\ index (buf_resolutions lf) d = Some r /\ index (dependencies lf) e = Some dep /\
    (r = q \/
     Z.testbit (behavior dep) 4 = true /\
     ((exists range v pkg, version dep = DNpm range /\ index (packages lf) r = Some pkg /\ resolution pkg = RNpm v /\
         group_satisfies v (string_bytes lf) (string_bytes lf) range = Some true) \/
      (exists root, index (packages lf) 0 = Some root /\ sl_off (package_dependencies root) <= d < sl_off (package_dependencies root) + sl_len (package_dependencies root)))).

Lemma accepts_serves e d : accepts lf e d -> serves e d.
Proof.
  intros (q & r & dep & Hq & Hr & Hd & H). exists q, r, dep. do 3 (split; [done|]). destruct H as [->|[Hp H]]; [by left|right].
  split; [revert Hp; unfold is_peer, has_flag, PEER; change (Z.land (behavior dep) 16 =? 16) with (Z.land (behavior dep) (2 ^ 4) =? 2 ^ 4); by rewrite land_bit by lia|].
  unfold peer_hoists in H.
  destruct (match version dep with DNpm range => res ← index (packages lf) r; match resolution res with RNpm v => group_satisfies v (string_bytes lf) (string_bytes lf) range | _ => Some false end
            | _ => Some false end) as [[]|] eqn:Es; cbn [mbind option_bind] in H; [left|right|done].
  - destruct (version dep) as [|range| | | | | | | |]; try done. destruct (index (packages lf) r) as [pkg|]; [|done]. cbn [mbind option_bind] in Es.
    destruct (resolution pkg) as [| |v| | | | | | | |] eqn:Ev; try done. by exists range, v, pkg.
  - unfold is_workspace_root_dependency in H. destruct (index (packages lf) 0) as [root|]; [|done]. injection H as H. exists root. split; [done|].
    unfold slice_contains in H. apply andb_true_iff in H as [H1 H2]. apply Z.leb_le in H1. apply Z.ltb_lt in H2. lia.
Qed.

End Want.
