(* ===== verification/HoistInv.v ===== *)
(** The invariant of the hoisting loop: every package that has been processed
    finds its dependencies, and everything else that was placed is queued. *)
From stdpp Require Import gmap list.
From S2P Require Import Prelude BunCore SemverString SemverVersion SemverRange SemverQuery Glob Paths Hoist HoistSpec HoistStep HoistPlace.

(** The elements may be permuted in any way. *)
Class UnstableSortOk (US : UnstableSort) : Prop := sort_permutes : forall A (cmp : A -> A -> comparison) (l : list A), sort_unstable_by A cmp l ≡ₚ l.

(** * Folders of their own *)

Lemma list_find_alter {A} (P : A -> Prop) `{forall x, Decision (P x)} (f : A -> A) (l : list A) i :
  (forall x, P (f x) <-> P x) -> fst <$> list_find P (alter f i l) = fst <$> list_find P l.
Proof.
  intros Hf. revert i. induction l as [|x l IH]; intros [|i]; cbn [list_find alter list_alter]; [done | done | |].
  - destruct (decide (P x)) as [Hx|Hx]; [by rewrite decide_True by by apply Hf|]. by rewrite decide_False by by rewrite Hf.
  - destruct (decide (P x)); [done|]. specialize (IH i). change (list_alter f i l) with (alter f i l).
    destruct (list_find P (alter f i l)) as [[]|], (list_find P l) as [[]|]; cbn in *; by simplify_eq.
Qed.

Section Inv.
Context {F : ByteSearch} {Fok : ByteSearchOk F} {US : UnstableSort} {USok : UnstableSortOk US}.
Context (MAX_PATH_BYTES : Z) (pool : bytes) (lf : Lockfile) (opts : FilterOptions) (Hok : lockfile_ok lf = true).
Notation wanted := (wanted MAX_PATH_BYTES pool lf opts).

Lemma own_folder_push l i e t d : own_folder (push_at l i e) t d = own_folder l t d.
Proof. apply list_find_alter. by intros x. Qed.

Lemma own_folder_some l t d m : own_folder l t d = Some m -> exists x, l !! m = Some x /\ parent (tree x) = t /\ dependency_id (tree x) = d.
Proof.
  unfold own_folder. destruct (list_find _ l) as [[i x]|] eqn:Hf; [|done]. intros [= <-]. apply list_find_Some in Hf as (Hi & [H1 H2] & _). by exists x.
Qed.

Lemma own_folder_snoc l x t d : (parent (tree x), dependency_id (tree x)) <> (t, d) -> own_folder (l ++ [x]) t d = own_folder l t d.
Proof.
  intros Hne. unfold own_folder. destruct (list_find _ l) as [[i y]|] eqn:Hf; [by rewrite (list_find_app_l _ _ _ _ _ Hf)|].
  rewrite (list_find_app_r _ _ _ Hf). cbn [list_find]. rewrite decide_False; [done|]. intros [<- <-]. done.
Qed.

(** Where a require from package [d] in folder [t] starts. *)
Definition start (l : list BuilderEntry) (t d : Z) : Z := default t (Z.of_nat <$> own_folder l t d).

Definition pkg_of (d : Z) : option Z := if d =? ROOT_DEP_ID then Some 0 else index (buf_resolutions lf) d.

Definition dep_of (p e : Z) : Prop := exists pk, index (packages lf) p = Some pk /\ e ∈ package_deps pk.

(** Each dependency of the package is found, and serves. *)
Definition served (l : list BuilderEntry) (t d : Z) : Prop :=
  forall p e q dep, pkg_of d = Some p -> dep_of p e -> wanted p e q dep ->
    exists t' d', require lf l t d (name_hash dep) = Some (t', d') /\ accepts lf e d'.

Definition in_tree (l : list BuilderEntry) (t d : Z) : Prop := exists n x, t = Z.of_nat n /\ l !! n = Some x /\ d ∈ entry_dependencies x.

(** The root, or a package in a folder. *)
Definition known (l : list BuilderEntry) (t d : Z) : Prop := t = INVALID_ID \/ in_tree l t d.

Definition pairs (q : list FillItem) : list (Z * Z) := (fun i => (item_tree_id i, item_dependency_id i)) <$> q.

Record inv (fin done : list (Z * Z)) (b : Builder) : Prop := {
  inv_list : list_ok lf (list_ b);
  inv_res : resolutions b = buf_resolutions lf;
  inv_resolved : all_resolved lf b;
  inv_queue : forall i, i ∈ queue b -> item_hoist_root_id i = INVALID_ID /\ in_tree (list_ b) (item_tree_id i) (item_dependency_id i);
  inv_nodup : NoDup (done ++ pairs (queue b));
  inv_placed : forall n x d q, list_ b !! n = Some x -> d ∈ entry_dependencies x -> index (buf_resolutions lf) d = Some q ->
    needs_folder lf q = true -> (Z.of_nat n, d) ∈ done ++ pairs (queue b);
  inv_known : forall t d, (t, d) ∈ done -> known (list_ b) t d;
  inv_own : forall n x, list_ b !! n = Some x -> (parent (tree x), dependency_id (tree x)) ∈ done;
  inv_served : forall t d, (t, d) ∈ fin -> served (list_ b) t d }.

(** A require that finds something starts at a folder. *)
Lemma start_folder l t d h r : list_ok lf l -> known l t d -> node_lookup lf l (start l t d) h = Some r ->
  exists m, start l t d = Z.of_nat m /\ (m < length l)%nat /\
    ((exists x, l !! m = Some x /\ parent (tree x) = t /\ dependency_id (tree x) = d) \/ t = Z.of_nat m).
Proof.
  intros Hl Hk. unfold start. destruct (own_folder l t d) as [m|] eqn:Hm; cbn.
  - intros _. destruct (own_folder_some l t d m Hm) as (x & Hx & H12). exists m. split; [done|]. split; [by eapply lookup_lt_Some|]. left. by exists x.
  - intros Hf. destruct Hk as [->|(n & x & -> & Hx & _)].
    + exfalso. unfold node_lookup in Hf. destruct (length l) eqn:Hlen; [done|]. cbn [lookup_up] in Hf.
      destruct (index l INVALID_ID) eqn:Hi; [|done]. apply index_lt in Hi. destruct Hl. lia.
    + exists n. split; [done|]. split; [by eapply lookup_lt_Some | by right].
Qed.

(** ** What is served stays served *)

Lemma served_push l i e t d : list_ok lf l -> list_ok lf (push_at l i e) -> known l t d -> served l t d ->
  (i = 0%nat \/ forall m, start l t d = Z.of_nat m -> (m < length l)%nat -> (m < i)%nat) -> served (push_at l i e) t d.
Proof.
  intros Hl Hl' Hk Hs Hi p e' q dep Hp Hd Hw. destruct (Hs p e' q dep Hp Hd Hw) as (t' & d' & Hr & Ha). exists t', d'. split; [|done].
  unfold require in *. rewrite own_folder_push. fold (start l t d) in *. destruct (start_folder l t d _ _ Hl Hk Hr) as (m & Hm & Hlt & _). rewrite Hm in *.
  destruct Hi as [->|Hi].
  - by rewrite node_lookup_push_root, Hr.
  - rewrite node_lookup_push_below; [done | done | done | by apply Hi | done].
Qed.

Lemma served_snoc l x t d : list_ok lf l -> list_ok lf (l ++ [x]) -> known l t d -> (parent (tree x), dependency_id (tree x)) <> (t, d) ->
  served l t d -> served (l ++ [x]) t d.
Proof.
  intros Hl Hl' Hk Hne Hs p e q dep Hp Hd Hw. destruct (Hs p e q dep Hp Hd Hw) as (t' & d' & Hr & Ha). exists t', d'. split; [|done].
  unfold require in *. rewrite own_folder_snoc by done. fold (start l t d) in *. destruct (start_folder l t d _ _ Hl Hk Hr) as (m & Hm & Hlt & _).
  rewrite Hm in *. by rewrite node_lookup_snoc.
Qed.

Lemma known_push l i e t d : known l t d -> known (push_at l i e) t d.
Proof.
  intros [->|(n & x & -> & Hx & Hd)]; [by left|]. right. destruct (push_at_some l i e n x Hx) as (x' & Hx' & _ & _ & Hd'). exists n, x'.
  split; [done|]. split; [done|]. rewrite Hd'. case_decide; [apply elem_of_app; by left | done].
Qed.

Lemma in_tree_push l i e t d : in_tree l t d -> in_tree (push_at l i e) t d.
Proof.
  intros (n & x & -> & Hx & Hd). destruct (push_at_some l i e n x Hx) as (x' & Hx' & _ & _ & Hd'). exists n, x'.
  split; [done|]. split; [done|]. rewrite Hd'. case_decide; [apply elem_of_app; by left | done].
Qed.

(** ** Placing a dependency *)

Lemma inv_place fin done b i x e q : inv fin done b -> list_ b !! i = Some x -> e ∉ entry_dependencies x ->
  0 <= e < count (dependencies lf) -> index (buf_resolutions lf) e = Some q -> 0 <= q < count (packages lf) ->
  (forall t d, (t, d) ∈ fin -> served (push_at (list_ b) i e) t d) -> inv fin done (place lf b i e q).
Proof.
  intros Hinv Hx He Hrange Hq Hqc Hfin. destruct (lockfile_ok_spec lf Hok) as (Hc & _).
  assert (Hl : list_ok lf (push_at (list_ b) i e)).
  { eapply list_ok_push; [apply Hinv | done | done | done |]. unfold count, ROOT_DEP_ID, invalid_package_id, INVALID_ID in *. lia. }
  assert (Hlist : list_ (place lf b i e q) = push_at (list_ b) i e) by (unfold place; by destruct (needs_folder lf q)).
  set (item := {| item_tree_id := Z.of_nat i; item_dependency_id := e; item_hoist_root_id := INVALID_ID |}).
  assert (Hqueue : queue (place lf b i e q) = queue b ++ (if needs_folder lf q then [item] else [])).
  { unfold place. destruct (needs_folder lf q); cbn; [done | by rewrite app_nil_r]. }
  assert (Hin : in_tree (push_at (list_ b) i e) (Z.of_nat i) e).
  { destruct (push_at_some _ i e i x Hx) as (x' & Hx' & _ & _ & Hd'). rewrite decide_True in Hd' by done. exists i, x'. split; [done|]. split; [done|].
    rewrite Hd'. apply elem_of_app. right. by apply list_elem_of_singleton. }
  assert (Hnew : (Z.of_nat i, e) ∉ done ++ pairs (queue b)).
  { intros [Hd|Hqu]%elem_of_app.
    - destruct (inv_known _ _ _ Hinv _ _ Hd) as [Hi|(n & y & Hn & Hy & Hdy)]; [apply lookup_lt_Some in Hx; destruct (inv_list _ _ _ Hinv); lia|].
      apply Nat2Z.inj in Hn as <-. congruence.
    - apply list_elem_of_fmap in Hqu as (it & [= Ht Hd] & Hit). destruct (inv_queue _ _ _ Hinv it Hit) as [_ (n & y & Hn & Hy & Hdy)].
      rewrite <- Ht in Hn. apply Nat2Z.inj in Hn as <-. rewrite <- Hd in Hdy. congruence. }
  split; rewrite ?Hlist, ?Hqueue.
  - done.
  - unfold place. destruct (needs_folder lf q); apply Hinv.
  - intros n y d Hy Hd. rewrite Hlist in Hy. destruct (push_at_lookup _ _ _ _ _ Hy) as (y0 & Hy0 & _ & _ & Hd0). rewrite Hd0 in Hd. case_decide.
    + apply elem_of_app in Hd as [Hd|Hd]; [|apply list_elem_of_singleton in Hd as ->]; [by eapply (inv_resolved _ _ _ Hinv) | by exists q].
    + by eapply (inv_resolved _ _ _ Hinv).
  - intros it Hit. apply elem_of_app in Hit as [Hit|Hit].
    + destruct (inv_queue _ _ _ Hinv it Hit) as [H1 H2]. split; [done | by apply in_tree_push].
    + destruct (needs_folder lf q); [|by apply not_elem_of_nil in Hit]. by apply list_elem_of_singleton in Hit as ->.
  - unfold pairs. rewrite fmap_app, app_assoc. fold (pairs (queue b)). destruct (needs_folder lf q); cbn; [|rewrite app_nil_r; apply Hinv].
    apply NoDup_app. split; [apply Hinv|]. split; [|apply NoDup_singleton]. intros z Hz ->%list_elem_of_singleton. done.
  - intros n y d r Hy Hd Hr Hnf. unfold pairs. rewrite fmap_app, app_assoc. fold (pairs (queue b)). apply elem_of_app.
    destruct (push_at_lookup _ _ _ _ _ Hy) as (y0 & Hy0 & _ & _ & Hd0). rewrite Hd0 in Hd. case_decide as Hni; [|left; by eapply (inv_placed _ _ _ Hinv)].
    apply elem_of_app in Hd as [Hd|Hd]; [|apply list_elem_of_singleton in Hd as ->]; [left; by eapply (inv_placed _ _ _ Hinv)|]. right. subst n.
    rewrite Hq in Hr. injection Hr as <-. rewrite Hnf. by apply list_elem_of_singleton.
  - intros t d Hd. apply known_push. by apply Hinv.
  - intros n y Hy. destruct (push_at_lookup _ _ _ _ _ Hy) as (y0 & Hy0 & -> & -> & _). by eapply (inv_own _ _ _ Hinv).
  - done.
Qed.

End Inv.
