(* ===== verification/HoistLoop.v ===== *)
(** The invariant through the processing of one package, and through the loop. *)
From stdpp Require Import gmap list.
From S2P Require Import Prelude BunCore SemverString SemverVersion SemverRange SemverQuery Glob Paths Hoist HoistSpec HoistStep HoistPlace HoistInv.

Section Loop.
Context {F : ByteSearch} {Fok : ByteSearchOk F} {US : UnstableSort} {USok : UnstableSortOk US}.
Context (MAX_PATH_BYTES : Z) (pool : bytes) (lf : Lockfile) (opts : FilterOptions) (Hok : lockfile_ok lf = true).
Notation wanted := (wanted MAX_PATH_BYTES pool lf opts).
Notation inv := (inv MAX_PATH_BYTES pool lf opts).
Notation served := (served MAX_PATH_BYTES pool lf opts).
Notation process_dep := (process_dep MAX_PATH_BYTES pool lf (Filter opts)).
Notation process_deps := (process_deps MAX_PATH_BYTES pool lf (Filter opts)).
Notation process_subtree := (process_subtree MAX_PATH_BYTES pool lf (Filter opts)).

(** The workspace filters answer for every package. *)
Definition filters_return : Prop := forall p, p ∈ packages lf ->
  is_Some (workspace_matches MAX_PATH_BYTES pool lf opts (workspace_filters opts) (string_slice (package_name p) (string_bytes lf))
             (resolution p) (bool_decide (workspace_filters opts = []))).

Context (Hfr : filters_return).

Definition same_state (b b' : Builder) : Prop := list_ b' = list_ b /\ resolutions b' = resolutions b /\ queue b' = queue b.

Lemma inv_same fin done b b' : same_state b b' -> inv fin done b -> inv fin done b'.
Proof.
  intros (H1 & H2 & H3) Hinv. destruct Hinv. split; rewrite ?H1, ?H2, ?H3; try done. intros n x d Hx. rewrite H1 in Hx. by eapply inv_resolved.
Qed.

Lemma skip_some p e q : index (buf_resolutions lf) e = Some q -> (exists pk, index (packages lf) p = Some pk) -> (exists dep, index (dependencies lf) e = Some dep) ->
  exists s, skipped_by_filter MAX_PATH_BYTES pool lf (Filter opts) (builder_init lf) p e q = Some s.
Proof.
  intros Hq [pk Hp] [dep Hd]. cbn [skipped_by_filter builder_init resolutions].
  assert (Hf : exists f, is_filtered_dependency_or_workspace MAX_PATH_BYTES pool lf opts (buf_resolutions lf) e p = Some f).
  { unfold is_filtered_dependency_or_workspace. rewrite Hq, Hd, Hp. cbn [mbind option_bind]. destruct (Z.leb_spec (Z.of_nat (length (packages lf))) q); [by eexists|].
    destruct (lockfile_ok_spec lf Hok) as (Hc & Hr & _). destruct (Hr e q Hq) as [->|Hqr]; [unfold count, invalid_package_id in *; lia|].
    destruct (package_some lf q Hqr) as [pq Hpq]. rewrite Hpq. cbn [mbind option_bind]. destruct (is_disabled _ _ _); [by eexists|].
    destruct (is_bundled _); [by eexists|]. destruct (negb (is_enabled _ _)); [by eexists|]. destruct (_ || _); [by eexists|].
    destruct (negb (is_workspace _)); [by eexists|]. destruct (Hfr pq (list_elem_of_lookup_2 _ _ _ Hpq)) as [m ->]. by eexists. }
  destruct Hf as [[] ->]; cbn [mbind option_bind]; [by eexists|]. destruct (q =? _); [by eexists|]. destruct (packages_to_install opts); by eexists.
Qed.

Lemma process_unwanted b n p e : resolutions b = buf_resolutions lf -> dep_of lf p e -> (forall q dep, ~ wanted p e q dep) ->
  exists b', process_dep b n INVALID_ID p e = Some (b', true) /\ same_state b b'.
Proof.
  intros Hb (pk & Hpk & He) Hw. assert (Hr := dep_range lf Hok p pk e Hpk He). destruct (lockfile_ok_spec lf Hok) as ((_ & _ & Hlen) & _).
  destruct (index_some _ _ Hr) as [dep Hdep]. destruct (index_some (buf_resolutions lf) e) as [q Hq]; [unfold count in Hr; lia|].
  unfold Hoist.process_dep. rewrite Hb, Hq. cbn [mbind option_bind]. rewrite (skip_resolutions MAX_PATH_BYTES pool lf opts b p e q Hb).
  destruct (skip_some p e q Hq (ex_intro _ pk Hpk) (ex_intro _ dep Hdep)) as [[] Hs]; rewrite Hs; cbn [mbind option_bind]; [by exists b|].
  rewrite Hdep. cbn [mbind option_bind]. rewrite <- negb_orb. destruct (name_ok lf dep) eqn:Hn.
  - by destruct (Hw q dep).
  - unfold name_ok in Hn. rewrite Hn. cbn [negb]. by eexists.
Qed.

(** * One package *)

Section Package.
Context (fin : list (Z * Z)) (cur : Z * Z) (n : nat) (p : Z).
Context (Hfin : forall t d, (t, d) ∈ fin -> t = INVALID_ID \/ 0 <= t < Z.of_nat n) (Hcur : cur ∉ fin).

(** While its dependencies are processed: those of [pre] are done. *)
Record going (pre : list Z) (b : Builder) : Prop := {
  going_inv : inv fin (fin ++ [cur]) b;
  going_length : length (list_ b) = S n;
  going_own : forall m x, list_ b !! m = Some x -> if decide (m = n) then (parent (tree x), dependency_id (tree x)) = cur
    else (parent (tree x), dependency_id (tree x)) ∈ fin;
  going_from : forall x d, list_ b !! n = Some x -> d ∈ entry_dependencies x -> d ∈ pre;
  going_served : forall e q dep, e ∈ pre -> wanted p e q dep ->
    exists t d, node_lookup lf (list_ b) (Z.of_nat n) (name_hash dep) = Some (t, d) /\ accepts lf e d }.

Lemma accepts_same e d q dep : index (buf_resolutions lf) e = Some q -> index (buf_resolutions lf) d = Some q -> index (dependencies lf) e = Some dep -> accepts lf e d.
Proof. intros He Hd Hdep. exists q, q, dep. split; [done|]. split; [done|]. split; [done | by left]. Qed.

Lemma same_hash e e' dep : dep_of lf p e -> dep_of lf p e' -> index (dependencies lf) e = Some dep -> dep_hash lf e' = Some (name_hash dep) ->
  index (buf_resolutions lf) e' = index (buf_resolutions lf) e.
Proof.
  intros (pk & Hpk & He) (pk' & Hpk' & He') Hdep Hh. assert (pk' = pk) as -> by congruence. destruct (lockfile_ok_spec lf Hok) as (_ & _ & H).
  destruct (H p pk Hpk) as (_ & _ & _ & Hs). apply Hs; [done | done|]. rewrite Hh. unfold dep_hash. by rewrite Hdep.
Qed.

Lemma going_fin_start pre b t d m : going pre b -> (t, d) ∈ fin -> start (list_ b) t d = Z.of_nat m -> (m < length (list_ b))%nat -> (m < n)%nat.
Proof.
  intros Hg Htd Hs Hm. unfold start in Hs. assert (Hl := going_length pre b Hg). destruct (own_folder (list_ b) t d) as [k|] eqn:Hk; cbn in Hs.
  - apply Nat2Z.inj in Hs as <-. destruct (own_folder_some _ _ _ _ Hk) as (x & Hx & H1 & H2). assert (Ho := going_own pre b Hg k x Hx).
    case_decide; [|lia]. rewrite H1, H2 in Ho. congruence.
  - subst t. destruct (Hfin _ _ Htd) as [Hi|]; [|lia]. destruct (inv_list _ _ _ _ _ _ _ (going_inv pre b Hg)). lia.
Qed.

Lemma in_folder_none deps e h : dep_hash lf e = Some h -> in_folder lf deps h = None -> e ∉ deps.
Proof.
  intros Hh Hn He. unfold in_folder in Hn. destruct (list_find _ deps) as [[]|] eqn:Hf; [done|]. apply list_find_None in Hf.
  rewrite Forall_forall in Hf. by apply (Hf e He).
Qed.

Lemma root_none l x h m : list_ok lf l -> l !! 0%nat = Some x -> (m < length l)%nat -> node_lookup lf l (Z.of_nat m) h = None -> in_folder lf (entry_dependencies x) h = None.
Proof.
  intros Hl Hx. induction m as [m IH] using lt_wf_ind. intros Hm Hn. destruct (lookup_lt_is_Some_2 _ _ Hm) as [y Hy].
  rewrite (node_lookup_step lf l m y h Hl Hy) in Hn. destruct (in_folder lf (entry_dependencies y) h) eqn:Hf; [done|].
  case_bool_decide as H0; [subst m; congruence|]. destruct (entry_parent lf m y (proj2 Hl m y Hy)) as [[-> _]|Hp]; [done|].
  apply (IH (Z.to_nat (parent (tree y)))); [lia | lia|]. by rewrite Z2Nat.id by lia.
Qed.

Lemma going_place pre b i e q dep : going pre b -> wanted p e q dep -> dep_of lf p e -> (forall d, d ∈ pre -> dep_of lf p d) -> e ∉ pre ->
  placement lf b n i q dep -> going (pre ++ [e]) (place lf b i e q).
Proof.
  intros Hg Hw He Hpre Hnew Hpl.
  assert (Hi : i = n \/ (i = 0%nat /\ node_lookup lf (list_ b) (Z.of_nat n) (name_hash dep) = None)) by (destruct Hpl as [[-> _]|]; [by left | by right]).
  clear Hpl. assert (Hinv := going_inv pre b Hg). assert (Hlen := going_length pre b Hg). assert (Hl := inv_list _ _ _ _ _ _ _ Hinv).
  destruct (wanted_plain MAX_PATH_BYTES pool lf opts Hok p e q dep Hw) as (Hqc & _ & _). destruct Hw as (Hq & Hdep & _).
  assert (Hh : dep_hash lf e = Some (name_hash dep)) by (unfold dep_hash; by rewrite Hdep).
  assert (Hil : (i < length (list_ b))%nat) by lia. destruct (lookup_lt_is_Some_2 _ _ Hil) as [x Hx].
  assert (Hnl : (n < length (list_ b))%nat) by lia. destruct (lookup_lt_is_Some_2 _ _ Hnl) as [xn Hxn].
  assert (Hex : e ∉ entry_dependencies x).
  { destruct Hi as [->|[-> Hnone]]; [intros Hd; by apply Hnew, (going_from pre b Hg x)|]. eapply in_folder_none; [done|]. by eapply root_none. }
  assert (Hr : 0 <= e < count (dependencies lf)) by (destruct He as (pk & Hpk & He); by eapply dep_range).
  assert (Hpl : inv fin (fin ++ [cur]) (place lf b i e q)).
  { eapply inv_place; [done | done | exact Hx | done | done | done | done|]. intros t d Htd.
    assert (Hk := inv_known _ _ _ _ _ _ _ Hinv t d ltac:(apply elem_of_app; by left)).
    eapply served_push; [done | | done | by apply Hinv | destruct Hi as [->|[-> _]]; [right; intros m; by eapply going_fin_start | by left]].
    eapply list_ok_push; [done | done | done | done|]. destruct (lockfile_ok_spec lf Hok) as (Hc & _).
    unfold count, ROOT_DEP_ID, invalid_package_id, INVALID_ID in *. lia. }
  assert (Hlist : list_ (place lf b i e q) = push_at (list_ b) i e) by (unfold place; by destruct (needs_folder lf q)).
  assert (Hl' := inv_list _ _ _ _ _ _ _ Hpl). rewrite Hlist in Hl'. split; rewrite ?Hlist.
  - done.
  - unfold push_at. by rewrite length_alter.
  - intros m y Hy. destruct (push_at_lookup _ _ _ _ _ Hy) as (y0 & Hy0 & -> & -> & _). by apply (going_own pre b Hg).
  - intros y d Hy Hd. destruct (push_at_lookup _ _ _ _ _ Hy) as (y0 & Hy0 & _ & _ & Hd0). rewrite Hd0 in Hd. apply elem_of_app.
    case_decide; [apply elem_of_app in Hd as [Hd|Hd]; [left | by right]|left]; by eapply going_from.
  - intros e1 q1 dep1 He1 Hw1.
    assert (Hold : (exists t d, node_lookup lf (list_ b) (Z.of_nat n) (name_hash dep1) = Some (t, d) /\ accepts lf e1 d) \/ e1 = e).
    { apply elem_of_app in He1 as [He1|He1]; [left; by eapply going_served | right; by apply list_elem_of_singleton]. }
    assert (Hdep1 : dep_of lf p e1) by (apply elem_of_app in He1 as [He1|He1]; [by apply Hpre | by apply list_elem_of_singleton in He1 as ->]).
    destruct Hw1 as (Hq1 & Hd1 & _).
    assert (Hpush : forall d, dep_of lf p d -> dep_hash lf d = Some (name_hash dep1) -> accepts lf e1 d).
    { intros d Hd Hdh. apply (accepts_same e1 d q1 dep1); [done | | done]. by rewrite (same_hash e1 d dep1). }
    destruct Hi as [->|[-> Hnone]].
    + rewrite (node_lookup_push_self lf _ n xn e _ Hl Hl' Hxn). destruct (in_folder lf (entry_dependencies xn) (name_hash dep1)) as [y|] eqn:Hy.
      * exists (Z.of_nat n), y. split; [done|]. destruct (in_folder_some lf _ _ _ Hy) as [Hyx Hyh]. apply Hpush; [|done]. apply Hpre. by apply (going_from pre b Hg xn).
      * case_decide as Hde; [exists (Z.of_nat n), e; split; [done | by apply Hpush]|]. destruct Hold as [Hold| ->]; [done|].
        assert (dep1 = dep) as -> by congruence. done.
    + rewrite (node_lookup_push_root lf _ e n _ Hl Hl' Hnl). destruct Hold as [(t & d & -> & Ha)| ->]; [by exists t, d|].
      assert (dep1 = dep) as -> by congruence. rewrite Hnone, decide_True by done. exists 0, e. split; [done|]. by apply Hpush.
Qed.

Lemma going_more pre b b' e : same_state b b' -> going pre b -> (forall q dep, wanted p e q dep ->
  exists t d, node_lookup lf (list_ b) (Z.of_nat n) (name_hash dep) = Some (t, d) /\ accepts lf e d) -> going (pre ++ [e]) b'.
Proof.
  intros Hs Hg He. assert (Hinv := inv_same _ _ _ _ Hs (going_inv pre b Hg)). destruct Hs as (Hs & _). split; rewrite ?Hs.
  - done.
  - by apply Hg.
  - by apply Hg.
  - intros x d Hx Hd. apply elem_of_app. left. by eapply going_from.
  - intros e1 q1 dep1 He1 Hw1. apply elem_of_app in He1 as [He1|He1]; [by eapply going_served|].
    apply list_elem_of_singleton in He1 as ->. by eapply He.
Qed.

Lemma wanted_dec e : dep_of lf p e -> (exists q dep, wanted p e q dep) \/ (forall q dep, ~ wanted p e q dep).
Proof.
  intros (pk & Hpk & He). assert (Hr := dep_range lf Hok p pk e Hpk He). destruct (lockfile_ok_spec lf Hok) as ((_ & _ & Hlen) & _).
  destruct (index_some _ _ Hr) as [dep Hdep]. destruct (index_some (buf_resolutions lf) e) as [q Hq]; [unfold count in Hr; lia|].
  destruct (decide (name_ok lf dep = true /\ skipped_by_filter MAX_PATH_BYTES pool lf (Filter opts) (builder_init lf) p e q = Some false)) as [[Hn Hs]|Hno].
  - left. by exists q, dep.
  - right. intros q' dep' (Hq' & Hd' & Hn & Hs). apply Hno. by simplify_eq.
Qed.

(** What one round may do to the builder. *)
Definition effect (b : Builder) (e : Z) (b' : Builder) : Prop :=
  same_state b b' \/ exists i q dep, wanted p e q dep /\ placement lf b n i q dep /\ b' = place lf b i e q.

Lemma process_dep_ok pre b e : going pre b -> dep_of lf p e -> (forall d, d ∈ pre -> dep_of lf p d) -> e ∉ pre ->
  exists b', process_dep b (Z.of_nat n) INVALID_ID p e = Some (b', true) /\ going (pre ++ [e]) b' /\ effect b e b'.
Proof.
  intros Hg He Hpre Hnew. assert (Hinv := going_inv pre b Hg). assert (Hlen := going_length pre b Hg).
  destruct (wanted_dec e He) as [(q & dep & Hw)|Hw].
  - destruct (process_wanted MAX_PATH_BYTES pool lf opts Hok b n p e q dep) as [[Hp Hf]|(i & Hi & Hp)];
      [by apply Hinv | by apply Hinv | by eapply inv_resolved | lia | done | | |].
    + intros d Hd. destruct (node_lookup_found lf _ _ _ _ _ (inv_list _ _ _ _ _ _ _ Hinv) Hd) as (m & x & Hm & _ & Hx & Hdx & Hdh).
      apply Nat2Z.inj in Hm as <-. destruct Hw as (Hq & Hdp & _). rewrite (same_hash e d dep); [done | done | | done | done]. apply Hpre. by eapply going_from.
    + exists b. split; [done|]. split; [|by left]. eapply going_more; [done | done|]. intros q' dep' Hw'.
      assert (dep' = dep) as -> by (destruct Hw as (_ & H1 & _), Hw' as (_ & H2 & _); congruence). done.
    + exists (place lf b i e q). split; [done|]. split; [by apply (going_place pre b i e q dep)|]. right. by exists i, q, dep.
  - destruct (process_unwanted b (Z.of_nat n) p e (inv_res _ _ _ _ _ _ _ Hinv) He Hw) as (b1 & Hp & Hs). exists b1. split; [done|].
    split; [|by left]. eapply going_more; [done | done|]. intros q dep Hq. by destruct (Hw q dep).
Qed.

Inductive effects : Builder -> list Z -> Builder -> Prop :=
| effects_nil b : effects b [] b
| effects_cons pre b e b1 ids b2 : going pre b -> dep_of lf p e -> (forall d, d ∈ pre -> dep_of lf p d) -> effect b e b1 -> effects b1 ids b2 -> effects b (e :: ids) b2.

Lemma process_deps_ok ids : forall pre b, going pre b -> NoDup (pre ++ ids) -> (forall d, d ∈ pre ++ ids -> dep_of lf p d) ->
  exists b', process_deps b (Z.of_nat n) INVALID_ID p ids = Some (b', true) /\ going (pre ++ ids) b' /\ effects b ids b'.
Proof.
  induction ids as [|e ids IH]; intros pre b Hg Hnd Hdep; cbn [Hoist.process_deps]; [exists b; rewrite app_nil_r; split; [done|]; split; [done | constructor]|].
  assert (He : dep_of lf p e) by (apply Hdep, elem_of_app; right; apply list_elem_of_here).
  destruct (process_dep_ok pre b e Hg) as (b1 & -> & Hg1 & Heff).
  - done.
  - intros d Hd. apply Hdep, elem_of_app. by left.
  - intros Hin. apply NoDup_app in Hnd as (_ & Hnd & _). apply (Hnd e Hin), list_elem_of_here.
  - cbn [mbind option_bind fst snd]. destruct (IH (pre ++ [e]) b1 Hg1) as (b2 & -> & Hg2 & He2); [by rewrite <- app_assoc | by rewrite <- app_assoc|].
    exists b2. split; [done|]. rewrite <- app_assoc in Hg2. split; [done|]. econstructor; [done | done | | done | done].
    intros d Hd. apply Hdep, elem_of_app. by left.
Qed.

End Package.

(** * Starting and finishing a package *)

Lemma in_tree_snoc l x t d : in_tree l t d -> in_tree (l ++ [x]) t d.
Proof. intros (n & y & -> & Hy & Hd). exists n, y. split; [done|]. split; [by apply lookup_app_l_Some | done]. Qed.

Lemma inv_shift fin done b item rest : inv fin done b -> queue b = item :: rest ->
  inv fin (done ++ [(item_tree_id item, item_dependency_id item)]) (with_queue b rest).
Proof.
  intros Hinv Hq. destruct Hinv as [H1 H2 H3 H4 H5 H6 H7 H8 H9]. rewrite Hq in *. cbn [pairs fmap list_fmap] in *. split; cbn [with_queue list_ resolutions queue].
  - done.
  - done.
  - done.
  - intros i Hi. apply H4. by right.
  - by rewrite <- app_assoc.
  - intros. rewrite <- app_assoc. by eapply H6.
  - intros t d Hd. apply elem_of_app in Hd as [Hd|Hd]; [by apply H7|]. apply list_elem_of_singleton in Hd. injection Hd as -> ->. right.
    by destruct (H4 item (list_elem_of_here _ _)).
  - intros n x Hx. apply elem_of_app. left. by eapply H8.
  - done.
Qed.

Definition new_tree (n : nat) (t d : Z) : BuilderEntry :=
  {| tree := {| id := Z.of_nat n; dependency_id := d; parent := t; tree_dependencies := {| sl_off := 0; sl_len := 0 |} |}; entry_dependencies := [] |}.

Lemma going_start done b t d p : inv done (done ++ [(t, d)]) b -> (list_ b = [] /\ t = INVALID_ID) \/ 0 <= t < Z.of_nat (length (list_ b)) ->
  Z.of_nat (S (length (list_ b))) < INVALID_ID -> (t, d) ∉ done ->
  (forall m x, list_ b !! m = Some x -> (parent (tree x), dependency_id (tree x)) ∈ done) ->
  going done (t, d) (length (list_ b)) p [] (with_list b (list_ b ++ [new_tree (length (list_ b)) t d])).
Proof.
  intros Hinv Ht Hb Hnew Hown. assert (Hok' : entry_ok lf (length (list_ b)) (new_tree (length (list_ b)) t d)).
  { split; cbn; [done | | done | constructor | constructor]. destruct Ht as [[-> ->]|]; [by left | by right]. }
  assert (Hl := list_ok_snoc lf _ _ (inv_list _ _ _ _ _ _ _ Hinv) Hb Hok').
  assert (Hsnoc : forall m x, (list_ b ++ [new_tree (length (list_ b)) t d]) !! m = Some x ->
    (list_ b !! m = Some x /\ m <> length (list_ b)) \/ (m = length (list_ b) /\ x = new_tree (length (list_ b)) t d)).
  { intros m x Hx. apply lookup_app_Some in Hx as [Hx|[Hm Hx]]; [left; split; [done|]; apply lookup_lt_Some in Hx; lia|].
    apply list_lookup_singleton_Some in Hx as [Hx <-]. right. split; [lia | done]. }
  split; cbn [with_list list_].
  - split; cbn [with_list list_ resolutions queue].
    + done.
    + apply Hinv.
    + intros m x e Hx He. cbn [with_list list_] in Hx. apply Hsnoc in Hx as [[Hx _]|[_ ->]]; [by eapply (inv_resolved _ _ _ _ _ _ _ Hinv)|]. by apply not_elem_of_nil in He.
    + intros i Hi. destruct (inv_queue _ _ _ _ _ _ _ Hinv i Hi) as [H1 H2]. split; [done | by apply in_tree_snoc].
    + apply Hinv.
    + intros m x e q Hx He. apply Hsnoc in Hx as [[Hx _]|[_ ->]]; [by eapply (inv_placed _ _ _ _ _ _ _ Hinv)|]. by apply not_elem_of_nil in He.
    + intros t' d' Hd. destruct (inv_known _ _ _ _ _ _ _ Hinv t' d' Hd) as [->|Hi]; [by left | right; by apply in_tree_snoc].
    + intros m x Hx. apply Hsnoc in Hx as [[Hx _]|[_ ->]]; [by eapply (inv_own _ _ _ _ _ _ _ Hinv)|]. apply elem_of_app. right. by apply list_elem_of_singleton.
    + intros t' d' Hd. apply served_snoc; [apply Hinv | done | apply Hinv, elem_of_app; by left | intros [= -> ->]; done | by apply Hinv].
  - rewrite length_app. cbn. lia.
  - intros m x Hx. apply Hsnoc in Hx as [[Hx Hm]|[-> ->]]; [|by rewrite decide_True]. rewrite decide_False by done.
    by eapply Hown.
  - intros x e Hx He. apply Hsnoc in Hx as [[Hx Hm]|[_ ->]]; [done | by apply not_elem_of_nil in He].
  - intros e q dep He. by apply not_elem_of_nil in He.
Qed.

(** The folder of the package is dropped when it is empty. *)
Definition finish (n : nat) (b : Builder) : option Builder :=
  e ← index (list_ b) (Z.of_nat n);
  Some (if sl_len (tree_dependencies (tree e)) =? 0 then with_list b (take (length (list_ b) - 1) (list_ b)) else b).

Lemma list_ok_take l n : list_ok lf l -> list_ok lf (take n l).
Proof.
  intros [Hb Hok']. split; [rewrite length_take; lia|]. intros m x Hx. apply Hok'. by apply lookup_take_Some in Hx as [Hx _].
Qed.

Lemma snoc_of (l : list BuilderEntry) n x : length l = S n -> l !! n = Some x -> l = take n l ++ [x].
Proof. intros Hl Hx. rewrite <- (take_S_r _ _ _ Hx). symmetry. apply firstn_all2. lia. Qed.

Lemma going_finish fin t d n p b :
  (forall t' d', (t', d') ∈ fin -> t' = INVALID_ID \/ 0 <= t' < Z.of_nat n) -> (t, d) ∉ fin ->
  ((n = 0%nat /\ t = INVALID_ID) \/ 0 <= t < Z.of_nat n) -> pkg_of lf d = Some p ->
  forall ids, going fin (t, d) n p ids b -> (forall e, dep_of lf p e -> e ∈ ids) ->
  exists b', finish n b = Some b' /\ inv (fin ++ [(t, d)]) (fin ++ [(t, d)]) b' /\ (n <= length (list_ b') <= S n)%nat.
Proof.
  intros Hfin Hcur Ht Hp ids Hg Hids. assert (Hinv := going_inv _ _ _ _ _ _ Hg). assert (Hlen := going_length _ _ _ _ _ _ Hg).
  assert (Hl := inv_list _ _ _ _ _ _ _ Hinv). destruct (lookup_lt_is_Some_2 (list_ b) n ltac:(lia)) as [x Hx].
  assert (Hpx := going_own _ _ _ _ _ _ Hg n x Hx). rewrite decide_True in Hpx by done. injection Hpx as Hpt Hpd.
  unfold finish. rewrite index_nat, Hx. cbn [mbind option_bind]. destruct (entry_slice lf n x (proj2 Hl n x Hx)) as [_ ->].
  assert (Hserved : forall l, (forall e q dep t' d', e ∈ ids -> wanted p e q dep -> node_lookup lf (list_ b) (Z.of_nat n) (name_hash dep) = Some (t', d') ->
    require lf l t d (name_hash dep) = Some (t', d')) -> served l t d).
  { intros l Hreq p' e q dep Hp' He Hw. assert (p' = p) as -> by congruence.
    destruct (going_served _ _ _ _ _ _ Hg e q dep (Hids e He) Hw) as (t' & d' & Hnl & Ha). exists t', d'. split; [|done]. by eapply Hreq; [apply Hids|..]. }
  destruct (Z.eqb_spec (Z.of_nat (length (entry_dependencies x))) 0) as [H0|H0].
  - assert (Hex : entry_dependencies x = []) by (apply length_zero_iff_nil; lia). assert (Hsn := snoc_of _ n x Hlen Hx).
    assert (Hl0 := list_ok_take (list_ b) n Hl). set (l0 := take n (list_ b)) in *. assert (Hl0n : length l0 = n) by (unfold l0; rewrite length_take; lia).
    rewrite Hlen. replace (S n - 1)%nat with n by lia. fold l0. eexists. split; [done|]. split; [|cbn; lia].
    assert (Htree : forall t' d', in_tree (list_ b) t' d' -> in_tree l0 t' d').
    { intros t' d' (m & y & -> & Hy & Hd'). exists m, y. split; [done|]. split; [|done]. unfold l0. apply lookup_take_Some. split; [done|].
      apply lookup_lt_Some in Hy as Hlt. destruct (decide (m = n)) as [->|]; [|lia]. rewrite Hx in Hy. injection Hy as <-. rewrite Hex in Hd'. by apply not_elem_of_nil in Hd'. }
    assert (Hsub : forall m y, l0 !! m = Some y -> list_ b !! m = Some y /\ (m < n)%nat) by (intros m y Hy; by apply lookup_take_Some in Hy). clearbody l0.
    split; cbn [with_list list_ resolutions queue].
    + done.
    + apply Hinv.
    + intros m y e Hy He. cbn [with_list list_] in Hy. apply Hsub in Hy as [Hy _]. by eapply (inv_resolved _ _ _ _ _ _ _ Hinv).
    + intros i Hi. destruct (inv_queue _ _ _ _ _ _ _ Hinv i Hi) as [H1 H2]. split; [done | by apply Htree].
    + apply Hinv.
    + intros m y e q Hy He. apply Hsub in Hy as [Hy _]. by eapply (inv_placed _ _ _ _ _ _ _ Hinv).
    + intros t' d' Hd. destruct (inv_known _ _ _ _ _ _ _ Hinv t' d' Hd) as [->|Hi]; [by left | right; by apply Htree].
    + intros m y Hy. apply Hsub in Hy as [Hy _]. by eapply (inv_own _ _ _ _ _ _ _ Hinv).
    + intros t' d' Hd. apply elem_of_app in Hd as [Hd|Hd].
      * intros p' e q dep Hp' He Hw. destruct (inv_served _ _ _ _ _ _ _ Hinv t' d' Hd p' e q dep Hp' He Hw) as (u & v & Hr & Ha). exists u, v. split; [|done].
        assert (Hk := inv_known _ _ _ _ _ _ _ Hinv t' d' ltac:(apply elem_of_app; by left)).
        unfold require in *. fold (start (list_ b) t' d') in Hr. destruct (start_folder lf (list_ b) t' d' _ _ Hl Hk Hr) as (m & Hm & Hlt & _).
        assert (Hmn : (m < n)%nat) by by eapply going_fin_start.
        assert (Hst : start l0 t' d' = Z.of_nat m).
        { rewrite <- Hm. rewrite Hsn. unfold start. rewrite own_folder_snoc; [done|]. rewrite Hpt, Hpd. intros [= -> ->]. done. }
        fold (start l0 t' d'). rewrite Hst. rewrite Hm in Hr. rewrite Hsn in Hr, Hl. by rewrite node_lookup_snoc in Hr by (done || lia).
      * apply list_elem_of_singleton in Hd. injection Hd as -> ->. apply Hserved. intros e q dep t' d' _ _ Hnl.
        destruct (decide (n = 0%nat)) as [Hn0|Hn0].
        { exfalso. rewrite Hn0 in Hnl, Hx. rewrite (node_lookup_step lf (list_ b) 0 x _ Hl Hx), Hex in Hnl. done. }
        rewrite Hsn in Hnl, Hl. replace (Z.of_nat n) with (Z.of_nat (length l0)) in Hnl by lia.
        rewrite node_lookup_empty in Hnl; [|done | done | done | intros ->; cbn in Hl0n; lia]. rewrite Hpt in Hnl. unfold require.
        destruct (own_folder l0 t d) as [m|] eqn:Hm; [|done]. exfalso. destruct (own_folder_some _ _ _ _ Hm) as (y & Hy & <- & <-).
        apply Hsub in Hy as [Hy Hlt]. assert (Ho := going_own _ _ _ _ _ _ Hg m y Hy). rewrite decide_False in Ho by lia. done.
  - eexists. split; [done|]. split; [|lia]. destruct Hinv as [H1 H2 H3 H4 H5 H6 H7 H8 H9]. split; try done.
    intros t' d' Hd. apply elem_of_app in Hd as [Hd|Hd]; [by apply H9|]. apply list_elem_of_singleton in Hd. injection Hd as -> ->.
    apply Hserved. intros e q dep t' d' _ _ Hnl. unfold require. destruct (own_folder (list_ b) t d) as [m|] eqn:Hm.
    + destruct (own_folder_some _ _ _ _ Hm) as (y & Hy & Hy1 & Hy2). assert (Ho := going_own _ _ _ _ _ _ Hg m y Hy). case_decide as Hmn; [by subst m|].
      rewrite Hy1, Hy2 in Ho. done.
    + exfalso. unfold own_folder in Hm. destruct (list_find _ (list_ b)) eqn:Hf; [done|]. apply list_find_None in Hf. rewrite Forall_lookup in Hf.
      by apply (Hf n x Hx).
Qed.

(** * The processing of one package *)

Lemma sorted_deps_ok i pk : index (packages lf) i = Some pk -> exists ids, sorted_deps lf (package_resolutions pk) = Some ids /\ ids ≡ₚ package_deps pk.
Proof.
  intros Hpk. destruct (lockfile_ok_spec lf Hok) as (Hc & _ & H). destruct (H i pk Hpk) as (H1 & H2 & H3 & _).
  unfold sorted_deps, slice_begin, slice_end, trunc32. unfold count, ROOT_DEP_ID, invalid_package_id, U32_MAX in *. rewrite Z.mod_small by lia.
  replace (sl_off (package_resolutions pk) + sl_len (package_resolutions pk) - sl_off (package_resolutions pk)) with (sl_len (package_resolutions pk)) by lia.
  rewrite bool_decide_true; [eexists; split; [done | apply USok]|]. apply Forall_forall. intros d Hd%elem_of_seqZ. lia.
Qed.

(** What processing a package may do to the builder: nothing, or a new folder
    that its dependencies are hoisted from. *)
Definition subtree_effect (fin : list (Z * Z)) (t d p : Z) (b b' : Builder) : Prop :=
  b' = b \/ exists ids b1, (forall e, e ∈ ids -> dep_of lf p e) /\ NoDup ids /\
    effects fin (t, d) (length (list_ b)) p (with_list b (list_ b ++ [new_tree (length (list_ b)) t d])) ids b1 /\ finish (length (list_ b)) b1 = Some b'.

Lemma process_subtree_ok fin t d p pk b : inv fin (fin ++ [(t, d)]) b -> (list_ b = [] /\ t = INVALID_ID) \/ 0 <= t < Z.of_nat (length (list_ b)) ->
  Z.of_nat (S (length (list_ b))) < INVALID_ID -> (t, d) ∉ fin ->
  (forall m x, list_ b !! m = Some x -> (parent (tree x), dependency_id (tree x)) ∈ fin) ->
  (forall t' d', (t', d') ∈ fin -> t' = INVALID_ID \/ 0 <= t' < Z.of_nat (length (list_ b))) ->
  pkg_of lf d = Some p -> index (packages lf) p = Some pk ->
  exists b', process_subtree b t d INVALID_ID = Some (b', true) /\ inv (fin ++ [(t, d)]) (fin ++ [(t, d)]) b' /\
    (length (list_ b) <= length (list_ b') <= S (length (list_ b)))%nat /\ subtree_effect fin t d p b b'.
Proof.
  intros Hinv Ht Hb Hcur Hown Hfin Hp Hpk. unfold Hoist.process_subtree. unfold pkg_of in Hp. rewrite (inv_res _ _ _ _ _ _ _ Hinv), Hp. cbn [mbind option_bind].
  rewrite Hpk. cbn [mbind option_bind]. destruct (lockfile_ok_spec lf Hok) as (Hc & _ & H). destruct (H p pk Hpk) as (H1 & H2 & H3 & _).
  destruct (Z.eqb_spec (sl_len (package_resolutions pk)) 0) as [Hz|Hz].
  - exists b. split; [done|]. split; [|split; [lia | by left]]. destruct Hinv as [I1 I2 I3 I4 I5 I6 I7 I8 I9]. split; try done.
    intros t' d' Hd. apply elem_of_app in Hd as [Hd|Hd]; [by apply I9|]. apply list_elem_of_singleton in Hd. injection Hd as -> ->.
    intros p' e q dep Hp' (pk' & Hpk' & He). unfold pkg_of in Hp'. assert (p' = p) as -> by congruence. assert (pk' = pk) as -> by congruence.
    unfold package_deps in He. rewrite Hz in He. apply elem_of_seqZ in He. lia.
  - destruct (sorted_deps_ok p pk Hpk) as (ids & -> & Hperm). cbn [mbind option_bind].
    assert (Hid : trunc32 (Z.of_nat (length (list_ b))) = Z.of_nat (length (list_ b))).
    { unfold trunc32. apply Z.mod_small. unfold INVALID_ID, U32_MAX in *. lia. }
    rewrite !Hid. assert (Hg := going_start fin b t d p Hinv Ht Hb Hcur Hown). unfold new_tree in Hg.
    assert (Hdep : forall e, e ∈ ids <-> dep_of lf p e).
    { intros e. rewrite Hperm. split; [intros He; by exists pk|]. intros (pk' & Hpk' & He). by simplify_eq. }
    destruct (process_deps_ok fin (t, d) (length (list_ b)) p Hfin Hcur ids [] _ Hg) as (b1 & -> & Hg1 & Heff).
    { cbn. rewrite Hperm. apply NoDup_seqZ. }
    { intros e He. by apply Hdep. }
    cbn [mbind option_bind fst snd app] in *.
    destruct (going_finish fin t d (length (list_ b)) p b1 Hfin Hcur) with (ids := ids) as (b2 & Hf & Hi2 & Hl2); [| done | done | by intros e He; apply Hdep|].
    { destruct Ht as [[-> ->]|]; [by left | by right]. }
    unfold finish in Hf. destruct (index (list_ b1) (Z.of_nat (length (list_ b)))) eqn:Hix; [|done]. cbn [mbind option_bind] in *. injection Hf as Hf. rewrite Hf. exists b2.
    split; [done|]. split; [done|]. split; [done|]. right. exists ids, b1. split; [by intros e He; apply Hdep|]. split; [rewrite Hperm; apply NoDup_seqZ|].
    split; [done|]. unfold finish. rewrite Hix. cbn [mbind option_bind]. by rewrite Hf.
Qed.

(** * The loop *)

Definition done_ok (done : list (Z * Z)) (b : Builder) : Prop := inv done done b /\ (INVALID_ID, ROOT_DEP_ID) ∈ done.

Lemma done_lt done b t d : done_ok done b -> (t, d) ∈ done -> t = INVALID_ID \/ 0 <= t < Z.of_nat (length (list_ b)).
Proof.
  intros [Hinv _] Hd. destruct (inv_known _ _ _ _ _ _ _ Hinv t d Hd) as [|(n & x & -> & Hx & _)]; [by left|]. apply lookup_lt_Some in Hx. right. lia.
Qed.

Lemma pkg_of_dep d q : index (buf_resolutions lf) d = Some q -> pkg_of lf d = Some q.
Proof.
  intros Hq. unfold pkg_of. destruct (lockfile_ok_spec lf Hok) as ((_ & Hr & Hl) & _). rewrite (proj2 (Z.eqb_neq d ROOT_DEP_ID)); [done|].
  intros ->. apply index_lt in Hq. unfold count, ROOT_DEP_ID in *. lia.
Qed.

Lemma hoist_round_ok done b item rest : done_ok done b -> queue b = item :: rest -> Z.of_nat (S (length (list_ b))) < INVALID_ID ->
  exists e b', index (list_ (with_queue b rest)) (item_tree_id item) = Some e /\
    process_subtree (with_queue b rest) (id (tree e)) (item_dependency_id item) (item_hoist_root_id item) = Some (b', true) /\
    done_ok (done ++ [(item_tree_id item, item_dependency_id item)]) b' /\ (length (list_ b') <= S (length (list_ b)))%nat /\
    exists q, index (buf_resolutions lf) (item_dependency_id item) = Some q /\
      subtree_effect done (item_tree_id item) (item_dependency_id item) q (with_queue b rest) b'.
Proof.
  intros [Hinv Hroot] Hq Hb. destruct (inv_queue _ _ _ _ _ _ _ Hinv item) as [Hr (n & x & Hn & Hx & Hd)]; [rewrite Hq; apply list_elem_of_here|].
  assert (Hnd := inv_nodup _ _ _ _ _ _ _ Hinv). rewrite Hq in Hnd. cbn [pairs fmap list_fmap] in Hnd.
  destruct (inv_resolved _ _ _ _ _ _ _ Hinv n x _ Hx Hd) as (q & Hq' & Hqc). destruct (package_some lf q Hqc) as [pk Hpk].
  exists x. cbn [with_queue list_]. rewrite Hn, index_nat, Hx. rewrite (entry_id lf n x (proj2 (inv_list _ _ _ _ _ _ _ Hinv) n x Hx)), Hr.
  assert (Hs := inv_shift done done b item rest Hinv Hq). rewrite Hn in Hs.
  destruct (process_subtree_ok done (Z.of_nat n) (item_dependency_id item) q pk (with_queue b rest) Hs) as (b' & Hp & Hi & Hl & Heff).
  - right. apply lookup_lt_Some in Hx. cbn. lia.
  - done.
  - intros Hin. rewrite <- Hn in Hin. apply NoDup_app in Hnd as (_ & Hnd & _). by apply (Hnd _ Hin), list_elem_of_here.
  - intros m y Hy. by eapply (inv_own _ _ _ _ _ _ _ Hinv).
  - intros t' d' Htd. by apply (done_lt done b t' d').
  - by apply pkg_of_dep.
  - done.
  - exists b'. split; [done|]. split; [done|]. split; [split; [done|]; apply elem_of_app; by left|].
    split; [cbn in Hl; lia|]. by exists q.
Qed.

Lemma hoist_loop_ok fuel : forall done b, done_ok done b -> Z.of_nat (length (list_ b) + fuel) < INVALID_ID ->
  match hoist_loop MAX_PATH_BYTES pool lf fuel (Filter opts) b with
  | Finished b' => exists done', done_ok done' b' /\ queue b' = []
  | OutOfFuel b' => exists done', done_ok done' b' /\ queue b' <> []
  | _ => False
  end.
Proof.
  induction fuel as [|fuel IH]; intros done b Hd Hb; cbn [hoist_loop]; destruct (queue b) as [|item rest] eqn:Hq; try by exists done.
  - exists done. rewrite Hq. done.
  - destruct (hoist_round_ok done b item rest Hd Hq ltac:(lia)) as (e & b' & -> & -> & Hd' & Hl & _). apply (IH _ b' Hd'). lia.
Qed.

Lemma start_ok : exists b, process_subtree (builder_init lf) INVALID_ID ROOT_DEP_ID INVALID_ID = Some (b, true) /\
  done_ok [(INVALID_ID, ROOT_DEP_ID)] b /\ (length (list_ b) <= 1)%nat /\ subtree_effect [] INVALID_ID ROOT_DEP_ID 0 (builder_init lf) b.
Proof.
  destruct (lockfile_ok_spec lf Hok) as (Hc & _). destruct (package_some lf 0 ltac:(lia)) as [pk Hpk].
  destruct (process_subtree_ok [] INVALID_ID ROOT_DEP_ID 0 pk (builder_init lf)) as (b & Hp & Hi & Hl & Heff); [| by left | done | by apply not_elem_of_nil | done | | done | done |].
  - split; cbn [builder_init list_ resolutions queue app pairs fmap list_fmap]; try done.
    + by intros i Hi%not_elem_of_nil.
    + apply NoDup_singleton.
    + intros t d Hd%list_elem_of_singleton. injection Hd as -> ->. by left.
    + by intros t d Hd%not_elem_of_nil.
  - by intros t d Hd%not_elem_of_nil.
  - exists b. split; [done|]. split; [split; [done|]; apply list_elem_of_here|]. split; [cbn in Hl; lia | done].
Qed.

(** From the start, any number of rounds keeps the invariant and panics nowhere. *)
Lemma hoist_builder_ok fuel : Z.of_nat fuel < INVALID_ID - 1 ->
  match hoist_builder MAX_PATH_BYTES pool lf fuel (Filter opts) with
  | Finished b => exists done, done_ok done b /\ queue b = []
  | OutOfFuel b => exists done, done_ok done b /\ queue b <> []
  | _ => False
  end.
Proof.
  intros Hb. unfold hoist_builder. destruct start_ok as (b & -> & Hd & Hl & _). apply (hoist_loop_ok fuel _ b Hd). lia.
Qed.

End Loop.
