(* ===== verification/HoistTerm.v ===== *)
(** When the loop ends: the dependencies whose name has several packages must
    not form a cycle.  Each round then makes a weight smaller: that of the
    queue, with the packages that are alone under their name and not yet at the
    root. *)
From stdpp Require Import gmap list numbers.
From S2P Require Import Prelude BunCore SemverString SemverVersion SemverRange SemverQuery Glob Paths Hoist HoistSpec HoistStep HoistPlace HoistInv HoistLoop.

Section Layers.
Context (lf : Lockfile) (rank : Z -> nat).

Definition all_deps : list Z := seqZ 0 (count (dependencies lf)).

(** Every dependency of the name of [e] has the package of [e]. *)
Definition one_package (e : Z) : bool := forallb (same_name_same_package lf e) all_deps.

(** A dependency of a package goes down in rank, or it is not a folder and its name has one package. *)
Definition layered_dep (p e : Z) : bool :=
  match index (buf_resolutions lf) e with
  | Some q => (q =? invalid_package_id) || (rank q <? rank p)%nat || (one_package e && negb (folder_package lf q))
  | None => true
  end.
Definition layered : bool :=
  forallb (fun p => match index (packages lf) p with Some pk => forallb (layered_dep p) (package_deps pk) | None => true end) (seqZ 0 (count (packages lf))).

(** * The weight *)

Definition width : nat := length (dependencies lf).
Definition weight (r : nat) : nat := (S width ^ r)%nat.
Definition dep_weight (d : Z) : nat := match index (buf_resolutions lf) d with Some q => weight (rank q) | None => 0%nat end.
Definition queue_weight (q : list FillItem) : nat := sum_list_with (fun i => dep_weight (item_dependency_id i)) q.

Definition single_names : list Z := remove_dups (omap (dep_hash lf) (filter (fun e => one_package e = true) all_deps)).
Definition name_weight (h : Z) : nat := match in_folder lf all_deps h with Some d => dep_weight d | None => 0%nat end.
Definition root_deps (l : list BuilderEntry) : list Z := match l with [] => [] | e :: _ => entry_dependencies e end.
Definition late_weight (l : list BuilderEntry) : nat :=
  sum_list_with (fun h => match in_folder lf (root_deps l) h with Some _ => 0%nat | None => name_weight h end) single_names.
Definition total_weight (b : Builder) : nat := (queue_weight (queue b) + late_weight (list_ b))%nat.

Lemma sum_le {A} (f g : A -> nat) l : (forall x, x ∈ l -> f x <= g x)%nat -> (sum_list_with f l <= sum_list_with g l)%nat.
Proof.
  induction l as [|x l IH]; intros Hfg; cbn; [lia|]. assert (H1 := Hfg x (list_elem_of_here _ _)).
  assert (H2 := IH ltac:(intros y Hy; apply Hfg; by right)). lia.
Qed.

Lemma sum_drop {A} (f g : A -> nat) l x c : (forall y, y ∈ l -> f y <= g y)%nat -> x ∈ l -> (f x + c <= g x)%nat -> (sum_list_with f l + c <= sum_list_with g l)%nat.
Proof.
  induction l as [|y l IH]; intros Hfg Hx Hc; [by apply not_elem_of_nil in Hx|]. cbn. apply elem_of_cons in Hx as [->|Hx].
  - assert (H := sum_le f g l ltac:(intros z Hz; apply Hfg; by right)). lia.
  - assert (H1 := Hfg y (list_elem_of_here _ _)). assert (H2 := IH ltac:(intros z Hz; apply Hfg; by right) Hx Hc). lia.
Qed.

Lemma root_push l i e : root_deps (push_at l i e) = root_deps l \/ (i = 0%nat /\ root_deps (push_at l i e) = root_deps l ++ [e]).
Proof. destruct l as [|x l]; [by left|]. destruct i; [right | left]; by cbn. Qed.

Lemma late_push_term l i e h : (match in_folder lf (root_deps (push_at l i e)) h with Some _ => 0 | None => name_weight h end <=
  match in_folder lf (root_deps l) h with Some _ => 0 | None => name_weight h end)%nat.
Proof.
  destruct (root_push l i e) as [->|[_ ->]]; [done|]. rewrite in_folder_app. destruct (in_folder lf (root_deps l) h); [done|]. case_decide; lia.
Qed.

Lemma late_push l i e : (late_weight (push_at l i e) <= late_weight l)%nat.
Proof. apply sum_le. intros h _. apply late_push_term. Qed.

Lemma late_push_root l e h c : l <> [] -> dep_hash lf e = Some h -> h ∈ single_names -> in_folder lf (root_deps l) h = None -> (c <= name_weight h)%nat ->
  (late_weight (push_at l 0 e) + c <= late_weight l)%nat.
Proof.
  intros Hl Hh Hin Hn Hc. apply (sum_drop _ _ _ h); [intros y _; apply late_push_term | done|]. rewrite Hn.
  assert (Hr : root_deps (push_at l 0 e) = root_deps l ++ [e]) by by destruct l. by rewrite Hr, in_folder_app, Hn, decide_True.
Qed.

Lemma one_package_spec e d : one_package e = true -> d ∈ all_deps -> dep_hash lf e = dep_hash lf d -> index (buf_resolutions lf) d = index (buf_resolutions lf) e.
Proof.
  unfold one_package. rewrite forallb_forall. intros Ho Hd%list_elem_of_In Hh. specialize (Ho d Hd). unfold same_name_same_package in Ho.
  rewrite (bool_decide_true _ Hh) in Ho. by apply bool_decide_eq_true_1 in Ho.
Qed.

Lemma single_name e h : one_package e = true -> e ∈ all_deps -> dep_hash lf e = Some h -> h ∈ single_names /\ name_weight h = dep_weight e.
Proof.
  intros Ho He Hh. split.
  - unfold single_names. apply elem_of_remove_dups, list_elem_of_omap. exists e. split; [by apply list_elem_of_filter | done].
  - unfold name_weight. destruct (in_folder lf all_deps h) as [d|] eqn:Hd.
    + destruct (in_folder_some lf _ _ _ Hd) as [Hd' Hdh]. unfold dep_weight. rewrite (one_package_spec e d Ho Hd'); [done | by rewrite Hh].
    + by destruct (in_folder_none lf _ _ _ Hh Hd).
Qed.

End Layers.

Section Term.
Context {F : ByteSearch} {Fok : ByteSearchOk F} {US : UnstableSort} {USok : UnstableSortOk US}.
Context (MAX_PATH_BYTES : Z) (pool : bytes) (lf : Lockfile) (opts : FilterOptions) (Hok : lockfile_ok lf = true).
Context (Hfr : filters_return MAX_PATH_BYTES pool lf opts) (rank : Z -> nat) (Hlay : layered lf rank = true).
Notation total := (total_weight lf rank).
Notation going := (going MAX_PATH_BYTES pool lf opts).
Notation effect := (effect MAX_PATH_BYTES pool lf opts).
Notation effects := (effects MAX_PATH_BYTES pool lf opts).
Notation done_ok := (done_ok MAX_PATH_BYTES pool lf opts).

Lemma layered_spec p e q : dep_of lf p e -> 0 <= p < count (packages lf) -> index (buf_resolutions lf) e = Some q -> q =? invalid_package_id = false ->
  (rank q < rank p)%nat \/ (one_package lf e = true /\ folder_package lf q = false).
Proof.
  intros (pk & Hpk & He) Hp Hq Hi. unfold layered in Hlay. rewrite forallb_forall in Hlay.
  assert (Hin : In p (seqZ 0 (count (packages lf)))) by (apply list_elem_of_In, elem_of_seqZ; lia).
  specialize (Hlay p Hin). rewrite Hpk, forallb_forall in Hlay. apply list_elem_of_In in He. specialize (Hlay e He). unfold layered_dep in Hlay.
  rewrite Hq, Hi in Hlay. cbn [orb] in Hlay. apply orb_true_iff in Hlay as [H1|H1]; [left; by apply Nat.ltb_lt|].
  apply andb_true_iff in H1 as [H1 H2]. right. split; [done|]. by apply negb_true_iff.
Qed.

(** The most one dependency of a package of rank [r] adds. *)
Definition step_weight (r : nat) : nat := match r with O => 0%nat | S r => weight lf r end.

Lemma queue_weight_app q1 q2 : queue_weight lf rank (q1 ++ q2) = (queue_weight lf rank q1 + queue_weight lf rank q2)%nat.
Proof. apply sum_list_with_app. Qed.

Lemma place_weight b i e q : index (buf_resolutions lf) e = Some q ->
  (total (place lf b i e q) <= queue_weight lf rank (queue b) + weight lf (rank q) + late_weight lf rank (push_at (list_ b) i e))%nat.
Proof.
  intros Hq. unfold total_weight, place. destruct (needs_folder lf q); cbn [write_item with_queue with_list queue list_]; [|lia].
  rewrite queue_weight_app. cbn. unfold dep_weight. rewrite Hq. lia.
Qed.

Lemma effect_weight fin cur n p pre b e b' : going fin cur n p pre b -> 0 <= p < count (packages lf) -> dep_of lf p e -> effect n p b e b' ->
  (total b' <= total b + step_weight (rank p))%nat.
Proof.
  intros Hg Hp He [(H1 & _ & H3)|(i & q & dep & Hw & Hpl & ->)].
  { unfold total_weight. rewrite H1, H3. lia. }
  destruct (wanted_plain MAX_PATH_BYTES pool lf opts Hok p e q dep Hw) as (_ & Hi & _). destruct Hw as (Hq & Hdep & _).
  assert (Hplace := place_weight b i e q Hq). assert (Hpush := late_push lf rank (list_ b) i e).
  destruct (layered_spec p e q He Hp Hq Hi) as [Hr|[Ho Hf]].
  - assert (Hwt : (weight lf (rank q) <= step_weight (rank p))%nat).
    { destruct (rank p) as [|r]; [lia|]. apply Nat.pow_le_mono_r; [done | lia]. }
    unfold total_weight in *. lia.
  - assert (Hl := inv_list _ _ _ _ _ _ _ (going_inv _ _ _ _ _ _ _ _ _ _ Hg)). assert (Hlen := going_length _ _ _ _ _ _ _ _ _ _ Hg).
    assert (Hh : dep_hash lf e = Some (name_hash dep)) by (unfold dep_hash; by rewrite Hdep).
    assert (Hall : e ∈ all_deps lf). { destruct He as (pk & Hpk & He). apply elem_of_seqZ. assert (Hr := dep_range lf Hok p pk e Hpk He). unfold count in *. lia. }
    destruct Hpl as [[-> [Hfo|(t & d & r & Hnl & Hr & Hne)]]|[-> Hnone]]; [congruence | |].
    + exfalso. destruct (node_lookup_found lf _ _ _ _ _ Hl Hnl) as (m & x & _ & _ & Hx & Hdx & Hdh). apply Hne.
      assert (Hd : d ∈ all_deps lf).
      { assert (Hrg := entry_range lf m x (proj2 Hl m x Hx)). rewrite Forall_forall in Hrg. specialize (Hrg d Hdx). apply elem_of_seqZ. unfold count. lia. }
      assert (Hs := one_package_spec lf e d Ho Hd ltac:(by rewrite Hh)). congruence.
    + destruct (lookup_lt_is_Some_2 (list_ b) 0 ltac:(lia)) as [x0 Hx0].
      assert (Hroot := root_none lf (list_ b) x0 _ n Hl Hx0 ltac:(lia) Hnone). destruct (single_name lf rank e _ Ho Hall Hh) as [Hin Hnw].
      assert (Hlr := late_push_root lf rank (list_ b) e _ (weight lf (rank q)) ltac:(destruct (list_ b); [done | by intros [=]]) Hh Hin).
      rewrite Hnw in Hlr. unfold dep_weight in Hlr. rewrite Hq in Hlr.
      assert (Hre : root_deps (list_ b) = entry_dependencies x0) by (destruct (list_ b); [done | by injection Hx0 as ->]). rewrite Hre in Hlr.
      specialize (Hlr Hroot (Nat.le_refl _)). unfold total_weight in *. lia.
Qed.

Lemma effects_weight fin cur n p b ids b' : 0 <= p < count (packages lf) -> effects fin cur n p b ids b' ->
  (total b' <= total b + length ids * step_weight (rank p))%nat.
Proof.
  intros Hp. induction 1 as [b|pre b e b1 ids b2 Hg He _ Heff _ IH]; cbn [length]; [lia|].
  assert (H1 := effect_weight fin cur n p pre b e b1 Hg Hp He Heff). lia.
Qed.

Lemma late_app l x : l <> [] -> late_weight lf rank (l ++ [x]) = late_weight lf rank l.
Proof. by destruct l. Qed.

Lemma step_weight_lt r : (width lf * step_weight r < weight lf r)%nat.
Proof.
  unfold weight. destruct r as [|r]; cbn [step_weight Nat.pow]; [lia|]. unfold weight.
  assert (0 < S (width lf) ^ r)%nat by (apply Nat.neq_0_lt_0, Nat.pow_nonzero; done). nia.
Qed.

Lemma root_effects fin cur n p b ids b' : effects fin cur n p b ids b' -> length (list_ b') = length (list_ b).
Proof.
  induction 1 as [b|pre b e b1 ids b2 _ _ _ Heff _ IH]; [done|]. rewrite IH. destruct Heff as [(-> & _)|(i & q & dep & _ & _ & ->)]; [done|].
  unfold place. destruct (needs_folder lf q); apply length_alter.
Qed.

Lemma round_weight done b item rest b' q : done_ok done b -> queue b = item :: rest -> index (buf_resolutions lf) (item_dependency_id item) = Some q ->
  0 <= q < count (packages lf) -> list_ b <> [] ->
  subtree_effect MAX_PATH_BYTES pool lf opts done (item_tree_id item) (item_dependency_id item) q (with_queue b rest) b' -> (total b' < total b)%nat.
Proof.
  intros Hd Hqu Hq Hqc Hne Heff.
  assert (Htot : total b = (weight lf (rank q) + total (with_queue b rest))%nat).
  { unfold total_weight. cbn [with_queue queue list_]. rewrite Hqu. unfold queue_weight. cbn [sum_list_with]. unfold dep_weight at 1. rewrite Hq. lia. }
  assert (Hpos : (0 < weight lf (rank q))%nat) by (apply Nat.neq_0_lt_0, Nat.pow_nonzero; done).
  destruct Heff as [->|(ids & b1 & Hids & Hnd & He & Hfin)]; [lia|]. assert (Hw := effects_weight _ _ _ _ _ _ _ Hqc He). assert (Hlen := root_effects _ _ _ _ _ _ _ He).
  cbn [with_queue with_list list_] in *. rewrite length_app in Hlen. cbn [length] in Hlen.
  assert (Hb1 : total (with_list (with_queue b rest) (list_ b ++ [new_tree (length (list_ b)) (item_tree_id item) (item_dependency_id item)])) = total (with_queue b rest)).
  { unfold total_weight. cbn [with_list with_queue list_ queue]. by rewrite late_app. }
  assert (Hb' : total b' = total b1).
  { unfold finish in Hfin. destruct (index (list_ b1) _); [|done]. cbn [mbind option_bind] in Hfin. injection Hfin as <-. destruct (_ =? 0); [|done].
    unfold total_weight. cbn [with_list list_ queue]. f_equal. unfold late_weight. assert (Hlb : (0 < length (list_ b))%nat) by (destruct (list_ b); cbn; [done | lia]).
    destruct (list_ b1) as [|x [|y l]]; cbn in Hlen; [lia | lia | done]. }
  assert (Hl : (length ids <= width lf)%nat).
  { unfold width. assert (Hs : ids ⊆+ seqZ 0 (Z.of_nat (length (dependencies lf)))).
    { apply NoDup_submseteq; [done|]. intros e (pk & Hpk & Hin)%Hids. apply elem_of_seqZ. assert (Hr := dep_range lf Hok q pk e Hpk Hin). unfold count in Hr. lia. }
    apply submseteq_length in Hs. rewrite length_seqZ in Hs. lia. }
  assert (Hst := step_weight_lt (rank q)). nia.
Qed.

(** The loop ends, unless 2^32 folders are made first. *)
Lemma loop_ends : forall done b, done_ok done b -> (Z.of_nat (length (list_ b)) < INVALID_ID) -> list_ b <> [] \/ queue b = [] ->
  exists fuel, (fuel <= total b)%nat /\
    match hoist_loop MAX_PATH_BYTES pool lf fuel (Filter opts) b with
    | Finished b' => exists done', done_ok done' b' /\ queue b' = []
    | OutOfFuel b' => Z.of_nat (length (list_ b')) = INVALID_ID - 1
    | _ => False
    end.
Proof.
  intros done b. remember (total b) as w eqn:Hw. revert done b Hw. induction w as [w IH] using lt_wf_ind. intros done b Hw Hd Hlen Hne.
  destruct (queue b) as [|item rest] eqn:Hq.
  - exists 0%nat. split; [lia|]. cbn [hoist_loop]. rewrite Hq. by exists done.
  - destruct (decide (Z.of_nat (length (list_ b)) = INVALID_ID - 1)) as [Hl|Hl].
    + exists 0%nat. split; [lia|]. cbn [hoist_loop]. by rewrite Hq.
    + destruct Hne as [Hne|]; [|done].
      destruct (hoist_round_ok MAX_PATH_BYTES pool lf opts Hok Hfr done b item rest Hd Hq ltac:(lia)) as (e & b' & He & Hp & Hd' & Hl' & q & Hqi & Heff).
      assert (Hqc : 0 <= q < count (packages lf)).
      { destruct Hd as [Hinv _]. destruct (inv_queue _ _ _ _ _ _ _ Hinv item) as [_ (m & x & _ & Hx & Hdx)]; [rewrite Hq; apply list_elem_of_here|].
        destruct (inv_resolved _ _ _ _ _ _ _ Hinv m x _ Hx Hdx) as (r & Hr & Hrc). congruence. }
      assert (Hdec := round_weight done b item rest b' q Hd Hq Hqi Hqc Hne Heff).
      assert (Hne' : list_ b' <> []).
      { destruct Heff as [->|(ids & b1 & _ & _ & Hef & Hfin)]; [done|]. assert (Hlen1 := root_effects _ _ _ _ _ _ _ Hef).
        cbn [with_list with_queue list_] in Hlen1. rewrite length_app in Hlen1. cbn [length] in Hlen1. unfold finish in Hfin.
        destruct (index (list_ b1) _); [|done]. cbn [mbind option_bind] in Hfin. injection Hfin as <-.
        assert (Hlb : (0 < length (list_ b))%nat) by (destruct (list_ b); cbn; [done | lia]).
        intros Hnil. assert (Hz := f_equal length Hnil). destruct (_ =? 0); cbn [with_list list_] in Hz; rewrite ?length_take in Hz; cbn in Hz; lia. }
      destruct (IH (total b') ltac:(lia) _ b' eq_refl Hd' ltac:(lia) (or_introl Hne')) as (fuel & Hf & Hm). exists (S fuel). split; [lia|].
      cbn [hoist_loop]. rewrite Hq. cbn [with_queue] in He, Hp |- *. rewrite He, Hp. exact Hm.
Qed.

End Term.
