(* ===== verification/HoistOut.v ===== *)
(** The lockfile that hoisting returns: its folders are those of the builder,
    every package in them is served, and a folder has one package of a name. *)
From stdpp Require Import gmap list.
From S2P Require Import Prelude BunCore SemverString SemverVersion SemverRange SemverQuery Glob Paths Hoist HoistSpec HoistStep HoistPlace HoistInv HoistLoop.

(** * The folders of a lockfile *)

Definition folder (ids : list Z) (t : Tree) : BuilderEntry :=
  {| tree := t; entry_dependencies := default [] (slice_get (tree_dependencies t) ids) |}.
Definition folders (lf : Lockfile) : list BuilderEntry := map (folder (hoisted_dependencies lf)) (trees lf).

Record same_folder (x y : BuilderEntry) : Prop := {
  same_parent : parent (tree x) = parent (tree y);
  same_owner : dependency_id (tree x) = dependency_id (tree y);
  same_deps : entry_dependencies x = entry_dependencies y }.

Definition kept_deps (res : list Z) (deps : list Z) : Prop := Forall (fun d => exists r, index res d = Some r /\ r <> invalid_package_id) deps.

Lemma kept_all res deps : kept_deps res deps ->
  exists pkgs, mapM (index res) deps = Some pkgs /\ (filter (fun p => p.2 <> invalid_package_id) (zip deps pkgs)).*1 = deps.
Proof.
  induction 1 as [|d deps (r & Hr & Hne) _ (pkgs & Hm & Hf)]; [by exists []|]. exists (r :: pkgs). cbn [mapM]. rewrite Hr, Hm. split; [done|].
  cbn [zip zip_with]. rewrite filter_cons_True by done. cbn. by f_equal.
Qed.

Lemma clean_ok res l : Forall (fun e => kept_deps res (entry_dependencies e)) l -> forall acc,
  exists ts suf, clean res l acc = Some (ts, acc ++ suf) /\
    (Z.of_nat (length (acc ++ suf)) <= U32_MAX -> Forall2 (fun t e => same_folder (folder (acc ++ suf) t) e) ts l).
Proof.
  induction 1 as [|e l He _ IH]; intros acc; cbn [clean]; [exists [], []; rewrite app_nil_r; split; [done|]; constructor|].
  destruct (kept_all _ _ He) as (pkgs & -> & Hk). cbn [mbind option_bind]. rewrite Hk. destruct (IH (acc ++ entry_dependencies e)) as (ts & suf & -> & Hs).
  cbn [mbind option_bind fst snd]. eexists _, (entry_dependencies e ++ suf). rewrite app_assoc. split; [done|]. intros Hlen.
  constructor; [|by apply Hs]. split; [done | done|]. cbn [folder entry_dependencies tree_dependencies]. rewrite !length_app in *. unfold slice_get, trunc32, U32_MAX in *.
  cbn [sl_off sl_len]. rewrite !Z.mod_small by (rewrite ?Z.mod_small by lia; lia). rewrite slice_ok by (rewrite !length_app; lia). cbn [default].
  rewrite <- app_assoc. rewrite Nat2Z.id. rewrite drop_app_length. replace (_ - _)%nat with (length (entry_dependencies e)) by (rewrite !length_app; lia).
  by rewrite take_app_length.
Qed.

Section Same.
Context (lf : Lockfile) (l l' : list BuilderEntry) (Hs : Forall2 same_folder l l').

Lemma same_index i : match index l i, index l' i with Some x, Some y => same_folder x y | None, None => True | _, _ => False end.
Proof.
  unfold index. destruct (l !! Z.to_nat i) as [x|] eqn:Hx.
  - destruct (Forall2_lookup_l _ _ _ _ _ Hs Hx) as (y & -> & Hy). done.
  - destruct (l' !! Z.to_nat i) as [y|] eqn:Hy; [|done]. destruct (Forall2_lookup_r _ _ _ _ _ Hs Hy) as (x & Hx' & _). congruence.
Qed.

Lemma same_lookup f : forall i h, lookup_up lf f l i h = lookup_up lf f l' i h.
Proof.
  induction f as [|f IH]; intros i h; cbn [lookup_up]; [done|]. assert (Hi := same_index i).
  destruct (index l i) as [x|], (index l' i) as [y|]; try done. cbn [mbind option_bind]. destruct Hi as [-> _ ->].
  destruct (in_folder lf _ h); [done|]. destruct (_ =? _); [done | apply IH].
Qed.

Lemma same_own_folder t d : own_folder l t d = own_folder l' t d.
Proof.
  unfold own_folder. induction Hs as [|x y m m' [H1 H2 _] Hm IH]; [done|]. specialize (IH Hm). cbn [list_find].
  destruct (decide (parent (tree x) = t /\ dependency_id (tree x) = d)) as [Hd|Hd]; rewrite H1, H2 in Hd; [by rewrite decide_True|].
  rewrite (decide_False _ _ Hd). destruct (list_find _ m) as [[]|], (list_find _ m') as [[]|]; cbn in *; by simplify_eq.
Qed.

Lemma same_require t d h : require lf l t d h = require lf l' t d h.
Proof. unfold require, node_lookup. by rewrite (Forall2_length _ _ _ Hs), same_lookup, same_own_folder. Qed.

End Same.

Section Out.
Context {F : ByteSearch} {Fok : ByteSearchOk F} {US : UnstableSort} {USok : UnstableSortOk US}.
Context (MAX_PATH_BYTES : Z) (pool : bytes) (lf : Lockfile) (opts : FilterOptions) (Hok : lockfile_ok lf = true).
Context (Hfr : filters_return MAX_PATH_BYTES pool lf opts).
Notation done_ok := (done_ok MAX_PATH_BYTES pool lf opts).
Notation served := (served MAX_PATH_BYTES pool lf opts).
Notation effects := (effects MAX_PATH_BYTES pool lf opts).

(** The root, or a package that is installed. *)
Definition installed (l : list BuilderEntry) (t d : Z) : Prop := (t = INVALID_ID /\ d = ROOT_DEP_ID) \/ in_tree l t d.

(** With nothing queued every package is served. *)
Lemma finished_served done b t d : done_ok done b -> queue b = [] -> installed (list_ b) t d -> served (list_ b) t d.
Proof.
  intros [Hinv Hroot] Hq [[-> ->]|(n & x & -> & Hx & Hd)]; [by eapply inv_served|].
  destruct (inv_resolved _ _ _ _ _ _ _ Hinv n x d Hx Hd) as (r & Hr & Hrc). destruct (needs_folder lf r) eqn:Hn.
  - assert (Hp := inv_placed _ _ _ _ _ _ _ Hinv n x d r Hx Hd Hr Hn). rewrite Hq in Hp. cbn [pairs fmap list_fmap] in Hp. rewrite app_nil_r in Hp.
    by eapply inv_served.
  - intros p e q dep Hp (pk & Hpk & He) _. exfalso. rewrite (pkg_of_dep lf Hok d r Hr) in Hp. injection Hp as <-. unfold needs_folder in Hn. rewrite Hpk in Hn.
    apply elem_of_seqZ in He. apply Z.ltb_ge in Hn. lia.
Qed.

(** * One package of a name in a folder *)

Definition one_per_name (l : list BuilderEntry) : Prop := forall n x d d', l !! n = Some x -> d ∈ entry_dependencies x -> d' ∈ entry_dependencies x ->
  dep_hash lf d = dep_hash lf d' -> index (buf_resolutions lf) d = index (buf_resolutions lf) d'.

Lemma one_push l i e : one_per_name l -> (forall x d, l !! i = Some x -> d ∈ entry_dependencies x -> dep_hash lf d = dep_hash lf e ->
  index (buf_resolutions lf) d = index (buf_resolutions lf) e) -> one_per_name (push_at l i e).
Proof.
  intros Hone He n x d d' Hx. destruct (push_at_lookup _ _ _ _ _ Hx) as (x0 & Hx0 & _ & _ & ->). case_decide as Hn; [|by apply (Hone n x0)].
  subst n. intros [Hd| ->%list_elem_of_singleton]%elem_of_app [Hd'| ->%list_elem_of_singleton]%elem_of_app Hh; [by apply (Hone i x0) | by apply (He x0) | | done].
  symmetry. by apply (He x0).
Qed.

Lemma place_list b i e q : list_ (place lf b i e q) = push_at (list_ b) i e.
Proof. unfold place. by destruct (needs_folder lf q). Qed.

Lemma effects_one fin cur n p b ids b' : effects fin cur n p b ids b' -> one_per_name (list_ b) -> one_per_name (list_ b').
Proof.
  induction 1 as [b|pre b e b1 ids b2 Hg He Hpre Heff _ IH]; [done|]. intros Hone. apply IH.
  destruct Heff as [(-> & _)|(i & q & dep & Hw & Hpl & ->)]; [done|]. rewrite place_list. apply one_push; [done|].
  intros x d Hx Hd Hh. destruct Hw as (_ & Hdep & _). assert (Hdh : dep_hash lf e = Some (name_hash dep)) by (unfold dep_hash; by rewrite Hdep). rewrite Hdh in Hh.
  assert (Hl := inv_list _ _ _ _ _ _ _ (going_inv _ _ _ _ _ _ _ _ _ _ Hg)). assert (Hlen := going_length _ _ _ _ _ _ _ _ _ _ Hg).
  destruct Hpl as [[-> _]|[-> Hnone]].
  - apply (same_hash lf Hok p e d dep); [done | | done | done]. apply Hpre. by eapply going_from.
  - assert (Hr := root_none lf (list_ b) x _ n Hl Hx ltac:(lia) Hnone). by destruct (in_folder_none lf _ d _ Hh Hr).
Qed.

Lemma subtree_one fin t d p b b' : subtree_effect MAX_PATH_BYTES pool lf opts fin t d p b b' -> one_per_name (list_ b) -> one_per_name (list_ b').
Proof.
  intros [->|(ids & b1 & _ & _ & He & Hfin)] Hone; [done|]. assert (H1 : one_per_name (list_ b1)).
  { apply (effects_one _ _ _ _ _ _ _ He). intros n x e e' [Hx|[_ Hx]]%lookup_app_Some Hin; [by apply (Hone n x)|].
    apply list_lookup_singleton_Some in Hx as [_ <-]. by apply not_elem_of_nil in Hin. }
  unfold finish in Hfin. destruct (index (list_ b1) _); [|done]. cbn [mbind option_bind] in Hfin. injection Hfin as <-. destruct (_ =? 0); [|done].
  intros n x e e' [Hx _]%lookup_take_Some. by apply (H1 n x).
Qed.

Lemma loop_one fuel : forall done b, done_ok done b -> one_per_name (list_ b) -> Z.of_nat (length (list_ b) + fuel) < INVALID_ID ->
  match hoist_loop MAX_PATH_BYTES pool lf fuel (Filter opts) b with Finished b' => one_per_name (list_ b') | _ => True end.
Proof.
  induction fuel as [|fuel IH]; intros done b Hd Hone Hb; cbn [hoist_loop]; destruct (queue b) as [|item rest] eqn:Hq; try exact Hone; try exact I.
  destruct (hoist_round_ok MAX_PATH_BYTES pool lf opts Hok Hfr done b item rest Hd Hq ltac:(lia)) as (e & b' & -> & -> & Hd' & Hl & q & _ & Heff).
  apply (IH _ b' Hd'); [by eapply subtree_one | lia].
Qed.

(** * What is returned *)

Lemma done_kept done b : done_ok done b -> Forall (fun e => kept_deps (resolutions b) (entry_dependencies e)) (list_ b).
Proof.
  intros [Hinv _]. apply Forall_lookup. intros n x Hx. apply Forall_forall. intros d Hdx.
  destruct (inv_resolved _ _ _ _ _ _ _ Hinv n x d Hx Hdx) as (r & Hr & Hrc). exists r. rewrite (inv_res _ _ _ _ _ _ _ Hinv). split; [done|].
  destruct (lockfile_ok_spec lf Hok) as ((H1 & _) & _). unfold invalid_package_id. lia.
Qed.

(** The folders returned are those of a builder that has finished. *)
Lemma hoist_folders fuel lf' : Z.of_nat fuel < INVALID_ID - 1 -> hoist MAX_PATH_BYTES pool lf fuel (Filter opts) = Some lf' ->
  count (hoisted_dependencies lf') <= U32_MAX ->
  exists done b, done_ok done b /\ queue b = [] /\ one_per_name (list_ b) /\ Forall2 same_folder (folders lf') (list_ b).
Proof.
  intros Hb Hh Hc. assert (Hbo := hoist_builder_ok MAX_PATH_BYTES pool lf opts Hok Hfr fuel Hb). unfold hoist in Hh.
  destruct (hoist_builder _ _ lf fuel _) as [b| | |] eqn:Hbu; try done. destruct Hbo as (done & Hd & Hq). exists done, b.
  destruct (clean_ok _ _ (done_kept done b Hd) []) as (ts & suf & Hcl & Hs). rewrite Hcl in Hh. cbn in Hh. injection Hh as <-. cbn [hoisted_dependencies] in Hc.
  split; [done|]. split; [done|]. split.
  - unfold hoist_builder in Hbu. destruct (start_ok MAX_PATH_BYTES pool lf opts Hok Hfr) as (b0 & Hp & Hd0 & Hl0 & Heff). rewrite Hp in Hbu.
    assert (H1 := loop_one fuel _ b0 Hd0). rewrite Hbu in H1. apply H1; [|lia].
    apply (subtree_one _ _ _ _ _ _ Heff). by intros n x d d' Hx.
  - unfold folders. cbn [hoisted_dependencies trees]. apply Forall2_fmap_l. by apply Hs.
Qed.

End Out.
