(* ===== verification/HoistCycle.v ===== *)
(** A lockfile on which hoisting never ends: a@1 needs b@1, which needs a@2,
    which needs b@2, which needs a@1.  Every folder that is made needs another
    below it, whatever is above. *)
From stdpp Require Import gmap list.
From S2P Require Import Prelude BunCore SemverString SemverVersion SemverRange SemverQuery Glob Paths Hoist HoistSpec HoistStep HoistPlace HoistInv HoistLoop.

(** * Lockfiles for examples *)

Definition inline (s : bytes) : SemverString := {| sbytes := take 8 (s ++ replicate 8 0) |}.
Definition short_hash (s : bytes) : Z := fold_left (fun a c => a * 256 + c) s 0.

(** A dependency: its name, version, behaviour and package. *)
Definition Dep : Type := bytes * DependencyVersion * Z * Z.
Definition make_dep (d : Dep) : Dependency :=
  let '(n, v, b, _) := d in {| name_hash := short_hash n; name := inline n; version := v; behavior := b |}.

Fixpoint make_packages (off : Z) (l : list (Resolution * list Dep)) : list Package :=
  match l with
  | [] => []
  | (r, ds) :: l =>
    let s := {| sl_off := off; sl_len := Z.of_nat (length ds) |} in
    {| package_name := inline []; resolution := r; package_dependencies := s; package_resolutions := s;
       meta := {| meta_arch := 65535; meta_os := 65535 |} |} :: make_packages (off + Z.of_nat (length ds)) l
  end.

Definition make_lockfile (l : list (Resolution * list Dep)) : Lockfile :=
  let ds := concat (map snd l) in
  {| packages := make_packages 0 l; dependencies := map make_dep ds; buf_resolutions := map snd ds; string_bytes := []; trees := []; hoisted_dependencies := [] |}.

Definition cyclic : Lockfile := make_lockfile
  [(RRoot, [(b!"a", DDistTag, PROD, 1)]); (RGit, [(b!"b", DDistTag, PROD, 2)]); (RGit, [(b!"a", DDistTag, PROD, 3)]);
   (RGit, [(b!"b", DDistTag, PROD, 4)]); (RGit, [(b!"a", DDistTag, PROD, 1)])].

(** * The state after each round *)

Definition next_dep (d : Z) : Z := d mod 4 + 1.
Fixpoint cyc (n : nat) : Z := match n with O => 1 | S n => next_dep (cyc n) end.

(** Folder [S n]. *)
Definition cyc_folder (n : nat) : BuilderEntry :=
  {| tree := {| id := Z.of_nat (S n); dependency_id := cyc n; parent := Z.of_nat n; tree_dependencies := {| sl_off := 0; sl_len := 1 |} |};
     entry_dependencies := [cyc (S n)] |}.
Definition cyc_root : BuilderEntry :=
  {| tree := {| id := 0; dependency_id := ROOT_DEP_ID; parent := INVALID_ID; tree_dependencies := {| sl_off := 0; sl_len := 2 |} |};
     entry_dependencies := [0; 1] |}.
Definition cyc_list (k : nat) : list BuilderEntry := cyc_root :: map cyc_folder (seq 0 k).
Definition cyc_state (k : nat) : Builder :=
  {| list_ := cyc_list k; resolutions := buf_resolutions cyclic;
     queue := [{| item_tree_id := Z.of_nat k; item_dependency_id := cyc k; item_hoist_root_id := INVALID_ID |}];
     pending_optional_peers := ∅; log := [] |}.

Lemma cyc_cases n : cyc n = 1 \/ cyc n = 2 \/ cyc n = 3 \/ cyc n = 4.
Proof. induction n as [|n IH]; cbn [cyc]; [by left|]. destruct IH as [->|[->|[->| ->]]]; unfold next_dep; vm_compute; tauto. Qed.

Lemma cyc_length k : length (cyc_list k) = S k.
Proof. unfold cyc_list. cbn. by rewrite length_map, length_seq. Qed.

Lemma cyc_lookup k n e : cyc_list k !! n = Some e -> (n = 0%nat /\ e = cyc_root) \/ exists m, n = S m /\ (m < k)%nat /\ e = cyc_folder m.
Proof.
  destruct n as [|m]; [intros [= <-]; by left|]. unfold cyc_list. cbn. intros (x & -> & Hx)%list_lookup_fmap_Some. apply lookup_seq in Hx as [-> Hm].
  right. by exists m.
Qed.

Lemma cyc_lookup_folder k m : (m < k)%nat -> cyc_list k !! S m = Some (cyc_folder m).
Proof. intros Hm. unfold cyc_list. cbn. apply list_lookup_fmap_Some. exists m. split; [done|]. by apply lookup_seq. Qed.

Lemma cyc_list_ok k : Z.of_nat (S k) < INVALID_ID -> list_ok cyclic (cyc_list k).
Proof.
  intros Hk. split; [by rewrite cyc_length|]. intros n e [[-> ->]|(m & -> & Hm & ->)]%cyc_lookup.
  - split; cbn; [done | by left | done | repeat constructor; lia | by apply (bool_decide_unpack _); vm_compute].
  - split; cbn [cyc_folder tree id parent tree_dependencies entry_dependencies sl_off sl_len]; [done | right; lia | done | | apply NoDup_singleton].
    apply Forall_singleton. change (Z.of_nat (length (dependencies cyclic))) with 5. destruct (cyc_cases (S m)) as [->|[->|[->| ->]]]; lia.
Qed.

(** From the last folder the next dependency finds another package of its name. *)
Lemma cyc_conflict k dep : Z.of_nat (S k) < INVALID_ID -> index (dependencies cyclic) (cyc (S k)) = Some dep ->
  exists t d x r, node_lookup cyclic (cyc_list k) (Z.of_nat k) (name_hash dep) = Some (t, d) /\
    index (dependencies cyclic) d = Some x /\ index (buf_resolutions cyclic) d = Some r /\ 0 <= r < 5 /\ index (buf_resolutions cyclic) (cyc (S k)) <> Some r.
Proof.
  intros Hk. assert (Hl := cyc_list_ok k Hk).
  assert (Hroot : forall h, node_lookup cyclic (cyc_list k) (Z.of_nat 0) h = match in_folder cyclic [0; 1] h with Some d => Some (0, d) | None => None end).
  { intros h. by rewrite (node_lookup_step cyclic (cyc_list k) 0 cyc_root h Hl eq_refl). }
  assert (Hfold : forall m h, (m < k)%nat -> node_lookup cyclic (cyc_list k) (Z.of_nat (S m)) h =
    match in_folder cyclic [cyc (S m)] h with Some d => Some (Z.of_nat (S m), d) | None => node_lookup cyclic (cyc_list k) (Z.of_nat m) h end).
  { intros m h Hm. by rewrite (node_lookup_step cyclic (cyc_list k) (S m) (cyc_folder m) h Hl (cyc_lookup_folder k m Hm)). }
  destruct k as [|[|k]]; [| |clear Hroot].
  - intros Hd. vm_compute in Hd. injection Hd as <-. rewrite Hroot. eexists 0, 0, _, _. repeat split; vm_compute; done.
  - intros Hd. vm_compute in Hd. injection Hd as <-. rewrite (Hfold 0%nat), Hroot by lia. eexists 0, 1, _, _. repeat split; vm_compute; done.
  - intros Hd. rewrite (Hfold (S k)), (Hfold k) by lia. exists (Z.of_nat (S k)). cbn [cyc] in *. clear Hl Hfold Hk.
    destruct (cyc_cases k) as [Hc|[Hc|[Hc|Hc]]]; rewrite Hc in *; vm_compute in Hd; injection Hd as <-;
      [exists 2 | exists 3 | exists 4 | exists 1]; eexists _, _; repeat split; done.
Qed.

Lemma cyc_package k : exists p pk, index (buf_resolutions cyclic) (cyc k) = Some p /\ index (packages cyclic) p = Some pk /\
  package_resolutions pk = {| sl_off := cyc (S k); sl_len := 1 |} /\ is_folder (resolution pk) = false /\ p =? invalid_package_id = false.
Proof. cbn [cyc]. destruct (cyc_cases k) as [->|[->|[->| ->]]]; (eexists _, _; split; [reflexivity|]; split; [reflexivity|]; vm_compute; repeat split). Qed.

Lemma cyc_dependency k : exists dep, index (dependencies cyclic) (cyc k) = Some dep /\ behavior dep = PROD /\
  negb (bool_decide (string_slice (name dep) (string_bytes cyclic) = [])) && negb (is_safe_install_folder_name (string_slice (name dep) (string_bytes cyclic))) = false.
Proof. destruct (cyc_cases k) as [->|[->|[->| ->]]]; (eexists; split; [reflexivity|]; vm_compute; repeat split). Qed.

Section Rounds.
Context {F : ByteSearch} {US : UnstableSort} {USok : UnstableSortOk US} (MAX_PATH_BYTES : Z) (pool : bytes).

Lemma single_sorted d : 0 <= d < 5 -> sorted_deps cyclic {| sl_off := d; sl_len := 1 |} = Some [d].
Proof.
  intros Hd. unfold sorted_deps, slice_begin, slice_end, trunc32. cbn [sl_off sl_len]. rewrite Z.mod_small by lia. replace (d + 1 - d) with 1 by lia.
  replace (seqZ d 1) with [d] by (unfold seqZ; cbn; f_equal; lia). rewrite bool_decide_true by (apply Forall_singleton; change (length (dependencies cyclic)) with 5%nat; lia). f_equal.
  apply Permutation_singleton_r, (sort_permutes Z).
Qed.

Lemma cyc_sorted k : sorted_deps cyclic {| sl_off := cyc k; sl_len := 1 |} = Some [cyc k].
Proof. apply single_sorted. destruct (cyc_cases k) as [->|[->|[->| ->]]]; lia. Qed.

(** The state while the next folder is empty. *)
Definition cyc_going (k : nat) : Builder :=
  with_list (with_queue (cyc_state k) []) (cyc_list k ++ [new_tree (S k) (Z.of_nat k) (cyc k)]).

Lemma cyc_push k : push_at (cyc_list k ++ [new_tree (S k) (Z.of_nat k) (cyc k)]) (S k) (cyc (S k)) = cyc_list (S k).
Proof.
  unfold push_at. rewrite alter_app_r_alt by (rewrite cyc_length; lia). rewrite cyc_length, Nat.sub_diag. cbn [alter list_alter].
  unfold cyc_list. rewrite seq_S, map_app. done.
Qed.

Lemma cyc_process_dep k q : Z.of_nat (S (S k)) < INVALID_ID ->
  process_dep MAX_PATH_BYTES pool cyclic Resolvable (cyc_going k) (Z.of_nat (S k)) INVALID_ID q (cyc (S k)) = Some (cyc_state (S k), true).
Proof.
  intros Hk. assert (Hl := cyc_list_ok k ltac:(lia)). unfold process_dep. cbn [cyc_going with_list with_queue resolutions cyc_state].
  destruct (cyc_package (S k)) as (p & pk & Hp & Hpk & Hs & Hf & Hi). destruct (cyc_dependency (S k)) as (dep & Hd & Hb & Hn).
  rewrite Hp, Hd. cbn [mbind option_bind skipped_by_filter]. rewrite Hn.
  destruct (cyc_conflict k dep ltac:(lia) Hd) as (t & d & x & r & Hnl & Hx & Hr & Hrc & Hne).
  assert (Hl' : list_ok cyclic (list_ (cyc_going k))).
  { apply list_ok_snoc; [done | rewrite cyc_length; lia|]. rewrite cyc_length. split; cbn; [done | right; lia | done | constructor | constructor]. }
  assert (Hh : hoist_dependency cyclic (length (list_ (cyc_going k))) true (cyc_going k) (Z.of_nat (S k)) INVALID_ID p (cyc (S k)) = Some (Ok (Placement (Z.of_nat (S k)) false))).
  { assert (Hlen : length (list_ (cyc_going k)) = S (S k)) by (cbn [cyc_going with_list list_]; rewrite length_app, cyc_length; cbn; lia).
    rewrite (hoist_here cyclic (cyc_going k) (S k) p (cyc (S k)) dep Hl' Hd) by lia.
    assert (Hnl' : node_lookup cyclic (list_ (cyc_going k)) (Z.of_nat (S k)) (name_hash dep) = Some (t, d)).
    { cbn [cyc_going with_list list_] in *. rewrite <- (cyc_length k) at 2. rewrite node_lookup_empty; done. }
    rewrite Hnl', Hx. cbn [mbind option_bind]. destruct (node_lookup_found cyclic _ _ _ _ _ Hl Hnl) as (i & _ & -> & Hi' & _).
    rewrite (proj2 (Z.eqb_neq _ _)) by lia. unfold same_name. cbn [cyc_going with_list with_queue cyc_state resolutions]. rewrite Hr. cbn [mbind option_bind].
    rewrite Hi, andb_false_r, (proj2 (Z.eqb_neq r _)) by (unfold invalid_package_id, U32_MAX; lia).
    rewrite (proj2 (Z.eqb_neq r p)) by congruence. cbn [andb]. by rewrite Hb. }
  unfold hoisted_result. rewrite Hb, Hi, Hpk. change (is_bundled PROD) with false. cbn [mbind option_bind]. rewrite Hf, Hh. cbn [mbind option_bind apply_hoisted].
  rewrite (update_push (cyc_going k) (S k) (new_tree (S k) (Z.of_nat k) (cyc k))).
  2: { cbn [cyc_going with_list list_]. rewrite lookup_app_r by (rewrite cyc_length; lia). by rewrite cyc_length, Nat.sub_diag. }
  cbn [mbind option_bind]. unfold queue_subtree. rewrite Hi, Hpk. cbn [mbind option_bind]. rewrite Hs. cbn [sl_len Z.ltb Z.compare]. cbn [cyc_going with_list list_]. by rewrite cyc_push.
Qed.

(** A round makes the next folder, and queues the package in it. *)
Lemma cyc_round k : Z.of_nat (S (S k)) < INVALID_ID ->
  process_subtree MAX_PATH_BYTES pool cyclic Resolvable (with_queue (cyc_state k) []) (Z.of_nat k) (cyc k) INVALID_ID = Some (cyc_state (S k), true).
Proof.
  intros Hk. unfold process_subtree. rewrite (proj2 (Z.eqb_neq (cyc k) ROOT_DEP_ID)) by (destruct (cyc_cases k) as [->|[->|[->| ->]]]; done).
  destruct (cyc_package k) as (p & pk & Hp & Hpk & Hs & _). cbn [with_queue resolutions cyc_state list_]. rewrite Hp. cbn [mbind option_bind]. rewrite Hpk. cbn [mbind option_bind].
  rewrite Hs, cyc_sorted. cbn [sl_len Z.eqb mbind option_bind]. rewrite cyc_length. unfold trunc32. rewrite Z.mod_small by (unfold INVALID_ID, U32_MAX in *; lia).
  cbn [process_deps]. assert (Hd := cyc_process_dep k p Hk). unfold cyc_going, new_tree in Hd. cbn [with_queue] in Hd. cbn [with_queue cyc_state] in *. rewrite Hd.
  cbn [mbind option_bind fst snd list_]. rewrite index_nat. cbn [list_ cyc_state]. rewrite cyc_lookup_folder by lia. done.
Qed.

Lemma cyc_runs fuel : forall k, Z.of_nat (S k + fuel) < INVALID_ID ->
  hoist_loop MAX_PATH_BYTES pool cyclic fuel Resolvable (cyc_state k) = OutOfFuel (cyc_state (k + fuel)).
Proof.
  induction fuel as [|fuel IH]; intros k Hk; cbn [hoist_loop queue cyc_state]; [by rewrite Nat.add_0_r|].
  cbn [item_tree_id item_dependency_id item_hoist_root_id]. 
  assert (Hix : exists e, index (list_ (with_queue (cyc_state k) [])) (Z.of_nat k) = Some e /\ id (tree e) = Z.of_nat k).
  { cbn [with_queue cyc_state list_]. rewrite index_nat. destruct k as [|k]; [by exists cyc_root|]. rewrite cyc_lookup_folder by lia. by eexists. }
  destruct Hix as (e & He & Hid). rewrite He, Hid, cyc_round by lia. rewrite IH by lia. by replace (S k + fuel)%nat with (k + S fuel)%nat by lia.
Qed.

(** A package with one dependency. *)
Lemma one_dependency b self d root p pk e : (if d =? ROOT_DEP_ID then Some 0 else index (resolutions b) d) = Some p ->
  index (packages cyclic) p = Some pk -> package_resolutions pk = {| sl_off := e; sl_len := 1 |} -> 0 <= e < 5 ->
  process_subtree MAX_PATH_BYTES pool cyclic Resolvable b self d root =
    (let n := trunc32 (Z.of_nat (length (list_ b))) in
     let new := {| id := n; dependency_id := d; parent := self; tree_dependencies := {| sl_off := 0; sl_len := 0 |} |} in
     r ← process_deps MAX_PATH_BYTES pool cyclic Resolvable (with_list b (list_ b ++ [{| tree := new; entry_dependencies := [] |}])) n root p [e];
     if (r.2 : bool) then
       x ← index (list_ r.1) n;
       Some (if sl_len (tree_dependencies (tree x)) =? 0 then with_list r.1 (take (length (list_ r.1) - 1) (list_ r.1)) else r.1, true)
     else Some r).
Proof. intros Hp Hpk Hs He. unfold process_subtree. rewrite Hp. cbn [mbind option_bind]. rewrite Hpk. cbn [mbind option_bind]. by rewrite Hs, single_sorted. Qed.

(** The state with a@1 at the root. *)
Definition cyc_first : Builder :=
  {| list_ := [{| tree := {| id := 0; dependency_id := ROOT_DEP_ID; parent := INVALID_ID; tree_dependencies := {| sl_off := 0; sl_len := 1 |} |}; entry_dependencies := [0] |}];
     resolutions := buf_resolutions cyclic; queue := [{| item_tree_id := 0; item_dependency_id := 0; item_hoist_root_id := INVALID_ID |}];
     pending_optional_peers := ∅; log := [] |}.

Lemma cyc_start : process_subtree MAX_PATH_BYTES pool cyclic Resolvable (builder_init cyclic) INVALID_ID ROOT_DEP_ID INVALID_ID = Some (cyc_first, true).
Proof. erewrite (one_dependency _ _ _ _ 0 _ 0); [| done | done | done | lia]. reflexivity. Qed.

(** Then b@1 is put there. *)
Lemma cyc_second : process_subtree MAX_PATH_BYTES pool cyclic Resolvable (with_queue cyc_first []) 0 0 INVALID_ID = Some (cyc_state 0, true).
Proof. erewrite (one_dependency _ _ _ _ 1 _ 1); [| done | done | done | lia]. reflexivity. Qed.

(** After the start, [fuel + 1] rounds leave [fuel + 1] folders, and a package to process. *)
Lemma cyc_builder fuel : Z.of_nat (S fuel) < INVALID_ID ->
  hoist_builder MAX_PATH_BYTES pool cyclic (S fuel) Resolvable = OutOfFuel (cyc_state fuel).
Proof.
  intros Hf. unfold hoist_builder. rewrite cyc_start. cbn [hoist_loop queue cyc_first].
  cbn [item_tree_id item_dependency_id item_hoist_root_id]. change (index (list_ (with_queue cyc_first [])) 0) with (list_ cyc_first !! 0%nat).
  cbn [list_ cyc_first lookup list_lookup tree id]. rewrite cyc_second. exact (cyc_runs fuel 0 Hf).
Qed.

End Rounds.
