(* ===== verification/HoistProps.v ===== *)
(** What hoisting promises: the packages that are installed find their
    dependencies, a folder has one package of a name, and the loop ends unless
    packages of several versions need each other in a cycle. *)
From stdpp Require Import gmap list.
From S2P Require Import Prelude BunCore SemverString SemverVersion SemverRange SemverQuery Glob Paths Hoist HoistSpec HoistStep HoistPlace HoistWant HoistInv HoistLoop HoistTerm HoistOut HoistCycle.

(** * A lockfile to try the theorems on *)

(** c needs another b than a; x and y need each other; f is a local folder that is asked for twice. *)
Definition sample : Lockfile := make_lockfile
  [(RRoot, [(b!"a", DDistTag, PROD, 1); (b!"c", DDistTag, PROD, 2); (b!"x", DDistTag, DEV, 6); (b!"f", DFolder, PROD, 8); (b!"f", DFolder, DEV, 8)]);
   (RGit, [(b!"b", DDistTag, PROD, 3)]);
   (RGit, [(b!"b", DDistTag, PROD, 4); (b!"d", DDistTag, PROD, 5)]);
   (RGit, []); (RGit, []);
   (RGit, [(b!"y", DDistTag, PROD, 7)]);
   (RGit, [(b!"y", DDistTag, PROD, 7)]);
   (RGit, [(b!"x", DDistTag, PROD, 6)]);
   (RFolder, [])].

Definition all_features : Features := {| optional_dependencies := true; dev_dependencies := true; peer_dependencies := true; workspaces := true |}.
Definition sample_opts : FilterOptions :=
  {| cpu := 1; os := 1; local_package_features := all_features; remote_package_features := all_features; subcommand_is_install := true;
     install_root_dependencies := true; workspace_filters := []; packages_to_install := None; top_level_dir := b!"/" |}.

Definition in_order : UnstableSort := {| sort_unstable_by := fun A cmp l => l |}.
Lemma in_order_ok : UnstableSortOk in_order.
Proof. by intros A cmp l. Qed.

Definition sample_rank (p : Z) : nat := if p =? 0 then 2%nat else if (p =? 1) || (p =? 2) then 1%nat else 0%nat.
Definition hoisted : Lockfile := default sample (hoist (F := scalar_search) (US := in_order) 4096 [] sample 20 (Filter sample_opts)).

Lemma sample_filters : filters_return 4096 [] sample sample_opts.
Proof. intros p _. by eexists. Qed.

(** The tree: c has a folder of its own, with its b. *)
Example sample_tree : map (fun e => (id (tree e), parent (tree e), entry_dependencies e)) (folders hoisted) =
  [(0, INVALID_ID, [0; 1; 2; 3; 4; 5; 7; 9]); (1, 0, [6])].
Proof. vm_compute. reflexivity. Qed.

Section Props.
Context {F : ByteSearch} {Fok : ByteSearchOk F} {US : UnstableSort} {USok : UnstableSortOk US}.
Context (MAX_PATH_BYTES : Z) (pool : bytes) (lf : Lockfile) (opts : FilterOptions) (Hok : lockfile_ok lf = true).
Context (Hfr : filters_return MAX_PATH_BYTES pool lf opts).

(** C3: once a lockfile has been hoisted for an install, every package of the
    tree, and the root, finds each dependency that is to be installed: looking up
    its name from folder to folder as Node does gives the package the lockfile
    resolved the dependency to, or, for a peer, one that its range accepts or that
    the root depends on; and a folder has at most one package of a name.  The
    lockfile is well-formed (a package has one package for all its dependencies of
    one name), its workspace filters answer, and the tree has fewer folders than a
    32-bit id can name; names are told apart by their hash. *)
Theorem hoist_resolves fuel lf' : Z.of_nat fuel < INVALID_ID - 1 ->
  hoist MAX_PATH_BYTES pool lf fuel (Filter opts) = Some lf' -> count (hoisted_dependencies lf') <= U32_MAX ->
  (forall t d p e q dep, installed (folders lf') t d -> pkg_of lf d = Some p -> dep_of lf p e -> to_install MAX_PATH_BYTES pool lf opts p e q dep ->
    exists t' d', require lf (folders lf') t d (name_hash dep) = Some (t', d') /\ serves lf e d') /\
  (forall x d d', x ∈ folders lf' -> d ∈ entry_dependencies x -> d' ∈ entry_dependencies x -> dep_hash lf d = dep_hash lf d' ->
    index (buf_resolutions lf) d = index (buf_resolutions lf) d').
Proof.
  intros Hf Hh Hc. destruct (hoist_folders MAX_PATH_BYTES pool lf opts Hok Hfr fuel lf' Hf Hh Hc) as (fin & b & Hd & Hq & Hone & Hs). split.
  - intros t d p e q dep Hi Hp He Hw.
    assert (Hib : installed (list_ b) t d).
    { destruct Hi as [Hi|(n & x & Hn & Hx & Hdx)]; [by left|]. destruct (Forall2_lookup_l _ _ _ _ _ Hs Hx) as (y & Hy & [_ _ Hde]). right. exists n, y.
      split; [done|]. split; [done|]. by rewrite <- Hde. }
    destruct (finished_served MAX_PATH_BYTES pool lf opts Hok fin b t d Hd Hq Hib p e q dep Hp He (to_install_wanted _ _ _ _ Hok _ _ _ _ Hw)) as (t' & d' & Hr & Ha).
    exists t', d'. rewrite (same_require lf _ _ Hs). split; [done | by apply accepts_serves].
  - intros x d d' [n Hx]%list_elem_of_lookup Hdx Hdx' Hn.
    destruct (Forall2_lookup_l _ _ _ _ _ Hs Hx) as (y & Hy & [_ _ Hde]). rewrite Hde in Hdx, Hdx'. by apply (Hone n y).
Qed.

(** C11: when each dependency goes down in some rank, or is the only package of
    its name, hoisting returns a lockfile (or has made as many folders as a
    32-bit id can name). *)
Theorem hoist_terminates rank : layered lf rank = true ->
  exists fuel, (exists lf', hoist MAX_PATH_BYTES pool lf fuel (Filter opts) = Some lf') \/
    (exists b, hoist_builder MAX_PATH_BYTES pool lf fuel (Filter opts) = OutOfFuel b /\ Z.of_nat (length (list_ b)) = INVALID_ID - 1).
Proof.
  intros Hl. destruct (start_ok MAX_PATH_BYTES pool lf opts Hok Hfr) as (b & Hb & Hd & Hlen & _).
  assert (Hne : list_ b <> [] \/ queue b = []).
  { destruct (queue b) as [|i q] eqn:Hq; [by right|]. left. intros Hnil. destruct Hd as [Hinv _].
    destruct (inv_queue _ _ _ _ _ _ _ Hinv i) as [_ (n & x & _ & Hx & _)]; [rewrite Hq; apply list_elem_of_here|]. by rewrite Hnil in Hx. }
  destruct (loop_ends MAX_PATH_BYTES pool lf opts Hok Hfr rank Hl _ b Hd ltac:(unfold INVALID_ID, U32_MAX; lia) Hne) as (fuel & _ & Hm). exists fuel.
  unfold hoist, hoist_builder. rewrite Hb. destruct (hoist_loop _ _ _ _ _ b) as [b'| | |b'] eqn:Hlo; try done; [left | right; by exists b'].
  destruct Hm as (fin & Hd' & _). destruct (clean_ok _ _ (done_kept MAX_PATH_BYTES pool lf opts Hok fin b' Hd') []) as (ts & suf & -> & _). by eexists.
Qed.

End Props.

(** Hoisting never returns for the lockfile [cyclic], whose packages a@1,
    b@1, a@2, b@2 need each other in a cycle: every round of the loop makes one
    more folder and queues one more package, as long as ids last. *)
Theorem hoist_diverges {F : ByteSearch} {US : UnstableSort} {USok : UnstableSortOk US} (MAX_PATH_BYTES : Z) (pool : bytes) rounds :
  Z.of_nat (S rounds) < INVALID_ID ->
  exists b, hoist_builder MAX_PATH_BYTES pool cyclic (S rounds) Resolvable = OutOfFuel b /\ length (list_ b) = S rounds /\ length (queue b) = 1%nat.
Proof. intros Hr. exists (cyc_state rounds). split; [by apply cyc_builder|]. split; [apply cyc_length | done]. Qed.

(** * The theorems at work *)

(** c finds its own b, and not the one at the root; the two dependencies on f are in one folder. *)
Lemma hoist_resolves_witness :
  (exists t d, require sample (folders hoisted) 0 1 (short_hash b!"b") = Some (t, d) /\ serves sample 6 d) /\
  index (buf_resolutions sample) 3 = index (buf_resolutions sample) 4.
Proof.
  destruct (@hoist_resolves scalar_search scalar_search_ok in_order in_order_ok 4096 [] sample sample_opts eq_refl sample_filters 20 hoisted) as [Hr Ho].
  - by vm_compute.
  - vm_compute. reflexivity.
  - by vm_compute.
  - split.
    + refine (Hr 0 1 2 6 4 (make_dep (b!"b", DDistTag, PROD, 4)) _ _ _ _).
      * right. exists 0%nat. eexists. split; [done|]. split; [vm_compute; reflexivity|]. by apply (bool_decide_unpack _); vm_compute.
      * by vm_compute.
      * eexists. split; [vm_compute; reflexivity|]. by apply (bool_decide_unpack _); vm_compute.
      * split; [by vm_compute | by vm_compute | | by vm_compute | | done].
        -- right. exists [b!"b"]. split; [done|]. split; [by vm_compute|]. constructor; [|constructor]. split; by apply (bool_decide_unpack _); vm_compute.
        -- eexists _, _. split; [vm_compute; reflexivity|]. split; [vm_compute; reflexivity|]. split; [by vm_compute|]. split; [by vm_compute|].
           split; [left; by vm_compute | by intros _ [=]].
    + refine (Ho (default cyc_root (folders hoisted !! 0%nat)) 3 4 _ _ _ _).
      * apply (list_elem_of_lookup_2 _ 0%nat). vm_compute. reflexivity.
      * by apply (bool_decide_unpack _); vm_compute.
      * by apply (bool_decide_unpack _); vm_compute.
      * by vm_compute.
Defined.

Lemma hoist_terminates_witness : exists fuel,
  (exists lf', hoist (F := scalar_search) (US := in_order) 4096 [] sample fuel (Filter sample_opts) = Some lf') \/
  (exists b, hoist_builder (F := scalar_search) (US := in_order) 4096 [] sample fuel (Filter sample_opts) = OutOfFuel b /\ Z.of_nat (length (list_ b)) = INVALID_ID - 1).
Proof.
  refine (@hoist_terminates scalar_search scalar_search_ok in_order in_order_ok 4096 [] sample sample_opts eq_refl sample_filters sample_rank _).
  by vm_compute.
Defined.

Lemma hoist_diverges_witness : exists b,
  hoist_builder (F := scalar_search) (US := in_order) 4096 [] cyclic 1000 Resolvable = OutOfFuel b /\ length (list_ b) = 1000%nat /\ length (queue b) = 1%nat.
Proof. refine (@hoist_diverges scalar_search in_order in_order_ok 4096 [] 999 _). by vm_compute. Defined.
