(* ===== verification/HoistPath.v ===== *)
(** src/src/install/lockfile/Tree.rs: a tree of the lockfile as bytes, the path
    of its folder, and the iterator over the folders. *)
From stdpp Require Import gmap list.
From S2P Require Import Prelude BunCore MultiBitSet SemverString SemverVersion SemverQuery Glob Paths Hoist.

(** * The form on disk *)

Definition EXTERNAL_SIZE : nat := 20.

Definition to_external (t : Tree) : option bytes :=
  let out := replicate EXTERNAL_SIZE 0 in
  out ← copy_from_slice out 0 (le_encode 4 (id t));
  out ← copy_from_slice out 4 (le_encode 4 (dependency_id t));
  out ← copy_from_slice out 8 (le_encode 4 (parent t));
  out ← copy_from_slice out 12 (le_encode 4 (sl_off (tree_dependencies t)));
  copy_from_slice out 16 (le_encode 4 (sl_len (tree_dependencies t))).

Definition to_tree (out : bytes) : option Tree :=
  id ← slice out 0 4;
  dep ← slice out 4 8;
  parent ← slice out 8 12;
  off ← slice out 12 16;
  len ← slice out 16 20;
  Some {| id := le_decode id; dependency_id := le_decode dep; parent := le_decode parent;
          tree_dependencies := {| sl_off := le_decode off; sl_len := le_decode len |} |}.

(** * Paths *)

Inductive IteratorPathStyle := NodeModules | PkgPath.

(** [Global::crash] after an error is printed. *)
Inductive Crash := DependencyPathTooLong | InvalidFolderName (name : bytes).

Definition node_modules : bytes := b!"node_modules".

Section RelativePath.
Context (MAX_PATH_BYTES : Z) (PATH_STYLE : IteratorPathStyle) (trees : list Tree) (dependencies : list Dependency) (string_buf : bytes).

Definition MAX_DEPTH : Z := MAX_PATH_BYTES / Z.of_nat (length node_modules) + 1.

Definition folder_name (t : Tree) : option bytes :=
  if dependency_id t =? invalid_dependency_id then Some []
  else d ← index dependencies (dependency_id t); Some (string_slice (name d) string_buf).

(** The ids from a tree to the root, which is left out; [None] when there are
    more than the buffer has place for. *)
Fixpoint walk_up (room : nat) (parent_id : Z) (depth_buf : list Z) : option (list Z) :=
  if 0 <? parent_id then
    match index trees parent_id with
    | None => Some depth_buf
    | Some t => match room with O => None | S room => walk_up room (parent t) (depth_buf ++ [parent_id]) end
    end
  else Some depth_buf.

(** [s] is written at [path_written]; [limit] when that is too long. *)
Definition append_path (limit : bool) (s : bytes) (p : bytes * nat) : option (Result (bytes * nat) Crash) :=
  if limit then Some (Err DependencyPathTooLong)
  else path_buf ← copy_from_slice p.1 p.2 s; Some (Ok (path_buf, (p.2 + length s)%nat)).

Definition too_long (n : nat) : bool := MAX_PATH_BYTES <=? Z.of_nat n.

Definition write_separator (first : bool) (p : bytes * nat) : option (Result (bytes * nat) Crash) :=
  match PATH_STYLE with
  | PkgPath => if first then Some (Ok p) else append_path (too_long (p.2 + 1)) b!"/" p
  | NodeModules => append_path (too_long (p.2 + 1)) b!"/" p
  end.

Definition write_node_modules (p : bytes * nat) : option (Result (bytes * nat) Crash) :=
  match PATH_STYLE with
  | PkgPath => Some (Ok p)
  | NodeModules => append_path (too_long (p.2 + length b!"/node_modules")) b!"/node_modules" p
  end.

(** One round of the loop that writes the names; the separator is that of the target. *)
Definition write_folder (first : bool) (id : Z) (p : bytes * nat) : option (Result (bytes * nat) Crash) :=
  r ← write_separator first p;
  match r with
  | Err e => Some (Err e)
  | Ok p =>
    t ← index trees id;
    name ← folder_name t;
    if negb (is_safe_install_folder_name name) then Some (Err (InvalidFolderName name))
    else
      r ← append_path (too_long (p.2 + length name)) name p;
      match r with
      | Err e => Some (Err e)
      | Ok p => write_node_modules p
      end
  end.

Fixpoint write_folders (first : bool) (ids : list Z) (p : bytes * nat) : option (Result (bytes * nat) Crash) :=
  match ids with
  | [] => Some (Ok p)
  | id :: ids =>
    r ← write_folder first id p;
    match r with Err e => Some (Err e) | Ok p => write_folders false ids p end
  end.

(** The buffer with the path, its length, and the depth. *)
Record RelativePath := { rp_buf : bytes; rp_len : nat; rp_depth : nat }.

Definition finish_path (p : bytes * nat) (depth : nat) : option (Result RelativePath Crash) :=
  path_buf ← copy_from_slice p.1 p.2 [0]; Some (Ok {| rp_buf := path_buf; rp_len := p.2; rp_depth := depth |}).

Definition relative_path_and_depth (tree_id : Z) (path_buf : bytes) : option (Result RelativePath Crash) :=
  tree ← index trees tree_id;
  let path_written := match PATH_STYLE with NodeModules => length node_modules | PkgPath => O end in
  if 0 <? id tree then
    match walk_up (Z.to_nat (MAX_DEPTH - 1)) (id tree) [] with
    | None => finish_path (path_buf, path_written) 0
    | Some ids =>
      r ← write_folders true (rev ids) (path_buf, path_written);
      match r with
      | Err e => Some (Err e)
      | Ok p => finish_path p (length ids)
      end
    end
  else finish_path (path_buf, path_written) 0.

Definition relative_path (r : RelativePath) : bytes := take (rp_len r) (rp_buf r).

(** * The iterator *)

Context (hoisted_dependencies : list Z).

Record Iterator := { it_tree_id : Z; path_buf : bytes }.
Record IteratorNext := { it_relative_path : bytes; it_dependencies : list Z; next_tree_id : Z; it_depth : nat }.

(** The buffer is not initialised. *)
Definition from_slices (uninit : bytes) : option Iterator :=
  b ← (match PATH_STYLE with NodeModules => copy_from_slice uninit 0 node_modules | PkgPath => Some uninit end);
  Some {| it_tree_id := 0; path_buf := b |}.

(** Skips folders without dependencies; [None] in the first place at the end. *)
Fixpoint skip_empty (fuel : nat) (tree_id : Z) (completed_trees : option DynamicBitSetUnmanaged) :
    option (option Tree * Z * option DynamicBitSetUnmanaged) :=
  match index trees tree_id with
  | None => Some (None, tree_id, completed_trees)
  | Some t =>
    if sl_len (tree_dependencies t) =? 0 then
      ct ← (match PATH_STYLE, completed_trees with
            | NodeModules, Some ct => ct ← DynamicBitSet.set ct tree_id; Some (Some ct)
            | _, _ => Some completed_trees
            end);
      match fuel with O => None | S fuel => skip_empty fuel (trunc32 (tree_id + 1)) ct end
    else Some (Some t, tree_id, completed_trees)
  end.

Definition next (it : Iterator) (completed_trees : option DynamicBitSetUnmanaged) :
    option (Result (option IteratorNext) Crash * Iterator * option DynamicBitSetUnmanaged) :=
  s ← skip_empty (length trees) (it_tree_id it) completed_trees;
  let '(t, current_tree_id, ct) := s in
  match t with
  | None => Some (Ok None, {| it_tree_id := current_tree_id; path_buf := path_buf it |}, ct)
  | Some tree =>
    deps ← slice_get (tree_dependencies tree) hoisted_dependencies;
    r ← relative_path_and_depth current_tree_id (path_buf it);
    match r with
    | Err e => Some (Err e, {| it_tree_id := current_tree_id; path_buf := path_buf it |}, ct)
    | Ok r =>
      Some (Ok (Some {| it_relative_path := relative_path r; it_dependencies := deps; next_tree_id := current_tree_id; it_depth := rp_depth r |}),
            {| it_tree_id := trunc32 (current_tree_id + 1); path_buf := rp_buf r |}, ct)
    end
  end.

End RelativePath.
