(* ===== verification/HoistPathProps.v ===== *)
(** The paths of folders and their form on disk: the path of a folder is that of
    the names on the way to it, all of them safe, and shorter than the buffer;
    the iterator gives each folder that holds something once. *)
From stdpp Require Import gmap list.
From S2P Require Import Prelude BunCore MultiBitSet SemverString SemverVersion SemverQuery Glob Paths Hoist HoistStep HoistPlace HoistWant HoistCycle HoistProps HoistPath.

(** * On disk *)

Definition tree_ok (t : Tree) : Prop :=
  is_u32 (id t) /\ is_u32 (dependency_id t) /\ is_u32 (parent t) /\ is_u32 (sl_off (tree_dependencies t)) /\ is_u32 (sl_len (tree_dependencies t)).

Lemma external_bytes t : to_external t =
  Some (le_encode 4 (id t) ++ le_encode 4 (dependency_id t) ++ le_encode 4 (parent t) ++
        le_encode 4 (sl_off (tree_dependencies t)) ++ le_encode 4 (sl_len (tree_dependencies t))).
Proof. reflexivity. Qed.

Lemma le_u32 z : is_u32 z -> le_decode (le_encode 4 z) = z.
Proof. intros Hz. rewrite le_decode_encode. apply Z.mod_small. unfold is_u32 in Hz. lia. Qed.

Section Paths.
Context (MAX_PATH_BYTES : Z) (PATH_STYLE : IteratorPathStyle) (trees : list Tree) (dependencies : list Dependency) (string_buf : bytes).
Notation folder_name := (folder_name dependencies string_buf).
Notation walk_up := (walk_up trees).
Notation append_path := (append_path).
Notation too_long := (too_long MAX_PATH_BYTES).
Notation write_folder := (write_folder MAX_PATH_BYTES PATH_STYLE trees dependencies string_buf).
Notation write_folders := (write_folders MAX_PATH_BYTES PATH_STYLE trees dependencies string_buf).

(** The ids from a folder up to the root. *)
Inductive chain : Z -> list Z -> Prop :=
| chain_root id : id <= 0 \/ index trees id = None -> chain id []
| chain_step id t ids : 0 < id -> index trees id = Some t -> chain (parent t) ids -> chain id (id :: ids).

Lemma walk_up_chain id ids : chain id ids -> forall room acc, walk_up room id acc = if decide (length ids <= room)%nat then Some (acc ++ ids) else None.
Proof.
  induction 1 as [id Hid|id t ids Hid Ht _ IH]; intros room acc.
  - rewrite decide_True by (cbn; lia). rewrite app_nil_r. destruct room; cbn [HoistPath.walk_up]; destruct (Z.ltb_spec 0 id); try done; destruct Hid as [|Hid]; [lia | by rewrite Hid | lia | by rewrite Hid].
  - destruct room as [|room]; cbn [HoistPath.walk_up length]; rewrite (proj2 (Z.ltb_lt 0 id) Hid), Ht; [done|]. rewrite IH.
    rewrite <- app_assoc. repeat case_decide; [done | lia | lia | done].
Qed.

(** What a folder adds to the path, and the path. *)
Definition separator (first : bool) : bytes := match PATH_STYLE with PkgPath => if first then [] else b!"/" | NodeModules => b!"/" end.
Definition closing : bytes := match PATH_STYLE with PkgPath => [] | NodeModules => b!"/node_modules" end.
Definition folder_part (first : bool) (name : bytes) : bytes := separator first ++ name ++ closing.
Fixpoint folder_parts (first : bool) (names : list bytes) : bytes :=
  match names with [] => [] | n :: names => folder_part first n ++ folder_parts false names end.
Definition root_path : bytes := match PATH_STYLE with NodeModules => node_modules | PkgPath => [] end.
Definition folder_path (names : list bytes) : bytes :=
  match PATH_STYLE with
  | NodeModules => node_modules ++ concat (map (fun n => b!"/" ++ n ++ b!"/node_modules") names)
  | PkgPath => join_with #"/" names
  end.

Lemma folder_path_parts names : folder_path names = root_path ++ folder_parts true names.
Proof.
  unfold folder_path, root_path. assert (H : forall names first, PATH_STYLE = NodeModules -> folder_parts first names = concat (map (fun n => b!"/" ++ n ++ b!"/node_modules") names)).
  { intros l first Hs. revert first. induction l as [|n l IH]; intros first; cbn [folder_parts map concat]; [done|]. rewrite IH. unfold folder_part, separator, closing. by rewrite Hs. }
  destruct PATH_STYLE eqn:Hs; [by rewrite H|]. destruct names as [|n names]; [done|]. cbn [folder_parts app]. unfold folder_part at 1, separator, closing. rewrite Hs, app_nil_r.
  cbn [app]. revert n. induction names as [|m names IH]; intros n; cbn [join_with folder_parts]; [by rewrite app_nil_r|]. f_equal.
  unfold folder_part, separator, closing. rewrite Hs, app_nil_r. cbn [app]. f_equal. apply IH.
Qed.

(** ** Writing *)

Definition buf_ok (b : bytes) : Prop := Z.of_nat (length b) = MAX_PATH_BYTES.

(** [s] has been written at [w], or it did not fit. *)
Definition appended (b : bytes) (w : nat) (s : bytes) (r : option (Result (bytes * nat) Crash)) : Prop :=
  (exists b', r = Some (Ok (b', (w + length s)%nat)) /\ buf_ok b' /\ take (w + length s) b' = take w b ++ s /\ Z.of_nat (w + length s) < MAX_PATH_BYTES) \/
  (r = Some (Err DependencyPathTooLong) /\ MAX_PATH_BYTES <= Z.of_nat (w + length s)).

Lemma append_spec b w s : buf_ok b -> Z.of_nat w < MAX_PATH_BYTES -> appended b w s (append_path (too_long (w + length s)) s (b, w)).
Proof.
  unfold append_path, HoistPath.too_long, buf_ok. intros Hb Hw. destruct (Z.leb_spec MAX_PATH_BYTES (Z.of_nat (w + length s))); [by right|]. left.
  cbn [fst snd]. rewrite copy_from_slice_ok by lia. cbn [mbind option_bind]. eexists. split; [done|]. split; [unfold buf_ok; rewrite length_copied; lia|].
  split; [apply take_copied; lia | lia].
Qed.

Lemma append_nothing b w : buf_ok b -> Z.of_nat w < MAX_PATH_BYTES -> appended b w [] (Some (Ok (b, w))).
Proof. intros Hb Hw. left. exists b. cbn [length]. rewrite Nat.add_0_r, app_nil_r. done. Qed.

Lemma separator_spec first b w : buf_ok b -> Z.of_nat w < MAX_PATH_BYTES -> appended b w (separator first) (write_separator MAX_PATH_BYTES PATH_STYLE first (b, w)).
Proof.
  intros Hb Hw. unfold write_separator, separator. destruct PATH_STYLE; [by apply append_spec|]. destruct first; [by apply append_nothing | by apply append_spec].
Qed.

Lemma closing_spec b w : buf_ok b -> Z.of_nat w < MAX_PATH_BYTES -> appended b w closing (write_node_modules MAX_PATH_BYTES PATH_STYLE (b, w)).
Proof. intros Hb Hw. unfold write_node_modules, closing. destruct PATH_STYLE; [by apply append_spec | by apply append_nothing]. Qed.

(** The folder [id] holds the dependencies of the dependency of name [n]; the id 2^32 - 1 is none. *)
Definition named (id : Z) (n : bytes) : Prop := exists t, index trees id = Some t /\
  (dependency_id t = 2 ^ 32 - 1 /\ n = [] \/
   dependency_id t <> 2 ^ 32 - 1 /\ exists d, index dependencies (dependency_id t) = Some d /\ n = string_slice (name d) string_buf).

Lemma named_folder id n : named id n -> exists t, index trees id = Some t /\ folder_name t = Some n.
Proof.
  intros (t & Ht & H). exists t. split; [done|]. unfold HoistPath.folder_name, invalid_dependency_id, U32_MAX.
  destruct H as [[-> ->]|(Hne & d & Hd & ->)]; [done|]. by rewrite (proj2 (Z.eqb_neq _ _) Hne), Hd.
Qed.

(** A folder is written, or its name is unsafe, or the path too long. *)
Lemma write_folder_spec first id n b w : buf_ok b -> Z.of_nat w < MAX_PATH_BYTES -> named id n ->
  (exists b', write_folder first id (b, w) = Some (Ok (b', (w + length (folder_part first n))%nat)) /\ buf_ok b' /\
     take (w + length (folder_part first n)) b' = take w b ++ folder_part first n /\ Z.of_nat (w + length (folder_part first n)) < MAX_PATH_BYTES /\
     is_safe_install_folder_name n = true) \/
  (exists e, write_folder first id (b, w) = Some (Err e) /\
     (is_safe_install_folder_name n = false \/ MAX_PATH_BYTES <= Z.of_nat (w + length (folder_part first n)))).
Proof.
  intros Hb Hw (t & Ht & Hn)%named_folder. unfold HoistPath.write_folder, folder_part. rewrite !length_app.
  destruct (separator_spec first b w Hb Hw) as [(b1 & -> & Hb1 & Ht1 & Hw1)|[-> Hlong]]; cbn [mbind option_bind]; [|right; eexists; split; [done|]; right; lia].
  rewrite Ht. cbn [mbind option_bind]. rewrite Hn. cbn [mbind option_bind]. destruct (is_safe_install_folder_name n) eqn:Hs; cbn [negb]; [|right; eexists; by auto].
  destruct (append_spec b1 _ n Hb1 Hw1) as [(b2 & H2 & Hb2 & Ht2 & Hw2)|[H2 Hlong]]; cbn [snd]; rewrite H2; cbn [mbind option_bind]; [|right; eexists; split; [done|]; right; lia].
  destruct (closing_spec b2 _ Hb2 Hw2) as [(b3 & -> & Hb3 & Ht3 & Hw3)|[-> Hlong]]; [|right; eexists; split; [done|]; right; lia].
  left. exists b3. rewrite !Nat.add_assoc. split; [done|]. split; [done|]. rewrite Ht3, Ht2, Ht1, <- !app_assoc. done.
Qed.

Lemma write_folders_spec ids ns : Forall2 named ids ns -> forall first b w, buf_ok b -> Z.of_nat w < MAX_PATH_BYTES ->
  (exists b', write_folders first ids (b, w) = Some (Ok (b', (w + length (folder_parts first ns))%nat)) /\ buf_ok b' /\
     take (w + length (folder_parts first ns)) b' = take w b ++ folder_parts first ns /\ Z.of_nat (w + length (folder_parts first ns)) < MAX_PATH_BYTES /\
     Forall (fun n => is_safe_install_folder_name n = true) ns) \/
  (exists e, write_folders first ids (b, w) = Some (Err e) /\
     (Exists (fun n => is_safe_install_folder_name n = false) ns \/ MAX_PATH_BYTES <= Z.of_nat (w + length (folder_parts first ns)))).
Proof.
  induction 1 as [|id n ids ns Hn _ IH]; intros first b w Hb Hw; cbn [HoistPath.write_folders folder_parts].
  - left. exists b. cbn [length]. rewrite Nat.add_0_r, app_nil_r. by repeat split.
  - rewrite length_app, Nat.add_assoc. destruct (write_folder_spec first id n b w Hb Hw Hn) as [(b1 & -> & Hb1 & Ht1 & Hw1 & Hs)|(e & -> & He)]; cbn [mbind option_bind].
    + destruct (IH false b1 _ Hb1 Hw1) as [(b2 & -> & Hb2 & Ht2 & Hw2 & Hs2)|(e & -> & He)].
      * left. exists b2. rewrite Ht2, Ht1, <- app_assoc. split; [done|]. split; [done|]. split; [done|]. split; [done | by constructor].
      * right. exists e. split; [done|]. destruct He as [He|He]; [left; by apply Exists_cons_tl | by right].
    + right. exists e. split; [done|]. destruct He as [He|He]; [left; by apply Exists_cons_hd | right; lia].
Qed.

Lemma finish_spec b w depth : buf_ok b -> Z.of_nat w < MAX_PATH_BYTES ->
  exists r, finish_path (b, w) depth = Some (Ok r) /\ relative_path r = take w b /\ rp_depth r = depth /\ buf_ok (rp_buf r) /\
    forall k, (k <= w)%nat -> take k (rp_buf r) = take k b.
Proof.
  intros Hb Hw. unfold finish_path, buf_ok in *. cbn [fst snd]. rewrite copy_from_slice_ok by (cbn; lia). cbn [mbind option_bind]. eexists. split; [done|].
  unfold relative_path. cbn [rp_len rp_buf rp_depth].
  assert (Hk : forall k, (k <= w)%nat -> take k (take w b ++ [0] ++ drop (w + length [0]) b) = take k b).
  { intros k Hk. rewrite take_app_le by (rewrite length_take; lia). by rewrite take_take, Nat.min_l. }
  split; [by apply Hk|]. split; [done|]. split; [rewrite length_copied; cbn; lia | done].
Qed.

(** ** A whole path *)

Definition path_buf_ok (b : bytes) : Prop := buf_ok b /\ take (length root_path) b = root_path.

Lemma take_some_of {A} (l : list A) n k r : take n l = r -> (k <= n)%nat -> take k l = take k r.
Proof. intros <- Hk. by rewrite take_take, Nat.min_l. Qed.

Lemma relative_path_spec tree_id b t ids ns : index trees tree_id = Some t -> chain (id t) ids -> Forall2 named (rev ids) ns ->
  path_buf_ok b -> Z.of_nat (length root_path) < MAX_PATH_BYTES ->
  match relative_path_and_depth MAX_PATH_BYTES PATH_STYLE trees dependencies string_buf tree_id b with
  | Some (Ok r) => path_buf_ok (rp_buf r) /\ Z.of_nat (length (relative_path r)) < MAX_PATH_BYTES /\
      if decide (Z.of_nat (length ids) < MAX_DEPTH MAX_PATH_BYTES)
      then relative_path r = folder_path ns /\ rp_depth r = length ids /\ Forall (fun n => is_safe_install_folder_name n = true) ns
      else relative_path r = root_path /\ rp_depth r = 0%nat
  | Some (Err _) => Z.of_nat (length ids) < MAX_DEPTH MAX_PATH_BYTES /\
      (Exists (fun n => is_safe_install_folder_name n = false) ns \/ MAX_PATH_BYTES <= Z.of_nat (length (folder_path ns)))
  | None => False
  end.
Proof.
  intros Ht Hc Hn [Hb Hroot] HM. unfold relative_path_and_depth. rewrite Ht. cbn [mbind option_bind].
  assert (Hw : match PATH_STYLE with NodeModules => length node_modules | PkgPath => 0%nat end = length root_path) by (unfold root_path; by destruct PATH_STYLE).
  rewrite Hw. clear Hw. assert (Hmax : 1 <= MAX_DEPTH MAX_PATH_BYTES).
  { unfold MAX_DEPTH. assert (0 <= MAX_PATH_BYTES / Z.of_nat (length node_modules)) by (apply Z.div_pos; cbn; lia). lia. }
  assert (Hend : forall b' w d, buf_ok b' -> Z.of_nat w < MAX_PATH_BYTES -> (length root_path <= w)%nat -> take (length root_path) b' = root_path ->
    exists r, finish_path (b', w) d = Some (Ok r) /\ path_buf_ok (rp_buf r) /\ Z.of_nat (length (relative_path r)) < MAX_PATH_BYTES /\ relative_path r = take w b' /\ rp_depth r = d).
  { intros b' w d Hb' Hw' Hle Hr'. destruct (finish_spec b' w d Hb' Hw') as (r & -> & Hp & Hd & Hbr & Hk). exists r. split; [done|].
    split; [split; [done|]; by rewrite Hk|]. split; [rewrite Hp, length_take; lia | done]. }
  destruct (Z.ltb_spec 0 (id t)) as [Hid|Hid].
  - rewrite (walk_up_chain _ _ Hc). destruct (decide (length ids <= _)%nat) as [Hl|Hl]; (destruct (decide (Z.of_nat (length ids) < MAX_DEPTH MAX_PATH_BYTES)) as [Hl'|Hl']; [try lia | try lia]).
    + cbn [app]. destruct (write_folders_spec _ _ Hn true b (length root_path) Hb HM) as [(b' & -> & Hb' & Htk & Hw' & Hs)|(e & -> & He)]; cbn [mbind option_bind].
      * destruct (Hend b' _ (length ids) Hb' Hw' ltac:(lia)) as (r & -> & Hpb & Hlen & Hrp & Hd).
        { rewrite (take_some_of _ _ _ _ Htk) by lia. rewrite Hroot. apply take_app_length. }
        split; [done|]. split; [done|]. split; [|done]. rewrite Hrp, Htk, Hroot. symmetry. apply folder_path_parts.
      * split; [lia|]. destruct He as [He|He]; [by left | right]. by rewrite folder_path_parts, length_app.
    + destruct (Hend b (length root_path) 0%nat Hb HM ltac:(lia) Hroot) as (r & -> & Hpb & Hlen & Hrp & Hd). split; [done|]. split; [done|]. by rewrite Hrp.
  - inversion Hc as [x Hx|x t' ids' Hx]; [|lia]. subst x ids. cbn [rev] in Hn. inversion Hn. subst ns. cbn [length].
    destruct (Hend b (length root_path) 0%nat Hb HM ltac:(lia) Hroot) as (r & -> & Hpb & Hlen & Hrp & Hd). rewrite Hroot in Hrp.
    split; [done|]. split; [done|]. rewrite decide_True by (cbn; lia). rewrite Hrp. split; [|done]. unfold folder_path, root_path. destruct PATH_STYLE; [by rewrite app_nil_r | done].
Qed.

(** * The iterator *)

Section Iterate.
Context (hoisted_dependencies : list Z).
Notation next := (next MAX_PATH_BYTES PATH_STYLE trees dependencies string_buf hoisted_dependencies).

(** The folders that [next] gives until it gives none. *)
Fixpoint iterate (fuel : nat) (it : Iterator) : option (list IteratorNext) :=
  match fuel with
  | O => None
  | S fuel =>
    r ← next it None;
    match r.1 with
    | (Ok None, _) => Some []
    | (Ok (Some x), it) => l ← iterate fuel it; Some (x :: l)
    | (Err _, _) => None
    end
  end.

Fixpoint numbered (k : nat) (l : list Tree) : list (nat * Tree) := match l with [] => [] | t :: l => (k, t) :: numbered (S k) l end.
Definition holding (l : list (nat * Tree)) : list (nat * Tree) := filter (fun p => sl_len (tree_dependencies p.2) <> 0) l.

(** What the iterator gives for a folder. *)
Definition visited (p : nat * Tree) (x : IteratorNext) : Prop :=
  next_tree_id x = Z.of_nat p.1 /\ slice_get (tree_dependencies p.2) hoisted_dependencies = Some (it_dependencies x) /\
  exists ids ns, chain (id p.2) ids /\ Forall2 named (rev ids) ns /\ it_relative_path x = folder_path ns /\ it_depth x = length ids.

(** The folder has a path that can be written, and its dependencies are there. *)
Definition visitable (t : Tree) : Prop :=
  is_Some (slice_get (tree_dependencies t) hoisted_dependencies) /\
  exists ids ns, chain (id t) ids /\ Forall2 named (rev ids) ns /\ Forall (fun n => is_safe_install_folder_name n = true) ns /\
    Z.of_nat (length (folder_path ns)) < MAX_PATH_BYTES /\ Z.of_nat (length ids) < MAX_DEPTH MAX_PATH_BYTES.

Context (Hlen : Z.of_nat (length trees) < 2 ^ 32) (HM : Z.of_nat (length root_path) < MAX_PATH_BYTES).
Context (Hvis : forall t, t ∈ trees -> sl_len (tree_dependencies t) <> 0 -> visitable t).

Lemma skip_spec l : forall pre fuel, trees = pre ++ l -> (length l <= fuel)%nat ->
  exists r k, skip_empty PATH_STYLE trees fuel (Z.of_nat (length pre)) None = Some (r, Z.of_nat k, None) /\
    match r with
    | None => holding (numbered (length pre) l) = []
    | Some t => exists pre' l', trees = pre' ++ t :: l' /\ k = length pre' /\ (length l' < length l)%nat /\ sl_len (tree_dependencies t) <> 0 /\
        holding (numbered (length pre) l) = (k, t) :: holding (numbered (S k) l')
    end.
Proof.
  induction l as [|t l IH]; intros pre fuel Htr Hf.
  - exists None, (length pre). split; [|done]. destruct fuel; cbn [skip_empty]; unfold index; rewrite Nat2Z.id, Htr, app_nil_r, lookup_ge_None_2; done.
  - assert (Hi : index trees (Z.of_nat (length pre)) = Some t) by (unfold index; rewrite Nat2Z.id, Htr; by apply list_lookup_middle).
    destruct (Z.eqb_spec (sl_len (tree_dependencies t)) 0) as [H0|H0].
    + destruct fuel as [|fuel]; [cbn in Hf; lia|]. cbn [skip_empty]. rewrite Hi, H0. cbn [Z.eqb].
      assert (Hc : forall A (x y : A), match PATH_STYLE, @None A with NodeModules, Some _ => x | _, _ => y end = y) by (intros; by destruct PATH_STYLE).
      replace (match PATH_STYLE with | NodeModules => Some None | PkgPath => Some None end) with (Some (@None DynamicBitSetUnmanaged)) by by destruct PATH_STYLE. cbn [mbind option_bind].
      assert (Hs : trunc32 (Z.of_nat (length pre) + 1) = Z.of_nat (length (pre ++ [t]))).
      { unfold trunc32. rewrite Z.mod_small; rewrite ?length_app; cbn; [lia|]. rewrite Htr, length_app in Hlen. cbn in Hlen. lia. }
      rewrite Hs. destruct (IH (pre ++ [t]) fuel) as (r & k & -> & Hr); [by rewrite <- app_assoc | cbn in Hf; lia|]. exists r, k. split; [done|].
      assert (Hh : holding (numbered (length pre) (t :: l)) = holding (numbered (length (pre ++ [t])) l)).
      { cbn [numbered]. unfold holding. rewrite filter_cons_False by (cbn; lia). by rewrite length_app, Nat.add_comm. }
      rewrite Hh. destruct r as [t'|]; [|done]. destruct Hr as (pre' & l' & H1 & H2 & H3 & H4 & H5). exists pre', l'. cbn [length]. repeat split; try done. lia.
    + exists (Some t), (length pre). split; [destruct fuel; cbn [skip_empty]; rewrite Hi; by rewrite (proj2 (Z.eqb_neq _ _) H0)|].
      exists pre, l. cbn [length]. split; [done|]. split; [done|]. split; [lia|]. split; [done|]. cbn [numbered]. unfold holding. by rewrite filter_cons_True.
Qed.

Lemma iterate_spec n : forall l pre b fuel, length l = n -> trees = pre ++ l -> path_buf_ok b -> (n < fuel)%nat ->
  exists out, iterate fuel {| it_tree_id := Z.of_nat (length pre); path_buf := b |} = Some out /\ Forall2 visited (holding (numbered (length pre) l)) out.
Proof.
  induction n as [n IH] using lt_wf_ind. intros l pre b [|fuel] Hn Htr Hb Hf; [lia|]. cbn [iterate]. unfold HoistPath.next. cbn [it_tree_id path_buf].
  assert (Hle : (length l <= length trees)%nat) by (rewrite Htr, length_app; lia).
  destruct (skip_spec l pre (length trees) Htr Hle) as (r & k & -> & Hr). cbn [mbind option_bind]. destruct r as [t|]; [|exists []; cbn; split; [done|]; rewrite Hr; constructor].
  destruct Hr as (pre' & l' & Htr' & -> & Hl' & Hne & ->). destruct (Hvis t) as [[deps Hd] (ids & ns & Hc & Hnm & Hs & Hw & Hdep)]; [rewrite Htr'; apply elem_of_app; right; apply list_elem_of_here | done |].
  rewrite Hd. cbn [mbind option_bind].
  assert (Hi : index trees (Z.of_nat (length pre')) = Some t) by (unfold index; rewrite Nat2Z.id, Htr'; by apply list_lookup_middle).
  assert (Hp := relative_path_spec _ b t ids ns Hi Hc Hnm Hb HM). destruct (relative_path_and_depth _ _ _ _ _ _ _) as [[rp|e]|]; [| |done].
  - rewrite decide_True in Hp by done. destruct Hp as (Hb' & _ & Hrp & Hdp & _). cbn [mbind option_bind fst snd].
    assert (Ht : trunc32 (Z.of_nat (length pre') + 1) = Z.of_nat (length (pre' ++ [t]))).
    { unfold trunc32. rewrite Z.mod_small; rewrite ?length_app; cbn; [lia|]. rewrite Htr', length_app in Hlen. cbn in Hlen. lia. }
    rewrite Ht. destruct (IH (length l') ltac:(lia) l' (pre' ++ [t]) (rp_buf rp) fuel eq_refl) as (out & -> & Hout); [by rewrite <- app_assoc | done | lia|].
    cbn [mbind option_bind]. eexists. split; [done|]. constructor; [|by rewrite length_app, Nat.add_comm in Hout].
    split; [done|]. split; [done|]. exists ids, ns. done.
  - exfalso. destruct Hp as [_ [He|He]]; [|lia]. apply Exists_exists in He as (x & Hx & Hu). rewrite Forall_forall in Hs. specialize (Hs x Hx). congruence.
Qed.

End Iterate.
End Paths.

Lemma to_tree_parts l1 l2 l3 l4 l5 : length l1 = 4%nat -> length l2 = 4%nat -> length l3 = 4%nat -> length l4 = 4%nat -> length l5 = 4%nat ->
  to_tree (l1 ++ l2 ++ l3 ++ l4 ++ l5) =
  Some {| id := le_decode l1; dependency_id := le_decode l2; parent := le_decode l3; tree_dependencies := {| sl_off := le_decode l4; sl_len := le_decode l5 |} |}.
Proof.
  intros H1 H2 H3 H4 H5. unfold to_tree.
  destruct l1 as [|? [|? [|? [|? []]]]]; try done. destruct l2 as [|? [|? [|? [|? []]]]]; try done. destruct l3 as [|? [|? [|? [|? []]]]]; try done.
  destruct l4 as [|? [|? [|? [|? []]]]]; try done. destruct l5 as [|? [|? [|? [|? []]]]]; try done.
Qed.

Lemma split4 (b : bytes) n : length b = (4 + n)%nat -> Forall is_byte b ->
  exists l r, b = l ++ r /\ length l = 4%nat /\ length r = n /\ Forall is_byte r /\ is_u32 (le_decode l) /\ le_encode 4 (le_decode l) = l.
Proof.
  intros Hb Hf. exists (take 4 b), (drop 4 b). assert (Hl : length (take 4 b) = 4%nat) by (rewrite length_take; lia).
  assert (Ht : Forall is_byte (take 4 b)) by by apply Forall_take. split; [by rewrite take_drop|]. split; [done|]. split; [rewrite length_drop; lia|].
  split; [by apply Forall_drop|]. split; [|rewrite <- Hl at 1; by apply le_encode_decode]. assert (Hr := le_decode_range _ Ht). rewrite Hl in Hr. unfold is_u32. lia.
Qed.

(** A tree written to the twenty bytes of the lockfile is read back, and any
    twenty bytes are the form of the tree they are read as. *)
Theorem external_round_trip :
  (forall t, tree_ok t -> exists b, to_external t = Some b /\ length b = EXTERNAL_SIZE /\ to_tree b = Some t) /\
  (forall b, length b = EXTERNAL_SIZE -> Forall is_byte b -> exists t, tree_ok t /\ to_tree b = Some t /\ to_external t = Some b).
Proof.
  split.
  - intros t (H1 & H2 & H3 & H4 & H5). rewrite external_bytes. eexists. split; [done|]. split; [by rewrite !length_app, !length_le_encode|].
    rewrite to_tree_parts by apply length_le_encode. rewrite !le_u32 by done. by destruct t as [? ? ? []].
  - intros b Hb Hf. destruct (split4 b 16 Hb Hf) as (l1 & r1 & -> & H1 & Hr1 & Hf1 & Hu1 & He1). destruct (split4 r1 12 Hr1 Hf1) as (l2 & r2 & -> & H2 & Hr2 & Hf2 & Hu2 & He2).
    destruct (split4 r2 8 Hr2 Hf2) as (l3 & r3 & -> & H3 & Hr3 & Hf3 & Hu3 & He3). destruct (split4 r3 4 Hr3 Hf3) as (l4 & r4 & -> & H4 & Hr4 & Hf4 & Hu4 & He4).
    destruct (split4 r4 0 Hr4 Hf4) as (l5 & r5 & -> & H5 & Hr5 & _ & Hu5 & He5). apply length_zero_iff_nil in Hr5 as ->. rewrite app_nil_r.
    eexists. split; [|split; [by apply to_tree_parts|]]; [done|]. rewrite external_bytes. cbn [id dependency_id parent tree_dependencies sl_off sl_len].
    by rewrite He1, He2, He3, He4, He5.
Qed.

Section Theorems.
Context (MAX_PATH_BYTES : Z) (PATH_STYLE : IteratorPathStyle) (trees : list Tree) (dependencies : list Dependency) (string_buf : bytes).
Context (HM : Z.of_nat (length (root_path PATH_STYLE)) < MAX_PATH_BYTES).

(** C30: the path of a folder is the names on the way down to it, between
    separators (and folders called node_modules), and its depth their number;
    every name is safe and the path is shorter than the buffer, or it is an
    error; a folder deeper than the buffer has places for has the path of the root
    and no error. *)
Theorem folder_path_correct tree_id b t ids ns : index trees tree_id = Some t -> chain trees (id t) ids ->
  Forall2 (named trees dependencies string_buf) (rev ids) ns -> path_buf_ok MAX_PATH_BYTES PATH_STYLE b ->
  match relative_path_and_depth MAX_PATH_BYTES PATH_STYLE trees dependencies string_buf tree_id b with
  | Some (Ok r) => Z.of_nat (length (relative_path r)) < MAX_PATH_BYTES /\
      if decide (Z.of_nat (length ids) <= MAX_PATH_BYTES / 12)
      then relative_path r = folder_path PATH_STYLE ns /\ rp_depth r = length ids /\ Forall safe_folder_name ns
      else relative_path r = root_path PATH_STYLE /\ rp_depth r = 0%nat
  | Some (Err _) => Z.of_nat (length ids) <= MAX_PATH_BYTES / 12 /\
      (Exists (fun n => ~ safe_folder_name n) ns \/ MAX_PATH_BYTES <= Z.of_nat (length (folder_path PATH_STYLE ns)))
  | None => False
  end.
Proof.
  intros Ht Hc Hn Hb. assert (H := relative_path_spec _ PATH_STYLE trees dependencies string_buf tree_id b t ids ns Ht Hc Hn Hb HM).
  unfold MAX_DEPTH in H. change (Z.of_nat (length node_modules)) with 12 in H.
  destruct (relative_path_and_depth _ _ _ _ _ _ _) as [[r|e]|]; [|destruct H as [Hl H]|done].
  - destruct H as (_ & Hlen & H). split; [done|]. destruct (decide (_ <= _)) as [Hl|Hl]; [rewrite decide_True in H by lia | rewrite decide_False in H by lia; done].
    destruct H as (Hp & Hd & Hs). split; [done|]. split; [done|]. eapply Forall_impl; [exact Hs|]. intros n. apply safe_name_spec.
  - split; [lia|]. destruct H as [H|H]; [left|by right]. eapply Exists_impl; [exact H|]. intros n Hf Hsafe. apply safe_name_spec in Hsafe. congruence.
Qed.

(** The iterator gives each folder that holds a dependency once, in the order
    of the list, with its dependencies, its path and its depth, and then ends. *)
Theorem iterator_visits_folders hoisted_dependencies uninit : Z.of_nat (length uninit) = MAX_PATH_BYTES -> Z.of_nat (length trees) < 2 ^ 32 ->
  (forall t, t ∈ trees -> sl_len (tree_dependencies t) <> 0 -> visitable MAX_PATH_BYTES PATH_STYLE trees dependencies string_buf hoisted_dependencies t) ->
  exists it out, from_slices PATH_STYLE uninit = Some it /\
    iterate MAX_PATH_BYTES PATH_STYLE trees dependencies string_buf hoisted_dependencies (S (length trees)) it = Some out /\
    Forall2 (visited PATH_STYLE trees dependencies string_buf hoisted_dependencies) (holding (numbered 0 trees)) out.
Proof.
  intros Hu Hl Hv.
  assert (Hb : exists b, from_slices PATH_STYLE uninit = Some {| it_tree_id := 0; path_buf := b |} /\ path_buf_ok MAX_PATH_BYTES PATH_STYLE b).
  { unfold from_slices, path_buf_ok, buf_ok, root_path in *. destruct PATH_STYLE; [|by exists uninit].
    rewrite copy_from_slice_ok by (cbn [Nat.add]; lia). cbn [mbind option_bind]. eexists. split; [done|]. split; [rewrite length_copied; lia|].
    exact (take_copied uninit node_modules 0 ltac:(lia)). }
  destruct Hb as (b & Hf & Hb). exists {| it_tree_id := 0; path_buf := b |}.
  destruct (iterate_spec MAX_PATH_BYTES PATH_STYLE trees dependencies string_buf hoisted_dependencies Hl HM Hv _ trees [] b (S (length trees)) eq_refl eq_refl Hb ltac:(lia)) as (out & Hi & Ho).
  by exists out.
Qed.

End Theorems.

(** * The theorems at work *)

Lemma external_round_trip_witness : exists b,
  to_external {| id := 7; dependency_id := 300; parent := 0; tree_dependencies := {| sl_off := 65536; sl_len := 2 |} |} = Some b /\ length b = EXTERNAL_SIZE /\
  to_tree b = Some {| id := 7; dependency_id := 300; parent := 0; tree_dependencies := {| sl_off := 65536; sl_len := 2 |} |}.
Proof. apply (proj1 external_round_trip). unfold tree_ok, is_u32. cbn. lia. Defined.

(** The buffers of the sample once it is hoisted. *)
Definition sample_trees : list Tree := Eval vm_compute in trees hoisted.
Definition sample_hoisted : list Z := Eval vm_compute in hoisted_dependencies hoisted.
Definition sample_dependencies : list Dependency := Eval vm_compute in dependencies sample.

(** The folder of c in the tree of the sample. *)
Lemma c_chain : chain sample_trees 1 [1].
Proof. eapply chain_step; [done | vm_compute; reflexivity|]. apply chain_root. by left. Qed.

Lemma c_named : Forall2 (named sample_trees sample_dependencies []) [1] [b!"c"].
Proof.
  constructor; [|constructor]. eexists. split; [vm_compute; reflexivity|]. right. split; [done|]. eexists. split; [vm_compute; reflexivity|]. by vm_compute.
Qed.

Definition scratch_buf : bytes := node_modules ++ replicate 116 0.

Lemma folder_path_correct_witness : exists r,
  relative_path_and_depth 128 NodeModules sample_trees sample_dependencies [] 1 scratch_buf = Some (Ok r) /\
  relative_path r = b!"node_modules/c/node_modules" /\ rp_depth r = 1%nat.
Proof.
  assert (H := folder_path_correct 128 NodeModules sample_trees sample_dependencies [] eq_refl 1 scratch_buf
    {| id := 1; dependency_id := 1; parent := 0; tree_dependencies := {| sl_off := 8; sl_len := 1 |} |} [1] [b!"c"] ltac:(by vm_compute) c_chain c_named ltac:(by split)).
  destruct (relative_path_and_depth _ _ _ _ _ _ _) as [[r|e]|] eqn:Hr; [|by vm_compute in Hr..].
  exists r. split; [done|]. destruct H as [_ H]. destruct (decide _) as [_|Hn] in H; [|by destruct Hn].
  destruct H as (Hp & Hd & _). split; [exact Hp | exact Hd].
Defined.

Lemma sample_visitable t : t ∈ sample_trees -> visitable 128 NodeModules sample_trees sample_dependencies [] sample_hoisted t.
Proof.
  intros [n Hn]%list_elem_of_lookup. assert (Hlt := lookup_lt_Some _ _ _ Hn). destruct n as [|[|n]]; [| |vm_compute in Hlt; lia]; vm_compute in Hn; injection Hn as <-.
  - split; [by eexists|]. exists [], []. split; [apply chain_root; by left|]. by repeat split; try constructor.
  - split; [by eexists|]. exists [1], [b!"c"]. split; [exact c_chain|]. split; [exact c_named|]. split; [by repeat constructor | done].
Qed.

Lemma iterator_visits_folders_witness : exists it out, from_slices NodeModules (replicate 128 0) = Some it /\
  iterate 128 NodeModules sample_trees sample_dependencies [] sample_hoisted 3 it = Some out /\
  Forall2 (visited NodeModules sample_trees sample_dependencies [] sample_hoisted) (holding (numbered 0 sample_trees)) out.
Proof.
  refine (iterator_visits_folders 128 NodeModules sample_trees sample_dependencies [] eq_refl sample_hoisted (replicate 128 0) eq_refl eq_refl _).
  intros t Ht _. by apply sample_visitable.
Defined.

(** A tree that is its own ancestor (a malformed lockfile) has the path of the
    root, and no error. *)
Example own_ancestor : relative_path <$> (r ← relative_path_and_depth 128 NodeModules
    [{| id := 0; dependency_id := ROOT_DEP_ID; parent := INVALID_ID; tree_dependencies := {| sl_off := 0; sl_len := 0 |} |};
     {| id := 1; dependency_id := 0; parent := 1; tree_dependencies := {| sl_off := 0; sl_len := 1 |} |}] sample_dependencies [] 1 scratch_buf; ok r) = Some node_modules.
Proof. vm_compute. reflexivity. Qed.
